(* ===== verification/_CoqProject ===== *)
-Q . S2P
Prelude.v
Containers.v
Fifo.v
Nostr.v
Events.v
MeshTypes.v
InvWant.v
MeshSelect.v
Mesh.v
MeshOps.v
MeshSpec.v
MeshSched.v
MeshProps.v
Subscriptions.v
SubscriptionsProps.v
Pagination.v
Wire.v
Retained.v
FileStore.v
Memory.v
Routes.v
LiveRoutes.v
Router.v
Relay.v
RelayProps.v
VarInt.v
Negentropy.v
NegSplit.v
NegReconcile.v
NegValidate.v
ReconcileSession.v
ReconcileProps.v
ReconcileWitness.v
FipsSeen.v
FipsDelivery.v
FipsRecent.v
FipsPending.v
FipsBehavior.v
Ranked.v
SocialPolicy.v
SocialReputation.v
ToyRating.v
ReputationInv.v
ReputationProps.v
ReputationWitness.v
RatingPublisher.v
FipsOptions.v
FipsRoles.v
FipsPeers.v
FipsClient.v
FipsHandlers.v
FipsOps.v
FipsTransport.v
RecordStream.v
FipsStream.v
FipsStreamProps.v
FipsStreamWitness.v
FipsReputation.v
FipsInv.v
FipsSafety.v
FipsProps.v
FipsToy.v
FipsTcp.v
StreamTcp.v
StreamTcpInv.v
StreamTcpFlush.v
StreamTcpProps.v
ServiceRetry.v
WireTcp.v
WireTcpInv.v
WireTcpProps.v
TcpWitness.v
SimBasics.v
Topology.v
Incentives.v
IncentivesBooks.v
IncentivesProps.v
TopologyProps.v
TopologyHybrid.v
