(* ===== verification/Prelude.v ===== *)
(** * nostr-pubsub: a verification development

    This library models the Rust crates under src/crates and proves what makes
    them correct. It covers the core crate (crates/nostr-pubsub), the set
    reconciliation crate (crates/nostr-pubsub-reconcile), the client of the
    FIPS crate (crates/nostr-pubsub-fips), the provider over relays
    (crates/nostr-pubsub-relay), the reputation of peers in the social graph
    crate (crates/nostr-pubsub-social-graph), and the simulator's topologies,
    virtual clock, metrics and incentive plans (crates/nostr-pubsub-sim).

    ** The program

    nostr-pubsub routes signed Nostr events between local indexes, FIPS peers
    and relays. The components and how they interact:
    - the core types of lib.rs: a [VerifiedEvent] can only be made by checking
      a signature, so whatever holds one may trust it;
    - the inventory/want mesh (mesh.rs, mesh_resources.rs, mesh_verified.rs):
      a transport-neutral state machine; the transport feeds it messages and
      carries out the actions it returns. Peers announce identifiers, ask for
      what they want and only then receive bodies;
    - the store of peer subscriptions (subscriptions.rs), filled from wire
      frames by the adapter of wire.rs, which decides who is interested;
    - stores: retained.rs (a bounded snapshot with replacement and expiry),
      file_store.rs (that snapshot made durable), memory.rs (a bus with live
      subscriptions), and pagination.rs (a cursor through a source's history);
    - routing: routes.rs (queries over replicas and datasets), live_routes.rs
      (subscriptions over several sources) and router.rs (both, and
      publication);
    - reconciliation: two peers compare sorted records by fingerprints of
      ranges until each knows what it lacks (engine.rs, on the integers of
      codec.rs; validation.rs checks a peer's frame before the engine sees it;
      lib.rs bounds the conversation);
    - the FIPS client: subscriptions of an application served by peers over
      authenticated links. client_inner.rs holds the state and the handlers;
      each structure it uses has a file of its own (seen_ids.rs,
      local_delivery.rs, recent_events.rs, pending_wants.rs,
      provider_behavior.rs), privacy_roles.rs restricts what may leave, and
      client_peers.rs selects links;
    - streams below them: stream.rs puts the mesh behind length-prefixed
      records, stream_tcp.rs drives it over TCP connections between FIPS
      peers, and wire_tcp.rs (with inbound.rs and retry.rs) does the same for
      the frames of the FIPS client;
    - reputation: signed ratings of peers, of which only those by the local root
      and its explicit raters shape the social graph that policies read
      (reputation.rs of the social graph crate, lib.rs for the policies), and a
      task beside the FIPS client that maintains them and publishes local
      ratings (reputation.rs and client_reputation.rs of the FIPS crate);
    - relays: a provider over a pool of relay connections, whose live
      subscriptions are sent again after a relay closed or rate-limited them
      (lib.rs of the relay crate), and a session's event loop (session.rs);
    - the simulator: topology.rs builds the bounded graphs over which the mesh
      is exercised, clock.rs orders its events in virtual time, metrics.rs
      summarizes what was sent, and incentives.rs (with its modules and
      incentive_gates.rs) plans what paying for the deliveries would cost under
      five strategies and recommends one.

    ** The files
    - Prelude: the [result] type and its monad ([?] is bind), a state and
      error monad that keeps mutations on the error path, machine integers.
    - Containers, Fifo: the white space of Rust's [trim], sorting by a
      comparison, the iteration orders of BTreeMap (sorted) and HashMap
      (unspecified, a class), adjacent deduplication, the map-with-queue pairs
      that many structures keep with the eviction loop, and bounded windows of
      identifiers.
    - Nostr: the class [Nostr] of what the third-party nostr crate provides,
      [NostrLaws] of what the code relies on, and a small instance [Toy] on
      which theorems are evaluated.
    - Events (lib.rs); MeshTypes, InvWant, MeshSelect, Mesh (the mesh files and
      inv_want.rs; each method is the definition of its name); Subscriptions
      (subscriptions.rs); Pagination; Wire; Retained; FileStore; Memory;
      Routes; LiveRoutes; Router (the file of the same name).
    - MeshOps, MeshSpec, MeshSched, MeshProps: the mesh invariant,
      its preservation by every operation, reachability ([reach]: any run of
      operations at non-decreasing times, with its trace of calls and
      actions), the pruning schedule, and the theorems.
    - SubscriptionsProps: the specification of the
      subscription store (lists in order of last touch), its refinement, and
      the exactness of the accounting.
    - VarInt (codec.rs and validation.rs), Negentropy (engine.rs, with the
      crate's storage as the class [NegStorage]), ReconcileSession (lib.rs);
      NegSplit, NegReconcile, NegValidate: frames as
      values, range splitting, one turn of the engine against a partition of
      the records, validation of everything the engine writes, truncation;
      ReconcileProps, ReconcileWitness: the conversation and its theorems.
    - FipsSeen, FipsDelivery, FipsRecent, FipsPending, FipsBehavior: the five
      structures of the FIPS client, each with its invariant and theorem.
      FipsOptions, FipsRoles, FipsPeers: options (lib.rs), privacy_roles.rs
      and client_peers.rs. FipsClient: [ClientInner] and the operations the
      handlers share; FipsHandlers: frames from peers; FipsOps: calls of the
      application and upkeep; FipsTransport: the transport task's turns
      (client_transport.rs), with the TCP driver's answers as an argument.
    - FipsInv, FipsSafety, FipsProps: the client's invariant, its
      preservation by every operation and turn, runs of steps in any order,
      and the theorems; FipsToy: a concrete client on which they are
      evaluated.
    - RecordStream: records on a byte stream. FipsStream (stream.rs), with
      FipsStreamProps (reassembly, and the simulation of the mesh) and
      FipsStreamWitness.
    - FipsTcp: the class [FipsTcp] of a TCP endpoint, connections and queues,
      which both drivers share. StreamTcp (stream_tcp.rs); StreamTcpInv,
      StreamTcpFlush, StreamTcpProps: its invariant, its runs with an
      arbitrary endpoint, what a flush conserves, the theorems. ServiceRetry
      (retry.rs and inbound.rs), WireTcp (wire_tcp.rs), WireTcpInv,
      WireTcpProps: the same for the client's driver. TcpWitness: a concrete
      endpoint and runs of both drivers.
    - SocialPolicy (lib.rs of the social graph crate), SocialReputation and
      RatingPublisher (its reputation.rs); Ranked: limits by rank;
      ReputationInv, ReputationProps: what the limits keep,
      the invariant, runs and theorems; ToyRating, ReputationWitness: concrete
      ratings. FipsReputation: the managed reputation of a FIPS client.
    - Relay (lib.rs and session.rs of the relay crate), RelayProps: queries,
      live subscriptions with their handler and replay, publication.
    - Topology (topology.rs of the simulator), TopologyProps, TopologyHybrid:
      simple bounded graphs as an invariant of the builder, links that last
      once made, the accounts of discovery, the theorems.
    - SimBasics (clock.rs and metrics.rs): the scheduler against an agenda, the
      metrics against their definitions. Incentives (incentives.rs,
      streaming.rs, accepted_batch.rs, exposure.rs, incentive_gates.rs);
      IncentivesBooks: pricing, and the invariant [sound] of a plan's books
      kept by every step of every strategy; IncentivesProps: the theorems.

    ** What the theorems show
    - Safety of the mesh: the invariant of every reachable state, bounded
      memory, only verified events sent or delivered, nothing delivered
      unasked, errors change only reputation, expiry on time; and what each
      kind of message does on every branch.
    - Refinement: the subscription store and its specification; the durable
      store and the disk; observed identifiers and cached events of the FIPS
      client against lists. Equivalence: peer selection, the verification
      cache, deduplication windows, incremental accounting against a direct
      definition. Round trips: wire frames, envelopes, snapshots, integers.
      Termination and completeness: walking a history ends, and ends
      complete. Functional specifications of queries, routing, publication.
    - Reconciliation: it finds exactly the difference of the two sets, every
      accepted frame is answered, and a conversation ends within its limits.
    - The FIPS client: a delivery keeps order, delivers once and loses nothing
      it accepted before it lags; answers are taken only from peers that were
      asked; cooldowns are deserved. Over every run: the client does not
      panic, its structures stay bounded, an application receives only
      admitted events that match what it asked for, and only frames the
      privacy role allows leave, with the exception [publisher_retry_unchecked]
      shows.
    - Streams: whatever bytes arrive and whatever the network does, the stream
      and its driver only do what a reachable mesh asks for, never panic and
      stay bounded; fragments reassemble into the frames sent; queued records
      reach a peer whole and in order, from their start when the stream is
      replaced; both ends of a simultaneous open keep the same stream; dials
      are paced and back off. Two runs show where an event is lost
      ([bad_record_loses_delivery], [full_queue_loses_delivery]).
    - Reputation: ratings by strangers change nothing that a policy can see (two
      runs, with and without them, agree), retained ratings stay bounded and
      valid, the graph is the projection of the authorized ones, and local
      ratings are published at their pace.
    - Relays: a query answers the newest verified matching events once each; a
      live subscription is opened for every filter or for none, hands over
      exactly the matching verified events, and one that a relay dropped is
      due to be asked for again within the longest delay of a replay.
    - Topologies: whatever the configuration, building one ends without a
      panic in a simple graph within its degree caps; honest peers reach each
      other without attackers; discovery fills every quota exactly.
    - Clock, metrics and incentives: events come out in the order of their
      times and then of their arrival; percentiles, means and the Gini
      concentration are what their definitions say, without overflow; pricing
      loses no byte; every plan of a valid report ends without a panic, settles
      no more than was earned, conserves what is prepaid or locked, and exposes
      its parties to no more than the configuration allows; a recommendation is
      optimal among the reports it may choose from.

    ** Conventions
    Unsigned integers are [N], signed ones [Z]; saturating, checked and
    wrapping operations are written as the code has them. Strings and byte
    vectors are [string]. A HashMap is a [gmap]; where its iteration order
    could matter the order is the class [HashOrder]'s, and the theorems hold
    for every order. A loop that pops a queue recurses on the queue. Loops
    that are not structural take fuel and are proved to end before it runs
    out: [evict_until_fits] and [trim] take one more than the queue they pop,
    the reconciliation loops one more than the length of the message they
    read, of which every turn reads at least three bytes
    ([reconcile_aux_ends]), writing a queue the budget of a turn, and
    accepting connections the endpoint's backlog ([driver_loops_end]).
    A panic ([expect]) is [None], and proved unreachable. Async functions are
    sequential: every lock is held for a whole operation.

    ** Parameters
    Code outside src/ is a class or an argument: [Nostr] (the nostr crate),
    [EnvelopeJson], [WireJson] and [FilterFields] (serde's JSON),
    [NegStorage] and [NegVector] (the negentropy crate), [FipsCore]
    (identities of fips_core, and the standard library's unspecified hash),
    [KeyText], [SocialGraphBackend] and [RatingCrates] (keys as text, the graph
    and the ratings of nostr_social_graph and nostr_social_memory),
    [FipsTcp] and [TcpSegments] (the endpoint and segments of fips_tcp),
    [RelayClient] (the client of nostr_sdk, with the prefixes of its messages),
    [HashOrder] (iteration of HashMaps). Their laws state documented
    behaviour; [agreed] hypotheses of reconciliation say that fingerprints of
    the records at hand do not collide.

    ** Not modelled
    In the FIPS crate: the configuration of TCP endpoints, peer finding, and
    starting the client's tasks; its clients' concurrency is that of whole
    operations. Connecting a relay session and dropping it, which only call
    nostr_sdk's pool; the simulator's event loop, workloads and reports, an
    experiment harness around the mesh that is modelled. The
    TypeScript packages, scripts and tests; lock poisoning and cancellation of tasks; the layout of JSON,
    which belongs to serde and to the nostr crate. *)

From stdpp Require Export prelude gmap strings sorting pretty.
From Stdlib Require Export ZArith Lia.

#[global] Open Scope N_scope.

Declare Scope pubsub_scope.
Delimit Scope pubsub_scope with pubsub.
#[global] Open Scope pubsub_scope.

(** ** Results and errors

    [result E A] is Rust's [Result<A, E>]; it is a monad through stdpp's
    classes, so [x ← e; k] is the [?] operator. *)
Inductive result (E A : Type) : Type :=
  | Ok (a : A)
  | Err (e : E).
Arguments Ok {E A} a.
Arguments Err {E A} e.

#[export] Instance result_ret E : MRet (result E) := λ A a, Ok a.
#[export] Instance result_bind E : MBind (result E) := λ A B f r,
  match r with Ok a => f a | Err e => Err e end.
#[export] Instance result_fmap E : FMap (result E) := λ A B f r,
  match r with Ok a => Ok (f a) | Err e => Err e end.

Definition is_ok {E A} (r : result E A) : bool :=
  match r with Ok _ => true | Err _ => false end.
Definition is_err {E A} (r : result E A) : bool := negb (is_ok r).

(** [Result::map_err]. *)
Definition map_err {E F A} (f : E → F) (r : result E A) : result F A :=
  match r with Ok a => Ok a | Err e => Err (f e) end.

Lemma result_bind_Ok {E A B} (f : A → result E B) r b :
  r ≫= f = Ok b ↔ ∃ a, r = Ok a ∧ f a = Ok b.
Proof. destruct r; simpl; naive_solver. Qed.

Lemma map_err_Ok {A E F} (f : E → F) (r : result E A) a : map_err f r = Ok a ↔ r = Ok a.
Proof. destruct r; simpl; naive_solver. Qed.

Lemma result_bind_assoc {E A B C} (f : A → result E B) (g : B → result E C) r :
  (r ≫= f) ≫= g = r ≫= (λ a, f a ≫= g).
Proof. by destruct r. Qed.

(** ** A state and error monad

    A method [fn op(&mut self, ..) -> Result<A, E>] is a value of [SE S E A]:
    the state reached is returned on the error path as well, because Rust
    keeps the mutations made before an early return. *)
Definition SE (S E A : Type) : Type := S → result E A * S.

#[export] Instance se_ret S E : MRet (SE S E) := λ A a s, (Ok a, s).
#[export] Instance se_bind S E : MBind (SE S E) := λ A B f c s,
  match c s with
  | (Ok a, s') => f a s'
  | (Err e, s') => (Err e, s')
  end.

Definition se_lift {S E A} (r : result E A) : SE S E A := λ s, (r, s).
Definition se_fail {S E A} (e : E) : SE S E A := λ s, (Err e, s).
Definition se_get {S E} : SE S E S := λ s, (Ok s, s).
Definition se_modify {S E} (f : S → S) : SE S E unit := λ s, (Ok tt, f s).

Lemma se_bind_Ok {S E A B} (c : SE S E A) (f : A → SE S E B) s b s' :
  (c ≫= f) s = (Ok b, s') ↔ ∃ a s1, c s = (Ok a, s1) ∧ f a s1 = (Ok b, s').
Proof.
  unfold mbind, se_bind. split.
  - destruct (c s) as [[a|] s1] eqn:Hc; [|done]. eauto.
  - intros (a & s1 & -> & ?). done.
Qed.

(** ** Machine integers

    Unsigned integers are [N], signed ones [Z]; [usize] is 64 bits wide. *)
Definition u8_max : N := 255.
Definition u16_max : N := 65535.
Definition u32_max : N := 4294967295.
Definition u64_max : N := 18446744073709551615.
Definition usize_max : N := u64_max.
Definition i32_min : Z := -2147483648.
Definition i32_max : Z := 2147483647.

(** [saturating_add] and [saturating_mul] at a given maximum; unsigned
    [saturating_sub] is [N.sub]. *)
Definition sat_add (max a b : N) : N := N.min (a + b) max.
Definition sat_mul (max a b : N) : N := N.min (a * b) max.
Definition u32_sat_add : N → N → N := sat_add u32_max.
Definition u64_sat_add : N → N → N := sat_add u64_max.
Definition usize_sat_add : N → N → N := sat_add usize_max.
(** [checked_add]. *)
Definition checked_add (max a b : N) : option N :=
  if decide (a + b ≤ max) then Some (a + b) else None.
(** Release-mode [+] on [u64]/[usize] wraps. *)
Definition u64_wrap (a : N) : N := a `mod` (u64_max + 1).

Definition clamp (lo hi x : Z) : Z := Z.max lo (Z.min hi x).
Definition i32_sat_add (a b : Z) : Z := clamp i32_min i32_max (a + b).

Lemma sat_add_exact max a b : a + b ≤ max → sat_add max a b = a + b.
Proof. unfold sat_add. lia. Qed.
Lemma sat_add_le max a b : sat_add max a b ≤ max.
Proof. unfold sat_add. lia. Qed.
Lemma u64_wrap_small a : a ≤ u64_max → u64_wrap a = a.
Proof. intros. unfold u64_wrap. apply N.mod_small. lia. Qed.
Lemma clamp_bounds lo hi x : (lo ≤ hi)%Z → (lo ≤ clamp lo hi x ≤ hi)%Z.
Proof. unfold clamp. lia. Qed.

(** Lengths and sizes at machine type. *)
Definition nlen {A} (l : list A) : N := N.of_nat (length l).
Definition msize `{Countable K} {V} (m : gmap K V) : N := N.of_nat (size m).
Definition ssize `{Countable K} (s : gset K) : N := N.of_nat (size s).
Definition slen (s : string) : N := N.of_nat (String.length s).

(** [Option::is_some_and]. *)
Definition is_some_and {A} (P : A → bool) (o : option A) : bool :=
  match o with Some x => P x | None => false end.

Lemma is_some_and_true {A} (P : A → bool) o :
  is_some_and P o = true ↔ ∃ x, o = Some x ∧ P x = true.
Proof. destruct o; simpl; naive_solver. Qed.

Lemma pair_eq_1 {A B} (p : A * B) a : p.1 = a → p = (a, p.2).
Proof. destruct p. by intros <-. Qed.

Lemma nlen_nil {A} : nlen (@nil A) = 0.
Proof. done. Qed.
Lemma nlen_cons {A} (x : A) l : nlen (x :: l) = nlen l + 1.
Proof. unfold nlen. simpl. lia. Qed.
Lemma nlen_app {A} (l1 l2 : list A) : nlen (l1 ++ l2) = nlen l1 + nlen l2.
Proof. unfold nlen. rewrite length_app. lia. Qed.

Lemma filter_all {A} (P : A → Prop) `{!∀ x, Decision (P x)} (l : list A) :
  (∀ x, x ∈ l → P x) → filter P l = l.
Proof.
  induction l as [|x l IH]; intros Hl; [done|].
  rewrite filter_cons_True, IH by set_solver. done.
Qed.
Lemma filter_ext_in {A} (P Q : A → Prop) `{!∀ x, Decision (P x), !∀ x, Decision (Q x)}
    (l : list A) :
  (∀ x, x ∈ l → P x ↔ Q x) → filter P l = filter Q l.
Proof.
  induction l as [|x l IH]; intros Hl; [done|]. rewrite !filter_cons.
  rewrite IH by (intros y Hy; apply Hl; by right).
  destruct (Hl x) as [HPQ HQP]; [left|]. repeat case_decide; naive_solver.
Qed.
Lemma filter_none {A} (P : A → Prop) `{!∀ x, Decision (P x)} (l : list A) :
  (∀ x, x ∈ l → ¬ P x) → filter P l = [].
Proof.
  induction l as [|x l IH]; intros Hl; [done|].
  rewrite filter_cons_False, IH by set_solver. done.
Qed.

Lemma NoDup_fmap_filter {A B} (f : A → B) (P : A → Prop) `{!∀ x, Decision (P x)} (l : list A) :
  NoDup (f <$> l) → NoDup (f <$> filter P l).
Proof.
  induction l as [|x l IH]; [done|]. rewrite fmap_cons, NoDup_cons. intros [Hx Hnd].
  rewrite filter_cons. case_decide; [|auto]. rewrite fmap_cons. constructor; [|auto].
  intros (y & Heq & Hy)%list_elem_of_fmap. apply list_elem_of_filter in Hy as [_ Hy].
  apply Hx, list_elem_of_fmap. eauto.
Qed.

Lemma sublist_fmap {A B} (f : A → B) (l1 l2 : list A) :
  l1 `sublist_of` l2 → (f <$> l1) `sublist_of` (f <$> l2).
Proof. induction 1; by constructor. Qed.

Create HintDb pubsub.

(** Unfold the state monad and the machine arithmetic wrappers. *)
Ltac se_unfold :=
  unfold mbind, se_bind, mret, se_ret, se_lift, se_fail, se_get, se_modify,
    result_bind, result_ret in *.

(** Case analysis on every [match] or [decide] of the goal, then of the
    hypotheses. *)
Ltac case_goal :=
  repeat match goal with
  | |- context [match ?x with _ => _ end] => destruct x eqn:?; simplify_eq/=
  end.
Ltac case_hyp H :=
  repeat match type of H with
  | context [match ?x with _ => _ end] => destruct x eqn:?; simplify_eq/=
  end.

(** ** Fallible code that may panic *)
Definition PSE (S E A : Type) : Type := S → option (result E A * S).
#[export] Instance pse_ret S E : MRet (PSE S E) := λ A a s, Some (Ok a, s).
#[export] Instance pse_bind S E : MBind (PSE S E) := λ A B f c s,
  match c s with
  | Some (Ok a, s') => f a s'
  | Some (Err e, s') => Some (Err e, s')
  | None => None
  end.
Definition pse_se {S E A} (c : SE S E A) : PSE S E A := λ s, Some (c s).
Definition pse_lift {S E A} (r : result E A) : PSE S E A := λ s, Some (r, s).
(** Indexing a vector, or another partial operation that panics. *)
Definition panic_unless {S E A} (o : option A) : PSE S E A := λ s, a ← o; Some (Ok a, s).
Definition pse_get {S E} : PSE S E S := λ s, Some (Ok s, s).
Definition pse_modify {S E} (f : S → S) : PSE S E unit := λ s, Some (Ok tt, f s).
(** [for x in xs { .. }] with [?] inside. *)
Fixpoint pse_iter {S E A} (f : A → PSE S E unit) (l : list A) : PSE S E unit :=
  match l with [] => mret tt | x :: l => _ ← f x; pse_iter f l end.

(** A triple: from a state in [P] the code does not panic, and ends in [Q] with
    its value or in [R] with an error. *)
Definition pse_triple {S E A} (P : S → Prop) (c : PSE S E A) (Q : A → S → Prop) (R : S → Prop) : Prop :=
  ∀ s, P s → match c s with
             | Some (Ok a, s') => Q a s'
             | Some (Err _, s') => R s'
             | None => False
             end.
Section triples.
Context {S E : Type}.
Implicit Types (P R : S → Prop).

Lemma triple_ret {A} (a : A) P (Q : A → S → Prop) R :
  (∀ s, P s → Q a s) → pse_triple (E:=E) P (mret a) Q R.
Proof. intros H s. apply H. Qed.
Lemma triple_bind {A B} P (c : PSE S E A) (f : A → PSE S E B) Q' Q R :
  pse_triple P c Q' R → (∀ a, pse_triple (Q' a) (f a) Q R) → pse_triple P (c ≫= f) Q R.
Proof.
  intros Hc Hf s Hs. specialize (Hc s Hs). unfold mbind, pse_bind.
  destruct (c s) as [[[a|e] s']|]; [|done..]. by apply Hf.
Qed.
Lemma triple_get {B} P (f : S → PSE S E B) Q R :
  (∀ s, P s → pse_triple P (f s) Q R) → pse_triple P (s ← pse_get; f s) Q R.
Proof. intros H s Hs. by apply (H s Hs s). Qed.
Lemma triple_modify (f : S → S) P (Q : unit → S → Prop) R :
  (∀ s, P s → Q tt (f s)) → pse_triple (E:=E) P (pse_modify f) Q R.
Proof. intros H s Hs. by apply H. Qed.
Lemma triple_lift {A} (r : result E A) P Q R :
  (∀ s a, r = Ok a → P s → Q a s) → (∀ s, P s → R s) → pse_triple P (pse_lift r) Q R.
Proof. intros Hq Hr s Hs. unfold pse_lift. destruct r; auto. Qed.
Lemma triple_iter {A} (f : A → PSE S E unit) l P R :
  (∀ x, x ∈ l → pse_triple P (f x) (λ _, P) R) → pse_triple P (pse_iter f l) (λ _, P) R.
Proof.
  induction l as [|x l IH]; intros H; simpl; [by apply triple_ret|].
  eapply triple_bind; [apply H; left|]. intros []. apply IH. intros y Hy. apply H. by right.
Qed.
Lemma triple_conseq {A} P P' (c : PSE S E A) (Q Q' : A → S → Prop) R R' :
  pse_triple P' c Q' R' → (∀ s, P s → P' s) → (∀ a s, Q' a s → Q a s) → (∀ s, R' s → R s) →
  pse_triple P c Q R.
Proof.
  intros Hc HP HQ HR s Hs. specialize (Hc s (HP s Hs)).
  destruct (c s) as [[[a|e] s']|]; auto.
Qed.
Lemma triple_pre {A} P P' (c : PSE S E A) Q R :
  pse_triple P' c Q R → (∀ s, P s → P' s) → pse_triple P c Q R.
Proof. intros Hc HP. eapply triple_conseq; [exact Hc|exact HP|auto..]. Qed.
Lemma triple_err {A} P (c : PSE S E A) Q R R' :
  pse_triple P c Q R' → (∀ s, R' s → R s) → pse_triple P c Q R.
Proof. intros Hc HR. eapply triple_conseq; [exact Hc|auto|auto|exact HR]. Qed.
End triples.

(** A run from one state as an instance of a triple. *)
Ltac triple_at s H :=
  match type of H with ?P s => refine ((_ : pse_triple P _ _ _) s H) end.
