(* ===== verification/Containers.v ===== *)
(** * Text, sorting and iteration orders

    The standard library of the program: trimming of text, sorting by a
    comparison, and the iteration orders of its maps. *)

From S2P Require Export Prelude.

(** ** Text

    The methods of [str] that the crates use on options and configuration:
    [trim] in Unicode's white space, over the bytes of UTF-8, and
    [trim_end_matches] of a character. *)

(** [s.trim().is_empty()]: every character is one of Unicode's white space, in
    UTF-8. *)
Fixpoint trim_is_empty (s : string) : bool :=
  match s with
  | EmptyString => true
  | String a s1 =>
      let a := Ascii.N_of_ascii a in
      if bool_decide (9 ≤ a ≤ 13) || bool_decide (a = 32) then trim_is_empty s1
      else match s1 with
      | String b s2 =>
          let b := Ascii.N_of_ascii b in
          if bool_decide (a = 194) && (bool_decide (b = 133) || bool_decide (b = 160))
          then trim_is_empty s2
          else match s2 with
          | String c s3 =>
              let c := Ascii.N_of_ascii c in
              if bool_decide ((a, b, c) = (225, 154, 128))
                || bool_decide ((a, b) = (226, 128) ∧ (128 ≤ c ≤ 138 ∨ c ∈ [168; 169; 175]))
                || bool_decide ((a, b, c) = (226, 129, 159))
                || bool_decide ((a, b, c) = (227, 128, 128))
              then trim_is_empty s3 else false
          | EmptyString => false
          end
      | EmptyString => false
      end
  end.

(** [trim_start] and [trim_end]. No white space starts with a continuation
    byte, so a suffix of white space starts at a character. *)
Fixpoint trim_start (s : string) : string :=
  match s with
  | EmptyString => s
  | String a s1 =>
      let a := Ascii.N_of_ascii a in
      if bool_decide (9 ≤ a ≤ 13) || bool_decide (a = 32) then trim_start s1
      else match s1 with
      | String b s2 =>
          let b := Ascii.N_of_ascii b in
          if bool_decide (a = 194) && (bool_decide (b = 133) || bool_decide (b = 160))
          then trim_start s2
          else match s2 with
          | String c s3 =>
              let c := Ascii.N_of_ascii c in
              if bool_decide ((a, b, c) = (225, 154, 128))
                || bool_decide ((a, b) = (226, 128) ∧ (128 ≤ c ≤ 138 ∨ c ∈ [168; 169; 175]))
                || bool_decide ((a, b, c) = (226, 129, 159))
                || bool_decide ((a, b, c) = (227, 128, 128))
              then trim_start s3 else s
          | EmptyString => s
          end
      | EmptyString => s
      end
  end.
Fixpoint trim_end (s : string) : string :=
  if trim_is_empty s then "" else
  match s with EmptyString => "" | String c s => String c (trim_end s) end.
Definition trim (s : string) : string := trim_end (trim_start s).
Lemma slen_app a b : slen (a +:+ b) = slen a + slen b.
Proof.
  unfold slen. induction a as [|c a IH]; [done|]. simpl in *.
  change (String.length (a +:+ b)) with (String.length (String.append a b)) in *. lia.
Qed.
(** [trim_end_matches(c)]. *)
Fixpoint trim_end_matches (c : Ascii.ascii) (s : string) : string :=
  match s with
  | EmptyString => ""
  | String x s =>
      let rest := trim_end_matches c s in
      if decide (rest = ""%string ∧ x = c) then "" else String x rest
  end.

Example trim_both : trim "  a b	" = "a b"%string.
Proof. reflexivity. Qed.
Example trim_slashes : trim_end_matches (Ascii.ascii_of_N 47) "a//b//" = "a//b"%string.
Proof. reflexivity. Qed.

(** ** Containers

    The standard-library containers the crates use, over stdpp's finite maps:
    a [HashMap] with an unspecified iteration order, the sorted iteration of
    a [BTreeMap] or [BTreeSet], the stable [sort_by] of slices and vectors,
    and the insertion-order queue that bounds a map ("FIFO index"). *)

(** ** Comparators and stable sorting *)

(** The laws a comparator must have for Rust's [sort_by] to promise a result. *)
Class CmpOrder {A} (cmp : A → A → comparison) : Prop := {
  cmp_antisym a b : cmp b a = CompOpp (cmp a b);
  cmp_trans a b c : cmp a b ≠ Gt → cmp b c ≠ Gt → cmp a c ≠ Gt;
}.
Arguments cmp_antisym {A} cmp {_} a b.
Arguments cmp_trans {A} cmp {_} a b c _ _.

Definition cmp_le {A} (cmp : A → A → comparison) (a b : A) : Prop := cmp a b ≠ Gt.

(** [sort_by_key], [Reverse] and [Ordering::then_with]. *)
Definition cmp_on {A B} (f : A → B) (cmp : B → B → comparison) (a b : A) : comparison :=
  cmp (f a) (f b).
Definition cmp_rev {A} (cmp : A → A → comparison) (a b : A) : comparison := cmp b a.
Definition cmp_then {A} (c1 c2 : A → A → comparison) (a b : A) : comparison :=
  match c1 a b with Eq => c2 a b | c => c end.

Definition bool_compare (a b : bool) : comparison :=
  match a, b with false, true => Lt | true, false => Gt | _, _ => Eq end.
(** [Option]'s derived order: [None] first. *)
Definition option_compare {A} (cmp : A → A → comparison) (a b : option A) : comparison :=
  match a, b with
  | None, None => Eq | None, Some _ => Lt | Some _, None => Gt
  | Some x, Some y => cmp x y
  end.

#[global] Typeclasses Opaque cmp_on cmp_rev cmp_then option_compare bool_compare.

Section cmp_order.
Context {A : Type} (cmp : A → A → comparison) `{!CmpOrder cmp}.

Lemma cmp_refl a : cmp a a = Eq.
Proof. pose proof (cmp_antisym cmp a a). by destruct (cmp a a). Qed.

Lemma cmp_total a b : cmp_le cmp a b ∨ cmp_le cmp b a.
Proof.
  unfold cmp_le. rewrite (cmp_antisym cmp a b).
  destruct (cmp a b); simpl; auto; by left.
Qed.

Lemma cmp_eq_l a b c : cmp a b = Eq → cmp a c = cmp b c.
Proof.
  intros Hab.
  assert (cmp b a = Eq) as Hba by (rewrite (cmp_antisym cmp a b), Hab; done).
  pose proof (cmp_trans cmp a b c). pose proof (cmp_trans cmp b a c).
  pose proof (cmp_trans cmp c a b). pose proof (cmp_trans cmp c b a).
  rewrite (cmp_antisym cmp a c), (cmp_antisym cmp b c) in *.
  rewrite Hab, Hba in *.
  destruct (cmp a c), (cmp b c); simpl in *; naive_solver.
Qed.

#[export] Instance cmp_rev_order : CmpOrder (cmp_rev cmp).
Proof.
  split; unfold cmp_rev.
  - intros a b. apply (cmp_antisym cmp).
  - intros a b c ??. by apply (cmp_trans cmp c b a).
Qed.

#[export] Instance cmp_on_order {B} (f : B → A) : CmpOrder (cmp_on f cmp).
Proof.
  split; unfold cmp_on; [intros; apply (cmp_antisym cmp)|].
  intros a b c. apply (cmp_trans cmp).
Qed.

#[export] Instance option_compare_order : CmpOrder (option_compare cmp).
Proof.
  split.
  - intros [a|] [b|]; simpl; try done. apply (cmp_antisym cmp).
  - intros [a|] [b|] [c|]; simpl; try done. apply (cmp_trans cmp).
Qed.
End cmp_order.

#[export] Instance cmp_then_order {A} (c1 c2 : A → A → comparison)
  `{!CmpOrder c1, !CmpOrder c2} : CmpOrder (cmp_then c1 c2).
Proof.
  split; unfold cmp_then.
  - intros a b. rewrite (cmp_antisym c1 a b), (cmp_antisym c2 a b).
    by destruct (c1 a b).
  - intros a b c. destruct (c1 a b) eqn:Hab; [|..|done].
    + rewrite (cmp_eq_l c1 _ _ c Hab). destruct (c1 b c); [|done..].
      apply (cmp_trans c2).
    + intros _. destruct (c1 b c) eqn:Hbc; [|..|done]; intros _.
      * assert (c1 c b = Eq) as Hcb by (rewrite (cmp_antisym c1 b c), Hbc; done).
        rewrite (cmp_antisym c1 c a), (cmp_eq_l c1 _ _ a Hcb).
        by rewrite (cmp_antisym c1 a b), Hab.
      * pose proof (cmp_trans c1 a b c) as Htr. rewrite Hab, Hbc in Htr.
        destruct (c1 a c) eqn:Hac; [|done|by apply Htr].
        exfalso. rewrite (cmp_eq_l c1 _ _ b Hac) in Hab.
        rewrite (cmp_antisym c1 b c), Hbc in Hab. done.
Qed.

#[export] Instance N_compare_order : CmpOrder N.compare.
Proof. split; [apply N.compare_antisym|]. apply N.le_trans. Qed.
#[export] Instance Z_compare_order : CmpOrder Z.compare.
Proof. split; [apply Z.compare_antisym|]. apply Z.le_trans. Qed.
#[export] Instance bool_compare_order : CmpOrder bool_compare.
Proof. split; [by intros [] []|by intros [] [] []]. Qed.
#[export] Instance string_compare_order : CmpOrder String.compare.
Proof.
  split; [intros a b; apply String.compare_antisym|].
  intros a b c. pose proof (transitivity (R:=String.le) (x:=a) (y:=b) (z:=c)) as Htr.
  unfold String.le, String.leb in Htr.
  destruct (String.compare a b), (String.compare b c), (String.compare a c);
    simpl in *; naive_solver.
Qed.

Section sort_by.
Context {A : Type} (cmp : A → A → comparison).

(** Rust's [sort_by] is stable; insertion sort is its specification. *)
Fixpoint sort_insert (x : A) (l : list A) : list A :=
  match l with
  | [] => [x]
  | y :: l' => match cmp x y with
               | Gt => y :: sort_insert x l'
               | _ => x :: y :: l'
               end
  end.
Definition sort_by (l : list A) : list A := foldr sort_insert [] l.

Lemma sort_insert_perm x l : sort_insert x l ≡ₚ x :: l.
Proof.
  induction l as [|y l IH]; simpl; [done|].
  destruct (cmp x y); [done..|]. rewrite IH. constructor.
Qed.
Lemma sort_by_perm l : sort_by l ≡ₚ l.
Proof. induction l as [|x l IH]; simpl; [done|]. by rewrite sort_insert_perm, IH. Qed.
Lemma sort_by_elem x l : x ∈ sort_by l ↔ x ∈ l.
Proof. by rewrite sort_by_perm. Qed.
Lemma sort_by_length l : length (sort_by l) = length l.
Proof. by rewrite sort_by_perm. Qed.
Lemma sort_by_NoDup l : NoDup (sort_by l) ↔ NoDup l.
Proof. by rewrite sort_by_perm. Qed.

Context `{!CmpOrder cmp}.

Lemma sort_insert_sorted x l :
  StronglySorted (cmp_le cmp) l → StronglySorted (cmp_le cmp) (sort_insert x l).
Proof.
  induction 1 as [|y l Hl IH Hy]; simpl; [by repeat constructor|].
  destruct (cmp x y) eqn:Hxy.
  1,2: constructor; [by constructor|]; constructor; [by unfold cmp_le; rewrite Hxy|];
    eapply Forall_impl; [exact Hy|]; intros z; simpl; apply (cmp_trans cmp); by rewrite Hxy.
  constructor; [done|]. rewrite sort_insert_perm. constructor; [|done].
  unfold cmp_le. by rewrite (cmp_antisym cmp x y), Hxy.
Qed.
Lemma sort_by_sorted l : StronglySorted (cmp_le cmp) (sort_by l).
Proof. induction l; simpl; [constructor|]. by apply sort_insert_sorted. Qed.

(** A sorted list is left alone, so sorting twice is sorting once. *)
Lemma sort_by_id l : StronglySorted (cmp_le cmp) l → sort_by l = l.
Proof.
  induction 1 as [|x l Hl IH Hx]; simpl; [done|]. rewrite IH.
  destruct Hx as [|y l Hy _]; simpl; [done|].
  unfold cmp_le in Hy. by destruct (cmp x y).
Qed.
Lemma sort_by_idemp l : sort_by (sort_by l) = sort_by l.
Proof. apply sort_by_id, sort_by_sorted. Qed.
End sort_by.

(** [Vec::dedup_by_key]: of adjacent elements with the same key the first is
    kept. *)
Fixpoint dedup_after {A K} `{EqDecision K} (key : A → K) (kept : A) (l : list A) : list A :=
  match l with
  | [] => []
  | x :: l =>
      if decide (key x = key kept) then dedup_after key kept l else x :: dedup_after key x l
  end.
Definition dedup_by_key {A K} `{EqDecision K} (key : A → K) (l : list A) : list A :=
  match l with [] => [] | x :: l => x :: dedup_after key x l end.
Notation dedup_adjacent := (dedup_by_key id).

Section dedup.
Context {A K : Type} `{EqDecision K} (key : A → K).
Lemma dedup_after_sublist kept l : dedup_after key kept l `sublist_of` l.
Proof.
  revert kept. induction l as [|x l IH]; intros kept; simpl; [done|].
  case_decide; by constructor.
Qed.
Lemma dedup_by_key_sublist l : dedup_by_key key l `sublist_of` l.
Proof. destruct l; simpl; [done|]. constructor. apply dedup_after_sublist. Qed.
Lemma dedup_after_key kept l k :
  k ∈ key <$> kept :: dedup_after key kept l ↔ k ∈ key <$> kept :: l.
Proof.
  revert kept. induction l as [|x l IH]; intros kept; [done|]. cbn [dedup_after].
  case_decide as Heq.
  - rewrite IH. rewrite !fmap_cons, !elem_of_cons. rewrite Heq. tauto.
  - rewrite fmap_cons, elem_of_cons, IH. by rewrite (fmap_cons key kept), elem_of_cons.
Qed.
Lemma dedup_by_key_key l k : k ∈ key <$> dedup_by_key key l ↔ k ∈ key <$> l.
Proof. destruct l; [done|]. apply dedup_after_key. Qed.
Lemma dedup_by_key_nil l : dedup_by_key key l = [] ↔ l = [].
Proof. by destruct l. Qed.

(** After sorting by a comparison that determines the key, none repeats. *)
Lemma dedup_after_NoDup (cmp : A → A → comparison) `{!CmpOrder cmp} kept l :
  (∀ x y, cmp x y = Eq → key x = key y) → (∀ x y, key x = key y → cmp x y = Eq) →
  StronglySorted (cmp_le cmp) (kept :: l) → NoDup (key <$> kept :: dedup_after key kept l).
Proof.
  intros Hkey Hcmp. revert kept. induction l as [|x l IH]; intros kept Hs; cbn [dedup_after].
  { apply NoDup_singleton. }
  apply StronglySorted_inv in Hs as [Hs Hall]. case_decide as Heq.
  - apply IH. apply StronglySorted_inv in Hs as [Hs _]. apply Forall_cons in Hall as [_ Hall].
    by constructor.
  - rewrite fmap_cons. constructor; [|by apply IH].
    rewrite dedup_after_key. intros (y & Hky & Hy)%list_elem_of_fmap.
    apply elem_of_cons in Hy as [->|Hy]; [congruence|].
    apply StronglySorted_inv in Hs as [_ Hall']. rewrite Forall_forall in Hall, Hall'.
    specialize (Hall' y Hy). specialize (Hall x ltac:(left)). unfold cmp_le in *.
    apply Heq. rewrite Hky. apply Hkey. apply Hcmp in Hky.
    assert (cmp y x ≠ Gt) as Hyx.
    { by rewrite <-(cmp_eq_l cmp _ _ x Hky). }
    rewrite (cmp_antisym cmp x y) in Hyx. destruct (cmp x y) eqn:Hxy; [done| |done].
    by destruct Hyx.
Qed.
Lemma dedup_sorted_NoDup (cmp : A → A → comparison) `{!CmpOrder cmp} l :
  (∀ x y, cmp x y = Eq → key x = key y) → (∀ x y, key x = key y → cmp x y = Eq) →
  NoDup (key <$> dedup_by_key key (sort_by cmp l)).
Proof.
  intros Hkey Hcmp. pose proof (sort_by_sorted cmp l) as Hs.
  destruct (sort_by cmp l); [constructor|]. by eapply dedup_after_NoDup.
Qed.
End dedup.

(** [select_mesh_peers] takes a prefix of a sorted list: every kept element
    precedes every dropped one. *)
Lemma StronglySorted_take_drop {A} (R : relation A) n (l : list A) x y :
  StronglySorted R l → x ∈ take n l → y ∈ drop n l → R x y.
Proof.
  intros Hs. revert n. induction Hs as [|z l Hl IH Hz]; intros [|n]; simpl.
  1-3: set_solver.
  rewrite elem_of_cons. intros [->|Hx] Hy; [|by eapply IH].
  rewrite Forall_forall in Hz. apply Hz.
  rewrite <-(take_drop n l). set_solver.
Qed.

Lemma StronglySorted_take {A} (R : relation A) n (l : list A) :
  StronglySorted R l → StronglySorted R (take n l).
Proof. rewrite <-(take_drop n l) at 1. apply StronglySorted_app_1_l. Qed.

(** ** [BTreeSet] and [BTreeMap] with string keys: iteration in key order *)
Definition btree_elements (s : gset string) : list string :=
  sort_by String.compare (elements s).
Definition btree_to_list {V} (m : gmap string V) : list (string * V) :=
  sort_by (cmp_on fst String.compare) (map_to_list m).
Definition btree_values {V} (m : gmap string V) : list V := (btree_to_list m).*2.

Lemma btree_elements_elem x s : x ∈ btree_elements s ↔ x ∈ s.
Proof. unfold btree_elements. by rewrite sort_by_elem, elem_of_elements. Qed.
Lemma btree_elements_NoDup s : NoDup (btree_elements s).
Proof. apply sort_by_NoDup, NoDup_elements. Qed.
Lemma btree_to_list_perm {V} (m : gmap string V) : btree_to_list m ≡ₚ map_to_list m.
Proof. apply sort_by_perm. Qed.
Lemma btree_to_list_NoDup {V} (m : gmap string V) : NoDup (btree_to_list m).*1.
Proof. rewrite btree_to_list_perm. apply NoDup_fst_map_to_list. Qed.
Lemma btree_to_list_elem {V} (m : gmap string V) k v :
  (k, v) ∈ btree_to_list m ↔ m !! k = Some v.
Proof. unfold btree_to_list. by rewrite sort_by_elem, elem_of_map_to_list. Qed.
Lemma btree_values_elem {V} (m : gmap string V) v :
  v ∈ btree_values m ↔ ∃ k, m !! k = Some v.
Proof.
  unfold btree_values. rewrite list_elem_of_fmap. setoid_rewrite <-btree_to_list_elem.
  split; [intros ([k v'] & -> & ?); eauto|intros [k ?]; by exists (k, v)].
Qed.

(** ** [HashMap] iteration

    The order in which a [HashMap] is iterated is not specified: it is a
    permutation of the bindings, and the theorems hold for all of them. *)
Class HashOrder : Type := {
  hash_iter {K V : Type} `{Countable K} : gmap K V → list (K * V);
  hash_iter_perm {K V : Type} `{Countable K} (m : gmap K V) :
    hash_iter m ≡ₚ map_to_list m;
}.

Section hash_order.
Context `{!HashOrder}.

(** [HashMap::values]. *)
Definition hash_values `{Countable K} {V} (m : gmap K V) : list V := (hash_iter m).*2.

Lemma hash_values_perm `{Countable K} {V} (m : gmap K V) :
  hash_values m ≡ₚ (map_to_list m).*2.
Proof. unfold hash_values. by rewrite hash_iter_perm. Qed.
Lemma hash_values_elem `{Countable K} {V} (m : gmap K V) v :
  v ∈ hash_values m ↔ ∃ k, m !! k = Some v.
Proof.
  rewrite hash_values_perm, list_elem_of_fmap.
  setoid_rewrite <-elem_of_map_to_list.
  split; [intros ([k v'] & -> & ?); eauto|intros [k ?]; by exists (k, v)].
Qed.
End hash_order.

(** The iteration order of stdpp itself, for evaluation. *)
#[export] Program Instance canonical_hash_order : HashOrder | 100 :=
  {| hash_iter K V _ _ m := map_to_list m |}.
Next Obligation. done. Qed.

(** ** Sums over lists and maps *)
Definition sum_by {A} (f : A → N) (l : list A) : N := foldr (λ x acc, f x + acc) 0 l.
Definition msum {V} (f : V → N) (m : gmap string V) : N := sum_by f (map_to_list m).*2.

#[export] Instance sum_by_perm {A} (f : A → N) : Proper ((≡ₚ) ==> (=)) (sum_by f).
Proof. induction 1; simpl; lia. Qed.

Lemma sum_by_app {A} (f : A → N) l1 l2 : sum_by f (l1 ++ l2) = sum_by f l1 + sum_by f l2.
Proof. induction l1; simpl; lia. Qed.
Lemma sum_by_elem {A} (f : A → N) l x : x ∈ l → f x ≤ sum_by f l.
Proof. induction 1; simpl; lia. Qed.
Lemma sum_by_bound {A} (f : A → N) l b :
  (∀ x, x ∈ l → f x ≤ b) → sum_by f l ≤ nlen l * b.
Proof.
  unfold nlen. induction l as [|x l IH]; intros Hb; simpl; [lia|].
  pose proof (Hb x ltac:(set_solver)). specialize (IH ltac:(set_solver)). lia.
Qed.

(** [iter().fold(0, saturating_add)] is the sum, capped. *)
Lemma fold_sat_add {A} (f : A → N) max l acc :
  acc ≤ max →
  foldl (λ total x, sat_add max total (f x)) acc l = N.min (acc + sum_by f l) max.
Proof.
  revert acc. induction l as [|x l IH]; intros acc Ha; simpl; [lia|].
  rewrite IH by apply sat_add_le. unfold sat_add. lia.
Qed.

Section msum.
Context {V : Type} (f : V → N).
Implicit Types m : gmap string V.

Lemma msum_empty : msum f ∅ = 0.
Proof. unfold msum. by rewrite map_to_list_empty. Qed.
Lemma msum_insert_new m k v : m !! k = None → msum f (<[k:=v]> m) = f v + msum f m.
Proof. intros. unfold msum. by rewrite map_to_list_insert. Qed.
Lemma msum_delete m k v : m !! k = Some v → msum f m = f v + msum f (delete k m).
Proof.
  intros Hk. rewrite <-(msum_insert_new (delete k m) k) by apply lookup_delete_eq.
  by rewrite insert_delete_id.
Qed.
Lemma msum_delete_none m k : m !! k = None → msum f (delete k m) = msum f m.
Proof. intros. by rewrite delete_id. Qed.
Lemma msum_insert m k v w : m !! k = Some w → msum f (<[k:=v]> m) + f w = f v + msum f m.
Proof.
  intros Hk. rewrite (msum_delete m k w Hk), <-insert_delete_eq.
  rewrite msum_insert_new by apply lookup_delete_eq. lia.
Qed.
Lemma msum_lookup m k v : m !! k = Some v → f v ≤ msum f m.
Proof. intros Hk. rewrite (msum_delete m k v Hk). lia. Qed.
Lemma msum_bound m b :
  (∀ k v, m !! k = Some v → f v ≤ b) → msum f m ≤ msize m * b.
Proof.
  intros Hb. unfold msum, msize. rewrite <-length_map_to_list, <-(length_fmap snd).
  apply sum_by_bound. intros v Hv. apply list_elem_of_fmap in Hv as ([k v'] & -> & Hv).
  apply elem_of_map_to_list in Hv. eauto.
Qed.
Lemma msum_filter_le m (P : string * V → Prop) `{!∀ x, Decision (P x)} :
  msum f (filter P m) ≤ msum f m.
Proof.
  induction m as [|k v m Hk IH] using map_ind; [by rewrite map_filter_empty|].
  rewrite msum_insert_new by done. destruct (decide (P (k, v))).
  - rewrite map_filter_insert_True by done.
    rewrite msum_insert_new; [lia|]. apply map_lookup_filter_None; auto.
  - rewrite map_filter_insert_False by done. rewrite delete_id by done. lia.
Qed.
Lemma msum_hash `{!HashOrder} m : sum_by f (hash_values m) = msum f m.
Proof. by rewrite hash_values_perm. Qed.
End msum.
