(* ===== verification/Fifo.v ===== *)
(** * FIFO indexes

    Several structures of the crates pair a map with a queue of its keys in
    insertion order ([cache_order], [seen_order], [delivered_order],
    [peer_behavior_order], the verification cache's and the live
    subscription's [order], the subscription store's [peer_order]) and evict
    from the front of the queue to stay within a limit. This file states what
    makes such a pair coherent and proves it for the operations they share. *)

From S2P Require Export Containers.

Section fifo.
Context {K : Type} `{Countable K} {V : Type}.
Implicit Types (m : gmap K V) (o : list K) (k : K).

(** Every key is queued once, and exactly the map's keys are queued. *)
Definition fifo_ok (o : list K) (m : gmap K V) : Prop :=
  NoDup o ∧ ∀ k, k ∈ o ↔ is_Some (m !! k).

Lemma fifo_ok_empty : fifo_ok [] ∅.
Proof.
  split; [constructor|]. intros k. rewrite lookup_empty. split; [set_solver|].
  by intros [? [=]].
Qed.

Lemma fifo_ok_elem o m k : fifo_ok o m → k ∈ o ↔ is_Some (m !! k).
Proof. intros [_ Hm]. apply Hm. Qed.
Lemma fifo_ok_not_elem o m k : fifo_ok o m → m !! k = None → k ∉ o.
Proof. intros [_ Hm] Hk Hin. apply Hm in Hin as [? ?]. congruence. Qed.

Lemma fifo_ok_length o m : fifo_ok o m → length o = size m.
Proof.
  intros [Hnd Hm]. rewrite <-(size_list_to_set (C:=gset K) o) by done.
  rewrite <-size_dom. f_equal. apply set_eq. intros k.
  rewrite elem_of_list_to_set, elem_of_dom. apply Hm.
Qed.
Lemma fifo_ok_size o m : fifo_ok o m → nlen o = msize m.
Proof. intros. unfold nlen, msize. f_equal. by apply fifo_ok_length. Qed.

(** [order.push_back(k); map.insert(k, v)] for a new key. *)
Lemma fifo_ok_push o m k v :
  fifo_ok o m → m !! k = None → fifo_ok (o ++ [k]) (<[k:=v]> m).
Proof.
  intros Hok Hk. pose proof (fifo_ok_not_elem _ _ _ Hok Hk). destruct Hok as [Hnd Hm].
  split.
  - apply NoDup_app. split_and!; [done| |by apply NoDup_singleton]. set_solver.
  - intros j. rewrite elem_of_app, list_elem_of_singleton, Hm, lookup_insert_is_Some'.
    naive_solver.
Qed.
(** [map.insert(k, v)] for a present key. *)
Lemma fifo_ok_update o m k v :
  fifo_ok o m → is_Some (m !! k) → fifo_ok o (<[k:=v]> m).
Proof.
  intros [Hnd Hm] Hk. split; [done|]. intros j.
  rewrite Hm, lookup_insert_is_Some'. naive_solver.
Qed.
(** [k = order.pop_front(); map.remove(k)]. *)
Lemma fifo_ok_pop o m k : fifo_ok (k :: o) m → fifo_ok o (delete k m).
Proof.
  intros [[Hk Hnd]%NoDup_cons Hm]. split; [done|]. intros j.
  rewrite lookup_delete_is_Some, <-Hm, elem_of_cons. naive_solver.
Qed.
(** [order.retain(|id| id != k); map.remove(k)]. *)
Lemma fifo_ok_remove o m k :
  fifo_ok o m → fifo_ok (filter (λ j, j ≠ k) o) (delete k m).
Proof.
  intros [Hnd Hm]. split; [by apply NoDup_filter|]. intros j.
  rewrite list_elem_of_filter, lookup_delete_is_Some, Hm. naive_solver.
Qed.
(** [order.retain(|id| id != k); order.push_back(k); map.insert(k, v)]. *)
Lemma fifo_ok_touch o m k v :
  fifo_ok o m → fifo_ok (filter (λ j, j ≠ k) o ++ [k]) (<[k:=v]> m).
Proof.
  intros Hok. rewrite <-insert_delete_eq. apply fifo_ok_push.
  - by apply fifo_ok_remove.
  - apply lookup_delete_eq.
Qed.
(** [map.retain(p); order.retain(|id| map.contains_key(id))]. *)
Lemma fifo_ok_retain o m m' :
  fifo_ok o m → (∀ k, is_Some (m' !! k) → is_Some (m !! k)) →
  fifo_ok (filter (λ k, is_Some (m' !! k)) o) m'.
Proof.
  intros [Hnd Hm] Hsub. split; [by apply NoDup_filter|]. intros k.
  rewrite list_elem_of_filter, Hm. naive_solver.
Qed.

Lemma fifo_ok_nil_size m : fifo_ok [] m → msize m = 0.
Proof. intros Hok. by rewrite <-(fifo_ok_size _ _ Hok). Qed.

(** [while map.len() >= limit { order.pop_front() .. map.remove(..) }] *)
Fixpoint evict_oldest (limit : N) (o : list K) (m : gmap K V) : list K * gmap K V :=
  match o with
  | [] => ([], m)
  | oldest :: o' =>
      if decide (limit ≤ msize m) then evict_oldest limit o' (delete oldest m)
      else (o, m)
  end.

Lemma evict_oldest_ok limit o m :
  fifo_ok o m → fifo_ok (evict_oldest limit o m).1 (evict_oldest limit o m).2.
Proof.
  revert m. induction o as [|k o IH]; intros m Hok; simpl; [done|].
  case_decide; [|done]. apply IH. by apply fifo_ok_pop.
Qed.
Lemma evict_oldest_bound limit o m :
  0 < limit → fifo_ok o m → msize (evict_oldest limit o m).2 < limit.
Proof.
  intros Hl. revert m. induction o as [|k o IH]; intros m Hok; simpl.
  - by rewrite fifo_ok_nil_size.
  - case_decide; [apply IH; by apply fifo_ok_pop|simpl; lia].
Qed.
Lemma evict_oldest_subseteq limit o m : (evict_oldest limit o m).2 ⊆ m.
Proof.
  revert m. induction o as [|k o IH]; intros m; simpl; [done|].
  case_decide; [|done]. etrans; [apply IH|apply delete_subseteq].
Qed.
Lemma evict_oldest_suffix limit o m : (evict_oldest limit o m).1 `suffix_of` o.
Proof.
  revert m. induction o as [|k o IH]; intros m; simpl; [done|].
  case_decide; [by apply suffix_cons_r|done].
Qed.
Lemma evict_oldest_spec limit o m o' m' :
  evict_oldest limit o m = (o', m') → 0 < limit → fifo_ok o m →
  fifo_ok o' m' ∧ msize m' < limit ∧ m' ⊆ m.
Proof.
  intros Hev Hl Hok. replace o' with (evict_oldest limit o m).1 by (by rewrite Hev).
  replace m' with (evict_oldest limit o m).2 by (by rewrite Hev).
  auto using evict_oldest_ok, evict_oldest_bound, evict_oldest_subseteq.
Qed.
(** Below the limit nothing is evicted. *)
Lemma evict_oldest_id limit o m : msize m < limit → evict_oldest limit o m = (o, m).
Proof. intros. destruct o; simpl; [done|]. rewrite decide_False by lia. done. Qed.
End fifo.

(** ** The list view of a FIFO index

    The entries in queue order: what a client sees of the pair. *)
Section fifo_list.
Context {K : Type} `{Countable K} {V A : Type} (f : K → V → A).
Implicit Types (m : gmap K V) (o : list K) (k : K).

Definition fifo_list m o : list A := omap (λ k, f k <$> m !! k) o.

Lemma fifo_list_cons m k o :
  fifo_list m (k :: o) = option_list (f k <$> m !! k) ++ fifo_list m o.
Proof. unfold fifo_list. simpl. by destruct (m !! k). Qed.

Lemma fifo_list_elem m o x :
  x ∈ fifo_list m o ↔ ∃ k v, k ∈ o ∧ m !! k = Some v ∧ x = f k v.
Proof.
  unfold fifo_list. rewrite list_elem_of_omap. setoid_rewrite fmap_Some. naive_solver.
Qed.

Lemma fifo_list_ext m m' o :
  (∀ k, k ∈ o → m !! k = m' !! k) → fifo_list m o = fifo_list m' o.
Proof.
  induction o as [|k o IH]; intros Hm; [done|].
  rewrite !fifo_list_cons, (Hm k) by left. f_equal. apply IH. intros j Hj. apply Hm. by right.
Qed.

Lemma fifo_list_app m o1 o2 : fifo_list m (o1 ++ o2) = fifo_list m o1 ++ fifo_list m o2.
Proof. apply omap_app. Qed.

Lemma fifo_list_pop m o k :
  fifo_ok (k :: o) m → fifo_list (delete k m) o = tail (fifo_list m (k :: o)).
Proof.
  intros [[Hk Hnd]%NoDup_cons Hm]. destruct (Hm k) as [[v Hv] _]; [left|].
  rewrite fifo_list_cons, Hv. simpl. apply fifo_list_ext.
  intros j Hj. rewrite lookup_delete_ne; [done|]. by intros <-.
Qed.

Lemma fifo_list_length m o : fifo_ok o m → nlen (fifo_list m o) = msize m.
Proof.
  intros Hok. rewrite <-(fifo_ok_size _ _ Hok). destruct Hok as [_ Hm].
  assert (∀ k, k ∈ o → is_Some (m !! k)) as Hall by (intros; by apply Hm). clear Hm.
  induction o as [|k o IH]; [done|].
  destruct (Hall k) as [v Hv]; [left|]. rewrite fifo_list_cons, Hv. simpl. rewrite !nlen_cons.
  rewrite IH; [done|]. intros j Hj. apply Hall. by right.
Qed.

(** Entries that know their key. *)
Context (key : A → K).
Definition keyed m : Prop := ∀ k v, m !! k = Some v → key (f k v) = k.

Lemma fifo_list_filter m o k :
  keyed m → fifo_list m (filter (λ j, j ≠ k) o) = filter (λ x, key x ≠ k) (fifo_list m o).
Proof.
  intros Hk. induction o as [|j o IH]; [done|].
  rewrite filter_cons, fifo_list_cons, filter_app, <-IH.
  destruct (m !! j) as [v|] eqn:Hj; simpl.
  - rewrite filter_cons, (Hk j v Hj), filter_nil.
    case_decide; [by rewrite fifo_list_cons, Hj|done].
  - case_decide; [by rewrite fifo_list_cons, Hj|done].
Qed.

Lemma fifo_list_remove m o k :
  keyed m → fifo_list (delete k m) (filter (λ j, j ≠ k) o)
    = filter (λ x, key x ≠ k) (fifo_list m o).
Proof.
  intros Hk. rewrite <-fifo_list_filter by done. apply fifo_list_ext.
  intros j [Hj _]%list_elem_of_filter. by rewrite lookup_delete_ne by done.
Qed.

Lemma fifo_list_touch m o k v :
  keyed m → fifo_list (<[k:=v]> m) (filter (λ j, j ≠ k) o ++ [k])
    = filter (λ x, key x ≠ k) (fifo_list m o) ++ [f k v].
Proof.
  intros Hk. rewrite fifo_list_app, <-fifo_list_filter by done. f_equal.
  - apply fifo_list_ext. intros j [Hj _]%list_elem_of_filter.
    by rewrite lookup_insert_ne by done.
  - unfold fifo_list. simpl. by rewrite lookup_insert_eq.
Qed.

Lemma fifo_list_keys m o : keyed m → fifo_ok o m → key <$> fifo_list m o = o.
Proof.
  intros Hkey [_ Hm]. assert (∀ k, k ∈ o → is_Some (m !! k)) as Hall by (intros; by apply Hm).
  clear Hm. induction o as [|k o IH]; [done|].
  destruct (Hall k) as [v Hv]; [left|]. rewrite fifo_list_cons, Hv. simpl.
  rewrite (Hkey k v Hv). f_equal.
  apply IH. intros j Hj. apply Hall. by right.
Qed.
End fifo_list.

(** ** Windows of recent identifiers

    A queue of identifiers with the set of its elements, cut to a maximum
    after each push: the last identifiers of all that were ever pushed. *)
Definition last_n {A} (n : nat) (l : list A) : list A := drop (length l - n) l.

Lemma last_n_all {A} n (l : list A) : (length l ≤ n)%nat → last_n n l = l.
Proof. intros. unfold last_n. by replace (length l - n)%nat with 0%nat by lia. Qed.
Lemma last_n_length {A} n (l : list A) : (length (last_n n l) ≤ n)%nat.
Proof. unfold last_n. rewrite length_drop. lia. Qed.
Lemma last_n_snoc {A} n (l : list A) x : last_n n (last_n n l ++ [x]) = last_n n (l ++ [x]).
Proof.
  unfold last_n. rewrite !length_app, length_drop. simpl.
  destruct (decide (length l ≤ n)%nat).
  - replace (length l - n)%nat with 0%nat by lia. rewrite drop_0. f_equal. lia.
  - replace (length l - (length l - n))%nat with n by lia.
    destruct n as [|n].
    + rewrite !drop_ge; [done|rewrite ?length_app; simpl; lia..|].
      rewrite length_app, length_drop. simpl. lia.
    + rewrite <-!drop_app_le, drop_drop by (rewrite ?length_drop; lia). f_equal. lia.
Qed.

Section window.
Context {K : Type} `{Countable K}.
Implicit Types (o : list K) (ids : gset K).

(** [while order.len() > maximum { ids.remove(order.pop_front()) }]. *)
Fixpoint window_trim (maximum : N) o ids : list K * gset K :=
  match o with
  | [] => ([], ids)
  | removed :: o' =>
      if decide (maximum < nlen o) then window_trim maximum o' (ids ∖ {[removed]})
      else (o, ids)
  end.
(** [pushed]: everything that was ever pushed. *)
Record window_of (maximum : N) (pushed : list K) o ids : Prop := {
  wi_order : o = last_n (N.to_nat maximum) pushed;
  wi_nodup : NoDup o;
  wi_ids : ids = list_to_set o;
}.

Lemma window_trim_spec maximum o ids :
  NoDup o → ids = list_to_set o →
  let '(o', ids') := window_trim maximum o ids in
  o' = last_n (N.to_nat maximum) o ∧ ids' = list_to_set o'.
Proof.
  revert ids. induction o as [|x o IH]; intros ids Hnd ->; [done|]. simpl.
  case_decide as Hlen; unfold nlen in Hlen; simpl in Hlen.
  - apply NoDup_cons in Hnd as [Hx Hnd].
    specialize (IH (list_to_set (x :: o) ∖ {[x]}) Hnd).
    destruct (window_trim _ _ _) as [o' ids']. destruct IH as [-> ->].
    + apply set_eq. intros y. rewrite elem_of_difference, !elem_of_list_to_set, elem_of_cons.
      set_solver.
    + split; [|done]. unfold last_n. simpl length.
      by replace (S (length o) - N.to_nat maximum)%nat
        with (S (length o - N.to_nat maximum))%nat by lia.
  - rewrite last_n_all by (simpl; lia). done.
Qed.
Lemma window_trim_subset maximum o ids : (window_trim maximum o ids).2 ⊆ ids.
Proof.
  revert ids. induction o as [|x o IH]; intros ids; simpl; [done|].
  case_decide; [|done]. etrans; [apply IH|set_solver].
Qed.
Lemma window_of_empty maximum : window_of maximum [] [] ∅.
Proof. split; [done|constructor|done]. Qed.
Lemma window_of_elem maximum pushed o ids k :
  window_of maximum pushed o ids → k ∈ ids ↔ k ∈ last_n (N.to_nat maximum) pushed.
Proof. intros [-> _ ->]. by rewrite elem_of_list_to_set. Qed.
Lemma window_of_push maximum pushed o ids k :
  window_of maximum pushed o ids → k ∉ ids →
  let '(o', ids') := window_trim maximum (o ++ [k]) ({[k]} ∪ ids) in
  window_of maximum (pushed ++ [k]) o' ids'.
Proof.
  intros [Ho Hnd ->] Hin. rewrite elem_of_list_to_set in Hin.
  assert (NoDup (o ++ [k])) as Hnd'.
  { apply NoDup_app. split_and!; [done| |apply NoDup_singleton].
    by intros x Hx ->%list_elem_of_singleton. }
  pose proof (window_trim_spec maximum (o ++ [k]) ({[k]} ∪ list_to_set o) Hnd') as Htrim.
  destruct (window_trim _ _ _) as [o' ids']. destruct Htrim as [-> ->].
  { rewrite list_to_set_app_L. set_solver. }
  split; [by rewrite Ho, last_n_snoc| |done].
  unfold last_n. set (n := (length (o ++ [k]) - _)%nat).
  rewrite <-(take_drop n) in Hnd'. by apply NoDup_app in Hnd' as (_ & _ & ?).
Qed.
Lemma window_of_length maximum pushed o ids : window_of maximum pushed o ids → nlen o ≤ maximum.
Proof.
  intros [-> _ _]. pose proof (last_n_length (N.to_nat maximum) pushed). unfold nlen. lia.
Qed.
End window.

Lemma msize_insert_new `{Countable K} {V} (m : gmap K V) k v :
  m !! k = None → msize (<[k:=v]> m) = msize m + 1.
Proof. intros. unfold msize. rewrite map_size_insert_None by done. lia. Qed.
Lemma msize_insert_old `{Countable K} {V} (m : gmap K V) k v :
  is_Some (m !! k) → msize (<[k:=v]> m) = msize m.
Proof. intros [? Hk]. unfold msize. by erewrite map_size_insert_Some. Qed.
Lemma msize_subseteq `{Countable K} {V} (m m' : gmap K V) : m ⊆ m' → msize m ≤ msize m'.
Proof. intros. unfold msize. pose proof (map_subseteq_size m m'). naive_solver lia. Qed.
Lemma msize_dom `{Countable K} {V W} (m : gmap K V) (m' : gmap K W) :
  (∀ k, is_Some (m !! k) → is_Some (m' !! k)) → msize m ≤ msize m'.
Proof.
  intros Hsub. unfold msize. rewrite <-!size_dom.
  assert (dom m ⊆ dom m') as Hdom by (intros k; rewrite !elem_of_dom; apply Hsub).
  apply subseteq_size in Hdom. lia.
Qed.
Lemma msize_delete_le `{Countable K} {V} (m : gmap K V) k : msize (delete k m) ≤ msize m.
Proof. apply msize_subseteq, delete_subseteq. Qed.

#[export] Hint Resolve fifo_ok_empty fifo_ok_push fifo_ok_update fifo_ok_pop
  fifo_ok_remove fifo_ok_touch evict_oldest_ok : pubsub.
