(* ===== verification/Nostr.v ===== *)
(** * The interface to the [nostr] crate

    Events, identifiers, filters and their cryptography come from the
    third-party [nostr] crate. The development is parametric in them: the
    class [Nostr] lists the types and functions the crates under src/crates
    call, and [NostrLaws] the documented behaviour they rely on. The section
    at the end gives a small concrete instance on which theorems are
    evaluated. *)

From S2P Require Export Fifo.

Class Nostr : Type := {
  Event : Type;
  EventId : Type;
  PublicKey : Type;
  Signature : Type;
  Filter : Type;
  EventId_eq_dec :: EqDecision EventId;
  EventId_countable :: Countable EventId;
  PublicKey_eq_dec :: EqDecision PublicKey;
  Signature_eq_dec :: EqDecision Signature;
  (** The fields of [Event]; [event_created_at] in seconds. *)
  event_id : Event → EventId;
  event_pubkey : Event → PublicKey;
  event_created_at : Event → N;
  event_kind : Event → N;
  event_tags : Event → list (list string);
  event_content : Event → string;
  event_sig : Event → Signature;
  (** [Tags::identifier]. *)
  event_identifier : Event → option string;
  (** [Event::verify] (the error as displayed) and [Event::verify_id]. *)
  event_verify : Event → result string unit;
  event_verify_id : Event → bool;
  schnorr_verify : PublicKey → EventId → Signature → bool;
  (** [serde_json::to_vec(event)]. *)
  event_to_json : Event → result string string;
  event_id_to_hex : EventId → string;
  event_id_compare : EventId → EventId → comparison;
  (** [Filter::match_event] with the default options, [Filter::new] and the
      public fields [limit], [since] and [until]. *)
  filter_match : Filter → Event → bool;
  filter_new : Filter;
  filter_limit : Filter → option N;
  filter_since : Filter → option N;
  filter_until : Filter → option N;
  filter_set_limit : option N → Filter → Filter;
  filter_set_until : option N → Filter → Filter;
  (** [Filter::try_as_json], and the JSON of a complete [REQ] message. *)
  filter_to_json : Filter → result string string;
  req_to_json : string → list Filter → result string string;
}.

(** [byte.is_ascii_digit() || (b'a'..=b'f').contains(&byte)]. *)
Definition is_lower_hex (c : Ascii.ascii) : bool :=
  let n := Ascii.N_of_ascii c in
  bool_decide (48 ≤ n ≤ 57) || bool_decide (97 ≤ n ≤ 102).
Definition all_chars (P : Ascii.ascii → bool) (s : string) : bool :=
  forallb P (String.list_ascii_of_string s).

Section same_body.
Context `{!Nostr}.

(** What the hash in an event's identifier covers. *)
Definition same_body (e1 e2 : Event) : Prop :=
  event_pubkey e1 = event_pubkey e2 ∧
  event_created_at e1 = event_created_at e2 ∧
  event_kind e1 = event_kind e2 ∧
  event_tags e1 = event_tags e2 ∧
  event_content e1 = event_content e2.

Definition verified (e : Event) : Prop := event_verify e = Ok tt.
End same_body.

Class NostrLaws (N : Nostr) : Prop := {
  (** [verify] checks the identifier and the Schnorr signature over it. *)
  event_verify_spec e :
    event_verify e = Ok tt ↔
      event_verify_id e = true ∧
      schnorr_verify (event_pubkey e) (event_id e) (event_sig e) = true;
  (** The identifier is a collision-resistant hash of the body. *)
  event_id_binds e1 e2 :
    event_verify_id e1 = true → event_verify_id e2 = true →
    event_id e1 = event_id e2 → same_body e1 e2;
  (** Signatures are encoded at a fixed width. *)
  event_json_length e1 e2 j1 j2 :
    event_id e1 = event_id e2 → same_body e1 e2 →
    event_to_json e1 = Ok j1 → event_to_json e2 = Ok j2 → slen j1 = slen j2;
  (** Identifiers are 32 bytes, printed as 64 lowercase hexadecimal digits. *)
  event_id_to_hex_inj :: Inj (=) (=) event_id_to_hex;
  event_id_to_hex_wf i :
    String.length (event_id_to_hex i) = 64%nat ∧
    all_chars is_lower_hex (event_id_to_hex i) = true;
  event_id_compare_order :: CmpOrder event_id_compare;
  event_id_compare_eq i j : event_id_compare i j = Eq → i = j;
  event_kind_u16 e : event_kind e ≤ u16_max;
  event_created_at_u64 e : event_created_at e ≤ u64_max;
  (** Struct fields. *)
  filter_limit_set_limit l f : filter_limit (filter_set_limit l f) = l;
  filter_until_set_limit l f : filter_until (filter_set_limit l f) = filter_until f;
  filter_since_set_limit l f : filter_since (filter_set_limit l f) = filter_since f;
  filter_limit_set_until l f : filter_limit (filter_set_until l f) = filter_limit f;
  filter_until_set_until l f : filter_until (filter_set_until l f) = l;
  filter_since_set_until l f : filter_since (filter_set_until l f) = filter_since f;
  (** NIP-01: a match lies inside the filter's time window (inclusive), the
      limit plays no part in it, and lowering [until] only removes events
      newer than it. *)
  filter_match_until f e u :
    filter_match f e = true → filter_until f = Some u → event_created_at e ≤ u;
  filter_match_since f e s :
    filter_match f e = true → filter_since f = Some s → s ≤ event_created_at e;
  filter_match_set_limit l f e : filter_match (filter_set_limit l f) e = filter_match f e;
  filter_match_set_until u u' f e :
    filter_until f = Some u → u' ≤ u →
    filter_match (filter_set_until (Some u') f) e
      = filter_match f e && bool_decide (event_created_at e ≤ u');
}.

#[export] Hint Rewrite @filter_limit_set_limit @filter_until_set_limit
  @filter_since_set_limit @filter_limit_set_until @filter_until_set_until
  @filter_since_set_until @filter_match_set_limit using (exact _) : pubsub.

Section nostr_facts.
Context `{!Nostr, !NostrLaws _}.

Lemma verified_same_body e1 e2 :
  verified e1 → verified e2 → event_id e1 = event_id e2 → same_body e1 e2.
Proof.
  unfold verified. rewrite !event_verify_spec. intros [??] [??]. by apply event_id_binds.
Qed.

Lemma verified_json_length e1 e2 j1 j2 :
  verified e1 → verified e2 → event_id e1 = event_id e2 →
  event_to_json e1 = Ok j1 → event_to_json e2 = Ok j2 → slen j1 = slen j2.
Proof. intros ?? Hid. eapply event_json_length; [done|by apply verified_same_body]. Qed.
End nostr_facts.

(** ** A concrete instance

    Four identifiers, each the hash of one body; an event verifies when its
    body is the one its identifier stands for and its signature is [1]. *)
Module Toy.
Inductive toy_id : Set := IdA | IdB | IdC | IdD.
#[export] Instance toy_id_eq_dec : EqDecision toy_id.
Proof. solve_decision. Defined.
Definition toy_index (i : toy_id) : N :=
  match i with IdA => 0 | IdB => 1 | IdC => 2 | IdD => 3 end.
Definition toy_of_index (n : N) : option toy_id :=
  match n with 0 => Some IdA | 1 => Some IdB | 2 => Some IdC | 3 => Some IdD | _ => None end.
#[export] Program Instance toy_id_countable : Countable toy_id :=
  inj_countable toy_index toy_of_index _.
Next Obligation. by intros []. Qed.

Record toy_event := ToyEvent {
  te_id : toy_id; te_pubkey : N; te_created_at : N; te_kind : N;
  te_tags : list (list string); te_content : string; te_sig : N;
}.
Record toy_filter := ToyFilter {
  tf_kind : option N; tf_limit : option N; tf_since : option N; tf_until : option N;
}.

Definition toy_body (i : toy_id) : toy_event :=
  match i with
  | IdA => ToyEvent IdA 7 100 1 [] "alpha" 1
  | IdB => ToyEvent IdB 8 200 1 [] "beta" 1
  | IdC => ToyEvent IdC 8 300 30000 [["d"; "x"]]%string "gamma" 1
  | IdD => ToyEvent IdD 8 400 30000 [["d"; "x"]]%string "delta" 1
  end.
Definition toy_verify_id (e : toy_event) : bool :=
  let b := toy_body (te_id e) in
  bool_decide (te_pubkey e = te_pubkey b) && bool_decide (te_created_at e = te_created_at b)
    && bool_decide (te_kind e = te_kind b) && bool_decide (te_tags e = te_tags b)
    && bool_decide (te_content e = te_content b).
Definition toy_schnorr (_ : N) (_ : toy_id) (sig : N) : bool := bool_decide (sig = 1).
Definition toy_hex (i : toy_id) : string :=
  String.string_of_list_ascii
    (replicate 64 (Ascii.ascii_of_N (97 + toy_index i))).
Definition opt_ok (P : N → bool) (o : option N) : bool :=
  match o with Some x => P x | None => true end.
Definition toy_match (f : toy_filter) (e : toy_event) : bool :=
  opt_ok (λ k, bool_decide (te_kind e = k)) (tf_kind f)
    && opt_ok (λ s, bool_decide (s ≤ te_created_at e)) (tf_since f)
    && opt_ok (λ u, bool_decide (te_created_at e ≤ u)) (tf_until f).

Definition toy_nostr : Nostr := {|
  Event := toy_event; EventId := toy_id; PublicKey := N; Signature := N;
  Filter := toy_filter;
  event_id := te_id; event_pubkey := te_pubkey;
  event_created_at e := te_created_at e `min` u64_max;
  event_kind e := te_kind e `min` u16_max;
  event_tags := te_tags; event_content := te_content; event_sig := te_sig;
  event_identifier e :=
    match te_tags e with ("d"%string :: v :: _) :: _ => Some v | _ => None end;
  event_verify e :=
    if toy_verify_id e && toy_schnorr (te_pubkey e) (te_id e) (te_sig e)
    then Ok tt else Err "invalid signature"%string;
  event_verify_id := toy_verify_id;
  schnorr_verify := toy_schnorr;
  event_to_json e := Ok ("{" +:+ te_content e +:+ "}")%string;
  event_id_to_hex := toy_hex;
  event_id_compare := cmp_on toy_index N.compare;
  filter_match f e :=
    opt_ok (λ k, bool_decide (te_kind e = k)) (tf_kind f)
    && opt_ok (λ s, bool_decide (s ≤ te_created_at e `min` u64_max)) (tf_since f)
    && opt_ok (λ u, bool_decide (te_created_at e `min` u64_max ≤ u)) (tf_until f);
  filter_new := ToyFilter None None None None;
  filter_limit := tf_limit; filter_since := tf_since; filter_until := tf_until;
  filter_set_limit l f := ToyFilter (tf_kind f) l (tf_since f) (tf_until f);
  filter_set_until u f := ToyFilter (tf_kind f) (tf_limit f) (tf_since f) u;
  filter_to_json f := Ok "{}"%string;
  req_to_json id fs := Ok ("[REQ," +:+ id +:+ "]")%string;
|}.

#[local] Existing Instance toy_nostr.

Lemma toy_laws : NostrLaws toy_nostr.
Proof.
  split; simpl; try done.
  - intros e. destruct (toy_verify_id e), (toy_schnorr _ _ _); simpl; naive_solver.
  - unfold toy_verify_id, same_body; simpl. intros e1 e2 H1 H2 Hid.
    rewrite Hid in H1. repeat case_bool_decide; simpl in *; try done. naive_solver congruence.
  - intros e1 e2 j1 j2 _ (?&?&?&?&Hc) [= <-] [= <-]. simpl in *. by rewrite Hc.
  - by intros [] [].
  - by intros [].
  - apply _.
  - by intros [] [].
  - intros. lia.
  - intros. lia.
  - intros f e u Hm Hu. rewrite Hu in Hm. simpl in Hm.
    rewrite !andb_true_iff, bool_decide_eq_true in Hm. lia.
  - intros f e s Hm Hs. rewrite Hs in Hm. simpl in Hm.
    rewrite !andb_true_iff, bool_decide_eq_true in Hm. lia.
  - intros u u' f e Hu Hle. rewrite Hu. simpl. rewrite <-!andb_assoc. do 2 f_equal.
    repeat case_bool_decide; try done; lia.
Qed.

(** Binary notation of a positive, for toy encodings. *)
Definition bit0 : Ascii.ascii := Ascii.ascii_of_N 48.
Definition bit1 : Ascii.ascii := Ascii.ascii_of_N 49.
Fixpoint bits (p : positive) : string :=
  match p with
  | xH => ""
  | xO q => String bit0 (bits q)
  | xI q => String bit1 (bits q)
  end.
Fixpoint of_bits (s : string) : positive :=
  match s with
  | String c s' => if decide (c = bit0) then xO (of_bits s') else xI (of_bits s')
  | _ => xH
  end.
Lemma of_bits_bits p : of_bits (bits p) = p.
Proof. induction p; simpl; congruence. Qed.

#[export] Instance toy_event_eq_dec : EqDecision toy_event.
Proof. solve_decision. Defined.
#[export] Program Instance toy_event_countable : Countable toy_event :=
  inj_countable'
    (λ e, (te_id e, te_pubkey e, te_created_at e, te_kind e, te_tags e, te_content e, te_sig e))
    (λ '(i, p, c, k, t, s, g), ToyEvent i p c k t s g) _.
Next Obligation. by intros []. Qed.
End Toy.
