(* ===== verification/Events.v ===== *)
(** * Core types of the [nostr-pubsub] crate

    crates/nostr-pubsub/src/lib.rs: errors, verified events and the cache of
    successful signature checks, event sources, policy decisions, query and
    retention options, provider modes and the filter predicates the other
    components share. *)

From S2P Require Export Nostr.

(** ** Errors *)
Inductive PubsubError : Set :=
  | Validation (message : string)
  | Storage (message : string).
#[export] Instance PubsubError_eq_dec : EqDecision PubsubError.
Proof. solve_decision. Defined.

(** [thiserror]'s [Display]. *)
Definition error_to_string (e : PubsubError) : string :=
  match e with
  | Validation m => "validation failed: " +:+ m
  | Storage m => "storage failed: " +:+ m
  end.

Notation res := (result PubsubError).

(** [{:?}] of a string: quoting and escaping are the standard library's. *)
Class StrDebug : Type := { debug_str : string → string }.
#[export] Instance plain_debug : StrDebug | 100 := {| debug_str s := s |}.

(** ** Sources *)
Notation SourceId := string (only parsing).

Inductive EventSourceKind : Set := LocalIndex | Peer | FipsEndpoint | Relay.
#[export] Instance EventSourceKind_eq_dec : EqDecision EventSourceKind.
Proof. solve_decision. Defined.

Definition SOURCE_PRIORITY_LOCAL_INDEX : Z := 300.
Definition SOURCE_PRIORITY_FIPS_ENDPOINT : Z := 200.
Definition SOURCE_PRIORITY_PEER : Z := 100.
Definition SOURCE_PRIORITY_RELAY : Z := -100.

Definition default_priority (kind : EventSourceKind) : Z :=
  match kind with
  | LocalIndex => SOURCE_PRIORITY_LOCAL_INDEX
  | FipsEndpoint => SOURCE_PRIORITY_FIPS_ENDPOINT
  | Peer => SOURCE_PRIORITY_PEER
  | Relay => SOURCE_PRIORITY_RELAY
  end.

Record EventSource : Set := mkEventSource {
  source_id : SourceId;
  source_kind : EventSourceKind;
  source_url : option string;
}.
#[export] Instance EventSource_eq_dec : EqDecision EventSource.
Proof. solve_decision. Defined.

Module EventSources.
Definition local_index (id : string) : EventSource := mkEventSource id LocalIndex None.
Definition peer (id : string) : EventSource := mkEventSource id Peer None.
Definition fips_endpoint (id : string) : EventSource := mkEventSource id FipsEndpoint None.
Definition relay (url : string) : EventSource := mkEventSource url Relay (Some url).
End EventSources.

(** ** Policy decisions *)
Inductive PolicyDecision : Set :=
  | Allow (priority : Z)
  | Throttle (priority : Z) (reason : string)
  | Drop (reason : string).

Definition allow_with_priority (priority : Z) : PolicyDecision := Allow priority.
Definition throttle (priority : Z) (reason : string) : PolicyDecision := Throttle priority reason.
Definition drop_decision (reason : string) : PolicyDecision := Drop reason.

(** [matches!(decision, PolicyDecision::Drop { .. })]. *)
Definition is_drop (d : PolicyDecision) : bool :=
  match d with Drop _ => true | _ => false end.

Definition report_parts (decision : PolicyDecision) : bool * Z * option string :=
  match decision with
  | Allow priority => (true, priority, None)
  | Throttle priority reason => (true, priority, Some reason)
  | Drop reason => (false, 0%Z, Some reason)
  end.

(** An empty struct for now. *)
Inductive SourceHealth : Set := source_health_default.
Record SourceCandidate : Set := mkSourceCandidate {
  cand_source : EventSource;
  cand_priority : Z;
  cand_reason : option string;
  cand_freshness_hint : option N;
  cand_health : SourceHealth;
}.

Record PublishReport : Set := mkPublishReport {
  pr_accepted : bool;
  pr_priority : Z;
  pr_reason : option string;
}.

Record QueryOptions : Set := mkQueryOptions { qo_limit : option N }.

(** ** Provider modes *)
Inductive PubsubProviderMode : Set := LocalOnly | DirectRelay | Router.

Definition mode_as_str (mode : PubsubProviderMode) : string :=
  match mode with
  | LocalOnly => "local-only"
  | DirectRelay => "direct-relay"
  | Router => "router"
  end.

Definition mode_from_str `{!StrDebug} (value : string) : res PubsubProviderMode :=
  if decide (value = "local-only"%string) then Ok LocalOnly
  else if decide (value = "direct-relay"%string) then Ok DirectRelay
  else if decide (value = "router"%string) then Ok Router
  else Err (Validation ("unknown pubsub provider mode " +:+ debug_str value +:+
    "; expected local-only, direct-relay, or router")).

Section events.
Context `{!Nostr}.

(** ** Verified events *)
Record VerifiedEvent : Type := mkVerifiedEvent { as_event : Event }.

(** [TryFrom<Event> for VerifiedEvent], the only public constructor. *)
Definition verified_try_from (event : Event) : res VerifiedEvent :=
  match event_verify event with
  | Ok _ => Ok (mkVerifiedEvent event)
  | Err error => Err (Validation ("invalid Nostr event: " +:+ error))
  end.

Record QueryEvent : Type := mkQueryEvent {
  qe_event : VerifiedEvent;
  qe_source : EventSource;
  qe_priority : Z;
}.
Record QueryReport : Type := mkQueryReport { qr_events : list QueryEvent }.

(** ** Filters *)
Definition subscription_filters_match (filters : list Filter) (event : Event) : bool :=
  negb (bool_decide (filters = [])) && existsb (λ filter, filter_match filter event) filters.
Definition filters_match (filters : list Filter) (event : Event) : bool :=
  bool_decide (filters = []) || subscription_filters_match filters event.

(** ** Retention policy *)
Record EventRetentionPolicy : Type := mkRetentionPolicy {
  rp_filters : list Filter;
  rp_max_events : N;
}.
Definition retention_policy_new (max_events : N) (filters : list Filter) : EventRetentionPolicy :=
  mkRetentionPolicy filters max_events.
Definition accepts_event (policy : EventRetentionPolicy) (event : Event) : bool :=
  bool_decide (0 < rp_max_events policy) && filters_match (rp_filters policy) event.
Definition accepts (policy : EventRetentionPolicy) (event : VerifiedEvent) : bool :=
  accepts_event policy (as_event event).

(** ** Interfaces

    [PubsubPolicy] and [EventBus] are traits; a call is a function of the
    arguments that may fail. *)
Record PubsubPolicy : Type := mkPubsubPolicy {
  check_event : VerifiedEvent → EventSource → res PolicyDecision;
  check_source :
    SourceCandidate → option string → list string → res PolicyDecision;
}.

(** ** The cache of signature checks *)
Definition VERIFICATION_CACHE_CAPACITY : N := 512.

Record EventVerificationCache : Type := mkVerificationCache {
  vc_signatures : gmap EventId Signature;
  vc_order : list EventId;
}.
Definition verification_cache_default : EventVerificationCache :=
  mkVerificationCache ∅ [].

(** The entry bookkeeping after a successful full check. *)
Definition cache_remember (id : EventId) (signature : Signature)
    (c : EventVerificationCache) : EventVerificationCache :=
  match vc_signatures c !! id with
  | Some _ => mkVerificationCache (<[id := signature]> (vc_signatures c)) (vc_order c)
  | None =>
      let '(signatures, order) :=
        if decide (nlen (vc_order c) = VERIFICATION_CACHE_CAPACITY) then
          match vc_order c with
          | oldest :: rest => (delete oldest (vc_signatures c), rest)
          | [] => (vc_signatures c, [])
          end
        else (vc_signatures c, vc_order c) in
      mkVerificationCache (<[id := signature]> signatures) (order ++ [id])
  end.

Definition cache_verify (event : Event) : SE EventVerificationCache PubsubError VerifiedEvent :=
  λ c,
  let signature := event_sig event in
  if decide (vc_signatures c !! event_id event = Some signature) then
    if event_verify_id event then (Ok (mkVerifiedEvent event), c)
    else (Err (Validation "invalid Nostr event ID"), c)
  else
    match verified_try_from event with
    | Err e => (Err e, c)
    | Ok verified =>
        (Ok verified, cache_remember (event_id (as_event verified)) signature c)
    end.

(** A sequence of deliveries through one cache, with the outcomes. *)
Fixpoint cache_verify_all (es : list Event) (c : EventVerificationCache)
    : list bool * EventVerificationCache :=
  match es with
  | [] => ([], c)
  | e :: es' =>
      let '(r, c1) := cache_verify e c in
      let '(rs, c2) := cache_verify_all es' c1 in
      (is_ok r :: rs, c2)
  end.
End events.
Arguments QueryEvent {_}.
Arguments VerifiedEvent {_}.

#[export] Instance VerifiedEvent_inj `{!Nostr} : Inj (=) (=) as_event.
Proof. by intros [] [] [= ->]. Qed.

Section events_facts.
Context `{!Nostr}.

Lemma verified_try_from_Ok event v :
  verified_try_from event = Ok v ↔ v = mkVerifiedEvent event ∧ verified event.
Proof.
  unfold verified_try_from, verified. destruct (event_verify event) as [[]|]; naive_solver.
Qed.

Lemma subscription_filters_match_spec filters event :
  subscription_filters_match filters event = true ↔
    ∃ f, f ∈ filters ∧ filter_match f event = true.
Proof.
  unfold subscription_filters_match. rewrite andb_true_iff, existsb_exists.
  setoid_rewrite list_elem_of_In. rewrite negb_true_iff, bool_decide_eq_false.
  split; [naive_solver|]. intros (f & Hin & ?). split; [by destruct filters|eauto].
Qed.
Lemma filters_match_spec filters event :
  filters_match filters event = true ↔
    filters = [] ∨ ∃ f, f ∈ filters ∧ filter_match f event = true.
Proof.
  unfold filters_match. rewrite orb_true_iff, bool_decide_eq_true.
  by rewrite subscription_filters_match_spec.
Qed.

(** A cache is coherent when it is within its capacity and every entry was
    put there for a verified event. *)
Record cache_ok (c : EventVerificationCache) : Prop := {
  cache_ok_fifo : fifo_ok (vc_order c) (vc_signatures c);
  cache_ok_bound : msize (vc_signatures c) ≤ VERIFICATION_CACHE_CAPACITY;
  cache_ok_origin id sg : vc_signatures c !! id = Some sg →
    ∃ e, verified e ∧ event_id e = id ∧ event_sig e = sg;
}.

Lemma cache_default_ok : cache_ok verification_cache_default.
Proof.
  split; simpl; [apply fifo_ok_empty|done|]. intros id sg. by rewrite lookup_empty.
Qed.

Lemma cache_remember_ok e c :
  cache_ok c → verified e → cache_ok (cache_remember (event_id e) (event_sig e) c).
Proof.
  intros [Hf Hb Ho] He. unfold cache_remember.
  destruct (vc_signatures c !! event_id e) eqn:Hid.
  { split; simpl.
    - apply fifo_ok_update; eauto.
    - by rewrite msize_insert_old by eauto.
    - intros id sg [[<- <-]|[_ ?]]%lookup_insert_Some; eauto. }
  case_decide as Hfull; [destruct (vc_order c) as [|oldest rest] eqn:Hord|].
  - by rewrite nlen_nil in Hfull.
  - assert (delete oldest (vc_signatures c) !! event_id e = None) as Hnone
      by (by apply lookup_delete_None; right).
    split; simpl.
    + apply fifo_ok_push; [by apply fifo_ok_pop|done].
    + rewrite msize_insert_new by done.
      rewrite <-(fifo_ok_size _ _ (fifo_ok_pop _ _ _ Hf)).
      rewrite <-Hfull, nlen_cons. lia.
    + intros id sg [[<- <-]|[_ [_ ?]%lookup_delete_Some]]%lookup_insert_Some; eauto.
  - split; simpl.
    + by apply fifo_ok_push.
    + rewrite msize_insert_new by done. rewrite <-(fifo_ok_size _ _ Hf) in *. lia.
    + intros id sg [[<- <-]|[_ ?]]%lookup_insert_Some; eauto.
Qed.

Lemma cache_verify_ok e c :
  cache_ok c → cache_ok (cache_verify e c).2.
Proof.
  intros Hc. unfold cache_verify. case_decide.
  - by destruct (event_verify_id e).
  - destruct (verified_try_from e) as [v|] eqn:Hv; simpl; [|done].
    apply verified_try_from_Ok in Hv as [-> Hv]. by apply cache_remember_ok.
Qed.

(** The answer is the one an uncached check gives. *)
Lemma cache_verify_exact `{!NostrLaws _} e c :
  cache_ok c → is_ok (cache_verify e c).1 = is_ok (verified_try_from e).
Proof.
  intros [Hf Hb Ho]. unfold cache_verify, verified_try_from.
  case_decide as Hhit; [|destruct (event_verify e); done].
  apply Ho in Hhit as (e0 & Hv0 & Hid0 & Hsg0).
  apply event_verify_spec in Hv0 as [Hvid0 Hsch0].
  destruct (event_verify_id e) eqn:Hvid; simpl.
  - destruct (event_id_binds e0 e) as (Hpk & _); [done..|].
    rewrite Hpk, Hid0, Hsg0 in Hsch0.
    assert (event_verify e = Ok tt) as -> by (by apply event_verify_spec). done.
  - destruct (event_verify e) as [[]|] eqn:Hve; [|done].
    apply event_verify_spec in Hve as [??]. congruence.
Qed.
End events_facts.

(** ** Theorems *)
Section events_props.
Context `{!Nostr}.

Lemma cache_verify_all_sound `{!NostrLaws _} es c :
  cache_ok c →
  (cache_verify_all es c).1 = (λ e, is_ok (verified_try_from e)) <$> es ∧
  cache_ok (cache_verify_all es c).2.
Proof.
  revert c. induction es as [|e es IH]; intros c Hc; simpl; [done|].
  pose proof (cache_verify_exact e c Hc) as He. pose proof (cache_verify_ok e c Hc) as Hok.
  destruct (cache_verify e c) as [r c1]. simpl in *.
  destruct (IH c1 Hok) as [Hrs Hc2].
  destruct (cache_verify_all es c1) as [rs c2]. simpl in *. by rewrite He, Hrs.
Qed.

(** The verification cache is transparent: over any sequence of
    deliveries, honest or forged, it answers each exactly as an uncached
    signature check would, and never holds more than 512 entries. *)
Theorem verification_cache_transparent `{!NostrLaws _} es :
  let '(answers, cache) := cache_verify_all es verification_cache_default in
  answers = (λ e, is_ok (verified_try_from e)) <$> es ∧
  msize (vc_signatures cache) ≤ VERIFICATION_CACHE_CAPACITY.
Proof.
  pose proof (cache_verify_all_sound es _ cache_default_ok) as [Ha Hc].
  destruct (cache_verify_all _ _). split; [done|by apply Hc].
Qed.

(** [PubsubProviderMode] round-trips through its printed name, and
    nothing but the three names parses. *)
Theorem provider_mode_roundtrip `{!StrDebug} value mode :
  mode_from_str value = Ok mode ↔ value = mode_as_str mode.
Proof.
  unfold mode_from_str. split; [|by intros ->; destruct mode].
  repeat case_decide; by intros [= <-].
Qed.
End events_props.

Module EventsWitness.
#[local] Existing Instance Toy.toy_nostr.
#[local] Existing Instance Toy.toy_laws.
(** Event A, A again (a cache hit), and a forgery with A's identifier. *)
Definition forged : Event :=
  Toy.ToyEvent Toy.IdA 7 100 1 [] "forged" 1.
Definition deliveries : list Event :=
  [Toy.toy_body Toy.IdA; Toy.toy_body Toy.IdA; forged].
Lemma verification_cache_transparent_witness :
  (λ e, is_ok (verified_try_from e)) <$> deliveries = [true; true; false] ∧
  let '(answers, cache) := cache_verify_all deliveries verification_cache_default in
  answers = (λ e, is_ok (verified_try_from e)) <$> deliveries ∧
  msize (vc_signatures cache) ≤ VERIFICATION_CACHE_CAPACITY.
Proof. split; [reflexivity|exact (verification_cache_transparent deliveries)]. Defined.
End EventsWitness.
