(* ===== verification/MeshTypes.v ===== *)
(** * The inventory/want mesh: data

    crates/nostr-pubsub/src/mesh.rs and mesh_resources.rs: wire messages,
    peers, options, actions, routes, behavior records and the state of
    [InvWantMesh] with one setter per field that the operations assign. *)

From S2P Require Export Events.

Definition DEFAULT_INV_WANT_HOP_LIMIT : N := 16.
Definition DEFAULT_INV_WANT_FANOUT : N := 8.
Definition DEFAULT_INV_WANT_MAX_EVENT_BYTES : N := 1024 * 1024.
Definition DEFAULT_INV_WANT_MAX_CACHE_BYTES : N := 16 * 1024 * 1024.
Definition DEFAULT_INV_WANT_MAX_WIRE_BYTES : N := DEFAULT_INV_WANT_MAX_EVENT_BYTES + 4096.
Definition DEFAULT_ROUTE_TTL_MS : N := 2 * 60 * 1000.
Definition DEFAULT_EVENT_TTL_MS : N := 10 * 60 * 1000.
Definition MAX_UPSTREAM_PROVIDERS_PER_EVENT : N := 3.
Definition MAX_TRACKED_PEER_BEHAVIORS : N := 4096.
Definition MIN_PEER_BEHAVIOR_SAMPLES : N := 3.
Definition VALID_FRAME_REWARD : Z := 20.
Definition INVALID_MESSAGE_PENALTY : Z := -40.
Definition UNSERVED_INVENTORY_PENALTY : Z := -20.

Definition validation (message : string) : PubsubError := Validation message.

(** ** Peers *)
Record MeshPeer : Set := mkMeshPeer { mp_id : string; quality_score : option Z }.
#[export] Instance MeshPeer_eq_dec : EqDecision MeshPeer.
Proof. solve_decision. Defined.

Module MeshPeers.
Definition new (id : string) : MeshPeer := mkMeshPeer id None.
Definition observed (id : string) (score : Z) : MeshPeer := mkMeshPeer id (Some score).
End MeshPeers.

Definition is_unknown (p : MeshPeer) : bool :=
  match quality_score p with None => true | Some _ => false end.
Definition effective_score (p : MeshPeer) : Z := default 0%Z (quality_score p).

(** ** Options *)
Record InvWantMeshOptions : Type := mkMeshOptions {
  fanout : N;
  unknown_peer_reserve : N;
  max_hops : N;
  max_event_bytes : N;
  max_cached_events : N;
  max_cached_event_bytes : N;
  max_seen_events : N;
  max_pending_peers_per_event : N;
  route_ttl_ms : N;
  event_ttl_ms : N;
  allowed_kinds : option (gset N);
}.

Definition default_mesh_options : InvWantMeshOptions := {|
  fanout := DEFAULT_INV_WANT_FANOUT;
  unknown_peer_reserve := 1;
  max_hops := DEFAULT_INV_WANT_HOP_LIMIT;
  max_event_bytes := DEFAULT_INV_WANT_MAX_EVENT_BYTES;
  max_cached_events := 1024;
  max_cached_event_bytes := DEFAULT_INV_WANT_MAX_CACHE_BYTES;
  max_seen_events := 4096;
  max_pending_peers_per_event := 64;
  route_ttl_ms := DEFAULT_ROUTE_TTL_MS;
  event_ttl_ms := DEFAULT_EVENT_TTL_MS;
  allowed_kinds := None;
|}.

(** ** Behavior records *)
Record PeerBehavior : Set := mkPeerBehavior {
  pb_score : Z;
  pb_samples : N;
  pb_valid_frames : N;
  pb_invalid_messages : N;
  pb_unserved_inventories : N;
}.
Definition default_peer_behavior : PeerBehavior := mkPeerBehavior 0 0 0 0 0.

(** [PeerBehaviorObservation] has the same fields. *)
Record PeerBehaviorObservation : Set := mkObservation {
  po_score : Z;
  po_samples : N;
  po_valid_frames : N;
  po_invalid_messages : N;
  po_unserved_inventories : N;
}.

Inductive PeerBehaviorEvidence : Set := ValidFrame | InvalidMessage | UnservedInventory.

(** ** Routes *)
Record UpstreamRoute : Type := mkUpstreamRoute {
  ur_peer_id : string;
  ur_alternate_peers : gset string;
  ur_transport_disrupted_peers : gset string;
  ur_event_kind : N;
  ur_payload_bytes : N;
  ur_hop_limit : N;
  ur_expires_at_ms : N;
  ur_fulfilled : bool;
}.

Definition route_set_alternate_peers (v : gset string) (r : UpstreamRoute) : UpstreamRoute :=
  mkUpstreamRoute (ur_peer_id r) v (ur_transport_disrupted_peers r) (ur_event_kind r)
    (ur_payload_bytes r) (ur_hop_limit r) (ur_expires_at_ms r) (ur_fulfilled r).
Definition route_set_disrupted (v : gset string) (r : UpstreamRoute) : UpstreamRoute :=
  mkUpstreamRoute (ur_peer_id r) (ur_alternate_peers r) v (ur_event_kind r)
    (ur_payload_bytes r) (ur_hop_limit r) (ur_expires_at_ms r) (ur_fulfilled r).
Definition route_set_hop_limit (v : N) (r : UpstreamRoute) : UpstreamRoute :=
  mkUpstreamRoute (ur_peer_id r) (ur_alternate_peers r) (ur_transport_disrupted_peers r)
    (ur_event_kind r) (ur_payload_bytes r) v (ur_expires_at_ms r) (ur_fulfilled r).
Definition route_set_expires_at_ms (v : N) (r : UpstreamRoute) : UpstreamRoute :=
  mkUpstreamRoute (ur_peer_id r) (ur_alternate_peers r) (ur_transport_disrupted_peers r)
    (ur_event_kind r) (ur_payload_bytes r) (ur_hop_limit r) v (ur_fulfilled r).
Definition route_set_fulfilled (v : bool) (r : UpstreamRoute) : UpstreamRoute :=
  mkUpstreamRoute (ur_peer_id r) (ur_alternate_peers r) (ur_transport_disrupted_peers r)
    (ur_event_kind r) (ur_payload_bytes r) (ur_hop_limit r) (ur_expires_at_ms r) v.

(** [route.peer_id == peer || route.alternate_peers.contains(peer)]. *)
Definition route_provider (r : UpstreamRoute) (peer : string) : Prop :=
  ur_peer_id r = peer ∨ peer ∈ ur_alternate_peers r.
#[export] Instance route_provider_dec r peer : Decision (route_provider r peer) := _.

Record PendingPeers : Type := mkPendingPeers {
  pp_peers : gset string;
  pp_expires_at_ms : N;
}.

Record ReceivedInventory : Set := mkReceivedInventory {
  ri_event_id : string;
  ri_event_kind : N;
  ri_payload_bytes : N;
  ri_hop_limit : N;
}.

Section mesh_types.
Context `{!Nostr}.

(** ** Messages and actions *)
Inductive InvWantWireMessage : Type :=
  | Inventory (event_id : string) (event_kind payload_bytes hop_limit : N)
  | Want (event_id : string)
  | Frame (event_id : string) (event : Event).

Inductive InvWantAction : Type :=
  | Send (peer_id : string) (message : InvWantWireMessage)
  | Deliver (source_peer : string) (event : Event).

Record CachedEvent : Type := mkCachedEvent {
  ce_event : Event;
  ce_expires_at_ms : N;
  ce_payload_bytes : N;
}.

(** ** The state machine's state *)
Record InvWantMesh : Type := mkMesh {
  options : InvWantMeshOptions;
  cached_events : gmap string CachedEvent;
  cache_order : list string;
  cached_event_bytes : N;
  seen_inventories : gmap string N;
  seen_order : list string;
  delivered_events : gmap string N;
  delivered_order : list string;
  upstream_routes : gmap string UpstreamRoute;
  pending_downstream : gmap string PendingPeers;
  pending_peer_count : N;
  want_forwarded : gmap string N;
  next_prune_at_ms : option N;
  peer_behaviors : gmap string PeerBehavior;
  peer_behavior_order : list string;
}.

(** Field assignments. *)
Definition set_cached_events (v : gmap string CachedEvent) (m : InvWantMesh) : InvWantMesh :=
  mkMesh (options m) v (cache_order m) (cached_event_bytes m) (seen_inventories m)
    (seen_order m) (delivered_events m) (delivered_order m) (upstream_routes m)
    (pending_downstream m) (pending_peer_count m) (want_forwarded m) (next_prune_at_ms m)
    (peer_behaviors m) (peer_behavior_order m).
Definition set_cache_order (v : list string) (m : InvWantMesh) : InvWantMesh :=
  mkMesh (options m) (cached_events m) v (cached_event_bytes m) (seen_inventories m)
    (seen_order m) (delivered_events m) (delivered_order m) (upstream_routes m)
    (pending_downstream m) (pending_peer_count m) (want_forwarded m) (next_prune_at_ms m)
    (peer_behaviors m) (peer_behavior_order m).
Definition set_cached_event_bytes (v : N) (m : InvWantMesh) : InvWantMesh :=
  mkMesh (options m) (cached_events m) (cache_order m) v (seen_inventories m)
    (seen_order m) (delivered_events m) (delivered_order m) (upstream_routes m)
    (pending_downstream m) (pending_peer_count m) (want_forwarded m) (next_prune_at_ms m)
    (peer_behaviors m) (peer_behavior_order m).
Definition set_seen_inventories (v : gmap string N) (m : InvWantMesh) : InvWantMesh :=
  mkMesh (options m) (cached_events m) (cache_order m) (cached_event_bytes m) v
    (seen_order m) (delivered_events m) (delivered_order m) (upstream_routes m)
    (pending_downstream m) (pending_peer_count m) (want_forwarded m) (next_prune_at_ms m)
    (peer_behaviors m) (peer_behavior_order m).
Definition set_seen_order (v : list string) (m : InvWantMesh) : InvWantMesh :=
  mkMesh (options m) (cached_events m) (cache_order m) (cached_event_bytes m)
    (seen_inventories m) v (delivered_events m) (delivered_order m) (upstream_routes m)
    (pending_downstream m) (pending_peer_count m) (want_forwarded m) (next_prune_at_ms m)
    (peer_behaviors m) (peer_behavior_order m).
Definition set_delivered_events (v : gmap string N) (m : InvWantMesh) : InvWantMesh :=
  mkMesh (options m) (cached_events m) (cache_order m) (cached_event_bytes m)
    (seen_inventories m) (seen_order m) v (delivered_order m) (upstream_routes m)
    (pending_downstream m) (pending_peer_count m) (want_forwarded m) (next_prune_at_ms m)
    (peer_behaviors m) (peer_behavior_order m).
Definition set_delivered_order (v : list string) (m : InvWantMesh) : InvWantMesh :=
  mkMesh (options m) (cached_events m) (cache_order m) (cached_event_bytes m)
    (seen_inventories m) (seen_order m) (delivered_events m) v (upstream_routes m)
    (pending_downstream m) (pending_peer_count m) (want_forwarded m) (next_prune_at_ms m)
    (peer_behaviors m) (peer_behavior_order m).
Definition set_upstream_routes (v : gmap string UpstreamRoute) (m : InvWantMesh) : InvWantMesh :=
  mkMesh (options m) (cached_events m) (cache_order m) (cached_event_bytes m)
    (seen_inventories m) (seen_order m) (delivered_events m) (delivered_order m) v
    (pending_downstream m) (pending_peer_count m) (want_forwarded m) (next_prune_at_ms m)
    (peer_behaviors m) (peer_behavior_order m).
Definition set_pending_downstream (v : gmap string PendingPeers) (m : InvWantMesh) : InvWantMesh :=
  mkMesh (options m) (cached_events m) (cache_order m) (cached_event_bytes m)
    (seen_inventories m) (seen_order m) (delivered_events m) (delivered_order m)
    (upstream_routes m) v (pending_peer_count m) (want_forwarded m) (next_prune_at_ms m)
    (peer_behaviors m) (peer_behavior_order m).
Definition set_pending_peer_count (v : N) (m : InvWantMesh) : InvWantMesh :=
  mkMesh (options m) (cached_events m) (cache_order m) (cached_event_bytes m)
    (seen_inventories m) (seen_order m) (delivered_events m) (delivered_order m)
    (upstream_routes m) (pending_downstream m) v (want_forwarded m) (next_prune_at_ms m)
    (peer_behaviors m) (peer_behavior_order m).
Definition set_want_forwarded (v : gmap string N) (m : InvWantMesh) : InvWantMesh :=
  mkMesh (options m) (cached_events m) (cache_order m) (cached_event_bytes m)
    (seen_inventories m) (seen_order m) (delivered_events m) (delivered_order m)
    (upstream_routes m) (pending_downstream m) (pending_peer_count m) v
    (next_prune_at_ms m) (peer_behaviors m) (peer_behavior_order m).
Definition set_next_prune_at_ms (v : option N) (m : InvWantMesh) : InvWantMesh :=
  mkMesh (options m) (cached_events m) (cache_order m) (cached_event_bytes m)
    (seen_inventories m) (seen_order m) (delivered_events m) (delivered_order m)
    (upstream_routes m) (pending_downstream m) (pending_peer_count m) (want_forwarded m) v
    (peer_behaviors m) (peer_behavior_order m).
Definition set_peer_behaviors (v : gmap string PeerBehavior) (m : InvWantMesh) : InvWantMesh :=
  mkMesh (options m) (cached_events m) (cache_order m) (cached_event_bytes m)
    (seen_inventories m) (seen_order m) (delivered_events m) (delivered_order m)
    (upstream_routes m) (pending_downstream m) (pending_peer_count m) (want_forwarded m)
    (next_prune_at_ms m) v (peer_behavior_order m).
Definition set_peer_behavior_order (v : list string) (m : InvWantMesh) : InvWantMesh :=
  mkMesh (options m) (cached_events m) (cache_order m) (cached_event_bytes m)
    (seen_inventories m) (seen_order m) (delivered_events m) (delivered_order m)
    (upstream_routes m) (pending_downstream m) (pending_peer_count m) (want_forwarded m)
    (next_prune_at_ms m) (peer_behaviors m) v.

(** [InvWantMesh::new]: the options are normalised to a workable range. *)
Definition normalize_options (o : InvWantMeshOptions) : InvWantMeshOptions :=
  let fanout' := fanout o `max` 1 in
  let max_event_bytes' := max_event_bytes o `max` 1 in
  let route_ttl_ms' := route_ttl_ms o `max` 1 in
  {| fanout := fanout';
     unknown_peer_reserve := unknown_peer_reserve o `min` fanout';
     max_hops := max_hops o `max` 1;
     max_event_bytes := max_event_bytes';
     max_cached_events := max_cached_events o `max` 1;
     max_cached_event_bytes := max_cached_event_bytes o `max` max_event_bytes';
     max_seen_events := max_seen_events o `max` 1;
     max_pending_peers_per_event := max_pending_peers_per_event o `max` 1;
     route_ttl_ms := route_ttl_ms';
     event_ttl_ms := event_ttl_ms o `max` route_ttl_ms';
     allowed_kinds := allowed_kinds o |}.

Definition mesh_new (o : InvWantMeshOptions) : InvWantMesh :=
  {| options := normalize_options o;
     cached_events := ∅; cache_order := []; cached_event_bytes := 0;
     seen_inventories := ∅; seen_order := [];
     delivered_events := ∅; delivered_order := [];
     upstream_routes := ∅; pending_downstream := ∅; pending_peer_count := 0;
     want_forwarded := ∅; next_prune_at_ms := None;
     peer_behaviors := ∅; peer_behavior_order := [] |}.
End mesh_types.

(** The option ranges the constructor establishes. *)
Record options_ok (o : InvWantMeshOptions) : Prop := {
  oo_fanout : 1 ≤ fanout o;
  oo_reserve : unknown_peer_reserve o ≤ fanout o;
  oo_hops : 1 ≤ max_hops o;
  oo_event_bytes : 1 ≤ max_event_bytes o;
  oo_cached_events : 1 ≤ max_cached_events o;
  oo_cache_bytes : max_event_bytes o ≤ max_cached_event_bytes o;
  oo_seen : 1 ≤ max_seen_events o;
  oo_pending : 1 ≤ max_pending_peers_per_event o;
  oo_route_ttl : 1 ≤ route_ttl_ms o;
  oo_event_ttl : route_ttl_ms o ≤ event_ttl_ms o;
}.

Lemma normalize_options_ok o : options_ok (normalize_options o).
Proof. split; simpl; lia. Qed.

(** Options that are already in range are kept. *)
Lemma normalize_options_id o : options_ok o → normalize_options o = o.
Proof.
  intros []. destruct o; unfold normalize_options; simpl in *.
  f_equal; lia.
Qed.
