(* ===== verification/InvWant.v ===== *)
(** * Inventory/want data and the envelope codec

    crates/nostr-pubsub/src/inv_want.rs: the transport-neutral inventory, want
    and frame messages; and [InvWantCodec] of crates/nostr-pubsub/src/mesh.rs,
    the bounded JSON envelope around a mesh message. *)

From S2P Require Export MeshTypes.

(** ** Stream messages *)
Record PubsubContentKey : Set := mkContentKey {
  ck_stream_id : string;
  ck_origin : string;
  ck_seq : N;
}.
#[export] Instance PubsubContentKey_eq_dec : EqDecision PubsubContentKey.
Proof. solve_decision. Defined.

Record PubsubInventory : Set := mkInventory {
  iv_key : PubsubContentKey;
  iv_payload_bytes : N;
  iv_hop_limit : N;
}.
Record PubsubWant : Set := mkWant { wa_key : PubsubContentKey }.
Record PubsubFrame : Set := mkFrame {
  fr_key : PubsubContentKey;
  fr_payload : list Byte.byte;
  fr_hop_limit : N;
}.
Inductive InvWantMessage : Set :=
  | MsgInventory (inventory : PubsubInventory)
  | MsgWant (want : PubsubWant)
  | MsgFrame (frame : PubsubFrame).

Definition inventory_want (i : PubsubInventory) : PubsubWant := mkWant (iv_key i).
(** [u64::try_from(len).unwrap_or(u64::MAX)]. *)
Definition frame_inventory (f : PubsubFrame) : PubsubInventory :=
  mkInventory (fr_key f)
    (if decide (nlen (fr_payload f) ≤ u64_max) then nlen (fr_payload f) else u64_max)
    (fr_hop_limit f).
Definition message_key (m : InvWantMessage) : PubsubContentKey :=
  match m with
  | MsgInventory inventory => iv_key inventory
  | MsgWant want => wa_key want
  | MsgFrame frame => fr_key frame
  end.
Definition message_stream_id (m : InvWantMessage) : string :=
  match m with
  | MsgInventory inventory => ck_stream_id (iv_key inventory)
  | MsgWant want => ck_stream_id (wa_key want)
  | MsgFrame frame => ck_stream_id (fr_key frame)
  end.

(** ** The codec *)
Section codec.
Context `{!Nostr}.

(** The envelope as serde derives its JSON. *)
Record InvWantEnvelope : Type := mkEnvelope {
  en_protocol : string;
  en_version : N;
  en_message : InvWantWireMessage;
}.
Class EnvelopeJson : Type := {
  envelope_to_vec : InvWantEnvelope → result string string;
  envelope_from_slice : string → result string InvWantEnvelope;
}.
(** A derived [Deserialize] reads back what the derived [Serialize] wrote. *)
Class EnvelopeJsonLaws (J : EnvelopeJson) : Prop := {
  envelope_roundtrip e bytes :
    envelope_to_vec e = Ok bytes → envelope_from_slice bytes = Ok e;
}.
Context `{!EnvelopeJson, !StrDebug}.

Record InvWantCodec : Set := mkCodec {
  co_protocol : string;
  co_version : N;
  co_max_wire_bytes : N;
}.
Definition codec_new (protocol : string) (version max_wire_bytes : N) : InvWantCodec :=
  mkCodec protocol version (N.max max_wire_bytes 1).

Definition check_wire_len (codec : InvWantCodec) (len : N) : res unit :=
  if decide (co_max_wire_bytes codec < len) then
    Err (validation ("inv/want wire payload is " +:+ pretty len +:+ " bytes, maximum is "
      +:+ pretty (co_max_wire_bytes codec)))
  else Ok tt.
Definition invalid_json (error : string) : PubsubError :=
  validation ("invalid inv/want JSON: " +:+ error).
Definition codec_encode (codec : InvWantCodec) (message : InvWantWireMessage) : res string :=
  encoded ← map_err invalid_json
    (envelope_to_vec (mkEnvelope (co_protocol codec) (co_version codec) message));
  _ ← check_wire_len codec (slen encoded);
  Ok encoded.
Definition codec_decode (codec : InvWantCodec) (payload : string) : res InvWantWireMessage :=
  _ ← check_wire_len codec (slen payload);
  envelope ← map_err invalid_json (envelope_from_slice payload);
  if decide (en_protocol envelope ≠ co_protocol codec) then
    Err (validation ("unsupported inv/want protocol " +:+ debug_str (en_protocol envelope)))
  else if decide (en_version envelope ≠ co_version codec) then
    Err (validation ("unsupported inv/want version " +:+ pretty (en_version envelope)))
  else Ok (en_message envelope).

Lemma check_wire_len_Ok codec len u :
  check_wire_len codec len = Ok u ↔ len ≤ co_max_wire_bytes codec.
Proof. unfold check_wire_len. destruct u. case_decide; split; (done || lia). Qed.

Lemma codec_encode_Ok codec message bytes :
  codec_encode codec message = Ok bytes ↔
    envelope_to_vec (mkEnvelope (co_protocol codec) (co_version codec) message) = Ok bytes ∧
    slen bytes ≤ co_max_wire_bytes codec.
Proof.
  unfold codec_encode. rewrite result_bind_Ok. setoid_rewrite map_err_Ok.
  setoid_rewrite result_bind_Ok. setoid_rewrite check_wire_len_Ok. split.
  - intros (b & He & _ & Hl & [= ->]). done.
  - intros [He Hl]. exists bytes. split; [done|]. by exists tt.
Qed.
Lemma codec_decode_Ok codec payload message :
  codec_decode codec payload = Ok message ↔
    slen payload ≤ co_max_wire_bytes codec ∧
    envelope_from_slice payload
      = Ok (mkEnvelope (co_protocol codec) (co_version codec) message).
Proof.
  unfold codec_decode. rewrite result_bind_Ok. setoid_rewrite check_wire_len_Ok.
  setoid_rewrite result_bind_Ok. setoid_rewrite map_err_Ok. split.
  - intros (_ & Hl & [p v m] & He & Hm). split; [done|]. simpl in Hm.
    case_decide as Hp; [done|]. case_decide as Hv; [done|]. injection Hm as <-.
    by subst.
  - intros [Hl He]. exists tt. split; [done|]. eexists. split; [exact He|]. simpl.
    rewrite decide_False by tauto. rewrite decide_False by tauto. done.
Qed.

(** What a codec encodes, a codec of the same protocol and version that
    allows its length decodes to the same message; one of another protocol or
    version rejects it; and nothing longer than its limit is ever produced
    or accepted. *)
Theorem codec_roundtrip `{!EnvelopeJsonLaws _} codec other message bytes :
  codec_encode codec message = Ok bytes →
  slen bytes ≤ co_max_wire_bytes codec ∧
  (∀ received, codec_decode other bytes = Ok received ↔
    received = message ∧ co_protocol other = co_protocol codec ∧
    co_version other = co_version codec ∧ slen bytes ≤ co_max_wire_bytes other) ∧
  (∀ payload, co_max_wire_bytes codec < slen payload →
    is_ok (codec_decode codec payload) = false).
Proof.
  intros [Henc Hlen]%codec_encode_Ok. split; [done|]. split.
  - intros received. rewrite codec_decode_Ok, (envelope_roundtrip _ _ Henc).
    split; [intros [? [= ? ? ?]]; by subst|]. intros (-> & -> & -> & ?). done.
  - intros payload Hp. destruct (codec_decode codec payload) as [m|] eqn:Hd; [|done].
    apply codec_decode_Ok in Hd as [? _]. lia.
Qed.
End codec.

(** ** A concrete envelope format, for evaluation *)
Module CodecWitness.
#[local] Existing Instance Toy.toy_nostr.
Definition want_a : InvWantWireMessage := Want "aa".
(** Only the want for ["aa"] is representable. *)
#[local] Instance toy_envelope : EnvelopeJson := {|
  envelope_to_vec e :=
    match en_message e with
    | Want "aa" =>
        if decide (en_version e < 256) then
          Ok (String (Ascii.ascii_of_N (en_version e)) (en_protocol e))
        else Err "not a u8"%string
    | _ => Err "unsupported"%string
    end;
  envelope_from_slice s :=
    match s with
    | String v p => Ok (mkEnvelope p (Ascii.N_of_ascii v) want_a)
    | EmptyString => Err "empty"%string
    end;
|}.
#[local] Instance toy_envelope_laws : EnvelopeJsonLaws toy_envelope.
Proof.
  split. intros [p v m] bytes. simpl. intros Henc. case_hyp Henc.
  by rewrite Ascii.N_ascii_embedding.
Qed.
Definition mesh_codec : InvWantCodec := codec_new "mesh" 1 64.
Definition newer_codec : InvWantCodec := codec_new "mesh" 2 64.
Definition wire : string := String (Ascii.ascii_of_N 1) "mesh".
Lemma mesh_encodes : codec_encode mesh_codec want_a = Ok wire.
Proof. apply codec_encode_Ok. split; [reflexivity|vm_compute; congruence]. Qed.
Lemma codec_roundtrip_witness :
  codec_decode newer_codec wire = Err (validation "unsupported inv/want version 1") ∧
  slen wire ≤ 64 ∧
  (∀ received, codec_decode newer_codec wire = Ok received ↔
    received = want_a ∧ "mesh"%string = "mesh"%string ∧ 2 = 1 ∧ slen wire ≤ 64) ∧
  (∀ payload, 64 < slen payload → is_ok (codec_decode mesh_codec payload) = false).
Proof.
  split; [reflexivity|].
  exact (codec_roundtrip mesh_codec newer_codec want_a wire mesh_encodes).
Defined.
End CodecWitness.
