(* ===== verification/MeshSelect.v ===== *)
(** * Mesh peer selection

    [select_mesh_peers] of crates/nostr-pubsub/src/mesh.rs: deduplicate the
    connected peers, rank them, keep the best [fanout] of them and trade the
    worst known ones for unknown ones until the exploration reserve is met.
    The specification says which multiset of peers that is. *)

From S2P Require Export MeshTypes.

(** [entry(id).and_modify(..).or_insert_with(..)] of one peer. *)
Definition dedup_step (peer : MeshPeer) (m : gmap string MeshPeer) : gmap string MeshPeer :=
  match m !! mp_id peer with
  | Some existing =>
      if is_unknown existing && negb (is_unknown peer) then <[mp_id peer := peer]> m else m
  | None => <[mp_id peer := peer]> m
  end.

Definition dedup_peers (peers : list MeshPeer) (excluded_peer : option string)
    : gmap string MeshPeer :=
  foldl (λ m peer, dedup_step peer m) ∅
    (filter (λ peer, excluded_peer ≠ Some (mp_id peer)) peers).

(** Better scores first, then known before unknown, then by identity. *)
Definition mesh_peer_compare : MeshPeer → MeshPeer → comparison :=
  cmp_then (cmp_rev (cmp_on effective_score Z.compare))
    (cmp_then (cmp_on is_unknown bool_compare) (cmp_on mp_id String.compare)).

Definition peer_candidates (peers : list MeshPeer) (excluded_peer : option string)
    : list MeshPeer :=
  sort_by mesh_peer_compare (btree_values (dedup_peers peers excluded_peer)).

Definition count_unknown (l : list MeshPeer) : nat := length (filter is_unknown l).

(** [iter().rposition(p)]. *)
Fixpoint rposition {A} (P : A → bool) (l : list A) : option nat :=
  match l with
  | [] => None
  | x :: l' =>
      match rposition P l' with
      | Some i => Some (S i)
      | None => if P x then Some 0%nat else None
      end
  end.

(** The [while] loop that fills the reserve; each turn consumes one of the
    remaining unknown candidates. *)
Fixpoint fill_reserve (required_unknown : nat) (replacement_unknowns selected : list MeshPeer)
    : list MeshPeer :=
  if decide (count_unknown selected < required_unknown)%nat then
    match replacement_unknowns with
    | [] => selected
    | replacement :: rest =>
        match rposition (λ p, negb (is_unknown p)) selected with
        | None => selected
        | Some replace_index =>
            fill_reserve required_unknown rest (<[replace_index := replacement]> selected)
        end
    end
  else selected.

Definition select_mesh_peers (peers : list MeshPeer) (excluded_peer : option string)
    (fanout unknown_peer_reserve : N) : list MeshPeer :=
  let candidates := peer_candidates peers excluded_peer in
  if decide (nlen candidates ≤ fanout) then candidates
  else
    let target := N.to_nat (fanout `min` nlen candidates) in
    let required_unknown :=
      (N.to_nat unknown_peer_reserve `min` target `min` count_unknown candidates)%nat in
    fill_reserve required_unknown (filter is_unknown (drop target candidates))
      (take target candidates).

(** ** The specification

    Of [target] places, [reserved] go to the best unknown candidates (those
    that rank high enough anyway, or the reserve) and the rest to the best
    known ones. *)
Definition known (l : list MeshPeer) : list MeshPeer := filter (λ p, negb (is_unknown p)) l.
Definition unknown (l : list MeshPeer) : list MeshPeer := filter is_unknown l.

Definition reserved_places (candidates : list MeshPeer) (target reserve : nat) : nat :=
  (count_unknown (take target candidates)
    `max` (reserve `min` target `min` count_unknown candidates))%nat.

Definition selection_spec (candidates : list MeshPeer) (fanout reserve : N) : list MeshPeer :=
  let target := N.to_nat (fanout `min` nlen candidates) in
  let r := reserved_places candidates target (N.to_nat reserve) in
  take (target - r) (known candidates) ++ take r (unknown candidates).

(** ** Facts about the pieces *)
#[export] Instance mesh_peer_compare_order : CmpOrder mesh_peer_compare.
Proof. unfold mesh_peer_compare. apply _. Qed.

Lemma rposition_Some {A} (P : A → bool) l i :
  rposition P l = Some i →
  ∃ l1 x l2, l = l1 ++ x :: l2 ∧ length l1 = i ∧ P x = true ∧ ∀ y, y ∈ l2 → P y = false.
Proof.
  revert i. induction l as [|x l IH]; intros i; simpl; [done|].
  destruct (rposition P l) as [j|] eqn:Hl.
  - intros [= <-]. destruct (IH j) as (l1 & y & l2 & -> & <- & ?); [done|].
    exists (x :: l1), y, l2. auto.
  - destruct (P x) eqn:Hx; [|done]. intros [= <-]. exists [], x, l. split_and!; [done..|].
    clear IH Hx. induction l as [|z l IH]; [set_solver|]. simpl in Hl.
    destruct (rposition P l); [done|]. destruct (P z) eqn:Hz; [done|].
    intros y [->|]%elem_of_cons; auto.
Qed.
Lemma rposition_None {A} (P : A → bool) l :
  rposition P l = None → ∀ y, y ∈ l → P y = false.
Proof.
  induction l as [|x l IH]; simpl; [set_solver|].
  destruct (rposition P l); [done|]. destruct (P x) eqn:Hx; [done|].
  intros _ y [->|]%elem_of_cons; auto.
Qed.

Lemma known_unknown_length l : length l = (length (known l) + count_unknown l)%nat.
Proof.
  unfold known, count_unknown. induction l as [|x l IH]; simpl; [done|].
  rewrite !filter_cons. destruct (is_unknown x); simpl; lia.
Qed.
Lemma known_unknown_perm l : l ≡ₚ known l ++ unknown l.
Proof.
  unfold known, unknown. induction l as [|x l IH]; simpl; [done|].
  rewrite !filter_cons. destruct (is_unknown x); simpl.
  - by rewrite IH, Permutation_middle at 1.
  - by rewrite IH at 1.
Qed.
Lemma known_all_unknown l : (∀ y, y ∈ l → negb (is_unknown y) = false) → known l = [].
Proof.
  intros Hl. unfold known. induction l as [|x l IH]; [done|].
  rewrite filter_cons, (Hl x) by set_solver. simpl. apply IH. set_solver.
Qed.
Lemma filter_take_prefix {A} (P : A → bool) n l :
  filter P (take n l) = take (length (filter P (take n l))) (filter P l).
Proof.
  rewrite <-(take_drop n l) at 3. by rewrite filter_app, take_app_length.
Qed.

(** One turn of the loop: the last known peer leaves, an unknown one enters. *)
Lemma replace_last_known selected i r :
  rposition (λ p, negb (is_unknown p)) selected = Some i → is_unknown r = true →
  known (<[i := r]> selected) = take (length (known selected) - 1) (known selected) ∧
  unknown (<[i := r]> selected) ≡ₚ unknown selected ++ [r] ∧
  (1 ≤ length (known selected))%nat.
Proof.
  intros (l1 & x & l2 & -> & <- & Hx & Hl2)%rposition_Some Hr.
  rewrite insert_app_r_alt, Nat.sub_diag by lia. simpl.
  unfold known, unknown. rewrite !filter_app, !filter_cons, Hx, Hr. simpl.
  fold (known l2). rewrite (known_all_unknown l2) by done.
  rewrite app_nil_r, length_app. simpl. rewrite Nat.add_sub, take_app_length.
  rewrite negb_true_iff in Hx. rewrite Hx. simpl. split_and!; [done| |lia].
  rewrite <-app_assoc. f_equiv. apply Permutation_cons_append.
Qed.

Lemma fill_reserve_spec required rs selected :
  Forall is_unknown rs →
  ∃ n, fill_reserve required rs selected ≡ₚ
         take (length (known selected) - n) (known selected) ++
           unknown selected ++ take n rs ∧
       (n ≤ length rs)%nat ∧ (n ≤ length (known selected))%nat ∧
       known (fill_reserve required rs selected)
         = take (length (known selected) - n) (known selected) ∧
       n = ((required - count_unknown selected) `min` length rs
             `min` length (known selected))%nat.
Proof.
  intros Hrs. revert selected. induction Hrs as [|r rs Hr Hrs IH]; intros selected.
  { exists 0%nat. simpl. rewrite Nat.sub_0_r, firstn_all, app_nil_r.
    split_and!; try lia; case_decide; try done; apply known_unknown_perm. }
  simpl. case_decide as Hlt.
  2:{ exists 0%nat. simpl. rewrite Nat.sub_0_r, firstn_all, app_nil_r.
      split_and!; try done; try lia. apply known_unknown_perm. }
  destruct (rposition _ _) as [i|] eqn:Hi.
  2:{ pose proof (known_all_unknown _ (rposition_None _ _ Hi)) as Hk.
      exists 0%nat. rewrite Hk. simpl. rewrite app_nil_r.
      split_and!; try done; try lia. by rewrite (known_unknown_perm selected), Hk at 1. }
  apply Is_true_true in Hr.
  destruct (replace_last_known selected i r Hi Hr) as (Hk & Hu & Hlen).
  destruct (IH (<[i := r]> selected)) as (n & Hperm & Hn1 & Hn2 & Hkn & Hn).
  rewrite Hk in Hperm, Hn2, Hkn, Hn. rewrite length_take in Hperm, Hn2, Hkn, Hn.
  assert (count_unknown (<[i:=r]> selected) = S (count_unknown selected)) as Hcu.
  { unfold count_unknown. fold (unknown (<[i:=r]> selected)) (unknown selected).
    rewrite Hu, length_app. simpl. lia. }
  exists (S n). rewrite take_take in Hperm, Hkn.
  replace ((length (known selected) - 1) `min` length (known selected) - n)%nat
    with (length (known selected) - S n)%nat in Hperm, Hkn by lia.
  rewrite Nat.min_l in Hperm, Hkn by lia.
  split_and!; try done; try (simpl; lia).
  - rewrite Hperm, Hu. simpl. by rewrite <-app_assoc.
Qed.

(** The deduplicated map: one input peer per eligible identity, a scored copy
    when there is one. *)
Lemma dedup_step_lookup peer m id :
  dedup_step peer m !! id =
    if decide (id = mp_id peer) then
      match m !! id with
      | Some existing =>
          if is_unknown existing && negb (is_unknown peer) then Some peer else Some existing
      | None => Some peer
      end
    else m !! id.
Proof.
  unfold dedup_step. case_decide as Hid; subst.
  - destruct (m !! mp_id peer) eqn:Hm; [destruct (_ && _)|]; simplify_map_eq; done.
  - destruct (m !! mp_id peer); [destruct (_ && _)|]; by simplify_map_eq.
Qed.

Lemma dedup_fold_lookup peers m id :
  match foldl (λ m peer, dedup_step peer m) m peers !! id with
  | Some p => (p ∈ peers ∧ mp_id p = id) ∨ m !! id = Some p
  | None => m !! id = None ∧ ∀ p, p ∈ peers → mp_id p ≠ id
  end.
Proof.
  revert m. induction peers as [|q peers IH]; intros m; simpl.
  - destruct (m !! id); [by right|]. set_solver.
  - specialize (IH (dedup_step q m)). rewrite dedup_step_lookup in IH.
    destruct (foldl _ _ _ !! id) as [p|].
    + destruct IH as [[??]|Hq]; [set_solver|]. case_decide as Hid; [|by right].
      destruct (m !! id) as [e|]; [destruct (_ && _)|]; simplify_eq; set_solver.
    + destruct IH as [Hq Hnot]. case_decide as Hid.
      * destruct (m !! id) as [e|]; [destruct (_ && _)|]; done.
      * set_solver.
Qed.

Lemma dedup_peers_Some peers excluded id p :
  dedup_peers peers excluded !! id = Some p →
  p ∈ peers ∧ mp_id p = id ∧ excluded ≠ Some id.
Proof.
  intros Hp. pose proof (dedup_fold_lookup
    (filter (λ peer, excluded ≠ Some (mp_id peer)) peers) ∅ id) as Hd.
  fold (dedup_peers peers excluded) in Hd. rewrite Hp in Hd.
  destruct Hd as [[[??]%list_elem_of_filter <-]|Hd]; [done|]. by rewrite lookup_empty in Hd.
Qed.
Lemma dedup_peers_None peers excluded p :
  p ∈ peers → dedup_peers peers excluded !! mp_id p = None → excluded = Some (mp_id p).
Proof.
  intros Hin Hn. pose proof (dedup_fold_lookup
    (filter (λ peer, excluded ≠ Some (mp_id peer)) peers) ∅ (mp_id p)) as Hd.
  fold (dedup_peers peers excluded) in Hd. rewrite Hn in Hd. destruct Hd as [_ Hd].
  destruct (decide (excluded = Some (mp_id p))); [done|].
  exfalso. by apply (Hd p); [apply list_elem_of_filter|].
Qed.

Lemma peer_candidates_elem peers excluded p :
  p ∈ peer_candidates peers excluded ↔ dedup_peers peers excluded !! mp_id p = Some p.
Proof.
  unfold peer_candidates. rewrite sort_by_elem, btree_values_elem.
  split; [|by eauto]. intros [k Hk]. by destruct (dedup_peers_Some _ _ _ _ Hk) as (_ & <- & _).
Qed.

Lemma peer_candidates_NoDup peers excluded :
  NoDup (mp_id <$> peer_candidates peers excluded).
Proof.
  unfold peer_candidates, btree_values. rewrite sort_by_perm, btree_to_list_perm.
  assert (mp_id <$> (map_to_list (dedup_peers peers excluded)).*2
          = (map_to_list (dedup_peers peers excluded)).*1) as ->;
    [|apply NoDup_fst_map_to_list].
  rewrite <-list_fmap_compose. apply list_fmap_ext. intros i [k p] Hi. simpl.
  apply list_elem_of_lookup_2, elem_of_map_to_list in Hi.
  by destruct (dedup_peers_Some _ _ _ _ Hi) as (_ & <- & _).
Qed.

Lemma peer_candidates_sorted peers excluded :
  StronglySorted (cmp_le mesh_peer_compare) (peer_candidates peers excluded).
Proof. apply sort_by_sorted. apply _. Qed.

(** ** The selection meets the specification *)
Lemma selection_all candidates fanout reserve :
  nlen candidates ≤ fanout →
  selection_spec candidates fanout reserve = known candidates ++ unknown candidates.
Proof.
  intros Hle. unfold selection_spec.
  replace (N.to_nat (fanout `min` nlen candidates)) with (length candidates)
    by (unfold nlen in *; lia).
  unfold reserved_places. rewrite firstn_all.
  pose proof (known_unknown_length candidates) as Hl.
  unfold count_unknown in *. fold (unknown candidates) in *.
  rewrite (Nat.max_l (length (unknown candidates))) by lia.
  rewrite firstn_all. f_equal. apply take_ge. lia.
Qed.

Lemma fill_reserve_selection candidates target reserve :
  (target ≤ length candidates)%nat →
  let required := (reserve `min` target `min` count_unknown candidates)%nat in
  let r := reserved_places candidates target reserve in
  fill_reserve required (filter is_unknown (drop target candidates)) (take target candidates)
    ≡ₚ take (target - r) (known candidates) ++ take r (unknown candidates).
Proof.
  intros Ht required r.
  set (rs := filter is_unknown (drop target candidates)).
  assert (Forall is_unknown rs) as Hrs.
  { apply Forall_forall. intros x Hx. by apply list_elem_of_filter in Hx as [??]. }
  destruct (fill_reserve_spec required rs (take target candidates) Hrs)
    as (n & Hperm & Hn1 & Hn2 & _ & Hn).
  pose proof (known_unknown_length (take target candidates)) as Hkt.
  rewrite length_take, Nat.min_l in Hkt by done.
  assert (known (take target candidates)
    = take (length (known (take target candidates))) (known candidates)) as Hktake
    by apply filter_take_prefix.
  assert (unknown (take target candidates) ++ rs = unknown candidates) as Hsplit.
  { unfold unknown, rs. by rewrite <-filter_app, take_drop. }
  assert (count_unknown candidates
    = (count_unknown (take target candidates) + length rs)%nat) as Hcu.
  { unfold count_unknown. rewrite <-length_app. f_equal. symmetry. apply Hsplit. }
  set (k := length (known (take target candidates))) in *.
  set (u := count_unknown (take target candidates)) in *.
  assert (r = (u + n)%nat) as Hr.
  { unfold r, reserved_places. fold u. unfold required in Hn. lia. }
  rewrite Hperm, Hktake, take_take, Nat.min_l by lia.
  replace (k - n)%nat with (target - r)%nat by lia. f_equiv.
  by rewrite <-Hsplit, Hr, take_app_add'.
Qed.

Lemma select_mesh_peers_selection peers excluded fanout reserve :
  select_mesh_peers peers excluded fanout reserve
    ≡ₚ selection_spec (peer_candidates peers excluded) fanout reserve.
Proof.
  unfold select_mesh_peers. case_decide as Hle.
  - rewrite selection_all by done. apply known_unknown_perm.
  - unfold selection_spec. apply fill_reserve_selection. unfold nlen in *. lia.
Qed.


Lemma selection_length candidates fanout reserve :
  length (selection_spec candidates fanout reserve)
    = N.to_nat (fanout `min` nlen candidates).
Proof.
  unfold selection_spec. set (target := N.to_nat _).
  pose proof (known_unknown_length candidates) as Hl.
  pose proof (known_unknown_length (take target candidates)) as Hl'.
  assert (target ≤ length candidates)%nat by (unfold target, nlen; lia).
  rewrite length_take, Nat.min_l in Hl' by done.
  pose proof (filter_take_prefix (λ p, negb (is_unknown p)) target candidates) as Hk.
  apply (f_equal length) in Hk. rewrite length_take in Hk.
  pose proof (filter_take_prefix is_unknown target candidates) as Hu.
  apply (f_equal length) in Hu. rewrite length_take in Hu.
  unfold reserved_places. rewrite length_app, !length_take.
  unfold known, unknown, count_unknown in *. lia.
Qed.

Lemma selection_incl candidates fanout reserve p :
  p ∈ selection_spec candidates fanout reserve → p ∈ candidates.
Proof.
  unfold selection_spec, known, unknown.
  rewrite elem_of_app. intros [Hp|Hp]; apply elem_of_take in Hp as (i & Hi & _);
    apply list_elem_of_lookup_2, list_elem_of_filter in Hi; tauto.
Qed.

Lemma selection_sublist candidates fanout reserve :
  selection_spec candidates fanout reserve ⊆+ candidates.
Proof.
  unfold selection_spec. etrans; [|apply Permutation_submseteq; symmetry;
    apply (known_unknown_perm candidates)].
  apply submseteq_app; apply sublist_submseteq, sublist_take.
Qed.

Lemma select_mesh_peers_NoDup peers excluded fanout reserve :
  NoDup (mp_id <$> select_mesh_peers peers excluded fanout reserve).
Proof.
  rewrite select_mesh_peers_selection. pose proof (peer_candidates_NoDup peers excluded) as Hnd.
  destruct (submseteq_Permutation _ _
    (selection_sublist (peer_candidates peers excluded) fanout reserve)) as [k Hk].
  rewrite Hk, fmap_app in Hnd. by apply NoDup_app in Hnd as [??].
Qed.
Lemma select_mesh_peers_length peers excluded fanout reserve :
  nlen (select_mesh_peers peers excluded fanout reserve)
    = fanout `min` nlen (peer_candidates peers excluded).
Proof. unfold nlen. rewrite select_mesh_peers_selection, selection_length. unfold nlen. lia. Qed.
Lemma select_mesh_peers_elem peers excluded fanout reserve p :
  p ∈ select_mesh_peers peers excluded fanout reserve →
  p ∈ peers ∧ excluded ≠ Some (mp_id p).
Proof.
  intros Hp. rewrite select_mesh_peers_selection in Hp. apply selection_incl in Hp.
  apply peer_candidates_elem, dedup_peers_Some in Hp as (?&?&?). done.
Qed.

(** The peers selected are distinct connected peers, never the excluded
    one, and exactly [fanout] of them unless fewer are eligible. *)
Theorem select_mesh_peers_bounded_distinct peers excluded fanout reserve :
  let selected := select_mesh_peers peers excluded fanout reserve in
  NoDup (mp_id <$> selected) ∧
  nlen selected = fanout `min` nlen (peer_candidates peers excluded) ∧
  (∀ p, p ∈ selected → p ∈ peers ∧ excluded ≠ Some (mp_id p)).
Proof.
  split_and!; [apply select_mesh_peers_NoDup|apply select_mesh_peers_length|].
  intros p. apply select_mesh_peers_elem.
Qed.

Lemma selection_count_unknown candidates fanout reserve :
  let target := N.to_nat (fanout `min` nlen candidates) in
  count_unknown (selection_spec candidates fanout reserve)
    = reserved_places candidates target (N.to_nat reserve).
Proof.
  intros target. pose proof (known_unknown_length (selection_spec candidates fanout reserve)) as Hl.
  rewrite selection_length in Hl. fold target in Hl.
  pose proof (known_unknown_length candidates) as Hc.
  unfold selection_spec in *. fold target in Hl |- *.
  set (r := reserved_places candidates target (N.to_nat reserve)) in *.
  assert (r ≤ count_unknown candidates)%nat as Hr.
  { unfold r, reserved_places.
    pose proof (filter_take_prefix is_unknown target candidates) as Hu.
    apply (f_equal length) in Hu. rewrite length_take in Hu. unfold count_unknown in *. lia. }
  unfold count_unknown at 1. rewrite filter_app, length_app.
  assert (filter is_unknown (take (target - r) (known candidates)) = []) as ->.
  { apply filter_none. intros x Hin Hx.
    apply elem_of_take in Hin as (i & Hi & _).
    apply list_elem_of_lookup_2, list_elem_of_filter in Hi as [Hk _].
    by destruct (is_unknown x). }
  rewrite filter_all.
  - rewrite length_take. simpl. unfold count_unknown in Hr. unfold unknown. lia.
  - intros x Hin. apply elem_of_take in Hin as (i & Hi & _).
    by apply list_elem_of_lookup_2, list_elem_of_filter in Hi as [Hk _].
Qed.

(** Exploration is guaranteed: unknown peers hold at least the reserved
    number of places, as long as that many unknown peers are eligible. *)
Theorem select_mesh_peers_reserve peers excluded fanout reserve :
  (N.to_nat reserve `min` N.to_nat fanout
     `min` count_unknown (peer_candidates peers excluded)
   ≤ count_unknown (select_mesh_peers peers excluded fanout reserve))%nat.
Proof.
  set (cands := peer_candidates peers excluded).
  assert (count_unknown (select_mesh_peers peers excluded fanout reserve)
    = count_unknown (selection_spec cands fanout reserve)) as ->.
  { unfold count_unknown. by rewrite select_mesh_peers_selection. }
  rewrite selection_count_unknown. unfold reserved_places.
  pose proof (known_unknown_length cands). unfold nlen. lia.
Qed.
