(* ===== verification/Mesh.v ===== *)
(** * The inventory/want mesh: operations

    The methods of [InvWantMesh] in crates/nostr-pubsub/src/mesh.rs,
    mesh_resources.rs and mesh_verified.rs. A method that returns a
    [Result] is a computation of [SE InvWantMesh PubsubError]; the others
    are functions on the state. *)

From S2P Require Export MeshSelect.

Section mesh.
Context `{!Nostr, !HashOrder}.
Implicit Types m : InvWantMesh.

(** ** Peer behavior *)
Definition record_peer_behavior (peer_id : string) (score_delta : Z)
    (evidence : PeerBehaviorEvidence) (m : InvWantMesh) : InvWantMesh :=
  let '(order, behaviors) :=
    match peer_behaviors m !! peer_id with
    | Some _ => (peer_behavior_order m, peer_behaviors m)
    | None =>
        let '(order, behaviors) :=
          evict_oldest MAX_TRACKED_PEER_BEHAVIORS (peer_behavior_order m) (peer_behaviors m) in
        (order ++ [peer_id], behaviors)
    end in
  let b := default default_peer_behavior (behaviors !! peer_id) in
  let samples := u32_sat_add (pb_samples b) 1 in
  let score := clamp (-100) 100 (i32_sat_add (pb_score b) score_delta) in
  let b' :=
    match evidence with
    | ValidFrame => mkPeerBehavior score samples (u32_sat_add (pb_valid_frames b) 1)
        (pb_invalid_messages b) (pb_unserved_inventories b)
    | InvalidMessage => mkPeerBehavior score samples (pb_valid_frames b)
        (u32_sat_add (pb_invalid_messages b) 1) (pb_unserved_inventories b)
    | UnservedInventory => mkPeerBehavior score samples (pb_valid_frames b)
        (pb_invalid_messages b) (u32_sat_add (pb_unserved_inventories b) 1)
    end in
  set_peer_behavior_order order (set_peer_behaviors (<[peer_id := b']> behaviors) m).

Definition record_invalid_message (peer_id : string) (m : InvWantMesh) : InvWantMesh :=
  record_peer_behavior peer_id INVALID_MESSAGE_PENALTY InvalidMessage m.

Definition peer_behavior_observation (m : InvWantMesh) (peer_id : string)
    : option PeerBehaviorObservation :=
  match peer_behaviors m !! peer_id with
  | Some b =>
      if decide (MIN_PEER_BEHAVIOR_SAMPLES ≤ pb_samples b) then
        Some (mkObservation (pb_score b) (pb_samples b) (pb_valid_frames b)
          (pb_invalid_messages b) (pb_unserved_inventories b))
      else None
  | None => None
  end.
Definition peer_behavior_score (m : InvWantMesh) (peer_id : string) : option Z :=
  po_score <$> peer_behavior_observation m peer_id.

Definition peers_with_behavior (m : InvWantMesh) (peers : list MeshPeer) : list MeshPeer :=
  (λ peer,
    let local_score := peer_behavior_score m (mp_id peer) in
    let score :=
      match quality_score peer, local_score with
      | Some external, Some local => Some (clamp (-100) 100 (i32_sat_add external local))
      | Some external, None => Some external
      | None, local => local
      end in
    match score with
    | Some s => MeshPeers.observed (mp_id peer) s
    | None => MeshPeers.new (mp_id peer)
    end) <$> peers.

Definition send_to_selected_peers (m : InvWantMesh) (peers : list MeshPeer)
    (excluded_peer : option string) (message : InvWantWireMessage) : list InvWantAction :=
  (λ peer, Send (mp_id peer) message) <$>
    select_mesh_peers (peers_with_behavior m peers) excluded_peer
      (fanout (options m)) (unknown_peer_reserve (options m)).

(** ** Resource accounting *)
Definition track_expiry (expires_at_ms : N) (m : InvWantMesh) : InvWantMesh :=
  set_next_prune_at_ms
    (Some (match next_prune_at_ms m with
           | Some scheduled => scheduled `min` expires_at_ms
           | None => expires_at_ms
           end)) m.

Fixpoint evict_oldest_cached_from (order : list string) (m : InvWantMesh)
    : bool * InvWantMesh :=
  match order with
  | [] => (false, set_cache_order [] m)
  | oldest :: rest =>
      match cached_events m !! oldest with
      | Some cached =>
          (true, set_cache_order rest
            (set_cached_event_bytes (cached_event_bytes m - ce_payload_bytes cached)
              (set_cached_events (delete oldest (cached_events m)) m)))
      | None => evict_oldest_cached_from rest m
      end
  end.
Definition evict_oldest_cached_event (m : InvWantMesh) : bool * InvWantMesh :=
  evict_oldest_cached_from (cache_order m) m.

(** The [while] loop of [store_event]; a turn that goes on pops the queue,
    so the queue's length is enough fuel. *)
Fixpoint evict_until_fits (fuel : nat) (payload_bytes : N) (m : InvWantMesh) : InvWantMesh :=
  match fuel with
  | O => m
  | S fuel' =>
      if decide (max_cached_events (options m) ≤ msize (cached_events m) ∨
                 max_cached_event_bytes (options m)
                   < u64_sat_add (cached_event_bytes m) payload_bytes)
      then
        let '(evicted, m') := evict_oldest_cached_event m in
        if evicted then evict_until_fits fuel' payload_bytes m' else m'
      else m
  end.

Definition store_event (event : Event) (payload_bytes now_ms : N) (m : InvWantMesh)
    : InvWantMesh :=
  let event_id := event_id_to_hex (event_id event) in
  let expires_at_ms := u64_sat_add now_ms (event_ttl_ms (options m)) in
  let entry := mkCachedEvent event expires_at_ms payload_bytes in
  match cached_events m !! event_id with
  | Some cached =>
      track_expiry expires_at_ms
        (set_cached_events (<[event_id := entry]> (cached_events m))
          (set_cached_event_bytes
            (u64_sat_add (cached_event_bytes m - ce_payload_bytes cached) payload_bytes) m))
  | None =>
      let m1 := evict_until_fits (S (length (cache_order m))) payload_bytes m in
      track_expiry expires_at_ms
        (set_cached_events (<[event_id := entry]> (cached_events m1))
          (set_cached_event_bytes (u64_sat_add (cached_event_bytes m1) payload_bytes)
            (set_cache_order (cache_order m1 ++ [event_id]) m1)))
  end.

Definition prune_cached_events (now_ms : N) (m : InvWantMesh) : InvWantMesh :=
  let cached := filter (λ kv, now_ms < ce_expires_at_ms kv.2) (cached_events m) in
  set_cached_event_bytes
    (foldl (λ total c, u64_sat_add total (ce_payload_bytes c)) 0 (hash_values cached))
    (set_cache_order (filter (λ id, is_Some (cached !! id)) (cache_order m))
      (set_cached_events cached m)).

Definition remove_pending_event (event_id : string) (m : InvWantMesh)
    : option PendingPeers * InvWantMesh :=
  let removed := pending_downstream m !! event_id in
  let m1 := set_pending_downstream (delete event_id (pending_downstream m)) m in
  match removed with
  | Some pending =>
      (removed, set_pending_peer_count (pending_peer_count m1 - ssize (pp_peers pending)) m1)
  | None => (removed, m1)
  end.

Definition remember_delivered (event_id : string) (now_ms : N) (m : InvWantMesh)
    : bool * InvWantMesh :=
  match delivered_events m !! event_id with
  | Some _ => (false, m)
  | None =>
      let '(order, delivered) :=
        evict_oldest (max_seen_events (options m)) (delivered_order m) (delivered_events m) in
      let expires_at_ms := u64_sat_add now_ms (event_ttl_ms (options m)) in
      (true, track_expiry expires_at_ms
        (set_delivered_events (<[event_id := expires_at_ms]> delivered)
          (set_delivered_order (order ++ [event_id]) m)))
  end.

(** Evicting a seen inventory takes the event's transient state with it. *)
Definition forget_inventory (oldest : string) (m : InvWantMesh) : InvWantMesh :=
  let m1 := set_seen_inventories (delete oldest (seen_inventories m)) m in
  let m2 := set_upstream_routes (delete oldest (upstream_routes m1)) m1 in
  let m3 := (remove_pending_event oldest m2).2 in
  set_want_forwarded (delete oldest (want_forwarded m3)) m3.

Fixpoint evict_seen (order : list string) (m : InvWantMesh) : InvWantMesh :=
  match order with
  | [] => set_seen_order [] m
  | oldest :: rest =>
      if decide (max_seen_events (options m) ≤ msize (seen_inventories m)) then
        evict_seen rest (forget_inventory oldest m)
      else set_seen_order order m
  end.

Definition remember_inventory (event_id : string) (now_ms : N) (m : InvWantMesh)
    : bool * InvWantMesh :=
  if is_some_and (λ expiry, bool_decide (now_ms < expiry)) (seen_inventories m !! event_id) then
    (false, m)
  else
    let m1 :=
      match seen_inventories m !! event_id with
      | Some _ => m
      | None =>
          let m0 := evict_seen (seen_order m) m in
          set_seen_order (seen_order m0 ++ [event_id]) m0
      end in
    let expires_at_ms := u64_sat_add now_ms (route_ttl_ms (options m1)) in
    (true, track_expiry expires_at_ms
      (set_seen_inventories (<[event_id := expires_at_ms]> (seen_inventories m1)) m1)).

(** ** Maintenance *)

(** The providers to penalise: those of expired, unanswered routes whose
    transport was not disrupted. *)
Definition expired_route_peers (now_ms : N) (m : InvWantMesh) : list string :=
  route ← filter (λ r, ur_fulfilled r = false ∧ ur_expires_at_ms r ≤ now_ms)
    (hash_values (upstream_routes m));
  filter (λ peer, peer ∉ ur_transport_disrupted_peers route)
    (ur_peer_id route :: btree_elements (ur_alternate_peers route)).

Definition list_min (l : list N) : option N :=
  match l with [] => None | x :: l' => Some (foldl N.min x l') end.

Definition penalize_unserved (now_ms : N) (m : InvWantMesh) : InvWantMesh :=
  foldl (λ m peer_id,
    record_peer_behavior peer_id UNSERVED_INVENTORY_PENALTY UnservedInventory m)
    m (expired_route_peers now_ms m).

Definition prune_routing (now_ms : N) (m : InvWantMesh) : InvWantMesh :=
  let seen := filter (λ kv, now_ms < kv.2) (seen_inventories m) in
  let m := set_seen_inventories seen m in
  let m := set_seen_order (filter (λ id, is_Some (seen !! id)) (seen_order m)) m in
  let delivered := filter (λ kv, now_ms < kv.2) (delivered_events m) in
  let m := set_delivered_events delivered m in
  let m := set_delivered_order
    (filter (λ id, is_Some (delivered !! id)) (delivered_order m)) m in
  let routes := filter (λ kv, now_ms < ur_expires_at_ms kv.2) (upstream_routes m) in
  let m := set_upstream_routes routes m in
  let m := set_pending_downstream
    (filter (λ kv, now_ms < pp_expires_at_ms kv.2 ∧ is_Some (routes !! kv.1))
      (pending_downstream m)) m in
  let m := set_pending_peer_count
    (u64_wrap (sum_by (λ p, ssize (pp_peers p)) (hash_values (pending_downstream m)))) m in
  set_want_forwarded
    (filter (λ kv, now_ms < kv.2 ∧ is_Some (routes !! kv.1)) (want_forwarded m)) m.

(** The expiries the schedule is computed from. *)
Definition tracked_expiries (m : InvWantMesh) : list N :=
  (ce_expires_at_ms <$> hash_values (cached_events m))
    ++ hash_values (seen_inventories m) ++ hash_values (delivered_events m)
    ++ (ur_expires_at_ms <$> hash_values (upstream_routes m)).

Definition prune_expired (now_ms : N) (m : InvWantMesh) : InvWantMesh :=
  let m := prune_routing now_ms (prune_cached_events now_ms (penalize_unserved now_ms m)) in
  set_next_prune_at_ms (list_min (tracked_expiries m)) m.

Definition prune (now_ms : N) (m : InvWantMesh) : InvWantMesh :=
  match next_prune_at_ms m with
  | None => m
  | Some next => if decide (now_ms < next) then m else prune_expired now_ms m
  end.

Definition maintain (now_ms : N) (m : InvWantMesh) : InvWantMesh := prune now_ms m.

(** ** Local admission and transport evidence *)
Definition dismiss_frame (peer_id event_id : string) (m : InvWantMesh) : InvWantMesh :=
  match upstream_routes m !! event_id with
  | Some route =>
      if decide (route_provider route peer_id) then
        let route := route_set_disrupted ∅ (route_set_fulfilled true route) in
        (remove_pending_event event_id
          (set_upstream_routes (<[event_id := route]> (upstream_routes m)) m)).2
      else m
  | None => m
  end.

Definition record_transport_disruption (peer_id event_id : string) (m : InvWantMesh)
    : bool * InvWantMesh :=
  match upstream_routes m !! event_id with
  | None => (false, m)
  | Some route =>
      if decide (ur_fulfilled route = false ∧ route_provider route peer_id) then
        (bool_decide (peer_id ∉ ur_transport_disrupted_peers route),
         set_upstream_routes
           (<[event_id := route_set_disrupted
               ({[peer_id]} ∪ ur_transport_disrupted_peers route) route]>
             (upstream_routes m)) m)
      else (false, m)
  end.
End mesh.

Section mesh_handlers.
Context `{!Nostr, !HashOrder}.
Implicit Types m : InvWantMesh.

(** ** Validation *)
Definition validate_event_id (event_id : string) : res unit :=
  if (String.length event_id =? 64)%nat && all_chars is_lower_hex event_id then Ok tt
  else Err (validation ("invalid inv/want event id " +:+ event_id)).

Definition validate_kind (m : InvWantMesh) (kind : N) : res unit :=
  if is_some_and (λ allowed, bool_decide (kind ∉ allowed)) (allowed_kinds (options m)) then
    Err (validation ("unsupported Nostr event kind " +:+ pretty kind))
  else Ok tt.

Definition validate_event_len (m : InvWantMesh) (len : N) : res unit :=
  if decide (max_event_bytes (options m) < len) then
    Err (validation ("inv/want event is " +:+ pretty len +:+ " bytes, maximum is "
      +:+ pretty (max_event_bytes (options m))))
  else Ok tt.

Definition validate_verified_event (m : InvWantMesh) (event : Event) : res (string * N) :=
  _ ← validate_kind m (event_kind event);
  payload ← map_err (λ error, validation ("invalid inv/want JSON: " +:+ error))
    (event_to_json event);
  _ ← validate_event_len m (slen payload);
  if decide (slen payload ≤ u32_max) then
    Ok (event_id_to_hex (event_id event), slen payload)
  else
    Err (validation ("inv/want event is " +:+ pretty (slen payload) +:+ " bytes, maximum is "
      +:+ pretty (max_event_bytes (options m)))).

Definition validate_event (m : InvWantMesh) (event : Event) : res (string * N) :=
  _ ← map_err (λ error, validation ("invalid signed Nostr event: " +:+ error))
    (event_verify event);
  validate_verified_event m event.

(** ** Publication and replay *)

(** The shared tail of [publish] and [publish_verified], after validation. *)
Definition publish_validated (event : Event) (event_id : string) (payload_bytes : N)
    (peers : list MeshPeer) (now_ms : N) : SE InvWantMesh PubsubError (list InvWantAction) :=
  λ m,
  let m := store_event event payload_bytes now_ms m in
  let '(fresh, m) := remember_inventory event_id now_ms m in
  if fresh then
    (Ok (send_to_selected_peers m peers None
      (Inventory event_id (event_kind event) payload_bytes (max_hops (options m)))), m)
  else (Ok [], m).

Definition publish (event : Event) (peers : list MeshPeer) (now_ms : N)
    : SE InvWantMesh PubsubError (list InvWantAction) :=
  _ ← se_modify (prune now_ms);
  m ← se_get;
  '(event_id, payload_bytes) ← se_lift (validate_event m event);
  publish_validated event event_id payload_bytes peers now_ms.

Definition publish_verified (verified : VerifiedEvent) (peers : list MeshPeer) (now_ms : N)
    : SE InvWantMesh PubsubError (list InvWantAction) :=
  _ ← se_modify (prune now_ms);
  m ← se_get;
  '(event_id, payload_bytes) ← se_lift (validate_verified_event m (as_event verified));
  publish_validated (as_event verified) event_id payload_bytes peers now_ms.

Definition seed_verified (verified : VerifiedEvent) (now_ms : N)
    : SE InvWantMesh PubsubError unit :=
  _ ← se_modify (prune now_ms);
  m ← se_get;
  '(_, payload_bytes) ← se_lift (validate_verified_event m (as_event verified));
  se_modify (store_event (as_event verified) payload_bytes now_ms).

Definition replay_inventory (m : InvWantMesh) (event : Event) (event_id : string)
    (payload_bytes : N) (peer_id : string) : list InvWantAction :=
  [Send peer_id (Inventory event_id (event_kind event) payload_bytes (max_hops (options m)))].

Definition replay_to_peer (event : Event) (peer_id : string) (now_ms : N)
    : SE InvWantMesh PubsubError (list InvWantAction) :=
  _ ← se_modify (prune now_ms);
  m ← se_get;
  '(event_id, payload_bytes) ← se_lift (validate_event m event);
  _ ← se_modify (store_event event payload_bytes now_ms);
  mret (replay_inventory m event event_id payload_bytes peer_id).

Definition replay_verified_to_peer (verified : VerifiedEvent) (peer_id : string) (now_ms : N)
    : SE InvWantMesh PubsubError (list InvWantAction) :=
  let event := as_event verified in
  _ ← se_modify (prune now_ms);
  m ← se_get;
  '(event_id, payload_bytes) ← se_lift (validate_verified_event m event);
  _ ← se_modify (store_event event payload_bytes now_ms);
  mret (replay_inventory m event event_id payload_bytes peer_id).

(** The [expect] on the cached size panics outside [u32]: [None]. *)
Fixpoint replay_items (m : InvWantMesh) (peer_id : string) (order : list string)
    : option (list InvWantAction) :=
  match order with
  | [] => Some []
  | event_id :: rest =>
      match cached_events m !! event_id with
      | None => replay_items m peer_id rest
      | Some cached =>
          if decide (ce_payload_bytes cached ≤ u32_max) then
            cons (Send peer_id (Inventory event_id (event_kind (ce_event cached))
              (ce_payload_bytes cached) (max_hops (options m))))
            <$> replay_items m peer_id rest
          else None
      end
  end.
Definition replay_cached_to_peer (peer_id : string) (now_ms : N) (m : InvWantMesh)
    : option (list InvWantAction) * InvWantMesh :=
  let m := prune now_ms m in
  (replay_items m peer_id (cache_order m), m).

(** ** Receiving *)
Definition receive_inventory (source_peer : string) (inventory : ReceivedInventory)
    (now_ms : N) : SE InvWantMesh PubsubError (list InvWantAction) := λ m,
  let event_id := ri_event_id inventory in
  let event_kind := ri_event_kind inventory in
  let payload_bytes := ri_payload_bytes inventory in
  let hop_limit := ri_hop_limit inventory in
  match (_ ← validate_event_id event_id; _ ← validate_kind m event_kind;
         validate_event_len m payload_bytes) with
  | Err e => (Err e, m)
  | Ok _ =>
  if decide (hop_limit = 0) then (Ok [], m)
  else if decide (max_hops (options m) < hop_limit) then
    (Err (validation ("inv/want hop limit " +:+ pretty hop_limit
      +:+ " exceeds local maximum " +:+ pretty (max_hops (options m)))), m)
  else if decide (is_Some (cached_events m !! event_id)) then (Ok [], m)
  else
  let '(fresh, m) := remember_inventory event_id now_ms m in
  if fresh then
    let route_expiry := u64_sat_add now_ms (route_ttl_ms (options m)) in
    let routes :=
      match upstream_routes m !! event_id with
      | Some _ => upstream_routes m
      | None => <[event_id := mkUpstreamRoute source_peer ∅ ∅ event_kind payload_bytes
                   hop_limit route_expiry false]> (upstream_routes m)
      end in
    let m := set_upstream_routes routes m in
    let m := set_want_forwarded (<[event_id := route_expiry]> (want_forwarded m)) m in
    (Ok [Send source_peer (Want event_id)], m)
  else
    match upstream_routes m !! event_id with
    | None => (Ok [], m)
    | Some route =>
        if ur_fulfilled route then (Ok [], m)
        else if decide (ur_event_kind route ≠ event_kind ∨
                        ur_payload_bytes route ≠ payload_bytes) then
          (Err (validation "retried inv/want inventory changed kind or size"), m)
        else
        let route := route_set_hop_limit (ur_hop_limit route `max` hop_limit) route in
        let m1 := set_upstream_routes (<[event_id := route]> (upstream_routes m)) m in
        if decide (route_provider route source_peer) then
          let route := route_set_disrupted
            (ur_transport_disrupted_peers route ∖ {[source_peer]}) route in
          (Ok [Send source_peer (Want event_id)],
           set_upstream_routes (<[event_id := route]> (upstream_routes m1)) m1)
        else if decide (MAX_UPSTREAM_PROVIDERS_PER_EVENT
                          ≤ ssize (ur_alternate_peers route) + 1) then
          (Ok [], m1)
        else
          let extended_expiry := u64_sat_add now_ms (route_ttl_ms (options m)) in
          let route := route_set_expires_at_ms extended_expiry
            (route_set_alternate_peers ({[source_peer]} ∪ ur_alternate_peers route) route) in
          let route := route_set_disrupted
            (ur_transport_disrupted_peers route ∖ {[source_peer]}) route in
          let m2 := set_seen_inventories
            (<[event_id := extended_expiry]> (seen_inventories m1)) m1 in
          let m3 := set_want_forwarded
            (<[event_id := extended_expiry]> (want_forwarded m2)) m2 in
          (Ok [Send source_peer (Want event_id)],
           set_upstream_routes (<[event_id := route]> (upstream_routes m3)) m3)
    end
  end.

(** The downstream peer is queued, up to the limit, until the frame arrives. *)
Definition add_pending (source_peer event_id : string) (now_ms : N) (m : InvWantMesh)
    : InvWantMesh :=
  let pending := default (mkPendingPeers ∅ (u64_sat_add now_ms (route_ttl_ms (options m))))
    (pending_downstream m !! event_id) in
  if decide (ssize (pp_peers pending) < max_pending_peers_per_event (options m) ∧
             source_peer ∉ pp_peers pending) then
    set_pending_peer_count (usize_sat_add (pending_peer_count m) 1)
      (set_pending_downstream
        (<[event_id := mkPendingPeers ({[source_peer]} ∪ pp_peers pending)
             (pp_expires_at_ms pending)]> (pending_downstream m)) m)
  else set_pending_downstream (<[event_id := pending]> (pending_downstream m)) m.

Definition receive_want (source_peer event_id : string) (now_ms : N)
    : SE InvWantMesh PubsubError (list InvWantAction) := λ m,
  match validate_event_id event_id with
  | Err e => (Err e, m)
  | Ok _ =>
  match cached_events m !! event_id with
  | Some cached => (Ok [Send source_peer (Frame event_id (ce_event cached))], m)
  | None =>
  match upstream_routes m !! event_id with
  | None => (Ok [], m)
  | Some route =>
      if ur_fulfilled route then (Ok [], m)
      else
      let m := add_pending source_peer event_id now_ms m in
      let already_forwarded :=
        is_some_and (λ expiry, bool_decide (now_ms < expiry)) (want_forwarded m !! event_id) in
      if already_forwarded then (Ok [], m)
      else
        let disrupted := ur_transport_disrupted_peers route ∖ {[ur_peer_id route]} in
        let m := set_upstream_routes
          (<[event_id := route_set_disrupted disrupted route]> (upstream_routes m)) m in
        let m := set_want_forwarded
          (<[event_id := ur_expires_at_ms route]> (want_forwarded m)) m in
        (Ok [Send (ur_peer_id route) (Want event_id)], m)
  end end end.

(** What the checks of [receive_frame] admit: the route and the size. *)
Definition check_frame (source_peer event_id : string) (event : Event)
    (verify_signature : bool) (m : InvWantMesh) : res (UpstreamRoute * N) :=
  _ ← validate_event_id event_id;
  route ← match upstream_routes m !! event_id with
          | Some route => Ok route
          | None => Err (validation "unsolicited inv/want frame")
          end;
  _ ← (if decide (want_forwarded m !! event_id = None ∨ ¬ route_provider route source_peer)
       then Err (validation "inv/want frame was not requested from source") else Ok tt);
  '(verified_id, payload_bytes) ←
    (if verify_signature then validate_event m event else validate_verified_event m event);
  _ ← (if decide (verified_id ≠ event_id)
       then Err (validation "inv/want frame id does not match signed event id") else Ok tt);
  _ ← (if decide (ur_event_kind route ≠ event_kind event ∨
                  ur_payload_bytes route ≠ payload_bytes)
       then Err (validation "inv/want frame does not match announced kind or payload size")
       else Ok tt);
  Ok (route, payload_bytes).

(** The state changes for the first valid answer to a request. *)
Definition fulfil_route (event_id : string) (m : InvWantMesh) : InvWantMesh :=
  match upstream_routes m !! event_id with
  | Some route =>
      set_upstream_routes
        (<[event_id := route_set_disrupted ∅ (route_set_fulfilled true route)]>
          (upstream_routes m)) m
  | None => m
  end.

Definition accept_frame (source_peer event_id : string) (event : Event)
    (route : UpstreamRoute) (payload_bytes : N) (peers : list MeshPeer) (now_ms : N)
    (m : InvWantMesh) : list InvWantAction * InvWantMesh :=
  let m := record_peer_behavior source_peer VALID_FRAME_REWARD ValidFrame m in
  let m := store_event event payload_bytes now_ms m in
  let m := fulfil_route event_id m in
  let '(first, m) := remember_delivered event_id now_ms m in
  let deliver := if first then [Deliver source_peer event] else [] in
  let '(pending, m) := remove_pending_event event_id m in
  let frames :=
    match pending with
    | Some p => (λ peer_id, Send peer_id (Frame event_id event)) <$> btree_elements (pp_peers p)
    | None => []
    end in
  let inventories :=
    if decide (1 < ur_hop_limit route) then
      send_to_selected_peers m peers (Some source_peer)
        (Inventory event_id (event_kind event) payload_bytes (ur_hop_limit route - 1))
    else [] in
  (deliver ++ frames ++ inventories, m).

Definition receive_frame (source_peer event_id : string) (event : Event)
    (peers : list MeshPeer) (now_ms : N) (verify_signature : bool)
    : SE InvWantMesh PubsubError (list InvWantAction) := λ m,
  match check_frame source_peer event_id event verify_signature m with
  | Err e => (Err e, m)
  | Ok (route, payload_bytes) =>
      if ur_fulfilled route then (Ok [], m)
      else
        let '(actions, m) :=
          accept_frame source_peer event_id event route payload_bytes peers now_ms m in
        (Ok actions, m)
  end.

(** [if result.is_err() { self.record_invalid_message(source_peer) }]. *)
Definition penalize_error {A} (source_peer : string) (c : SE InvWantMesh PubsubError A)
    : SE InvWantMesh PubsubError A := λ m,
  let '(result, m) := c m in
  (result, if is_err result then record_invalid_message source_peer m else m).

Definition receive (source_peer : string) (message : InvWantWireMessage)
    (peers : list MeshPeer) (now_ms : N) : SE InvWantMesh PubsubError (list InvWantAction) :=
  _ ← se_modify (prune now_ms);
  penalize_error source_peer
    match message with
    | Inventory event_id event_kind payload_bytes hop_limit =>
        receive_inventory source_peer
          (mkReceivedInventory event_id event_kind payload_bytes hop_limit) now_ms
    | Want event_id => receive_want source_peer event_id now_ms
    | Frame event_id event => receive_frame source_peer event_id event peers now_ms true
    end.

Definition receive_verified_frame (source_peer event_id : string) (verified : VerifiedEvent)
    (peers : list MeshPeer) (now_ms : N) : SE InvWantMesh PubsubError (list InvWantAction) :=
  _ ← se_modify (prune now_ms);
  penalize_error source_peer
    (receive_frame source_peer event_id (as_event verified) peers now_ms false).

(** ** Retained state *)
Record InvWantMeshRetainedState : Set := mkRetainedState {
  rs_cached_events : N; rs_cached_event_bytes : N; rs_seen_inventories : N;
  rs_delivered_events : N; rs_upstream_routes : N;
  rs_transport_disrupted_route_peers : N; rs_pending_events : N; rs_pending_peers : N;
  rs_forwarded_wants : N; rs_peer_behaviors : N;
}.
Definition retained_state (m : InvWantMesh) : InvWantMeshRetainedState := {|
  rs_cached_events := msize (cached_events m);
  rs_cached_event_bytes := cached_event_bytes m;
  rs_seen_inventories := msize (seen_inventories m);
  rs_delivered_events := msize (delivered_events m);
  rs_upstream_routes := msize (upstream_routes m);
  rs_transport_disrupted_route_peers :=
    u64_wrap (sum_by (λ r, ssize (ur_transport_disrupted_peers r))
      (hash_values (upstream_routes m)));
  rs_pending_events := msize (pending_downstream m);
  rs_pending_peers := pending_peer_count m;
  rs_forwarded_wants := msize (want_forwarded m);
  rs_peer_behaviors := msize (peer_behaviors m);
|}.
End mesh_handlers.
