(* ===== verification/MeshOps.v ===== *)
(** * The mesh: invariant and its preservation

    The invariant of the state of Mesh.v, and that every operation keeps it. *)

From S2P Require Export Mesh.

(** ** The inventory/want mesh: invariants

    What is true of every mesh state, stated over the fields each part of the
    state consists of (event cache, routes, delivered events, peer behavior,
    prune schedule), and its preservation by the state-changing primitives of
    [Mesh]. *)

(** Option values that a 64-bit build can count with. *)
Record options_typed (o : InvWantMeshOptions) : Prop := {
  ot_cache_bytes : max_cached_event_bytes o < u64_max;
  ot_pending : max_seen_events o * max_pending_peers_per_event o ≤ usize_max;
}.

Definition kind_allowed (o : InvWantMeshOptions) (kind : N) : Prop :=
  match allowed_kinds o with Some allowed => kind ∈ allowed | None => True end.

(** Behavior counters: the score is clamped, and [samples] counts the evidence. *)
Record behavior_ok (b : PeerBehavior) : Prop := {
  bo_score : (-100 ≤ pb_score b ≤ 100)%Z;
  bo_samples : pb_samples b = N.min u32_max
    (pb_valid_frames b + pb_invalid_messages b + pb_unserved_inventories b);
  bo_valid : pb_valid_frames b ≤ u32_max;
  bo_invalid : pb_invalid_messages b ≤ u32_max;
  bo_unserved : pb_unserved_inventories b ≤ u32_max;
}.

(** A route has at most three providers, the primary among no alternates, and
    only providers are marked as disrupted. *)
Record route_ok (o : InvWantMeshOptions) (r : UpstreamRoute) : Prop := {
  ro_alternates : ssize (ur_alternate_peers r) + 1 ≤ MAX_UPSTREAM_PROVIDERS_PER_EVENT;
  ro_primary : ur_peer_id r ∉ ur_alternate_peers r;
  ro_disrupted p : p ∈ ur_transport_disrupted_peers r → route_provider r p;
  ro_hops : 1 ≤ ur_hop_limit r ≤ max_hops o;
  ro_bytes : ur_payload_bytes r ≤ max_event_bytes o;
  ro_kind : kind_allowed o (ur_event_kind r);
}.

Record behaviors_inv (behaviors : gmap string PeerBehavior) (order : list string) : Prop := {
  bi_fifo : fifo_ok order behaviors;
  bi_bound : msize behaviors ≤ MAX_TRACKED_PEER_BEHAVIORS;
  bi_entry p b : behaviors !! p = Some b → behavior_ok b;
}.

Record delivered_inv (o : InvWantMeshOptions) (delivered : gmap string N)
    (order : list string) : Prop := {
  di_fifo : fifo_ok order delivered;
  di_bound : msize delivered ≤ max_seen_events o;
}.

Record routes_inv (o : InvWantMeshOptions) (seen : gmap string N) (order : list string)
    (routes : gmap string UpstreamRoute) (pending : gmap string PendingPeers)
    (pending_count : N) (forwarded : gmap string N) : Prop := {
  ri_fifo : fifo_ok order seen;
  ri_bound : msize seen ≤ max_seen_events o;
  ri_route_seen id r : routes !! id = Some r →
    ∃ e, seen !! id = Some e ∧ ur_expires_at_ms r ≤ e;
  ri_route_ok id r : routes !! id = Some r → route_ok o r;
  ri_pending_route id p : pending !! id = Some p → is_Some (routes !! id);
  ri_pending_bound id p : pending !! id = Some p →
    ssize (pp_peers p) ≤ max_pending_peers_per_event o;
  ri_count : pending_count = msum (λ p, ssize (pp_peers p)) pending;
  ri_forwarded id e : forwarded !! id = Some e → is_Some (routes !! id);
}.

Section mesh_inv.
Context `{!Nostr, !HashOrder}.
Implicit Types m : InvWantMesh.

(** A cached event verified, is filed under its own identifier, is of an
    allowed kind and has the recorded size. *)
Record cached_ok (o : InvWantMeshOptions) (id : string) (c : CachedEvent) : Prop := {
  co_verified : verified (ce_event c);
  co_id : id = event_id_to_hex (event_id (ce_event c));
  co_kind : kind_allowed o (event_kind (ce_event c));
  co_json : ∃ j, event_to_json (ce_event c) = Ok j ∧ slen j = ce_payload_bytes c;
  co_u32 : ce_payload_bytes c ≤ u32_max;
  co_max : ce_payload_bytes c ≤ max_event_bytes o;
}.

Record cache_inv (o : InvWantMeshOptions) (cached : gmap string CachedEvent)
    (order : list string) (bytes : N) : Prop := {
  ci_fifo : fifo_ok order cached;
  ci_bytes : bytes = msum ce_payload_bytes cached;
  ci_count : msize cached ≤ max_cached_events o;
  ci_total : bytes ≤ max_cached_event_bytes o;
  ci_entry id c : cached !! id = Some c → cached_ok o id c;
}.

Record mesh_inv (m : InvWantMesh) : Prop := {
  mi_options : options_ok (options m);
  mi_typed : options_typed (options m);
  mi_cache : cache_inv (options m) (cached_events m) (cache_order m) (cached_event_bytes m);
  mi_routes : routes_inv (options m) (seen_inventories m) (seen_order m)
    (upstream_routes m) (pending_downstream m) (pending_peer_count m) (want_forwarded m);
  mi_delivered : delivered_inv (options m) (delivered_events m) (delivered_order m);
  mi_behaviors : behaviors_inv (peer_behaviors m) (peer_behavior_order m);
}.

Lemma mesh_new_inv o : options_typed (normalize_options o) → mesh_inv (mesh_new o).
Proof.
  intros Ht. pose proof (normalize_options_ok o) as Ho. split; simpl; try done.
  - split; simpl; try done; auto using fifo_ok_empty, N.le_0_l.
  - split; simpl; try done; auto using fifo_ok_empty, N.le_0_l.
  - split; auto using fifo_ok_empty, N.le_0_l.
  - split; simpl; try done; apply fifo_ok_empty.
Qed.

(** ** Peer behavior *)
Lemma default_behavior_ok : behavior_ok default_peer_behavior.
Proof. split; simpl; unfold u32_max; lia. Qed.

Lemma record_peer_behavior_inv p delta ev m :
  mesh_inv m → mesh_inv (record_peer_behavior p delta ev m).
Proof.
  intros [Ho Ht Hc Hr Hd [Hf Hb He]]. unfold record_peer_behavior.
  set (po := match peer_behaviors m !! p with Some _ => _ | None => _ end).
  assert (fifo_ok po.1 (<[p := default_peer_behavior]> po.2) ∧
          msize (<[p := default_peer_behavior]> po.2) ≤ MAX_TRACKED_PEER_BEHAVIORS ∧
          po.2 ⊆ peer_behaviors m) as (Hf' & Hb' & Hsub).
  { unfold po. destruct (peer_behaviors m !! p) as [b|] eqn:Hp; simpl.
    - split_and!; [apply fifo_ok_update; eauto|by rewrite msize_insert_old by eauto|done].
    - destruct (evict_oldest _ _ _) as [order behaviors] eqn:Hev; simpl.
      destruct (evict_oldest_spec _ _ _ _ _ Hev eq_refl Hf) as (Hf' & Hb' & Hs).
      assert (behaviors !! p = None) as Hn by (eapply lookup_weaken_None; eauto).
      split_and!; [by apply fifo_ok_push|rewrite msize_insert_new by done; lia|done]. }
  destruct po as [order behaviors]; simpl in *. set (b' := match ev with _ => _ end).
  split; simpl; try done. split.
  - destruct Hf' as [Hnd Hm]. split; [done|]. intros k. rewrite Hm.
    by rewrite !lookup_insert_is_Some'.
  - unfold msize in *. by rewrite !map_size_insert in *.
  - intros q b [[<- <-]|[_ Hq]]%lookup_insert_Some; [|by eapply He, lookup_weaken].
    assert (behavior_ok (default default_peer_behavior (behaviors !! p))) as [??].
    { destruct (behaviors !! p) eqn:Hq; simpl; [by eapply He, lookup_weaken|].
      apply default_behavior_ok. }
    unfold b'. destruct ev; split; simpl; try (apply clamp_bounds; lia);
      unfold u32_sat_add, sat_add in *; lia.
Qed.
Lemma record_invalid_message_inv p m : mesh_inv m → mesh_inv (record_invalid_message p m).
Proof. apply record_peer_behavior_inv. Qed.

Lemma record_peer_behaviors_inv ps delta ev m :
  mesh_inv m → mesh_inv (foldl (λ m p, record_peer_behavior p delta ev m) m ps).
Proof.
  revert m. induction ps as [|p ps IH]; simpl; [done|].
  intros. by apply IH, record_peer_behavior_inv.
Qed.

Lemma set_next_prune_inv v m : mesh_inv m → mesh_inv (set_next_prune_at_ms v m).
Proof. by intros []. Qed.
Lemma track_expiry_inv e m : mesh_inv m → mesh_inv (track_expiry e m).
Proof. apply set_next_prune_inv. Qed.

(** ** The event cache *)
Lemma evict_oldest_cached_eq m :
  fifo_ok (cache_order m) (cached_events m) →
  evict_oldest_cached_event m =
    match cache_order m with
    | [] => (false, set_cache_order [] m)
    | oldest :: rest =>
        (true, set_cache_order rest
          (set_cached_event_bytes
            (cached_event_bytes m
              - default 0 (ce_payload_bytes <$> cached_events m !! oldest))
            (set_cached_events (delete oldest (cached_events m)) m)))
    end.
Proof.
  intros Hf. unfold evict_oldest_cached_event.
  destruct (cache_order m) as [|oldest rest]; simpl; [done|].
  assert (is_Some (cached_events m !! oldest)) as [c ->] by (apply (proj2 Hf); set_solver).
  done.
Qed.

(** The part of [cache_inv] that holds inside the eviction loop. *)
Record cache_loop (o : InvWantMeshOptions) (cached : gmap string CachedEvent)
    (order : list string) (bytes : N) : Prop := {
  cl_fifo : fifo_ok order cached;
  cl_bytes : bytes = msum ce_payload_bytes cached;
  cl_entry id c : cached !! id = Some c → cached_ok o id c;
}.

(** The loop removes cached events only, and stops when the event fits. *)
Lemma evict_until_fits_spec fuel payload m :
  options_ok (options m) → options_typed (options m) →
  payload ≤ max_event_bytes (options m) →
  cache_loop (options m) (cached_events m) (cache_order m) (cached_event_bytes m) →
  (length (cache_order m) < fuel)%nat →
  ∃ cached order bytes,
    evict_until_fits fuel payload m
      = set_cached_events cached (set_cache_order order (set_cached_event_bytes bytes m)) ∧
    cache_loop (options m) cached order bytes ∧
    cached ⊆ cached_events m ∧
    msize cached < max_cached_events (options m) ∧
    bytes + payload ≤ max_cached_event_bytes (options m).
Proof.
  intros Ho Ht Hp. revert m Ho Ht Hp. induction fuel as [|fuel IH];
    intros m Ho Ht Hp [Hf Hb He] Hlen; [lia|]. simpl.
  case_decide as Hfull.
  - rewrite evict_oldest_cached_eq by done.
    destruct (cache_order m) as [|oldest rest] eqn:Hord; simpl.
    + exists (cached_events m), [], (cached_event_bytes m).
      assert (cached_events m = ∅) as Hemp.
      { apply map_empty. intros i. destruct (cached_events m !! i) eqn:Hi; [|done].
        assert (i ∈ []) by (apply (proj2 Hf); eauto). set_solver. }
      rewrite Hemp in *. rewrite msum_empty in Hb. destruct Ho, Ht.
      split_and!; [destruct m; simpl in *; by subst|done|done| |lia].
      rewrite fifo_ok_nil_size by done. lia.
    + assert (is_Some (cached_events m !! oldest)) as [c Hc]
        by (apply (proj2 Hf); set_solver).
      rewrite Hc. simpl.
      edestruct (IH (set_cache_order rest (set_cached_event_bytes
          (cached_event_bytes m - ce_payload_bytes c)
          (set_cached_events (delete oldest (cached_events m)) m))))
        as (cached & order & bytes & Heq & Hl & Hsub & Hc1 & Hc2); simpl; try done.
      { split; [by apply fifo_ok_pop| |].
        - rewrite Hb, (msum_delete _ _ _ _ Hc). lia.
        - intros id c' [_ ?]%lookup_delete_Some. eauto. }
      { simpl in Hlen. lia. }
      exists cached, order, bytes. rewrite Heq. split_and!; try done.
      etrans; [done|apply delete_subseteq].
  - exists (cached_events m), (cache_order m), (cached_event_bytes m).
    split_and!; [by destruct m|by split|done|lia|].
    destruct Ht. unfold u64_sat_add, sat_add in Hfull. lia.
Qed.

(** ** Storing an event *)
Record storable (o : InvWantMeshOptions) (event : Event) (payload : N) : Prop := {
  st_verified : verified event;
  st_kind : kind_allowed o (event_kind event);
  st_json : ∃ j, event_to_json event = Ok j ∧ slen j = payload;
  st_u32 : payload ≤ u32_max;
  st_max : payload ≤ max_event_bytes o;
}.

Lemma storable_cached_ok o event payload e :
  storable o event payload →
  cached_ok o (event_id_to_hex (event_id event)) (mkCachedEvent event e payload).
Proof. intros []. by split. Qed.

Lemma validate_kind_Ok m kind u : validate_kind m kind = Ok u ↔ kind_allowed (options m) kind.
Proof.
  unfold validate_kind, kind_allowed. destruct u.
  destruct (allowed_kinds (options m)) as [ks|]; simpl; [|done].
  case_bool_decide; naive_solver.
Qed.
Lemma validate_event_len_Ok m len u :
  validate_event_len m len = Ok u ↔ len ≤ max_event_bytes (options m).
Proof.
  unfold validate_event_len. destruct u. case_decide; [|naive_solver lia].
  split; [done|lia].
Qed.
Lemma validate_verified_event_Ok m event id payload :
  validate_verified_event m event = Ok (id, payload) ↔
    id = event_id_to_hex (event_id event) ∧
    kind_allowed (options m) (event_kind event) ∧
    (∃ j, event_to_json event = Ok j ∧ slen j = payload) ∧
    payload ≤ u32_max ∧ payload ≤ max_event_bytes (options m).
Proof.
  unfold validate_verified_event. rewrite result_bind_Ok.
  setoid_rewrite validate_kind_Ok. setoid_rewrite result_bind_Ok.
  setoid_rewrite result_bind_Ok. setoid_rewrite validate_event_len_Ok.
  split.
  - intros (_ & Hk & j & Hj & _ & Hlen & Hd). case_decide; [|done].
    injection Hd as <- <-.
    destruct (event_to_json event); [|done]. injection Hj as ->. eauto 10.
  - intros (-> & Hk & (j & Hj & Hlen) & Hu & Hm).
    exists tt. split; [done|]. exists j. rewrite Hj. split; [done|].
    exists tt. rewrite Hlen, decide_True by done. done.
Qed.
Lemma validate_event_Ok m event id payload :
  validate_event m event = Ok (id, payload) ↔
    verified event ∧ validate_verified_event m event = Ok (id, payload).
Proof.
  unfold validate_event, verified. destruct (event_verify event) as [[]|]; simpl; naive_solver.
Qed.
Lemma validate_storable m event id payload :
  verified event → validate_verified_event m event = Ok (id, payload) →
  id = event_id_to_hex (event_id event) ∧ storable (options m) event payload.
Proof. intros ? (?&?&?&?&?)%validate_verified_event_Ok. split; [done|by split]. Qed.

Lemma evict_oldest_cached_options m :
  options (evict_oldest_cached_event m).2 = options m.
Proof.
  unfold evict_oldest_cached_event. generalize (cache_order m). intros l.
  induction l as [|k l IHl]; simpl; [done|]. by destruct (cached_events m !! k).
Qed.
Lemma evict_until_fits_options fuel payload m :
  options (evict_until_fits fuel payload m) = options m.
Proof.
  revert m. induction fuel as [|fuel IH]; intros m; simpl; [done|]. case_decide; [|done].
  pose proof (evict_oldest_cached_options m) as Hm.
  destruct (evict_oldest_cached_event m) as [[] m']; simpl in *; [by rewrite IH|done].
Qed.
Lemma store_event_options event payload now m :
  options (store_event event payload now m) = options m.
Proof.
  unfold store_event. destruct (cached_events m !! _); [done|].
  apply evict_until_fits_options.
Qed.

Lemma store_event_inv `{!NostrLaws _} event payload now m :
  storable (options m) event payload → mesh_inv m →
  mesh_inv (store_event event payload now m).
Proof.
  intros Hst [Ho Ht [Hf Hb Hc Htot He] Hr Hd Hp]. unfold store_event.
  set (id := event_id_to_hex (event_id event)).
  destruct (cached_events m !! id) as [c|] eqn:Hid; apply track_expiry_inv.
  - (* the same event is cached: sizes agree *)
    destruct (He id c Hid) as [Hv Hi _ (j & Hj & Hl) _ _].
    assert (ce_payload_bytes c = payload) as Hsame.
    { destruct Hst as [Hv' _ (j' & Hj' & <-) _ _]. rewrite <-Hl.
      eapply verified_json_length; [exact Hv|exact Hv'| |done|done].
      by apply (inj event_id_to_hex). }
    rewrite Hsame. pose proof (msum_lookup ce_payload_bytes _ _ _ Hid) as Hle.
    rewrite Hsame, <-Hb in Hle.
    assert (u64_sat_add (cached_event_bytes m - payload) payload = cached_event_bytes m) as Hadd.
    { unfold u64_sat_add. destruct Ht. rewrite sat_add_exact; lia. }
    split; simpl; try done. rewrite Hadd. split; try done.
    + apply fifo_ok_update; eauto.
    + pose proof (msum_insert ce_payload_bytes (cached_events m) id
        (mkCachedEvent event (u64_sat_add now (event_ttl_ms (options m))) payload) c Hid) as Hm.
      simpl in Hm. lia.
    + by rewrite msize_insert_old by eauto.
    + intros i c' [[<- <-]|[_ ?]]%lookup_insert_Some; [|eauto].
      by apply storable_cached_ok.
  - destruct (evict_until_fits_spec (S (length (cache_order m))) payload m)
      as (cached & order & bytes & -> & [Hf' Hb' He'] & Hsub & Hcnt & Hbytes);
      [done|done|apply Hst|by split|lia|].
    assert (cached !! id = None) as Hn by (by eapply lookup_weaken_None).
    assert (u64_sat_add bytes payload = bytes + payload) as Hadd.
    { unfold u64_sat_add. destruct Ht. rewrite sat_add_exact; lia. }
    split; simpl; try done. rewrite Hadd. split; try done.
    + by apply fifo_ok_push.
    + rewrite msum_insert_new by done. simpl. lia.
    + rewrite msize_insert_new by done. lia.
    + intros i c' [[<- <-]|[_ ?]]%lookup_insert_Some; [|eauto].
      by apply storable_cached_ok.
Qed.

Lemma prune_cached_events_inv now m : mesh_inv m → mesh_inv (prune_cached_events now m).
Proof.
  intros [Ho Ht [Hf Hb Hc Htot He] Hr Hd Hp]. unfold prune_cached_events.
  set (cached := filter _ (cached_events m)).
  assert (cached ⊆ cached_events m) as Hsub by apply map_filter_subseteq.
  assert (foldl (λ total c, u64_sat_add total (ce_payload_bytes c)) 0 (hash_values cached)
    = msum ce_payload_bytes cached) as Hfold.
  { unfold u64_sat_add. rewrite fold_sat_add by done. rewrite msum_hash.
    pose proof (msum_filter_le ce_payload_bytes (cached_events m)
      (λ kv, now < ce_expires_at_ms kv.2)) as Hle.
    fold cached in Hle. destruct Ht. lia. }
  split; simpl; try done. split.
  - apply (fifo_ok_retain _ (cached_events m)); [done|].
    intros k [c Hk]. exists c. by eapply lookup_weaken.
  - done.
  - etrans; [by apply msize_subseteq|done].
  - rewrite Hfold. etrans; [apply msum_filter_le|]. by rewrite <-Hb.
  - intros id c Hid. eapply He, lookup_weaken; eauto.
Qed.

(** ** Pending peers, delivered events, seen inventories *)
Lemma remove_pending_inv id m :
  mesh_inv m → mesh_inv (remove_pending_event id m).2.
Proof.
  intros [Ho Ht Hc [Hf Hb Hrs Hro Hpr Hpb Hct Hfw] Hd Hp]. unfold remove_pending_event.
  destruct (pending_downstream m !! id) as [p|] eqn:Hid; simpl.
  - split; simpl; try done. split; try done.
    + intros j q [_ ?]%lookup_delete_Some. eauto.
    + intros j q [_ ?]%lookup_delete_Some. eauto.
    + rewrite Hct, (msum_delete _ _ _ _ Hid). lia.
  - rewrite delete_id by done. by destruct m.
Qed.

Lemma remember_delivered_inv id now m :
  mesh_inv m → mesh_inv (remember_delivered id now m).2.
Proof.
  intros [Ho Ht Hc Hr [Hf Hb] Hp]. unfold remember_delivered.
  destruct (delivered_events m !! id) eqn:Hid; simpl; [done|].
  destruct (evict_oldest _ _ _) as [order delivered] eqn:Hev; simpl.
  destruct (evict_oldest_spec _ _ _ _ _ Hev) as (Hf' & Hb' & Hs);
    [destruct Ho; lia|done|].
  assert (delivered !! id = None) by (by eapply lookup_weaken_None).
  split; simpl; try done. split; [by apply fifo_ok_push|].
  rewrite msize_insert_new by done. lia.
Qed.

Lemma forget_inventory_routes o seen order routes pending count fwd id m :
  options m = o → seen_inventories m = seen → upstream_routes m = routes →
  pending_downstream m = pending → pending_peer_count m = count →
  want_forwarded m = fwd →
  routes_inv o seen (id :: order) routes pending count fwd →
  let m' := forget_inventory id m in
  routes_inv o (seen_inventories m') order (upstream_routes m') (pending_downstream m')
    (pending_peer_count m') (want_forwarded m').
Proof.
  intros <- <- <- <- <- <- [Hf Hb Hrs Hro Hpr Hpb Hct Hfw]. unfold forget_inventory.
  unfold remove_pending_event; simpl.
  destruct (pending_downstream m !! id) as [p|] eqn:Hid; simpl;
    (split; [by apply fifo_ok_pop|etrans; [apply msize_delete_le|done]|..]).
  all: try (intros j r [Hne ?]%lookup_delete_Some; rewrite ?lookup_delete_ne by done; eauto).
  - rewrite Hct, (msum_delete _ _ _ _ Hid). lia.
  - by rewrite msum_delete_none.
Qed.

(** Eviction only touches the seen inventories and the transient state. *)
Lemma evict_seen_inv m : mesh_inv m → mesh_inv (evict_seen (seen_order m) m).
Proof.
  intros [Ho Ht Hc Hr Hd Hp].
  assert (∀ order m', options m' = options m →
    cached_events m' = cached_events m → cache_order m' = cache_order m →
    cached_event_bytes m' = cached_event_bytes m →
    delivered_events m' = delivered_events m → delivered_order m' = delivered_order m →
    peer_behaviors m' = peer_behaviors m → peer_behavior_order m' = peer_behavior_order m →
    routes_inv (options m') (seen_inventories m') order (upstream_routes m')
      (pending_downstream m') (pending_peer_count m') (want_forwarded m') →
    mesh_inv (evict_seen order m')) as Hgen; [|by apply Hgen].
  induction order as [|k order IH]; intros m' Ho' E1 E2 E3 E4 E5 E6 E7 Hr'; simpl.
  { split; simpl; rewrite ?Ho', ?E1, ?E2, ?E3, ?E4, ?E5, ?E6, ?E7; try done.
    by rewrite <-Ho'. }
  case_decide.
  - apply IH; try (unfold forget_inventory, remove_pending_event; simpl;
      destruct (pending_downstream m' !! k); done).
    replace (options (forget_inventory k m')) with (options m')
      by (unfold forget_inventory, remove_pending_event; simpl;
          by destruct (pending_downstream m' !! k)).
    by eapply forget_inventory_routes.
  - split; simpl; rewrite ?Ho', ?E1, ?E2, ?E3, ?E4, ?E5, ?E6, ?E7; try done.
    by rewrite <-Ho'.
Qed.

Lemma forget_inventory_seen k m :
  seen_inventories (forget_inventory k m) = delete k (seen_inventories m) ∧
  options (forget_inventory k m) = options m.
Proof.
  unfold forget_inventory, remove_pending_event; simpl.
  by destruct (pending_downstream m !! k).
Qed.
Lemma evict_seen_options order m : options (evict_seen order m) = options m.
Proof.
  revert m. induction order as [|k order IH]; intros m; simpl; [done|].
  case_decide; [|done]. rewrite IH. apply forget_inventory_seen.
Qed.
Lemma evict_seen_bound order m :
  1 ≤ max_seen_events (options m) → fifo_ok order (seen_inventories m) →
  msize (seen_inventories (evict_seen order m)) < max_seen_events (options m).
Proof.
  intros Hm. revert m Hm. induction order as [|k order IH]; intros m Hm Hf; simpl.
  - rewrite fifo_ok_nil_size by done. lia.
  - case_decide; [|simpl; lia].
    destruct (forget_inventory_seen k m) as [Hs Hopt].
    rewrite <-Hopt. apply IH; rewrite ?Hopt, ?Hs; [done|by apply fifo_ok_pop].
Qed.
Lemma evict_seen_subseteq order m :
  seen_inventories (evict_seen order m) ⊆ seen_inventories m.
Proof.
  revert m. induction order as [|k order IH]; intros m; simpl; [done|].
  case_decide; [|done]. etrans; [apply IH|].
  destruct (forget_inventory_seen k m) as [-> _]. apply delete_subseteq.
Qed.

Lemma remember_inventory_inv id now m :
  now ≤ u64_max →
  mesh_inv m → mesh_inv (remember_inventory id now m).2.
Proof.
  intros Hnow Hm. unfold remember_inventory.
  destruct (is_some_and _ _) eqn:Hlive; simpl; [done|].
  apply track_expiry_inv.
  destruct (seen_inventories m !! id) as [e|] eqn:Hid.
  - destruct Hm as [Ho Ht Hc [Hf Hb Hrs Hro Hpr Hpb Hct Hfw] Hd Hp].
    simpl in Hlive. apply bool_decide_eq_false in Hlive.
    split; simpl; try done. split; try done.
    + apply fifo_ok_update; eauto.
    + by rewrite msize_insert_old by eauto.
    + intros j r Hj. destruct (Hrs j r Hj) as (e' & He' & Hle).
      destruct (decide (j = id)) as [->|]; [|by rewrite lookup_insert_ne; eauto].
      rewrite lookup_insert_eq. eexists; split; [done|].
      simplify_eq. unfold u64_sat_add, sat_add. lia.
  - pose proof (evict_seen_inv m Hm) as [Ho Ht Hc [Hf Hb Hrs Hro Hpr Hpb Hct Hfw] Hd Hp].
    pose proof (evict_seen_bound (seen_order m) m
      ltac:(destruct Hm as [[]]; lia) ltac:(apply Hm)) as Hbound.
    pose proof (evict_seen_subseteq (seen_order m) m) as Hsub.
    pose proof (evict_seen_options (seen_order m) m) as Hopt.
    set (m0 := evict_seen (seen_order m) m) in *.
    assert (seen_inventories m0 !! id = None) as Hn by (by eapply lookup_weaken_None).
    split; simpl; try done. split; try done.
    + by apply fifo_ok_push.
    + rewrite msize_insert_new by done. rewrite Hopt. lia.
    + intros j r Hj. destruct (Hrs j r Hj) as (e' & He' & Hle).
      exists e'. split; [|done]. rewrite lookup_insert_ne; [done|]. naive_solver.
Qed.

(** ** Pruning *)
Lemma routes_pending_bound o seen order routes pending count fwd :
  options_typed o → routes_inv o seen order routes pending count fwd →
  msum (λ p, ssize (pp_peers p)) pending
    ≤ max_seen_events o * max_pending_peers_per_event o.
Proof.
  intros Ht [Hf Hb Hrs Hro Hpr Hpb Hct Hfw].
  etrans; [apply (msum_bound _ _ (max_pending_peers_per_event o)); eauto|].
  apply N.mul_le_mono_r. etrans; [|exact Hb]. apply msize_dom. intros k [p Hk].
  destruct (Hpr k p Hk) as [r Hr]. destruct (Hrs k r Hr) as (e & ? & _). eauto.
Qed.

Lemma prune_routing_inv now m : mesh_inv m → mesh_inv (prune_routing now m).
Proof.
  intros [Ho Ht Hc Hr [Hdf Hdb] Hp]. pose proof Hr as [Hf Hb Hrs Hro Hpr Hpb Hct Hfw].
  unfold prune_routing.
  set (seen := filter _ (seen_inventories m)).
  set (routes := filter (λ kv, now < ur_expires_at_ms kv.2) (upstream_routes m)).
  split; simpl; try done.
  - split.
    + apply (fifo_ok_retain _ (seen_inventories m)); [done|].
      intros k [e Hk]. exists e. by apply map_lookup_filter_Some_1_1 in Hk.
    + etrans; [apply msize_subseteq, map_filter_subseteq|done].
    + intros id r [Hid Hlt]%map_lookup_filter_Some. destruct (Hrs id r Hid) as (e & He & Hle).
      exists e. split; [|done]. apply map_lookup_filter_Some. simpl in *. split; [done|lia].
    + intros id r [Hid _]%map_lookup_filter_Some. eauto.
    + by intros id p [Hid [_ ?]]%map_lookup_filter_Some.
    + intros id p [Hid _]%map_lookup_filter_Some. eauto.
    + rewrite msum_hash. apply u64_wrap_small.
      etrans; [apply msum_filter_le|]. etrans; [by eapply routes_pending_bound|].
      apply Ht.
    + by intros id e [Hid [_ ?]]%map_lookup_filter_Some.
  - split.
    + apply (fifo_ok_retain _ (delivered_events m)); [done|].
      intros k [e Hk]. exists e. by apply map_lookup_filter_Some_1_1 in Hk.
    + etrans; [apply msize_subseteq, map_filter_subseteq|done].
Qed.

Lemma prune_expired_inv now m : mesh_inv m → mesh_inv (prune_expired now m).
Proof.
  intros Hm. unfold prune_expired. apply set_next_prune_inv.
  by apply prune_routing_inv, prune_cached_events_inv, record_peer_behaviors_inv.
Qed.
Lemma prune_inv now m : mesh_inv m → mesh_inv (prune now m).
Proof.
  intros Hm. unfold prune. destruct (next_prune_at_ms m); [|done].
  case_decide; [done|]. by apply prune_expired_inv.
Qed.

Lemma record_peer_behavior_options p d ev m :
  options (record_peer_behavior p d ev m) = options m.
Proof.
  unfold record_peer_behavior. destruct (peer_behaviors m !! p); [done|].
  by destruct (evict_oldest _ _ _).
Qed.
Lemma penalize_unserved_options now m : options (penalize_unserved now m) = options m.
Proof.
  unfold penalize_unserved. generalize (expired_route_peers now m). intros ps. revert m.
  induction ps as [|p ps IH]; intros m; simpl; [done|].
  by rewrite IH, record_peer_behavior_options.
Qed.
Lemma prune_options now m : options (prune now m) = options m.
Proof.
  unfold prune. destruct (next_prune_at_ms m); [|done]. case_decide; [done|].
  apply penalize_unserved_options.
Qed.
End mesh_inv.

(** ** The inventory/want mesh: every operation keeps the invariant

    The public operations of the mesh as the labels of a transition system,
    its reachable states, and the preservation of [mesh_inv] by each handler
    of [Mesh]. *)

Section routes_inv_lemmas.
Context (o : InvWantMeshOptions) (seen : gmap string N) (order : list string)
  (routes : gmap string UpstreamRoute) (pending : gmap string PendingPeers)
  (count : N) (fwd : gmap string N).
Context (Hinv : routes_inv o seen order routes pending count fwd).

Lemma routes_inv_set id e r :
  is_Some (seen !! id) → ur_expires_at_ms r ≤ e → route_ok o r →
  routes_inv o (<[id := e]> seen) order (<[id := r]> routes) pending count fwd.
Proof.
  intros Hs He Hr. destruct Hinv as [Hf Hb Hrs Hro Hpr Hpb Hct Hfw]. split; try done.
  - by apply fifo_ok_update.
  - by rewrite msize_insert_old.
  - intros j r' [[<- <-]|[Hne Hj]]%lookup_insert_Some.
    + exists e. by rewrite lookup_insert_eq.
    + rewrite lookup_insert_ne by done. eauto.
  - intros j r' [[<- <-]|[Hne Hj]]%lookup_insert_Some; eauto.
  - intros j p Hj. apply lookup_insert_is_Some'. eauto.
  - intros j e' Hj. apply lookup_insert_is_Some'. eauto.
Qed.
Lemma routes_inv_update id e r :
  seen !! id = Some e → ur_expires_at_ms r ≤ e → route_ok o r →
  routes_inv o seen order (<[id := r]> routes) pending count fwd.
Proof.
  intros Hs He Hr. rewrite <-(insert_id seen id e Hs). apply routes_inv_set; eauto.
Qed.
Lemma routes_inv_forward id e :
  is_Some (routes !! id) → routes_inv o seen order routes pending count (<[id := e]> fwd).
Proof.
  intros Hs. destruct Hinv as [Hf Hb Hrs Hro Hpr Hpb Hct Hfw]. split; try done.
  intros j e' [[<- <-]|[Hne Hj]]%lookup_insert_Some; eauto.
Qed.
Lemma routes_inv_pending id p :
  is_Some (routes !! id) → ssize (pp_peers p) ≤ max_pending_peers_per_event o →
  routes_inv o seen order routes (<[id := p]> pending)
    (msum (λ p, ssize (pp_peers p)) (<[id := p]> pending)) fwd.
Proof.
  intros Hs Hp. destruct Hinv as [Hf Hb Hrs Hro Hpr Hpb Hct Hfw]. split; try done.
  - intros j q [[<- <-]|[Hne Hj]]%lookup_insert_Some; eauto.
  - intros j q [[<- <-]|[Hne Hj]]%lookup_insert_Some; eauto.
Qed.
End routes_inv_lemmas.

Lemma ssize_union_singleton (s : gset string) x : x ∉ s → ssize ({[x]} ∪ s) = ssize s + 1.
Proof. intros. unfold ssize. rewrite size_union, size_singleton by set_solver. lia. Qed.

Section mesh_ops.
Context `{!Nostr, !HashOrder}.
Implicit Types m : InvWantMesh.

(** ** Route changes *)
Lemma mesh_inv_route id r m :
  mesh_inv m →
  (∃ r0, upstream_routes m !! id = Some r0 ∧ ur_expires_at_ms r = ur_expires_at_ms r0) →
  route_ok (options m) r →
  mesh_inv (set_upstream_routes (<[id := r]> (upstream_routes m)) m).
Proof.
  intros [Ho Ht Hc Hr Hd Hp] (r0 & Hr0 & He) Hok. split; simpl; try done.
  destruct (ri_route_seen _ _ _ _ _ _ _ Hr id r0 Hr0) as (e & Hse & Hle).
  eapply routes_inv_update; [done|done|lia|done].
Qed.
Lemma mesh_inv_forward id e m :
  mesh_inv m → is_Some (upstream_routes m !! id) →
  mesh_inv (set_want_forwarded (<[id := e]> (want_forwarded m)) m).
Proof. intros [] ?. split; simpl; try done. by apply routes_inv_forward. Qed.

Lemma mesh_inv_route_ok id r m :
  mesh_inv m → upstream_routes m !! id = Some r → route_ok (options m) r.
Proof. intros [? ? ? Hr ? ?]. apply (ri_route_ok _ _ _ _ _ _ _ Hr). Qed.

Lemma route_ok_hop_limit o h r :
  route_ok o r → h ≤ max_hops o → route_ok o (route_set_hop_limit (ur_hop_limit r `max` h) r).
Proof. intros [] ?. split; simpl; try done. lia. Qed.
Lemma route_ok_disrupted o d r :
  route_ok o r → (∀ p, p ∈ d → route_provider r p) → route_ok o (route_set_disrupted d r).
Proof. by intros [] ?; split. Qed.
Lemma route_ok_fulfilled o r :
  route_ok o r → route_ok o (route_set_disrupted ∅ (route_set_fulfilled true r)).
Proof. intros []. split; simpl; try done; set_solver. Qed.

Lemma dismiss_frame_inv peer id m : mesh_inv m → mesh_inv (dismiss_frame peer id m).
Proof.
  intros Hm. unfold dismiss_frame. destruct (upstream_routes m !! id) as [r|] eqn:Hr; [|done].
  case_decide; [|done]. apply remove_pending_inv, mesh_inv_route; [done|by eexists|].
  apply route_ok_fulfilled. by eapply mesh_inv_route_ok.
Qed.
Lemma record_transport_disruption_inv peer id m :
  mesh_inv m → mesh_inv (record_transport_disruption peer id m).2.
Proof.
  intros Hm. unfold record_transport_disruption.
  destruct (upstream_routes m !! id) as [r|] eqn:Hr; [|done].
  case_decide as Hp; [|done]. apply mesh_inv_route; [done|by eexists|].
  pose proof (mesh_inv_route_ok _ _ _ Hm Hr) as Hok. apply route_ok_disrupted; [done|].
  intros p [->%elem_of_singleton|Hin]%elem_of_union; [apply Hp|by apply Hok].
Qed.

(** ** Inventories *)
Lemma remember_inventory_options id now m :
  options (remember_inventory id now m).2 = options m.
Proof.
  unfold remember_inventory. destruct (is_some_and _ _); [done|].
  destruct (seen_inventories m !! id); [done|]. apply evict_seen_options.
Qed.
Lemma remember_inventory_true id now m m' :
  remember_inventory id now m = (true, m') →
  seen_inventories m' !! id = Some (u64_sat_add now (route_ttl_ms (options m))).
Proof.
  unfold remember_inventory. destruct (is_some_and _ _); [done|]. intros [= <-].
  destruct (seen_inventories m !! id); simpl; rewrite lookup_insert_eq; [done|].
  by rewrite evict_seen_options.
Qed.
Lemma remember_inventory_false id now m m' :
  remember_inventory id now m = (false, m') →
  m' = m ∧ ∃ e, seen_inventories m !! id = Some e ∧ now < e.
Proof.
  unfold remember_inventory. destruct (is_some_and _ _) eqn:Hs; [|done]. intros [= <-].
  apply is_some_and_true in Hs as (e & ? & ?%bool_decide_eq_true). eauto.
Qed.

Lemma receive_inventory_fresh_inv src inv now m :
  mesh_inv m → seen_inventories m !! ri_event_id inv
    = Some (u64_sat_add now (route_ttl_ms (options m))) →
  kind_allowed (options m) (ri_event_kind inv) →
  ri_payload_bytes inv ≤ max_event_bytes (options m) →
  1 ≤ ri_hop_limit inv ≤ max_hops (options m) →
  let route_expiry := u64_sat_add now (route_ttl_ms (options m)) in
  let routes :=
    match upstream_routes m !! ri_event_id inv with
    | Some _ => upstream_routes m
    | None => <[ri_event_id inv := mkUpstreamRoute src ∅ ∅ (ri_event_kind inv)
        (ri_payload_bytes inv) (ri_hop_limit inv) route_expiry false]> (upstream_routes m)
    end in
  mesh_inv (set_want_forwarded (<[ri_event_id inv := route_expiry]> (want_forwarded m))
    (set_upstream_routes routes m)).
Proof.
  intros Hm Hs Hk Hp Hh route_expiry routes.
  apply (mesh_inv_forward _ _ (set_upstream_routes routes m)).
  - unfold routes. destruct (upstream_routes m !! ri_event_id inv); [by destruct m|].
    destruct Hm as [Ho Ht Hc Hr Hd Hb]. split; simpl; try done.
    eapply routes_inv_update; [done|done|simpl; done|].
    split; simpl; try done; try set_solver.
  - simpl. unfold routes. destruct (upstream_routes m !! ri_event_id inv) eqn:Hr; [eauto|].
    rewrite lookup_insert_eq. eauto.
Qed.

Lemma validate_inventory_Ok m inv u :
  (_ ← validate_event_id (ri_event_id inv); _ ← validate_kind m (ri_event_kind inv);
   validate_event_len m (ri_payload_bytes inv)) = Ok u ↔
  validate_event_id (ri_event_id inv) = Ok tt ∧
  kind_allowed (options m) (ri_event_kind inv) ∧
  ri_payload_bytes inv ≤ max_event_bytes (options m).
Proof.
  rewrite result_bind_Ok. setoid_rewrite result_bind_Ok.
  setoid_rewrite validate_kind_Ok. setoid_rewrite validate_event_len_Ok.
  split; [|naive_solver]. intros ([] & ? & _ & ? & ?). done.
Qed.

Lemma receive_inventory_inv src inv now m :
  now ≤ u64_max → mesh_inv m → mesh_inv (receive_inventory src inv now m).2.
Proof.
  intros Hnow Hm. unfold receive_inventory.
  destruct (_ ← validate_event_id _; _) as [u|] eqn:Hval; simpl; [|done].
  apply validate_inventory_Ok in Hval as (Hid & Hk & Hp).
  case_decide as Hz; [done|]. case_decide as Hh; [done|]. case_decide as Hcached; [done|].
  pose proof (remember_inventory_inv (ri_event_id inv) now m Hnow Hm) as Hm'.
  pose proof (remember_inventory_options (ri_event_id inv) now m) as Hopt.
  destruct (remember_inventory _ now m) as [[] m'] eqn:Hrem; simpl in *.
  { apply remember_inventory_true in Hrem. rewrite <-Hopt in Hrem, Hk, Hp, Hh.
    apply receive_inventory_fresh_inv; try done. lia. }
  apply remember_inventory_false in Hrem as (-> & e & He & Hlt).
  destruct (upstream_routes m !! ri_event_id inv) as [r|] eqn:Hr; simpl; [|done].
  destruct (ur_fulfilled r) eqn:Hful; simpl; [done|]. case_decide; simpl; [done|].
  pose proof (mesh_inv_route_ok _ _ _ Hm Hr) as Hok.
  assert (route_ok (options m)
    (route_set_hop_limit (ur_hop_limit r `max` ri_hop_limit inv) r)) as Hok'
    by (apply route_ok_hop_limit; [done|lia]).
  set (r1 := route_set_hop_limit _ r) in *.
  assert (mesh_inv (set_upstream_routes
    (<[ri_event_id inv := r1]> (upstream_routes m)) m)) as Hm1
    by (apply mesh_inv_route; [done|by eexists|done]).
  case_decide as Hprov; simpl; [|case_decide as Hfull; simpl; [done|]].
  - pose proof (mesh_inv_route (ri_event_id inv)
      (route_set_disrupted (ur_transport_disrupted_peers r ∖ {[src]}) r1) _ Hm1) as Hset.
    apply Hset; [exists r1; simpl; by rewrite lookup_insert_eq|].
    apply route_ok_disrupted; [done|]. intros p [Hin _]%elem_of_difference.
    by apply Hok'.
  - rewrite insert_insert_eq. set (ext := u64_sat_add now (route_ttl_ms (options m))).
    destruct Hm as [Ho Ht Hc Hri Hd Hb]. split; simpl; try done.
    apply routes_inv_forward; [|rewrite lookup_insert_eq; eauto].
    apply routes_inv_set; [done|eauto|simpl; done|].
    destruct Hok' as [Ha Hpr Hdis Hhops Hby Hki].
    assert (src ∉ ur_alternate_peers r1 ∧ ur_peer_id r1 ≠ src) as [Hna Hnp].
    { unfold route_provider in Hprov. tauto. }
    split; simpl; try done.
    + change (ur_alternate_peers r) with (ur_alternate_peers r1).
      rewrite ssize_union_singleton by done.
      change (ur_alternate_peers r1) with (ur_alternate_peers r) in *. lia.
    + set_solver.
    + intros p [Hin Hne]%elem_of_difference.
      destruct (Hdis p Hin) as [?|?]; [by left|right; simpl; set_solver].
Qed.

(** ** Wants *)
Lemma add_pending_inv src id now m :
  mesh_inv m → is_Some (upstream_routes m !! id) → mesh_inv (add_pending src id now m).
Proof.
  intros Hm Hr. unfold add_pending.
  set (dflt := mkPendingPeers ∅ _). set (p := default dflt (pending_downstream m !! id)).
  destruct Hm as [Ho Ht Hc Hri Hd Hb].
  assert (ssize (pp_peers p) ≤ max_pending_peers_per_event (options m)) as Hp.
  { unfold p. destruct (pending_downstream m !! id) as [q|] eqn:Hq; simpl.
    - by eapply (ri_pending_bound _ _ _ _ _ _ _ Hri).
    - unfold ssize. rewrite size_empty. apply N.le_0_l. }
  assert (∀ q, msum (λ p, ssize (pp_peers p)) (<[id := q]> (pending_downstream m))
      + ssize (pp_peers p) = ssize (pp_peers q) + pending_peer_count m) as Hsum.
  { intros q. rewrite (ri_count _ _ _ _ _ _ _ Hri). unfold p.
    destruct (pending_downstream m !! id) as [q'|] eqn:Hq; simpl.
    - by rewrite (msum_insert (λ p, ssize (pp_peers p)) _ _ q _ Hq).
    - rewrite msum_insert_new by done.
      change (ssize (∅ : gset string)) with 0. lia. }
  case_decide as Hadd.
  - destruct Hadd as [Hlt Hnin].
    set (q := mkPendingPeers ({[src]} ∪ pp_peers p) (pp_expires_at_ms p)).
    pose proof (ssize_union_singleton _ _ Hnin) as Hsz.
    pose proof (routes_inv_pending _ _ _ _ _ _ _ Hri id q Hr) as Hnew.
    assert (ssize (pp_peers q) ≤ max_pending_peers_per_event (options m)) as Hq
      by (simpl; lia).
    specialize (Hnew Hq). specialize (Hsum q). simpl in Hsum. rewrite Hsz in Hsum.
    pose proof (routes_pending_bound _ _ _ _ _ _ _ Ht Hnew) as Hbound.
    split; simpl; try done. fold q.
    replace (usize_sat_add (pending_peer_count m) 1)
      with (msum (λ p, ssize (pp_peers p)) (<[id := q]> (pending_downstream m))); [done|].
    destruct Ht. unfold usize_sat_add. rewrite sat_add_exact; lia.
  - split; simpl; try done.
    pose proof (routes_inv_pending _ _ _ _ _ _ _ Hri id p Hr Hp) as Hnew.
    specialize (Hsum p). by replace (pending_peer_count m)
      with (msum (λ p, ssize (pp_peers p)) (<[id := p]> (pending_downstream m))) by lia.
Qed.
Lemma add_pending_frame src id now m :
  upstream_routes (add_pending src id now m) = upstream_routes m ∧
  want_forwarded (add_pending src id now m) = want_forwarded m ∧
  options (add_pending src id now m) = options m ∧
  cached_events (add_pending src id now m) = cached_events m.
Proof. unfold add_pending. by case_decide. Qed.

Lemma receive_want_inv src id now m :
  mesh_inv m → mesh_inv (receive_want src id now m).2.
Proof.
  intros Hm. unfold receive_want. destruct (validate_event_id id); [|done].
  destruct (cached_events m !! id); [done|].
  destruct (upstream_routes m !! id) as [r|] eqn:Hr; [|done].
  destruct (ur_fulfilled r); [done|].
  destruct (add_pending_frame src id now m) as (Hur & Hwf & Hopt & _).
  pose proof (add_pending_inv src id now m Hm ltac:(eauto)) as Hm'.
  set (m1 := add_pending src id now m) in *.
  destruct (is_some_and _ _); [done|]. simpl.
  apply (mesh_inv_forward _ _ (set_upstream_routes _ m1));
    [|simpl; rewrite lookup_insert_eq; eauto].
  apply mesh_inv_route; [done|rewrite Hur; by eexists|].
  rewrite Hopt. pose proof (mesh_inv_route_ok _ _ _ Hm Hr) as Hok.
  apply route_ok_disrupted; [done|]. intros p [Hin _]%elem_of_difference. by apply Hok.
Qed.

(** ** Frames *)
Lemma check_frame_Ok src id event verify m route payload :
  check_frame src id event verify m = Ok (route, payload) ↔
    validate_event_id id = Ok tt ∧
    upstream_routes m !! id = Some route ∧
    is_Some (want_forwarded m !! id) ∧ route_provider route src ∧
    (verify = true → verified event) ∧
    validate_verified_event m event = Ok (id, payload) ∧
    ur_event_kind route = event_kind event ∧ ur_payload_bytes route = payload.
Proof.
  unfold check_frame. split.
  - rewrite result_bind_Ok. intros ([] & Hid & Hb).
    destruct (upstream_routes m !! id) as [r|]; [simpl in Hb|done].
    destruct (decide (_ ∨ _)) as [|Hreq] in Hb; simpl in Hb; [done|].
    assert (∃ p, (verify = true → verified event) ∧
      validate_verified_event m event = Ok p ∧
      (let '(verified_id, payload_bytes) := p in
        _ ← (if decide (verified_id ≠ id)
             then Err (validation "inv/want frame id does not match signed event id")
             else Ok tt);
        _ ← (if decide (ur_event_kind r ≠ event_kind event ∨
                        ur_payload_bytes r ≠ payload_bytes)
             then Err (validation "inv/want frame does not match announced kind or payload size")
             else Ok tt);
        Ok (r, payload_bytes)) = Ok (route, payload)) as ([vid pb] & Hver & Hval & Hrest).
    { destruct verify.
      - destruct (validate_event m event) as [[vid pb]|] eqn:Hv; [|done].
        apply validate_event_Ok in Hv as [??]. by exists (vid, pb).
      - destruct (validate_verified_event m event) as [[vid pb]|] eqn:Hv; [|done].
        by exists (vid, pb). }
    destruct (decide (vid ≠ id)) as [|Hvid]; simpl in Hrest; [done|].
    destruct (decide (_ ∨ _)) as [|Hk]; simpl in Hrest; [done|].
    injection Hrest as <- <-.
    assert (vid = id) as <- by (by apply dec_stable). split_and!; try done.
    + destruct (want_forwarded m !! vid); [eauto|]. tauto.
    + apply dec_stable. tauto.
    + apply dec_stable. tauto.
    + apply dec_stable. tauto.
  - intros (Hid & Hr & [e Hw] & Hp & Hver & Hval & Hk & Hb). rewrite Hid, Hr. simpl.
    rewrite decide_False by (rewrite Hw; naive_solver). simpl.
    assert ((if verify then validate_event m event else validate_verified_event m event)
      = Ok (id, payload)) as ->.
    { destruct verify; [|done]. by apply validate_event_Ok; auto. }
    simpl. rewrite decide_False by naive_solver. simpl.
    rewrite decide_False by naive_solver. done.
Qed.

Lemma fulfil_route_inv id m : mesh_inv m → mesh_inv (fulfil_route id m).
Proof.
  intros Hm. unfold fulfil_route. destruct (upstream_routes m !! id) as [r|] eqn:Hr; [|done].
  apply mesh_inv_route; [done|by eexists|].
  by eapply route_ok_fulfilled, mesh_inv_route_ok.
Qed.

Lemma accept_frame_inv `{!NostrLaws _} src id event route payload peers now m :
  storable (options m) event payload → mesh_inv m →
  mesh_inv (accept_frame src id event route payload peers now m).2.
Proof.
  intros Hst Hm. unfold accept_frame.
  set (m1 := record_peer_behavior src VALID_FRAME_REWARD ValidFrame m).
  assert (mesh_inv m1) as Hm1 by by apply record_peer_behavior_inv.
  assert (mesh_inv (store_event event payload now m1)) as Hm2.
  { apply store_event_inv; [|done]. unfold m1. by rewrite record_peer_behavior_options. }
  pose proof (remember_delivered_inv id now _ (fulfil_route_inv id _ Hm2)) as Hm3.
  destruct (remember_delivered id now _) as [first m3]. simpl in Hm3.
  pose proof (remove_pending_inv id _ Hm3) as Hm4.
  by destruct (remove_pending_event id m3) as [pending m4].
Qed.

Lemma receive_frame_inv `{!NostrLaws _} src id event peers now verify m :
  (verify = false → verified event) → mesh_inv m →
  mesh_inv (receive_frame src id event peers now verify m).2.
Proof.
  intros Hv Hm. unfold receive_frame.
  destruct (check_frame _ _ _ _ _) as [[route payload]|] eqn:Hc; [|done].
  apply check_frame_Ok in Hc as (_ & _ & _ & _ & Hver & Hval & _).
  destruct (ur_fulfilled route); [done|].
  assert (verified event) as Hev by (destruct verify; auto).
  destruct (validate_storable m event id payload Hev Hval) as [_ Hst].
  pose proof (accept_frame_inv src id event route payload peers now m Hst Hm) as Ha.
  by destruct (accept_frame _ _ _ _ _ _ _ _).
Qed.

Lemma penalize_error_inv {A} src (c : SE InvWantMesh PubsubError A) m :
  mesh_inv (c m).2 → mesh_inv (penalize_error src c m).2.
Proof.
  unfold penalize_error. destruct (c m) as [r m']. simpl. intros.
  destruct (is_err r); [by apply record_invalid_message_inv|done].
Qed.

Lemma receive_inv `{!NostrLaws _} src msg peers now m :
  now ≤ u64_max → mesh_inv m → mesh_inv (receive src msg peers now m).2.
Proof.
  intros Hnow Hm. unfold receive. se_unfold. apply penalize_error_inv.
  pose proof (prune_inv now m Hm). destruct msg.
  - by apply receive_inventory_inv.
  - by apply receive_want_inv.
  - by apply receive_frame_inv.
Qed.
Lemma receive_verified_frame_inv `{!NostrLaws _} src id v peers now m :
  verified (as_event v) → mesh_inv m →
  mesh_inv (receive_verified_frame src id v peers now m).2.
Proof.
  intros Hv Hm. unfold receive_verified_frame. se_unfold. apply penalize_error_inv.
  apply receive_frame_inv; [done|]. by apply prune_inv.
Qed.

(** ** Publication *)
Lemma publish_validated_inv `{!NostrLaws _} event id payload peers now m :
  now ≤ u64_max → storable (options m) event payload → mesh_inv m →
  mesh_inv (publish_validated event id payload peers now m).2.
Proof.
  intros Hnow Hst Hm. unfold publish_validated.
  pose proof (remember_inventory_inv id now _ Hnow
    (store_event_inv event payload now m Hst Hm)) as Hm'.
  by destruct (remember_inventory id now _) as [[] m'].
Qed.
Lemma publish_inv `{!NostrLaws _} event peers now m :
  now ≤ u64_max → mesh_inv m → mesh_inv (publish event peers now m).2.
Proof.
  intros Hnow Hm. unfold publish. se_unfold. pose proof (prune_inv now m Hm).
  destruct (validate_event _ _) as [[id payload]|] eqn:Hv; [|done].
  apply validate_event_Ok in Hv as [Hver Hv].
  apply publish_validated_inv; [done| |done]. by eapply validate_storable.
Qed.
Lemma publish_verified_inv `{!NostrLaws _} v peers now m :
  now ≤ u64_max → verified (as_event v) → mesh_inv m →
  mesh_inv (publish_verified v peers now m).2.
Proof.
  intros Hnow Hver Hm. unfold publish_verified. se_unfold. pose proof (prune_inv now m Hm).
  destruct (validate_verified_event _ _) as [[id payload]|] eqn:Hv; [|done].
  apply publish_validated_inv; [done| |done]. by eapply validate_storable.
Qed.
Lemma seed_verified_inv `{!NostrLaws _} v now m :
  verified (as_event v) → mesh_inv m → mesh_inv (seed_verified v now m).2.
Proof.
  intros Hver Hm. unfold seed_verified. se_unfold. pose proof (prune_inv now m Hm).
  destruct (validate_verified_event _ _) as [[id payload]|] eqn:Hv; [|done].
  apply store_event_inv; [|done]. by eapply validate_storable.
Qed.
Lemma replay_to_peer_inv `{!NostrLaws _} event peer now m :
  mesh_inv m → mesh_inv (replay_to_peer event peer now m).2.
Proof.
  intros Hm. unfold replay_to_peer. se_unfold. pose proof (prune_inv now m Hm).
  destruct (validate_event _ _) as [[id payload]|] eqn:Hv; [|done].
  apply validate_event_Ok in Hv as [Hver Hv].
  apply store_event_inv; [|done]. by eapply validate_storable.
Qed.
Lemma replay_verified_to_peer_inv `{!NostrLaws _} v peer now m :
  verified (as_event v) → mesh_inv m → mesh_inv (replay_verified_to_peer v peer now m).2.
Proof.
  intros Hver Hm. unfold replay_verified_to_peer. se_unfold. pose proof (prune_inv now m Hm).
  destruct (validate_verified_event _ _) as [[id payload]|] eqn:Hv; [|done].
  apply store_event_inv; [|done]. by eapply validate_storable.
Qed.
End mesh_ops.
