(* ===== verification/MeshSpec.v ===== *)
(** * The inventory/want mesh: what it promises

    The mesh as a transition system over its public operations, and its
    properties: the invariant and the resource bounds of every reachable
    state, that only verified and requested events are delivered, how errors
    are handled, how frames fan out, and that maintenance is on time. *)

From S2P Require Export MeshOps.

Section mesh_frames.
Context `{!Nostr, !HashOrder}.
Implicit Types m : InvWantMesh.

(** ** What the primitives leave alone *)

(** Every route of [m'] comes from a route of [m] with the same providers,
    the same announced event and the same or an earlier answer. *)
Definition routes_from m' m : Prop :=
  ∀ id r', upstream_routes m' !! id = Some r' →
    ∃ r, upstream_routes m !! id = Some r ∧
         (∀ p, route_provider r' p → route_provider r p).

Lemma routes_from_subseteq m' m :
  upstream_routes m' ⊆ upstream_routes m → routes_from m' m.
Proof. intros Hs id r' Hr'. exists r'. split; [by eapply lookup_weaken|done]. Qed.
Lemma routes_from_eq m' m :
  upstream_routes m' = upstream_routes m → routes_from m' m.
Proof. intros Hs. apply routes_from_subseteq. by rewrite Hs. Qed.
#[export] Instance routes_from_preorder : PreOrder routes_from.
Proof.
  split; [intros m; by apply routes_from_eq|].
  intros m1 m2 m3 H12 H23 id r1 Hr1. destruct (H12 id r1 Hr1) as (r2 & Hr2 & Hp2).
  destruct (H23 id r2 Hr2) as (r3 & Hr3 & Hp3). eauto.
Qed.

Lemma record_peer_behavior_frame p d ev m :
  let m' := record_peer_behavior p d ev m in
  options m' = options m ∧ cached_events m' = cached_events m ∧
  seen_inventories m' = seen_inventories m ∧ delivered_events m' = delivered_events m ∧
  upstream_routes m' = upstream_routes m ∧ pending_downstream m' = pending_downstream m ∧
  next_prune_at_ms m' = next_prune_at_ms m.
Proof.
  unfold record_peer_behavior. destruct (peer_behaviors m !! p); [done|].
  by destruct (evict_oldest _ _ _).
Qed.
Lemma penalize_unserved_frame now m :
  let m' := penalize_unserved now m in
  options m' = options m ∧ cached_events m' = cached_events m ∧
  seen_inventories m' = seen_inventories m ∧ delivered_events m' = delivered_events m ∧
  upstream_routes m' = upstream_routes m ∧ pending_downstream m' = pending_downstream m ∧
  next_prune_at_ms m' = next_prune_at_ms m.
Proof.
  unfold penalize_unserved. generalize (expired_route_peers now m). intros ps.
  revert m. induction ps as [|p ps IH]; intros m; simpl; [done|].
  destruct (IH (record_peer_behavior p UNSERVED_INVENTORY_PENALTY UnservedInventory m))
    as (-> & -> & -> & -> & -> & -> & ->).
  apply record_peer_behavior_frame.
Qed.

Lemma evict_oldest_cached_frame m :
  let m' := (evict_oldest_cached_event m).2 in
  cached_events m' ⊆ cached_events m ∧
  seen_inventories m' = seen_inventories m ∧ delivered_events m' = delivered_events m ∧
  upstream_routes m' = upstream_routes m ∧ pending_downstream m' = pending_downstream m ∧
  next_prune_at_ms m' = next_prune_at_ms m.
Proof.
  unfold evict_oldest_cached_event. generalize (cache_order m). intros l.
  induction l as [|k l IH]; simpl; [done|].
  destruct (cached_events m !! k); simpl; [|done].
  split_and!; try done. apply delete_subseteq.
Qed.
Lemma evict_until_fits_frame fuel payload m :
  let m' := evict_until_fits fuel payload m in
  cached_events m' ⊆ cached_events m ∧
  seen_inventories m' = seen_inventories m ∧ delivered_events m' = delivered_events m ∧
  upstream_routes m' = upstream_routes m ∧ pending_downstream m' = pending_downstream m ∧
  next_prune_at_ms m' = next_prune_at_ms m.
Proof.
  revert m. induction fuel as [|fuel IH]; intros m; simpl; [done|].
  case_decide; [|done]. pose proof (evict_oldest_cached_frame m) as Hm.
  destruct (evict_oldest_cached_event m) as [[] m']; simpl in Hm |- *; [|done].
  destruct Hm as (Hs & <- & <- & <- & <- & <-). destruct (IH m') as (Hs' & ?).
  split; [by etrans|done].
Qed.
Lemma store_event_frame event payload now m :
  let m' := store_event event payload now m in
  seen_inventories m' = seen_inventories m ∧ delivered_events m' = delivered_events m ∧
  upstream_routes m' = upstream_routes m ∧ pending_downstream m' = pending_downstream m.
Proof.
  unfold store_event. destruct (cached_events m !! _); [done|].
  destruct (evict_until_fits_frame (S (length (cache_order m))) payload m)
    as (_ & ? & ? & ? & ? & _). done.
Qed.

Lemma remember_delivered_frame id now m :
  let m' := (remember_delivered id now m).2 in
  upstream_routes m' = upstream_routes m ∧ pending_downstream m' = pending_downstream m ∧
  options m' = options m.
Proof.
  unfold remember_delivered. destruct (delivered_events m !! id); [done|].
  by destruct (evict_oldest _ _ _).
Qed.
Lemma remove_pending_frame id m :
  let m' := (remove_pending_event id m).2 in
  upstream_routes m' = upstream_routes m ∧ options m' = options m ∧
  seen_inventories m' = seen_inventories m ∧ cached_events m' = cached_events m ∧
  delivered_events m' = delivered_events m ∧ next_prune_at_ms m' = next_prune_at_ms m.
Proof. unfold remove_pending_event. by destruct (pending_downstream m !! id). Qed.

Lemma evict_seen_frame order m :
  let m' := evict_seen order m in
  upstream_routes m' ⊆ upstream_routes m ∧ cached_events m' = cached_events m ∧
  delivered_events m' = delivered_events m ∧ next_prune_at_ms m' = next_prune_at_ms m.
Proof.
  revert m. induction order as [|k order IH]; intros m; simpl; [done|].
  case_decide; [|done]. destruct (IH (forget_inventory k m)) as (Hs & -> & -> & ->).
  unfold forget_inventory in *.
  destruct (remove_pending_frame k (set_upstream_routes (delete k (upstream_routes m))
    (set_seen_inventories (delete k (seen_inventories m)) m))) as (Hu & _ & _ & Hc & Hd & Hn).
  simpl in *. rewrite Hu in Hs. rewrite Hc, Hd, Hn. split_and!; try done.
  etrans; [exact Hs|apply delete_subseteq].
Qed.
Lemma remember_inventory_frame id now m :
  let m' := (remember_inventory id now m).2 in
  upstream_routes m' ⊆ upstream_routes m ∧ cached_events m' = cached_events m ∧
  delivered_events m' = delivered_events m.
Proof.
  unfold remember_inventory. destruct (is_some_and _ _); [done|]. simpl.
  destruct (seen_inventories m !! id); simpl; [done|].
  by destruct (evict_seen_frame (seen_order m) m) as (? & ? & ? & _).
Qed.

Lemma prune_routes_subseteq now m : upstream_routes (prune now m) ⊆ upstream_routes m.
Proof.
  unfold prune. destruct (next_prune_at_ms m); [|done]. case_decide; [done|].
  destruct (penalize_unserved_frame now m) as (_ & _ & _ & _ & Hu & _).
  unfold prune_expired, prune_routing, prune_cached_events. simpl. rewrite Hu.
  apply map_filter_subseteq.
Qed.
Lemma prune_cached_subseteq now m : cached_events (prune now m) ⊆ cached_events m.
Proof.
  unfold prune. destruct (next_prune_at_ms m); [|done]. case_decide; [done|].
  destruct (penalize_unserved_frame now m) as (_ & Hc & _).
  unfold prune_expired, prune_routing, prune_cached_events. simpl. rewrite Hc.
  apply map_filter_subseteq.
Qed.

Lemma routes_from_route id r m :
  (∀ r0, upstream_routes m !! id = Some r0 → ∀ p, route_provider r p → route_provider r0 p) →
  is_Some (upstream_routes m !! id) →
  routes_from (set_upstream_routes (<[id := r]> (upstream_routes m)) m) m.
Proof.
  intros Hp [r0 Hr0] j r' Hj. simpl in Hj.
  apply lookup_insert_Some in Hj as [[<- <-]|[Hne Hj]]; [|eauto].
  exists r0. eauto.
Qed.
Lemma fulfil_route_frame id m :
  routes_from (fulfil_route id m) m ∧ options (fulfil_route id m) = options m ∧
  delivered_events (fulfil_route id m) = delivered_events m ∧
  pending_downstream (fulfil_route id m) = pending_downstream m.
Proof.
  unfold fulfil_route. destruct (upstream_routes m !! id) as [r|] eqn:Hr; [|done].
  split_and!; try done. apply routes_from_route; [|eauto].
  intros r0 Hr0 p Hp. simplify_eq. exact Hp.
Qed.
End mesh_frames.

Section mesh_spec.
Context `{!Nostr, !HashOrder}.
Implicit Types m : InvWantMesh.

(** ** The transition system *)
Inductive mesh_op : Type :=
  | OpPublish (event : Event) (peers : list MeshPeer)
  | OpPublishVerified (verified : VerifiedEvent) (peers : list MeshPeer)
  | OpSeedVerified (verified : VerifiedEvent)
  | OpReplay (event : Event) (peer_id : string)
  | OpReplayVerified (verified : VerifiedEvent) (peer_id : string)
  | OpReplayCached (peer_id : string)
  | OpReceive (source_peer : string) (message : InvWantWireMessage) (peers : list MeshPeer)
  | OpReceiveVerified (source_peer event_id : string) (verified : VerifiedEvent)
      (peers : list MeshPeer)
  | OpMaintain
  | OpDismiss (peer_id event_id : string)
  | OpDisruption (peer_id event_id : string)
  | OpInvalid (peer_id : string).

Definition ok_actions (r : res (list InvWantAction)) : list InvWantAction :=
  match r with Ok actions => actions | Err _ => [] end.
Definition of_result (p : res (list InvWantAction) * InvWantMesh)
    : list InvWantAction * InvWantMesh := (ok_actions p.1, p.2).

Definition run_op (op : mesh_op) (now : N) (m : InvWantMesh)
    : list InvWantAction * InvWantMesh :=
  match op with
  | OpPublish event peers => of_result (publish event peers now m)
  | OpPublishVerified v peers => of_result (publish_verified v peers now m)
  | OpSeedVerified v => ([], (seed_verified v now m).2)
  | OpReplay event peer => of_result (replay_to_peer event peer now m)
  | OpReplayVerified v peer => of_result (replay_verified_to_peer v peer now m)
  | OpReplayCached peer =>
      let '(actions, m') := replay_cached_to_peer peer now m in (default [] actions, m')
  | OpReceive src msg peers => of_result (receive src msg peers now m)
  | OpReceiveVerified src id v peers =>
      of_result (receive_verified_frame src id v peers now m)
  | OpMaintain => ([], maintain now m)
  | OpDismiss peer id => ([], dismiss_frame peer id m)
  | OpDisruption peer id => ([], (record_transport_disruption peer id m).2)
  | OpInvalid peer => ([], record_invalid_message peer m)
  end.

(** A [VerifiedEvent] argument passed the signature check: its only public
    constructor is [verified_try_from]. *)
Definition op_ok (op : mesh_op) : Prop :=
  match op with
  | OpPublishVerified v _ | OpSeedVerified v | OpReplayVerified v _
  | OpReceiveVerified _ _ v _ => verified (as_event v)
  | _ => True
  end.

(** [reach o clock trace m]: from a new mesh with options [o], operations at
    non-decreasing times up to [clock] returned the actions [trace]. *)
Inductive reach (o : InvWantMeshOptions) : N → list InvWantAction → InvWantMesh → Prop :=
  | reach_new : reach o 0 [] (mesh_new o)
  | reach_step clock trace m now op :
      reach o clock trace m → clock ≤ now → now ≤ u64_max → op_ok op →
      reach o now (trace ++ (run_op op now m).1) (run_op op now m).2.

Lemma run_op_inv `{!NostrLaws _} op now m :
  now ≤ u64_max → op_ok op → mesh_inv m → mesh_inv (run_op op now m).2.
Proof.
  intros Hnow Hop Hm. destruct op; simpl in *.
  - by apply publish_inv.
  - by apply publish_verified_inv.
  - by apply seed_verified_inv.
  - by apply replay_to_peer_inv.
  - by apply replay_verified_to_peer_inv.
  - by apply prune_inv.
  - by apply receive_inv.
  - by apply receive_verified_frame_inv.
  - by apply prune_inv.
  - by apply dismiss_frame_inv.
  - by apply record_transport_disruption_inv.
  - by apply record_invalid_message_inv.
Qed.

Lemma reach_inv `{!NostrLaws _} o clock trace m :
  options_typed (normalize_options o) → reach o clock trace m → mesh_inv m.
Proof.
  intros Ho. induction 1; [by apply mesh_new_inv|]. by apply run_op_inv.
Qed.

(** ** What the operations send *)

(** A [Send] to [peer] of anything but a request or a body, or the request
    of an event. *)
Definition inventory_action (a : InvWantAction) : Prop :=
  ∃ peer id kind bytes hops, a = Send peer (Inventory id kind bytes hops).

Lemma send_to_selected_peers_elem m peers ex msg a :
  a ∈ send_to_selected_peers m peers ex msg → ∃ peer, a = Send peer msg.
Proof.
  unfold send_to_selected_peers. intros (p & -> & _)%list_elem_of_fmap. by eexists.
Qed.

(** A body may be sent or delivered when it is a verified event, of an
    allowed kind and size, under its own identifier. *)
Definition body_ok (o : InvWantMeshOptions) (event : Event) : Prop :=
  ∃ payload, storable o event payload.
Definition action_ok (o : InvWantMeshOptions) (a : InvWantAction) : Prop :=
  match a with
  | Deliver _ event => body_ok o event
  | Send _ (Frame id event) => id = event_id_to_hex (event_id event) ∧ body_ok o event
  | Send _ _ => True
  end.

Lemma inventory_action_ok o a : inventory_action a → action_ok o a.
Proof. by intros (? & ? & ? & ? & ? & ->). Qed.

(** Each operation's effect on requests: a provider of a route either was
    one before or is sent a request by this operation. *)
Definition requests_from m' m (actions : list InvWantAction) : Prop :=
  ∀ id r', upstream_routes m' !! id = Some r' → ∀ p, route_provider r' p →
    (∃ r, upstream_routes m !! id = Some r ∧ route_provider r p) ∨
    Send p (Want id) ∈ actions.

Lemma routes_from_requests m' m actions : routes_from m' m → requests_from m' m actions.
Proof. intros Hr id r' Hr' p Hp. left. destruct (Hr id r' Hr') as (r & ? & ?). eauto. Qed.
Lemma requests_from_trans m1 m2 m3 actions :
  requests_from m1 m2 actions → routes_from m2 m3 → requests_from m1 m3 actions.
Proof.
  intros H12 H23 id r1 Hr1 p Hp.
  destruct (H12 id r1 Hr1 p Hp) as [(r2 & Hr2 & Hp2)|]; [|by right].
  left. destruct (H23 id r2 Hr2) as (r3 & ? & ?). eauto.
Qed.
Lemma requests_from_trans_l m1 m2 m3 actions :
  routes_from m1 m2 → requests_from m2 m3 actions → requests_from m1 m3 actions.
Proof.
  intros H12 H23 id r1 Hr1 p Hp. destruct (H12 id r1 Hr1) as (r2 & Hr2 & Hp2). eauto.
Qed.

(** ** One operation's effect *)
Record effect m (actions : list InvWantAction) m' : Prop := {
  ef_options : options m' = options m;
  ef_requests : requests_from m' m actions;
  ef_actions : Forall (action_ok (options m)) actions;
  ef_deliver src event : Deliver src event ∈ actions →
    ∃ r, upstream_routes m !! event_id_to_hex (event_id event) = Some r ∧
         route_provider r src;
}.

Lemma effect_quiet m actions m' :
  options m' = options m → routes_from m' m →
  (∀ a, a ∈ actions → inventory_action a) → effect m actions m'.
Proof.
  intros Ho Hr Ha. split; [done|by apply routes_from_requests| |].
  - apply Forall_forall. intros a Hin. by apply inventory_action_ok, Ha.
  - intros src e Hin. destruct (Ha _ Hin) as (? & ? & ? & ? & ? & [=]).
Qed.
Lemma effect_pre m m1 actions m' :
  options m1 = options m → routes_from m1 m → effect m1 actions m' → effect m actions m'.
Proof.
  intros Ho Hr [E1 E2 E3 E4]. split.
  - congruence.
  - by eapply requests_from_trans.
  - by rewrite <-Ho.
  - intros src e Hin. destruct (E4 src e Hin) as (r & Hr1 & Hp).
    destruct (Hr _ _ Hr1) as (r0 & ? & ?). eauto.
Qed.
Lemma effect_post m actions m1 m' :
  options m' = options m1 → routes_from m' m1 → effect m actions m1 → effect m actions m'.
Proof.
  intros Ho Hr [E1 E2 E3 E4]. split; [congruence|by eapply requests_from_trans_l|done|done].
Qed.
Lemma effect_prune now m actions m' :
  effect (prune now m) actions m' → effect m actions m'.
Proof.
  apply effect_pre; [apply prune_options|]. apply routes_from_subseteq, prune_routes_subseteq.
Qed.

Lemma store_event_effect event payload now m :
  effect m [] (store_event event payload now m).
Proof.
  apply effect_quiet; [apply store_event_options| |set_solver].
  apply routes_from_eq, store_event_frame.
Qed.

Lemma publish_validated_effect event id payload peers now m :
  effect m (ok_actions (publish_validated event id payload peers now m).1)
    (publish_validated event id payload peers now m).2.
Proof.
  unfold publish_validated. set (m1 := store_event event payload now m).
  destruct (remember_inventory_frame id now m1) as (Hr & _ & _).
  pose proof (remember_inventory_options id now m1) as Ho.
  destruct (remember_inventory id now m1) as [fresh m2] eqn:Hrem; simpl in Hr, Ho.
  assert (effect m [] m2) as Hq.
  { eapply effect_post; [done|by apply routes_from_subseteq|apply store_event_effect]. }
  destruct fresh; simpl; [|done].
  apply effect_quiet; [apply Hq| |].
  - destruct Hq as [_ Hreq _ _]. intros j r' Hr'. specialize (Hreq j r' Hr').
    destruct (store_event_frame event payload now m) as (_ & _ & Hu & _).
    exists r'. split; [|done]. rewrite <-Hu. by eapply lookup_weaken.
  - intros a Ha. apply send_to_selected_peers_elem in Ha as [peer ->].
    by repeat eexists.
Qed.

Lemma receive_inventory_effect src inv now m :
  effect m (ok_actions (receive_inventory src inv now m).1)
    (receive_inventory src inv now m).2.
Proof.
  assert (∀ m', options m' = options m → routes_from m' m → effect m [] m') as Hquiet.
  { intros. apply effect_quiet; [done..|]. set_solver. }
  assert (∀ m', options m' = options m →
    requests_from m' m [Send src (Want (ri_event_id inv))] →
    effect m [Send src (Want (ri_event_id inv))] m') as Hwant.
  { intros m' Ho Hr. split; [done|done| |].
    - apply Forall_singleton. done.
    - intros s e [=]%list_elem_of_singleton. }
  unfold receive_inventory.
  destruct (_ ← validate_event_id _; _) as [u|] eqn:Hval; simpl; [|by apply Hquiet].
  case_decide; [by apply Hquiet|]. case_decide; [by apply Hquiet|].
  case_decide; [by apply Hquiet|].
  destruct (remember_inventory_frame (ri_event_id inv) now m) as (Hr & _ & _).
  pose proof (remember_inventory_options (ri_event_id inv) now m) as Ho.
  destruct (remember_inventory _ now m) as [[] m1] eqn:Hrem; simpl in *.
  { apply Hwant; [done|]. intros j r' Hj p Hp. simpl in Hj.
    destruct (upstream_routes m1 !! ri_event_id inv) as [r|] eqn:Hr1.
    - left. exists r'. split; [by eapply lookup_weaken|done].
    - apply lookup_insert_Some in Hj as [[<- <-]|[Hne Hj]].
      + right. destruct Hp as [<-|Hin]; [by left|set_solver].
      + left. exists r'. split; [by eapply lookup_weaken|done]. }
  apply remember_inventory_false in Hrem as (-> & _).
  destruct (upstream_routes m !! ri_event_id inv) as [r|] eqn:Hr1; simpl; [|by apply Hquiet].
  destruct (ur_fulfilled r); simpl; [by apply Hquiet|].
  case_decide; simpl; [by apply Hquiet|].
  case_decide as Hprov; simpl; [|case_decide; simpl].
  - apply Hwant; [done|]. rewrite insert_insert_eq. apply routes_from_requests.
    intros j r' Hj. simpl in Hj. apply lookup_insert_Some in Hj as [[<- <-]|[Hne Hj]]; eauto.
  - apply Hquiet; [done|]. intros j r' Hj. simpl in Hj.
    apply lookup_insert_Some in Hj as [[<- <-]|[Hne Hj]]; eauto.
  - apply Hwant; [done|]. rewrite insert_insert_eq. intros j r' Hj p Hp. simpl in Hj.
    apply lookup_insert_Some in Hj as [[<- <-]|[Hne Hj]]; [|eauto].
    destruct Hp as [Hp|[->%elem_of_singleton|Hp]%elem_of_union].
    + left. exists r. split; [done|by left].
    + right. by left.
    + left. exists r. split; [done|by right].
Qed.

Lemma receive_want_effect src id now m :
  mesh_inv m →
  effect m (ok_actions (receive_want src id now m).1) (receive_want src id now m).2.
Proof.
  intros Hm. unfold receive_want.
  destruct (validate_event_id id); simpl; [|apply effect_quiet; [done..|set_solver]].
  destruct (cached_events m !! id) as [c|] eqn:Hc; simpl.
  { split; [done|by apply routes_from_requests| |].
    - apply Forall_singleton. simpl.
      destruct (ci_entry _ _ _ _ (mi_cache m Hm) id c Hc). split; [done|].
      exists (ce_payload_bytes c). by split.
    - intros s e [=]%list_elem_of_singleton. }
  destruct (upstream_routes m !! id) as [r|] eqn:Hr; simpl;
    [|apply effect_quiet; [done..|set_solver]].
  destruct (ur_fulfilled r); simpl; [apply effect_quiet; [done..|set_solver]|].
  destruct (add_pending_frame src id now m) as (Hur & Hwf & Hopt & _).
  destruct (is_some_and _ _); simpl.
  { apply effect_quiet; [done|by apply routes_from_eq|set_solver]. }
  split; simpl; [done| | |].
  - apply routes_from_requests. intros j r' Hj. simpl in Hj. rewrite Hur in Hj.
    apply lookup_insert_Some in Hj as [[<- <-]|[Hne Hj]]; eauto.
  - by apply Forall_singleton.
  - intros s e [=]%list_elem_of_singleton.
Qed.

Lemma accept_frame_effect src id event route payload peers now m :
  id = event_id_to_hex (event_id event) → body_ok (options m) event →
  upstream_routes m !! id = Some route → route_provider route src →
  effect m (accept_frame src id event route payload peers now m).1
    (accept_frame src id event route payload peers now m).2.
Proof.
  intros Hid Hb Hr Hp. unfold accept_frame.
  set (m1 := record_peer_behavior src VALID_FRAME_REWARD ValidFrame m).
  set (m2 := store_event event payload now m1).
  set (m3 := fulfil_route id m2).
  destruct (remember_delivered_frame id now m3) as (Hu4 & _ & Ho4).
  destruct (remember_delivered id now m3) as [first m4]. simpl in Hu4, Ho4.
  destruct (remove_pending_frame id m4) as (Hu5 & Ho5 & _).
  destruct (remove_pending_event id m4) as [pending m5]. simpl in *.
  destruct (record_peer_behavior_frame src VALID_FRAME_REWARD ValidFrame m)
    as (Ho1 & _ & _ & _ & Hu1 & _). fold m1 in Ho1, Hu1.
  destruct (store_event_frame event payload now m1) as (_ & _ & Hu2 & _). fold m2 in Hu2.
  destruct (fulfil_route_frame id m2) as (Hr3 & Ho3 & _). fold m3 in Hr3, Ho3.
  assert (options m5 = options m) as Hopt.
  { rewrite Ho5, Ho4, Ho3. unfold m2. by rewrite store_event_options. }
  assert (routes_from m5 m) as Hroutes.
  { transitivity m3; [by apply routes_from_eq; rewrite Hu5, Hu4|].
    transitivity m2; [exact Hr3|]. apply routes_from_eq. by rewrite Hu2. }
  split; [done|by apply routes_from_requests| |].
  - rewrite !Forall_app. split_and!.
    + destruct first; constructor; done.
    + destruct pending as [q|]; [|constructor]. apply Forall_fmap, Forall_true. done.
    + case_decide; [|constructor]. apply Forall_forall.
      by intros a [peer ->]%send_to_selected_peers_elem.
  - intros s e. rewrite !elem_of_app. intros [Hin|[Hin|Hin]].
    + destruct first; [|set_solver]. apply list_elem_of_singleton in Hin as [= -> ->].
      rewrite <-Hid. eauto.
    + destruct pending; [|set_solver]. by apply list_elem_of_fmap in Hin as (? & [=] & _).
    + case_decide; [|set_solver]. by apply send_to_selected_peers_elem in Hin as [? [=]].
Qed.

Lemma receive_frame_effect src id event peers now verify m :
  (verify = false → verified event) →
  effect m (ok_actions (receive_frame src id event peers now verify m).1)
    (receive_frame src id event peers now verify m).2.
Proof.
  intros Hver. unfold receive_frame.
  destruct (check_frame _ _ _ _ _) as [[route payload]|] eqn:Hc; simpl;
    [|apply effect_quiet; [done..|set_solver]].
  apply check_frame_Ok in Hc as (_ & Hr & _ & Hp & Hv & Hval & _).
  destruct (ur_fulfilled route); simpl; [apply effect_quiet; [done..|set_solver]|].
  assert (verified event) as Hev by (destruct verify; auto).
  destruct (validate_storable m event id payload Hev Hval) as [Hid Hst].
  pose proof (accept_frame_effect src id event route payload peers now m Hid
    ltac:(by eexists) Hr Hp) as Ha.
  by destruct (accept_frame _ _ _ _ _ _ _ _).
Qed.

Lemma penalize_error_effect src (c : SE InvWantMesh PubsubError (list InvWantAction)) m :
  effect m (ok_actions (c m).1) (c m).2 →
  effect m (ok_actions (penalize_error src c m).1) (penalize_error src c m).2.
Proof.
  unfold penalize_error. destruct (c m) as [r m']. simpl. intros He.
  destruct (is_err r); [|done].
  destruct (record_peer_behavior_frame src INVALID_MESSAGE_PENALTY InvalidMessage m')
    as (Ho & _ & _ & _ & Hu & _).
  eapply effect_post; [exact Ho|by apply routes_from_eq|done].
Qed.
End mesh_spec.
