(* ===== verification/MeshSched.v ===== *)
(** * The inventory/want mesh: the maintenance schedule

    [prune] does nothing before [next_prune_at_ms]. This file shows that the
    schedule never lags behind the earliest expiry, as long as operations
    come at non-decreasing times, so that maintenance at [now] removes
    everything that expired by then. *)

From S2P Require Export MeshSpec.

Section mesh_sched.
Context `{!Nostr, !HashOrder}.
Implicit Types m : InvWantMesh.

(** An expiry the schedule has to respect. *)
Definition tracked m (e : N) : Prop :=
  (∃ id c, cached_events m !! id = Some c ∧ ce_expires_at_ms c = e) ∨
  (∃ id, seen_inventories m !! id = Some e) ∨
  (∃ id, delivered_events m !! id = Some e) ∨
  (∃ id r, upstream_routes m !! id = Some r ∧ ur_expires_at_ms r = e).

Lemma tracked_expiries_elem m e : e ∈ tracked_expiries m ↔ tracked m e.
Proof.
  unfold tracked_expiries, tracked. rewrite !elem_of_app, !list_elem_of_fmap.
  setoid_rewrite hash_values_elem. naive_solver.
Qed.

Lemma list_min_le l x : x ∈ l → ∃ p, list_min l = Some p ∧ p ≤ x.
Proof.
  destruct l as [|y l]; [set_solver|]. simpl. intros Hx. eexists. split; [done|].
  assert (∀ a, foldl N.min a l ≤ a ∧ ∀ x, x ∈ l → foldl N.min a l ≤ x) as Hfold.
  { clear. induction l as [|z l IH]; intros a; simpl; [split; [done|set_solver]|].
    destruct (IH (a `min` z)) as [Ha Hl]. split; [lia|].
    intros x [->|Hin]%elem_of_cons; [lia|auto]. }
  destruct (Hfold y) as [Hy Hl]. apply elem_of_cons in Hx as [->|Hin]; auto.
Qed.

Definition scheduled m (e : N) : Prop := ∃ p, next_prune_at_ms m = Some p ∧ p ≤ e.
Definition sched_ok m : Prop := ∀ e, tracked m e → scheduled m e.
(** No seen inventory lives longer than a route lifetime from [clock]. *)
Definition seen_clock (clock : N) m : Prop :=
  ∀ id e, seen_inventories m !! id = Some e →
    e ≤ u64_sat_add clock (route_ttl_ms (options m)).

(** A change at time [now] that tracks what it adds. *)
Record sched_le (now : N) m m' : Prop := {
  sl_options : options m' = options m;
  sl_tracked e : tracked m' e → tracked m e ∨ scheduled m' e;
  sl_next e : scheduled m e → scheduled m' e;
  sl_seen id e : seen_inventories m' !! id = Some e →
    seen_inventories m !! id = Some e ∨ e = u64_sat_add now (route_ttl_ms (options m));
}.
#[export] Instance sched_le_preorder now : PreOrder (sched_le now).
Proof.
  split.
  - intros m. split; auto.
  - intros m1 m2 m3 [O12 T12 N12 S12] [O23 T23 N23 S23]. split.
    + congruence.
    + intros e He. destruct (T23 e He) as [He2|]; [|by right].
      destruct (T12 e He2); auto.
    + auto.
    + intros id e He. destruct (S23 id e He) as [He2|He2]; [auto|].
      right. by rewrite He2, O12.
Qed.

Lemma sched_le_ok now m m' : sched_le now m m' → sched_ok m → sched_ok m'.
Proof. intros [] Hok e He. destruct (sl_tracked0 e He); auto. Qed.
Lemma sched_le_clock clock now m m' :
  sched_le now m m' → clock ≤ now → seen_clock clock m → seen_clock now m'.
Proof.
  intros [Ho _ _ Hs] Hle Hc id e He. rewrite Ho.
  destruct (Hs id e He) as [He'| ->]; [|done].
  specialize (Hc id e He'). unfold u64_sat_add, sat_add in *. lia.
Qed.

(** A change that tracks nothing new and keeps the schedule. *)
Lemma sched_le_shrink now m m' :
  options m' = options m → next_prune_at_ms m' = next_prune_at_ms m →
  cached_events m' ⊆ cached_events m → seen_inventories m' ⊆ seen_inventories m →
  delivered_events m' ⊆ delivered_events m →
  (∀ id r, upstream_routes m' !! id = Some r →
    ∃ r0, upstream_routes m !! id = Some r0 ∧ ur_expires_at_ms r0 = ur_expires_at_ms r) →
  sched_le now m m'.
Proof.
  intros Ho Hn Hc Hs Hd Hr. split; [done| | |].
  - intros e [(id & c & Hid & He)|[(id & Hid)|[(id & Hid)|(id & r & Hid & He)]]]; left.
    + left. exists id, c. split; [by eapply lookup_weaken|done].
    + right. left. exists id. by eapply lookup_weaken.
    + do 2 right. left. exists id. by eapply lookup_weaken.
    + do 3 right. destruct (Hr id r Hid) as (r0 & Hr0 & He0). exists id, r0.
      split; [done|congruence].
  - intros e. unfold scheduled. by rewrite Hn.
  - intros id e He. left. by eapply lookup_weaken.
Qed.
Lemma sched_le_track now e m : sched_le now m (track_expiry e m).
Proof.
  split; [done|by left| |by left].
  intros e' (p & Hp & Hle). exists (p `min` e). unfold track_expiry. simpl.
  rewrite Hp. split; [done|lia].
Qed.
Lemma track_expiry_scheduled e m : scheduled (track_expiry e m) e.
Proof.
  unfold scheduled, track_expiry. simpl.
  destruct (next_prune_at_ms m) as [p|]; eexists; (split; [done|lia]).
Qed.

Lemma same_routes m m' :
  upstream_routes m' = upstream_routes m →
  ∀ id r, upstream_routes m' !! id = Some r →
    ∃ r0, upstream_routes m !! id = Some r0 ∧ ur_expires_at_ms r0 = ur_expires_at_ms r.
Proof. intros -> id r Hr. eauto. Qed.

Lemma record_peer_behavior_sched now p d ev m : sched_le now m (record_peer_behavior p d ev m).
Proof.
  destruct (record_peer_behavior_frame p d ev m) as (? & Hc & Hs & Hd & Hu & _ & Hn).
  apply sched_le_shrink; [done|done|by rewrite Hc|by rewrite Hs|by rewrite Hd|].
  by apply same_routes.
Qed.

Lemma store_event_sched event payload now m :
  sched_le now m (store_event event payload now m).
Proof.
  pose proof (store_event_options event payload now m) as Ho.
  destruct (store_event_frame event payload now m) as (Hs & Hd & Hu & _).
  set (e := u64_sat_add now (event_ttl_ms (options m))).
  set (id := event_id_to_hex (event_id event)).
  assert (∃ m1, store_event event payload now m = track_expiry e m1 ∧
    next_prune_at_ms m1 = next_prune_at_ms m ∧
    ∀ j c, cached_events m1 !! j = Some c →
      cached_events m !! j = Some c ∨ ce_expires_at_ms c = e) as (m1 & Heq & Hn & Hc).
  { unfold store_event. fold id. destruct (cached_events m !! id) eqn:Hid; eexists;
      (split; [reflexivity|]); simpl.
    - split; [done|]. intros j c' [[<- <-]|[_ ?]]%lookup_insert_Some; auto.
    - destruct (evict_until_fits_frame (S (length (cache_order m))) payload m)
        as (Hsub & _ & _ & _ & _ & Hn). split; [exact Hn|].
      intros j c' [[<- <-]|[_ ?]]%lookup_insert_Some; [by right|].
      left. by eapply lookup_weaken. }
  split; [done| | |].
  - intros e' [(j & c & Hj & He)|Hrest].
    + rewrite Heq in Hj. simpl in Hj. destruct (Hc j c Hj) as [Hj'|He'].
      * left. left. eauto.
      * right. rewrite Heq, <-He, He'. apply track_expiry_scheduled.
    + left. right. by rewrite Hs, Hd, Hu in Hrest.
  - intros e' He'. rewrite Heq. apply (sched_le_track now).
    unfold scheduled. by rewrite Hn.
  - intros j e'. rewrite Hs. auto.
Qed.

Lemma remember_delivered_sched id now m : sched_le now m (remember_delivered id now m).2.
Proof.
  unfold remember_delivered. destruct (delivered_events m !! id); [done|].
  pose proof (evict_oldest_subseteq (max_seen_events (options m))
    (delivered_order m) (delivered_events m)) as Hs.
  destruct (evict_oldest _ _ _) as [order delivered]; simpl in *.
  set (m1 := set_delivered_events _ _). set (e := u64_sat_add _ _).
  split; [done| | |by left].
  - intros e' [Hc|[Hc|[(j & Hj)|Hc]]].
    { left. left. exact Hc. } { left. right. left. exact Hc. }
    2: { left. do 3 right. exact Hc. }
    simpl in Hj. apply lookup_insert_Some in Hj as [[<- <-]|[_ Hj]].
    + right. apply track_expiry_scheduled.
    + left. do 2 right. left. exists j. by eapply lookup_weaken.
  - intros e' He'. by apply (sched_le_track now).
Qed.

Lemma remove_pending_sched now id m : sched_le now m (remove_pending_event id m).2.
Proof.
  destruct (remove_pending_frame id m) as (Hu & Ho & Hs & Hc & Hd & Hn).
  apply sched_le_shrink; [done|done|by rewrite Hc|by rewrite Hs|by rewrite Hd|].
  by apply same_routes.
Qed.

Lemma evict_seen_sched now m : sched_le now m (evict_seen (seen_order m) m).
Proof.
  destruct (evict_seen_frame (seen_order m) m) as (Hu & Hc & Hd & Hn).
  apply sched_le_shrink; [apply evict_seen_options|done|by rewrite Hc| |by rewrite Hd|].
  - apply evict_seen_subseteq.
  - intros id r Hr. exists r. split; [by eapply lookup_weaken|done].
Qed.
Lemma remember_inventory_sched id now m : sched_le now m (remember_inventory id now m).2.
Proof.
  unfold remember_inventory. destruct (is_some_and _ _); [done|]. simpl.
  set (m1 := match seen_inventories m !! id with Some _ => m | None => _ end).
  assert (sched_le now m m1) as H1.
  { unfold m1. destruct (seen_inventories m !! id); [done|].
    etrans; [apply evict_seen_sched|].
    apply sched_le_shrink; try done. intros j r Hr. eauto. }
  etrans; [exact H1|]. clearbody m1. set (e := u64_sat_add _ _). split; [done| | |].
  - intros e' [Hc|[(j & Hj)|Hc]].
    { left. left. exact Hc. } 2: { left. do 2 right. exact Hc. }
    simpl in Hj. apply lookup_insert_Some in Hj as [[<- <-]|[_ Hj]].
    + right. apply track_expiry_scheduled.
    + left. right. left. eauto.
  - intros e' He'. by apply (sched_le_track now).
  - intros j e' Hj. simpl in Hj. apply lookup_insert_Some in Hj as [[<- <-]|[_ Hj]]; auto.
Qed.

(** Replacing a route by one with the same expiry. *)
Lemma set_route_sched now id r r0 m :
  upstream_routes m !! id = Some r0 → ur_expires_at_ms r = ur_expires_at_ms r0 →
  sched_le now m (set_upstream_routes (<[id := r]> (upstream_routes m)) m).
Proof.
  intros Hr0 He. apply sched_le_shrink; try done.
  intros j r' Hj. simpl in Hj. apply lookup_insert_Some in Hj as [[<- <-]|[_ Hj]]; eauto.
Qed.
Lemma set_forwarded_sched now fwd m : sched_le now m (set_want_forwarded fwd m).
Proof. apply sched_le_shrink; try done. intros id r Hr. eauto. Qed.

(** Pruning reschedules, and leaves nothing that expired. *)
Lemma prune_sched now m :
  sched_ok m →
  sched_ok (prune now m) ∧ (∀ e, tracked (prune now m) e → now < e) ∧
  (∀ id e, seen_inventories (prune now m) !! id = Some e →
    seen_inventories m !! id = Some e).
Proof.
  intros Hok. unfold prune. destruct (next_prune_at_ms m) as [p|] eqn:Hn.
  2:{ split_and!; [done| |done]. intros e He.
      destruct (Hok e He) as (p & Hp & _). congruence. }
  case_decide as Hlt.
  { split_and!; [done| |done]. intros e He.
    destruct (Hok e He) as (p' & Hp & ?). simplify_eq. lia. }
  unfold prune_expired.
  set (m1 := prune_routing now (prune_cached_events now (penalize_unserved now m))).
  split_and!.
  - intros e He. unfold scheduled. simpl. apply list_min_le, tracked_expiries_elem, He.
  - intros e [(id & c & Hid & <-)|[(id & Hid)|[(id & Hid)|(id & r & Hid & <-)]]];
      simpl in Hid; apply map_lookup_filter_Some in Hid; simpl in Hid; tauto.
  - intros id e Hid. simpl in Hid. apply map_lookup_filter_Some in Hid as [Hid _].
    destruct (penalize_unserved_frame now m) as (_ & _ & <- & _). exact Hid.
Qed.

(** ** The operations keep the schedule *)
Definition sched_inv (clock : N) m : Prop := sched_ok m ∧ seen_clock clock m.

Lemma sched_le_inv clock now m m' :
  sched_le now m m' → clock ≤ now → sched_inv clock m → sched_inv now m'.
Proof. intros Hle Hc [Hok Hs]. split; [by eapply sched_le_ok|by eapply sched_le_clock]. Qed.
Lemma prune_sched_inv clock now m :
  clock ≤ now → sched_inv clock m → sched_inv now (prune now m).
Proof.
  intros Hc [Hok Hs]. destruct (prune_sched now m Hok) as (? & _ & Hseen).
  split; [done|]. intros id e He. rewrite prune_options.
  specialize (Hs id e (Hseen id e He)). unfold u64_sat_add, sat_add in *. lia.
Qed.

Lemma add_pending_sched now src id m : sched_le now m (add_pending src id now m).
Proof.
  unfold add_pending. case_decide; (apply sched_le_shrink; [done..|]);
    apply same_routes; done.
Qed.
Lemma fulfil_route_sched now id m : sched_le now m (fulfil_route id m).
Proof.
  unfold fulfil_route. destruct (upstream_routes m !! id) eqn:Hr; [|done].
  by eapply set_route_sched.
Qed.
Lemma dismiss_frame_sched now peer id m : sched_le now m (dismiss_frame peer id m).
Proof.
  unfold dismiss_frame. destruct (upstream_routes m !! id) as [r|] eqn:Hr; [|done].
  case_decide; [|done]. etrans; [|apply remove_pending_sched].
  by eapply set_route_sched.
Qed.
Lemma record_transport_disruption_sched now peer id m :
  sched_le now m (record_transport_disruption peer id m).2.
Proof.
  unfold record_transport_disruption.
  destruct (upstream_routes m !! id) as [r|] eqn:Hr; [|done].
  case_decide; [|done]. by eapply set_route_sched.
Qed.
Lemma publish_validated_sched event id payload peers now m :
  sched_le now m (publish_validated event id payload peers now m).2.
Proof.
  unfold publish_validated.
  assert (sched_le now m
    (remember_inventory id now (store_event event payload now m)).2) as Hs
    by (etrans; [apply store_event_sched|apply remember_inventory_sched]).
  by destruct (remember_inventory _ _ _) as [[] m'].
Qed.
Lemma receive_want_sched src id now m : sched_le now m (receive_want src id now m).2.
Proof.
  unfold receive_want. destruct (validate_event_id id); [|done].
  destruct (cached_events m !! id); [done|].
  destruct (upstream_routes m !! id) as [r|] eqn:Hr; [|done].
  destruct (ur_fulfilled r); [done|].
  destruct (add_pending_frame src id now m) as (Hur & _).
  destruct (is_some_and _ _); simpl; [apply add_pending_sched|].
  etrans; [apply (add_pending_sched now src id)|].
  etrans; [|apply set_forwarded_sched].
  eapply set_route_sched; [rewrite Hur; exact Hr|done].
Qed.
Lemma accept_frame_sched src id event route payload peers now m :
  sched_le now m (accept_frame src id event route payload peers now m).2.
Proof.
  unfold accept_frame. set (m3 := fulfil_route id _).
  assert (sched_le now m m3) as H3.
  { etrans; [apply (record_peer_behavior_sched now src VALID_FRAME_REWARD ValidFrame)|].
    etrans; [apply store_event_sched|apply fulfil_route_sched]. }
  pose proof (remember_delivered_sched id now m3) as H4.
  destruct (remember_delivered id now m3) as [first m4].
  pose proof (remove_pending_sched now id m4) as H5.
  destruct (remove_pending_event id m4) as [pending m5].
  etrans; [exact H3|]. by etrans.
Qed.
Lemma receive_frame_sched src id event peers now verify m :
  sched_le now m (receive_frame src id event peers now verify m).2.
Proof.
  unfold receive_frame. destruct (check_frame _ _ _ _ _) as [[route payload]|]; [|done].
  destruct (ur_fulfilled route); [done|].
  pose proof (accept_frame_sched src id event route payload peers now m) as Hs.
  by destruct (accept_frame _ _ _ _ _ _ _ _).
Qed.

(** The route a fresh inventory opens expires with the inventory, which
    [remember_inventory] has just scheduled. *)
Lemma remember_inventory_scheduled id now m m' :
  remember_inventory id now m = (true, m') →
  scheduled m' (u64_sat_add now (route_ttl_ms (options m'))).
Proof.
  intros Hrem. pose proof (remember_inventory_options id now m) as Ho.
  revert Hrem Ho. unfold remember_inventory. destruct (is_some_and _ _); [done|].
  intros [= <-] Ho. apply track_expiry_scheduled.
Qed.
Lemma open_route_sched now id r m :
  upstream_routes m !! id = None → scheduled m (ur_expires_at_ms r) →
  sched_le now m (set_upstream_routes (<[id := r]> (upstream_routes m)) m).
Proof.
  intros Hid Hsch. split; [done| | |by left]; [|done].
  intros e [Hc|[Hc|[Hc|(j & r' & Hj & He)]]].
  - left. left. exact Hc.
  - left. right. left. exact Hc.
  - left. do 2 right. left. exact Hc.
  - simpl in Hj. apply lookup_insert_Some in Hj as [[<- <-]|[_ Hj]].
    + right. rewrite <-He. exact Hsch.
    + left. do 3 right. eauto.
Qed.

(** A new provider extends the route and the inventory together; the
    schedule already covers the earlier expiry of the inventory. *)
Lemma extend_route_sched now id r e0 fwd m :
  seen_inventories m !! id = Some e0 →
  sched_ok m → e0 ≤ ur_expires_at_ms r →
  ur_expires_at_ms r = u64_sat_add now (route_ttl_ms (options m)) →
  sched_le now m (set_upstream_routes (<[id := r]> (upstream_routes m))
    (set_want_forwarded fwd
      (set_seen_inventories (<[id := ur_expires_at_ms r]> (seen_inventories m)) m))).
Proof.
  intros Hs Hok Hle He.
  assert (scheduled m (ur_expires_at_ms r)) as Hsch.
  { destruct (Hok e0) as (p & Hp & ?); [right; left; eauto|].
    exists p. split; [done|lia]. }
  split; [done| |done|].
  - intros e [Hc|[(j & Hj)|[Hc|(j & r' & Hj & He')]]].
    + left. left. exact Hc.
    + simpl in Hj. apply lookup_insert_Some in Hj as [[<- <-]|[_ Hj]].
      * right. exact Hsch.
      * left. right. left. eauto.
    + left. do 2 right. left. exact Hc.
    + simpl in Hj. apply lookup_insert_Some in Hj as [[<- <-]|[_ Hj]].
      * right. rewrite <-He'. exact Hsch.
      * left. do 3 right. eauto.
  - intros j e Hj. simpl in Hj. apply lookup_insert_Some in Hj as [[<- <-]|[_ Hj]]; auto.
Qed.

Lemma receive_inventory_sched clock src inv now m :
  sched_inv clock m → clock ≤ now → sched_le now m (receive_inventory src inv now m).2.
Proof.
  intros [Hok Hclock] Hle. unfold receive_inventory. set (id := ri_event_id inv).
  destruct (_ ← validate_event_id _; _) as [u|]; simpl; [|done].
  case_decide; [done|]. case_decide; [done|]. case_decide; [done|].
  pose proof (remember_inventory_sched id now m) as Hrem.
  destruct (remember_inventory id now m) as [[] m1] eqn:Heq; simpl in *.
  { apply remember_inventory_scheduled in Heq. etrans; [exact Hrem|].
    etrans; [|apply set_forwarded_sched].
    destruct (upstream_routes m1 !! id) eqn:Hr.
    - apply sched_le_shrink; try done. intros j r' Hj. eauto.
    - by apply open_route_sched. }
  apply remember_inventory_false in Heq as (-> & e0 & He0 & _).
  destruct (upstream_routes m !! id) as [r|] eqn:Hr; simpl; [|done].
  destruct (ur_fulfilled r); simpl; [done|]. case_decide; simpl; [done|].
  set (r1 := route_set_hop_limit _ r). set (m1 := set_upstream_routes _ m).
  assert (sched_le now m m1) as Hle1 by (by eapply set_route_sched).
  assert (upstream_routes m1 !! id = Some r1) as Hroute1 by apply lookup_insert_eq.
  case_decide; simpl; [|case_decide; simpl; [done|]]; (etrans; [exact Hle1|]).
  - by eapply set_route_sched.
  - set (ext := u64_sat_add now (route_ttl_ms (options m))).
    set (r2 := route_set_disrupted (ur_transport_disrupted_peers r ∖ {[src]})
      (route_set_expires_at_ms ext
        (route_set_alternate_peers ({[src]} ∪ ur_alternate_peers r) r1))).
    refine (extend_route_sched now id r2 e0 (<[id := ext]> (want_forwarded m)) m1 He0 _ _ _).
    + by eapply sched_le_ok.
    + specialize (Hclock id e0 He0). unfold ext. simpl.
      unfold u64_sat_add, sat_add in *. lia.
    + done.
Qed.

Lemma se_prune_sched {A} clock now m (c : SE InvWantMesh PubsubError A) :
  clock ≤ now → sched_inv clock m →
  (∀ m', sched_inv now m' → sched_inv now (c m').2) →
  sched_inv now ((_ ← se_modify (prune now); c) m).2.
Proof. intros Hle Hm Hc. apply (Hc (prune now m)). by eapply prune_sched_inv. Qed.
Lemma penalize_error_sched {A} src (c : SE InvWantMesh PubsubError A) now m :
  sched_inv now (c m).2 → sched_inv now (penalize_error src c m).2.
Proof.
  unfold penalize_error. destruct (c m) as [r m']. simpl.
  destruct (is_err r); [|done]. apply sched_le_inv; [|done]. apply record_peer_behavior_sched.
Qed.
Lemma store_validated_sched {A} event (v : InvWantMesh → res (string * N))
    (k : string → N → SE InvWantMesh PubsubError A) now m :
  sched_inv now m →
  (∀ id payload m', sched_inv now m' → sched_inv now (k id payload m').2) →
  sched_inv now ((m ← se_get; '(id, payload) ← se_lift (v m);
    _ ← se_modify (store_event event payload now); k id payload) m).2.
Proof.
  intros Hm Hk. se_unfold. destruct (v m) as [[id payload]|]; [|done].
  apply Hk. eapply sched_le_inv; [apply store_event_sched|reflexivity|done].
Qed.

Lemma run_op_sched op clock now m :
  clock ≤ now → sched_inv clock m → sched_inv now (run_op op now m).2.
Proof.
  intros Hle Hm.
  assert (∀ m', sched_le now m m' → sched_inv now m') as Hstep
    by (intros m' Hm'; by eapply sched_le_inv).
  assert (∀ m1 m2, sched_le now m1 m2 → sched_inv now m1 → sched_inv now m2) as Hnow
    by (intros m1 m2 H12; by apply sched_le_inv).
  destruct op; simpl.
  - eapply se_prune_sched; [done..|]. intros m' Hm'. se_unfold.
    destruct (validate_event m' event) as [[id payload]|]; simpl; [|done].
    eapply Hnow; [apply publish_validated_sched|done].
  - eapply se_prune_sched; [done..|]. intros m' Hm'. se_unfold.
    destruct (validate_verified_event m' _) as [[id payload]|]; simpl; [|done].
    eapply Hnow; [apply publish_validated_sched|done].
  - eapply se_prune_sched; [done..|]. intros m' Hm'. se_unfold.
    destruct (validate_verified_event m' _) as [[id payload]|]; simpl; [|done].
    eapply Hnow; [apply store_event_sched|done].
  - eapply se_prune_sched; [done..|]. intros m' Hm'.
    by apply (store_validated_sched event (λ m, validate_event m event)).
  - eapply se_prune_sched; [done..|]. intros m' Hm'.
    by apply (store_validated_sched (as_event verified)
      (λ m, validate_verified_event m (as_event verified))).
  - by eapply prune_sched_inv.
  - eapply se_prune_sched; [done..|]. intros m' Hm'. apply penalize_error_sched.
    destruct message.
    + eapply Hnow; [by eapply receive_inventory_sched|done].
    + eapply Hnow; [apply receive_want_sched|done].
    + eapply Hnow; [apply receive_frame_sched|done].
  - eapply se_prune_sched; [done..|]. intros m' Hm'. apply penalize_error_sched.
    eapply Hnow; [apply receive_frame_sched|done].
  - by eapply prune_sched_inv.
  - apply Hstep, dismiss_frame_sched.
  - apply Hstep, record_transport_disruption_sched.
  - apply Hstep, record_peer_behavior_sched.
Qed.

Lemma reach_sched o clock trace m : reach o clock trace m → sched_inv clock m.
Proof.
  induction 1 as [|clock trace m now op _ IH Hle _ _]; [|by eapply run_op_sched].
  split; [|by intros id e He].
  intros e [(id & c & [=] & _)|[(id & [=])|[(id & [=])|(id & r & [=] & _)]]].
Qed.

(** Maintenance is on time: although [prune] is gated by the schedule
    [next_prune_at_ms], in every reachable state it removes everything
    that has expired by the time it runs, whatever operations ran before at
    times up to [clock]: cached bodies, seen inventories, delivery records
    and routes all outlive [now] afterwards. *)
Theorem maintain_on_time o clock trace m now :
  reach o clock trace m →
  ∀ e, e ∈ tracked_expiries (maintain now m) → now < e.
Proof.
  intros Hr e He. destruct (reach_sched _ _ _ _ Hr) as [Hok _].
  by apply (prune_sched now m Hok), tracked_expiries_elem.
Qed.
End mesh_sched.
