(* ===== verification/MeshProps.v ===== *)
(** * The inventory/want mesh: its theorems

    The properties of [InvWantMesh] as a whole, over every state a new mesh
    reaches by its public operations ([reach] of [MeshSpec]), each with a
    witness on the concrete [Toy] instance of the [nostr] interface. *)

From S2P Require Export MeshSched.

(** ** A concrete run

    A relay learns of event A from alice, bob asks for it, and alice's frame
    arrives. *)
Module Demo.
#[local] Existing Instance Toy.toy_nostr.
Definition id_a : string := Toy.toy_hex Toy.IdA.
Definition event_a : Event := Toy.toy_body Toy.IdA.
Definition alice : string := "alice".
Definition bob : string := "bob".
Definition carol : string := "carol".
Definition peers : list MeshPeer :=
  [MeshPeers.new alice; MeshPeers.observed bob 10; MeshPeers.new carol].
Definition announce : mesh_op := OpReceive alice (Inventory id_a 1 7 3) peers.
Definition ask : mesh_op := OpReceive bob (Want id_a) peers.
Definition answer : mesh_op := OpReceive alice (Frame id_a event_a) peers.
Definition m0 : InvWantMesh := mesh_new default_mesh_options.
Definition m1 : InvWantMesh := (run_op announce 10 m0).2.
Definition m2 : InvWantMesh := (run_op ask 11 m1).2.
Definition m3 : InvWantMesh := (run_op answer 12 m2).2.
Definition trace1 : list InvWantAction := [] ++ (run_op announce 10 m0).1.
Definition trace2 : list InvWantAction := trace1 ++ (run_op ask 11 m1).1.
Definition trace3 : list InvWantAction := trace2 ++ (run_op answer 12 m2).1.
Lemma reach1 : reach default_mesh_options 10 trace1 m1.
Proof. unfold trace1, m1. by apply (reach_step _ 0); [apply reach_new|..]. Defined.
Lemma reach2 : reach default_mesh_options 11 trace2 m2.
Proof. unfold trace2, m2. by apply (reach_step _ 10); [apply reach1|..]. Defined.
Lemma reach3 : reach default_mesh_options 12 trace3 m3.
Proof. unfold trace3, m3. by apply (reach_step _ 11); [apply reach2|..]. Defined.
Lemma trace3_eq : trace3 =
  [Send alice (Want id_a); Deliver alice event_a; Send bob (Frame id_a event_a);
   Send bob (Inventory id_a 1 7 2); Send carol (Inventory id_a 1 7 2)].
Proof. reflexivity. Defined.
End Demo.

Section mesh_props.
Context `{!Nostr, !HashOrder}.
Implicit Types m : InvWantMesh.

(** ** Every operation's effect *)
Lemma se_prune_effect (c : SE InvWantMesh PubsubError (list InvWantAction)) now m :
  effect (prune now m) (ok_actions (c (prune now m)).1) (c (prune now m)).2 →
  effect m (of_result ((_ ← se_modify (prune now); c) m)).1
    (of_result ((_ ← se_modify (prune now); c) m)).2.
Proof. apply (effect_prune now). Qed.
Lemma replay_items_quiet m peer order actions a :
  replay_items m peer order = Some actions → a ∈ actions → inventory_action a.
Proof.
  revert actions. induction order as [|id order IH]; intros actions; simpl.
  - intros [= <-]. set_solver.
  - destruct (cached_events m !! id); [|apply IH]. case_decide; [|done].
    destruct (replay_items m peer order) as [rest|]; [|done]. intros [= <-].
    intros [->|Ha]%elem_of_cons; [by repeat eexists|by eapply IH].
Qed.
Lemma quiet_frame_effect m m' :
  options m' = options m → routes_from m' m → effect m [] m'.
Proof. intros Ho Hr. apply effect_quiet; [done..|set_solver]. Qed.
Lemma dismiss_frame_effect peer id m : effect m [] (dismiss_frame peer id m).
Proof.
  unfold dismiss_frame. destruct (upstream_routes m !! id) as [r|] eqn:Hr;
    [|by apply quiet_frame_effect].
  case_decide; [|by apply quiet_frame_effect].
  destruct (remove_pending_frame id (set_upstream_routes
    (<[id := route_set_disrupted ∅ (route_set_fulfilled true r)]> (upstream_routes m)) m))
    as (Hu & Ho & _).
  apply quiet_frame_effect; [exact Ho|]. etrans; [by apply routes_from_eq|].
  apply routes_from_route; [|eauto]. intros r0 Hr0 p Hp. simplify_eq. exact Hp.
Qed.
Lemma record_transport_disruption_effect peer id m :
  effect m [] (record_transport_disruption peer id m).2.
Proof.
  unfold record_transport_disruption.
  destruct (upstream_routes m !! id) as [r|] eqn:Hr; [|by apply quiet_frame_effect].
  case_decide; [|by apply quiet_frame_effect]. apply quiet_frame_effect; [done|].
  apply routes_from_route; [|eauto]. intros r0 Hr0 p Hp. simplify_eq. exact Hp.
Qed.
Lemma replay_validated_effect event peer id payload now m :
  effect m (replay_inventory m event id payload peer) (store_event event payload now m).
Proof.
  apply effect_quiet; [apply store_event_options| |].
  - apply routes_from_eq, store_event_frame.
  - intros a ->%list_elem_of_singleton. by repeat eexists.
Qed.

Lemma run_op_effect `{!NostrLaws _} op now m :
  now ≤ u64_max → op_ok op → mesh_inv m → effect m (run_op op now m).1 (run_op op now m).2.
Proof.
  intros Hnow Hop Hm. pose proof (prune_inv now m Hm) as Hm'. destruct op; simpl in *.
  - apply se_prune_effect. se_unfold.
    destruct (validate_event _ event) as [[id payload]|]; [|by apply quiet_frame_effect].
    apply publish_validated_effect.
  - apply se_prune_effect. se_unfold.
    destruct (validate_verified_event _ _) as [[id payload]|]; [|by apply quiet_frame_effect].
    apply publish_validated_effect.
  - apply (effect_prune now). unfold seed_verified. se_unfold.
    destruct (validate_verified_event _ _) as [[id payload]|]; [|by apply quiet_frame_effect].
    apply store_event_effect.
  - apply se_prune_effect. se_unfold.
    destruct (validate_event _ event) as [[id payload]|]; [|by apply quiet_frame_effect].
    apply replay_validated_effect.
  - apply se_prune_effect. se_unfold.
    destruct (validate_verified_event _ _) as [[id payload]|]; [|by apply quiet_frame_effect].
    apply replay_validated_effect.
  - apply (effect_prune now). apply effect_quiet; [done..|]. intros a Ha.
    destruct (replay_items _ _ _) eqn:Hi; [|set_solver]. by eapply replay_items_quiet.
  - apply se_prune_effect, penalize_error_effect. destruct message.
    + apply receive_inventory_effect.
    + by apply receive_want_effect.
    + by apply receive_frame_effect.
  - apply se_prune_effect, penalize_error_effect. by apply receive_frame_effect.
  - apply (effect_prune now). by apply quiet_frame_effect.
  - apply dismiss_frame_effect.
  - apply record_transport_disruption_effect.
  - destruct (record_peer_behavior_frame peer_id INVALID_MESSAGE_PENALTY InvalidMessage m)
      as (Ho & _ & _ & _ & Hu & _).
    apply quiet_frame_effect; [done|by apply routes_from_eq].
Qed.

Lemma reach_options `{!NostrLaws _} o clock trace m :
  options_typed (normalize_options o) → reach o clock trace m →
  options m = normalize_options o.
Proof.
  intros Ho. induction 1 as [|clock trace m now op Hr IH]; [done|].
  rewrite <-IH. apply run_op_effect; [done|done|by eapply reach_inv].
Qed.

(** ** Invariant and resource bounds *)

(** C1. Every state a mesh reaches satisfies the mesh invariant, and its
    options are the normalised ones it was created with. *)
Theorem mesh_reachable_invariant `{!NostrLaws _} o clock trace m :
  options_typed (normalize_options o) → reach o clock trace m →
  mesh_inv m ∧ options m = normalize_options o.
Proof. intros Ho Hr. split; [by eapply reach_inv|by eapply reach_options]. Qed.

Lemma route_disrupted_bound o r :
  route_ok o r → ssize (ur_transport_disrupted_peers r) ≤ MAX_UPSTREAM_PROVIDERS_PER_EVENT.
Proof.
  intros [Ha Hp Hd _ _ _]. etrans; [|exact Ha].
  assert (ur_transport_disrupted_peers r ⊆ {[ur_peer_id r]} ∪ ur_alternate_peers r) as Hs.
  { intros p Hin. destruct (Hd p Hin) as [->|]; set_solver. }
  apply subseteq_size in Hs. rewrite size_union, size_singleton in Hs by set_solver.
  unfold ssize. lia.
Qed.

Record retained_bounds (o : InvWantMeshOptions) (s : InvWantMeshRetainedState) : Prop := {
  rb_cached : rs_cached_events s ≤ max_cached_events o;
  rb_bytes : rs_cached_event_bytes s ≤ max_cached_event_bytes o;
  rb_seen : rs_seen_inventories s ≤ max_seen_events o;
  rb_delivered : rs_delivered_events s ≤ max_seen_events o;
  rb_routes : rs_upstream_routes s ≤ rs_seen_inventories s;
  rb_disrupted : rs_transport_disrupted_route_peers s
    ≤ MAX_UPSTREAM_PROVIDERS_PER_EVENT * rs_upstream_routes s;
  rb_pending : rs_pending_events s ≤ rs_upstream_routes s;
  rb_pending_peers : rs_pending_peers s ≤ max_pending_peers_per_event o * rs_pending_events s;
  rb_forwarded : rs_forwarded_wants s ≤ rs_upstream_routes s;
  rb_behaviors : rs_peer_behaviors s ≤ MAX_TRACKED_PEER_BEHAVIORS;
}.

(** C27. Memory is bounded: whatever the peers send, what [retained_state]
    reports stays within the configured limits, and the transient tables
    are no larger than the table of seen inventories. *)
Theorem retained_state_bounded `{!NostrLaws _} o clock trace m :
  options_typed (normalize_options o) → reach o clock trace m →
  retained_bounds (normalize_options o) (retained_state m).
Proof.
  intros Ho Hr. pose proof (reach_inv _ _ _ _ Ho Hr) as [_ _ Hc Hro Hd Hb].
  rewrite (reach_options _ _ _ _ Ho Hr) in Hc, Hro, Hd.
  destruct Hro as [Hf Hbd Hrs Hok Hpr Hpb Hct Hfw]. split; simpl.
  - apply Hc.
  - apply Hc.
  - done.
  - apply Hd.
  - apply msize_dom. intros k [r Hk]. destruct (Hrs k r Hk) as (e & ? & _). eauto.
  - etrans; [apply N.Div0.mod_le|]. rewrite msum_hash, N.mul_comm. apply msum_bound.
    intros k r Hk. by eapply route_disrupted_bound, Hok.
  - apply msize_dom. intros k [p Hk]. eauto.
  - rewrite Hct, N.mul_comm. apply msum_bound. eauto.
  - apply msize_dom. intros k [e Hk]. eauto.
  - apply Hb.
Qed.

(** ** What leaves the mesh *)

(** C2. Everything delivered to the local application and every body
    sent to a peer is a verified event of an allowed kind, within the size
    limit, and under its own identifier. *)
Theorem mesh_sends_only_verified `{!NostrLaws _} o clock trace m :
  options_typed (normalize_options o) → reach o clock trace m →
  Forall (action_ok (normalize_options o)) trace.
Proof.
  intros Ho. induction 1 as [|clock trace m now op Hr IH]; [constructor|].
  apply Forall_app. split; [done|]. rewrite <-(reach_options _ _ _ _ Ho Hr).
  apply run_op_effect; [done|done|by eapply reach_inv].
Qed.

Lemma reach_providers `{!NostrLaws _} o clock trace m :
  options_typed (normalize_options o) → reach o clock trace m →
  ∀ id r p, upstream_routes m !! id = Some r → route_provider r p →
    Send p (Want id) ∈ trace.
Proof.
  intros Ho. induction 1 as [|clock trace m now op Hr IH Hle Hnow Hop]; intros id r p Hid Hp.
  { done. }
  pose proof (run_op_effect op now m Hnow Hop (reach_inv _ _ _ _ Ho Hr)) as He.
  apply elem_of_app. destruct (ef_requests _ _ _ He id r Hid p Hp) as [(r0 & ? & ?)|]; eauto.
Qed.

(** C3. Nothing is delivered unasked: a delivery from a peer is preceded
    by a request the mesh sent to that very peer for that very event. *)
Theorem mesh_delivers_only_requested `{!NostrLaws _} o clock trace m before src event after :
  options_typed (normalize_options o) → reach o clock trace m →
  trace = before ++ Deliver src event :: after →
  Send src (Want (event_id_to_hex (event_id event))) ∈ before.
Proof.
  intros Ho Hr. revert before after.
  induction Hr as [|clock trace m now op Hr IH Hle Hnow Hop]; intros before after Heq.
  { by destruct before. }
  pose proof (run_op_effect op now m Hnow Hop (reach_inv _ _ _ _ Ho Hr)) as He.
  apply app_eq_inv in Heq as [(k & -> & Heq)|(k & Heq & Hk)].
  - symmetry in Heq. destruct k as [|a k].
    + simpl in Heq. destruct (ef_deliver _ _ _ He src event) as (r & Hid & Hp).
      { rewrite Heq. left. }
      rewrite app_nil_r in Hr. by eapply reach_providers.
    + simpl in Heq. injection Heq as -> _. by eapply IH.
  - subst before. destruct (ef_deliver _ _ _ He src event) as (r & Hid & Hp).
    { rewrite Hk. apply elem_of_app. right. left. }
    apply elem_of_app. left. by eapply reach_providers.
Qed.

(** ** Errors *)
Lemma receive_inventory_Err src inv now m e m' :
  receive_inventory src inv now m = (Err e, m') → m' = m.
Proof.
  unfold receive_inventory. destruct (_ ← validate_event_id _; _) as [u|]; simpl; [|congruence].
  case_decide; [congruence|]. case_decide; [congruence|]. case_decide; [congruence|].
  destruct (remember_inventory _ now m) as [[] m1] eqn:Hrem; simpl; [congruence|].
  apply remember_inventory_false in Hrem as (-> & _).
  destruct (upstream_routes m !! _) as [r|]; simpl; [|congruence].
  destruct (ur_fulfilled r); simpl; [congruence|]. case_decide; simpl; [congruence|].
  case_decide; simpl; [congruence|]. case_decide; simpl; congruence.
Qed.
Lemma receive_want_Err src id now m e m' :
  receive_want src id now m = (Err e, m') → m' = m.
Proof.
  unfold receive_want. destruct (validate_event_id id); [|congruence].
  destruct (cached_events m !! id); [congruence|].
  destruct (upstream_routes m !! id) as [r|]; [|congruence].
  destruct (ur_fulfilled r); [congruence|]. by destruct (is_some_and _ _).
Qed.
Lemma receive_frame_Err src id event peers now verify m e m' :
  receive_frame src id event peers now verify m = (Err e, m') → m' = m.
Proof.
  unfold receive_frame. destruct (check_frame _ _ _ _ _) as [[r payload]|]; [|congruence].
  destruct (ur_fulfilled r); [congruence|]. by destruct (accept_frame _ _ _ _ _ _ _ _).
Qed.

(** A message the mesh rejects changes nothing but its sender's
    reputation: the state is the one maintenance leaves, with one more
    invalid message on record for the sender. *)
Theorem receive_error_penalizes src msg peers now m e m' :
  receive src msg peers now m = (Err e, m') →
  m' = record_invalid_message src (prune now m).
Proof.
  unfold receive. se_unfold. unfold penalize_error.
  destruct (_ (prune now m)) as [r m1] eqn:Hrun.
  intros [= -> <-]. simpl. f_equal.
  destruct msg; [by eapply receive_inventory_Err|by eapply receive_want_Err
    |by eapply receive_frame_Err].
Qed.

(** ** Replay to a new peer *)
Definition announces m (peer_id : string) (id : string) (a : InvWantAction) : Prop :=
  ∃ c, cached_events m !! id = Some c ∧
    a = Send peer_id (Inventory id (event_kind (ce_event c)) (ce_payload_bytes c)
          (max_hops (options m))).

Lemma replay_items_announces m peer order :
  (∀ id, id ∈ order → is_Some (cached_events m !! id)) →
  (∀ id c, cached_events m !! id = Some c → ce_payload_bytes c ≤ u32_max) →
  ∃ actions, replay_items m peer order = Some actions ∧
    Forall2 (announces m peer) order actions.
Proof.
  intros Ho Hb. induction order as [|id order IH]; simpl; [by eexists|].
  destruct (Ho id) as [c Hc]; [by left|]. rewrite Hc, decide_True by eauto.
  destruct IH as (actions & -> & HF); [intros; apply Ho; by right|].
  eexists. split; [done|]. constructor; [|done]. by exists c.
Qed.

(** [replay_cached_to_peer] does not panic in any reachable state (its
    [expect] on the size is justified), and announces to the peer exactly
    the cached events that have not expired, oldest first. *)
Theorem replay_cached_complete `{!NostrLaws _} o clock trace m peer now :
  options_typed (normalize_options o) → reach o clock trace m →
  let m' := prune now m in
  ∃ actions, replay_cached_to_peer peer now m = (Some actions, m') ∧
    Forall2 (announces m' peer) (cache_order m') actions ∧
    (∀ id, id ∈ cache_order m' ↔ is_Some (cached_events m' !! id)).
Proof.
  intros Ho Hr m'. pose proof (prune_inv now m (reach_inv _ _ _ _ Ho Hr)) as [_ _ Hc _ _ _].
  fold m' in Hc. destruct Hc as [Hf _ _ _ He]. unfold replay_cached_to_peer. fold m'.
  destruct (replay_items_announces m' peer (cache_order m')) as (actions & -> & HF).
  - intros id. by apply fifo_ok_elem.
  - intros id c Hid. by eapply co_u32, He.
  - exists actions. split_and!; [done|done|]. intros id. by apply fifo_ok_elem.
Qed.

(** ** Frames *)
Definition selected_inventory m (peers : list MeshPeer) (src : string)
    (msg : InvWantWireMessage) (a : InvWantAction) : Prop :=
  ∃ p, a = Send p msg ∧ p ≠ src ∧ p ∈ mp_id <$> peers.

Lemma peers_with_behavior_ids m peers :
  mp_id <$> peers_with_behavior m peers = mp_id <$> peers.
Proof.
  unfold peers_with_behavior. rewrite <-list_fmap_compose. apply list_fmap_ext.
  intros i p _. simpl. by destruct (quality_score p), (peer_behavior_score m (mp_id p)).
Qed.
Lemma send_to_selected_peers_sound m peers src msg a :
  a ∈ send_to_selected_peers m peers (Some src) msg → selected_inventory m peers src msg a.
Proof.
  unfold send_to_selected_peers. intros (p & -> & Hp)%list_elem_of_fmap.
  apply select_mesh_peers_elem in Hp as [Hin Hne]. exists (mp_id p).
  split_and!; [done|congruence|]. rewrite <-(peers_with_behavior_ids m).
  by apply list_elem_of_fmap_2.
Qed.
Lemma send_to_selected_peers_length m peers ex msg :
  nlen (send_to_selected_peers m peers ex msg) ≤ fanout (options m).
Proof.
  unfold send_to_selected_peers, nlen. rewrite length_fmap.
  fold (nlen (select_mesh_peers (peers_with_behavior m peers) ex
    (fanout (options m)) (unknown_peer_reserve (options m)))).
  rewrite select_mesh_peers_length. lia.
Qed.
Lemma store_event_lookup event payload now m :
  cached_events (store_event event payload now m) !! event_id_to_hex (event_id event)
    = Some (mkCachedEvent event (u64_sat_add now (event_ttl_ms (options m))) payload).
Proof.
  unfold store_event. destruct (cached_events m !! _); apply lookup_insert_eq.
Qed.
Lemma remember_delivered_result id now m :
  (remember_delivered id now m).1 = bool_decide (delivered_events m !! id = None) ∧
  is_Some (delivered_events (remember_delivered id now m).2 !! id) ∧
  cached_events (remember_delivered id now m).2 = cached_events m.
Proof.
  unfold remember_delivered. destruct (delivered_events m !! id) eqn:Hd; simpl.
  - rewrite Hd. eauto.
  - destruct (evict_oldest _ _ _). simpl. rewrite lookup_insert_eq. eauto.
Qed.
Lemma remove_pending_result id m :
  (remove_pending_event id m).1 = pending_downstream m !! id ∧
  pending_downstream (remove_pending_event id m).2 !! id = None.
Proof.
  unfold remove_pending_event.
  destruct (pending_downstream m !! id); split; try done; apply lookup_delete_eq.
Qed.

(** What an accepted frame leaves behind. *)
Record frame_settled (id : string) (event : Event) (o : InvWantMeshOptions) (now : N) m'
    : Prop := {
  fs_options : options m' = o;
  fs_cached payload : event_to_json event = Ok payload →
    cached_events m' !! id
      = Some (mkCachedEvent event (u64_sat_add now (event_ttl_ms o)) (slen payload));
  fs_delivered : is_Some (delivered_events m' !! id);
  fs_pending : pending_downstream m' !! id = None;
  fs_fulfilled r : upstream_routes m' !! id = Some r → ur_fulfilled r = true;
}.

Lemma accept_frame_settled src id event route payload peers now m :
  id = event_id_to_hex (event_id event) →
  (∃ j, event_to_json event = Ok j ∧ slen j = payload) →
  is_Some (upstream_routes m !! id) →
  frame_settled id event (options m) now
    (accept_frame src id event route payload peers now m).2.
Proof.
  intros Hid (j & Hj & <-) [r0 Hr0]. unfold accept_frame.
  set (m1 := record_peer_behavior src VALID_FRAME_REWARD ValidFrame m).
  destruct (record_peer_behavior_frame src VALID_FRAME_REWARD ValidFrame m)
    as (Ho1 & _ & _ & _ & Hu1 & _). fold m1 in Ho1, Hu1.
  set (m2 := store_event event (slen j) now m1).
  pose proof (store_event_lookup event (slen j) now m1) as Hc2.
  rewrite <-Hid in Hc2. fold m2 in Hc2.
  destruct (store_event_frame event (slen j) now m1) as (_ & _ & Hu2 & _). fold m2 in Hu2.
  pose proof (store_event_options event (slen j) now m1) as Ho2. fold m2 in Ho2.
  set (m3 := fulfil_route id m2).
  assert (options m3 = options m2 ∧ cached_events m3 = cached_events m2 ∧
    (∀ r, upstream_routes m3 !! id = Some r → ur_fulfilled r = true)) as (Ho3 & Hc3 & Hu3).
  { unfold m3, fulfil_route. rewrite Hu2, Hu1, Hr0. simpl. split_and!; [done..|].
    intros r. rewrite lookup_insert_eq. by intros [= <-]. }
  destruct (remember_delivered_frame id now m3) as (Hu4 & _ & Ho4).
  destruct (remember_delivered_result id now m3) as (_ & Hd4 & Hc4).
  destruct (remember_delivered id now m3) as [first m4]. simpl in *.
  destruct (remove_pending_frame id m4) as (Hu5 & Ho5 & _ & Hc5 & Hd5 & _).
  destruct (remove_pending_result id m4) as (_ & Hp5).
  destruct (remove_pending_event id m4) as [pending m5]. simpl in *.
  split.
  - congruence.
  - intros j' Hj'. assert (j' = j) as -> by congruence.
    rewrite Hc5, Hc4, Hc3, Hc2, Ho1. done.
  - by rewrite Hd5.
  - done.
  - intros r. rewrite Hu5, Hu4. apply Hu3.
Qed.

(** The actions of an accepted frame, over the state before it. *)
Record frame_actions m (src id : string) (event : Event) (route : UpstreamRoute)
    (payload : N) (peers : list MeshPeer) (actions : list InvWantAction) : Prop := {
  fa_split : ∃ inventories,
    actions =
      (if decide (delivered_events m !! id = None) then [Deliver src event] else []) ++
      ((λ p, Send p (Frame id event)) <$>
        match pending_downstream m !! id with
        | Some pending => btree_elements (pp_peers pending)
        | None => []
        end) ++ inventories ∧
    Forall (selected_inventory m peers src
      (Inventory id (event_kind event) payload (ur_hop_limit route - 1))) inventories ∧
    nlen inventories ≤ fanout (options m) ∧
    (ur_hop_limit route ≤ 1 → inventories = []);
}.

Lemma accept_frame_actions src id event route payload peers now m :
  frame_actions m src id event route payload peers
    (accept_frame src id event route payload peers now m).1.
Proof.
  unfold accept_frame.
  set (m1 := record_peer_behavior src VALID_FRAME_REWARD ValidFrame m).
  set (m2 := store_event event payload now m1). set (m3 := fulfil_route id m2).
  destruct (record_peer_behavior_frame src VALID_FRAME_REWARD ValidFrame m)
    as (Ho1 & _ & _ & Hd1 & _ & Hp1 & _). fold m1 in Ho1, Hd1, Hp1.
  destruct (store_event_frame event payload now m1) as (_ & Hd2 & _ & Hp2).
  fold m2 in Hd2, Hp2.
  destruct (fulfil_route_frame id m2) as (_ & Ho3 & Hd3 & Hp3). fold m3 in Ho3, Hd3, Hp3.
  destruct (remember_delivered_frame id now m3) as (_ & Hp4 & Ho4).
  destruct (remember_delivered_result id now m3) as (Hfirst & _ & _).
  destruct (remember_delivered id now m3) as [first m4]. simpl in *.
  destruct (remove_pending_frame id m4) as (_ & Ho5 & _).
  destruct (remove_pending_result id m4) as (Hpend & _).
  destruct (remove_pending_event id m4) as [pending m5]. simpl in *.
  assert (options m5 = options m) as Ho.
  { rewrite Ho5, Ho4, Ho3. unfold m2. by rewrite store_event_options. }
  split. eexists. split_and!.
  - rewrite Hd3, Hd2, Hd1 in Hfirst. rewrite Hp4, Hp3, Hp2, Hp1 in Hpend. subst first pending.
    f_equal; [by case_decide; case_bool_decide|]. f_equal. by destruct (pending_downstream m !! id).
  - case_decide; [|constructor]. apply Forall_forall. intros a Ha.
    by apply send_to_selected_peers_sound in Ha.
  - rewrite <-Ho. case_decide; [apply send_to_selected_peers_length|rewrite nlen_nil; lia].
  - intros Hh. by rewrite decide_False by lia.
Qed.


(** A frame is admitted exactly when it was solicited: it comes from a
    provider of an open route the mesh requested, its event verifies, has the
    identifier of the route, an allowed kind and size, and is the kind and
    size that were announced. *)
Theorem frame_admission src id event m route payload :
  check_frame src id event true m = Ok (route, payload) ↔
    validate_event_id id = Ok tt ∧
    upstream_routes m !! id = Some route ∧
    is_Some (want_forwarded m !! id) ∧ route_provider route src ∧
    verified event ∧ validate_verified_event m event = Ok (id, payload) ∧
    ur_event_kind route = event_kind event ∧ ur_payload_bytes route = payload.
Proof. rewrite check_frame_Ok. naive_solver. Qed.

(** ** Requests *)
Lemma add_pending_enrols src id now m :
  ∃ pending, pending_downstream (add_pending src id now m) !! id = Some pending ∧
    (src ∈ pp_peers pending ∨ max_pending_peers_per_event (options m) ≤ ssize (pp_peers pending)) ∧
    (∀ p q, pending_downstream m !! id = Some p → q ∈ pp_peers p → q ∈ pp_peers pending).
Proof.
  unfold add_pending. set (pending := default _ _).
  assert (∀ p q, pending_downstream m !! id = Some p → q ∈ pp_peers p → q ∈ pp_peers pending)
    as Hold by (intros p q Hp; unfold pending; by rewrite Hp).
  case_decide as Hd; simpl; rewrite lookup_insert_eq; eexists; (split; [done|]); simpl.
  - split; [left; set_solver|]. intros p q Hp Hq. apply elem_of_union. right. eauto.
  - split; [|done]. destruct (decide (src ∈ pp_peers pending)); [by left|right].
    apply N.nlt_ge. tauto.
Qed.

(** What a request leads to, in a state after maintenance. *)
Definition want_outcome (src id : string) (now : N) m
    (actions : list InvWantAction) m' : Prop :=
  match cached_events m !! id, upstream_routes m !! id with
  | Some cached, _ => actions = [Send src (Frame id (ce_event cached))] ∧ m' = m
  | None, Some route =>
      if ur_fulfilled route then actions = [] ∧ m' = m
      else
        (actions = [Send (ur_peer_id route) (Want id)] ∨
         actions = [] ∧ ∃ e, want_forwarded m !! id = Some e ∧ now < e) ∧
        (∃ pending, pending_downstream m' !! id = Some pending ∧
          (src ∈ pp_peers pending ∨
            max_pending_peers_per_event (options m) ≤ ssize (pp_peers pending)) ∧
          ∀ p q, pending_downstream m !! id = Some p → q ∈ pp_peers p →
            q ∈ pp_peers pending) ∧
        (now < ur_expires_at_ms route →
          ∀ other, (receive_want other id now m').1 = Ok [])
  | None, None => actions = [] ∧ m' = m
  end.

Lemma receive_want_coalesced src id now m e r :
  validate_event_id id = Ok tt → cached_events m !! id = None →
  upstream_routes m !! id = Some r → ur_fulfilled r = false →
  want_forwarded m !! id = Some e → now < e →
  (receive_want src id now m).1 = Ok [].
Proof.
  intros Hid Hc Hr Hf Hw Hlt. unfold receive_want. rewrite Hid, Hc, Hr, Hf.
  destruct (add_pending_frame src id now m) as (_ & -> & _). rewrite Hw. simpl.
  by rewrite bool_decide_true.
Qed.

(** A valid request is answered from the cache; otherwise, on an
    open route, the requester is remembered (unless the queue is full, and
    never at the cost of another), and at most one request per route
    lifetime goes upstream: once this one is handled, further requests
    send nothing. Requests for unknown or answered events do nothing. *)
Theorem receive_want_outcome src id peers now m :
  validate_event_id id = Ok tt →
  ∃ actions m', receive src (Want id) peers now m = (Ok actions, m') ∧
    want_outcome src id now (prune now m) actions m'.
Proof.
  intros Hid. unfold receive. se_unfold. set (m1 := prune now m). unfold penalize_error.
  unfold want_outcome, receive_want at 1. rewrite Hid.
  destruct (cached_events m1 !! id) as [c|] eqn:Hc; [eauto|].
  destruct (upstream_routes m1 !! id) as [r|] eqn:Hr; [|eauto].
  destruct (ur_fulfilled r) eqn:Hf; [eauto|].
  destruct (add_pending_frame src id now m1) as (Hur & Hwf & Hopt & Hce).
  pose proof (add_pending_enrols src id now m1) as Hen.
  set (m2 := add_pending src id now m1) in *. rewrite Hwf.
  destruct (is_some_and _ _) eqn:Hfw; simpl; do 2 eexists; (split; [done|]).
  - apply is_some_and_true in Hfw as (e & He & Hlt). apply bool_decide_eq_true in Hlt.
    split_and!; [right; eauto|done|]. intros _ other.
    by apply (receive_want_coalesced _ _ _ _ e r); rewrite ?Hur, ?Hwf, ?Hce.
  - split_and!; [by left|done|]. intros Hlt other.
    eapply (receive_want_coalesced _ _ _ _ (ur_expires_at_ms r)); simpl;
      [done|by rewrite Hce|by rewrite lookup_insert_eq|done|by rewrite lookup_insert_eq|done].
Qed.

End mesh_props.

(** ** Witnesses on the concrete run *)
Module MeshWitness.
#[local] Existing Instance Toy.toy_nostr.
#[local] Existing Instance Toy.toy_laws.
Import Demo.

Lemma demo_typed : options_typed (normalize_options default_mesh_options).
Proof. split; vm_compute; congruence. Defined.
Lemma mesh_reachable_invariant_witness :
  mesh_inv m3 ∧ options m3 = normalize_options default_mesh_options.
Proof. exact (mesh_reachable_invariant _ _ _ _ demo_typed reach3). Defined.
Lemma retained_state_bounded_witness :
  rs_cached_events (retained_state m3) = 1 ∧
  retained_bounds (normalize_options default_mesh_options) (retained_state m3).
Proof.
  split; [reflexivity|exact (retained_state_bounded _ _ _ _ demo_typed reach3)].
Defined.
Lemma mesh_sends_only_verified_witness :
  Forall (action_ok (normalize_options default_mesh_options)) trace3.
Proof. exact (mesh_sends_only_verified _ _ _ _ demo_typed reach3). Defined.
Lemma mesh_delivers_only_requested_witness :
  Send alice (Want (event_id_to_hex (event_id event_a))) ∈ [Send alice (Want id_a)].
Proof.
  apply (mesh_delivers_only_requested _ _ _ _ [Send alice (Want id_a)] alice event_a
    [Send bob (Frame id_a event_a); Send bob (Inventory id_a 1 7 2);
     Send carol (Inventory id_a 1 7 2)] demo_typed reach3).
  exact trace3_eq.
Defined.
Lemma receive_error_penalizes_witness :
  (receive carol (Frame id_a event_a) peers 12 m2).2
    = record_invalid_message carol (prune 12 m2).
Proof.
  apply (receive_error_penalizes carol (Frame id_a event_a) peers 12 m2
    (validation "inv/want frame was not requested from source")).
  apply pair_eq_1. reflexivity.
Defined.
Lemma replay_cached_complete_witness :
  ∃ actions, replay_cached_to_peer carol 13 m3 = (Some actions, prune 13 m3) ∧
    Forall2 (announces (prune 13 m3) carol) (cache_order (prune 13 m3)) actions ∧
    (∀ id, id ∈ cache_order (prune 13 m3) ↔ is_Some (cached_events (prune 13 m3) !! id)).
Proof. exact (replay_cached_complete _ _ _ _ carol 13 demo_typed reach3). Defined.
Definition route_a : UpstreamRoute :=
  mkUpstreamRoute alice ∅ ∅ 1 7 3 120010 false.
Lemma receive_want_outcome_witness :
  ∃ actions m', receive bob (Want id_a) peers 11 m1 = (Ok actions, m') ∧
    want_outcome bob id_a 11 (prune 11 m1) actions m'.
Proof. apply (receive_want_outcome bob id_a peers 11 m1). reflexivity. Defined.
Lemma maintain_on_time_witness :
  length (tracked_expiries (maintain 120009 m3)) = 4%nat ∧
  ∀ e, e ∈ tracked_expiries (maintain 120009 m3) → 120009 < e.
Proof. split; [reflexivity|exact (maintain_on_time _ _ _ _ 120009 reach3)]. Defined.
End MeshWitness.
