(* ===== verification/Subscriptions.v ===== *)
(** * Peer subscriptions

    crates/nostr-pubsub/src/subscriptions.rs: which peer asked for which
    filters, with bounds on peers, subscriptions and filters, eviction of the
    least recently touched, and incremental accounting of the encoded size. *)

From S2P Require Export Events.

(** ** Delivery policy *)
Inductive PubsubDeliveryStrategy : Set := PushSubscribed | InventoryFirst.
Inductive PubsubPeerInterest : Set := Subscribed | Unsubscribed | Unknown.
Inductive PubsubDeliveryAction : Set := PushFrame | AnnounceInventory | Skip.
#[export] Instance PubsubPeerInterest_eq_dec : EqDecision PubsubPeerInterest.
Proof. solve_decision. Defined.

Definition action_for_peer (strategy : PubsubDeliveryStrategy) (interest : PubsubPeerInterest)
    : PubsubDeliveryAction :=
  match strategy, interest with
  | PushSubscribed, Subscribed => PushFrame
  | InventoryFirst, Subscribed => AnnounceInventory
  | _, _ => Skip
  end.

(** [PubsubDeliveryPolicy] is its strategy. *)
Definition push_subscribed : PubsubDeliveryStrategy := PushSubscribed.
Definition inventory_to_subscribers : PubsubDeliveryStrategy := InventoryFirst.
Definition inventory_to_peers : PubsubDeliveryStrategy := InventoryFirst.

Record PubsubSubscriptionLimits : Set := mkSubscriptionLimits {
  max_peers : N;
  max_subscriptions_per_peer : N;
  max_filters_per_subscription : N;
}.
Definition default_subscription_limits : PubsubSubscriptionLimits :=
  mkSubscriptionLimits 1024 64 16.

Inductive PubsubSubscriptionUpdate : Set := UpdSubscribed | UpdClosed | UpdIgnored.

(** What [retained_snapshot] reports. *)
Record PubsubPeerSubscriptionSnapshot : Set := mkSubscriptionSnapshot {
  sn_peer_count : N;
  sn_subscription_count : N;
  sn_filter_count : N;
  sn_encoded_filter_bytes : N;
  sn_encoded_req_bytes : N;
}.

Record SubscriptionContribution : Set := mkContribution {
  sc_filter_count : N;
  sc_encoded_filter_bytes : N;
  sc_encoded_req_bytes : N;
}.

Section subscriptions.
Context `{!Nostr}.

Record PubsubPeerSubscription : Type := mkPeerSubscription {
  subscription_id : string;
  ps_filters : list Filter;
}.
Definition sub_matches_event (sub : PubsubPeerSubscription) (event : Event) : bool :=
  subscription_filters_match (ps_filters sub) event.
Definition sub_matches (sub : PubsubPeerSubscription) (event : VerifiedEvent) : bool :=
  sub_matches_event sub (as_event event).

Definition from_filters (filters : list Filter) (event : VerifiedEvent) : PubsubPeerInterest :=
  if subscription_filters_match filters (as_event event) then Subscribed else Unsubscribed.

(** The variants of the [nostr] crate's [ClientMessage] the crate tells apart. *)
Inductive ClientMessage : Type :=
  | CmReq (subscription_id : string) (filters : list Filter)
  | CmClose (subscription_id : string)
  | CmEvent (event : Event)
  | CmOther.

(** ** One peer's subscriptions *)
Record PeerSubscriptionSet : Type := mkSubscriptionSet {
  subscriptions : gmap string PubsubPeerSubscription;
  order : list string;
}.
Definition empty_set : PeerSubscriptionSet := mkSubscriptionSet ∅ [].

(** The [while] loop of [evict_oldest_over_limit], which returns at the
    first subscription it removes. *)
Fixpoint set_evict_from (limit : N) (o : list string)
    (subs : gmap string PubsubPeerSubscription)
    : option PubsubPeerSubscription * PeerSubscriptionSet :=
  match o with
  | [] => (None, mkSubscriptionSet subs [])
  | id :: rest =>
      if decide (limit < msize subs) then
        match subs !! id with
        | Some removed => (Some removed, mkSubscriptionSet (delete id subs) rest)
        | None => set_evict_from limit rest subs
        end
      else (None, mkSubscriptionSet subs o)
  end.
Definition evict_oldest_over_limit (limit : N) (s : PeerSubscriptionSet)
    : option PubsubPeerSubscription * PeerSubscriptionSet :=
  set_evict_from limit (order s) (subscriptions s).

(** Returns what was replaced, what was evicted, and the new set. *)
Definition set_upsert (sub : PubsubPeerSubscription) (limits : PubsubSubscriptionLimits)
    (s : PeerSubscriptionSet)
    : option PubsubPeerSubscription * option PubsubPeerSubscription * PeerSubscriptionSet :=
  let id := subscription_id sub in
  let o := filter (λ j, j ≠ id) (order s) ++ [id] in
  let replaced := subscriptions s !! id in
  let s' := mkSubscriptionSet (<[id := sub]> (subscriptions s)) o in
  match replaced with
  | Some _ => (replaced, None, s')
  | None =>
      let '(evicted, s'') := evict_oldest_over_limit (max_subscriptions_per_peer limits) s' in
      (None, evicted, s'')
  end.

Definition set_remove (id : string) (s : PeerSubscriptionSet)
    : option PubsubPeerSubscription * PeerSubscriptionSet :=
  (subscriptions s !! id,
   mkSubscriptionSet (delete id (subscriptions s)) (filter (λ j, j ≠ id) (order s))).

Definition set_is_empty (s : PeerSubscriptionSet) : bool :=
  bool_decide (msize (subscriptions s) = 0).

(** ** The encoded size of a subscription *)
Definition encoded_state_error (kind error : string) : PubsubError :=
  Storage ("failed to encode retained peer subscription " +:+ kind +:+ ": " +:+ error).

Fixpoint encoded_filters (fs : list Filter) (total : N) : res N :=
  match fs with
  | [] => Ok total
  | f :: fs' =>
      encoded ← map_err (encoded_state_error "filter") (filter_to_json f);
      encoded_filters fs' (usize_sat_add total (slen encoded))
  end.

Definition subscription_contribution (sub : PubsubPeerSubscription)
    : res SubscriptionContribution :=
  filter_bytes ← encoded_filters (ps_filters sub) 0;
  req ← map_err (encoded_state_error "REQ")
    (req_to_json (subscription_id sub) (ps_filters sub));
  Ok (mkContribution (nlen (ps_filters sub)) filter_bytes (slen req)).

(** The [expect] panics: [None]. *)
Definition subscription_contribution_infallible (sub : PubsubPeerSubscription)
    : option SubscriptionContribution :=
  match subscription_contribution sub with Ok c => Some c | Err _ => None end.

(** ** The store *)
Record PubsubPeerSubscriptionStore : Type := mkSubscriptionStore {
  st_limits : PubsubSubscriptionLimits;
  st_peers : gmap string PeerSubscriptionSet;
  st_peer_order : list string;
  st_retained : PubsubPeerSubscriptionSnapshot;
}.
Implicit Types s : PubsubPeerSubscriptionStore.

Definition set_st_peers v s : PubsubPeerSubscriptionStore :=
  mkSubscriptionStore (st_limits s) v (st_peer_order s) (st_retained s).
Definition set_st_peer_order v s : PubsubPeerSubscriptionStore :=
  mkSubscriptionStore (st_limits s) (st_peers s) v (st_retained s).
Definition set_st_retained v s : PubsubPeerSubscriptionStore :=
  mkSubscriptionStore (st_limits s) (st_peers s) (st_peer_order s) v.

Definition store_new (limits : PubsubSubscriptionLimits) : PubsubPeerSubscriptionStore :=
  mkSubscriptionStore limits ∅ [] (mkSubscriptionSnapshot 0 0 0 0 0).

Definition store_peer_count s : N := msize (st_peers s).
Definition store_subscription_count s : N :=
  u64_wrap (sum_by (λ peer, msize (subscriptions peer)) (btree_values (st_peers s))).
Definition store_filter_count s : N := sn_filter_count (st_retained s).
Definition peer_filter_count s (peer_id : string) : N :=
  match st_peers s !! peer_id with
  | Some peer =>
      u64_wrap (sum_by (λ sub, nlen (ps_filters sub)) (btree_values (subscriptions peer)))
  | None => 0
  end.
Definition retained_snapshot s : res PubsubPeerSubscriptionSnapshot := Ok (st_retained s).
Definition peer_subscription_count s (peer_id : string) : N :=
  match st_peers s !! peer_id with Some peer => msize (subscriptions peer) | None => 0 end.
Definition store_subscription s (peer_id id : string) : option PubsubPeerSubscription :=
  peer ← st_peers s !! peer_id; subscriptions peer !! id.

Definition add_retained (added : SubscriptionContribution) s : PubsubPeerSubscriptionStore :=
  let r := st_retained s in
  set_st_retained (mkSubscriptionSnapshot (sn_peer_count r)
    (usize_sat_add (sn_subscription_count r) 1)
    (usize_sat_add (sn_filter_count r) (sc_filter_count added))
    (usize_sat_add (sn_encoded_filter_bytes r) (sc_encoded_filter_bytes added))
    (usize_sat_add (sn_encoded_req_bytes r) (sc_encoded_req_bytes added))) s.
Definition subtract_retained (sub : PubsubPeerSubscription) s
    : option PubsubPeerSubscriptionStore :=
  removed ← subscription_contribution_infallible sub;
  let r := st_retained s in
  Some (set_st_retained (mkSubscriptionSnapshot (sn_peer_count r)
    (sn_subscription_count r - 1)
    (sn_filter_count r - sc_filter_count removed)
    (sn_encoded_filter_bytes r - sc_encoded_filter_bytes removed)
    (sn_encoded_req_bytes r - sc_encoded_req_bytes removed)) s).
Fixpoint subtract_all (subs : list PubsubPeerSubscription) s
    : option PubsubPeerSubscriptionStore :=
  match subs with
  | [] => Some s
  | sub :: subs' => s' ← subtract_retained sub s; subtract_all subs' s'
  end.
Definition set_peer_count s : PubsubPeerSubscriptionStore :=
  let r := st_retained s in
  set_st_retained (mkSubscriptionSnapshot (msize (st_peers s)) (sn_subscription_count r)
    (sn_filter_count r) (sn_encoded_filter_bytes r) (sn_encoded_req_bytes r)) s.

Definition touch_peer (peer_id : string) s : PubsubPeerSubscriptionStore :=
  set_st_peer_order (filter (λ j, j ≠ peer_id) (st_peer_order s) ++ [peer_id]) s.

(** The [while] loop of [evict_peers_over_limit], which returns at the first
    peer it removes. *)
Fixpoint evict_peers_from (o : list string) s
    : list PubsubPeerSubscription * PubsubPeerSubscriptionStore :=
  match o with
  | [] => ([], set_st_peer_order [] s)
  | peer_id :: rest =>
      if decide (max_peers (st_limits s) ≤ msize (st_peers s)) then
        match st_peers s !! peer_id with
        | Some peer =>
            (btree_values (subscriptions peer),
             set_st_peer_order rest (set_st_peers (delete peer_id (st_peers s)) s))
        | None => evict_peers_from rest s
        end
      else ([], set_st_peer_order o s)
  end.
Definition evict_peers_over_limit s
    : list PubsubPeerSubscription * PubsubPeerSubscriptionStore :=
  evict_peers_from (st_peer_order s) s.

Definition check_upsert (sub : PubsubPeerSubscription) (limits : PubsubSubscriptionLimits)
    : res unit :=
  if decide (max_peers limits = 0) then
    Err (Validation "peer subscription store max_peers must be greater than zero")
  else if decide (max_subscriptions_per_peer limits = 0) then
    Err (Validation
      "peer subscription store max_subscriptions_per_peer must be greater than zero")
  else if decide (max_filters_per_subscription limits < nlen (ps_filters sub)) then
    Err (Validation ("subscription " +:+ subscription_id sub +:+ " has "
      +:+ pretty (nlen (ps_filters sub)) +:+ " filters, limit is "
      +:+ pretty (max_filters_per_subscription limits)))
  else Ok tt.

(** [upsert] after its checks, with the contribution computed. *)
Definition upsert_checked (peer_id : string) (sub : PubsubPeerSubscription)
    (added : SubscriptionContribution) s
    : option (option PubsubPeerSubscription * PubsubPeerSubscriptionStore) :=
  let is_new_peer := bool_decide (st_peers s !! peer_id = None) in
  let s := touch_peer peer_id s in
  s ← (if is_new_peer then
         let '(removed, s') := evict_peers_over_limit s in subtract_all removed s'
       else Some s);
  let peer := default empty_set (st_peers s !! peer_id) in
  let '(replaced, evicted, peer') := set_upsert sub (st_limits s) peer in
  let s := set_st_peers (<[peer_id := peer']> (st_peers s)) s in
  s ← subtract_all (option_list replaced) s;
  s ← subtract_all (option_list evicted) s;
  Some (evicted, set_peer_count (add_retained added s)).

(** [None] is a panic; otherwise the [Result] and the new store. *)
Definition store_upsert (peer_id : string) (sub : PubsubPeerSubscription) s
    : option (res (option PubsubPeerSubscription) * PubsubPeerSubscriptionStore) :=
  match (_ ← check_upsert sub (st_limits s); subscription_contribution sub) with
  | Err e => Some (Err e, s)
  | Ok added =>
      '(evicted, s') ← upsert_checked peer_id sub added s; Some (Ok evicted, s')
  end.
Definition upsert_filters (peer_id id : string) (filters : list Filter) s :=
  store_upsert peer_id (mkPeerSubscription id filters) s.

Definition remove_peer (peer_id : string) s
    : option (list PubsubPeerSubscription * PubsubPeerSubscriptionStore) :=
  let s := set_st_peer_order (filter (λ j, j ≠ peer_id) (st_peer_order s)) s in
  let removed :=
    match st_peers s !! peer_id with
    | Some peer => btree_values (subscriptions peer)
    | None => []
    end in
  let s := set_st_peers (delete peer_id (st_peers s)) s in
  s ← subtract_all removed s;
  Some (removed, set_peer_count s).

Definition store_remove (peer_id id : string) s
    : option (option PubsubPeerSubscription * PubsubPeerSubscriptionStore) :=
  let '(removed, s) :=
    match st_peers s !! peer_id with
    | Some peer =>
        let '(removed, peer') := set_remove id peer in
        (removed, set_st_peers (<[peer_id := peer']> (st_peers s)) s)
    | None => (None, s)
    end in
  s ← subtract_all (option_list removed) s;
  if is_some_and set_is_empty (st_peers s !! peer_id) then
    '(_, s) ← remove_peer peer_id s; Some (removed, s)
  else Some (removed, s).

Definition apply_client_message (peer_id : string) (message : ClientMessage) s
    : option (res PubsubSubscriptionUpdate * PubsubPeerSubscriptionStore) :=
  match message with
  | CmReq id filters =>
      '(r, s) ← upsert_filters peer_id id filters s;
      Some (_ ← r; Ok UpdSubscribed, s)
  | CmClose id => '(_, s) ← store_remove peer_id id s; Some (Ok UpdClosed, s)
  | CmEvent _ | CmOther => Some (Ok UpdIgnored, s)
  end.

(** ** Matching *)
Definition peer_interest s (peer_id : string) (event : VerifiedEvent) : PubsubPeerInterest :=
  match st_peers s !! peer_id with
  | None => Unknown
  | Some peer =>
      if existsb (λ sub, sub_matches sub event) (btree_values (subscriptions peer))
      then Subscribed else Unsubscribed
  end.
Definition matching_subscriptions s (peer_id : string) (event : VerifiedEvent)
    : list PubsubPeerSubscription :=
  match st_peers s !! peer_id with
  | Some peer => filter (λ sub, sub_matches sub event) (btree_values (subscriptions peer))
  | None => []
  end.
Definition matching_peer_subscriptions s (event : VerifiedEvent)
    : list (string * PubsubPeerSubscription) :=
  '(peer_id, peer) ← btree_to_list (st_peers s);
  (λ sub, (peer_id, sub))
    <$> filter (λ sub, sub_matches sub event) (btree_values (subscriptions peer)).
Definition interested_peers s (event : VerifiedEvent) : list string :=
  (filter (λ kv, existsb (λ sub, sub_matches sub event) (btree_values (subscriptions kv.2)))
    (btree_to_list (st_peers s))).*1.
Definition action_for_event (strategy : PubsubDeliveryStrategy) s (peer_id : string)
    (event : VerifiedEvent) : PubsubDeliveryAction :=
  action_for_peer strategy (peer_interest s peer_id event).
End subscriptions.
