(* ===== verification/SubscriptionsProps.v ===== *)
(** * Peer subscriptions: specification and theorems

    The specification of the store of Subscriptions.v, its refinement and its
    accounting. *)

From S2P Require Export Subscriptions.

(** ** Peer subscriptions: specification

    The store as a client sees it is a list of peers, each with a list of
    subscriptions, both in the order they were last touched; touching moves
    to the back and a full list drops its front. This file proves that the
    maps, queues and counters of [Subscriptions] implement that
    specification, never panic, and account for the encoded size exactly. *)

Section subscriptions_spec.
Context `{!Nostr}.
Implicit Types (s : PubsubPeerSubscriptionStore) (set : PeerSubscriptionSet)
  (sub : PubsubPeerSubscription) (limits : PubsubSubscriptionLimits).

(** ** The abstract store *)
Definition abs_set set : list PubsubPeerSubscription :=
  fifo_list (λ _ sub, sub) (subscriptions set) (order set).
Definition abs_peers (peers : gmap string PeerSubscriptionSet) (o : list string)
    : list (string * list PubsubPeerSubscription) :=
  fifo_list (λ p set, (p, abs_set set)) peers o.
Definition abs_store s : list (string * list PubsubPeerSubscription) :=
  abs_peers (st_peers s) (st_peer_order s).

Definition spec_set_upsert (limit : N) sub (l : list PubsubPeerSubscription)
    : list PubsubPeerSubscription :=
  let l' := filter (λ x, subscription_id x ≠ subscription_id sub) l ++ [sub] in
  if decide (limit < nlen l') then tail l' else l'.
Definition spec_subs (p : string) (l : list (string * list PubsubPeerSubscription))
    : list PubsubPeerSubscription :=
  match filter (λ x, x.1 = p) l with x :: _ => x.2 | [] => [] end.
Definition spec_upsert limits (p : string) sub (l : list (string * list PubsubPeerSubscription))
    : list (string * list PubsubPeerSubscription) :=
  let others := filter (λ x, x.1 ≠ p) l in
  (if decide (max_peers limits ≤ nlen others) then tail others else others)
    ++ [(p, spec_set_upsert (max_subscriptions_per_peer limits) sub (spec_subs p l))].
Definition spec_remove_peer (p : string) (l : list (string * list PubsubPeerSubscription))
    : list (string * list PubsubPeerSubscription) := filter (λ x, x.1 ≠ p) l.
Definition spec_remove (p id : string) (l : list (string * list PubsubPeerSubscription))
    : list (string * list PubsubPeerSubscription) :=
  filter (λ x, x.2 ≠ [])
    ((λ x, if decide (x.1 = p) then (x.1, filter (λ y, subscription_id y ≠ id) x.2) else x) <$> l).

(** ** Well-formedness *)
Record sub_ok limits (id : string) sub : Prop := {
  sk_id : subscription_id sub = id;
  sk_filters : nlen (ps_filters sub) ≤ max_filters_per_subscription limits;
  sk_encodes : is_ok (subscription_contribution sub) = true;
}.
Record set_ok limits set : Prop := {
  so_fifo : fifo_ok (order set) (subscriptions set);
  so_bound : msize (subscriptions set) ≤ max_subscriptions_per_peer limits;
  so_entry id sub : subscriptions set !! id = Some sub → sub_ok limits id sub;
}.
Record peers_ok limits (peers : gmap string PeerSubscriptionSet) (o : list string) : Prop := {
  po_fifo : fifo_ok o peers;
  po_bound : msize peers ≤ max_peers limits;
  po_set p set : peers !! p = Some set →
    set_ok limits set ∧ msize (subscriptions set) ≠ 0;
}.
Definition store_ok s : Prop := peers_ok (st_limits s) (st_peers s) (st_peer_order s).

(** ** Exact accounting *)
Definition cost (g : SubscriptionContribution → N) sub : N :=
  match subscription_contribution sub with Ok c => g c | Err _ => 0 end.
Definition set_total (f : PubsubPeerSubscription → N) set : N := msum f (subscriptions set).
Definition total (f : PubsubPeerSubscription → N) (peers : gmap string PeerSubscriptionSet) : N :=
  msum (set_total f) peers.
Definition measured (peers : gmap string PeerSubscriptionSet)
    : PubsubPeerSubscriptionSnapshot :=
  mkSubscriptionSnapshot (msize peers) (total (λ _, 1) peers)
    (total (cost sc_filter_count) peers) (total (cost sc_encoded_filter_bytes) peers)
    (total (cost sc_encoded_req_bytes) peers).
Definition exact s : Prop := st_retained s = measured (st_peers s).
(** The measured sizes are countable with a [usize]. *)
Definition fits (peers : gmap string PeerSubscriptionSet) : Prop :=
  let r := measured peers in
  sn_subscription_count r ≤ usize_max ∧ sn_filter_count r ≤ usize_max ∧
  sn_encoded_filter_bytes r ≤ usize_max ∧ sn_encoded_req_bytes r ≤ usize_max.

Definition minus (subs : list PubsubPeerSubscription) (r : PubsubPeerSubscriptionSnapshot)
    : PubsubPeerSubscriptionSnapshot :=
  mkSubscriptionSnapshot (sn_peer_count r)
    (sn_subscription_count r - sum_by (λ _, 1) subs)
    (sn_filter_count r - sum_by (cost sc_filter_count) subs)
    (sn_encoded_filter_bytes r - sum_by (cost sc_encoded_filter_bytes) subs)
    (sn_encoded_req_bytes r - sum_by (cost sc_encoded_req_bytes) subs).

Lemma subtract_all_eq subs s :
  Forall (λ sub, is_ok (subscription_contribution sub) = true) subs →
  subtract_all subs s = Some (set_st_retained (minus subs (st_retained s)) s).
Proof.
  intros Hok. revert s. induction Hok as [|sub subs Hsub _ IH]; intros s; simpl.
  - f_equal. destruct s as [? ? ? []]. unfold minus, set_st_retained. simpl.
    by rewrite !N.sub_0_r.
  - unfold subtract_retained, subscription_contribution_infallible, minus. simpl.
    unfold cost at 1 3 5. destruct (subscription_contribution sub) as [c|]; [|done]. simpl.
    rewrite IH. unfold minus, set_st_retained. simpl. by rewrite !N.sub_add_distr.
Qed.

(** ** One peer's set *)
Lemma sets_keyed limits set : set_ok limits set →
  keyed (λ _ sub, sub) subscription_id (subscriptions set).
Proof. intros Hok id sub Hid. by apply (so_entry _ _ Hok). Qed.
Lemma empty_set_ok limits : set_ok limits empty_set.
Proof. split; simpl; [apply fifo_ok_empty|apply N.le_0_l|done]. Qed.
Lemma set_total_values f set :
  set_total f set = sum_by f (btree_values (subscriptions set)).
Proof. unfold set_total, msum, btree_values. by rewrite btree_to_list_perm. Qed.
Lemma abs_set_length limits set : set_ok limits set → nlen (abs_set set) = msize (subscriptions set).
Proof. intros Hok. apply fifo_list_length, Hok. Qed.

(** Eviction from a coherent set removes its front. *)
Lemma set_evict_eq limit set :
  fifo_ok (order set) (subscriptions set) →
  limit < msize (subscriptions set) →
  ∃ id rest removed, order set = id :: rest ∧ subscriptions set !! id = Some removed ∧
    evict_oldest_over_limit limit set
      = (Some removed, mkSubscriptionSet (delete id (subscriptions set)) rest).
Proof.
  intros Hf Hlt. unfold evict_oldest_over_limit. destruct (order set) as [|id rest].
  { apply fifo_ok_nil_size in Hf. lia. }
  destruct Hf as [_ Hm]. destruct (Hm id) as [[removed Hid] _]; [left|].
  exists id, rest, removed. simpl. rewrite decide_True by done. by rewrite Hid.
Qed.
Lemma set_evict_none limit set :
  msize (subscriptions set) ≤ limit → evict_oldest_over_limit limit set = (None, set).
Proof.
  intros Hle. unfold evict_oldest_over_limit. destruct set as [subs [|id rest]]; [done|].
  simpl in *. by rewrite decide_False by lia.
Qed.

Record set_upserted limits sub set (replaced evicted : option PubsubPeerSubscription) set'
    : Prop := {
  su_ok : set_ok limits set';
  su_total f : set_total f set' + sum_by f (option_list replaced)
      + sum_by f (option_list evicted) = set_total f set + f sub;
  su_abs : abs_set set'
    = spec_set_upsert (max_subscriptions_per_peer limits) sub (abs_set set);
  su_gone x : x ∈ option_list replaced ++ option_list evicted →
    is_ok (subscription_contribution x) = true;
  su_new : subscriptions set' !! subscription_id sub = Some sub;
}.

(** The front of a queue a new key was pushed to is an older key. *)
Lemma touched_front {V} o (m : gmap string V) id j rest :
  fifo_ok o m → m !! id = None → 0 < msize m →
  filter (λ k, k ≠ id) o ++ [id] = j :: rest → j ≠ id.
Proof.
  intros Hf Hid Hpos Ho. pose proof (fifo_ok_not_elem _ _ _ Hf Hid) as Hin.
  rewrite filter_all in Ho by (intros k Hk ->; done).
  destruct o as [|k l]; [apply fifo_ok_nil_size in Hf; lia|].
  injection Ho as <- _. intros ->. apply Hin. left.
Qed.

Lemma set_upsert_spec limits sub set :
  set_ok limits set → sub_ok limits (subscription_id sub) sub →
  0 < max_subscriptions_per_peer limits →
  let '(replaced, evicted, set') := set_upsert sub limits set in
  set_upserted limits sub set replaced evicted set'.
Proof.
  intros Hok Hsub Hl. pose proof (sets_keyed _ _ Hok) as Hkey.
  pose proof (abs_set_length _ _ Hok) as Hlen.
  destruct Hok as [Hf Hb He]. unfold set_upsert. set (id := subscription_id sub).
  set (set1 := mkSubscriptionSet _ _).
  assert (fifo_ok (order set1) (subscriptions set1)) as Hf1 by (by apply fifo_ok_touch).
  assert (∀ j x, subscriptions set1 !! j = Some x → sub_ok limits j x) as He1.
  { intros j x Hj. simpl in Hj. apply lookup_insert_Some in Hj as [[<- <-]|[_ Hj]]; auto. }
  assert (abs_set set1 = filter (λ x, subscription_id x ≠ id) (abs_set set) ++ [sub]) as Ha1
    by (by apply fifo_list_touch).
  assert (nlen (abs_set set1) = msize (subscriptions set1)) as Hlen1
    by (by apply fifo_list_length).
  destruct (subscriptions set !! id) as [old|] eqn:Hid.
  - assert (msize (subscriptions set1) = msize (subscriptions set)) as Hs1
      by (apply msize_insert_old; eauto).
    split; [split; [done|by rewrite Hs1|done]| | | |apply lookup_insert_eq].
    + intros f. unfold set_total. simpl.
      pose proof (msum_insert f (subscriptions set) id sub old Hid). lia.
    + unfold spec_set_upsert. fold id. rewrite <-Ha1, decide_False by lia. done.
    + intros x. simpl. rewrite list_elem_of_singleton. intros ->. by apply (He id).
  - assert (msize (subscriptions set1) = msize (subscriptions set) + 1) as Hs1
      by (by apply msize_insert_new).
    assert (∀ f, set_total f set1 = f sub + set_total f set) as Ht1
      by (intros f; by apply msum_insert_new).
    destruct (decide (max_subscriptions_per_peer limits < msize (subscriptions set1))) as [Hlt|Hle].
    + destruct (set_evict_eq _ set1 Hf1 Hlt) as (j & rest & removed & Ho & Hj & ->).
      assert (j ≠ id) as Hne by (eapply (touched_front (order set)); [done..|lia|exact Ho]).
      rewrite Ho in Hf1. split; [split; simpl| | | |simpl].
      * by apply fifo_ok_pop.
      * change (msize (delete j (subscriptions set1)) ≤ max_subscriptions_per_peer limits).
        rewrite <-(fifo_ok_size _ _ (fifo_ok_pop _ _ _ Hf1)).
        pose proof (fifo_ok_size _ _ Hf1) as Hsz. rewrite nlen_cons in Hsz. lia.
      * intros i x [_ Hi]%lookup_delete_Some. by apply He1.
      * intros f. simpl. pose proof (msum_delete f (subscriptions set1) j removed Hj) as Hd.
        specialize (Ht1 f). unfold set_total in *. simpl in *. lia.
      * unfold spec_set_upsert. fold id. rewrite <-Ha1, decide_True by lia.
        unfold abs_set. rewrite Ho. by apply fifo_list_pop.
      * intros x. simpl. rewrite list_elem_of_singleton. intros ->. by apply (He1 j).
      * rewrite lookup_delete_ne by done. apply lookup_insert_eq.
    + rewrite set_evict_none by lia. split; [split; [done|lia|done]| | | |apply lookup_insert_eq].
      * intros f. rewrite Ht1. simpl. lia.
      * unfold spec_set_upsert. fold id. rewrite <-Ha1, decide_False by lia. done.
      * intros x. simpl. set_solver.
Qed.

(** ** The store *)
Lemma abs_keyed (peers : gmap string PeerSubscriptionSet) :
  keyed (λ p set, (p, abs_set set)) fst peers.
Proof. by intros p set. Qed.

Lemma values_encode limits set sub :
  set_ok limits set → sub ∈ btree_values (subscriptions set) →
  is_ok (subscription_contribution sub) = true.
Proof. intros Hok [k Hk]%btree_values_elem. by apply (so_entry _ _ Hok) in Hk as []. Qed.

(** Making room for [p]: what is left of the other peers. *)
Record made_room (p : string) s peers2 (o2 : list string)
    (removed : list PubsubPeerSubscription) : Prop := {
  mr_fifo : fifo_ok o2 (delete p peers2);
  mr_same : peers2 !! p = st_peers s !! p;
  mr_sub : peers2 ⊆ st_peers s;
  mr_bound : msize (delete p peers2) < max_peers (st_limits s);
  mr_total f : total f (st_peers s) = sum_by f removed + total f peers2;
  mr_removed : Forall (λ sub, is_ok (subscription_contribution sub) = true) removed;
  mr_abs : abs_peers (delete p peers2) o2 =
    let others := filter (λ x, x.1 ≠ p) (abs_store s) in
    if decide (max_peers (st_limits s) ≤ nlen others) then tail others else others;
}.

Lemma upsert_makes_room p s :
  store_ok s → 0 < max_peers (st_limits s) →
  ∃ peers2 o2 removed,
    (if bool_decide (st_peers s !! p = None) then
       let '(removed, s') := evict_peers_over_limit (touch_peer p s) in subtract_all removed s'
     else Some (touch_peer p s))
      = subtract_all removed (set_st_peer_order (o2 ++ [p]) (set_st_peers peers2 s)) ∧
    made_room p s peers2 o2 removed.
Proof.
  intros [Hf Hb Hs] Hpos. pose proof (fifo_ok_remove _ _ p Hf) as Hf'.
  pose proof (fifo_list_remove _ _ (st_peers s) (st_peer_order s) p (abs_keyed _)) as Habs.
  fold (abs_peers (st_peers s) (st_peer_order s)) in Habs. fold (abs_store s) in Habs.
  assert (nlen (filter (λ x, x.1 ≠ p) (abs_store s)) = msize (delete p (st_peers s))) as Hlen.
  { rewrite <-Habs. by apply fifo_list_length. }
  case_bool_decide as Hp; [|exists (st_peers s), (filter (λ j, j ≠ p) (st_peer_order s)), []].
  2:{ assert (msize (delete p (st_peers s)) < max_peers (st_limits s)) as Hlt.
      { apply not_eq_None_Some in Hp as [set Hp]. unfold msize in *.
        rewrite map_size_delete, Hp. assert (size (st_peers s) ≠ 0%nat); [|lia].
        rewrite map_size_empty_iff. intros Hemp. rewrite Hemp in Hp. done. }
      split; [by destruct s|]. split; try done. simpl. by rewrite decide_False by lia. }
  rewrite (delete_id (st_peers s) p Hp) in Hlen, Hf', Habs.
  unfold evict_peers_over_limit, touch_peer. simpl.
  rewrite filter_all in * by (intros j Hj ->; by apply (fifo_ok_not_elem _ _ _ Hf) in Hp).
  destruct (decide (max_peers (st_limits s) ≤ msize (st_peers s))) as [Hfull|Hroom].
  - destruct (st_peer_order s) as [|q rest] eqn:Ho.
    { apply fifo_ok_nil_size in Hf. lia. }
    destruct (proj1 (fifo_ok_elem _ _ q Hf)) as [set Hq]; [left|].
    assert (q ≠ p) as Hne by congruence.
    exists (delete q (st_peers s)), rest, (btree_values (subscriptions set)).
    simpl. rewrite decide_True by done. rewrite Hq. simpl. split; [done|].
    assert (delete q (st_peers s) !! p = None) as Hdel by (apply lookup_delete_None; auto).
    pose proof (fifo_ok_pop _ _ _ Hf) as Hpop.
    split; rewrite ?(delete_id _ p Hdel); simpl; [done|congruence|apply delete_subseteq| | | |].
    + rewrite <-(fifo_ok_size _ _ Hpop). pose proof (fifo_ok_size _ _ Hf) as Hsz.
      rewrite nlen_cons in Hsz. lia.
    + intros f. unfold total. rewrite (msum_delete _ _ q set Hq). f_equal.
      apply set_total_values.
    + apply Forall_forall. intros sub Hsub. eapply values_encode; [by eapply Hs|done].
    + rewrite Hlen, decide_True by done. rewrite <-Habs. unfold abs_peers.
      by apply fifo_list_pop.
  - exists (st_peers s), (st_peer_order s), []. split.
    + destruct (st_peer_order s ++ [p]) as [|q rest] eqn:Ho; simpl; [by destruct (st_peer_order s)|].
      rewrite decide_False by done. by destruct s.
    + split; rewrite ?(delete_id _ p Hp); try done; [lia|].
      simpl. rewrite decide_False by lia. done.
Qed.

Lemma spec_subs_abs p peers o :
  fifo_ok o peers →
  spec_subs p (abs_peers peers o) = abs_set (default empty_set (peers !! p)).
Proof.
  intros Hf. unfold spec_subs.
  destruct (filter (λ x, x.1 = p) (abs_peers peers o)) as [|x l] eqn:Hl.
  - destruct (peers !! p) as [set|] eqn:Hp; [|done].
    assert ((p, abs_set set) ∈ filter (λ x, x.1 = p) (abs_peers peers o)) as Hin.
    { apply list_elem_of_filter. split; [done|]. apply fifo_list_elem.
      exists p, set. split_and!; [apply (fifo_ok_elem _ _ _ Hf); eauto|done..]. }
    rewrite Hl in Hin. set_solver.
  - assert (x ∈ filter (λ x, x.1 = p) (abs_peers peers o)) as Hin by (rewrite Hl; left).
    apply list_elem_of_filter in Hin as [Hx Hin].
    apply fifo_list_elem in Hin as (q & set & _ & Hq & ->). simpl in *. subst q.
    by rewrite Hq.
Qed.

Lemma total_insert f p set' peers :
  total f (<[p := set']> peers) + set_total f (default empty_set (peers !! p))
    = set_total f set' + total f peers.
Proof.
  unfold total. destruct (peers !! p) as [set|] eqn:Hp; simpl.
  - by apply msum_insert.
  - rewrite msum_insert_new by done.
    assert (set_total f empty_set = 0) as -> by apply msum_empty. lia.
Qed.

Lemma total_ge f p peers : set_total f (default empty_set (peers !! p)) ≤ total f peers.
Proof.
  unfold total. destruct (peers !! p) as [set|] eqn:Hp; simpl.
  - by apply (msum_lookup (set_total f)) in Hp.
  - apply N.le_0_l.
Qed.

(** One counter through an upsert. *)
Lemma counter_exact (r removed replaced evicted added old new before after : N) :
  r = removed + before → new + replaced + evicted = old + added → added ≤ new →
  after + old = new + before → old ≤ before → after ≤ usize_max →
  usize_sat_add (r - removed - replaced - evicted) added = after.
Proof. intros. unfold usize_sat_add, sat_add. lia. Qed.

Record upserted p sub s s' : Prop := {
  up_limits : st_limits s' = st_limits s;
  up_ok : store_ok s';
  up_abs : abs_store s' = spec_upsert (st_limits s) p sub (abs_store s);
  up_exact : exact s → fits (st_peers s') → exact s';
  up_new : store_subscription s' p (subscription_id sub) = Some sub;
}.

Lemma upsert_checked_spec p sub added s :
  store_ok s → check_upsert sub (st_limits s) = Ok tt →
  subscription_contribution sub = Ok added →
  ∃ evicted s', upsert_checked p sub added s = Some (evicted, s') ∧ upserted p sub s s'.
Proof.
  intros Hs Hcheck Hadd.
  assert (0 < max_peers (st_limits s) ∧ 0 < max_subscriptions_per_peer (st_limits s) ∧
    nlen (ps_filters sub) ≤ max_filters_per_subscription (st_limits s)) as (Hmp & Hms & Hmf).
  { unfold check_upsert in Hcheck. repeat case_decide; try done. lia. }
  destruct (upsert_makes_room p s Hs Hmp) as (peers2 & o2 & removed & Hev & [Hf2 Hsame Hsub Hb2 Ht2 Hr2 Ha2]).
  set (old := default empty_set (st_peers s !! p)).
  assert (set_ok (st_limits s) old) as Hold.
  { unfold old. destruct (st_peers s !! p) eqn:Hp; [by eapply Hs|apply empty_set_ok]. }
  pose proof (set_upsert_spec (st_limits s) sub old Hold) as Hup.
  unfold upsert_checked. rewrite Hev, subtract_all_eq by done. simpl.
  rewrite Hsame. fold old.
  destruct (set_upsert sub (st_limits s) old) as [[replaced evicted] set'].
  destruct Hup as [Hok' Htot Habs Hgone Hnew]; [split; [done|done|by rewrite Hadd]|done|].
  rewrite subtract_all_eq by (apply Forall_forall; intros; apply Hgone; set_solver). simpl.
  rewrite subtract_all_eq by (apply Forall_forall; intros; apply Hgone; set_solver). simpl.
  do 2 eexists. split; [done|]. split; simpl.
  - done.
  - split; simpl.
    + rewrite <-insert_delete_eq. apply fifo_ok_push; [done|apply lookup_delete_eq].
    + rewrite <-insert_delete_eq, msize_insert_new by apply lookup_delete_eq. lia.
    + intros q set [[<- <-]|[_ Hq]]%lookup_insert_Some.
      * split; [done|]. intros H0. apply N2Z.inj_iff in H0. unfold msize in H0.
        assert (size (subscriptions set') = 0%nat) as Hz by lia.
        apply map_size_empty_inv in Hz. rewrite Hz in Hnew. done.
      * eapply Hs, lookup_weaken; done.
  - unfold spec_upsert. cbv zeta in Ha2 |- *. rewrite <-Ha2. unfold abs_store. simpl.
    rewrite spec_subs_abs by apply Hs. fold old.
    rewrite <-Habs. unfold abs_peers at 1. rewrite fifo_list_app. f_equal.
    + apply fifo_list_ext. intros q Hq. destruct (decide (q = p)) as [->|Hne].
      * apply (fifo_ok_elem _ _ _ Hf2) in Hq. rewrite lookup_delete_eq in Hq. by destruct Hq.
      * by rewrite lookup_insert_ne, lookup_delete_ne by done.
    + rewrite fifo_list_cons, lookup_insert_eq. done.
  - unfold exact, fits. simpl. intros -> (Hf_c & Hf_f & Hf_b & Hf_r).
    unfold measured, minus. simpl.
    assert (∀ f, f sub ≤ set_total f set') as Hge by (intros f; by eapply msum_lookup).
    pose proof (λ f, total_insert f p set' peers2) as Hins. rewrite Hsame in Hins. fold old in Hins.
    pose proof (λ f, total_ge f p peers2) as Hle. rewrite Hsame in Hle. fold old in Hle.
    assert (∀ g, cost g sub = g added) as Hcost by (intros g; unfold cost; by rewrite Hadd).
    rewrite <-!Hcost. f_equal.
    + eapply (counter_exact _ _ _ _ _ _ _ _ _ (Ht2 _) (Htot _) (Hge _) (Hins _) (Hle _)). done.
    + eapply (counter_exact _ _ _ _ _ _ _ _ _ (Ht2 _) (Htot _) (Hge _) (Hins _) (Hle _)). done.
    + eapply (counter_exact _ _ _ _ _ _ _ _ _ (Ht2 _) (Htot _) (Hge _) (Hins _) (Hle _)). done.
    + eapply (counter_exact _ _ _ _ _ _ _ _ _ (Ht2 _) (Htot _) (Hge _) (Hins _) (Hle _)). done.
  - unfold store_subscription. simpl. by rewrite lookup_insert_eq.
Qed.

(** ** Removal *)

(** A store whose peer [p] may have run out of subscriptions. *)
Record almost_ok (p : string) s : Prop := {
  ao_fifo : fifo_ok (st_peer_order s) (st_peers s);
  ao_bound : msize (st_peers s) ≤ max_peers (st_limits s);
  ao_set q set : st_peers s !! q = Some set →
    set_ok (st_limits s) set ∧ (q ≠ p → msize (subscriptions set) ≠ 0);
}.
Lemma store_ok_almost p s : store_ok s → almost_ok p s.
Proof. intros [Hf Hb Hs]. split; [done|done|]. intros q set Hq. by apply Hs in Hq as []. Qed.

Lemma abs_set_nil limits set : set_ok limits set → abs_set set = [] ↔ msize (subscriptions set) = 0.
Proof.
  intros Hok. rewrite <-(abs_set_length _ _ Hok). split; [by intros ->|].
  destruct (abs_set set); [done|]. rewrite nlen_cons. lia.
Qed.
Lemma abs_store_elem s x :
  fifo_ok (st_peer_order s) (st_peers s) →
  x ∈ abs_store s ↔ ∃ set, st_peers s !! x.1 = Some set ∧ x.2 = abs_set set.
Proof.
  intros Hf. unfold abs_store, abs_peers. rewrite fifo_list_elem. split.
  - intros (p & set & _ & Hp & ->). eauto.
  - intros (set & Hp & Hx). exists x.1, set. split_and!; [|done|by destruct x; simpl in *; subst].
    apply (fifo_ok_elem _ _ _ Hf). eauto.
Qed.

Record removed_from s s' (abs' : list (string * list PubsubPeerSubscription)) : Prop := {
  rf_limits : st_limits s' = st_limits s;
  rf_ok : store_ok s';
  rf_abs : abs_store s' = abs';
  rf_exact : exact s → exact s';
}.

Lemma remove_peer_spec p s :
  almost_ok p s →
  ∃ removed s', remove_peer p s = Some (removed, s') ∧
    removed_from s s' (spec_remove_peer p (abs_store s)).
Proof.
  intros [Hf Hb Hs]. unfold remove_peer.
  set (removed := match st_peers s !! p with
    Some peer => btree_values (subscriptions peer) | None => [] end).
  assert (Forall (λ sub, is_ok (subscription_contribution sub) = true) removed) as Henc.
  { apply Forall_forall. intros sub. unfold removed.
    destruct (st_peers s !! p) eqn:Hp; [|set_solver]. apply Hs in Hp as [Hok _].
    by apply values_encode with (st_limits s). }
  assert (∀ f, total f (st_peers s) = sum_by f removed + total f (delete p (st_peers s))) as Htot.
  { intros f. unfold removed, total. destruct (st_peers s !! p) as [set|] eqn:Hp.
    - rewrite (msum_delete _ _ p set Hp). f_equal. apply set_total_values.
    - by rewrite msum_delete_none. }
  simpl. rewrite subtract_all_eq by done. simpl. do 2 eexists. split; [done|]. split; simpl.
  - done.
  - split; simpl.
    + by apply fifo_ok_remove.
    + etrans; [apply msize_delete_le|done].
    + intros q set [Hne Hq]%lookup_delete_Some. apply Hs in Hq as [? Hpos]. auto.
  - apply fifo_list_remove, abs_keyed.
  - unfold exact. simpl. intros ->. unfold measured, minus. simpl. fold removed.
    assert (∀ f, total f (st_peers s) - sum_by f removed = total f (delete p (st_peers s)))
      as Hsub by (intros f; rewrite Htot; lia).
    by rewrite !Hsub.
Qed.

Lemma set_remove_spec limits id set :
  set_ok limits set →
  let '(removed, set') := set_remove id set in
  set_ok limits set' ∧ abs_set set' = filter (λ x, subscription_id x ≠ id) (abs_set set) ∧
  (∀ f, set_total f set = sum_by f (option_list removed) + set_total f set') ∧
  Forall (λ sub, is_ok (subscription_contribution sub) = true) (option_list removed).
Proof.
  intros Hok. pose proof (sets_keyed _ _ Hok) as Hkey. destruct Hok as [Hf Hb He].
  unfold set_remove. split_and!; [split; simpl| | |].
  - by apply fifo_ok_remove.
  - etrans; [apply msize_delete_le|done].
  - intros j sub [_ Hj]%lookup_delete_Some. auto.
  - by apply fifo_list_remove.
  - intros f. unfold set_total. simpl. destruct (subscriptions set !! id) as [x|] eqn:Hx; simpl.
    + rewrite (msum_delete f _ id x Hx). lia.
    + by rewrite msum_delete_none.
  - destruct (subscriptions set !! id) as [x|] eqn:Hx; simpl; [|constructor].
    apply Forall_singleton. by apply (He id).
Qed.

Lemma abs_peers_update p set set' peers o :
  peers !! p = Some set →
  abs_peers (<[p := set']> peers) o
    = (λ x, if decide (x.1 = p) then (x.1, abs_set set') else x) <$> abs_peers peers o.
Proof.
  intros Hp. unfold abs_peers. induction o as [|q o IH]; [done|].
  rewrite !fifo_list_cons, fmap_app, IH. f_equal.
  destruct (decide (q = p)) as [->|Hne].
  - rewrite lookup_insert_eq, Hp. simpl. by rewrite decide_True.
  - rewrite lookup_insert_ne by done. destruct (peers !! q); simpl; [|done].
    by rewrite decide_False.
Qed.

(** Removing from a present peer's set, before the empty set is dropped. *)
Lemma remove_from_set p id set s :
  store_ok s → st_peers s !! p = Some set →
  let '(removed, set') := set_remove id set in
  let s1 := set_st_peers (<[p := set']> (st_peers s)) s in
  ∃ s2, subtract_all (option_list removed) s1 = Some s2 ∧
    st_limits s2 = st_limits s ∧ st_peers s2 = <[p := set']> (st_peers s) ∧
    almost_ok p s2 ∧ set_ok (st_limits s) set' ∧ (exact s → exact s2) ∧
    abs_store s2 = (λ x, if decide (x.1 = p)
      then (x.1, filter (λ y, subscription_id y ≠ id) x.2) else x) <$> abs_store s.
Proof.
  intros [Hf Hb Hs] Hp. destruct (Hs p set Hp) as [Hset _].
  pose proof (set_remove_spec (st_limits s) id set Hset) as Hrem.
  destruct (set_remove id set) as [removed set']. destruct Hrem as (Hok' & Habs & Htot & Henc).
  intros s1. rewrite subtract_all_eq by done. eexists. split; [done|]. split_and!; simpl; try done.
  - split; simpl.
    + apply fifo_ok_update; [done|eauto].
    + by rewrite msize_insert_old by eauto.
    + intros q set1 [[<- <-]|[Hne Hq]]%lookup_insert_Some; [done|].
      by apply Hs in Hq as [].
  - unfold exact. simpl. intros ->. unfold measured, minus. simpl.
    rewrite msize_insert_old by eauto.
    assert (∀ f, total f (st_peers s) - sum_by f (option_list removed)
      = total f (<[p := set']> (st_peers s))) as Hsub.
    { intros f. pose proof (total_insert f p set' (st_peers s)) as Hi.
      rewrite Hp in Hi. simpl in Hi. specialize (Htot f).
      pose proof (total_ge f p (st_peers s)) as Hge. rewrite Hp in Hge. simpl in Hge. lia. }
    by rewrite !Hsub.
  - unfold abs_store. simpl. rewrite (abs_peers_update p set set') by done. rewrite Habs.
    apply list_fmap_ext. intros i x Hx. case_decide as Hxp; [|done].
    apply list_elem_of_lookup_2, abs_store_elem in Hx as (setx & Hq & ->); [|done].
    rewrite Hxp, Hp in Hq. by injection Hq as ->.
Qed.

Lemma filter_nonempty p s :
  almost_ok p s →
  filter (λ x, x.2 ≠ []) (abs_store s)
    = if is_some_and set_is_empty (st_peers s !! p) then filter (λ x, x.1 ≠ p) (abs_store s)
      else abs_store s.
Proof.
  intros [Hf Hb Hs].
  assert (∀ x, x ∈ abs_store s → x.2 ≠ [] ↔
    ¬ (x.1 = p ∧ is_some_and set_is_empty (st_peers s !! p) = true)) as Hne.
  { intros x (set & Hx & ->)%abs_store_elem; [|done]. destruct (Hs _ _ Hx) as [Hok Hpos].
    rewrite (abs_set_nil _ _ Hok). destruct (decide (x.1 = p)) as [<-|Hne].
    - rewrite Hx. simpl. unfold set_is_empty. rewrite bool_decide_eq_true. tauto.
    - tauto. }
  rewrite (filter_ext_in _ _ _ Hne). destruct (is_some_and _ _).
  - apply filter_ext_in. intros x _. naive_solver.
  - apply filter_all. naive_solver.
Qed.

Lemma store_remove_spec p id s :
  store_ok s →
  ∃ removed s', store_remove p id s = Some (removed, s') ∧
    removed_from s s' (spec_remove p id (abs_store s)).
Proof.
  intros Hs. unfold store_remove. destruct (st_peers s !! p) as [set|] eqn:Hp.
  - pose proof (remove_from_set p id set s Hs Hp) as Hr.
    destruct (set_remove id set) as [removed set'].
    destruct Hr as (s2 & -> & Hlim & Hpeers & Hao & Hset' & Hex & Habs). simpl.
    pose proof (filter_nonempty p s2 Hao) as Hfilter. unfold spec_remove. rewrite <-Habs, Hfilter.
    destruct (is_some_and _ _) eqn:Hempty.
    + destruct (remove_peer_spec p s2 Hao) as (removed2 & s3 & -> & [Hl3 Hok3 Ha3 He3]). simpl.
      do 2 eexists. split; [done|]. split; [congruence|done|done|auto].
    + do 2 eexists. split; [done|]. split; [done| |done|done].
      destruct Hao as [Hf Hb Hq]. split; [done|done|]. intros q setq Hsq.
      destruct (Hq q setq Hsq) as [Hokq Hpos]. split; [done|].
      destruct (decide (q = p)) as [->|]; [|auto]. rewrite Hsq in Hempty. simpl in Hempty.
      by apply bool_decide_eq_false in Hempty.
  - simpl. rewrite Hp. simpl. do 2 eexists. split; [done|]. split; [done|done| |done].
    unfold spec_remove. destruct Hs as [Hf Hb Hs].
    replace (_ <$> abs_store s) with (abs_store s).
    + pose proof (filter_nonempty p s (store_ok_almost p s (Build_peers_ok _ _ _ Hf Hb Hs))) as Hfi.
      rewrite Hp in Hfi. by symmetry.
    + symmetry. rewrite <-(list_fmap_id (abs_store s)) at 2. apply list_fmap_ext.
      intros i x (set & Hx & _)%list_elem_of_lookup_2%abs_store_elem; [|done].
      rewrite decide_False; [done|]. congruence.
Qed.
End subscriptions_spec.

(** ** Peer subscriptions: theorems

    Whole runs of the subscription store against its specification, the exact
    accounting of retained control state, and the agreement of the matching
    functions. *)

Section subscriptions_props.
Context `{!Nostr}.
Implicit Types s : PubsubPeerSubscriptionStore.

(** The store's public state-changing operations. *)
Inductive store_op : Type :=
  | OpMessage (peer_id : string) (message : ClientMessage)
  | OpUpsert (peer_id : string) (sub : PubsubPeerSubscription)
  | OpRemove (peer_id id : string)
  | OpRemovePeer (peer_id : string).

Definition run_store_op (op : store_op) s : option PubsubPeerSubscriptionStore :=
  match op with
  | OpMessage p msg => snd <$> apply_client_message p msg s
  | OpUpsert p sub => snd <$> store_upsert p sub s
  | OpRemove p id => snd <$> store_remove p id s
  | OpRemovePeer p => snd <$> remove_peer p s
  end.
Fixpoint run_store (ops : list store_op) s : option PubsubPeerSubscriptionStore :=
  match ops with
  | [] => Some s
  | op :: ops' => s' ← run_store_op op s; run_store ops' s'
  end.

(** Rejected subscriptions change nothing. *)
Definition spec_request (limits : PubsubSubscriptionLimits) (p : string)
    (sub : PubsubPeerSubscription) (l : list (string * list PubsubPeerSubscription))
    : list (string * list PubsubPeerSubscription) :=
  if is_ok (_ ← check_upsert sub limits; subscription_contribution sub)
  then spec_upsert limits p sub l else l.
Definition spec_op (limits : PubsubSubscriptionLimits)
    (l : list (string * list PubsubPeerSubscription)) (op : store_op)
    : list (string * list PubsubPeerSubscription) :=
  match op with
  | OpMessage p (CmReq id filters) => spec_request limits p (mkPeerSubscription id filters) l
  | OpMessage p (CmClose id) => spec_remove p id l
  | OpMessage _ (CmEvent _ | CmOther) => l
  | OpUpsert p sub => spec_request limits p sub l
  | OpRemove p id => spec_remove p id l
  | OpRemovePeer p => spec_remove_peer p l
  end.

(** One operation, with the accounting conditional on the result. *)
Record stepped s s' (abs' : list (string * list PubsubPeerSubscription)) : Prop := {
  sp_limits : st_limits s' = st_limits s;
  sp_ok : store_ok s';
  sp_abs : abs_store s' = abs';
  sp_exact : exact s → fits (st_peers s') → exact s';
}.
Lemma removed_stepped s s' l : removed_from s s' l → stepped s s' l.
Proof. intros []. split; auto. Qed.
Lemma stepped_refl s : store_ok s → stepped s s (abs_store s).
Proof. by split. Qed.

Lemma store_upsert_spec p sub s :
  store_ok s →
  ∃ r s', store_upsert p sub s = Some (r, s') ∧
    is_ok r = is_ok (_ ← check_upsert sub (st_limits s); subscription_contribution sub) ∧
    stepped s s' (spec_request (st_limits s) p sub (abs_store s)).
Proof.
  intros Hs. unfold store_upsert, spec_request.
  destruct (check_upsert sub (st_limits s)) as [[]|e] eqn:Hcheck; simpl;
    [|do 2 eexists; split_and!; [done|done|by apply stepped_refl]].
  destruct (subscription_contribution sub) as [added|e] eqn:Hadd; simpl;
    [|do 2 eexists; split_and!; [done|done|by apply stepped_refl]].
  destruct (upsert_checked_spec p sub added s Hs Hcheck Hadd) as (evicted & s' & -> & []).
  simpl. do 2 eexists. split_and!; [done|done|by split].
Qed.

Lemma run_store_op_spec op s :
  store_ok s →
  ∃ s', run_store_op op s = Some s' ∧ stepped s s' (spec_op (st_limits s) (abs_store s) op).
Proof.
  intros Hs. destruct op as [p [id filters|id|event|]|p sub|p id|p]; simpl.
  - unfold upsert_filters.
    destruct (store_upsert_spec p (mkPeerSubscription id filters) s Hs) as (r & s' & -> & _ & ?).
    simpl. eauto.
  - destruct (store_remove_spec p id s Hs) as (r & s' & -> & ?). simpl.
    eauto using removed_stepped.
  - eauto using stepped_refl.
  - eauto using stepped_refl.
  - destruct (store_upsert_spec p sub s Hs) as (r & s' & -> & _ & ?). simpl. eauto.
  - destruct (store_remove_spec p id s Hs) as (r & s' & -> & ?). simpl.
    eauto using removed_stepped.
  - destruct (remove_peer_spec p s (store_ok_almost p s Hs)) as (r & s' & -> & ?). simpl.
    eauto using removed_stepped.
Qed.

Lemma run_store_app ops1 ops2 s :
  run_store (ops1 ++ ops2) s = (s' ← run_store ops1 s; run_store ops2 s').
Proof.
  revert s. induction ops1 as [|op ops1 IH]; intros s; simpl; [done|].
  destruct (run_store_op op s); simpl; [apply IH|done].
Qed.
Lemma run_store_spec ops s :
  store_ok s →
  ∃ s', run_store ops s = Some s' ∧ store_ok s' ∧ st_limits s' = st_limits s ∧
    abs_store s' = foldl (spec_op (st_limits s)) (abs_store s) ops.
Proof.
  revert s. induction ops as [|op ops IH]; intros s Hs; simpl; [by exists s|].
  destruct (run_store_op_spec op s Hs) as (s1 & -> & [Hl Hok Habs _]). simpl.
  destruct (IH s1 Hok) as (s' & Hrun & Hok' & Hl' & Habs').
  exists s'. split_and!; [done|done|congruence|]. by rewrite Habs', Habs, Hl.
Qed.

Lemma store_new_ok limits : store_ok (store_new limits).
Proof. split; simpl; [apply fifo_ok_empty|apply N.le_0_l|done]. Qed.

(** C16. The store implements its specification over any sequence of
    client messages, upserts and removals: it never panics, and what it
    holds is what the touch-ordered lists of the specification hold, with the
    least recently touched peer or subscription evicted when full. *)
Theorem subscription_store_refines limits ops :
  ∃ s, run_store ops (store_new limits) = Some s ∧ store_ok s ∧
    abs_store s = foldl (spec_op limits) [] ops.
Proof.
  destruct (run_store_spec ops _ (store_new_ok limits)) as (s & ? & ? & _ & ?). eauto.
Qed.

(** C33. Accounting is exact: after any sequence of operations during
    which the measured totals are countable with a [usize], the
    incrementally maintained snapshot is what measuring the retained
    subscriptions from scratch gives. *)
Theorem subscription_snapshot_exact limits ops s :
  (∀ k s', run_store (take k ops) (store_new limits) = Some s' → fits (st_peers s')) →
  run_store ops (store_new limits) = Some s →
  st_retained s = measured (st_peers s).
Proof.
  revert s. induction ops as [|op ops IH] using rev_ind; intros s Hfits; simpl.
  - intros [= <-]. done.
  - rewrite run_store_app. destruct (run_store ops (store_new limits)) as [s1|] eqn:Hrun; [|done].
    simpl. intros Hop.
    destruct (run_store_spec ops _ (store_new_ok limits)) as (s1' & Hrun' & Hok1 & _).
    assert (s1' = s1) as -> by congruence.
    destruct (run_store_op_spec op s1 Hok1) as (s2 & Hs2 & [_ _ _ Hex]).
    rewrite Hs2 in Hop. simpl in Hop. injection Hop as <-. apply Hex.
    + apply (IH s1); [|done]. intros k s' Hk. apply (Hfits (k `min` length ops)%nat).
      rewrite take_app_le by lia. rewrite <-Hk. f_equal.
      destruct (decide (k ≤ length ops)%nat); [by rewrite Nat.min_l|].
      by rewrite Nat.min_r, !take_ge by lia.
    + apply (Hfits (length (ops ++ [op]))). rewrite take_ge by done.
      rewrite run_store_app, Hrun. simpl. by rewrite Hs2.
Qed.

(** ** Matching *)
Lemma matching_subscriptions_elem s p event sub :
  sub ∈ matching_subscriptions s p event ↔
    sub_matches sub event = true ∧ ∃ id, store_subscription s p id = Some sub.
Proof.
  unfold matching_subscriptions, store_subscription.
  destruct (st_peers s !! p) as [set|]; simpl.
  - rewrite list_elem_of_filter, btree_values_elem, Is_true_true. done.
  - split; [set_solver|]. by intros (_ & id & [=]).
Qed.
Lemma peer_interest_subscribed s p event :
  peer_interest s p event = Subscribed ↔ ∃ sub, sub ∈ matching_subscriptions s p event.
Proof.
  unfold peer_interest, matching_subscriptions. destruct (st_peers s !! p) as [set|].
  - destruct (existsb _ _) eqn:He.
    + apply existsb_exists in He as (sub & Hin%list_elem_of_In & Hm). split; [|done].
      intros _. exists sub. apply list_elem_of_filter. by rewrite Is_true_true.
    + split; [done|]. intros (sub & [Hm Hin]%list_elem_of_filter).
      rewrite <-not_true_iff_false in He. destruct He. apply existsb_exists.
      exists sub. rewrite <-list_elem_of_In. by apply Is_true_true in Hm.
  - split; [done|]. intros (sub & Hin). set_solver.
Qed.
Lemma interested_peers_elem s p event :
  p ∈ interested_peers s event ↔ ∃ sub, sub ∈ matching_subscriptions s p event.
Proof.
  rewrite <-peer_interest_subscribed. unfold interested_peers, peer_interest.
  rewrite list_elem_of_fmap. split.
  - intros ([q set] & -> & [Hm Hin]%list_elem_of_filter). apply btree_to_list_elem in Hin.
    simpl in *. rewrite Hin. apply Is_true_true in Hm. by rewrite Hm.
  - destruct (st_peers s !! p) as [set|] eqn:Hp; [|done]. destruct (existsb _ _) eqn:He; [|done].
    intros _. exists (p, set). split; [done|]. apply list_elem_of_filter.
    by rewrite btree_to_list_elem, Is_true_true.
Qed.

(** The matching functions agree: a peer is interested in an event
    exactly when one of its retained subscriptions matches, exactly then
    the delivery policy acts, and the three listings report the same pairs,
    every interested peer once. *)
Theorem subscription_matching_agrees s event :
  (∀ p, peer_interest s p event = Subscribed ↔
    ∃ id sub, store_subscription s p id = Some sub ∧ sub_matches sub event = true) ∧
  (∀ p, p ∈ interested_peers s event ↔ peer_interest s p event = Subscribed) ∧
  (∀ p sub, (p, sub) ∈ matching_peer_subscriptions s event ↔
    sub ∈ matching_subscriptions s p event) ∧
  (∀ strategy p, action_for_event strategy s p event ≠ Skip ↔
    p ∈ interested_peers s event) ∧
  NoDup (interested_peers s event).
Proof.
  split_and!.
  - intros p. rewrite peer_interest_subscribed. split.
    + intros (sub & [Hm (id & Hid)]%matching_subscriptions_elem). eauto.
    + intros (id & sub & Hid & Hm). exists sub. apply matching_subscriptions_elem. eauto.
  - intros p. by rewrite interested_peers_elem, peer_interest_subscribed.
  - intros p sub. unfold matching_peer_subscriptions, matching_subscriptions.
    rewrite list_elem_of_bind. split.
    + intros ([q set] & (x & [= -> ->] & Hx)%list_elem_of_fmap & Hin%btree_to_list_elem).
      by rewrite Hin.
    + destruct (st_peers s !! p) as [set|] eqn:Hp; [|set_solver]. intros Hin.
      exists (p, set). rewrite btree_to_list_elem. split; [|done].
      apply list_elem_of_fmap_2. done.
  - intros strategy p. rewrite interested_peers_elem, <-peer_interest_subscribed.
    unfold action_for_event, action_for_peer. destruct strategy, (peer_interest s p event); done.
  - unfold interested_peers. eapply sublist_NoDup; [apply (btree_to_list_NoDup (st_peers s))|].
    apply fmap_sublist, sublist_filter.
Qed.
End subscriptions_props.

Module SubscriptionsWitness.
#[local] Existing Instance Toy.toy_nostr.
Definition limits : PubsubSubscriptionLimits := mkSubscriptionLimits 2 2 2.
Definition notes : Filter := Toy.ToyFilter (Some 1) None None None.
Definition sub (id : string) : store_op := OpUpsert "peer-a" (mkPeerSubscription id [notes]).
(** A third subscription evicts the first of the peer, a third peer the first peer. *)
Definition ops : list store_op :=
  [sub "one"; sub "two"; sub "three"; OpMessage "peer-b" (CmReq "s" [notes; notes]);
   OpMessage "peer-b" (CmClose "s")].

(** The totals of a small run are countable. *)
Definition fits_dec (peers : gmap string PeerSubscriptionSet) : bool :=
  let r := measured peers in
  bool_decide (sn_subscription_count r ≤ usize_max) && bool_decide (sn_filter_count r ≤ usize_max)
  && bool_decide (sn_encoded_filter_bytes r ≤ usize_max)
  && bool_decide (sn_encoded_req_bytes r ≤ usize_max).
Lemma fits_dec_sound peers : fits_dec peers = true → fits peers.
Proof. unfold fits_dec, fits. rewrite !andb_true_iff, !bool_decide_eq_true. tauto. Qed.
Definition prefix_fits (k : nat) : bool :=
  match run_store (take k ops) (store_new limits) with
  | Some s => fits_dec (st_peers s)
  | None => true
  end.
Lemma prefixes_fit : forallb prefix_fits (seq 0 6) = true.
Proof. vm_compute. reflexivity. Qed.
Lemma ops_fit k s : run_store (take k ops) (store_new limits) = Some s → fits (st_peers s).
Proof.
  intros Hrun. apply fits_dec_sound. pose proof prefixes_fit as Hall.
  rewrite forallb_forall in Hall. specialize (Hall (k `min` 5)%nat).
  unfold prefix_fits in Hall.
  assert (take (k `min` 5) ops = take k ops) as Ht.
  { destruct (decide (k ≤ 5)%nat); [by rewrite Nat.min_l|].
    rewrite Nat.min_r by lia. by rewrite !take_ge by (simpl; lia). }
  rewrite Ht, Hrun in Hall. apply Hall, in_seq. lia.
Qed.

Definition final : PubsubPeerSubscriptionStore :=
  default (store_new limits) (run_store ops (store_new limits)).
Lemma final_eq : run_store ops (store_new limits) = Some final.
Proof.
  assert (is_some_and (λ _, true) (run_store ops (store_new limits)) = true) as Hrun
    by (vm_compute; reflexivity).
  unfold final. by destruct (run_store ops (store_new limits)).
Qed.
Lemma subscription_snapshot_exact_witness :
  st_retained final = mkSubscriptionSnapshot 1 2 2 4 20 ∧
  st_retained final = measured (st_peers final).
Proof.
  split; [vm_compute; reflexivity|].
  exact (subscription_snapshot_exact limits ops final ops_fit final_eq).
Defined.
End SubscriptionsWitness.
