(* ===== verification/Pagination.v ===== *)
(** * History pagination

    crates/nostr-pubsub/src/pagination.rs: a cursor that walks one source's
    history of one filter backwards, page by page, and says when it is done.
    Sources are faithful or not; the cursor never claims more than what its
    pages show. *)

From S2P Require Export Events.

Record HistoryPageToken : Set := mkToken { tk_cursor : N; tk_page : N }.
#[export] Instance HistoryPageToken_eq_dec : EqDecision HistoryPageToken.
Proof. solve_decision. Defined.

Inductive HistoryPageCompletion : Set := Complete | Partial.
Inductive HistoryPageStatus : Set := Advanced | Retry | Exhausted | Limited | Stale.
#[export] Instance HistoryPageCompletion_eq_dec : EqDecision HistoryPageCompletion.
Proof. solve_decision. Defined.
#[export] Instance HistoryPageStatus_eq_dec : EqDecision HistoryPageStatus.
Proof. solve_decision. Defined.

Record HistoryPageOutcome : Set := mkOutcome {
  oc_status : HistoryPageStatus;
  oc_oldest : option N;
  oc_unique_events : N;
}.

Section pagination.
Context `{!Nostr}.

Record HistoryPage : Type := mkPage {
  pg_token : HistoryPageToken;
  pg_source : string;
  pg_filter : Filter;
}.
Record ActivePage : Type := mkActive {
  ap_token : HistoryPageToken;
  ap_seen : gset EventId;
  ap_oldest : option N;
  ap_overflow : bool;
}.
Record HistoryCursor : Type := mkCursor {
  hc_source : string;
  hc_filter : Filter;
  hc_initial_limit : N;
  hc_max_limit : N;
  hc_identity : N;
  hc_generation : N;
  hc_active : option ActivePage;
  hc_stopped : bool;
}.
Implicit Types c : HistoryCursor.

Definition set_hc_filter v c : HistoryCursor :=
  mkCursor (hc_source c) v (hc_initial_limit c) (hc_max_limit c) (hc_identity c)
    (hc_generation c) (hc_active c) (hc_stopped c).
Definition set_hc_generation v c : HistoryCursor :=
  mkCursor (hc_source c) (hc_filter c) (hc_initial_limit c) (hc_max_limit c) (hc_identity c)
    v (hc_active c) (hc_stopped c).
Definition set_hc_active v c : HistoryCursor :=
  mkCursor (hc_source c) (hc_filter c) (hc_initial_limit c) (hc_max_limit c) (hc_identity c)
    (hc_generation c) v (hc_stopped c).
Definition set_hc_stopped v c : HistoryCursor :=
  mkCursor (hc_source c) (hc_filter c) (hc_initial_limit c) (hc_max_limit c) (hc_identity c)
    (hc_generation c) (hc_active c) v.

(** [NEXT_CURSOR_ID] is the state; a successful [compare_exchange] claims
    its value and increments it. *)
Definition cursor_new (source : string) (filter : Filter) (now max_limit : N)
    : SE N PubsubError HistoryCursor := λ next_cursor_id,
  let limit := default 100 (filter_limit filter) in
  if decide (limit = 0 ∨ max_limit < limit ∨ 65536 < max_limit) then
    (Err (Validation "invalid history page limits"), next_cursor_id)
  else
    let until := default now (filter_until filter) in
    if is_some_and (λ since, bool_decide (until < since)) (filter_since filter) then
      (Err (Validation "history since exceeds until"), next_cursor_id)
    else
      let filter := filter_set_until (Some until) (filter_set_limit (Some limit) filter) in
      match checked_add u64_max next_cursor_id 1 with
      | None => (Err (Validation "history cursor identity exhausted"), next_cursor_id)
      | Some next =>
          (Ok (mkCursor source filter limit max_limit next_cursor_id 0 None false), next)
      end.

Definition begin_page c : option HistoryPage * HistoryCursor :=
  if hc_stopped c then (None, c)
  else match hc_active c with
  | Some _ => (None, c)
  | None =>
      match checked_add u64_max (hc_generation c) 1 with
      | None => (None, c)
      | Some generation =>
          let token := mkToken (hc_identity c) generation in
          (Some (mkPage token (hc_source c) (hc_filter c)),
           set_hc_active (Some (mkActive token ∅ None false)) (set_hc_generation generation c))
      end
  end.

Definition observe (token : HistoryPageToken) (event : QueryEvent) c : bool * HistoryCursor :=
  match hc_active c with
  | Some page =>
      if decide (ap_token page = token) then
        let value := as_event (qe_event event) in
        if bool_decide (source_id (qe_source event) ≠ hc_source c)
          || negb (filter_match (hc_filter c) value)
          || bool_decide (event_id value ∈ ap_seen page)
        then (false, c)
        else if decide (ssize (ap_seen page) = hc_max_limit c) then
          (false, set_hc_active
            (Some (mkActive (ap_token page) (ap_seen page) (ap_oldest page) true)) c)
        else
          (true, set_hc_active
            (Some (mkActive (ap_token page) ({[event_id value]} ∪ ap_seen page)
              (Some (match ap_oldest page with
                     | None => event_created_at value
                     | Some oldest => oldest `min` event_created_at value
                     end)) (ap_overflow page))) c)
      else (false, c)
  | None => (false, c)
  end.

(** The constructor sets [until] and [limit], so the [expect]s hold;
    [None] is their panic. *)
Definition finish_complete (page : ActivePage) (oldest : N) c
    : option (HistoryPageStatus * HistoryCursor) :=
  until ← filter_until (hc_filter c);
  limit ← filter_limit (hc_filter c);
  let unique_events := ssize (ap_seen page) in
  if decide (oldest < until) then
    Some (Advanced, set_hc_filter (filter_set_limit (Some (hc_initial_limit c))
      (filter_set_until (Some oldest) (hc_filter c))) c)
  else if decide (limit ≤ unique_events) then
    if decide (limit = hc_max_limit c) then Some (Limited, set_hc_stopped true c)
    else Some (Advanced, set_hc_filter
      (filter_set_limit (Some (sat_mul usize_max limit 2 `min` hc_max_limit c))
        (hc_filter c)) c)
  else if bool_decide (until = 0)
    || is_some_and (λ since, bool_decide (until ≤ since)) (filter_since (hc_filter c))
  then Some (Exhausted, set_hc_stopped true c)
  else Some (Advanced, set_hc_filter (filter_set_limit (Some (hc_initial_limit c))
    (filter_set_until (Some (until - 1)) (hc_filter c))) c).

Definition finish_page (token : HistoryPageToken) (completion : HistoryPageCompletion) c
    : option (HistoryPageOutcome * HistoryCursor) :=
  match hc_active c with
  | Some page =>
      if decide (ap_token page = token) then
        let c := set_hc_active None c in
        '(status, c) ←
          (if ap_overflow page then Some (Limited, set_hc_stopped true c)
           else if decide (completion = Partial) then Some (Retry, c)
           else match ap_oldest page with
           | Some oldest => finish_complete page oldest c
           | None => Some (Exhausted, set_hc_stopped true c)
           end);
        Some (mkOutcome status (ap_oldest page) (ssize (ap_seen page)), c)
      else Some (mkOutcome Stale None 0, c)
  | None => Some (mkOutcome Stale None 0, c)
  end.

Definition cancel c : HistoryCursor := set_hc_stopped true (set_hc_active None c).
End pagination.

(** ** Walking a source's history *)
Section pagination_spec.
Context `{!Nostr}.
Implicit Types (c : HistoryCursor) (F : Filter).

(** A cursor made from the filter [F] (with its window and limit set). *)
Record cursor_ok F c : Prop := {
  co_bounds : ∃ limit until,
    filter_limit (hc_filter c) = Some limit ∧ filter_until (hc_filter c) = Some until ∧
    1 ≤ limit ≤ hc_max_limit c ∧ until ≤ u64_max;
  co_initial : 1 ≤ hc_initial_limit c ≤ hc_max_limit c;
  co_max : hc_max_limit c ≤ 65536;
  co_since : filter_since (hc_filter c) = filter_since F;
  co_match e : filter_match (hc_filter c) e = true ↔
    filter_match F e = true ∧
    ∃ until, filter_until (hc_filter c) = Some until ∧ event_created_at e ≤ until;
}.

(** What the cursor's current page is in scope for. *)
Definition in_scope c (q : QueryEvent) : bool :=
  bool_decide (source_id (qe_source q) = hc_source c)
  && filter_match (hc_filter c) (as_event (qe_event q)).
Definition scope_ids c (resp : list QueryEvent) : gset EventId :=
  list_to_set ((λ q, event_id (as_event (qe_event q))) <$> filter (in_scope c) resp).

Fixpoint observe_all (token : HistoryPageToken) (resp : list QueryEvent) c : HistoryCursor :=
  match resp with
  | [] => c
  | q :: resp' => observe_all token resp' (observe token q c).2
  end.

(** A source holding the events [E] answers a page as NIP-01 asks: what it
    leaves out is no newer than anything it returns, and it leaves something
    out only to keep within the limit. *)
Definition faithful (E : Event → Prop) c (resp : list QueryEvent) : Prop :=
  ∀ e, E e → filter_match (hc_filter c) e = true → event_id e ∉ scope_ids c resp →
    (∃ limit, filter_limit (hc_filter c) = Some limit ∧ limit ≤ ssize (scope_ids c resp)) ∧
    ∀ q, q ∈ resp → in_scope c q = true →
      event_created_at e ≤ event_created_at (as_event (qe_event q)).

(** One page: requested, answered and finished. *)
Definition run_page (resp : list QueryEvent) (completion : HistoryPageCompletion) c
    : option (HistoryPageOutcome * gset EventId * HistoryCursor) :=
  let '(page, c1) := begin_page c in
  page ← page;
  let c2 := observe_all (pg_token page) resp c1 in
  let seen := match hc_active c2 with Some p => ap_seen p | None => ∅ end in
  '(outcome, c3) ← finish_page (pg_token page) completion c2;
  Some (outcome, seen, c3).

(** [walk E F max n seen c]: some pages of a source holding [E], [n] of
    them advancing, have shown the identifiers [seen]. *)
Inductive walk (E : Event → Prop) (c0 : HistoryCursor)
    : N → gset EventId → HistoryCursor → Prop :=
  | walk_start : walk E c0 0 ∅ c0
  | walk_page n seen c resp completion outcome ids c' :
      walk E c0 n seen c →
      (completion = Complete → faithful E c resp) →
      run_page resp completion c = Some (outcome, ids, c') →
      walk E c0 (if decide (oc_status outcome = Advanced) then n + 1 else n)
        (ids ∪ seen) c'.

Lemma cursor_new_ok `{!NostrLaws _} source F now max_limit id c next :
  now ≤ u64_max → (∀ u, filter_until F = Some u → u ≤ u64_max) →
  cursor_new source F now max_limit id = (Ok c, next) →
  cursor_ok (hc_filter c) c ∧ hc_active c = None ∧ hc_stopped c = false ∧
  next = id + 1 ∧ hc_identity c = id.
Proof.
  intros Hnow Hu. unfold cursor_new. case_decide as Hl; [done|].
  destruct (is_some_and _ _) eqn:Hsince; [done|].
  unfold checked_add. case_decide; [|done]. intros [= <- <-]. simpl. split_and!; try done.
  assert (default now (filter_until F) ≤ u64_max) as Hub.
  { destruct (filter_until F) eqn:HF; simpl; [by apply Hu|done]. }
  split; simpl; try done; try lia.
  - do 2 eexists. split; [|split; [|split]].
    + by rewrite filter_limit_set_until, filter_limit_set_limit.
    + by rewrite filter_until_set_until.
    + lia.
    + done.
  - intros e. split; [|tauto]. intros He. split; [done|].
    exists (default now (filter_until F)). rewrite filter_until_set_until. split; [done|].
    eapply filter_match_until; [done|]. apply filter_until_set_until.
Qed.

(** ** One page *)
Record page_ok c (resp : list QueryEvent) (p p' : ActivePage) : Prop := {
  pk_token : ap_token p' = ap_token p;
  pk_grows : ap_overflow p' = false → ap_overflow p = false;
  pk_seen : ap_overflow p' = false → ap_seen p' = ap_seen p ∪ scope_ids c resp;
  pk_oldest o : ap_oldest p' = Some o → ap_oldest p = Some o ∨
    ∃ q, q ∈ resp ∧ in_scope c q = true ∧ event_created_at (as_event (qe_event q)) = o;
  pk_none : (ap_oldest p = None ↔ ap_seen p = ∅) → (ap_oldest p' = None ↔ ap_seen p' = ∅);
  pk_bound : ssize (ap_seen p) ≤ hc_max_limit c → ssize (ap_seen p') ≤ hc_max_limit c;
}.

Lemma in_scope_spec c q :
  in_scope c q = true ↔
    source_id (qe_source q) = hc_source c ∧
    filter_match (hc_filter c) (as_event (qe_event q)) = true.
Proof. unfold in_scope. by rewrite andb_true_iff, bool_decide_eq_true. Qed.
Lemma scope_ids_cons c q resp :
  scope_ids c (q :: resp) =
    (if in_scope c q then {[event_id (as_event (qe_event q))]} else ∅) ∪ scope_ids c resp.
Proof.
  unfold scope_ids. rewrite filter_cons. destruct (in_scope c q); simpl; set_solver.
Qed.

Lemma observe_spec c p q :
  hc_active c = Some p →
  ∃ p', (observe (ap_token p) q c).2 = set_hc_active (Some p') c ∧ page_ok c [q] p p'.
Proof.
  intros Hp. unfold observe. rewrite Hp, decide_True by done.
  assert (set_hc_active (Some p) c = c) as Hset by (destruct c; simpl in *; by rewrite Hp).
  set (id := event_id (as_event (qe_event q))).
  assert (scope_ids c [q] = if in_scope c q then {[id]} else ∅) as Hids.
  { rewrite scope_ids_cons. unfold scope_ids. simpl. destruct (in_scope c q); set_solver. }
  destruct (_ || _) eqn:Hskip.
  - exists p. split; [done|].
    assert (scope_ids c [q] ⊆ ap_seen p) as Hsub.
    { rewrite Hids. destruct (in_scope c q) eqn:Hin; [|set_solver].
      apply in_scope_spec in Hin as [Hsrc Hm]. rewrite !orb_true_iff, !bool_decide_eq_true in Hskip.
      rewrite negb_true_iff in Hskip. destruct Hskip as [[Hne|Hnm]|Hseen]; [congruence..|].
      set_solver. }
    split; auto. intros _. set_solver.
  - rewrite !orb_false_iff, !bool_decide_eq_false, negb_false_iff in Hskip.
    destruct Hskip as [[Hsrc Hm] Hseen].
    assert (in_scope c q = true) as Hin by (apply in_scope_spec; split; [by apply dec_stable|done]).
    rewrite Hin in Hids. case_decide as Hfull; eexists; (split; [simpl; reflexivity|]).
    + split; simpl; auto; done.
    + split; simpl; try done.
      * intros _. set_solver.
      * intros o Ho. injection Ho as <-. destruct (ap_oldest p) as [old|].
        { destruct (N.min_spec old (event_created_at (as_event (qe_event q)))) as [[_ ->]|[_ ->]];
            [by left|right]. exists q. split; [left|done]. }
        { right. exists q. split; [left|done]. }
      * intros _. split; [done|]. set_solver.
      * intros Hle. unfold ssize in *. rewrite size_union by set_solver. rewrite size_singleton. lia.
Qed.

Lemma page_ok_step c q resp p p1 p2 :
  page_ok c [q] p p1 → page_ok c resp p1 p2 → page_ok c (q :: resp) p p2.
Proof.
  intros [T1 G1 S1 O1 N1 B1] [T2 G2 S2 O2 N2 B2]. split; auto.
  - congruence.
  - intros Ho. rewrite (S2 Ho), (S1 (G2 Ho)), (scope_ids_cons c q resp), (scope_ids_cons c q []).
    unfold scope_ids at 2. simpl. set_solver.
  - intros o Ho. destruct (O2 o Ho) as [Ho1|(q' & ? & ? & ?)].
    + destruct (O1 o Ho1) as [|(q' & ->%list_elem_of_singleton & ? & ?)]; [by left|].
      right. exists q. split; [left|done].
    + right. exists q'. split; [by right|done].
Qed.
Lemma observe_all_spec c p resp :
  hc_active c = Some p →
  ∃ p', observe_all (ap_token p) resp c = set_hc_active (Some p') c ∧ page_ok c resp p p'.
Proof.
  revert c p. induction resp as [|q resp IH]; intros c p Hp; simpl.
  - exists p. split; [destruct c; simpl in *; by rewrite Hp|].
    split; auto. intros _. unfold scope_ids. simpl. set_solver.
  - destruct (observe_spec c p q Hp) as (p1 & -> & H1).
    destruct (IH (set_hc_active (Some p1) c) p1 eq_refl) as (p2 & Hobs & H2).
    rewrite (pk_token _ _ _ _ H1) in Hobs. rewrite Hobs. exists p2. split; [by destruct c|].
    eapply page_ok_step; [exact H1|]. destruct H2. by split.
Qed.

(** What a finished page amounts to, seen from the cursor it started from. *)
Definition fresh_page c : ActivePage :=
  mkActive (mkToken (hc_identity c) (hc_generation c + 1)) ∅ None false.
Lemma run_page_spec resp completion c outcome ids c' :
  run_page resp completion c = Some (outcome, ids, c') →
  hc_stopped c = false ∧ hc_active c = None ∧
  ∃ p, page_ok c resp (fresh_page c) p ∧ ids = ap_seen p ∧
    oc_oldest outcome = ap_oldest p ∧ oc_unique_events outcome = ssize (ap_seen p) ∧
    (if ap_overflow p then Some (Limited, set_hc_stopped true (set_hc_generation (hc_generation c + 1) c))
     else if decide (completion = Partial) then Some (Retry, set_hc_generation (hc_generation c + 1) c)
     else match ap_oldest p with
     | Some oldest => finish_complete p oldest (set_hc_generation (hc_generation c + 1) c)
     | None => Some (Exhausted, set_hc_stopped true (set_hc_generation (hc_generation c + 1) c))
     end) = Some (oc_status outcome, c').
Proof.
  unfold run_page, begin_page. destruct (hc_stopped c) eqn:Hstop; [done|].
  destruct (hc_active c) eqn:Hact; [done|].
  unfold checked_add. destruct (decide (hc_generation c + 1 ≤ u64_max)); [simpl|done].
  set (c1 := set_hc_active _ _).
  destruct (observe_all_spec c1 (fresh_page c) resp eq_refl) as (p & Hobs & Hp).
  simpl in Hobs. rewrite Hobs. simpl. intros Hfin. split_and!; [done|done|]. exists p.
  assert (page_ok c resp (fresh_page c) p) as Hp'.
  { destruct Hp. by split. }
  split; [done|]. unfold finish_page in Hfin. simpl in Hfin.
  rewrite decide_True in Hfin by apply (pk_token _ _ _ _ Hp).
  assert (set_hc_active None (set_hc_active (Some p) c1) = set_hc_generation (hc_generation c + 1) c)
    as Heq by (destruct c; simpl in *; by rewrite Hact).
  rewrite Heq in Hfin. clear Heq.
  destruct (if ap_overflow p then _ else _) as [[status c2]|]; [|done].
  simpl in Hfin. injection Hfin as <- <- <-. done.
Qed.

(** ** Coverage and progress *)
Definition until_of c : N := default 0 (filter_until (hc_filter c)).
Definition limit_of c : N := default 0 (filter_limit (hc_filter c)).
(** Every event of the source newer than [u] has been shown. *)
Definition covered (E : Event → Prop) F (seen : gset EventId) (u : N) : Prop :=
  ∀ e, E e → filter_match F e = true → u < event_created_at e → event_id e ∈ seen.
(** Pages that may still advance: the window shrinks, or the limit grows. *)
Definition pages_left c : N := until_of c * 65537 + (hc_max_limit c - limit_of c).

Lemma cursor_ok_limit `{!NostrLaws _} F c l :
  cursor_ok F c → 1 ≤ l ≤ hc_max_limit c →
  cursor_ok F (set_hc_filter (filter_set_limit (Some l) (hc_filter c)) c).
Proof.
  intros [(limit & until & Hl & Hu & Hb & Hub) Hi Hm Hs He] Hl'. split; simpl; try done.
  - exists l, until. rewrite filter_limit_set_limit, filter_until_set_limit. auto.
  - by rewrite filter_since_set_limit.
  - intros e. rewrite filter_match_set_limit, filter_until_set_limit. apply He.
Qed.
Lemma cursor_ok_until `{!NostrLaws _} F c u u' :
  cursor_ok F c → filter_until (hc_filter c) = Some u → u' ≤ u →
  cursor_ok F (set_hc_filter (filter_set_until (Some u') (hc_filter c)) c).
Proof.
  intros [(limit & until & Hl & Hu & Hb & Hub) Hi Hm Hs He] Hu' Hle. split; simpl; try done.
  - exists limit, u'. rewrite filter_limit_set_until, filter_until_set_until.
    split_and!; try done; [lia..|]. rewrite Hu in Hu'. injection Hu' as ->. lia.
  - by rewrite filter_since_set_until.
  - intros e. rewrite (filter_match_set_until u), filter_until_set_until by done.
    rewrite andb_true_iff, bool_decide_eq_true, He. split.
    + intros [[? _] ?]. eauto.
    + intros (? & ? & [= <-] & ?). split; [split; [done|]|done]. exists u. split; [done|lia].
Qed.

Lemma finish_complete_spec `{!NostrLaws _} F E c resp p0 p oldest status c' seen :
  cursor_ok F c → faithful E c resp → page_ok c resp p0 p →
  ap_seen p0 = ∅ → ap_oldest p0 = None →
  ap_overflow p = false → ap_oldest p = Some oldest →
  covered E F seen (until_of c) →
  finish_complete p oldest c = Some (status, c') →
  cursor_ok F c' ∧
  (status = Advanced → covered E F (ap_seen p ∪ seen) (until_of c') ∧ pages_left c' < pages_left c) ∧
  (status = Exhausted → ∀ e, E e → filter_match F e = true → event_id e ∈ ap_seen p ∪ seen) ∧
  (status = Advanced ∨ c' = set_hc_stopped true c).
Proof.
  intros Hok Hfaith Hp Hs0 Ho0 Hov Hold Hcov.
  pose proof Hok as [(limit & until & Hl & Hu & Hb & Hub) Hi Hm Hs He].
  destruct Hp as [_ _ Hseen Holdest _ _]. simpl in *. specialize (Hseen Hov).
  destruct (Holdest oldest Hold) as [Hnone|(q & Hq & Hin & Hcq)]; [congruence|].
  rewrite Hs0, (left_id_L ∅ (∪)) in Hseen.
  (* an event the page leaves out is no newer than the oldest it shows *)
  assert (∀ e, E e → filter_match F e = true → event_created_at e ≤ until →
    event_id e ∈ ap_seen p ∨ (limit ≤ ssize (ap_seen p) ∧ event_created_at e ≤ oldest)) as Hpage.
  { intros e HE HF Hle. rewrite Hseen.
    destruct (decide (event_id e ∈ scope_ids c resp)) as [|Hnot]; [by left|right].
    destruct (Hfaith e HE) as [(l & Hl' & Hge) Hmin]; [apply He; eauto|done|].
    rewrite Hl in Hl'. injection Hl' as <-. split; [done|]. rewrite <-Hcq. by apply Hmin. }
  assert (oldest ≤ until) as Hou.
  { rewrite <-Hcq. apply in_scope_spec in Hin as [_ Hmq].
    apply He in Hmq as (_ & u & Hu' & ?). by simplify_eq. }
  assert (∀ u, (∀ e, E e → filter_match F e = true → event_created_at e ≤ until →
    u < event_created_at e → event_id e ∈ ap_seen p) → covered E F (ap_seen p ∪ seen) u) as Hnew.
  { intros u Hall e HE HF Hlt. apply elem_of_union.
    destruct (decide (event_created_at e ≤ until)); [left; eauto|right].
    apply Hcov; [done|done|]. unfold until_of. rewrite Hu. simpl. lia. }
  unfold finish_complete. rewrite Hu, Hl. simpl. unfold pages_left, until_of, limit_of.
  rewrite Hu, Hl. simpl.
  case_decide as Hlt; [intros [= <- <-]|case_decide as Hfull; [case_decide as Hmax|]].
  - split_and!; [|intros _|done|by left].
    + apply (cursor_ok_limit F (set_hc_filter _ c)); [|done]. by eapply cursor_ok_until.
    + simpl. rewrite filter_until_set_limit, filter_until_set_until, filter_limit_set_limit.
      simpl. split; [|nia]. apply Hnew. intros e HE HF Hle Hlt'.
      destruct (Hpage e HE HF Hle) as [|[_ ?]]; [done|lia].
  - intros [= <- <-]. split_and!; [|done|done|by right]. destruct Hok. split; eauto.
  - intros [= <- <-]. unfold sat_mul, usize_max, u64_max.
    split_and!; [apply cursor_ok_limit; [done|lia]|intros _|done|by left].
    simpl. rewrite filter_until_set_limit, filter_limit_set_limit, Hu. simpl. split; [|lia].
    apply Hnew. intros e HE HF Hle Hlt'. lia.
  - assert (∀ e, E e → filter_match F e = true → event_created_at e ≤ until →
      event_id e ∈ ap_seen p) as Hall.
    { intros e HE HF Hle. destruct (Hpage e HE HF Hle) as [|[? _]]; [done|lia]. }
    destruct (_ || _) eqn:Hend; intros [= <- <-].
    + split_and!; [destruct Hok; split; eauto|done|intros _|by right].
      intros e HE HF. destruct (decide (event_created_at e ≤ until)) as [Hle|Hgt];
        apply elem_of_union; [left; eauto|right].
      apply Hcov; [done|done|]. unfold until_of. rewrite Hu. simpl. lia.
    + apply orb_false_iff in Hend as [Hz _]. apply bool_decide_eq_false in Hz.
      split_and!; [|intros _|done|by left].
      * apply (cursor_ok_limit F (set_hc_filter _ c)); [|done].
        eapply cursor_ok_until; [done|done|lia].
      * simpl. rewrite filter_until_set_limit, filter_until_set_until, filter_limit_set_limit.
        simpl. split; [|nia]. apply Hnew. eauto.
Qed.

Lemma cursor_ok_flags F c g st :
  cursor_ok F c → cursor_ok F (set_hc_stopped st (set_hc_generation g c)).
Proof. intros [? ? ? ? ?]. by split. Qed.
Lemma cursor_ok_generation F c g : cursor_ok F c → cursor_ok F (set_hc_generation g c).
Proof. intros [? ? ? ? ?]. by split. Qed.

(** One page of a walk. *)
Record page_effect F (E : Event → Prop) (seen ids : gset EventId) c
    (status : HistoryPageStatus) c' : Prop := {
  pe_ok : cursor_ok F c';
  pe_left : pages_left c' ≤ pages_left c;
  pe_advanced : status = Advanced → pages_left c' < pages_left c;
  pe_covered : covered E F (ids ∪ seen) (until_of c');
  pe_exhausted : status = Exhausted →
    ∀ e, E e → filter_match F e = true → event_id e ∈ ids ∪ seen;
}.

Lemma run_page_effect `{!NostrLaws _} F E seen c resp completion outcome ids c' :
  cursor_ok F c → covered E F seen (until_of c) →
  (completion = Complete → faithful E c resp) →
  run_page resp completion c = Some (outcome, ids, c') →
  page_effect F E seen ids c (oc_status outcome) c'.
Proof.
  intros Hok Hcov Hfaith Hrun.
  apply run_page_spec in Hrun as (_ & _ & p & Hp & -> & _ & _ & Hfin).
  set (c1 := set_hc_generation _ c) in Hfin.
  assert (covered E F (ap_seen p ∪ seen) (until_of c)) as Hcov'.
  { intros e HE HF Hlt. apply elem_of_union. right. by apply Hcov. }
  assert (∀ st, cursor_ok F (set_hc_stopped st c1)) as Hst by (intros; by apply cursor_ok_flags).
  destruct (ap_overflow p) eqn:Hov; [injection Hfin as <- <-; by split|].
  case_decide as Hpart.
  { injection Hfin as <- <-. split; try done. by apply cursor_ok_generation. }
  assert (faithful E c resp) as Hf by (apply Hfaith; by destruct completion).
  destruct (ap_oldest p) as [oldest|] eqn:Hold.
  - assert (page_ok c1 resp (fresh_page c) p) as Hp1 by (destruct Hp; by split).
    destruct (finish_complete_spec F E c1 resp (fresh_page c) p oldest (oc_status outcome) c' seen)
      as (Hok' & Hadv & Hex & Hor);
      [by apply cursor_ok_generation|done|done|done|done|done|done|done|done|].
    destruct Hor as [Hstat| ->].
    + destruct (Hadv Hstat) as [? Hlt]. split; try done. etrans; [apply N.lt_le_incl, Hlt|done].
    + split; [done|done|intros Hstat; by apply Hadv in Hstat as [_ ?]|done|done].
  - injection Hfin as <- <-. split; try done. intros _ e HE HF. apply elem_of_union.
    destruct (decide (event_created_at e ≤ until_of c)) as [Hle|Hgt];
      [|right; apply Hcov; [done..|lia]].
    left. pose proof (pk_seen _ _ _ _ Hp Hov) as Hseen.
    destruct (decide (event_id e ∈ scope_ids c resp)) as [|Hnot]; [rewrite Hseen; set_solver|].
    exfalso. pose proof Hok as [(limit & until & Hl & Hu & Hb & Hub) _ _ _ He].
    unfold until_of in Hle. rewrite Hu in Hle. simpl in Hle.
    destruct (Hf e HE) as [(l & Hl' & Hge) _]; [apply He; eauto|done|].
    assert (ap_seen p = ∅) as Hempty by (by apply (pk_none _ _ _ _ Hp)).
    rewrite Hseen in Hempty. assert (scope_ids c resp = ∅) as Hsc by set_solver.
    rewrite Hsc in Hge. unfold ssize in Hge. rewrite size_empty in Hge.
    rewrite Hl in Hl'. injection Hl' as <-. lia.
Qed.

Lemma walk_effect `{!NostrLaws _} E c0 n seen c :
  cursor_ok (hc_filter c0) c0 → walk E c0 n seen c →
  cursor_ok (hc_filter c0) c ∧ covered E (hc_filter c0) seen (until_of c) ∧
  n + pages_left c ≤ pages_left c0.
Proof.
  intros Hok0. induction 1 as [|n seen c resp completion outcome ids c' _ IH Hf Hrun].
  - split_and!; [done| |lia]. intros e _ Hm Hlt.
    apply (co_match _ _ Hok0) in Hm as (_ & u & Hu & Hle).
    unfold until_of in Hlt. rewrite Hu in Hlt. simpl in Hlt. lia.
  - destruct IH as (Hok & Hcov & Hle).
    destruct (run_page_effect _ E seen c resp completion outcome ids c' Hok Hcov Hf Hrun)
      as [? ? Hadv ? ?].
    split_and!; [done|done|]. case_decide as Hstat; [specialize (Hadv Hstat)|]; lia.
Qed.

(** C20. History is complete when the cursor says so: walking a source that
    answers pages as NIP-01 asks (partial pages and retries included), once a
    page is [Exhausted] every event the source holds for the filter has
    been shown, whatever its timestamps, ties and page sizes. *)
Theorem history_exhausted_complete `{!NostrLaws _} E source filter now max_limit id c0 next
    n seen c resp outcome ids c' :
  now ≤ u64_max → (∀ u, filter_until filter = Some u → u ≤ u64_max) →
  cursor_new source filter now max_limit id = (Ok c0, next) →
  walk E c0 n seen c → faithful E c resp →
  run_page resp Complete c = Some (outcome, ids, c') → oc_status outcome = Exhausted →
  ∀ e, E e → filter_match (hc_filter c0) e = true → event_id e ∈ ids ∪ seen.
Proof.
  intros Hnow Hu Hnew Hwalk Hf Hrun Hex.
  apply cursor_new_ok in Hnew as (Hok0 & _); [|done..].
  destruct (walk_effect _ _ _ _ _ Hok0 Hwalk) as (Hok & Hcov & _).
  exact (pe_exhausted _ _ _ _ _ _ _
    (run_page_effect _ E seen c resp Complete outcome ids c' Hok Hcov (λ _, Hf) Hrun) Hex).
Qed.

(** Walking terminates: however the source answers, at most
    [65537 * until + 65536] pages advance, and once a page is exhausted or
    limited there is no further page. *)
Theorem history_walk_terminates `{!NostrLaws _} E source filter now max_limit id c0 next
    n seen c :
  now ≤ u64_max → (∀ u, filter_until filter = Some u → u ≤ u64_max) →
  cursor_new source filter now max_limit id = (Ok c0, next) →
  walk E c0 n seen c →
  n ≤ 65537 * until_of c0 + 65536 ∧
  (∀ resp completion outcome ids c', run_page resp completion c = Some (outcome, ids, c') →
    oc_status outcome = Exhausted ∨ oc_status outcome = Limited →
    (begin_page c').1 = None).
Proof.
  intros Hnow Hu Hnew Hwalk. apply cursor_new_ok in Hnew as (Hok0 & _); [|done..].
  destruct (walk_effect _ _ _ _ _ Hok0 Hwalk) as (_ & _ & Hle). split.
  - pose proof (co_max _ _ Hok0). unfold pages_left in Hle. lia.
  - intros resp completion outcome ids c' Hrun Hstat.
    apply run_page_spec in Hrun as (_ & _ & p & _ & _ & _ & _ & Hfin).
    assert (hc_stopped c' = true) as Hst; [|by unfold begin_page; rewrite Hst].
    destruct (ap_overflow p); [by injection Hfin as _ <-|].
    case_decide; [by injection Hfin as Heq _; rewrite <-Heq in Hstat; destruct Hstat|].
    destruct (ap_oldest p); [|by injection Hfin as _ <-].
    unfold finish_complete in Hfin. simpl in Hfin.
    destruct (filter_until (hc_filter c)); simpl in Hfin; [|done].
    destruct (filter_limit (hc_filter c)); simpl in Hfin; [|done].
    repeat case_decide; try destruct (_ || _); injection Hfin as Heq <-; try done;
      rewrite <-Heq in Hstat; by destruct Hstat.
Qed.

(** Late callbacks are harmless: with a token that is not the active
    page's (another page, another cursor, a finished or cancelled walk),
    [observe] reports nothing and [finish_page] reports [Stale], and neither
    changes the cursor. *)
Theorem stale_token_ignored c token event completion :
  (∀ page, hc_active c = Some page → ap_token page ≠ token) →
  observe token event c = (false, c) ∧
  finish_page token completion c = Some (mkOutcome Stale None 0, c).
Proof.
  intros Hstale. unfold observe, finish_page. destruct (hc_active c) as [page|]; [|done].
  by rewrite !decide_False by exact (Hstale page eq_refl).
Qed.
End pagination_spec.

(** ** A concrete walk

    A relay holding events A (at 100) and B (at 200) is walked from 250 with
    pages of one event. *)
Module PaginationWitness.
#[local] Existing Instance Toy.toy_nostr.
#[local] Existing Instance Toy.toy_laws.
Definition relay : EventSource := EventSources.relay "wss://relay".
Definition reply (i : Toy.toy_id) : QueryEvent :=
  mkQueryEvent (mkVerifiedEvent (Toy.toy_body i)) relay 0.
Definition held (e : Event) : Prop :=
  e = Toy.toy_body Toy.IdA ∨ e = Toy.toy_body Toy.IdB.
Definition notes : Filter := Toy.ToyFilter (Some 1) (Some 2) None None.
Definition cursor0 : HistoryCursor :=
  mkCursor "wss://relay" (Toy.ToyFilter (Some 1) (Some 2) None (Some 250)) 2 10 5 0 None false.
Definition resp1 : list QueryEvent := [reply Toy.IdB; reply Toy.IdA].
Definition cursor1 : HistoryCursor :=
  mkCursor "wss://relay" (Toy.ToyFilter (Some 1) (Some 2) None (Some 100)) 2 10 5 1 None false.
Definition resp2 : list QueryEvent := [reply Toy.IdA].
Definition cursor2 : HistoryCursor :=
  mkCursor "wss://relay" (Toy.ToyFilter (Some 1) (Some 2) None (Some 99)) 2 10 5 2 None false.
Definition cursor3 : HistoryCursor :=
  mkCursor "wss://relay" (Toy.ToyFilter (Some 1) (Some 2) None (Some 99)) 2 10 5 3 None true.

Definition ids1 : gset EventId := {[Toy.IdA : EventId]} ∪ ({[Toy.IdB : EventId]} ∪ ∅).
Definition ids2 : gset EventId := {[Toy.IdA : EventId]} ∪ ∅.
Definition shown : gset EventId := ids2 ∪ (ids1 ∪ ∅).

Lemma new_eq : cursor_new "wss://relay" notes 250 10 5 = (Ok cursor0, 6).
Proof. reflexivity. Qed.
Lemma until_typed u : filter_until notes = Some u → u ≤ u64_max.
Proof. done. Qed.
Lemma page1 : run_page resp1 Complete cursor0
  = Some (mkOutcome Advanced (Some 100) 2, ids1, cursor1).
Proof. reflexivity. Qed.
Lemma page2 : run_page resp2 Complete cursor1
  = Some (mkOutcome Advanced (Some 100) 1, ids2, cursor2).
Proof. reflexivity. Qed.
Lemma page3 : run_page [] Complete cursor2
  = Some (mkOutcome Exhausted None 0, ∅, cursor3).
Proof. reflexivity. Qed.

Lemma faithful1 : faithful held cursor0 resp1.
Proof.
  intros e [-> | ->] _ Hnot; destruct Hnot; by vm_compute.
Qed.
Lemma faithful2 : faithful held cursor1 resp2.
Proof. intros e [-> | ->] Hm Hnot; [destruct Hnot; by vm_compute|done]. Qed.
Lemma faithful3 : faithful held cursor2 [].
Proof. by intros e [-> | ->] Hm Hnot. Qed.
Lemma walk2 : walk held cursor0 2 shown cursor2.
Proof.
  apply (walk_page held cursor0 1 _ cursor1 resp2 Complete (mkOutcome Advanced (Some 100) 1));
    [|intros _; exact faithful2|exact page2].
  apply (walk_page held cursor0 0 ∅ cursor0 resp1 Complete (mkOutcome Advanced (Some 100) 2));
    [constructor|intros _; exact faithful1|exact page1].
Qed.

Lemma history_exhausted_complete_witness :
  event_id (Toy.toy_body Toy.IdA) ∈ ∅ ∪ shown.
Proof.
  apply (history_exhausted_complete held _ notes 250 10 5 cursor0 6 2 _ cursor2 [] _ ∅ cursor3
    ltac:(done) until_typed new_eq walk2 faithful3 page3 eq_refl); [|reflexivity].
  by left.
Defined.
Lemma history_walk_terminates_witness :
  2 ≤ 65537 * until_of cursor0 + 65536 ∧
  (∀ resp completion outcome ids c', run_page resp completion cursor2 = Some (outcome, ids, c') →
    oc_status outcome = Exhausted ∨ oc_status outcome = Limited → (begin_page c').1 = None).
Proof.
  exact (history_walk_terminates held _ notes 250 10 5 cursor0 6 2 _ cursor2
    ltac:(done) until_typed new_eq walk2).
Defined.
Lemma stale_token_ignored_witness :
  observe (mkToken 5 1) (reply Toy.IdA) cursor2 = (false, cursor2) ∧
  finish_page (mkToken 5 1) Complete cursor2 = Some (mkOutcome Stale None 0, cursor2).
Proof. by apply (stale_token_ignored cursor2). Defined.
End PaginationWitness.
