(* ===== verification/Wire.v ===== *)
(** * The FIPS pubsub wire format

    crates/nostr-pubsub/src/wire.rs: the codec that turns transport frames
    into verified messages, and the adapter that applies a peer's requests to
    the bounded subscription store. *)

From S2P Require Export SubscriptionsProps.

(** ** The interface to JSON and to the [nostr] crate's messages

    [Value] is serde_json's; [client_*] and [relay_*] are the [nostr] crate's
    message encoders and decoders. *)
Inductive RelayMessage `{!Nostr} : Type :=
  | RmEvent (subscription_id : string) (event : Event)
  | RmOk (event_id : EventId) (status : bool) (message : string)
  | RmOther.

Class WireJson `{!Nostr} : Type := {
  Value : Type;
  json_array : list Value → Value;
  json_str : string → Value;
  json_u64 : N → Value;
  as_array : Value → option (list Value);
  as_str : Value → option string;
  as_u64 : Value → option N;
  (** [Value::to_string] and [serde_json::from_slice]. *)
  value_to_string : Value → string;
  value_from_slice : string → result string Value;
  client_as_json : ClientMessage → string;
  client_from_value : Value → result string ClientMessage;
  relay_as_json : RelayMessage → string;
  relay_from_value : Value → result string RelayMessage;
  event_id_from_hex : string → result string EventId;
}.
Arguments WireJson _ : clear implicits.

Class WireJsonLaws {N : Nostr} (J : WireJson N) : Prop := {
  as_array_json_array l : as_array (json_array l) = Some l;
  as_str_json_str s : as_str (json_str s) = Some s;
  as_array_json_str s : as_array (json_str s) = None;
  as_u64_json_u64 n : n ≤ u64_max → as_u64 (json_u64 n) = Some n;
  as_u64_typed v n : as_u64 v = Some n → n ≤ u64_max;
  value_roundtrip v : value_from_slice (value_to_string v) = Ok v;
  value_not_empty v : value_to_string v ≠ ""%string;
  event_id_hex_roundtrip i : event_id_from_hex (event_id_to_hex i) = Ok i;
}.

Definition DEFAULT_FIPS_PUBSUB_MAX_FRAME_BYTES : N := 64 * 1024.

Definition invalid_frame (message : string) : PubsubError :=
  Validation ("invalid FIPS pubsub frame: " +:+ message).

Record FipsPubsubWireCodec : Set := mkWireCodec { max_frame_bytes : N }.
Definition default_wire_codec : FipsPubsubWireCodec :=
  mkWireCodec DEFAULT_FIPS_PUBSUB_MAX_FRAME_BYTES.
Definition wire_codec_new (max_frame_bytes : N) : res FipsPubsubWireCodec :=
  if decide (max_frame_bytes = 0) then
    Err (Validation "FIPS pubsub max frame bytes must be greater than zero")
  else Ok (mkWireCodec max_frame_bytes).

Section wire.
Context `{!Nostr, J : !WireJson _}.

Inductive FipsPubsubWireMessage : Type :=
  | WireReq (subscription_id : string) (filters : list Filter)
  | WireClose (subscription_id : string)
  | WireEvent (subscription_id : option string) (event : VerifiedEvent)
  | WireOk (event_id : EventId) (accepted : bool) (message : string)
  | WireInv (subscription_ids : list string) (event_id : EventId)
      (event_kind payload_bytes hop_limit : N)
  | WireWant (event_id : EventId).

(** The constructors' public names. *)
Definition wire_req (subscription_id : string) (filters : list Filter) : FipsPubsubWireMessage :=
  WireReq subscription_id filters.
Definition wire_close (subscription_id : string) : FipsPubsubWireMessage := WireClose subscription_id.
Definition wire_publish (event : VerifiedEvent) : FipsPubsubWireMessage := WireEvent None event.
Definition wire_deliver (subscription_id : string) (event : VerifiedEvent) : FipsPubsubWireMessage :=
  WireEvent (Some subscription_id) event.
Definition wire_inv (subscription_ids : list string) (event_id : EventId)
    (event_kind payload_bytes hop_limit : N) : FipsPubsubWireMessage :=
  WireInv subscription_ids event_id event_kind payload_bytes hop_limit.
Definition wire_want (event_id : EventId) : FipsPubsubWireMessage := WireWant event_id.

Definition check_frame_size (codec : FipsPubsubWireCodec) (frame_bytes : N) : res unit :=
  if decide (max_frame_bytes codec < frame_bytes) then
    Err (invalid_frame ("frame has " +:+ pretty frame_bytes +:+ " bytes, limit is "
      +:+ pretty (max_frame_bytes codec)))
  else Ok tt.

Definition encode_json (message : FipsPubsubWireMessage) : string :=
  match message with
  | WireReq id filters => client_as_json (CmReq id filters)
  | WireClose id => client_as_json (CmClose id)
  | WireEvent None event => client_as_json (CmEvent (as_event event))
  | WireEvent (Some id) event => relay_as_json (RmEvent id (as_event event))
  | WireOk event_id accepted message => relay_as_json (RmOk event_id accepted message)
  | WireInv ids event_id event_kind payload_bytes hop_limit =>
      value_to_string (json_array
        [json_str "INV"; json_array (json_str <$> ids); json_str (event_id_to_hex event_id);
         json_u64 event_kind; json_u64 payload_bytes; json_u64 hop_limit])
  | WireWant event_id =>
      value_to_string (json_array [json_str "WANT"; json_str (event_id_to_hex event_id)])
  end.
Definition encode_frame (codec : FipsPubsubWireCodec) (message : FipsPubsubWireMessage)
    : res string :=
  let json := encode_json message in
  _ ← check_frame_size codec (slen json); Ok json.

(** ** Field decoders *)
Definition ok_or {A} (message : string) (o : option A) : res A :=
  match o with Some x => Ok x | None => Err (invalid_frame message) end.

Fixpoint decode_ids (seen : gset string) (values : list Value) : res (list string) :=
  match values with
  | [] => Ok []
  | value :: values' =>
      id ← ok_or "INV subscription id must be a string" (as_str value);
      if decide (id ∈ seen) then Err (invalid_frame "INV subscription ids must be unique")
      else ids ← decode_ids ({[id]} ∪ seen) values'; Ok (id :: ids)
  end.
Definition decode_subscription_ids (fields : list Value) (index : nat) : res (list string) :=
  values ← ok_or "INV subscription ids must be an array" (fields !! index ≫= as_array);
  match values with
  | [] => Err (invalid_frame "INV requires at least one subscription id")
  | _ => decode_ids ∅ values
  end.

Definition decode_event_id (fields : list Value) (index : nat) (message_type : string)
    : res EventId :=
  value ← ok_or (message_type +:+ " event id must be a string") (fields !! index ≫= as_str);
  map_err (λ error, invalid_frame (message_type +:+ " event id is invalid: " +:+ error))
    (event_id_from_hex value).

(** [T::try_from(value)] for an unsigned [T] with the given maximum. *)
Definition decode_unsigned (max : N) (fields : list Value) (index : nat) (name : string)
    : res N :=
  value ← ok_or (name +:+ " must be an unsigned integer") (fields !! index ≫= as_u64);
  if decide (value ≤ max) then Ok value
  else Err (invalid_frame (name +:+ " is out of range")).

Definition message_error (error : string) : PubsubError := invalid_frame error.

Definition decode_req (value : Value) : res FipsPubsubWireMessage :=
  message ← map_err message_error (client_from_value value);
  match message with
  | CmReq id filters => Ok (WireReq id filters)
  | _ => Err (invalid_frame "expected REQ message")
  end.
Definition decode_close (value : Value) : res FipsPubsubWireMessage :=
  message ← map_err message_error (client_from_value value);
  match message with
  | CmClose id => Ok (WireClose id)
  | _ => Err (invalid_frame "expected CLOSE message")
  end.
Definition decode_published_event (value : Value) : res FipsPubsubWireMessage :=
  message ← map_err message_error (client_from_value value);
  match message with
  | CmEvent event => verified ← verified_try_from event; Ok (WireEvent None verified)
  | _ => Err (invalid_frame "expected client EVENT message")
  end.
Definition decode_delivered_event (value : Value) : res FipsPubsubWireMessage :=
  message ← map_err message_error (relay_from_value value);
  match message with
  | RmEvent id event => verified ← verified_try_from event; Ok (WireEvent (Some id) verified)
  | _ => Err (invalid_frame "expected subscription EVENT message")
  end.
Definition decode_ok (value : Value) : res FipsPubsubWireMessage :=
  message ← map_err message_error (relay_from_value value);
  match message with
  | RmOk event_id status message => Ok (WireOk event_id status message)
  | _ => Err (invalid_frame "expected OK message")
  end.
Definition decode_inv (value : Value) : res FipsPubsubWireMessage :=
  fields ← ok_or "INV must be a JSON array" (as_array value);
  subscription_ids ← decode_subscription_ids fields 1;
  event_id ← decode_event_id fields 2 "INV";
  event_kind ← decode_unsigned u16_max fields 3 "INV event kind";
  payload_bytes ← decode_unsigned u32_max fields 4 "INV payload bytes";
  hop_limit ← decode_unsigned u8_max fields 5 "INV hop limit";
  if decide (hop_limit = 0) then
    Err (invalid_frame "INV hop limit must be greater than zero")
  else Ok (WireInv subscription_ids event_id event_kind payload_bytes hop_limit).
Definition decode_want (value : Value) : res FipsPubsubWireMessage :=
  fields ← ok_or "WANT must be a JSON array" (as_array value);
  event_id ← decode_event_id fields 1 "WANT";
  Ok (WireWant event_id).

(** The [match] on message type and field count. *)
Definition decode_value (value : Value) : res FipsPubsubWireMessage :=
  fields ← ok_or "message must be a JSON array" (as_array value);
  message_type ← ok_or "message type must be a string" (fields !! 0%nat ≫= as_str);
  let field_count := nlen fields in
  if decide (message_type = "REQ"%string) then
    if decide (3 ≤ field_count) then decode_req value
    else Err (invalid_frame "REQ requires an id and at least one filter")
  else if decide (message_type = "CLOSE"%string) then
    if decide (field_count = 2) then decode_close value
    else Err (invalid_frame "CLOSE requires exactly an id")
  else if decide (message_type = "EVENT"%string) then
    if decide (field_count = 2) then decode_published_event value
    else if decide (field_count = 3) then decode_delivered_event value
    else Err (invalid_frame "EVENT requires an event and optional subscription id")
  else if decide (message_type = "OK"%string ∧ field_count = 4) then decode_ok value
  else if decide (message_type = "INV"%string) then
    if decide (field_count = 6) then decode_inv value
    else Err (invalid_frame
      "INV requires subscription ids, event id, kind, byte size, and hop limit")
  else if decide (message_type = "WANT"%string) then
    if decide (field_count = 2) then decode_want value
    else Err (invalid_frame "WANT requires exactly an event id")
  else Err (invalid_frame ("unsupported Nostr message type " +:+ message_type)).

Definition decode_frame (codec : FipsPubsubWireCodec) (frame : string)
    : res FipsPubsubWireMessage :=
  _ ← check_frame_size codec (slen frame);
  if decide (frame = ""%string) then Err (invalid_frame "frame is empty")
  else
    value ← map_err (λ error, invalid_frame ("invalid JSON: " +:+ error))
      (value_from_slice frame);
    decode_value value.

(** ** The adapter *)
Record FipsPubsubInbound : Type := mkInbound {
  in_message : FipsPubsubWireMessage;
  in_subscription_update : PubsubSubscriptionUpdate;
}.
Record FipsPubsubWireAdapter : Type := mkWireAdapter {
  wa_codec : FipsPubsubWireCodec;
  wa_subscriptions : PubsubPeerSubscriptionStore;
}.
Definition wire_adapter_new (codec : FipsPubsubWireCodec) (subscriptions : PubsubPeerSubscriptionStore)
    : FipsPubsubWireAdapter := mkWireAdapter codec subscriptions.
Definition default_wire_adapter : FipsPubsubWireAdapter :=
  wire_adapter_new default_wire_codec (store_new default_subscription_limits).
Definition disconnect_peer (peer_id : string) (a : FipsPubsubWireAdapter)
    : option (list PubsubPeerSubscription * FipsPubsubWireAdapter) :=
  '(removed, s) ← remove_peer peer_id (wa_subscriptions a);
  Some (removed, mkWireAdapter (wa_codec a) s).

(** [None] is a panic of the store. *)
Definition decode_inbound (peer_id : string) (frame : string) (a : FipsPubsubWireAdapter)
    : option (res FipsPubsubInbound * FipsPubsubWireAdapter) :=
  match decode_frame (wa_codec a) frame with
  | Err e => Some (Err e, a)
  | Ok message =>
      match message with
      | WireReq id filters =>
          '(r, s) ← upsert_filters peer_id id filters (wa_subscriptions a);
          Some (_ ← r; Ok (mkInbound message UpdSubscribed), mkWireAdapter (wa_codec a) s)
      | WireClose id =>
          '(_, s) ← store_remove peer_id id (wa_subscriptions a);
          Some (Ok (mkInbound message UpdClosed), mkWireAdapter (wa_codec a) s)
      | _ => Some (Ok (mkInbound message UpdIgnored), a)
      end
  end.
Definition encode_outbound (message : FipsPubsubWireMessage) (a : FipsPubsubWireAdapter)
    : res string := encode_frame (wa_codec a) message.
End wire.

(** ** Theorems *)
Section wire_props.
Context `{!Nostr, J : !WireJson _}.

(** What a decoded message is known to satisfy. *)
Definition wire_valid (m : FipsPubsubWireMessage) : Prop :=
  match m with
  | WireEvent _ event => verified (as_event event)
  | WireInv ids _ event_kind payload_bytes hop_limit =>
      ids ≠ [] ∧ NoDup ids ∧ event_kind ≤ u16_max ∧ payload_bytes ≤ u32_max ∧
      1 ≤ hop_limit ≤ u8_max
  | _ => True
  end.

Lemma ok_or_Ok {A} message (o : option A) x : ok_or message o = Ok x ↔ o = Some x.
Proof. destruct o; simpl; naive_solver. Qed.
Lemma decode_unsigned_Ok max fields i name n :
  decode_unsigned max fields i name = Ok n ↔ (fields !! i ≫= as_u64) = Some n ∧ n ≤ max.
Proof.
  unfold decode_unsigned. rewrite result_bind_Ok. setoid_rewrite ok_or_Ok. split.
  - intros (x & Hx & Hif). case_decide; naive_solver.
  - intros [Hx Hle]. exists n. by rewrite decide_True.
Qed.
Lemma decode_event_id_Ok fields i ty id :
  decode_event_id fields i ty = Ok id ↔
    ∃ s, (fields !! i ≫= as_str) = Some s ∧ event_id_from_hex s = Ok id.
Proof.
  unfold decode_event_id. rewrite result_bind_Ok. setoid_rewrite ok_or_Ok.
  split; intros (s & Hs & Hid); exists s; (split; [done|]);
    destruct (event_id_from_hex s); simpl in *; congruence.
Qed.
Lemma decode_ids_Ok seen values ids :
  decode_ids seen values = Ok ids ↔
    as_str <$> values = Some <$> ids ∧ NoDup ids ∧ ∀ id, id ∈ ids → id ∉ seen.
Proof.
  revert seen ids. induction values as [|v values IH]; intros seen ids; simpl.
  { split.
    - intros [= <-]. split_and!; [done|constructor|set_solver].
    - intros (Hids & _). by destruct ids. }
  rewrite result_bind_Ok. setoid_rewrite ok_or_Ok. split.
  - intros (id & Hid & Hrest). case_decide as Hin; [done|].
    apply result_bind_Ok in Hrest as (ids' & (Heq & Hnd & Hseen)%IH & [= <-]).
    split_and!; [by rewrite Hid; csimpl; rewrite Heq| |set_solver].
    constructor; [|done]. intros Hid'. apply Hseen in Hid'. set_solver.
  - intros (Heq & Hnd & Hseen). destruct ids as [|id ids]; [done|].
    csimpl in *. injection Heq as Hid Heq. apply NoDup_cons in Hnd as [Hnot Hnd].
    exists id. split; [done|]. rewrite decide_False by (apply Hseen; left).
    apply result_bind_Ok. exists ids. split; [|done]. apply IH. split_and!; [done|done|].
    intros j Hj. specialize (Hseen j). set_solver.
Qed.
Lemma decode_subscription_ids_Ok fields i ids :
  decode_subscription_ids fields i = Ok ids ↔
    ∃ values, (fields !! i ≫= as_array) = Some values ∧
      as_str <$> values = Some <$> ids ∧ ids ≠ [] ∧ NoDup ids.
Proof.
  unfold decode_subscription_ids. rewrite result_bind_Ok. setoid_rewrite ok_or_Ok.
  split; intros (values & Hv & Hrest); exists values; (split; [done|]).
  - destruct values as [|v values]; [done|]. apply decode_ids_Ok in Hrest as (Heq & Hnd & _).
    split_and!; [done| |done]. by destruct ids.
  - destruct Hrest as (Heq & Hne & Hnd). destruct values as [|v values]; [by destruct ids|].
    apply decode_ids_Ok. split_and!; [done|done|set_solver].
Qed.
Lemma decode_inv_Ok value m :
  decode_inv value = Ok m ↔
    ∃ fields ids id k b h, m = WireInv ids id k b h ∧ as_array value = Some fields ∧
      decode_subscription_ids fields 1 = Ok ids ∧ decode_event_id fields 2 "INV" = Ok id ∧
      (fields !! 3%nat ≫= as_u64) = Some k ∧ k ≤ u16_max ∧
      (fields !! 4%nat ≫= as_u64) = Some b ∧ b ≤ u32_max ∧
      (fields !! 5%nat ≫= as_u64) = Some h ∧ h ≤ u8_max ∧ h ≠ 0.
Proof.
  unfold decode_inv. split.
  - intros (fields & Hf%ok_or_Ok & Hrest)%result_bind_Ok.
    apply result_bind_Ok in Hrest as (ids & Hids & Hrest).
    apply result_bind_Ok in Hrest as (id & Hid & Hrest).
    apply result_bind_Ok in Hrest as (k & [Hk Hk']%decode_unsigned_Ok & Hrest).
    apply result_bind_Ok in Hrest as (b & [Hb Hb']%decode_unsigned_Ok & Hrest).
    apply result_bind_Ok in Hrest as (h & [Hh Hh']%decode_unsigned_Ok & Hrest).
    case_decide; [done|]. injection Hrest as <-.
    exists fields, ids, id, k, b, h. split_and!; done.
  - intros (fields & ids & id & k & b & h & -> & Hf & Hids & Hid & ? & ? & ? & ? & ? & ? & Hh).
    apply result_bind_Ok. exists fields. split; [by apply ok_or_Ok|].
    apply result_bind_Ok. exists ids. split; [done|].
    apply result_bind_Ok. exists id. split; [done|].
    apply result_bind_Ok. exists k. split; [by apply decode_unsigned_Ok|].
    apply result_bind_Ok. exists b. split; [by apply decode_unsigned_Ok|].
    apply result_bind_Ok. exists h. split; [by apply decode_unsigned_Ok|].
    by rewrite decide_False.
Qed.

Lemma decode_value_valid value m : decode_value value = Ok m → wire_valid m.
Proof.
  unfold decode_value. intros (fields & Hf & Hrest)%result_bind_Ok.
  apply result_bind_Ok in Hrest as (ty & _ & Hrest).
  assert (∀ e v, verified_try_from e = Ok v → verified (as_event v)) as Hver.
  { intros e v [-> ?]%verified_try_from_Ok. done. }
  repeat (case_decide; simpl in Hrest); try done.
  - apply result_bind_Ok in Hrest as ([] & _ & [= <-]); done.
  - apply result_bind_Ok in Hrest as ([] & _ & [= <-]); done.
  - apply result_bind_Ok in Hrest as ([| |event|] & _ & Hrest); try done.
    apply result_bind_Ok in Hrest as (v & Hv & [= <-]). simpl. eauto.
  - apply result_bind_Ok in Hrest as ([id event| |] & _ & Hrest); try done.
    apply result_bind_Ok in Hrest as (v & Hv & [= <-]). simpl. eauto.
  - apply result_bind_Ok in Hrest as ([] & _ & [= <-]); done.
  - apply decode_inv_Ok in Hrest as (? & ids & id & k & b & h & -> & _ & Hids & _ & Hrest).
    apply decode_subscription_ids_Ok in Hids as (_ & _ & _ & Hne & Hnd). simpl.
    split_and!; naive_solver lia.
  - unfold decode_want in Hrest. apply result_bind_Ok in Hrest as (? & _ & Hrest).
    by apply result_bind_Ok in Hrest as (? & _ & [= <-]).
Qed.

Lemma decode_frame_inv codec frame m :
  decode_frame codec frame = Ok m →
  slen frame ≤ max_frame_bytes codec ∧ frame ≠ ""%string ∧ wire_valid m.
Proof.
  unfold decode_frame. intros (u & Hsize & Hrest)%result_bind_Ok.
  unfold check_frame_size in Hsize. case_decide; [done|]. case_decide; [done|].
  apply result_bind_Ok in Hrest as (value & _ & Hv).
  split_and!; [lia|done|by eapply decode_value_valid].
Qed.

(** Decoding is safe: an accepted frame is within the size limit,
    its event (if any) passed the signature check, and an inventory names
    distinct subscriptions (at least one), fits its integer widths and has
    hops left. *)
Theorem decode_frame_valid codec frame m :
  decode_frame codec frame = Ok m →
  slen frame ≤ max_frame_bytes codec ∧ frame ≠ ""%string ∧ wire_valid m.
Proof. apply decode_frame_inv. Qed.

Lemma decode_json `{!WireJsonLaws J} codec v :
  slen (value_to_string v) ≤ max_frame_bytes codec →
  decode_frame codec (value_to_string v) = decode_value v.
Proof.
  intros Hle. unfold decode_frame, check_frame_size.
  rewrite (decide_False (P := max_frame_bytes codec < _)) by lia. simpl.
  rewrite decide_False by apply value_not_empty. by rewrite value_roundtrip.
Qed.
Lemma encode_frame_Ok codec m frame :
  encode_frame codec m = Ok frame ↔
    frame = encode_json m ∧ slen frame ≤ max_frame_bytes codec.
Proof.
  unfold encode_frame, check_frame_size. case_decide as Hlt; simpl.
  - split; [done|]. intros [-> Hle]. lia.
  - split; [intros [= <-]; split; [done|lia]|by intros [-> _]].
Qed.

Definition inv_value (ids : list string) (id : EventId) (k b h : N) : Value :=
  json_array [json_str "INV"; json_array (json_str <$> ids); json_str (event_id_to_hex id);
    json_u64 k; json_u64 b; json_u64 h].
Lemma as_str_json_strs `{!WireJsonLaws J} (ids : list string) :
  as_str <$> (json_str <$> ids) = Some <$> ids.
Proof. rewrite <-list_fmap_compose. apply list_fmap_ext. intros. apply as_str_json_str. Qed.
Lemma decode_inv_value `{!WireJsonLaws J} ids id k b h m :
  k ≤ u16_max → b ≤ u32_max → h ≤ u8_max →
  decode_inv (inv_value ids id k b h) = Ok m ↔
    m = WireInv ids id k b h ∧ wire_valid (WireInv ids id k b h).
Proof.
  intros Hk Hb Hh.
  assert (k ≤ u64_max ∧ b ≤ u64_max ∧ h ≤ u64_max) as (Hk' & Hb' & Hh')
    by (unfold u8_max, u16_max, u32_max, u64_max in *; lia).
  rewrite decode_inv_Ok. unfold inv_value. split.
  - intros (fields & ids' & id' & k' & b' & h' & -> & Hf & Hids & Hid & Hrest).
    rewrite as_array_json_array in Hf. injection Hf as <-. simpl in *.
    apply decode_subscription_ids_Ok in Hids as (vs & Hvs & Hids & Hne & Hnd).
    apply decode_event_id_Ok in Hid as (s & Hs & Hid). simpl in *.
    rewrite as_array_json_array in Hvs. injection Hvs as <-.
    rewrite as_str_json_str in Hs. injection Hs as <-.
    rewrite event_id_hex_roundtrip in Hid. injection Hid as <-.
    rewrite !as_u64_json_u64 in Hrest by done.
    rewrite as_str_json_strs in Hids. apply (inj (fmap Some)) in Hids as ->.
    destruct Hrest as ([= ->] & ? & [= ->] & ? & [= ->] & ? & ?).
    split; [done|]. split_and!; try done; lia.
  - intros (-> & Hne & Hnd & _ & _ & Hh1 & _).
    eexists _, ids, id, k, b, h. split; [done|]. split; [apply as_array_json_array|].
    rewrite decode_subscription_ids_Ok, decode_event_id_Ok. simpl.
    rewrite as_array_json_array, as_str_json_str, !as_u64_json_u64 by done.
    split_and!; try done; [| |lia].
    + eexists. split; [done|]. split_and!; try done. apply as_str_json_strs.
    + eexists. split; [done|]. apply event_id_hex_roundtrip.
Qed.

Lemma decode_want_frame `{!WireJsonLaws J} codec id frame :
  encode_frame codec (WireWant id) = Ok frame → decode_frame codec frame = Ok (WireWant id).
Proof.
  intros [-> Hle]%encode_frame_Ok. simpl encode_json in *. rewrite decode_json by done.
  unfold decode_value. rewrite as_array_json_array. simpl. rewrite as_str_json_str. simpl.
  unfold decode_want. rewrite as_array_json_array. simpl. unfold decode_event_id. simpl.
  rewrite as_str_json_str. simpl. by rewrite event_id_hex_roundtrip.
Qed.

(** C34. Inventories and requests round-trip: what the codec encodes it
    decodes to the same message, an inventory exactly when it is valid (the
    encoder does not check, the decoder does). *)
Theorem inv_want_frame_roundtrip `{!WireJsonLaws J} codec m frame :
  encode_frame codec m = Ok frame →
  match m with
  | WireInv ids id k b h =>
      k ≤ u16_max → b ≤ u32_max → h ≤ u8_max →
      if decide (ids ≠ [] ∧ NoDup ids ∧ h ≠ 0) then decode_frame codec frame = Ok m
      else is_err (decode_frame codec frame) = true
  | WireWant id => decode_frame codec frame = Ok m
  | _ => True
  end.
Proof.
  destruct m as [| | | |ids id k b h|id]; try done; [|apply decode_want_frame].
  intros [-> Hle]%encode_frame_Ok.
  - intros Hk Hb Hh. simpl encode_json in *. rewrite decode_json by done.
    unfold decode_value. rewrite as_array_json_array. simpl. rewrite as_str_json_str. simpl.
    fold (inv_value ids id k b h). case_decide as Hv.
    + apply decode_inv_value; [done..|]. split; [done|]. simpl. naive_solver lia.
    + destruct (decode_inv _) as [m'|] eqn:Hd; [|done].
      apply decode_inv_value in Hd as [_ Hvalid]; [|done..]. simpl in Hvalid.
      destruct Hv. naive_solver lia.
Qed.

(** ** The adapter *)
Lemma store_upsert_Err p sub s e s' : store_upsert p sub s = Some (Err e, s') → s' = s.
Proof.
  unfold store_upsert. destruct (_ ← check_upsert _ _; _) as [added|]; [|congruence].
  by destruct (upsert_checked p sub added s) as [[]|].
Qed.

(** C35. An inbound frame never panics the adapter and keeps the peer
    subscriptions well-formed; a frame that is rejected, and any message but
    a request or its close, leaves them as they were. *)
Theorem decode_inbound_safe p frame a :
  store_ok (wa_subscriptions a) →
  ∃ r a', decode_inbound p frame a = Some (r, a') ∧ wa_codec a' = wa_codec a ∧
    store_ok (wa_subscriptions a') ∧
    (is_err r = true → a' = a) ∧
    (∀ i, r = Ok i → decode_frame (wa_codec a) frame = Ok (in_message i) ∧
      (in_subscription_update i = UpdIgnored → a' = a)).
Proof.
  intros Hs. unfold decode_inbound.
  destruct (decode_frame (wa_codec a) frame) as [m|e] eqn:Hd;
    [|by do 2 eexists; split_and!].
  destruct m as [id filters|id| | | |];
    try (do 2 eexists; split_and!; [done..|by intros i [= <-]]).
  - unfold upsert_filters.
    destruct (store_upsert_spec p (mkPeerSubscription id filters) _ Hs) as (r & s' & Hup & _ & []).
    rewrite Hup. simpl. do 2 eexists. split_and!; [done|done|done| |].
    + destruct r as [ev|e]; [done|]. intros _. apply store_upsert_Err in Hup as ->.
      by destruct a.
    + destruct r as [ev|e]; simpl; [|done]. by intros i [= <-].
  - destruct (store_remove_spec p id _ Hs) as (r & s' & -> & []). simpl.
    do 2 eexists. split_and!; [done..|]. by intros i [= <-].
Qed.
End wire_props.

(** ** A concrete instance

    JSON values as stdpp's [gen_tree], printed as the bits of their encoding. *)
Module ToyWire.
#[local] Existing Instance Toy.toy_nostr.
Definition toy_value : Type := gen_tree (string + N).
Definition toy_from_hex (s : string) : result string EventId :=
  match filter (λ i, Toy.toy_hex i = s) [Toy.IdA; Toy.IdB; Toy.IdC; Toy.IdD] with
  | i :: _ => Ok i
  | [] => Err "invalid hex"%string
  end.
#[export] Instance toy_wire : WireJson Toy.toy_nostr := {|
  Value := toy_value;
  json_array l := GenNode 0 l;
  json_str s := GenLeaf (inl s);
  json_u64 n := GenLeaf (inr (n `min` u64_max));
  as_array v := match v with GenNode _ l => Some l | _ => None end;
  as_str v := match v with GenLeaf (inl s) => Some s | _ => None end;
  as_u64 v := match v with GenLeaf (inr n) => Some (n `min` u64_max) | _ => None end;
  value_to_string v := String Toy.bit1 (Toy.bits (encode v));
  value_from_slice s :=
    match s with
    | String _ s' =>
        match decode (Toy.of_bits s') with Some v => Ok v | None => Err "bad"%string end
    | _ => Err "empty"%string
    end;
  client_as_json _ := ""%string; client_from_value _ := Err "unsupported"%string;
  relay_as_json _ := ""%string; relay_from_value _ := Err "unsupported"%string;
  event_id_from_hex := toy_from_hex;
|}.
#[export] Instance toy_wire_laws : WireJsonLaws toy_wire.
Proof.
  split; simpl; try done.
  - intros n Hn. f_equal. lia.
  - intros [[s|n]|] m; [done| |done]. intros [= <-]. lia.
  - intros v. by rewrite Toy.of_bits_bits, decode_encode.
  - by intros [].
Qed.
End ToyWire.

Module WireWitness.
#[local] Existing Instance Toy.toy_nostr.
Import ToyWire.
Definition codec : FipsPubsubWireCodec := default_wire_codec.
Definition want_a : FipsPubsubWireMessage := WireWant Toy.IdA.
Definition inv_a : FipsPubsubWireMessage := WireInv ["feed"; "alerts"]%string Toy.IdA 1 7 3.
Definition frame : string := encode_json inv_a.
Definition adapter : FipsPubsubWireAdapter := default_wire_adapter.
Lemma frame_size : slen frame ≤ max_frame_bytes codec.
Proof. vm_compute. congruence. Qed.
Lemma inv_encodes : encode_frame codec inv_a = Ok frame.
Proof. apply encode_frame_Ok. split; [reflexivity|exact frame_size]. Qed.

Lemma inv_decodes : decode_frame codec frame = Ok inv_a.
Proof.
  etrans; [exact (decode_json codec (inv_value ["feed"; "alerts"]%string Toy.IdA 1 7 3) frame_size)|].
  reflexivity.
Qed.

Lemma inv_want_frame_roundtrip_witness : decode_frame codec frame = Ok inv_a.
Proof.
  exact (inv_want_frame_roundtrip codec inv_a frame inv_encodes
    ltac:(done) ltac:(done) ltac:(done)).
Defined.
Lemma decode_frame_valid_witness :
  slen frame ≤ max_frame_bytes codec ∧ frame ≠ ""%string ∧ wire_valid inv_a.
Proof.
  exact (decode_frame_valid codec frame inv_a inv_decodes).
Defined.
Lemma decode_inbound_safe_witness :
  ∃ r a', decode_inbound "peer" frame adapter = Some (r, a') ∧ wa_codec a' = wa_codec adapter ∧
    store_ok (wa_subscriptions a') ∧ (is_err r = true → a' = adapter) ∧
    (∀ i, r = Ok i → decode_frame (wa_codec adapter) frame = Ok (in_message i) ∧
      (in_subscription_update i = UpdIgnored → a' = adapter)).
Proof. exact (decode_inbound_safe "peer" frame adapter (store_new_ok _)). Defined.
End WireWitness.
