(* ===== verification/Retained.v ===== *)
(** * Retained events

    crates/nostr-pubsub/src/retained.rs: the bounded snapshot of verified
    events that durable stores keep, with NIP-01 replacement, NIP-40 expiry
    and limits on count and bytes. *)

From S2P Require Export Events.

(** ** Scanning with a limit

    The loop [for x in l { if limit.is_some_and(|n| matched >= n) { break }
    if p(x) { .. matched += 1 } }] of the stores' queries. *)
Fixpoint scan {A} (limit : option N) (P : A → bool) (matched : N) (l : list A) : list A :=
  match l with
  | [] => []
  | x :: l' =>
      if is_some_and (λ n, bool_decide (n ≤ matched)) limit then []
      else if P x then x :: scan limit P (matched + 1) l'
      else scan limit P matched l'
  end.
Definition take_limit {A} (limit : option N) (l : list A) : list A :=
  match limit with Some n => take (N.to_nat n) l | None => l end.

Lemma scan_take {A} (limit : option N) (P : A → bool) k l :
  scan limit P k l = take_limit ((λ n, n - k) <$> limit) (filter P l).
Proof.
  revert k. induction l as [|x l IH]; intros k; simpl.
  { by destruct limit as [n|]; simpl; [destruct (N.to_nat _)|]. }
  destruct limit as [n|]; simpl in *.
  - case_bool_decide as Hn; simpl.
    + by replace (N.to_nat (n - k)) with 0%nat by lia.
    + rewrite filter_cons. destruct (P x); simpl; rewrite IH; [|done].
      replace (N.to_nat (n - k)) with (S (N.to_nat (n - (k + 1)))) by lia. done.
  - rewrite filter_cons. destruct (P x); simpl; by rewrite IH.
Qed.

(** Keeping what is among the first matches, in a list of distinct keys, is
    taking the first matches. *)
Lemma filter_selected `{Countable K} {A} (key : A → K) (P : A → bool) n (l : list A) :
  NoDup (key <$> l) →
  filter (λ x, key x ∈ key <$> take n (filter P l)) l = take n (filter P l).
Proof.
  revert n. induction l as [|x l IH]; intros n; csimpl; [by destruct n|].
  intros [Hx Hnd]%NoDup_cons.
  assert (∀ m y, y ∈ take m (filter P l) → y ∈ l) as Hin.
  { intros m y Hy. eapply list_elem_of_filter, subseteq_take. exact Hy. }
  assert (∀ m, key x ∉ key <$> take m (filter P l)) as Hnot.
  { intros m (y & Hy & Hym)%list_elem_of_fmap. apply Hx. rewrite Hy.
    by apply list_elem_of_fmap_2, Hin with m. }
  rewrite !filter_cons. destruct (P x); simpl.
  - destruct n as [|n]; simpl.
    + apply filter_none. set_solver.
    + rewrite decide_True by left. f_equal. etrans; [|by apply (IH n)].
      apply filter_ext_in. intros y Hy. rewrite elem_of_cons. split; [|by right].
      intros [Heq|]; [|done]. destruct Hx. rewrite <-Heq. by apply list_elem_of_fmap_2.
  - rewrite decide_False by done. by apply IH.
Qed.

Definition MAX_RETAINED_EVENT_BYTES : N := 64 * 1024.
Definition MAX_RETAINED_SNAPSHOT_BYTES : N := 16 * 1024 * 1024.
Definition MAX_RETAINED_EVENTS : N := 4096.

(** [value.bytes().all(|byte| byte.is_ascii_digit())] and
    [value.parse::<u64>()] of such a value. *)
Definition is_digit (c : Ascii.ascii) : bool := bool_decide (48 ≤ Ascii.N_of_ascii c ≤ 57).
Definition digits_value (s : string) : N :=
  foldl (λ acc c, acc * 10 + (Ascii.N_of_ascii c - 48)) 0 (String.list_ascii_of_string s).
Definition parse_expiration (value : string) : option N :=
  if bool_decide (value ≠ ""%string) && all_chars is_digit value then
    if decide (digits_value value ≤ u64_max) then Some (digits_value value) else None
  else None.

Section retained.
Context `{!Nostr}.

(** ** Event classification *)
Definition retained_event_is_current (event : Event) (now : N) : bool :=
  let expiration :=
    find (λ tag, is_some_and (λ value, bool_decide (value = "expiration"%string)) (head tag))
      (event_tags event) in
  let unexpired :=
    match expiration with
    | None => true
    | Some tag => is_some_and (λ expires, bool_decide (now < expires))
        (value ← tag !! 1%nat; parse_expiration value)
    end in
  negb (bool_decide (20000 ≤ event_kind event < 30000))
  && bool_decide (event_created_at event ≤ u64_sat_add now 300)
  && unexpired.

Definition id_lt (i j : EventId) : bool :=
  match event_id_compare i j with Lt => true | _ => false end.
Definition event_supersedes (candidate previous : Event) : bool :=
  bool_decide (event_created_at previous < event_created_at candidate)
  || (bool_decide (event_created_at candidate = event_created_at previous)
      && id_lt (event_id candidate) (event_id previous)).

Definition event_coordinate (event : Event) : option (N * PublicKey * string) :=
  let kind := event_kind event in
  if decide (kind = 0 ∨ kind = 3 ∨ 10000 ≤ kind ≤ 19999) then
    Some (kind, event_pubkey event, ""%string)
  else if decide (30000 ≤ kind < 40000) then
    Some (kind, event_pubkey event, default ""%string (event_identifier event))
  else None.

(** Newest first, ties by the lower identifier. *)
Definition newest_first : Event → Event → comparison :=
  cmp_then (cmp_rev (cmp_on event_created_at N.compare)) (cmp_on event_id event_id_compare).

(** ** The snapshot *)
Definition entry : Type := VerifiedEvent * N.
Definition entry_event (x : entry) : Event := as_event x.1.
Record RetainedEvents : Type := mkRetained {
  re_policy : EventRetentionPolicy;
  re_events : list entry;
  re_bytes : N;
}.
Implicit Types r : RetainedEvents.

Definition retained_new (policy : EventRetentionPolicy) : res RetainedEvents :=
  if bool_decide (rp_max_events policy = 0)
    || bool_decide (MAX_RETAINED_EVENTS < rp_max_events policy)
    || bool_decide (rp_filters policy = [])
  then Err (Validation "retention requires filters and 1..=4096 events")
  else Ok (mkRetained policy [] 0).

Definition total_bytes (events : list entry) : N := sum_by (λ x, x.2 + 1) events.

(** The eviction loop; each turn pops the oldest entry. *)
Fixpoint trim (fuel : nat) (max_events : N) (events : list entry) (bytes : N)
    : list entry * N :=
  match fuel with
  | O => (events, bytes)
  | S fuel' =>
      if bool_decide (max_events < nlen events)
        || bool_decide (MAX_RETAINED_SNAPSHOT_BYTES < bytes + 128) then
        match last events with
        | Some x => trim fuel' max_events (removelast events) (bytes - (x.2 + 1))
        | None => trim fuel' max_events events bytes
        end
      else (events, bytes)
  end.

(** The guards of [insert]: the size of the encoded event, if it may be
    inserted. *)
Definition insertable (event : VerifiedEvent) (now : N) r : option N :=
  let raw := as_event event in
  if negb (accepts (re_policy r) event)
    || negb (retained_event_is_current raw now)
    || existsb (λ old, bool_decide (event_id (entry_event old) = event_id raw)) (re_events r)
  then None
  else
    match event_to_json raw with
    | Err _ => None
    | Ok encoded =>
        if decide (MAX_RETAINED_EVENT_BYTES < slen encoded) then None
        else
          let coordinate := event_coordinate raw in
          if bool_decide (coordinate ≠ None)
            && existsb (λ old, bool_decide (event_coordinate (entry_event old) = coordinate)
                 && negb (event_supersedes raw (entry_event old))) (re_events r)
          then None
          else Some (slen encoded)
    end.

(** [self.events.retain(..)]. *)
Definition survives (raw : Event) (now : N) (old : entry) : bool :=
  retained_event_is_current (entry_event old) now
  && (bool_decide (event_coordinate raw = None)
      || bool_decide (event_coordinate (entry_event old) ≠ event_coordinate raw)).

Definition retained_insert (event : VerifiedEvent) (now : N) r : bool * RetainedEvents :=
  match insertable event now r with
  | None => (false, r)
  | Some size =>
      let events := sort_by (cmp_on entry_event newest_first)
        (filter (survives (as_event event) now) (re_events r) ++ [(event, size)]) in
      let '(events, bytes) :=
        trim (S (length events)) (rp_max_events (re_policy r)) events (total_bytes events) in
      (existsb (λ stored, bool_decide (event_id (entry_event stored) = event_id (as_event event)))
         events,
       mkRetained (re_policy r) events bytes)
  end.

Definition retained_restore (events : list Event) (now : N) r : RetainedEvents :=
  foldl (λ r event,
    match verified_try_from event with
    | Ok event => (retained_insert event now r).2
    | Err _ => r
    end) r events.

Definition retained_events_snapshot (now : N) r : list Event :=
  entry_event <$> filter (λ x, retained_event_is_current (entry_event x) now) (re_events r).

(** The identifiers [query] selects, filter by filter. *)
Definition selected_ids (filters : list Filter) (now : N) r : gset EventId :=
  foldl (λ selected filter,
    selected ∪ list_to_set ((λ x, event_id (entry_event x)) <$>
      scan (filter_limit filter)
        (λ x, retained_event_is_current (entry_event x) now
              && filter_match filter (entry_event x)) 0 (re_events r)))
    ∅ filters.
Definition retained_query (filters : list Filter) (options : QueryOptions) (now : N) r
    : list VerifiedEvent :=
  (λ x, x.1) <$>
    take (N.to_nat (default (rp_max_events (re_policy r)) (qo_limit options)))
      (filter (λ x, event_id (entry_event x) ∈ selected_ids filters now r) (re_events r)).
End retained.

(** ** Invariant *)
Section retained_spec.
Context `{!Nostr}.
Implicit Types r : RetainedEvents.

Definition fits (max_events : N) (l : list entry) : Prop :=
  nlen l ≤ max_events ∧ total_bytes l + 128 ≤ MAX_RETAINED_SNAPSHOT_BYTES.

Lemma total_bytes_app l1 l2 : total_bytes (l1 ++ l2) = total_bytes l1 + total_bytes l2.
Proof. apply sum_by_app. Qed.
Lemma fits_take max_events l k : fits max_events l → fits max_events (take k l).
Proof.
  unfold fits. rewrite <-(take_drop k l) at 1 2. rewrite nlen_app, total_bytes_app. lia.
Qed.

(** The eviction loop terminates with the longest prefix that fits. *)
Lemma trim_spec fuel max_events l :
  (length l < fuel)%nat →
  ∃ k, (k ≤ length l)%nat ∧
    trim fuel max_events l (total_bytes l) = (take k l, total_bytes (take k l)) ∧
    fits max_events (take k l) ∧
    ∀ j, (k < j ≤ length l)%nat → ¬ fits max_events (take j l).
Proof.
  revert l. induction fuel as [|fuel IH]; intros l Hf; [lia|]. simpl.
  destruct (_ || _) eqn:Hcond.
  - assert (¬ fits max_events l) as Hnot.
    { intros [? ?]. apply orb_true_iff in Hcond as [Hc|Hc];
        apply bool_decide_eq_true in Hc; lia. }
    destruct l as [|x l _] using rev_ind.
    { destruct Hnot. split; [apply N.le_0_l|vm_compute; congruence]. }
    rewrite last_snoc, removelast_last. rewrite length_app in *. simpl in *.
    replace (total_bytes (l ++ [x]) - (x.2 + 1)) with (total_bytes l)
      by (rewrite total_bytes_app; simpl; lia).
    destruct (IH l) as (k & Hk & -> & Hfit & Hmax); [lia|].
    exists k. rewrite take_app_le by done. split_and!; [lia|done|done|].
    intros j Hj. destruct (decide (j ≤ length l)%nat).
    + rewrite take_app_le by done. apply Hmax. lia.
    + rewrite take_ge by (rewrite length_app; simpl; lia). done.
  - exists (length l). rewrite take_ge by done. split_and!; [done|done| |lia].
    apply orb_false_iff in Hcond as [Hc1 Hc2]. rewrite bool_decide_eq_false in Hc1, Hc2.
    split; lia.
Qed.

Record entry_ok (policy : EventRetentionPolicy) (x : entry) : Prop := {
  eo_verified : verified (entry_event x);
  eo_accepts : accepts policy x.1 = true;
  eo_durable : ¬ (20000 ≤ event_kind (entry_event x) < 30000);
  eo_size : ∃ encoded, event_to_json (entry_event x) = Ok encoded ∧ slen encoded = x.2;
  eo_bound : x.2 ≤ MAX_RETAINED_EVENT_BYTES;
}.
Definition entry_order : entry → entry → comparison := cmp_on entry_event newest_first.
(** No two entries share an identifier, or a replaceable coordinate. *)
Record distinct (l : list entry) : Prop := {
  ds_ids : NoDup ((λ x, event_id (entry_event x)) <$> l);
  ds_coordinates x y : x ∈ l → y ∈ l →
    event_coordinate (entry_event x) = event_coordinate (entry_event y) →
    event_coordinate (entry_event x) ≠ None → x = y;
}.
Record retained_ok r : Prop := {
  ro_policy : 1 ≤ rp_max_events (re_policy r) ≤ MAX_RETAINED_EVENTS ∧
    rp_filters (re_policy r) ≠ [];
  ro_entry x : x ∈ re_events r → entry_ok (re_policy r) x;
  ro_sorted : StronglySorted (cmp_le entry_order) (re_events r);
  ro_distinct : distinct (re_events r);
  ro_fits : fits (rp_max_events (re_policy r)) (re_events r);
  ro_total : re_bytes r = total_bytes (re_events r);
}.

Lemma distinct_perm l l' : l ≡ₚ l' → distinct l → distinct l'.
Proof.
  intros Hp [Hi Hc]. split; [by rewrite <-Hp|]. intros x y. rewrite <-Hp. apply Hc.
Qed.
Lemma distinct_sublist l l' : l `sublist_of` l' → distinct l' → distinct l.
Proof.
  intros Hs [Hi Hc]. split.
  - eapply sublist_NoDup; [exact Hi|by apply fmap_sublist].
  - intros x y Hx Hy. apply Hc; by eapply sublist_subseteq.
Qed.
Lemma distinct_id_eq l x y :
  distinct l → x ∈ l → y ∈ l → event_id (entry_event x) = event_id (entry_event y) → x = y.
Proof.
  intros [Hi _] [i Hx]%list_elem_of_lookup [j Hy]%list_elem_of_lookup Heq.
  assert (i = j) as ->; [|congruence].
  eapply NoDup_lookup; [exact Hi|rewrite list_lookup_fmap, Hx; done|].
  rewrite list_lookup_fmap, Hy. simpl. by rewrite Heq.
Qed.

Lemma insertable_Some event now r size :
  insertable event now r = Some size ↔
    accepts (re_policy r) event = true ∧
    retained_event_is_current (as_event event) now = true ∧
    (∀ old, old ∈ re_events r → event_id (entry_event old) ≠ event_id (as_event event)) ∧
    (∃ encoded, event_to_json (as_event event) = Ok encoded ∧ slen encoded = size) ∧
    size ≤ MAX_RETAINED_EVENT_BYTES ∧
    (event_coordinate (as_event event) ≠ None → ∀ old, old ∈ re_events r →
      event_coordinate (entry_event old) = event_coordinate (as_event event) →
      event_supersedes (as_event event) (entry_event old) = true).
Proof.
  unfold insertable. destruct (_ || _) eqn:Hguard.
  { split; [done|]. intros (Ha & Hc & Hid & _). exfalso.
    rewrite !orb_true_iff, !negb_true_iff, existsb_exists in Hguard.
    destruct Hguard as [[|]|(old & Hin%list_elem_of_In & Heq%bool_decide_eq_true)];
      [congruence..|]. by apply (Hid old). }
  rewrite !orb_false_iff, !negb_false_iff in Hguard. destruct Hguard as [[Ha Hc] Hid].
  assert (∀ old, old ∈ re_events r → event_id (entry_event old) ≠ event_id (as_event event)) as Hid'.
  { intros old Hin Heq. rewrite <-not_true_iff_false, existsb_exists in Hid. apply Hid.
    exists old. rewrite <-list_elem_of_In, bool_decide_eq_true. done. }
  clear Hid. destruct (event_to_json (as_event event)) as [encoded|]; [|naive_solver].
  case_decide as Hbig; [split; [done|]; naive_solver lia|].
  destruct (_ && _) eqn:Hconf.
  - split; [done|]. intros (_ & _ & _ & _ & _ & Hsup). exfalso.
    apply andb_true_iff in Hconf as [Hne%bool_decide_eq_true (old & Hin & Hold)%existsb_exists].
    apply list_elem_of_In in Hin. apply andb_true_iff in Hold as [Heq%bool_decide_eq_true Hneg].
    rewrite (Hsup Hne old Hin Heq) in Hneg. done.
  - rewrite andb_false_iff, bool_decide_eq_false in Hconf. split.
    + intros [= <-]. split_and!; [done..|by eexists|lia|]. intros Hne old Hin Heq.
      destruct Hconf as [Hc'|Hc']; [done|].
      rewrite <-not_true_iff_false, existsb_exists in Hc'.
      destruct (event_supersedes _ _) eqn:Hs; [done|]. destruct Hc'. exists old.
      by rewrite <-list_elem_of_In, Hs, bool_decide_true.
    + intros (_ & _ & _ & (encoded' & [= <-] & <-) & _). done.
Qed.

Definition candidates (event : VerifiedEvent) (size now : N) r : list entry :=
  filter (survives (as_event event) now) (re_events r) ++ [(event, size)].

Lemma survives_spec raw now old :
  survives raw now old = true ↔
    retained_event_is_current (entry_event old) now = true ∧
    (event_coordinate raw = None ∨ event_coordinate (entry_event old) ≠ event_coordinate raw).
Proof.
  unfold survives. by rewrite andb_true_iff, orb_true_iff, !bool_decide_eq_true.
Qed.
Lemma candidates_elem event size now r x :
  x ∈ candidates event size now r ↔
    x = (event, size) ∨ x ∈ re_events r ∧ survives (as_event event) now x = true.
Proof.
  unfold candidates. rewrite elem_of_app, list_elem_of_filter, list_elem_of_singleton.
  rewrite Is_true_true. naive_solver.
Qed.
Lemma candidates_distinct event size now r :
  distinct (re_events r) → insertable event now r = Some size →
  distinct (candidates event size now r).
Proof.
  intros Hd (_ & _ & Hid & _)%insertable_Some.
  assert (distinct (filter (survives (as_event event) now) (re_events r))) as [Hi Hc]
    by (eapply distinct_sublist; [apply sublist_filter|done]).
  split.
  - unfold candidates. rewrite fmap_app. apply NoDup_app. split_and!; [done| |apply NoDup_singleton].
    intros i (x & -> & Hx)%list_elem_of_fmap. simpl. rewrite list_elem_of_singleton.
    apply Hid. by apply list_elem_of_filter in Hx as [_ ?].
  - intros x y Hx Hy Heq Hne. rewrite candidates_elem in Hx, Hy.
    destruct Hx as [->|[Hx Hsx]], Hy as [->|[Hy Hsy]]; [done|..].
    + apply survives_spec in Hsy as [_ [Hn|Hn]]; [done|]. by destruct Hn.
    + apply survives_spec in Hsx as [_ [Hn|Hn]]; [|by destruct Hn].
      destruct Hne. by rewrite Heq.
    + by apply (ds_coordinates _ Hd).
Qed.

(** What an insertion that passes the guards leaves. *)
Lemma retained_insert_spec event now r size :
  insertable event now r = Some size →
  ∃ k, let sorted := sort_by entry_order (candidates event size now r) in
    (k ≤ length sorted)%nat ∧
    re_events (retained_insert event now r).2 = take k sorted ∧
    re_bytes (retained_insert event now r).2 = total_bytes (take k sorted) ∧
    re_policy (retained_insert event now r).2 = re_policy r ∧
    fits (rp_max_events (re_policy r)) (take k sorted) ∧
    (∀ j, (k < j ≤ length sorted)%nat → ¬ fits (rp_max_events (re_policy r)) (take j sorted)) ∧
    ((retained_insert event now r).1 = true ↔
      ∃ x, x ∈ take k sorted ∧ event_id (entry_event x) = event_id (as_event event)).
Proof.
  intros Hins. unfold retained_insert. rewrite Hins.
  fold (candidates event size now r). fold entry_order.
  set (sorted := sort_by entry_order (candidates event size now r)).
  destruct (trim_spec (S (length sorted)) (rp_max_events (re_policy r)) sorted)
    as (k & Hk & -> & Hfit & Hmax); [lia|].
  exists k. simpl. split_and!; try done. rewrite existsb_exists.
  setoid_rewrite <-list_elem_of_In. setoid_rewrite bool_decide_eq_true. done.
Qed.
End retained_spec.

(** ** Theorems *)
Section retained_props.
Context `{!Nostr, !NostrLaws _}.
Implicit Types r : RetainedEvents.

#[export] Instance newest_first_order : CmpOrder newest_first.
Proof. unfold newest_first. apply _. Qed.
#[export] Instance entry_order_order : CmpOrder entry_order.
Proof. unfold entry_order. apply _. Qed.

Lemma retained_insert_ok event now r :
  verified (as_event event) → retained_ok r → retained_ok (retained_insert event now r).2.
Proof.
  intros Hv Hok. destruct (insertable event now r) as [size|] eqn:Hins;
    [|by unfold retained_insert; rewrite Hins].
  destruct (retained_insert_spec _ _ _ _ Hins) as (k & Hk & He & Hb & Hp & Hfit & _ & _).
  destruct Hok as [Hpol Hent Hsort Hdis _ _].
  pose proof (candidates_distinct _ _ _ _ Hdis Hins) as Hcd.
  pose proof (sort_by_perm entry_order (candidates event size now r)) as Hperm.
  split; rewrite ?He, ?Hb, ?Hp; try done.
  - intros x Hx%subseteq_take. rewrite Hperm in Hx. apply candidates_elem in Hx as [->|[Hx _]];
      [|by apply Hent].
    apply insertable_Some in Hins as (Ha & Hc & _ & Hj & Hs & _). split; try done.
    unfold retained_event_is_current in Hc. rewrite !andb_true_iff, negb_true_iff in Hc.
    destruct Hc as [[Hkind _] _]. by apply bool_decide_eq_false in Hkind.
  - apply StronglySorted_take, sort_by_sorted. apply _.
  - eapply distinct_sublist; [apply sublist_take|]. by eapply distinct_perm.
Qed.

Lemma retained_new_ok policy r : retained_new policy = Ok r → retained_ok r.
Proof.
  unfold retained_new. destruct (_ || _) eqn:Hc; [done|]. intros [= <-].
  rewrite !orb_false_iff, !bool_decide_eq_false in Hc. destruct Hc as [[? ?] ?].
  split; simpl; try done.
  - split; [lia|done].
  - by intros x Hx%not_elem_of_nil.
  - constructor.
  - split; [constructor|]. by intros x y Hx%not_elem_of_nil.
  - split; [apply N.le_0_l|vm_compute; congruence].
Qed.
Lemma retained_restore_ok events now r : retained_ok r → retained_ok (retained_restore events now r).
Proof.
  revert r. unfold retained_restore. induction events as [|e events IH]; intros r Hok; simpl; [done|].
  apply IH. destruct (verified_try_from e) as [v|] eqn:Hv; [|done].
  apply verified_try_from_Ok in Hv as [-> Hv]. by apply retained_insert_ok.
Qed.

(** The operations a store goes through, with the clock of each. *)
Inductive retained_op : Type :=
  | OpInsert (event : VerifiedEvent) (now : N)
  | OpRestore (events : list Event) (now : N).
Definition run_retained_op r (op : retained_op) : RetainedEvents :=
  match op with
  | OpInsert event now => (retained_insert event now r).2
  | OpRestore events now => retained_restore events now r
  end.

Lemma run_retained_ops_ok ops r :
  retained_ok r → (∀ event now, OpInsert event now ∈ ops → verified (as_event event)) →
  retained_ok (foldl run_retained_op r ops).
Proof.
  revert r. induction ops as [|op ops IH]; intros r Hok Hver; simpl; [done|].
  apply IH; [|intros e t Hin; apply (Hver e t); by right].
  destruct op as [e t|es t]; simpl; [|by apply retained_restore_ok].
  apply retained_insert_ok; [|done]. apply (Hver e t). left.
Qed.

(** C36. A retained snapshot stays sound through any sequence of inserts
    and restores, trusted or not: every entry verified and selected by the
    policy, none ephemeral, identifiers and replaceable coordinates distinct,
    newest first, within the limits on count and bytes. *)
Theorem retained_invariant policy r0 ops :
  retained_new policy = Ok r0 →
  (∀ event now, OpInsert event now ∈ ops → verified (as_event event)) →
  retained_ok (foldl run_retained_op r0 ops).
Proof. intros Hnew. apply run_retained_ops_ok. by eapply retained_new_ok. Qed.

(** An insertion either changes nothing, or leaves the longest prefix
    that fits of the surviving entries and the new one, newest first; it
    answers whether the event is now retained; and an event that is retained
    supersedes and replaces whatever shared its coordinate. *)
Theorem retained_insert_outcome event now r :
  retained_ok r →
  let '(kept, r') := retained_insert event now r in
  (r' = r ∧ kept = false ∨
   ∃ size k, let sorted := sort_by entry_order (candidates event size now r) in
     re_events r' = take k sorted ∧ fits (rp_max_events (re_policy r)) (take k sorted) ∧
     (∀ j, (k < j ≤ length sorted)%nat → ¬ fits (rp_max_events (re_policy r)) (take j sorted)) ∧
     (kept = true ↔ (event, size) ∈ re_events r') ∧
     ∀ old, old ∈ re_events r → event_coordinate (as_event event) ≠ None →
       event_coordinate (entry_event old) = event_coordinate (as_event event) →
       event_supersedes (as_event event) (entry_event old) = true ∧ old ∉ re_events r').
Proof.
  intros Hok. destruct (insertable event now r) as [size|] eqn:Hins;
    [|by unfold retained_insert; rewrite Hins; left].
  destruct (retained_insert_spec _ _ _ _ Hins) as (k & Hk & He & _ & _ & Hfit & Hmax & Hkept).
  destruct (retained_insert event now r) as [kept r']. simpl in *. right.
  pose proof (sort_by_perm entry_order (candidates event size now r)) as Hperm.
  exists size, k. split_and!; [done|done|done| |].
  - rewrite Hkept, He. split; [|intros Hin; by exists (event, size)].
    intros (x & Hx & Hid). pose proof (subseteq_take _ _ _ Hx) as Hc.
    rewrite Hperm in Hc. apply candidates_elem in Hc as [->|[Hin _]]; [done|].
    apply insertable_Some in Hins as (_ & _ & Hfresh & _). by destruct (Hfresh x).
  - intros old Hin Hne Heq. split.
    + apply insertable_Some in Hins as (_ & _ & _ & _ & _ & Hsup). by apply Hsup.
    + rewrite He. intros Hx%subseteq_take. rewrite Hperm in Hx.
      apply candidates_elem in Hx as [->|[_ [_ [Hn|Hn]]%survives_spec]]; [|done..].
      apply insertable_Some in Hins as (_ & _ & Hfresh & _). by destruct (Hfresh _ Hin).
Qed.

(** ** Queries *)
Definition current_match (filter : Filter) (now : N) (x : entry) : bool :=
  retained_event_is_current (entry_event x) now && filter_match filter (entry_event x).
Lemma query_selected filters now r i :
  i ∈ selected_ids filters now r ↔
    ∃ f, f ∈ filters ∧ i ∈ (λ x, event_id (entry_event x)) <$>
      take_limit (filter_limit f) (filter (current_match f now) (re_events r)).
Proof.
  unfold selected_ids. cut (∀ s0 : gset EventId, i ∈ foldl (λ selected filter,
    selected ∪ list_to_set ((λ x, event_id (entry_event x)) <$>
      scan (filter_limit filter) (current_match filter now) 0 (re_events r))) s0 filters ↔
    i ∈ s0 ∨ ∃ f, f ∈ filters ∧ i ∈ (λ x, event_id (entry_event x)) <$>
      take_limit (filter_limit f) (filter (current_match f now) (re_events r))).
  { intros Hs. unfold current_match in Hs at 1. rewrite Hs. set_solver. }
  induction filters as [|f filters IH]; intros s0; simpl; [set_solver|].
  rewrite IH, elem_of_union, elem_of_list_to_set, scan_take.
  assert (((λ n, n - 0) <$> filter_limit f) = filter_limit f) as ->
    by (destruct (filter_limit f); simpl; [by rewrite N.sub_0_r|done]).
  setoid_rewrite elem_of_cons. naive_solver.
Qed.

(** A query of one filter answers exactly the newest current matches,
    as many as the filter's limit, the query's limit and the store's allow. *)
Theorem retained_query_exact f options now r :
  retained_ok r →
  retained_query [f] options now r
    = (λ x, x.1) <$> take (N.to_nat (default (rp_max_events (re_policy r)) (qo_limit options)))
        (take_limit (filter_limit f) (filter (current_match f now) (re_events r))).
Proof.
  intros Hok. unfold retained_query. f_equal. f_equal.
  set (P := current_match f now). set (key := λ x : entry, event_id (entry_event x)).
  transitivity (filter (λ x, key x ∈ key <$> take_limit (filter_limit f) (filter P (re_events r)))
    (re_events r)).
  - apply filter_ext_in. intros x _. rewrite query_selected. unfold key, P. set_solver.
  - pose proof (ds_ids _ (ro_distinct _ Hok)) as Hnd. fold key in Hnd.
    destruct (filter_limit f) as [n|]; simpl; [by apply filter_selected|].
    rewrite <-(take_ge (filter P (re_events r)) (length (filter P (re_events r)))) by done.
    by apply filter_selected.
Qed.

(** ** Restarts *)
Lemma retained_insert_next policy l x now :
  (∀ y, y ∈ l ++ [x] → entry_ok policy y ∧ retained_event_is_current (entry_event y) now = true) →
  StronglySorted (cmp_le entry_order) (l ++ [x]) → distinct (l ++ [x]) →
  fits (rp_max_events policy) (l ++ [x]) →
  (retained_insert x.1 now (mkRetained policy l (total_bytes l))).2
    = mkRetained policy (l ++ [x]) (total_bytes (l ++ [x])).
Proof.
  intros Hent Hsort Hdis Hfit. set (r := mkRetained policy l (total_bytes l)).
  assert (x ∈ l ++ [x]) as Hx by (apply elem_of_app; right; by left).
  assert (∀ y, y ∈ l → y ∈ l ++ [x]) as Hl by (intros; apply elem_of_app; by left).
  assert (x ∉ l) as Hnot.
  { destruct Hdis as [Hnd _]. rewrite fmap_app in Hnd. apply NoDup_app in Hnd as (_ & Hnd & _).
    intros Hin. apply (Hnd (event_id (entry_event x))); [|set_solver].
    by apply (list_elem_of_fmap_2 (λ x, event_id (entry_event x))). }
  destruct (Hent x Hx) as [[Hv Ha Hd Hj Hb] Hc].
  assert (insertable x.1 now r = Some x.2) as Hins.
  { apply insertable_Some. simpl. split_and!; try done.
    - intros old Hin Heq. apply Hnot. by rewrite <-(distinct_id_eq _ _ _ Hdis (Hl _ Hin) Hx).
    - intros Hne old Hin Heq. destruct Hnot.
      rewrite <-(ds_coordinates _ Hdis old x (Hl _ Hin) Hx Heq); [done|]. by rewrite Heq. }
  assert (candidates x.1 x.2 now r = l ++ [x]) as Hcand.
  { unfold candidates. rewrite filter_all; [by destruct x|].
    intros y Hy. apply Is_true_true, survives_spec. split; [by apply Hent, Hl|].
    destruct (decide (event_coordinate (as_event x.1) = None)); [by left|right].
    intros Heq. apply Hnot. rewrite <-(ds_coordinates _ Hdis y x (Hl _ Hy) Hx Heq); [done|].
    by rewrite Heq. }
  unfold retained_insert. rewrite Hins. fold (candidates x.1 x.2 now r). fold entry_order.
  rewrite Hcand, sort_by_id by done. simpl. destruct Hfit as [Hn Hbytes].
  rewrite (bool_decide_false (rp_max_events policy < _)) by lia.
  rewrite (bool_decide_false (MAX_RETAINED_SNAPSHOT_BYTES < _)) by lia. done.
Qed.

Lemma retained_restore_all r now r0 :
  retained_ok r → retained_new (re_policy r) = Ok r0 →
  (∀ x, x ∈ re_events r → retained_event_is_current (entry_event x) now = true) →
  retained_restore (entry_event <$> re_events r) now r0 = r.
Proof.
  intros Hok Hnew Hcur. destruct Hok as [_ Hent Hsort Hdis Hfit Htot].
  unfold retained_new in Hnew. destruct (_ || _); [done|]. injection Hnew as <-.
  destruct r as [policy l bytes]. simpl in *. subst bytes.
  induction l as [|x l IH] using rev_ind; [done|].
  unfold retained_restore. rewrite fmap_app, foldl_app. fold (retained_restore (entry_event <$> l) now
    (mkRetained policy [] 0)).
  rewrite IH; [|intros y Hy; apply Hent; set_solver|by eapply StronglySorted_app_1_l
    |eapply distinct_sublist; [apply sublist_inserts_r|]; done
    |rewrite <-(take_app_length l [x]); by apply fits_take|intros y Hy; apply Hcur; set_solver].
  simpl. destruct (Hent x) as [Hv _ _ _ _]; [set_solver|].
  assert (verified_try_from (entry_event x) = Ok x.1) as ->.
  { apply verified_try_from_Ok. split; [by destruct x as [[]]|done]. }
  apply retained_insert_next; try done. intros y Hy. split; [by apply Hent|by apply Hcur].
Qed.
Lemma retained_insert_policy event now r : re_policy (retained_insert event now r).2 = re_policy r.
Proof.
  destruct (insertable event now r) as [size|] eqn:Hins.
  - by destruct (retained_insert_spec _ _ _ _ Hins) as (k & _ & _ & _ & ? & _).
  - unfold retained_insert. by rewrite Hins.
Qed.
(** An insertion drops what has expired. *)
Lemma retained_insert_current event now r x :
  (retained_insert event now r).1 = true → x ∈ re_events (retained_insert event now r).2 →
  retained_event_is_current (entry_event x) now = true.
Proof.
  destruct (insertable event now r) as [size|] eqn:Hins;
    [|by unfold retained_insert; rewrite Hins].
  destruct (retained_insert_spec _ _ _ _ Hins) as (k & _ & -> & _). intros _ Hx%subseteq_take.
  rewrite sort_by_elem in Hx. apply candidates_elem in Hx as [->|[_ Hs]].
  - by apply insertable_Some in Hins as (_ & ? & _).
  - by apply survives_spec in Hs as [? _].
Qed.

(** A restart loses nothing: restoring a snapshot, while none of its
    events has expired, into an empty store with the same policy gives back
    the same store. *)
Theorem retained_restore_snapshot r now r0 :
  retained_ok r → retained_new (re_policy r) = Ok r0 →
  (∀ x, x ∈ re_events r → retained_event_is_current (entry_event x) now = true) →
  retained_restore (retained_events_snapshot now r) now r0 = r.
Proof.
  intros Hok Hnew Hcur. unfold retained_events_snapshot.
  rewrite filter_all by (intros x Hx; by apply Is_true_true, Hcur).
  by apply retained_restore_all.
Qed.
End retained_props.

Module RetainedWitness.
#[local] Existing Instance Toy.toy_nostr.
#[local] Existing Instance Toy.toy_laws.
(** Room for two events; C and D are versions of one addressable event. *)
Definition any : Filter := Toy.ToyFilter None (Some 2) None None.
Definition policy : EventRetentionPolicy := mkRetentionPolicy [any] 2.
Definition event (i : Toy.toy_id) : VerifiedEvent := mkVerifiedEvent (Toy.toy_body i).
Definition ops : list retained_op :=
  [OpInsert (event Toy.IdA) 1000; OpInsert (event Toy.IdC) 1000;
   OpRestore [Toy.toy_body Toy.IdB; Toy.toy_body Toy.IdD] 1000].
Definition store0 : RetainedEvents := mkRetained policy [] 0.
Definition store : RetainedEvents := foldl run_retained_op store0 ops.

Lemma store_new : retained_new policy = Ok store0.
Proof. reflexivity. Qed.
Lemma store_events :
  (λ x, event_id (entry_event x)) <$> re_events store = [Toy.IdD; Toy.IdB].
Proof. vm_compute. reflexivity. Qed.
Lemma ops_verified e now : OpInsert e now ∈ ops → verified (as_event e).
Proof.
  intros Hin. unfold ops in Hin. rewrite !elem_of_cons in Hin.
  destruct Hin as [[= -> ->]|[[= -> ->]|[[=]|Hin%not_elem_of_nil]]]; done.
Qed.
(** The theorem gives the invariant; the other theorems start from it. *)
Lemma store_ok : retained_ok store.
Proof.
  apply run_retained_ops_ok; [exact (retained_new_ok policy store0 store_new)|].
  exact ops_verified.
Qed.

Lemma retained_invariant_witness : retained_ok (foldl run_retained_op store0 ops).
Proof. exact (retained_invariant policy store0 ops store_new ops_verified). Defined.
Lemma retained_insert_outcome_witness :
  (retained_insert (event Toy.IdC) 1000 store).1 = false ∧
  let '(kept, r') := retained_insert (event Toy.IdC) 1000 store in
  r' = store ∧ kept = false ∨
  ∃ size k, let sorted := sort_by entry_order (candidates (event Toy.IdC) size 1000 store) in
    re_events r' = take k sorted ∧ fits (rp_max_events (re_policy store)) (take k sorted) ∧
    (∀ j, (k < j ≤ length sorted)%nat →
      ¬ fits (rp_max_events (re_policy store)) (take j sorted)) ∧
    (kept = true ↔ (event Toy.IdC, size) ∈ re_events r') ∧
    ∀ old, old ∈ re_events store → event_coordinate (as_event (event Toy.IdC)) ≠ None →
      event_coordinate (entry_event old) = event_coordinate (as_event (event Toy.IdC)) →
      event_supersedes (as_event (event Toy.IdC)) (entry_event old) = true ∧
      old ∉ re_events r'.
Proof.
  split; [vm_compute; reflexivity|].
  exact (retained_insert_outcome (event Toy.IdC) 1000 store store_ok).
Defined.
Lemma retained_query_exact_witness :
  retained_query [any] (mkQueryOptions (Some 1)) 1000 store
    = (λ x, x.1) <$> take 1 (take 2 (filter (current_match any 1000) (re_events store))).
Proof. exact (retained_query_exact any (mkQueryOptions (Some 1)) 1000 store store_ok). Defined.
Lemma store_current x : x ∈ re_events store → retained_event_is_current (entry_event x) 1000 = true.
Proof.
  intros Hin. assert (forallb (λ x, retained_event_is_current (entry_event x) 1000)
    (re_events store) = true) as Hall by (vm_compute; reflexivity).
  rewrite forallb_forall in Hall. by apply Hall, list_elem_of_In.
Qed.
Lemma retained_restore_snapshot_witness :
  retained_restore (retained_events_snapshot 1000 store) 1000 store0 = store.
Proof. exact (retained_restore_snapshot store 1000 store0 store_ok store_new store_current). Defined.
End RetainedWitness.
