(* ===== verification/FileStore.v ===== *)
(** * The durable event store

    crates/nostr-pubsub/src/file_store.rs: a [RetainedEvents] behind one
    snapshot file, replaced atomically on every accepted publication. The disk
    is the content of that file; the outcome of every file-system call is an
    argument, so the theorems hold whichever calls fail. The mutex makes each
    operation atomic; a panic inside the blocking task is not modelled. *)

From S2P Require Export Retained.

(** [file.take(n).read_to_end(..)]. *)
Definition read_at_most (limit : N) (content : string) : string :=
  if decide (slen content ≤ limit) then content
  else String.substring 0 (N.to_nat limit) content.

Definition storage (error : string) : PubsubError := Storage error.

(** The outcomes of the file-system calls of [open] and [publish], in the
    order they are made. *)
Record OpenIo : Set := mkOpenIo {
  oi_create_dir : result string unit;
  oi_open_lock : result string unit;
  oi_try_lock : result string unit;
  oi_open_file : result string unit;
  oi_read : result string unit;
}.
Record PublishIo : Set := mkPublishIo {
  pi_new_temporary : result string unit;
  pi_write_all : result string unit;
  pi_sync_all : result string unit;
  pi_persist : result string unit;
  pi_sync_parent : result string unit;
}.

Section file_store.
Context `{!Nostr}.

(** serde_json on [Snapshot]: an event of the file is first a JSON value. *)
Class SnapshotJson : Type := {
  EventValue : Type;
  snapshot_to_vec : N → list Event → result string string;
  snapshot_from_slice : string → result string (N * list EventValue);
  event_from_value : EventValue → option Event;
}.
Class SnapshotJsonLaws (J : SnapshotJson) : Prop := {
  snapshot_roundtrip version events bytes :
    snapshot_to_vec version events = Ok bytes →
    ∃ values, snapshot_from_slice bytes = Ok (version, values) ∧
      omap event_from_value values = events;
}.
Context `{!SnapshotJson}.

(** The slot ([None] when closed) and the snapshot file. *)
Record FileEventBus : Type := mkFileBus {
  fb_state : option RetainedEvents;
  fb_disk : option string;
}.
Implicit Types b : FileEventBus.

(** What [open] reads into a new store. *)
Definition load_snapshot (content : string) (now : N) (events : RetainedEvents)
    : res RetainedEvents :=
  let bytes := read_at_most (MAX_RETAINED_SNAPSHOT_BYTES + 1) content in
  if decide (MAX_RETAINED_SNAPSHOT_BYTES < slen bytes) then
    Err (storage "event snapshot exceeds byte limit")
  else
    snapshot ← map_err storage (snapshot_from_slice bytes);
    if decide (snapshot.1 ≠ 1) then Err (storage "unsupported event snapshot version")
    else Ok (retained_restore (omap event_from_value snapshot.2) now events).
Definition file_open (retention : EventRetentionPolicy) (disk : option string) (now : N)
    (io : OpenIo) : res FileEventBus :=
  events ← retained_new retention;
  _ ← map_err storage (oi_create_dir io);
  _ ← map_err storage (oi_open_lock io);
  _ ← map_err storage (oi_try_lock io);
  match disk with
  | None => Ok (mkFileBus (Some events) disk)
  | Some content =>
      _ ← map_err storage (oi_open_file io);
      _ ← map_err storage (oi_read io);
      events ← load_snapshot content now events;
      Ok (mkFileBus (Some events) disk)
  end.

Definition file_close b : FileEventBus := mkFileBus None (fb_disk b).

(** Writing a candidate: the rename is the commit point, and the in-memory
    state follows it at once. *)
Definition commit (candidate : RetainedEvents) (now : N) (io : PublishIo)
    : SE FileEventBus PubsubError unit :=
  bytes ← se_lift (map_err storage (snapshot_to_vec 1 (retained_events_snapshot now candidate)));
  if decide (MAX_RETAINED_SNAPSHOT_BYTES < slen bytes) then
    se_fail (storage "event snapshot exceeds byte limit")
  else
    _ ← se_lift (map_err storage (pi_new_temporary io));
    _ ← se_lift (map_err storage (pi_write_all io));
    _ ← se_lift (map_err storage (pi_sync_all io));
    _ ← se_lift (map_err storage (pi_persist io));
    _ ← se_modify (λ _, mkFileBus (Some candidate) (Some bytes));
    se_lift (map_err storage (pi_sync_parent io)).
Definition file_publish (event : VerifiedEvent) (now : N) (io : PublishIo)
    : SE FileEventBus PubsubError PublishReport := λ b,
  match fb_state b with
  | None => (Err (storage "event store is closed"), b)
  | Some events =>
      let '(accepted, candidate) := retained_insert event now events in
      (_ ← (if accepted then commit candidate now io else mret tt);
       mret (mkPublishReport accepted SOURCE_PRIORITY_LOCAL_INDEX
         (if accepted then None else Some "event unchanged or outside retention"%string))) b
  end.
Definition file_query (filters : list Filter) (options : QueryOptions) (now : N) b
    : res QueryReport :=
  match fb_state b with
  | None => Err (storage "event store is closed")
  | Some events =>
      Ok (mkQueryReport ((λ event, mkQueryEvent event (EventSources.local_index "retained-events")
        SOURCE_PRIORITY_LOCAL_INDEX) <$> retained_query filters options now events))
  end.

(** ** The disk holds the store *)
Definition disk_holds (disk : option string) (r : RetainedEvents) : Prop :=
  match disk with
  | None => re_events r = []
  | Some content => slen content ≤ MAX_RETAINED_SNAPSHOT_BYTES ∧
      ∃ values, snapshot_from_slice content = Ok (1, values) ∧
        omap event_from_value values = entry_event <$> re_events r
  end.
End file_store.

Section file_store_props.
Context `{!Nostr, !NostrLaws _, !SnapshotJson, !SnapshotJsonLaws _}.
Implicit Types b : FileEventBus.

(** The coherent states: the disk holds the store, open or closed. *)
Definition file_ok (policy : EventRetentionPolicy) b : Prop :=
  ∃ r, re_policy r = policy ∧ retained_ok r ∧ disk_holds (fb_disk b) r ∧
    (fb_state b = None ∨ fb_state b = Some r).

Lemma commit_outcome candidate now io b :
  (∀ x, x ∈ re_events candidate → retained_event_is_current (entry_event x) now = true) →
  let '(result, b') := commit candidate now io b in
  (b' = b ∧ is_ok result = false) ∨
  (fb_state b' = Some candidate ∧ disk_holds (fb_disk b') candidate ∧
    is_ok result = is_ok (pi_sync_parent io)).
Proof.
  intros Hcur. unfold commit. se_unfold.
  assert (retained_events_snapshot now candidate = entry_event <$> re_events candidate) as ->.
  { unfold retained_events_snapshot. rewrite filter_all; [done|].
    intros x Hx. by apply Is_true_true, Hcur. }
  destruct (snapshot_to_vec 1 _) as [bytes|] eqn:Hvec; [|by left]. unfold map_err at 1.
  case_decide as Hlen; [by left|].
  destruct (pi_new_temporary io); [|by left]. destruct (pi_write_all io); [|by left].
  destruct (pi_sync_all io); [|by left]. destruct (pi_persist io); [|by left].
  right. simpl. split; [done|]. apply snapshot_roundtrip in Hvec as (values & Hfrom & Hvalues).
  split; [|by destruct (pi_sync_parent io)]. split; [|by exists values].
  by apply N.nlt_ge in Hlen.
Qed.

Definition open_io_ok (io : OpenIo) : Prop :=
  oi_create_dir io = Ok tt ∧ oi_open_lock io = Ok tt ∧ oi_try_lock io = Ok tt ∧
  oi_open_file io = Ok tt ∧ oi_read io = Ok tt.
Lemma read_at_most_all limit content : slen content ≤ limit → read_at_most limit content = content.
Proof. intros. unfold read_at_most. by rewrite decide_True. Qed.
Lemma retained_new_Ok r : retained_ok r →
  retained_new (re_policy r) = Ok (mkRetained (re_policy r) [] 0).
Proof.
  intros [[Hpol Hfil] _ _ _ _ _]. unfold retained_new.
  rewrite !bool_decide_false by (done || lia). done.
Qed.
Lemma file_open_holds disk r now io :
  retained_ok r → disk_holds disk r → open_io_ok io →
  (∀ x, x ∈ re_events r → retained_event_is_current (entry_event x) now = true) →
  file_open (re_policy r) disk now io = Ok (mkFileBus (Some r) disk).
Proof.
  intros Hok Hdisk (Hio1 & Hio2 & Hio3 & Hio4 & Hio5) Hcur. unfold file_open.
  rewrite (retained_new_Ok _ Hok), Hio1, Hio2, Hio3, Hio4, Hio5. simpl.
  pose proof (retained_restore_all r now _ Hok (retained_new_Ok _ Hok) Hcur) as Hrest.
  destruct disk as [content|].
  - destruct Hdisk as (Hlen & values & Hfrom & Hvalues). unfold load_snapshot.
    rewrite read_at_most_all by lia. rewrite decide_False by lia. rewrite Hfrom. simpl.
    by rewrite Hvalues, Hrest.
  - unfold disk_holds in Hdisk. rewrite Hdisk in Hrest. simpl in Hrest. by rewrite Hrest.
Qed.

Lemma file_publish_ok policy event now io b :
  verified (as_event event) → file_ok policy b → file_ok policy (file_publish event now io b).2.
Proof.
  intros Hv (r & Hpol & Hok & Hdisk & Hst). unfold file_publish.
  destruct (fb_state b) as [r'|] eqn:Hstate; [|exists r; simpl; rewrite Hstate; eauto].
  destruct Hst as [|[= ->]]; [done|].
  pose proof (retained_insert_ok event now r Hv Hok) as Hok'.
  pose proof (retained_insert_policy event now r) as Hpol'.
  pose proof (retained_insert_current event now r) as Hcur.
  destruct (retained_insert event now r) as [[] candidate]; simpl in *; cycle 1.
  { exists r. rewrite Hstate. eauto. }
  se_unfold. pose proof (commit_outcome candidate now io b) as Hcommit.
  destruct (commit candidate now io b) as [[[]|e] b']; simpl;
    (destruct Hcommit as [[-> _]|(Hs & Hd & _)]; [by intros x; apply Hcur| |]);
    try (exists r; rewrite Hstate; by eauto);
    exists candidate; (split_and!; [congruence|done|done|by right]).
Qed.

Inductive file_op : Type :=
  | FPublish (event : VerifiedEvent) (now : N) (io : PublishIo)
  | FClose.
Definition file_step b (op : file_op) : FileEventBus :=
  match op with
  | FPublish event now io => (file_publish event now io b).2
  | FClose => file_close b
  end.
Lemma file_run_ok policy ops b :
  (∀ event now io, FPublish event now io ∈ ops → verified (as_event event)) →
  file_ok policy b → file_ok policy (foldl file_step b ops).
Proof.
  revert b. induction ops as [|op ops IH]; intros b Hv Hok; [done|]. simpl.
  apply IH; [intros; eapply Hv; by right|]. destruct op as [event now io|]; simpl.
  - apply file_publish_ok; [|done]. eapply Hv. by left.
  - destruct Hok as (r & ? & ? & ? & _). exists r. simpl. eauto.
Qed.

(** What a publication leaves behind: a closed store refuses and is not
    touched; otherwise it reports what retention decides. Not accepted, or
    failing before the snapshot file is replaced, it changes neither the disk
    nor the memory; else both hold the new store, and the one error still
    possible is that the directory could not be synchronised. *)
Theorem file_publish_outcome event now io b :
  let '(result, b') := file_publish event now io b in
  match fb_state b with
  | None => result = Err (storage "event store is closed") ∧ b' = b
  | Some r =>
      let '(accepted, candidate) := retained_insert event now r in
      (b' = b ∧ is_ok result = negb accepted) ∨
      (accepted = true ∧ fb_state b' = Some candidate ∧ disk_holds (fb_disk b') candidate ∧
        is_ok result = is_ok (pi_sync_parent io))
  end ∧
  ∀ report, result = Ok report → ∃ r, fb_state b = Some r ∧
    pr_accepted report = (retained_insert event now r).1.
Proof.
  unfold file_publish. destruct (fb_state b) as [r|]; [|done].
  pose proof (retained_insert_current event now r) as Hcur.
  destruct (retained_insert event now r) as [[] candidate] eqn:Hins; simpl in *; cycle 1.
  { split; [by left|]. intros report [= <-]. exists r. by rewrite Hins. }
  se_unfold. pose proof (commit_outcome candidate now io b) as Hcommit.
  destruct (commit candidate now io b) as [[[]|e] b']; simpl; split;
    try (destruct Hcommit as [[-> ?]|(? & ? & ?)]; [by intros x; apply Hcur|by left|by right]);
    [|done]. intros report [= <-]. exists r. by rewrite Hins.
Qed.

End file_store_props.

(** ** A concrete snapshot format, for evaluation *)
Module FileWitness.
#[local] Existing Instance Toy.toy_nostr.
#[local] Existing Instance Toy.toy_laws.
#[local] Existing Instance Toy.toy_event_eq_dec.
#[local] Existing Instance Toy.toy_event_countable.
#[local] Instance toy_snapshot : SnapshotJson := {|
  EventValue := Toy.toy_event;
  snapshot_to_vec version events := Ok (Toy.bits (encode (A := N * list Toy.toy_event) (version, events)));
  snapshot_from_slice bytes :=
    match decode (A := N * list Toy.toy_event) (Toy.of_bits bytes) with Some s => Ok s | None => Err "bad"%string end;
  event_from_value := Some;
|}.
#[local] Instance toy_snapshot_laws : SnapshotJsonLaws toy_snapshot.
Proof.
  split. intros version events bytes [= <-]. exists events. simpl.
  rewrite Toy.of_bits_bits, decode_encode. split; [done|].
  induction events as [|e events IH]; [done|]. csimpl. by rewrite IH.
Qed.

Definition io_ok : PublishIo := mkPublishIo (Ok tt) (Ok tt) (Ok tt) (Ok tt) (Ok tt).
Definition io_full : PublishIo :=
  mkPublishIo (Ok tt) (Err "no space left"%string) (Ok tt) (Ok tt) (Ok tt).
Definition policy : EventRetentionPolicy := RetainedWitness.policy.
Definition ops : list file_op :=
  [FPublish (RetainedWitness.event Toy.IdA) 1000 io_ok;
   FPublish (RetainedWitness.event Toy.IdB) 1000 io_full; FClose].
Definition start : FileEventBus := mkFileBus (Some RetainedWitness.store0) None.

Lemma publishes_verified event now io : FPublish event now io ∈ ops → verified (as_event event).
Proof.
  intros Hin. unfold ops in Hin. rewrite !elem_of_cons in Hin.
  destruct Hin as [[= -> -> ->]|[[= -> -> ->]|[[=]|Hin%not_elem_of_nil]]]; done.
Qed.
(** The failed write of event B leaves the store as it was. *)
Lemma file_publish_outcome_witness :
  is_ok (file_publish (RetainedWitness.event Toy.IdB) 1000 io_full start).1 = false ∧
  let '(result, b') := file_publish (RetainedWitness.event Toy.IdB) 1000 io_full start in
  (let '(accepted, candidate) :=
     retained_insert (RetainedWitness.event Toy.IdB) 1000 RetainedWitness.store0 in
   (b' = start ∧ is_ok result = negb accepted) ∨
   (accepted = true ∧ fb_state b' = Some candidate ∧ disk_holds (fb_disk b') candidate ∧
     is_ok result = is_ok (pi_sync_parent io_full))) ∧
  ∀ report, result = Ok report → ∃ r, fb_state start = Some r ∧
    pr_accepted report = (retained_insert (RetainedWitness.event Toy.IdB) 1000 r).1.
Proof.
  split; [vm_compute; reflexivity|].
  exact (file_publish_outcome (RetainedWitness.event Toy.IdB) 1000 io_full start).
Defined.
End FileWitness.
