(* ===== verification/Memory.v ===== *)
(** * The in-memory event bus

    crates/nostr-pubsub/src/memory.rs: an append-only list of accepted events,
    queried newest first, with live subscriptions. A handler is identified by
    its subscription id; the set of handlers a publication calls is modelled,
    their order (a [HashMap]'s) is not specified. *)

From S2P Require Export Retained.

Section memory.
Context `{!Nostr}.

Record StoredEvent : Type := mkStored {
  sd_event : VerifiedEvent;
  sd_source : EventSource;
  sd_priority : Z;
}.
Record MemoryState : Type := mkMemory {
  me_events : list StoredEvent;
  me_next_subscription_id : N;
  me_subscriptions : gmap N (list Filter);
}.
Implicit Types st : MemoryState.
Definition memory_default : MemoryState := mkMemory [] 0 ∅.

Definition as_query_event (x : StoredEvent) : QueryEvent :=
  mkQueryEvent (sd_event x) (sd_source x) (sd_priority x).
Definition stored_raw (x : StoredEvent) : Event := as_event (sd_event x).
Definition stored_id (x : StoredEvent) : EventId := event_id (stored_raw x).

(** The report, and the subscriptions whose handlers are called. *)
Definition memory_publish (policy : option PubsubPolicy) (event : VerifiedEvent)
    (source : EventSource) : SE MemoryState PubsubError (PublishReport * gset N) := λ st,
  match (match policy with
         | Some policy => check_event policy event source
         | None => Ok (allow_with_priority 0)
         end) with
  | Err e => (Err e, st)
  | Ok decision =>
      let '(accepted, priority, reason) := report_parts decision in
      let report := mkPublishReport accepted priority reason in
      if accepted then
        let handlers : gset N := dom (filter
          (λ kv, filters_match kv.2 (as_event event)) (me_subscriptions st)) in
        (Ok (report, handlers),
         mkMemory (me_events st ++ [mkStored event source priority])
           (me_next_subscription_id st) (me_subscriptions st))
      else (Ok (report, ∅), st)
  end.

Definition stored_order : StoredEvent → StoredEvent → comparison :=
  cmp_on stored_raw newest_first.

(** The inner loop's [seen.insert(id)] and [events.push(..)]. *)
Fixpoint push_unseen (xs : list StoredEvent) (seen : gset EventId) (events : list StoredEvent)
    : gset EventId * list StoredEvent :=
  match xs with
  | [] => (seen, events)
  | x :: xs' =>
      if decide (stored_id x ∈ seen) then push_unseen xs' seen events
      else push_unseen xs' ({[stored_id x]} ∪ seen) (events ++ [x])
  end.
Fixpoint collect (filters : list Filter) (stored : list StoredEvent) (seen : gset EventId)
    (events : list StoredEvent) : list StoredEvent :=
  match filters with
  | [] => events
  | f :: filters' =>
      let matched := scan (filter_limit f) (λ x, filter_match f (stored_raw x)) 0 stored in
      let '(seen, events) := push_unseen matched seen events in
      collect filters' stored seen events
  end.
Definition effective_filters (filters : list Filter) : list Filter :=
  match filters with [] => [filter_new] | _ => filters end.

Definition memory_query (filters : list Filter) (options : QueryOptions) st : res QueryReport :=
  let stored := sort_by stored_order (me_events st) in
  let events := sort_by stored_order (collect (effective_filters filters) stored ∅ []) in
  Ok (mkQueryReport (as_query_event <$>
    take (N.to_nat (default usize_max (qo_limit options))) events)).

Definition memory_subscribe (filters : list Filter) st : N * MemoryState :=
  let id := me_next_subscription_id st in
  (id, mkMemory (me_events st) (u64_wrap (id + 1)) (<[id := filters]> (me_subscriptions st))).
Definition memory_close (id : N) st : MemoryState :=
  mkMemory (me_events st) (me_next_subscription_id st) (delete id (me_subscriptions st)).

(** ** Queries *)
Definition ids_of (xs : list StoredEvent) : gset EventId := list_to_set (stored_id <$> xs).

Lemma push_unseen_spec xs seen events :
  seen = ids_of events → NoDup (stored_id <$> events) →
  let '(seen', events') := push_unseen xs seen events in
  seen' = ids_of events' ∧ NoDup (stored_id <$> events') ∧
  seen' = seen ∪ ids_of xs ∧ ∀ x, x ∈ events' → x ∈ events ∨ x ∈ xs.
Proof.
  revert seen events. induction xs as [|x xs IH]; intros seen events Hs Hnd; simpl.
  { split_and!; [done|done| |auto]. unfold ids_of. simpl. set_solver. }
  case_decide as Hin.
  - specialize (IH seen events Hs Hnd). destruct (push_unseen xs seen events) as [seen' events'].
    destruct IH as (? & ? & -> & Hel). split_and!; [done|done| |].
    + unfold ids_of. csimpl. set_solver.
    + intros y Hy. rewrite elem_of_cons. apply Hel in Hy. tauto.
  - assert (stored_id x ∉ stored_id <$> events) as Hnot.
    { intros Hx. apply Hin. rewrite Hs. by apply elem_of_list_to_set. }
    specialize (IH ({[stored_id x]} ∪ seen) (events ++ [x])).
    destruct (push_unseen xs _ _) as [seen' events'].
    destruct IH as (? & ? & -> & Hel).
    + rewrite Hs. unfold ids_of. rewrite fmap_app, list_to_set_app_L. csimpl. set_solver.
    + rewrite fmap_app. apply NoDup_app. split_and!; [done| |apply NoDup_singleton].
      intros i Hi ->%list_elem_of_singleton. done.
    + split_and!; [done|done| |].
      * unfold ids_of. csimpl. set_solver.
      * intros y Hy. apply Hel in Hy. rewrite elem_of_app, list_elem_of_singleton in Hy.
        rewrite elem_of_cons. tauto.
Qed.

(** What one filter selects: its newest matches, up to its limit. *)
Definition filter_matches (f : Filter) (stored : list StoredEvent) : list StoredEvent :=
  take_limit (filter_limit f) (filter (λ x, filter_match f (stored_raw x)) stored).
Lemma scan_matches f stored :
  scan (filter_limit f) (λ x, filter_match f (stored_raw x)) 0 stored = filter_matches f stored.
Proof.
  rewrite scan_take. unfold filter_matches. f_equal.
  destruct (filter_limit f); simpl; [by rewrite N.sub_0_r|done].
Qed.

Lemma collect_spec filters stored seen events :
  seen = ids_of events → NoDup (stored_id <$> events) →
  let result := collect filters stored seen events in
  NoDup (stored_id <$> result) ∧
  (∀ i, i ∈ stored_id <$> result ↔ i ∈ stored_id <$> events ∨
    ∃ f, f ∈ filters ∧ i ∈ stored_id <$> filter_matches f stored) ∧
  (∀ x, x ∈ result → x ∈ events ∨ ∃ f, f ∈ filters ∧ x ∈ filter_matches f stored).
Proof.
  revert seen events. induction filters as [|f filters IH]; intros seen events Hs Hnd; simpl.
  { split_and!; [done|set_solver|set_solver]. }
  rewrite scan_matches. pose proof (push_unseen_spec (filter_matches f stored) seen events Hs Hnd)
    as Hpush.
  destruct (push_unseen _ seen events) as [seen' events'].
  destruct Hpush as (Hs' & Hnd' & Hids & Hel). destruct (IH seen' events' Hs' Hnd') as (H1 & H2 & H3).
  split_and!; [done| |].
  - intros i. rewrite H2. assert (i ∈ stored_id <$> events' ↔
      i ∈ stored_id <$> events ∨ i ∈ stored_id <$> filter_matches f stored) as ->.
    { rewrite <-!(elem_of_list_to_set (C := gset EventId)).
      fold (ids_of events'). rewrite <-Hs', Hids, Hs. unfold ids_of. set_solver. }
    setoid_rewrite elem_of_cons. naive_solver.
  - intros x [Hx|(g & Hg & Hx)]%H3.
    + destruct (Hel x Hx) as [|]; [by left|]. right. exists f. split; [left|done].
    + right. exists g. split; [by right|done].
Qed.
End memory.

Section memory_props.
Context `{!Nostr, !NostrLaws _}.
Implicit Types st : MemoryState.

#[export] Instance stored_order_order : CmpOrder stored_order.
Proof. unfold stored_order. apply _. Qed.

(** A query answers newest first, each identifier once, at most as many
    as asked, and nothing but stored events; without a limit it finds exactly
    what some filter selects (its newest matches up to its own limit; no
    filter at all counts as the empty one). *)
Theorem memory_query_spec filters options st :
  ∃ full, memory_query filters options st
      = Ok (mkQueryReport (as_query_event <$>
          take (N.to_nat (default usize_max (qo_limit options))) full)) ∧
    StronglySorted (cmp_le stored_order) full ∧
    NoDup (stored_id <$> full) ∧
    (∀ x, x ∈ full → x ∈ me_events st) ∧
    ∀ i, i ∈ stored_id <$> full ↔ ∃ f, f ∈ effective_filters filters ∧
      i ∈ stored_id <$> filter_matches f (sort_by stored_order (me_events st)).
Proof.
  set (stored := sort_by stored_order (me_events st)).
  destruct (collect_spec (effective_filters filters) stored ∅ [] eq_refl) as (Hnd & Hids & Hel);
    [constructor|].
  exists (sort_by stored_order (collect (effective_filters filters) stored ∅ [])).
  split; [done|]. split; [apply sort_by_sorted; apply _|]. split_and!.
  - by rewrite sort_by_perm.
  - intros x Hx. rewrite sort_by_perm in Hx.
    destruct (Hel x Hx) as [?%not_elem_of_nil|(f & _ & Hf)]; [done|].
    unfold filter_matches, take_limit in Hf.
    assert (x ∈ stored) as Hs; [|by rewrite <-(sort_by_elem stored_order)].
    destruct (filter_limit f); [apply subseteq_take in Hf|];
      by apply list_elem_of_filter in Hf as [_ ?].
  - intros i. rewrite sort_by_perm, Hids. set_solver.
Qed.

(** ** Subscriptions *)
Inductive memory_op : Type :=
  | MPublish (policy : option PubsubPolicy) (event : VerifiedEvent) (source : EventSource)
  | MSubscribe (filters : list Filter)
  | MClose (id : N).
(** What an operation delivers to the handler of [id], and the new state. *)
Definition memory_step (id : N) (op : memory_op) st : list VerifiedEvent * MemoryState :=
  match op with
  | MPublish policy event source =>
      let '(r, st') := memory_publish policy event source st in
      (match r with
       | Ok (_, handlers) => if decide (id ∈ handlers) then [event] else []
       | Err _ => []
       end, st')
  | MSubscribe filters => ([], (memory_subscribe filters st).2)
  | MClose closed => ([], memory_close closed st)
  end.
Fixpoint memory_deliveries (id : N) (ops : list memory_op) st : list VerifiedEvent :=
  match ops with
  | [] => []
  | op :: ops' => let '(d, st') := memory_step id op st in d ++ memory_deliveries id ops' st'
  end.
(** The accepted publications that match. *)
Definition accepted_match (filters : list Filter) (op : memory_op) : list VerifiedEvent :=
  match op with
  | MPublish policy event source =>
      match (match policy with
             | Some policy => check_event policy event source
             | None => Ok (allow_with_priority 0)
             end) with
      | Ok decision =>
          if negb (is_drop decision) && filters_match filters (as_event event) then [event] else []
      | Err _ => []
      end
  | _ => []
  end.

Lemma memory_step_subscribed id filters op st :
  me_subscriptions st !! id = Some filters → op ≠ MClose id →
  id < me_next_subscription_id st → me_next_subscription_id st < u64_max →
  let '(d, st') := memory_step id op st in
  d = accepted_match filters op ∧ me_subscriptions st' !! id = Some filters ∧
  me_next_subscription_id st ≤ me_next_subscription_id st' ≤ me_next_subscription_id st + 1.
Proof.
  intros Hid Hop Hlt Hmax. destruct op as [policy event source|fs|closed]; simpl.
  - unfold memory_publish. destruct (match policy with Some _ => _ | None => _ end) as [decision|];
      [|split_and!; [done|done|lia|lia]].
    assert (id ∈ dom (filter (λ kv, filters_match kv.2 (as_event event)) (me_subscriptions st)) ↔
      filters_match filters (as_event event) = true) as Hdom.
    { rewrite elem_of_dom. split.
      - intros [fs Hfs]. apply map_lookup_filter_Some in Hfs as [Hfs Hm]. simpl in Hm.
        rewrite Hid in Hfs. injection Hfs as <-. by apply Is_true_true.
      - intros Hm. exists filters. apply map_lookup_filter_Some. split; [done|].
        by apply Is_true_true. }
    destruct decision; simpl; (split_and!; [|done|lia|lia]);
      destruct (filters_match filters (as_event event)) eqn:Hm;
      try (rewrite decide_True by (by apply Hdom)); try (rewrite decide_False by (rewrite Hdom; done));
      done.
  - rewrite u64_wrap_small by lia. split_and!; [done| |lia|lia].
    rewrite lookup_insert_ne by lia. done.
  - split_and!; [done| |lia|lia]. rewrite lookup_delete_ne by congruence. done.
Qed.

(** A live subscription misses nothing and invents nothing: from the
    moment it is opened until it is closed, its handler is called once for
    every accepted publication that matches its filters, in order, however
    other subscriptions come and go (fewer than 2^64 in total). *)
Theorem subscription_deliveries_exact filters ops st :
  me_next_subscription_id st + nlen ops + 1 < u64_max →
  let '(id, st') := memory_subscribe filters st in
  MClose id ∉ ops →
  memory_deliveries id ops st' = mjoin (accepted_match filters <$> ops).
Proof.
  intros Hmax. simpl. set (id := me_next_subscription_id st). set (st' := mkMemory _ _ _).
  assert (me_subscriptions st' !! id = Some filters) as Hid by apply lookup_insert_eq.
  assert (id < me_next_subscription_id st' ∧ me_next_subscription_id st' + nlen ops < u64_max)
    as [Hlt Hroom].
  { unfold st'. simpl. rewrite u64_wrap_small by (unfold id; lia). unfold id. lia. }
  clearbody st' id. clear Hmax. revert st' Hid Hlt Hroom.
  induction ops as [|op ops IH]; intros st' Hid Hlt Hroom Hclose; [done|]. csimpl.
  rewrite nlen_cons in Hroom.
  pose proof (memory_step_subscribed id filters op st' Hid) as Hstep.
  destruct (memory_step id op st') as [d st'']. destruct Hstep as (-> & Hid' & Hb).
  { intros ->. apply Hclose. left. }
  { done. }
  { lia. }
  f_equal. apply IH; [done|lia|lia|]. intros Hin. apply Hclose. by right.
Qed.
End memory_props.

Module MemoryWitness.
#[local] Existing Instance Toy.toy_nostr.
#[local] Existing Instance Toy.toy_laws.
Definition publish (i : Toy.toy_id) : memory_op :=
  MPublish None (mkVerifiedEvent (Toy.toy_body i)) (EventSources.local_index "index").
Definition notes : list Filter := [Toy.ToyFilter (Some 1) None None None].
Definition ops : list memory_op :=
  [publish Toy.IdA; MSubscribe []; publish Toy.IdC; MClose 1; publish Toy.IdB].
(** Two copies of event A and one of B, queried for notes. *)
Definition stored (i : Toy.toy_id) : StoredEvent :=
  mkStored (mkVerifiedEvent (Toy.toy_body i)) (EventSources.local_index "index") 0.
Definition three : MemoryState := mkMemory [stored Toy.IdA; stored Toy.IdB; stored Toy.IdA] 0 ∅.
Lemma memory_query_spec_witness :
  (match memory_query notes (mkQueryOptions (Some 5)) three with
   | Ok report => (λ q, event_id (as_event (qe_event q))) <$> qr_events report
   | Err _ => []
   end) = [Toy.IdB; Toy.IdA] ∧
  ∃ full, memory_query notes (mkQueryOptions (Some 5)) three
      = Ok (mkQueryReport (as_query_event <$> take (N.to_nat 5) full)) ∧
    StronglySorted (cmp_le stored_order) full ∧
    NoDup (stored_id <$> full) ∧
    (∀ x, x ∈ full → x ∈ me_events three) ∧
    ∀ i, i ∈ stored_id <$> full ↔ ∃ f, f ∈ effective_filters notes ∧
      i ∈ stored_id <$> filter_matches f (sort_by stored_order (me_events three)).
Proof.
  split; [|exact (memory_query_spec notes (mkQueryOptions (Some 5)) three)]. vm_compute. reflexivity.
Defined.
Lemma subscription_deliveries_exact_witness :
  memory_deliveries 0 ops (memory_subscribe notes memory_default).2
    = mkVerifiedEvent ∘ Toy.toy_body <$> [Toy.IdA; Toy.IdB].
Proof.
  etrans; [apply (subscription_deliveries_exact notes ops memory_default)|reflexivity].
  - vm_compute. reflexivity.
  - intros Hin. unfold ops, publish in Hin. rewrite !elem_of_cons in Hin.
    repeat destruct Hin as [[=]|Hin]. by apply not_elem_of_nil in Hin.
Defined.
End MemoryWitness.
