(* ===== verification/Routes.v ===== *)
(** * Routed queries

    crates/nostr-pubsub/src/routes.rs: a query goes to the sources the policy
    allows. Sources of one dataset are replicas, tried by priority until one
    answers; different datasets are additive, and their answers are merged. A
    source's reader is a function of the query. *)

From S2P Require Export Retained.

Definition DEFAULT_ROUTE_DATASET_ID : string := "default".

Record SourceRoute : Set := mkSourceRoute {
  sr_id : string;
  sr_dataset_id : string;
  sr_source : EventSource;
  sr_priority : Z;
  sr_reason : option string;
  sr_capabilities : list string;
}.

Module SourceRoutes.
Definition from_source (source : EventSource) : SourceRoute :=
  mkSourceRoute (source_id source) DEFAULT_ROUTE_DATASET_ID source
    (default_priority (source_kind source)) None [].
Definition local_index (id : string) : SourceRoute := from_source (EventSources.local_index id).
Definition peer (id : string) : SourceRoute := from_source (EventSources.peer id).
Definition fips_peer_default (id : string) : SourceRoute :=
  from_source (EventSources.fips_endpoint id).
Definition relay (url : string) : SourceRoute := from_source (EventSources.relay url).
Definition with_dataset (dataset_id : string) (r : SourceRoute) : res SourceRoute :=
  if decide (dataset_id = ""%string) then
    Err (Validation "route dataset identity must not be empty")
  else Ok (mkSourceRoute (sr_id r) dataset_id (sr_source r) (sr_priority r) (sr_reason r)
    (sr_capabilities r)).
Definition with_priority (priority : Z) (r : SourceRoute) : SourceRoute :=
  mkSourceRoute (sr_id r) (sr_dataset_id r) (sr_source r) priority (sr_reason r)
    (sr_capabilities r).
Definition with_reason (reason : string) (r : SourceRoute) : SourceRoute :=
  mkSourceRoute (sr_id r) (sr_dataset_id r) (sr_source r) (sr_priority r) (Some reason)
    (sr_capabilities r).
Definition with_capability (capability : string) (r : SourceRoute) : SourceRoute :=
  mkSourceRoute (sr_id r) (sr_dataset_id r) (sr_source r) (sr_priority r) (sr_reason r)
    (sr_capabilities r ++ [capability]).
Definition with_capabilities (capabilities : list string) (r : SourceRoute) : SourceRoute :=
  mkSourceRoute (sr_id r) (sr_dataset_id r) (sr_source r) (sr_priority r) (sr_reason r)
    (sr_capabilities r ++ capabilities).
Definition fips_peer (id : string) (priority : Z) : SourceRoute :=
  with_priority priority (fips_peer_default id).
End SourceRoutes.

Definition decision_priority (decision : PolicyDecision) : Z :=
  match decision with Allow p | Throttle p _ => p | Drop _ => 0%Z end.
Definition source_kind_rank (kind : EventSourceKind) : N :=
  match kind with LocalIndex => 0 | FipsEndpoint => 1 | Peer => 2 | Relay => 3 end.

(** The candidate a route is presented to the policy as. *)
Definition route_candidate (route : SourceRoute) : SourceCandidate :=
  mkSourceCandidate (sr_source route) (sr_priority route) (sr_reason route) None
    source_health_default.

Inductive RouteAttemptOutcome : Set := Success (event_count : N) | Failure (message : string).

Record RoutedEventProvenance : Set := mkProvenance {
  pv_route_id : string;
  pv_dataset_id : string;
  pv_source : EventSource;
  pv_priority : Z;
}.
#[export] Instance RoutedEventProvenance_eq_dec : EqDecision RoutedEventProvenance.
Proof. solve_decision. Defined.

Record RouteAttempt : Set := mkAttempt {
  at_route : SourceRoute;
  at_dataset_id : string;
  at_decision : PolicyDecision;
  at_outcome : RouteAttemptOutcome;
}.
Record RoutedDatasetReport : Set := mkDatasetReport {
  dr_dataset_id : string;
  dr_complete : bool;
  dr_event_count : N;
}.

Definition provenance_compare : RoutedEventProvenance → RoutedEventProvenance → comparison :=
  cmp_then (cmp_on pv_dataset_id String.compare)
    (cmp_then (cmp_on pv_route_id String.compare)
      (cmp_then (cmp_on (λ p, source_kind_rank (source_kind (pv_source p))) N.compare)
        (cmp_then (cmp_on (λ p, source_id (pv_source p)) String.compare)
          (cmp_then (cmp_on (λ p, source_url (pv_source p)) (option_compare String.compare))
            (cmp_on pv_priority Z.compare))))).

(** [Vec::dedup]: drop an element equal to the one before it. *)
Fixpoint dedup_from {A} `{EqDecision A} (x : A) (l : list A) : list A :=
  match l with
  | [] => [x]
  | y :: l' => if decide (x = y) then dedup_from x l' else x :: dedup_from y l'
  end.
Definition dedup {A} `{EqDecision A} (l : list A) : list A :=
  match l with [] => [] | x :: l' => dedup_from x l' end.

Section routes.
Context `{!Nostr}.

Record RouteQuerySource : Type := mkQuerySource {
  qs_route : SourceRoute;
  qs_reader : list Filter → QueryOptions → res QueryReport;
}.
Record RoutedQueryEvent : Type := mkRoutedEvent {
  rq_event : VerifiedEvent;
  rq_source : EventSource;
  rq_priority : Z;
  rq_provenance : list RoutedEventProvenance;
}.
Record RoutedQueryReport : Type := mkRoutedReport {
  rr_events : list RoutedQueryEvent;
  rr_attempts : list RouteAttempt;
  rr_datasets : list RoutedDatasetReport;
  rr_complete : bool;
}.
Record RouteCandidate : Type := mkCandidate {
  rc_effective_priority : Z;
  rc_ordinal : N;
  rc_source : RouteQuerySource;
  rc_decision : PolicyDecision;
}.
Record DatasetResult : Type := mkDatasetResult {
  ds_report : RoutedDatasetReport;
  ds_attempts : list RouteAttempt;
  ds_events : list RoutedQueryEvent;
}.

(** ** Candidates *)
Definition candidate_compare : RouteCandidate → RouteCandidate → comparison :=
  cmp_then (cmp_rev (cmp_on rc_effective_priority Z.compare)) (cmp_on rc_ordinal N.compare).

Fixpoint check_routes (policy : PubsubPolicy) (author_pubkey : option string)
    (capabilities : option (list string)) (ordinal : N) (routes : list RouteQuerySource)
    : res (list RouteCandidate) :=
  match routes with
  | [] => Ok []
  | source :: routes' =>
      let route := qs_route source in
      decision ← check_source policy (route_candidate route) author_pubkey
        (default (sr_capabilities route) capabilities);
      rest ← check_routes policy author_pubkey capabilities (ordinal + 1) routes';
      Ok (if is_drop decision then rest
          else mkCandidate (i32_sat_add (sr_priority route) (decision_priority decision))
                 ordinal source decision :: rest)
  end.
Definition allowed_candidates (routes : list RouteQuerySource) (author_pubkey : option string)
    (policy : PubsubPolicy) (capabilities : option (list string))
    : res (list RouteCandidate) :=
  candidates ← check_routes policy author_pubkey capabilities 0 routes;
  Ok (sort_by candidate_compare candidates).

Definition candidate_dataset (c : RouteCandidate) : string :=
  sr_dataset_id (qs_route (rc_source c)).
(** [groups.iter_mut().find(..)]: the first group of the dataset. *)
Fixpoint add_to_group (c : RouteCandidate) (groups : list (string * list RouteCandidate))
    : list (string * list RouteCandidate) :=
  match groups with
  | [] => [(candidate_dataset c, [c])]
  | (id, replicas) :: groups' =>
      if decide (id = candidate_dataset c) then (id, replicas ++ [c]) :: groups'
      else (id, replicas) :: add_to_group c groups'
  end.
Definition group_by_dataset (candidates : list RouteCandidate)
    : list (string * list RouteCandidate) :=
  foldl (λ groups c, add_to_group c groups) [] candidates.

(** ** Merging *)
Definition routed_id (e : RoutedQueryEvent) : EventId := event_id (as_event (rq_event e)).
Definition merge_order : RoutedQueryEvent → RoutedQueryEvent → comparison :=
  cmp_then (cmp_rev (cmp_on (λ e, event_created_at (as_event (rq_event e))) N.compare))
    (cmp_on (λ e, event_id_to_hex (routed_id e)) String.compare).

Definition add_provenance (p : list RoutedEventProvenance) (e : RoutedQueryEvent)
    : RoutedQueryEvent :=
  mkRoutedEvent (rq_event e) (rq_source e) (rq_priority e) (rq_provenance e ++ p).
Definition sort_provenance (e : RoutedQueryEvent) : RoutedQueryEvent :=
  mkRoutedEvent (rq_event e) (rq_source e) (rq_priority e)
    (dedup (sort_by provenance_compare (rq_provenance e))).
Definition merge_step (state : list RoutedQueryEvent * gmap EventId nat) (e : RoutedQueryEvent)
    : list RoutedQueryEvent * gmap EventId nat :=
  let '(merged, indices) := state in
  match indices !! routed_id e with
  | Some index => (alter (add_provenance (rq_provenance e)) index merged, indices)
  | None => (merged ++ [e], <[routed_id e := length merged]> indices)
  end.
Definition merge_routed_events (events : list RoutedQueryEvent) : list RoutedQueryEvent :=
  sort_by merge_order (sort_provenance <$> (foldl merge_step ([], ∅) events).1).

(** ** Datasets *)
Definition routed_event (event : QueryEvent) (candidate : RouteCandidate)
    (dataset_id : string) : RoutedQueryEvent :=
  mkRoutedEvent (qe_event event) (qe_source event) (qe_priority event)
    [mkProvenance (sr_id (qs_route (rc_source candidate))) dataset_id (qe_source event)
      (qe_priority event)].

Fixpoint query_replicas (dataset_id : string) (replicas : list RouteCandidate)
    (filters : list Filter) (options : QueryOptions) (attempts : list RouteAttempt)
    : DatasetResult :=
  match replicas with
  | [] => mkDatasetResult (mkDatasetReport dataset_id false 0) attempts []
  | replica :: replicas' =>
      let route := qs_route (rc_source replica) in
      match qs_reader (rc_source replica) filters options with
      | Ok report =>
          let events := merge_routed_events
            ((λ event, routed_event event replica dataset_id) <$> qr_events report) in
          mkDatasetResult (mkDatasetReport dataset_id true (nlen events))
            (attempts ++ [mkAttempt route dataset_id (rc_decision replica)
               (Success (nlen events))]) events
      | Err error =>
          query_replicas dataset_id replicas' filters options
            (attempts ++ [mkAttempt route dataset_id (rc_decision replica)
               (Failure (error_to_string error))])
      end
  end.
Definition query_dataset (dataset_id : string) (replicas : list RouteCandidate)
    (filters : list Filter) (options : QueryOptions) : DatasetResult :=
  query_replicas dataset_id replicas filters options [].

(** [join_concurrently] returns every result at the position of its future,
    in whatever order they complete. *)
Definition dataset_results (candidates : list RouteCandidate) (filters : list Filter)
    (options : QueryOptions) : list DatasetResult :=
  (λ g, query_dataset g.1 g.2 filters options) <$> group_by_dataset candidates.
Definition collect_results (results : list DatasetResult) (limit : N) : RoutedQueryReport :=
  mkRoutedReport
    (take (N.to_nat limit) (merge_routed_events (mjoin (ds_events <$> results))))
    (mjoin (ds_attempts <$> results)) (ds_report <$> results)
    (forallb (λ result, dr_complete (ds_report result)) results).
Definition query_routes_with_policy (routes : list RouteQuerySource) (filters : list Filter)
    (options : QueryOptions) (author_pubkey : option string) (policy : PubsubPolicy)
    (capabilities : option (list string)) : res RoutedQueryReport :=
  candidates ← allowed_candidates routes author_pubkey policy capabilities;
  let limit := default usize_max (qo_limit options) in
  if decide (limit = 0) then
    Ok (mkRoutedReport [] []
      ((λ g, mkDatasetReport g.1 true 0) <$> group_by_dataset candidates) true)
  else Ok (collect_results (dataset_results candidates filters options) limit).
End routes.

(** ** Lemmas *)
Lemma dedup_from_elem {A} `{EqDecision A} (x y : A) l : y ∈ dedup_from x l ↔ y = x ∨ y ∈ l.
Proof.
  revert x. induction l as [|z l IH]; intros x; simpl; [set_solver|].
  case_decide; subst; rewrite ?elem_of_cons, IH; naive_solver.
Qed.
Lemma dedup_elem {A} `{EqDecision A} (y : A) l : y ∈ dedup l ↔ y ∈ l.
Proof. destruct l; [done|]. simpl. by rewrite dedup_from_elem, elem_of_cons. Qed.
Lemma dedup_NoDup {A} `{EqDecision A} (R : relation A) (l : list A) :
  AntiSymm (=) R → StronglySorted R l → NoDup (dedup l).
Proof.
  intros Hanti. destruct l as [|x l]; [constructor|]. simpl. revert x.
  induction l as [|y l IH]; intros x Hs; simpl; [apply NoDup_singleton|].
  apply StronglySorted_cons in Hs as [Hx Hs]. pose proof Hs as Hy.
  apply StronglySorted_cons in Hy as [Hy Hl]. case_decide as Heq.
  - subst. apply IH. done.
  - constructor; [|by apply IH]. rewrite dedup_from_elem. intros [->|Hin]; [done|].
    apply Heq, (anti_symm R).
    + rewrite Forall_forall in Hx. apply Hx. left.
    + rewrite Forall_forall in Hy. by apply Hy.
Qed.

#[export] Instance provenance_compare_order : CmpOrder provenance_compare.
Proof. unfold provenance_compare. apply _. Qed.

Lemma cmp_then_Eq {A} (c1 c2 : A → A → comparison) a b :
  cmp_then c1 c2 a b = Eq ↔ c1 a b = Eq ∧ c2 a b = Eq.
Proof. unfold cmp_then. destruct (c1 a b); naive_solver. Qed.
Lemma option_compare_Eq {A} (c : A → A → comparison) a b :
  (∀ x y, c x y = Eq → x = y) → option_compare c a b = Eq → a = b.
Proof. intros Hc. destruct a, b; simpl; try done. by intros ->%Hc. Qed.

(** The sort key of a provenance entry determines it. *)
Lemma provenance_compare_Eq p q : provenance_compare p q = Eq → p = q.
Proof.
  unfold provenance_compare. rewrite !cmp_then_Eq. unfold cmp_on.
  intros (Hd & Hr & Hk & Hi & Hu & Hp).
  apply String.compare_eq_iff in Hd, Hr, Hi. apply N.compare_eq in Hk. apply Z.compare_eq in Hp.
  apply option_compare_Eq in Hu; [|intros x y; apply String.compare_eq_iff].
  destruct p as [? ? [? [] ?] ?], q as [? ? [? [] ?] ?]; simpl in *; by subst.
Qed.
#[export] Instance provenance_antisymm : AntiSymm (=) (cmp_le provenance_compare).
Proof.
  intros p q Hpq Hqp. apply provenance_compare_Eq. unfold cmp_le in *.
  rewrite (cmp_antisym provenance_compare p q) in Hqp.
  by destruct (provenance_compare p q).
Qed.

Section routes_spec.
Context `{!Nostr}.

(** ** Merging *)

(** What the events of one identifier merge to: the first of them, with all
    their provenance. *)
Definition combined (l : list RoutedQueryEvent) (id : EventId) : option RoutedQueryEvent :=
  let same := filter (λ e, routed_id e = id) l in
  match same with
  | [] => None
  | e :: _ => Some (mkRoutedEvent (rq_event e) (rq_source e) (rq_priority e)
                      (mjoin (rq_provenance <$> same)))
  end.
Lemma combined_id l id e : combined l id = Some e → routed_id e = id.
Proof.
  unfold combined. destruct (filter _ l) as [|x same] eqn:Hf; [done|]. intros [= <-].
  assert (x ∈ filter (λ e, routed_id e = id) l) as Hx by (rewrite Hf; left).
  by apply list_elem_of_filter in Hx as [? _].
Qed.
Lemma combined_is_Some l id : is_Some (combined l id) ↔ id ∈ routed_id <$> l.
Proof.
  unfold combined. rewrite list_elem_of_fmap. destruct (filter _ l) as [|x same] eqn:Hf.
  - split; [by intros [? [=]]|]. intros (x & -> & Hx).
    assert (x ∈ filter (λ e, routed_id e = routed_id x) l) as Hin
      by (by apply list_elem_of_filter).
    rewrite Hf in Hin. by apply not_elem_of_nil in Hin.
  - split; [|eauto]. intros _. exists x.
    assert (x ∈ filter (λ e, routed_id e = id) l) as Hx by (rewrite Hf; left).
    by apply list_elem_of_filter in Hx as [? ?].
Qed.
Lemma combined_snoc l x id :
  combined (l ++ [x]) id =
    if decide (routed_id x = id) then
      Some (match combined l id with
            | Some e => add_provenance (rq_provenance x) e
            | None => x
            end)
    else combined l id.
Proof.
  unfold combined. rewrite filter_app, filter_cons, filter_nil.
  case_decide; simpl; [|by rewrite app_nil_r].
  destruct (filter _ l) as [|y same]; simpl.
  - rewrite app_nil_r. by destruct x.
  - unfold add_provenance. simpl. do 2 f_equal.
    rewrite fmap_app, join_app. simpl. by rewrite app_nil_r, (assoc_L (++)).
Qed.

Record merge_inv (l merged : list RoutedQueryEvent) (indices : gmap EventId nat) : Prop := {
  mi_index id i : indices !! id = Some i ↔ ∃ e, merged !! i = Some e ∧ routed_id e = id;
  mi_elem e : e ∈ merged ↔ combined l (routed_id e) = Some e;
  mi_nodup : NoDup (routed_id <$> merged);
}.
Lemma merge_fold_inv l :
  merge_inv l (foldl merge_step ([], ∅) l).1 (foldl merge_step ([], ∅) l).2.
Proof.
  induction l as [|x l IH] using rev_ind; simpl.
  { split; [|intros e; unfold combined; simpl; set_solver|constructor].
    intros id i. rewrite lookup_empty. naive_solver. }
  rewrite foldl_app. simpl. destruct (foldl merge_step ([], ∅) l) as [merged indices].
  simpl in IH. destruct IH as [Hidx Hel Hnd]. unfold merge_step.
  destruct (indices !! routed_id x) as [i|] eqn:Hi; simpl.
  - apply Hidx in Hi as (y & Hy & Hyx). set (y' := add_provenance (rq_provenance x) y).
    assert (∀ j e, alter (add_provenance (rq_provenance x)) i merged !! j = Some e ↔
      (j = i ∧ e = y') ∨ (j ≠ i ∧ merged !! j = Some e)) as Halt.
    { intros j e. destruct (decide (j = i)) as [->|Hne].
      - rewrite list_lookup_alter_eq, Hy. simpl. fold y'. naive_solver.
      - rewrite list_lookup_alter_ne by done. naive_solver. }
    assert (routed_id <$> alter (add_provenance (rq_provenance x)) i merged
      = routed_id <$> merged) as Hids.
    { apply list_eq. intros j. rewrite !list_lookup_fmap.
      destruct (decide (j = i)) as [->|Hne].
      - by rewrite list_lookup_alter_eq, Hy.
      - by rewrite list_lookup_alter_ne. }
    split; [| |by rewrite Hids].
    + intros id j. rewrite Hidx. setoid_rewrite Halt. split.
      * intros (e & He & Hid). destruct (decide (j = i)) as [->|Hne]; [|eauto 10].
        exists y'. split; [by left|]. assert (e = y) as -> by congruence. done.
      * intros (e & [[-> ->]|[Hne He]] & Hid); eauto.
    + intros e. rewrite combined_snoc, list_elem_of_lookup. setoid_rewrite Halt.
      case_decide as Hxe.
      * assert (combined l (routed_id e) = Some y) as ->.
        { rewrite <-Hxe, <-Hyx. apply Hel. by apply list_elem_of_lookup_2 in Hy. }
        fold y'. split; [|intros [= <-]; eauto]. intros (j & [[-> ->]|[Hne He]]); [done|].
        exfalso. apply Hne. eapply NoDup_lookup; [exact Hnd| |].
        { rewrite list_lookup_fmap, He. done. }
        rewrite list_lookup_fmap, Hy. simpl. congruence.
      * rewrite <-Hel, list_elem_of_lookup. split.
        -- intros (j & [[-> ->]|[Hne He]]); [by destruct Hxe|eauto].
        -- intros (j & He). exists j. right. split; [|done]. intros ->. congruence.
  - assert (routed_id x ∉ routed_id <$> merged) as Hnew.
    { intros (e & Hid & [j He]%list_elem_of_lookup)%list_elem_of_fmap.
      assert (indices !! routed_id x = Some j) by (apply Hidx; eauto). congruence. }
    assert (combined l (routed_id x) = None) as Hnone.
    { destruct (combined l (routed_id x)) as [e|] eqn:Hc; [|done]. destruct Hnew.
      pose proof (combined_id _ _ _ Hc) as Hid. rewrite <-Hid in Hc |- *.
      apply list_elem_of_fmap_2. by apply Hel. }
    split.
    + intros id j. rewrite lookup_insert_Some. setoid_rewrite lookup_app_Some.
      setoid_rewrite list_lookup_singleton_Some. rewrite Hidx. split.
      * intros [[<- <-]|[Hne (e & He & Hid)]]; [|eauto].
        exists x. split; [right; split; [done|]; split; [lia|done]|done].
      * intros (e & [He|(Hge & Hj & ->)] & Hid).
        -- right. split; [|eauto]. intros <-. apply Hnew. rewrite <-Hid.
           by eapply list_elem_of_fmap_2, list_elem_of_lookup_2.
        -- left. split; [done|lia].
    + intros e. rewrite combined_snoc, elem_of_app, list_elem_of_singleton.
      case_decide as Hxe.
      * rewrite <-Hxe, Hnone. split; [|by intros [= <-]; right].
        intros [He| ->]; [|done]. destruct Hnew. rewrite Hxe. by apply list_elem_of_fmap_2.
      * rewrite <-Hel. split; [intros [He| ->]; done|by left].
    + rewrite fmap_app. apply NoDup_app. split_and!; [done| |apply NoDup_singleton].
      intros id Hid ->%list_elem_of_singleton. done.
Qed.

#[export] Instance merge_order_order : CmpOrder merge_order.
Proof. unfold merge_order. apply _. Qed.

Lemma merge_elem l e :
  e ∈ merge_routed_events l ↔
    ∃ e0, combined l (routed_id e0) = Some e0 ∧ e = sort_provenance e0.
Proof.
  unfold merge_routed_events. rewrite sort_by_elem, list_elem_of_fmap.
  destruct (merge_fold_inv l) as [_ Hel _]. setoid_rewrite Hel. naive_solver.
Qed.
Lemma merge_NoDup l : NoDup (routed_id <$> merge_routed_events l).
Proof.
  unfold merge_routed_events. rewrite sort_by_perm, <-list_fmap_compose.
  exact (mi_nodup _ _ _ (merge_fold_inv l)).
Qed.
Lemma merge_ids l id : id ∈ routed_id <$> merge_routed_events l ↔ id ∈ routed_id <$> l.
Proof.
  rewrite <-(combined_is_Some l), list_elem_of_fmap. split.
  - intros (e & -> & (e0 & Hc & ->)%merge_elem). by exists e0.
  - intros [e Hc]. pose proof (combined_id _ _ _ Hc) as <-. exists (sort_provenance e).
    split; [done|]. apply merge_elem. eauto.
Qed.

(** Merging keeps each event once, newest first, ties by identifier;
    an event appears if and only if some answer holds it, as its first
    occurrence reported it, with the provenance of all of them, sorted and
    without repetition. *)
Theorem merge_routed_events_spec l :
  let merged := merge_routed_events l in
  StronglySorted (cmp_le merge_order) merged ∧
  NoDup (routed_id <$> merged) ∧
  (∀ id, id ∈ routed_id <$> merged ↔ id ∈ routed_id <$> l) ∧
  ∀ e, e ∈ merged →
    (∃ first rest, filter (λ x, routed_id x = routed_id e) l = first :: rest ∧
      rq_event e = rq_event first ∧ rq_source e = rq_source first ∧
      rq_priority e = rq_priority first) ∧
    (∀ p, p ∈ rq_provenance e ↔
      ∃ x, x ∈ l ∧ routed_id x = routed_id e ∧ p ∈ rq_provenance x) ∧
    NoDup (rq_provenance e).
Proof.
  intros merged. split; [unfold merged; apply sort_by_sorted; apply _|].
  split; [apply merge_NoDup|]. split; [apply merge_ids|].
  intros e (e0 & Hc & ->)%merge_elem.
  change (routed_id (sort_provenance e0)) with (routed_id e0).
  unfold combined in Hc. destruct (filter _ l) as [|first rest] eqn:Hf; [done|].
  split_and!.
  - exists first, rest. injection Hc as <-. done.
  - intros p. simpl. rewrite dedup_elem, sort_by_elem.
    assert (p ∈ rq_provenance e0 ↔ p ∈ mjoin (rq_provenance <$> first :: rest)) as ->.
    { by injection Hc as <-. }
    rewrite <-Hf, list_elem_of_join. setoid_rewrite list_elem_of_fmap.
    setoid_rewrite list_elem_of_filter. naive_solver.
  - simpl. apply (dedup_NoDup (cmp_le provenance_compare)); [apply _|].
    apply sort_by_sorted. apply _.
Qed.

(** ** Failover within a dataset *)
Definition failed_attempt (dataset_id : string) (filters : list Filter) (options : QueryOptions)
    (replica : RouteCandidate) (attempt : RouteAttempt) : Prop :=
  ∃ error, qs_reader (rc_source replica) filters options = Err error ∧
    attempt = mkAttempt (qs_route (rc_source replica)) dataset_id (rc_decision replica)
      (Failure (error_to_string error)).

(** How a dataset's replicas were used. *)
Inductive dataset_outcome (dataset_id : string) (replicas : list RouteCandidate)
    (filters : list Filter) (options : QueryOptions) : DatasetResult → Prop :=
  | dataset_answered failed replica rest attempts report :
      replicas = failed ++ replica :: rest →
      Forall2 (failed_attempt dataset_id filters options) failed attempts →
      qs_reader (rc_source replica) filters options = Ok report →
      let events := merge_routed_events
        ((λ event, routed_event event replica dataset_id) <$> qr_events report) in
      dataset_outcome dataset_id replicas filters options
        (mkDatasetResult (mkDatasetReport dataset_id true (nlen events))
          (attempts ++ [mkAttempt (qs_route (rc_source replica)) dataset_id
             (rc_decision replica) (Success (nlen events))]) events)
  | dataset_failed attempts :
      Forall2 (failed_attempt dataset_id filters options) replicas attempts →
      dataset_outcome dataset_id replicas filters options
        (mkDatasetResult (mkDatasetReport dataset_id false 0) attempts []).

Lemma query_replicas_outcome dataset_id replicas filters options done_ attempts0 :
  Forall2 (failed_attempt dataset_id filters options) done_ attempts0 →
  dataset_outcome dataset_id (done_ ++ replicas) filters options
    (query_replicas dataset_id replicas filters options attempts0).
Proof.
  revert done_ attempts0. induction replicas as [|r replicas IH]; intros done_ attempts0 Hd; simpl.
  - rewrite app_nil_r. by constructor.
  - destruct (qs_reader (rc_source r) filters options) as [report|error] eqn:Hq.
    + by eapply dataset_answered.
    + specialize (IH (done_ ++ [r])). rewrite <-(assoc_L (++)) in IH. apply IH.
      apply Forall2_app; [done|]. constructor; [|constructor]. by exists error.
Qed.

(** A dataset's replicas are tried in order until one answers: the ones
    before it failed and are reported with their errors, the ones after
    are never asked, and the dataset is incomplete exactly when all fail. *)
Theorem query_dataset_failover dataset_id replicas filters options :
  let result := query_dataset dataset_id replicas filters options in
  dataset_outcome dataset_id replicas filters options result ∧
  (dr_complete (ds_report result) = true ↔
    ∃ replica, replica ∈ replicas ∧
      is_ok (qs_reader (rc_source replica) filters options) = true).
Proof.
  intros result. pose proof (query_replicas_outcome dataset_id replicas filters options [] []
    ltac:(constructor)) as Hout. simpl in Hout. split; [exact Hout|].
  fold (query_dataset dataset_id replicas filters options) in Hout. fold result in Hout.
  destruct Hout as [failed replica rest attempts report -> _ Hok events|attempts Hall]; simpl.
  - split; [|done]. intros _. exists replica. rewrite Hok. split; [set_solver|done].
  - split; [done|]. intros (replica & Hin & Hok).
    apply list_elem_of_lookup in Hin as [i Hi].
    destruct (Forall2_lookup_l _ _ _ _ _ Hall Hi) as (a & _ & error & He & _).
    by rewrite He in Hok.
Qed.

(** ** Grouping *)
Record grouped (candidates : list RouteCandidate)
    (groups : list (string * list RouteCandidate)) : Prop := {
  gr_nodup : NoDup groups.*1;
  gr_replicas id replicas : (id, replicas) ∈ groups →
    replicas = filter (λ c, candidate_dataset c = id) candidates ∧ replicas ≠ [];
  gr_all c : c ∈ candidates → candidate_dataset c ∈ groups.*1;
}.
Lemma add_to_group_spec c candidates groups :
  grouped candidates groups → grouped (candidates ++ [c]) (add_to_group c groups).
Proof.
  intros [Hnd Hrep Hall].
  assert ((add_to_group c groups).*1 =
    groups.*1 ++ (if decide (candidate_dataset c ∈ groups.*1) then [] else [candidate_dataset c]))
    as Hkeys.
  { clear Hrep Hall. induction groups as [|[id rs] groups IH]; simpl.
    - done.
    - apply NoDup_cons in Hnd as [_ Hnd]. specialize (IH Hnd).
      destruct (decide (id = candidate_dataset c)) as [Hid|Hid]; csimpl.
      + rewrite decide_True by (subst; left). by rewrite app_nil_r.
      + rewrite IH. f_equal. f_equal. apply decide_ext. set_solver. }
  assert (∀ id replicas, (id, replicas) ∈ add_to_group c groups →
    if decide (id = candidate_dataset c) then
      (∃ old, (id, old) ∈ groups ∧ replicas = old ++ [c]) ∨ id ∉ groups.*1 ∧ replicas = [c]
    else (id, replicas) ∈ groups) as Hadd.
  { clear Hrep Hall Hkeys. induction groups as [|[id rs] groups IH]; simpl; intros id' reps.
    - intros [= -> ->]%list_elem_of_singleton. rewrite decide_True by done. right. set_solver.
    - apply NoDup_cons in Hnd as [Hnot Hnd].
      destruct (decide (id = candidate_dataset c)) as [Hid|Hid].
      + rewrite elem_of_cons. intros [[= -> ->]|Hin].
        * rewrite decide_True by done. left. exists rs. split; [left|done].
        * rewrite decide_False; [by right|]. intros ->. apply Hnot. simpl. rewrite Hid.
          apply list_elem_of_fmap. by exists (candidate_dataset c, reps).
      + rewrite elem_of_cons. intros [[= -> ->]|Hin].
        * rewrite decide_False by done. left.
        * specialize (IH Hnd id' reps Hin). case_decide as Hid'.
          -- destruct IH as [(old & Hold & ->)|[Hno ->]].
             ++ left. exists old. split; [by right|done].
             ++ right. split; [|done]. csimpl. set_solver.
          -- by right. }
  split.
  - rewrite Hkeys. case_decide; [by rewrite app_nil_r|].
    apply NoDup_app. split_and!; [done|set_solver|apply NoDup_singleton].
  - intros id replicas Hin. apply Hadd in Hin. rewrite filter_app, filter_cons, filter_nil.
    case_decide as Hid.
    + rewrite decide_True by done. destruct Hin as [(old & Hold & ->)|[Hno ->]].
      * apply Hrep in Hold as [-> _]. split; [done|]. by destruct (filter _ candidates).
      * split; [|done]. rewrite (filter_none _ candidates); [done|].
        intros x Hx Hxd. apply Hno. rewrite <-Hxd. by apply Hall.
    + rewrite decide_False by congruence. rewrite app_nil_r. by apply Hrep.
  - intros x. rewrite elem_of_app, list_elem_of_singleton, Hkeys, elem_of_app.
    intros [Hx| ->]; [left; by apply Hall|].
    case_decide; [by left|right; by left].
Qed.
Lemma group_by_dataset_spec candidates : grouped candidates (group_by_dataset candidates).
Proof.
  unfold group_by_dataset. induction candidates as [|c candidates IH] using rev_ind.
  { split; [constructor|by intros ? ? ?%not_elem_of_nil|by intros ? ?%not_elem_of_nil]. }
  rewrite foldl_app. by apply add_to_group_spec.
Qed.

(** ** Candidates *)
Section candidates.
Context (policy : PubsubPolicy) (author_pubkey : option string)
  (capabilities : option (list string)).

(** The candidate the policy makes of the [n]-th route, if it allows it. *)
Definition allowed_as (source : RouteQuerySource) (n : N) (c : RouteCandidate) : Prop :=
  let route := qs_route source in
  ∃ decision, check_source policy (route_candidate route) author_pubkey
      (default (sr_capabilities route) capabilities) = Ok decision ∧
    is_drop decision = false ∧
    c = mkCandidate (i32_sat_add (sr_priority route) (decision_priority decision)) n source
      decision.
Lemma check_routes_elem n routes candidates c :
  check_routes policy author_pubkey capabilities n routes = Ok candidates →
  c ∈ candidates ↔
    ∃ i source, routes !! i = Some source ∧ allowed_as source (n + N.of_nat i) c.
Proof.
  revert n candidates. induction routes as [|source routes IH]; intros n candidates; simpl.
  { intros [= <-]. split; [by intros ?%not_elem_of_nil|]. intros (i & s & Hi & _).
    by rewrite lookup_nil in Hi. }
  destruct (check_source _ _ _ _) as [decision|error] eqn:Hd; simpl; [|done].
  destruct (check_routes _ _ _ _ routes) as [rest|error] eqn:Hrest; simpl; [|done].
  specialize (IH _ _ Hrest). intros [= <-]. transitivity
    (allowed_as source n c ∨ c ∈ rest).
  - unfold allowed_as. rewrite Hd. destruct (is_drop decision) eqn:Hdrop;
      rewrite ?elem_of_cons; naive_solver congruence.
  - rewrite IH. split.
    + intros [Ha|(i & s & Hi & Ha)]; [exists 0%nat, source|exists (S i), s].
      * by rewrite N.add_0_r.
      * split; [done|]. by replace (n + N.of_nat (S i)) with (n + 1 + N.of_nat i) by lia.
    + intros ([|i] & s & Hi & Ha); simpl in Hi.
      * left. injection Hi as <-. by rewrite N.add_0_r in Ha.
      * right. exists i, s. split; [done|].
        by replace (n + 1 + N.of_nat i) with (n + N.of_nat (S i)) by lia.
Qed.
End candidates.

(** The answer a dataset's replicas give: the first one that answers. *)
Definition first_answer (replicas : list RouteCandidate) (filters : list Filter)
    (options : QueryOptions) (report : QueryReport) : Prop :=
  ∃ failed replica rest, replicas = failed ++ replica :: rest ∧
    Forall (λ r, is_ok (qs_reader (rc_source r) filters options) = false) failed ∧
    qs_reader (rc_source replica) filters options = Ok report.
Definition answer_ids (report : QueryReport) : list EventId :=
  (λ q, event_id (as_event (qe_event q))) <$> qr_events report.

Lemma first_answer_unique replicas filters options r1 r2 :
  first_answer replicas filters options r1 → first_answer replicas filters options r2 → r1 = r2.
Proof.
  induction replicas as [|r replicas IH]; intros (f1 & a1 & t1 & E1 & F1 & A1)
    (f2 & a2 & t2 & E2 & F2 & A2); [by destruct f1|].
  destruct f1 as [|x1 f1], f2 as [|x2 f2]; simplify_eq/=.
  - congruence.
  - apply Forall_cons in F2 as [F2 _]. by rewrite A1 in F2.
  - apply Forall_cons in F1 as [F1 _]. by rewrite A2 in F1.
  - apply Forall_cons in F1 as [_ F1], F2 as [_ F2]. apply IH;
      [by exists f1, a1, t1|by exists f2, a2, t2].
Qed.
Lemma failed_attempts dataset_id filters options replicas attempts :
  Forall2 (failed_attempt dataset_id filters options) replicas attempts →
  Forall (λ r, is_ok (qs_reader (rc_source r) filters options) = false) replicas.
Proof. induction 1 as [|r a rs as_ (e & He & _) _ IH]; constructor; [by rewrite He|done]. Qed.

Lemma query_dataset_id dataset_id replicas filters options :
  dr_dataset_id (ds_report (query_dataset dataset_id replicas filters options)) = dataset_id.
Proof.
  pose proof (query_replicas_outcome dataset_id replicas filters options [] []
    ltac:(constructor)) as Hout. simpl in Hout. unfold query_dataset. by destruct Hout.
Qed.
Lemma query_dataset_answer dataset_id replicas filters options :
  let result := query_dataset dataset_id replicas filters options in
  (dr_complete (ds_report result) = true ↔ ∃ r, first_answer replicas filters options r) ∧
  ∀ id, id ∈ routed_id <$> ds_events result ↔
    ∃ r, first_answer replicas filters options r ∧ id ∈ answer_ids r.
Proof.
  intros result. pose proof (query_replicas_outcome dataset_id replicas filters options [] []
    ltac:(constructor)) as Hout. simpl in Hout.
  fold (query_dataset dataset_id replicas filters options) in Hout. fold result in Hout.
  destruct Hout as [failed replica rest attempts report Hr Hfail Hok events|attempts Hall]; simpl.
  - assert (first_answer replicas filters options report) as Hfa.
    { exists failed, replica, rest. split_and!; [done|by eapply failed_attempts|done]. }
    split; [split; [intros _; by exists report|done]|]. intros id. unfold events.
    rewrite merge_ids, <-list_fmap_compose. split; [intros Hid; exists report; done|].
    intros (r & Hr' & Hid). by rewrite (first_answer_unique _ _ _ _ _ Hfa Hr').
  - assert (∀ r, ¬ first_answer replicas filters options r) as Hno.
    { intros r (f & a & t & -> & _ & Ha). apply failed_attempts, Forall_app in Hall as [_ Hall].
      apply Forall_cons in Hall as [Hall _]. by rewrite Ha in Hall. }
    split; [naive_solver|]. intros id. split; [by intros ?%not_elem_of_nil|naive_solver].
Qed.

Lemma check_routes_error policy author_pubkey capabilities n routes error :
  check_routes policy author_pubkey capabilities n routes = Err error →
  ∃ source, source ∈ routes ∧
    check_source policy (route_candidate (qs_route source)) author_pubkey
      (default (sr_capabilities (qs_route source)) capabilities) = Err error.
Proof.
  revert n. induction routes as [|s routes IH]; intros n; simpl; [done|].
  destruct (check_source _ _ _ _) as [d|e] eqn:Hd; simpl.
  - destruct (check_routes _ _ _ _ routes) as [rest|e] eqn:Hrest; simpl; [done|].
    intros [= <-]. destruct (IH _ Hrest) as (x & Hx & He). exists x. split; [by right|done].
  - intros [= <-]. exists s. split; [left|done].
Qed.
Lemma group_mem candidates id replicas :
  (id, replicas) ∈ group_by_dataset candidates ↔
    replicas = filter (λ c, candidate_dataset c = id) candidates ∧ replicas ≠ [].
Proof.
  destruct (group_by_dataset_spec candidates) as [Hnd Hrep Hall]. split; [apply Hrep|].
  intros [-> Hne]. destruct (filter _ candidates) as [|c cs] eqn:Hf; [done|].
  assert (c ∈ filter (λ c, candidate_dataset c = id) candidates) as Hc by (rewrite Hf; left).
  apply list_elem_of_filter in Hc as [Hid Hc]. apply Hall in Hc. rewrite Hid in Hc.
  apply list_elem_of_fmap in Hc as ([id' rs] & -> & Hin). simpl in *.
  pose proof Hin as [Heq _]%Hrep. by rewrite <-Hf, <-Heq.
Qed.

#[export] Instance candidate_compare_order : CmpOrder candidate_compare.
Proof. unfold candidate_compare. apply _. Qed.

(** ** The results of the datasets *)
Definition replicas_of (candidates : list RouteCandidate) (c : RouteCandidate)
    : list RouteCandidate :=
  filter (λ x, candidate_dataset x = candidate_dataset c) candidates.
Lemma dataset_results_elem candidates filters options result :
  result ∈ dataset_results candidates filters options ↔ ∃ c, c ∈ candidates ∧
    result = query_dataset (candidate_dataset c) (replicas_of candidates c) filters options.
Proof.
  unfold dataset_results. rewrite list_elem_of_fmap. split.
  - intros ([id rs] & -> & [Hrs Hne]%group_mem). simpl. destruct rs as [|c rs]; [done|].
    assert (c ∈ filter (λ c, candidate_dataset c = id) candidates) as Hc
      by (rewrite <-Hrs; left).
    apply list_elem_of_filter in Hc as [<- Hc]. exists c. unfold replicas_of. by rewrite Hrs.
  - intros (c & Hc & ->). eexists (_, _). split; [done|]. apply group_mem.
    split; [done|]. eapply elem_of_not_nil. by apply list_elem_of_filter.
Qed.
Lemma dataset_results_ids candidates filters options :
  dr_dataset_id <$> (ds_report <$> dataset_results candidates filters options)
    = (group_by_dataset candidates).*1.
Proof.
  unfold dataset_results. rewrite <-!list_fmap_compose. apply list_fmap_ext. intros i g _.
  apply query_dataset_id.
Qed.
Lemma group_ids_elem candidates id :
  id ∈ (group_by_dataset candidates).*1 ↔ ∃ c, c ∈ candidates ∧ candidate_dataset c = id.
Proof.
  destruct (group_by_dataset_spec candidates) as [_ _ Hall]. split.
  - intros ([id' rs] & -> & Hin)%list_elem_of_fmap. apply group_mem in Hin as [Hrs Hne].
    destruct rs as [|c rs]; [done|]. exists c.
    assert (c ∈ filter (λ c, candidate_dataset c = id') candidates) as Hc
      by (rewrite <-Hrs; left).
    by apply list_elem_of_filter in Hc as [? ?].
  - intros (c & Hc & <-). by apply Hall.
Qed.
Lemma dataset_results_complete candidates filters options :
  forallb (λ result, dr_complete (ds_report result)) (dataset_results candidates filters options)
    = true ↔
  ∀ c, c ∈ candidates → ∃ r, first_answer (replicas_of candidates c) filters options r.
Proof.
  rewrite forallb_forall. setoid_rewrite <-list_elem_of_In.
  setoid_rewrite dataset_results_elem. split.
  - intros Hcomp c Hc. apply (query_dataset_answer (candidate_dataset c)). eauto.
  - intros Hcomp result (c & Hc & ->). apply query_dataset_answer. by apply Hcomp.
Qed.
Lemma dataset_results_events candidates filters options id :
  id ∈ routed_id <$> mjoin (ds_events <$> dataset_results candidates filters options) ↔
  ∃ c r, c ∈ candidates ∧ first_answer (replicas_of candidates c) filters options r ∧
    id ∈ answer_ids r.
Proof.
  transitivity (∃ c, c ∈ candidates ∧ id ∈ routed_id <$> ds_events
    (query_dataset (candidate_dataset c) (replicas_of candidates c) filters options)).
  - rewrite list_elem_of_fmap. setoid_rewrite list_elem_of_join.
    setoid_rewrite list_elem_of_fmap. setoid_rewrite dataset_results_elem. split.
    + intros (e & -> & evs & He & result & -> & c & Hc & ->). eauto.
    + intros (c & Hc & e & -> & He). eauto 10.
  - split.
    + intros (c & Hc & Hin). apply query_dataset_answer in Hin as (r & Hr & Hid). eauto.
    + intros (c & r & Hc & Hr & Hid). exists c. split; [done|]. apply query_dataset_answer. eauto.
Qed.

(** What a routed query reports, given the candidates: [candidates] are the
    routes the policy allows, best first. *)
Record routed_outcome (candidates : list RouteCandidate) (filters : list Filter)
    (options : QueryOptions) (limit : N) (report : RoutedQueryReport) : Prop := {
  (** one report per dataset that has an allowed route *)
  ro_datasets : NoDup (dr_dataset_id <$> rr_datasets report);
  ro_dataset_ids id : id ∈ dr_dataset_id <$> rr_datasets report ↔
    ∃ c, c ∈ candidates ∧ candidate_dataset c = id;
  (** complete when every dataset has a replica that answers *)
  ro_complete : rr_complete report = true ↔
    ∀ c, c ∈ candidates → ∃ r, first_answer (replicas_of candidates c) filters options r;
  (** the events are the newest [limit] of what the first answers hold *)
  ro_events : ∃ all, rr_events report = take (N.to_nat limit) all ∧
    StronglySorted (cmp_le merge_order) all ∧ NoDup (routed_id <$> all) ∧
    ∀ id, id ∈ routed_id <$> all ↔
      ∃ c r, c ∈ candidates ∧ first_answer (replicas_of candidates c) filters options r ∧
        id ∈ answer_ids r;
}.

Lemma collect_results_outcome candidates filters options limit :
  routed_outcome candidates filters options limit
    (collect_results (dataset_results candidates filters options) limit).
Proof.
  destruct (group_by_dataset_spec candidates) as [Hnd _ _]. split; simpl.
  - by rewrite dataset_results_ids.
  - intros id. by rewrite dataset_results_ids, group_ids_elem.
  - apply dataset_results_complete.
  - eexists. split; [reflexivity|].
    split; [unfold merge_routed_events; apply sort_by_sorted, _|].
    split; [apply merge_NoDup|]. intros id. by rewrite merge_ids, dataset_results_events.
Qed.

(** C24. A routed query fails only when the policy fails on one of the
    routes. Otherwise it considers the routes the policy does not drop, by
    effective priority and then by position; it reports each of their
    datasets once; it is complete exactly when every dataset has a replica
    that answers; and its events are the newest [limit] of the events the
    first answering replica of each dataset returned, each event once. With
    limit zero nothing is asked. *)
Theorem query_routes_spec routes filters options author_pubkey policy capabilities :
  let limit := default usize_max (qo_limit options) in
  match query_routes_with_policy routes filters options author_pubkey policy capabilities with
  | Err error => ∃ source, source ∈ routes ∧
      check_source policy (route_candidate (qs_route source)) author_pubkey
        (default (sr_capabilities (qs_route source)) capabilities) = Err error
  | Ok report => ∃ candidates,
      StronglySorted (cmp_le candidate_compare) candidates ∧
      (∀ c, c ∈ candidates ↔ ∃ i source, routes !! i = Some source ∧
        allowed_as policy author_pubkey capabilities source (N.of_nat i) c) ∧
      (limit = 0 → rr_events report = [] ∧ rr_attempts report = []) ∧
      (limit ≠ 0 → routed_outcome candidates filters options limit report)
  end.
Proof.
  intros limit. unfold query_routes_with_policy, allowed_candidates.
  destruct (check_routes _ _ _ 0 routes) as [cs|error] eqn:Hcs; simpl;
    [|by eapply check_routes_error].
  fold limit. case_decide as Hlim; exists (sort_by candidate_compare cs);
    (split; [apply sort_by_sorted, _|]);
    (split; [intros c; by rewrite sort_by_elem, (check_routes_elem _ _ _ _ _ _ _ Hcs)|]);
    [done|]. split; [done|]. intros _. apply collect_results_outcome.
Qed.
End routes_spec.
