(* ===== verification/LiveRoutes.v ===== *)
(** * Routed live subscriptions

    crates/nostr-pubsub/src/live_routes.rs: one subscription over every source
    the policy allows, opened all or nothing, with the deliveries of the
    sources merged and each event identifier delivered once within a bounded
    window. What the sources are asked to do is logged. *)

From S2P Require Export Routes.

Definition DEFAULT_LIVE_DEDUP_EVENTS : N := 4096.

(** [failures.join("; ")]. *)
Fixpoint join_strings (sep : string) (l : list string) : string :=
  match l with
  | [] => ""
  | [x] => x
  | x :: l' => x +:+ sep +:+ join_strings sep l'
  end.

Inductive SubscriptionDeliveryStatus : Set := Active | Closed | Lagged.
#[export] Instance SubscriptionDeliveryStatus_eq_dec : EqDecision SubscriptionDeliveryStatus.
Proof. solve_decision. Defined.

(** A provider's open subscription: what it reports and how closing it ends. *)
Record NostrEventSubscription : Set := mkEventSubscription {
  es_delivery_status : option SubscriptionDeliveryStatus;
  es_close : res unit;
}.

(** [delivery_status]: the loop returns early on [Lagged]. *)
Fixpoint status_loop (subscriptions : list NostrEventSubscription)
    (known : option SubscriptionDeliveryStatus) (unknown : bool)
    : option SubscriptionDeliveryStatus :=
  match subscriptions with
  | [] => if unknown then None else known
  | s :: rest =>
      match es_delivery_status s with
      | Some Lagged => Some Lagged
      | Some Active => status_loop rest (Some Active) unknown
      | Some Closed => status_loop rest (Some (default Closed known)) unknown
      | None => status_loop rest known true
      end
  end.

(** The calls made on the sources, by route. *)
Inductive LiveEffect : Set := Opened (route_id : string) | ClosedRoute (route_id : string).

(** The subscription opened on a route. The route's id only labels the log. *)
Definition OpenRoute : Set := string * NostrEventSubscription.

Definition close_log (subscriptions : list OpenRoute) : list LiveEffect :=
  (λ s, ClosedRoute s.1) <$> subscriptions.
Definition close_failures (subscriptions : list OpenRoute) : list string :=
  omap (λ s, match es_close s.2 with Ok _ => None | Err e => Some (error_to_string e) end)
    subscriptions.
Definition close_subscriptions (subscriptions : list OpenRoute)
    : SE (list LiveEffect) PubsubError unit := λ log,
  let failures := close_failures subscriptions in
  (if decide (failures = []) then Ok tt
   else Err (Storage ("close live routes: " +:+ join_strings "; " failures)),
   log ++ close_log subscriptions).

Section live.
Context `{!Nostr}.

(** ** The window of delivered identifiers *)
Record SeenEvents : Type := mkSeen {
  seen_maximum : N;
  seen_ids : gset EventId;
  seen_order : list EventId;
}.
Definition seen_new (maximum : N) : SeenEvents := mkSeen maximum ∅ [].
Definition seen_insert (id : EventId) (s : SeenEvents) : bool * SeenEvents :=
  if decide (id ∈ seen_ids s) then (false, s)
  else
    let '(order, ids) :=
      window_trim (seen_maximum s) (seen_order s ++ [id]) ({[id]} ∪ seen_ids s) in
    (true, mkSeen (seen_maximum s) ids order).
Definition seen_clear (s : SeenEvents) : SeenEvents := mkSeen (seen_maximum s) ∅ [].

(** ** Deliveries *)
Record RoutedLiveEvent : Type := mkLiveEvent {
  le_event : VerifiedEvent;
  le_source : EventSource;
  le_priority : Z;
  le_route : SourceRoute;
}.
(** [incoming_handler] of a route, on the shared window. *)
Definition incoming_handler (route : SourceRoute) (incoming : QueryEvent) (seen : SeenEvents)
    : option RoutedLiveEvent * SeenEvents :=
  let '(should_deliver, seen) := seen_insert (event_id (as_event (qe_event incoming))) seen in
  (if should_deliver then
     Some (mkLiveEvent (qe_event incoming) (qe_source incoming) (qe_priority incoming) route)
   else None, seen).
(** The calls of the user's handler, for arrivals in any interleaving. *)
Fixpoint live_run (arrivals : list (SourceRoute * QueryEvent)) (seen : SeenEvents)
    : list RoutedLiveEvent * SeenEvents :=
  match arrivals with
  | [] => ([], seen)
  | (route, incoming) :: rest =>
      let '(out, seen) := incoming_handler route incoming seen in
      let '(outs, seen) := live_run rest seen in
      (option_list out ++ outs, seen)
  end.

(** ** Opening *)
Record LiveRouteSource : Type := mkLiveSource {
  ls_route : SourceRoute;
  ls_subscribe : list Filter → res NostrEventSubscription;
}.
Record RoutedLiveOptions : Set := mkLiveOptions {
  lo_author_pubkey : option string;
  lo_capabilities : option (list string);
  lo_max_seen_events : N;
}.
Definition live_options_default : RoutedLiveOptions :=
  mkLiveOptions None None DEFAULT_LIVE_DEDUP_EVENTS.
Record RoutedLiveSubscription : Type := mkLiveSubscription {
  ls_route_ids : list string;
  ls_subscriptions : list OpenRoute;
  ls_seen : SeenEvents;
}.
Definition live_delivery_status (s : RoutedLiveSubscription)
    : option SubscriptionDeliveryStatus :=
  status_loop (snd <$> ls_subscriptions s) None false.
(** [close] consumes the subscription; the window is the state that stays
    shared with the handlers. *)
Definition live_close (s : RoutedLiveSubscription)
    : SE (list LiveEffect) PubsubError unit * SeenEvents :=
  (close_subscriptions (ls_subscriptions s), seen_clear (ls_seen s)).

Definition live_decision (policy : PubsubPolicy) (options : RoutedLiveOptions)
    (source : LiveRouteSource) : res PolicyDecision :=
  let route := ls_route source in
  check_source policy (route_candidate route) (lo_author_pubkey options)
    (default (sr_capabilities route) (lo_capabilities options)).
Fixpoint live_allowed (policy : PubsubPolicy) (options : RoutedLiveOptions)
    (routes : list LiveRouteSource) : res (list LiveRouteSource) :=
  match routes with
  | [] => Ok []
  | source :: routes' =>
      decision ← live_decision policy options source;
      rest ← live_allowed policy options routes';
      Ok (if is_drop decision then rest else source :: rest)
  end.
Fixpoint open_routes (allowed : list LiveRouteSource) (filters : list Filter)
    (active : list OpenRoute) : SE (list LiveEffect) PubsubError (list OpenRoute) := λ log,
  match allowed with
  | [] => (Ok active, log)
  | source :: rest =>
      let route_id := sr_id (ls_route source) in
      match ls_subscribe source filters with
      | Ok subscription =>
          open_routes rest filters (active ++ [(route_id, subscription)])
            (log ++ [Opened route_id])
      | Err error =>
          let '(close_result, log) := close_subscriptions active log in
          (match close_result with
           | Ok _ => Err error
           | Err close_error => Err (Storage (error_to_string error
               +:+ "; closing previously opened live routes failed: "
               +:+ error_to_string close_error))
           end, log)
      end
  end.
Definition subscribe_routes_with_policy (routes : list LiveRouteSource) (filters : list Filter)
    (policy : PubsubPolicy) (options : RoutedLiveOptions)
    : SE (list LiveEffect) PubsubError RoutedLiveSubscription :=
  if decide (lo_max_seen_events options = 0) then
    se_fail (Validation "live route deduplication limit must be positive")
  else
    allowed ← se_lift (live_allowed policy options routes);
    active ← open_routes allowed filters [];
    mret (mkLiveSubscription active.*1 active (seen_new (lo_max_seen_events options))).
End live.

(** ** The delivery window *)
Section live_window.
Context `{!Nostr}.

Definition arrival_id (a : SourceRoute * QueryEvent) : EventId :=
  event_id (as_event (qe_event a.2)).
Definition live_id (e : RoutedLiveEvent) : EventId := event_id (as_event (le_event e)).

(** The specification of the merged deliveries: an arrival is delivered,
    under the route it arrived by, when it is none of the last [n]
    delivered. *)
Fixpoint live_reference (n : nat) (delivered : list EventId)
    (arrivals : list (SourceRoute * QueryEvent)) : list RoutedLiveEvent :=
  match arrivals with
  | [] => []
  | a :: rest =>
      if decide (arrival_id a ∈ last_n n delivered) then live_reference n delivered rest
      else mkLiveEvent (qe_event a.2) (qe_source a.2) (qe_priority a.2) a.1
        :: live_reference n (delivered ++ [arrival_id a]) rest
  end.

Definition seen_inv (delivered : list EventId) (s : SeenEvents) : Prop :=
  window_of (seen_maximum s) delivered (seen_order s) (seen_ids s).
Lemma seen_inv_new maximum : seen_inv [] (seen_new maximum).
Proof. apply window_of_empty. Qed.
Lemma seen_insert_inv delivered s id :
  seen_inv delivered s →
  let '(fresh, s') := seen_insert id s in
  (fresh = true ↔ id ∉ last_n (N.to_nat (seen_maximum s)) delivered) ∧
  seen_maximum s' = seen_maximum s ∧
  seen_inv (if fresh then delivered ++ [id] else delivered) s'.
Proof.
  intros Hs. pose proof (window_of_elem _ _ _ _ id Hs) as Hmem. unfold seen_insert.
  case_decide as Hin; [naive_solver|].
  pose proof (window_of_push _ _ _ _ id Hs Hin) as Hpush.
  destruct (window_trim _ _ _) as [order ids]. split_and!; [tauto|done|exact Hpush].
Qed.

Lemma live_run_spec arrivals delivered s :
  seen_inv delivered s →
  let '(out, s') := live_run arrivals s in
  out = live_reference (N.to_nat (seen_maximum s)) delivered arrivals ∧
  seen_maximum s' = seen_maximum s ∧ ∃ delivered', seen_inv delivered' s'.
Proof.
  revert delivered s. induction arrivals as [|[route q] rest IH]; intros delivered s Hs; simpl.
  { eauto. }
  unfold incoming_handler.
  pose proof (seen_insert_inv delivered s (event_id (as_event (qe_event q))) Hs) as Hins.
  destruct (seen_insert _ s) as [fresh s1]. destruct Hins as (Hfresh & Hmax & Hs1).
  specialize (IH _ s1 Hs1). destruct (live_run rest s1) as [out s2].
  destruct IH as (-> & Hmax2 & Hinv). rewrite Hmax in Hmax2 |- *.
  unfold arrival_id. simpl. split; [|done]. destruct fresh; simpl.
  - rewrite decide_False by (by apply Hfresh). done.
  - rewrite decide_True; [done|]. apply dec_stable. intros Hno. by apply Hfresh in Hno.
Qed.

(** While at most [n] different identifiers are about, nothing is forgotten. *)
Lemma live_reference_exact n (all : list EventId) delivered arrivals :
  (length all ≤ n)%nat → NoDup delivered →
  (∀ id, id ∈ delivered ∨ id ∈ arrival_id <$> arrivals → id ∈ all) →
  NoDup (delivered ++ (live_id <$> live_reference n delivered arrivals)) ∧
  ∀ id, id ∈ delivered ++ (live_id <$> live_reference n delivered arrivals) ↔
    id ∈ delivered ∨ id ∈ arrival_id <$> arrivals.
Proof.
  intros Hn. revert delivered. induction arrivals as [|a rest IH]; intros delivered Hnd Hall; simpl.
  { rewrite app_nil_r. set_solver. }
  rewrite last_n_all; cycle 1.
  { etrans; [|exact Hn]. apply submseteq_length, NoDup_submseteq; [done|]. auto. }
  case_decide as Hin.
  - destruct (IH delivered Hnd) as [H1 H2]; [set_solver|]. split; [done|].
    intros id. rewrite H2. set_solver.
  - destruct (IH (delivered ++ [arrival_id a])) as [H1 H2].
    + apply NoDup_app. split_and!; [done| |apply NoDup_singleton].
      intros x Hx ->%list_elem_of_singleton. done.
    + set_solver.
    + rewrite <-(assoc_L (++)) in H1, H2. csimpl. unfold live_id at 1 3. simpl.
      fold (arrival_id a). split; [done|]. intros id. rewrite H2. set_solver.
Qed.

(** Whatever the interleaving of the routes, the user's handler gets
    exactly the arrivals whose identifier is none of the last [maximum]
    delivered, in order, each with the route it came by; the window never
    exceeds [maximum]; and while at most [maximum] different identifiers
    arrive, each is delivered exactly once. *)
Theorem live_deliveries_exact maximum arrivals :
  let '(delivered, seen) := live_run arrivals (seen_new maximum) in
  delivered = live_reference (N.to_nat maximum) [] arrivals ∧
  ssize (seen_ids seen) ≤ maximum ∧
  ((length (remove_dups (arrival_id <$> arrivals)) ≤ N.to_nat maximum)%nat →
    NoDup (live_id <$> delivered) ∧
    ∀ id, id ∈ live_id <$> delivered ↔ id ∈ arrival_id <$> arrivals).
Proof.
  pose proof (live_run_spec arrivals [] (seen_new maximum) (seen_inv_new _)) as Hrun.
  destruct (live_run _ _) as [delivered seen]. destruct Hrun as (-> & Hmax & d & [Ho Hnd Hids]).
  simpl in *. split_and!; [done| |].
  - unfold ssize. rewrite Hids, size_list_to_set, Ho, Hmax by done.
    pose proof (last_n_length (N.to_nat maximum) d). lia.
  - intros Hlen. destruct (live_reference_exact _ _ [] arrivals Hlen) as [H1 H2]; [constructor| |].
    + intros id [?%not_elem_of_nil|Hid]; [done|]. by apply elem_of_remove_dups.
    + simpl in *. split; [done|]. intros id. rewrite H2. set_solver.
Qed.
End live_window.

(** ** Delivery health *)
Definition reports (status : option SubscriptionDeliveryStatus)
    (statuses : list (option SubscriptionDeliveryStatus)) : bool :=
  existsb (λ s, bool_decide (s = status)) statuses.
Lemma reports_spec status statuses : reports status statuses = true ↔ status ∈ statuses.
Proof.
  unfold reports. rewrite existsb_exists. setoid_rewrite <-list_elem_of_In.
  setoid_rewrite bool_decide_eq_true. naive_solver.
Qed.
Lemma reports_cons status x statuses :
  reports status (x :: statuses) = bool_decide (x = status) || reports status statuses.
Proof. done. Qed.
Lemma status_loop_spec subscriptions known unknown :
  status_loop subscriptions known unknown =
    let statuses := es_delivery_status <$> subscriptions in
    if reports (Some Lagged) statuses then Some Lagged
    else if unknown || reports None statuses then None
    else if reports (Some Active) statuses then Some Active
    else if reports (Some Closed) statuses then Some (default Closed known) else known.
Proof.
  revert known unknown. induction subscriptions as [|s rest IH]; intros known unknown.
  { by destruct unknown. }
  cbn [status_loop]. rewrite fmap_cons. cbv zeta. rewrite !reports_cons.
  set (xs := es_delivery_status <$> rest) in *.
  destruct (es_delivery_status s) as [[]|]; rewrite ?IH; simpl;
    destruct (reports (Some Lagged) xs), unknown, (reports None xs), (reports (Some Active) xs),
      (reports (Some Closed) xs); done.
Qed.

(** ** Opening and closing *)
Section live_open.
Context `{!Nostr}.

Definition admitted (policy : PubsubPolicy) (options : RoutedLiveOptions)
    (source : LiveRouteSource) : bool :=
  match live_decision policy options source with
  | Ok decision => negb (is_drop decision)
  | Err _ => false
  end.
Lemma live_allowed_Ok policy options routes allowed :
  live_allowed policy options routes = Ok allowed ↔
    Forall (λ s, is_ok (live_decision policy options s) = true) routes ∧
    allowed = filter (λ s, admitted policy options s = true) routes.
Proof.
  revert allowed. induction routes as [|s routes IH]; intros allowed; simpl.
  { split; [by intros [= <-]|by intros [_ ->]]. }
  rewrite Forall_cons. destruct (live_decision policy options s) as [d|e] eqn:Hd; simpl;
    [|naive_solver].
  assert (admitted policy options s = negb (is_drop d)) as Hadm by (unfold admitted; by rewrite Hd).
  destruct (live_allowed policy options routes) as [rest|e]; simpl.
  - destruct (IH rest) as [[Hall ->] _]; [done|]. rewrite filter_cons.
    destruct (is_drop d); simpl in *;
      [rewrite decide_False by congruence|rewrite decide_True by done];
      (split; [by intros [= <-]|by intros [_ ->]]).
  - split; [done|]. intros [[_ Hall] _]. exfalso.
    by discriminate (proj2 (IH _) (conj Hall eq_refl)).
Qed.

Definition open_ids (sources : list LiveRouteSource) : list string :=
  (λ s, sr_id (ls_route s)) <$> sources.
Definition opens (filters : list Filter) (source : LiveRouteSource) (route : OpenRoute) : Prop :=
  route.1 = sr_id (ls_route source) ∧ ls_subscribe source filters = Ok route.2.

Lemma open_routes_spec allowed filters opened active log :
  Forall2 (opens filters) opened active →
  match open_routes allowed filters active log with
  | (Ok active', log') => Forall2 (opens filters) (opened ++ allowed) active' ∧
      log' = log ++ (Opened <$> open_ids allowed)
  | (Err error, log') => ∃ before failing after error0,
      allowed = before ++ failing :: after ∧ ls_subscribe failing filters = Err error0 ∧
      log' = log ++ (Opened <$> open_ids before) ++ (ClosedRoute <$> open_ids (opened ++ before))
  end.
Proof.
  revert opened active log. induction allowed as [|s rest IH]; intros opened active log Hact; simpl.
  { by rewrite !app_nil_r. }
  destruct (ls_subscribe s filters) as [sub|error] eqn:Hsub.
  - specialize (IH (opened ++ [s]) (active ++ [(sr_id (ls_route s), sub)])
      (log ++ [Opened (sr_id (ls_route s))])).
    destruct (open_routes rest _ _ _) as [[active'|error] log'].
    + destruct IH as [Hall ->]; [apply Forall2_app; [done|by constructor]|].
      rewrite <-!(assoc_L (++)) in *. done.
    + destruct IH as (before & failing & after & e0 & -> & He0 & ->);
        [apply Forall2_app; [done|by constructor]|].
      exists (s :: before), failing, after, e0. split_and!; [done..|].
      by rewrite <-!(assoc_L (++)).
  - assert (close_log active = ClosedRoute <$> open_ids opened) as Hclose.
    { unfold close_log, open_ids. clear IH.
      induction Hact as [|x y xs ys [Hid _] Hrest IH]; [done|]. csimpl. by rewrite IH, Hid. }
    unfold close_subscriptions. case_decide; simpl; exists [], s, rest, error;
      (split_and!; [done|done|]); by rewrite app_nil_r, Hclose.
Qed.
End live_open.

(** ** Theorems *)
Section live_props.
Context `{!Nostr}.

(** The health of a routed subscription is the worst its sources
    report: [Lagged] when any source lags; otherwise unknown when there is
    no source or one that does not say; otherwise [Active] when any source
    is, and [Closed] only when all are. *)
Theorem live_delivery_status_spec s :
  let statuses := es_delivery_status <$> (snd <$> ls_subscriptions s) in
  match live_delivery_status s with
  | Some Lagged => Some Lagged ∈ statuses
  | None => Some Lagged ∉ statuses ∧ (statuses = [] ∨ None ∈ statuses)
  | Some Active => Some Lagged ∉ statuses ∧ None ∉ statuses ∧ Some Active ∈ statuses
  | Some Closed => statuses ≠ [] ∧ ∀ x, x ∈ statuses → x = Some Closed
  end.
Proof.
  intros statuses. unfold live_delivery_status. rewrite status_loop_spec. simpl. fold statuses.
  pose proof (reports_spec (Some Lagged) statuses) as HL.
  pose proof (reports_spec None statuses) as HN.
  pose proof (reports_spec (Some Active) statuses) as HA.
  pose proof (reports_spec (Some Closed) statuses) as HC.
  clearbody statuses.
  destruct (reports (Some Lagged) statuses); [by apply HL|].
  assert (Some Lagged ∉ statuses) as Hl by (by intros ?%HL).
  destruct (reports None statuses); simpl; [by split; [done|right; apply HN]|].
  assert (None ∉ statuses) as Hn by (by intros ?%HN).
  destruct (reports (Some Active) statuses); simpl; [split_and!; [done|done|by apply HA]|].
  assert (Some Active ∉ statuses) as Ha by (by intros ?%HA).
  destruct (reports (Some Closed) statuses); simpl.
  - split; [intros ->; by destruct HC as [?%not_elem_of_nil _]|]. by intros [[]|] Hx.
  - assert (Some Closed ∉ statuses) as Hc by (by intros ?%HC). split; [done|left].
    destruct statuses as [|[[]|] xs]; [done|by destruct Ha; left|by destruct Hc; left
      |by destruct Hl; left|by destruct Hn; left].
Qed.

(** C37. A routed subscription is opened on all the routes the policy admits
    or on none: it succeeds exactly when the window is positive, the policy
    answers for every route and every admitted route can be subscribed;
    then each admitted route is opened once, in order. When the policy
    fails no route is touched, and when a subscription fails every route
    opened before it is closed again. *)
Theorem subscribe_routes_all_or_nothing routes filters policy options log :
  let allowed := filter (λ s, admitted policy options s = true) routes in
  match subscribe_routes_with_policy routes filters policy options log with
  | (Ok s, log') =>
      0 < lo_max_seen_events options ∧
      Forall (λ s, is_ok (live_decision policy options s) = true) routes ∧
      Forall2 (opens filters) allowed (ls_subscriptions s) ∧
      ls_route_ids s = open_ids allowed ∧
      ls_seen s = seen_new (lo_max_seen_events options) ∧
      log' = log ++ (Opened <$> open_ids allowed)
  | (Err error, log') =>
      (log' = log ∧ (lo_max_seen_events options = 0 ∨
        Exists (λ s, is_ok (live_decision policy options s) = false) routes)) ∨
      ∃ before failing after error0,
        allowed = before ++ failing :: after ∧ ls_subscribe failing filters = Err error0 ∧
        log' = log ++ (Opened <$> open_ids before) ++ (ClosedRoute <$> open_ids before)
  end.
Proof.
  intros allowed. unfold subscribe_routes_with_policy. case_decide as Hmax; [by left; auto|].
  se_unfold. destruct (live_allowed policy options routes) as [al|e] eqn:Hal.
  - apply live_allowed_Ok in Hal as [Hok ->]. fold allowed.
    pose proof (open_routes_spec allowed filters [] [] log) as Hopen.
    destruct (open_routes allowed filters [] log) as [[active|e] log']; simpl.
    + destruct Hopen as [Hall ->]; [constructor|]. simpl in Hall. split_and!; [lia|done|done| |done|done].
      clearbody allowed. induction Hall as [|x y xs ys [Hid _] _ IH]; [done|]. csimpl.
      by rewrite Hid, IH.
    + right. by apply Hopen.
  - left. split; [done|]. right. apply dec_stable. intros Hno.
    enough (live_allowed policy options routes = Ok allowed) by congruence.
    apply live_allowed_Ok. split; [|done]. apply not_Exists_Forall in Hno; [|apply _].
    eapply Forall_impl; [exact Hno|]. intros s. simpl. by destruct (live_decision _ _ s).
Qed.
End live_props.
