(* ===== verification/Router.v ===== *)
(** * The router

    crates/nostr-pubsub/src/router.rs: the provider that owns query, publish
    and live sources and one policy. Queries and subscriptions are those of
    Routes and LiveRoutes over its own sources; a publication goes to every
    publish source the policy admits. The publishers called are logged. *)

From S2P Require Export LiveRoutes.

Section router.
Context `{!Nostr}.

Record RouterPublishSource : Type := mkPublishSource {
  ps_route : SourceRoute;
  ps_publisher : VerifiedEvent → EventSource → res PublishReport;
}.
Record NostrPubsubRouter : Type := mkRouter {
  nr_policy : PubsubPolicy;
  nr_query_sources : list RouteQuerySource;
  nr_publish_sources : list RouterPublishSource;
  nr_live_sources : list LiveRouteSource;
}.
Definition router_new (policy : PubsubPolicy) : NostrPubsubRouter := mkRouter policy [] [] [].
Definition with_query_source (source : RouteQuerySource) (r : NostrPubsubRouter)
    : NostrPubsubRouter :=
  mkRouter (nr_policy r) (nr_query_sources r ++ [source]) (nr_publish_sources r)
    (nr_live_sources r).
Definition with_publish_source (source : RouterPublishSource) (r : NostrPubsubRouter)
    : NostrPubsubRouter :=
  mkRouter (nr_policy r) (nr_query_sources r) (nr_publish_sources r ++ [source])
    (nr_live_sources r).
Definition with_live_source (source : LiveRouteSource) (r : NostrPubsubRouter)
    : NostrPubsubRouter :=
  mkRouter (nr_policy r) (nr_query_sources r) (nr_publish_sources r)
    (nr_live_sources r ++ [source]).
Definition router_mode (r : NostrPubsubRouter) : PubsubProviderMode := Router.

Definition query_with_context (filters : list Filter) (options : QueryOptions)
    (author_pubkey : option string) (capabilities : option (list string))
    (r : NostrPubsubRouter) : res RoutedQueryReport :=
  query_routes_with_policy (nr_query_sources r) filters options author_pubkey (nr_policy r)
    capabilities.
Definition as_plain_event (e : RoutedQueryEvent) : QueryEvent :=
  mkQueryEvent (rq_event e) (rq_source e) (rq_priority e).
Definition router_query (filters : list Filter) (options : QueryOptions)
    (r : NostrPubsubRouter) : res QueryReport :=
  report ← query_with_context filters options None None r;
  Ok (mkQueryReport (as_plain_event <$> rr_events report)).

Definition subscribe_with_options (filters : list Filter) (options : RoutedLiveOptions)
    (r : NostrPubsubRouter) : SE (list LiveEffect) PubsubError RoutedLiveSubscription :=
  subscribe_routes_with_policy (nr_live_sources r) filters (nr_policy r) options.
(** [RouterEventSubscription.inner]. *)
Definition router_subscribe (filters : list Filter) (r : NostrPubsubRouter)
    : SE (list LiveEffect) PubsubError (option RoutedLiveSubscription) :=
  subscription ← subscribe_with_options filters live_options_default r;
  mret (Some subscription).
Definition router_delivery_status (inner : option RoutedLiveSubscription)
    : option SubscriptionDeliveryStatus := inner ≫= live_delivery_status.
Definition router_close (inner : option RoutedLiveSubscription)
    : SE (list LiveEffect) PubsubError unit :=
  match inner with
  | Some subscription => (live_close subscription).1
  | None => mret tt
  end.

(** ** Publishing *)
Record PublishTally : Set := mkTally {
  ta_accepted : N;
  ta_attempted : N;
  ta_priority : Z;
  ta_failures : list string;
}.
Definition tally_start : PublishTally := mkTally 0 0 i32_min [].
Definition tally_outcome (route_id : string) (outcome : res PublishReport) (t : PublishTally)
    : PublishTally :=
  let attempted := ta_attempted t + 1 in
  match outcome with
  | Ok report =>
      if pr_accepted report then
        mkTally (ta_accepted t + 1) attempted (Z.max (ta_priority t) (pr_priority report))
          (ta_failures t)
      else mkTally (ta_accepted t) attempted (ta_priority t)
        (ta_failures t ++ [route_id +:+ ": " +:+ default "rejected" (pr_reason report)])
  | Err error => mkTally (ta_accepted t) attempted (ta_priority t)
      (ta_failures t ++ [route_id +:+ ": " +:+ error_to_string error])
  end.
Definition publish_decision (policy : PubsubPolicy) (target : RouterPublishSource)
    : res PolicyDecision :=
  check_source policy (route_candidate (ps_route target)) None
    (sr_capabilities (ps_route target)).
Fixpoint publish_loop (policy : PubsubPolicy) (targets : list RouterPublishSource)
    (event : VerifiedEvent) (source : EventSource) (t : PublishTally)
    : SE (list string) PubsubError PublishTally := λ log,
  match targets with
  | [] => (Ok t, log)
  | target :: rest =>
      match publish_decision policy target with
      | Err e => (Err e, log)
      | Ok decision =>
          if is_drop decision then publish_loop policy rest event source t log
          else
            let route_id := sr_id (ps_route target) in
            publish_loop policy rest event source
              (tally_outcome route_id (ps_publisher target event source) t)
              (log ++ [route_id])
      end
  end.
Definition tally_report (t : PublishTally) : PublishReport :=
  let reason :=
    if decide (ta_failures t = []) then None
    else Some (join_strings "; " (ta_failures t)) in
  mkPublishReport (bool_decide (0 < ta_accepted t))
    (if decide (0 < ta_accepted t) then ta_priority t else 0%Z)
    (match reason with
     | Some reason => Some reason
     | None =>
         if decide (ta_attempted t = 0) then Some "no publish route was selected"%string
         else None
     end).
Definition publish_to_routes (event : VerifiedEvent) (source : EventSource)
    (r : NostrPubsubRouter) : SE (list string) PubsubError PublishReport :=
  t ← publish_loop (nr_policy r) (nr_publish_sources r) event source tally_start;
  mret (tally_report t).
End router.

(** ** Theorems *)
Section router_props.
Context `{!Nostr}.
Context (policy : PubsubPolicy) (event : VerifiedEvent) (source : EventSource).

Definition selected (target : RouterPublishSource) : bool :=
  match publish_decision policy target with
  | Ok decision => negb (is_drop decision)
  | Err _ => false
  end.
Definition accepts_publish (target : RouterPublishSource) (priority : Z) : Prop :=
  ∃ report, ps_publisher target event source = Ok report ∧ pr_accepted report = true ∧
    pr_priority report = priority.

(** What a tally knows of the publishers called so far. *)
Record tally_inv (called : list RouterPublishSource) (t : PublishTally) : Prop := {
  ti_attempted : ta_attempted t = nlen called;
  ti_accepted : 0 < ta_accepted t ↔ ∃ target p, target ∈ called ∧ accepts_publish target p;
  ti_best : ∀ target p, target ∈ called → accepts_publish target p → (p ≤ ta_priority t)%Z;
  ti_priority : ta_priority t = i32_min ∨
    ∃ target, target ∈ called ∧ accepts_publish target (ta_priority t);
  ti_failures : ta_failures t = [] ↔
    ∀ target, target ∈ called → ∃ p, accepts_publish target p;
}.
Lemma tally_inv_start : tally_inv [] tally_start.
Proof.
  split; simpl; [done| |by intros ? ? ?%not_elem_of_nil|by left|].
  - split; [lia|]. by intros (? & ? & ?%not_elem_of_nil & _).
  - split; [|done]. by intros _ ? ?%not_elem_of_nil.
Qed.

Lemma tally_inv_step called target t :
  tally_inv called t →
  tally_inv (called ++ [target])
    (tally_outcome (sr_id (ps_route target)) (ps_publisher target event source) t).
Proof.
  intros [Hat Hac Hbest Hp Hf].
  assert ((∃ p, accepts_publish target p) ∨ ∀ p, ¬ accepts_publish target p) as Hcase.
  { unfold accepts_publish. destruct (ps_publisher target event source) as [rep|]; [|naive_solver].
    destruct (pr_accepted rep) eqn:?; [left; eauto|right; naive_solver congruence]. }
  destruct Hcase as [[p Hacc]|Hno].
  - pose proof Hacc as (rep & Hrep & Hok & Hpr). unfold tally_outcome. rewrite Hrep, Hok, Hpr.
    assert (∀ p', accepts_publish target p' → p' = p) as Huniq.
    { intros p' (rep' & Hrep' & _ & <-). rewrite Hrep in Hrep'. by injection Hrep' as <-. }
    split; simpl.
    + rewrite nlen_app, Hat. done.
    + split; [|lia]. intros _. exists target, p. split; [set_solver|done].
    + intros x q. rewrite elem_of_app, list_elem_of_singleton. intros [Hx| ->] Hq.
      * specialize (Hbest x q Hx Hq). lia.
      * apply Huniq in Hq as ->. lia.
    + destruct (Z.max_spec (ta_priority t) p) as [[_ ->]|[_ ->]].
      * right. exists target. split; [set_solver|done].
      * destruct Hp as [|(x & Hx & Hq)]; [by left|right]. exists x. split; [set_solver|done].
    + rewrite Hf. setoid_rewrite elem_of_app. setoid_rewrite list_elem_of_singleton. naive_solver.
  - assert (∃ why, tally_outcome (sr_id (ps_route target)) (ps_publisher target event source) t
      = mkTally (ta_accepted t) (ta_attempted t + 1) (ta_priority t) (ta_failures t ++ [why]))
      as [why ->].
    { unfold tally_outcome. destruct (ps_publisher target event source) as [rep|] eqn:Hrep; [|eauto].
      destruct (pr_accepted rep) eqn:Hok; [|eauto]. exfalso. apply (Hno (pr_priority rep)).
      by exists rep. }
    split; simpl.
    + rewrite nlen_app, Hat. done.
    + rewrite Hac. setoid_rewrite elem_of_app. setoid_rewrite list_elem_of_singleton. naive_solver.
    + intros x q. rewrite elem_of_app, list_elem_of_singleton. naive_solver.
    + destruct Hp as [|(x & Hx & Hq)]; [by left|right]. exists x. split; [set_solver|done].
    + split; [by intros []%app_eq_nil|]. intros Hall.
      destruct (Hall target) as [p ?]; [set_solver|]. by destruct (Hno p).
Qed.

Definition publish_ids (targets : list RouterPublishSource) : list string :=
  (λ target, sr_id (ps_route target)) <$> targets.
Lemma publish_loop_spec targets called t log :
  tally_inv called t →
  match publish_loop policy targets event source t log with
  | (Ok t', log') =>
      Forall (λ x, is_ok (publish_decision policy x) = true) targets ∧
      tally_inv (called ++ filter (λ x, selected x = true) targets) t' ∧
      log' = log ++ publish_ids (filter (λ x, selected x = true) targets)
  | (Err e, log') => ∃ before failing after, targets = before ++ failing :: after ∧
      publish_decision policy failing = Err e ∧
      log' = log ++ publish_ids (filter (λ x, selected x = true) before)
  end.
Proof.
  revert called t log. induction targets as [|x targets IH]; intros called t log Ht; simpl.
  { by rewrite !app_nil_r. }
  destruct (publish_decision policy x) as [d|e] eqn:Hd; cycle 1.
  { exists [], x, targets. by rewrite app_nil_r. }
  assert (selected x = negb (is_drop d)) as Hsel by (unfold selected; by rewrite Hd).
  destruct (is_drop d); simpl in *.
  - specialize (IH called t log Ht).
    destruct (publish_loop _ _ _ _ t log) as [[t'|e] log'].
    + rewrite filter_cons_False, Forall_cons, Hd by congruence. tauto.
    + destruct IH as (b & f & a & -> & ? & ->). exists (x :: b), f, a.
      by rewrite filter_cons_False by congruence.
  - specialize (IH _ _ (log ++ [sr_id (ps_route x)]) (tally_inv_step called x t Ht)).
    destruct (publish_loop _ _ _ _ _ _) as [[t'|e] log'].
    + rewrite filter_cons_True, Forall_cons, Hd by done. csimpl.
      rewrite <-!(assoc_L (++)) in IH. tauto.
    + destruct IH as (b & f & a & -> & ? & ->). exists (x :: b), f, a.
      rewrite filter_cons_True by done. csimpl. by rewrite <-!(assoc_L (++)).
Qed.

(** A publication goes to every publish source the policy selects,
    once and in order, whatever the earlier ones answered. It is accepted
    exactly when one of them accepts; its priority is then the highest
    accepted, else zero; it comes with no reason exactly when some source
    was selected and all selected accepted. It fails only when the policy
    does, after calling the sources selected before that. *)
Theorem publish_to_routes_spec query_sources publish_sources live_sources log :
  let r := mkRouter policy query_sources publish_sources live_sources in
  let called := filter (λ x, selected x = true) publish_sources in
  match publish_to_routes event source r log with
  | (Ok report, log') =>
      log' = log ++ publish_ids called ∧
      (pr_accepted report = true ↔ ∃ target p, target ∈ called ∧ accepts_publish target p) ∧
      (∀ target p, target ∈ called → accepts_publish target p → (p ≤ pr_priority report)%Z) ∧
      ((∀ target p, accepts_publish target p → (i32_min ≤ p)%Z) → pr_accepted report = true →
        ∃ target, target ∈ called ∧ accepts_publish target (pr_priority report)) ∧
      (pr_accepted report = false → pr_priority report = 0%Z) ∧
      (pr_reason report = None ↔
        called ≠ [] ∧ ∀ target, target ∈ called → ∃ p, accepts_publish target p)
  | (Err e, log') => ∃ before failing after, publish_sources = before ++ failing :: after ∧
      publish_decision policy failing = Err e ∧
      log' = log ++ publish_ids (filter (λ x, selected x = true) before)
  end.
Proof.
  intros r called. unfold publish_to_routes. se_unfold. simpl.
  pose proof (publish_loop_spec publish_sources [] tally_start log tally_inv_start) as Hloop.
  destruct (publish_loop _ _ _ _ _ _) as [[t|e] log']; [|done].
  destruct Hloop as (_ & [Hat Hac Hbest Hp Hf] & ->). simpl in Hat, Hac, Hbest, Hp, Hf.
  fold called in Hat, Hac, Hbest, Hp, Hf |- *. split; [done|].
  unfold tally_report. simpl. split_and!.
  - by rewrite bool_decide_eq_true.
  - intros target p Hin Hp'. rewrite decide_True by (apply Hac; eauto). eauto.
  - intros Hmin Hacc. apply bool_decide_eq_true in Hacc. rewrite decide_True by done.
    apply Hac in Hacc as (target & p & Hin & Hp'). destruct Hp as [Heq|?]; [|done].
    exists target. split; [done|]. rewrite Heq.
    pose proof (Hmin _ _ Hp'). pose proof (Hbest _ _ Hin Hp').
    by replace i32_min with p by lia.
  - intros Hacc. apply bool_decide_eq_false in Hacc. by rewrite decide_False.
  - rewrite <-Hf. assert (ta_attempted t = 0 ↔ called = []) as Hzero.
    { rewrite Hat. destruct called; unfold nlen; simpl; split; (done || lia). }
    repeat case_decide; naive_solver.
Qed.
End router_props.
