(* ===== verification/Relay.v ===== *)
(** * The relay backend

    crates/nostr-pubsub-relay/src/lib.rs: [RelayEventBus], its publication
    reports, queries and live subscriptions with their replay, and session.rs:
    [RelaySession]. The client of nostr_sdk is the class [RelayClient], whose
    state every call passes on. *)

From S2P Require Export Memory.

(** A relay is named by its URL as displayed. [Output] is nostr_sdk's. *)
Notation RelayUrl := string (only parsing).
Notation SubscriptionId := string (only parsing).
Record Output (A : Type) : Type := mkOutput {
  out_val : A;
  out_success : gset RelayUrl;
  out_failed : gmap RelayUrl string;
}.
Arguments mkOutput {_}.
Arguments out_val {_}.
Arguments out_success {_}.
Arguments out_failed {_}.

(** [MachineReadablePrefix] of nostr: whether it is [Duplicate]. *)
Class RelayPrefix : Type := { prefix_parse : string → option bool }.

(** The calls of nostr_sdk's [Client]. The two with a deadline run under
    [tokio::time::timeout]: without an answer, the deadline cut them short. *)
Class RelayClient `{!Nostr} : Type := {
  Client : Type;
  client_add_relay : string → Client → result string unit * Client;
  client_connect : Client → Client;
  client_send_event_to : list string → Event → Client → result string (Output unit) * Client;
  client_fetch_events_from : list string → Filter → N → Client → result string (list Event) * Client;
  client_subscribe_to : list string → Filter → Client → result string (Output SubscriptionId) * Client;
  client_unsubscribe : SubscriptionId → Client → Client;
  client_unsubscribe_within : N → SubscriptionId → Client → option unit * Client;
  client_subscribe_with_id_within :
    N → list string → SubscriptionId → Filter → Client → option (result string (Output unit)) * Client;
}.

(** ** Publication reports *)
Definition ascii_lower (c : Ascii.ascii) : Ascii.ascii :=
  let n := Ascii.N_of_ascii c in
  if bool_decide (65 ≤ n ≤ 90) then Ascii.ascii_of_N (n + 32) else c.
Fixpoint to_ascii_lowercase (s : string) : string :=
  match s with "" => "" | String c s => String (ascii_lower c) (to_ascii_lowercase s) end%string.
Fixpoint trim_end_matches_any (cs : list Ascii.ascii) (s : string) : string :=
  match s with
  | "" => ""
  | String c s =>
      match trim_end_matches_any cs s with
      | "" => if bool_decide (c ∈ cs) then "" else String c ""
      | s => String c s
      end
  end%string.
Definition full_stops : list Ascii.ascii := Ascii.ascii_of_N <$> [46; 33; 59].
Definition already_stored : list string :=
  ["duplicate"; "already have event"; "already have the event"; "already have this event";
   "event already exists"; "event already present"; "event already stored"].

Definition relay_label (count : N) : string := if decide (count = 1) then "relay" else "relays".

Section report.
Context `{!RelayPrefix}.

Definition is_idempotent_rejection (error : string) : bool :=
  let normalized := to_ascii_lowercase (trim_end_matches_any full_stops (Containers.trim error)) in
  match prefix_parse normalized with
  | Some duplicate => duplicate
  | None => bool_decide (normalized ∈ already_stored)
  end.

Definition publish_report {A} (output : Output A) : PublishReport :=
  let accepted_count := ssize (out_success output) in
  let failed_count := msize (out_failed output) in
  let attempted_count := accepted_count + failed_count in
  if decide (0 < accepted_count) then
    mkPublishReport true 0
      (if decide (0 < failed_count) then
         Some ("accepted by " +:+ pretty accepted_count +:+ " of " +:+ pretty attempted_count
           +:+ " relays; " +:+ pretty failed_count +:+ " " +:+ relay_label failed_count +:+ " failed")
       else None)
  else if bool_decide (0 < failed_count)
      && forallb (λ kv, is_idempotent_rejection kv.2) (map_to_list (out_failed output)) then
    mkPublishReport true 0
      (Some ("event already present on all " +:+ pretty failed_count +:+ " " +:+ relay_label failed_count))
  else
    mkPublishReport false 0
      (Some (if decide (attempted_count = 0) then "no relay reported a publish result"
        else
          let failures := sort_by String.compare
            ((λ '(url, error), url +:+ ": " +:+ error) <$> map_to_list (out_failed output)) in
          "0 of " +:+ pretty attempted_count +:+ " relays accepted event: "
            +:+ String.concat "; " failures)).
End report.

(** ** When a live subscription is replayed *)
Definition MIN_DELAY : N := 250.
Definition MAX_DELAY : N := 30000.
Record LiveReplay : Set := mkReplay { lr_due : option N; lr_last_gap : option N; lr_delay : N }.
Definition live_replay_default : LiveReplay := mkReplay None None MIN_DELAY.
Definition gap (now : N) (r : LiveReplay) : LiveReplay :=
  let delay :=
    match lr_last_gap r with
    | Some last => if decide (MAX_DELAY * 2 ≤ now - last) then MIN_DELAY else lr_delay r
    | None => MIN_DELAY
    end in
  mkReplay (Some (default (now + delay) (lr_due r))) (Some now) delay.
Definition attempted (now : N) (restored : bool) (r : LiveReplay) : LiveReplay :=
  let delay := N.min (lr_delay r * 2) MAX_DELAY in
  mkReplay (if restored then None else Some (now + delay)) (lr_last_gap r) delay.

(** ** The event bus *)
Section bus.
Context `{!Nostr, !RelayPrefix, !RelayClient, !HashOrder}.

Record RelayEventBus : Type := mkRelayBus {
  rb_client : Client;
  rb_relays : list string;
  rb_query_timeout : N;
}.
Implicit Types c : Client.

Fixpoint add_relays (relays : list string) : SE Client PubsubError unit :=
  match relays with
  | [] => mret tt
  | relay :: relays => λ c,
      match client_add_relay relay c with
      | (Err error, c) => (Err (Storage ("add relay " +:+ relay +:+ ": " +:+ error)), c)
      | (Ok _, c) => add_relays relays c
      end
  end.
Definition with_client (client : Client) (relays : list string) (query_timeout : N) : res RelayEventBus :=
  match relays with
  | [] => Err (Validation "relay event bus requires at least one relay")
  | _ =>
      let '(r, c) := add_relays relays client in
      _ ← r;
      Ok (mkRelayBus (client_connect c) relays query_timeout)
  end.

(** A bus with its client's state. The client is shared by handle. *)
Notation Bus := (SE RelayEventBus PubsubError).
Definition set_rb_client c (b : RelayEventBus) : RelayEventBus :=
  mkRelayBus c (rb_relays b) (rb_query_timeout b).
Definition enqueue (event : VerifiedEvent) : Bus PublishReport := λ b,
  let '(r, c) := client_send_event_to (rb_relays b) (as_event event) (rb_client b) in
  (publish_report <$> map_err (λ e, Storage ("queue event for relays: " +:+ e)) r, set_rb_client c b).

(** [query]: the events of one fetch, then those of every filter. *)
Definition relay_source (relays : list string) : EventSource :=
  EventSources.relay (String.concat "," relays).
Fixpoint take_fetched (source : EventSource) (filter : Filter) (fetched : list Event)
    (seen : gset EventId) (events : list QueryEvent) : res (gset EventId * list QueryEvent) :=
  match fetched with
  | [] => Ok (seen, events)
  | event :: fetched =>
      if negb (filter_match filter event) then take_fetched source filter fetched seen events
      else
        event ← verified_try_from event;
        let id := event_id (as_event event) in
        if decide (id ∈ seen) then take_fetched source filter fetched seen events
        else take_fetched source filter fetched ({[id]} ∪ seen)
               (events ++ [mkQueryEvent event source SOURCE_PRIORITY_RELAY])
  end.
Fixpoint fetch_all (filters : list Filter) (seen : gset EventId) (events : list QueryEvent)
    : Bus (list QueryEvent) :=
  match filters with
  | [] => mret events
  | filter :: filters => λ b,
      let '(r, c) := client_fetch_events_from (rb_relays b) filter (rb_query_timeout b) (rb_client b) in
      let b := set_rb_client c b in
      match (fetched ← map_err (λ e, Storage ("fetch relay events: " +:+ e)) r;
             take_fetched (relay_source (rb_relays b)) filter fetched seen events) with
      | Err e => (Err e, b)
      | Ok (seen, events) => fetch_all filters seen events b
      end
  end.
Definition query_order : QueryEvent → QueryEvent → comparison :=
  cmp_on (λ q, as_event (qe_event q)) newest_first.
Definition relay_query (filters : list Filter) (options : QueryOptions) : Bus QueryReport :=
  events ← fetch_all (effective_filters filters) ∅ [];
  mret (mkQueryReport (take (N.to_nat (default usize_max (qo_limit options)))
                        (sort_by query_order events))).

(** ** Live subscriptions *)
Fixpoint unsubscribe_all (ids : list SubscriptionId) c : Client :=
  match ids with [] => c | id :: ids => unsubscribe_all ids (client_unsubscribe id c) end.
Definition unsubscribe_pairs (subscriptions : list (SubscriptionId * Filter)) : Client → Client :=
  unsubscribe_all subscriptions.*1.
Fixpoint subscribe_each (relays : list string) (filters : list Filter)
    (subscriptions : list (SubscriptionId * Filter))
    : SE Client PubsubError (list (SubscriptionId * Filter)) :=
  match filters with
  | [] => mret subscriptions
  | filter :: filters => λ c,
      match client_subscribe_to relays filter c with
      | (Err error, c) =>
          (Err (Storage ("subscribe to configured relays: " +:+ error)), unsubscribe_pairs subscriptions c)
      | (Ok output, c) =>
          if decide (out_success output = ∅) then
            (Err (Storage "no configured relay accepted live subscription"), unsubscribe_pairs subscriptions c)
          else subscribe_each relays filters (subscriptions ++ [(out_val output, filter)]) c
      end
  end.

(** The task behind a subscription: its state, and the handler's. *)
Context {HS : Type} (handler : QueryEvent → HS → bool * HS).
Record LiveTask : Type := mkTask {
  lt_client : Client;
  lt_relays : list string;
  lt_watched : gmap SubscriptionId Filter;
  lt_timeout : N;
  lt_replay : LiveReplay;
  lt_verification : EventVerificationCache;
  lt_handler : HS;
}.
Definition set_lt_replay v t : LiveTask :=
  mkTask (lt_client t) (lt_relays t) (lt_watched t) (lt_timeout t) v (lt_verification t) (lt_handler t).
Definition subscribe_with_admission (filters : list Filter) (h : HS) (b : RelayEventBus)
    : res (LiveTask * list SubscriptionId) * RelayEventBus :=
  let '(r, c) := subscribe_each (rb_relays b) (effective_filters filters) [] (rb_client b) in
  (subscriptions ← r;
   Ok (mkTask c (rb_relays b) (list_to_map (reverse subscriptions)) (rb_query_timeout b)
         live_replay_default verification_cache_default h, subscriptions.*1),
   set_rb_client c b).

(** One intent: its [REQ] is withdrawn and sent again, before the deadline. *)
Definition replay_one (relays : list string) (deadline : N) (id : SubscriptionId) (filter : Filter) c
    : bool * Client :=
  match client_unsubscribe_within deadline id c with
  | (None, c) => (false, c)
  | (Some _, c) =>
      let '(r, c) := client_subscribe_with_id_within deadline relays id filter c in
      (match r with
       | Some (Ok output) => bool_decide (out_success output ≠ ∅) && bool_decide (out_failed output = ∅)
       | _ => false
       end, c)
  end.
Fixpoint replay_each (relays : list string) (deadline : N) (subscriptions : list (SubscriptionId * Filter)) c
    : bool * Client :=
  match subscriptions with
  | [] => (true, c)
  | (id, filter) :: subscriptions =>
      let '(restored, c) := replay_one relays deadline id filter c in
      let '(rest, c) := replay_each relays deadline subscriptions c in
      (restored && rest, c)
  end.
Definition replay_live_subscriptions (relays : list string) (subscriptions : gmap SubscriptionId Filter)
    (deadline : N) c : bool * Client :=
  replay_each relays deadline (hash_iter subscriptions) c.

(** What [notifications.recv()] answers, as far as the task tells apart. *)
Inductive Notification : Type :=
  | RelayEvent (relay_url : RelayUrl) (subscription_id : SubscriptionId) (event : Event)
  | PoolShutdown
  | RecvClosed
  | RecvLagged (count : N)
  | OtherNotification.
(** The task's turn with a notification; [None] when it ends. *)
Definition on_notification (n : Notification) (now : N) t : option LiveTask :=
  match n with
  | RelayEvent relay_url subscription_id event =>
      match lt_watched t !! subscription_id with
      | None => Some t
      | Some filter =>
          if negb (filter_match filter event) then Some t
          else
            let '(r, verification) := cache_verify event (lt_verification t) in
            let t := mkTask (lt_client t) (lt_relays t) (lt_watched t) (lt_timeout t) (lt_replay t)
                       verification (lt_handler t) in
            match r with
            | Err _ => Some t
            | Ok event =>
                let '(handled, h) :=
                  handler (mkQueryEvent event (EventSources.relay relay_url) SOURCE_PRIORITY_RELAY)
                    (lt_handler t) in
                let t := mkTask (lt_client t) (lt_relays t) (lt_watched t) (lt_timeout t) (lt_replay t)
                           (lt_verification t) h in
                Some (if handled then t else set_lt_replay (gap now (lt_replay t)) t)
            end
      end
  | PoolShutdown | RecvClosed => None
  | RecvLagged _ => Some (set_lt_replay (gap now (lt_replay t)) t)
  | OtherNotification => Some t
  end.
(** The turn of the replay timer, whose replay ends at [now]. *)
Definition on_replay_due (now : N) t : LiveTask :=
  let '(restored, c) := replay_live_subscriptions (lt_relays t) (lt_watched t) (lt_timeout t) (lt_client t) in
  mkTask c (lt_relays t) (lt_watched t) (lt_timeout t) (attempted now restored (lt_replay t))
    (lt_verification t) (lt_handler t).

(** [close]: the task is over before the subscriptions are withdrawn. *)
Definition relay_close (ids : list SubscriptionId) c : Client := unsubscribe_all ids c.
End bus.


(** ** Sessions with one relay (session.rs) *)
(** [RelayStatus] and [RelayMessage] of nostr_sdk, as far as the session tells
    them apart. *)
Inductive RelayStatus : Set := StConnected | StDisconnected | StTerminated | StBanned | StOther.
#[export] Instance RelayStatus_eq_dec : EqDecision RelayStatus.
Proof. solve_decision. Defined.
Section session.
Context `{!Nostr}.
Inductive RelayMessage : Type := MsgEvent (subscription_id : SubscriptionId) (event : Event) | MsgOther (text : string).
Inductive RelaySessionEvent : Type :=
  | SessionConnection (connected : bool)
  | SessionMessage (message : RelayMessage)
  | SessionLagged (count : N).
(** What [notifications.recv()] answers. *)
Inductive SessionNotification : Type :=
  | SnStatus (status : RelayStatus)
  | SnMessage (message : RelayMessage)
  | SnShutdown
  | SnClosed
  | SnLagged (count : N)
  | SnOther.
(** [next] over what arrives: its answer, whether the session knows itself
    connected, and the rest; [None] while it still waits. *)
Fixpoint session_next (arriving : list SessionNotification) (connected : bool)
    : option (option RelaySessionEvent * bool * list SessionNotification) :=
  match arriving with
  | [] => None
  | SnStatus status :: arriving =>
      let now_connected := bool_decide (status = StConnected) in
      if (now_connected && negb connected)
        || bool_decide (status ∈ [StDisconnected; StTerminated; StBanned]) then
        Some (Some (SessionConnection now_connected), now_connected, arriving)
      else session_next arriving connected
  | SnMessage message :: arriving =>
      match message with
      | MsgEvent _ event =>
          if is_ok (verified_try_from event) then Some (Some (SessionMessage message), connected, arriving)
          else session_next arriving connected
      | MsgOther _ => Some (Some (SessionMessage message), connected, arriving)
      end
  | (SnShutdown | SnClosed) :: arriving => Some (None, connected, arriving)
  | SnLagged count :: arriving => Some (Some (SessionLagged count), connected, arriving)
  | SnOther :: arriving => session_next arriving connected
  end.

(** [send]: what is handed to the relay. *)
Inductive ClientMessage : Type :=
  | CmReq (subscription_id : SubscriptionId) (filters : list Filter)
  | CmClose (subscription_id : SubscriptionId)
  | CmEvent (event : Event)
  | CmAuth (event : Event)
  | CmOther (text : string).
Inductive RelayCall : Type :=
  | CallSubscribe (subscription_id : SubscriptionId) (filters : list Filter)
  | CallUnsubscribe (subscription_id : SubscriptionId)
  | CallSend (message : ClientMessage).
Definition transport_error (error : string) : PubsubError := Storage ("relay session: " +:+ error).
Definition session_call (message : ClientMessage) : res RelayCall :=
  match message with
  | CmReq subscription_id filters => Ok (CallSubscribe subscription_id filters)
  | CmClose id => Ok (CallUnsubscribe id)
  | CmEvent event | CmAuth event =>
      _ ← verified_try_from event;
      Ok (CallSend message)
  | CmOther _ => Ok (CallSend message)
  end.
(** The relay's answer to the call. *)
Definition session_send (message : ClientMessage) (relay : RelayCall → result string unit)
    : list RelayCall * res unit :=
  match session_call message with
  | Err e => ([], Err e)
  | Ok call => ([call], map_err transport_error (relay call))
  end.
End session.
