(* ===== verification/RelayProps.v ===== *)
(** * The relay backend: theorems

    Publication reports, queries and live subscriptions of Relay.v: what a task
    hands to its handler, that it holds its subscriptions or replays them, and
    that it paces its replays. *)

From stdpp Require Import fin_sets.
From S2P Require Export Relay.

(** What the code relies on: the subscriptions a client holds on its relays. *)
Class RelayClientLaws `{!Nostr} (RC : RelayClient) : Type := {
  client_subscriptions : Client → gset SubscriptionId;
  client_unsubscribe_spec id c :
    client_subscriptions (client_unsubscribe id c) = client_subscriptions c ∖ {[id]};
  (** A new identifier, unless no relay took it. *)
  client_subscribe_to_spec relays f c :
    let '(r, c') := client_subscribe_to relays f c in
    match r with
    | Ok output =>
        if decide (out_success output = ∅) then client_subscriptions c' = client_subscriptions c
        else out_val output ∉ client_subscriptions c ∧
             client_subscriptions c' = {[out_val output]} ∪ client_subscriptions c
    | Err _ => client_subscriptions c' = client_subscriptions c
    end;
  (** A deadline may cut a call anywhere. *)
  client_unsubscribe_within_spec d id c :
    client_subscriptions c ∖ {[id]} ⊆ client_subscriptions (client_unsubscribe_within d id c).2;
  client_subscribe_with_id_within_spec d relays id f c :
    let '(r, c') := client_subscribe_with_id_within d relays id f c in
    client_subscriptions c ⊆ client_subscriptions c' ∧
    ∀ output, r = Some (Ok output) → out_success output ≠ ∅ → id ∈ client_subscriptions c';
}.

(** ** Publication reports *)
Section reports.
Context `{!RelayPrefix}.

(** A publication is reported as accepted exactly when some relay took it,
    or when some refused it and every one because it has the event already; a
    report without a reason means that every relay took it. *)
Theorem publish_report_spec {A} (output : Output A) :
  let report := publish_report output in
  (pr_accepted report = true ↔
    out_success output ≠ ∅ ∨
    out_failed output ≠ ∅ ∧
    ∀ url error, out_failed output !! url = Some error → is_idempotent_rejection error = true) ∧
  (pr_reason report = None ↔ out_success output ≠ ∅ ∧ out_failed output = ∅) ∧
  pr_priority report = 0%Z.
Proof.
  unfold publish_report.
  assert (0 < ssize (out_success output) ↔ out_success output ≠ ∅) as Hs.
  { unfold ssize. pose proof (size_non_empty_iff (out_success output)) as Hne. unfold_leibniz. rewrite <-Hne. lia. }
  assert (0 < msize (out_failed output) ↔ out_failed output ≠ ∅) as Hf.
  { unfold msize. rewrite <-map_size_non_empty_iff. lia. }
  set (idem := forallb _ _).
  assert (idem = true ↔ ∀ url error, out_failed output !! url = Some error →
    is_idempotent_rejection error = true) as Hi.
  { unfold idem. rewrite forallb_forall. setoid_rewrite <-list_elem_of_In. split.
    - intros Hall url error Hl. by apply (Hall (url, error)), elem_of_map_to_list.
    - intros Hall [url error] Hin%elem_of_map_to_list. by apply (Hall url). }
  assert (out_failed output = ∅ ↔ ¬ 0 < msize (out_failed output)) as He.
  { rewrite Hf. destruct (decide (out_failed output = ∅)); tauto. }
  clearbody idem. rewrite <-Hi, <-Hs, He. clear Hi Hs Hf He. destruct (decide (0 < ssize (out_success output))) as [Hacc|Hacc].
  - destruct (decide (0 < msize (out_failed output))) as [Hfail|Hfail]; simpl; intuition congruence.
  - destruct (bool_decide_reflect (0 < msize (out_failed output))) as [Hfail|Hfail]; simpl;
      [destruct idem; simpl|]; intuition congruence.
Qed.
End reports.

(** ** Queries *)
Section queries.
Context `{!Nostr, !RelayPrefix, !RelayClient}.

(** The relays' answers to the fetches of a query. *)
Fixpoint fetches (filters : list Filter) (b : RelayEventBus) : list (result string (list Event)) :=
  match filters with
  | [] => []
  | f :: filters =>
      let '(r, c) := client_fetch_events_from (rb_relays b) f (rb_query_timeout b) (rb_client b) in
      r :: fetches filters (set_rb_client c b)
  end.
(** An answer that a query can use: what matches is verified. *)
Definition usable (f : Filter) (r : result string (list Event)) : Prop :=
  ∃ fetched, r = Ok fetched ∧ ∀ e, e ∈ fetched → filter_match f e = true → verified e.
Definition query_id (q : QueryEvent) : EventId := event_id (as_event (qe_event q)).
Record collected (source : EventSource) (seen : gset EventId) (events : list QueryEvent) : Prop := {
  co_seen : seen = list_to_set (query_id <$> events);
  co_distinct : NoDup (query_id <$> events);
  co_each : Forall (λ q, verified (as_event (qe_event q)) ∧ qe_source q = source ∧
              qe_priority q = SOURCE_PRIORITY_RELAY) events;
}.
Lemma fetched_snoc source seen events e :
  collected source seen events → verified e → event_id e ∉ seen →
  collected source ({[event_id e]} ∪ seen)
    (events ++ [mkQueryEvent (mkVerifiedEvent e) source SOURCE_PRIORITY_RELAY]).
Proof.
  intros [-> Hnd Heach] Hv Hnew. rewrite elem_of_list_to_set in Hnew. split.
  - rewrite fmap_app, list_to_set_app_L. csimpl. set_solver.
  - rewrite fmap_app. apply NoDup_app. split_and!; [done| |apply NoDup_singleton].
    by intros i Hi ->%list_elem_of_singleton.
  - apply Forall_app. split; [done|]. by repeat constructor.
Qed.
Lemma take_fetched_spec source f fetched seen events :
  collected source seen events →
  match take_fetched source f fetched seen events with
  | Ok (seen', events') =>
      (∀ e, e ∈ fetched → filter_match f e = true → verified e) ∧ collected source seen' events' ∧
      ∀ i, i ∈ seen' ↔ i ∈ seen ∨ ∃ e, e ∈ fetched ∧ filter_match f e = true ∧ event_id e = i
  | Err _ => ¬ ∀ e, e ∈ fetched → filter_match f e = true → verified e
  end.
Proof.
  revert seen events. induction fetched as [|e fetched IH]; intros seen events Hc; simpl.
  { split_and!; [by intros ? ?%elem_of_nil|done|]. set_solver. }
  destruct (filter_match f e) eqn:Hm; simpl; cycle 1.
  { specialize (IH seen events Hc). destruct (take_fetched _ _ _ _ _) as [[seen' events']|].
    - destruct IH as (Hv & Hc' & Hi). split_and!; [|done|intros i; rewrite Hi]; setoid_rewrite elem_of_cons; naive_solver congruence.
    - intros Hall. apply IH. intros e' He'. apply Hall. by right. }
  destruct (verified_try_from e) as [v|err] eqn:Hv; simpl; cycle 1.
  { intros Hall. specialize (Hall e ltac:(set_solver) Hm).
    unfold verified_try_from, verified in *. by rewrite Hall in Hv. }
  apply verified_try_from_Ok in Hv as [-> Hv]. simpl.
  case_decide as Hseen.
  - specialize (IH seen events Hc). destruct (take_fetched _ _ _ _ _) as [[seen' events']|].
    + destruct IH as (Hall & Hc' & Hi). split_and!; [|done|intros i; rewrite Hi]; setoid_rewrite elem_of_cons; naive_solver congruence.
    + intros Hall. apply IH. intros e' He'. apply Hall. by right.
  - pose proof (fetched_snoc source seen events e Hc Hv Hseen) as Hc1. apply IH in Hc1 as Hspec.
    destruct (take_fetched _ _ _ _ _) as [[seen' events']|].
    + destruct Hspec as (Hall & Hc' & Hi).
      split_and!; [|done|intros i; rewrite Hi, elem_of_union, elem_of_singleton];
        setoid_rewrite elem_of_cons; naive_solver congruence.
    + intros Hall. apply Hspec. intros e' He'. apply Hall. by right.
Qed.

(** What the answers hold for a query. *)
Definition answered (filters : list Filter) (answers : list (result string (list Event))) (i : EventId) : Prop :=
  ∃ f fetched e, (f, Ok fetched) ∈ zip filters answers ∧ e ∈ fetched ∧ filter_match f e = true ∧ event_id e = i.
Lemma answered_cons f filters fetched answers i :
  answered (f :: filters) (Ok fetched :: answers) i ↔
    (∃ e, e ∈ fetched ∧ filter_match f e = true ∧ event_id e = i) ∨ answered filters answers i.
Proof.
  unfold answered. simpl. split.
  - intros (f' & fetched' & e & [[= -> ->]|Hin]%elem_of_cons & He); [left; by exists e|right].
    by exists f', fetched', e.
  - intros [(e & He)|(f' & fetched' & e & Hin & He)]; [exists f, fetched, e|exists f', fetched', e];
      rewrite elem_of_cons; tauto.
Qed.
Lemma fetch_all_spec filters seen events b :
  collected (relay_source (rb_relays b)) seen events →
  match (fetch_all filters seen events b).1 with
  | Ok events' => Forall2 usable filters (fetches filters b) ∧
      ∃ seen', collected (relay_source (rb_relays b)) seen' events' ∧
        ∀ i, i ∈ seen' ↔ i ∈ seen ∨ answered filters (fetches filters b) i
  | Err _ => ¬ Forall2 usable filters (fetches filters b)
  end.
Proof.
  revert seen events b. induction filters as [|f filters IH]; intros seen events b Hc; simpl.
  { split; [constructor|]. exists seen. split; [done|]. intros i. split; [by left|].
    intros [?|(?&?&?&?%elem_of_nil&?)]; done. }
  destruct (client_fetch_events_from _ _ _ _) as [[fetched|err] c]; simpl; cycle 1.
  { intros [(? & [=] & ?) _]%Forall2_cons. }
  pose proof (take_fetched_spec (relay_source (rb_relays b)) f fetched seen events Hc) as Ht.
  destruct (take_fetched _ _ _ _ _) as [[seen1 events1]|err]; simpl; cycle 1.
  { intros [(? & [= <-] & ?) _]%Forall2_cons. done. }
  destruct Ht as (Hv & Hc1 & Hi1). specialize (IH seen1 events1 (set_rb_client c b) Hc1).
  destruct (fetch_all _ _ _ _) as [[events'|err] b']; simpl in *.
  - destruct IH as (Hu & seen' & Hc' & Hi'). split; [by constructor; [exists fetched|]|].
    exists seen'. split; [done|]. intros i. by rewrite Hi', Hi1, answered_cons, (assoc or).
  - by intros [_ ?]%Forall2_cons.
Qed.

(** C25. A query of the relays answers exactly when every fetch succeeds and all
    matching events are verified; the answer is the newest-first beginning, up
    to the limit, of one list that holds each matching event the relays sent
    once, all of them verified and attributed to the relays. *)
Theorem relay_query_spec `{!NostrLaws _} filters options b :
  let answers := fetches (effective_filters filters) b in
  match (relay_query filters options b).1 with
  | Err _ => ¬ Forall2 usable (effective_filters filters) answers
  | Ok report => Forall2 usable (effective_filters filters) answers ∧
      ∃ full, qr_events report = take (N.to_nat (default usize_max (qo_limit options))) full ∧
        StronglySorted (cmp_le query_order) full ∧ NoDup (query_id <$> full) ∧
        (∀ i, i ∈ query_id <$> full ↔ answered (effective_filters filters) answers i) ∧
        Forall (λ q, verified (as_event (qe_event q)) ∧ qe_source q = relay_source (rb_relays b) ∧
          qe_priority q = SOURCE_PRIORITY_RELAY) full
  end.
Proof.
  intros answers. unfold relay_query, mbind, se_bind.
  pose proof (fetch_all_spec (effective_filters filters) ∅ [] b) as Hf.
  destruct (fetch_all _ _ _ _) as [[events|err] b']; simpl in *.
  - destruct Hf as (Hu & seen & [-> Hnd Heach] & Hi); [by split; [..|constructor]; [|constructor]|].
    split; [done|]. exists (sort_by query_order events).
    pose proof (sort_by_perm query_order events) as Hp.
    split_and!; [done|apply sort_by_sorted; unfold query_order; apply _|by rewrite Hp| |by rewrite Hp].
    intros i. rewrite Hp. specialize (Hi i). rewrite elem_of_list_to_set in Hi. set_solver.
  - apply Hf. by split; [..|constructor]; [|constructor].
Qed.
End queries.

(** ** Opening and closing subscriptions *)
Section live.
Context `{!Nostr, !RelayPrefix, RC : !RelayClient, HO : !HashOrder, L : !RelayClientLaws RC}.
Context {HS : Type} (handler : QueryEvent → HS → bool * HS).

Lemma unsubscribe_all_spec ids c :
  client_subscriptions (unsubscribe_all ids c) = client_subscriptions c ∖ list_to_set ids.
Proof.
  revert c. induction ids as [|id ids IH]; intros c; simpl; [set_solver|].
  rewrite IH, client_unsubscribe_spec. set_solver.
Qed.
Lemma subscribe_each_spec relays filters subscriptions c base :
  NoDup subscriptions.*1 → list_to_set subscriptions.*1 ## base →
  client_subscriptions c = list_to_set subscriptions.*1 ∪ base →
  let '(r, c') := subscribe_each relays filters subscriptions c in
  match r with
  | Err _ => client_subscriptions c' = base
  | Ok subscriptions' => NoDup subscriptions'.*1 ∧ list_to_set subscriptions'.*1 ## base ∧
      client_subscriptions c' = list_to_set subscriptions'.*1 ∪ base ∧
      subscriptions'.*2 = subscriptions.*2 ++ filters
  end.
Proof.
  revert subscriptions c. induction filters as [|f filters IH]; intros subscriptions c Hnd Hdis Hsubs; simpl.
  { split_and!; [done..|by rewrite app_nil_r]. }
  pose proof (client_subscribe_to_spec relays f c) as Hspec.
  destruct (client_subscribe_to _ _ _) as [[output|err] c1]; cycle 1.
  { unfold unsubscribe_pairs. rewrite unsubscribe_all_spec, Hspec, Hsubs. set_solver. }
  case_decide.
  { unfold unsubscribe_pairs. rewrite unsubscribe_all_spec, Hspec, Hsubs. set_solver. }
  destruct Hspec as [Hnew Hsubs1]. specialize (IH (subscriptions ++ [(out_val output, f)]) c1).
  rewrite !fmap_app, list_to_set_app_L in IH. csimpl in *. rewrite <-(assoc_L _ subscriptions.*2) in IH.
  rewrite Hsubs in Hnew, Hsubs1.
  apply IH; clear IH.
  2: { clear -Hnew Hdis. set_solver. }
  2: { rewrite Hsubs1. clear. set_solver. }
  apply NoDup_app. split_and!; [done| |apply NoDup_singleton].
  intros id Hid ->%list_elem_of_singleton. apply Hnew. rewrite elem_of_union, elem_of_list_to_set.
  by left.
Qed.

(** Opening a live subscription is all or nothing: when any filter is
    refused, the client holds exactly the subscriptions it held before; when
    none is, it holds one new subscription for each filter, the task watches
    exactly those, and closing withdraws exactly those. *)
Theorem live_subscription_all_or_nothing filters (h : HS) b :
  let '(r, b') := subscribe_with_admission filters h b in
  match r with
  | Err _ => client_subscriptions (rb_client b') = client_subscriptions (rb_client b)
  | Ok (task, ids) => NoDup ids ∧ length ids = length (effective_filters filters) ∧
      list_to_set ids ## client_subscriptions (rb_client b) ∧
      client_subscriptions (rb_client b') = list_to_set ids ∪ client_subscriptions (rb_client b) ∧
      lt_watched task = list_to_map (zip ids (effective_filters filters)) ∧
      client_subscriptions (relay_close ids (rb_client b')) = client_subscriptions (rb_client b)
  end.
Proof.
  unfold subscribe_with_admission.
  pose proof (subscribe_each_spec (rb_relays b) (effective_filters filters) [] (rb_client b)
    (client_subscriptions (rb_client b))) as Hs.
  destruct (subscribe_each _ _ _ _) as [[subscriptions|err] c]; simpl in *;
    [|apply Hs; [constructor|set_solver..]].
  destruct Hs as (Hnd & Hdis & Hc & Hfs); [constructor|set_solver..|].
  split_and!; [done|by rewrite <-Hfs, !length_fmap|done|done| |].
  - rewrite <-Hfs, zip_fst_snd. apply list_to_map_proper; [|by rewrite reverse_Permutation].
    by rewrite fmap_reverse, reverse_Permutation.
  - unfold relay_close. rewrite unsubscribe_all_spec, Hc. set_solver.
Qed.

(** ** The task *)
(** A task's life: notifications and replays, at non-decreasing times. A replay
    starts when the timer is due; [replays] lists start and end, latest first,
    and [seen] the notifications in order. *)
Inductive live_run (b : RelayEventBus) (filters : list Filter) (h : HS)
    : N → list (N * N) → list Notification → LiveTask → Prop :=
  | live_start now task ids b' :
      subscribe_with_admission filters h b = (Ok (task, ids), b') → live_run b filters h now [] [] task
  | live_notified clock replays seen t now n t' :
      live_run b filters h clock replays seen t → clock ≤ now →
      on_notification handler n now t = Some t' → live_run b filters h now replays (seen ++ [n]) t'
  | live_replayed clock replays seen t due start now :
      live_run b filters h clock replays seen t → lr_due (lt_replay t) = Some due →
      clock ≤ start → due ≤ start → start ≤ now →
      live_run b filters h now ((start, now) :: replays) seen (on_replay_due now t).

(** What a notification is worth: the event to hand over. *)
Definition admitted_event (watched : gmap SubscriptionId Filter) (n : Notification) : option QueryEvent :=
  match n with
  | RelayEvent relay_url id event =>
      filter ← watched !! id;
      if filter_match filter event then
        match verified_try_from event with
        | Ok event => Some (mkQueryEvent event (EventSources.relay relay_url) SOURCE_PRIORITY_RELAY)
        | Err _ => None
        end
      else None
  | _ => None
  end.
(** What a notification loses: it skipped others, or the handler refused it. *)
Definition missed (n : Notification) t : bool :=
  match n with
  | RecvLagged _ => true
  | _ => match admitted_event (lt_watched t) n with
         | Some event => negb (handler event (lt_handler t)).1
         | None => false
         end
  end.
Definition ends (n : Notification) : bool := match n with PoolShutdown | RecvClosed => true | _ => false end.

Lemma cache_verify_value e c v : (cache_verify e c).1 = Ok v → v = mkVerifiedEvent e.
Proof.
  unfold cache_verify. case_decide; [by destruct (event_verify_id e); intros [= <-]|].
  destruct (verified_try_from e) as [v'|] eqn:Hv; intros [= <-].
  by apply verified_try_from_Ok in Hv as [-> _].
Qed.
(** A notification's turn: what it hands over, and the gap it leaves. *)
Lemma on_notification_spec `{!NostrLaws _} n now t :
  cache_ok (lt_verification t) →
  match on_notification handler n now t with
  | None => ends n = true
  | Some t' => ends n = false ∧ cache_ok (lt_verification t') ∧ lt_client t' = lt_client t ∧
      lt_watched t' = lt_watched t ∧
      lt_replay t' = (if missed n t then gap now (lt_replay t) else lt_replay t) ∧
      lt_handler t' = foldl (λ h q, (handler q h).2) (lt_handler t)
        (option_list (admitted_event (lt_watched t) n))
  end.
Proof.
  intros Hc. destruct n as [url id event| | |count|]; simpl; [|done..].
  destruct (lt_watched t !! id) as [f|]; simpl; [|done].
  destruct (filter_match f event); simpl; [|done].
  pose proof (cache_verify_exact event (lt_verification t) Hc) as Hex.
  pose proof (cache_verify_ok event (lt_verification t) Hc) as Hok.
  pose proof (cache_verify_value event (lt_verification t)) as Hval.
  destruct (cache_verify event (lt_verification t)) as [[v|err] verification]; simpl in *.
  - destruct (verified_try_from event) as [v'|] eqn:Hv; [|done].
    apply verified_try_from_Ok in Hv as [-> _]. rewrite (Hval v eq_refl).
    destruct (handler _ (lt_handler t)) as [handled h] eqn:Hh. destruct handled; simpl; by rewrite Hh.
  - destruct (verified_try_from event); [done|]. done.
Qed.

(** A replay keeps what it does not withdraw, and restores what it promises. *)
Lemma replay_one_spec relays d id f c :
  let '(restored, c') := replay_one relays d id f c in
  client_subscriptions c ∖ {[id]} ⊆ client_subscriptions c' ∧
  (restored = true → id ∈ client_subscriptions c').
Proof.
  unfold replay_one. pose proof (client_unsubscribe_within_spec d id c) as Hu.
  destruct (client_unsubscribe_within d id c) as [[[]|] c1]; simpl in *; [|done].
  pose proof (client_subscribe_with_id_within_spec d relays id f c1) as Hs.
  destruct (client_subscribe_with_id_within _ _ _ _ _) as [r c2]. destruct Hs as [Hkeep Hin].
  split; [set_solver|]. destruct r as [[output|]|]; [|done..].
  rewrite andb_true_iff, !bool_decide_eq_true. intros [? _]. by apply (Hin output).
Qed.
Lemma replay_each_spec relays d subscriptions c :
  NoDup subscriptions.*1 →
  let '(restored, c') := replay_each relays d subscriptions c in
  client_subscriptions c ∖ list_to_set subscriptions.*1 ⊆ client_subscriptions c' ∧
  (restored = true → list_to_set subscriptions.*1 ⊆ client_subscriptions c').
Proof.
  revert c. induction subscriptions as [|[id f] subscriptions IH]; intros c Hnd; simpl; [set_solver|].
  apply NoDup_cons in Hnd as [Hnew Hnd]. pose proof (replay_one_spec relays d id f c) as Ho.
  destruct (replay_one _ _ _ _ _) as [restored c1]. specialize (IH c1 Hnd).
  destruct (replay_each _ _ _ _) as [rest c2]. destruct Ho as [Hk1 Hin1], IH as [Hk2 Hin2].
  split; [clear -Hk1 Hk2; set_solver|]. intros [-> ->]%andb_true_iff.
  specialize (Hin1 eq_refl). specialize (Hin2 eq_refl).
  rewrite <-(elem_of_list_to_set (C:=gset string)) in Hnew. clear -Hnew Hin1 Hin2 Hk2. set_solver.
Qed.

Definition holds_all (t : LiveTask (HS:=HS)) : Prop := dom (lt_watched t) ⊆ client_subscriptions (lt_client t).
Lemma replay_holds now (t : LiveTask (HS:=HS)) :
  let t' := on_replay_due now t in
  lt_watched t' = lt_watched t ∧ lt_verification t' = lt_verification t ∧ lt_handler t' = lt_handler t ∧
  ∃ restored, lt_replay t' = attempted now restored (lt_replay t) ∧ (restored = true → holds_all t').
Proof.
  unfold on_replay_due, replay_live_subscriptions, holds_all.
  assert (Permutation (hash_iter (lt_watched t)).*1 (map_to_list (lt_watched t)).*1) as Hp
    by (by rewrite hash_iter_perm).
  pose proof (replay_each_spec (lt_relays t) (lt_timeout t) (hash_iter (lt_watched t)) (lt_client t)) as Hr.
  destruct (replay_each _ _ _ _) as [restored c]; simpl. split_and!; [done..|].
  exists restored. split; [done|]. intros Hres.
  destruct Hr as [_ Hall]; [rewrite Hp; apply NoDup_fst_map_to_list|].
  specialize (Hall Hres). rewrite Hp in Hall. by rewrite dom_alt.
Qed.

Lemma opened_task filters (h : HS) b task ids b' :
  subscribe_with_admission filters h b = (Ok (task, ids), b') →
  holds_all task ∧ lt_replay task = live_replay_default ∧
  lt_verification task = verification_cache_default ∧ lt_handler task = h.
Proof.
  unfold subscribe_with_admission.
  pose proof (subscribe_each_spec (rb_relays b) (effective_filters filters) [] (rb_client b)
    (client_subscriptions (rb_client b))) as Hs.
  destruct (subscribe_each _ _ _ _) as [[subscriptions|err] c]; simpl in *; [|done].
  intros [= <- <- <-]. simpl. destruct Hs as (_ & _ & Hc & _); [constructor|set_solver..|].
  split_and!; [|done..]. unfold holds_all. simpl.
  rewrite Hc, dom_list_to_map, fmap_reverse, reverse_Permutation. set_solver.
Qed.

(** C14. The handler of a live subscription is called, in order and once each,
    for exactly the notified events of its own subscriptions that match their
    filter and verify, under the relay they came from: gaps, replays and the
    cache of signature checks never add, drop or change one. *)
Theorem live_handler_exact `{!NostrLaws _} b filters h clock replays seen t :
  live_run b filters h clock replays seen t →
  cache_ok (lt_verification t) ∧ Forall (λ n, ends n = false) seen ∧
  lt_handler t = foldl (λ h q, (handler q h).2) h (omap (admitted_event (lt_watched t)) seen).
Proof.
  induction 1 as [now task ids b' Hs|clock replays seen t now n t' _ IH _ Hn
    |clock replays seen t due start now _ IH _ _ _ _].
  - apply opened_task in Hs as (_ & _ & -> & ->). split_and!; [apply cache_default_ok|constructor|done].
  - destruct IH as (Hc & Hends & Hh). pose proof (on_notification_spec n now t Hc) as Hs.
    rewrite Hn in Hs. destruct Hs as (He & Hc' & _ & Hw & _ & Hh'). split_and!; [done| |].
    + by apply Forall_app; repeat constructor.
    + rewrite omap_app, foldl_app, Hw, <-Hh, Hh'. simpl. by destruct (admitted_event _ n).
  - destruct (replay_holds now t) as (-> & -> & -> & _). done.
Qed.

(** ** Replays *)
(** Every replay starts a quarter of a second or more after the one before. *)
Fixpoint replays_spaced (replays : list (N * N)) : Prop :=
  match replays with
  | later :: ((earlier :: _) as rest) => earlier.2 + MIN_DELAY ≤ later.1 ∧ replays_spaced rest
  | _ => True
  end.
Record replay_ok (clock : N) (replays : list (N * N)) (t : LiveTask (HS:=HS)) : Prop := {
  rp_delay : MIN_DELAY ≤ lr_delay (lt_replay t) ≤ MAX_DELAY;
  rp_due due : lr_due (lt_replay t) = Some due → due ≤ clock + MAX_DELAY;
  rp_last last rest : replays = last :: rest →
    last.2 ≤ clock ∧ ∀ due, lr_due (lt_replay t) = Some due → last.2 + MIN_DELAY ≤ due;
  rp_spaced : replays_spaced replays;
  rp_held : holds_all t ∨ is_Some (lr_due (lt_replay t));
}.
Lemma gap_spec now r :
  let r' := gap now r in
  lr_due r' = Some (default (now + lr_delay r') (lr_due r)) ∧
  (MIN_DELAY ≤ lr_delay r ≤ MAX_DELAY → MIN_DELAY ≤ lr_delay r' ≤ MAX_DELAY).
Proof.
  unfold gap. split; [done|]. cbn [lr_delay].
  assert (MIN_DELAY ≤ MIN_DELAY ≤ MAX_DELAY) by (unfold MIN_DELAY, MAX_DELAY; lia).
  by destruct (lr_last_gap r); [case_decide|].
Qed.
Lemma gap_ok clock now replays t :
  clock ≤ now → replay_ok clock replays t →
  replay_ok now replays (set_lt_replay (gap now (lt_replay t)) t).
Proof.
  intros Hle [Hd Hdue Hlast Hsp Hheld]. destruct (gap_spec now (lt_replay t)) as [Hg Hd'].
  specialize (Hd' Hd). split; unfold holds_all in *; cbn [lt_replay set_lt_replay] in *; [done|..].
  - intros due. rewrite Hg. intros <-%(inj Some). destruct (lr_due (lt_replay t)) as [due|]; cbn [from_option]; unfold id; [|lia].
    specialize (Hdue due eq_refl). lia.
  - intros last rest ->. destruct (Hlast last rest eq_refl) as [Hc Hmin]. split; [lia|].
    intros due. rewrite Hg. intros <-%(inj Some). destruct (lr_due (lt_replay t)) as [due|]; cbn [from_option]; unfold id; [by apply Hmin|lia].
  - done.
  - right. by rewrite Hg.
Qed.
Lemma replay_ok_later clock now replays t : clock ≤ now → replay_ok clock replays t → replay_ok now replays t.
Proof.
  intros Hle [Hd Hdue Hlast Hsp Hheld]. split; [done|..|done|done].
  - intros due He. specialize (Hdue due He). lia.
  - intros last rest He. destruct (Hlast last rest He). split; [lia|done].
Qed.
Lemma replay_ok_ext clock replays t t' :
  lt_replay t' = lt_replay t → lt_client t' = lt_client t → lt_watched t' = lt_watched t →
  replay_ok clock replays t → replay_ok clock replays t'.
Proof.
  intros Hr Hc Hw [Hd Hdue Hlast Hsp Hheld]. unfold holds_all in *.
  split; unfold holds_all; rewrite ?Hr, ?Hc, ?Hw; done.
Qed.
Lemma replay_attempt_ok clock replays t due start now :
  replay_ok clock replays t → lr_due (lt_replay t) = Some due → clock ≤ start → due ≤ start → start ≤ now →
  replay_ok now ((start, now) :: replays) (on_replay_due now t).
Proof.
  intros [Hd Hdue Hlast Hsp Hheld] He Hc1 Hc2 Hc3.
  destruct (replay_holds now t) as (_ & _ & _ & restored & Hr & Hall).
  assert (MIN_DELAY ≤ lr_delay (attempted now restored (lt_replay t)) ≤ MAX_DELAY) as Hd'.
  { cbn [attempted lr_delay]. unfold MIN_DELAY, MAX_DELAY in *. lia. }
  split; rewrite ?Hr; [done|..].
  - intros due'. cbn [attempted lr_due]. destruct restored; [done|intros <-%(inj Some)].
    unfold attempted in Hd'. cbn [lr_delay] in Hd'. lia.
  - intros last rest [= <- <-]. split; [done|]. intros due'. cbn [attempted lr_due snd].
    destruct restored; [done|intros <-%(inj Some)]. unfold attempted in Hd'. cbn [lr_delay] in Hd'. lia.
  - destruct replays as [|last rest]; [done|]. split; [|done].
    destruct (Hlast last rest eq_refl) as [_ Hmin]. specialize (Hmin due He). simpl. lia.
  - destruct restored; [left; by apply Hall|right]. by eexists.
Qed.

End live.

(** ** Sessions *)
Section sessions.
Context `{!Nostr}.

(** Everything the application gets from calls of [next], until the relay is
    shut down; each call reads at least one notification. *)
Fixpoint session_run (fuel : nat) (arriving : list SessionNotification) (connected : bool)
    : list RelaySessionEvent :=
  match fuel with
  | O => []
  | S fuel =>
      match session_next arriving connected with
      | Some (Some event, connected, arriving) => event :: session_run fuel arriving connected
      | _ => []
      end
  end.
Definition session_events (arriving : list SessionNotification) : list RelaySessionEvent :=
  session_run (S (length arriving)) arriving false.

(** What arrives before the relay is shut down. *)
Fixpoint before_shutdown (arriving : list SessionNotification) : list SessionNotification :=
  match arriving with
  | [] | (SnShutdown | SnClosed) :: _ => []
  | n :: arriving => n :: before_shutdown arriving
  end.
Definition trusted (m : RelayMessage) : bool :=
  match m with MsgEvent _ event => is_ok (verified_try_from event) | MsgOther _ => true end.
(** The messages, and what a session cannot have seen. *)
Definition arrival (n : SessionNotification) : option (RelayMessage + N) :=
  match n with
  | SnMessage m => if trusted m then Some (inl m) else None
  | SnLagged count => Some (inr count)
  | _ => None
  end.
Definition content (e : RelaySessionEvent) : option (RelayMessage + N) :=
  match e with
  | SessionMessage m => Some (inl m)
  | SessionLagged count => Some (inr count)
  | SessionConnection _ => None
  end.
Definition connection (e : RelaySessionEvent) : option bool :=
  match e with SessionConnection connected => Some connected | _ => None end.
(** No connection is reported while one is. *)
Fixpoint connections_alternate (connected : bool) (reports : list bool) : Prop :=
  match reports with
  | [] => True
  | report :: reports => (report = true → connected = false) ∧ connections_alternate report reports
  end.
Definition status (n : SessionNotification) : option bool :=
  match n with
  | SnStatus StConnected => Some true
  | SnStatus (StDisconnected | StTerminated | StBanned) => Some false
  | _ => None
  end.

Lemma session_run_spec fuel arriving connected :
  (length arriving < fuel)%nat →
  omap content (session_run fuel arriving connected) = omap arrival (before_shutdown arriving) ∧
  connections_alternate connected (omap connection (session_run fuel arriving connected)) ∧
  last (connected :: omap connection (session_run fuel arriving connected))
    = last (connected :: omap status (before_shutdown arriving)).
Proof.
  revert arriving connected. induction fuel as [|fuel IHf]; intros arriving connected Hlen; [lia|].
  induction arriving as [|n arriving IHa] in connected, Hlen |- *; [done|].
  simpl in Hlen.
  assert (∀ c, omap content (session_run fuel arriving c) = omap arrival (before_shutdown arriving) ∧
    connections_alternate c (omap connection (session_run fuel arriving c)) ∧
    last (c :: omap connection (session_run fuel arriving c))
      = last (c :: omap status (before_shutdown arriving))) as IHf' by (intros c; apply IHf; lia).
  assert (length arriving < S fuel)%nat as Hlen' by lia. specialize (λ c, IHa c Hlen'). clear IHf Hlen.
  destruct n as [st|m| | |count|]; [| |done|done| |apply IHa].
  - destruct (IHf' true) as (Hc & Ha & Hl), (IHf' false) as (Hc' & Ha' & Hl').
    destruct st, connected; first [exact (IHa _)|simpl; split_and!;
      first [exact Hc|exact Hc'|exact Ha|exact Ha'|exact Hl|exact Hl'|done]].
  - simpl. destruct m as [id event|text]; simpl; [destruct (is_ok _); simpl; [|apply IHa]|];
      destruct (IHf' connected) as (Hc & Ha & Hl); exact (conj (f_equal (cons _) Hc) (conj Ha Hl)).
  - destruct (IHf' connected) as (Hc & Ha & Hl). exact (conj (f_equal (cons _) Hc) (conj Ha Hl)).
Qed.

(** A session's application gets, in order and without loss, every message
    that arrived before the relay shut down except events that do not verify,
    and every count of notifications that were skipped; it is told of a
    connection only when it knows of none, and its last report is the last
    state the relay was in. *)
Theorem session_events_exact arriving :
  let events := session_events arriving in
  omap content events = omap arrival (before_shutdown arriving) ∧
  connections_alternate false (omap connection events) ∧
  last (false :: omap connection events) = last (false :: omap status (before_shutdown arriving)).
Proof. apply session_run_spec. lia. Qed.
End sessions.

(** ** A concrete client *)
Module RelayWitness.
#[local] Existing Instance Toy.toy_nostr.
#[local] Existing Instance Toy.toy_laws.

(** A client of relays that take everything: its subscriptions. A deadline of
    less than a second cuts every call short. *)
Definition longer_than_all (held : gset string) : string :=
  String (Ascii.ascii_of_N 120) (foldr (λ a b, a +:+ b) "" (elements held)).
Definition taken_by {A} (relays : list string) (val : A) : Output A :=
  mkOutput val (list_to_set relays) ∅.
#[local] Instance toy_prefix : RelayPrefix := {| prefix_parse _ := None |}.
#[local] Program Instance toy_client : RelayClient := {|
  Client := gset string;
  client_add_relay _ c := (Ok tt, c);
  client_connect c := c;
  client_send_event_to relays _ c := (Ok (taken_by relays tt), c);
  client_fetch_events_from _ _ _ c := (Ok [Toy.toy_body Toy.IdB; Toy.toy_body Toy.IdA], c);
  client_subscribe_to relays _ c :=
    let id := longer_than_all c in
    (Ok (taken_by relays id), if decide (list_to_set (C:=gset string) relays = ∅) then c else {[id]} ∪ c);
  client_unsubscribe id c := c ∖ {[id]};
  client_unsubscribe_within d id c := (Some tt, c ∖ {[id]});
  client_subscribe_with_id_within d relays id _ c :=
    if decide (d < 1000) then (None, c)
    else (Some (Ok (taken_by relays tt)), {[id]} ∪ c);
|}.
Lemma longer_fresh held : longer_than_all held ∉ held.
Proof.
  intros Hin%elem_of_elements. unfold longer_than_all in Hin.
  assert (∀ s l, s ∈ l → slen s ≤ slen (foldr (λ a b, a +:+ b) "" l)) as Hlen.
  { intros s l. induction 1; cbn [foldr]; rewrite slen_app; lia. }
  apply Hlen in Hin. unfold slen in Hin. simpl in Hin. lia.
Qed.
#[local] Program Instance toy_client_laws : RelayClientLaws toy_client := {|
  client_subscriptions (c : Client) := c |}.
Next Obligation. done. Qed.
Next Obligation.
  intros relays f c. simpl. case_decide; [done|]. split; [apply longer_fresh|done].
Qed.
Next Obligation. done. Qed.
Next Obligation.
  intros d relays id f c. simpl. case_decide; (split; [set_solver|]); [done|].
  intros output _ _. simpl. set_solver.
Qed.

Definition relay_url : string := "wss://relay.example".
Definition bus : RelayEventBus := mkRelayBus (∅ : gset string) [relay_url] 5000.
Definition sub_id : string := "x".
Definition held_one : Client := ({[sub_id]} : gset string).
(** An application with room for one event. *)
Definition room_for_one (q : QueryEvent) (held : list QueryEvent) : bool * list QueryEvent :=
  match held with [] => (true, [q]) | _ => (false, held) end.
Notation Task := (LiveTask (HS:=list QueryEvent)).
Definition first_task : Task := mkTask {[sub_id]} [relay_url] {[sub_id := filter_new]} 5000
  live_replay_default verification_cache_default [].
Definition notified (id : Toy.toy_id) : Notification := RelayEvent relay_url sub_id (Toy.toy_body id).
Definition turn (n : Notification) (now : N) (t : Task) : Task :=
  default t (on_notification room_for_one n now t).
Definition tasks : Task * Task * Task :=
  let t1 := turn (notified Toy.IdA) 10 first_task in
  let t2 := turn (notified Toy.IdB) 20 t1 in
  (t1, t2, on_replay_due 280 t2).
Lemma turn_runs (b : RelayEventBus) filters h clock replays seen (t : Task) n now :
  live_run room_for_one b filters h clock replays seen t → clock ≤ now →
  bool_decide (is_Some (on_notification room_for_one n now t)) = true →
  live_run room_for_one b filters h now replays (seen ++ [n]) (turn n now t).
Proof.
  intros Hrun Hle [t' Ht]%bool_decide_eq_true. apply (live_notified _ _ _ _ clock _ _ t); [done..|].
  unfold turn. by rewrite Ht.
Qed.
Lemma live_run1 : live_run room_for_one bus [] [] 10 [] [notified Toy.IdA] tasks.1.1.
Proof.
  apply (turn_runs _ _ _ 0 [] [] first_task); [|done|vm_compute; reflexivity].
  apply (live_start _ bus [] [] 0 first_task [sub_id] (set_rb_client held_one bus)).
  vm_cast_no_check (eq_refl (A:=res (Task * list string) * RelayEventBus)
    (Ok (first_task, [sub_id]), set_rb_client held_one bus)).
Defined.
Lemma live_run2 : live_run room_for_one bus [] [] 20 [] [notified Toy.IdA; notified Toy.IdB] tasks.1.2.
Proof. by apply (turn_runs _ _ _ 10 [] [notified Toy.IdA] tasks.1.1); [apply live_run1|..]. Defined.
(** The second event does not fit: a replay is due a quarter of a second later. *)
Lemma live_run3 :
  live_run room_for_one bus [] [] 280 [(275, 280)] [notified Toy.IdA; notified Toy.IdB] tasks.2.
Proof. by apply (live_replayed _ _ _ _ 20 [] _ tasks.1.2 270); [apply live_run2|..]. Defined.

Lemma live_handler_exact_witness :
  length (lt_handler tasks.2) = 1%nat ∧
  (cache_ok (lt_verification tasks.2) ∧
   Forall (λ n, ends n = false) [notified Toy.IdA; notified Toy.IdB] ∧
   lt_handler tasks.2 = foldl (λ h q, (room_for_one q h).2) []
     (omap (admitted_event (lt_watched tasks.2)) [notified Toy.IdA; notified Toy.IdB])).
Proof.
  split; [vm_compute; reflexivity|].
  exact (live_handler_exact room_for_one bus [] [] 280 _ _ tasks.2 live_run3).
Defined.
(** The two newest events the relays sent; the older one is beyond the limit. *)
Lemma relay_query_spec_witness :
  is_ok (relay_query [] (mkQueryOptions (Some 1)) bus).1 = true ∧
  match (relay_query [] (mkQueryOptions (Some 1)) bus).1 with
  | Err _ => ¬ Forall2 usable [filter_new] (fetches [filter_new] bus)
  | Ok report => Forall2 usable [filter_new] (fetches [filter_new] bus) ∧
      ∃ full, qr_events report = take 1 full ∧
        StronglySorted (cmp_le query_order) full ∧ NoDup (query_id <$> full) ∧
        (∀ i, i ∈ query_id <$> full ↔ answered [filter_new] (fetches [filter_new] bus) i) ∧
        Forall (λ q, verified (as_event (qe_event q)) ∧ qe_source q = relay_source (rb_relays bus) ∧
          qe_priority q = SOURCE_PRIORITY_RELAY) full
  end.
Proof. split; [vm_compute; reflexivity|]. exact (relay_query_spec [] (mkQueryOptions (Some 1)) bus). Defined.
End RelayWitness.
