(* ===== verification/VarInt.v ===== *)
(** * Reconciliation frames: integers and validation

    crates/nostr-pubsub-reconcile/src/codec.rs and validation.rs: the
    variable-length integers of Negentropy frames and the check an untrusted
    frame passes before the engine sees it. A byte is an [N]; a parser is a
    state monad over the bytes that are left. *)

From S2P Require Export Prelude.

Notation byte := N (only parsing).
Notation bytes := (list N) (only parsing).

(** The variants of the negentropy crate's error type the code names, and those
    its storage raises. A panic ends a call as an error does. *)
Inductive NegError : Set :=
  | ParseEndsPrematurely
  | BadRange
  | UnexpectedMode (mode : N)
  | FrameSizeLimitTooSmall
  | AlreadyBuiltInitialMessage
  | IsInitiator
  | NonInitiator
  | ProtocolVersionNotFound
  | InvalidProtocolVersion
  | UnsupportedProtocolVersion
  | StorageError (message : string)
  | Panic.
#[export] Instance NegError_eq_dec : EqDecision NegError.
Proof. solve_decision. Defined.

Definition checked_mul (max a b : N) : option N :=
  if decide (a * b ≤ max) then Some (a * b) else None.

(** ** codec.rs *)
Definition get_bytes (n : N) : SE bytes NegError bytes := λ encoded,
  if decide (nlen encoded < n) then (Err ParseEndsPrematurely, encoded)
  else (Ok (take (N.to_nat n) encoded), drop (N.to_nat n) encoded).
(** [get_byte_array::<1>(encoded)?[0]]. *)
Definition get_byte : SE bytes NegError byte :=
  b ← get_bytes 1; mret (default 0 (head b)).

(** [value.checked_mul(128).and_then(|n| n.checked_add(byte & 127))]. *)
Definition push_digit (value byte : N) : option N :=
  n ← checked_mul u64_max value 128; checked_add u64_max n (N.land byte 127).

Fixpoint decode_digits (turns : nat) (value : N) : SE bytes NegError N :=
  match turns with
  | O => se_fail BadRange
  | S turns =>
      byte ← get_byte;
      match push_digit value byte with
      | None => se_fail BadRange
      | Some value =>
          if decide (N.land byte 128 = 0) then mret value else decode_digits turns value
      end
  end.
Definition decode_var_int : SE bytes NegError N := decode_digits 10 0.

(** [while n > 0 { o.push((n & 0x7F) as u8); n >>= 7; }]; ten turns shift
    every bit of a [u64] out. *)
Fixpoint low_digits (turns : nat) (n : N) : bytes :=
  match turns with
  | O => []
  | S turns => if decide (n = 0) then [] else N.land n 127 :: low_digits turns (N.shiftr n 7)
  end.
(** [for i in 0..(o.len() - 1) { o[i] |= 0x80; }] *)
Fixpoint mark_digits (o : bytes) : bytes :=
  match o with
  | [] => []
  | [d] => [d]
  | d :: o' => N.lor d 128 :: mark_digits o'
  end.
Definition encode_var_int (n : N) : bytes :=
  if decide (n = 0) then [0] else mark_digits (reverse (low_digits 10 n)).

(** ** validation.rs *)
Definition v_take (n : N) : SE bytes string bytes := λ bs,
  if decide (nlen bs < n) then (Err "truncated reconciliation frame"%string, bs)
  else (Ok (take (N.to_nat n) bs), drop (N.to_nat n) bs).
Fixpoint v_digits (turns : nat) (result : N) : SE bytes string N :=
  match turns with
  | O => se_fail "varint too long"%string
  | S turns =>
      b ← v_take 1;
      let byte := default 0 (head b) in
      match push_digit result byte with
      | None => se_fail "varint overflow"%string
      | Some result =>
          if decide (N.land byte 128 = 0) then mret result else v_digits turns result
      end
  end.
Definition v_varint : SE bytes string N := v_digits 10 0.

(** [id[..len].copy_from_slice(..)] into 32 zero bytes. *)
Definition pad_id (id : bytes) : bytes := id ++ replicate (32 - length id)%nat 0.

Fixpoint bytes_compare (a b : bytes) : comparison :=
  match a, b with
  | [], [] => Eq
  | [], _ => Lt
  | _, [] => Gt
  | x :: a', y :: b' => match N.compare x y with Eq => bytes_compare a' b' | c => c end
  end.
(** [(timestamp, id) < previous]. *)
Definition point_compare (p q : N * bytes) : comparison :=
  match N.compare p.1 q.1 with Eq => bytes_compare p.2 q.2 | c => c end.
Definition point_lt (p q : N * bytes) : bool :=
  match point_compare p q with Lt => true | _ => false end.

(** The time of a range: a delta of zero is infinity. *)
Definition v_timestamp (timestamp delta : N) : result string N :=
  if decide (delta = 0 ∨ timestamp = u64_max) then Ok u64_max
  else match checked_add u64_max timestamp (delta - 1) with
       | Some t => Ok t
       | None => Err "timestamp overflow"%string
       end.
Definition v_payload (mode : N) : SE bytes string unit :=
  if decide (mode = 0) then mret tt
  else if decide (mode = 1) then _ ← v_take 16; mret tt
  else if decide (mode = 2) then
    count ← v_varint;
    match checked_mul u64_max count 32 with
    | Some n => _ ← v_take n; mret tt
    | None => se_fail "ID count overflow"%string
    end
  else se_fail "invalid reconciliation mode"%string.
(** One turn of the loop: the new timestamp and the bound it closes. *)
Definition v_range (timestamp : N) (previous : N * bytes) : SE bytes string (N * (N * bytes)) :=
  delta ← v_varint;
  timestamp ← se_lift (v_timestamp timestamp delta);
  len ← v_varint;
  if decide (32 < len) then se_fail "invalid bound length"%string
  else
    id ← v_take len;
    let point := (timestamp, pad_id id) in
    if point_lt point previous then se_fail "unordered reconciliation ranges"%string
    else
      mode ← v_varint;
      _ ← v_payload mode;
      mret (timestamp, point).
Fixpoint v_ranges (fuel : nat) (timestamp : N) (previous : N * bytes) (bs : bytes)
    : result string unit :=
  match fuel with
  | O => Err "out of fuel"%string
  | S fuel =>
      if decide (bs = []) then Ok tt
      else
        match v_range timestamp previous bs with
        | (Ok (timestamp, previous), rest) => v_ranges fuel timestamp previous rest
        | (Err e, _) => Err e
        end
  end.
(** A range takes at least three bytes, so the length is enough fuel. *)
Definition validate (bs : bytes) : result string unit :=
  match v_take 1 bs with
  | (Ok version, rest) =>
      if decide (version ≠ [97]) then Err "unsupported Negentropy version"%string
      else v_ranges (S (length rest)) 0 (0, pad_id []) rest
  | (Err e, _) => Err e
  end.

(** ** Lemmas *)
Lemma get_byte_cons b rest : get_byte (b :: rest) = (Ok b, rest).
Proof.
  unfold get_byte, get_bytes. se_unfold. rewrite decide_False by (unfold nlen; simpl; lia). done.
Qed.
Lemma get_byte_nil : get_byte [] = (Err ParseEndsPrematurely, []).
Proof. reflexivity. Qed.
Lemma v_take1_cons b rest : v_take 1 (b :: rest) = (Ok [b], rest).
Proof.
  unfold v_take. rewrite decide_False by (unfold nlen; simpl; lia). reflexivity.
Qed.

Lemma get_bytes_Ok n bs b rest :
  get_bytes n bs = (Ok b, rest) ↔ bs = b ++ rest ∧ nlen b = n.
Proof.
  unfold get_bytes. case_decide as Hlen; unfold nlen in *.
  - split; [done|]. intros [-> Hb]. rewrite length_app in Hlen. lia.
  - split.
    + intros [= <- <-]. rewrite take_drop, length_take. split; [done|]. lia.
    + intros [-> Hb]. rewrite take_app_length', drop_app_length' by lia. done.
Qed.
Lemma v_take_Ok n bs b rest :
  v_take n bs = (Ok b, rest) ↔ get_bytes n bs = (Ok b, rest).
Proof. unfold v_take, get_bytes. case_decide; naive_solver. Qed.

(** The two readers of integers agree. *)
Lemma v_digits_agrees turns value bs :
  match v_digits turns value bs, decode_digits turns value bs with
  | (Ok n, rest), (Ok n', rest') => n = n' ∧ rest = rest'
  | (Err _, _), (Err _, _) => True
  | _, _ => False
  end.
Proof.
  revert value bs. induction turns as [|turns IH]; intros value bs; [done|].
  cbn [v_digits decode_digits]. se_unfold. destruct bs as [|b bs]; [done|].
  rewrite v_take1_cons, get_byte_cons. simpl. destruct (push_digit value b); [|done].
  case_decide; [done|apply IH].
Qed.
Lemma v_varint_decode bs n rest :
  v_varint bs = (Ok n, rest) ↔ decode_var_int bs = (Ok n, rest).
Proof.
  unfold v_varint, decode_var_int. pose proof (v_digits_agrees 10 0 bs) as Ha.
  destruct (v_digits 10 0 bs) as [[m|] r], (decode_digits 10 0 bs) as [[m'|] r'];
    naive_solver.
Qed.

(** ** Digits *)
Definition push (value digit : N) : N := value * 128 + digit.
Lemma land_127 n : N.land n 127 = n `mod` 128.
Proof. exact (N.land_ones n 7). Qed.
Lemma low_digits_value turns n v :
  n < 128 ^ N.of_nat turns →
  foldl push v (reverse (low_digits turns n)) = v * 128 ^ nlen (low_digits turns n) + n.
Proof.
  revert n. induction turns as [|turns IH]; intros n Hn; simpl.
  { assert (n = 0) as -> by (simpl in Hn; lia).
    rewrite nlen_nil. simpl. lia. }
  case_decide as Hz; [subst; rewrite nlen_nil; simpl; lia|].
  rewrite reverse_cons, foldl_app. simpl. unfold push at 1. rewrite IH.
  - rewrite nlen_cons, N.pow_add_r, land_127, N.shiftr_div_pow2. change (2 ^ 7) with 128.
    rewrite N.pow_1_r, N.mul_assoc. pose proof (N.Div0.div_mod n 128). lia.
  - rewrite N.shiftr_div_pow2. change (2 ^ 7) with 128. apply N.Div0.div_lt_upper_bound.
    rewrite <-N.pow_succ_r by lia. by replace (N.succ (N.of_nat turns)) with (N.of_nat (S turns)) by lia.
Qed.
Lemma low_digits_small turns n : Forall (λ d, d < 128) (low_digits turns n).
Proof.
  revert n. induction turns as [|turns IH]; intros n; simpl; [constructor|].
  case_decide; constructor; [rewrite land_127; by apply N.mod_lt|done].
Qed.
Lemma low_digits_length turns n : (length (low_digits turns n) ≤ turns)%nat.
Proof.
  revert n. induction turns as [|turns IH]; intros n; simpl; [done|].
  case_decide; simpl; [lia|]. specialize (IH (N.shiftr n 7)). lia.
Qed.

Lemma marked_digit d : d < 128 → N.land (N.lor d 128) 128 ≠ 0 ∧ N.land (N.lor d 128) 127 = d.
Proof.
  intros Hd. rewrite !N.land_lor_distr_l. change (N.land 128 128) with 128.
  change (N.land 128 127) with 0. rewrite N.lor_0_r, land_127, N.mod_small by done.
  split; [|done]. intros Hz. apply N.lor_eq_0_iff in Hz as [_ ?]. done.
Qed.
Lemma plain_digit d : d < 128 → N.land d 128 = 0 ∧ N.land d 127 = d.
Proof.
  intros Hd. rewrite land_127, N.mod_small by done. split; [|done].
  change 128 with (2 ^ 7). apply N.bits_inj_0. intros i. rewrite N.land_spec, N.pow2_bits_eqb.
  destruct (N.eqb_spec 7 i) as [<-|]; [|apply andb_false_r].
  rewrite andb_true_r. destruct (decide (d = 0)) as [->|]; [apply N.bits_0|].
  apply N.bits_above_log2. apply N.log2_lt_pow2; lia.
Qed.

Lemma push_digit_spec v b d :
  N.land b 127 = d → push v d ≤ u64_max → push_digit v b = Some (push v d).
Proof.
  intros <- Hle. unfold push_digit, push, checked_mul, checked_add in *.
  rewrite decide_True by lia. simpl. by rewrite decide_True.
Qed.
Lemma foldl_push_le ds v : v ≤ foldl push v ds.
Proof.
  revert v. induction ds as [|d ds IH]; intros v; simpl; [done|].
  etrans; [|apply IH]. unfold push. lia.
Qed.
Lemma decode_digits_marked turns ds v rest :
  ds ≠ [] → Forall (λ d, d < 128) ds → (length ds ≤ turns)%nat → foldl push v ds ≤ u64_max →
  decode_digits turns v (mark_digits ds ++ rest) = (Ok (foldl push v ds), rest).
Proof.
  intros Hne Hds. revert turns v Hne. induction Hds as [|d ds Hd Hds IH]; intros turns v Hne Hlen Hmax;
    [done|]. destruct turns as [|turns]; [simpl in Hlen; lia|]. simpl in Hmax, Hlen.
  pose proof (foldl_push_le ds (push v d)) as Hge.
  destruct ds as [|d' ds].
  - destruct (plain_digit d Hd) as [Hhi Hlo]. cbn [mark_digits app decode_digits]. se_unfold.
    rewrite get_byte_cons. rewrite (push_digit_spec v d d) by (done || lia).
    by rewrite decide_True.
  - destruct (marked_digit d Hd) as [Hhi Hlo].
    change (mark_digits (d :: d' :: ds)) with (N.lor d 128 :: mark_digits (d' :: ds)).
    cbn [app decode_digits]. se_unfold. rewrite get_byte_cons.
    rewrite (push_digit_spec v _ d) by (done || lia). rewrite decide_False by done.
    apply IH; [done|lia|done].
Qed.
Lemma mark_digits_length ds : length (mark_digits ds) = length ds.
Proof.
  induction ds as [|d ds IH]; [done|]. destruct ds as [|d' ds]; [done|].
  change (mark_digits (d :: d' :: ds)) with (N.lor d 128 :: mark_digits (d' :: ds)).
  simpl length in *. by rewrite IH.
Qed.

Lemma push_digit_le v b n : push_digit v b = Some n → n ≤ u64_max.
Proof.
  unfold push_digit, checked_mul, checked_add. case_decide; simpl; [|done].
  case_decide; [|done]. by intros [= <-].
Qed.
Lemma decode_digits_le turns v bs n rest :
  decode_digits turns v bs = (Ok n, rest) → n ≤ u64_max ∧ (length rest < length bs)%nat.
Proof.
  revert v bs. induction turns as [|turns IH]; intros v bs; [done|]. cbn [decode_digits].
  se_unfold. destruct bs as [|b bs]; [done|]. rewrite get_byte_cons.
  destruct (push_digit v b) as [n'|] eqn:Hp; [|done]. apply push_digit_le in Hp.
  case_decide; [intros [= <- <-]; simpl; split; [done|lia]|].
  intros [? ?]%IH. simpl. split; [done|lia].
Qed.
Lemma decode_var_int_le bs n rest :
  decode_var_int bs = (Ok n, rest) → n ≤ u64_max ∧ (length rest < length bs)%nat.
Proof. apply decode_digits_le. Qed.

Lemma decode_encode_var_int n rest :
  n ≤ u64_max → decode_var_int (encode_var_int n ++ rest) = (Ok n, rest).
Proof.
  intros Hn. unfold encode_var_int, decode_var_int. case_decide as Hz.
  { subst. apply (decode_digits_marked 10 [0] 0 rest);
      [done|by repeat constructor|simpl; lia|vm_compute; congruence]. }
  assert (n < 128 ^ N.of_nat 10) as Hlt.
  { eapply N.le_lt_trans; [exact Hn|]. vm_compute. done. }
  pose proof (low_digits_value 10 n 0 Hlt) as Hv. rewrite N.mul_0_l, N.add_0_l in Hv.
  rewrite decode_digits_marked, Hv; [done| | | |].
  - intros Hnil. rewrite Hnil in Hv. simpl in Hv. lia.
  - apply Forall_reverse, low_digits_small.
  - rewrite length_reverse. apply low_digits_length.
  - by rewrite Hv.
Qed.
