(* ===== verification/Negentropy.v ===== *)
(** * The reconciliation engine

    crates/nostr-pubsub-reconcile/src/engine.rs: one peer's side of the
    Negentropy protocol. The storage (a sealed, sorted vector of the negentropy
    crate) is the class [NegStorage]; a call that walks a range of it is given
    the list of its items. *)

From S2P Require Export VarInt Containers.

(** The fields the code reads of the negentropy crate's structs. *)
Record Item : Set := mkItem { item_timestamp : N; item_id : bytes }.
Record Bound : Set := mkBound { bound_item : Item; bound_id_len : N }.
#[export] Instance Item_eq_dec : EqDecision Item.
Proof. solve_decision. Defined.
#[export] Instance Bound_eq_dec : EqDecision Bound.
Proof. solve_decision. Defined.

Definition ID_SIZE : N := 32.
Definition FINGERPRINT_SIZE : N := 16.
Definition PROTOCOL_VERSION : N := 97.

Class NegStorage : Type := {
  Storage : Type;
  storage_size : Storage → result NegError N;
  (** The items a walk of [lower..upper] visits, in order. *)
  storage_iterate : Storage → N → N → result NegError (list Item);
  find_lower_bound : Storage → N → N → Bound → N;
  storage_fingerprint : Storage → N → N → result NegError bytes;
  bound_new : Bound;
  bound_with_timestamp : N → Bound;
  bound_with_timestamp_and_id : N → bytes → result NegError Bound;
  bound_from_item : Item → Bound;
}.

Inductive Mode : Set := Skip | Fingerprint | IdList.
Definition mode_as_u64 (mode : Mode) : N :=
  match mode with Skip => 0 | Fingerprint => 1 | IdList => 2 end.
Definition mode_try_from (n : N) : result NegError Mode :=
  if decide (n = 0) then Ok Skip
  else if decide (n = 1) then Ok Fingerprint
  else if decide (n = 2) then Ok IdList
  else Err (UnexpectedMode n).

Definition BUCKETS : N := 16.
Definition DOUBLE_BUCKETS : N := BUCKETS * 2.

(** ** Encoding *)
Definition encode_mode (mode : Mode) : bytes := encode_var_int (mode_as_u64 mode).
(** The encoder's state is [last_timestamp_out]. *)
Definition encode_timestamp_out (timestamp last : N) : bytes * N :=
  if decide (timestamp = u64_max) then (encode_var_int 0, u64_max)
  else (encode_var_int (u64_sat_add (timestamp - last) 1), timestamp).
(** [Vec::resize(n, 0)]. *)
Definition resize (n : N) (l : bytes) : bytes :=
  take (N.to_nat n) l ++ replicate (N.to_nat n - length l) 0.
Definition encode_bound (bound : Bound) (last : N) : bytes * N :=
  let '(t, last) := encode_timestamp_out (item_timestamp (bound_item bound)) last in
  (t ++ encode_var_int (bound_id_len bound)
     ++ resize (bound_id_len bound) (item_id (bound_item bound)), last).

(** ** Decoding

    The decoder's state is [last_timestamp_in] and the bytes left. *)
Definition lift_query {A} (parse : SE bytes NegError A) : SE (N * bytes) NegError A := λ s,
  let '(r, rest) := parse s.2 in (r, (s.1, rest)).
Definition decode_mode : SE (N * bytes) NegError Mode :=
  mode ← lift_query decode_var_int; se_lift (mode_try_from mode).
Definition decode_timestamp_in : SE (N * bytes) NegError N :=
  timestamp ← lift_query decode_var_int;
  s ← se_get;
  let timestamp := if decide (timestamp = 0) then u64_max else timestamp - 1 in
  let timestamp := u64_sat_add timestamp s.1 in
  _ ← se_modify (λ s, (timestamp, s.2));
  mret timestamp.

Section engine.
Context `{!NegStorage, !HashOrder}.

Definition decode_bound : SE (N * bytes) NegError Bound :=
  timestamp ← decode_timestamp_in;
  len ← lift_query decode_var_int;
  id ← lift_query (get_bytes len);
  se_lift (bound_with_timestamp_and_id timestamp id).

(** ** Ranges *)
Record Negentropy : Type := mkNegentropy {
  ng_storage : Storage;
  ng_frame_size_limit : N;
  ng_is_initiator : bool;
}.
Definition engine_new (storage : Storage) (frame_size_limit : N) : result NegError Negentropy :=
  if bool_decide (frame_size_limit ≠ 0) && bool_decide (frame_size_limit < 4096) then
    Err FrameSizeLimitTooSmall
  else Ok (mkNegentropy storage frame_size_limit false).

(** [Item::with_timestamp(0)]. *)
Definition item_zero : Item := mkItem 0 (replicate 32 0).

Definition exceeded_frame_size_limit (e : Negentropy) (n : N) : bool :=
  bool_decide (ng_frame_size_limit e ≠ 0) && bool_decide (ng_frame_size_limit e - 200 < n).

Fixpoint shared_prefix (prev curr : bytes) : nat :=
  match prev, curr with
  | p :: prev', c :: curr' => if decide (p = c) then S (shared_prefix prev' curr') else 0
  | _, _ => 0
  end.
(** [&curr_key[..=shared_prefix_bytes]] is out of range when the identifiers are
    equal, and the code panics. *)
Definition get_minimal_bound (prev curr : Item) : result NegError Bound :=
  if decide (item_timestamp curr ≠ item_timestamp prev) then
    Ok (bound_with_timestamp (item_timestamp curr))
  else
    let shared_prefix_bytes := shared_prefix (item_id prev) (item_id curr) in
    if decide (shared_prefix_bytes < length (item_id curr))%nat then
      bound_with_timestamp_and_id (item_timestamp curr)
        (take (S shared_prefix_bytes) (item_id curr))
    else Err Panic.

(** The sizes of the buckets [split_range] makes. *)
Definition bucket_size (num_elems i : N) : N :=
  num_elems `div` BUCKETS + (if decide (i < num_elems `mod` BUCKETS) then 1 else 0).
(** The bound after a bucket that ends at [curr]. *)
Definition next_bound (e : Negentropy) (curr upper : N) (upper_bound : Bound)
    : result NegError Bound :=
  if decide (curr = upper) then Ok upper_bound
  else
    items ← storage_iterate (ng_storage e) (curr - 1) (curr + 1);
    (* The item at [curr - 1], and the last one after it. *)
    get_minimal_bound (default item_zero (head items)) (default item_zero (last (tail items))).
Fixpoint split_buckets (e : Negentropy) (turns : nat) (i num_elems curr upper : N)
    (upper_bound : Bound) (last : N) : result NegError (bytes * N) :=
  match turns with
  | O => Ok ([], last)
  | S turns =>
      let size := bucket_size num_elems i in
      our_fingerprint ← storage_fingerprint (ng_storage e) curr (curr + size);
      let curr := curr + size in
      bound ← next_bound e curr upper upper_bound;
      let '(b, last) := encode_bound bound last in
      '(o, last) ← split_buckets e turns (i + 1) num_elems curr upper upper_bound last;
      Ok (b ++ encode_mode Fingerprint ++ our_fingerprint ++ o, last)
  end.
Definition split_range (e : Negentropy) (lower upper : N) (upper_bound : Bound) (last : N)
    : result NegError (bytes * N) :=
  let num_elems := upper - lower in
  if decide (num_elems < DOUBLE_BUCKETS) then
    let '(b, last) := encode_bound upper_bound last in
    items ← storage_iterate (ng_storage e) lower upper;
    Ok (b ++ encode_mode IdList ++ encode_var_int num_elems ++ mjoin (item_id <$> items), last)
  else split_buckets e (N.to_nat BUCKETS) 0 num_elems lower upper upper_bound last.

Definition initiate (e : Negentropy) : result NegError bytes * Negentropy :=
  if ng_is_initiator e then (Err AlreadyBuiltInitialMessage, e)
  else
    let e := mkNegentropy (ng_storage e) (ng_frame_size_limit e) true in
    (size ← storage_size (ng_storage e);
     '(o, _) ← split_range e 0 size (bound_with_timestamp u64_max) 0;
     Ok (PROTOCOL_VERSION :: o), e).

(** ** Reconciliation

    The loop's variables. [last_timestamp_in] and [last_timestamp_out] are
    fields of the engine in the code, but every call starts by resetting
    them. *)
Record LoopState : Type := mkLoop {
  lp_last_in : N;
  lp_last_out : N;
  lp_query : bytes;
  lp_full_output : bytes;
  lp_prev_bound : Bound;
  lp_prev_index : N;
  lp_skip : bool;
  lp_have : list bytes;
  lp_need : list bytes;
}.
(** What a range's mode does: the output [o], what it committed to the full
    output, the encoder's state, [skip], [upper], [truncated] and the lists. *)
Record RangeResult : Type := mkRange {
  rg_o : bytes;
  rg_committed : bytes;
  rg_last_out : N;
  rg_query : bytes;
  rg_skip : bool;
  rg_upper : N;
  rg_truncated : bool;
  rg_have : list bytes;
  rg_need : list bytes;
}.

(** [if skip { skip = false; o.extend(..prev_bound); o.extend(..Skip) }]. *)
Definition do_skip (l : LoopState) : bytes * N :=
  if lp_skip l then
    let '(b, last) := encode_bound (lp_prev_bound l) (lp_last_out l) in
    (b ++ encode_mode Skip, last)
  else ([], lp_last_out l).

Definition range_fingerprint (e : Negentropy) (lower upper : N) (curr_bound : Bound)
    (query : bytes) (l : LoopState) : result NegError RangeResult :=
  match get_bytes FINGERPRINT_SIZE query with
  | (Err error, _) => Err error
  | (Ok their_fingerprint, query) =>
      our_fingerprint ← storage_fingerprint (ng_storage e) lower upper;
      if decide (their_fingerprint ≠ our_fingerprint) then
        let '(s, last) := do_skip l in
        '(o, last) ← split_range e lower upper curr_bound last;
        Ok (mkRange (s ++ o) [] last query false upper false (lp_have l) (lp_need l))
      else
        Ok (mkRange [] [] (lp_last_out l) query true upper false (lp_have l) (lp_need l))
  end.

(** [for _ in 0..num_ids { .. their_elems.insert(..) }]. *)
Fixpoint read_ids (count : nat) (their_elems : gmap bytes bytes) (query : bytes)
    : result NegError (gmap bytes bytes * bytes) :=
  match count with
  | O => Ok (their_elems, query)
  | S count =>
      match get_bytes ID_SIZE query with
      | (Err error, _) => Err error
      | (Ok id, query) => read_ids count (<[id := id]> their_elems) query
      end
  end.
(** The walk that compares our items with theirs. *)
Fixpoint compare_ids (initiator : bool) (items : list Item) (their_elems : gmap bytes bytes)
    (have : list bytes) : gmap bytes bytes * list bytes :=
  match items with
  | [] => (their_elems, have)
  | item :: items =>
      match their_elems !! item_id item with
      | None => compare_ids initiator items their_elems
                  (if initiator then have ++ [item_id item] else have)
      | Some _ => compare_ids initiator items (delete (item_id item) their_elems) have
      end
  end.
(** The walk that lists our items until the frame is full: the identifiers
    written, and the item and index it stopped at. *)
Fixpoint response_ids (e : Negentropy) (full : N) (items : list Item) (index : N)
    (ids : list bytes) : list bytes * option (Item * N) :=
  match items with
  | [] => (ids, None)
  | item :: items =>
      if exceeded_frame_size_limit e (full + nlen (mjoin ids)) then (ids, Some (item, index))
      else response_ids e full items (index + 1) (ids ++ [item_id item])
  end.

Definition range_id_list (e : Negentropy) (lower upper : N) (curr_bound : Bound)
    (query : bytes) (l : LoopState) : result NegError RangeResult :=
  match decode_var_int query with
  | (Err error, _) => Err error
  | (Ok num_ids, query) =>
      if decide (nlen query `div` ID_SIZE < num_ids) then Err ParseEndsPrematurely
      else
        '(their_elems, query) ← read_ids (N.to_nat num_ids) ∅ query;
        items ← storage_iterate (ng_storage e) lower upper;
        let '(their_elems, have) :=
          compare_ids (ng_is_initiator e) items their_elems (lp_have l) in
        if ng_is_initiator e then
          Ok (mkRange [] [] (lp_last_out l) query true upper false have
            (lp_need l ++ hash_values their_elems))
        else
          let '(s, last) := do_skip l in
          let '(ids, stopped) :=
            response_ids e (nlen (lp_full_output l)) items lower [] in
          let end_bound := match stopped with
                           | Some (item, _) => bound_from_item item
                           | None => curr_bound
                           end in
          let upper := match stopped with Some (_, index) => index | None => upper end in
          let '(b, last) := encode_bound end_bound last in
          Ok (mkRange [] (s ++ b ++ encode_mode IdList ++ encode_var_int (nlen ids) ++ mjoin ids)
            last query false upper (bool_decide (stopped ≠ None)) have (lp_need l))
  end.

Definition range_result (e : Negentropy) (mode : Mode) (lower upper : N) (curr_bound : Bound)
    (query : bytes) (l : LoopState) : result NegError RangeResult :=
  match mode with
  | Skip => Ok (mkRange [] [] (lp_last_out l) query true upper false (lp_have l) (lp_need l))
  | Fingerprint => range_fingerprint e lower upper curr_bound query l
  | IdList => range_id_list e lower upper curr_bound query l
  end.

(** The end of a turn: go on ([true]), or close the frame with a fingerprint
    of everything that is left ([false]). *)
Definition finish_range (e : Negentropy) (size lower : N) (curr_bound : Bound) (last_in : N)
    (l : LoopState) (g : RangeResult) : result NegError (bool * LoopState) :=
  let full := lp_full_output l ++ rg_committed g in
  let o := rg_o g in
  if rg_truncated g || exceeded_frame_size_limit e (nlen full + nlen o) then
    let remaining := if decide (o = []) then rg_upper g else lower in
    let last := if decide (o = []) then rg_last_out g else lp_last_out l in
    let '(skipped, last) :=
      if rg_truncated g then ([], last)
      else
        let boundary := if decide (o = []) then curr_bound else lp_prev_bound l in
        let '(b, last) := encode_bound boundary last in
        (b ++ encode_mode Skip, last) in
    remaining_fingerprint ← storage_fingerprint (ng_storage e) remaining size;
    let '(b, last) := encode_bound (bound_with_timestamp u64_max) last in
    Ok (false, mkLoop last_in last (rg_query g)
      (full ++ skipped ++ b ++ encode_mode Fingerprint ++ remaining_fingerprint)
      (lp_prev_bound l) (lp_prev_index l) (rg_skip g) (rg_have g) (rg_need g))
  else
    Ok (true, mkLoop last_in (rg_last_out g) (rg_query g) (full ++ o) curr_bound (rg_upper g)
      (rg_skip g) (rg_have g) (rg_need g)).

Definition reconcile_turn (e : Negentropy) (size : N) (l : LoopState)
    : result NegError (bool * LoopState) :=
  match (bound ← decode_bound; mode ← decode_mode; mret (bound, mode))
          (lp_last_in l, lp_query l) with
  | (Err error, _) => Err error
  | (Ok (curr_bound, mode), (last_in, query)) =>
      let lower := lp_prev_index l in
      let upper := find_lower_bound (ng_storage e) lower size curr_bound in
      g ← range_result e mode lower upper curr_bound query l;
      finish_range e size lower curr_bound last_in l g
  end.
(** Every turn reads at least three bytes, so the length is enough fuel;
    [None] is running out of it. *)
Fixpoint reconcile_loop (fuel : nat) (e : Negentropy) (size : N) (l : LoopState)
    : option (result NegError LoopState) :=
  match fuel with
  | O => None
  | S fuel =>
      if decide (lp_query l = []) then Some (Ok l)
      else
        match reconcile_turn e size l with
        | Err error => Some (Err error)
        | Ok (false, l) => Some (Ok l)
        | Ok (true, l) => reconcile_loop fuel e size l
        end
  end.

(** A function of the result of a call, if there is one. *)
Definition map_outcome {E A B} (f : A → B) (r : option (result E A)) : option (result E B) :=
  match r with
  | Some (Ok a) => Some (Ok (f a))
  | Some (Err error) => Some (Err error)
  | None => None
  end.
Definition loop_start (query : bytes) (have need : list bytes) : LoopState :=
  mkLoop 0 0 query [PROTOCOL_VERSION] bound_new 0 false have need.
Definition reconcile_aux (e : Negentropy) (query : bytes) (have need : list bytes)
    : option (result NegError (bytes * list bytes * list bytes)) :=
  match get_byte query with
  | (Err error, _) => Some (Err error)
  | (Ok protocol_version, query) =>
      if decide (¬ (96 ≤ protocol_version ≤ 111)) then Some (Err InvalidProtocolVersion)
      else if decide (protocol_version ≠ PROTOCOL_VERSION) then
        Some (if ng_is_initiator e then Err UnsupportedProtocolVersion
              else Ok ([PROTOCOL_VERSION], have, need))
      else
        match storage_size (ng_storage e) with
        | Err error => Some (Err error)
        | Ok size =>
            map_outcome (λ l, (lp_full_output l, lp_have l, lp_need l))
              (reconcile_loop (S (length query)) e size (loop_start query have need))
        end
  end.

(** The server's and the client's entry points. *)
Definition engine_reconcile (e : Negentropy) (query : bytes)
    : option (result NegError bytes) :=
  if ng_is_initiator e then Some (Err IsInitiator)
  else map_outcome (λ r, r.1.1) (reconcile_aux e query [] []).
Definition reconcile_with_ids (e : Negentropy) (query : bytes) (have need : list bytes)
    : option (result NegError (option bytes * list bytes * list bytes)) :=
  if negb (ng_is_initiator e) then Some (Err NonInitiator)
  else map_outcome (λ r, (if decide (nlen r.1.1 = 1) then None else Some r.1.1, r.1.2, r.2))
    (reconcile_aux e query have need).
End engine.
