(* ===== verification/NegSplit.v ===== *)
(** * Reconciliation: frames as values and range splitting

    Facts about the frames that Negentropy.v reads and writes, and about its
    splitting of ranges. *)

From S2P Require Export Negentropy.

(** ** Frames as lists of ranges

    What the bytes of a reconciliation frame mean: a list of ranges, each with
    the bound it ends at and a payload. The order of the points on the
    timeline, what the negentropy crate's storage promises ([NegLaws]), and
    the round trip between ranges and bytes. *)

(** ** The order of points *)
Definition point : Type := N * bytes.
Definition plt (p q : point) : Prop := point_compare p q = Lt.
Definition ple (p q : point) : Prop := ¬ plt q p.
#[export] Instance plt_dec p q : Decision (plt p q).
Proof. unfold plt. apply _. Defined.
#[export] Instance ple_dec p q : Decision (ple p q).
Proof. unfold ple. apply _. Defined.

Lemma bytes_compare_eq a b : bytes_compare a b = Eq ↔ a = b.
Proof.
  revert b. induction a as [|x a IH]; intros [|y b]; simpl; [done..|].
  destruct (N.compare_spec x y) as [->|Hlt|Hlt].
  - rewrite IH. naive_solver.
  - split; [done|]. intros [= -> _]. lia.
  - split; [done|]. intros [= -> _]. lia.
Qed.
Lemma bytes_compare_opp a b : bytes_compare b a = CompOpp (bytes_compare a b).
Proof.
  revert b. induction a as [|x a IH]; intros [|y b]; simpl; [done..|].
  rewrite (N.compare_antisym x y). destruct (N.compare x y); simpl; [apply IH|done|done].
Qed.
Lemma bytes_compare_trans a b c :
  bytes_compare a b = Lt → bytes_compare b c = Lt → bytes_compare a c = Lt.
Proof.
  revert b c. induction a as [|x a IH]; intros [|y b] [|z c]; simpl; [done..|].
  destruct (N.compare_spec x y), (N.compare_spec y z), (N.compare_spec x z);
    intros; first [done | lia | eauto].
Qed.

Lemma point_compare_eq p q : point_compare p q = Eq ↔ p = q.
Proof.
  destruct p as [t a], q as [u b]. unfold point_compare. simpl.
  destruct (N.compare_spec t u) as [->|Hlt|Hlt].
  - rewrite bytes_compare_eq. naive_solver.
  - split; [done|]. intros [= -> _]. lia.
  - split; [done|]. intros [= -> _]. lia.
Qed.
Lemma plt_spec p q : plt p q ↔ p.1 < q.1 ∨ p.1 = q.1 ∧ bytes_compare p.2 q.2 = Lt.
Proof.
  unfold plt, point_compare. destruct (N.compare_spec p.1 q.1); naive_solver lia.
Qed.
Lemma plt_trans p q r : plt p q → plt q r → plt p r.
Proof.
  rewrite !plt_spec. intros [?|[? ?]] [?|[? ?]]; [left; lia..|right].
  split; [congruence|by eapply bytes_compare_trans].
Qed.
Lemma plt_irrefl p : ¬ plt p p.
Proof. unfold plt. by rewrite (proj2 (point_compare_eq p p)). Qed.
#[export] Instance plt_strict : StrictOrder plt.
Proof. split; [exact plt_irrefl|exact plt_trans]. Qed.
Lemma plt_total p q : plt p q ∨ p = q ∨ plt q p.
Proof.
  destruct (N.lt_total p.1 q.1) as [?|[Heq|?]].
  - left. rewrite plt_spec. by left.
  - destruct (bytes_compare p.2 q.2) eqn:Hc.
    + right; left. apply bytes_compare_eq in Hc. destruct p, q. naive_solver.
    + left. rewrite plt_spec. by right.
    + right; right. rewrite plt_spec. right. by rewrite bytes_compare_opp, Hc.
  - right; right. rewrite plt_spec. by left.
Qed.
Lemma ple_cases p q : ple p q ↔ plt p q ∨ p = q.
Proof.
  unfold ple. split.
  - destruct (plt_total p q) as [?|[?|?]]; naive_solver.
  - intros [?| ->]; [|apply plt_irrefl]. intros ?. by eapply (plt_irrefl p), plt_trans.
Qed.
#[export] Instance ple_refl : Reflexive ple.
Proof. intros p. rewrite ple_cases. by right. Qed.
#[export] Instance ple_trans : Transitive ple.
Proof. intros p q r. rewrite !ple_cases. intros [?| ->] [?| ->]; eauto using plt_trans. Qed.
Lemma ple_plt_trans p q r : ple p q → plt q r → plt p r.
Proof. rewrite ple_cases. intros [?| ->]; eauto using plt_trans. Qed.
Lemma plt_ple_trans p q r : plt p q → ple q r → plt p r.
Proof. rewrite ple_cases. intros ? [?| ->]; eauto using plt_trans. Qed.
Lemma plt_ple p q : plt p q → ple p q.
Proof. rewrite ple_cases. by left. Qed.
Lemma plt_or_ple p q : plt p q ∨ ple q p.
Proof. unfold ple. destruct (decide (plt p q)); auto. Qed.
Lemma ple_time p q : ple p q → p.1 ≤ q.1.
Proof. rewrite ple_cases, plt_spec. intros [[?|[? ?]]| ->]; lia. Qed.
Lemma point_lt_plt p q : point_lt p q = true ↔ plt p q.
Proof. unfold point_lt, plt. destruct (point_compare p q); naive_solver. Qed.

#[export] Hint Resolve plt_ple : pubsub.

(** ** What the storage promises *)
Definition item_point (x : Item) : point := (item_timestamp x, item_id x).
Definition bound_point (b : Bound) : point := item_point (bound_item b).
Definition slice {A} (lower upper : N) (l : list A) : list A :=
  drop (N.to_nat lower) (take (N.to_nat upper) l).
Definition item_before (b : Bound) (x : Item) : Prop := plt (item_point x) (bound_point b).
#[export] Instance item_before_dec b x : Decision (item_before b x).
Proof. unfold item_before. apply _. Defined.

(** The number of items before a bound, and the items between two. *)
Definition cut (items : list Item) (b : Bound) : N := nlen (filter (item_before b) items).
Definition between (items : list Item) (p b : Bound) : list Item :=
  filter (λ x, ple (bound_point p) (item_point x) ∧ item_before b x) items.

(** The negentropy crate's sealed vector: sorted by time and identifier
    (32 bytes), held in memory, walked and searched by index; the fingerprint of a range is a
    function of its identifiers, 16 bytes long. A bound is a timestamp and a
    prefix of an identifier, padded with zeros. *)
Class NegLaws `{!NegStorage} : Type := {
  stored : Storage → list Item;
  fingerprint_of : list bytes → bytes;
  stored_sorted s : StronglySorted (λ x y, plt (item_point x) (item_point y)) (stored s);
  stored_id s x : x ∈ stored s → length (item_id x) = 32%nat;
  stored_fits s : nlen (stored s) * ID_SIZE ≤ u64_max;
  storage_size_law s : storage_size s = Ok (nlen (stored s));
  storage_iterate_law s lower upper :
    lower ≤ upper ≤ nlen (stored s) →
    storage_iterate s lower upper = Ok (slice lower upper (stored s));
  find_lower_bound_law s lower upper b :
    lower ≤ upper ≤ nlen (stored s) →
    find_lower_bound s lower upper b = lower + cut (slice lower upper (stored s)) b;
  storage_fingerprint_law s lower upper :
    lower ≤ upper ≤ nlen (stored s) →
    storage_fingerprint s lower upper =
      Ok (fingerprint_of (item_id <$> slice lower upper (stored s)));
  fingerprint_length ids : nlen (fingerprint_of ids) = FINGERPRINT_SIZE;
  bound_new_law : bound_new = mkBound item_zero 0;
  bound_with_timestamp_law t : bound_with_timestamp t = mkBound (mkItem t (replicate 32 0)) 0;
  bound_with_timestamp_and_id_law t id :
    bound_with_timestamp_and_id t id =
      if decide (32 < nlen id) then Err BadRange
      else Ok (mkBound (mkItem t (pad_id id)) (nlen id));
  bound_from_item_law x : bound_from_item x = mkBound x ID_SIZE;
}.

(** ** Cutting a sorted list at a bound *)
Notation item_sorted := (StronglySorted (λ x y, plt (item_point x) (item_point y))).
Notation bound_le p b := (ple (bound_point p) (bound_point b)).

Lemma slice_0 {A} n (l : list A) : slice 0 n l = take (N.to_nat n) l.
Proof. unfold slice. by rewrite drop_0. Qed.
Lemma slice_full {A} n (l : list A) : slice n (nlen l) l = drop (N.to_nat n) l.
Proof. unfold slice, nlen. rewrite firstn_all2; [done|lia]. Qed.
Lemma slice_length {A} lower upper (l : list A) :
  lower ≤ upper ≤ nlen l → nlen (slice lower upper l) = upper - lower.
Proof. unfold slice, nlen. rewrite length_drop, length_take. lia. Qed.
Lemma slice_elem {A} lower upper (l : list A) x : x ∈ slice lower upper l → x ∈ l.
Proof. unfold slice. intros ?%subseteq_drop. by eapply subseteq_take. Qed.
Lemma slice_app {A} lower mid upper (l : list A) :
  lower ≤ mid ≤ upper → slice lower mid l ++ slice mid upper l = slice lower upper l.
Proof.
  intros Hm. unfold slice.
  rewrite <-(take_drop (N.to_nat mid) (take (N.to_nat upper) l)) at 2.
  rewrite take_take, Nat.min_l by lia. destruct (decide (nlen l ≤ mid)) as [Hl|Hl]; unfold nlen in Hl.
  - rewrite !(firstn_all2 (n:=N.to_nat mid)), !(firstn_all2 (n:=N.to_nat upper)) by lia.
    rewrite (drop_ge l (N.to_nat mid)) by lia. by rewrite !app_nil_r.
  - by rewrite drop_app_le by (rewrite length_take; lia).
Qed.

Section sorted.
Implicit Types (l : list Item) (b p : Bound).

Lemma sorted_split l b :
  item_sorted l → l = filter (item_before b) l ++ filter (λ x, ¬ item_before b x) l.
Proof.
  induction 1 as [|x l Hl IH Hx]; [done|]. rewrite !filter_cons. rewrite Forall_forall in Hx.
  destruct (decide (item_before b x)) as [Hb|Hb].
  - rewrite decide_False by tauto. simpl. by f_equal.
  - rewrite decide_True by done. rewrite filter_none, filter_all; [done| |].
    all: intros y Hy Hyb; apply Hb; unfold item_before in *;
      eauto using plt_trans.
Qed.
Lemma item_sorted_filter (P : Item → Prop) `{!∀ x, Decision (P x)} l :
  item_sorted l → item_sorted (filter P l).
Proof.
  induction 1 as [|x l Hl IH Hx]; [constructor|].
  rewrite filter_cons. case_decide; [|done]. constructor; [done|].
  rewrite Forall_forall in *. intros y [_ ?]%list_elem_of_filter. auto.
Qed.
Lemma sorted_take_cut l b :
  item_sorted l → take (N.to_nat (cut l b)) l = filter (item_before b) l.
Proof.
  intros Hl. rewrite (sorted_split l b Hl) at 2.
  rewrite take_app_length'; [done|]. unfold cut, nlen. lia.
Qed.
Lemma sorted_drop_cut l b :
  item_sorted l → drop (N.to_nat (cut l b)) l = filter (λ x, ¬ item_before b x) l.
Proof.
  intros Hl. rewrite (sorted_split l b Hl) at 2.
  rewrite drop_app_length'; [done|]. unfold cut, nlen. lia.
Qed.
Lemma cut_le_size l b : cut l b ≤ nlen l.
Proof. unfold cut, nlen. pose proof (length_filter (item_before b) l). lia. Qed.

Lemma before_le p b x : bound_le p b → item_before p x → item_before b x.
Proof. unfold item_before. eauto using plt_ple_trans. Qed.
Lemma between_filter l p b :
  between l p b = filter (λ x, ¬ item_before p x) (filter (item_before b) l).
Proof. unfold between. rewrite list_filter_filter. done. Qed.

(** The part of a range below a bound. *)
Lemma cut_split l p b :
  bound_le p b → cut l b = cut l p + nlen (between l p b).
Proof.
  intros Hpb. rewrite between_filter. unfold cut, nlen. induction l as [|x l IH]; [done|].
  rewrite !filter_cons. pose proof (before_le p b x Hpb).
  repeat case_decide; try tauto; simpl; rewrite ?filter_cons; repeat case_decide; simpl;
    try tauto; lia.
Qed.
Lemma cut_mono l p b : bound_le p b → cut l p ≤ cut l b.
Proof. intros. rewrite (cut_split l p b) by done. lia. Qed.

Lemma slice_between l p b :
  item_sorted l → bound_le p b → slice (cut l p) (cut l b) l = between l p b.
Proof.
  intros Hl Hpb. unfold slice. rewrite sorted_take_cut, between_filter by done.
  set (l' := filter (item_before b) l).
  assert (item_sorted l') as Hl' by by apply item_sorted_filter.
  rewrite <-sorted_drop_cut by done. do 2 f_equal. unfold cut, l'.
  f_equal. rewrite list_filter_filter. apply filter_ext_in. intros x _.
  pose proof (before_le p b x Hpb). tauto.
Qed.
Lemma find_cut l p b :
  item_sorted l → bound_le p b →
  cut l p + cut (slice (cut l p) (nlen l) l) b = cut l b.
Proof.
  intros Hl Hpb. rewrite slice_full, sorted_drop_cut, (cut_split l p b) by done.
  f_equal. unfold cut. f_equal. rewrite between_filter, !list_filter_filter.
  apply filter_ext_in. tauto.
Qed.

Lemma cut_all l b : (∀ x, x ∈ l → item_before b x) → cut l b = nlen l.
Proof. intros Hb. unfold cut. by rewrite filter_all. Qed.
Lemma cut_none l b : (∀ x, x ∈ l → ¬ item_before b x) → cut l b = 0.
Proof. intros Hb. unfold cut. by rewrite filter_none. Qed.
(** A bound above the item before an index and not above the item there. *)
Lemma cut_index l b c x y :
  item_sorted l → l !! N.to_nat c = Some y → ¬ item_before b y →
  l !! (N.to_nat c - 1)%nat = Some x → 0 < c → item_before b x → cut l b = c.
Proof.
  intros Hl Hy Hby Hx Hc Hbx.
  assert (∀ i j u v, l !! i = Some u → l !! j = Some v → (i < j)%nat →
    plt (item_point u) (item_point v)) as Hord.
  { clear -Hl. intros i j u v Hi Hj Hij. revert i j Hi Hj Hij.
    induction Hl as [|z l Hl IH Hz]; intros i j Hi Hj Hij; [done|].
    destruct j as [|j]; [lia|]. destruct i as [|i]; simplify_eq/=.
    - rewrite Forall_forall in Hz. apply Hz. by eapply list_elem_of_lookup_2.
    - eapply IH; eauto with lia. }
  assert (N.to_nat c < length l)%nat by (by eapply lookup_lt_Some).
  rewrite <-(take_drop (N.to_nat c) l). unfold cut. rewrite filter_app, nlen_app.
  rewrite filter_all, filter_none.
  - unfold nlen. rewrite length_take. simpl. lia.
  - intros z [i Hi]%list_elem_of_lookup. rewrite lookup_drop in Hi. intros Hbz. apply Hby.
    destruct i as [|i]; [rewrite Nat.add_0_r in Hi; congruence|].
    eapply plt_trans; [|exact Hbz]. eapply Hord; eauto with lia.
  - intros z [i Hi]%list_elem_of_lookup. apply lookup_take_Some in Hi as [Hi Hic].
    destruct (decide (i = N.to_nat c - 1)%nat) as [->|]; [congruence|].
    eapply plt_trans; [|exact Hbx]. eapply Hord; eauto with lia.
Qed.
End sorted.

(** ** Ranges and their bytes *)
Inductive Payload : Set :=
  | PSkip
  | PFingerprint (fingerprint : bytes)
  | PIds (ids : list bytes).
Definition Range : Set := Bound * Payload.

(** A bound as the code makes them: the identifier is a prefix, padded. *)
Definition bound_ok (b : Bound) : Prop :=
  item_timestamp (bound_item b) ≤ u64_max ∧ bound_id_len b ≤ ID_SIZE ∧
  item_id (bound_item b) = pad_id (take (N.to_nat (bound_id_len b)) (item_id (bound_item b))) ∧
  length (item_id (bound_item b)) = 32%nat.
Definition bound_time (b : Bound) : N := item_timestamp (bound_item b).

Definition encode_payload (p : Payload) : bytes :=
  match p with
  | PSkip => encode_mode Skip
  | PFingerprint f => encode_mode Fingerprint ++ f
  | PIds ids => encode_mode IdList ++ encode_var_int (nlen ids) ++ mjoin ids
  end.
Definition encode_range (last : N) (r : Range) : bytes :=
  (encode_bound r.1 last).1 ++ encode_payload r.2.
Fixpoint encode_ranges (last : N) (rs : list Range) : bytes :=
  match rs with
  | [] => []
  | r :: rs => encode_range last r ++ encode_ranges (bound_time r.1) rs
  end.
Definition last_time (last : N) (rs : list Range) : N :=
  default last (bound_time ∘ fst <$> list.last rs).

Lemma encode_bound_last b last : (encode_bound b last).2 = bound_time b.
Proof.
  unfold encode_bound, encode_timestamp_out, bound_time. by case_decide.
Qed.
Lemma encode_bound_pair b last : encode_bound b last = ((encode_bound b last).1, bound_time b).
Proof. rewrite <-(encode_bound_last b last). by destruct (encode_bound b last). Qed.
Lemma last_time_cons last r rs : last_time last (r :: rs) = last_time (bound_time r.1) rs.
Proof.
  unfold last_time. destruct rs as [|r' rs]; [done|].
  change (list.last (r :: r' :: rs)) with (list.last (r' :: rs)).
  destruct (last_is_Some (r' :: rs)) as [_ Hs]. destruct (Hs ltac:(done)) as [x ->]. done.
Qed.
Lemma last_time_app last rs1 rs2 :
  last_time last (rs1 ++ rs2) = last_time (last_time last rs1) rs2.
Proof.
  revert last. induction rs1 as [|r rs1 IH]; intros last; [done|].
  simpl. by rewrite !last_time_cons, IH.
Qed.
Lemma encode_ranges_app last rs1 rs2 :
  encode_ranges last (rs1 ++ rs2) = encode_ranges last rs1 ++ encode_ranges (last_time last rs1) rs2.
Proof.
  revert last. induction rs1 as [|r rs1 IH]; intros last; [done|].
  simpl. by rewrite last_time_cons, IH, app_assoc.
Qed.

(** *** Decoding what was encoded *)
Lemma low_digits_nonempty turns n : n ≠ 0 → length (low_digits (S turns) n) ≠ 0%nat.
Proof. intros Hn. cbn [low_digits]. by rewrite decide_False. Qed.
Lemma encode_var_int_cons n : ∃ b o, encode_var_int n = b :: o.
Proof.
  unfold encode_var_int. case_decide; [by eexists _, _|].
  destruct (mark_digits _) as [|b o] eqn:Hm; [|by eexists _, _].
  apply (f_equal length) in Hm. rewrite mark_digits_length, length_reverse in Hm.
  by destruct (low_digits_nonempty 9 n).
Qed.
Lemma lift_query_Ok {A} (parse : SE bytes NegError A) last q a rest :
  parse q = (Ok a, rest) → lift_query parse (last, q) = (Ok a, (last, rest)).
Proof. unfold lift_query. simpl. by intros ->. Qed.
Lemma get_bytes_app b rest : get_bytes (nlen b) (b ++ rest) = (Ok b, rest).
Proof. by apply get_bytes_Ok. Qed.
Lemma mjoin_ids_length (ids : list bytes) :
  Forall (λ id, length id = 32%nat) ids → nlen (mjoin ids) = nlen ids * ID_SIZE.
Proof.
  induction 1 as [|id ids Hid _ IH]; [done|].
  change (mjoin (id :: ids)) with (id ++ mjoin ids). rewrite nlen_app, nlen_cons, IH.
  unfold nlen. rewrite Hid. unfold ID_SIZE. lia.
Qed.
Lemma resize_take n l : n ≤ nlen l → resize n l = take (N.to_nat n) l.
Proof.
  unfold resize, nlen. intros Hn.
  replace (N.to_nat n - length l)%nat with 0%nat by lia. by rewrite app_nil_r.
Qed.

Lemma decode_time_encode b last q :
  bound_time b ≤ u64_max → last ≤ bound_time b →
  decode_timestamp_in (last, (encode_timestamp_out (bound_time b) last).1 ++ q) =
    (Ok (bound_time b), (bound_time b, q)).
Proof.
  intros Hmax Hlast. unfold encode_timestamp_out, decode_timestamp_in. se_unfold.
  case_decide as Hm; cbn [fst].
  - erewrite lift_query_Ok by (by apply (decode_encode_var_int 0)). simpl.
    replace (u64_sat_add u64_max last) with (bound_time b); [done|].
    unfold u64_sat_add, sat_add. lia.
  - assert (u64_sat_add (bound_time b - last) 1 = bound_time b - last + 1) as ->.
    { apply sat_add_exact. lia. }
    erewrite lift_query_Ok by (apply decode_encode_var_int; lia). simpl.
    rewrite decide_False by lia.
    replace (u64_sat_add (bound_time b - last + 1 - 1) last) with (bound_time b); [done|].
    unfold u64_sat_add. rewrite sat_add_exact by lia. lia.
Qed.

Lemma decode_mode_encode mode last q :
  decode_mode (last, encode_mode mode ++ q) = (Ok mode, (last, q)).
Proof.
  unfold decode_mode, encode_mode. se_unfold.
  erewrite lift_query_Ok by (apply decode_encode_var_int; by destruct mode).
  by destruct mode.
Qed.

Section decode.
Context `{!NegStorage, !NegLaws}.

Lemma decode_bound_encode b last q :
  bound_ok b → last ≤ bound_time b →
  decode_bound (last, (encode_bound b last).1 ++ q) = (Ok b, (bound_time b, q)).
Proof.
  intros (Hmax & Hlen & Hid & H32) Hlast. unfold decode_bound, encode_bound.
  destruct (encode_timestamp_out _ last) as [t l] eqn:Ht. cbn [fst].
  pose proof (decode_time_encode b last) as Hd. unfold bound_time in Hd.
  rewrite Ht in Hd. cbn [fst] in Hd. se_unfold. rewrite <-!app_assoc, Hd by done.
  assert (bound_id_len b = nlen (take (N.to_nat (bound_id_len b)) (item_id (bound_item b))))
    as Hn.
  { unfold nlen. rewrite length_take. unfold ID_SIZE in Hlen. lia. }
  erewrite lift_query_Ok.
  2:{ apply decode_encode_var_int. unfold ID_SIZE in Hlen. etrans; [exact Hlen|]. done. }
  rewrite resize_take by (unfold nlen, ID_SIZE in *; lia).
  erewrite lift_query_Ok by (rewrite Hn at 1; apply get_bytes_app).
  rewrite bound_with_timestamp_and_id_law, decide_False by (unfold ID_SIZE in Hlen; lia).
  rewrite <-Hid, <-Hn. destruct b as [[ts id] n]. done.
Qed.

(** *** What decoding reads *)
Lemma se_bind_Ok_pair {A B} (c : SE (N * bytes) NegError A) (f : A → SE (N * bytes) NegError B)
    s b s' :
  (c ≫= f) s = (Ok b, s') → ∃ a t q, c s = (Ok a, (t, q)) ∧ f a (t, q) = (Ok b, s').
Proof. intros (a & [t q] & Hc & Hf)%se_bind_Ok. eauto. Qed.
Lemma lift_query_inv {A} (parse : SE bytes NegError A) last q a t q' :
  lift_query parse (last, q) = (Ok a, (t, q')) → parse q = (Ok a, q') ∧ t = last.
Proof. unfold lift_query. simpl. destruct (parse q) as [r rest]. naive_solver. Qed.
Lemma decode_mode_inv last q mode t q' :
  decode_mode (last, q) = (Ok mode, (t, q')) →
  ∃ n, decode_var_int q = (Ok n, q') ∧ mode_try_from n = Ok mode ∧ t = last.
Proof.
  intros (n & t1 & q1 & [Hn ->]%lift_query_inv & Hm)%se_bind_Ok_pair.
  unfold se_lift in Hm. simplify_eq. eauto.
Qed.
Definition time_of (last n : N) : N := u64_sat_add (if decide (n = 0) then u64_max else n - 1) last.
Lemma decode_bound_inv last q b t q' :
  decode_bound (last, q) = (Ok b, (t, q')) →
  ∃ len id q1 q2, (∃ n, decode_var_int q = (Ok n, q1) ∧ t = time_of last n) ∧
    decode_var_int q1 = (Ok len, q2) ∧ get_bytes len q2 = (Ok id, q') ∧
    nlen id ≤ 32 ∧ b = mkBound (mkItem t (pad_id id)) (nlen id).
Proof.
  intros (ts & t1 & q1 & Ht & Hr)%se_bind_Ok_pair.
  apply se_bind_Ok_pair in Ht as (n & t0 & q0 & [Hn ->]%lift_query_inv & Ht).
  unfold se_get, se_modify, mbind, se_bind, mret, se_ret in Ht. simpl in Ht. simplify_eq.
  apply se_bind_Ok_pair in Hr as (len & t2 & q2 & [Hlen ->]%lift_query_inv & Hr).
  apply se_bind_Ok_pair in Hr as (id & t3 & q3 & [Hid ->]%lift_query_inv & Hr).
  unfold se_lift in Hr. rewrite bound_with_timestamp_and_id_law in Hr. case_decide; simplify_eq.
  eexists _, _, _, _. split_and!; [by eexists|done..|lia|done].
Qed.

(** *** The bounds the code makes *)
Lemma zero_id_ok t n : t ≤ u64_max → n = 0 → bound_ok (mkBound (mkItem t (replicate 32 0)) n).
Proof. intros ? ->. by split_and!. Qed.
Lemma bound_new_ok : bound_ok bound_new.
Proof. rewrite bound_new_law. by apply zero_id_ok. Qed.
Lemma bound_timestamp_ok t : t ≤ u64_max → bound_ok (bound_with_timestamp t).
Proof. rewrite bound_with_timestamp_law. intros. by apply zero_id_ok. Qed.
Lemma bound_id_ok t id b :
  t ≤ u64_max → bound_with_timestamp_and_id t id = Ok b → bound_ok b.
Proof.
  rewrite bound_with_timestamp_and_id_law. intros Ht. case_decide as Hd; [done|].
  intros [= <-]. assert (length id ≤ 32)%nat as Hid by (unfold nlen in Hd; lia).
  unfold bound_ok, nlen, ID_SIZE, pad_id. cbn [bound_item bound_id_len item_timestamp item_id].
  rewrite Nat2N.id, take_app_length, length_app, length_replicate. split_and!; [done|lia|done|lia].
Qed.
Lemma bound_item_ok x :
  item_timestamp x ≤ u64_max → length (item_id x) = 32%nat → bound_ok (bound_from_item x).
Proof.
  rewrite bound_from_item_law. intros Ht Hx.
  unfold bound_ok. cbn [bound_item bound_id_len].
  change (N.to_nat ID_SIZE) with 32%nat. rewrite firstn_all2 by lia.
  unfold pad_id. rewrite Hx. simpl. rewrite app_nil_r. by split_and!.
Qed.
End decode.

(** ** Splitting a range

    [split_range] of engine.rs covers the range it is given: its ranges meet,
    end at the bound it is given, and say of each part what the storage
    holds. *)

(** ** What a frame says of a set of items *)
Section meaning.
Context `{!NegStorage, !NegLaws}.
Implicit Types (items : list Item) (p b q : Bound) (rs : list Range).

Definition payload_ok items p b (pl : Payload) : Prop :=
  match pl with
  | PSkip => True
  | PFingerprint f => f = fingerprint_of (item_id <$> between items p b)
  | PIds ids => ids = item_id <$> between items p b
  end.
(** The ranges from [p] on, which meet and end at [q], are those of a peer
    that holds [items]. *)
Inductive frame_from items : Bound → list Range → Bound → Prop :=
  | frame_nil p : frame_from items p [] p
  | frame_cons p b pl rs q :
      bound_le p b → bound_ok b → payload_ok items p b pl → frame_from items b rs q →
      frame_from items p ((b, pl) :: rs) q.
(** An item is in a range that is not skipped. *)
Fixpoint open_in p rs (x : Item) : Prop :=
  match rs with
  | [] => False
  | (b, pl) :: rs =>
      (pl ≠ PSkip ∧ ¬ item_before p x ∧ item_before b x) ∨ open_in b rs x
  end.

Lemma frame_app items p rs1 q rs2 r :
  frame_from items p rs1 q → frame_from items q rs2 r → frame_from items p (rs1 ++ rs2) r.
Proof. induction 1; simpl; intros; [done|]. constructor; auto. Qed.
Lemma frame_le items p rs q : frame_from items p rs q → bound_le p q.
Proof. induction 1; [reflexivity|]. by etrans. Qed.
Lemma frame_ok items p rs q : bound_ok p → frame_from items p rs q → bound_ok q.
Proof. intros Hp Hf. by induction Hf; auto. Qed.
Lemma frame_last items p rs q :
  frame_from items p rs q → last_time (bound_time p) rs = bound_time q.
Proof. induction 1; [done|]. by rewrite last_time_cons. Qed.
Lemma frame_last_any items p rs q last :
  rs ≠ [] → frame_from items p rs q → last_time last rs = bound_time q.
Proof.
  intros Hne Hf. destruct Hf as [|p b pl rs q ??? Hf]; [done|].
  rewrite last_time_cons. by eapply frame_last.
Qed.
Lemma frame_one items p b pl :
  bound_le p b → bound_ok b → payload_ok items p b pl → frame_from items p [(b, pl)] b.
Proof. intros. constructor; [done..|constructor]. Qed.
Lemma open_in_app items p rs1 q rs2 x :
  frame_from items p rs1 q → open_in p (rs1 ++ rs2) x ↔ open_in p rs1 x ∨ open_in q rs2 x.
Proof.
  induction 1 as [|p b pl rs q ??? _ IH]; simpl; [tauto|]. rewrite IH. tauto.
Qed.
(** Ranges none of which is skipped leave everything between open. *)
Lemma open_in_all items p rs q x :
  frame_from items p rs q → Forall (λ r, r.2 ≠ PSkip) rs →
  ¬ item_before p x → item_before q x → open_in p rs x.
Proof.
  induction 1 as [p|p b pl rs q Hpb Hb Hpl Hrs IH]; intros Hall Hp Hq; [done|].
  apply Forall_cons in Hall as [Hr Hall]. simpl in *.
  destruct (decide (item_before b x)); [by left|right; by apply IH].
Qed.
End meaning.

(** ** The bounds between items *)
Lemma bytes_compare_zeros a n : (n ≤ length a)%nat → bytes_compare a (replicate n 0) ≠ Lt.
Proof.
  revert n. induction a as [|x a IH]; intros [|n] Hn; simpl in *; [done|lia|done|].
  destruct (N.compare_spec x 0); [apply IH; lia|lia|done].
Qed.
Lemma shared_prefix_bound a b :
  length a = length b → bytes_compare a b = Lt →
  (shared_prefix a b < length b)%nat ∧
  (∀ z, bytes_compare a (take (S (shared_prefix a b)) b ++ z) = Lt) ∧
  bytes_compare b (take (S (shared_prefix a b)) b
    ++ replicate (length b - S (shared_prefix a b)) 0) ≠ Lt.
Proof.
  revert b. induction a as [|x a IH]; intros [|y b] Hlen Hlt; simpl in *; try done.
  destruct (N.compare_spec x y) as [->|Hxy|]; [| |done].
  - rewrite decide_True by done. destruct (IH b) as (Hk & Hz & Hb); [lia|done|].
    split_and!; [lia| |].
    + exact Hz.
    + simpl. destruct (N.compare_spec y y); [apply Hb|lia..].
  - rewrite decide_False by lia. split_and!; [lia| |].
    + done.
    + simpl. rewrite Nat.sub_0_r. destruct (N.compare_spec y y); [|lia..].
      by apply bytes_compare_zeros.
Qed.

Section split.
Context `{!NegStorage, !NegLaws}.

Lemma get_minimal_bound_ok x y :
  length (item_id x) = 32%nat → length (item_id y) = 32%nat → item_timestamp y ≤ u64_max →
  plt (item_point x) (item_point y) →
  ∃ b, get_minimal_bound x y = Ok b ∧ bound_ok b ∧ item_before b x ∧ ¬ item_before b y.
Proof.
  intros Hx Hy Hmax Hlt. apply plt_spec in Hlt. simpl in Hlt. unfold get_minimal_bound.
  case_decide as Ht.
  - destruct Hlt as [Hlt|[? _]]; [|congruence].
    eexists. split; [done|]. split; [by apply bound_timestamp_ok|].
    rewrite bound_with_timestamp_law. unfold item_before. rewrite !plt_spec. simpl. split; [auto|].
    intros [?|[_ ?]]; [lia|]. by eapply (bytes_compare_zeros (item_id y) 32); [lia|].
  - destruct Hlt as [?|[_ Hlt]]; [lia|].
    destruct (shared_prefix_bound (item_id x) (item_id y)) as (Hk & Hz & Hb); [lia|done|].
    rewrite decide_True by done.
    rewrite bound_with_timestamp_and_id_law, decide_False by (unfold nlen; rewrite length_take; lia).
    eexists. split; [done|]. split.
    { eapply (bound_id_ok (item_timestamp y)); [done|].
      rewrite bound_with_timestamp_and_id_law, decide_False; [done|].
      unfold nlen. rewrite length_take. lia. }
    unfold item_before, pad_id. rewrite !plt_spec. simpl. split.
    + right. split; [lia|]. apply Hz.
    + intros [?|[_ Hc]]; [lia|]. apply Hb. rewrite length_take, Nat.min_l in Hc by lia.
      by rewrite Hy.
Qed.

(** ** [split_range] *)
Variable e : Negentropy.
Notation items := (stored (ng_storage e)).
Notation size := (nlen items).

(** What is left of a range after [i] buckets. *)
Definition buckets_left (num_elems i : N) : N :=
  (BUCKETS - i) * (num_elems `div` BUCKETS) + (num_elems `mod` BUCKETS - i).
Lemma buckets_left_step num_elems i :
  i < BUCKETS → buckets_left num_elems i = bucket_size num_elems i + buckets_left num_elems (i + 1).
Proof.
  unfold buckets_left, bucket_size. intros Hi.
  replace (BUCKETS - i) with (BUCKETS - (i + 1) + 1) by lia.
  rewrite N.mul_add_distr_r, N.mul_1_l. case_decide; lia.
Qed.
Lemma buckets_left_all num_elems : buckets_left num_elems 0 = num_elems.
Proof.
  unfold buckets_left, BUCKETS. pose proof (N.Div0.div_mod num_elems 16).
  by rewrite !N.sub_0_r.
Qed.
Lemma buckets_left_none num_elems : buckets_left num_elems BUCKETS = 0.
Proof.
  unfold buckets_left, BUCKETS.
  pose proof (N.mod_lt num_elems 16 ltac:(done)). lia.
Qed.
Lemma buckets_left_pos num_elems i :
  DOUBLE_BUCKETS ≤ num_elems → i < BUCKETS → 0 < buckets_left num_elems i.
Proof.
  unfold buckets_left, DOUBLE_BUCKETS, BUCKETS. intros Hn Hi.
  assert (0 < num_elems `div` 16) by (apply N.div_str_pos; lia). nia.
Qed.

Lemma next_bound_ok curr upper upper_bound :
  0 < curr → curr < upper ≤ size → (∀ x, x ∈ items → item_timestamp x ≤ u64_max) →
  ∃ b, next_bound e curr upper upper_bound = Ok b ∧ bound_ok b ∧ cut items b = curr.
Proof.
  intros Hpos Hcurr Hmax. unfold next_bound. rewrite decide_False by lia.
  rewrite storage_iterate_law by lia.
  assert (is_Some (items !! (N.to_nat curr - 1)%nat)) as [x Hx].
  { apply lookup_lt_is_Some. unfold nlen in Hcurr. lia. }
  assert (is_Some (items !! N.to_nat curr)) as [y Hy].
  { apply lookup_lt_is_Some. unfold nlen in Hcurr. lia. }
  assert (slice (curr - 1) (curr + 1) items = [x; y]) as ->.
  { unfold slice. replace (N.to_nat (curr + 1)) with (S (S (N.to_nat curr - 1))) by lia.
    erewrite take_S_r by (replace (S (N.to_nat curr - 1)) with (N.to_nat curr) by lia; exact Hy).
    erewrite take_S_r by exact Hx. rewrite <-app_assoc.
    rewrite drop_app_length'; [done|]. rewrite length_take.
    apply lookup_lt_Some in Hx. lia. }
  cbn [head tail last default]. cbn.
  assert (plt (item_point x) (item_point y)) as Hlt.
  { pose proof (stored_sorted (ng_storage e)) as Hs.
    rewrite <-(take_drop_middle _ _ _ Hy) in Hs.
    apply StronglySorted_app in Hs as (Hs & _ & _).
    apply Hs; [|by left]. apply list_elem_of_lookup. exists (N.to_nat curr - 1)%nat.
    apply lookup_take_Some. split; [done|lia]. }
  apply list_elem_of_lookup_2 in Hx as Hxi. apply list_elem_of_lookup_2 in Hy as Hyi.
  destruct (get_minimal_bound_ok x y) as (b & -> & Hb & Hbx & Hby);
    [by eapply stored_id|by eapply stored_id|auto|done|].
  exists b. split_and!; [done..|]. eapply cut_index; eauto using stored_sorted.
Qed.

Lemma split_buckets_ok turns i num_elems p upper_bound last :
  N.of_nat turns + i = BUCKETS → DOUBLE_BUCKETS ≤ num_elems →
  (∀ x, x ∈ items → item_timestamp x ≤ u64_max) →
  bound_ok upper_bound → bound_le p upper_bound → (turns = 0%nat → p = upper_bound) →
  cut items upper_bound = cut items p + buckets_left num_elems i →
  ∃ rs, split_buckets e turns i num_elems (cut items p) (cut items upper_bound) upper_bound last
      = Ok (encode_ranges last rs, last_time last rs) ∧
    frame_from items p rs upper_bound ∧ Forall (λ r, r.2 ≠ PSkip) rs ∧ length rs = turns.
Proof.
  intros Hi Hnum Hmax Hub. revert i p last Hi.
  induction turns as [|turns IH]; intros i p last Hi Hle Hend Hleft.
  { rewrite Hend by done. exists []. repeat constructor. }
  pose proof (buckets_left_step num_elems i ltac:(lia)) as Hstep.
  pose proof (buckets_left_pos num_elems i Hnum ltac:(lia)) as Hpos.
  pose proof (cut_le_size items upper_bound) as Hsize.
  set (curr := cut items p + bucket_size num_elems i).
  assert (∃ b, next_bound e curr (cut items upper_bound) upper_bound = Ok b ∧ bound_ok b ∧
    cut items b = curr ∧ bound_le p b ∧ bound_le b upper_bound ∧ (turns = 0%nat → b = upper_bound))
    as (b & Hb & Hbok & Hcut & Hpb & Hbu & Hbend).
  { destruct turns as [|turns].
    - exists upper_bound. unfold next_bound.
      replace (i + 1) with BUCKETS in Hstep by lia. rewrite buckets_left_none in Hstep.
      rewrite decide_True by lia. repeat split; [apply Hub..|lia|done|reflexivity].
    - pose proof (buckets_left_pos num_elems (i + 1) Hnum ltac:(lia)) as Hpos'.
      assert (0 < bucket_size num_elems i).
      { unfold bucket_size. assert (0 < num_elems `div` BUCKETS); [|case_decide; lia].
        unfold DOUBLE_BUCKETS, BUCKETS in *. apply N.div_str_pos. lia. }
      destruct (next_bound_ok curr (cut items upper_bound) upper_bound) as (b & Hb & Hbok & Hcut);
        [lia|lia|done|].
      exists b. split_and!; [done..| | |done].
      + intros Hbp%plt_ple. pose proof (cut_mono items b p Hbp). lia.
      + intros Hbp%plt_ple. pose proof (cut_mono items _ _ Hbp). lia. }
  destruct (IH (i + 1) b (bound_time b)) as (rs & Hrs & Hframe & Hall & Hlen);
    [lia|done|done|lia|].
  exists ((b, PFingerprint (fingerprint_of (item_id <$> between items p b))) :: rs).
  rewrite Hcut in Hrs. cbn [split_buckets]. fold curr.
  rewrite storage_fingerprint_law by lia. rewrite <-Hcut in Hrs |- *.
  rewrite slice_between by (done || apply stored_sorted). rewrite Hcut in Hrs |- *.
  cbn [mbind result_bind]. rewrite Hb. cbn [mbind result_bind].
  rewrite encode_bound_pair, Hrs. cbn [mbind result_bind]. split_and!.
  - rewrite last_time_cons. cbn [encode_ranges]. unfold encode_range. cbn [fst snd encode_payload].
    by rewrite <-!app_assoc.
  - by constructor.
  - by constructor.
  - simpl. by rewrite Hlen.
Qed.

(** [split_range] returns bytes for ranges that cover what it is given. *)
Lemma split_range_ok p upper_bound last :
  (∀ x, x ∈ items → item_timestamp x ≤ u64_max) →
  bound_ok upper_bound → bound_le p upper_bound →
  ∃ rs, split_range e (cut items p) (cut items upper_bound) upper_bound last
      = Ok (encode_ranges last rs, bound_time upper_bound) ∧
    frame_from items p rs upper_bound ∧ Forall (λ r, r.2 ≠ PSkip) rs ∧ rs ≠ [].
Proof.
  intros Hmax Hub Hle. unfold split_range. pose proof (cut_mono items _ _ Hle).
  pose proof (cut_le_size items upper_bound). case_decide as Hnum.
  - rewrite encode_bound_pair. rewrite storage_iterate_law by lia.
    rewrite slice_between by (done || apply stored_sorted). cbn [mbind result_bind].
    exists [(upper_bound, PIds (item_id <$> between items p upper_bound))]. split_and!; [|by apply frame_one|by repeat constructor|done].
    cbn [encode_ranges]. unfold encode_range. cbn [fst snd encode_payload].
    rewrite app_nil_r. do 6 f_equal. unfold nlen. rewrite length_fmap.
    fold (nlen (between items p upper_bound)). rewrite (cut_split items p) by done. lia.
  - destruct (split_buckets_ok (N.to_nat BUCKETS) 0 (cut items upper_bound - cut items p) p upper_bound last)
      as (rs & Hrs & Hf & Hall & Hlen); [done|lia|done..|rewrite buckets_left_all; lia|].
    exists rs. assert (rs ≠ []) by (by intros ->). rewrite Hrs.
    erewrite frame_last_any by done. done.
Qed.
End split.
