(* ===== verification/NegReconcile.v ===== *)
(** * What a reconciliation does to a frame

    The loop of [reconcile_aux], range by range: it reads what the peer says
    of its items, and the frame it builds says of the storage's own. *)

From S2P Require Export NegSplit.

Notation ids_of l := (item_id <$> l).

Section queries.
Context `{!NegStorage, !NegLaws}.
Implicit Types (p b : Bound) (rs : list Range) (x : Item).

Definition infinity : Bound := bound_with_timestamp u64_max.
Lemma infinity_ok : bound_ok infinity.
Proof. by apply bound_timestamp_ok. Qed.
Lemma before_infinity x : item_timestamp x < u64_max → item_before infinity x.
Proof.
  intros Hx. unfold item_before, infinity. rewrite bound_with_timestamp_law, plt_spec. by left.
Qed.
(** ** The ranges a query holds *)
Definition payload_read (mode : Mode) (pl : Payload) (query rest : bytes) : Prop :=
  match mode, pl with
  | Skip, PSkip => query = rest
  | Fingerprint, PFingerprint f => nlen f = FINGERPRINT_SIZE ∧ query = f ++ rest
  | IdList, PIds ids =>
      decode_var_int query = (Ok (nlen ids), mjoin ids ++ rest) ∧
      Forall (λ id, length id = 32%nat) ids
  | _, _ => False
  end.
Inductive parsed (last : N) : list Range → bytes → Prop :=
  | parsed_nil : parsed last [] []
  | parsed_cons query b mode q1 pl rest rs :
      (bound ← decode_bound; mode ← decode_mode; mret (bound, mode)) (last, query)
        = (Ok (b, mode), (bound_time b, q1)) →
      payload_read mode pl q1 rest → parsed (bound_time b) rs rest →
      parsed last ((b, pl) :: rs) query.
(** The bounds do not decrease. *)
Fixpoint chain p rs : Prop :=
  match rs with
  | [] => True
  | (b, _) :: rs => bound_le p b ∧ bound_ok b ∧ chain b rs
  end.

(** A payload whose parts have their sizes. *)
Definition payload_fits (pl : Payload) : Prop :=
  match pl with
  | PSkip => True
  | PFingerprint f => nlen f = FINGERPRINT_SIZE
  | PIds ids => nlen ids * ID_SIZE ≤ u64_max ∧ Forall (λ id, length id = 32%nat) ids
  end.
(** A range written by [encode_range] is read back. *)
Lemma payload_read_encode pl rest :
  payload_fits pl →
  ∃ mode q, encode_payload pl ++ rest = encode_mode mode ++ q ∧ payload_read mode pl q rest.
Proof.
  destruct pl as [|f|ids]; intros Hpl.
  - by exists Skip, rest.
  - exists Fingerprint, (f ++ rest). cbn [encode_payload]. by rewrite <-app_assoc.
  - exists IdList, (encode_var_int (nlen ids) ++ mjoin ids ++ rest). cbn [encode_payload].
    rewrite <-!app_assoc. destruct Hpl as [Hlen Hids]. split; [done|]. split; [|done].
    rewrite decode_encode_var_int; [done|]. unfold ID_SIZE in Hlen. lia.
Qed.
Lemma parsed_encode_cons last b pl rs :
  bound_ok b → last ≤ bound_time b →
  payload_fits pl →
  parsed (bound_time b) rs (encode_ranges (bound_time b) rs) →
  parsed last ((b, pl) :: rs) (encode_ranges last ((b, pl) :: rs)).
Proof.
  intros Hb Hlast Hpl Hrs. cbn [encode_ranges fst]. unfold encode_range. cbn [fst snd].
  rewrite <-app_assoc.
  destruct (payload_read_encode pl (encode_ranges (bound_time b) rs) Hpl) as (mode & q & -> & Hread).
  econstructor; [|exact Hread|done]. se_unfold.
  rewrite decode_bound_encode by done. by rewrite decode_mode_encode.
Qed.
End queries.

(** ** The walks of an identifier list *)
Lemma read_ids_ok ids m rest :
  Forall (λ id, length id = 32%nat) ids →
  ∃ m', read_ids (length ids) m (mjoin ids ++ rest) = Ok (m', rest) ∧
    ∀ k v, m' !! k = Some v ↔ k ∈ ids ∧ v = k ∨ k ∉ ids ∧ m !! k = Some v.
Proof.
  intros Hids. revert m. induction Hids as [|id ids Hid Hids IH]; intros m.
  { exists m. split; [done|]. set_solver. }
  destruct (IH (<[id:=id]> m)) as (m' & Hm' & Hlook). exists m'. split.
  - cbn [read_ids length]. replace ID_SIZE with (nlen id) by (unfold nlen; by rewrite Hid).
    change (mjoin (id :: ids)) with (id ++ mjoin ids). by rewrite <-app_assoc, get_bytes_app.
  - intros k v. rewrite Hlook, elem_of_cons. destruct (decide (k = id)) as [->|Hne].
    + rewrite lookup_insert_eq. destruct (decide (id ∈ ids)); naive_solver.
    + rewrite lookup_insert_ne by done. naive_solver.
Qed.
Lemma compare_ids_ok initiator xs m have m' have' :
  NoDup (ids_of xs) → compare_ids initiator xs m have = (m', have') →
  (∀ k v, m' !! k = Some v ↔ k ∉ ids_of xs ∧ m !! k = Some v) ∧
  have' = if initiator then have ++ filter (λ k, m !! k = None) (ids_of xs) else have.
Proof.
  revert m have. induction xs as [|x xs IH]; intros m have Hnd Hc.
  { simpl in Hc. simplify_eq. split; [set_solver|]. by destruct initiator; rewrite ?app_nil_r. }
  rewrite fmap_cons in Hnd. apply NoDup_cons in Hnd as [Hx Hnd]. simpl in Hc.
  rewrite fmap_cons, filter_cons.
  destruct (m !! item_id x) as [v'|] eqn:Hm; apply IH in Hc as [Hlook ->]; try done.
  - rewrite decide_False by done. split.
    + intros k v. rewrite Hlook, lookup_delete_Some. set_solver.
    + destruct initiator; [|done]. f_equal. apply filter_ext_in. intros k Hk.
      rewrite lookup_delete_ne; [done|]. intros Heq. apply Hx. by rewrite Heq.
  - rewrite decide_True by done. split.
    + intros k v. rewrite Hlook. split; [|set_solver]. intros [? ?]. split; [|done].
      apply not_elem_of_cons. split; [|done]. intros ->. congruence.
    + destruct initiator; [|done]. by rewrite <-app_assoc.
Qed.
Lemma response_ids_ok `{!NegStorage} e full xs index ids0 ids stopped :
  response_ids e full xs index ids0 = (ids, stopped) →
  match stopped with
  | None => ids = ids0 ++ ids_of xs
  | Some (x, at_) => ∃ i, xs !! i = Some x ∧ ids = ids0 ++ take i (ids_of xs) ∧
      at_ = index + N.of_nat i
  end.
Proof.
  revert index ids0. induction xs as [|x xs IH]; intros index ids0 Hr; simpl in Hr.
  { simplify_eq. by rewrite app_nil_r. }
  destruct (exceeded_frame_size_limit _ _).
  { simplify_eq. exists 0%nat. rewrite app_nil_r. split_and!; [done..|lia]. }
  apply IH in Hr. destruct stopped as [[y at_]|].
  - destruct Hr as (i & Hi & -> & ->). exists (S i). split_and!; [done| |lia].
    by rewrite <-app_assoc.
  - by rewrite Hr, <-app_assoc.
Qed.

Lemma slice_take {A} lower upper i (l : list A) :
  (lower + N.of_nat i ≤ upper) → slice lower (lower + N.of_nat i) l = take i (slice lower upper l).
Proof.
  intros Hi. unfold slice. rewrite take_drop_commute, take_take. do 2 f_equal. lia.
Qed.

(** ** One range *)
Section range.
Context `{!NegStorage, !HashOrder, !NegLaws}.
Variable e : Negentropy.
Notation items := (stored (ng_storage e)).
Notation size := (nlen items).
Implicit Types (p b w : Bound) (rs out new com : list Range) (l : LoopState) (x : Item).

(** Nothing is at the end of time, and an identifier is that of one record. *)
Hypothesis items_time : ∀ x, x ∈ items → item_timestamp x < u64_max.
Hypothesis items_unique : NoDup (ids_of items).

Lemma cut_infinity : cut items infinity = size.
Proof. apply cut_all. intros. by apply before_infinity, items_time. Qed.
Lemma items_le x : x ∈ items → item_timestamp x ≤ u64_max.
Proof. intros ?%items_time. lia. Qed.
Lemma between_elem p b x :
  x ∈ between items p b ↔ x ∈ items ∧ ¬ item_before p x ∧ item_before b x.
Proof. unfold between. rewrite list_elem_of_filter. unfold ple, item_before. tauto. Qed.
Lemma between_unique p b : NoDup (ids_of (between items p b)).
Proof. by apply NoDup_fmap_filter. Qed.
Lemma iterate_between p b :
  bound_le p b →
  storage_iterate (ng_storage e) (cut items p) (cut items b) = Ok (between items p b).
Proof.
  intros Hpb. pose proof (cut_mono items _ _ Hpb). pose proof (cut_le_size items b).
  rewrite storage_iterate_law by lia. by rewrite slice_between by (done || apply stored_sorted).
Qed.
Lemma fingerprint_between p b :
  bound_le p b →
  storage_fingerprint (ng_storage e) (cut items p) (cut items b) =
    Ok (fingerprint_of (ids_of (between items p b))).
Proof.
  intros Hpb. pose proof (cut_mono items _ _ Hpb). pose proof (cut_le_size items b).
  rewrite storage_fingerprint_law by lia. by rewrite slice_between by (done || apply stored_sorted).
Qed.
(** The bound made of an item of a range. *)
Lemma cut_from_item p b i x :
  bound_le p b → between items p b !! i = Some x →
  let eb := bound_from_item x in
  bound_ok eb ∧ bound_le p eb ∧ plt (bound_point eb) (bound_point b) ∧
  cut items eb = cut items p + N.of_nat i ∧ between items p eb = take i (between items p b).
Proof.
  intros Hpb Hx eb. pose proof (list_elem_of_lookup_2 _ _ _ Hx) as Hin.
  apply between_elem in Hin as (Hin & Hpx & Hbx).
  assert (bound_point eb = item_point x) as Heb.
  { unfold eb, bound_point. by rewrite bound_from_item_law. }
  assert (bound_le p eb) as Hpe by (unfold item_before in Hpx; rewrite Heb; exact Hpx).
  pose proof (lookup_lt_Some _ _ _ Hx) as Hi. pose proof (cut_split items p b Hpb) as Hcb.
  assert (cut items eb = cut items p + N.of_nat i) as Hcut.
  { rewrite (cut_split items p eb Hpe). f_equal.
    assert (filter (item_before eb) (between items p b) = take i (between items p b)) as Hf.
    { pose proof (stored_sorted (ng_storage e)) as Hs.
      assert (item_sorted (between items p b)) as Hbs by by apply item_sorted_filter.
      rewrite <-(take_drop_middle _ _ _ Hx) at 1. rewrite <-(take_drop_middle _ _ _ Hx) in Hbs.
      apply StronglySorted_app in Hbs as (Hlo & _ & Hhi).
      apply StronglySorted_inv in Hhi as [_ Hhi]. rewrite Forall_forall in Hhi.
      rewrite filter_app, filter_all, filter_none; [apply app_nil_r| |].
      - intros y Hy Hey. unfold item_before in Hey. rewrite Heb in Hey.
        apply elem_of_cons in Hy as [->|Hy]; [by eapply plt_irrefl|].
        eapply plt_irrefl, plt_trans; [exact Hey|auto].
      - intros y Hy. unfold item_before. rewrite Heb. apply Hlo; [done|by left]. }
    assert (between items p eb = filter (item_before eb) (between items p b)) as ->.
    { unfold between. rewrite list_filter_filter. apply filter_ext_in. intros y _.
      split; [|tauto]. intros [? Hye]. split_and!; [done..| |].
      all: unfold item_before in *; rewrite Heb in *; eauto using plt_trans. }
    rewrite Hf. unfold nlen. rewrite length_take. lia. }
  split_and!; [| |by rewrite Heb|done|].
  - apply bound_item_ok; [by apply items_le|by eapply stored_id].
  - done.
  - pose proof (stored_sorted (ng_storage e)).
    rewrite <-!slice_between, Hcut by done. apply slice_take. rewrite Hcb. unfold nlen. lia.
Qed.

(** What the query's range calls for: a skip, a range of the storage's own, or
    part of one. *)
Inductive outcome l p w b : RangeResult → list Range → list Range → Prop :=
  | outcome_quiet query have need :
      outcome l p w b (mkRange [] [] (lp_last_out l) query true (cut items b) false have need) [] []
  | outcome_split o query have need :
      o ≠ [] → frame_from items w o b →
      (∀ x, ¬ item_before p x → item_before b x → open_in w o x) →
      outcome l p w b (mkRange (encode_ranges (lp_last_out l) o) [] (bound_time b) query false
        (cut items b) false have need) o []
  | outcome_ids com eb truncated query have need :
      com ≠ [] → frame_from items w com eb → bound_le p eb → bound_le eb b → bound_ok eb →
      (truncated = false → eb = b) →
      (∀ x, ¬ item_before p x → item_before eb x → open_in w com x) →
      outcome l p w b (mkRange [] (encode_ranges (lp_last_out l) com) (bound_time eb) query false
        (cut items eb) truncated have need) [] com.

(** The part of the loop's state the output depends on. *)
Record out_state l p w : Prop := {
  os_prev : lp_prev_bound l = p;
  os_index : lp_prev_index l = cut items p;
  os_ok : bound_ok p;
  os_le : bound_le w p;
  os_skip : lp_skip l = false → w = p;
}.
(** Identifiers of the range told apart. *)
Definition reports initiator p b (pl : Payload) (h n : list bytes) : Prop :=
  match pl with
  | PIds ids =>
      if (initiator : bool) then
        (∀ k, k ∈ h ↔ k ∈ ids_of (between items p b) ∧ k ∉ ids) ∧
        (∀ k, k ∈ n ↔ k ∈ ids ∧ k ∉ ids_of (between items p b))
      else h = [] ∧ n = []
  | _ => h = [] ∧ n = []
  end.

Lemma do_skip_ok l p w :
  out_state l p w →
  ∃ sk, do_skip l = (encode_ranges (lp_last_out l) sk, last_time (lp_last_out l) sk) ∧
    frame_from items w sk p.
Proof.
  intros [Hp _ Hok Hle Hskip]. unfold do_skip. destruct (lp_skip l).
  - exists [(p, PSkip)]. rewrite Hp, encode_bound_pair. split; [|by apply frame_one].
    cbn [encode_ranges]. by rewrite app_nil_r.
  - exists []. rewrite Hskip by done. split; [done|constructor].
Qed.
(** A skip that may be due, and ranges that follow it. *)
Lemma open_in_after_skip p w sk rs b x :
  frame_from items w sk p → frame_from items p rs b → Forall (λ r, r.2 ≠ PSkip) rs →
  ¬ item_before p x → item_before b x → open_in w (sk ++ rs) x.
Proof.
  intros Hsk Hrs Hall Hp Hb. eapply open_in_app; [exact Hsk|]. right. by eapply open_in_all.
Qed.

Lemma range_fingerprint_ok l p w b f q1 rest :
  out_state l p w → bound_le p b → bound_ok b → payload_read Fingerprint (PFingerprint f) q1 rest →
  ∃ g o com, range_fingerprint e (cut items p) (cut items b) b q1 l = Ok g ∧
    outcome l p w b g o com ∧ rg_query g = rest ∧ rg_have g = lp_have l ∧ rg_need g = lp_need l ∧
    (f ≠ fingerprint_of (ids_of (between items p b)) → o ≠ []).
Proof.
  intros Hs Hle Hb [Hf ->]. unfold range_fingerprint. rewrite <-Hf, get_bytes_app.
  rewrite fingerprint_between by done. cbn [mbind result_bind]. case_decide as Hne.
  - destruct (do_skip_ok l p w Hs) as (sk & -> & Hsk).
    destruct (split_range_ok e p b (last_time (lp_last_out l) sk)) as (rs & -> & Hrs & Hall & Hrne);
      [exact items_le|done..|]. cbn [mbind result_bind].
    rewrite <-encode_ranges_app. eexists _, (sk ++ rs), []. split; [done|].
    split_and!; [|done..|intros _ [_ ?]%app_nil; done].
    constructor; [by intros [_ ?]%app_nil|by eapply frame_app|].
    intros x. by eapply open_in_after_skip.
  - eexists _, [], []. split; [done|]. split_and!; [constructor|done..].
Qed.

Lemma range_id_list_ok l p w b ids q1 rest :
  out_state l p w → bound_le p b → bound_ok b → payload_read IdList (PIds ids) q1 rest →
  ∃ g o com h n, range_id_list e (cut items p) (cut items b) b q1 l = Ok g ∧
    outcome l p w b g o com ∧ rg_query g = rest ∧
    rg_have g = lp_have l ++ h ∧ rg_need g = lp_need l ++ n ∧
    reports (ng_is_initiator e) p b (PIds ids) h n ∧ (ng_is_initiator e = false → com ≠ []).
Proof.
  intros Hs Hle Hb [Hdec Hids]. unfold range_id_list. rewrite Hdec.
  pose proof (mjoin_ids_length ids Hids) as Hlen.
  rewrite decide_False by
    (rewrite nlen_app, Hlen; unfold ID_SIZE; pose proof (N.Div0.div_mod (nlen ids * 32 + nlen rest) 32);
     pose proof (N.mod_lt (nlen ids * 32 + nlen rest) 32); lia).
  destruct (read_ids_ok ids ∅ rest Hids) as (m & Hm & Hlook).
  unfold nlen. rewrite Nat2N.id, Hm. cbn [mbind result_bind].
  rewrite iterate_between by done. cbn [mbind result_bind].
  destruct (compare_ids _ _ _ _) as [m' have'] eqn:Hc.
  apply compare_ids_ok in Hc as [Hlook' ->]; [|apply between_unique].
  assert (∀ k, m !! k = None ↔ k ∉ ids) as Hnone.
  { intros k. rewrite eq_None_not_Some. unfold is_Some. setoid_rewrite Hlook. set_solver. }
  destruct (ng_is_initiator e) eqn:Hinit.
  - eexists _, [], [], _, _. split; [done|]. split_and!; [constructor|done..| |done].
    split.
    + intros k. rewrite list_elem_of_filter, Hnone. tauto.
    + intros k. rewrite hash_values_elem. setoid_rewrite Hlook'. setoid_rewrite Hlook.
      set_solver.
  - destruct (do_skip_ok l p w Hs) as (sk & -> & Hsk).
    destruct (response_ids _ _ _ _ _) as [own stopped] eqn:Hr.
    apply response_ids_ok in Hr. rewrite encode_bound_pair.
    set (eb := match stopped with Some (item, _) => bound_from_item item | None => b end).
    assert (bound_ok eb ∧ bound_le p eb ∧ bound_le eb b ∧
      cut items eb = (match stopped with Some (_, index) => index | None => cut items b end) ∧
      own = ids_of (between items p eb)) as (Heok & Hpe & Hebb & Hcut & Hown).
    { destruct stopped as [[x index]|]; simpl in eb.
      - destruct Hr as (i & Hi & -> & ->).
        destruct (cut_from_item p b i x Hle Hi) as (? & ? & ? & ? & Hbt).
        split_and!; [done|done|by apply plt_ple|done|]. subst eb. by rewrite Hbt, fmap_take.
      - by split_and!. }
    rewrite <-Hcut.
    assert (frame_from items p [(eb, PIds own)] eb) as Hone by by apply frame_one.
    exists (mkRange [] (encode_ranges (lp_last_out l) (sk ++ [(eb, PIds own)])) (bound_time eb) rest
      false (cut items eb) (bool_decide (stopped ≠ None)) (lp_have l) (lp_need l)).
    exists [], (sk ++ [(eb, PIds own)]), [], []. split_and!.
    + f_equal. f_equal. rewrite encode_ranges_app. cbn [encode_ranges]. by rewrite app_nil_r.
    + constructor; try done.
      * by intros [_ ?]%app_nil.
      * by eapply frame_app.
      * intros Ht%bool_decide_eq_false. by destruct stopped; [destruct Ht|].
      * intros x. eapply open_in_after_skip; [done..|]. by repeat constructor.
    + done.
    + by rewrite app_nil_r.
    + by rewrite app_nil_r.
    + done.
    + by intros _ [_ ?]%app_nil.
Qed.

(** *** The end of a frame that is full *)
Lemma encode_ranges_nonempty last rs : rs ≠ [] → encode_ranges last rs ≠ [].
Proof.
  destruct rs as [|[b pl] rs]; [done|]. intros _. cbn [encode_ranges]. unfold encode_range.
  cbn [fst snd]. unfold encode_bound. destruct (encode_timestamp_out _ _) as [t l] eqn:Ht.
  assert (t ≠ []) as Hne.
  { unfold encode_timestamp_out in Ht. case_decide; simplify_eq; [done|].
    edestruct encode_var_int_cons as (? & ? & ->). done. }
  by destruct t.
Qed.
(** The fingerprint of everything from a bound on. *)
Lemma tail_fingerprint c :
  ∃ f, storage_fingerprint (ng_storage e) (cut items c) size = Ok f ∧
    (bound_le c infinity → payload_ok items c infinity (PFingerprint f)).
Proof.
  pose proof (cut_le_size items c) as Hc. rewrite storage_fingerprint_law by lia.
  eexists. split; [done|]. intros Hle. pose proof (fingerprint_between c infinity Hle) as Hf.
  rewrite cut_infinity, storage_fingerprint_law in Hf by lia. by simplify_eq.
Qed.
Definition closing c (f : bytes) : list Range := [(c, PSkip); (infinity, PFingerprint f)].
Lemma closing_frame w c f :
  bound_le w c → bound_ok c → bound_le c infinity →
  payload_ok items c infinity (PFingerprint f) →
  frame_from items w (closing c f) infinity.
Proof.
  intros. constructor; [done..|]. apply frame_one; [done|apply infinity_ok|done].
Qed.
Lemma closing_open w c f x :
  item_timestamp x < u64_max → ¬ item_before c x → open_in w (closing c f) x.
Proof. intros. right; left. split_and!; [done..|]. by apply before_infinity. Qed.
Lemma encode_closing last c f :
  encode_ranges last (closing c f) =
    ((encode_bound c last).1 ++ encode_mode Skip) ++
    (encode_bound infinity (bound_time c)).1 ++ encode_mode Fingerprint ++ f.
Proof.
  unfold closing. cbn [encode_ranges]. unfold encode_range. cbn [fst snd encode_payload].
  by rewrite app_nil_r, <-!app_assoc.
Qed.

(** What a turn adds to the frame, and, when it closes it, that everything from
    there on is open. *)
Record extends l p w b (goes_on : bool) l' new w' (asked : Prop) : Prop := {
  ex_full : lp_full_output l' = lp_full_output l ++ encode_ranges (lp_last_out l) new;
  ex_frame : bound_le b infinity → frame_from items w new w';
  ex_open : bound_le b infinity → asked → ∀ x, item_timestamp x < u64_max →
    ¬ item_before p x → item_before b x → open_in w new x;
  ex_tail : bound_le b infinity → goes_on = false → ∀ x, item_timestamp x < u64_max →
    ¬ item_before b x → open_in w new x;
  ex_end : goes_on = false → w' = infinity;
  ex_state : goes_on = true →
    out_state l' b w' ∧ lp_last_out l' = bound_time w' ∧ frame_from items w new w';
}.

Lemma finish_range_ok l p w b last_in g o com :
  out_state l p w → bound_le p b → bound_ok b → lp_last_out l = bound_time w →
  outcome l p w b g o com →
  ∃ goes_on l' new w', finish_range e size (cut items p) b last_in l g = Ok (goes_on, l') ∧
    lp_have l' = rg_have g ∧ lp_need l' = rg_need g ∧
    lp_last_in l' = last_in ∧ lp_query l' = rg_query g ∧
    extends l p w b goes_on l' new w' (o ≠ [] ∨ com ≠ []).
Proof.
  intros Hs Hpb Hb Hlast Hg. pose proof Hs as [Hprev Hidx Hpok Hwp Hskip].
  unfold finish_range.
  destruct Hg as [query have need|o query have need Hne Hf Hopen
    |com eb truncated query have need Hne Hf Hpe Hebb Heok Htr Hopen]; cbn [rg_committed rg_o
    rg_truncated rg_upper rg_last_out rg_query rg_skip rg_have rg_need].
  - rewrite !app_nil_r. cbn [orb]. destruct (exceeded_frame_size_limit _ _).
    + rewrite !decide_True by done. rewrite encode_bound_pair.
      destruct (tail_fingerprint b) as (f & -> & Hfok). cbn [mbind result_bind].
      fold infinity. rewrite encode_bound_pair.
      eexists false, _, (closing b f), infinity. split_and!; [done..|]. split; [|..|done|done].
      * by rewrite encode_closing.
      * intros. apply closing_frame; auto. by etrans.
      * tauto.
      * intros. by apply closing_open.
    + eexists true, _, [], w. split_and!; [done..|]. split; cbn.
      * by rewrite app_nil_r.
      * intros _. constructor.
      * tauto.
      * done.
      * done.
      * intros _. split_and!; [|done|constructor]. split; try done. by etrans.
  - rewrite !app_nil_r. cbn [orb]. destruct (exceeded_frame_size_limit _ _).
    + rewrite !decide_False by by apply encode_ranges_nonempty. rewrite encode_bound_pair, Hprev.
      destruct (tail_fingerprint p) as (f & -> & Hfok). cbn [mbind result_bind].
      fold infinity. rewrite encode_bound_pair.
      eexists false, _, (closing p f), infinity. split_and!; [done..|]. split; [|..|done|done].
      * by rewrite encode_closing.
      * intros. assert (bound_le p infinity) by by etrans. apply closing_frame; auto.
      * intros. by apply closing_open.
      * intros ? _ x ? Hbx. apply closing_open; [done|]. intros ?. apply Hbx.
        by eapply before_le.
    + eexists true, _, o, b. split_and!; [done..|]. split; cbn.
      * done.
      * done.
      * auto.
      * done.
      * done.
      * intros _. split_and!; [|done..]. by split.
  - rewrite !app_nil_r. destruct (truncated || _) eqn:Hstop.
    + rewrite !decide_True by done.
      destruct (tail_fingerprint eb) as (f & Heq & Hfok). destruct truncated.
      * cbn. rewrite Heq. cbn [mbind result_bind]. fold infinity. rewrite encode_bound_pair.
        eexists false, _, (com ++ [(infinity, PFingerprint f)]), infinity.
        split_and!; [done..|]. split; [| | | |done|done].
        -- cbn [lp_full_output]. rewrite encode_ranges_app. cbn [encode_ranges]. unfold encode_range.
           cbn [fst snd encode_payload]. erewrite (frame_last_any items w com eb) by done.
           by rewrite app_nil_r, <-!app_assoc.
        -- intros. assert (bound_le eb infinity) by by etrans. eapply frame_app; [done|].
           apply frame_one; auto using infinity_ok.
        -- intros Hbi _ x Hx Hpx Hbx. eapply open_in_app; [exact Hf|].
           destruct (decide (item_before eb x)); [left; auto|right; left].
           split_and!; [done..|]. by apply before_infinity.
        -- intros Hbi _ x Hx Hbx. eapply open_in_app; [exact Hf|]. right; left.
           split_and!; [done| |by apply before_infinity]. intros ?. apply Hbx. by eapply before_le.
      * rewrite (Htr eq_refl) in *. rewrite encode_bound_pair, Heq. cbn [mbind result_bind].
        fold infinity. rewrite encode_bound_pair.
        eexists false, _, (com ++ closing b f), infinity.
        split_and!; [done..|]. split; [| | | |done|done].
        -- cbn [lp_full_output]. rewrite encode_ranges_app, encode_closing.
           erewrite (frame_last_any items w com b) by done. by rewrite <-!app_assoc.
        -- intros. eapply frame_app; [done|]. apply closing_frame; auto.
        -- intros. eapply open_in_app; [exact Hf|]. auto.
        -- intros. eapply open_in_app; [exact Hf|]. right. by apply closing_open.
    + apply orb_false_iff in Hstop as [-> _]. rewrite (Htr eq_refl) in *.
      eexists true, _, com, b. split_and!; [done..|]. split; cbn.
      * done.
      * done.
      * auto.
      * done.
      * done.
      * intros _. split_and!; [|done..]. by split.
Qed.

(** *** A turn of the loop *)
Definition needs_answer p b (pl : Payload) : Prop :=
  match pl with
  | PSkip => False
  | PFingerprint f => f ≠ fingerprint_of (ids_of (between items p b))
  | PIds _ => ng_is_initiator e = false
  end.

Lemma extends_weaken l p w b goes_on l' new w' (A B : Prop) :
  (B → A) → extends l p w b goes_on l' new w' A → extends l p w b goes_on l' new w' B.
Proof. intros HAB []. split; auto. Qed.

Lemma range_result_ok l p w b mode pl q1 rest :
  out_state l p w → bound_le p b → bound_ok b → payload_read mode pl q1 rest →
  ∃ g o com h n, range_result e mode (cut items p) (cut items b) b q1 l = Ok g ∧
    outcome l p w b g o com ∧ rg_query g = rest ∧
    rg_have g = lp_have l ++ h ∧ rg_need g = lp_need l ++ n ∧
    reports (ng_is_initiator e) p b pl h n ∧ (needs_answer p b pl → o ≠ [] ∨ com ≠ []).
Proof.
  intros Hs Hpb Hb Hread. destruct mode, pl as [|f|ids]; try done; cbn [range_result].
  - simpl in Hread. subst. eexists _, [], [], [], []. split_and!; [done|constructor|..|done|done];
      by rewrite ?app_nil_r.
  - destruct (range_fingerprint_ok l p w b f q1 rest) as (g & o & com & Hg & Ho & Hq & Hh & Hn & Ha);
      [done..|].
    eexists g, o, com, [], []. rewrite !app_nil_r. split_and!; [done..|]. auto.
  - destruct (range_id_list_ok l p w b ids q1 rest)
      as (g & o & com & h & n & Hg & Ho & Hq & Hh & Hn & Hrep & Ha); [done..|].
    eexists g, o, com, h, n. split_and!; [done..|]. auto.
Qed.

Lemma reconcile_turn_ok l p w b mode pl q1 rest :
  out_state l p w → bound_le p b → bound_ok b → lp_last_out l = bound_time w →
  (bound ← decode_bound; mode ← decode_mode; mret (bound, mode)) (lp_last_in l, lp_query l)
    = (Ok (b, mode), (bound_time b, q1)) →
  payload_read mode pl q1 rest →
  ∃ goes_on l' new w' h n, reconcile_turn e size l = Ok (goes_on, l') ∧
    lp_have l' = lp_have l ++ h ∧ lp_need l' = lp_need l ++ n ∧
    lp_last_in l' = bound_time b ∧ lp_query l' = rest ∧
    extends l p w b goes_on l' new w' (needs_answer p b pl) ∧
    reports (ng_is_initiator e) p b pl h n.
Proof.
  intros Hs Hpb Hb Hlast Hdec Hread. unfold reconcile_turn. rewrite Hdec.
  rewrite (os_index _ _ _ Hs), find_lower_bound_law by (split; [apply cut_le_size|done]).
  rewrite find_cut by (done || apply stored_sorted).
  destruct (range_result_ok l p w b mode pl q1 rest)
    as (g & o & com & h & n & -> & Ho & Hq & Hh & Hn & Hrep & Ha); [done..|].
  cbn [mbind result_bind].
  destruct (finish_range_ok l p w b (bound_time b) g o com)
    as (goes_on & l' & new & w' & -> & Hh' & Hn' & Hin & Hq' & Hex); [done..|].
  exists goes_on, l', new, w', h, n. split_and!; [done|congruence|congruence|done|congruence| |done].
  by eapply extends_weaken.
Qed.

(** ** The whole frame *)

(** The other peer's items: an identifier is that of one record, and ranges
    with one fingerprint hold the same records. *)
Record peer_of (theirs : list Item) : Prop := {
  peer_time : ∀ x, x ∈ theirs → item_timestamp x < u64_max;
  peer_record : ∀ x y, x ∈ items → y ∈ theirs → item_id x = item_id y → x = y;
  peer_collision : ∀ p b,
    fingerprint_of (ids_of (between theirs p b)) = fingerprint_of (ids_of (between items p b)) →
    ids_of (between theirs p b) = ids_of (between items p b);
}.
Definition differs (theirs : list Item) x : Prop :=
  x ∈ items ∧ x ∉ theirs ∨ x ∈ theirs ∧ x ∉ items.
Definition reported (theirs : list Item) (h n : list bytes) x : Prop :=
  x ∈ items ∧ item_id x ∈ h ∨ x ∈ theirs ∧ item_id x ∈ n.
(** The lists hold identifiers of records only we, and only they, have. *)
Definition sound (theirs : list Item) (h n : list bytes) : Prop :=
  (∀ k, k ∈ h → ∃ x, x ∈ items ∧ x ∉ theirs ∧ item_id x = k) ∧
  (∀ k, k ∈ n → ∃ x, x ∈ theirs ∧ x ∉ items ∧ item_id x = k).

Lemma theirs_between theirs p b x :
  x ∈ between theirs p b ↔ x ∈ theirs ∧ ¬ item_before p x ∧ item_before b x.
Proof. unfold between. rewrite list_elem_of_filter. unfold ple, item_before. tauto. Qed.

(** What a range of an honest frame tells. *)
Lemma honest_range theirs p b pl h n :
  peer_of theirs → payload_ok theirs p b pl → reports (ng_is_initiator e) p b pl h n →
  sound theirs h n ∧
  ∀ x, differs theirs x → ¬ item_before p x → item_before b x → pl ≠ PSkip →
    needs_answer p b pl ∨ ng_is_initiator e = true ∧ reported theirs h n x.
Proof.
  intros [_ Hrec Hcol] Hpl Hrep.
  assert (∀ x, x ∈ items → x ∉ theirs → item_id x ∉ ids_of (between theirs p b)) as Hours.
  { intros x Hx Hxt (y & Heq & Hy%theirs_between)%list_elem_of_fmap.
    rewrite (Hrec x y) in Hxt by naive_solver. naive_solver. }
  assert (∀ x, x ∈ theirs → x ∉ items → item_id x ∉ ids_of (between items p b)) as Htheirs.
  { intros x Hx Hxi (y & Heq & Hy%between_elem)%list_elem_of_fmap.
    rewrite <-(Hrec y x) in Hxi by naive_solver. naive_solver. }
  destruct pl as [|f|ids]; simpl in Hpl, Hrep.
  - destruct Hrep as [-> ->]. split; [split; set_solver|done].
  - destruct Hrep as [-> ->]. split; [split; set_solver|]. intros x Hdiff Hpx Hbx _. left. simpl.
    subst f. intros Heq%Hcol. destruct Hdiff as [[Hx Hxt]|[Hx Hxi]].
    + apply (Hours x Hx Hxt). rewrite Heq. apply list_elem_of_fmap. exists x.
      split; [done|]. by apply between_elem.
    + apply (Htheirs x Hx Hxi). rewrite <-Heq. apply list_elem_of_fmap. exists x.
      split; [done|]. by apply theirs_between.
  - subst ids. simpl. destruct (ng_is_initiator e) eqn:Hinit.
    + destruct Hrep as [Hh Hn]. split.
      * split; intros k.
        -- rewrite Hh. intros [(x & -> & Hx%between_elem)%list_elem_of_fmap Hk].
           exists x. split_and!; [naive_solver| |done]. intros Hxt. apply Hk, list_elem_of_fmap.
           exists x. split; [done|]. apply theirs_between. naive_solver.
        -- rewrite Hn. intros [(x & -> & Hx%theirs_between)%list_elem_of_fmap Hk].
           exists x. split_and!; [naive_solver| |done]. intros Hxi. apply Hk, list_elem_of_fmap.
           exists x. split; [done|]. apply between_elem. naive_solver.
      * intros x Hdiff Hpx Hbx _. right. split; [done|]. destruct Hdiff as [[Hx Hxt]|[Hx Hxi]].
        -- left. split; [done|]. apply Hh. split; [|auto]. apply list_elem_of_fmap. exists x.
           split; [done|]. by apply between_elem.
        -- right. split; [done|]. apply Hn. split; [|auto]. apply list_elem_of_fmap. exists x.
           split; [done|]. by apply theirs_between.
    + destruct Hrep as [-> ->]. split; [split; set_solver|]. auto.
Qed.
Lemma sound_app theirs h1 n1 h2 n2 :
  sound theirs h1 n1 → sound theirs h2 n2 → sound theirs (h1 ++ h2) (n1 ++ n2).
Proof. intros [] []. split; intros k [?|?]%elem_of_app; auto. Qed.
Lemma reported_app theirs h1 n1 h2 n2 x :
  reported theirs (h1 ++ h2) (n1 ++ n2) x ↔ reported theirs h1 n1 x ∨ reported theirs h2 n2 x.
Proof. unfold reported. rewrite !elem_of_app. tauto. Qed.

(** What the loop makes of the rest of a query, [rs] from [p] on: it adds the
    ranges [new] to the frame; and if the query is an honest peer's, what
    differs in a range it left open is in a range the new frame leaves open,
    unless the lists now tell it. *)
Definition answers rs p w new w' (h n : list bytes) : Prop :=
  (bound_le p infinity → Forall (λ r, bound_le r.1 infinity) rs →
    frame_from items w new w' ∧ bound_le w' infinity) ∧
  ∀ theirs q, peer_of theirs → frame_from theirs p rs q → bound_le q infinity →
    sound theirs h n ∧
    ∀ x, differs theirs x → open_in p rs x →
      open_in w new x ∨ ng_is_initiator e = true ∧ reported theirs h n x.

Lemma parsed_smaller last q b mode t1 q1 :
  (bound ← decode_bound; mode ← decode_mode; mret (bound, mode)) (last, q)
    = (Ok (b, mode), (t1, q1)) → (length q1 < length q)%nat.
Proof.
  intros (b' & t & q' & (len & id & q2 & q3 & Ht & Hlen & Hid & _ & _)%decode_bound_inv
    & Hm)%se_bind_Ok_pair.
  apply se_bind_Ok_pair in Hm as (mode' & t' & q4 & Hmode%decode_mode_inv & Heq).
  destruct Hmode as (m & Hm & _ & _). unfold mret, se_ret in Heq. simplify_eq.
  apply decode_var_int_le in Hlen as [_ ?], Hm as [_ ?]. destruct Ht as (n & Hn & _).
  apply decode_var_int_le in Hn as [_ ?]. apply get_bytes_Ok in Hid as [-> _].
  rewrite length_app in *. lia.
Qed.
Lemma payload_read_le mode pl q1 rest :
  payload_read mode pl q1 rest → (length rest ≤ length q1)%nat.
Proof.
  destruct mode, pl as [|f|ids]; simpl; try done.
  - by intros ->.
  - intros [_ ->]. rewrite length_app. lia.
  - intros [[_ Hlt]%decode_var_int_le _]. rewrite length_app in Hlt. lia.
Qed.
Lemma frame_bounds_le theirs p rs q c :
  frame_from theirs p rs q → bound_le q c → Forall (λ r, bound_le r.1 c) rs.
Proof.
  induction 1 as [|p b pl rs q ??? Hrs IH]; intros Hc; [constructor|].
  constructor; [|auto]. simpl. etrans; [by eapply frame_le|done].
Qed.

(** A turn answers for its range. *)
Lemma turn_answers l p w b pl goes_on l' new w' h n :
  extends l p w b goes_on l' new w' (needs_answer p b pl) →
  reports (ng_is_initiator e) p b pl h n →
  ∀ theirs, payload_ok theirs p b pl → peer_of theirs → bound_le b infinity →
    sound theirs h n ∧ ∀ x, differs theirs x → ¬ item_before p x → item_before b x → pl ≠ PSkip →
      open_in w new x ∨ ng_is_initiator e = true ∧ reported theirs h n x.
Proof.
  intros Hex Hrep theirs Hpl Hpeer Hbi.
  destruct (honest_range theirs p b pl h n Hpeer Hpl Hrep) as [Hsound Hrange].
  split; [done|]. intros x Hdiff Hpx Hbx Hne.
  destruct (Hrange x Hdiff Hpx Hbx Hne); [left|by right].
  eapply ex_open; [done..| |done|done].
  destruct Hdiff as [[? _]|[? _]]; [by apply items_time|by eapply peer_time].
Qed.
(** An open item is after the first bound. *)
Lemma open_after theirs p rs q x : frame_from theirs p rs q → open_in p rs x → ¬ item_before p x.
Proof.
  induction 1 as [|p b pl rs q Hpb ? ? ? IH]; simpl; [done|].
  intros [?|Hopen]; [tauto|]. intros Hp. apply IH; [done|]. by eapply before_le.
Qed.
Lemma answers_cons b pl rs p w new1 w1 h1 n1 new2 w2 h2 n2 :
  frame_from items w new1 w1 →
  (∀ theirs, payload_ok theirs p b pl → peer_of theirs → bound_le b infinity →
    sound theirs h1 n1 ∧ ∀ x, differs theirs x → ¬ item_before p x → item_before b x → pl ≠ PSkip →
      open_in w new1 x ∨ ng_is_initiator e = true ∧ reported theirs h1 n1 x) →
  answers rs b w1 new2 w2 h2 n2 →
  answers ((b, pl) :: rs) p w (new1 ++ new2) w2 (h1 ++ h2) (n1 ++ n2).
Proof.
  intros Hf1 Hturn [Hframe Hans]. split.
  - intros _ [Hb Hall]%Forall_cons. destruct (Hframe Hb Hall). split; [by eapply frame_app|done].
  - intros theirs q Hpeer Hf Hq. inversion Hf as [|? ? ? ? ? Hpb Hb Hpl Hrs]; subst.
    assert (bound_le b infinity) as Hbi by (etrans; [by eapply frame_le|done]).
    destruct (Hturn theirs Hpl Hpeer Hbi) as [Hs1 Hr1].
    destruct (Hans theirs q Hpeer Hrs Hq) as [Hs2 Hr2].
    split; [by apply sound_app|]. intros x Hdiff Hopen. rewrite reported_app.
    rewrite (open_in_app items w new1 w1 new2) by done.
    destruct Hopen as [(Hne & Hpx & Hbx)|Hopen].
    + destruct (Hr1 x) as [?|[? ?]]; tauto.
    + destruct (Hr2 x) as [?|[? ?]]; tauto.
Qed.
(** A frame closed at a turn leaves what is left of the query open. *)
Lemma answers_closed b pl rs p w new w' h n :
  (bound_le b infinity → frame_from items w new w') → w' = infinity →
  (∀ theirs, payload_ok theirs p b pl → peer_of theirs → bound_le b infinity →
    sound theirs h n ∧ ∀ x, differs theirs x → ¬ item_before p x → item_before b x → pl ≠ PSkip →
      open_in w new x ∨ ng_is_initiator e = true ∧ reported theirs h n x) →
  (bound_le b infinity → ∀ x, item_timestamp x < u64_max → ¬ item_before b x → open_in w new x) →
  answers ((b, pl) :: rs) p w new w' h n.
Proof.
  intros Hf1 -> Hturn Htail. split.
  - intros _ [Hb _]%Forall_cons. split; [auto|reflexivity].
  - intros theirs q Hpeer Hf Hq. inversion Hf as [|? ? ? ? ? Hpb Hb Hpl Hrs]; subst.
    assert (bound_le b infinity) as Hbi by (etrans; [by eapply frame_le|done]).
    destruct (Hturn theirs Hpl Hpeer Hbi) as [Hs1 Hr1]. split; [done|].
    intros x Hdiff Hopen. destruct Hopen as [(Hne & Hpx & Hbx)|Hopen]; [auto|].
    left. apply Htail; [done| |].
    + destruct Hdiff as [[? _]|[? _]]; [by apply items_time|by eapply peer_time].
    + by eapply open_after.
Qed.

Lemma reconcile_loop_ok rs fuel l p w :
  (length (lp_query l) < fuel)%nat →
  out_state l p w → lp_last_out l = bound_time w → lp_last_in l = bound_time p →
  parsed (bound_time p) rs (lp_query l) → chain p rs →
  ∃ l' new w' h n, reconcile_loop fuel e size l = Some (Ok l') ∧
    lp_full_output l' = lp_full_output l ++ encode_ranges (lp_last_out l) new ∧
    lp_have l' = lp_have l ++ h ∧ lp_need l' = lp_need l ++ n ∧
    answers rs p w new w' h n.
Proof.
  revert fuel l p w. induction rs as [|[b pl] rs IH]; intros fuel l p w Hfuel Hs Hlast Hin Hparsed Hch.
  - inversion Hparsed as [Hnil|]; subst. destruct fuel as [|fuel]; [lia|]. cbn [reconcile_loop].
    rewrite decide_True by done. exists l, [], w, [], []. rewrite !app_nil_r. split_and!; [done..|].
    split; [intros Hp _; split; [constructor|etrans; [by eapply os_le|done]]|].
    intros theirs q _ _ _. split; [split; set_solver|done].
  - inversion Hparsed as [|query b' mode q1 pl' rest rs' Hdec Hread Hrest Hq1 Hq2]; subst b' pl' rs' query.
    destruct Hch as (Hpb & Hb & Hch). destruct fuel as [|fuel]; [lia|]. cbn [reconcile_loop].
    pose proof (parsed_smaller _ _ _ _ _ _ Hdec). pose proof (payload_read_le _ _ _ _ Hread).
    rewrite decide_False by (intros Hnil; rewrite Hnil in *; simpl in *; lia).
    rewrite <-Hin in Hdec.
    destruct (reconcile_turn_ok l p w b mode pl q1 rest)
      as (goes_on & l1 & new1 & w1 & h1 & n1 & -> & Hh1 & Hn1 & Hin1 & Hq1 & Hex & Hrep); [done..|].
    pose proof (turn_answers _ _ _ _ _ _ _ _ _ _ _ Hex Hrep) as Hturn. destruct goes_on.
    + destruct (ex_state _ _ _ _ _ _ _ _ _ Hex eq_refl) as (Hs1 & Hlast1 & Hf1).
      destruct (IH fuel l1 b w1)
        as (l2 & new2 & w2 & h2 & n2 & -> & Hfull & Hh2 & Hn2 & Hans);
        [rewrite Hq1; lia|done|done|done|by rewrite Hq1|done|].
      exists l2, (new1 ++ new2), w2, (h1 ++ h2), (n1 ++ n2).
      split_and!; [done| |by rewrite Hh2, Hh1, app_assoc|by rewrite Hn2, Hn1, app_assoc|].
      * rewrite Hfull, (ex_full _ _ _ _ _ _ _ _ _ Hex), encode_ranges_app, app_assoc.
        by rewrite Hlast1, Hlast, (frame_last items w new1 w1).
      * by eapply answers_cons.
    + exists l1, new1, w1, h1, n1. split_and!; [done|by eapply ex_full|done..|].
      eapply answers_closed; [by eapply ex_frame|by eapply ex_end|done|].
      intros Hbi. by eapply ex_tail.
Qed.

(** ** The entry points *)
Lemma not_before_new x : length (item_id x) = 32%nat → ¬ item_before bound_new x.
Proof.
  intros Hx. unfold item_before. rewrite bound_new_law, plt_spec. simpl. intros [?|[_ Hc]]; [lia|].
  by eapply (bytes_compare_zeros (item_id x) 32); [lia|].
Qed.
Lemma cut_new : cut items bound_new = 0.
Proof. apply cut_none. intros x Hx. apply not_before_new. by eapply stored_id. Qed.
Lemma new_le_infinity : bound_le bound_new infinity.
Proof. apply plt_ple. unfold infinity. by rewrite bound_new_law, bound_with_timestamp_law. Qed.

Lemma reconcile_aux_ok rs query have need :
  parsed 0 rs query → chain bound_new rs →
  ∃ new w' h n, reconcile_aux e (PROTOCOL_VERSION :: query) have need
      = Some (Ok (PROTOCOL_VERSION :: encode_ranges 0 new, have ++ h, need ++ n)) ∧
    answers rs bound_new bound_new new w' h n.
Proof.
  intros Hparsed Hch. unfold reconcile_aux. rewrite get_byte_cons.
  rewrite decide_False, decide_False by (vm_compute; naive_solver).
  rewrite storage_size_law.
  assert (bound_time bound_new = 0) as Hzero by by rewrite bound_new_law.
  destruct (reconcile_loop_ok rs (S (length query)) (loop_start query have need) bound_new bound_new)
    as (l' & new & w' & h & n & -> & Hfull & Hh & Hn & Hans).
  - simpl. lia.
  - split; cbn; [done|by rewrite cut_new|apply bound_new_ok|reflexivity|done].
  - by rewrite Hzero.
  - by rewrite Hzero.
  - by rewrite Hzero.
  - done.
  - exists new, w', h, n. cbn [map_outcome]. by rewrite Hfull, Hh, Hn.
Qed.
End range.

Section initiate.
Context `{!NegStorage, !HashOrder, !NegLaws}.
Variable e : Negentropy.
Notation items := (stored (ng_storage e)).
Hypothesis items_time : ∀ x, x ∈ items → item_timestamp x < u64_max.

(** The first frame leaves everything open. *)
Lemma initiate_ok :
  ng_is_initiator e = false →
  ∃ rs, initiate e = (Ok (PROTOCOL_VERSION :: encode_ranges 0 rs),
      mkNegentropy (ng_storage e) (ng_frame_size_limit e) true) ∧
    frame_from items bound_new rs infinity ∧
    ∀ x, length (item_id x) = 32%nat → item_timestamp x < u64_max → open_in bound_new rs x.
Proof.
  intros Hinit. unfold initiate. rewrite Hinit. cbn [ng_storage]. rewrite storage_size_law.
  cbn [mbind result_bind]. fold infinity.
  set (e' := mkNegentropy _ _ true).
  destruct (split_range_ok e' bound_new infinity 0) as (rs & Hrs & Hf & Hall & _).
  - intros x Hx. apply N.lt_le_incl, items_time, Hx.
  - apply infinity_ok.
  - apply new_le_infinity.
  - rewrite (cut_new e'), (cut_infinity e' items_time) in Hrs. cbn [e' ng_storage] in Hrs.
    rewrite Hrs. exists rs. split_and!; [done|done|]. intros x Hx Ht.
    eapply open_in_all; [done|done|by apply not_before_new|by apply before_infinity].
Qed.
End initiate.
