(* ===== verification/NegValidate.v ===== *)
(** * Reconciliation: validation and truncation

    Everything the engine of Negentropy.v writes is valid, also when a limit
    truncates it. *)

From S2P Require Export NegReconcile.

(** ** Validation against the engine

    What [validate] accepts is what the engine can read: the ranges of a frame
    it passes are in order and their payloads are whole. And what the engine
    writes passes. *)

Section validate.
Context `{!NegStorage, !NegLaws}.
Implicit Types (p : Bound) (rs : list Range).

Lemma v_take_inv n bs b rest : v_take n bs = (Ok b, rest) → bs = b ++ rest ∧ nlen b = n.
Proof. by rewrite v_take_Ok, get_bytes_Ok. Qed.
Lemma v_take_app n b rest : nlen b = n → v_take n (b ++ rest) = (Ok b, rest).
Proof. intros <-. rewrite v_take_Ok. apply get_bytes_app. Qed.
Lemma v_varint_encode n rest : n ≤ u64_max → v_varint (encode_var_int n ++ rest) = (Ok n, rest).
Proof. intros. by apply v_varint_decode, decode_encode_var_int. Qed.

Lemma v_timestamp_time ts delta t : ts ≤ u64_max → v_timestamp ts delta = Ok t → t = time_of ts delta.
Proof.
  unfold v_timestamp, time_of, u64_sat_add, sat_add, checked_add. intros Hts.
  repeat case_decide; intros ?; simplify_eq; lia.
Qed.

(** Identifiers cut out of the bytes. *)
Fixpoint chunks (count : nat) (bs : bytes) : list bytes :=
  match count with
  | O => []
  | S count => take 32 bs :: chunks count (drop 32 bs)
  end.
Lemma chunks_join count bs :
  nlen bs = N.of_nat count * 32 →
  mjoin (chunks count bs) = bs ∧ nlen (chunks count bs) = N.of_nat count ∧
  Forall (λ id, length id = 32%nat) (chunks count bs).
Proof.
  unfold nlen. revert bs. induction count as [|count IH]; intros bs Hlen.
  { destruct bs; [by repeat split; constructor|simpl in Hlen; lia]. }
  destruct (IH (drop 32 bs)) as (Hj & Hn & Hall).
  { rewrite length_drop. lia. }
  cbn [chunks]. split_and!.
  - change (take 32 bs ++ mjoin (chunks count (drop 32 bs)) = bs). by rewrite Hj, take_drop.
  - simpl length. lia.
  - constructor; [rewrite length_take; lia|done].
Qed.

Lemma mode_try_from_ok mode : mode_try_from (mode_as_u64 mode) = Ok mode.
Proof. by destruct mode. Qed.
Lemma v_payload_inv m bs rest :
  v_payload m bs = (Ok tt, rest) →
  ∃ mode pl, mode_try_from m = Ok mode ∧ payload_read mode pl bs rest.
Proof.
  unfold v_payload, mode_try_from. repeat case_decide; subst.
  - intros [= <-]. by exists Skip, PSkip.
  - intros (f & r & [-> Hf]%v_take_inv & Heq)%se_bind_Ok.
    injection Heq as [= <-]. by exists Fingerprint, (PFingerprint f).
  - intros (count & r & Hn%v_varint_decode & Hr)%se_bind_Ok.
    destruct (checked_mul _ _ _) as [n|] eqn:Hmul; [|done].
    apply se_bind_Ok in Hr as (ids & r' & [-> Hids]%v_take_inv & Heq). injection Heq as [= <-].
    unfold checked_mul in Hmul. case_decide; simplify_eq.
    destruct (chunks_join (N.to_nat count) ids) as (Hj & Hlen & Hall).
    { by rewrite N2Nat.id. }
    exists IdList, (PIds (chunks (N.to_nat count) ids)). split; [done|]. split; [|done].
    by rewrite Hj, Hlen, N2Nat.id.
  - done.
Qed.

(** A range [validate] accepts is one the engine reads. *)
Lemma v_range_parsed p bs ts pt rest :
  bound_ok p → v_range (bound_time p) (bound_point p) bs = (Ok (ts, pt), rest) →
  ∃ b mode q1 pl,
    (bound ← decode_bound; mode ← decode_mode; mret (bound, mode)) (bound_time p, bs)
      = (Ok (b, mode), (bound_time b, q1)) ∧
    payload_read mode pl q1 rest ∧ bound_le p b ∧ bound_ok b ∧ ts = bound_time b ∧ pt = bound_point b.
Proof.
  intros [Hmax _] (delta & r1 & Hdelta%v_varint_decode & Hv)%se_bind_Ok.
  apply se_bind_Ok in Hv as (t & r2 & Ht & Hv). unfold se_lift in Ht. injection Ht as Ht <-.
  apply v_timestamp_time in Ht; [|done]. subst t.
  apply se_bind_Ok in Hv as (len & r3 & Hlen%v_varint_decode & Hv).
  case_decide as H32; [done|].
  apply se_bind_Ok in Hv as (id & r4 & Hid & Hv).
  cbv zeta in Hv. destruct (point_lt _ _) eqn:Hlt; [done|].
  apply se_bind_Ok in Hv as (m & r5 & Hm%v_varint_decode & Hv).
  apply se_bind_Ok in Hv as ([] & r6 & Hpl & Heq). injection Heq as [= <- <- <-].
  apply v_payload_inv in Hpl as (mode & pl & Hmode & Hread).
  apply v_take_Ok in Hid as Hid'. apply v_take_inv in Hid as [_ Hnlen].
  set (ts := time_of (bound_time p) delta) in *.
  assert (bound_with_timestamp_and_id ts id = Ok (mkBound (mkItem ts (pad_id id)) (nlen id))) as Hb.
  { rewrite bound_with_timestamp_and_id_law, decide_False by lia. done. }
  exists (mkBound (mkItem ts (pad_id id)) (nlen id)), mode, r5, pl. split_and!; [|done| | |done..].
  - unfold decode_bound, decode_timestamp_in, decode_mode, lift_query, se_get, se_modify, se_lift,
      mbind, se_bind, mret, se_ret. cbn [fst snd]. rewrite Hdelta. cbn [fst snd].
    rewrite Hlen. cbn [fst snd]. rewrite Hid'. cbn [fst snd].
    fold (time_of (bound_time p) delta). fold ts. rewrite Hb. cbn [fst snd].
    by rewrite Hm, Hmode.
  - intros Hc%point_lt_plt.
    assert (point_lt (ts, pad_id id) (bound_point p) = true) by exact Hc. congruence.
  - eapply bound_id_ok; [|exact Hb]. apply sat_add_le.
Qed.
Lemma v_ranges_parsed fuel p bs :
  bound_ok p → v_ranges fuel (bound_time p) (bound_point p) bs = Ok tt →
  ∃ rs, parsed (bound_time p) rs bs ∧ chain p rs.
Proof.
  revert p bs. induction fuel as [|fuel IH]; intros p bs Hp Hv; [done|]. cbn [v_ranges] in Hv.
  case_decide as Hnil.
  { exists []. subst. split; [constructor|done]. }
  destruct (v_range _ _ _) as [[[ts pt]|] rest] eqn:Hr; [|done].
  apply v_range_parsed in Hr as (b & mode & q1 & pl & Hdec & Hread & Hle & Hb & -> & ->); [|done].
  apply IH in Hv as (rs & Hparsed & Hch); [|done].
  exists ((b, pl) :: rs). split; [by econstructor|done].
Qed.
Lemma bound_new_point : bound_point bound_new = (0, pad_id []).
Proof. by rewrite bound_new_law. Qed.
Lemma validate_parsed bs :
  validate bs = Ok tt →
  ∃ rest rs, bs = PROTOCOL_VERSION :: rest ∧ parsed 0 rs rest ∧ chain bound_new rs.
Proof.
  unfold validate. destruct (v_take 1 bs) as [[v|] rest] eqn:Ht; [|done].
  case_decide as Hv; [done|]. apply v_take_inv in Ht as [-> _].
  assert (v = [97]) as -> by (by destruct (decide (v = [97]))).
  rewrite <-bound_new_point. replace 0 with (bound_time bound_new) by by rewrite bound_new_law.
  intros (rs & ? & ?)%v_ranges_parsed; [|apply bound_new_ok]. by exists rest, rs.
Qed.

(** ** What the engine writes *)
Lemma fits_of_storage s p b pl : payload_ok (stored s) p b pl → payload_fits pl.
Proof.
  destruct pl as [|f|ids]; simpl; [done| |].
  - intros ->. apply fingerprint_length.
  - intros ->. pose proof (stored_fits s). pose proof (length_filter
      (λ x, ple (bound_point p) (item_point x) ∧ item_before b x) (stored s)).
    unfold between, nlen, ID_SIZE in *. rewrite length_fmap. split; [lia|].
    apply Forall_forall. intros id (x & -> & [_ Hx]%list_elem_of_filter)%list_elem_of_fmap.
    by eapply stored_id.
Qed.

Lemma v_payload_encode mode pl q rest :
  payload_fits pl → payload_read mode pl q rest → v_payload (mode_as_u64 mode) q = (Ok tt, rest).
Proof.
  unfold v_payload. destruct mode, pl as [|f|ids]; simpl; try done.
  - by intros _ ->.
  - intros _ [Hf ->]. apply se_bind_Ok. exists f, rest. split; [|done]. by apply v_take_app.
  - intros [Hlen Hids] [Hdec _]. apply se_bind_Ok. exists (nlen ids), (mjoin ids ++ rest).
    split; [by apply v_varint_decode|]. unfold checked_mul, ID_SIZE in *. rewrite decide_True by done.
    apply se_bind_Ok. exists (mjoin ids), rest. split; [|done]. apply v_take_app.
    rewrite mjoin_ids_length by done. done.
Qed.

Lemma v_range_encode p b pl rest :
  bound_ok p → bound_ok b → bound_le p b → payload_fits pl →
  v_range (bound_time p) (bound_point p) (encode_range (bound_time p) (b, pl) ++ rest)
    = (Ok (bound_time b, bound_point b), rest).
Proof.
  intros [Hpmax _] (Hmax & Hlen & Hid & H32) Hle Hfits.
  apply ple_time in Hle as Htime. change (bound_time p ≤ bound_time b) in Htime.
  unfold encode_range, encode_bound. cbn [fst snd].
  destruct (encode_timestamp_out _ _) as [t last] eqn:Ht. cbn [fst].
  destruct (payload_read_encode pl rest Hfits) as (mode & q & Hpl & Hread).
  rewrite <-!app_assoc, Hpl. apply se_bind_Ok.
  assert (∃ delta, t = encode_var_int delta ∧ delta ≤ u64_max ∧
    v_timestamp (bound_time p) delta = Ok (bound_time b)) as (delta & -> & Hdelta & Hvt).
  { unfold encode_timestamp_out in Ht. fold (bound_time b) in *. unfold v_timestamp.
    case_decide as Hm; simplify_eq; eexists; (split; [done|]).
    - split; [done|]. rewrite decide_True by auto. by rewrite Hm.
    - unfold u64_sat_add. rewrite sat_add_exact by lia. split; [lia|].
      rewrite decide_False by lia. unfold checked_add. rewrite decide_True by lia. f_equal. lia. }
  eexists _, _. split; [by apply v_varint_encode|].
  apply se_bind_Ok. eexists _, _. split; [by rewrite Hvt|].
  apply se_bind_Ok. eexists (bound_id_len b), _. unfold ID_SIZE in Hlen.
  split; [apply v_varint_encode; unfold u64_max; lia|]. rewrite decide_False by lia.
  rewrite resize_take by (unfold nlen; lia).
  apply se_bind_Ok. eexists _, _. split.
  { apply v_take_app. unfold nlen. rewrite length_take. lia. }
  cbv zeta. rewrite <-Hid.
  assert (point_lt (bound_time b, item_id (bound_item b)) (bound_point p) = false) as ->.
  { apply not_true_iff_false. rewrite point_lt_plt. exact Hle. }
  apply se_bind_Ok. exists (mode_as_u64 mode), q. split.
  { apply v_varint_encode. by destruct mode. }
  apply se_bind_Ok. exists tt, rest. split; [by eapply v_payload_encode|done].
Qed.
Lemma v_ranges_encode s rs fuel p q :
  (length (encode_ranges (bound_time p) rs) < fuel)%nat →
  bound_ok p → frame_from (stored s) p rs q →
  v_ranges fuel (bound_time p) (bound_point p) (encode_ranges (bound_time p) rs) = Ok tt.
Proof.
  intros Hfuel Hp Hf. revert fuel Hfuel Hp.
  induction Hf as [p|p b pl rs q Hpb Hb Hpl Hrs IH]; intros fuel Hfuel Hp;
    (destruct fuel as [|fuel]; [lia|]); cbn [v_ranges].
  { by rewrite decide_True. }
  pose proof (encode_ranges_nonempty (bound_time p) ((b, pl) :: rs) ltac:(done)) as Hne.
  rewrite decide_False by done. cbn [encode_ranges fst] in *.
  rewrite v_range_encode by (done || by eapply fits_of_storage). apply IH; [|done].
  pose proof (encode_ranges_nonempty (bound_time p) [(b, pl)] ltac:(done)) as Hone.
  cbn [encode_ranges] in Hone. rewrite app_nil_r in Hone.
  rewrite length_app in Hfuel. destruct (encode_range (bound_time p) (b, pl)); [done|].
  simpl in Hfuel. lia.
Qed.
(** The frames of a storage pass the peer's validation. *)
Lemma validate_encode s rs q :
  frame_from (stored s) bound_new rs q →
  validate (PROTOCOL_VERSION :: encode_ranges 0 rs) = Ok tt.
Proof.
  intros Hf. unfold validate. rewrite v_take1_cons. cbn [fst snd]. rewrite decide_False by tauto.
  rewrite <-bound_new_point. replace 0 with (bound_time bound_new) by by rewrite bound_new_law.
  eapply v_ranges_encode; [lia|apply bound_new_ok|done].
Qed.
(** And are read back as the ranges they were made of. *)
Lemma parsed_encode s rs p q :
  frame_from (stored s) p rs q →
  parsed (bound_time p) rs (encode_ranges (bound_time p) rs) ∧ chain p rs.
Proof.
  induction 1 as [p|p b pl rs q Hpb Hb Hpl Hrs [IH Hch]]; [by repeat constructor|].
  split; [|done]. apply parsed_encode_cons; [done|by apply (ple_time (bound_point p) (bound_point b))| |done].
  by eapply fits_of_storage.
Qed.
End validate.

(** ** The size of a frame

    The engine stops filling a frame 200 bytes below its limit. What it may
    still write after that (a skip, the end of an identifier list, the closing
    fingerprint) takes fewer, so that no frame is larger than the limit. *)

Lemma Ok_inv {E A} (a a' : A) : @Ok E _ a = Ok a' → a' = a.
Proof. by intros [= <-]. Qed.
Lemma Ok_pair_inv {E A B} (a a' : A) (b b' : B) :
  @Ok E _ (a, b) = Ok (a', b') → a' = a ∧ b' = b.
Proof. by intros [= <- <-]. Qed.

Section limit.
Context `{!NegStorage, !HashOrder, !NegLaws}.
(** ** The pieces *)
Lemma low_digits_small_value turns n : n < 128 → (length (low_digits turns n) ≤ 1)%nat.
Proof.
  intros Hn. destruct turns as [|turns]; cbn [low_digits]; [simpl; lia|].
  case_decide; [simpl; lia|]. simpl. rewrite N.shiftr_div_pow2, N.div_small by done.
  destruct turns; simpl; lia.
Qed.
Lemma encode_var_int_length n : nlen (encode_var_int n) ≤ 10.
Proof.
  unfold encode_var_int, nlen. case_decide; [simpl; lia|].
  rewrite mark_digits_length, length_reverse. pose proof (low_digits_length 10 n). lia.
Qed.
Lemma encode_var_int_small n : n < 128 → nlen (encode_var_int n) ≤ 1.
Proof.
  unfold encode_var_int, nlen. case_decide; [simpl; lia|]. intros Hn.
  rewrite mark_digits_length, length_reverse. pose proof (low_digits_small_value 10 n Hn). lia.
Qed.
Lemma resize_length n l : nlen (resize n l) = n.
Proof. unfold resize, nlen. rewrite length_app, length_take, length_replicate. lia. Qed.
Lemma encode_bound_length b last :
  bound_id_len b ≤ 32 → nlen (encode_bound b last).1 ≤ 43.
Proof.
  intros Hb. unfold encode_bound. destruct (encode_timestamp_out _ _) as [t l] eqn:Ht.
  cbn [fst]. rewrite !nlen_app, resize_length.
  pose proof (encode_var_int_small (bound_id_len b) ltac:(lia)).
  assert (nlen t ≤ 10); [|lia]. unfold encode_timestamp_out in Ht.
  case_decide; simplify_eq; apply encode_var_int_length.
Qed.
Lemma encode_infinity_length last : nlen (encode_bound infinity last).1 = 2.
Proof. unfold infinity. by rewrite bound_with_timestamp_law. Qed.
Lemma encode_mode_length mode : nlen (encode_mode mode) = 1.
Proof. by destruct mode. Qed.

Lemma bound_new_len : bound_id_len bound_new ≤ 32.
Proof. rewrite bound_new_law. simpl. lia. Qed.
Lemma bound_id_len_ok t id b : bound_with_timestamp_and_id t id = Ok b → bound_id_len b ≤ 32.
Proof.
  rewrite bound_with_timestamp_and_id_law. case_decide; intros; simplify_eq; simpl; lia.
Qed.
Lemma get_minimal_bound_len x y b : get_minimal_bound x y = Ok b → bound_id_len b ≤ 32.
Proof.
  unfold get_minimal_bound. case_decide.
  - intros [= <-]. rewrite bound_with_timestamp_law. simpl. lia.
  - case_decide; [|done]. apply bound_id_len_ok.
Qed.
Variable e : Negentropy.
Notation items := (stored (ng_storage e)).
Notation size := (nlen items).
Notation limit := (ng_frame_size_limit e).
Hypothesis limit_large : 4096 ≤ limit.

Lemma fingerprint_len lower upper f :
  lower ≤ upper ≤ size → storage_fingerprint (ng_storage e) lower upper = Ok f → nlen f = 16.
Proof. intros Hl. rewrite storage_fingerprint_law by done. intros [= <-]. apply fingerprint_length. Qed.
Lemma iterate_ids lower upper xs :
  lower ≤ upper ≤ size → storage_iterate (ng_storage e) lower upper = Ok xs →
  Forall (λ id, length id = 32%nat) (item_id <$> xs) ∧ nlen xs = upper - lower.
Proof.
  intros Hl. rewrite storage_iterate_law by done. intros [= <-]. rewrite slice_length by done.
  split; [|done]. apply Forall_forall. intros id (x & -> & Hx%slice_elem)%list_elem_of_fmap.
  by eapply stored_id.
Qed.

(** ** [initiate] *)
Lemma next_bound_len curr upper upper_bound b :
  bound_id_len upper_bound ≤ 32 → next_bound e curr upper upper_bound = Ok b → bound_id_len b ≤ 32.
Proof.
  unfold next_bound. intros Hu. case_decide; [by intros [= <-]|].
  intros (xs & _ & Hb)%result_bind_Ok. by eapply get_minimal_bound_len.
Qed.
Lemma split_buckets_length turns i num_elems curr upper upper_bound last o last' :
  bound_id_len upper_bound ≤ 32 → curr + buckets_left num_elems i ≤ size →
  N.of_nat turns + i = BUCKETS →
  split_buckets e turns i num_elems curr upper upper_bound last = Ok (o, last') →
  nlen o ≤ N.of_nat turns * 60.
Proof.
  intros Hu. revert i curr last o last'.
  induction turns as [|turns IH]; intros i curr last o last' Hsize Hi; cbn [split_buckets].
  { by intros [= <- _]. }
  pose proof (buckets_left_step num_elems i ltac:(lia)) as Hstep.
  intros (f & Hf & (b & Hb & Hr)%result_bind_Ok)%result_bind_Ok.
  rewrite encode_bound_pair in Hr.
  apply result_bind_Ok in Hr as ([o' l'] & Ho & Hr). apply Ok_pair_inv in Hr as [-> ->].
  apply IH in Ho; [|lia..]. apply fingerprint_len in Hf; [|lia].
  apply next_bound_len in Hb; [|done]. pose proof (encode_bound_length b last Hb).
  rewrite !nlen_app, encode_mode_length. lia.
Qed.
Lemma split_range_length lower upper upper_bound last o last' :
  bound_id_len upper_bound ≤ 32 → lower ≤ upper ≤ size →
  split_range e lower upper upper_bound last = Ok (o, last') → nlen o ≤ 1046.
Proof.
  intros Hu Hl. unfold split_range. case_decide as Hn.
  - rewrite encode_bound_pair. intros (xs & [Hids Hlen]%iterate_ids & Hr)%result_bind_Ok; [|done].
    apply Ok_pair_inv in Hr as [-> ->]. pose proof (encode_bound_length upper_bound last Hu).
    pose proof (encode_var_int_length (upper - lower)).
    rewrite !nlen_app, encode_mode_length, mjoin_ids_length by done.
    unfold nlen at 3. rewrite length_fmap. fold (nlen xs). unfold DOUBLE_BUCKETS, BUCKETS, ID_SIZE in *.
    lia.
  - intros Hr%split_buckets_length; [|done|rewrite buckets_left_all; lia|done].
    etrans; [exact Hr|]. vm_compute. congruence.
Qed.

(** ** The loop *)

(** A frame that is still open, and what a turn may make of it. *)
Record room (l : LoopState) : Prop := {
  room_prev : bound_id_len (lp_prev_bound l) ≤ 32;
  room_index : lp_prev_index l ≤ size;
  room_full : nlen (lp_full_output l) ≤ limit - 200;
}.
Record range_room (l : LoopState) (g : RangeResult) : Prop := {
  rr_upper : rg_upper g ≤ size;
  rr_committed : nlen (lp_full_output l) + nlen (rg_committed g) ≤ limit - 70;
}.

Lemma exceeded_false n : exceeded_frame_size_limit e n = false → n ≤ limit - 200.
Proof.
  unfold exceeded_frame_size_limit. rewrite (bool_decide_eq_true_2 (limit ≠ 0)) by lia. simpl.
  rewrite bool_decide_eq_false. lia.
Qed.
Lemma do_skip_length l : room l → nlen (do_skip l).1 ≤ 44.
Proof.
  intros [Hp _ _]. unfold do_skip. destruct (lp_skip l); [|by cbn [fst]; rewrite nlen_nil].
  rewrite encode_bound_pair. cbn [fst]. rewrite nlen_app, encode_mode_length.
  pose proof (encode_bound_length _ (lp_last_out l) Hp). lia.
Qed.
Lemma response_ids_length full xs index ids0 ids stopped :
  full ≤ limit - 200 → Forall (λ x, length (item_id x) = 32%nat) xs →
  full + nlen (mjoin ids0) ≤ limit - 168 →
  response_ids e full xs index ids0 = (ids, stopped) → full + nlen (mjoin ids) ≤ limit - 168.
Proof.
  intros Hfull Hxs. revert index ids0. induction Hxs as [|x xs Hx _ IH]; intros index ids0 Hids Hr;
    simpl in Hr; [by simplify_eq|].
  destruct (exceeded_frame_size_limit _ _) eqn:Hex; [by simplify_eq|].
  apply exceeded_false in Hex. eapply IH; [|exact Hr].
  assert (mjoin (ids0 ++ [item_id x]) = mjoin ids0 ++ item_id x) as ->.
  { clear. induction ids0 as [|i ids0 IH]; [by rewrite app_nil_l; simpl; rewrite app_nil_r|].
    change (mjoin ((i :: ids0) ++ [item_id x])) with (i ++ mjoin (ids0 ++ [item_id x])).
    by rewrite IH, app_assoc. }
  rewrite nlen_app. unfold nlen at 2. rewrite Hx. lia.
Qed.

Lemma range_fingerprint_room lower upper b query l g :
  room l → lower ≤ upper ≤ size → range_fingerprint e lower upper b query l = Ok g → range_room l g.
Proof.
  intros [_ _ Hfull] Hl. unfold range_fingerprint.
  destruct (get_bytes _ query) as [[f|] rest]; [|done].
  intros (own & _ & Hr)%result_bind_Ok. case_decide.
  - destruct (do_skip l) as [s last].
    apply result_bind_Ok in Hr as ([o last'] & _ & [= <-]). split; simpl; [|rewrite nlen_nil]; lia.
  - injection Hr as <-. split; simpl; [|rewrite nlen_nil]; lia.
Qed.
Lemma range_id_list_room lower upper b query l g :
  room l → bound_id_len b ≤ 32 → lower ≤ upper ≤ size →
  range_id_list e lower upper b query l = Ok g → range_room l g.
Proof.
  intros Hroom Hb Hl. pose proof Hroom as [_ _ Hfull]. unfold range_id_list.
  destruct (decode_var_int query) as [[n|] q1]; [|done]. case_decide; [done|].
  intros ([their q2] & _ & (xs & Hxs & Hr)%result_bind_Ok)%result_bind_Ok.
  apply iterate_ids in Hxs as Hids; [|done]. destruct Hids as [Hids Hlen].
  destruct (compare_ids _ _ _ _) as [their' have']. destruct (ng_is_initiator e).
  { injection Hr as <-. split; simpl; [|rewrite nlen_nil]; lia. }
  pose proof (do_skip_length l Hroom) as Hskip. destruct (do_skip l) as [s last].
  destruct (response_ids _ _ _ _ _) as [ids stopped] eqn:Hresp. cbn [fst] in Hskip.
  assert (nlen (lp_full_output l) + nlen (mjoin ids) ≤ limit - 168) as Hmax.
  { eapply response_ids_length; [done| | |exact Hresp].
    - rewrite Forall_fmap in Hids. exact Hids.
    - change (mjoin []) with (@nil N). rewrite nlen_nil. lia. }
  apply response_ids_ok in Hresp. rewrite encode_bound_pair in Hr. apply Ok_inv in Hr as ->.
  set (eb := match stopped with Some (item, _) => bound_from_item item | None => b end).
  assert (bound_id_len eb ≤ 32) as Heb.
  { destruct stopped as [[x index]|]; [|done]. subst eb. by rewrite bound_from_item_law. }
  split; cbn [rg_upper rg_committed].
  - destruct stopped as [[x index]|]; [|lia]. destruct Hresp as (i & Hi & _ & ->).
    apply lookup_lt_Some in Hi. unfold nlen in Hlen. lia.
  - pose proof (encode_bound_length eb last Heb). pose proof (encode_var_int_length (nlen ids)).
    rewrite !nlen_app, encode_mode_length. lia.
Qed.

Lemma finish_range_room lower b last_in l g goes_on l' :
  room l → range_room l g → bound_id_len b ≤ 32 → lower ≤ size →
  finish_range e size lower b last_in l g = Ok (goes_on, l') →
  nlen (lp_full_output l') ≤ limit ∧ (goes_on = true → room l').
Proof.
  intros [Hprev _ Hfull] [Hupper Hcom] Hb Hlower. unfold finish_range.
  destruct (rg_truncated g || _) eqn:Hstop.
  - set (remaining := if decide (rg_o g = []) then rg_upper g else lower).
    assert (remaining ≤ size) as Hrem by (subst remaining; by case_decide).
    set (boundary := if decide (rg_o g = []) then b else lp_prev_bound l).
    assert (bound_id_len boundary ≤ 32) as Hbound by (subst boundary; by case_decide).
    set (last := if decide (rg_o g = []) then rg_last_out g else lp_last_out l).
    match goal with |- context [let '(_, _) := ?c in _] => destruct c as [skipped last'] eqn:Hskip end.
    assert (nlen skipped ≤ 44) as Hlen.
    { destruct (rg_truncated g); [by simplify_eq; rewrite nlen_nil|].
      rewrite encode_bound_pair in Hskip. apply pair_eq in Hskip as [<- _].
      rewrite nlen_app, encode_mode_length. pose proof (encode_bound_length boundary last Hbound). lia. }
    intros (f & Hf%fingerprint_len & Hr)%result_bind_Ok; [|lia].
    fold infinity in Hr. rewrite encode_bound_pair in Hr.
    apply Ok_pair_inv in Hr as [-> ->].
    split; [|done]. cbn [lp_full_output].
    rewrite !nlen_app, encode_infinity_length, encode_mode_length. lia.
  - apply orb_false_iff in Hstop as [_ Hex%exceeded_false]. intros [= <- <-].
    cbn [lp_full_output]. rewrite nlen_app in *. rewrite nlen_app. split; [lia|].
    intros _. split; cbn; [done|lia|rewrite !nlen_app; lia].
Qed.

Lemma reconcile_turn_room l goes_on l' :
  room l → reconcile_turn e size l = Ok (goes_on, l') →
  nlen (lp_full_output l') ≤ limit ∧ (goes_on = true → room l').
Proof.
  intros Hroom. pose proof Hroom as [_ Hindex _]. unfold reconcile_turn.
  match goal with |- context [match ?c with _ => _ end] =>
    destruct c as [[[b mode]|] [last_in query]] eqn:Hdec end; [|done].
  assert (bound_id_len b ≤ 32) as Hb.
  { apply se_bind_Ok_pair in Hdec as (b' & t & q & Hb%decode_bound_inv & Hm).
    apply se_bind_Ok_pair in Hm as (mode' & t' & q' & _ & Heq).
    unfold mret, se_ret in Heq. simplify_eq.
    destruct Hb as (? & ? & ? & ? & _ & _ & _ & ? & ->). done. }
  rewrite find_lower_bound_law by lia.
  set (upper := lp_prev_index l + cut _ b).
  assert (lp_prev_index l ≤ upper ≤ size) as Hu.
  { subst upper. pose proof (cut_le_size (slice (lp_prev_index l) size items) b) as Hc.
    rewrite slice_length in Hc by lia. lia. }
  intros (g & Hg & Hf)%result_bind_Ok.
  eapply finish_range_room; [exact Hroom| |exact Hb|exact Hindex|exact Hf].
  destruct mode; simpl in Hg.
  - injection Hg as <-. split; simpl; [lia|]. rewrite nlen_nil. destruct Hroom. lia.
  - by eapply range_fingerprint_room.
  - by eapply range_id_list_room.
Qed.
Lemma reconcile_loop_room fuel l l' :
  room l → reconcile_loop fuel e size l = Some (Ok l') → nlen (lp_full_output l') ≤ limit.
Proof.
  revert l. induction fuel as [|fuel IH]; intros l Hroom; [done|]. cbn [reconcile_loop].
  case_decide.
  { intros [= ->]. destruct Hroom. lia. }
  destruct (reconcile_turn e size l) as [[goes_on l1]|] eqn:Ht; [|done].
  apply reconcile_turn_room in Ht as [Hlen Hgo]; [|done].
  destruct goes_on; [by apply IH, Hgo|congruence].
Qed.
End limit.

Section frames.
Context `{!NegStorage, !HashOrder, !NegLaws}.

(** No frame is larger than the limit, whatever the query. *)
Lemma reconcile_aux_length e query have need o have' need' :
  4096 ≤ ng_frame_size_limit e →
  reconcile_aux e query have need = Some (Ok (o, have', need')) → nlen o ≤ ng_frame_size_limit e.
Proof.
  intros Hlimit. unfold reconcile_aux. destruct (get_byte query) as [[v|] rest]; [|done].
  case_decide; [done|]. case_decide.
  { destruct (ng_is_initiator e); [done|]. intros [= <- _ _]. unfold nlen. simpl. lia. }
  rewrite storage_size_law.
  destruct (reconcile_loop _ _ _ _) as [[l'|]|] eqn:Hloop; [|done..]. intros [= <- _ _].
  eapply reconcile_loop_room; [done| |exact Hloop].
  split; [apply bound_new_len|simpl; lia|unfold nlen; simpl; lia].
Qed.
Lemma initiate_length e o e' :
  4096 ≤ ng_frame_size_limit e → initiate e = (Ok o, e') → nlen o ≤ ng_frame_size_limit e.
Proof.
  intros Hlimit. unfold initiate. destruct (ng_is_initiator e); [done|].
  cbv zeta. set (e1 := mkNegentropy _ _ true). intros [= Hr <-].
  rewrite storage_size_law in Hr. apply result_bind_Ok in Hr as (n & Hn & Hr). apply Ok_inv in Hn as ->.
  apply result_bind_Ok in Hr as ([r last] & Hr & Ho). apply Ok_inv in Ho as ->.
  rewrite nlen_cons. apply split_range_length in Hr; [lia|done| |].
  - rewrite bound_with_timestamp_law. simpl. lia.
  - simpl. lia.
Qed.

(** *** The loop ends *)
Lemma read_ids_smaller count m q m' rest :
  read_ids count m q = Ok (m', rest) → (length rest ≤ length q)%nat.
Proof.
  revert m q. induction count as [|count IH]; intros m q; simpl; [by intros [= _ <-]|].
  destruct (get_bytes ID_SIZE q) as [[id|] r] eqn:Hg; [|done]. intros ?%IH.
  apply get_bytes_Ok in Hg as [-> _]. rewrite length_app. lia.
Qed.
Lemma range_result_smaller e mode lower upper b q l g :
  range_result e mode lower upper b q l = Ok g → (length (rg_query g) ≤ length q)%nat.
Proof.
  destruct mode; simpl.
  - by intros [= <-].
  - unfold range_fingerprint. destruct (get_bytes _ q) as [[f|] rest] eqn:Hg; [|done].
    apply get_bytes_Ok in Hg as [-> _]. rewrite length_app.
    intros (own & _ & Hr)%result_bind_Ok. case_decide.
    + destruct (do_skip l). apply result_bind_Ok in Hr as ([o last'] & _ & [= <-]). simpl. lia.
    + injection Hr as <-. simpl. lia.
  - unfold range_id_list. destruct (decode_var_int q) as [[n|] q1] eqn:Hd; [|done].
    apply decode_var_int_le in Hd as [_ Hd]. case_decide; [done|].
    intros ([their q2] & Hr%read_ids_smaller & (xs & _ & Hg)%result_bind_Ok)%result_bind_Ok.
    destruct (compare_ids _ _ _ _) as [their' have']. destruct (ng_is_initiator e).
    { injection Hg as <-. simpl. lia. }
    destruct (do_skip l). destruct (response_ids _ _ _ _ _). destruct (encode_bound _ _).
    injection Hg as <-. simpl. lia.
Qed.
Lemma finish_range_query e size lower b last_in l g goes_on l' :
  finish_range e size lower b last_in l g = Ok (goes_on, l') → lp_query l' = rg_query g.
Proof.
  unfold finish_range. destruct (_ || _); [|by intros [= _ <-]].
  match goal with |- context [let '(_, _) := ?c in _] => destruct c end.
  intros (f & _ & Hr)%result_bind_Ok. destruct (encode_bound _ _). by injection Hr as _ <-.
Qed.
Lemma reconcile_turn_smaller e size l goes_on l' :
  reconcile_turn e size l = Ok (goes_on, l') → (length (lp_query l') < length (lp_query l))%nat.
Proof.
  unfold reconcile_turn.
  match goal with |- context [match ?c with _ => _ end] =>
    destruct c as [[[b mode]|] [last_in query]] eqn:Hdec end; [|done].
  intros (g & Hg%range_result_smaller & Hf%finish_range_query)%result_bind_Ok. rewrite Hf.
  apply parsed_smaller in Hdec. lia.
Qed.
Lemma reconcile_loop_ends fuel e size l :
  (length (lp_query l) < fuel)%nat → reconcile_loop fuel e size l ≠ None.
Proof.
  revert l. induction fuel as [|fuel IH]; intros l Hfuel; [lia|]. cbn [reconcile_loop].
  case_decide; [done|]. destruct (reconcile_turn e size l) as [[[] l']|] eqn:Ht; [|done..].
  apply IH. apply reconcile_turn_smaller in Ht. lia.
Qed.
Lemma reconcile_aux_ends e query have need : reconcile_aux e query have need ≠ None.
Proof.
  unfold reconcile_aux. destruct (get_byte query) as [[v|] rest]; [|done]. repeat case_decide; try done.
  destruct (storage_size _) as [size|]; [|done].
  destruct (reconcile_loop _ _ _ _) as [[]|] eqn:Hl; [done..|].
  by apply reconcile_loop_ends in Hl; [|simpl; lia].
Qed.
End frames.
