(* ===== verification/ReconcileSession.v ===== *)
(** * Reconciliation sessions

    crates/nostr-pubsub-reconcile/src/lib.rs: an immutable snapshot of the
    records of a window, and a conversation about it that is bounded in
    records, bytes and rounds. The vector the negentropy crate builds its
    storage from is the class [NegVector]. *)

From S2P Require Export NegValidate.

Record PubRecord : Set := mkRecord { record_timestamp : N; record_id : bytes }.
Record HistoryFilter : Set := mkHistoryFilter { since : N; until_ : N }.
Definition filter_contains (f : HistoryFilter) (timestamp : N) : bool :=
  bool_decide (since f ≤ timestamp) && bool_decide (timestamp ≤ until_ f).
Record SessionLimits : Set := mkSessionLimits {
  max_records : N;
  max_frame_bytes : N;
  max_rounds : N;
}.
Definition limits_default : SessionLimits := mkSessionLimits 100000 16384 256.
Record SessionStep : Set := mkStep {
  step_next : option bytes;
  step_have : list bytes;
  step_need : list bytes;
}.

Class NegVector `{!NegStorage} : Type := {
  Vector : Type;
  vector_with_capacity : N → Vector;
  vector_insert : N → bytes → Vector → result NegError Vector;
  vector_seal : Vector → result NegError Storage;
  (** [Error]'s [Display]. *)
  error_to_string : NegError → string;
}.

Section session.
Context `{!NegStorage, !NegVector, !HashOrder}.

Record Session : Type := mkSession {
  ss_engine : Negentropy;
  ss_limits : SessionLimits;
  ss_rounds : N;
  ss_finished : bool;
}.

(** ** [Session::new] *)

(** The loop over the records; [unique] is keyed by identifier. *)
Fixpoint collect_records (f : HistoryFilter) (limits : SessionLimits) (records : list PubRecord)
    (unique : gmap bytes N) : result string (gmap bytes N) :=
  match records with
  | [] => Ok unique
  | record :: records =>
      if negb (filter_contains f (record_timestamp record)) then
        collect_records f limits records unique
      else
        let previous := unique !! record_id record in
        let unique := <[record_id record := record_timestamp record]> unique in
        if is_some_and (λ p, bool_decide (p ≠ record_timestamp record)) previous then
          Err "one record ID has conflicting timestamps"%string
        else if decide (max_records limits < msize unique) then
          Err "reconciliation window exceeds record limit"%string
        else collect_records f limits records unique
  end.
Fixpoint fill_vector (entries : list (bytes * N)) (storage : Vector) : result string Vector :=
  match entries with
  | [] => Ok storage
  | (id, timestamp) :: entries =>
      storage ← map_err error_to_string (vector_insert timestamp id storage);
      fill_vector entries storage
  end.
(** A BTreeMap is walked in the order of its keys. *)
Definition in_id_order (unique : gmap bytes N) : list (bytes * N) :=
  sort_by (cmp_on fst bytes_compare) (map_to_list unique).

Definition session_new (records : list PubRecord) (f : HistoryFilter) (limits : SessionLimits)
    : result string Session :=
  if bool_decide (until_ f < since f) || bool_decide (until_ f = u64_max) then
    Err "invalid reconciliation window"%string
  else if bool_decide (max_records limits = 0) || bool_decide (1000000 < max_records limits)
      || bool_decide (¬ (4096 ≤ max_frame_bytes limits ≤ 65536))
      || bool_decide (max_rounds limits = 0) then
    Err "invalid reconciliation limits"%string
  else
    unique ← collect_records f limits records ∅;
    storage ← fill_vector (in_id_order unique) (vector_with_capacity (msize unique));
    storage ← map_err error_to_string (vector_seal storage);
    engine ← map_err error_to_string (engine_new storage (max_frame_bytes limits));
    Ok (mkSession engine limits 0 false).

(** ** The conversation *)
Definition round_limit : string :=
  "reconciliation session finished or round limit exceeded"%string.
Definition tick : SE Session string unit := λ s,
  if ss_finished s || bool_decide (max_rounds (ss_limits s) ≤ ss_rounds s) then (Err round_limit, s)
  else (Ok tt, mkSession (ss_engine s) (ss_limits s) (ss_rounds s + 1) (ss_finished s)).
Definition accept (frame : bytes) : SE Session string unit :=
  _ ← tick;
  s ← se_get;
  if decide (max_frame_bytes (ss_limits s) < nlen frame) then
    se_fail "reconciliation frame exceeds byte limit"%string
  else se_lift (validate frame).

(** The engine's loop ends ([reconcile_aux_ends]); its fuel never runs out. *)
Definition ended {A} (r : option (result NegError A)) : result string A :=
  match r with
  | Some r => map_err error_to_string r
  | None => Err "out of fuel"%string
  end.

Definition session_initiate : SE Session string bytes :=
  _ ← tick;
  s ← se_get;
  let '(r, engine) := initiate (ss_engine s) in
  _ ← se_modify (λ s, mkSession engine (ss_limits s) (ss_rounds s) (ss_finished s));
  se_lift (map_err error_to_string r).
Definition respond (frame : bytes) : SE Session string bytes :=
  _ ← accept frame;
  s ← se_get;
  se_lift (ended (engine_reconcile (ss_engine s) frame)).
Definition session_reconcile (frame : bytes) : SE Session string SessionStep :=
  _ ← accept frame;
  s ← se_get;
  '(next, have, need) ← se_lift (ended (reconcile_with_ids (ss_engine s) frame [] []));
  _ ← se_modify (λ s, mkSession (ss_engine s) (ss_limits s) (ss_rounds s)
        (bool_decide (next = None)));
  mret (mkStep next have need).

(** Two peers talking: the initiator's frame, the other's reply, and what the
    initiator learns from it, until it has nothing to ask. [None] is a
    conversation longer than the fuel. *)
Fixpoint converse (fuel : nat) (a b : Session) (query : bytes) (have need : list bytes)
    : option (result string (list bytes * list bytes)) :=
  match fuel with
  | O => None
  | S fuel =>
      match respond query b with
      | (Err error, _) => Some (Err error)
      | (Ok reply, b) =>
          match session_reconcile reply a with
          | (Err error, _) => Some (Err error)
          | (Ok step, a) =>
              let have := have ++ step_have step in
              let need := need ++ step_need step in
              match step_next step with
              | None => Some (Ok (have, need))
              | Some query => converse fuel a b query have need
              end
          end
      end
  end.
Definition start_conversation (fuel : nat) (a b : Session)
    : option (result string (list bytes * list bytes)) :=
  match session_initiate a with
  | (Err error, _) => Some (Err error)
  | (Ok query, a) => converse fuel a b query [] []
  end.
End session.

(** What the crate says of the vector: it takes any item that fits in memory,
    and sealing sorts what it was given. *)
Class NegVectorLaws `{!NegStorage, !NegLaws, !NegVector} : Type := {
  contents : Vector → list Item;
  with_capacity_law n : contents (vector_with_capacity n) = [];
  insert_law timestamp id v :
    (nlen (contents v) + 1) * ID_SIZE ≤ u64_max →
    ∃ v', vector_insert timestamp id v = Ok v' ∧ contents v' = contents v ++ [mkItem timestamp id];
  seal_law v :
    NoDup (item_id <$> contents v) → (∀ x, x ∈ contents v → length (item_id x) = 32%nat) →
    nlen (contents v) * ID_SIZE ≤ u64_max →
    ∃ s, vector_seal v = Ok s ∧ stored s ≡ₚ contents v;
}.
