(* ===== verification/ReconcileProps.v ===== *)
(** * What reconciliation guarantees

    A session's snapshot is the records of its window; two sessions that talk
    find exactly what each is missing; no frame a peer sends, honest or not,
    makes the engine fail once it is accepted. *)

From S2P Require Export ReconcileSession.

Lemma mark_digits_bytes ds : Forall (λ d, d < 128) ds → Forall (λ b, b < 256) (mark_digits ds).
Proof.
  induction 1 as [|d ds Hd Hds IH]; [constructor|]. destruct ds as [|d' ds].
  { constructor; [lia|constructor]. }
  change (mark_digits (d :: d' :: ds)) with (N.lor d 128 :: mark_digits (d' :: ds)).
  constructor; [|done]. change 256 with (2 ^ 8).
  destruct (decide (N.lor d 128 = 0)) as [->|Hne]; [done|]. apply N.log2_lt_pow2; [lia|].
  rewrite N.log2_lor. change (N.log2 128) with 7.
  assert (N.log2 d ≤ 7); [|lia]. change 7 with (N.log2 128). apply N.log2_le_mono. lia.
Qed.
(** A 64-bit integer that is written is read back, by the engine and by the
    validator, whatever follows it, and takes at most ten bytes. *)
Theorem var_int_roundtrip n rest :
  n ≤ u64_max →
  decode_var_int (encode_var_int n ++ rest) = (Ok n, rest) ∧
  v_varint (encode_var_int n ++ rest) = (Ok n, rest) ∧
  nlen (encode_var_int n) ≤ 10 ∧ Forall (λ b, b < 256) (encode_var_int n).
Proof.
  intros Hn. pose proof (decode_encode_var_int n rest Hn) as Hdec.
  split_and!; [done|by apply v_varint_decode|apply encode_var_int_length|].
  unfold encode_var_int. case_decide; [by repeat constructor|].
  apply mark_digits_bytes, Forall_reverse, low_digits_small.
Qed.

Section session_new.
Context `{!NegStorage, !NegLaws, !NegVector, !NegVectorLaws, !HashOrder}.
Implicit Types (f : HistoryFilter) (limits : SessionLimits) (records : list PubRecord)
  (s a b : Session).

Definition valid_window f : Prop := since f ≤ until_ f ∧ until_ f ≠ u64_max.
Definition valid_limits limits : Prop :=
  0 < max_records limits ≤ 1000000 ∧ 4096 ≤ max_frame_bytes limits ≤ 65536 ∧
  max_rounds limits ≠ 0.
Definition window f records : list PubRecord :=
  filter (λ r, filter_contains f (record_timestamp r) = true) records.
Definition record_item (r : PubRecord) : Item := mkItem (record_timestamp r) (record_id r).
Definition session_items s : list Item := stored (ng_storage (ss_engine s)).

(** Two records of the window have one identifier and two times. *)
Definition conflicting (rs : list PubRecord) : Prop :=
  ∃ r r', r ∈ rs ∧ r' ∈ rs ∧ record_id r = record_id r' ∧ record_timestamp r ≠ record_timestamp r'.
(** The window holds more identifiers than [n]. *)
Definition more_than (n : N) (rs : list PubRecord) : Prop :=
  ∃ ids, NoDup ids ∧ n < nlen ids ∧ ∀ id, id ∈ ids → ∃ r, r ∈ rs ∧ record_id r = id.

Definition collected (unique : gmap bytes N) (rs : list PubRecord) : Prop :=
  ∀ id t, unique !! id = Some t ↔ ∃ r, r ∈ rs ∧ record_id r = id ∧ record_timestamp r = t.

Lemma collected_snoc unique rs r :
  collected unique rs → (∀ t, unique !! record_id r = Some t → t = record_timestamp r) →
  collected (<[record_id r := record_timestamp r]> unique) (rs ++ [r]).
Proof.
  intros Hc Hr id t. destruct (decide (record_id r = id)) as [<-|Hne].
  - rewrite lookup_insert_eq. split.
    + intros [= <-]. exists r. set_solver.
    + intros (r' & [Hin|Hin%list_elem_of_singleton]%elem_of_app & Hid & Ht); [|congruence].
      rewrite (Hr t); [done|]. apply Hc. eauto.
  - rewrite lookup_insert_ne by done. rewrite (Hc id t).
    split; intros (r' & Hin & Hid & Ht); exists r'; set_solver.
Qed.
Lemma collected_size unique rs n : collected unique rs → n < msize unique → more_than n rs.
Proof.
  intros Hc Hn. exists (map_to_list unique).*1. split_and!.
  - apply NoDup_fst_map_to_list.
  - unfold nlen. rewrite length_fmap, length_map_to_list. done.
  - intros id ([id' t] & -> & Hin%elem_of_map_to_list)%list_elem_of_fmap.
    apply Hc in Hin as (r & ? & ? & _). eauto.
Qed.

Lemma collect_records_ok f limits pre records unique :
  collected unique (window f pre) → msize unique ≤ max_records limits →
  match collect_records f limits records unique with
  | Ok unique' => collected unique' (window f (pre ++ records)) ∧ msize unique' ≤ max_records limits
  | Err e =>
      e = "one record ID has conflicting timestamps"%string ∧
        conflicting (window f (pre ++ records)) ∨
      e = "reconciliation window exceeds record limit"%string ∧
        more_than (max_records limits) (window f (pre ++ records))
  end.
Proof.
  revert pre unique. induction records as [|r records IH]; intros pre unique Hc Hsize;
    [by rewrite app_nil_r|].
  cbn [collect_records]. replace (pre ++ r :: records) with ((pre ++ [r]) ++ records)
    by by rewrite <-app_assoc.
  assert (∀ rs1 rs2, window f (rs1 ++ rs2) = window f rs1 ++ window f rs2) as Happ.
  { intros. apply filter_app. }
  destruct (filter_contains f (record_timestamp r)) eqn:Hf; simpl.
  2:{ apply IH; [|done]. rewrite Happ. unfold window at 2. rewrite filter_none; [by rewrite app_nil_r|].
      intros x ->%list_elem_of_singleton. congruence. }
  assert (window f (pre ++ [r]) = window f pre ++ [r]) as Hsnoc.
  { rewrite Happ. f_equal. by apply filter_all; intros x ->%list_elem_of_singleton. }
  destruct (is_some_and _ _) eqn:Hprev.
  { left. split; [done|]. apply is_some_and_true in Hprev as (p & Hp & Hne%bool_decide_eq_true).
    apply Hc in Hp as (r' & Hin & Hid & Ht). exists r', r. rewrite Happ, Hsnoc.
    split_and!; [set_solver|set_solver|done|congruence]. }
  assert (collected (<[record_id r:=record_timestamp r]> unique) (window f (pre ++ [r]))) as Hc'.
  { rewrite Hsnoc. apply collected_snoc; [done|]. intros t Ht. rewrite Ht in Hprev. simpl in Hprev.
    apply bool_decide_eq_false in Hprev. by destruct (decide (t = record_timestamp r)). }
  case_decide as Hmax; [|by apply IH; [|lia]].
  right. split; [done|]. eapply collected_size in Hc' as (ids & ? & ? & Hids); [|exact Hmax].
  exists ids. split_and!; [done..|]. intros id (r' & ? & ?)%Hids. exists r'.
  rewrite Happ. set_solver.
Qed.

(** ** Filling the vector *)
Lemma fill_vector_ok entries v :
  (nlen (contents v) + nlen entries) * ID_SIZE ≤ u64_max →
  ∃ v', fill_vector entries v = Ok v' ∧
    contents v' = contents v ++ ((λ e, mkItem e.2 e.1) <$> entries).
Proof.
  revert v. induction entries as [|[id t] entries IH]; intros v Hfits.
  { exists v. by rewrite app_nil_r. }
  rewrite nlen_cons in Hfits. unfold ID_SIZE in *.
  destruct (insert_law t id v) as (v1 & Hins & Hc1); [unfold ID_SIZE; lia|].
  destruct (IH v1) as (v2 & Hfill & Hc2).
  { rewrite Hc1, nlen_app, nlen_cons, nlen_nil. lia. }
  exists v2. simpl. rewrite Hins. split; [done|]. by rewrite Hc2, Hc1, <-app_assoc.
Qed.

(** A session's snapshot: the records of the window, each once, within the
    limit; a new session has had no round and has not initiated. *)
Record snapshot_of f limits records s : Prop := {
  sn_items : ∀ x, x ∈ session_items s ↔ ∃ r, r ∈ window f records ∧ x = record_item r;
  sn_unique : NoDup (item_id <$> session_items s);
  sn_count : nlen (session_items s) ≤ max_records limits;
  sn_fresh : ss_limits s = limits ∧ ss_rounds s = 0 ∧ ss_finished s = false;
  sn_engine : ng_is_initiator (ss_engine s) = false ∧
    ng_frame_size_limit (ss_engine s) = max_frame_bytes limits;
}.

Lemma collected_snapshot unique rs :
  collected unique rs → (∀ r, r ∈ rs → length (record_id r) = 32%nat) →
  let items := (λ e : bytes * N, mkItem e.2 e.1) <$> in_id_order unique in
  NoDup (item_id <$> items) ∧ (∀ x, x ∈ items → length (item_id x) = 32%nat) ∧
  nlen items = msize unique ∧ ∀ x, x ∈ items ↔ ∃ r, r ∈ rs ∧ x = record_item r.
Proof.
  intros Hc Hlen items.
  assert (∀ x, x ∈ items ↔ ∃ r, r ∈ rs ∧ x = record_item r) as Helem.
  { intros x. unfold items, in_id_order. rewrite list_elem_of_fmap.
    setoid_rewrite sort_by_elem. split.
    - intros ([id t] & -> & Hin%elem_of_map_to_list%Hc). destruct Hin as (r & ? & <- & <-).
      by exists r.
    - intros (r & Hin & ->). exists (record_id r, record_timestamp r). split; [done|].
      apply elem_of_map_to_list, Hc. eauto. }
  split_and!; [| | |done].
  - unfold items. rewrite <-list_fmap_compose.
    change (NoDup ((in_id_order unique).*1)). unfold in_id_order. rewrite sort_by_perm.
    apply NoDup_fst_map_to_list.
  - intros x (r & ? & ->)%Helem. simpl. auto.
  - unfold items, nlen, in_id_order. by rewrite length_fmap, sort_by_length, length_map_to_list.
Qed.

(** A session is made exactly when its window and limits are valid, and its
    snapshot is then the records of the window, each once and at most as many as
    the limit; an error says what is wrong: the window, the limits, an
    identifier with two times, or more identifiers than the limit. *)
Theorem session_new_snapshot f limits records :
  (∀ r, r ∈ records → length (record_id r) = 32%nat) →
  match session_new records f limits with
  | Ok s => valid_window f ∧ valid_limits limits ∧ snapshot_of f limits records s
  | Err e =>
      e = "invalid reconciliation window"%string ∧ ¬ valid_window f ∨
      e = "invalid reconciliation limits"%string ∧ ¬ valid_limits limits ∨
      e = "one record ID has conflicting timestamps"%string ∧ conflicting (window f records) ∨
      e = "reconciliation window exceeds record limit"%string ∧
        more_than (max_records limits) (window f records)
  end.
Proof.
  intros Hlen. unfold session_new.
  destruct (_ || bool_decide (until_ f = u64_max)) eqn:Hw.
  { left. split; [done|]. unfold valid_window. rewrite orb_true_iff, !bool_decide_eq_true in Hw. lia. }
  destruct (_ || bool_decide (max_rounds limits = 0)) eqn:Hl.
  { right; left. split; [done|]. unfold valid_limits.
    rewrite !orb_true_iff, !bool_decide_eq_true in Hl. lia. }
  rewrite orb_false_iff, !bool_decide_eq_false in Hw.
  rewrite !orb_false_iff, !bool_decide_eq_false in Hl.
  assert (valid_limits limits) as Hlimits by (unfold valid_limits; lia).
  pose proof (collect_records_ok f limits [] records ∅) as Hcol.
  destruct (collect_records f limits records ∅) as [unique|e]; cbn [mbind result_bind].
  2:{ right; right. apply Hcol; [|unfold msize; rewrite map_size_empty; lia].
      intros id t. rewrite lookup_empty. set_solver. }
  destruct Hcol as [Hc Hsize].
  { intros id t. rewrite lookup_empty. set_solver. }
  { unfold msize. rewrite map_size_empty. lia. }
  rewrite app_nil_l in Hc.
  destruct (collected_snapshot unique _ Hc) as (Hnd & Hids & Hn & Helem).
  { intros r [_ ?]%list_elem_of_filter. auto. }
  assert (msize unique * ID_SIZE ≤ u64_max) as Hfits.
  { unfold ID_SIZE, u64_max, valid_limits in *. lia. }
  destruct (fill_vector_ok (in_id_order unique) (vector_with_capacity (msize unique)))
    as (v & -> & Hv).
  { rewrite with_capacity_law, nlen_nil. unfold nlen in *. rewrite length_fmap in Hn. by rewrite Hn. }
  rewrite with_capacity_law, app_nil_l in Hv. cbn [mbind result_bind].
  destruct (seal_law v) as (s & -> & Hs); [by rewrite Hv|by rewrite Hv|by rewrite Hv, Hn|].
  cbn [map_err mbind result_bind]. unfold engine_new.
  rewrite (bool_decide_eq_false_2 (max_frame_bytes limits < 4096)), andb_false_r
    by (unfold valid_limits in *; lia).
  cbn [map_err mbind result_bind]. split_and!; [unfold valid_window; split; [lia|tauto]|done|].
  rewrite Hv in Hs. split; unfold session_items; cbn.
  - intros x. by rewrite Hs, Helem.
  - by rewrite Hs.
  - unfold nlen in *. rewrite Hs. lia.
  - done.
  - done.
Qed.
End session_new.

(** ** Sessions that talk *)
Section conversation.
Context `{!NegStorage, !NegLaws, !NegVector, !HashOrder}.
Implicit Types (a b s : Session) (x : Item).

(** What a session keeps: its role, its limits and a snapshot whose records are
    before the end of time and told apart by their identifiers. *)
Record session_ok (initiator : bool) s : Prop := {
  so_role : ng_is_initiator (ss_engine s) = initiator;
  so_limit : ng_frame_size_limit (ss_engine s) = max_frame_bytes (ss_limits s);
  so_large : 4096 ≤ max_frame_bytes (ss_limits s);
  so_time : ∀ x, x ∈ session_items s → item_timestamp x < u64_max;
  so_unique : NoDup (item_id <$> session_items s);
}.
Lemma session_ok_ext initiator s s' :
  ss_engine s' = ss_engine s → ss_limits s' = ss_limits s → session_ok initiator s →
  session_ok initiator s'.
Proof. intros He Hl []. split; unfold session_items in *; rewrite ?He, ?Hl; done. Qed.

Definition ticked s : Session := mkSession (ss_engine s) (ss_limits s) (ss_rounds s + 1) (ss_finished s).
Definition may_go_on s : Prop := ss_finished s = false ∧ ss_rounds s < max_rounds (ss_limits s).
Lemma tick_cases s :
  ¬ may_go_on s ∧ tick s = (Err round_limit, s) ∨ may_go_on s ∧ tick s = (Ok tt, ticked s).
Proof.
  unfold tick, may_go_on. destruct (ss_finished s) eqn:Hf; simpl; [left; naive_solver|].
  case_bool_decide; [left; split; [lia|done]|right].
  unfold ticked. rewrite Hf. split; [split; [done|lia]|done].
Qed.
Lemma accept_ok frame s :
  may_go_on s → nlen frame ≤ max_frame_bytes (ss_limits s) →
  accept frame s = (validate frame, ticked s).
Proof.
  intros Hgo Hlen. unfold accept. se_unfold. destruct (tick_cases s) as [[? _]|[_ ->]]; [done|].
  simpl. by rewrite decide_False by lia.
Qed.

(** *** Any peer *)
Definition stepped s (step : SessionStep) : Session :=
  mkSession (ss_engine s) (ss_limits s) (ss_rounds s + 1) (bool_decide (step_next step = None)).
Definition encoded (rs : list Range) : bytes := PROTOCOL_VERSION :: encode_ranges 0 rs.
(** The step an initiator takes on its engine's answer. *)
Definition step_of (new : list Range) (h n : list bytes) : SessionStep :=
  mkStep (if decide (nlen (encoded new) = 1) then None else Some (encoded new)) h n.

Section answer.
Variables (initiator : bool) (s : Session) (rest : bytes) (rs : list Range).
Notation frame := (PROTOCOL_VERSION :: rest).
Hypothesis Hs : session_ok initiator s.
Hypothesis Hgo : may_go_on s.
Hypothesis Hlen : nlen frame ≤ max_frame_bytes (ss_limits s).
Hypothesis Hvalid : validate frame = Ok tt.
Hypothesis Hparsed : parsed 0 rs rest.
Hypothesis Hchain : chain bound_new rs.

(** The engine's answer to a frame that passed validation. *)
Lemma engine_answer have need :
  ∃ new w' h n, reconcile_aux (ss_engine s) frame have need
      = Some (Ok (encoded new, have ++ h, need ++ n)) ∧
    nlen (encoded new) ≤ max_frame_bytes (ss_limits s) ∧
    answers (ss_engine s) rs bound_new bound_new new w' h n.
Proof.
  destruct Hs as [_ Hlimit Hlarge Htime Hunique].
  destruct (reconcile_aux_ok (ss_engine s) Htime Hunique rs rest have need Hparsed Hchain)
    as (new & w' & h & n & Heq & Hans).
  exists new, w', h, n. split_and!; [done| |done].
  rewrite <-Hlimit. eapply reconcile_aux_length; [by rewrite Hlimit|exact Heq].
Qed.
Lemma respond_ok :
  initiator = false →
  ∃ new w' h n, respond frame s = (Ok (encoded new), ticked s) ∧
    nlen (encoded new) ≤ max_frame_bytes (ss_limits s) ∧
    answers (ss_engine s) rs bound_new bound_new new w' h n.
Proof.
  intros Hrole. destruct (engine_answer [] []) as (new & w' & h & n & Heq & Hmax & Hans).
  exists new, w', h, n. split; [|done]. unfold respond.
  unfold mbind at 1, se_bind at 1. rewrite accept_ok, Hvalid by done. se_unfold.
  unfold engine_reconcile. cbn [ss_engine ticked]. rewrite (so_role _ _ Hs), Hrole, Heq. done.
Qed.
Lemma session_reconcile_ok :
  initiator = true →
  ∃ new w' h n, session_reconcile frame s = (Ok (step_of new h n), stepped s (step_of new h n)) ∧
    nlen (encoded new) ≤ max_frame_bytes (ss_limits s) ∧
    answers (ss_engine s) rs bound_new bound_new new w' h n.
Proof.
  intros Hrole. destruct (engine_answer [] []) as (new & w' & h & n & Heq & Hmax & Hans).
  exists new, w', h, n. split; [|done]. unfold session_reconcile.
  unfold mbind at 1, se_bind at 1. rewrite accept_ok, Hvalid by done. se_unfold.
  unfold reconcile_with_ids. cbn [ss_engine ticked]. rewrite (so_role _ _ Hs), Hrole, Heq. done.
Qed.
End answer.

(** C18. A frame from an untrusted peer that is within the byte limit and passes
    validation is always answered: neither side's engine fails or panics on it,
    and the frame it returns is within the limit too. *)
Theorem accepted_frame_answered initiator s frame :
  session_ok initiator s → may_go_on s → nlen frame ≤ max_frame_bytes (ss_limits s) →
  validate frame = Ok tt →
  if initiator then
    ∃ step, session_reconcile frame s = (Ok step, stepped s step) ∧
      ∀ next, step_next step = Some next → nlen next ≤ max_frame_bytes (ss_limits s)
  else
    ∃ reply, respond frame s = (Ok reply, ticked s) ∧ nlen reply ≤ max_frame_bytes (ss_limits s).
Proof.
  intros Hs Hgo Hlen Hvalid.
  pose proof (validate_parsed frame Hvalid) as (rest & rs & -> & Hparsed & Hchain).
  destruct initiator.
  - destruct (session_reconcile_ok true s rest rs) as (new & w' & h & n & Hr & Hmax & _); [done..|].
    exists (step_of new h n). split; [done|]. unfold step_of. simpl. intros next.
    case_decide; [done|]. by intros [= <-].
  - destruct (respond_ok false s rest rs) as (new & w' & h & n & Hr & Hmax & _); [done..|]. eauto.
Qed.

(** *** An honest peer *)

(** Two sessions of one protocol: [a] initiates. *)
Record pair_ok a b : Prop := {
  po_a : session_ok true a;
  po_b : session_ok false b;
  po_frame : max_frame_bytes (ss_limits a) = max_frame_bytes (ss_limits b);
  po_peer_a : peer_of (ss_engine a) (session_items b);
  po_peer_b : peer_of (ss_engine b) (session_items a);
}.
(** What the frame in flight asks, and what the initiator has learnt: a record
    that only one side has is in a range the frame leaves open, or known. *)
Record asks a b (query : bytes) (have need : list bytes) : Prop := {
  as_frame : ∃ rs q, query = encoded rs ∧ frame_from (session_items a) bound_new rs q ∧
    bound_le q infinity ∧ ∀ x, differs (ss_engine a) (session_items b) x →
      open_in bound_new rs x ∨ reported (ss_engine a) (session_items b) have need x;
  as_length : nlen query ≤ max_frame_bytes (ss_limits a);
  as_sound : sound (ss_engine a) (session_items b) have need;
}.
Definition complete a b (have need : list bytes) : Prop :=
  sound (ss_engine a) (session_items b) have need ∧
  ∀ x, differs (ss_engine a) (session_items b) x →
    reported (ss_engine a) (session_items b) have need x.

Lemma differs_sym a b x :
  differs (ss_engine a) (session_items b) x ↔ differs (ss_engine b) (session_items a) x.
Proof. unfold differs, session_items. tauto. Qed.
Lemma encoded_one rs : nlen (encoded rs) = 1 ↔ rs = [].
Proof.
  unfold encoded. rewrite nlen_cons. split; [|by intros ->].
  intros Hn. destruct (decide (rs = [])) as [|Hne]; [done|].
  apply (encode_ranges_nonempty 0) in Hne. destruct (encode_ranges 0 rs); [done|].
  rewrite nlen_cons in Hn. lia.
Qed.
(** A frame of an honest peer, as the other reads it. *)
Lemma honest_frame s rs q :
  frame_from (session_items s) bound_new rs q →
  validate (encoded rs) = Ok tt ∧ parsed 0 rs (encode_ranges 0 rs) ∧ chain bound_new rs.
Proof.
  intros Hf. split; [by eapply validate_encode|].
  replace 0 with (bound_time bound_new) by by rewrite bound_new_law. by eapply parsed_encode.
Qed.

(** One round: the frame is answered, and the answer understood, unless a
    session has had its rounds. *)
Lemma round_ok a b query have need :
  pair_ok a b → asks a b query have need → may_go_on b →
  ∃ reply, respond query b = (Ok reply, ticked b) ∧
    (¬ may_go_on a ∧ session_reconcile reply a = (Err round_limit, a) ∨
     ∃ step, session_reconcile reply a = (Ok step, stepped a step) ∧
       let have := have ++ step_have step in
       let need := need ++ step_need step in
       match step_next step with
       | None => complete a b have need
       | Some next => asks a b next have need
       end).
Proof.
  intros [Ha Hb Hframe Hpa Hpb] [(rs & q & -> & Hf & Hq & Hopen) Hlen Hsound] Hgob.
  destruct (honest_frame a rs q Hf) as (Hvalid & Hparsed & Hchain).
  destruct (respond_ok false b (encode_ranges 0 rs) rs Hb Hgob) as (new & w & h & n & Hresp & Hmax & [Hnf Hnopen]);
    [by rewrite <-Hframe|done..|].
  exists (encoded new). split; [exact Hresp|].
  destruct (Hnopen _ _ Hpb Hf Hq) as [_ Hnopen'].
  destruct Hnf as [Hnf Hw]; [apply new_le_infinity|by eapply frame_bounds_le|].
  change (stored (ng_storage (ss_engine b))) with (session_items b) in Hnf.
  destruct (honest_frame b new w Hnf) as (Hvalid' & Hparsed' & Hchain').
  destruct (tick_cases a) as [[Hgo Htick]|[Hgo _]]; [left|right].
  { split; [done|]. unfold session_reconcile, accept, mbind, se_bind. by rewrite Htick. }
  destruct (session_reconcile_ok true a (encode_ranges 0 new) new Ha Hgo)
    as (new' & w' & h' & n' & Hrec & Hmax' & [Hf' Ho']); [by rewrite Hframe|done..|].
  exists (step_of new' h' n'). split; [exact Hrec|]. unfold step_of. cbn [step_have step_need step_next].
  destruct (Ho' _ _ Hpa Hnf Hw) as [Hsound' Hopen'].
  assert (∀ x, differs (ss_engine a) (session_items b) x → open_in bound_new new' x ∨
    reported (ss_engine a) (session_items b) (have ++ h') (need ++ n') x) as Hnow.
  { intros x Hx. rewrite reported_app. destruct (Hopen x Hx) as [Hr|]; [|by right; left].
    destruct (Hnopen' x) as [Hr'|[Hi _]]; [by apply differs_sym|done| |].
    - destruct (Hopen' x Hx Hr') as [?|[_ ?]]; tauto.
    - rewrite (so_role _ _ Hb) in Hi. done. }
  case_decide as Hone; cbn zeta.
  - apply encoded_one in Hone as ->. split; [by apply sound_app|].
    intros x Hx. by destruct (Hnow x Hx).
  - destruct Hf' as [Hf' Hw']; [apply new_le_infinity|by eapply frame_bounds_le|].
    split; [|done|by apply sound_app]. by exists new', w'.
Qed.

Lemma converse_ok fuel a b query have need :
  pair_ok a b → asks a b query have need →
  match converse fuel a b query have need with
  | Some (Ok (have, need)) => complete a b have need
  | Some (Err error) => error = round_limit
  | None => N.of_nat fuel ≤ max_rounds (ss_limits b) - ss_rounds b
  end.
Proof.
  revert a b query have need. induction fuel as [|fuel IH]; intros a b query have need Hpair Hasks;
    cbn [converse]; [lia|].
  destruct (tick_cases b) as [[Hgo Htick]|[Hgo _]].
  { unfold respond, accept, mbind, se_bind. by rewrite Htick. }
  destruct (round_ok a b query have need Hpair Hasks Hgo)
    as (reply & -> & [[_ ->]|(step & -> & Hstep)]); [done|].
  cbv zeta in Hstep |- *. destruct (step_next step) as [next|] eqn:Hnext; [|done].
  specialize (IH (stepped a step) (ticked b) next (have ++ step_have step) (need ++ step_need step)).
  assert (pair_ok (stepped a step) (ticked b)) as Hpair'.
  { destruct Hpair. split; [by apply (session_ok_ext true a)|by apply (session_ok_ext false b)|done..]. }
  assert (asks (stepped a step) (ticked b) next (have ++ step_have step) (need ++ step_need step))
    as Hasks' by (by destruct Hstep; split).
  specialize (IH Hpair' Hasks'). destruct (converse _ _ _ _ _ _) as [[[h n]|]|]; [done..|].
  destruct Hgo as [_ Hgo]. cbn [ticked ss_limits ss_rounds] in IH. lia.
Qed.
Lemma start_ok fuel a b :
  pair_ok (mkSession (mkNegentropy (ng_storage (ss_engine a)) (ng_frame_size_limit (ss_engine a)) true)
    (ss_limits a) (ss_rounds a + 1) (ss_finished a)) b →
  ng_is_initiator (ss_engine a) = false → may_go_on a →
  match start_conversation fuel a b with
  | Some (Ok (have, need)) => sound (ss_engine a) (session_items b) have need ∧
      ∀ x, differs (ss_engine a) (session_items b) x →
        reported (ss_engine a) (session_items b) have need x
  | Some (Err error) => error = round_limit
  | None => N.of_nat fuel ≤ max_rounds (ss_limits b) - ss_rounds b
  end.
Proof.
  set (a' := mkSession _ _ _ _). intros Hpair Hrole Hgo. pose proof Hpair as [Ha Hb _ Hpa _].
  pose proof (so_time _ _ Ha) as Htime. assert (4096 ≤ max_frame_bytes (ss_limits a)) as Hlarge by exact (so_large _ _ Ha).
  assert (ng_frame_size_limit (ss_engine a) = max_frame_bytes (ss_limits a)) as Hlimit
    by exact (so_limit _ _ Ha).
  destruct (initiate_ok (ss_engine a) Htime Hrole) as (rs & Hinit & Hf & Hopen).
  assert (session_initiate a = (Ok (encoded rs), a')) as Hstart.
  { unfold session_initiate. unfold mbind at 1, se_bind at 1.
    destruct (tick_cases a) as [[? _]|[_ ->]]; [done|]. se_unfold. cbn [ticked ss_engine].
    by rewrite Hinit. }
  unfold start_conversation. rewrite Hstart.
  pose proof (converse_ok fuel a' b (encoded rs) [] [] Hpair) as Hconv.
  assert (asks a' b (encoded rs) [] []) as Hasks.
  { split.
    - exists rs, infinity. split_and!; [done|done|reflexivity|]. intros x Hx. left. apply Hopen.
      + destruct Hx as [[Hx _]|[Hx _]]; by eapply stored_id.
      + destruct Hx as [[Hx _]|[Hx _]]; [by apply Htime|by eapply peer_time].
    - cbn [a' ss_limits]. rewrite <-Hlimit. eapply initiate_length; [by rewrite Hlimit|exact Hinit].
    - split; set_solver. }
  specialize (Hconv Hasks). destruct (converse _ _ _ _ _ _) as [[[h n]|]|]; exact Hconv.
Qed.
End conversation.

(** ** From the records to the answer *)
Section exact.
Context `{!NegStorage, !NegLaws, !NegVector, !NegVectorLaws, !HashOrder}.
Variables (fa fb : HistoryFilter) (la lb : SessionLimits) (ra rb : list PubRecord) (a b : Session).
Notation window_a := (window fa ra).
Notation window_b := (window fb rb).

(** The setting of the two theorems: valid records, one frame limit, record
    identifiers that are hashes of their records, and fingerprints of ranges
    that do not collide. *)
Record agreed : Prop := {
  ag_a : session_new ra fa la = Ok a;
  ag_b : session_new rb fb lb = Ok b;
  ag_records : ∀ r, r ∈ ra ∨ r ∈ rb → length (record_id r) = 32%nat;
  ag_times : until_ fa ≤ u64_max ∧ until_ fb ≤ u64_max;
  ag_frame : max_frame_bytes la = max_frame_bytes lb;
  ag_hash : ∀ r r', r ∈ window_a → r' ∈ window_b → record_id r = record_id r' → r = r';
  ag_collision : ∀ p q,
    fingerprint_of (item_id <$> between (session_items a) p q) =
      fingerprint_of (item_id <$> between (session_items b) p q) →
    item_id <$> between (session_items a) p q = item_id <$> between (session_items b) p q;
}.

Lemma snapshot_ok f limits records s :
  (∀ r, r ∈ records → length (record_id r) = 32%nat) → until_ f ≤ u64_max →
  session_new records f limits = Ok s →
  valid_limits limits ∧ snapshot_of f limits records s ∧ session_ok false s.
Proof.
  intros Hlen Hmax Hnew. pose proof (session_new_snapshot f limits records Hlen) as Hs.
  rewrite Hnew in Hs. destruct Hs as ([Hsince Huntil] & Hlimits & Hsnap).
  split_and!; [done..|]. destruct Hsnap as [Hitems Huniq _ (Hl & _ & _) [Hrole Hframe]].
  split; [done|by rewrite Hl|rewrite Hl; apply Hlimits| |done].
  intros x (r & [Hin _]%list_elem_of_filter & ->)%Hitems. unfold record_item, filter_contains in *.
  simpl. apply andb_true_iff in Hin as [_ Hin%bool_decide_eq_true]. lia.
Qed.

Lemma agreed_pair :
  agreed →
  pair_ok (mkSession (mkNegentropy (ng_storage (ss_engine a)) (ng_frame_size_limit (ss_engine a)) true)
    (ss_limits a) (ss_rounds a + 1) (ss_finished a)) b ∧
  ng_is_initiator (ss_engine a) = false ∧ may_go_on a ∧
  (∀ x, x ∈ session_items a ↔ ∃ r, r ∈ window_a ∧ x = record_item r) ∧
  (∀ x, x ∈ session_items b ↔ ∃ r, r ∈ window_b ∧ x = record_item r) ∧
  ss_limits b = lb ∧ ss_rounds b = 0.
Proof.
  intros [Ha Hb Hlen [Hta Htb] Hframe Hhash Hcol].
  apply snapshot_ok in Ha as (Hla & [Hia _ _ (Hsla & Hra & Hfa) _] & Hoka); [|auto..].
  apply snapshot_ok in Hb as (Hlb & [Hib _ _ (Hslb & Hrb & Hfb) _] & Hokb); [|auto..].
  assert (∀ x y, x ∈ session_items a → y ∈ session_items b → item_id x = item_id y → x = y) as Hrec.
  { intros x y (r & Hr & ->)%Hia (r' & Hr' & ->)%Hib Hid. by rewrite (Hhash r r'). }
  split_and!; [| |split; [done|]|done..].
  - split; [|done|by rewrite Hsla, Hslb| |].
    + by destruct Hoka; split.
    + split; [apply Hokb|exact Hrec|]. intros p q Heq. symmetry. apply Hcol. by symmetry.
    + split; [apply Hoka| |exact Hcol]. intros x y Hx Hy Hid. symmetry. by apply Hrec.
  - apply Hoka.
  - rewrite Hra, Hsla. destruct Hla as (_ & _ & ?). lia.
Qed.

Lemma ids_of_window (items : list Item) (rs : list PubRecord) k :
  (∀ x, x ∈ items ↔ ∃ r, r ∈ rs ∧ x = record_item r) →
  k ∈ record_id <$> rs ↔ ∃ x, x ∈ items ∧ item_id x = k.
Proof.
  intros Hi. rewrite list_elem_of_fmap. split.
  - intros (r & -> & Hr). exists (record_item r). split; [|done]. apply Hi. eauto.
  - intros (x & (r & Hr & ->)%Hi & <-). by exists r.
Qed.

(** C17. When a conversation between two sessions ends, the initiator's [have]
    lists exactly the identifiers in the window that only it holds, and [need]
    those only the other holds, whatever was split, skipped or truncated on the
    way; given that identifiers are those of one record and that fingerprints
    of ranges do not collide. *)
Theorem reconciliation_exact fuel have need :
  agreed → start_conversation fuel a b = Some (Ok (have, need)) →
  ∀ k, (k ∈ have ↔ k ∈ record_id <$> window_a ∧ k ∉ record_id <$> window_b) ∧
       (k ∈ need ↔ k ∈ record_id <$> window_b ∧ k ∉ record_id <$> window_a).
Proof.
  intros Hag Hconv k. pose proof (agreed_pair Hag) as (Hpair & Hrole & Hgo & Hia & Hib & _).
  pose proof (start_ok fuel a b Hpair Hrole Hgo) as Hend. rewrite Hconv in Hend.
  destruct Hend as [[Hh Hn] Hall]. pose proof (po_peer_a _ _ Hpair) as [_ Hrec _].
  change (stored (ng_storage (ss_engine a))) with (session_items a) in *.
  cbn [ss_engine ng_storage] in Hrec.
  assert (∀ x y, x ∈ session_items a → y ∈ session_items b → item_id x = item_id y → x = y) as Heq
    by exact Hrec.
  rewrite !(ids_of_window _ _ k Hia), !(ids_of_window _ _ k Hib). split; split.
  - intros (x & Hx & Hxb & <-)%Hh. split; [eauto|]. intros (y & Hy & Hid).
    by rewrite (Heq x y) in Hxb.
  - intros [(x & Hx & <-) Hno]. destruct (Hall x) as [[_ ?]|[Hxb _]]; [|done|].
    + left. split; [done|]. intros ?. apply Hno. eauto.
    + destruct Hno. eauto.
  - intros (x & Hx & Hxa & <-)%Hn. split; [eauto|]. intros (y & Hy & Hid).
    rewrite (Heq y x) in Hy by done. done.
  - intros [(x & Hx & <-) Hno]. destruct (Hall x) as [[Hxa _]|[_ ?]]; [| |done].
    + right. split; [done|]. intros ?. apply Hno. eauto.
    + destruct Hno. eauto.
Qed.

End exact.
