(* ===== verification/ReconcileWitness.v ===== *)
(** * A storage to evaluate reconciliation on

    A small instance of the negentropy crate's storage and vector, with its
    laws, and the conversations of two sessions on it. *)

From S2P Require Export ReconcileProps.

#[export] Instance bytes_compare_order : CmpOrder bytes_compare.
Proof.
  split; [apply bytes_compare_opp|]. intros a b c Hab Hbc.
  destruct (bytes_compare a b) eqn:Eab; [apply bytes_compare_eq in Eab as ->; done| |done].
  destruct (bytes_compare b c) eqn:Ebc; [apply bytes_compare_eq in Ebc as <-; congruence| |done].
  by rewrite (bytes_compare_trans a b c).
Qed.
#[export] Instance point_compare_order : CmpOrder point_compare.
Proof. exact (cmp_then_order (cmp_on fst N.compare) (cmp_on snd bytes_compare)). Qed.

Module ToyNeg.
(** A vector is a list; sealing it sorts the items and drops the copies. *)
Definition storage : Type := list Item.
Definition valid_item (x : Item) : Prop := length (item_id x) = 32%nat.
#[export] Instance valid_item_dec x : Decision (valid_item x).
Proof. unfold valid_item. apply _. Defined.
Definition items (s : storage) : list Item :=
  if decide (nlen s * ID_SIZE ≤ u64_max) then
    sort_by (cmp_on item_point point_compare) (remove_dups (filter valid_item s))
  else [].
(** Not a hash: the number of identifiers and their first bytes. *)
Definition toy_fingerprint (ids : list bytes) : bytes :=
  resize 16 (nlen ids :: mjoin (take 1 <$> ids)).

Lemma items_nodup s : NoDup (items s).
Proof. unfold items. case_decide; [|constructor]. apply sort_by_NoDup, NoDup_remove_dups. Qed.
Lemma items_sorted s : item_sorted (items s).
Proof.
  pose proof (items_nodup s) as Hnd. unfold items in *. case_decide; [|constructor].
  pose proof (sort_by_sorted (cmp_on item_point point_compare)
    (remove_dups (filter valid_item s))) as Hs.
  induction Hs as [|x l Hl IH Hx]; [constructor|]. apply NoDup_cons in Hnd as [Hin Hnd].
  constructor; [auto|]. rewrite Forall_forall in *. intros y Hy. specialize (Hx y Hy).
  unfold cmp_le, cmp_on, plt in *. destruct (point_compare _ _) eqn:Hc; [|done|done].
  apply point_compare_eq in Hc. unfold item_point in Hc. destruct x, y; simpl in *. by simplify_eq.
Qed.
Lemma items_elem s x : x ∈ items s → valid_item x.
Proof.
  unfold items. case_decide; [|set_solver]. rewrite sort_by_elem, elem_of_remove_dups.
  by intros [? _]%list_elem_of_filter.
Qed.
Lemma items_fits s : nlen (items s) * ID_SIZE ≤ u64_max.
Proof.
  unfold items. case_decide as Hfits; [|done].
  etrans; [|exact Hfits]. apply N.mul_le_mono_r. unfold nlen. rewrite sort_by_length.
  assert (length (remove_dups (filter valid_item s)) ≤ length s)%nat; [|lia].
  trans (length (filter valid_item s)); [|apply length_filter].
  generalize (filter valid_item s) as l. induction l as [|x l IH]; simpl; [lia|].
  case_decide; simpl; lia.
Qed.

Lemma items_contents (v : list Item) :
  NoDup (item_id <$> v) → (∀ x, x ∈ v → valid_item x) → nlen v * ID_SIZE ≤ u64_max → items v ≡ₚ v.
Proof.
  intros Hnd Hlen Hfits. unfold items. rewrite decide_True by done.
  rewrite sort_by_perm, (filter_all valid_item) by done.
  assert (NoDup v) as Hv by by eapply NoDup_fmap_1.
  clear -Hv. induction Hv as [|x v Hx Hv IH]; simpl; [done|]. case_decide; [done|].
  by rewrite IH.
Qed.

#[export] Instance toy_storage : NegStorage := {|
  Storage := storage;
  storage_size s := Ok (nlen (items s));
  storage_iterate s lower upper :=
    if decide (lower ≤ upper ≤ nlen (items s)) then Ok (slice lower upper (items s)) else Err BadRange;
  find_lower_bound s lower upper b := lower + cut (slice lower upper (items s)) b;
  storage_fingerprint s lower upper :=
    if decide (lower ≤ upper ≤ nlen (items s)) then
      Ok (toy_fingerprint (item_id <$> slice lower upper (items s)))
    else Err BadRange;
  bound_new := mkBound item_zero 0;
  bound_with_timestamp t := mkBound (mkItem t (replicate 32 0)) 0;
  bound_with_timestamp_and_id t id :=
    if decide (32 < nlen id) then Err BadRange else Ok (mkBound (mkItem t (pad_id id)) (nlen id));
  bound_from_item x := mkBound x ID_SIZE;
|}.
#[export] Program Instance toy_laws : NegLaws := {|
  stored := items;
  fingerprint_of := toy_fingerprint;
  stored_sorted := items_sorted;
  stored_id := items_elem;
  stored_fits := items_fits;
|}.
Next Obligation. done. Qed.
Next Obligation. intros. by cbn; rewrite decide_True. Qed.
Next Obligation. done. Qed.
Next Obligation. intros. by cbn; rewrite decide_True. Qed.
Next Obligation. intros. unfold toy_fingerprint. apply resize_length. Qed.
Next Obligation. done. Qed.
Next Obligation. done. Qed.
Next Obligation. done. Qed.
Next Obligation. done. Qed.
#[export] Instance toy_vector : NegVector := {|
  Vector := list Item;
  vector_with_capacity n := [];
  vector_insert t id v := Ok (v ++ [mkItem t id]);
  vector_seal v := Ok v;
  error_to_string e := "error"%string;
|}.
#[export] Program Instance toy_vector_laws : NegVectorLaws := {| contents v := v |}.
Next Obligation. done. Qed.
Next Obligation. intros t id v _. by eexists. Qed.
Next Obligation.
  intros v Hnd Hlen Hfits. exists v. split; [done|]. by apply items_contents.
Qed.
End ToyNeg.

Module ReconcileDemo.
Import ToyNeg.
(** Three records: the first is only the initiator's, the last only the
    responder's. *)
Definition id (n : N) : bytes := n :: replicate 31 0.
Definition r1 : PubRecord := mkRecord 100 (id 1).
Definition r2 : PubRecord := mkRecord 100 (id 2).
Definition r3 : PubRecord := mkRecord 150 (id 3).
Definition old : PubRecord := mkRecord 7 (id 4).
Definition the_window : HistoryFilter := mkHistoryFilter 100 200.
Definition limits : SessionLimits := mkSessionLimits 10 4096 8.
Definition ra : list PubRecord := [r1; old; r2].
Definition rb : list PubRecord := [r3; r2].
Definition snapshot (items : list Item) : Session :=
  mkSession (mkNegentropy (items : Storage) 4096 false) limits 0 false.
Definition a : Session := snapshot [record_item r1; record_item r2].
Definition b : Session := snapshot [record_item r2; record_item r3].

Lemma new_a : session_new ra the_window limits = Ok a.
Proof. reflexivity. Qed.
Lemma new_b : session_new rb the_window limits = Ok b.
Proof. reflexivity. Qed.
Lemma records_ok r : r ∈ ra ∨ r ∈ rb → length (record_id r) = 32%nat.
Proof. unfold ra, rb. rewrite !elem_of_cons, !elem_of_nil. naive_solver. Qed.
Lemma items_a : session_items a = [record_item r1; record_item r2].
Proof. reflexivity. Qed.
Lemma items_b : session_items b = [record_item r2; record_item r3].
Proof. reflexivity. Qed.
Lemma window_a : window the_window ra = [r1; r2].
Proof. reflexivity. Qed.
Lemma window_b : window the_window rb = [r3; r2].
Proof. reflexivity. Qed.
Lemma demo_agreed : agreed the_window the_window limits limits ra rb a b.
Proof.
  split; [exact new_a|exact new_b|exact records_ok|by vm_compute|done| |].
  - intros r r'. rewrite window_a, window_b, !elem_of_cons, !elem_of_nil.
    intros [->|[->|[]]] [->|[->|[]]]; try done; vm_compute; congruence.
  - intros p q. rewrite items_a, items_b. unfold between. rewrite !filter_cons, !filter_nil.
    repeat case_decide; vm_compute; congruence.
Qed.

Lemma demo_conversation : start_conversation 9 a b = Some (Ok ([id 1], [id 3])).
Proof. reflexivity. Qed.
Lemma demo_rounds : max_rounds limits < N.of_nat 9.
Proof. done. Qed.

Lemma reconciliation_exact_witness :
  (id 3 ∈ [id 1] ↔ id 3 ∈ record_id <$> window the_window ra ∧
    id 3 ∉ record_id <$> window the_window rb) ∧
  (id 3 ∈ [id 3] ↔ id 3 ∈ record_id <$> window the_window rb ∧
    id 3 ∉ record_id <$> window the_window ra).
Proof.
  exact (reconciliation_exact the_window the_window limits limits ra rb a b 9 [id 1] [id 3]
    demo_agreed demo_conversation (id 3)).
Defined.
Lemma session_new_snapshot_witness :
  session_new ra the_window limits = Ok a ∧
  valid_window the_window ∧ valid_limits limits ∧ snapshot_of the_window limits ra a.
Proof.
  split; [exact new_a|].
  pose proof (session_new_snapshot the_window limits ra (λ r Hr, records_ok r (or_introl Hr))) as Hs.
  rewrite new_a in Hs. exact Hs.
Defined.

(** The responder's answer to a frame that is no peer's: an identifier list of
    one record up to the end of time. *)
Definition odd_frame : bytes := [97; 0; 0; 2; 1] ++ replicate 32 255.
Lemma odd_valid : validate odd_frame = Ok tt.
Proof. reflexivity. Qed.
Lemma b_ok : session_ok false b.
Proof.
  pose proof (agreed_pair _ _ _ _ _ _ _ _ demo_agreed) as (Hpair & _). exact (po_b _ _ Hpair).
Qed.
Lemma b_goes_on : may_go_on b.
Proof. done. Qed.
Lemma odd_fits : nlen odd_frame ≤ max_frame_bytes (ss_limits b).
Proof. vm_compute. congruence. Qed.
Lemma accepted_frame_answered_witness :
  ∃ reply, respond odd_frame b = (Ok reply, ticked b) ∧ nlen reply ≤ max_frame_bytes (ss_limits b).
Proof.
  pose proof (accepted_frame_answered false b odd_frame b_ok b_goes_on odd_fits odd_valid) as Hans.
  exact Hans.
Defined.
Lemma var_int_roundtrip_witness :
  decode_var_int (encode_var_int 300 ++ [7]) = (Ok 300, [7]) ∧
  v_varint (encode_var_int 300 ++ [7]) = (Ok 300, [7]) ∧
  nlen (encode_var_int 300) ≤ 10 ∧ Forall (λ b, b < 256) (encode_var_int 300).
Proof. exact (var_int_roundtrip 300 [7] ltac:(done)). Defined.
End ReconcileDemo.
