(* ===== verification/FipsSeen.v ===== *)
(** * Observed identifiers of the FIPS client

    crates/nostr-pubsub-fips/src/seen_ids.rs: event identifiers already seen
    from a peer under a subscription, bounded per scope and in total. A queue
    record that an eviction has overtaken is told by its generation. *)

From S2P Require Export Containers.

(** ** The state *)

(** [ObservationScope]: a peer and a subscription. *)
Definition ObservationScope : Type := string * string.
Notation scope_peer := fst (only parsing).
Notation scope_subscription := snd (only parsing).

Record IdObservation : Set := mkObservation { ob_generation : N; ob_matched : bool }.
Record IdWindow : Type := mkWindow {
  iw_ids : gmap string IdObservation;
  iw_order : list (string * N);
}.
Definition window_default : IdWindow := mkWindow ∅ [].
(** What [observe_with_match] returns. *)
Record Observation : Set := mkSeen { ob_first : bool; ob_previously_matched : bool }.
Record ScopedSeenIds : Type := mkScopedSeen {
  ss_max_per_scope : N;
  ss_max_total : N;
  ss_next_generation : N;
  ss_total : N;
  ss_scopes : gmap ObservationScope IdWindow;
  ss_global_order : list (ObservationScope * string * N);
}.

Definition scoped_seen_new (max_per_scope max_total : N) : ScopedSeenIds :=
  mkScopedSeen max_per_scope max_total 1 0 ∅ [].

(** ** The operations *)

(** [window.ids.get(id).map(|id| id.generation) == Some(generation)]. *)
Definition current_in (ids : gmap string IdObservation) (id : string) (generation : N) : bool :=
  bool_decide (ob_generation <$> ids !! id = Some generation).

(** [while window.ids.len() > self.max_per_scope]; [self.total] is threaded. *)
Fixpoint evict_window (max_per_scope : N) (ids : gmap string IdObservation)
    (order : list (string * N)) (total : N) : IdWindow * N :=
  if decide (max_per_scope < msize ids) then
    match order with
    | [] => (mkWindow ids [], total)
    | (oldest, generation) :: order =>
        if current_in ids oldest generation then
          evict_window max_per_scope (delete oldest ids) order (total - 1)
        else evict_window max_per_scope ids order total
    end
  else (mkWindow ids order, total).
(** [while window.order.front().is_some_and(..) { pop_front }]. *)
Fixpoint drop_stale (ids : gmap string IdObservation) (order : list (string * N))
    : list (string * N) :=
  match order with
  | [] => []
  | (id, generation) :: rest =>
      if current_in ids id generation then order else drop_stale ids rest
  end.
(** [while self.total > self.max_total]. *)
Fixpoint evict_oldest (max_total total : N) (scopes : gmap ObservationScope IdWindow)
    (queue : list (ObservationScope * string * N))
    : N * gmap ObservationScope IdWindow * list (ObservationScope * string * N) :=
  if decide (max_total < total) then
    match queue with
    | [] => (total, scopes, [])
    | (scope, event_id, generation) :: queue =>
        match scopes !! scope with
        | Some window =>
            if current_in (iw_ids window) event_id generation then
              let ids := delete event_id (iw_ids window) in
              let scopes :=
                if decide (ids = ∅) then delete scope scopes
                else <[scope := mkWindow ids (drop_stale ids (iw_order window))]> scopes in
              evict_oldest max_total (total - 1) scopes queue
            else evict_oldest max_total total scopes queue
        | None => evict_oldest max_total total scopes queue
        end
    end
  else (total, scopes, queue).
Definition current_record (scopes : gmap ObservationScope IdWindow)
    (q : ObservationScope * string * N) : Prop :=
  (scopes !! q.1.1 ≫= λ window, ob_generation <$> iw_ids window !! q.1.2) = Some q.2.
#[export] Instance current_record_dec scopes q : Decision (current_record scopes q).
Proof. unfold current_record. apply _. Defined.
Definition evict_global (s : ScopedSeenIds) : ScopedSeenIds :=
  let '(total, scopes, queue) :=
    evict_oldest (ss_max_total s) (ss_total s) (ss_scopes s) (ss_global_order s) in
  let queue :=
    if decide (sat_mul usize_max (ss_max_total s) 2 < nlen queue) then
      filter (current_record scopes) queue
    else queue in
  mkScopedSeen (ss_max_per_scope s) (ss_max_total s) (ss_next_generation s) total scopes queue.

Definition observe_with_match (peer_npub subscription_id event_id : string)
    (matched_subscription : bool) (s : ScopedSeenIds) : Observation * ScopedSeenIds :=
  let scope := (peer_npub, subscription_id) in
  let window := default window_default (ss_scopes s !! scope) in
  match iw_ids window !! event_id with
  | Some previous => (mkSeen false (ob_matched previous), s)
  | None =>
      let generation := ss_next_generation s in
      let ids := <[event_id := mkObservation generation matched_subscription]> (iw_ids window) in
      let '(window, total) :=
        evict_window (ss_max_per_scope s) ids (iw_order window ++ [(event_id, generation)])
          (ss_total s + 1) in
      let s := mkScopedSeen (ss_max_per_scope s) (ss_max_total s)
        (u64_wrap (generation + 1) `max` 1) total
        (<[scope := window]> (ss_scopes s))
        (ss_global_order s ++ [(scope, event_id, generation)]) in
      (mkSeen true false, evict_global s)
  end.
Definition observe_seen (peer_npub subscription_id event_id : string) (s : ScopedSeenIds)
    : bool * ScopedSeenIds :=
  let '(o, s) := observe_with_match peer_npub subscription_id event_id false s in (ob_first o, s).
Definition observe_response (peer_npub : string) (wire_subscription : option string)
    (response_subscription event_id : string) (matched_subscription : bool) (s : ScopedSeenIds)
    : Observation * ScopedSeenIds :=
  let s := match wire_subscription with
           | Some wire =>
               if decide (wire ≠ response_subscription) then
                 (observe_with_match peer_npub wire event_id matched_subscription s).2
               else s
           | None => s
           end in
  observe_with_match peer_npub response_subscription event_id matched_subscription s.

(** [extract_if] takes the scopes out and counts their identifiers. *)
Definition clear_scopes (gone : ObservationScope → Prop) `{!∀ x, Decision (gone x)}
    (s : ScopedSeenIds) : ScopedSeenIds :=
  let removed := sum_by (λ kw, msize (iw_ids kw.2))
    (filter (λ kw, gone kw.1) (map_to_list (ss_scopes s))) in
  mkScopedSeen (ss_max_per_scope s) (ss_max_total s) (ss_next_generation s)
    (ss_total s - removed)
    (filter (λ kw, ¬ gone kw.1) (ss_scopes s))
    (filter (λ q, ¬ gone q.1.1) (ss_global_order s)).
Definition clear_peer (peer_npub : string) : ScopedSeenIds → ScopedSeenIds :=
  clear_scopes (λ scope, scope.1 = peer_npub).
Definition clear_subscription (subscription_id : string) : ScopedSeenIds → ScopedSeenIds :=
  clear_scopes (λ scope, scope.2 = subscription_id).

(** ** Specification

    The observations that are still remembered, oldest first: one more is
    appended, and then the oldest of its scope goes if the scope is over its
    limit, and the oldest of all if the total is. *)
Definition seen_entry : Type := ObservationScope * string * bool.
Fixpoint drop_first {A} (P : A → Prop) `{!∀ x, Decision (P x)} (l : list A) : list A :=
  match l with
  | [] => []
  | x :: l => if decide (P x) then l else x :: drop_first P l
  end.
Definition seen_under (scope : ObservationScope) (id : string) (l : list seen_entry)
    : list seen_entry :=
  filter (λ e, e.1 = (scope, id)) l.
Definition seen_find (scope : ObservationScope) (id : string) (l : list seen_entry)
    : option seen_entry :=
  head (seen_under scope id l).
Definition limit_scope (max_per_scope : N) (scope : ObservationScope) (l : list seen_entry)
    : list seen_entry :=
  if decide (max_per_scope < nlen (filter (λ e, e.1.1 = scope) l))
  then drop_first (λ e, e.1.1 = scope) l else l.
Definition spec_observe (max_per_scope max_total : N) (scope : ObservationScope) (id : string)
    (matched : bool) (l : list seen_entry) : Observation * list seen_entry :=
  match seen_find scope id l with
  | Some e => (mkSeen false e.2, l)
  | None =>
      let l := limit_scope max_per_scope scope (l ++ [(scope, id, matched)]) in
      let l := if decide (max_total < nlen l) then tail l else l in
      (mkSeen true false, l)
  end.
Definition spec_clear (gone : ObservationScope → Prop) `{!∀ x, Decision (gone x)}
    (l : list seen_entry) : list seen_entry :=
  filter (λ e, ¬ gone e.1.1) l.

(** ** The invariant

    The live observations with their generations; [seen_ok] relates them to the
    maps and queues. *)
Record entry : Type := mkEntry {
  oe_scope : ObservationScope;
  oe_id : string;
  oe_generation : N;
  oe_matched : bool;
}.
Definition oe_key (e : entry) : ObservationScope * string * N :=
  (oe_scope e, oe_id e, oe_generation e).
Definition oe_spec (e : entry) : seen_entry := (oe_scope e, oe_id e, oe_matched e).
Definition of_scope (scope : ObservationScope) (l : list entry) : list entry :=
  filter (λ e, oe_scope e = scope) l.

Record window_ok (w : IdWindow) (l : list entry) : Prop := {
  wo_order : iw_order w = (λ e, (oe_id e, oe_generation e)) <$> l;
  wo_ids : ∀ id o, iw_ids w !! id = Some o ↔
    ∃ e, e ∈ l ∧ oe_id e = id ∧ o = mkObservation (oe_generation e) (oe_matched e);
  wo_nodup : NoDup (oe_id <$> l);
}.
Definition scopes_ok (scopes : gmap ObservationScope IdWindow) (l : list entry) : Prop :=
  ∀ scope, match scopes !! scope with
           | Some w => window_ok w (of_scope scope l)
           | None => of_scope scope l = []
           end.
Record queue_ok (queue : list (ObservationScope * string * N)) (l : list entry) : Prop := {
  qo_live : filter (λ q, q ∈ oe_key <$> l) queue = oe_key <$> l;
  qo_nodup : NoDup queue;
}.
Record seen_ok (s : ScopedSeenIds) (l : list entry) : Prop := {
  so_scopes : scopes_ok (ss_scopes s) l;
  so_queue : queue_ok (ss_global_order s) l;
  so_total : ss_total s = nlen l;
  so_generation : ∀ q, q ∈ ss_global_order s → q.2 < ss_next_generation s;
  so_max_total : nlen l ≤ ss_max_total s;
  so_max_scope : ∀ scope, nlen (of_scope scope l) ≤ ss_max_per_scope s;
  so_max_queue : nlen (ss_global_order s) ≤ sat_mul usize_max (ss_max_total s) 2;
}.

(** *** Windows *)
Lemma window_default_ok : window_ok window_default [].
Proof. split; [done| |constructor]. intros id o. simpl. rewrite lookup_empty. set_solver. Qed.
Lemma window_size w l : window_ok w l → msize (iw_ids w) = nlen l.
Proof.
  intros [_ Hids Hnd]. unfold msize, nlen. f_equal.
  rewrite <-(length_fmap oe_id), <-(size_dom (D:=gset string)), <-(size_list_to_set (C:=gset string)) by done.
  f_equal. apply set_eq. intros id. rewrite elem_of_dom, elem_of_list_to_set, list_elem_of_fmap.
  split.
  - intros [o (e & ? & <- & _)%Hids]. eauto.
  - intros (e & -> & ?). eexists. apply Hids. eauto.
Qed.
Lemma window_find w l id :
  window_ok w l → (iw_ids w !! id = None ↔ id ∉ oe_id <$> l).
Proof.
  intros [_ Hids _]. rewrite list_elem_of_fmap, eq_None_not_Some. unfold is_Some.
  setoid_rewrite Hids. naive_solver.
Qed.
Lemma current_in_spec w l id g :
  window_ok w l → current_in (iw_ids w) id g = true ↔ ∃ e, e ∈ l ∧ oe_id e = id ∧ oe_generation e = g.
Proof.
  intros [_ Hids _]. unfold current_in. rewrite bool_decide_eq_true, fmap_Some.
  setoid_rewrite Hids. split.
  - intros (o & (e & ? & <- & ->) & ->). eauto.
  - intros (e & ? & <- & <-). eauto 6.
Qed.
(** The oldest identifier leaves a window. *)
Lemma window_pop w e l :
  window_ok w (e :: l) →
  window_ok (mkWindow (delete (oe_id e) (iw_ids w)) (tail (iw_order w))) l.
Proof.
  intros [Ho Hids Hnd]. rewrite fmap_cons in Ho. rewrite fmap_cons in Hnd. apply NoDup_cons in Hnd as [Hin Hnd].
  split; [by rewrite Ho| |done]. simpl. intros id o. rewrite lookup_delete_Some, Hids.
  split.
  - intros (Hne & e' & [->|?]%elem_of_cons & <- & ->); [done|eauto].
  - intros (e' & ? & <- & ->). split.
    + intros Heq. apply Hin. rewrite Heq. by apply list_elem_of_fmap_2.
    + exists e'. by split; [right|].
Qed.
Lemma window_push w l e :
  window_ok w l → oe_id e ∉ oe_id <$> l →
  window_ok (mkWindow (<[oe_id e := mkObservation (oe_generation e) (oe_matched e)]> (iw_ids w))
    (iw_order w ++ [(oe_id e, oe_generation e)])) (l ++ [e]).
Proof.
  intros [Ho Hids Hnd] Hin. split; simpl.
  - by rewrite Ho, fmap_app.
  - intros id o. setoid_rewrite elem_of_app. setoid_rewrite list_elem_of_singleton.
    rewrite lookup_insert_Some, Hids. split.
    + intros [[<- <-]|(Hne & e' & ? & <- & ->)]; eauto 6.
    + intros (e' & [He'| ->] & <- & ->); [|by left]. right. split; [|eauto].
      intros Heq. apply Hin. rewrite Heq. by apply list_elem_of_fmap_2.
  - rewrite fmap_app. apply NoDup_app. split_and!; [done| |apply NoDup_singleton].
    intros id Hid ->%list_elem_of_singleton. done.
Qed.
Lemma evict_window_ok max w l total :
  window_ok w l → nlen l ≤ max + 1 → nlen l ≤ total →
  let '(w', total') := evict_window max (iw_ids w) (iw_order w) total in
  if decide (max < nlen l) then window_ok w' (tail l) ∧ total' = total - 1
  else window_ok w' l ∧ total' = total.
Proof.
  intros Hw Hmax Htotal. destruct w as [ids order]. simpl. destruct l as [|e l].
  { pose proof (window_size _ _ Hw) as Hsize. simpl in Hsize. rewrite nlen_nil in *.
    destruct order; simpl; rewrite Hsize; repeat case_decide; try lia; by rewrite ?N.sub_0_r. }
  pose proof (wo_order _ _ Hw) as Ho. simpl in Ho. subst order.
  pose proof (window_size _ _ Hw) as Hsize. simpl in Hsize. simpl. rewrite Hsize.
  case_decide as Hover; [|done].
  assert (current_in ids (oe_id e) (oe_generation e) = true) as ->.
  { apply (current_in_spec _ _ _ _ Hw). exists e. by split; [left|]. }
  pose proof (window_pop _ _ _ Hw) as Hpop. simpl in Hpop.
  pose proof (window_size _ _ Hpop) as Hsize'. simpl in Hsize'. rewrite nlen_cons in *.
  destruct l as [|e' l]; simpl; rewrite Hsize'; (rewrite decide_False by (rewrite ?nlen_nil in *; lia)).
  all: split; [exact Hpop|done].
Qed.
Lemma drop_stale_ok w l : window_ok w l → drop_stale (iw_ids w) (iw_order w) = iw_order w.
Proof.
  intros Hw. rewrite (wo_order _ _ Hw). destruct l as [|e l]; [done|]. simpl.
  assert (current_in (iw_ids w) (oe_id e) (oe_generation e) = true) as ->; [|done].
  apply (current_in_spec _ _ _ _ Hw). exists e. by split; [left|].
Qed.

(** *** Scopes *)
Lemma of_scope_cons scope e l :
  of_scope scope (e :: l) = if decide (oe_scope e = scope) then e :: of_scope scope l else of_scope scope l.
Proof. unfold of_scope. by rewrite filter_cons. Qed.
Lemma of_scope_snoc scope l e :
  of_scope scope (l ++ [e]) =
    if decide (oe_scope e = scope) then of_scope scope l ++ [e] else of_scope scope l.
Proof.
  unfold of_scope. rewrite filter_app, filter_cons, filter_nil. case_decide; [done|].
  by rewrite app_nil_r.
Qed.
Lemma of_scope_elem scope l e : e ∈ of_scope scope l ↔ e ∈ l ∧ oe_scope e = scope.
Proof. unfold of_scope. rewrite list_elem_of_filter. tauto. Qed.
Lemma scopes_insert scopes l scope w l' :
  scopes_ok scopes l → window_ok w (of_scope scope l') →
  (∀ scope', scope' ≠ scope → of_scope scope' l' = of_scope scope' l) →
  scopes_ok (<[scope := w]> scopes) l'.
Proof.
  intros Hs Hw Hother scope'. destruct (decide (scope' = scope)) as [->|Hne].
  - by rewrite lookup_insert_eq.
  - rewrite lookup_insert_ne by done. rewrite Hother by done. apply Hs.
Qed.
Lemma scopes_window scopes l scope :
  scopes_ok scopes l → window_ok (default window_default (scopes !! scope)) (of_scope scope l).
Proof.
  intros Hs. specialize (Hs scope). destruct (scopes !! scope); [done|]. rewrite Hs.
  apply window_default_ok.
Qed.
(** A queue record is current when its observation is live. *)
Lemma live_record scopes l scope id g :
  scopes_ok scopes l →
  (scope, id, g) ∈ oe_key <$> l ↔
  ∃ w, scopes !! scope = Some w ∧ current_in (iw_ids w) id g = true.
Proof.
  intros Hs. specialize (Hs scope). rewrite list_elem_of_fmap. split.
  - intros (e & [= -> -> ->] & He).
    assert (e ∈ of_scope (oe_scope e) l) as Hin by by apply of_scope_elem.
    destruct (scopes !! oe_scope e) as [w|]; [|rewrite Hs in Hin; by apply not_elem_of_nil in Hin].
    exists w. split; [done|]. apply (current_in_spec _ _ _ _ Hs). eauto.
  - intros (w & Hw & Hcur). rewrite Hw in Hs.
    apply (current_in_spec _ _ _ _ Hs) in Hcur as (e & He & <- & <-).
    apply of_scope_elem in He as [He <-]. by exists e.
Qed.
Lemma current_record_live scopes l q :
  scopes_ok scopes l → current_record scopes q ↔ q ∈ oe_key <$> l.
Proof.
  destruct q as [[scope id] g]. intros Hs. rewrite (live_record _ _ _ _ _ Hs).
  unfold current_record, current_in. simpl. destruct (scopes !! scope) as [w|]; simpl.
  - split; [intros Hc; exists w; split; [done|by apply bool_decide_eq_true]|].
    intros (w' & [= <-] & Hc). by apply bool_decide_eq_true in Hc.
  - split; [done|]. by intros (? & ? & _).
Qed.
Lemma queue_skip q queue l : q ∉ oe_key <$> l → queue_ok (q :: queue) l → queue_ok queue l.
Proof.
  intros Hq [Hlive Hnd]. rewrite filter_cons_False in Hlive by done. apply NoDup_cons in Hnd.
  split; [done|tauto].
Qed.
Lemma queue_pop q queue l :
  q ∈ oe_key <$> l → queue_ok (q :: queue) l →
  ∃ e l', l = e :: l' ∧ oe_key e = q ∧ queue_ok queue l'.
Proof.
  intros Hq [Hlive Hnd]. rewrite filter_cons_True in Hlive by done.
  apply NoDup_cons in Hnd as [Hin Hnd]. destruct l as [|e l']; [done|].
  rewrite fmap_cons in Hlive. injection Hlive as Hkey Hlive.
  exists e, l'. split_and!; [done..|]. split; [|done]. etrans; [|exact Hlive].
  apply filter_ext_in. intros q' Hq'. rewrite elem_of_cons. split; [by right|].
  intros [Heq|?]; [congruence|done].
Qed.

Lemma scopes_pop scopes e l w :
  scopes_ok scopes (e :: l) → scopes !! oe_scope e = Some w →
  let ids := delete (oe_id e) (iw_ids w) in
  scopes_ok (if decide (ids = ∅) then delete (oe_scope e) scopes
             else <[oe_scope e := mkWindow ids (drop_stale ids (iw_order w))]> scopes) l.
Proof.
  intros Hs Hw ids. pose proof (Hs (oe_scope e)) as Hwin. rewrite Hw in Hwin.
  rewrite of_scope_cons, decide_True in Hwin by done.
  pose proof (window_pop _ _ _ Hwin) as Hpop. fold ids in Hpop.
  assert (drop_stale ids (iw_order w) = tail (iw_order w)) as Hstale.
  { pose proof (drop_stale_ok _ _ Hpop) as Hd. simpl in Hd.
    pose proof (wo_order _ _ Hwin) as Ho. rewrite fmap_cons in Ho. rewrite Ho. simpl.
    assert (current_in ids (oe_id e) (oe_generation e) = false) as ->.
    { unfold current_in, ids. by rewrite lookup_delete_eq. }
    by rewrite Ho in Hd. }
  assert (∀ scope', scope' ≠ oe_scope e → of_scope scope' l = of_scope scope' (e :: l)) as Hother.
  { intros scope' Hne. by rewrite of_scope_cons, decide_False. }
  case_decide as Hempty.
  - intros scope'. destruct (decide (scope' = oe_scope e)) as [->|Hne].
    + rewrite lookup_delete_eq. pose proof (window_size _ _ Hpop) as Hsize. simpl in Hsize.
      unfold msize in Hsize. rewrite Hempty, map_size_empty in Hsize.
      destruct (of_scope _ l); [done|]. rewrite nlen_cons in Hsize. lia.
    + rewrite lookup_delete_ne by done. rewrite Hother by done. apply Hs.
  - rewrite Hstale. by eapply scopes_insert.
Qed.
Lemma evict_seen_ok max total scopes queue l :
  scopes_ok scopes l → queue_ok queue l → total = nlen l → nlen l ≤ max + 1 →
  let '(total', scopes', queue') := evict_oldest max total scopes queue in
  let l' := if decide (max < nlen l) then tail l else l in
  scopes_ok scopes' l' ∧ queue_ok queue' l' ∧ total' = nlen l' ∧ queue' `suffix_of` queue.
Proof.
  revert total scopes l. induction queue as [|[[scope id] g] queue IH];
    intros total scopes l Hs Hq -> Hmax; cbn [evict_oldest].
  - destruct l as [|e l]; [|by destruct Hq].
    rewrite nlen_nil. rewrite !decide_False by lia. done.
  - case_decide as Hover; [|done].
    destruct (decide ((scope, id, g) ∈ oe_key <$> l)) as [Hlive|Hstale].
    + pose proof Hlive as Hcur. apply (live_record _ _ _ _ _ Hs) in Hcur as (w & Hw & Hcur).
      rewrite Hw, Hcur. apply queue_pop in Hq as (e & l' & -> & Hkey & Hq); [|done].
      injection Hkey as <- <- <-. rewrite nlen_cons in *.
      specialize (IH (nlen l' + 1 - 1) _ l' (scopes_pop _ _ _ _ Hs Hw) Hq ltac:(lia) ltac:(lia)).
      cbv zeta in IH |- *. destruct (evict_oldest _ _ _ _) as [[total' scopes'] queue'].
      rewrite decide_False in IH by lia. simpl. destruct IH as (? & ? & ? & ?).
      split_and!; [done..|]. by apply suffix_cons_r.
    + specialize (IH (nlen l) scopes l Hs (queue_skip _ _ _ Hstale Hq) eq_refl Hmax).
      assert (∀ w, scopes !! scope = Some w → current_in (iw_ids w) id g = false) as Hcur.
      { intros w Hw. apply not_true_is_false. intros Hcur. apply Hstale, (live_record _ _ _ _ _ Hs).
        eauto. }
      destruct (scopes !! scope) as [w|]; [rewrite (Hcur w eq_refl)|];
        destruct (evict_oldest _ _ _ _) as [[total' scopes'] queue'];
        rewrite decide_True in IH by done; destruct IH as (? & ? & ? & ?);
        (split_and!; [done..|by apply suffix_cons_r]).
Qed.

(** *** Observations *)
Lemma filter_sublist_keys {A} `{EqDecision A} (l l' : list A) :
  NoDup l → l' `sublist_of` l → filter (λ x, x ∈ l') l = l'.
Proof.
  intros Hnd Hsub. revert Hnd. induction Hsub as [|x l' l Hsub IH|x l' l Hsub IH]; intros Hnd; [done| |].
  - apply NoDup_cons in Hnd as [Hx Hnd]. rewrite filter_cons_True by by left. f_equal.
    etrans; [|by apply IH]. apply filter_ext_in. intros y Hy. rewrite elem_of_cons.
    split; [|by right]. by intros [->|?].
  - apply NoDup_cons in Hnd as [Hx Hnd]. rewrite filter_cons_False; [by apply IH|].
    intros Hin. apply Hx. by eapply sublist_subseteq.
Qed.
Lemma queue_keys_nodup queue l : queue_ok queue l → NoDup (oe_key <$> l).
Proof. intros [<- Hnd]. by apply NoDup_filter. Qed.
(** Forgetting observations leaves their queue records stale. *)
Lemma queue_forget queue l l' : l' `sublist_of` l → queue_ok queue l → queue_ok queue l'.
Proof.
  intros Hsub Hq. pose proof (queue_keys_nodup _ _ Hq) as Hnd. destruct Hq as [Hlive Hndq].
  apply (fmap_sublist oe_key) in Hsub. split; [|done].
  etrans; [|exact (filter_sublist_keys _ _ Hnd Hsub)]. rewrite <-Hlive.
  rewrite list_filter_filter. apply filter_ext_in. intros q _.
  split; [|tauto]. intros Hin. split; [done|]. by eapply sublist_subseteq.
Qed.
Lemma queue_push queue l e :
  oe_key e ∉ queue → queue_ok queue l → queue_ok (queue ++ [oe_key e]) (l ++ [e]).
Proof.
  intros Hin [Hlive Hnd]. split.
  - rewrite filter_app, fmap_app. f_equal.
    + etrans; [|exact Hlive]. apply filter_ext_in. intros q Hq.
      change (oe_key <$> [e]) with [oe_key e].
      rewrite elem_of_app, list_elem_of_singleton. split; [|by left]. by intros [?| ->].
    + rewrite filter_cons_True; [done|]. apply elem_of_app. right. by left.
  - apply NoDup_app. split_and!; [done| |apply NoDup_singleton].
    intros q Hq ->%list_elem_of_singleton. done.
Qed.

Lemma drop_first_sublist {A} (P : A → Prop) `{!∀ x, Decision (P x)} l : drop_first P l `sublist_of` l.
Proof.
  induction l as [|x l IH]; simpl; [done|]. case_decide; [by apply sublist_cons|by apply sublist_skip].
Qed.
Lemma drop_first_fmap {A B} (f : A → B) (P : A → Prop) (Q : B → Prop)
    `{!∀ x, Decision (P x), !∀ x, Decision (Q x)} l :
  (∀ x, Q (f x) ↔ P x) → f <$> drop_first P l = drop_first Q (f <$> l).
Proof.
  intros HPQ. induction l as [|x l IH]; simpl; [done|]. specialize (HPQ x).
  repeat case_decide; simpl; try tauto. f_equal. exact IH.
Qed.
Lemma drop_first_of_scope scope l :
  (∃ e, e ∈ l ∧ oe_scope e = scope) →
  of_scope scope (drop_first (λ e, oe_scope e = scope) l) = tail (of_scope scope l) ∧
  (∀ scope', scope' ≠ scope →
    of_scope scope' (drop_first (λ e, oe_scope e = scope) l) = of_scope scope' l) ∧
  nlen l = nlen (drop_first (λ e, oe_scope e = scope) l) + 1.
Proof.
  intros Hex. induction l as [|e l IH]; [set_solver|]. simpl. rewrite nlen_cons.
  case_decide as He.
  - split_and!; [by rewrite of_scope_cons, decide_True|intros scope' Hne|done].
    rewrite of_scope_cons, decide_False by congruence. done.
  - destruct IH as (IH1 & IH2 & IH3); [set_solver|]. rewrite nlen_cons, IH3. split_and!; [| |done].
    + by rewrite !of_scope_cons, !decide_False by done.
    + intros scope' Hne. rewrite !of_scope_cons. case_decide; by rewrite IH2.
Qed.
Lemma filter_fmap_spec scope l :
  nlen (filter (λ e : seen_entry, e.1.1 = scope) (oe_spec <$> l)) = nlen (of_scope scope l).
Proof.
  unfold of_scope, nlen. f_equal. induction l as [|e l IH]; [done|].
  rewrite fmap_cons, !filter_cons. simpl. case_decide; simpl; by rewrite IH.
Qed.
Lemma tail_sublist {A} (l : list A) : tail l `sublist_of` l.
Proof. destruct l; simpl; [done|]. by apply sublist_cons. Qed.

(** An observation that is remembered, and one that is not. *)
Lemma seen_find_some w l scope id o :
  window_ok w (of_scope scope l) → iw_ids w !! id = Some o →
  ∃ e, seen_find scope id (oe_spec <$> l) = Some e ∧ e.2 = ob_matched o.
Proof.
  intros Hw Ho. unfold seen_find.
  destruct (seen_under _ _ _) as [|e rest] eqn:Hf; simpl.
  - apply (wo_ids _ _ Hw) in Ho as (e & [He Hsc]%of_scope_elem & Hid & ->).
    assert (oe_spec e ∈ seen_under scope id (oe_spec <$> l)) as Hin.
    { apply list_elem_of_filter. split; [by simpl; rewrite Hsc, Hid|]. by apply list_elem_of_fmap_2. }
    rewrite Hf in Hin. by apply not_elem_of_nil in Hin.
  - exists e. split; [done|].
    assert (e ∈ seen_under scope id (oe_spec <$> l)) as Hin
      by (rewrite Hf; by left).
    apply list_elem_of_filter in Hin as [Hkey (e' & -> & He')%list_elem_of_fmap].
    simpl in Hkey. injection Hkey as Hsc Hid.
    assert (iw_ids w !! id = Some (mkObservation (oe_generation e') (oe_matched e'))) as Hlook.
    { apply (wo_ids _ _ Hw). exists e'. split; [by apply of_scope_elem|done]. }
    simplify_eq. done.
Qed.
Lemma seen_find_none w l scope id :
  window_ok w (of_scope scope l) → iw_ids w !! id = None → seen_find scope id (oe_spec <$> l) = None.
Proof.
  intros Hw Hnone. unfold seen_find, seen_under. rewrite filter_none; [done|].
  intros e (e' & -> & He')%list_elem_of_fmap [= Hsc Hid].
  apply (window_find _ _ _ Hw) in Hnone. apply Hnone, list_elem_of_fmap.
  exists e'. split; [done|]. by apply of_scope_elem.
Qed.

(** *** [evict_global] *)
Lemma evict_global_ok s l :
  scopes_ok (ss_scopes s) l → queue_ok (ss_global_order s) l → ss_total s = nlen l →
  nlen l ≤ ss_max_total s + 1 → ss_max_total s ≤ usize_max →
  (∀ q, q ∈ ss_global_order s → q.2 < ss_next_generation s) →
  (∀ scope, nlen (of_scope scope l) ≤ ss_max_per_scope s) →
  seen_ok (evict_global s) (if decide (ss_max_total s < nlen l) then tail l else l).
Proof.
  intros Hs Hq Htotal Hmax Hwidth Hgen Hscope. unfold evict_global.
  pose proof (evict_seen_ok _ _ _ _ _ Hs Hq Htotal Hmax) as Hev.
  destruct (evict_oldest _ _ _ _) as [[total scopes] queue].
  set (l' := if decide (ss_max_total s < nlen l) then tail l else l) in *.
  destruct Hev as (Hs' & Hq' & Ht' & Hsuffix).
  assert (l' `sublist_of` l) as Hsub by (subst l'; case_decide; [apply tail_sublist|done]).
  assert (nlen l' ≤ ss_max_total s) as Hl'.
  { subst l'. case_decide; [|lia]. unfold nlen in *. destruct l; simpl in *; lia. }
  assert (∀ q, q ∈ queue → q.2 < ss_next_generation s) as Hgen'.
  { intros q Hin. apply Hgen. destruct Hsuffix as [pre ->]. apply elem_of_app. by right. }
  assert (∀ scope, nlen (of_scope scope l') ≤ ss_max_per_scope s) as Hscope'.
  { intros scope. etrans; [|apply (Hscope scope)].
    assert (of_scope scope l' `sublist_of` of_scope scope l) as Hle%sublist_length; [|unfold nlen; lia].
    unfold of_scope. clear -Hsub. induction Hsub; [done|..]; rewrite !filter_cons; case_decide;
      try done; by constructor. }
  case_decide as Hcompact; [|split; try done; simpl; lia].
  assert (filter (current_record scopes) queue = oe_key <$> l') as Hlive.
  { rewrite <-(qo_live _ _ Hq'). apply filter_ext_in. intros q _. by apply current_record_live. }
  pose proof (queue_keys_nodup _ _ Hq') as Hnd. split; try done; simpl.
  - rewrite Hlive. split; [|done]. by apply filter_all.
  - intros q [_ Hin]%list_elem_of_filter. auto.
  - rewrite Hlive. unfold nlen, sat_mul in *. rewrite length_fmap. lia.
Qed.

(** *** Every operation refines the specification *)
Definition counter_room (s : ScopedSeenIds) : Prop := ss_next_generation s + 1 ≤ u64_max.

Lemma observe_ok p sub id m s l :
  seen_ok s l → counter_room s → ss_max_total s ≤ usize_max →
  let '(o, s') := observe_with_match p sub id m s in
  ∃ l', seen_ok s' l' ∧ ss_next_generation s' ≤ ss_next_generation s + 1 ∧
    ss_max_per_scope s' = ss_max_per_scope s ∧ ss_max_total s' = ss_max_total s ∧
    (o, oe_spec <$> l') =
      spec_observe (ss_max_per_scope s) (ss_max_total s) (p, sub) id m (oe_spec <$> l).
Proof.
  intros Hok Hroom Hwidth. unfold observe_with_match, spec_observe.
  pose proof (scopes_window _ _ (p, sub) (so_scopes _ _ Hok)) as Hw.
  set (w := default window_default (ss_scopes s !! (p, sub))) in *.
  destruct (iw_ids w !! id) as [o|] eqn:Hid.
  { destruct (seen_find_some _ _ _ _ _ Hw Hid) as (e & -> & <-). exists l.
    split_and!; [done|lia|done..]. }
  rewrite (seen_find_none _ _ _ _ Hw Hid).
  set (e := mkEntry (p, sub) id (ss_next_generation s) m).
  assert (window_ok (mkWindow (<[id := mkObservation (ss_next_generation s) m]> (iw_ids w))
    (iw_order w ++ [(id, ss_next_generation s)])) (of_scope (p, sub) (l ++ [e]))) as Hpush.
  { rewrite of_scope_snoc, decide_True by done. apply (window_push w _ e Hw).
    by apply (window_find _ _ _ Hw). }
  assert (nlen (of_scope (p, sub) (l ++ [e])) ≤ ss_max_per_scope s + 1) as Hcount.
  { rewrite of_scope_snoc, decide_True, nlen_app by done.
    pose proof (so_max_scope _ _ Hok (p, sub)). unfold nlen at 2. simpl. lia. }
  assert (nlen (of_scope (p, sub) (l ++ [e])) ≤ ss_total s + 1) as Htotal.
  { rewrite (so_total _ _ Hok). unfold of_scope, nlen.
    pose proof (length_filter (λ e, oe_scope e = (p, sub)) (l ++ [e])) as Hle.
    rewrite length_app in Hle. simpl in Hle. lia. }
  pose proof (evict_window_ok _ _ _ _ Hpush Hcount Htotal) as Hev. simpl in Hev.
  destruct (evict_window _ _ _ _) as [w' total].
  set (l1 := if decide (ss_max_per_scope s < nlen (of_scope (p, sub) (l ++ [e])))
             then drop_first (λ e, oe_scope e = (p, sub)) (l ++ [e]) else l ++ [e]).
  assert (window_ok w' (of_scope (p, sub) l1) ∧ total = nlen l1 ∧ l1 `sublist_of` l ++ [e] ∧
    (∀ scope', scope' ≠ (p, sub) → of_scope scope' l1 = of_scope scope' l) ∧
    nlen (of_scope (p, sub) l1) ≤ ss_max_per_scope s) as (Hw' & Ht & Hsub & Hother & Hmax).
  { assert (∀ scope', scope' ≠ (p, sub) → of_scope scope' (l ++ [e]) = of_scope scope' l) as Hsnoc.
    { intros scope' Hne. rewrite of_scope_snoc, decide_False; [done|]. by intros <-. }
    destruct (drop_first_of_scope (p, sub) (l ++ [e])) as (Htail & Hoth & Hlen).
    { exists e. split; [apply elem_of_app; right; by left|done]. }
    rewrite nlen_app in Hlen. unfold nlen at 2 in Hlen. simpl in Hlen.
    subst l1. case_decide as Hover; destruct Hev as [Hev ->]; rewrite (so_total _ _ Hok).
    - rewrite Htail. split_and!; [done|lia|apply drop_first_sublist| |].
      + intros scope' Hne. rewrite Hoth by done. auto.
      + unfold nlen in *. destruct (of_scope _ (l ++ [e])); simpl in *; lia.
    - split_and!; [done| |done|done|lia]. rewrite nlen_app. done. }
  assert (oe_key e ∉ ss_global_order s) as Hfresh.
  { intros Hin%(so_generation _ _ Hok). simpl in Hin. lia. }
  set (s1 := mkScopedSeen _ _ _ _ _ _).
  assert (u64_wrap (ss_next_generation s + 1) `max` 1 = ss_next_generation s + 1) as Hnext.
  { rewrite u64_wrap_small by done. lia. }
  assert (nlen l1 ≤ ss_max_total s + 1) as Hl1.
  { pose proof (so_max_total _ _ Hok). pose proof (sublist_length _ _ Hsub) as Hle.
    rewrite length_app in Hle. unfold nlen in *. simpl in Hle. lia. }
  assert (seen_ok (evict_global s1) (if decide (ss_max_total s < nlen l1) then tail l1 else l1)) as Hok'.
  { apply (evict_global_ok s1 l1); try done; unfold s1; simpl.
    - eapply scopes_insert; [apply Hok|done|done].
    - eapply queue_forget; [exact Hsub|]. apply (queue_push _ _ e); [done|apply Hok].
    - rewrite Hnext. intros q [Hq| ->%list_elem_of_singleton]%elem_of_app; [|simpl; lia].
      apply (so_generation _ _ Hok) in Hq. lia.
    - intros scope. destruct (decide (scope = (p, sub))) as [->|Hne]; [done|].
      rewrite Hother by done. apply Hok. }
  eexists. split; [exact Hok'|].
  assert (∀ s, ss_next_generation (evict_global s) = ss_next_generation s ∧
    ss_max_per_scope (evict_global s) = ss_max_per_scope s ∧
    ss_max_total (evict_global s) = ss_max_total s) as Hkeep.
  { intros s0. unfold evict_global. by destruct (evict_oldest _ _ _ _) as [[? ?] ?]. }
  destruct (Hkeep s1) as (-> & -> & ->). split_and!; [unfold s1; simpl; lia|done|done|].
  assert (oe_spec <$> l1 = limit_scope (ss_max_per_scope s) (p, sub)
    ((oe_spec <$> l) ++ [((p, sub), id, m)])) as Hl1s.
  { unfold limit_scope. change ((p, sub), id, m) with (oe_spec e).
    change ((oe_spec <$> l) ++ [oe_spec e]) with ((oe_spec <$> l) ++ (oe_spec <$> [e])).
    rewrite <-fmap_app, filter_fmap_spec. subst l1. repeat case_decide;
      first [done | by apply drop_first_fmap]. }
  cbv zeta. f_equal. etrans; [|exact (f_equal (λ k, if decide (ss_max_total s < nlen k)
    then tail k else k) Hl1s)].
  cbv beta. unfold nlen. rewrite length_fmap. repeat case_decide; try lia; by destruct l1.
Qed.

(** Taking scopes out takes their observations out. *)
Lemma sum_of_scopes (K : list ObservationScope) l :
  NoDup K → sum_by (λ scope, nlen (of_scope scope l)) K = nlen (filter (λ e, oe_scope e ∈ K) l).
Proof.
  intros HK. induction l as [|e l IH].
  - rewrite filter_nil, nlen_nil. clear HK. induction K as [|k K IHK]; [done|]. simpl. by rewrite IHK.
  - rewrite filter_cons. transitivity ((if decide (oe_scope e ∈ K) then 1 else 0) +
      sum_by (λ scope, nlen (of_scope scope l)) K).
    + clear IH. induction HK as [|k K Hk HK IHK]; simpl; [done|]. rewrite IHK, of_scope_cons.
      repeat case_decide; rewrite ?nlen_cons; set_unfold; try lia; naive_solver lia.
    + rewrite IH. case_decide; rewrite ?nlen_cons; lia.
Qed.
Lemma clear_ok (gone : ObservationScope → Prop) `{!∀ x, Decision (gone x)} s l :
  seen_ok s l →
  seen_ok (clear_scopes gone s) (filter (λ e, ¬ gone (oe_scope e)) l).
Proof.
  intros [Hs Hq Ht Hg Hmt Hms Hmq]. unfold clear_scopes.
  set (l' := filter (λ e, ¬ gone (oe_scope e)) l).
  assert (∀ scope, of_scope scope l' = if decide (gone scope) then [] else of_scope scope l) as Hof.
  { intros scope. unfold l', of_scope. rewrite list_filter_filter. case_decide as Hgone.
    - apply filter_none. intros e _ [? Hn]. apply Hn. congruence.
    - apply filter_ext_in. intros e _. split; [tauto|]. intros <-. tauto. }
  assert (l' `sublist_of` l) as Hsub by apply sublist_filter.
  assert (∀ scope w, ss_scopes s !! scope = Some w → msize (iw_ids w) = nlen (of_scope scope l))
    as Hsize.
  { intros scope w Hw. specialize (Hs scope). rewrite Hw in Hs. by apply window_size. }
  assert (ss_total s - sum_by (λ kw, msize (iw_ids kw.2))
    (filter (λ kw, gone kw.1) (map_to_list (ss_scopes s))) = nlen l') as Htotal.
  { set (K := filter (λ kw, gone kw.1) (map_to_list (ss_scopes s))).
    assert (sum_by (λ kw, msize (iw_ids kw.2)) K = sum_by (λ scope, nlen (of_scope scope l)) K.*1)
      as ->.
    { assert (∀ kw, kw ∈ K → msize (iw_ids kw.2) = nlen (of_scope kw.1 l)) as HK.
      { intros [k w] [_ Hin%elem_of_map_to_list]%list_elem_of_filter. by apply Hsize. }
      clear -HK. induction K as [|kw K IH]; [done|]. rewrite fmap_cons. simpl.
      rewrite HK by by left. rewrite IH; [done|]. intros. apply HK. by right. }
    rewrite sum_of_scopes by (apply NoDup_fmap_filter, NoDup_fst_map_to_list).
    rewrite (filter_ext_in _ (λ e, gone (oe_scope e))).
    - rewrite Ht. unfold l', nlen.
      assert (length l = length (filter (λ e, gone (oe_scope e)) l) +
        length (filter (λ e, ¬ gone (oe_scope e)) l))%nat; [|lia].
      clear. induction l as [|e l IH]; [done|].
      rewrite !filter_cons. repeat case_decide; try tauto; simpl in *; lia.
    - intros e He. rewrite list_elem_of_fmap. split.
      + by intros ([k w] & -> & [? _]%list_elem_of_filter).
      + intros Hgone. specialize (Hs (oe_scope e)).
        destruct (ss_scopes s !! oe_scope e) as [w|] eqn:Hw.
        * exists (oe_scope e, w). split; [done|]. apply list_elem_of_filter. split; [done|].
          by apply elem_of_map_to_list.
        * assert (e ∈ of_scope (oe_scope e) l) as Hin by by apply of_scope_elem.
          rewrite Hs in Hin. by apply not_elem_of_nil in Hin. }
  assert (queue_ok (filter (λ q, ¬ gone q.1.1) (ss_global_order s)) l') as Hq'.
  { pose proof (queue_forget _ _ _ Hsub Hq) as [Hlive Hnd]. split; [|by apply NoDup_filter].
    etrans; [|exact Hlive]. rewrite list_filter_filter. apply filter_ext_in. intros q _.
    split; [tauto|]. intros Hin. split; [done|].
    apply list_elem_of_fmap in Hin as (e & -> & He). by apply list_elem_of_filter in He as [? _]. }
  split; simpl.
  - intros scope. rewrite Hof, map_lookup_filter. specialize (Hs scope).
    destruct (ss_scopes s !! scope) as [w|]; simpl.
    + case_guard; simpl; case_decide; first [tauto | done].
    + by case_decide.
  - done.
  - done.
  - intros q [_ Hin]%list_elem_of_filter. auto.
  - pose proof (sublist_length _ _ Hsub). unfold nlen in *. lia.
  - intros scope. rewrite Hof. case_decide; [unfold nlen; simpl; lia|auto].
  - etrans; [|exact Hmq]. unfold nlen.
    pose proof (length_filter (λ q, ¬ gone q.1.1) (ss_global_order s)). lia.
Qed.
Lemma oe_spec_clear (gone : ObservationScope → Prop) `{!∀ x, Decision (gone x)} l :
  oe_spec <$> filter (λ e, ¬ gone (oe_scope e)) l = spec_clear gone (oe_spec <$> l).
Proof.
  unfold spec_clear. induction l as [|e l IH]; [done|]. rewrite fmap_cons, !filter_cons.
  cbn [oe_spec fst]. case_decide; [|exact IH]. by rewrite fmap_cons, IH.
Qed.

(** ** Refinement *)
Inductive seen_op : Type :=
  | SeenObserve (peer_npub subscription_id event_id : string) (matched : bool)
  | SeenClearPeer (peer_npub : string)
  | SeenClearSubscription (subscription_id : string).
(** A run of operations, with what each observation returns. *)
Fixpoint run_seen (ops : list seen_op) (s : ScopedSeenIds) : list Observation * ScopedSeenIds :=
  match ops with
  | [] => ([], s)
  | SeenObserve p sub id m :: ops =>
      let '(o, s) := observe_with_match p sub id m s in
      let '(os, s) := run_seen ops s in (o :: os, s)
  | SeenClearPeer p :: ops => run_seen ops (clear_peer p s)
  | SeenClearSubscription sub :: ops => run_seen ops (clear_subscription sub s)
  end.
Fixpoint run_spec (max_per_scope max_total : N) (ops : list seen_op) (l : list seen_entry)
    : list Observation * list seen_entry :=
  match ops with
  | [] => ([], l)
  | SeenObserve p sub id m :: ops =>
      let '(o, l) := spec_observe max_per_scope max_total (p, sub) id m l in
      let '(os, l) := run_spec max_per_scope max_total ops l in (o :: os, l)
  | SeenClearPeer p :: ops =>
      run_spec max_per_scope max_total ops (spec_clear (λ scope, scope.1 = p) l)
  | SeenClearSubscription sub :: ops =>
      run_spec max_per_scope max_total ops (spec_clear (λ scope, scope.2 = sub) l)
  end.

Lemma run_seen_ok ops s l :
  seen_ok s l → ss_next_generation s + nlen ops ≤ u64_max → ss_max_total s ≤ usize_max →
  let '(os, s') := run_seen ops s in
  ∃ l', seen_ok s' l' ∧
    (os, oe_spec <$> l') = run_spec (ss_max_per_scope s) (ss_max_total s) ops (oe_spec <$> l).
Proof.
  revert s l. induction ops as [|[p sub id m|p|sub] ops IH]; intros s l Hok Hroom Hwidth.
  - by exists l.
  - rewrite nlen_cons in Hroom. cbn [run_seen run_spec].
    assert (counter_room s) as Hcounter by (unfold counter_room; lia).
    pose proof (observe_ok p sub id m s l Hok Hcounter Hwidth) as Hobs.
    destruct (observe_with_match p sub id m s) as [o s1].
    destruct Hobs as (l1 & Hok1 & Hgen & Hmps & Hmt & Hspec). rewrite <-Hspec.
    specialize (IH s1 l1 Hok1 ltac:(lia) ltac:(by rewrite Hmt)).
    destruct (run_seen ops s1) as [os s2]. destruct IH as (l2 & Hok2 & Hspec2).
    rewrite Hmps, Hmt in Hspec2. rewrite <-Hspec2. by exists l2.
  - rewrite nlen_cons in Hroom. cbn [run_seen run_spec]. rewrite <-oe_spec_clear.
    apply (IH (clear_peer p s)); [by apply clear_ok|simpl; lia|done].
  - rewrite nlen_cons in Hroom. cbn [run_seen run_spec]. rewrite <-oe_spec_clear.
    apply (IH (clear_subscription sub s)); [by apply clear_ok|simpl; lia|done].
Qed.
Lemma scoped_seen_new_ok max_per_scope max_total :
  seen_ok (scoped_seen_new max_per_scope max_total) [].
Proof.
  split; simpl; try done; try (intros; unfold nlen; simpl; lia).
  - split; [done|constructor].
  - intros q ?%not_elem_of_nil. done.
Qed.

(** C31. The observed identifiers are a bounded list of observations, oldest
    first: what an observation answers depends only on whether its own peer and
    subscription are in the list with its identifier, and the maps, queues and
    generations of the code, with their lazy evictions, always agree with that
    list and stay within their bounds. *)
Theorem seen_ids_refine max_per_scope max_total ops :
  nlen ops < u64_max → max_total ≤ usize_max →
  let '(os, s) := run_seen ops (scoped_seen_new max_per_scope max_total) in
  ∃ l, seen_ok s l ∧ run_spec max_per_scope max_total ops [] = (os, oe_spec <$> l).
Proof.
  intros Hops Hwidth.
  pose proof (run_seen_ok ops _ [] (scoped_seen_new_ok max_per_scope max_total)) as Hrun.
  simpl in Hrun. specialize (Hrun ltac:(lia) Hwidth). destruct (run_seen _ _) as [os s].
  destruct Hrun as (l & Hok & Hspec). eauto.
Qed.

(** ** Witness: windows of two, three identifiers in all. *)
Module SeenWitness.
Definition ops : list seen_op :=
  [SeenObserve "p" "s" "a" false; SeenObserve "p" "s" "b" true; SeenObserve "p" "s" "c" false;
   SeenObserve "q" "s" "a" false; SeenObserve "q" "t" "a" true; SeenClearSubscription "s";
   SeenObserve "q" "t" "a" false; SeenObserve "p" "s" "c" false].
Example ops_answers :
  (run_seen ops (scoped_seen_new 2 3)).1 =
    [mkSeen true false; mkSeen true false; mkSeen true false; mkSeen true false;
     mkSeen true false; mkSeen false true; mkSeen true false].
Proof. vm_compute. reflexivity. Qed.
Lemma seen_ids_refine_witness :
  ∃ l, seen_ok (run_seen ops (scoped_seen_new 2 3)).2 l ∧
    run_spec 2 3 ops [] = ((run_seen ops (scoped_seen_new 2 3)).1, oe_spec <$> l).
Proof.
  pose proof (seen_ids_refine 2 3 ops ltac:(done) ltac:(done)) as H.
  destruct (run_seen ops (scoped_seen_new 2 3)) as [os s]. exact H.
Defined.
End SeenWitness.
