(* ===== verification/FipsDelivery.v ===== *)
(** * Local delivery of the FIPS client

    crates/nostr-pubsub-fips/src/local_delivery.rs, and the receiving half of
    lib.rs ([FipsPubsubSubscription]): the bounded channel to the application,
    the bodies waiting for a place in it, and the identifiers that are not
    delivered twice. *)

From S2P Require Export LiveRoutes.

Definition FIPS_NOSTR_PUBSUB_MAX_SEEN_EVENT_IDS : N := 4096.

Section delivery.
Context `{!Nostr}.

(** ** The state *)

(** A bounded [mpsc] channel with one sender; [ch_receiver] until the receiver
    is dropped, with the messages in it. *)
Record Channel : Type := mkChannel {
  ch_capacity : N;
  ch_queue : list QueryEvent;
  ch_receiver : bool;
}.
Inductive TrySend : Type := SendOk (channel : Channel) | SendFull | SendClosed.
Definition try_send (event : QueryEvent) (c : Channel) : TrySend :=
  if ch_receiver c then
    if decide (nlen (ch_queue c) < ch_capacity c)
    then SendOk (mkChannel (ch_capacity c) (ch_queue c ++ [event]) true)
    else SendFull
  else SendClosed.

(** [LocalDelivery] is [DeliveryState] behind a lock; [ld_sender] is whether the
    state still owns the sender. *)
Record LocalDelivery : Type := mkDelivery {
  ld_channel : Channel;
  ld_sender : bool;
  ld_pending : list QueryEvent;
  ld_pending_ids : gset string;
  ld_delivered_ids : gset string;
  ld_delivered_order : list string;
  ld_maximum_pending : N;
  ld_status : SubscriptionDeliveryStatus;
}.
Implicit Types s : LocalDelivery.
Definition set_ld_channel v s : LocalDelivery :=
  mkDelivery v (ld_sender s) (ld_pending s) (ld_pending_ids s) (ld_delivered_ids s)
    (ld_delivered_order s) (ld_maximum_pending s) (ld_status s).
Definition set_ld_sender v s : LocalDelivery :=
  mkDelivery (ld_channel s) v (ld_pending s) (ld_pending_ids s) (ld_delivered_ids s)
    (ld_delivered_order s) (ld_maximum_pending s) (ld_status s).
Definition set_ld_pending v s : LocalDelivery :=
  mkDelivery (ld_channel s) (ld_sender s) v (ld_pending_ids s) (ld_delivered_ids s)
    (ld_delivered_order s) (ld_maximum_pending s) (ld_status s).
Definition set_ld_pending_ids v s : LocalDelivery :=
  mkDelivery (ld_channel s) (ld_sender s) (ld_pending s) v (ld_delivered_ids s)
    (ld_delivered_order s) (ld_maximum_pending s) (ld_status s).
Definition set_ld_delivered ids order s : LocalDelivery :=
  mkDelivery (ld_channel s) (ld_sender s) (ld_pending s) (ld_pending_ids s) ids order
    (ld_maximum_pending s) (ld_status s).
Definition set_ld_status v s : LocalDelivery :=
  mkDelivery (ld_channel s) (ld_sender s) (ld_pending s) (ld_pending_ids s)
    (ld_delivered_ids s) (ld_delivered_order s) (ld_maximum_pending s) v.

Definition delivery_new (capacity maximum_pending : N) : LocalDelivery :=
  mkDelivery (mkChannel capacity [] true) true [] ∅ ∅ [] maximum_pending Active.

Definition delivery_id (event : QueryEvent) : string :=
  event_id_to_hex (event_id (as_event (qe_event event))).

(** ** The operations *)
Definition mark_delivered (id : string) s : LocalDelivery :=
  let '(order, ids) :=
    window_trim FIPS_NOSTR_PUBSUB_MAX_SEEN_EVENT_IDS (ld_delivered_order s ++ [id])
      ({[id]} ∪ ld_delivered_ids s) in
  set_ld_delivered ids order s.

(** [DeliveryState::close]. *)
Definition delivery_close s : LocalDelivery :=
  let s := if decide (ld_status s = Active) then set_ld_status Closed s else s in
  if decide (ld_pending s = []) then set_ld_sender false s else s.

(** The [while] loop of [DeliveryState::refill]. *)
Fixpoint refill_loop (pending : list QueryEvent) s : LocalDelivery :=
  match pending with
  | [] => set_ld_pending [] s
  | event :: rest =>
      if ld_sender s then
        match try_send event (ld_channel s) with
        | SendOk channel =>
            let s := set_ld_channel channel s in
            let s := set_ld_pending_ids (ld_pending_ids s ∖ {[delivery_id event]}) s in
            refill_loop rest (mark_delivered (delivery_id event) s)
        | SendFull => set_ld_pending (event :: rest) s
        | SendClosed => delivery_close (set_ld_pending_ids ∅ (set_ld_pending [] s))
        end
      else set_ld_pending (event :: rest) s
  end.
Definition refill s : LocalDelivery :=
  let s := refill_loop (ld_pending s) s in
  if decide (ld_status s ≠ Active ∧ ld_pending s = []) then set_ld_sender false s else s.

Definition delivery_contains (id : string) s : bool :=
  bool_decide (id ∈ ld_delivered_ids s) || bool_decide (id ∈ ld_pending_ids s).

Definition enqueue (event : QueryEvent) s : bool * LocalDelivery :=
  if decide (ld_status s ≠ Active) then (false, s)
  else
    let id := delivery_id event in
    if delivery_contains id s then (false, s)
    else
      let s := refill s in
      if ld_sender s then
        match try_send event (ld_channel s) with
        | SendOk channel => (true, mark_delivered id (set_ld_channel channel s))
        | SendFull =>
            if decide (nlen (ld_pending s) = ld_maximum_pending s)
            then (false, set_ld_status Lagged s)
            else (true, set_ld_pending_ids ({[id]} ∪ ld_pending_ids s)
                          (set_ld_pending (ld_pending s ++ [event]) s))
        | SendClosed => (false, delivery_close s)
        end
      else (false, s).

(** ** The application's half *)
Inductive TryRecv : Type := RecvOk (event : QueryEvent) | RecvEmpty | RecvDisconnected.
(** [mpsc::Receiver::try_recv]: [RecvDisconnected] once the sender is dropped
    and the channel is empty. *)
Definition channel_try_recv s : TryRecv * LocalDelivery :=
  let c := ld_channel s in
  match ch_queue c with
  | event :: queue =>
      (RecvOk event, set_ld_channel (mkChannel (ch_capacity c) queue (ch_receiver c)) s)
  | [] => (if ld_sender s then RecvEmpty else RecvDisconnected, s)
  end.
(** [FipsPubsubSubscription::try_recv]; [recv] waits while it is [RecvEmpty]. *)
Definition subscription_try_recv s : TryRecv * LocalDelivery :=
  let s := refill s in
  let '(event, s) := channel_try_recv s in
  (event, refill s).
Definition drop_receiver s : LocalDelivery :=
  set_ld_channel (mkChannel (ch_capacity (ld_channel s)) [] false) s.
End delivery.

(** ** Specification

    [accepted] are the events [enqueue] took, [sent] those that entered the
    channel, [received] those the application has. *)
Section delivery_spec.
Context `{!Nostr}.
Implicit Types s : LocalDelivery.

(** No two events of a window share an identifier. *)
Definition fresh_window (n : nat) (events : list QueryEvent) : Prop :=
  ∀ i j x y, events !! i = Some x → events !! j = Some y → (i < j)%nat →
    delivery_id x = delivery_id y → (n < j - i)%nat.

Notation seen_window := FIPS_NOSTR_PUBSUB_MAX_SEEN_EVENT_IDS.
Record delivery_ok (accepted sent received : list QueryEvent) s : Prop := {
  do_window : window_of seen_window (delivery_id <$> sent) (ld_delivered_order s) (ld_delivered_ids s);
  do_pending_ids : ld_pending_ids s = list_to_set (delivery_id <$> ld_pending s);
  do_pending_nodup : NoDup (delivery_id <$> ld_pending s);
  do_disjoint : ld_pending_ids s ## ld_delivered_ids s;
  do_capacity : nlen (ch_queue (ld_channel s)) ≤ ch_capacity (ld_channel s);
  do_maximum : nlen (ld_pending s) ≤ ld_maximum_pending s;
  do_alive : ch_receiver (ld_channel s) = true →
    sent = received ++ ch_queue (ld_channel s) ∧ accepted = sent ++ ld_pending s;
  do_received : received `prefix_of` sent;
  do_accepted : accepted = sent ++ ld_pending s ∨
    sent `prefix_of` accepted ∧ ld_pending s = [] ∧ ld_status s ≠ Active;
  do_sender : ld_sender s = false → ld_pending s = [] ∧ ld_status s ≠ Active;
  do_fresh : fresh_window (N.to_nat seen_window) accepted;
}.
(** Only these fields matter to a caller. *)
Definition same_bounds s s' : Prop :=
  ch_capacity (ld_channel s') = ch_capacity (ld_channel s) ∧
  ld_maximum_pending s' = ld_maximum_pending s ∧
  ch_receiver (ld_channel s') = ch_receiver (ld_channel s).

Lemma delivery_new_ok capacity maximum : delivery_ok [] [] [] (delivery_new capacity maximum).
Proof.
  split; simpl; try done; auto.
  - apply window_of_empty.
  - constructor.
  - unfold nlen. simpl. lia.
  - unfold nlen. simpl. lia.
Qed.

Lemma try_send_Ok event c c' :
  try_send event c = SendOk c' →
  ch_receiver c = true ∧ nlen (ch_queue c) < ch_capacity c ∧
  c' = mkChannel (ch_capacity c) (ch_queue c ++ [event]) true.
Proof. unfold try_send. destruct (ch_receiver c); [case_decide|]; naive_solver. Qed.
Lemma try_send_Full event c :
  try_send event c = SendFull → ch_receiver c = true ∧ ch_capacity c ≤ nlen (ch_queue c).
Proof. unfold try_send. destruct (ch_receiver c); [case_decide|]; [done| |done]. split; [done|lia]. Qed.
Lemma try_send_Closed event c : try_send event c = SendClosed → ch_receiver c = false.
Proof. unfold try_send. destruct (ch_receiver c); [case_decide|]; done. Qed.

Lemma mark_delivered_window sent id s :
  window_of seen_window sent (ld_delivered_order s) (ld_delivered_ids s) →
  id ∉ ld_delivered_ids s →
  ∃ order ids, mark_delivered id s = set_ld_delivered ids order s ∧
    window_of seen_window (sent ++ [id]) order ids ∧ ids ⊆ {[id]} ∪ ld_delivered_ids s.
Proof.
  intros Hw Hid. pose proof (window_of_push _ _ _ _ id Hw Hid) as Hpush.
  unfold mark_delivered.
  pose proof (window_trim_subset seen_window (ld_delivered_order s ++ [id]) ({[id]} ∪ ld_delivered_ids s)).
  destruct (window_trim _ _ _) as [order ids]. eauto.
Qed.
(** The oldest pending event enters the channel. *)
Lemma send_pending accepted sent received s event rest channel :
  delivery_ok accepted sent received (set_ld_pending (event :: rest) s) →
  try_send event (ld_channel s) = SendOk channel →
  let s' := mark_delivered (delivery_id event)
    (set_ld_pending_ids (ld_pending_ids s ∖ {[delivery_id event]}) (set_ld_channel channel s)) in
  delivery_ok accepted (sent ++ [event]) received (set_ld_pending rest s') ∧ same_bounds s s' ∧
  ld_sender s' = ld_sender s ∧ ld_status s' = ld_status s ∧
  ld_delivered_ids s' ∪ ld_pending_ids s' ⊆ ld_delivered_ids s ∪ ld_pending_ids s.
Proof.
  intros [Hw Hpid Hnd Hdisj Hcap Hmax Halive Hrec Hacc Hsend Hfresh] Hts; simpl in *.
  apply try_send_Ok in Hts as (Hopen & Hroom & ->).
  apply NoDup_cons in Hnd as [Hid Hnd].
  assert (delivery_id event ∈ ld_pending_ids s) as Hin by (rewrite Hpid; set_solver).
  destruct (mark_delivered_window _ (delivery_id event)
    (set_ld_pending_ids (ld_pending_ids s ∖ {[delivery_id event]})
      (set_ld_channel (mkChannel (ch_capacity (ld_channel s)) (ch_queue (ld_channel s) ++ [event]) true) s)) Hw)
    as (order & ids & -> & Hw' & Hsub); [simpl; set_solver|]. simpl in *.
  destruct (Halive Hopen) as [Hsent Haccepted].
  split_and!; [|by unfold same_bounds; simpl; rewrite Hopen|done|done|clear -Hsub Hin; set_solver].
  split; simpl; try done.
  - by rewrite fmap_app.
  - rewrite Hpid. csimpl. apply set_eq. intros x. 
    destruct (decide (x = delivery_id event)); set_solver.
  - set_solver.
  - rewrite nlen_app, nlen_cons, nlen_nil. lia.
  - rewrite nlen_cons in Hmax. lia.
  - intros _. rewrite Haccepted, Hsent. by rewrite <-!(assoc_L (++)).
  - etrans; [exact Hrec|by apply prefix_app_r].
  - left. rewrite Haccepted. by rewrite <-(assoc_L (++)).
  - intros ?. by destruct Hsend.
Qed.
Lemma delivery_close_ok accepted sent received s :
  delivery_ok accepted sent received s → delivery_ok accepted sent received (delivery_close s).
Proof.
  intros [Hw Hpid Hnd Hdisj Hcap Hmax Halive Hrec Hacc Hsend Hfresh]. unfold delivery_close.
  repeat case_decide; split; simpl in *; try done; naive_solver.
Qed.
Lemma delivery_close_bounds s : same_bounds s (delivery_close s).
Proof. unfold delivery_close. by repeat case_decide. Qed.

(** What a refill keeps, and what it leaves in the queue. *)
Definition settled s : Prop :=
  ld_pending s ≠ [] → ld_sender s = true ∧ ch_receiver (ld_channel s) = true ∧
    ch_capacity (ld_channel s) ≤ nlen (ch_queue (ld_channel s)).
Definition seen_or_pending s : gset string := ld_delivered_ids s ∪ ld_pending_ids s.

Lemma refill_loop_ok accepted sent received pending s :
  delivery_ok accepted sent received (set_ld_pending pending s) →
  let s' := refill_loop pending s in
  (∃ sent', delivery_ok accepted sent' received s') ∧ same_bounds s s' ∧ settled s' ∧
  seen_or_pending s' ⊆ seen_or_pending s ∧
  (ch_receiver (ld_channel s) = true → ld_status s' = ld_status s ∧ ld_sender s' = ld_sender s).
Proof.
  revert sent s. induction pending as [|event rest IH]; intros sent s Hok; simpl.
  { split_and!; [eauto|done|by intros []|done|done]. }
  assert (ld_sender s = true) as Hsender.
  { apply not_false_is_true. intros Hf. by destruct (do_sender _ _ _ _ Hok Hf). }
  rewrite Hsender. destruct (try_send event (ld_channel s)) as [channel| |] eqn:Hts.
  - pose proof (send_pending _ _ _ _ _ _ _ Hok Hts) as (Hok' & Hb & Hs' & Hst & Hsub).
    destruct (IH _ _ Hok') as (Hex & Hb' & Hset & Hsub' & Hkeep).
    split_and!; [done| |done| |].
    + destruct Hb as (?&?&?), Hb' as (?&?&?). unfold same_bounds. split_and!; congruence.
    + etrans; [exact Hsub'|exact Hsub].
    + intros Hopen. destruct Hb as (_ & _ & Hr). rewrite Hr in Hkeep.
      destruct (Hkeep Hopen) as [-> ->]. rewrite Hst, Hs'. done.
  - apply try_send_Full in Hts as [Hopen Hfull].
    split_and!; [by exists sent|done| |done|done]. by intros _.
  - apply try_send_Closed in Hts as Hopen.
    set (st := match ld_status s with Active => Closed | st => st end).
    assert (delivery_ok accepted sent received
      (set_ld_pending_ids ∅ (set_ld_status st (set_ld_pending [] s)))) as Hwiped.
    { destruct Hok as [Hw Hpid Hnd Hdisj Hcap Hmax Halive Hrec Hacc Hsend Hfresh].
      split; simpl in *; try done.
      - constructor.
      - unfold nlen. simpl. lia.
      - intros Hr. congruence.
      - right. split_and!; [|done|by unfold st; destruct (ld_status s)].
        destruct Hacc as [->|(_ & ? & _)]; [by eexists|done].
      - intros ?. congruence. }
    apply delivery_close_ok in Hwiped.
    assert (delivery_close (set_ld_pending_ids ∅ (set_ld_status st (set_ld_pending [] s)))
      = delivery_close (set_ld_pending_ids ∅ (set_ld_pending [] s))) as Heq.
    2: { rewrite <-Heq. split_and!; [eauto| | | |congruence].
         - by unfold delivery_close, same_bounds; repeat case_decide.
         - intros Hne. destruct Hne. unfold delivery_close. by repeat case_decide.
         - unfold delivery_close, seen_or_pending. repeat case_decide; simpl; clear; set_solver. }
    clear. unfold st. destruct s as [? ? ? ? ? ? ? []]; reflexivity.
Qed.
Lemma refill_ok accepted sent received s :
  delivery_ok accepted sent received s →
  let s' := refill s in
  (∃ sent', delivery_ok accepted sent' received s') ∧ same_bounds s s' ∧ settled s' ∧
  seen_or_pending s' ⊆ seen_or_pending s ∧
  (ch_receiver (ld_channel s) = true → ld_status s' = ld_status s ∧
    (ld_status s = Active → ld_sender s' = ld_sender s)).
Proof.
  intros Hok. assert (set_ld_pending (ld_pending s) s = s) as Heq by by destruct s.
  rewrite <-Heq in Hok. apply refill_loop_ok in Hok.
  unfold refill. cbv zeta in *. destruct Hok as ((sent' & Hok) & Hb & Hset & Hsub & Hkeep).
  case_decide as Hdone.
  - destruct Hdone as [Hst Hp]. split_and!.
    + exists sent'. destruct Hok. by split.
    + done.
    + intros Hne. simpl in Hne. congruence.
    + done.
    + intros Hopen. destruct (Hkeep Hopen) as [Hst' _]. split; [exact Hst'|]. intros Ha. congruence.
  - split_and!; [eauto|done|done|done|]. intros Hopen. by destruct (Hkeep Hopen).
Qed.

(** An identifier that is neither delivered nor pending has not been accepted
    within the window. *)
Lemma fresh_window_snoc accepted sent received s event :
  delivery_ok accepted sent received s → delivery_contains (delivery_id event) s = false →
  ld_status s = Active →
  fresh_window (N.to_nat seen_window) (accepted ++ [event]).
Proof.
  intros Hok Hno Hst i j x y Hi Hj Hlt Heq.
  destruct Hok as [Hw Hpid _ _ _ _ _ _ Hacc _ Hfresh].
  destruct (decide (j < length accepted)%nat) as [Hj'|Hj'].
  { rewrite lookup_app_l in Hi, Hj by lia. by eapply Hfresh. }
  assert (j = length accepted) as ->.
  { apply lookup_lt_Some in Hj. rewrite length_app in Hj. simpl in Hj. lia. }
  rewrite lookup_app_r, Nat.sub_diag in Hj by done. injection Hj as <-.
  rewrite lookup_app_l in Hi by done.
  unfold delivery_contains in Hno. apply orb_false_iff in Hno as [Hdel Hpend].
  apply bool_decide_eq_false in Hdel, Hpend. rewrite <-Heq in Hdel, Hpend.
  destruct Hacc as [->|(_ & _ & ?)]; [|done].
  apply lookup_app_Some in Hi as [Hi|[Hge Hi]].
  - rewrite (window_of_elem _ _ _ _ _ Hw) in Hdel. unfold last_n in Hdel.
    rewrite length_fmap in Hdel. rewrite length_app.
    destruct (decide (length sent - N.to_nat seen_window ≤ i)%nat) as [Hin|]; [|lia].
    destruct Hdel. apply list_elem_of_lookup. exists (i - (length sent - N.to_nat seen_window))%nat.
    rewrite lookup_drop, list_lookup_fmap.
    replace (_ + _)%nat with i by lia. by rewrite Hi.
  - destruct Hpend. rewrite Hpid. apply elem_of_list_to_set, list_elem_of_fmap.
    exists x. split; [done|]. by eapply list_elem_of_lookup_2.
Qed.

Lemma mark_delivered_status id s : ld_status (mark_delivered id s) = ld_status s.
Proof. unfold mark_delivered. by destruct (window_trim _ _ _). Qed.
Lemma refill_lagged s : ld_status (refill s) = Lagged → ld_status s = Lagged.
Proof.
  assert (∀ pending s, ld_status (refill_loop pending s) = Lagged → ld_status s = Lagged) as Hloop.
  { clear s. induction pending as [|event rest IH]; intros s; simpl; [done|].
    destruct (ld_sender s); [|done]. destruct (try_send _ _); [|done|].
    - intros Hl%IH. by rewrite mark_delivered_status in Hl.
    - unfold delivery_close. by repeat case_decide. }
  unfold refill. case_decide; simpl; apply Hloop.
Qed.

Lemma enqueue_ok accepted sent received s event :
  delivery_ok accepted sent received s →
  let '(taken, s') := enqueue event s in
  (∃ sent', delivery_ok (if taken then accepted ++ [event] else accepted) sent' received s') ∧
  same_bounds s s' ∧
  (taken = true → ld_status s = Active ∧ delivery_contains (delivery_id event) s = false) ∧
  (ld_status s' = Lagged → ld_status s = Lagged ∨
    ch_capacity (ld_channel s') ≤ nlen (ch_queue (ld_channel s')) ∧
    nlen (ld_pending s') = ld_maximum_pending s').
Proof.
  intros Hok. unfold enqueue. case_decide as Hst; [split_and!; eauto; done|].
  destruct (delivery_contains (delivery_id event) s) eqn:Hno; [split_and!; eauto; done|].
  pose proof (fresh_window_snoc _ _ _ _ _ Hok Hno Hst) as Hfresh'.
  pose proof (refill_ok _ _ _ _ Hok) as ((sent' & Hok') & Hb & Hset & Hsub & Hkeep).
  assert (delivery_id event ∉ seen_or_pending (refill s)) as Hnew.
  { unfold delivery_contains in Hno. apply orb_false_iff in Hno as [Hd Hp].
    apply bool_decide_eq_false in Hd, Hp. intros Hin%Hsub. unfold seen_or_pending in Hin.
    apply elem_of_union in Hin. tauto. }
  apply not_elem_of_union in Hnew as [Hnew1 Hnew2].
  assert (ld_status (refill s) = Lagged → False) as Hlag.
  { intros Hl%refill_lagged. congruence. }
  destruct (ld_sender (refill s)) eqn:Hsender; [|split_and!; eauto; naive_solver].
  destruct (try_send event (ld_channel (refill s))) as [channel| |] eqn:Hts.
  - apply try_send_Ok in Hts as (Hopen & Hroom & ->).
    assert (ld_pending (refill s) = []) as Hempty.
    { destruct (ld_pending (refill s)) eqn:Hp; [done|].
      destruct Hset as (_ & _ & Hfull); [by rewrite Hp|]. lia. }
    destruct Hok' as [Hw Hpid Hnd Hdisj Hcap Hmax Halive Hrec Hacc Hsend _].
    destruct (Halive Hopen) as [Hsent Haccepted].
    rewrite Hempty, app_nil_r in Haccepted. subst accepted.
    destruct (mark_delivered_window _ (delivery_id event)
      (set_ld_channel (mkChannel (ch_capacity (ld_channel (refill s)))
        (ch_queue (ld_channel (refill s)) ++ [event]) true) (refill s)) Hw Hnew1)
      as (order & ids & -> & Hw' & Hids). simpl in *.
    split_and!; [|by unfold same_bounds in *; simpl; rewrite Hopen in Hb|done|done].
    exists (sent' ++ [event]). split; simpl; try done.
    + by rewrite fmap_app.
    + clear -Hdisj Hids Hnew2. set_solver.
    + rewrite nlen_app, nlen_cons, nlen_nil. lia.
    + intros _. rewrite Hempty, app_nil_r. split; [|done]. by rewrite Hsent, <-(assoc_L (++)).
    + by apply prefix_app_r.
    + left. by rewrite Hempty, app_nil_r.
  - apply try_send_Full in Hts as [Hopen Hfull]. case_decide as Hmaximum.
    + split_and!; [|done|done|by right]. exists sent'. destruct Hok'. split; try done.
      * destruct do_accepted0 as [?|(?&?&?)]; [by left|]. right. done.
      * intros ?. simpl in *. congruence.
    + destruct Hok' as [Hw Hpid Hnd Hdisj Hcap Hmax Halive Hrec Hacc Hsend _].
      destruct (Halive Hopen) as [Hsent Haccepted]. subst accepted.
      split_and!; [|done|done|done]. exists sent'. split; simpl; try done.
      * rewrite Hpid, fmap_app, list_to_set_app_L. clear. set_solver.
      * rewrite fmap_app. apply NoDup_app. split_and!; [done| |apply NoDup_singleton].
        intros id Hid ->%list_elem_of_singleton. apply Hnew2. rewrite Hpid.
        by apply elem_of_list_to_set.
      * clear -Hdisj Hnew1. set_solver.
      * rewrite nlen_app, nlen_cons, nlen_nil. lia.
      * intros _. by rewrite (assoc_L (++)).
      * left. by rewrite (assoc_L (++)).
      * congruence.
  - split_and!; [exists sent'; by apply delivery_close_ok| |done|].
    + pose proof (delivery_close_bounds (refill s)) as (?&?&?). destruct Hb as (?&?&?).
      unfold same_bounds. split_and!; congruence.
    + unfold delivery_close. intros Hl. left. exfalso. apply Hlag. revert Hl.
      by repeat case_decide.
Qed.

(** ** Runs *)
Inductive delivery_op : Type :=
  | DoEnqueue (event : QueryEvent)
  | DoRefill
  | DoTake
  | DoClose
  | DoDropReceiver.
(** The events accepted and received, and the state reached. [DoTake] is the
    receiver's own step, which needs a receiver. *)
Fixpoint run_delivery (ops : list delivery_op) s
    : list QueryEvent * list QueryEvent * LocalDelivery :=
  match ops with
  | [] => ([], [], s)
  | DoEnqueue event :: ops =>
      let '(taken, s) := enqueue event s in
      let '(accepted, received, s) := run_delivery ops s in
      (if taken then event :: accepted else accepted, received, s)
  | DoRefill :: ops => run_delivery ops (refill s)
  | DoTake :: ops =>
      match channel_try_recv s with
      | (RecvOk event, s) =>
          let '(accepted, received, s) := run_delivery ops s in (accepted, event :: received, s)
      | (_, s) => run_delivery ops s
      end
  | DoClose :: ops => run_delivery ops (delivery_close s)
  | DoDropReceiver :: ops => run_delivery ops (drop_receiver s)
  end.

Lemma take_ok accepted sent received s :
  delivery_ok accepted sent received s → ch_receiver (ld_channel s) = true →
  let '(r, s') := channel_try_recv s in
  delivery_ok accepted sent (received ++ match r with RecvOk event => [event] | _ => [] end) s' ∧
  same_bounds s s'.
Proof.
  intros Hok Hopen. unfold channel_try_recv. destruct (ch_queue (ld_channel s)) as [|event queue] eqn:Hq.
  { destruct (ld_sender s); rewrite app_nil_r; done. }
  split; [|done]. destruct Hok as [Hw Hpid Hnd Hdisj Hcap Hmax Halive Hrec Hacc Hsend Hfresh].
  destruct (Halive Hopen) as [Hsent Haccepted]. rewrite Hq in Hsent, Hcap.
  split; simpl; try done.
  - rewrite nlen_cons in Hcap. lia.
  - intros _. split; [|done]. by rewrite <-(assoc_L (++)).
  - exists queue. by rewrite Hsent, <-(assoc_L (++)).
Qed.
Lemma drop_receiver_ok accepted sent received s :
  delivery_ok accepted sent received s → delivery_ok accepted sent received (drop_receiver s).
Proof. intros []. split; simpl; try done. unfold nlen. simpl. lia. Qed.
(** A dropped receiver's channel is empty. *)
Definition dropped_empty s : Prop := ch_receiver (ld_channel s) = false → ch_queue (ld_channel s) = [].

Lemma dropped_take s : dropped_empty s → ch_receiver (ld_channel s) = false →
  ∃ r, channel_try_recv s = (r, s) ∧ ∀ event, r ≠ RecvOk event.
Proof.
  intros Hd Hr. unfold channel_try_recv. rewrite (Hd Hr). by destruct (ld_sender s); eexists.
Qed.
Lemma channel_dropped s s' :
  dropped_empty s → same_bounds s s' →
  (ch_receiver (ld_channel s) = false → ld_channel s' = ld_channel s) → dropped_empty s'.
Proof.
  intros Hd (_ & _ & Hr) Hsame Hclosed. rewrite Hr in Hclosed. by rewrite (Hsame Hclosed), Hd.
Qed.
Lemma refill_channel s :
  ch_receiver (ld_channel s) = false → ld_channel (refill s) = ld_channel s.
Proof.
  intros Hr. assert (∀ pending, ld_channel (refill_loop pending s) = ld_channel s) as Hloop.
  { intros [|event rest]; simpl; [done|]. destruct (ld_sender s); [|done].
    unfold try_send. rewrite Hr. unfold delivery_close. by repeat case_decide. }
  unfold refill. by case_decide; simpl.
Qed.
Lemma enqueue_channel event s :
  ch_receiver (ld_channel s) = false → ld_channel (enqueue event s).2 = ld_channel s.
Proof.
  intros Hr. unfold enqueue. case_decide; [done|]. destruct (delivery_contains _ _); [done|].
  pose proof (refill_channel s Hr) as Hc. destruct (ld_sender _); [|done].
  unfold try_send. rewrite Hc, Hr. simpl. unfold delivery_close. by repeat case_decide.
Qed.

Lemma run_delivery_ok ops accepted sent received s :
  delivery_ok accepted sent received s → dropped_empty s →
  let '(acc, rec, s') := run_delivery ops s in
  (∃ sent', delivery_ok (accepted ++ acc) sent' (received ++ rec) s') ∧
  ch_capacity (ld_channel s') = ch_capacity (ld_channel s) ∧
  ld_maximum_pending s' = ld_maximum_pending s.
Proof.
  revert accepted sent received s.
  induction ops as [|op ops IH]; intros accepted sent received s Hok Hd.
  { simpl. rewrite !app_nil_r. eauto. }
  destruct op as [event| | | |]; cbn [run_delivery].
  - pose proof (enqueue_ok _ _ _ _ event Hok) as Henq. pose proof (enqueue_channel event s) as Hch.
    destruct (enqueue event s) as [taken s1]. destruct Henq as ((sent1 & Hok1) & Hb & _).
    specialize (IH _ _ _ _ Hok1 (channel_dropped _ _ Hd Hb Hch)).
    destruct (run_delivery ops s1) as [[acc rec] s2]. destruct IH as (Hex & Hc & Hm).
    destruct Hb as (Hc1 & Hm1 & _). rewrite Hc1 in Hc. rewrite Hm1 in Hm.
    destruct taken; [|done]. by rewrite <-(assoc_L (++)) in Hex.
  - pose proof (refill_ok _ _ _ _ Hok) as ((sent1 & Hok1) & Hb & _).
    specialize (IH _ _ _ _ Hok1 (channel_dropped _ _ Hd Hb (refill_channel s))).
    destruct (run_delivery ops _) as [[acc rec] s2]. destruct IH as (Hex & Hc & Hm).
    destruct Hb as (Hc1 & Hm1 & _). by rewrite Hc1 in Hc; rewrite Hm1 in Hm.
  - destruct (ch_receiver (ld_channel s)) eqn:Hr.
    + pose proof (take_ok _ _ _ _ Hok Hr) as Htake.
      destruct (channel_try_recv s) as [r s1]. destruct Htake as [Hok1 Hb].
      assert (dropped_empty s1) as Hd1.
      { intros Hr1. destruct Hb as (_ & _ & Hr2). congruence. }
      specialize (IH _ _ _ _ Hok1 Hd1). destruct Hb as (Hc1 & Hm1 & _). rewrite Hc1, Hm1 in IH.
      destruct r; destruct (run_delivery ops s1) as [[acc rec] s2];
        [by rewrite <-(assoc_L (++)) in IH|by rewrite app_nil_r in IH..].
    + destruct (dropped_take s Hd Hr) as (r & -> & Hne). specialize (IH _ _ _ _ Hok Hd).
      destruct r as [event| |]; [by destruct (Hne event)|done..].
  - pose proof (delivery_close_bounds s) as Hb.
    specialize (IH _ _ _ _ (delivery_close_ok _ _ _ _ Hok)).
    destruct Hb as (Hc1 & Hm1 & Hr1). rewrite Hc1, Hm1 in IH. apply IH.
    eapply channel_dropped; [exact Hd|done|]. intros _. unfold delivery_close. by repeat case_decide.
  - by apply (IH _ _ _ _ (drop_receiver_ok _ _ _ _ Hok)).
Qed.

(** C30. Local delivery is in order and exactly once: while the application
    keeps its receiver, the events accepted so far are exactly those received,
    then those in the channel, then those waiting, whatever the interleaving of
    arrivals, refills, receives and closes; nothing is accepted twice within
    the last 4096 events; and both buffers stay within their bounds. *)
Theorem delivery_in_order_once capacity maximum ops :
  let '(accepted, received, s) := run_delivery ops (delivery_new capacity maximum) in
  (ch_receiver (ld_channel s) = true →
    accepted = received ++ ch_queue (ld_channel s) ++ ld_pending s) ∧
  received `prefix_of` accepted ∧
  fresh_window (N.to_nat FIPS_NOSTR_PUBSUB_MAX_SEEN_EVENT_IDS) accepted ∧
  nlen (ch_queue (ld_channel s)) ≤ capacity ∧ nlen (ld_pending s) ≤ maximum.
Proof.
  pose proof (run_delivery_ok ops [] [] [] _ (delivery_new_ok capacity maximum) ltac:(done)) as Hrun.
  destruct (run_delivery ops _) as [[accepted received] s].
  destruct Hrun as ((sent & Hok) & Hc & Hm). simpl in *. destruct Hok.
  rewrite <-Hc, <-Hm. split_and!; try done.
  - intros Hopen. destruct (do_alive0 Hopen) as [-> ->]. by rewrite (assoc_L (++)).
  - etrans; [exact do_received0|]. destruct do_accepted0 as [->|(? & _)]; [by eexists|done].
Qed.

(** ** Draining *)
Definition backlog s : list QueryEvent := ch_queue (ld_channel s) ++ ld_pending s.
Fixpoint drain (n : nat) s : list TryRecv * LocalDelivery :=
  match n with
  | O => ([], s)
  | S n =>
      let '(r, s) := subscription_try_recv s in
      let '(rs, s) := drain n s in (r :: rs, s)
  end.

Lemma refill_backlog accepted sent received s :
  delivery_ok accepted sent received s → ch_receiver (ld_channel s) = true →
  backlog (refill s) = backlog s.
Proof.
  intros Hok Hopen. pose proof (refill_ok _ _ _ _ Hok) as ((sent' & Hok') & (_ & _ & Hr) & _).
  destruct (do_alive _ _ _ _ Hok Hopen) as [Hs Ha]. rewrite <-Hr in Hopen.
  destruct (do_alive _ _ _ _ Hok' Hopen) as [Hs' Ha']. unfold backlog.
  apply (app_inv_head received). rewrite !(assoc_L (++)). congruence.
Qed.
Lemma try_recv_head accepted sent received s event rest :
  delivery_ok accepted sent received s → ch_receiver (ld_channel s) = true →
  0 < ch_capacity (ld_channel s) → backlog s = event :: rest →
  ∃ s', subscription_try_recv s = (RecvOk event, s') ∧
    (∃ sent', delivery_ok accepted sent' (received ++ [event]) s') ∧ same_bounds s s' ∧
    backlog s' = rest ∧ ld_status s' = ld_status s.
Proof.
  intros Hok Hopen Hcap Hback.
  pose proof (refill_backlog _ _ _ _ Hok Hopen) as Hback1. rewrite Hback in Hback1.
  pose proof (refill_ok _ _ _ _ Hok) as ((sent1 & Hok1) & Hb1 & Hset & _ & Hkeep).
  destruct (Hkeep Hopen) as [Hst1 _]. unfold subscription_try_recv.
  set (s1 := refill s) in *. destruct Hb1 as (Hc1 & Hm1 & Hr1).
  destruct (ch_queue (ld_channel s1)) as [|event' queue] eqn:Hq.
  { unfold backlog in Hback1. rewrite Hq in Hback1. simpl in Hback1.
    destruct Hset as (_ & _ & Hfull); [by rewrite Hback1|]. rewrite Hq, nlen_nil in Hfull. lia. }
  unfold backlog in Hback1. rewrite Hq in Hback1. injection Hback1 as -> Hrest.
  pose proof (take_ok _ _ _ _ Hok1 ltac:(congruence)) as Htake.
  unfold channel_try_recv in *. rewrite Hq in *.
  set (s2 := set_ld_channel _ s1) in *. destruct Htake as [Hok2 (Hc2 & Hm2 & Hr2)].
  pose proof (refill_ok _ _ _ _ Hok2) as ((sent3 & Hok3) & (Hc3 & Hm3 & Hr3) & _ & _ & Hkeep3).
  assert (ch_receiver (ld_channel s2) = true) as Hopen2 by congruence.
  destruct (Hkeep3 Hopen2) as [Hst3 _].
  exists (refill s2). split_and!; [done|eauto| | |].
  - unfold same_bounds. split_and!; congruence.
  - by rewrite (refill_backlog _ _ _ _ Hok2 Hopen2).
  - rewrite Hst3. exact Hst1.
Qed.
Lemma try_recv_empty accepted sent received s :
  delivery_ok accepted sent received s → ch_receiver (ld_channel s) = true → backlog s = [] →
  (subscription_try_recv s).1 = if decide (ld_status s = Active) then RecvEmpty else RecvDisconnected.
Proof.
  intros Hok Hopen Hback.
  pose proof (refill_backlog _ _ _ _ Hok Hopen) as Hback1. rewrite Hback in Hback1.
  apply app_nil in Hback1 as [Hq Hp].
  pose proof (refill_ok _ _ _ _ Hok) as (_ & _ & _ & _ & Hkeep).
  destruct (Hkeep Hopen) as [Hst Hsend].
  unfold subscription_try_recv, channel_try_recv. rewrite Hq. simpl. case_decide as Ha.
  - rewrite (Hsend Ha). destruct (ld_sender s) eqn:Hs; [done|].
    by destruct (do_sender _ _ _ _ Hok Hs).
  - revert Hst Hp. unfold refill. case_decide as Hdone; [done|]. intros Hst Hp.
    destruct Hdone. split; [by rewrite Hst|done].
Qed.
Lemma drain_ok accepted sent received s :
  delivery_ok accepted sent received s → ch_receiver (ld_channel s) = true →
  0 < ch_capacity (ld_channel s) →
  let '(rs, s') := drain (length (backlog s)) s in
  rs = RecvOk <$> backlog s ∧
  (subscription_try_recv s').1 = if decide (ld_status s = Active) then RecvEmpty else RecvDisconnected.
Proof.
  intros Hok Hopen Hcap. remember (backlog s) as l eqn:Hl. symmetry in Hl.
  revert sent received s Hok Hopen Hcap Hl.
  induction l as [|event rest IH]; intros sent received s Hok Hopen Hcap Hl; simpl.
  { split; [done|]. by eapply try_recv_empty. }
  destruct (try_recv_head _ _ _ _ _ _ Hok Hopen Hcap Hl)
    as (s1 & -> & (sent1 & Hok1) & (Hc & _ & Hr) & Hback & Hst).
  specialize (IH _ _ s1 Hok1 ltac:(congruence) ltac:(congruence) Hback).
  destruct (drain (length rest) s1) as [rs s2]. destruct IH as [-> Hlast].
  by rewrite Hst in Hlast.
Qed.

(** Nothing but the event enters the backlog. *)
Lemma refill_loop_incl pending s q :
  q ∈ backlog (refill_loop pending s) → q ∈ ch_queue (ld_channel s) ++ pending.
Proof.
  revert s. induction pending as [|event rest IH]; intros s; simpl.
  { unfold backlog. simpl. done. }
  destruct (ld_sender s); [|done]. destruct (try_send event (ld_channel s)) as [channel| |] eqn:Hts.
  - apply try_send_Ok in Hts as (_ & _ & ->). intros Hq%IH.
    unfold mark_delivered in Hq. destruct (window_trim _ _ _). simpl in Hq.
    by rewrite <-(assoc_L (++)) in Hq.
  - done.
  - unfold backlog, delivery_close. simpl. repeat case_decide; simpl; rewrite app_nil_r;
      intros ?; apply elem_of_app; by left.
Qed.
Lemma refill_incl s q : q ∈ backlog (refill s) → q ∈ backlog s.
Proof.
  intros Hq. apply (refill_loop_incl (ld_pending s)). revert Hq. unfold refill. by case_decide.
Qed.
Lemma delivery_close_backlog s : backlog (delivery_close s) = backlog s.
Proof. unfold backlog, delivery_close. by repeat case_decide. Qed.
Lemma enqueue_incl event s q : q ∈ backlog (enqueue event s).2 → q = event ∨ q ∈ backlog s.
Proof.
  unfold enqueue. case_decide; [by right|]. destruct (delivery_contains _ _); [by right|].
  destruct (ld_sender _); [|intros ?; right; by apply refill_incl].
  destruct (try_send event (ld_channel (refill s))) as [channel| |] eqn:Hts; simpl.
  - apply try_send_Ok in Hts as (_ & _ & ->). unfold mark_delivered.
    destruct (window_trim _ _ _). unfold backlog. simpl. intros Hq.
    assert (q = event ∨ q ∈ backlog (refill s)) as [->|?]; [|by left|right; by apply refill_incl].
    unfold backlog. set_solver.
  - case_decide; simpl; [intros ?; right; by apply refill_incl|].
    unfold backlog. simpl. rewrite (assoc_L (++)). intros [Hq|Hq]%elem_of_app.
    + right. by apply refill_incl.
    + left. by apply list_elem_of_singleton in Hq.
  - rewrite delivery_close_backlog. intros ?. right. by apply refill_incl.
Qed.
Lemma channel_try_recv_incl s q : q ∈ backlog (channel_try_recv s).2 → q ∈ backlog s.
Proof.
  unfold channel_try_recv, backlog. destruct (ch_queue (ld_channel s)) as [|x l] eqn:Hq; simpl.
  - by rewrite Hq.
  - intros ?. by right.
Qed.

(** What was accepted reaches the application: from any state a run leads
    to, closed and lagged ones included, receiving as many times as events
    remain yields exactly those events in order, and then the subscription
    reports that it is empty while open and ended once it is not. *)
Theorem delivery_drains capacity maximum ops :
  0 < capacity →
  let '(accepted, received, s) := run_delivery ops (delivery_new capacity maximum) in
  ch_receiver (ld_channel s) = true →
  let '(rs, s') := drain (length (backlog s)) s in
  rs = RecvOk <$> backlog s ∧ accepted = received ++ backlog s ∧
  (subscription_try_recv s').1 = if decide (ld_status s = Active) then RecvEmpty else RecvDisconnected.
Proof.
  intros Hcap.
  pose proof (run_delivery_ok ops [] [] [] _ (delivery_new_ok capacity maximum) ltac:(done)) as Hrun.
  destruct (run_delivery ops _) as [[accepted received] s].
  destruct Hrun as ((sent & Hok) & Hc & Hm). simpl in *. intros Hopen.
  pose proof (drain_ok _ _ _ _ Hok Hopen ltac:(by rewrite Hc)) as Hdrain.
  destruct (drain _ s) as [rs s']. destruct Hdrain as [-> Hlast]. split_and!; [done| |done].
  destruct (do_alive _ _ _ _ Hok Hopen) as [-> ->]. unfold backlog. by rewrite (assoc_L (++)).
Qed.

(** A subscription lags only when the channel and the queue behind it are
    both full; nothing else loses an event for an application that keeps its
    receiver and has not closed. *)
Theorem delivery_lag_is_overflow capacity maximum ops event :
  let '(_, _, s) := run_delivery ops (delivery_new capacity maximum) in
  ld_status s = Active → ch_receiver (ld_channel s) = true →
  let '(taken, s') := enqueue event s in
  taken = false →
  delivery_contains (delivery_id event) s = true ∨
  ld_status s' = Lagged ∧ nlen (ch_queue (ld_channel s')) = capacity ∧
    nlen (ld_pending s') = maximum.
Proof.
  pose proof (run_delivery_ok ops [] [] [] _ (delivery_new_ok capacity maximum) ltac:(done)) as Hrun.
  destruct (run_delivery ops _) as [[accepted received] s].
  destruct Hrun as ((sent & Hok) & Hc & Hm). simpl in *. intros Hst Hopen.
  pose proof (enqueue_ok _ _ _ _ event Hok) as Henq.
  pose proof (refill_ok _ _ _ _ Hok) as (_ & (_ & _ & Hr) & _ & _ & Hkeep).
  destruct (Hkeep Hopen) as [_ Hsend]. specialize (Hsend Hst).
  assert (ld_sender s = true) as Hs.
  { apply not_false_is_true. intros Hf. by destruct (do_sender _ _ _ _ Hok Hf). }
  revert Henq. unfold enqueue. rewrite decide_False by (by intros []).
  destruct (delivery_contains _ _); [by left|]. rewrite Hsend, Hs.
  unfold try_send. rewrite Hr, Hopen. case_decide; [done|].
  case_decide as Hmax; [|done]. intros ((sent' & Hok') & (Hc' & Hm' & _) & _) _. right.
  simpl in *. pose proof (do_capacity _ _ _ _ Hok') as Hcap. simpl in Hcap.
  split_and!; [done|lia|congruence].
Qed.
End delivery_spec.

(** ** Witness: a channel of one place, one more waiting. *)
Module DeliveryWitness.
#[local] Existing Instance Toy.toy_nostr.
Definition query_event (i : Toy.toy_id) : QueryEvent :=
  mkQueryEvent (mkVerifiedEvent (Toy.toy_body i)) (EventSources.fips_endpoint "npub1") 200.
(** A, B and A again are offered, then C overflows; A is received. *)
Definition ops : list delivery_op :=
  [DoEnqueue (query_event Toy.IdA); DoEnqueue (query_event Toy.IdB);
   DoEnqueue (query_event Toy.IdA); DoEnqueue (query_event Toy.IdC); DoTake; DoRefill].
Definition reached : list QueryEvent * list QueryEvent * LocalDelivery :=
  run_delivery ops (delivery_new 1 1).
Example reached_lagged :
  reached.1 = ([query_event Toy.IdA; query_event Toy.IdB], [query_event Toy.IdA]) ∧
  ld_status reached.2 = Lagged ∧ backlog reached.2 = [query_event Toy.IdB].
Proof. split_and!; reflexivity. Qed.
Lemma reached_open : ch_receiver (ld_channel reached.2) = true.
Proof. reflexivity. Qed.
Lemma delivery_drains_witness :
  let '(rs, s') := drain (length (backlog reached.2)) reached.2 in
  rs = RecvOk <$> backlog reached.2 ∧ reached.1.1 = reached.1.2 ++ backlog reached.2 ∧
  (subscription_try_recv s').1
    = if decide (ld_status reached.2 = Active) then RecvEmpty else RecvDisconnected.
Proof.
  pose proof (delivery_drains 1 1 ops ltac:(lia)) as H. pose proof reached_open as Hopen.
  unfold reached in *. destruct (run_delivery ops (delivery_new 1 1)) as [[a r] s].
  exact (H Hopen).
Defined.
End DeliveryWitness.
