(* ===== verification/FipsRecent.v ===== *)
(** * Recent events of the FIPS client

    [RecentEvents] of crates/nostr-pubsub-fips/src/recent_events.rs: the last
    few bodies, for replay, and the longer window of identifiers that were
    accepted. *)

From S2P Require Export FipsDelivery Wire.

Section recent.
Context `{!Nostr, J : !WireJson _}.

(** ** The state and its operations *)
Record CachedEvent : Type := mkCached {
  ce_event : VerifiedEvent;
  ce_source : EventSource;
  ce_hop_limit : N;
}.
Record RecentEvents : Type := mkRecent {
  re_max_payload_events : N;
  re_max_seen_ids : N;
  re_event_ids : gset string;
  re_event_id_order : list string;
  re_entries : list CachedEvent;
}.
Definition recent_new (max_payload_events max_seen_ids : N) : RecentEvents :=
  mkRecent max_payload_events max_seen_ids ∅ [] [].

Definition event_key (event : VerifiedEvent) : string :=
  event_id_to_hex (event_id (as_event event)).

(** [while self.entries.len() > self.max_payload_events { pop_front }]. *)
Fixpoint trim_payloads {A} (maximum : N) (entries : list A) : list A :=
  match entries with
  | [] => []
  | _ :: rest => if decide (maximum < nlen entries) then trim_payloads maximum rest else entries
  end.

(** [while self.event_ids.len() > self.max_seen_ids]. *)
Fixpoint trim_seen (maximum : N) (order : list string) (ids : gset string)
    : list string * gset string :=
  if decide (maximum < ssize ids) then
    match order with
    | [] => ([], ids)
    | removed :: order => trim_seen maximum order (ids ∖ {[removed]})
    end
  else (order, ids).

Definition recent_insert (event : VerifiedEvent) (source : EventSource) (hop_limit : N)
    (r : RecentEvents) : bool * RecentEvents :=
  let id := event_key event in
  if decide (id ∈ re_event_ids r) then (false, r)
  else
    let entries :=
      trim_payloads (re_max_payload_events r) (re_entries r ++ [mkCached event source hop_limit]) in
    let '(order, ids) :=
      trim_seen (re_max_seen_ids r) (re_event_id_order r ++ [id]) ({[id]} ∪ re_event_ids r) in
    (true, mkRecent (re_max_payload_events r) (re_max_seen_ids r) ids order entries).

Definition recent_contains (event_id : string) (r : RecentEvents) : bool :=
  bool_decide (event_id ∈ re_event_ids r).
Definition recent_event (key : string) (r : RecentEvents) : option VerifiedEvent :=
  match event_id_from_hex key with
  | Ok id => ce_event <$> find (λ c, bool_decide (event_id (as_event (ce_event c)) = id)) (re_entries r)
  | Err _ => None
  end.
Definition insert_for_publish (event : VerifiedEvent) (source : EventSource) (hop_limit : N)
    (r : RecentEvents) : bool * RecentEvents :=
  let id := event_key event in
  let r :=
    if decide (recent_event id r = None ∧ id ∈ re_event_ids r)
    then mkRecent (re_max_payload_events r) (re_max_seen_ids r) (re_event_ids r ∖ {[id]})
           (filter (λ seen, seen ≠ id) (re_event_id_order r)) (re_entries r)
    else r in
  recent_insert event source hop_limit r.
Definition recent_matching (filters : list Filter) (r : RecentEvents) : list CachedEvent :=
  filter (λ c, from_filters filters (ce_event c) = Subscribed) (re_entries r).

(** ** Specification

    The accepted events, oldest first, as many as are remembered: the bodies
    are the last of them. *)
Definition cached_key (c : CachedEvent) : string := event_key (ce_event c).
Definition spec_insert (max_seen_ids : N) (c : CachedEvent) (l : list CachedEvent)
    : bool * list CachedEvent :=
  if decide (cached_key c ∈ cached_key <$> l) then (false, l)
  else (true, last_n (N.to_nat max_seen_ids) (l ++ [c])).
Definition spec_publish (max_payload_events max_seen_ids : N) (c : CachedEvent) (l : list CachedEvent)
    : bool * list CachedEvent :=
  if decide (cached_key c ∈ cached_key <$> last_n (N.to_nat max_payload_events) l) then (false, l)
  else spec_insert max_seen_ids c (filter (λ x, cached_key x ≠ cached_key c) l).

Record recent_ok (r : RecentEvents) (l : list CachedEvent) : Prop := {
  ro_order : re_event_id_order r = cached_key <$> l;
  ro_ids : re_event_ids r = list_to_set (cached_key <$> l);
  ro_nodup : NoDup (cached_key <$> l);
  ro_entries : re_entries r = last_n (N.to_nat (re_max_payload_events r)) l;
  ro_seen : nlen l ≤ re_max_seen_ids r;
  ro_bounds : re_max_payload_events r ≤ re_max_seen_ids r;
}.

Lemma recent_new_ok max_payload_events max_seen_ids :
  max_payload_events ≤ max_seen_ids → recent_ok (recent_new max_payload_events max_seen_ids) [].
Proof. intros ?. split; simpl; try done; [constructor|unfold nlen; simpl; lia]. Qed.

Lemma trim_payloads_last {A} maximum (l : list A) :
  trim_payloads maximum l = last_n (N.to_nat maximum) l.
Proof.
  induction l as [|x l IH]; [done|]. cbn [trim_payloads]. case_decide as Hlen.
  - rewrite IH. unfold last_n, nlen in *. simpl in *.
    by replace (S (length l) - N.to_nat maximum)%nat with (S (length l - N.to_nat maximum)) by lia.
  - rewrite last_n_all; [done|]. unfold nlen in Hlen. lia.
Qed.
Lemma last_n_elem {A} n (l : list A) x : x ∈ last_n n l → x ∈ l.
Proof. unfold last_n. intros Hx. rewrite <-(take_drop (length l - n) l). apply elem_of_app. by right. Qed.
Lemma trim_seen_window maximum order ids :
  NoDup order → ids = list_to_set order → trim_seen maximum order ids = window_trim maximum order ids.
Proof.
  revert ids. induction order as [|x order IH]; intros ids Hnd ->.
  { simpl. by case_decide. }
  cbn [trim_seen window_trim].
  assert (ssize (list_to_set (x :: order) : gset string) = nlen (x :: order)) as ->.
  { unfold ssize, nlen. by rewrite size_list_to_set. }
  case_decide; [|done]. apply NoDup_cons in Hnd as [Hx Hnd]. apply IH; [done|].
  apply set_eq. intros y. rewrite elem_of_difference, !elem_of_list_to_set, elem_of_cons. set_solver.
Qed.
Lemma last_n_last_n {A} n m (l : list A) : (n ≤ m)%nat → last_n n (last_n m l) = last_n n l.
Proof.
  intros Hle. unfold last_n. rewrite length_drop, drop_drop. f_equal. lia.
Qed.
Lemma fmap_last_n {A B} (f : A → B) n l : f <$> last_n n l = last_n n (f <$> l).
Proof. unfold last_n. by rewrite fmap_drop, length_fmap. Qed.
Lemma last_n_suffix {A} n (l : list A) : l = take (length l - n) l ++ last_n n l.
Proof. symmetry. apply take_drop. Qed.
Lemma last_n_filter {A} (P : A → Prop) `{!∀ x, Decision (P x)} n (l : list A) :
  (∀ x, x ∈ last_n n l → P x) → last_n n (filter P l) = last_n n l.
Proof.
  intros HP. rewrite (last_n_suffix n l) at 1. rewrite filter_app, (filter_all P (last_n n l)) by done.
  destruct (decide (length l ≤ n)%nat) as [Hle|Hgt].
  - replace (length l - n)%nat with 0%nat by lia. simpl. rewrite last_n_all; [done|].
    by rewrite last_n_all.
  - assert (length (last_n n l) = n) as Hn by (unfold last_n; rewrite length_drop; lia).
    unfold last_n at 1. rewrite length_app, Hn, drop_app_le by lia.
    replace (length _ + n - n)%nat with (length (filter P (take (length l - n) l))) by lia.
    by rewrite drop_all.
Qed.

Lemma recent_insert_ok event source hop_limit r l :
  recent_ok r l →
  let '(fresh, r') := recent_insert event source hop_limit r in
  let '(fresh', l') := spec_insert (re_max_seen_ids r) (mkCached event source hop_limit) l in
  fresh = fresh' ∧ recent_ok r' l' ∧ re_max_payload_events r' = re_max_payload_events r ∧
  re_max_seen_ids r' = re_max_seen_ids r.
Proof.
  intros [Ho Hids Hnd He Hs Hb]. unfold recent_insert, spec_insert.
  change (cached_key (mkCached event source hop_limit)) with (event_key event).
  set (id := event_key event). set (c := mkCached event source hop_limit).
  assert (id ∈ re_event_ids r ↔ id ∈ cached_key <$> l) as Hmem
    by (by rewrite Hids, elem_of_list_to_set).
  case_decide as Hin; [rewrite decide_True by tauto; done|]. rewrite decide_False by tauto.
  assert (window_of (re_max_seen_ids r) (cached_key <$> l) (re_event_id_order r) (re_event_ids r)) as Hw.
  { split; [|by rewrite Ho|by rewrite Hids, Ho]. rewrite Ho, last_n_all; [done|].
    rewrite length_fmap. unfold nlen in Hs. lia. }
  pose proof (window_of_push _ _ _ _ _ Hw Hin) as Hpush.
  rewrite trim_seen_window; cycle 1.
  { rewrite Ho. apply NoDup_app. split_and!; [done| |apply NoDup_singleton].
    intros x Hx ->%list_elem_of_singleton. tauto. }
  { rewrite list_to_set_app_L, Hids, Ho. clear. set_solver. }
  destruct (window_trim _ _ _) as [order ids]. destruct Hpush as [-> Hnd' ->].
  assert ((cached_key <$> l) ++ [id] = cached_key <$> l ++ [c]) as Heq by by rewrite fmap_app.
  rewrite Heq, <-fmap_last_n in *.
  split_and!; try done. split; simpl; try done.
  - rewrite He, trim_payloads_last, last_n_snoc. symmetry. apply last_n_last_n. lia.
  - pose proof (last_n_length (N.to_nat (re_max_seen_ids r)) (l ++ [c])). unfold nlen. lia.
Qed.

(** Whatever the limits are, the bodies are old ones and the new one, and
    within their bound. *)
Definition entries_grow (event : VerifiedEvent) (source : EventSource) (hop_limit : N)
    (r r' : RecentEvents) : Prop :=
  re_max_payload_events r' = re_max_payload_events r ∧
  (∀ c, c ∈ re_entries r' → c ∈ re_entries r ∨ c = mkCached event source hop_limit) ∧
  (nlen (re_entries r) ≤ re_max_payload_events r → nlen (re_entries r') ≤ re_max_payload_events r).
Lemma recent_insert_grow event source hop_limit r :
  entries_grow event source hop_limit r (recent_insert event source hop_limit r).2.
Proof.
  unfold recent_insert, entries_grow. case_decide; [split_and!; [done|by left|done]|].
  destruct (trim_seen _ _ _) as [order ids]. simpl. rewrite trim_payloads_last. split_and!; [done| |].
  - intros c Hc%last_n_elem. set_solver.
  - intros _. pose proof (last_n_length (N.to_nat (re_max_payload_events r))
      (re_entries r ++ [mkCached event source hop_limit])). unfold nlen. lia.
Qed.
Lemma insert_for_publish_grow event source hop_limit r :
  entries_grow event source hop_limit r (insert_for_publish event source hop_limit r).2.
Proof.
  unfold insert_for_publish. destruct (decide _); [|apply recent_insert_grow].
  exact (recent_insert_grow event source hop_limit (mkRecent _ _ _ _ (re_entries r))).
Qed.

Context `{!NostrLaws _, !WireJsonLaws J}.

(** A lookup finds the body that carries the identifier. *)
Lemma recent_event_spec id r l :
  recent_ok r l →
  recent_event (event_id_to_hex id) r
    = ce_event <$> find (λ c, bool_decide (cached_key c = event_id_to_hex id))
        (last_n (N.to_nat (re_max_payload_events r)) l).
Proof.
  intros Hok. unfold recent_event. rewrite event_id_hex_roundtrip, (ro_entries _ _ Hok).
  f_equal. induction (last_n _ l) as [|c l' IH]; [done|]. simpl.
  assert (bool_decide (event_id (as_event (ce_event c)) = id)
    = bool_decide (cached_key c = event_id_to_hex id)) as ->; [|by rewrite IH].
  apply bool_decide_ext. unfold cached_key, event_key. split; [by intros ->|].
  apply (inj event_id_to_hex).
Qed.
Lemma find_None_cached key (l : list CachedEvent) :
  find (λ c, bool_decide (cached_key c = key)) l = None ↔ key ∉ cached_key <$> l.
Proof.
  induction l as [|c l IH]; simpl.
  { split; [intros _; apply not_elem_of_nil|done]. }
  rewrite elem_of_cons. case_bool_decide; [|rewrite IH]; naive_solver.
Qed.
Lemma insert_for_publish_ok event source hop_limit r l :
  recent_ok r l →
  let '(fresh, r') := insert_for_publish event source hop_limit r in
  let '(fresh', l') := spec_publish (re_max_payload_events r) (re_max_seen_ids r)
    (mkCached event source hop_limit) l in
  fresh = fresh' ∧ recent_ok r' l' ∧ re_max_payload_events r' = re_max_payload_events r ∧
  re_max_seen_ids r' = re_max_seen_ids r.
Proof.
  intros Hok. unfold insert_for_publish, spec_publish.
  change (cached_key (mkCached event source hop_limit)) with (event_key event).
  pose proof (recent_event_spec (event_id (as_event event)) r l Hok) as Hev.
  fold (event_key event) in Hev. set (id := event_key event) in *.
  assert (recent_event id r = None ↔
    id ∉ cached_key <$> last_n (N.to_nat (re_max_payload_events r)) l) as Hnone.
  { rewrite Hev, fmap_None. apply find_None_cached. }
  destruct (decide (id ∈ cached_key <$> last_n _ l)) as [Hin|Hout].
  { rewrite decide_False by tauto. unfold recent_insert. rewrite decide_True; [done|].
    rewrite (ro_ids _ _ Hok). apply elem_of_list_to_set. fold id.
    rewrite (last_n_suffix (N.to_nat (re_max_payload_events r)) l), fmap_app. set_solver. }
  set (l1 := filter (λ x, cached_key x ≠ id) l).
  set (r1 := if decide _ then _ else r).
  assert (recent_ok r1 l1 ∧ re_max_payload_events r1 = re_max_payload_events r ∧
    re_max_seen_ids r1 = re_max_seen_ids r) as (Hok1 & Hp & Hs).
  2: { pose proof (recent_insert_ok event source hop_limit r1 l1 Hok1) as Hins.
       rewrite <-Hs. destruct (recent_insert _ _ _ _) as [fresh r'], (spec_insert _ _ _) as [fresh' l'].
       rewrite <-Hp. exact Hins. }
  destruct Hok as [Ho Hids Hnd He Hseen Hb].
  assert (filter (λ seen, seen ≠ id) (cached_key <$> l) = cached_key <$> l1) as Hfilter.
  { unfold l1. clear. induction l as [|c l IH]; [done|]. rewrite fmap_cons, !filter_cons, IH.
    by case_decide. }
  unfold r1. case_decide as Hcase; (split; [|done]).
  - split; simpl; [by rewrite Ho| | | | |done].
    + rewrite Hids. apply set_eq. intros x.
      rewrite elem_of_difference, !elem_of_list_to_set, <-Hfilter, list_elem_of_filter. set_solver.
    + by apply NoDup_fmap_filter.
    + rewrite He. symmetry. apply last_n_filter. intros c Hc Heq. apply Hout.
      rewrite <-Heq. by apply list_elem_of_fmap_2.
    + etrans; [|exact Hseen]. unfold nlen, l1.
      pose proof (length_filter (λ x, cached_key x ≠ id) l). lia.
  - assert (id ∉ cached_key <$> l) as Hnew.
    { rewrite <-(elem_of_list_to_set (C:=gset string)), <-Hids. tauto. }
    unfold l1. rewrite filter_all; [by split|]. intros c Hc Heq. apply Hnew. rewrite <-Heq.
    by apply list_elem_of_fmap_2.
Qed.

(** ** Runs *)
Inductive recent_op : Type :=
  | RecentInsert (c : CachedEvent)
  | RecentPublish (c : CachedEvent).
Fixpoint run_recent (ops : list recent_op) (r : RecentEvents) : list bool * RecentEvents :=
  match ops with
  | [] => ([], r)
  | op :: ops =>
      let '(fresh, r) :=
        match op with
        | RecentInsert c => recent_insert (ce_event c) (ce_source c) (ce_hop_limit c) r
        | RecentPublish c => insert_for_publish (ce_event c) (ce_source c) (ce_hop_limit c) r
        end in
      let '(answers, r) := run_recent ops r in (fresh :: answers, r)
  end.
Fixpoint run_recent_spec (max_payload_events max_seen_ids : N) (ops : list recent_op)
    (l : list CachedEvent) : list bool * list CachedEvent :=
  match ops with
  | [] => ([], l)
  | op :: ops =>
      let '(fresh, l) :=
        match op with
        | RecentInsert c => spec_insert max_seen_ids c l
        | RecentPublish c => spec_publish max_payload_events max_seen_ids c l
        end in
      let '(answers, l) := run_recent_spec max_payload_events max_seen_ids ops l in
      (fresh :: answers, l)
  end.
Lemma run_recent_ok ops r l :
  recent_ok r l →
  let '(answers, r') := run_recent ops r in
  let '(answers', l') := run_recent_spec (re_max_payload_events r) (re_max_seen_ids r) ops l in
  answers = answers' ∧ recent_ok r' l' ∧ re_max_payload_events r' = re_max_payload_events r ∧
  re_max_seen_ids r' = re_max_seen_ids r.
Proof.
  revert r l. induction ops as [|op ops IH]; intros r l Hok; [done|]. cbn [run_recent run_recent_spec].
  assert (let '(fresh, r1) := match op with
      | RecentInsert c => recent_insert (ce_event c) (ce_source c) (ce_hop_limit c) r
      | RecentPublish c => insert_for_publish (ce_event c) (ce_source c) (ce_hop_limit c) r end in
    let '(fresh', l1) := match op with
      | RecentInsert c => spec_insert (re_max_seen_ids r) c l
      | RecentPublish c => spec_publish (re_max_payload_events r) (re_max_seen_ids r) c l end in
    fresh = fresh' ∧ recent_ok r1 l1 ∧ re_max_payload_events r1 = re_max_payload_events r ∧
    re_max_seen_ids r1 = re_max_seen_ids r) as Hstep.
  { destruct op as [[e src h]|[e src h]];
      [by apply recent_insert_ok|by apply insert_for_publish_ok]. }
  destruct (match op with RecentInsert c => recent_insert _ _ _ r | _ => _ end) as [fresh r1].
  destruct (match op with RecentInsert c => spec_insert _ c l | _ => _ end) as [fresh' l1].
  destruct Hstep as (-> & Hok1 & Hp & Hs). specialize (IH r1 l1 Hok1). rewrite Hp, Hs in IH.
  destruct (run_recent ops r1) as [answers r2], (run_recent_spec _ _ ops l1) as [answers' l2].
  by destruct IH as (-> & ? & -> & ->).
Qed.

(** The recent events are the accepted ones in order: what is accepted
    anew depends only on the identifiers remembered (for a publication, on the
    bodies), the bodies held are the last of them, and a lookup by identifier
    finds the body that carries it. *)
Theorem recent_events_refine max_payload_events max_seen_ids ops :
  max_payload_events ≤ max_seen_ids →
  let '(answers, r) := run_recent ops (recent_new max_payload_events max_seen_ids) in
  let '(answers', l) := run_recent_spec max_payload_events max_seen_ids ops [] in
  answers = answers' ∧ nlen l ≤ max_seen_ids ∧ NoDup (cached_key <$> l) ∧
  re_entries r = last_n (N.to_nat max_payload_events) l ∧
  (∀ key, recent_contains key r = bool_decide (key ∈ cached_key <$> l)) ∧
  (∀ id, recent_event (event_id_to_hex id) r
    = ce_event <$> find (λ c, bool_decide (cached_key c = event_id_to_hex id)) (re_entries r)).
Proof.
  intros Hb. pose proof (run_recent_ok ops _ [] (recent_new_ok _ _ Hb)) as Hrun.
  destruct (run_recent ops _) as [answers r]. simpl in Hrun.
  destruct (run_recent_spec _ _ ops []) as [answers' l]. destruct Hrun as (-> & Hok & Hp & Hs).
  split_and!; [done| |apply (ro_nodup _ _ Hok)|by rewrite (ro_entries _ _ Hok), Hp| |].
  - rewrite <-Hs. apply (ro_seen _ _ Hok).
  - intros key. unfold recent_contains. apply bool_decide_ext.
    by rewrite (ro_ids _ _ Hok), elem_of_list_to_set.
  - intros id. by rewrite (recent_event_spec _ _ _ Hok), (ro_entries _ _ Hok).
Qed.
End recent.

(** ** Witness: two identifiers remembered, one body held. *)
Module RecentWitness.
#[local] Existing Instance Toy.toy_nostr.
#[local] Existing Instance Toy.toy_laws.
#[local] Existing Instance ToyWire.toy_wire.
#[local] Existing Instance ToyWire.toy_wire_laws.
Definition cached (i : Toy.toy_id) : CachedEvent :=
  mkCached (mkVerifiedEvent (Toy.toy_body i)) (EventSources.fips_endpoint "npub1") 3.
(** A again is a duplicate; publishing it after its body went is not. *)
Definition ops : list recent_op :=
  [RecentInsert (cached Toy.IdA); RecentInsert (cached Toy.IdB); RecentInsert (cached Toy.IdA);
   RecentPublish (cached Toy.IdA); RecentPublish (cached Toy.IdA)].
Lemma recent_events_refine_witness :
  let '(answers, r) := run_recent ops (recent_new 1 2) in
  let '(answers', l) := run_recent_spec 1 2 ops [] in
  answers = [true; true; false; true; false] ∧ answers = answers' ∧ nlen l ≤ 2 ∧
  NoDup (cached_key <$> l) ∧ re_entries r = last_n 1 l ∧
  (∀ key, recent_contains key r = bool_decide (key ∈ cached_key <$> l)) ∧
  (∀ id, recent_event (event_id_to_hex id) r
    = ce_event <$> find (λ c, bool_decide (cached_key c = event_id_to_hex id)) (re_entries r)).
Proof.
  pose proof (recent_events_refine 1 2 ops ltac:(lia)) as H.
  assert ((run_recent ops (recent_new 1 2)).1 = [true; true; false; true; false]) as Ha
    by reflexivity.
  destruct (run_recent ops (recent_new 1 2)) as [answers r].
  destruct (run_recent_spec 1 2 ops []) as [answers' l]. exact (conj Ha H).
Defined.
End RecentWitness.
