(* ===== verification/FipsPending.v ===== *)
(** * Outstanding requests of the FIPS client

    crates/nostr-pubsub-fips/src/pending_wants.rs: the bodies that were asked
    for, the provider each was asked from, the others that offered it, and when
    to ask again. *)

From S2P Require Export FipsRecent.

(** ** The state *)
Record InventoryProvider : Set := mkProvider {
  ip_peer_npub : string;
  ip_subscription_ids : list string;
  ip_requested : bool;
}.
Record PendingInventory : Set := mkPending {
  pi_selected : InventoryProvider;
  pi_alternatives : list InventoryProvider;
  pi_event_kind : N;
  pi_payload_bytes : N;
  pi_hop_limit : N;
  pi_requested_at_ms : N;
  pi_retry_count : N;
}.
Definition pi_providers (p : PendingInventory) : list InventoryProvider :=
  pi_selected p :: pi_alternatives p.
Definition set_pi_providers (selected : InventoryProvider) (alternatives : list InventoryProvider)
    (p : PendingInventory) : PendingInventory :=
  mkPending selected alternatives (pi_event_kind p) (pi_payload_bytes p) (pi_hop_limit p)
    (pi_requested_at_ms p) (pi_retry_count p).
Definition set_pi_schedule (requested_at_ms retry_count : N) (p : PendingInventory)
    : PendingInventory :=
  mkPending (pi_selected p) (pi_alternatives p) (pi_event_kind p) (pi_payload_bytes p)
    (pi_hop_limit p) requested_at_ms retry_count.

Definition requested_provider (peer_npub : string) (p : PendingInventory)
    : option InventoryProvider :=
  find (λ provider, ip_requested provider && bool_decide (ip_peer_npub provider = peer_npub))
    (pi_providers p).

Definition MAX_WANT_RETRIES : N := 5.

Record PendingWantRetryBatch : Set := mkRetryBatch {
  rb_retries : list (string * InventoryProvider);
  rb_expired_providers : list InventoryProvider;
  rb_expired_event_count : N;
}.
Record PendingWants : Type := mkWants {
  pw_max_events : N;
  pw_max_alternatives : N;
  pw_entries : gmap string PendingInventory;
  pw_order : list string;
}.
Definition pending_new (max_events max_alternatives : N) : PendingWants :=
  mkWants max_events max_alternatives ∅ [].
Definition set_pw_entries v (w : PendingWants) : PendingWants :=
  mkWants (pw_max_events w) (pw_max_alternatives w) v (pw_order w).

(** ** The operations *)

(** [extend; sort_unstable; dedup]. *)
Definition merge_subscription_ids (existing incoming : list string) : list string :=
  dedup_adjacent (sort_by String.compare (existing ++ incoming)).
Definition set_ip_subscription_ids (ids : list string) (p : InventoryProvider) : InventoryProvider :=
  mkProvider (ip_peer_npub p) ids (ip_requested p).

(** [alternatives.iter_mut().find(|existing| existing.peer_npub == ..)]; [None]
    when there is none. *)
Fixpoint merge_alternative (provider : InventoryProvider) (l : list InventoryProvider)
    : option (list InventoryProvider) :=
  match l with
  | [] => None
  | existing :: l =>
      if decide (ip_peer_npub existing = ip_peer_npub provider) then
        Some (set_ip_subscription_ids
          (merge_subscription_ids (ip_subscription_ids existing) (ip_subscription_ids provider))
          existing :: l)
      else cons existing <$> merge_alternative provider l
  end.
(** A further offer of an event that is pending. *)
Definition merge_provider (max_alternatives : N) (incoming pending : PendingInventory)
    : PendingInventory :=
  if decide (pi_event_kind pending ≠ pi_event_kind incoming ∨
             pi_payload_bytes pending ≠ pi_payload_bytes incoming) then pending
  else
    let provider := pi_selected incoming in
    let selected := pi_selected pending in
    if decide (ip_peer_npub provider = ip_peer_npub selected) then
      set_pi_providers (set_ip_subscription_ids
        (merge_subscription_ids (ip_subscription_ids selected) (ip_subscription_ids provider))
        selected) (pi_alternatives pending) pending
    else
      match merge_alternative provider (pi_alternatives pending) with
      | Some alternatives => set_pi_providers selected alternatives pending
      | None =>
          if decide (nlen (pi_alternatives pending) < max_alternatives) then
            set_pi_providers selected
              (pi_alternatives pending ++
                [mkProvider (ip_peer_npub provider)
                   (dedup_adjacent (sort_by String.compare (ip_subscription_ids provider))) false])
              pending
          else pending
      end.
(** [while self.entries.len() > self.max_events]. *)
Definition evict_pending (max_events : N) (order : list string) (entries : gmap string PendingInventory)
    : list string * gmap string PendingInventory :=
  Fifo.evict_oldest (max_events + 1) order entries.
Definition pending_insert (event_id : string) (incoming : PendingInventory) (w : PendingWants)
    : bool * PendingWants :=
  match pw_entries w !! event_id with
  | Some pending =>
      (false, set_pw_entries
        (<[event_id := merge_provider (pw_max_alternatives w) incoming pending]> (pw_entries w)) w)
  | None =>
      let '(order, entries) :=
        evict_pending (pw_max_events w) (pw_order w ++ [event_id])
          (<[event_id := incoming]> (pw_entries w)) in
      (true, mkWants (pw_max_events w) (pw_max_alternatives w) entries order)
  end.

Definition take_matching (event_id source_npub subscription_id : string)
    (event_kind payload_bytes : N) (w : PendingWants) : option PendingInventory * PendingWants :=
  match (pending ← pw_entries w !! event_id;
         provider ← requested_provider source_npub pending; Some (pending, provider)) with
  | None => (None, w)
  | Some (pending, provider) =>
      if decide (subscription_id ∉ ip_subscription_ids provider ∨
                 pi_event_kind pending ≠ event_kind ∨ pi_payload_bytes pending ≠ payload_bytes)
      then (None, w)
      else (Some pending,
            mkWants (pw_max_events w) (pw_max_alternatives w) (delete event_id (pw_entries w))
              (filter (λ candidate, candidate ≠ event_id) (pw_order w)))
  end.

(** [entries.retain(..)], whose closure may change the entry it keeps, and then
    [order.retain(|id| entries.contains_key(id))]. *)
Definition pending_retain (f : string → PendingInventory → option PendingInventory)
    (w : PendingWants) : PendingWants :=
  let entries := map_imap f (pw_entries w) in
  mkWants (pw_max_events w) (pw_max_alternatives w) entries
    (filter (λ event_id, is_Some (entries !! event_id)) (pw_order w)).

Definition without_subscription (subscription_id : string) (p : InventoryProvider)
    : InventoryProvider :=
  set_ip_subscription_ids
    (filter (λ candidate, candidate ≠ subscription_id) (ip_subscription_ids p)) p.
Definition retain_subscription (subscription_id : string) (pending : PendingInventory)
    : option PendingInventory :=
  let selected := without_subscription subscription_id (pi_selected pending) in
  let alternatives := filter (λ provider, ip_subscription_ids provider ≠ [])
    (without_subscription subscription_id <$> pi_alternatives pending) in
  let '(selected, alternatives) :=
    match alternatives with
    | next :: rest =>
        if decide (ip_subscription_ids selected = []) then (next, rest) else (selected, alternatives)
    | [] => (selected, alternatives)
    end in
  if decide (ip_subscription_ids selected = []) then None
  else Some (set_pi_providers selected alternatives pending).
Definition remove_subscription (subscription_id : string) : PendingWants → PendingWants :=
  pending_retain (λ _, retain_subscription subscription_id).

(** [now_ms]: the clock as read at each entry. *)
Definition retain_peer (peer_npub : string) (now_ms : N) (pending : PendingInventory)
    : option PendingInventory :=
  let alternatives :=
    filter (λ provider, ip_peer_npub provider ≠ peer_npub) (pi_alternatives pending) in
  if decide (ip_peer_npub (pi_selected pending) = peer_npub) then
    match alternatives with
    | [] => None
    | next :: rest => Some (set_pi_schedule now_ms 0 (set_pi_providers next rest pending))
    end
  else Some (set_pi_providers (pi_selected pending) alternatives pending).
Definition remove_pending_peer (peer_npub : string) (now_ms : string → N)
    : PendingWants → PendingWants :=
  pending_retain (λ event_id, retain_peer peer_npub (now_ms event_id)).

Definition retry_delay (retry_after_ms retry_count : N) : N :=
  sat_mul u64_max retry_after_ms (N.shiftl 1 (retry_count `min` MAX_WANT_RETRIES)).
Definition set_ip_requested (p : InventoryProvider) : InventoryProvider :=
  mkProvider (ip_peer_npub p) (ip_subscription_ids p) true.
(** What a turn of the loop does with an entry. *)
Inductive RetryStep : Set :=
  | RetryWait
  | RetryExpire
  | RetrySend (pending : PendingInventory).
Definition retry_step (now_ms retry_after_ms : N) (pending : PendingInventory) : RetryStep :=
  if decide (now_ms - pi_requested_at_ms pending
             < retry_delay retry_after_ms (pi_retry_count pending)) then RetryWait
  else if decide (MAX_WANT_RETRIES ≤ pi_retry_count pending) then RetryExpire
  else
    let pending :=
      match pi_alternatives pending with
      | next :: rest => set_pi_providers next (rest ++ [pi_selected pending]) pending
      | [] => pending
      end in
    let pending :=
      set_pi_providers (set_ip_requested (pi_selected pending)) (pi_alternatives pending) pending in
    RetrySend (set_pi_schedule now_ms (pi_retry_count pending + 1) pending).
Definition after_retry (now_ms retry_after_ms : N) (pending : PendingInventory)
    : option PendingInventory :=
  match retry_step now_ms retry_after_ms pending with
  | RetryWait => Some pending
  | RetryExpire => None
  | RetrySend pending => Some pending
  end.
Definition retry_one (now_ms retry_after_ms : N) (batch : PendingWantRetryBatch)
    (e : string * PendingInventory) : PendingWantRetryBatch :=
  match retry_step now_ms retry_after_ms e.2 with
  | RetryWait => batch
  | RetryExpire =>
      mkRetryBatch (rb_retries batch)
        (rb_expired_providers batch ++ filter (λ p, ip_requested p = true) (pi_providers e.2))
        (rb_expired_event_count batch + 1)
  | RetrySend pending =>
      mkRetryBatch (rb_retries batch ++ [(e.1, pi_selected pending)])
        (rb_expired_providers batch) (rb_expired_event_count batch)
  end.
Definition retry_due `{!HashOrder} (now_ms retry_after_ms : N) (w : PendingWants)
    : PendingWantRetryBatch * PendingWants :=
  (foldl (retry_one now_ms retry_after_ms) (mkRetryBatch [] [] 0) (hash_iter (pw_entries w)),
   pending_retain (λ _, after_retry now_ms retry_after_ms) w).

Definition pending_clear (w : PendingWants) : PendingWants :=
  mkWants (pw_max_events w) (pw_max_alternatives w) ∅ [].

(** ** The invariant *)
Record entry_ok (max_alternatives : N) (p : PendingInventory) : Prop := {
  eo_peers : NoDup (ip_peer_npub <$> pi_providers p);
  eo_alternatives : nlen (pi_alternatives p) ≤ max_alternatives;
  eo_retries : pi_retry_count p ≤ MAX_WANT_RETRIES;
  eo_subscriptions : ∀ q, q ∈ pi_providers p → ip_subscription_ids q ≠ [];
}.
Record pending_ok (w : PendingWants) : Prop := {
  po_fifo : fifo_ok (pw_order w) (pw_entries w);
  po_bound : msize (pw_entries w) ≤ pw_max_events w;
  po_entries : ∀ id p, pw_entries w !! id = Some p → entry_ok (pw_max_alternatives w) p;
}.
Definition same_limits (w w' : PendingWants) : Prop :=
  pw_max_events w' = pw_max_events w ∧ pw_max_alternatives w' = pw_max_alternatives w.

(** What [merge_subscription_ids] keeps. *)
Lemma merge_subscription_ids_elem existing incoming id :
  id ∈ merge_subscription_ids existing incoming ↔ id ∈ existing ∨ id ∈ incoming.
Proof.
  unfold merge_subscription_ids. pose proof (dedup_by_key_key Datatypes.id
    (sort_by String.compare (existing ++ incoming)) id) as Hk.
  rewrite !list_fmap_id in Hk. by rewrite Hk, sort_by_elem, elem_of_app.
Qed.
Lemma merge_subscription_ids_ne existing incoming :
  existing ≠ [] → merge_subscription_ids existing incoming ≠ [].
Proof.
  destruct existing as [|x l]; [done|]. intros _ Hnil.
  assert (x ∈ merge_subscription_ids (x :: l) incoming) as Hin.
  { apply merge_subscription_ids_elem. left. left. }
  rewrite Hnil in Hin. by apply not_elem_of_nil in Hin.
Qed.

(** Of one entry, an operation keeps some of the providers; a provider that
    was asked stays so. *)
Lemma merge_alternative_Some provider l l' :
  merge_alternative provider l = Some l' →
  ip_peer_npub <$> l' = ip_peer_npub <$> l ∧
  ∀ q', q' ∈ l' → ∃ q, q ∈ l ∧ ip_requested q' = ip_requested q ∧ ip_peer_npub q' = ip_peer_npub q ∧
    (ip_subscription_ids q ≠ [] → ip_subscription_ids q' ≠ []).
Proof.
  revert l'. induction l as [|e l IH]; intros l'; cbn [merge_alternative]; [done|].
  case_decide as Heq.
  - intros [= <-]. split; [done|]. intros q' [->|Hin]%elem_of_cons.
    + exists e. split_and!; [left|done..|]. apply merge_subscription_ids_ne.
    + exists q'. split_and!; [by right|done..].
  - intros (l1 & Hl1 & ->)%fmap_Some. destruct (IH _ Hl1) as [Hp Hq].
    split; [by rewrite !fmap_cons, Hp|]. intros q' [->|Hin]%elem_of_cons.
    + exists e. split_and!; [left|done..].
    + destruct (Hq q' Hin) as (q & ? & ?). exists q. split; [by right|done].
Qed.
Lemma merge_alternative_None provider l :
  merge_alternative provider l = None → ip_peer_npub provider ∉ ip_peer_npub <$> l.
Proof.
  induction l as [|e l IH]; cbn [merge_alternative]; [intros _; apply not_elem_of_nil|].
  case_decide as Heq; [done|]. intros Hn%fmap_None%IH. rewrite fmap_cons, elem_of_cons. intros [?|?]; [by destruct Heq|done].
Qed.

(** Every provider of [p'] that was asked was asked in [p]. *)
Definition asked_in (p p' : PendingInventory) : Prop :=
  ∀ q', q' ∈ pi_providers p' → ip_requested q' = true →
    ∃ q, q ∈ pi_providers p ∧ ip_requested q = true ∧ ip_peer_npub q = ip_peer_npub q'.
Lemma asked_in_refl p : asked_in p p.
Proof. intros q ??. eauto. Qed.

Lemma merge_provider_ok max incoming pending :
  entry_ok max pending → ip_subscription_ids (pi_selected incoming) ≠ [] →
  entry_ok max (merge_provider max incoming pending) ∧
  asked_in pending (merge_provider max incoming pending).
Proof.
  intros [Hp Ha Hr Hs] Hin. unfold merge_provider.
  case_decide; [split; [by split|apply asked_in_refl]|].
  case_decide as Hpeer.
  { split; [split; simpl; try done|].
    - intros q [->|Hq]%elem_of_cons; [apply merge_subscription_ids_ne, Hs; left|].
      apply Hs. by right.
    - intros q [->|Hq]%elem_of_cons Hreq; [exists (pi_selected pending)|exists q];
        (split_and!; [|done..]); [left|by right]. }
  destruct (merge_alternative _ _) as [l|] eqn:Hm.
  { apply merge_alternative_Some in Hm as [Hl Hq]. split; [split; simpl; try done|].
    - change (NoDup (ip_peer_npub <$> pi_selected pending :: l)). by rewrite fmap_cons, Hl.
    - assert (length l = length (pi_alternatives pending)) as Hlen.
      { by rewrite <-(length_fmap ip_peer_npub l), Hl, length_fmap. }
      unfold nlen in *. by rewrite Hlen.
    - intros q [->|Hin']%elem_of_cons; [apply Hs; left|].
      destruct (Hq q Hin') as (q0 & Hq0 & _ & _ & Hne). apply Hne, Hs. by right.
    - intros q [->|Hin']%elem_of_cons Hreq.
      + exists (pi_selected pending). split_and!; [left|done..].
      + destruct (Hq q Hin') as (q0 & Hq0 & Hreq0 & Hpeer0 & _). exists q0.
        split_and!; [by right|congruence..]. }
  apply merge_alternative_None in Hm. case_decide as Hroom.
  2: { split; [by split|apply asked_in_refl]. }
  split; [split; simpl; try done|].
  - unfold pi_providers in *. simpl in *. rewrite fmap_app. apply NoDup_cons in Hp as [Hp1 Hp2].
    constructor.
    + rewrite elem_of_app. intros [?|Hx]; [done|]. apply list_elem_of_singleton in Hx. simpl in Hx. congruence.
    + apply NoDup_app. split_and!; [done| |apply NoDup_singleton].
      intros x Hx ->%list_elem_of_singleton. done.
  - rewrite nlen_app, nlen_cons, nlen_nil. lia.
  - intros q Hq. unfold pi_providers in Hq. simpl in Hq. rewrite app_comm_cons in Hq.
    apply elem_of_app in Hq as [Hq|Hq]; [by apply Hs|].
    apply list_elem_of_singleton in Hq as ->. simpl. intros Hnil%dedup_by_key_nil.
    pose proof (sort_by_perm String.compare (ip_subscription_ids (pi_selected incoming))) as Hperm.
    rewrite Hnil in Hperm. by apply Permutation_nil_l in Hperm.
  - intros q Hq Hreq. unfold pi_providers in Hq. simpl in Hq. rewrite app_comm_cons in Hq.
    apply elem_of_app in Hq as [Hq|Hq]; [by exists q|].
    by apply list_elem_of_singleton in Hq as ->.
Qed.

Lemma without_subscription_asked s q :
  ip_requested (without_subscription s q) = ip_requested q ∧
  ip_peer_npub (without_subscription s q) = ip_peer_npub q.
Proof. done. Qed.
(** The providers left by [retain_subscription] and [retain_peer]. *)
Lemma entry_ok_sub max p selected alternatives :
  entry_ok max p →
  (ip_peer_npub <$> selected :: alternatives) `sublist_of` (ip_peer_npub <$> pi_providers p) →
  (∀ q, q ∈ selected :: alternatives → ip_subscription_ids q ≠ []) →
  entry_ok max (set_pi_providers selected alternatives p).
Proof.
  intros [Hp Ha Hr Hs] Hsub Hne. split; [|simpl|done|done].
  - by eapply sublist_NoDup.
  - apply sublist_length in Hsub. unfold nlen in *. rewrite !length_fmap in Hsub. simpl in Hsub. lia.
Qed.
Lemma retain_subscription_ok max s p p' :
  entry_ok max p → retain_subscription s p = Some p' → entry_ok max p' ∧ asked_in p p'.
Proof.
  intros Hok. pose proof Hok as [Hp Ha Hr Hs]. unfold retain_subscription.
  set (alts := filter _ (without_subscription s <$> pi_alternatives p)).
  assert ((ip_peer_npub <$> alts) `sublist_of` (ip_peer_npub <$> pi_alternatives p)) as Hsub.
  { unfold alts. etrans; [apply sublist_fmap, sublist_filter|].
    by rewrite <-list_fmap_compose. }
  assert (∀ q, q ∈ alts → ip_subscription_ids q ≠ [] ∧ ∃ q0, q0 ∈ pi_alternatives p ∧
    ip_requested q0 = ip_requested q ∧ ip_peer_npub q0 = ip_peer_npub q) as Halts.
  { intros q [Hne (q0 & -> & Hq0)%list_elem_of_fmap]%list_elem_of_filter. split; [done|by exists q0]. }
  destruct alts as [|next rest].
  { case_decide as Hsel; [done|]. intros [= <-]. split.
    - apply entry_ok_sub; [done| |].
      + simpl. constructor. apply sublist_nil_l.
      + intros q ->%list_elem_of_singleton. done.
    - intros q [->|Hq]%elem_of_cons Hreq; [|by apply not_elem_of_nil in Hq].
      exists (pi_selected p). split_and!; [left|done..]. }
  destruct (decide (ip_subscription_ids (without_subscription s (pi_selected p)) = [])) as [Hsel|Hsel].
  - destruct (Halts next ltac:(left)) as [Hne _]. rewrite decide_False by done. intros [= <-]. split.
    + apply entry_ok_sub; [done| |intros q Hq; by apply Halts].
      change (ip_peer_npub <$> pi_providers p) with
        (ip_peer_npub (pi_selected p) :: (ip_peer_npub <$> pi_alternatives p)).
      by constructor.
    + intros q Hq Hreq. destruct (Halts q Hq) as (_ & q0 & ? & ? & ?). exists q0.
      split_and!; [by right|congruence..].
  - rewrite decide_False by done. intros [= <-]. split.
    + apply entry_ok_sub; [done| |].
      * change (ip_peer_npub <$> pi_providers p) with
          (ip_peer_npub (pi_selected p) :: (ip_peer_npub <$> pi_alternatives p)).
        by constructor.
      * intros q [->|Hq]%elem_of_cons; [done|by apply Halts].
    + intros q [->|Hq]%elem_of_cons Hreq.
      * exists (pi_selected p). split_and!; [left|done..].
      * destruct (Halts q Hq) as (_ & q0 & ? & ? & ?). exists q0. split_and!; [by right|congruence..].
Qed.
Lemma retain_peer_ok max peer now p p' :
  entry_ok max p → retain_peer peer now p = Some p' → entry_ok max p' ∧ asked_in p p'.
Proof.
  intros Hok. pose proof Hok as [Hp Ha Hr Hs]. unfold retain_peer.
  set (alts := filter _ (pi_alternatives p)).
  assert (alts `sublist_of` pi_alternatives p) as Hsub by apply sublist_filter.
  assert (∀ q, q ∈ alts → q ∈ pi_providers p) as Helem.
  { intros q [_ ?]%list_elem_of_filter. by right. }
  case_decide as Hsel.
  - destruct alts as [|next rest]; [done|]. intros [= <-]. split.
    + assert (entry_ok max (set_pi_providers next rest p)) as [H1 H2 _ H4].
      2: { split; [exact H1|exact H2|simpl; unfold MAX_WANT_RETRIES; lia|exact H4]. }
      apply entry_ok_sub; [done| |intros q Hq; by apply Hs, Helem].
      apply sublist_fmap. by constructor.
    + intros q Hq Hreq. exists q. split_and!; [|done..]. by apply Helem.
  - intros [= <-]. split.
    + apply entry_ok_sub; [done| |].
      * apply sublist_fmap. by constructor.
      * intros q [->|Hq]%elem_of_cons; apply Hs; [left|by apply Helem].
    + intros q [->|Hq]%elem_of_cons Hreq; [exists (pi_selected p)|exists q];
        (split_and!; [|done..]); [left|by apply Helem].
Qed.
(** Who was asked after a retry: those asked before, and the one selected. *)
Lemma retry_step_ok max now after p p' :
  entry_ok max p → retry_step now after p = RetrySend p' →
  entry_ok max p' ∧ pi_requested_at_ms p' = now ∧ pi_retry_count p' = pi_retry_count p + 1 ∧
  (∀ q', q' ∈ pi_providers p' → ip_requested q' = true →
    ip_peer_npub q' = ip_peer_npub (pi_selected p') ∨
    ∃ q, q ∈ pi_providers p ∧ ip_requested q = true ∧ ip_peer_npub q = ip_peer_npub q').
Proof.
  intros [Hp Ha Hr Hs]. unfold retry_step. case_decide; [done|]. case_decide as Hmax; [done|].
  intros [= <-]. split_and!; [|done|by destruct (pi_alternatives p)|].
  - split; simpl; [| |destruct (pi_alternatives p); simpl; lia|].
    + destruct (pi_alternatives p) as [|next rest] eqn:Halt; simpl.
      { rewrite ?Halt. apply NoDup_singleton. }
      change (NoDup (ip_peer_npub next :: (ip_peer_npub <$> rest ++ [pi_selected p]))).
      rewrite fmap_app. unfold pi_providers in Hp. rewrite Halt in Hp.
      rewrite !fmap_cons in Hp.
      assert (ip_peer_npub next :: (ip_peer_npub <$> rest) ++ (ip_peer_npub <$> [pi_selected p])
        ≡ₚ ip_peer_npub (pi_selected p) :: ip_peer_npub next :: (ip_peer_npub <$> rest)) as ->;
        [|done].
      etrans; [|apply Permutation_swap]. constructor. apply (Permutation_app_comm _ [_]).
    + destruct (pi_alternatives p) as [|next rest] eqn:Halt; simpl; [by rewrite Halt|].
      rewrite nlen_app, !nlen_cons, nlen_nil in *. lia.
    + intros q Hq. unfold pi_providers in *.
      destruct (pi_alternatives p) as [|next rest] eqn:Halt; simpl in *; try rewrite Halt in Hq.
      * apply list_elem_of_singleton in Hq as ->. apply (Hs (pi_selected p)). left.
      * apply elem_of_cons in Hq as [->|[Hq|Hq]%elem_of_app]; [apply (Hs next); right; left| |].
        -- apply Hs. by do 2 right.
        -- apply list_elem_of_singleton in Hq as ->. apply Hs. left.
  - intros q' [->|Hq]%elem_of_cons Hreq; [by left|]. right. simpl in Hq. exists q'.
    split_and!; [|done..]. unfold pi_providers.
    destruct (pi_alternatives p) as [|next rest] eqn:Halt; simpl in Hq.
    + rewrite Halt in Hq. by apply not_elem_of_nil in Hq.
    + apply elem_of_app in Hq as [Hq|Hq]; [by do 2 right|].
      apply list_elem_of_singleton in Hq as ->. left.
Qed.

(** ** The table

    [asked]: which provider was asked for which event. *)
Definition only_asked (asked : string → string → Prop) (w : PendingWants) : Prop :=
  ∀ id p q, pw_entries w !! id = Some p → q ∈ pi_providers p → ip_requested q = true →
    asked id (ip_peer_npub q).

Lemma pending_new_ok max_events max_alternatives : pending_ok (pending_new max_events max_alternatives).
Proof.
  split; simpl; [apply fifo_ok_empty| |].
  - unfold msize. rewrite map_size_empty. lia.
  - intros id p. by rewrite lookup_empty.
Qed.
Lemma pending_retain_ok f w asked :
  pending_ok w → only_asked asked w →
  (∀ id p p', pw_entries w !! id = Some p → f id p = Some p' →
    entry_ok (pw_max_alternatives w) p' ∧
    ∀ q', q' ∈ pi_providers p' → ip_requested q' = true → asked id (ip_peer_npub q')) →
  pending_ok (pending_retain f w) ∧ only_asked asked (pending_retain f w).
Proof.
  intros [Hf Hb He] Ha Hstep.
  assert (∀ id p', map_imap f (pw_entries w) !! id = Some p' →
    ∃ p, pw_entries w !! id = Some p ∧ f id p = Some p') as Hlook.
  { intros id p'. rewrite map_lookup_imap. intros (p & ? & ?)%bind_Some. eauto. }
  split.
  - split; simpl.
    + apply (fifo_ok_retain _ _ _ Hf). intros id [p' Hp']. apply Hlook in Hp' as (p & -> & _). eauto.
    + etrans; [apply (msize_dom _ (pw_entries w))|done].
      intros id [p' Hp']. apply Hlook in Hp' as (p & -> & _). eauto.
    + intros id p' Hp'. apply Hlook in Hp' as (p & Hp & Hfp). by eapply Hstep.
  - intros id p' q Hp' Hq Hreq. simpl in Hp'. apply Hlook in Hp' as (p & Hp & Hfp).
    by eapply Hstep.
Qed.

(** The request [accept_inventory] makes of an inventory. *)
Definition inventory_request (peer_npub : string) (subscription_ids : list string)
    (event_kind payload_bytes hop_limit now_ms : N) : PendingInventory :=
  mkPending (mkProvider peer_npub subscription_ids true) [] event_kind payload_bytes hop_limit
    now_ms 0.

Lemma pending_insert_ok id incoming w asked :
  pending_ok w → only_asked asked w →
  entry_ok (pw_max_alternatives w) incoming →
  (pw_entries w !! id = None →
    ∀ q, q ∈ pi_providers incoming → ip_requested q = true → asked id (ip_peer_npub q)) →
  let '(fresh, w') := pending_insert id incoming w in
  pending_ok w' ∧ only_asked asked w' ∧ same_limits w w' ∧
  (fresh = true ↔ pw_entries w !! id = None) ∧
  (∀ id', is_Some (pw_entries w' !! id') → id' = id ∨ is_Some (pw_entries w !! id')).
Proof.
  intros [Hf Hb He] Ha Hin Hasked. unfold pending_insert.
  destruct (pw_entries w !! id) as [pending|] eqn:Hid; [clear Hasked|specialize (Hasked eq_refl)].
  - destruct (merge_provider_ok (pw_max_alternatives w) incoming pending) as [Hm Hma];
      [by eapply He|apply Hin; left|].
    split_and!; [| |done|by split|].
    + split; simpl; [by apply fifo_ok_update; eauto|by rewrite msize_insert_old by eauto|].
      intros id' p'. rewrite lookup_insert_Some. intros [[<- <-]|[_ ?]]; [done|by eapply He].
    + intros id' p' q. simpl. rewrite lookup_insert_Some. intros [[<- <-]|[_ ?]] Hq Hreq.
      * destruct (Hma q Hq Hreq) as (q0 & Hq0 & Hreq0 & <-). by eapply Ha.
      * by eapply Ha.
    + intros id'. simpl. rewrite lookup_insert_is_Some'. naive_solver.
  - pose proof (fifo_ok_push _ _ _ incoming Hf Hid) as Hf'.
    unfold evict_pending. destruct (Fifo.evict_oldest _ _ _) as [order entries] eqn:Hev.
    apply evict_oldest_spec in Hev as (Hf2 & Hb2 & Hsub); [|lia|done].
    assert (∀ id' p', entries !! id' = Some p' →
      (id' = id ∧ p' = incoming) ∨ pw_entries w !! id' = Some p') as Hlook.
    { intros id' p' Hp'. apply (lookup_weaken _ _ _ _ Hp') in Hsub.
      apply lookup_insert_Some in Hsub as [[<- <-]|[_ ?]]; auto. }
    split_and!; [| |done|done|].
    + split; simpl; [done|lia|]. intros id' p' [[-> ->]|?]%Hlook; [done|by eapply He].
    + intros id' p' q [[-> ->]|?]%Hlook Hq Hreq; [by apply Hasked|by eapply Ha].
    + intros id' [p' [[-> ->]|?]%Hlook]; eauto.
Qed.
Lemma take_matching_ok id source subscription kind bytes w asked :
  pending_ok w → only_asked asked w →
  let '(taken, w') := take_matching id source subscription kind bytes w in
  pending_ok w' ∧ only_asked asked w' ∧ same_limits w w' ∧
  match taken with
  | None => w' = w
  | Some p =>
      pw_entries w !! id = Some p ∧ asked id source ∧ pi_event_kind p = kind ∧
      pi_payload_bytes p = bytes ∧
      (∃ q, q ∈ pi_providers p ∧ ip_peer_npub q = source ∧ subscription ∈ ip_subscription_ids q) ∧
      pw_entries w' = delete id (pw_entries w)
  end.
Proof.
  intros Hok Ha. unfold take_matching. destruct (pw_entries w !! id) as [p|] eqn:Hid; [|done].
  simpl. destruct (requested_provider source p) as [q|] eqn:Hq; [|done]. simpl.
  case_decide as Hcase; [done|]. destruct Hok as [Hf Hb He].
  unfold requested_provider in Hq. apply find_some in Hq as [Hq Hreq].
  apply andb_true_iff in Hreq as [Hreq Hpeer]. apply bool_decide_eq_true in Hpeer.
  apply list_elem_of_In in Hq.
  split_and!; try done.
  - split; simpl; [by apply fifo_ok_remove| |].
    + etrans; [apply msize_delete_le|done].
    + intros id' p' [_ ?]%lookup_delete_Some. by eapply He.
  - intros id' p' q' Hp'. simpl in Hp'. apply lookup_delete_Some in Hp' as [_ ?]. by eapply Ha.
  - rewrite <-Hpeer. by eapply Ha.
  - destruct (decide (pi_event_kind p = kind)); [done|tauto].
  - destruct (decide (pi_payload_bytes p = bytes)); [done|tauto].
  - exists q. split_and!; [done..|]. destruct (decide (subscription ∈ ip_subscription_ids q)); tauto.
Qed.

Section retry.
Context `{!HashOrder}.

Lemma retry_fold_elem now after l batch :
  let '(mkRetryBatch retries expired count) := foldl (retry_one now after) batch l in
  (∀ e, e ∈ retries ↔ e ∈ rb_retries batch ∨
    ∃ p p', (e.1, p) ∈ l ∧ retry_step now after p = RetrySend p' ∧ e.2 = pi_selected p') ∧
  (∀ q, q ∈ expired ↔ q ∈ rb_expired_providers batch ∨
    ∃ id p, (id, p) ∈ l ∧ retry_step now after p = RetryExpire ∧ q ∈ pi_providers p ∧
      ip_requested q = true).
Proof.
  revert batch. induction l as [|[id p] l IH]; intros batch; simpl.
  { destruct batch as [retries expired count]. simpl.
    setoid_rewrite elem_of_nil. split; naive_solver. }
  specialize (IH (retry_one now after batch (id, p))).
  destruct (foldl _ _ l) as [retries expired count]. destruct IH as [IHr IHe].
  unfold retry_one in IHr, IHe. simpl in *.
  split; [intros [id' q]; rewrite IHr|intros q; rewrite IHe]; clear IHr IHe.
  - setoid_rewrite elem_of_cons. destruct (retry_step now after p) as [| |p1] eqn:Hstep; simpl.
    + naive_solver congruence.
    + naive_solver congruence.
    + rewrite elem_of_app, list_elem_of_singleton. naive_solver congruence.
  - setoid_rewrite elem_of_cons. destruct (retry_step now after p) as [| |p1] eqn:Hstep; simpl.
    + naive_solver congruence.
    + rewrite elem_of_app, list_elem_of_filter. split.
      * intros [[?|[Hreq Hin%elem_of_cons]]|(id0 & p0 & ? & ? & ? & ?)]; [by left|right..].
        -- exists id, p. split_and!; [by left|done..].
        -- exists id0, p0. split_and!; [by right|done..].
      * intros [?|(id0 & p0 & [[= -> ->]|?] & ? & ?%elem_of_cons & ?)]; [by do 2 left|left; by right|].
        right. by exists id0, p0; rewrite <-elem_of_cons.
    + naive_solver congruence.
Qed.
Lemma retry_due_ok now after w asked :
  pending_ok w → only_asked asked w →
  let '(batch, w') := retry_due now after w in
  pending_ok w' ∧
  only_asked (λ id peer, asked id peer ∨ ∃ q, (id, q) ∈ rb_retries batch ∧ ip_peer_npub q = peer) w' ∧
  same_limits w w' ∧
  (∀ id q, (id, q) ∈ rb_retries batch → is_Some (pw_entries w !! id)) ∧
  (∀ id, is_Some (pw_entries w' !! id) → is_Some (pw_entries w !! id)) ∧
  (∀ q, q ∈ rb_expired_providers batch → ∃ id, asked id (ip_peer_npub q)).
Proof.
  intros Hok Ha. unfold retry_due.
  pose proof (retry_fold_elem now after (hash_iter (pw_entries w)) (mkRetryBatch [] [] 0)) as Hfold.
  destruct (foldl _ _ _) as [retries expired count]. destruct Hfold as [Hr He]. simpl in Hr, He.
  assert (∀ id p, (id, p) ∈ hash_iter (pw_entries w) ↔ pw_entries w !! id = Some p) as Hiter.
  { intros id p. by rewrite hash_iter_perm, elem_of_map_to_list. }
  setoid_rewrite Hiter in Hr. setoid_rewrite Hiter in He. simpl.
  set (asked' := λ id peer, asked id peer ∨ ∃ q, (id, q) ∈ retries ∧ ip_peer_npub q = peer).
  destruct (pending_retain_ok (λ _, after_retry now after) w asked' Hok) as [Hok' Ha'].
  - intros id p q ???. left. by eapply Ha.
  - intros id p p' Hid. unfold after_retry.
    destruct (retry_step now after p) as [| |p1] eqn:Hstep; [|done|]; intros [= <-].
    + split; [by eapply (po_entries _ Hok)|]. intros q ??. left. by eapply Ha.
    + destruct (retry_step_ok _ _ _ _ _ (po_entries _ Hok _ _ Hid) Hstep) as (He1 & _ & _ & Hask).
      split; [done|]. intros q' Hq' Hreq. destruct (Hask q' Hq' Hreq) as [->|(q & Hq & Hrq & <-)].
      * right. exists (pi_selected p1). split; [|done]. apply Hr. right. eauto.
      * left. by eapply Ha.
  - split_and!; [done|done|done| | |].
    + intros id q [Hin|(p & p' & Hp & _)]%Hr; [by apply not_elem_of_nil in Hin|]. eauto.
    + intros id [p' Hp']. simpl in Hp'. rewrite map_lookup_imap in Hp'.
      apply bind_Some in Hp' as (p & -> & _). eauto.
    + intros q [Hin|(id & p & Hp & _ & Hq & Hreq)]%He; [by apply not_elem_of_nil in Hin|].
      exists id. by eapply Ha.
Qed.
End retry.

(** ** Shape

    What a client of the table needs: every operation keeps it well formed and
    leaves its limits. *)
Definition keeps_shape (w w' : PendingWants) : Prop := pending_ok w' ∧ same_limits w w'.
Notation anyone := (λ _ _ : string, True).
Lemma only_asked_anyone w : only_asked anyone w.
Proof. done. Qed.

Lemma pending_insert_shape id incoming w :
  pending_ok w → entry_ok (pw_max_alternatives w) incoming →
  keeps_shape w (pending_insert id incoming w).2.
Proof.
  intros Hok Hin. pose proof (pending_insert_ok id incoming w anyone Hok (only_asked_anyone w) Hin) as Hstep.
  destruct (pending_insert id incoming w) as [fresh w']. destruct Hstep as (? & _ & ? & _); [done|by split].
Qed.
Lemma take_matching_shape id source subscription kind bytes w :
  pending_ok w → keeps_shape w (take_matching id source subscription kind bytes w).2.
Proof.
  intros Hok. pose proof (take_matching_ok id source subscription kind bytes w anyone Hok (only_asked_anyone w)) as Hstep.
  destruct (take_matching _ _ _ _ _ _) as [taken w']. by destruct Hstep as (? & _ & ? & _).
Qed.
Lemma pending_retain_shape f w :
  pending_ok w →
  (∀ id p p', entry_ok (pw_max_alternatives w) p → f id p = Some p' →
    entry_ok (pw_max_alternatives w) p' ∧ asked_in p p') →
  keeps_shape w (pending_retain f w).
Proof.
  intros Hok Hf. split; [|done]. eapply (pending_retain_ok f w anyone); [done..|].
  intros id p p' Hp Hfp. split; [|done].
  by destruct (Hf id p p' (po_entries _ Hok _ _ Hp) Hfp).
Qed.
Lemma remove_subscription_shape id w : pending_ok w → keeps_shape w (remove_subscription id w).
Proof. intros Hok. apply pending_retain_shape; [done|]. intros ???. apply retain_subscription_ok. Qed.
Lemma remove_pending_peer_shape peer now w :
  pending_ok w → keeps_shape w (remove_pending_peer peer now w).
Proof. intros Hok. apply pending_retain_shape; [done|]. intros ???. apply retain_peer_ok. Qed.
Lemma pending_clear_shape w : pending_ok w → keeps_shape w (pending_clear w).
Proof.
  intros _. split; [|done]. exact (pending_new_ok (pw_max_events w) (pw_max_alternatives w)).
Qed.
Lemma retry_due_shape `{!HashOrder} now after w :
  pending_ok w →
  keeps_shape w (retry_due now after w).2 ∧
  ∀ id q, (id, q) ∈ rb_retries (retry_due now after w).1 → is_Some (pw_entries w !! id).
Proof.
  intros Hok. pose proof (retry_due_ok now after w anyone Hok (only_asked_anyone w)) as Hstep.
  destruct (retry_due now after w) as [batch w']. by destruct Hstep as (? & _ & ? & ? & _).
Qed.

(** ** Runs

    What is visible of the table: who was asked for what, whose answer was
    taken, who is blamed for not answering. *)
Inductive want_note : Set :=
  | Asked (event_id peer_npub : string)
  | Answered (event_id peer_npub subscription_id : string)
  | Blamed (peer_npub : string).
#[export] Instance want_note_eq_dec : EqDecision want_note.
Proof. solve_decision. Defined.
Inductive want_op : Type :=
  | WantInventory (event_id peer_npub : string) (subscription_ids : list string)
      (event_kind payload_bytes hop_limit now_ms : N)
  | WantAnswer (event_id source_npub subscription_id : string) (event_kind payload_bytes : N)
  | WantRemoveSubscription (subscription_id : string)
  | WantRemovePeer (peer_npub : string) (now_ms : string → N)
  | WantRetry (now_ms retry_after_ms : N)
  | WantClear.
(** [accept_inventory] offers at least one subscription. *)
Definition want_op_ok (op : want_op) : Prop :=
  match op with WantInventory _ _ ids _ _ _ _ => ids ≠ [] | _ => True end.

Section want_run.
Context `{!HashOrder}.

Definition batch_notes (batch : PendingWantRetryBatch) : list want_note :=
  ((λ r, Asked r.1 (ip_peer_npub r.2)) <$> rb_retries batch) ++
  ((λ p, Blamed (ip_peer_npub p)) <$> rb_expired_providers batch).
Definition want_step (op : want_op) (w : PendingWants) : list want_note * PendingWants :=
  match op with
  | WantInventory id peer ids kind bytes hop now =>
      let '(fresh, w) := pending_insert id (inventory_request peer ids kind bytes hop now) w in
      (if fresh then [Asked id peer] else [], w)
  | WantAnswer id source subscription kind bytes =>
      let '(taken, w) := take_matching id source subscription kind bytes w in
      (match taken with Some _ => [Answered id source subscription] | None => [] end, w)
  | WantRemoveSubscription subscription => ([], remove_subscription subscription w)
  | WantRemovePeer peer now => ([], remove_pending_peer peer now w)
  | WantRetry now after =>
      let '(batch, w) := retry_due now after w in (batch_notes batch, w)
  | WantClear => ([], pending_clear w)
  end.
Fixpoint run_wants (ops : list want_op) (w : PendingWants) : list want_note * PendingWants :=
  match ops with
  | [] => ([], w)
  | op :: ops =>
      let '(notes, w) := want_step op w in
      let '(rest, w) := run_wants ops w in (notes ++ rest, w)
  end.

(** What must have gone before each note. *)
Definition justified (before : list want_note) (n : want_note) : Prop :=
  match n with
  | Asked _ _ => True
  | Answered id peer _ => Asked id peer ∈ before
  | Blamed peer => ∃ id, Asked id peer ∈ before
  end.
Definition trace_justified (trace : list want_note) : Prop :=
  ∀ i n, trace !! i = Some n → justified (take i trace) n.
Definition is_ask (id : string) (n : want_note) : bool :=
  match n with Asked id' _ => bool_decide (id' = id) | _ => false end.
Definition is_answer (id : string) (n : want_note) : bool :=
  match n with Answered id' _ _ => bool_decide (id' = id) | _ => false end.
Definition asks (id : string) (trace : list want_note) : nat := length (filter (is_ask id) trace).
Definition answers (id : string) (trace : list want_note) : nat :=
  length (filter (is_answer id) trace).
Definition present (id : string) (w : PendingWants) : nat :=
  if pw_entries w !! id then 1 else 0.

Record want_inv (max_events max_alternatives : N) (trace : list want_note) (w : PendingWants) : Prop := {
  wv_ok : pending_ok w;
  wv_events : pw_max_events w = max_events;
  wv_alternatives : pw_max_alternatives w = max_alternatives;
  wv_asked : only_asked (λ id peer, Asked id peer ∈ trace) w;
  wv_justified : trace_justified trace;
  wv_once : ∀ id, (answers id trace + present id w ≤ asks id trace)%nat;
}.
Lemma trace_justified_app t1 t2 :
  trace_justified t1 → (∀ n, n ∈ t2 → justified t1 n) → trace_justified (t1 ++ t2).
Proof.
  intros H1 H2 i n Hi. apply lookup_app_Some in Hi as [Hi|[Hge Hi]].
  - rewrite take_app_le by (by apply lookup_lt_Some in Hi; lia). by apply H1.
  - assert (justified t1 n) as Hj by (by apply H2, list_elem_of_lookup; eauto).
    rewrite take_app_ge by done. destruct n; simpl in *; [done|set_solver|].
    destruct Hj as [id ?]. exists id. set_solver.
Qed.
Lemma only_asked_weaken trace notes w :
  only_asked (λ id peer, Asked id peer ∈ trace) w →
  only_asked (λ id peer, Asked id peer ∈ trace ++ notes) w.
Proof. intros Ha id p q ???. apply elem_of_app. left. by eapply Ha. Qed.
Lemma asks_app id t1 t2 : asks id (t1 ++ t2) = (asks id t1 + asks id t2)%nat.
Proof. unfold asks. by rewrite filter_app, length_app. Qed.
Lemma answers_app id t1 t2 : answers id (t1 ++ t2) = (answers id t1 + answers id t2)%nat.
Proof. unfold answers. by rewrite filter_app, length_app. Qed.
Lemma answers_batch id batch : answers id (batch_notes batch) = 0%nat.
Proof.
  unfold answers, batch_notes. rewrite filter_none; [done|].
  intros n [(?&->&_)%list_elem_of_fmap|(?&->&_)%list_elem_of_fmap]%elem_of_app []. 
Qed.
Lemma present_le id w w' :
  (is_Some (pw_entries w' !! id) → is_Some (pw_entries w !! id)) → (present id w' ≤ present id w)%nat.
Proof.
  intros Hsub. unfold present. destruct (pw_entries w' !! id) eqn:H', (pw_entries w !! id) eqn:H''; try lia.
  destruct Hsub as [? ?]; [eauto|done].
Qed.
Lemma present_le_1 id w : (present id w ≤ 1)%nat.
Proof. unfold present. destruct (pw_entries w !! id); lia. Qed.
Lemma present_retain id f w : (present id (pending_retain f w) ≤ present id w)%nat.
Proof.
  apply present_le. intros [p' Hp']. simpl in Hp'. rewrite map_lookup_imap in Hp'.
  apply bind_Some in Hp' as (p & -> & _). eauto.
Qed.

(** The table changes without a note. *)
Lemma want_inv_silent me ma trace w w' :
  want_inv me ma trace w → pending_ok w' → same_limits w w' →
  only_asked (λ id peer, Asked id peer ∈ trace) w' →
  (∀ id, present id w' ≤ present id w)%nat → want_inv me ma (trace ++ []) w'.
Proof.
  intros [Hok He Hal Ha Hj Ho] Hok' [Hl1 Hl2] Ha' Hp. rewrite app_nil_r.
  split; try done; try congruence. intros id. specialize (Ho id). specialize (Hp id). lia.
Qed.
Lemma want_inv_retain me ma trace w f :
  want_inv me ma trace w →
  (∀ id p p', entry_ok ma p → f id p = Some p' → entry_ok ma p' ∧ asked_in p p') →
  want_inv me ma (trace ++ []) (pending_retain f w).
Proof.
  intros Hinv Hf. destruct (pending_retain_ok f w _ (wv_ok _ _ _ _ Hinv) (wv_asked _ _ _ _ Hinv))
    as [Hok' Ha'].
  { intros id p p' Hp Hfp. rewrite (wv_alternatives _ _ _ _ Hinv).
    pose proof (po_entries _ (wv_ok _ _ _ _ Hinv) _ _ Hp) as He.
    rewrite (wv_alternatives _ _ _ _ Hinv) in He.
    destruct (Hf id p p' He Hfp) as [He' Hask]. split; [done|]. intros q' Hq' Hreq.
    destruct (Hask q' Hq' Hreq) as (q & Hq & Hrq & <-). by eapply (wv_asked _ _ _ _ Hinv). }
  eapply want_inv_silent; [done..|]. intros id. apply present_retain.
Qed.

Lemma want_step_ok me ma trace w op :
  want_inv me ma trace w → want_op_ok op →
  let '(notes, w') := want_step op w in want_inv me ma (trace ++ notes) w'.
Proof.
  intros Hinv Hop. pose proof Hinv as [Hok He Hal Ha Hj Ho].
  destruct op as [id peer ids kind bytes hop now|id source sub kind bytes|sub|peer now|now after|];
    cbn [want_step].
  - set (incoming := inventory_request peer ids kind bytes hop now).
    assert (entry_ok (pw_max_alternatives w) incoming) as Hin.
    { split; simpl; [apply NoDup_singleton|unfold nlen; simpl; lia|unfold MAX_WANT_RETRIES; lia|].
      by intros q ->%list_elem_of_singleton. }
    pose proof (λ trace' Ha', pending_insert_ok id incoming w
      (λ id' p', Asked id' p' ∈ trace ++ trace') Hok Ha' Hin) as Hins.
    specialize (λ trace', Hins trace' (only_asked_weaken trace trace' w Ha)).
    destruct (pending_insert id incoming w) as [fresh w'].
    destruct (pw_entries w !! id) as [p|] eqn:Hid.
    + destruct (Hins [] ltac:(done)) as (Hok' & Ha' & Hl & Hfresh & Hdom). rewrite app_nil_r in Ha'.
      destruct fresh; [by destruct Hfresh as [Hf _]; specialize (Hf eq_refl)|].
      eapply want_inv_silent; [done..|]. intros id'. apply present_le. intros Hs.
      destruct (Hdom id' Hs) as [->|]; [by eauto|done].
    + destruct (Hins [Asked id peer]) as (Hok' & Ha' & [Hl1 Hl2] & Hfresh & Hdom).
      { intros _ q ->%list_elem_of_singleton _. simpl. apply elem_of_app. right. left. }
      destruct fresh; [|by destruct Hfresh as [_ ?]; intuition congruence].
      split; try done; try congruence; [by apply trace_justified_app; [|intros n ->%list_elem_of_singleton]|].
      intros id'. rewrite asks_app, answers_app. specialize (Ho id').
      assert (answers id' [Asked id peer] = 0%nat) as -> by done.
      destruct (decide (id' = id)) as [->|Hne].
      * assert (asks id [Asked id peer] = 1%nat) as ->.
        { unfold asks. rewrite filter_cons_True; [done|]. by apply bool_decide_pack. }
        pose proof (present_le_1 id w'). lia.
      * assert (present id' w' ≤ present id' w)%nat; [|lia].
        apply present_le. intros Hs. by destruct (Hdom id' Hs).
  - pose proof (take_matching_ok id source sub kind bytes w _ Hok Ha) as Htake.
    destruct (take_matching _ _ _ _ _ _) as [taken w']. destruct Htake as (Hok' & Ha' & [Hl1 Hl2] & Hr).
    destruct taken as [p|]; [|subst w'; by rewrite app_nil_r].
    destruct Hr as (Hid & Hasked & _ & _ & _ & Hdel). split; try done; try congruence.
    + by apply only_asked_weaken.
    + apply trace_justified_app; [done|]. by intros n ->%list_elem_of_singleton.
    + intros id'. rewrite asks_app, answers_app. specialize (Ho id').
      unfold present in *. rewrite Hdel. destruct (decide (id' = id)) as [->|Hne].
      * rewrite lookup_delete_eq. rewrite Hid in Ho.
        assert (answers id [Answered id source sub] = 1%nat) as ->.
        { unfold answers. rewrite filter_cons_True; [done|]. by apply bool_decide_pack. }
        lia.
      * rewrite lookup_delete_ne by done.
        assert (answers id' [Answered id source sub] = 0%nat) as ->.
        { unfold answers. rewrite filter_cons_False; [done|]. by intros ?%bool_decide_unpack. }
        lia.
  - apply want_inv_retain; [done|]. intros id p p'. apply retain_subscription_ok.
  - apply want_inv_retain; [done|]. intros id p p'. apply retain_peer_ok.
  - pose proof (retry_due_ok now after w _ Hok Ha) as Hret.
    destruct (retry_due now after w) as [batch w'].
    destruct Hret as (Hok' & Ha' & [Hl1 Hl2] & Hnew & Hdom & Hblame). split; try done; try congruence.
    + intros id p q Hp Hq Hreq. apply elem_of_app.
      destruct (Ha' id p q Hp Hq Hreq) as [?|(q' & Hq' & <-)]; [by left|]. right.
      apply elem_of_app. left. apply list_elem_of_fmap. by exists (id, q').
    + apply trace_justified_app; [done|].
      intros n [(?&->&_)%list_elem_of_fmap|(q&->&Hq)%list_elem_of_fmap]%elem_of_app; [done|].
      by apply Hblame.
    + intros id. rewrite asks_app, answers_app, answers_batch. specialize (Ho id).
      pose proof (present_le id w w' (Hdom id)). lia.
  - eapply want_inv_silent; [done| |done| |].
    + split; simpl; [apply fifo_ok_empty| |].
      * unfold msize. rewrite map_size_empty. lia.
      * intros id p. by rewrite lookup_empty.
    + intros id p q. simpl. by rewrite lookup_empty.
    + intros id. unfold present. simpl. rewrite lookup_empty. lia.
Qed.
Lemma run_wants_ok me ma ops trace w :
  want_inv me ma trace w → Forall want_op_ok ops →
  let '(notes, w') := run_wants ops w in want_inv me ma (trace ++ notes) w'.
Proof.
  revert trace w. induction ops as [|op ops IH]; intros trace w Hinv Hops; cbn [run_wants].
  { by rewrite app_nil_r. }
  apply Forall_cons in Hops as [Hop Hops]. pose proof (want_step_ok _ _ _ _ op Hinv Hop) as Hstep.
  destruct (want_step op w) as [notes w1]. specialize (IH _ _ Hstep Hops).
  destruct (run_wants ops w1) as [rest w2]. by rewrite (assoc_L (++)).
Qed.
Lemma want_inv_new me ma : want_inv me ma [] (pending_new me ma).
Proof.
  split; try done; apply pending_new_ok.
Qed.

(** C29. The table of outstanding requests: over any run an answer is taken
    only from a provider that was asked for that event, no event is answered
    more often than it was asked for, only providers that were asked are blamed
    for not answering, and the table stays well formed and within its bounds
    (one entry per queued event, distinct providers, bounded alternatives and
    retries). *)
Theorem answers_were_asked max_events max_alternatives ops :
  Forall want_op_ok ops →
  let '(trace, w) := run_wants ops (pending_new max_events max_alternatives) in
  trace_justified trace ∧ (∀ id, (answers id trace ≤ asks id trace)%nat) ∧
  fifo_ok (pw_order w) (pw_entries w) ∧ msize (pw_entries w) ≤ max_events ∧
  ∀ id p, pw_entries w !! id = Some p → entry_ok max_alternatives p.
Proof.
  intros Hops. pose proof (run_wants_ok _ _ ops [] _ (want_inv_new max_events max_alternatives) Hops) as Hrun.
  destruct (run_wants ops _) as [trace w]. destruct Hrun as [[Hf Hb He] Hme Hma _ Hj Ho].
  rewrite <-Hme. rewrite <-Hma. split_and!; try done. intros id. etrans; [|exact (Ho id)]. simpl. lia.
Qed.
End want_run.

(** ** Witness: two providers, the first silent. *)
Module PendingWitness.
Definition ops : list want_op :=
  [WantInventory "id" "p" ["s"] 1 100 3 0; WantInventory "id" "q" ["s"; "t"; "s"] 1 100 3 10;
   WantAnswer "id" "q" "s" 1 100; WantRetry 499 500; WantRetry 500 500;
   WantAnswer "id" "q" "t" 1 100; WantAnswer "id" "p" "s" 1 100].
Example ops_trace :
  (run_wants ops (pending_new 8 8)).1 = [Asked "id" "p"; Asked "id" "q"; Answered "id" "q" "t"].
Proof. vm_compute. reflexivity. Qed.
Lemma answers_were_asked_witness :
  let '(trace, w) := run_wants ops (pending_new 8 8) in
  trace_justified trace ∧ (∀ id, (answers id trace ≤ asks id trace)%nat) ∧
  fifo_ok (pw_order w) (pw_entries w) ∧ msize (pw_entries w) ≤ 8 ∧
  ∀ id p, pw_entries w !! id = Some p → entry_ok 8 p.
Proof. exact (answers_were_asked 8 8 ops ltac:(by repeat constructor)). Defined.
End PendingWitness.
