(* ===== verification/FipsBehavior.v ===== *)
(** * Behavior of providers of the FIPS client

    crates/nostr-pubsub-fips/src/provider_behavior.rs: local scores of peers
    that break the protocol. Scores decay, a few mismatches are free, and a
    score at the threshold starts a cooldown. *)

From S2P Require Export Fifo.

Definition SCORE_DECAY_INTERVAL_MS : N := 30000.
Definition DISCONNECT_SCORE : N := 12.
Definition RECONNECT_COOLDOWN_MS : N := 60000.
Definition UNIQUE_FILTER_MISMATCH_GRACE : N := 3.
Definition MAX_TRACKED_PROVIDERS : N := 1024.

Inductive ProviderViolation : Set :=
  | MalformedFrame
  | UnansweredInventory
  | OutOfFilterEvent (repeated : bool).
Record ProviderState : Set := mkProviderState {
  pv_score : N;
  pv_unique_filter_mismatches : N;
  pv_updated_at_ms : N;
  pv_cooldown_until_ms : N;
}.
Definition provider_state_default : ProviderState := mkProviderState 0 0 0 0.
Record ProviderBehavior : Type := mkBehavior {
  pb_peers : gmap string ProviderState;
  pb_order : list string;
}.
Definition behavior_default : ProviderBehavior := mkBehavior ∅ [].

Definition decay (now_ms : N) (s : ProviderState) : ProviderState :=
  if decide (pv_updated_at_ms s = 0) then
    mkProviderState (pv_score s) (pv_unique_filter_mismatches s) now_ms (pv_cooldown_until_ms s)
  else
    let steps := (now_ms - pv_updated_at_ms s) / SCORE_DECAY_INTERVAL_MS in
    if decide (steps = 0) then s
    else
      let steps := steps `min` u32_max in
      mkProviderState (pv_score s - steps) (pv_unique_filter_mismatches s - steps)
        (u64_sat_add (pv_updated_at_ms s) (sat_mul u64_max steps SCORE_DECAY_INTERVAL_MS))
        (pv_cooldown_until_ms s).

(** The points of a violation, with the state that counts it. *)
Definition violation_points (v : ProviderViolation) (s : ProviderState) : N * ProviderState :=
  match v with
  | MalformedFrame => (4, s)
  | UnansweredInventory => (2, s)
  | OutOfFilterEvent true => (1, s)
  | OutOfFilterEvent false =>
      let unique := u32_sat_add (pv_unique_filter_mismatches s) 1 in
      (if decide (UNIQUE_FILTER_MISMATCH_GRACE < unique) then 1 else 0,
       mkProviderState (pv_score s) unique (pv_updated_at_ms s) (pv_cooldown_until_ms s))
  end.
(** [record] on the peer's state. *)
Definition record_state (v : ProviderViolation) (now_ms : N) (s : ProviderState)
    : option N * ProviderState :=
  let s := decay now_ms s in
  let '(points, s) := violation_points v s in
  let score := u32_sat_add (pv_score s) points in
  if decide (score < DISCONNECT_SCORE ∨ now_ms < pv_cooldown_until_ms s) then
    (None, mkProviderState score (pv_unique_filter_mismatches s) (pv_updated_at_ms s)
             (pv_cooldown_until_ms s))
  else
    let until := u64_sat_add now_ms RECONNECT_COOLDOWN_MS in
    (Some until, mkProviderState score (pv_unique_filter_mismatches s) (pv_updated_at_ms s) until).

(** Room is made for a peer that is not tracked, before it is queued. *)
Definition track_provider (peer_npub : string) (b : ProviderBehavior) : ProviderBehavior :=
  match pb_peers b !! peer_npub with
  | Some _ => b
  | None =>
      let '(order, peers) := Fifo.evict_oldest MAX_TRACKED_PROVIDERS (pb_order b) (pb_peers b) in
      mkBehavior peers (order ++ [peer_npub])
  end.
Definition behavior_record (peer_npub : string) (v : ProviderViolation) (now_ms : N)
    (b : ProviderBehavior) : option N * ProviderBehavior :=
  let b := track_provider peer_npub b in
  let '(until, s) :=
    record_state v now_ms (default provider_state_default (pb_peers b !! peer_npub)) in
  (until, mkBehavior (<[peer_npub := s]> (pb_peers b)) (pb_order b)).
Definition is_in_cooldown (peer_npub : string) (now_ms : N) (b : ProviderBehavior)
    : bool * ProviderBehavior :=
  match pb_peers b !! peer_npub with
  | None => (false, b)
  | Some s =>
      let s := decay now_ms s in
      (bool_decide (now_ms < pv_cooldown_until_ms s),
       mkBehavior (<[peer_npub := s]> (pb_peers b)) (pb_order b))
  end.

(** ** Deserved cooldowns

    What a peer's violations have earned it, with the mismatches counted; the
    first of these are free. *)
Definition violation : Set := string * ProviderViolation * N.
Definition earn (acc : N * N) (v : ProviderViolation) : N * N :=
  let '(unique, points) := acc in
  match v with
  | MalformedFrame => (unique, points + 4)
  | UnansweredInventory => (unique, points + 2)
  | OutOfFilterEvent true => (unique, points + 1)
  | OutOfFilterEvent false =>
      (unique + 1, if decide (UNIQUE_FILTER_MISMATCH_GRACE < unique + 1) then points + 1 else points)
  end.
Definition violations_of (peer : string) (history : list violation) : list ProviderViolation :=
  (filter (λ v : violation, v.1.1 = peer) history).*1.*2.
Definition earned (peer : string) (history : list violation) : N * N :=
  foldl earn (0, 0) (violations_of peer history).

Lemma earned_snoc peer history q v t :
  earned peer (history ++ [(q, v, t)])
    = if decide (q = peer) then earn (earned peer history) v else earned peer history.
Proof.
  unfold earned, violations_of. rewrite filter_app, filter_cons, filter_nil. simpl.
  case_decide; [|by rewrite app_nil_r]. by rewrite !fmap_app, foldl_app.
Qed.

(** A cooldown began at a record whose peer had earned it by then. *)
Definition deserved (peer : string) (history : list violation) (until : N) : Prop :=
  ∃ before v t after, history = before ++ (peer, v, t) :: after ∧
    until = u64_sat_add t RECONNECT_COOLDOWN_MS ∧
    DISCONNECT_SCORE ≤ (earned peer (before ++ [(peer, v, t)])).2.
Record provider_ok (peer : string) (history : list violation) (s : ProviderState) : Prop := {
  pvo_unique : pv_unique_filter_mismatches s ≤ (earned peer history).1;
  pvo_score : pv_score s ≤ (earned peer history).2;
  pvo_cooldown : pv_cooldown_until_ms s = 0 ∨ deserved peer history (pv_cooldown_until_ms s);
}.
Record behavior_ok (history : list violation) (b : ProviderBehavior) : Prop := {
  bo_fifo : fifo_ok (pb_order b) (pb_peers b);
  bo_bound : msize (pb_peers b) ≤ MAX_TRACKED_PROVIDERS;
  bo_peers : ∀ peer s, pb_peers b !! peer = Some s → provider_ok peer history s;
}.

Lemma deserved_snoc peer history v until :
  deserved peer history until → deserved peer (history ++ [v]) until.
Proof.
  intros (before & w & t & after & -> & ? & ?). exists before, w, t, (after ++ [v]).
  split_and!; [by rewrite <-(assoc_L (++))|done..].
Qed.
Lemma provider_default_ok peer history : provider_ok peer history provider_state_default.
Proof. split; simpl; [lia..|by left]. Qed.
Lemma decay_ok peer history now s :
  provider_ok peer history s → provider_ok peer history (decay now s).
Proof.
  intros [Hu Hs Hc]. unfold decay. repeat case_decide; split; simpl; try done;
    (etrans; [apply N.le_sub_l|done]).
Qed.
Lemma provider_ok_other peer history q v t s :
  provider_ok peer history s → q ≠ peer → provider_ok peer (history ++ [(q, v, t)]) s.
Proof.
  intros [Hu Hs Hc] Hne. split; rewrite ?earned_snoc, ?decide_False by done; [done..|].
  destruct Hc; [by left|right; by apply deserved_snoc].
Qed.
Lemma violation_points_ok peer history v s :
  provider_ok peer history s →
  let '(points, s') := violation_points v s in
  pv_score s' = pv_score s ∧ pv_cooldown_until_ms s' = pv_cooldown_until_ms s ∧
  pv_unique_filter_mismatches s' ≤ (earn (earned peer history) v).1 ∧
  pv_score s + points ≤ (earn (earned peer history) v).2.
Proof.
  intros [Hu Hs _]. destruct (earned peer history) as [unique points]. simpl in *.
  destruct v as [| |[]]; simpl; try (split_and!; [done..|lia|lia]).
  assert (u32_sat_add (pv_unique_filter_mismatches s) 1 ≤ unique + 1) as Hle
    by (unfold u32_sat_add, sat_add; lia).
  split_and!; [done..|]. repeat case_decide; lia.
Qed.
Lemma record_state_ok peer history v now s :
  provider_ok peer history s →
  provider_ok peer (history ++ [(peer, v, now)]) (record_state v now s).2.
Proof.
  intros Hok%(decay_ok _ _ now). unfold record_state.
  pose proof (violation_points_ok peer history v _ Hok) as Hv.
  destruct (violation_points v (decay now s)) as [points s'].
  destruct Hv as (Hscore & Hcool & Hu & Hp). rewrite <-Hscore in Hp.
  assert (u32_sat_add (pv_score s') points ≤ (earn (earned peer history) v).2) as Hnew
    by (unfold u32_sat_add, sat_add; lia).
  case_decide as Hcase; split; simpl; rewrite ?earned_snoc, ?decide_True by done; try done.
  - rewrite Hcool. destruct (pvo_cooldown _ _ _ Hok); [by left|right; by apply deserved_snoc].
  - right. exists history, v, now, []. split_and!; [done..|].
    rewrite earned_snoc, decide_True by done. lia.
Qed.
Lemma track_provider_ok peer history b :
  behavior_ok history b →
  let b' := track_provider peer b in
  NoDup (pb_order b') ∧ (∀ p, p ∈ pb_order b' ↔ p = peer ∨ is_Some (pb_peers b' !! p)) ∧
  msize (delete peer (pb_peers b')) < MAX_TRACKED_PROVIDERS ∧
  (∀ p s, pb_peers b' !! p = Some s → pb_peers b !! p = Some s).
Proof.
  intros [Hf Hb Hp]. unfold track_provider. destruct (pb_peers b !! peer) as [s|] eqn:Hs.
  - split_and!; [apply Hf| | |done].
    + intros p. rewrite (fifo_ok_elem _ _ _ Hf). naive_solver.
    + rewrite <-(insert_delete_id (pb_peers b) peer s Hs) in Hb.
      rewrite msize_insert_new in Hb by apply lookup_delete_eq. lia.
  - destruct (Fifo.evict_oldest _ _ _) as [order peers] eqn:Hev.
    apply evict_oldest_spec in Hev as (Hf' & Hb' & Hsub); [|done|done]. simpl.
    assert (peers !! peer = None) as Hnone.
    { destruct (peers !! peer) eqn:Hin; [|done]. apply (lookup_weaken _ _ _ _ Hin) in Hsub. congruence. }
    pose proof (fifo_ok_push _ _ _ provider_state_default Hf' Hnone) as [Hnd Hk].
    split_and!; [done| | |].
    + intros p. rewrite Hk, lookup_insert_is_Some'. naive_solver.
    + by rewrite delete_id.
    + intros p s Hin. by apply (lookup_weaken _ _ _ _ Hin).
Qed.
Lemma behavior_record_ok peer history v now b :
  behavior_ok history b →
  behavior_ok (history ++ [(peer, v, now)]) (behavior_record peer v now b).2.
Proof.
  intros Hok. pose proof (track_provider_ok peer history b Hok) as (Hnd & Hk & Hb & Hsub).
  unfold behavior_record. set (b' := track_provider peer b) in *.
  pose proof (record_state_ok peer history v now (default provider_state_default (pb_peers b' !! peer))) as Hrec.
  destruct (record_state _ _ _) as [until s]. simpl in *.
  assert (provider_ok peer (history ++ [(peer, v, now)]) s) as Hs.
  { apply Hrec. destruct (pb_peers b' !! peer) as [s0|] eqn:Hs0; [|apply provider_default_ok].
    by apply (bo_peers _ _ Hok), Hsub. }
  split; simpl.
  - split; [done|]. intros p. rewrite Hk, lookup_insert_is_Some'. naive_solver.
  - rewrite <-insert_delete_eq, msize_insert_new by apply lookup_delete_eq. lia.
  - intros p s'. rewrite lookup_insert_Some. intros [[<- <-]|[Hne Hp]]; [done|].
    apply provider_ok_other; [|done]. by apply (bo_peers _ _ Hok), Hsub.
Qed.
Lemma is_in_cooldown_ok peer history now b :
  behavior_ok history b → behavior_ok history (is_in_cooldown peer now b).2.
Proof.
  intros [Hf Hb Hp]. unfold is_in_cooldown. destruct (pb_peers b !! peer) as [s|] eqn:Hs; [|done].
  split; simpl; [by apply fifo_ok_update; eauto|by rewrite msize_insert_old by eauto|].
  intros p s'. rewrite lookup_insert_Some. intros [[<- <-]|[_ ?]]; [|auto]. by apply decay_ok, Hp.
Qed.

(** *** Runs, with the violations recorded *)
Inductive behavior_op : Set :=
  | BehaviorRecord (peer : string) (v : ProviderViolation) (now_ms : N)
  | BehaviorQuery (peer : string) (now_ms : N).
Fixpoint run_behavior (ops : list behavior_op) (history : list violation) (b : ProviderBehavior)
    : list violation * ProviderBehavior :=
  match ops with
  | [] => (history, b)
  | BehaviorRecord peer v now :: ops =>
      run_behavior ops (history ++ [(peer, v, now)]) (behavior_record peer v now b).2
  | BehaviorQuery peer now :: ops => run_behavior ops history (is_in_cooldown peer now b).2
  end.
Lemma run_behavior_ok ops history b :
  behavior_ok history b →
  let '(history', b') := run_behavior ops history b in behavior_ok history' b'.
Proof.
  revert history b. induction ops as [|[peer v now|peer now] ops IH]; intros history b Hok; simpl.
  - done.
  - by apply IH, behavior_record_ok.
  - by apply IH, is_in_cooldown_ok.
Qed.
Lemma behavior_default_ok : behavior_ok [] behavior_default.
Proof.
  split; simpl; [apply fifo_ok_empty|by unfold msize; rewrite map_size_empty|].
  intros p s. by rewrite lookup_empty.
Qed.

(** Cooldowns are deserved: a peer is in cooldown only while a cooldown
    runs that began at one of its own violations, when its violations (the
    first three filter mismatches being free) had earned the disconnect score;
    and at most 1024 peers are tracked. *)
Theorem cooldowns_deserved ops peer now :
  let '(history, b) := run_behavior ops [] behavior_default in
  msize (pb_peers b) ≤ MAX_TRACKED_PROVIDERS ∧
  ((is_in_cooldown peer now b).1 = true → ∃ before v t after,
    history = before ++ (peer, v, t) :: after ∧
    now < u64_sat_add t RECONNECT_COOLDOWN_MS ∧
    DISCONNECT_SCORE ≤ (earned peer (before ++ [(peer, v, t)])).2).
Proof.
  pose proof (run_behavior_ok ops [] _ behavior_default_ok) as Hrun.
  destruct (run_behavior ops _ _) as [history b]. split; [apply Hrun|].
  unfold is_in_cooldown. destruct (pb_peers b !! peer) as [s|] eqn:Hs; [|done]. simpl.
  intros Hnow%bool_decide_eq_true.
  pose proof (decay_ok _ _ now _ (bo_peers _ _ Hrun _ _ Hs)) as [_ _ [Hz|Hd]]; [lia|].
  destruct Hd as (before & v & t & after & -> & Huntil & He). exists before, v, t, after.
  by rewrite <-Huntil.
Qed.
