(* ===== verification/Ranked.v ===== *)
(** * Limits by rank

    Several structures drop the lowest ranked bindings of a map when it holds
    too many: they sort the bindings and remove the keys of a prefix. Lemmas
    on sorting under a filter, and on removing a list of keys. *)

From S2P Require Export Fifo.

Lemma filter_of_fmap {A B} (f : A → B) (P : B → Prop) `{!∀ x, Decision (P x)} (l : list A) :
  filter P (f <$> l) = f <$> filter (λ x, P (f x)) l.
Proof.
  induction l as [|x l IH]; [done|]. rewrite fmap_cons, !filter_cons, IH. by case_decide.
Qed.

(** ** Sorting *)
Section sorting.
Context {A : Type} (cmp : A → A → comparison) `{!CmpOrder cmp}.

Lemma sort_insert_filter (P : A → Prop) `{!∀ x, Decision (P x)} x l :
  StronglySorted (cmp_le cmp) l →
  filter P (sort_insert cmp x l)
    = if decide (P x) then sort_insert cmp x (filter P l) else filter P l.
Proof.
  induction 1 as [|y l Hl IH Hy]; simpl.
  { rewrite filter_cons, filter_nil. by case_decide. }
  destruct (cmp x y) eqn:Hxy.
  3: { rewrite !filter_cons, IH. repeat case_decide; simpl; rewrite ?Hxy; done. }
  all: rewrite filter_cons; case_decide; [|done]; symmetry; rewrite filter_cons;
    case_decide; simpl; rewrite ?Hxy; [done|].
  all: assert (Forall (cmp_le cmp x) (filter P l)) as Hx
    by (apply Forall_forall; intros z [_ Hz]%list_elem_of_filter;
        rewrite Forall_forall in Hy; eapply (cmp_trans cmp); [|by apply Hy]; by rewrite Hxy).
  all: destruct Hx as [|z l' Hz _]; simpl; [done|]; unfold cmp_le in Hz; by destruct (cmp x z).
Qed.
Lemma sort_by_filter (P : A → Prop) `{!∀ x, Decision (P x)} l :
  filter P (sort_by cmp l) = sort_by cmp (filter P l).
Proof.
  induction l as [|x l IH]; [done|]. simpl. rewrite sort_insert_filter by apply sort_by_sorted, _.
  rewrite filter_cons, IH. by case_decide.
Qed.

(** Where the comparison tells all elements apart, the order of the input does
    not matter. *)
Lemma sort_by_perm_eq l1 l2 :
  (∀ x y, x ∈ l1 → y ∈ l1 → cmp x y = Eq → x = y) → l1 ≡ₚ l2 → sort_by cmp l1 = sort_by cmp l2.
Proof.
  intros Heq Hp. apply (StronglySorted_unique_strong (cmp_le cmp)).
  - intros x y Hx Hy. apply sort_by_elem in Hx, Hy. rewrite <-Hp in Hy. unfold cmp_le.
    rewrite (cmp_antisym cmp x y). intros ??. apply Heq; [done..|]. by destruct (cmp x y).
  - by apply sort_by_sorted.
  - by apply sort_by_sorted.
  - by rewrite !sort_by_perm.
Qed.
End sorting.

(** Sorted by a flag first, the elements without the flag come first. *)
Lemma sort_by_flag {A} (flag : A → bool) (cmp cmp' : A → A → comparison) `{!CmpOrder cmp} l :
  (∀ x y, cmp x y = cmp_then (cmp_on flag bool_compare) cmp' x y) →
  sort_by cmp l = filter (λ x, flag x = false) (sort_by cmp l)
    ++ filter (λ x, flag x = true) (sort_by cmp l).
Proof.
  intros Hcmp. pose proof (sort_by_sorted cmp l) as Hl. induction Hl as [|x s Hs IH Hx]; [done|].
  rewrite !filter_cons. destruct (flag x) eqn:Hf; repeat case_decide; try done.
  - assert (filter (λ y, flag y = false) s = []) as ->.
    { apply filter_none. intros y Hy Hfy. rewrite Forall_forall in Hx. specialize (Hx y Hy).
      apply Hx. rewrite Hcmp. unfold cmp_then, cmp_on. by rewrite Hf, Hfy. }
    simpl. by rewrite filter_all by (intros y Hy; rewrite Forall_forall in Hx;
      specialize (Hx y Hy); unfold cmp_le in Hx; rewrite Hcmp in Hx;
      unfold cmp_then, cmp_on in Hx; rewrite Hf in Hx; by destruct (flag y)).
  - simpl. by rewrite <-IH.
Qed.

Lemma NoDup_fst_cons {A B} (x : A * B) l :
  NoDup (x :: l).*1 → NoDup l.*1 ∧ ∀ y, y ∈ l → x.1 ≠ y.1.
Proof.
  rewrite fmap_cons, NoDup_cons. intros [Hx Hnd]. split; [done|].
  intros y Hy Heq. apply Hx. rewrite Heq. by apply list_elem_of_fmap_2.
Qed.

(** ** Maps *)
Section maps.
Context {K : Type} `{Countable K} {V : Type}.
Implicit Types (m : gmap K V) (ks : list K).

Lemma map_to_list_filter_perm (P : K * V → Prop) `{!∀ x, Decision (P x)} m :
  map_to_list (filter P m) ≡ₚ filter P (map_to_list m).
Proof.
  apply NoDup_Permutation; [apply NoDup_map_to_list|apply NoDup_filter, NoDup_map_to_list|].
  intros [k v]. rewrite list_elem_of_filter, !elem_of_map_to_list, map_lookup_filter_Some. tauto.
Qed.
Lemma msize_filter (P : K * V → Prop) `{!∀ x, Decision (P x)} m :
  msize m = msize (filter P m) + msize (filter (λ kv, ¬ P kv) m).
Proof.
  unfold msize. rewrite <-Nat2N.inj_add, <-map_size_disj_union.
  - by rewrite map_filter_union_complement.
  - apply map_disjoint_filter_complement.
Qed.
Lemma msize_filter_le (P : K * V → Prop) `{!∀ x, Decision (P x)} m :
  msize (filter P m) ≤ msize m.
Proof. pose proof (msize_filter P m). lia. Qed.

Lemma msize_to_list m : msize m = nlen (map_to_list m).
Proof. unfold msize, nlen. by rewrite length_map_to_list. Qed.

(** [for key in keys { map.remove(key); }]. *)
Lemma delete_keys_filter m ks :
  foldl (λ (m : gmap K V) k, delete k m) m ks = filter (λ kv, kv.1 ∉ ks) m.
Proof.
  revert m. induction ks as [|k ks IH]; intros m; cbn [foldl].
  { symmetry. apply map_filter_id. intros k v _. set_solver. }
  rewrite IH. apply map_eq. intros i. apply option_eq. intros v.
  rewrite !map_lookup_filter_Some, lookup_delete_Some. simpl. set_solver.
Qed.
Lemma delete_keys_size m ks :
  NoDup ks → (∀ k, k ∈ ks → is_Some (m !! k)) →
  msize (filter (λ kv, kv.1 ∉ ks) m) + nlen ks = msize m.
Proof.
  intros Hnd Hks. rewrite (msize_filter (λ kv, kv.1 ∉ ks) m). f_equal.
  rewrite msize_to_list.
  transitivity (nlen (map_to_list (filter (λ kv : K * V, ¬ (kv.1 ∉ ks)) m)).*1).
  2: { unfold nlen. by rewrite length_fmap. }
  unfold nlen. f_equal. apply Permutation_length, NoDup_Permutation; [done|apply NoDup_fst_map_to_list|].
  intros k. rewrite list_elem_of_fmap. split.
  - intros Hk. destruct (Hks k Hk) as [v Hv]. exists (k, v). split; [done|].
    apply elem_of_map_to_list, map_lookup_filter_Some. simpl. split; [done|]. by intros Hn.
  - intros ([k' v] & -> & [_ Hk]%elem_of_map_to_list%map_lookup_filter_Some). simpl in *.
    destruct (decide (k' ∈ ks)); [done|]. by destruct Hk.
Qed.
End maps.
