(* ===== verification/SocialPolicy.v ===== *)
(** * Policies of the social graph

    crates/nostr-pubsub-social-graph/src/lib.rs: decisions about authors,
    mesh peers and sources from a social graph, combined with the reputation
    of services. The graph is shared behind a lock with whoever updates it,
    and is an argument of every decision. *)

From S2P Require Export MeshTypes.
From Stdlib Require Import SpecFloat.

(** Public keys as text, of the [nostr] crate: [PublicKey::parse] (hexadecimal,
    bech32 or a URI), [to_hex] and [from_hex], and the order of the type. *)
Class KeyText `{!Nostr} : Type := {
  key_parse : string → result string PublicKey;
  key_to_hex : PublicKey → string;
  key_from_hex : string → result string PublicKey;
  key_compare : PublicKey → PublicKey → comparison;
}.
Arguments KeyText _ : clear implicits.
Class KeyTextLaws {NS : Nostr} (K : KeyText NS) : Prop := {
  key_hex_roundtrip key : key_from_hex (key_to_hex key) = Ok key;
  key_parse_hex key : key_parse (key_to_hex key) = Ok key;
}.
#[export] Instance key_to_hex_inj {NS : Nostr} {K : KeyText NS} :
  KeyTextLaws K → Inj (=) (=) (@key_to_hex NS K).
Proof. intros HK x y Hxy. pose proof (key_parse_hex x) as Hx. rewrite Hxy, key_parse_hex in Hx. congruence. Qed.

(** The trait [SocialGraphBackend] of the [nostr_social_graph] crate. *)
Class SocialGraphBackend : Type := {
  Graph : Type;
  get_root : Graph → result string string;
  get_muted_by_user : Graph → string → result string (list string);
  is_overmuted : Graph → string → spec_float → result string bool;
  get_follow_distance : Graph → string → result string N;
}.

Definition DEFAULT_SOCIAL_GRAPH_ENTRYPOINT_NPUB : string :=
  "npub1g53mukxnjkcmr94fhryzkqutdz2ukq4ks0gvy5af25rgmwsl4ngq43drvk".
Definition DEFAULT_UNKNOWN_FOLLOW_DISTANCE : N := 1000.

Inductive GraphDistanceAction : Set := ActAllow | ActThrottle | ActDrop.

Record SocialGraphPolicyConfig : Set := mkSocialConfig {
  trusted_distance : N;
  max_follow_distance : option N;
  unknown_follow_distance : N;
  trusted_priority : Z;
  neutral_priority : Z;
  distance_priority_step : Z;
  outside_graph_priority : Z;
  missing_author_priority : Z;
  outside_graph_action : GraphDistanceAction;
  missing_author_action : GraphDistanceAction;
  drop_root_mutes : bool;
  drop_overmuted : bool;
  overmute_threshold : spec_float;
}.
(** The double 1.0. *)
Definition f64_one : spec_float := S754_finite false 4503599627370496 (-52).
Definition social_config_default : SocialGraphPolicyConfig := {|
  trusted_distance := 2;
  max_follow_distance := None;
  unknown_follow_distance := DEFAULT_UNKNOWN_FOLLOW_DISTANCE;
  trusted_priority := 100;
  neutral_priority := 0;
  distance_priority_step := 10;
  outside_graph_priority := -100;
  missing_author_priority := 0;
  outside_graph_action := ActThrottle;
  missing_author_action := ActAllow;
  drop_root_mutes := true;
  drop_overmuted := true;
  overmute_threshold := f64_one;
|}.

(** ** Decisions *)
Definition decision_from_action (action : GraphDistanceAction) (priority : Z) (reason : string)
    : PolicyDecision :=
  match action with
  | ActAllow => allow_with_priority priority
  | ActThrottle => throttle priority reason
  | ActDrop => drop_decision reason
  end.

(** [i32::try_from(distance).unwrap_or(i32::MAX)]. *)
Definition distance_i32 (distance : N) : Z := Z.min (Z.of_N distance) i32_max.
Definition i32_sat_mul (a b : Z) : Z := clamp i32_min i32_max (a * b).
Definition i32_sat_sub (a b : Z) : Z := clamp i32_min i32_max (a - b).

Definition priority_for_distance (config : SocialGraphPolicyConfig) (distance : N) : Z :=
  if decide (distance ≤ trusted_distance config) then
    let distance_penalty := i32_sat_mul (distance_i32 distance) (distance_priority_step config) in
    i32_sat_sub (trusted_priority config) distance_penalty
  else i32_sat_sub (neutral_priority config) (distance_i32 distance).

Definition outside_reason (distance : N) (config : SocialGraphPolicyConfig) : string :=
  if decide (unknown_follow_distance config ≤ distance) then "author outside social graph"
  else match max_follow_distance config with
       | Some max_distance =>
           "author beyond allowed social graph distance " +:+ pretty max_distance
       | None => "author outside social graph"
       end.

Definition decision_priority (decision : PolicyDecision) : Z :=
  match decision with Allow priority | Throttle priority _ => priority | Drop _ => 0 end.
Definition decision_reason (decision : PolicyDecision) : option string :=
  match decision with Throttle _ reason | Drop reason => Some reason | Allow _ => None end.

Definition combine_source_decisions (graph_decision reputation_decision : PolicyDecision)
    : PolicyDecision :=
  match graph_decision, reputation_decision with
  | Drop reason, _ | _, Drop reason => drop_decision reason
  | _, _ =>
      let priority := i32_sat_add (decision_priority graph_decision)
                        (decision_priority reputation_decision) in
      let reason := match decision_reason reputation_decision with
                    | Some reason => Some reason
                    | None => decision_reason graph_decision
                    end in
      let by_graph :=
        match graph_decision with
        | Throttle _ reason => throttle priority reason
        | Allow _ => match reason with
                     | Some reason => throttle priority reason
                     | None => allow_with_priority priority
                     end
        | Drop reason => drop_decision reason
        end in
      match reputation_decision with
      | Throttle _ reason => throttle priority reason
      | Allow _ => if decide (0 < priority)%Z then allow_with_priority priority else by_graph
      | Drop _ => by_graph
      end
  end.

(** ** Reputation of services *)

(** The trait's method; [decision_for_source_capabilities] is its default. *)
Definition ServiceReputation : Type := EventSource → option string → option PolicyDecision.

Fixpoint find_map {A B} (f : A → option B) (l : list A) : option B :=
  match l with
  | [] => None
  | x :: l => match f x with Some y => Some y | None => find_map f l end
  end.
Definition decision_for_source_capabilities (reputation : ServiceReputation)
    (source : EventSource) (capabilities : list string) : option PolicyDecision :=
  match find_map (λ capability, reputation source (Some capability)) capabilities with
  | Some decision => Some decision
  | None => reputation source None
  end.

Section social.
Context `{!Nostr, K : !KeyText _}.

Definition parse_pubkey_opt (value : string) : option string :=
  match key_parse value with Ok key => Some (key_to_hex key) | Err _ => None end.

(** [ServiceReputationKey]. *)
Definition ServiceReputationKey : Type := string * option string.
Definition service_key_new (source_id : string) (capability : option string)
    : ServiceReputationKey :=
  (default source_id (parse_pubkey_opt source_id), capability).
Definition InMemoryServiceReputation : Type := gmap ServiceReputationKey PolicyDecision.

Definition set_source_decision (source_id : string) (capability : option string)
    (decision : PolicyDecision) (records : InMemoryServiceReputation)
    : InMemoryServiceReputation :=
  <[service_key_new source_id capability := decision]> records.
Definition boost_source (source_id : string) (capability : option string) (priority : Z)
    : InMemoryServiceReputation → InMemoryServiceReputation :=
  set_source_decision source_id capability (allow_with_priority priority).
Definition throttle_source (source_id : string) (capability : option string) (priority : Z)
    (reason : string) : InMemoryServiceReputation → InMemoryServiceReputation :=
  set_source_decision source_id capability (throttle priority reason).
Definition drop_source (source_id : string) (capability : option string) (reason : string)
    : InMemoryServiceReputation → InMemoryServiceReputation :=
  set_source_decision source_id capability (drop_decision reason).
Definition in_memory_decision (records : InMemoryServiceReputation) : ServiceReputation :=
  λ source capability, records !! service_key_new (source_id source) capability.

(** ** The policy *)
Context `{!SocialGraphBackend}.

Record SocialGraphPolicy : Type := mkSocialPolicy {
  sp_config : SocialGraphPolicyConfig;
  sp_service_reputation : option ServiceReputation;
}.
Definition social_policy_new (config : SocialGraphPolicyConfig) : SocialGraphPolicy :=
  mkSocialPolicy config None.
Definition with_service_reputation (reputation : ServiceReputation) (p : SocialGraphPolicy)
    : SocialGraphPolicy :=
  mkSocialPolicy (sp_config p) (Some reputation).

Definition graph_policy_error (error : string) : PubsubError :=
  Validation ("social graph policy error: " +:+ error).
Definition author_is_muted_by_root (graph : Graph) (author_pubkey : string)
    : result string bool :=
  root ← get_root graph;
  muted ← get_muted_by_user graph root;
  Ok (existsb (λ muted_pubkey, bool_decide (muted_pubkey = author_pubkey)) muted).

(** The early return of a [Drop], as a check that may end the function. *)
Definition drop_when (enabled : bool) (check : result string bool) (reason : string)
    (rest : res (PolicyDecision * bool)) : res (PolicyDecision * bool) :=
  if enabled then
    hit ← map_err graph_policy_error check;
    if hit : bool then Ok (drop_decision reason, true) else rest
  else rest.
Definition decision_and_graph_membership_for_author (p : SocialGraphPolicy) (graph : Graph)
    (author_pubkey : string) : res (PolicyDecision * bool) :=
  let config := sp_config p in
  drop_when (drop_root_mutes config) (author_is_muted_by_root graph author_pubkey)
    "author muted by social graph root"
  (drop_when (drop_overmuted config)
    (is_overmuted graph author_pubkey (overmute_threshold config))
    "author overmuted by social graph"
  (distance ← map_err graph_policy_error (get_follow_distance graph author_pubkey);
   let outside := bool_decide (unknown_follow_distance config ≤ distance)
     || is_some_and (λ max_distance, bool_decide (max_distance < distance))
          (max_follow_distance config) in
   if outside then
     Ok (decision_from_action (outside_graph_action config) (outside_graph_priority config)
           (outside_reason distance config), false)
   else Ok (allow_with_priority (priority_for_distance config distance), true))).
Definition decision_for_author (p : SocialGraphPolicy) (graph : Graph) (author_pubkey : string)
    : res PolicyDecision :=
  fst <$> decision_and_graph_membership_for_author p graph author_pubkey.
Definition decision_for_missing_author (p : SocialGraphPolicy) : PolicyDecision :=
  decision_from_action (missing_author_action (sp_config p))
    (missing_author_priority (sp_config p)) "source has no author pubkey".

Definition apply_service_reputation (p : SocialGraphPolicy) (source : EventSource)
    (capabilities : list string) (graph_decision : PolicyDecision) : PolicyDecision :=
  match sp_service_reputation p with
  | None => graph_decision
  | Some reputation =>
      match decision_for_source_capabilities reputation source capabilities with
      | None => graph_decision
      | Some reputation_decision => combine_source_decisions graph_decision reputation_decision
      end
  end.

(** [impl MeshPeerPolicy]. *)
Definition social_select_mesh_peer (p : SocialGraphPolicy) (graph : Graph) (peer_id : string)
    : res (option MeshPeer) :=
  let source := EventSources.fips_endpoint peer_id in
  '(graph_decision, inside_graph) ←
    match parse_pubkey_opt peer_id with
    | Some author_pubkey => decision_and_graph_membership_for_author p graph author_pubkey
    | None => Ok (decision_for_missing_author p, false)
    end;
  let reputation_decision :=
    reputation ← sp_service_reputation p; (reputation : ServiceReputation) source None in
  let '(decision, has_reputation) :=
    match reputation_decision with
    | Some reputation_decision =>
        (combine_source_decisions graph_decision reputation_decision, true)
    | None => (graph_decision, false)
    end in
  Ok (match decision with
      | Drop _ => None
      | Allow priority | Throttle priority _ =>
          if (inside_graph : bool) || has_reputation then Some (MeshPeers.observed peer_id priority)
          else Some (MeshPeers.new peer_id)
      end).

Definition author_pubkey_for_source_policy (candidate : SourceCandidate)
    (author_pubkey : option string) : option string :=
  match author_pubkey with
  | Some author_pubkey => Some author_pubkey
  | None =>
      match source_kind (cand_source candidate) with
      | Peer | FipsEndpoint => parse_pubkey_opt (source_id (cand_source candidate))
      | LocalIndex | Relay => None
      end
  end.

(** [impl PubsubPolicy]. *)
Definition social_check_event (p : SocialGraphPolicy) (graph : Graph) (event : VerifiedEvent)
    (source : EventSource) : res PolicyDecision :=
  decision_for_author p graph (key_to_hex (event_pubkey (as_event event))).
Definition social_check_source (p : SocialGraphPolicy) (graph : Graph)
    (candidate : SourceCandidate) (author_pubkey : option string) (capabilities : list string)
    : res PolicyDecision :=
  graph_decision ←
    match author_pubkey_for_source_policy candidate author_pubkey with
    | Some author_pubkey => decision_for_author p graph author_pubkey
    | None => Ok (decision_for_missing_author p)
    end;
  Ok (apply_service_reputation p (cand_source candidate) capabilities graph_decision).
Definition social_policy (p : SocialGraphPolicy) (graph : Graph) : PubsubPolicy :=
  mkPubsubPolicy (social_check_event p graph) (social_check_source p graph).
End social.

(** ** Facts *)
Lemma combine_drop_l reason r : combine_source_decisions (Drop reason) r = Drop reason.
Proof. done. Qed.
Lemma combine_is_drop g r :
  is_drop (combine_source_decisions g r) = is_drop g || is_drop r.
Proof.
  destruct g as [pg|pg rg|rg], r as [pr|pr rr|rr]; try done;
    unfold combine_source_decisions; by case_decide.
Qed.
(** What both allow gets the sum of their priorities, in the range of [i32]. *)
Lemma combine_priority g r :
  is_drop g = false → is_drop r = false →
  decision_priority (combine_source_decisions g r)
    = i32_sat_add (decision_priority g) (decision_priority r).
Proof.
  destruct g as [pg|pg rg|rg], r as [pr|pr rr|rr]; try done; intros _ _;
    unfold combine_source_decisions; by case_decide.
Qed.
(** A throttled source stays throttled unless its reputation lifts the priority
    above zero. *)
Lemma combine_throttled pg reason r :
  is_drop r = false →
  decision_reason (combine_source_decisions (Throttle pg reason) r) = None →
  ∃ pr, r = Allow pr ∧ (0 < i32_sat_add pg pr)%Z.
Proof.
  destruct r as [pr|pr rr|rr]; try done. intros _. unfold combine_source_decisions.
  case_decide as Hp; [|done]. eauto.
Qed.

Section social_facts.
Context `{!Nostr, K : !KeyText _, !SocialGraphBackend}.

Lemma decision_for_author_Ok p graph author d :
  decision_for_author p graph author = Ok d →
  ∃ inside, decision_and_graph_membership_for_author p graph author = Ok (d, inside).
Proof.
  unfold decision_for_author.
  destruct (decision_and_graph_membership_for_author _ _ _) as [[d' inside]|]; [|done].
  intros [= <-]. eauto.
Qed.

(** An author the graph drops is dropped in every role, whatever the reputation
    of the service it runs: as a mesh peer, as the author of an event and as a
    source. *)
Theorem dropped_author_stays_dropped p graph author reason :
  decision_for_author p graph author = Ok (Drop reason) →
  (∀ peer_id, parse_pubkey_opt peer_id = Some author →
    social_select_mesh_peer p graph peer_id = Ok None) ∧
  (∀ event source, key_to_hex (event_pubkey (as_event event)) = author →
    check_event (social_policy p graph) event source = Ok (Drop reason)) ∧
  (∀ candidate key capabilities, author_pubkey_for_source_policy candidate key = Some author →
    check_source (social_policy p graph) candidate key capabilities = Ok (Drop reason)).
Proof.
  intros Hd. split_and!.
  - intros peer_id Hp. destruct (decision_for_author_Ok _ _ _ _ Hd) as [inside Hm].
    unfold social_select_mesh_peer. rewrite Hp, Hm. simpl.
    destruct (sp_service_reputation p) as [reputation|]; simpl; [|done].
    by destruct (reputation _ _).
  - intros event source <-. exact Hd.
  - intros candidate key capabilities Hk. simpl. unfold social_check_source. rewrite Hk, Hd. simpl.
    unfold apply_service_reputation. destruct (sp_service_reputation p) as [reputation|]; [|done].
    by destruct (decision_for_source_capabilities _ _ _).
Qed.
End social_facts.
