(* ===== verification/SocialReputation.v ===== *)
(** * Reputation of peers from signed ratings

    crates/nostr-pubsub-social-graph/src/reputation.rs, [PeerReputation]: the
    retained ratings of peers, their limits and expiry, and the social graph
    projected from the ratings of the local root and its explicit raters. *)

From S2P Require Export Containers SocialPolicy.

(** The parts of the [nostr_social_graph] and [nostr_social_memory] crates that
    hold and read ratings, and the builder methods of [Filter] used here. *)
Class RatingCrates `{!Nostr, !SocialGraphBackend} : Type := {
  Rating : Type;
  rating_rater : Rating → string;
  rating_subject : Rating → string;
  rating_scope : Rating → option string;
  rating_created_at : Rating → N;
  rating_sample_count : Rating → option N;
  rating_set_rater : string → Rating → Rating;
  rating_set_subject : string → Rating → Rating;
  normalized_score : Rating → result string Z;
  RATING_KIND : N;
  rating_from_event : Event → result string Rating;
  RatingGraphConfig : Type;
  for_scopes : list string → RatingGraphConfig;
  graph_new : string → Graph;
  add_positive_relation : string → string → N → Graph → result string Graph;
  apply_ratings : list Rating → RatingGraphConfig → Graph → result string Graph;
  filter_kind : N → Filter → Filter;
  filter_custom_tag : Ascii.ascii → string → Filter → Filter;
  filter_with_authors : list PublicKey → Filter → Filter;
}.
Arguments RatingCrates _ _ : clear implicits.
(** Struct fields; the parser verifies the event; no ratings change nothing. *)
Class RatingLaws {NS : Nostr} {G : SocialGraphBackend} (R : RatingCrates NS G) : Prop := {
  rating_rater_set s r : rating_rater (rating_set_rater s r) = s;
  rating_rater_set_subject s r : rating_rater (rating_set_subject s r) = rating_rater r;
  rating_subject_set s r : rating_subject (rating_set_subject s r) = s;
  rating_scope_set_rater s r : rating_scope (rating_set_rater s r) = rating_scope r;
  rating_scope_set_subject s r : rating_scope (rating_set_subject s r) = rating_scope r;
  rating_created_set_rater s r : rating_created_at (rating_set_rater s r) = rating_created_at r;
  rating_created_set_subject s r : rating_created_at (rating_set_subject s r) = rating_created_at r;
  rating_created_u64 r : rating_created_at r ≤ u64_max;
  apply_no_ratings config g : apply_ratings [] config g = Ok g;
  rating_event_verified e r : rating_from_event e = Ok r → verified e;
}.

Definition DEFAULT_PEER_RATING_SCOPE : string := "fips.peer".
(** Thirty days and ten minutes, in seconds. *)
Definition PEER_RATING_MAX_AGE : N := 720 * 3600.
Definition PEER_RATING_MAX_FUTURE_SKEW : N := 10 * 60.
Definition PEER_RATING_MAX_ENTRIES : N := 4096.
Definition PEER_RATING_MAX_ENTRIES_PER_RATER : N := 1024.
Definition PEER_REPUTATION_MAX_TRUSTED_RATERS : N := 1024.

Record PeerReputationConfig : Type := mkReputationConfig {
  prc_scope : string;
  prc_policy : SocialGraphPolicyConfig;
  prc_trusted_raters : gset string;
}.
Definition reputation_config_default : PeerReputationConfig :=
  mkReputationConfig DEFAULT_PEER_RATING_SCOPE social_config_default ∅.

(** ** Keys of ratings *)
Record PeerRatingKey : Set := mkRatingKey {
  rk_rater : string;
  rk_subject : string;
  rk_scope : string;
}.
#[export] Instance PeerRatingKey_eq_dec : EqDecision PeerRatingKey.
Proof. solve_decision. Defined.
#[export] Program Instance PeerRatingKey_countable : Countable PeerRatingKey :=
  inj_countable' (λ k, (rk_rater k, rk_subject k, rk_scope k))
    (λ '(r, s, c), mkRatingKey r s c) _.
Next Obligation. by intros []. Qed.
(** The derived order. *)
Definition rating_key_compare : PeerRatingKey → PeerRatingKey → comparison :=
  cmp_then (cmp_on rk_rater String.compare)
    (cmp_then (cmp_on rk_subject String.compare) (cmp_on rk_scope String.compare)).

(** Work counters, and the snapshot of gauges and counters. *)
Record PeerReputationWork : Set := mkWork {
  rating_events_considered : N;
  retained_rating_updates : N;
  graph_rebuilds : N;
  graph_rebuild_rating_entries : N;
}.
Definition work_default : PeerReputationWork := mkWork 0 0 0 0.
Record PeerReputationSnapshot : Set := mkReputationSnapshot {
  sn_retained_ratings : N;
  sn_retained_raters : N;
  sn_trusted_roots : N;
  sn_work : PeerReputationWork;
}.

(** [created_at + max_age + 1], saturating. *)
Definition rating_expires_at (created_at : N) : N :=
  u64_sat_add (u64_sat_add created_at PEER_RATING_MAX_AGE) 1.
Definition rating_time_is_valid (created_at now_secs : N) : bool :=
  bool_decide (created_at ≤ u64_sat_add now_secs PEER_RATING_MAX_FUTURE_SKEW)
  && bool_decide (now_secs - created_at ≤ PEER_RATING_MAX_AGE).

Section reputation.
Context `{!Nostr, K : !KeyText _, !SocialGraphBackend, R : !RatingCrates _ _}.

Definition parse_pubkey (value field : string) : res string :=
  key_to_hex <$> map_err (λ error, Validation ("invalid " +:+ field +:+ ": " +:+ error))
    (key_parse value).

Record StoredPeerRating : Type := mkStored { st_event_id : string; st_rating : Rating }.
Local Notation Ratings := (gmap PeerRatingKey StoredPeerRating).
Definition st_created_at (s : StoredPeerRating) : N := rating_created_at (st_rating s).

Record PeerReputation : Type := mkReputation {
  rp_root : string;
  rp_scope : string;
  rp_trusted_raters : gset string;
  rp_graph_config : RatingGraphConfig;
  rp_graph : Graph;
  rp_latest : Ratings;
  rp_entries_by_rater : gmap string N;
  rp_next_prune_at_secs : option N;
  rp_work : PeerReputationWork;
}.
Definition set_latest (v : Ratings) (s : PeerReputation) : PeerReputation :=
  mkReputation (rp_root s) (rp_scope s) (rp_trusted_raters s) (rp_graph_config s) (rp_graph s)
    v (rp_entries_by_rater s) (rp_next_prune_at_secs s) (rp_work s).
Definition set_entries_by_rater (v : gmap string N) (s : PeerReputation) : PeerReputation :=
  mkReputation (rp_root s) (rp_scope s) (rp_trusted_raters s) (rp_graph_config s) (rp_graph s)
    (rp_latest s) v (rp_next_prune_at_secs s) (rp_work s).
Definition set_next_prune (v : option N) (s : PeerReputation) : PeerReputation :=
  mkReputation (rp_root s) (rp_scope s) (rp_trusted_raters s) (rp_graph_config s) (rp_graph s)
    (rp_latest s) (rp_entries_by_rater s) v (rp_work s).
Definition set_graph (v : Graph) (s : PeerReputation) : PeerReputation :=
  mkReputation (rp_root s) (rp_scope s) (rp_trusted_raters s) (rp_graph_config s) v
    (rp_latest s) (rp_entries_by_rater s) (rp_next_prune_at_secs s) (rp_work s).
Definition set_work (f : PeerReputationWork → PeerReputationWork) (s : PeerReputation)
    : PeerReputation :=
  mkReputation (rp_root s) (rp_scope s) (rp_trusted_raters s) (rp_graph_config s) (rp_graph s)
    (rp_latest s) (rp_entries_by_rater s) (rp_next_prune_at_secs s) (f (rp_work s)).

(** The BTreeMap's iteration. *)
Definition ratings_list (m : Ratings) : list (PeerRatingKey * StoredPeerRating) :=
  sort_by (cmp_on fst rating_key_compare) (map_to_list m).

(** ** The projection *)
Definition seeded_graph (root : string) (trusted_raters : gset string) : res Graph :=
  foldl (λ graph rater, graph ← graph;
      map_err (λ error, Validation ("failed to seed trusted rater: " +:+ error))
        (add_positive_relation root rater 0 graph))
    (Ok (graph_new root)) (btree_elements trusted_raters).
Definition rater_is_authorized (s : PeerReputation) (rater : string) : bool :=
  bool_decide (rater = rp_root s) || bool_decide (rater ∈ rp_trusted_raters s).

(** The graph that [rebuild] writes. *)
Definition projected_graph (s : PeerReputation) : res Graph :=
  graph ← seeded_graph (rp_root s) (rp_trusted_raters s);
  let ratings :=
    st_rating <$> filter (λ stored, rater_is_authorized s (rating_rater (st_rating stored)) = true)
      (ratings_list (rp_latest s)).*2 in
  map_err (λ error, Validation ("failed to apply peer ratings: " +:+ error))
    (apply_ratings ratings (rp_graph_config s) graph).
Definition rebuild : SE PeerReputation PubsubError unit :=
  _ ← se_modify (λ s, set_work (λ w, mkWork (rating_events_considered w)
        (retained_rating_updates w) (u64_sat_add (graph_rebuilds w) 1)
        (u64_sat_add (graph_rebuild_rating_entries w) (msize (rp_latest s)))) s);
  s ← se_get;
  graph ← se_lift (projected_graph s);
  se_modify (set_graph graph).

(** ** Construction *)
Fixpoint parse_all (field : string) (values : list string) : res (list string) :=
  match values with
  | [] => Ok []
  | value :: values =>
      key ← parse_pubkey value field;
      keys ← parse_all field values;
      Ok (key :: keys)
  end.
Definition reputation_new (local_pubkey : string) (config : PeerReputationConfig)
    : res (PeerReputation * SocialGraphPolicy) :=
  if trim_is_empty (prc_scope config) then
    Err (Validation "peer reputation scope must not be empty")
  else if decide (PEER_REPUTATION_MAX_TRUSTED_RATERS < ssize (prc_trusted_raters config)) then
    Err (Validation ("peer reputation trusted raters exceed "
           +:+ pretty PEER_REPUTATION_MAX_TRUSTED_RATERS))
  else
    root ← parse_pubkey local_pubkey "local peer reputation root";
    raters ← parse_all "trusted peer reputation rater"
               (btree_elements (prc_trusted_raters config));
    let trusted_raters := list_to_set raters in
    graph ← seeded_graph root trusted_raters;
    Ok (mkReputation root (prc_scope config) trusted_raters
          (for_scopes [prc_scope config]) graph ∅ ∅ None work_default,
        social_policy_new (prc_policy config)).

(** The authors of the subscription, in the order of their type. *)
Fixpoint keys_from_hex (raters : list string) : res (list PublicKey) :=
  match raters with
  | [] => Ok []
  | rater :: raters =>
      key ← map_err (λ error, Validation ("invalid rating authority: " +:+ error))
              (key_from_hex rater);
      keys ← keys_from_hex raters;
      Ok (key :: keys)
  end.
Definition rating_filter (s : PeerReputation) : res Filter :=
  authors ← keys_from_hex (rp_root s :: btree_elements (rp_trusted_raters s));
  let authors := dedup_by_key id (sort_by key_compare authors) in
  Ok (filter_with_authors authors (filter_custom_tag (Ascii.ascii_of_N 105) (rp_scope s)
        (filter_kind RATING_KIND filter_new))).

Definition reputation_snapshot (s : PeerReputation) : PeerReputationSnapshot := {|
  sn_retained_ratings := msize (rp_latest s);
  sn_retained_raters := msize (rp_entries_by_rater s);
  sn_trusted_roots := ssize (rp_trusted_raters s)
    + (if decide (rp_root s ∈ rp_trusted_raters s) then 0 else 1);
  sn_work := rp_work s;
|}.

(** ** Limits *)

(** [*entries.entry(rater).or_default() += 1]. *)
Definition count_rater (entries : gmap string N) (rater : string) : gmap string N :=
  <[rater := default 0 (entries !! rater) + 1]> entries.
Definition rebuild_entry_counts (s : PeerReputation) : PeerReputation :=
  set_entries_by_rater
    (foldl (λ entries kv, count_rater entries (rk_rater kv.1)) ∅ (ratings_list (rp_latest s))) s.

Definition rating_entry : Type := N * string * PeerRatingKey.
Definition entry_compare : rating_entry → rating_entry → comparison :=
  cmp_then (cmp_on (λ e, e.1.1) N.compare)
    (cmp_then (cmp_on (λ e, e.1.2) String.compare) (cmp_on snd rating_key_compare)).
Definition entry_of (kv : PeerRatingKey * StoredPeerRating) : rating_entry :=
  (st_created_at kv.2, st_event_id kv.2, kv.1).
Definition group_by_rater (m : Ratings) : gmap string (list rating_entry) :=
  foldl (λ (by_rater : gmap string (list rating_entry)) kv,
      <[rk_rater kv.1 := default [] (by_rater !! rk_rater kv.1) ++ [entry_of kv]]> by_rater)
    ∅ (ratings_list m).
(** The keys a rater's own limit removes: its oldest. *)
Definition excess_of_rater (max_entries_per_rater : N) (entries : list rating_entry)
    : list PeerRatingKey :=
  let entries := sort_by entry_compare entries in
  snd <$> take (N.to_nat (nlen entries - max_entries_per_rater)) entries.
Definition limit_raters (max_entries_per_rater : N) (m : Ratings) : Ratings :=
  foldl (λ (m : Ratings) key, delete key m) m
    (mjoin (excess_of_rater max_entries_per_rater <$> btree_values (group_by_rater m))).

Definition ranked_entry : Type := bool * rating_entry.
Definition ranked_compare : ranked_entry → ranked_entry → comparison :=
  cmp_then (cmp_on fst bool_compare) (cmp_on snd entry_compare).
Definition limit_total (authorized : string → bool) (max_entries : N) (m : Ratings) : Ratings :=
  let excess := msize m - max_entries in
  if decide (excess = 0) then m
  else
    let oldest := sort_by ranked_compare
      ((λ kv, (authorized (rk_rater kv.1), entry_of kv)) <$> ratings_list m) in
    foldl (λ (m : Ratings) (e : ranked_entry), delete e.2.2 m) m (take (N.to_nat excess) oldest).
Definition enforce_entry_limits_with (max_entries max_entries_per_rater : N)
    (s : PeerReputation) : PeerReputation :=
  set_latest (limit_total (rater_is_authorized s) max_entries
    (limit_raters max_entries_per_rater (rp_latest s))) s.
Definition enforce_entry_limits : PeerReputation → PeerReputation :=
  enforce_entry_limits_with PEER_RATING_MAX_ENTRIES PEER_RATING_MAX_ENTRIES_PER_RATER.

(** ** Consideration of an event *)

(** The checks, and the rating with its keys in canonical form. *)
Definition parsed_rating (scope : string) (event : Event) (now_secs : N) : option Rating :=
  if decide (event_kind event ≠ RATING_KIND) then None
  else match rating_from_event event with
  | Err _ => None
  | Ok rating =>
      if negb (rating_time_is_valid (rating_created_at rating) now_secs) then None
      else if decide (rating_scope rating ≠ Some scope) then None
      else match key_parse (rating_rater rating) with
      | Err _ => None
      | Ok rater =>
          if decide (rater ≠ event_pubkey event) then None
          else match key_parse (rating_subject rating) with
          | Err _ => None
          | Ok subject =>
              Some (rating_set_subject (key_to_hex subject)
                     (rating_set_rater (key_to_hex rater) rating))
          end
      end
  end.
(** [(created_at, &event_id)] of ratings. *)
Definition stored_compare : StoredPeerRating → StoredPeerRating → comparison :=
  cmp_then (cmp_on st_created_at N.compare) (cmp_on st_event_id String.compare).
Definition stored_ge (existing stored : StoredPeerRating) : bool :=
  match stored_compare existing stored with Lt => false | _ => true end.

(** The insertion of a rating with its count and its expiry. *)
Definition insert_rating (key : PeerRatingKey) (stored : StoredPeerRating) (s : PeerReputation)
    : PeerReputation :=
  let is_new_key := negb (bool_decide (is_Some (rp_latest s !! key))) in
  let expires_at := rating_expires_at (st_created_at stored) in
  let s := set_latest (<[key := stored]> (rp_latest s)) s in
  let s := if is_new_key
           then set_entries_by_rater (count_rater (rp_entries_by_rater s) (rk_rater key)) s
           else s in
  set_next_prune (Some (match rp_next_prune_at_secs s with
                        | None => expires_at
                        | Some scheduled => scheduled `min` expires_at
                        end)) s.
Definition limits_exceeded (key : PeerRatingKey) (s : PeerReputation) : bool :=
  bool_decide (PEER_RATING_MAX_ENTRIES < msize (rp_latest s))
  || bool_decide (PEER_RATING_MAX_ENTRIES_PER_RATER
       < default 0 (rp_entries_by_rater s !! rk_rater key)).

Definition work_considered (w : PeerReputationWork) : PeerReputationWork :=
  mkWork (u64_sat_add (rating_events_considered w) 1) (retained_rating_updates w)
    (graph_rebuilds w) (graph_rebuild_rating_entries w).
Definition work_retained (retained : bool) (w : PeerReputationWork) : PeerReputationWork :=
  mkWork (rating_events_considered w)
    (u64_sat_add (retained_rating_updates w) (if retained then 1 else 0))
    (graph_rebuilds w) (graph_rebuild_rating_entries w).
(** Whether the event changed the retained ratings, and whether the projection
    may have changed. *)
Definition consider_event (event : Event) (now_secs : N) (s : PeerReputation)
    : (bool * bool) * PeerReputation :=
  let s := set_work work_considered s in
  match parsed_rating (rp_scope s) event now_secs with
  | None => ((false, false), s)
  | Some rating =>
      let projection_may_change := rater_is_authorized s (rating_rater rating) in
      let key := mkRatingKey (rating_rater rating) (rating_subject rating) (rp_scope s) in
      let event_id := event_id_to_hex (event_id event) in
      let stored := mkStored event_id rating in
      if is_some_and (λ existing, stored_ge existing stored) (rp_latest s !! key) then
        ((false, false), s)
      else
        let s := insert_rating key stored s in
        let exceeded := limits_exceeded key s in
        let s := if exceeded then rebuild_entry_counts (enforce_entry_limits s) else s in
        let retained := is_some_and (λ st, bool_decide (st_event_id st = event_id))
                          (rp_latest s !! key) in
        ((retained, (retained && projection_may_change) || exceeded),
         set_work (work_retained retained) s)
  end.

(** ** Expiry *)
Definition min_list (l : list N) : option N :=
  match l with [] => None | x :: l => Some (foldl N.min x l) end.
(** [next_prune_at_secs.is_none_or(|next| now_secs < next)]. *)
Definition prune_idle (now_secs : N) (s : PeerReputation) : bool :=
  match rp_next_prune_at_secs s with None => true | Some next => bool_decide (now_secs < next) end.
Definition prune_memory (now_secs : N) (s : PeerReputation) : N * PeerReputation :=
  if prune_idle now_secs s then (0, s)
  else
    let before := msize (rp_latest s) in
    let s := set_latest
      (filter (λ kv, rating_time_is_valid (st_created_at kv.2) now_secs = true) (rp_latest s)) s in
    let removed := before - msize (rp_latest s) in
    let s := if decide (0 < removed) then rebuild_entry_counts s else s in
    (removed, set_next_prune
      (min_list ((λ kv, rating_expires_at (st_created_at kv.2)) <$> ratings_list (rp_latest s))) s).

(** ** Operations *)
Definition lift_pure {S E A} (f : S → A * S) : SE S E A :=
  λ s, let '(a, s) := f s in (Ok a, s).
Definition rebuild_if (dirty : bool) : SE PeerReputation PubsubError unit :=
  if dirty then rebuild else mret tt.
Definition ingest_event_at (event : Event) (now_secs : N) : SE PeerReputation PubsubError bool :=
  pruned ← lift_pure (prune_memory now_secs);
  considered ← lift_pure (consider_event event now_secs);
  let '(accepted, projection_may_change) := considered : bool * bool in
  _ ← rebuild_if (bool_decide (0 < pruned) || projection_may_change);
  mret accepted.
(** The loop of [replay_at]: how many events changed something, and whether the
    projection may have. *)
Fixpoint consider_all (events : list Event) (now_secs : N) (changed : N) (may_change : bool)
    (s : PeerReputation) : (N * bool) * PeerReputation :=
  match events with
  | [] => ((changed, may_change), s)
  | event :: events =>
      let '((accepted, event_may_change), s) := consider_event event now_secs s in
      consider_all events now_secs (changed + (if accepted : bool then 1 else 0))
        (may_change || event_may_change) s
  end.
Definition replay_at (events : list Event) (now_secs : N) : SE PeerReputation PubsubError N :=
  pruned ← lift_pure (prune_memory now_secs);
  considered ← lift_pure (consider_all events now_secs 0 false);
  let '(changed, projection_may_change) := considered : N * bool in
  _ ← rebuild_if (bool_decide (0 < pruned) || projection_may_change);
  mret changed.
Definition reputation_prune (now_secs : N) : SE PeerReputation PubsubError N :=
  removed ← lift_pure (prune_memory now_secs);
  _ ← rebuild_if (bool_decide (0 < removed));
  mret removed.
End reputation.
