(* ===== verification/ToyRating.v ===== *)
(** * Toy ratings

    Small instances of the rating and graph crates, on which the theorems of
    the social graph crate are evaluated. Events of kind 1 are ratings of peer
    9 by their author. *)

From S2P Require Export SocialReputation.

Module ToyRating.
#[local] Existing Instance Toy.toy_nostr.

(** Keys as binary numerals. *)
#[export] Instance toy_keys : KeyText Toy.toy_nostr := {|
  key_parse s := Ok (Pos.pred_N (Toy.of_bits s));
  key_to_hex (k : N) := Toy.bits (N.succ_pos k);
  key_from_hex s := Ok (Pos.pred_N (Toy.of_bits s));
  key_compare := N.compare;
|}.
#[export] Instance toy_keys_laws : KeyTextLaws toy_keys.
Proof. split; intros k; simpl; rewrite Toy.of_bits_bits; f_equal; destruct k; simpl; lia. Qed.

(** A graph is a root, the peers that are followed and those that are muted. *)
Record toy_graph : Set := ToyGraph { tg_root : string; tg_follows : list string; tg_muted : list string }.
#[export] Instance toy_backend : SocialGraphBackend := {|
  Graph := toy_graph;
  get_root g := Ok (tg_root g);
  get_muted_by_user g user := Ok (if decide (user = tg_root g) then tg_muted g else []);
  is_overmuted _ _ _ := Ok false;
  get_follow_distance g user :=
    Ok (if decide (user = tg_root g) then 0 else if decide (user ∈ tg_follows g) then 1 else 1000);
|}.

Record toy_rating : Set := ToyRating {
  tr_rater : string; tr_subject : string; tr_scope : option string; tr_created_at : N; tr_score : Z;
}.
(** A negative rating mutes its subject. *)
Definition toy_apply (rating : toy_rating) (g : toy_graph) : toy_graph :=
  if decide (tr_score rating < 0)%Z
  then ToyGraph (tg_root g) (tg_follows g) (tr_subject rating :: tg_muted g)
  else ToyGraph (tg_root g) (tr_subject rating :: tg_follows g) (tg_muted g).
#[export] Instance toy_ratings : RatingCrates Toy.toy_nostr toy_backend := {|
  Rating := toy_rating;
  rating_rater := tr_rater;
  rating_subject := tr_subject;
  rating_scope := tr_scope;
  rating_created_at r := tr_created_at r `min` u64_max;
  rating_sample_count _ := Some 5;
  rating_set_rater s r := ToyRating s (tr_subject r) (tr_scope r) (tr_created_at r) (tr_score r);
  rating_set_subject s r := ToyRating (tr_rater r) s (tr_scope r) (tr_created_at r) (tr_score r);
  normalized_score r := Ok (tr_score r);
  RATING_KIND := 1;
  rating_from_event e :=
    match event_verify e with
    | Ok _ => Ok (ToyRating (key_to_hex (event_pubkey e)) (key_to_hex (9 : PublicKey)) (Some DEFAULT_PEER_RATING_SCOPE)
                (event_created_at e) (if decide (event_pubkey e = 7%N) then (-100)%Z else 100%Z))
    | Err error => Err error
    end;
  RatingGraphConfig := list string;
  for_scopes scopes := scopes;
  graph_new root := ToyGraph root [] [];
  add_positive_relation root rater _ g := Ok (ToyGraph (tg_root g) (rater :: tg_follows g) (tg_muted g));
  apply_ratings ratings _ g := Ok (foldr toy_apply g ratings);
  filter_kind k f := Toy.ToyFilter (Some k) (Toy.tf_limit f) (Toy.tf_since f) (Toy.tf_until f);
  filter_custom_tag _ _ f := f;
  filter_with_authors _ f := f;
|}.
#[export] Instance toy_ratings_laws : RatingLaws toy_ratings.
Proof.
  split; simpl; try done; [intros; lia|].
  intros e r. unfold verified. simpl. by destruct (Toy.toy_verify_id e && _).
Qed.
End ToyRating.
