(* ===== verification/ReputationInv.v ===== *)
(** * Reputation: limits and invariant

    What the limits of SocialReputation.v keep, and the invariant of its state. *)

From S2P Require Export SocialReputation Ranked.

(** ** Limits of retained ratings

    What [enforce_entry_limits_with] of reputation.rs keeps: its bounds, and
    that the ratings of authorized raters are chosen as if the others were not
    there. *)

#[export] Instance rating_key_compare_order : CmpOrder rating_key_compare.
Proof. apply _. Qed.
#[export] Instance entry_compare_order : CmpOrder entry_compare.
Proof. apply _. Qed.
#[export] Instance ranked_compare_order : CmpOrder ranked_compare.
Proof. apply _. Qed.

Lemma rating_key_compare_eq k k' : rating_key_compare k k' = Eq → k = k'.
Proof.
  unfold rating_key_compare, cmp_then, cmp_on. intros Hc.
  destruct (String.compare (rk_rater k) _) eqn:H1; try done.
  destruct (String.compare (rk_subject k) _) eqn:H2; try done.
  apply String.compare_eq_iff in H1, H2, Hc. destruct k, k'; simpl in *; congruence.
Qed.
Lemma entry_compare_eq e e' : entry_compare e e' = Eq → e = e'.
Proof.
  unfold entry_compare, cmp_then, cmp_on. intros Hc.
  destruct (e.1.1 ?= e'.1.1) eqn:H1; try done.
  destruct (String.compare e.1.2 e'.1.2) eqn:H2; try done.
  apply N.compare_eq_iff in H1. apply String.compare_eq_iff in H2.
  apply rating_key_compare_eq in Hc. destruct e as [[]], e' as [[]]; simpl in *; congruence.
Qed.

Section limits.
Context `{!Nostr, K : !KeyText _, !SocialGraphBackend, R : !RatingCrates _ _}.
Local Notation Ratings := (gmap PeerRatingKey StoredPeerRating).
Implicit Types m : Ratings.

Lemma ratings_list_perm m : ratings_list m ≡ₚ map_to_list m.
Proof. apply sort_by_perm. Qed.
Lemma ratings_list_elem m k st : (k, st) ∈ ratings_list m ↔ m !! k = Some st.
Proof. by rewrite ratings_list_perm, elem_of_map_to_list. Qed.
Lemma ratings_list_NoDup m : NoDup (ratings_list m).*1.
Proof. rewrite ratings_list_perm. apply NoDup_fst_map_to_list. Qed.
Lemma ratings_list_filter (P : PeerRatingKey * StoredPeerRating → Prop) `{!∀ x, Decision (P x)} m :
  ratings_list (filter P m) = filter P (ratings_list m).
Proof.
  unfold ratings_list. rewrite sort_by_filter by apply _. apply (sort_by_perm_eq _).
  - intros [k st] [k' st']. rewrite !elem_of_map_to_list.
    intros Hk Hk' Heq%rating_key_compare_eq. simpl in Heq. congruence.
  - apply map_to_list_filter_perm.
Qed.

(** ** One rater's entries *)
Definition entries_of (r : string) (m : Ratings) : list rating_entry :=
  entry_of <$> filter (λ kv, rk_rater kv.1 = r) (ratings_list m).
Definition rater_count (r : string) (m : Ratings) : N :=
  msize (filter (λ kv, rk_rater kv.1 = r) m).

Lemma entries_of_length r m : nlen (entries_of r m) = rater_count r m.
Proof.
  unfold entries_of, rater_count. rewrite <-ratings_list_filter, msize_to_list.
  unfold nlen. by rewrite length_fmap, ratings_list_perm.
Qed.
Lemma entries_of_keys r m : (entries_of r m).*2 = (filter (λ kv, rk_rater kv.1 = r) (ratings_list m)).*1.
Proof. unfold entries_of. by rewrite <-list_fmap_compose. Qed.
Lemma entries_of_NoDup r m : NoDup (entries_of r m).*2.
Proof. rewrite entries_of_keys. apply NoDup_fmap_filter, ratings_list_NoDup. Qed.
Lemma entries_of_elem r m k :
  k ∈ (entries_of r m).*2 ↔ rk_rater k = r ∧ is_Some (m !! k).
Proof.
  rewrite entries_of_keys, list_elem_of_fmap. split.
  - intros ([k' st] & -> & [Hr Hin%ratings_list_elem]%list_elem_of_filter). simpl in *. eauto.
  - intros [Hr [st Hst]]. exists (k, st). split; [done|].
    apply list_elem_of_filter. split; [done|]. by apply ratings_list_elem.
Qed.

Lemma group_by_rater_lookup m r :
  group_by_rater m !! r = match entries_of r m with [] => None | es => Some es end.
Proof.
  unfold group_by_rater, entries_of.
  assert (∀ l (acc : gmap string (list rating_entry)),
    (∀ r, acc !! r ≠ Some []) →
    foldl (λ (by_rater : gmap string (list rating_entry)) kv,
      <[rk_rater kv.1 := default [] (by_rater !! rk_rater kv.1) ++ [entry_of kv]]> by_rater) acc l !! r
    = match default [] (acc !! r) ++ (entry_of <$> filter (λ kv, rk_rater kv.1 = r) l) with
      | [] => None | es => Some es end) as Hfold.
  2: { rewrite Hfold; [|intros ?; by rewrite lookup_empty]. by rewrite lookup_empty. }
  intros l. induction l as [|kv l IH]; intros acc Hacc; cbn [foldl].
  { rewrite app_nil_r. specialize (Hacc r). by destruct (acc !! r) as [[|]|]. }
  rewrite IH.
  - rewrite filter_cons. destruct (decide (rk_rater kv.1 = r)) as [->|Hne].
    + rewrite lookup_insert_eq. simpl. by rewrite <-app_assoc.
    + by rewrite lookup_insert_ne by done.
  - intros r' [[_ Hnil]|[_ Hr']]%lookup_insert_Some; [|by eapply Hacc].
    by apply app_eq_nil in Hnil as [_ ?].
Qed.

Lemma excess_of_rater_sub n es k : k ∈ excess_of_rater n es → k ∈ es.*2.
Proof.
  unfold excess_of_rater. rewrite !list_elem_of_fmap. intros (e & -> & He).
  apply elem_of_take in He as (i & He & _). apply list_elem_of_lookup_2, sort_by_elem in He. eauto.
Qed.

(** The removal of a rater's excess, as a filter. *)
Lemma limit_raters_filter n m :
  limit_raters n m
    = filter (λ kv, kv.1 ∉ excess_of_rater n (entries_of (rk_rater kv.1) m)) m.
Proof.
  unfold limit_raters. rewrite delete_keys_filter. apply map_filter_ext. intros k st Hk. simpl.
  apply not_iff_compat. rewrite list_elem_of_join. split.
  - intros (ks & Hin & (es & -> & Hes)%list_elem_of_fmap).
    apply btree_values_elem in Hes as [r Hr]. rewrite group_by_rater_lookup in Hr.
    destruct (entries_of r m) as [|e es'] eqn:Hes; [done|]. injection Hr as <-. rewrite <-Hes in *.
    pose proof (excess_of_rater_sub _ _ _ Hin) as Hsub. apply entries_of_elem in Hsub as [-> _]. done.
  - intros Hin. exists (excess_of_rater n (entries_of (rk_rater k) m)). split; [done|].
    apply list_elem_of_fmap. eexists. split; [done|]. apply btree_values_elem.
    exists (rk_rater k). rewrite group_by_rater_lookup.
    destruct (entries_of (rk_rater k) m) eqn:He; [|done].
    apply excess_of_rater_sub in Hin. by apply list_elem_of_fmap in Hin as (? & _ & ?%elem_of_nil).
Qed.

Lemma excess_of_rater_length n es : nlen (excess_of_rater n es) = nlen es - n.
Proof.
  unfold excess_of_rater, nlen, rating_entry.
  rewrite length_fmap, length_take, !sort_by_length. lia.
Qed.
Lemma sorted_keys_NoDup {A} (cmp : A → A → comparison) {B} (key : A → B) l j :
  NoDup (key <$> l) → NoDup (key <$> take j (sort_by cmp l)).
Proof.
  intros Hnd. rewrite fmap_take. eapply sublist_NoDup; [|apply sublist_take].
  by rewrite sort_by_perm.
Qed.

Lemma limit_raters_count n m r : rater_count r (limit_raters n m) ≤ n.
Proof.
  unfold rater_count. rewrite limit_raters_filter.
  rewrite map_filter_comm. set (ks := excess_of_rater n (entries_of r m)).
  set (mr := filter (λ kv, rk_rater kv.1 = r) m).
  assert (filter (λ kv, kv.1 ∉ excess_of_rater n (entries_of (rk_rater kv.1) m)) mr
    = filter (λ kv, kv.1 ∉ ks) mr) as ->.
  { apply map_filter_ext. intros k st [_ Hr]%map_lookup_filter_Some. simpl in *. by rewrite Hr. }
  assert (nlen ks = msize mr - n) as Hks.
  { unfold ks. by rewrite excess_of_rater_length, entries_of_length. }
  enough (msize (filter (λ kv, kv.1 ∉ ks) mr) + nlen ks = msize mr) by lia.
  apply delete_keys_size; [apply sorted_keys_NoDup, entries_of_NoDup|].
  intros k Hk%excess_of_rater_sub%entries_of_elem. destruct Hk as [Hr [st Hst]].
  exists st. by apply map_lookup_filter_Some.
Qed.
Lemma limit_raters_id n m : (∀ r, rater_count r m ≤ n) → limit_raters n m = m.
Proof.
  intros Hm. rewrite limit_raters_filter. apply map_filter_id. intros k st _. simpl.
  assert (excess_of_rater n (entries_of (rk_rater k) m) = []) as ->; [|apply not_elem_of_nil].
  apply length_zero_iff_nil. pose proof (excess_of_rater_length n (entries_of (rk_rater k) m)).
  rewrite entries_of_length in *. specialize (Hm (rk_rater k)). unfold nlen in *. lia.
Qed.

(** ** All entries *)
Context (auth : string → bool).

Definition ranked (m : Ratings) : list ranked_entry :=
  (λ kv, (auth (rk_rater kv.1), entry_of kv)) <$> ratings_list m.
Definition dropped_keys (n : N) (m : Ratings) : list PeerRatingKey :=
  (λ e : ranked_entry, e.2.2) <$> take (N.to_nat (msize m - n)) (sort_by ranked_compare (ranked m)).

Lemma ranked_keys m : (λ e : ranked_entry, e.2.2) <$> ranked m = (ratings_list m).*1.
Proof. unfold ranked. by rewrite <-list_fmap_compose. Qed.
Lemma ranked_length m : nlen (ranked m) = msize m.
Proof. unfold ranked. rewrite msize_to_list. unfold nlen. by rewrite length_fmap, ratings_list_perm. Qed.
Lemma ranked_flag m e : e ∈ ranked m → e.1 = auth (rk_rater e.2.2).
Proof. unfold ranked. by intros (kv & -> & _)%list_elem_of_fmap. Qed.

(** The removal of the oldest, as a filter. *)
Lemma limit_total_filter n m :
  limit_total auth n m = filter (λ kv, kv.1 ∉ dropped_keys n m) m.
Proof.
  unfold limit_total, dropped_keys. fold (ranked m). case_decide as Hz.
  - rewrite Hz. symmetry. apply map_filter_id. intros k st _. simpl. apply not_elem_of_nil.
  - rewrite <-delete_keys_filter. generalize (take (N.to_nat (msize m - n)) (sort_by ranked_compare (ranked m))).
    intros l. generalize m. induction l as [|e l IH]; intros m'; [done|]. cbn. apply IH.
Qed.
Lemma dropped_keys_NoDup n m : NoDup (dropped_keys n m).
Proof. apply sorted_keys_NoDup. rewrite ranked_keys. apply ratings_list_NoDup. Qed.
Lemma dropped_keys_elem n m k : k ∈ dropped_keys n m → is_Some (m !! k).
Proof.
  unfold dropped_keys. intros (e & -> & He)%list_elem_of_fmap.
  apply elem_of_take in He as (i & He & _). apply list_elem_of_lookup_2, sort_by_elem in He.
  unfold ranked in He. apply list_elem_of_fmap in He as ([k st] & -> & Hin%ratings_list_elem). eauto.
Qed.

Lemma limit_total_size n m : msize (limit_total auth n m) ≤ n.
Proof.
  rewrite limit_total_filter.
  pose proof (delete_keys_size m (dropped_keys n m) (dropped_keys_NoDup n m) (dropped_keys_elem n m)).
  assert (nlen (dropped_keys n m) = msize m - n) as Hn; [|lia].
  rewrite <-ranked_length. unfold dropped_keys, nlen.
  rewrite length_fmap, length_take, sort_by_length, <-ranked_length. unfold nlen. lia.
Qed.
Lemma limit_total_id n m : msize m ≤ n → limit_total auth n m = m.
Proof. intros Hm. unfold limit_total. by rewrite decide_True by lia. Qed.

(** ** The authorized part is chosen alone *)
Notation authorized := (filter (λ kv, auth (rk_rater kv.1) = true)).

Lemma limit_raters_authorized n m :
  authorized (limit_raters n m) = limit_raters n (authorized m).
Proof.
  rewrite !limit_raters_filter, map_filter_comm. apply map_filter_ext.
  intros k st [_ Hauth]%map_lookup_filter_Some. simpl in *.
  assert (entries_of (rk_rater k) (authorized m) = entries_of (rk_rater k) m) as ->; [|done].
  unfold entries_of. rewrite ratings_list_filter, list_filter_filter. f_equal.
  apply filter_ext_in. intros kv _. split; [by intros []|]. intros Heq. by rewrite Heq.
Qed.

Lemma ranked_authorized m : ranked (authorized m) = filter (λ e, e.1 = true) (ranked m).
Proof.
  unfold ranked. rewrite ratings_list_filter, filter_of_fmap. done.
Qed.
Lemma ranked_compare_flag (x y : ranked_entry) :
  ranked_compare x y = cmp_then (cmp_on fst bool_compare) (cmp_on snd entry_compare) x y.
Proof. done. Qed.

Lemma dropped_keys_authorized n m k :
  auth (rk_rater k) = true →
  k ∈ dropped_keys n m ↔ k ∈ dropped_keys n (authorized m).
Proof.
  intros Hk. unfold dropped_keys.
  rewrite ranked_authorized, <-(sort_by_filter ranked_compare).
  set (l := sort_by ranked_compare (ranked m)).
  assert (l = filter (λ e, e.1 = false) l ++ filter (λ e, e.1 = true) l) as Hl
    by (apply (sort_by_flag fst ranked_compare (cmp_on snd entry_compare)), ranked_compare_flag).
  set (u := filter (λ e, e.1 = false) l) in *. set (a := filter (λ e, e.1 = true) l) in *.
  assert (nlen u + nlen a = msize m) as Hlen.
  { rewrite <-nlen_app, <-Hl, <-ranked_length. unfold nlen, l. by rewrite sort_by_length. }
  assert (nlen a = msize (authorized m)) as Ha.
  { unfold a, l. rewrite sort_by_filter, <-ranked_authorized, <-ranked_length by apply _.
    unfold nlen. by rewrite sort_by_length. }
  change (k ∈ (λ e : ranked_entry, e.2.2) <$> take (N.to_nat (msize m - n)) l ↔
    k ∈ (λ e : ranked_entry, e.2.2) <$> take (N.to_nat (msize (authorized m) - n)) a).
  rewrite Hl, take_app, fmap_app, elem_of_app.
  replace (N.to_nat (msize m - n) - length u)%nat with (N.to_nat (msize (authorized m) - n))
    by (unfold nlen in *; lia).
  split; [|by right]. intros [Hu|?]; [|done]. exfalso.
  apply list_elem_of_fmap in Hu as (e & -> & He). apply elem_of_take in He as (i & He & _).
  apply list_elem_of_lookup_2, list_elem_of_filter in He as [Hf He].
  unfold l in He. apply sort_by_elem, ranked_flag in He.
  assert (true = false) by (rewrite <-Hk, <-Hf; symmetry; exact He). done.
Qed.
Lemma limit_total_authorized n m :
  authorized (limit_total auth n m) = limit_total auth n (authorized m).
Proof.
  rewrite !limit_total_filter, map_filter_comm. apply map_filter_ext.
  intros k st [_ Hauth]%map_lookup_filter_Some. simpl in *.
  apply not_iff_compat. by apply dropped_keys_authorized.
Qed.

(** ** Both limits *)
Definition enforced (n p : N) (m : Ratings) : Ratings := limit_total auth n (limit_raters p m).

Lemma rater_count_filter r (P : PeerRatingKey * StoredPeerRating → Prop)
    `{!∀ x, Decision (P x)} m :
  rater_count r (filter P m) ≤ rater_count r m.
Proof. unfold rater_count. rewrite map_filter_comm. apply msize_filter_le. Qed.

Lemma enforced_authorized n p m : authorized (enforced n p m) = enforced n p (authorized m).
Proof. unfold enforced. by rewrite limit_total_authorized, limit_raters_authorized. Qed.
Lemma enforced_size n p m : msize (enforced n p m) ≤ n.
Proof. apply limit_total_size. Qed.
Lemma enforced_count n p m r : rater_count r (enforced n p m) ≤ p.
Proof.
  unfold enforced. rewrite limit_total_filter. etransitivity; [apply rater_count_filter|].
  apply limit_raters_count.
Qed.
Lemma enforced_id n p m :
  msize m ≤ n → (∀ r, rater_count r m ≤ p) → enforced n p m = m.
Proof. intros Hm Hr. unfold enforced. by rewrite limit_raters_id, limit_total_id. Qed.
Lemma enforced_subseteq n p m : enforced n p m ⊆ m.
Proof.
  unfold enforced. rewrite limit_total_filter, limit_raters_filter.
  etransitivity; apply map_filter_subseteq.
Qed.
End limits.

(** ** Invariant of peer reputation

    What every operation of reputation.rs keeps: exact counts per rater, the
    limits, the schedule of expiry, where the retained ratings come from, and
    that the shared graph is the projection of the authorized ones. *)

(** ** Counts per rater *)
Section counts.
Context `{!Nostr, K : !KeyText _, !SocialGraphBackend, R : !RatingCrates _ _}.
Local Notation Ratings := (gmap PeerRatingKey StoredPeerRating).
Implicit Types m : Ratings.

(** The map [entries_by_rater] for these ratings. *)
Definition counts_ok (m : Ratings) (counts : gmap string N) : Prop :=
  ∀ r, counts !! r = if decide (rater_count r m = 0) then None else Some (rater_count r m).

Lemma counts_default m counts r : counts_ok m counts → default 0 (counts !! r) = rater_count r m.
Proof. intros Hok. rewrite Hok. case_decide as Hz; simpl; [by rewrite Hz|done]. Qed.
Lemma rater_count_insert m k st r :
  m !! k = None →
  rater_count r (<[k:=st]> m) = rater_count r m + if decide (rk_rater k = r) then 1 else 0.
Proof.
  intros Hk. unfold rater_count. case_decide as Hr.
  - rewrite map_filter_insert_True by done. rewrite msize_insert_new; [done|].
    apply map_lookup_filter_None. by left.
  - rewrite map_filter_insert_False by done. rewrite delete_id by done. lia.
Qed.
Lemma rater_count_replace m k st st' r :
  m !! k = Some st → rater_count r (<[k:=st']> m) = rater_count r m.
Proof.
  intros Hk. unfold rater_count. destruct (decide (rk_rater k = r)) as [Hr|Hr].
  - rewrite map_filter_insert_True by done. apply msize_insert_old.
    exists st. by apply map_lookup_filter_Some.
  - by rewrite map_filter_insert_not' by (simpl; auto).
Qed.
Lemma count_rater_ok m counts k st :
  m !! k = None → counts_ok m counts → counts_ok (<[k:=st]> m) (count_rater counts (rk_rater k)).
Proof.
  intros Hk Hok r. unfold count_rater. rewrite (counts_default _ _ _ Hok), rater_count_insert by done.
  destruct (decide (rk_rater k = r)) as [<-|Hr].
  - rewrite lookup_insert_eq, decide_False by lia. done.
  - rewrite lookup_insert_ne by done. rewrite N.add_0_r. apply Hok.
Qed.

Lemma counts_rebuilt m :
  counts_ok m (foldl (λ entries kv, count_rater entries (rk_rater kv.1)) ∅ (ratings_list m)).
Proof.
  assert (∀ (l : list (PeerRatingKey * StoredPeerRating)) acc m0, counts_ok m0 acc → NoDup l.*1 →
    (∀ kv, kv ∈ l → m0 !! kv.1 = None) →
    counts_ok (foldl (λ (m : Ratings) kv, <[kv.1 := kv.2]> m) m0 l)
      (foldl (λ entries kv, count_rater entries (rk_rater kv.1)) acc l)) as Hfold.
  { intros l. induction l as [|[k st] l IH]; intros acc m0 Hok Hnd Hl; [done|]. cbn [foldl].
    apply NoDup_fst_cons in Hnd as [Hnd Hk]. apply IH; [|done|].
    - apply count_rater_ok; [|done]. apply (Hl (k, st)). left.
    - intros kv Hkv. rewrite lookup_insert_ne by by apply Hk. apply Hl. by right. }
  specialize (Hfold (ratings_list m) ∅ ∅).
  assert (foldl (λ (m : Ratings) kv, <[kv.1 := kv.2]> m) ∅ (ratings_list m) = m) as Hm.
  { rewrite <-(list_to_map_to_list m) at 2.
    assert (∀ (l : list (PeerRatingKey * StoredPeerRating)) m0, NoDup l.*1 →
      (∀ kv, kv ∈ l → m0 !! kv.1 = None) →
      foldl (λ (m : Ratings) kv, <[kv.1 := kv.2]> m) m0 l = list_to_map l ∪ m0) as Hl.
    { intros l. induction l as [|[k st] l IH]; intros m0 Hnd Hl; simpl; [by rewrite map_empty_union|].
      apply NoDup_fst_cons in Hnd as [Hnd Hk]. rewrite IH; [|done|].
      - rewrite <-insert_union_r, insert_union_l; [done|]. apply not_elem_of_list_to_map_1.
        intros (kv & -> & Hkv)%list_elem_of_fmap. by apply (Hk kv).
      - intros kv Hkv. rewrite lookup_insert_ne by by apply Hk. apply Hl. by right. }
    rewrite Hl; [|apply ratings_list_NoDup|intros; apply lookup_empty].
    rewrite map_union_empty. apply list_to_map_proper; [apply ratings_list_NoDup|apply ratings_list_perm]. }
  rewrite Hm in Hfold. apply Hfold; [|apply ratings_list_NoDup|intros; apply lookup_empty].
  intros r. by rewrite lookup_empty.
Qed.
End counts.

(** ** The invariant *)
Section invariant.
Context `{!Nostr, K : !KeyText _, !SocialGraphBackend, R : !RatingCrates _ _}.
Context `{!KeyTextLaws K, !RatingLaws R}.
Local Notation Ratings := (gmap PeerRatingKey StoredPeerRating).
Implicit Types (m : Ratings) (s : PeerReputation).

(** What an event offers: its key and the rating to retain. *)
Definition offered (scope : string) (event : Event) (now : N)
    : option (PeerRatingKey * StoredPeerRating) :=
  rating ← parsed_rating scope event now;
  Some (mkRatingKey (rating_rater rating) (rating_subject rating) scope,
        mkStored (event_id_to_hex (event_id event)) rating).
(** The retained ratings after one event: the newer rating of a pair is kept,
    within the limits. *)
Definition consider_ratings (auth : string → bool) (scope : string) (event : Event) (now : N)
    (m : Ratings) : Ratings :=
  match offered scope event now with
  | None => m
  | Some (key, stored) =>
      if is_some_and (λ existing, stored_ge existing stored) (m !! key) then m
      else enforced auth PEER_RATING_MAX_ENTRIES PEER_RATING_MAX_ENTRIES_PER_RATER
             (<[key := stored]> m)
  end.

(** A retained rating comes from a verified event of its rater. *)
Definition rating_origin (events : list Event) (scope : string) (key : PeerRatingKey)
    (stored : StoredPeerRating) (e : Event) : Prop :=
  e ∈ events ∧ verified e ∧ event_kind e = RATING_KIND ∧
  key_to_hex (event_pubkey e) = rk_rater key ∧
  st_event_id stored = event_id_to_hex (event_id e) ∧
  rating_rater (st_rating stored) = rk_rater key ∧
  rating_subject (st_rating stored) = rk_subject key ∧
  rating_scope (st_rating stored) = Some scope ∧ rk_scope key = scope.

Record reputation_ok (events : list Event) (now : N) s : Prop := {
  ro_counts : counts_ok (rp_latest s) (rp_entries_by_rater s);
  ro_size : msize (rp_latest s) ≤ PEER_RATING_MAX_ENTRIES;
  ro_per_rater r : rater_count r (rp_latest s) ≤ PEER_RATING_MAX_ENTRIES_PER_RATER;
  ro_schedule k st : rp_latest s !! k = Some st →
    ∃ next, rp_next_prune_at_secs s = Some next ∧ next ≤ rating_expires_at (st_created_at st);
  ro_valid k st : rp_latest s !! k = Some st → rating_time_is_valid (st_created_at st) now = true;
  ro_origin k st : rp_latest s !! k = Some st →
    ∃ e, rating_origin events (rp_scope s) k st e;
}.

(** What the operations on ratings leave alone. *)
Definition settings s : string * string * gset string * RatingGraphConfig * Graph :=
  (rp_root s, rp_scope s, rp_trusted_raters s, rp_graph_config s, rp_graph s).
Definition authorized_part s : Ratings :=
  filter (λ kv, rater_is_authorized s (rk_rater kv.1) = true) (rp_latest s).

Lemma settings_authorized s s' : settings s = settings s' → rater_is_authorized s = rater_is_authorized s'.
Proof. unfold settings, rater_is_authorized. intros [= -> _ -> _ _]. done. Qed.

Lemma parsed_rating_Some scope e now r :
  parsed_rating scope e now = Some r →
  verified e ∧ event_kind e = RATING_KIND ∧ key_to_hex (event_pubkey e) = rating_rater r ∧
  rating_scope r = Some scope ∧ rating_time_is_valid (rating_created_at r) now = true.
Proof.
  unfold parsed_rating. case_decide as Hkind; [done|].
  destruct (rating_from_event e) as [r0|] eqn:Hr; [|done].
  destruct (rating_time_is_valid (rating_created_at r0) now) eqn:Ht; [|done]. simpl.
  case_decide as Hs; [done|].
  destruct (key_parse (rating_rater r0)) as [key|]; [|done].
  case_decide as Hk; [done|]. destruct (key_parse (rating_subject r0)) as [subject|]; [|done].
  intros [= <-].
  rewrite rating_rater_set_subject, rating_rater_set, rating_scope_set_subject, rating_scope_set_rater,
    rating_created_set_subject, rating_created_set_rater, Hk.
  split_and!; [by eapply rating_event_verified|done..].
Qed.
Lemma offered_Some scope e now k st events :
  offered scope e now = Some (k, st) → e ∈ events →
  rating_origin events scope k st e ∧ rating_time_is_valid (st_created_at st) now = true.
Proof.
  unfold offered. destruct (parsed_rating scope e now) as [r|] eqn:Hp; [|done]. simpl.
  intros [= <- <-] Hin. apply parsed_rating_Some in Hp as (?&?&?&?&?). by repeat split.
Qed.

Lemma insert_rating_fields k st s :
  let s' := insert_rating k st s in
  settings s' = settings s ∧ rp_latest s' = <[k := st]> (rp_latest s) ∧
  ∃ next, rp_next_prune_at_secs s' = Some next ∧ next ≤ rating_expires_at (st_created_at st) ∧
    ∀ next0, rp_next_prune_at_secs s = Some next0 → next ≤ next0.
Proof.
  unfold insert_rating. destruct (negb _); simpl; split_and!; try done.
  all: destruct (rp_next_prune_at_secs s); eexists; (split; [done|]);
    (split; [lia|]); intros ? [= <-]; lia.
Qed.
Lemma insert_rating_counts events now s k st :
  reputation_ok events now s →
  counts_ok (<[k := st]> (rp_latest s)) (rp_entries_by_rater (insert_rating k st s)).
Proof.
  intros Hok. unfold insert_rating.
  destruct (rp_latest s !! k) as [st0|] eqn:Hk; simpl.
  - intros r. rewrite (rater_count_replace _ _ st0) by done. apply (ro_counts _ _ _ Hok).
  - apply count_rater_ok; [done|apply (ro_counts _ _ _ Hok)].
Qed.
(** Within the limits nothing is removed. *)
Lemma insert_rating_fits events now s k st auth :
  reputation_ok events now s → limits_exceeded k (insert_rating k st s) = false →
  enforced auth PEER_RATING_MAX_ENTRIES PEER_RATING_MAX_ENTRIES_PER_RATER (<[k := st]> (rp_latest s))
    = <[k := st]> (rp_latest s).
Proof.
  intros Hok. unfold limits_exceeded.
  destruct (insert_rating_fields k st s) as (_ & -> & _).
  rewrite (counts_default _ _ _ (insert_rating_counts _ _ _ _ _ Hok)), orb_false_iff,
    !bool_decide_eq_false.
  intros [Hm Hr]. apply enforced_id; [lia|]. intros r.
  destruct (decide (rk_rater k = r)) as [<-|Hne]; [lia|].
  pose proof (ro_per_rater _ _ _ Hok r). destruct (rp_latest s !! k) as [st0|] eqn:Hk.
  - by rewrite (rater_count_replace _ _ st0).
  - by rewrite rater_count_insert, decide_False, N.add_0_r.
Qed.

(** The ratings that [consider_event] keeps are a function of those before, and
    an authorized part that changed is reported. *)
Lemma consider_event_latest events now s e :
  reputation_ok events now s →
  let '((_, may_change), s') := consider_event e now s in
  settings s' = settings s ∧
  rp_latest s' = consider_ratings (rater_is_authorized s) (rp_scope s) e now (rp_latest s) ∧
  counts_ok (rp_latest s') (rp_entries_by_rater s') ∧
  (may_change = false → authorized_part s' = authorized_part s).
Proof.
  intros Hok. unfold consider_event, consider_ratings, offered. cbn [rp_scope set_work rp_latest].
  destruct (parsed_rating (rp_scope s) e now) as [r|] eqn:Hp; simpl.
  2: { split_and!; [done..|apply (ro_counts _ _ _ Hok)|done]. }
  set (k := mkRatingKey _ _ _). set (st := mkStored _ _).
  destruct (is_some_and _ (rp_latest s !! k)); [split_and!; [done..|apply (ro_counts _ _ _ Hok)|done]|].
  assert (reputation_ok events now (set_work work_considered s)) as Hok0 by (by destruct Hok).
  destruct (insert_rating_fields k st (set_work work_considered s)) as (Hf & Hl & _).
  pose proof (insert_rating_counts _ _ _ k st Hok0) as Hc.
  pose proof (insert_rating_fits _ _ _ k st (rater_is_authorized s) Hok0) as Hid.
  set (s1 := insert_rating k st _) in *. clearbody s1. cbn [rp_latest set_work] in *.
  pose proof (settings_authorized _ _ Hf) as Ha.
  unfold authorized_part, enforce_entry_limits, enforce_entry_limits_with, rebuild_entry_counts.
  destruct (limits_exceeded k s1);
    cbn [rp_latest rp_entries_by_rater set_work set_latest set_entries_by_rater].
  - rewrite Ha, Hl. split_and!; [done|done|apply counts_rebuilt|].
    by rewrite orb_true_r.
  - rewrite Hl, Hid by done. split_and!; [done..|].
    rewrite lookup_insert_eq. cbn [is_some_and]. rewrite bool_decide_eq_true_2, orb_false_r by done.
    change (rater_is_authorized (set_work (work_retained true) s1)) with (rater_is_authorized s1).
    rewrite Ha. intros Hauth. apply map_filter_insert_not. intros st'.
    change (¬ rater_is_authorized s (rating_rater r) = true).
    change (rater_is_authorized s (rating_rater r) = false) in Hauth. by rewrite Hauth.
Qed.

(** ** Preservation *)
Lemma consider_ratings_elem auth scope e now m k st :
  consider_ratings auth scope e now m !! k = Some st →
  m !! k = Some st ∨ offered scope e now = Some (k, st).
Proof.
  unfold consider_ratings. destruct (offered scope e now) as [[k' st']|]; [|auto].
  destruct (is_some_and _ _); [auto|]. intros Hk.
  pose proof (lookup_weaken _ _ _ _ Hk (enforced_subseteq auth _ _ _)) as Hin.
  apply lookup_insert_Some in Hin as [[<- <-]|[_ ?]]; auto.
Qed.
Definition schedule_ok (m : Ratings) (next : option N) : Prop :=
  ∀ k st, m !! k = Some st → ∃ t, next = Some t ∧ t ≤ rating_expires_at (st_created_at st).

Lemma consider_event_schedule now s e :
  schedule_ok (rp_latest s) (rp_next_prune_at_secs s) →
  let s' := (consider_event e now s).2 in schedule_ok (rp_latest s') (rp_next_prune_at_secs s').
Proof.
  intros Hok. unfold consider_event. cbn [rp_scope set_work rp_latest].
  destruct (parsed_rating (rp_scope s) e now) as [r|]; [|done].
  set (k := mkRatingKey _ _ _). set (st := mkStored _ _).
  destruct (is_some_and _ (rp_latest s !! k)); [done|].
  destruct (insert_rating_fields k st (set_work work_considered s)) as (_ & Hl & next & Hn & Hle & Hmin).
  set (s1 := insert_rating k st _) in *. clearbody s1. cbn [rp_latest set_work rp_next_prune_at_secs] in *.
  assert (schedule_ok (rp_latest s1) (rp_next_prune_at_secs s1)) as Hs1.
  { rewrite Hl, Hn. intros k' st' [[<- <-]|[_ Hk']]%lookup_insert_Some; [eauto|].
    destruct (Hok k' st' Hk') as (t & Ht & ?). specialize (Hmin t Ht). exists next. split; [done|lia]. }
  destruct (limits_exceeded k s1); [|done]. intros k' st' Hk'. apply (Hs1 k' st').
  exact (lookup_weaken _ _ _ _ Hk' (enforced_subseteq (rater_is_authorized s1) _ _ (rp_latest s1))).
Qed.

Lemma consider_event_ok events now s e :
  reputation_ok events now s → e ∈ events → reputation_ok events now (consider_event e now s).2.
Proof.
  intros Hok He. pose proof (consider_event_latest _ _ _ e Hok) as Hlatest.
  pose proof (consider_event_schedule now s e (ro_schedule _ _ _ Hok)) as Hsched.
  destruct (consider_event e now s) as [[accepted may] s']. destruct Hlatest as (Hf & Hl & Hc & _).
  cbn [snd] in *. pose proof (f_equal (λ x, x.1.1.1.2) Hf) as Hscope. cbn in Hscope.
  assert (∀ k st, rp_latest s' !! k = Some st →
    rp_latest s !! k = Some st ∨ offered (rp_scope s) e now = Some (k, st)) as Hold.
  { rewrite Hl. intros k st. apply consider_ratings_elem. }
  split; [done| | |exact Hsched| |].
  - rewrite Hl. unfold consider_ratings. pose proof (ro_size _ _ _ Hok).
    destruct (offered _ _ _) as [[]|]; [|done]. destruct (is_some_and _ _); [done|]. apply enforced_size.
  - intros r. rewrite Hl. unfold consider_ratings. pose proof (ro_per_rater _ _ _ Hok r).
    destruct (offered _ _ _) as [[]|]; [|done]. destruct (is_some_and _ _); [done|]. apply enforced_count.
  - intros k st [Hk|Hk]%Hold; [by eapply ro_valid|]. by eapply offered_Some.
  - rewrite Hscope. intros k st [Hk|Hk]%Hold; [by eapply ro_origin|]. exists e. by eapply offered_Some.
Qed.

Fixpoint consider_ratings_all (auth : string → bool) (scope : string) (es : list Event) (now : N)
    (m : Ratings) : Ratings :=
  match es with
  | [] => m
  | e :: es => consider_ratings_all auth scope es now (consider_ratings auth scope e now m)
  end.
Lemma consider_all_ok events now es s changed may :
  reputation_ok events now s → es ⊆ events →
  let '((_, may_change), s') := consider_all es now changed may s in
  reputation_ok events now s' ∧ settings s' = settings s ∧
  rp_latest s' = consider_ratings_all (rater_is_authorized s) (rp_scope s) es now (rp_latest s) ∧
  (may_change = false → may = false ∧ authorized_part s' = authorized_part s).
Proof.
  revert s changed may. induction es as [|e es IH]; intros s changed may Hok Hes; [done|].
  cbn [consider_all consider_ratings_all].
  pose proof (consider_event_ok events now s e Hok (Hes e ltac:(left))) as Hok'.
  pose proof (consider_event_latest _ _ _ e Hok) as Hlatest.
  destruct (consider_event e now s) as [[accepted may'] s1]. destruct Hlatest as (Hf & Hl & _ & Hmay).
  specialize (IH s1 (changed + (if accepted then 1 else 0)) (may || may') Hok' ltac:(set_solver)).
  destruct (consider_all es now _ _ s1) as [[c m] s2]. destruct IH as (Hok2 & Hf2 & Hl2 & Hmay2).
  pose proof (settings_authorized _ _ Hf) as Ha. pose proof (f_equal (λ x, x.1.1.1.2) Hf) as Hscope.
  cbn in Hscope. split_and!; [done|by rewrite Hf2| |].
  - by rewrite Hl2, Hl, Ha, Hscope.
  - intros Hm. destruct (Hmay2 Hm) as [[-> Hm']%orb_false_iff Hpart]. split; [done|].
    by rewrite Hpart, Hmay.
Qed.

(** ** Expiry *)
Definition valid_ratings (now : N) (m : Ratings) : Ratings :=
  filter (λ kv, rating_time_is_valid (st_created_at kv.2) now = true) m.

Lemma rating_stays_valid created t now :
  rating_time_is_valid created t = true → t ≤ now → now < rating_expires_at created →
  rating_time_is_valid created now = true.
Proof.
  unfold rating_time_is_valid, rating_expires_at, u64_sat_add, sat_add.
  rewrite !andb_true_iff, !bool_decide_eq_true. lia.
Qed.
Lemma min_list_spec l : match min_list l with None => l = [] | Some x => ∀ y, y ∈ l → x ≤ y end.
Proof.
  destruct l as [|x l]; [done|]. cbn [min_list].
  assert (∀ l a, foldl N.min a l ≤ a ∧ ∀ y, y ∈ l → foldl N.min a l ≤ y) as Hl.
  { clear. intros l. induction l as [|x l IH]; intros a; cbn [foldl]; [split; [lia|set_solver]|].
    destruct (IH (a `min` x)) as [Ha Hy]. split; [lia|]. intros y [->|?]%elem_of_cons; [lia|auto]. }
  destruct (Hl l x) as [Hx Hy]. intros y [->|?]%elem_of_cons; [done|auto].
Qed.

Lemma valid_ratings_all now m :
  (∀ k st, m !! k = Some st → rating_time_is_valid (st_created_at st) now = true) →
  valid_ratings now m = m.
Proof. intros Hm. apply map_filter_id. intros k st Hk. by apply (Hm k). Qed.
Lemma valid_ratings_size now m : msize m - msize (valid_ratings now m) = 0 → valid_ratings now m = m.
Proof.
  intros Hz. apply valid_ratings_all. intros k st Hk.
  set (P kv := rating_time_is_valid (st_created_at (kv : PeerRatingKey * StoredPeerRating).2) now = true).
  pose proof (msize_filter P m) as Hm. change (filter P m) with (valid_ratings now m) in Hm.
  destruct (decide (P (k, st))) as [|Hn]; [done|].
  assert (filter (λ kv, ¬ P kv) m = ∅) as He by (apply map_size_empty_inv; unfold msize in *; lia).
  pose proof (map_lookup_filter_Some_2 (λ kv, ¬ P kv) m k st Hk Hn) as Hin.
  rewrite He, lookup_empty in Hin. done.
Qed.
Lemma min_schedule m :
  schedule_ok m (min_list ((λ kv, rating_expires_at (st_created_at kv.2)) <$> ratings_list m)).
Proof.
  intros k st Hk. set (l := _ <$> _). pose proof (min_list_spec l) as Hmin.
  assert (rating_expires_at (st_created_at st) ∈ l) as Hin.
  { apply (list_elem_of_fmap_2 (λ kv, rating_expires_at (st_created_at kv.2)) _ (k, st)).
    by apply ratings_list_elem. }
  destruct (min_list l) as [t|]; [eauto|]. rewrite Hmin in Hin. by apply elem_of_nil in Hin.
Qed.

(** Any state that keeps the valid ratings, with their counts and a schedule. *)
Lemma valid_ratings_ok events t now s s' :
  reputation_ok events t s → settings s' = settings s →
  rp_latest s' = valid_ratings now (rp_latest s) →
  counts_ok (rp_latest s') (rp_entries_by_rater s') →
  schedule_ok (rp_latest s') (rp_next_prune_at_secs s') → reputation_ok events now s'.
Proof.
  intros Hok Hf Hl Hc Hs. pose proof (f_equal (λ x, x.1.1.1.2) Hf) as Hscope. cbn in Hscope.
  split; [done| | |done| |]; rewrite Hl.
  - pose proof (ro_size _ _ _ Hok).
    pose proof (msize_filter_le (λ kv, rating_time_is_valid (st_created_at kv.2) now = true) (rp_latest s)).
    unfold valid_ratings. lia.
  - intros r. etransitivity; [apply rater_count_filter|apply (ro_per_rater _ _ _ Hok)].
  - by intros k st [_ ?]%map_lookup_filter_Some.
  - rewrite Hscope. intros k st [Hk _]%map_lookup_filter_Some. by eapply ro_origin.
Qed.
Lemma prune_memory_ok events t now s :
  reputation_ok events t s → t ≤ now →
  let '(removed, s') := prune_memory now s in
  reputation_ok events now s' ∧ settings s' = settings s ∧
  rp_latest s' = valid_ratings now (rp_latest s) ∧
  (removed = 0 → authorized_part s' = authorized_part s).
Proof.
  intros Hok Ht. unfold prune_memory. destruct (prune_idle now s) eqn:Hidle.
  - assert (valid_ratings now (rp_latest s) = rp_latest s) as Hv.
    { apply valid_ratings_all. intros k st Hk. unfold prune_idle in Hidle.
      destruct (ro_schedule _ _ _ Hok k st Hk) as (next & Hn & Hle).
      rewrite Hn in Hidle. apply bool_decide_eq_true in Hidle.
      eapply rating_stays_valid; [by eapply ro_valid|done|lia]. }
    split_and!; [|done..]. eapply valid_ratings_ok; [done..|by rewrite Hv| |]; by destruct Hok.
  - set (s1 := set_latest (valid_ratings now (rp_latest s)) s).
    change (set_latest (filter _ _) s) with s1. set (removed := _ - _).
    assert (removed = 0 → valid_ratings now (rp_latest s) = rp_latest s) as Hz
      by apply valid_ratings_size.
    assert (counts_ok (rp_latest s1)
      (rp_entries_by_rater (if decide (0 < removed) then rebuild_entry_counts s1 else s1))) as Hc.
    { case_decide as Hpos; [apply counts_rebuilt|]. simpl. rewrite Hz by lia. by destruct Hok. }
    destruct (decide (0 < removed)) as [Hpos|Hpos]; (split_and!;
      [eapply valid_ratings_ok; [done..|exact Hc|apply min_schedule]|done|done|]);
      intros Hr; unfold authorized_part; simpl; by rewrite Hz.
Qed.
End invariant.
