(* ===== verification/ReputationProps.v ===== *)
(** * Theorems on peer reputation

    Any sequence of [ingest_event_at], [replay_at] and [prune] at
    non-decreasing times: the invariant, and that ratings of raters without
    authority influence nothing that a policy can see. *)

From S2P Require Export ReputationInv.

Section runs.
Context `{!Nostr, K : !KeyText _, !SocialGraphBackend, R : !RatingCrates _ _}.
Local Notation Ratings := (gmap PeerRatingKey StoredPeerRating).
Implicit Types (m : Ratings) (s : PeerReputation).

Inductive reputation_op : Type :=
  | OpIngest (event : Event) (now_secs : N)
  | OpReplay (events : list Event) (now_secs : N)
  | OpPrune (now_secs : N).
Definition op_events (op : reputation_op) : list Event :=
  match op with OpIngest e _ => [e] | OpReplay es _ => es | OpPrune _ => [] end.
Definition op_time (op : reputation_op) : N :=
  match op with OpIngest _ now | OpReplay _ now | OpPrune now => now end.
(** An operation: whether it returns [Ok], and the state it leaves. *)
Definition run_op (op : reputation_op) s : bool * PeerReputation :=
  match op with
  | OpIngest e now => let '(r, s) := ingest_event_at e now s in (is_ok r, s)
  | OpReplay es now => let '(r, s) := replay_at es now s in (is_ok r, s)
  | OpPrune now => let '(r, s) := reputation_prune now s in (is_ok r, s)
  end.
Definition run_ops (ops : list reputation_op) s : PeerReputation :=
  foldl (λ s op, (run_op op s).2) s ops.
Fixpoint times_from (t : N) (ops : list reputation_op) : Prop :=
  match ops with [] => True | op :: ops => t ≤ op_time op ∧ times_from (op_time op) ops end.
Definition last_time (t : N) (ops : list reputation_op) : N := foldl (λ _ op, op_time op) t ops.

(** Only the events that satisfy [keep] happen; time passes all the same. *)
Definition keep_events (keep : Event → bool) (op : reputation_op) : reputation_op :=
  match op with
  | OpIngest e now => if keep e then op else OpPrune now
  | OpReplay es now => OpReplay (filter (λ e, keep e = true) es) now
  | OpPrune _ => op
  end.
Lemma keep_events_events keep op : op_events (keep_events keep op) = filter (λ e, keep e = true) (op_events op).
Proof.
  destruct op as [e| |]; simpl; [|done..]. rewrite filter_cons, filter_nil.
  by destruct (keep e); case_decide.
Qed.
Lemma keep_events_time keep op : op_time (keep_events keep op) = op_time op.
Proof. destruct op as [e| |]; simpl; [|done..]. by destruct (keep e). Qed.

Lemma run_op_eq op s :
  run_op op s =
    let '(pruned, s1) := prune_memory (op_time op) s in
    let '((_, may_change), s2) := consider_all (op_events op) (op_time op) 0 false s1 in
    let '(r, s3) := rebuild_if (bool_decide (0 < pruned) || may_change) s2 in (is_ok r, s3).
Proof.
  destruct op as [e now|es now|now];
    cbn [run_op op_time op_events]; unfold ingest_event_at, replay_at, reputation_prune;
    unfold mbind, se_bind, lift_pure, mret, se_ret; destruct (prune_memory now s) as [pruned s1].
  - cbn [consider_all]. destruct (consider_event e now s1) as [[accepted may] s2]. simpl.
    by destruct (rebuild_if _ s2) as [[[]|] ?].
  - destruct (consider_all es now 0 false s1) as [[changed may] s2].
    by destruct (rebuild_if _ s2) as [[[]|] ?].
  - cbn [consider_all]. rewrite orb_false_r. by destruct (rebuild_if _ s1) as [[[]|] ?].
Qed.

(** The part of the settings that no operation changes. *)
Definition config_of s : string * string * gset string * RatingGraphConfig :=
  (rp_root s, rp_scope s, rp_trusted_raters s, rp_graph_config s).
(** The graph of the configuration and the authorized ratings. *)
Definition graph_of (config : string * string * gset string * RatingGraphConfig) (m : Ratings)
    : res Graph :=
  let '(root, _, trusted_raters, graph_config) := config in
  graph ← seeded_graph root trusted_raters;
  map_err (λ error, Validation ("failed to apply peer ratings: " +:+ error))
    (apply_ratings (st_rating <$> (ratings_list m).*2) graph_config graph).
Definition projected s : Prop := ∀ g, projected_graph s = Ok g → rp_graph s = g.

Lemma config_authorized s s' : config_of s = config_of s' → rater_is_authorized s = rater_is_authorized s'.
Proof. unfold config_of, rater_is_authorized. by intros [= -> _ -> _]. Qed.
Lemma settings_config s s' : settings s = settings s' → config_of s = config_of s' ∧ rp_graph s = rp_graph s'.
Proof. unfold settings, config_of. by intros [= -> -> -> -> ->]. Qed.

Lemma projected_graph_eq events now s :
  reputation_ok events now s → projected_graph s = graph_of (config_of s) (authorized_part s).
Proof.
  intros Hok. unfold projected_graph, graph_of, config_of, authorized_part.
  enough (filter (λ stored, rater_is_authorized s (rating_rater (st_rating stored)) = true)
      (ratings_list (rp_latest s)).*2
    = (filter (λ kv, rater_is_authorized s (rk_rater kv.1) = true) (ratings_list (rp_latest s))).*2) as ->
    by (by rewrite ratings_list_filter).
  rewrite filter_of_fmap. f_equal. apply filter_ext_in. intros [k st] Hk%ratings_list_elem. simpl.
  destruct (ro_origin _ _ _ Hok k st Hk) as (e & _ & _ & _ & _ & _ & -> & _). done.
Qed.

Lemma rebuild_if_spec events now dirty s :
  reputation_ok events now s →
  let '(r, s') := rebuild_if dirty s in
  reputation_ok events now s' ∧ config_of s' = config_of s ∧ rp_latest s' = rp_latest s ∧
  (dirty = false → rp_graph s' = rp_graph s) ∧
  (dirty = true → rp_graph s' = match projected_graph s with Ok g => g | Err _ => rp_graph s end) ∧
  (is_ok r = false → ∃ e, projected_graph s = Err e).
Proof.
  intros Hok. unfold rebuild_if. destruct dirty; [|done]. unfold rebuild. se_unfold.
  change (projected_graph (set_work _ s)) with (projected_graph s).
  destruct (projected_graph s) as [g|err]; simpl; (split_and!; [by destruct Hok|done..|by eauto]).
Qed.
End runs.

(** ** Strangers *)
Section strangers.
Context `{!Nostr, K : !KeyText _, !SocialGraphBackend, R : !RatingCrates _ _}.
Context `{!KeyTextLaws K, !RatingLaws R}.
Local Notation Ratings := (gmap PeerRatingKey StoredPeerRating).
Implicit Types (m : Ratings) (s : PeerReputation).

Section authority.
Context (auth : string → bool).
Definition authorized m : Ratings := filter (λ kv, auth (rk_rater kv.1) = true) m.
(** An event by an authorized rater. *)
Definition by_authority (e : Event) : bool := auth (key_to_hex (event_pubkey e)).

Lemma authorized_lookup m k : auth (rk_rater k) = true → authorized m !! k = m !! k.
Proof. intros Hk. apply option_eq. intros st. unfold authorized. rewrite map_lookup_filter_Some. naive_solver. Qed.

(** The limits hold of a part when they hold of the whole. *)
Lemma consider_ratings_authorized scope e now m :
  msize m ≤ PEER_RATING_MAX_ENTRIES → (∀ r, rater_count r m ≤ PEER_RATING_MAX_ENTRIES_PER_RATER) →
  authorized (consider_ratings auth scope e now m)
    = if by_authority e then consider_ratings auth scope e now (authorized m) else authorized m.
Proof.
  intros Hm Hr. unfold consider_ratings.
  destruct (offered scope e now) as [[k st]|] eqn:Ho; [|by destruct (by_authority e)].
  destruct (offered_Some _ _ _ _ _ [e] Ho ltac:(left)) as [(_ & _ & _ & Hk & _) _].
  unfold by_authority. rewrite Hk. destruct (auth (rk_rater k)) eqn:Hauth.
  - rewrite authorized_lookup by done. destruct (is_some_and _ _); [done|].
    unfold authorized at 1. rewrite enforced_authorized. f_equal.
    by rewrite map_filter_insert_True.
  - destruct (is_some_and _ _); [done|]. unfold authorized at 1. rewrite enforced_authorized.
    rewrite map_filter_insert_not by (intros st'; simpl; by rewrite Hauth). apply enforced_id.
    + etransitivity; [apply msize_filter_le|done].
    + intros r. etransitivity; [apply rater_count_filter|done].
Qed.

(** The limits, as a predicate that [consider_ratings] keeps. *)
Definition within_limits m : Prop :=
  msize m ≤ PEER_RATING_MAX_ENTRIES ∧ ∀ r, rater_count r m ≤ PEER_RATING_MAX_ENTRIES_PER_RATER.
Lemma consider_ratings_limits scope e now m :
  within_limits m → within_limits (consider_ratings auth scope e now m).
Proof.
  intros Hm. unfold consider_ratings. destruct (offered _ _ _) as [[]|]; [|done].
  destruct (is_some_and _ _); [done|]. split; [apply enforced_size|intros; apply enforced_count].
Qed.
Lemma consider_ratings_all_authorized scope es now m :
  within_limits m →
  authorized (consider_ratings_all auth scope es now m)
    = consider_ratings_all auth scope (filter (λ e, by_authority e = true) es) now (authorized m).
Proof.
  revert m. induction es as [|e es IH]; intros m Hm; [done|]. cbn [consider_ratings_all].
  rewrite IH by by apply consider_ratings_limits. destruct Hm as [Hm Hr].
  rewrite consider_ratings_authorized, filter_cons by done.
  by destruct (by_authority e); case_decide.
Qed.
Lemma valid_ratings_authorized now m : authorized (valid_ratings now m) = valid_ratings now (authorized m).
Proof. apply map_filter_comm. Qed.
End authority.

(** One operation: what it does to the authorized ratings and the graph is a
    function of those and of the events by authorized raters. *)
Lemma run_op_spec events t op s :
  reputation_ok events t s → projected s → op_events op ⊆ events → t ≤ op_time op →
  let auth := rater_is_authorized s in
  let '(ok, s') := run_op op s in
  reputation_ok events (op_time op) s' ∧ projected s' ∧ config_of s' = config_of s ∧
  authorized_part s'
    = consider_ratings_all auth (rp_scope s) (filter (λ e, by_authority auth e = true) (op_events op))
        (op_time op) (valid_ratings (op_time op) (authorized_part s)) ∧
  rp_graph s' = match graph_of (config_of s') (authorized_part s') with
                | Ok g => g | Err _ => rp_graph s end ∧
  (ok = true ∨ ∃ e, projected_graph s' = Err e).
Proof.
  intros Hok Hproj Hes Ht. cbv zeta. rewrite run_op_eq.
  pose proof (prune_memory_ok _ _ _ _ Hok Ht) as Hprune.
  destruct (prune_memory (op_time op) s) as [pruned s1]. destruct Hprune as (Hok1 & Hf1 & Hl1 & Hp1).
  pose proof (consider_all_ok _ _ (op_events op) s1 0 false Hok1 Hes) as Hcons.
  destruct (consider_all _ _ _ _ s1) as [[changed may] s2]. destruct Hcons as (Hok2 & Hf2 & Hl2 & Hp2).
  set (dirty := bool_decide (0 < pruned) || may).
  pose proof (rebuild_if_spec _ _ dirty s2 Hok2) as Hreb.
  destruct (rebuild_if dirty s2) as [r s3]. destruct Hreb as (Hok3 & Hc3 & Hl3 & Hclean & Hdirty & Herr).
  destruct (settings_config _ _ Hf1) as [Hc1 Hg1]. destruct (settings_config _ _ Hf2) as [Hc2 Hg2].
  pose proof (config_authorized _ _ Hc1) as Ha1. pose proof (config_authorized _ _ Hc2) as Ha2.
  pose proof (config_authorized _ _ Hc3) as Ha3. pose proof (f_equal (λ x, x.1.1.2) Hc1) as Hscope1.
  cbn in Hscope1.
  assert (authorized_part s3 = authorized_part s2) as Hpart3
    by (unfold authorized_part; by rewrite Ha3, Hl3).
  assert (projected_graph s3 = projected_graph s2) as Hproj3
    by (rewrite (projected_graph_eq _ _ _ Hok3), (projected_graph_eq _ _ _ Hok2), Hc3, Hpart3; done).
  assert (rp_graph s3 = match projected_graph s3 with Ok g => g | Err _ => rp_graph s end) as Hgraph.
  { rewrite Hproj3. destruct dirty eqn:Hd.
    - by rewrite Hdirty, Hg2, Hg1.
    - unfold dirty in Hd. apply orb_false_iff in Hd as [Hz Hm]. apply bool_decide_eq_false in Hz.
      destruct (Hp2 Hm) as [_ Hp2']. rewrite Hclean, Hg2, Hg1 by done.
      destruct (projected_graph s2) as [g|] eqn:Hpg; [|done]. apply Hproj.
      rewrite <-Hpg, (projected_graph_eq _ _ _ Hok2), (projected_graph_eq _ _ _ Hok), Hc2, Hc1, Hp2', Hp1 by lia.
      done. }
  split_and!; [done| |by rewrite Hc3, Hc2| | |].
  - intros g Hg. by rewrite Hgraph, Hg.
  - rewrite Hpart3. unfold authorized_part. rewrite Ha2, Hl2, Ha1, Hscope1, Hl1.
    change (filter _ (rp_latest s)) with (authorized (rater_is_authorized s) (rp_latest s)).
    change (filter _ (consider_ratings_all ?auth ?scope ?es ?now ?m))
      with (authorized auth (consider_ratings_all auth scope es now m)).
    rewrite consider_ratings_all_authorized, valid_ratings_authorized; [done|].
    rewrite <-Hl1. split; [apply (ro_size _ _ _ Hok1)|apply (ro_per_rater _ _ _ Hok1)].
  - by rewrite <-(projected_graph_eq _ _ _ Hok3).
  - destruct (is_ok r) eqn:Hr; [by left|right]. rewrite Hproj3. by apply Herr.
Qed.
End strangers.

(** ** Theorems *)
Section reputation_props.
Context `{!Nostr, K : !KeyText _, !SocialGraphBackend, R : !RatingCrates _ _}.
Context `{!KeyTextLaws K, !RatingLaws R}.
Implicit Types (s : PeerReputation).

Lemma reputation_new_ok local_pubkey config s policy :
  reputation_new local_pubkey config = Ok (s, policy) →
  reputation_ok [] 0 s ∧ projected s ∧ rp_latest s = ∅.
Proof.
  unfold reputation_new. destruct (trim_is_empty _); [done|]. case_decide; [done|].
  destruct (parse_pubkey local_pubkey _) as [root|]; [|done].
  destruct (parse_all _ _) as [raters|]; [|done]. simpl.
  destruct (seeded_graph root (list_to_set raters)) as [g|] eqn:Hseed; [|done].
  intros [= <- <-]. split_and!; [|intros g'|done].
  - split; simpl; [|done| |intros ??; by rewrite lookup_empty..].
    + intros r. by rewrite lookup_empty.
    + intros r. unfold rater_count. rewrite map_filter_empty. done.
  - unfold projected_graph, ratings_list. cbn [rp_latest rp_root rp_trusted_raters rp_graph_config].
    rewrite map_to_list_empty, Hseed. simpl. rewrite apply_no_ratings.
    by intros [= <-].
Qed.
Lemma reputation_ok_weaken events events' now s :
  reputation_ok events now s → events ⊆ events' → reputation_ok events' now s.
Proof.
  intros Hok Hsub. pose proof (ro_origin _ _ _ Hok) as Ho. destruct Hok. split; [done..|].
  intros k st Hk.
  destruct (Ho k st Hk) as (e & He & ?). exists e. by split; [apply Hsub|].
Qed.

Lemma run_ops_ok events t ops s :
  reputation_ok events t s → projected s → mjoin (op_events <$> ops) ⊆ events → times_from t ops →
  reputation_ok events (last_time t ops) (run_ops ops s) ∧ projected (run_ops ops s) ∧
  config_of (run_ops ops s) = config_of s.
Proof.
  revert t s. induction ops as [|op ops IH]; intros t s Hok Hproj Hes; [done|]. intros [Ht Hts].
  rewrite fmap_cons in Hes. cbn [mjoin list_join] in Hes.
  pose proof (run_op_spec _ _ op s Hok Hproj ltac:(set_solver) Ht) as Hop.
  unfold run_ops, last_time in *. cbn [foldl]. destruct (run_op op s) as [ok s'].
  destruct Hop as (Hok' & Hproj' & Hc & _). cbn [snd].
  destruct (IH _ _ Hok' Hproj' ltac:(set_solver) Hts) as (?&?&Hc'). split_and!; [done..|].
  by rewrite Hc'.
Qed.

(** Two runs agree on what a policy can see. *)
Definition same_view s s' : Prop :=
  config_of s = config_of s' ∧ authorized_part s = authorized_part s' ∧ rp_graph s = rp_graph s'.

Lemma run_op_same_view events events' t op s s' :
  reputation_ok events t s → projected s → op_events op ⊆ events →
  reputation_ok events' t s' → projected s' →
  let op' := keep_events (by_authority (rater_is_authorized s)) op in
  op_events op' ⊆ events' → t ≤ op_time op → same_view s s' →
  same_view (run_op op s).2 (run_op op' s').2.
Proof.
  intros Hok Hproj Hes Hok' Hproj' op' Hes' Ht (Hc & Hp & Hg).
  pose proof (run_op_spec _ _ op s Hok Hproj Hes Ht) as Hop.
  assert (op_time op' = op_time op) as Ht' by apply keep_events_time.
  pose proof (run_op_spec _ _ op' s' Hok' Hproj' Hes' ltac:(by rewrite Ht')) as Hop'.
  destruct (run_op op s) as [ok s1], (run_op op' s') as [ok' s1'].
  destruct Hop as (_ & _ & Hc1 & Hp1 & Hg1 & _), Hop' as (_ & _ & Hc1' & Hp1' & Hg1' & _). cbn [snd].
  assert (authorized_part s1 = authorized_part s1') as Hpart.
  { rewrite Hp1, Hp1', Ht', <-Hp, <-(config_authorized _ _ Hc).
    pose proof (f_equal (λ x, x.1.1.2) Hc) as Hscope. cbn in Hscope. rewrite <-Hscope. f_equal.
    unfold op'. rewrite keep_events_events, list_filter_filter. apply filter_ext_in. tauto. }
  split_and!; [by rewrite Hc1, Hc1'|done|]. rewrite Hg1, Hg1', Hc1, Hc1', Hc, Hpart, Hg. done.
Qed.
Lemma run_ops_same_view events events' t ops s s' :
  reputation_ok events t s → projected s → mjoin (op_events <$> ops) ⊆ events →
  reputation_ok events' t s' → projected s' →
  let keep := keep_events (by_authority (rater_is_authorized s)) in
  mjoin (op_events <$> (keep <$> ops)) ⊆ events' → times_from t ops → same_view s s' →
  same_view (run_ops ops s) (run_ops (keep <$> ops) s').
Proof.
  revert t s s'. induction ops as [|op ops IH]; intros t s s' Hok Hproj Hes Hok' Hproj'; [done|].
  cbv zeta. rewrite !fmap_cons in *. cbn [mjoin list_join] in *. intros Hes' [Ht Hts] Hv.
  set (keep := keep_events (by_authority (rater_is_authorized s))) in *.
  pose proof (run_op_same_view _ events' _ op s s' Hok Hproj ltac:(set_solver) Hok' Hproj'
    ltac:(fold keep; set_solver) Ht Hv) as Hv1. fold keep in Hv1.
  pose proof (run_op_spec _ _ op s Hok Hproj ltac:(set_solver) Ht) as Hop.
  assert (op_time (keep op) = op_time op) as Ht' by apply keep_events_time.
  pose proof (run_op_spec _ _ (keep op) s' Hok' Hproj' ltac:(set_solver) ltac:(by rewrite Ht')) as Hop'.
  unfold run_ops. cbn [foldl]. destruct (run_op op s) as [ok s1], (run_op (keep op) s') as [ok' s1'].
  destruct Hop as (Hok1 & Hproj1 & Hc1 & _), Hop' as (Hok1' & Hproj1' & _). rewrite Ht' in Hok1'.
  assert (keep = keep_events (by_authority (rater_is_authorized s1))) as Hkeep
    by (unfold keep; by rewrite (config_authorized _ _ Hc1)).
  rewrite Hkeep in *. apply (IH (op_time op)); [done|done|set_solver|done|done|set_solver|done|done].
Qed.

(** C12. Over every sequence of ingested events, replays and prunings at
    non-decreasing times, the retained ratings stay within their limits, the
    counts per rater are exact, every retained rating is still valid and comes
    from a verified event of its rater in the scope, and the graph the policies
    read is the projection of the authorized ratings, whenever that can be
    computed. *)
Theorem reputation_invariant local_pubkey config s0 policy ops :
  reputation_new local_pubkey config = Ok (s0, policy) → times_from 0 ops →
  let s := run_ops ops s0 in
  reputation_ok (mjoin (op_events <$> ops)) (last_time 0 ops) s ∧
  (∀ g, projected_graph s = Ok g → rp_graph s = g).
Proof.
  intros (Hok & Hproj & _)%reputation_new_ok Hts.
  apply (reputation_ok_weaken _ (mjoin (op_events <$> ops))) in Hok; [|set_solver].
  by destruct (run_ops_ok _ 0 ops s0 Hok Hproj ltac:(done) Hts) as (? & ? & _).
Qed.

(** C11. Raters without authority have no influence: a run in which only the
    events of the local root and of its explicit raters happen ends with the
    same graph, so that every policy decision is the same, and retains exactly
    the authorized ratings of the full run. *)
Theorem reputation_ignores_strangers local_pubkey config s0 policy ops :
  reputation_new local_pubkey config = Ok (s0, policy) → times_from 0 ops →
  let auth := rater_is_authorized s0 in
  let s := run_ops ops s0 in
  let s' := run_ops (keep_events (by_authority auth) <$> ops) s0 in
  rp_graph s = rp_graph s' ∧ authorized auth (rp_latest s) = rp_latest s'.
Proof.
  intros (Hok & Hproj & _)%reputation_new_ok Hts auth s s'.
  set (ops' := keep_events (by_authority auth) <$> ops) in *.
  assert (times_from 0 ops') as Hts'.
  { unfold ops'. clear -Hts. revert Hts. generalize 0. induction ops as [|op ops IH]; intros t; [done|].
    cbn. rewrite keep_events_time. intros [? ?]. split; [done|by apply IH]. }
  pose proof (reputation_ok_weaken _ (mjoin (op_events <$> ops)) _ _ Hok ltac:(set_solver)) as Hok1.
  pose proof (reputation_ok_weaken _ (mjoin (op_events <$> ops')) _ _ Hok ltac:(set_solver)) as Hok2.
  destruct (run_ops_same_view _ _ 0 ops s0 s0 Hok1 Hproj ltac:(done) Hok2 Hproj ltac:(done) Hts ltac:(done))
    as (Hc & Hp & Hg).
  change (keep_events (by_authority (rater_is_authorized s0)) <$> ops) with ops' in Hp, Hg.
  destruct (run_ops_ok _ 0 ops s0 Hok1 Hproj ltac:(done) Hts) as (_ & _ & Hcs).
  destruct (run_ops_ok _ 0 ops' s0 Hok2 Hproj ltac:(done) Hts') as (Hoks' & _ & Hcs').
  split; [exact Hg|]. unfold authorized_part in Hp.
  rewrite (config_authorized _ _ Hcs), (config_authorized _ _ Hcs') in Hp. unfold authorized, s.
  etransitivity; [exact Hp|]. apply map_filter_id. intros k st Hk. simpl.
  destruct (ro_origin _ _ _ Hoks' k st Hk) as (e & (op & Hin & Hop)%list_elem_of_join & _ & _ & <- & _).
  apply list_elem_of_fmap in Hop as (op' & -> & (op0 & -> & _)%list_elem_of_fmap).
  rewrite keep_events_events in Hin. by apply list_elem_of_filter in Hin as [? _].
Qed.
End reputation_props.
