(* ===== verification/ReputationWitness.v ===== *)
(** * A concrete reputation

    The theorems on peer reputation at toy ratings. *)

From S2P Require Export ReputationProps ToyRating.

Module ReputationWitness.
#[local] Existing Instance Toy.toy_nostr.
Import ToyRating.

(** The root is key 8; events A by the stranger 7 and B by the root rate 9. *)
Definition root : string := key_to_hex (8 : PublicKey).
Definition config : PeerReputationConfig := reputation_config_default.
Definition start : PeerReputation * SocialGraphPolicy :=
  match reputation_new root config with Ok s => s | Err _ =>
    (mkReputation "" "" ∅ [] (ToyGraph "" [] []) ∅ ∅ None work_default,
     social_policy_new social_config_default) end.
Definition ops : list reputation_op :=
  [OpIngest (Toy.toy_body Toy.IdA) 300; OpReplay [Toy.toy_body Toy.IdB; Toy.toy_body Toy.IdA] 400;
   OpPrune 500].
Lemma start_new : reputation_new root config = Ok (start.1, start.2).
Proof. reflexivity. Qed.
Lemma ops_times : times_from 0 ops.
Proof. vm_compute. by repeat split. Qed.
(** Both ratings are retained, and only the root's reaches the graph. *)
Example ratings_kept :
  (λ kv : PeerRatingKey * StoredPeerRating, (rk_rater kv.1, st_created_at kv.2))
    <$> ratings_list (rp_latest (run_ops ops start.1))
    = [(key_to_hex (7 : PublicKey), 100); (root, 200)].
Proof. vm_compute. reflexivity. Qed.
Example stranger_ignored : tg_muted (rp_graph (run_ops ops start.1)) = [].
Proof. vm_compute. reflexivity. Qed.

Lemma reputation_invariant_witness :
  let s := run_ops ops start.1 in
  reputation_ok (mjoin (op_events <$> ops)) (last_time 0 ops) s ∧
  (∀ g, projected_graph s = Ok g → rp_graph s = g).
Proof. exact (reputation_invariant root config start.1 start.2 ops start_new ops_times). Defined.
Lemma reputation_ignores_strangers_witness :
  let auth := rater_is_authorized start.1 in
  let s := run_ops ops start.1 in
  let s' := run_ops (keep_events (by_authority auth) <$> ops) start.1 in
  rp_graph s = rp_graph s' ∧ authorized auth (rp_latest s) = rp_latest s'.
Proof.
  exact (reputation_ignores_strangers root config start.1 start.2 ops start_new ops_times).
Defined.
End ReputationWitness.
