(* ===== verification/RatingPublisher.v ===== *)
(** * Publication of local ratings

    crates/nostr-pubsub-social-graph/src/reputation.rs, [PeerRatingPublisher]:
    which signed local ratings enter the mesh, and how often. *)

From S2P Require Export SocialReputation Ranked ToyRating.

(** Durations are in nanoseconds. *)
Definition duration_from_mins (m : N) : N := m * 60 * 1000000000.
Definition duration_from_hours (h : N) : N := h * 3600 * 1000000000.
(** [u64::try_from(duration.as_millis()).unwrap_or(u64::MAX)]. *)
Definition duration_ms (duration : N) : N := (duration / 1000000) `min` u64_max.

Record PeerRatingPublisherConfig : Set := mkPublisherConfig {
  min_publish_interval : N;
  refresh_interval : N;
  material_score_delta : Z;
  min_negative_samples : N;
  min_non_negative_samples : N;
  batch_size : N;
}.
Definition publisher_config_default : PeerRatingPublisherConfig :=
  mkPublisherConfig (duration_from_mins 10) (duration_from_hours 24) 20 3 3 8.

Inductive PeerRatingClass : Set := Negative | Neutral | Positive.
#[export] Instance PeerRatingClass_eq_dec : EqDecision PeerRatingClass.
Proof. solve_decision. Defined.
Record RatingPublication : Set := mkPublication {
  rpub_subject : string;
  rpub_score : Z;
  rpub_class : PeerRatingClass;
}.
Record PublishedPeerRating : Set := mkPublished {
  pub_score : Z;
  pub_class : PeerRatingClass;
  pub_at_ms : N;
}.
Record PeerRatingPublisher : Type := mkPublisher {
  pp_local_root : string;
  pp_scope : string;
  pp_config : PeerRatingPublisherConfig;
  pp_published : gmap string PublishedPeerRating;
}.
Definition set_published (v : gmap string PublishedPeerRating) (p : PeerRatingPublisher)
    : PeerRatingPublisher := mkPublisher (pp_local_root p) (pp_scope p) (pp_config p) v.

(** [i64::abs_diff], and [cast_unsigned] of an [i64]. *)
Definition abs_diff (a b : Z) : N := Z.to_N (Z.abs (a - b)).
Definition cast_unsigned (a : Z) : N := Z.to_N (a `mod` 2 ^ 64)%Z.

Section publisher.
Context `{!Nostr, K : !KeyText _, !SocialGraphBackend, R : !RatingCrates _ _}.

Definition publisher_new (local_pubkey scope : string) (config : PeerRatingPublisherConfig)
    : res PeerRatingPublisher :=
  if trim_is_empty scope then
    Err (Validation "peer rating publication scope must not be empty")
  else if bool_decide (min_publish_interval config = 0) || bool_decide (refresh_interval config = 0)
    || bool_decide (batch_size config = 0) || bool_decide (material_score_delta config < 0)%Z then
    Err (Validation "peer rating publication intervals and batch size must be positive; score delta must be non-negative")
  else
    local_root ← parse_pubkey local_pubkey "local peer rating publisher";
    Ok (mkPublisher local_root scope config ∅).

Definition class_of_score (score : Z) : PeerRatingClass :=
  match (score ?= 0)%Z with Lt => Negative | Eq => Neutral | Gt => Positive end.
(** [.ok()?]. *)
Definition ok_opt {E A} (r : result E A) : option A :=
  match r with Ok a => Some a | Err _ => None end.
Definition publication (event : Event) (p : PeerRatingPublisher) : option (RatingPublication * Rating) :=
  if decide (event_kind event ≠ RATING_KIND ∨ key_to_hex (event_pubkey event) ≠ pp_local_root p)
  then None
  else
    rating ← ok_opt (rating_from_event event);
    if decide (rating_scope rating ≠ Some (pp_scope p)) then None
    else
      rater ← ok_opt (parse_pubkey (rating_rater rating) "rating rater");
      if decide (rater ≠ pp_local_root p) then None
      else
        subject ← ok_opt (parse_pubkey (rating_subject rating) "rating subject");
        score ← ok_opt (normalized_score rating);
        Some (mkPublication subject score (class_of_score score), rating).

Definition record_publication (publication : RatingPublication) (now_ms : N)
    (p : PeerRatingPublisher) : PeerRatingPublisher :=
  set_published (<[rpub_subject publication :=
    mkPublished (rpub_score publication) (rpub_class publication) now_ms]> (pp_published p)) p.

(** The comparison with the previous publication of the subject. *)
Definition material_change (config : PeerRatingPublisherConfig) (candidate : RatingPublication)
    (previous : PublishedPeerRating) (now_ms : N) : bool :=
  let elapsed := now_ms - pub_at_ms previous in
  if decide (rpub_class candidate = Negative ∧ pub_class previous ≠ Negative) then true
  else
    bool_decide (duration_ms (refresh_interval config) ≤ elapsed)
    || bool_decide (duration_ms (min_publish_interval config) ≤ elapsed)
       && (bool_decide (rpub_class candidate ≠ pub_class previous)
           || bool_decide (cast_unsigned (material_score_delta config)
                ≤ abs_diff (rpub_score candidate) (pub_score previous))).
Definition should_publish_event (event : Event) (now_ms : N) (p : PeerRatingPublisher) : bool :=
  match publication event p with
  | None => false
  | Some (candidate, rating) =>
      let minimum_samples :=
        if decide (rpub_class candidate = Negative) then min_negative_samples (pp_config p)
        else min_non_negative_samples (pp_config p) in
      if decide (default 0 (rating_sample_count rating) < minimum_samples) then false
      else match pp_published p !! rpub_subject candidate with
           | None => true
           | Some previous => material_change (pp_config p) candidate previous now_ms
           end
  end.
Definition record_published_event (event : Event) (now_ms : N) (p : PeerRatingPublisher)
    : bool * PeerRatingPublisher :=
  match publication event p with
  | None => (false, p)
  | Some (publication, _) => (true, record_publication publication now_ms p)
  end.

(** ** Forgetting *)
Definition publication_is_current (now_ms : N) (publication : PublishedPeerRating) : bool :=
  bool_decide (pub_at_ms publication
    ≤ u64_sat_add now_ms (duration_ms (PEER_RATING_MAX_FUTURE_SKEW * 1000000000)))
  && bool_decide (now_ms - pub_at_ms publication ≤ duration_ms (PEER_RATING_MAX_AGE * 1000000000)).
Definition publication_age_compare : N * string → N * string → comparison :=
  cmp_then (cmp_on fst N.compare) (cmp_on snd String.compare).
Definition publisher_prune (now_ms : N) (p : PeerRatingPublisher) : N * PeerRatingPublisher :=
  let before := msize (pp_published p) in
  let published := filter (λ kv, publication_is_current now_ms kv.2 = true) (pp_published p) in
  let excess := msize published - PEER_RATING_MAX_ENTRIES_PER_RATER in
  let published :=
    if decide (0 < excess) then
      let oldest := sort_by publication_age_compare
        ((λ kv, (pub_at_ms kv.2, kv.1)) <$> btree_to_list published) in
      foldl (λ (m : gmap string PublishedPeerRating) (e : N * string), delete e.2 m) published
        (take (N.to_nat excess) oldest)
    else published in
  (before - msize published, set_published published p).

(** ** Restoring from stored events *)
Fixpoint restore_publications (events : list Event) (p : PeerRatingPublisher) : PeerRatingPublisher :=
  match events with
  | [] => p
  | event :: events =>
      restore_publications events
        (match publication event p with
         | None => p
         | Some (publication, rating) =>
             let published_at_ms := sat_mul u64_max (rating_created_at rating) 1000 in
             if is_some_and (λ previous, bool_decide (published_at_ms ≤ pub_at_ms previous))
                  (pp_published p !! rpub_subject publication)
             then p else record_publication publication published_at_ms p
         end)
  end.
Definition from_events_at (local_pubkey scope : string) (config : PeerRatingPublisherConfig)
    (events : list Event) (now_ms : N) : res PeerRatingPublisher :=
  publisher ← publisher_new local_pubkey scope config;
  Ok (publisher_prune now_ms (restore_publications events publisher)).2.
End publisher.

(** ** Runs *)
Section pacing.
Context `{!Nostr, K : !KeyText _, !SocialGraphBackend, R : !RatingCrates _ _}.
Implicit Types (p : PeerRatingPublisher).

(** An attempt publishes an event that is due, and records it. *)
Inductive publisher_step : Type := Attempt (event : Event) (now_ms : N) | Forget (now_ms : N).
Definition step_time (step : publisher_step) : N :=
  match step with Attempt _ now | Forget now => now end.
(** What was published: subject, score, class and time, the newest first. *)
Definition pub_log : Type := list (string * PublishedPeerRating).
Definition run_step (step : publisher_step) (state : PeerRatingPublisher * pub_log)
    : PeerRatingPublisher * pub_log :=
  let '(p, log) := state in
  match step with
  | Forget now => ((publisher_prune now p).2, log)
  | Attempt e now =>
      if should_publish_event e now p then
        match publication e p with
        | Some (candidate, _) =>
            ((record_published_event e now p).2,
             (rpub_subject candidate, mkPublished (rpub_score candidate) (rpub_class candidate) now) :: log)
        | None => (p, log)
        end
      else (p, log)
  end.
Definition run_steps (steps : list publisher_step) p : PeerRatingPublisher * pub_log :=
  foldl (λ state step, run_step step state) (p, []) steps.
Fixpoint steps_from (t : N) (steps : list publisher_step) : Prop :=
  match steps with [] => True | step :: steps => t ≤ step_time step ≤ u64_max ∧ steps_from (step_time step) steps end.
(** The subjects that are rated are among these. *)
Definition rates (subjects : gset string) p (step : publisher_step) : Prop :=
  match step with
  | Attempt e _ => ∀ candidate rating, publication e p = Some (candidate, rating) →
      rpub_subject candidate ∈ subjects
  | Forget _ => True
  end.

Fixpoint last_publication (subject : string) (log : pub_log) : option PublishedPeerRating :=
  match log with
  | [] => None
  | (s, published) :: log => if decide (s = subject) then Some published else last_publication subject log
  end.
(** The pause between two publications of a subject: it is shorter only when a
    rating turns negative. *)
Definition pause_ms (config : PeerRatingPublisherConfig) : N :=
  duration_ms (min_publish_interval config) `min` duration_ms (refresh_interval config)
    `min` duration_ms (PEER_RATING_MAX_AGE * 1000000000).
Definition paused (config : PeerRatingPublisherConfig) (previous next : PublishedPeerRating) : Prop :=
  pub_at_ms previous + pause_ms config ≤ pub_at_ms next ∨
  (pub_class next = Negative ∧ pub_class previous ≠ Negative ∧ pub_at_ms previous ≤ pub_at_ms next).
Fixpoint paced (config : PeerRatingPublisherConfig) (log : pub_log) : Prop :=
  match log with
  | [] => True
  | (subject, next) :: log =>
      (∀ previous, last_publication subject log = Some previous → paused config previous next) ∧
      paced config log
  end.

(** The map of publications is the log, up to what is too old to matter. *)
Record log_ok (subjects : gset string) (now : N) p (log : pub_log) : Prop := {
  lo_subjects : dom (pp_published p) ⊆ subjects;
  lo_paced : paced (pp_config p) log;
  lo_time subject pub : last_publication subject log = Some pub → pub_at_ms pub ≤ now;
  lo_recent subject pub : last_publication subject log = Some pub →
    pp_published p !! subject = Some pub ∨
    (pp_published p !! subject = None ∧
     duration_ms (PEER_RATING_MAX_AGE * 1000000000) < now - pub_at_ms pub);
  lo_logged subject pub : pp_published p !! subject = Some pub →
    last_publication subject log = Some pub;
}.

Lemma publisher_prune_published now p :
  msize (pp_published p) ≤ PEER_RATING_MAX_ENTRIES_PER_RATER →
  (publisher_prune now p).2
    = set_published (filter (λ kv, publication_is_current now kv.2 = true) (pp_published p)) p.
Proof.
  intros Hsize. unfold publisher_prune. cbn [snd].
  pose proof (msize_filter_le (λ kv, publication_is_current now kv.2 = true) (pp_published p)).
  rewrite decide_False by lia. done.
Qed.

Lemma log_ok_later subjects now now' p log :
  log_ok subjects now p log → now ≤ now' → log_ok subjects now' p log.
Proof.
  intros [] Hle. split; [done|done| | |done].
  - intros subject pub Hl. specialize (lo_time0 subject pub Hl). lia.
  - intros subject pub Hl. destruct (lo_recent0 subject pub Hl) as [?|[? ?]]; [by left|right].
    split; [done|lia].
Qed.
Lemma forget_ok subjects now p log :
  ssize subjects ≤ PEER_RATING_MAX_ENTRIES_PER_RATER → now ≤ u64_max →
  log_ok subjects now p log → log_ok subjects now (publisher_prune now p).2 log.
Proof.
  intros Hsize Hnow Hok. rewrite publisher_prune_published.
  2: { etransitivity; [|exact Hsize]. unfold msize, ssize. rewrite <-size_dom.
       pose proof (subseteq_size _ _ (lo_subjects _ _ _ _ Hok)). lia. }
  destruct Hok. split; simpl; [|done|done| |].
  - etransitivity; [apply dom_filter_subseteq|done].
  - intros subject pub Hl. specialize (lo_time0 subject pub Hl).
    destruct (lo_recent0 subject pub Hl) as [Hp|[Hp ?]].
    + destruct (publication_is_current now pub) eqn:Hc; [left; by apply map_lookup_filter_Some|right].
      split.
      * apply map_lookup_filter_None. right. intros pub' Hp'. simpl. congruence.
      * unfold publication_is_current, u64_sat_add, sat_add in Hc.
        apply andb_false_iff in Hc as [Hc|Hc]; apply bool_decide_eq_false in Hc; lia.
    + right. split; [|done]. apply map_lookup_filter_None. by left.
  - intros subject pub [Hp _]%map_lookup_filter_Some. by apply lo_logged0.
Qed.

Lemma attempt_ok subjects now p log e :
  rates subjects p (Attempt e now) → log_ok subjects now p log →
  let '(p', log') := run_step (Attempt e now) (p, log) in log_ok subjects now p' log'.
Proof.
  intros Hin Hok. cbn [run_step]. unfold should_publish_event, record_published_event.
  destruct (publication e p) as [[candidate rating]|] eqn:Hpub; [|done].
  destruct (decide (default 0 (rating_sample_count rating) < _)); [done|].
  set (entry := mkPublished _ _ now).
  assert (paced (pp_config p) ((rpub_subject candidate, entry) :: log) →
    log_ok subjects now (record_publication candidate now p) ((rpub_subject candidate, entry) :: log)) as Hmk.
  { intros Hpaced. destruct Hok. split; [|done| | |].
    - simpl. rewrite dom_insert. specialize (Hin _ _ Hpub). set_solver.
    - intros subject pub. simpl. destruct (decide (rpub_subject candidate = subject)); [|apply lo_time0].
      intros Heq. simplify_eq. simpl. lia.
    - intros subject pub. simpl. destruct (decide (rpub_subject candidate = subject)) as [<-|Hne].
      + intros Heq. simplify_eq. left. by rewrite lookup_insert_eq.
      + rewrite lookup_insert_ne by done. apply lo_recent0.
    - intros subject pub. simpl. destruct (decide (rpub_subject candidate = subject)) as [<-|Hne].
      + by rewrite lookup_insert_eq.
      + rewrite lookup_insert_ne by done. apply lo_logged0. }
  assert (∀ previous, last_publication (rpub_subject candidate) log = Some previous →
    pub_at_ms previous ≤ now) as Htime by apply (lo_time _ _ _ _ Hok).
  destruct (pp_published p !! rpub_subject candidate) as [previous|] eqn:Hprev.
  - destruct (material_change _ _ previous now) eqn:Hm; [|done]. apply Hmk. split; [|apply Hok].
    rewrite (lo_logged _ _ _ _ Hok _ _ Hprev). intros ? [= <-].
    specialize (Htime _ (lo_logged _ _ _ _ Hok _ _ Hprev)).
    unfold material_change in Hm. unfold paused, pause_ms, entry. simpl.
    case_decide as Hneg; [right; tauto|left]. apply orb_true_iff in Hm as [Hm|[Hm _]%andb_true_iff];
      apply bool_decide_eq_true in Hm; lia.
  - apply Hmk. split; [|apply Hok]. intros previous Hl. specialize (Htime _ Hl).
    destruct (lo_recent _ _ _ _ Hok _ _ Hl) as [Hp|[_ Hold]]; [congruence|].
    left. unfold pause_ms, entry. simpl. lia.
Qed.

Lemma run_step_fields step p log :
  let p' := (run_step step (p, log)).1 in
  pp_config p' = pp_config p ∧ (∀ e, publication e p' = publication e p).
Proof.
  destruct step as [e now|now]; [|done]. cbn [run_step]. destruct (should_publish_event e now p); [|done].
  unfold record_published_event. by destruct (publication e p) as [[]|].
Qed.
Lemma run_steps_ok subjects t steps p log :
  ssize subjects ≤ PEER_RATING_MAX_ENTRIES_PER_RATER → Forall (rates subjects p) steps →
  steps_from t steps → log_ok subjects t p log →
  paced (pp_config p) (foldl (λ state step, run_step step state) (p, log) steps).2.
Proof.
  intros Hsize. revert t p log. induction steps as [|step steps IH]; intros t p log Hrates Hts Hok.
  { apply Hok. }
  apply Forall_cons in Hrates as [Hr Hrates]. destruct Hts as [[Ht Hmax] Hts]. cbn [foldl].
  pose proof (log_ok_later _ _ _ _ _ Hok Ht) as Hok'.
  pose proof (run_step_fields step p log) as [Hc Hpub].
  assert (log_ok subjects (step_time step) (run_step step (p, log)).1 (run_step step (p, log)).2) as Hok1.
  { destruct step as [e now|now]; [|by apply forget_ok].
    pose proof (attempt_ok subjects now p log e Hr Hok') as Ha.
    by destruct (run_step _ _). }
  destruct (run_step step (p, log)) as [p1 log1]. cbn [fst snd] in *. rewrite <-Hc.
  apply (IH (step_time step)); [|done|done]. eapply Forall_impl; [exact Hrates|].
  intros [e now|now]; simpl; [by rewrite Hpub|done].
Qed.

(** C15. Publications of local ratings are paced: over any attempts and prunings
    at non-decreasing times, for at most 1024 rated peers, two publications of
    one peer's rating lie at least the shortest of the configured intervals and
    the retention time apart, unless the rating turned negative. *)
Theorem publications_paced local_pubkey scope config p0 subjects steps :
  publisher_new local_pubkey scope config = Ok p0 → steps_from 0 steps →
  Forall (rates subjects p0) steps → ssize subjects ≤ PEER_RATING_MAX_ENTRIES_PER_RATER →
  paced config (run_steps steps p0).2.
Proof.
  intros Hnew Hts Hrates Hsize.
  assert (pp_config p0 = config ∧ pp_published p0 = ∅) as [Hc Hp].
  { unfold publisher_new in Hnew. destruct (trim_is_empty _); [done|]. case_match; [done|].
    apply result_bind_Ok in Hnew as (root & _ & [= <-]). done. }
  rewrite <-Hc. apply (run_steps_ok subjects 0 steps p0 [] Hsize Hrates Hts).
  split; [by rewrite Hp, dom_empty|done..|]. intros subject pub. by rewrite Hp, lookup_empty.
Qed.
End pacing.

Module PublisherWitness.
#[local] Existing Instance Toy.toy_nostr.
Import ToyRating.

Definition root : string := key_to_hex (8 : PublicKey).
Definition subjects : gset string := {[key_to_hex (9 : PublicKey)]}.
Definition start : PeerRatingPublisher :=
  mkPublisher root DEFAULT_PEER_RATING_SCOPE publisher_config_default ∅.
(** The rating is published, is not due a second later, and is due again after
    a day. *)
Definition steps : list publisher_step :=
  [Attempt (Toy.toy_body Toy.IdB) 1000; Attempt (Toy.toy_body Toy.IdB) 2000; Forget 3000;
   Attempt (Toy.toy_body Toy.IdB) 86401000].
Example steps_log : (λ x, pub_at_ms x.2) <$> (run_steps steps start).2 = [86401000; 1000].
Proof. vm_compute. reflexivity. Qed.
Lemma publisher_start_new :
  publisher_new root DEFAULT_PEER_RATING_SCOPE publisher_config_default = Ok start.
Proof. reflexivity. Qed.
Lemma steps_times : steps_from 0 steps.
Proof. vm_compute. by repeat split. Qed.
Lemma steps_rate : Forall (rates subjects start) steps.
Proof.
  repeat constructor; intros candidate rating Hp; vm_compute in Hp; injection Hp as <- _;
    vm_compute; by constructor.
Qed.
Lemma subjects_small : ssize subjects ≤ PEER_RATING_MAX_ENTRIES_PER_RATER.
Proof. unfold ssize, subjects. rewrite size_singleton. by vm_compute. Qed.
Lemma publications_paced_witness : paced publisher_config_default (run_steps steps start).2.
Proof.
  exact (publications_paced root DEFAULT_PEER_RATING_SCOPE publisher_config_default start subjects
    steps publisher_start_new steps_times steps_rate subjects_small).
Defined.
End PublisherWitness.
