(* ===== verification/FipsOptions.v ===== *)
(** * Options of the FIPS client

    crates/nostr-pubsub-fips/src/lib.rs: resource limits, their validation and
    the limits derived from them, the timing of peer adverts, publication
    reports and the choice of delivery targets. *)

From S2P Require Export FipsSeen FipsBehavior MeshSelect FipsPending.

Definition FIPS_NOSTR_PUBSUB_SERVICE_PORT : N := 7368.
Definition FIPS_NOSTR_PUBSUB_CAPABILITY : string := "nostr.pubsub/1".
Definition FIPS_NOSTR_PUBSUB_MAX_REPLAY_EVENTS : N := 8.
Definition FIPS_NOSTR_PUBSUB_DEFAULT_MAX_HOPS : N := 4.
Definition FIPS_NOSTR_PUBSUB_MAX_OBSERVED_IDS_PER_SCOPE : N := 1024.
Definition FIPS_NOSTR_PUBSUB_MAX_OBSERVED_IDS : N := 16384.
Definition FIPS_NOSTR_PUBSUB_MAX_FRAME_BYTES : N := u16_max - 10.
(** [Duration::from_mins(30)], in seconds. *)
Definition FIPS_PEER_ADVERT_REFRESH_INTERVAL : N := 30 * 60.

(** [query_timeout] in nanoseconds. *)
Record FipsPubsubClientOptions : Type := mkFipsOptions {
  fo_query_timeout : N;
  fo_max_frame_bytes : N;
  fo_max_connected_peers : N;
  fo_routed_peers : list string;
  fo_max_inbound_routed_peers : N;
  fo_accept_anonymous_publications : bool;
  fo_fanout : N;
  fo_max_active_subscriptions : N;
  fo_max_filters_per_subscription : N;
  fo_max_replay_events : N;
  fo_receive_batch_size : N;
  fo_max_hops : N;
}.
Definition default_fips_options : FipsPubsubClientOptions := {|
  fo_query_timeout := 500 * 1000000;
  fo_max_frame_bytes := FIPS_NOSTR_PUBSUB_MAX_FRAME_BYTES;
  fo_max_connected_peers := 64;
  fo_routed_peers := [];
  fo_max_inbound_routed_peers := 0;
  fo_accept_anonymous_publications := false;
  fo_fanout := DEFAULT_INV_WANT_FANOUT;
  fo_max_active_subscriptions := 64;
  fo_max_filters_per_subscription := 4;
  fo_max_replay_events := FIPS_NOSTR_PUBSUB_MAX_REPLAY_EVENTS;
  fo_receive_batch_size := 64;
  fo_max_hops := FIPS_NOSTR_PUBSUB_DEFAULT_MAX_HOPS;
|}.
Implicit Types o : FipsPubsubClientOptions.

Definition invalid_option (message : string) : PubsubError :=
  Validation ("invalid FIPS pubsub client option: " +:+ message).
Definition storage_error (operation error : string) : PubsubError :=
  Storage (operation +:+ ": " +:+ error).
Definition no_connected_peers (transport : option string) : PubsubError :=
  Storage ("no connected" +:+
    match transport with Some value => " " +:+ value | None => "" end +:+ " FIPS pubsub peers").

Definition outbound_peer_capacity o : N := fo_max_connected_peers o - fo_max_inbound_routed_peers o.

(** The loop over the named limits. *)
Fixpoint positive_options (l : list (string * N)) : res unit :=
  match l with
  | [] => Ok tt
  | (name, value) :: l =>
      if decide (value = 0) then Err (invalid_option (name +:+ " must be greater than zero"))
      else positive_options l
  end.
Definition options_validate o : res unit :=
  if fo_accept_anonymous_publications o && bool_decide (fo_max_inbound_routed_peers o = 0) then
    Err (invalid_option "anonymous publication admission requires bounded inbound slots")
  else if decide (fo_max_connected_peers o < fo_max_inbound_routed_peers o) then
    Err (invalid_option "max_inbound_routed_peers cannot exceed max_connected_peers")
  else if decide (fo_query_timeout o = 0) then
    Err (invalid_option "query_timeout must be greater than zero")
  else
    _ ← positive_options
      [("max_frame_bytes", fo_max_frame_bytes o);
       ("max_connected_peers", fo_max_connected_peers o);
       ("fanout", fo_fanout o);
       ("max_active_subscriptions", fo_max_active_subscriptions o);
       ("max_filters_per_subscription", fo_max_filters_per_subscription o);
       ("max_replay_events", fo_max_replay_events o);
       ("receive_batch_size", fo_receive_batch_size o)]%string;
    if decide (FIPS_NOSTR_PUBSUB_MAX_FRAME_BYTES < fo_max_frame_bytes o) then
      Err (invalid_option ("max_frame_bytes cannot exceed TCP/FIPS record limit "
        +:+ pretty FIPS_NOSTR_PUBSUB_MAX_FRAME_BYTES))
    else if decide (fo_max_connected_peers o < fo_fanout o) then
      Err (invalid_option "fanout cannot exceed max_connected_peers")
    else if decide (fo_max_hops o = 0) then
      Err (invalid_option "max_hops must be greater than zero")
    else Ok tt.
Definition validate_peer_transport (restricted : bool) o : res unit :=
  _ ← options_validate o;
  if negb (bool_decide (fo_max_inbound_routed_peers o = 0)) && restricted then
    Err (invalid_option "inbound routed peers require an unrestricted FIPS client")
  else Ok tt.

Definition subscription_limits o : PubsubSubscriptionLimits :=
  mkSubscriptionLimits (fo_max_connected_peers o)
    (usize_sat_add (fo_max_active_subscriptions o) 1) (fo_max_filters_per_subscription o).
(** [PendingWants::from_options]. *)
Definition pending_from_options o : PendingWants :=
  pending_new
    (sat_mul usize_max (usize_sat_add (fo_max_active_subscriptions o) 1) (fo_max_replay_events o)
       `max` 1)
    (fo_max_connected_peers o).
Record WireTcpOptions : Set := mkWireTcpOptions {
  wt_frame_capacity : N;
  wt_peer_capacity : N;
  wt_inbound_peer_capacity : N;
  wt_queue_records_per_peer : N;
  wt_queue_bytes_per_peer : N;
  wt_drive_io_bytes : N;
  wt_drive_frames : N;
}.
Definition wire_tcp_options o : WireTcpOptions :=
  let records := usize_sat_add
    (usize_sat_add (usize_sat_add (fo_max_active_subscriptions o) 1) (fo_max_replay_events o)) 1 in
  mkWireTcpOptions (fo_max_frame_bytes o) (fo_max_connected_peers o)
    (fo_max_inbound_routed_peers o) records
    (sat_mul usize_max (usize_sat_add (fo_max_frame_bytes o) 4) records)
    (512 * 1024) (fo_receive_batch_size o).
(** The capacities of the two command channels, from [start_for_role]. *)
Definition command_capacity o : N :=
  sat_mul usize_max (fo_max_connected_peers o) (fo_receive_batch_size o) `max` 1.
Definition replay_capacity o : N := fo_max_connected_peers o `max` fo_receive_batch_size o.

(** What a valid configuration guarantees. *)
Lemma positive_options_ok l name value :
  positive_options l = Ok tt → (name, value) ∈ l → 0 < value.
Proof.
  induction l as [|[n v] l IH]; cbn [positive_options]; intros Hl Hin.
  - by apply not_elem_of_nil in Hin.
  - case_decide; [done|]. apply elem_of_cons in Hin as [[= -> ->]|?]; [lia|by apply IH].
Qed.
Record options_ok o : Prop := {
  oo_replay : 0 < fo_max_replay_events o;
  oo_subscriptions : 0 < fo_max_active_subscriptions o;
  oo_peers : 0 < fo_max_connected_peers o;
  oo_fanout : 0 < fo_fanout o ≤ fo_max_connected_peers o;
  oo_frame : 0 < fo_max_frame_bytes o ≤ FIPS_NOSTR_PUBSUB_MAX_FRAME_BYTES;
  oo_hops : 0 < fo_max_hops o;
  oo_timeout : 0 < fo_query_timeout o;
  oo_inbound : fo_max_inbound_routed_peers o ≤ fo_max_connected_peers o;
  oo_anonymous : fo_accept_anonymous_publications o = true → 0 < fo_max_inbound_routed_peers o;
}.
Lemma options_validate_ok o : options_validate o = Ok tt → options_ok o.
Proof.
  unfold options_validate. destruct (_ && _) eqn:Hanon; [done|].
  destruct (decide (fo_max_connected_peers o < fo_max_inbound_routed_peers o)); [done|].
  destruct (decide (fo_query_timeout o = 0)); [done|]. rewrite result_bind_Ok. intros ([] & Hpos & Hrest).
  pose proof (positive_options_ok _ "max_replay_events" (fo_max_replay_events o) Hpos ltac:(set_solver)).
  pose proof (positive_options_ok _ "max_active_subscriptions"
    (fo_max_active_subscriptions o) Hpos ltac:(set_solver)).
  pose proof (positive_options_ok _ "max_connected_peers"
    (fo_max_connected_peers o) Hpos ltac:(set_solver)).
  pose proof (positive_options_ok _ "fanout" (fo_fanout o) Hpos ltac:(set_solver)).
  pose proof (positive_options_ok _ "max_frame_bytes" (fo_max_frame_bytes o) Hpos ltac:(set_solver)).
  destruct (decide (FIPS_NOSTR_PUBSUB_MAX_FRAME_BYTES < _)); [done|].
  destruct (decide (fo_max_connected_peers o < fo_fanout o)); [done|].
  destruct (decide (fo_max_hops o = 0)); [done|]. split; try lia.
  intros Ha. rewrite Ha in Hanon. simpl in Hanon. apply bool_decide_eq_false in Hanon. lia.
Qed.
