(* ===== verification/FipsRoles.v ===== *)
(** * Privacy roles of the FIPS client

    crates/nostr-pubsub-fips/src/privacy_roles.rs: what a client of each role
    may subscribe to, and which events it may show to others. *)

From S2P Require Export FipsOptions.

(** The parts of the [nostr] crate's filters and keys the roles read.
    [filter_to_value] is serde's; [peerfinding_filter] is built from constants of
    the [fips_core] crate. *)
Class FilterFields {NS : Nostr} (J : WireJson NS) : Type := {
  Filter_eq_dec :: EqDecision Filter;
  filter_authors : Filter → option (list PublicKey);
  filter_kinds : Filter → option (list N);
  filter_to_value : Filter → result string Value;
  value_get : Value → string → option Value;
  public_key_to_hex : PublicKey → string;
  public_key_from_hex : string → result string PublicKey;
  default_peerfinding_filter : Filter;
  (** [Filter::new().id(id)]. *)
  filter_id : EventId → Filter;
  (** [JsonUtil::as_json] of an event. *)
  event_as_json : Event → string;
}.
(** The limit is a field of its own. *)
Class FilterFieldsLaws {NS : Nostr} {J : WireJson NS} (F : FilterFields J) : Prop := {
  filter_authors_set_limit l f : filter_authors (filter_set_limit l f) = filter_authors f;
  filter_kinds_set_limit l f : filter_kinds (filter_set_limit l f) = filter_kinds f;
  filter_set_limit_twice l l' f : filter_set_limit l (filter_set_limit l' f) = filter_set_limit l f;
  filter_to_value_set_limit l f :
    match filter_to_value f, filter_to_value (filter_set_limit l f) with
    | Ok v, Ok v' => ∀ k, k ≠ "limit"%string → value_get v' k = value_get v k
    | Err e, Err e' => e' = e
    | _, _ => False
    end;
}.

Section roles.
Context `{!Nostr, J : !WireJson _, F : !FilterFields J}.

(** ** Discovery scopes *)
Inductive FipsDiscoveryScope : Type := Author (key : PublicKey) | Device (key : PublicKey).

Definition get_array (v : Value) (field : string) : option (list Value) :=
  value_get v field ≫= as_array.
Definition kind_in (kinds : list N) (kind : N) : bool := bool_decide (kind ∈ kinds).
(** [values.is_some_and(|values| values.iter().any(p))] on an array field. *)
Definition any_value (p : string → bool) (values : option (list Value)) : bool :=
  is_some_and (existsb (λ v, is_some_and p (as_str v))) values.
Definition scope_validate (scope : FipsDiscoveryScope) (filter : Filter) : res unit :=
  value ← map_err (storage_error "encode filter") (filter_to_value filter);
  let '(field, forbidden, key) :=
    match scope with
    | Author key => ("authors", "#p", key)
    | Device key => ("#p", "authors", key)
    end%string in
  let valid_key :=
    match get_array value field with
    | Some [v] => bool_decide (as_str v = Some (public_key_to_hex key))
    | _ => false
    end in
  let allowed :=
    is_some_and (λ kinds, negb (bool_decide (kinds = [])) && forallb (λ kind,
      match scope with
      | Author _ => kind_in [0; 1059; 10002; 10050; 30078; 37368; 37195] kind
      | Device _ => bool_decide (kind = 37368)
      end) kinds) (filter_kinds filter) in
  let group_roster :=
    any_value (λ s, bool_decide (s = "group_roster"%string)) (get_array value "#type")
    || any_value (λ s, String.prefix "group_roster" s) (get_array value "#d") in
  if negb valid_key || negb allowed || bool_decide (is_Some (value_get value forbidden)) || group_roster
  then Err (invalid_option "discovery filter crosses its single public subject")
  else Ok tt.
Definition scope_from_filter (filter : Filter) : res FipsDiscoveryScope :=
  value ← map_err (storage_error "encode filter") (filter_to_value filter);
  '(is_author, key) ←
    match get_array value "authors", get_array value "#p" with
    | Some [key], None => Ok (true, key)
    | None, Some [key] => Ok (false, key)
    | _, _ => Err (invalid_option "discovery requires exactly one author or AppKeys device")
    end;
  public_key ← map_err (λ e, invalid_option ("invalid discovery key: " +:+ e))
    (public_key_from_hex (default ""%string (as_str key)));
  let scope := if is_author : bool then Author public_key else Device public_key in
  _ ← scope_validate scope filter;
  Ok scope.

(** ** Roles *)
Inductive ClientRole : Type :=
  | Full
  | Receiver (public_authors : list PublicKey)
  | Discovery (scope : FipsDiscoveryScope)
  | Publisher.

Definition is_private (kind : N) : bool := kind_in [1059; 1060; 21111] kind.
Definition advertises (role : ClientRole) : bool := match role with Full => true | _ => false end.

(** [explicitly_public] and the decision for one kind of a receiver's filter. *)
Definition explicitly_public (public_authors : list PublicKey) (filter : Filter) : bool :=
  is_some_and (λ authors, negb (bool_decide (authors = [])) &&
    forallb (λ author, bool_decide (author ∈ public_authors)) authors) (filter_authors filter).
Definition receiver_kind (public_authors : list PublicKey) (value : Value) (filter : Filter) (kind : N)
    : bool :=
  let public := explicitly_public public_authors filter in
  if is_private kind then
    bool_decide (is_Some (value_get value "#p"))
    || is_some_and (λ v, negb (bool_decide (v = []))) (filter_authors filter)
  else if kind_in [30078; 37368] kind then public
  else if kind_in [0; 10002; 10050; 37195] kind then
    public || (bool_decide (filter_authors filter = None) && bool_decide (value_get value "#p" = None))
  else bool_decide (filter_authors filter = None) || public.
Definition role_allows (role : ClientRole) (filter : Filter) : res bool :=
  match role with
  | Full => Ok true
  | Publisher => Ok false
  | Discovery scope => _ ← scope_validate scope filter; Ok true
  | Receiver public_authors =>
      value ← map_err (storage_error "encode filter") (filter_to_value filter);
      Ok (is_some_and (λ kinds, negb (bool_decide (kinds = []))
            && forallb (receiver_kind public_authors value filter) kinds) (filter_kinds filter))
  end.
Definition validate_filter (role : ClientRole) (filter : Filter) : res unit :=
  if decide (filter_set_limit None filter = default_peerfinding_filter) then Ok tt
  else
    allowed ← role_allows role filter;
    if allowed : bool then Ok tt
    else Err (invalid_option "subscription is not allowed on this FIPS privacy role").
Fixpoint validate_filters (role : ClientRole) (filters : list Filter) : res unit :=
  match filters with
  | [] => Ok tt
  | filter :: filters => _ ← validate_filter role filter; validate_filters role filters
  end.

Definition can_export (role : ClientRole) (event : VerifiedEvent) : bool :=
  match role with
  | Full => true
  | Receiver authors =>
      negb (is_private (event_kind (as_event event)))
      && bool_decide (event_pubkey (as_event event) ∈ authors)
  | Discovery _ | Publisher => false
  end.
Definition validate_publication (role : ClientRole) (event : VerifiedEvent) : res unit :=
  if can_export role event then Ok tt
  else Err (invalid_option "publication is not allowed on this FIPS privacy role").

Lemma validate_filters_Ok role filters :
  validate_filters role filters = Ok tt ↔ ∀ f, f ∈ filters → validate_filter role f = Ok tt.
Proof.
  induction filters as [|f filters IH]; cbn [validate_filters].
  { split; [intros _ f Hf; by apply not_elem_of_nil in Hf|done]. }
  rewrite result_bind_Ok. setoid_rewrite IH. setoid_rewrite elem_of_cons. split.
  - intros ([] & ? & ?). naive_solver.
  - intros Hall. exists tt. naive_solver.
Qed.

(** ** The limit does not matter *)
Context `{!FilterFieldsLaws F}.

Lemma scope_validate_limit scope l f :
  scope_validate scope (filter_set_limit l f) = scope_validate scope f.
Proof.
  unfold scope_validate. pose proof (filter_to_value_set_limit l f) as Hv.
  destruct (filter_to_value f) as [v|e], (filter_to_value (filter_set_limit l f)) as [v'|e'];
    [|done|done|by rewrite Hv].
  simpl. rewrite filter_kinds_set_limit. unfold get_array.
  destruct scope; by rewrite !Hv by done.
Qed.
Lemma role_allows_limit role l f : role_allows role (filter_set_limit l f) = role_allows role f.
Proof.
  destruct role as [|authors|scope|]; [done| | |done]; simpl.
  - pose proof (filter_to_value_set_limit l f) as Hv.
    destruct (filter_to_value f) as [v|e], (filter_to_value (filter_set_limit l f)) as [v'|e'];
      [|done|done|by rewrite Hv].
    simpl. rewrite filter_kinds_set_limit. f_equal.
    destruct (filter_kinds f) as [kinds|]; simpl; [|done]. f_equal.
    induction kinds as [|kind kinds IH]; simpl; [done|]. f_equal; [|exact IH].
    unfold receiver_kind, explicitly_public. rewrite filter_authors_set_limit, Hv by done. done.
  - by rewrite scope_validate_limit.
Qed.
Lemma validate_filter_limit role l f :
  validate_filter role (filter_set_limit l f) = validate_filter role f.
Proof. unfold validate_filter. by rewrite filter_set_limit_twice, role_allows_limit. Qed.
End roles.
