(* ===== verification/FipsPeers.v ===== *)
(** * Peers of the FIPS client

    crates/nostr-pubsub-fips/src/client_peers.rs, and the choice of delivery
    targets in lib.rs: which peers a client keeps links to, in which order it
    prefers them, and whom it announces an event to. *)

From S2P Require Export FipsRoles.

(** What the [fips_core] crate provides of an identity, and the standard hasher,
    whose algorithm is unspecified: [target_hash event npub] for the default
    targets and [order_hash event local npub] for ranked ones. *)
Class FipsCore `{!Nostr} : Type := {
  PeerIdentity : Type;
  identity_from_npub : string → result string PeerIdentity;
  identity_npub : PeerIdentity → string;
  target_hash : EventId → string → N;
  order_hash : EventId → string → string → N;
}.
Arguments FipsCore _ : clear implicits.
Class FipsCoreLaws {NS : Nostr} (C : FipsCore NS) : Prop := {
  identity_npub_roundtrip p : identity_from_npub (identity_npub p) = Ok p;
}.

(** [{:016x}]. *)
Definition hex_digit (n : N) : Ascii.ascii :=
  Ascii.ascii_of_N (if decide (n < 10) then 48 + n else 87 + n).
Fixpoint hex_digits (digits : nat) (n : N) : string :=
  match digits with
  | O => ""
  | S digits => hex_digits digits (n / 16) +:+ String (hex_digit (n `mod` 16)) ""
  end.
Definition hex16 (n : N) : string := hex_digits 16 n.

(** A [MeshPeerPolicy]. *)
Definition PeerPolicy : Type := string → res (option MeshPeer).

(** ** Links *)
Inductive PeerLinkEpoch : Set := Routed | Direct (link : N) | LocalService (epoch : N).
#[export] Instance PeerLinkEpoch_eq_dec : EqDecision PeerLinkEpoch.
Proof. solve_decision. Defined.
Definition requires_reset (self previous : PeerLinkEpoch) : bool :=
  match previous, self with
  | Direct _, LocalService _ => false
  | _, _ => negb (bool_decide (self = previous))
  end.
Record ConnectedPeerLink : Set := mkLink { cl_npub : string; cl_link_id : PeerLinkEpoch }.

Section peers.
Context `{!Nostr, C : !FipsCore _}.

(** ** Ranking by policy *)

(** The loop over the candidates: the ranked peers, and the identity behind
    each ordering key. *)
Fixpoint policy_candidates (policy : PeerPolicy) (live_event : option (EventId * string))
    (ids : list string) (candidates : list MeshPeer) (authenticated_ids : gmap string string)
    : res (list MeshPeer * gmap string string) :=
  match ids with
  | [] => Ok (candidates, authenticated_ids)
  | id :: ids =>
      selected ← policy id;
      match selected with
      | None => policy_candidates policy live_event ids candidates authenticated_ids
      | Some candidate =>
          match live_event with
          | Some (event_id, local_npub) =>
              let order_key := hex16 (order_hash event_id local_npub id) +:+ ":" +:+ id in
              policy_candidates policy live_event ids
                (candidates ++ [mkMeshPeer order_key (quality_score candidate)])
                (<[order_key := id]> authenticated_ids)
          | None =>
              policy_candidates policy live_event ids
                (candidates ++ [mkMeshPeer id (quality_score candidate)]) authenticated_ids
          end
      end
  end.
(** The final [map]: an [expect] that fails is [None]. *)
Fixpoint take_identities (keys : list string) (authenticated_ids : gmap string string)
    : option (list string) :=
  match keys with
  | [] => Some []
  | key :: keys =>
      id ← authenticated_ids !! key;
      ids ← take_identities keys (delete key authenticated_ids);
      Some (id :: ids)
  end.
Definition select_policy_peers (policy : PeerPolicy) (ids : list string)
    (capacity unknown_reserve : N) (live_event : option (EventId * string))
    : option (res (list string)) :=
  match policy_candidates policy live_event ids [] ∅ with
  | Err e => Some (Err e)
  | Ok (candidates, authenticated_ids) =>
      let selected := mp_id <$> select_mesh_peers candidates None capacity unknown_reserve in
      match live_event with
      | None => Some (Ok selected)
      | Some _ => ids ← take_identities selected authenticated_ids; Some (Ok ids)
      end
  end.

(** [links.iter().map(..).collect::<HashMap<_, _>>()]. *)
Definition links_by_identity (links : list ConnectedPeerLink) : gmap string PeerLinkEpoch :=
  foldl (λ (m : gmap string PeerLinkEpoch) link, <[cl_npub link := cl_link_id link]> m) ∅ links.
Definition select_links (policy : option PeerPolicy) (links : list ConnectedPeerLink)
    (capacity unknown_reserve : N) : option (res (list ConnectedPeerLink)) :=
  match policy with
  | None => Some (Ok (take (N.to_nat capacity) links))
  | Some policy =>
      let by_identity := links_by_identity links in
      let with_link (npub : string) : option ConnectedPeerLink :=
        mkLink npub <$> by_identity !! npub in
      fmap (M:=option) (fmap (M:=result PubsubError) (omap with_link))
        (select_policy_peers policy (cl_npub <$> links) capacity unknown_reserve None)
  end.

(** ** Routed peers *)
Fixpoint canonical_npubs (peers : list string) : res (list string) :=
  match peers with
  | [] => Ok []
  | npub :: peers =>
      identity ← map_err (λ error, invalid_option ("invalid routed peer: " +:+ error))
        (identity_from_npub npub);
      rest ← canonical_npubs peers;
      Ok (identity_npub identity :: rest)
  end.
Definition validate_routed_peers (peers : list string) (capacity : N) (local_npub : string)
    (transport_restricted : bool) : res (list string) :=
  if transport_restricted && negb (bool_decide (peers = [])) then
    Err (invalid_option "routed_peers require an unrestricted FIPS client")
  else if decide (capacity < nlen peers) then
    Err (invalid_option "routed_peers cannot exceed max_connected_peers")
  else
    peers ← canonical_npubs peers;
    Ok (dedup_adjacent
          (sort_by String.compare (filter (λ npub, npub ≠ local_npub) peers))).

(** ** The links of a client *)

(** What [FipsEndpoint::peers] and [local_instance_advertisements] report. *)
Record PeerSnapshot : Set := mkSnapshot {
  sp_npub : string;
  sp_connected : bool;
  sp_transport_type : option string;
  sp_link_id : N;
}.
Record LocalAdvert : Set := mkAdvert {
  la_npub : string;
  la_startup_epoch : N;
  la_capabilities : list (string * option N);
}.
Definition serves_pubsub (advert : LocalAdvert) : bool :=
  existsb (λ capability, bool_decide
    (capability = (FIPS_NOSTR_PUBSUB_CAPABILITY, Some FIPS_NOSTR_PUBSUB_SERVICE_PORT)))
    (la_capabilities advert).
(** [collect] into a [BTreeMap]. *)
Definition local_services (local_npub : string) (adverts : list LocalAdvert) : gmap string N :=
  foldl (λ (m : gmap string N) advert, <[la_npub advert := la_startup_epoch advert]> m) ∅
    (filter (λ advert, la_npub advert ≠ local_npub ∧ serves_pubsub advert = true) adverts).

Record PeerSelection : Type := mkSelection {
  se_local_npub : string;
  se_role : bool;
  se_options : FipsPubsubClientOptions;
  se_peer_transport : option string;
  se_excluded_peer_transports : gset string;
  se_peer_policy : option PeerPolicy;
  se_unknown_peer_reserve : N;
}.
Definition unrestricted (c : PeerSelection) : bool :=
  bool_decide (se_peer_transport c = None) && bool_decide (se_excluded_peer_transports c = ∅).
(** [binary_search] finds an element of a sorted list. *)
Definition discovered_links (c : PeerSelection) (routed : list string) (services : gmap string N)
    : list ConnectedPeerLink :=
  if unrestricted c then
    (λ s, mkLink s.1 (LocalService s.2)) <$> filter (λ s, s.1 ∉ routed) (btree_to_list services)
  else [].
Definition direct_peer (c : PeerSelection) (routed : list string) (adverts : list LocalAdvert)
    (services : gmap string N) (peer : PeerSnapshot) : bool :=
  sp_connected peer
  && negb (fo_accept_anonymous_publications (se_options c))
  && match se_peer_transport c with
     | None => true
     | Some transport => bool_decide (sp_transport_type peer = Some transport)
     end
  && match sp_transport_type peer with
     | None => true
     | Some transport => negb (bool_decide (transport ∈ se_excluded_peer_transports c))
     end
  && bool_decide (sp_npub peer ∉ routed)
  && (negb (existsb (λ advert, bool_decide (la_npub advert = sp_npub peer)) adverts)
      || (negb (unrestricted c) && bool_decide (is_Some (services !! sp_npub peer)))).
Definition direct_links (c : PeerSelection) (routed : list string) (adverts : list LocalAdvert)
    (services : gmap string N) (snapshot : list PeerSnapshot) : list ConnectedPeerLink :=
  dedup_by_key cl_npub (sort_by (cmp_on cl_npub String.compare)
    ((λ peer, mkLink (sp_npub peer) (Direct (sp_link_id peer)))
      <$> filter (direct_peer c routed adverts services) snapshot)).
(** [snapshot] and [local_instances]: the outcomes of the two calls. *)
Definition connected_peer_links (c : PeerSelection) (routed : list string)
    (snapshot : result string (list PeerSnapshot)) (local_instances : result string (list LocalAdvert))
    : option (res (list ConnectedPeerLink)) :=
  match (snapshot ← map_err (storage_error "snapshot FIPS peers") snapshot;
         adverts ← map_err (storage_error "snapshot local FIPS services") local_instances;
         Ok (snapshot, adverts) : res _) with
  | Err e => Some (Err e)
  | Ok (snapshot, adverts) =>
      let services := local_services (se_local_npub c) adverts in
      let peers := (λ npub, mkLink npub Routed) <$> routed in
      if negb (se_role c) then Some (Ok peers)
      else
        let discovered :=
          discovered_links c routed services ++ direct_links c routed adverts services snapshot in
        let capacity := outbound_peer_capacity (se_options c) in
        match select_links (se_peer_policy c) peers capacity 0 with
        | None => None
        | Some (Err e) => Some (Err e)
        | Some (Ok peers) =>
            fmap (M:=option) (fmap (M:=result PubsubError) (app peers))
              (select_links (se_peer_policy c) discovered (capacity - nlen peers)
                (se_unknown_peer_reserve c))
        end
  end.

(** ** Delivery targets without a policy *)
Definition target_compare (event_id : EventId) : string * list string → string * list string → comparison :=
  cmp_then (cmp_on (λ t, target_hash event_id t.1) N.compare) (cmp_on fst String.compare).
Definition bounded_delivery_targets (targets : list (string * list string)) (event_id : EventId)
    (fanout : N) : list (string * list string) :=
  if decide (nlen targets ≤ fanout) then targets
  else take (N.to_nat fanout) (sort_by (target_compare event_id) targets).

(** ** Selection is total, distinct and bounded *)
Definition order_key (live_event : option (EventId * string)) (id : string) : string :=
  match live_event with
  | Some (event_id, local_npub) => hex16 (order_hash event_id local_npub id) +:+ ":" +:+ id
  | None => id
  end.
Lemma policy_candidates_ok policy live_event ids candidates authenticated c a :
  policy_candidates policy live_event ids candidates authenticated = Ok (c, a) →
  (∀ p, p ∈ c → p ∈ candidates ∨ ∃ id, id ∈ ids ∧ mp_id p = order_key live_event id ∧
    (is_Some live_event → is_Some (a !! mp_id p))) ∧
  (∀ key id, a !! key = Some id →
    authenticated !! key = Some id ∨ id ∈ ids ∧ key = order_key live_event id) ∧
  (∀ key, is_Some (authenticated !! key) → is_Some (a !! key)).
Proof.
  revert candidates authenticated. induction ids as [|id ids IH]; intros candidates authenticated.
  { intros [= <- <-]. auto. }
  cbn [policy_candidates]. rewrite result_bind_Ok. intros (selected & _ & Hrest).
  destruct selected as [candidate|]; cycle 1.
  { apply IH in Hrest as (Hc & Ha & Hk). setoid_rewrite elem_of_cons.
    split_and!; [|intros key x Hx; destruct (Ha key x Hx); naive_solver|done].
    intros p Hp. destruct (Hc p Hp) as [?|(x & ? & ?)]; eauto. }
  destruct live_event as [[event_id local]|].
  - apply IH in Hrest as (Hc & Ha & Hk). setoid_rewrite elem_of_cons.
    set (key0 := hex16 _ +:+ _) in *. split_and!.
    + intros p Hp. destruct (Hc p Hp) as [[?|Hp']%elem_of_app|(x & ? & ?)]; [by left| |eauto].
      apply list_elem_of_singleton in Hp' as ->. right. exists id.
      split_and!; [by left|done|]. intros _. apply Hk. simpl. by rewrite lookup_insert_eq.
    + intros key x Hx. destruct (Ha key x Hx) as [[[<- <-]|[_ ?]]%lookup_insert_Some|[? ?]]; auto.
    + intros key Hkey. apply Hk, lookup_insert_is_Some'. by right.
  - apply IH in Hrest as (Hc & Ha & Hk). setoid_rewrite elem_of_cons. split_and!; [| |done].
    + intros p Hp. destruct (Hc p Hp) as [[?|Hp']%elem_of_app|(x & ? & ?)]; [by left| |eauto].
      apply list_elem_of_singleton in Hp' as ->. right. exists id. split_and!; [by left|done|].
      by intros [? ?].
    + intros key x Hx. destruct (Ha key x Hx) as [?|[? ?]]; auto.
Qed.
Lemma take_identities_Some keys authenticated :
  NoDup keys → (∀ key, key ∈ keys → is_Some (authenticated !! key)) →
  ∃ ids, take_identities keys authenticated = Some ids ∧
    Forall2 (λ key id, authenticated !! key = Some id) keys ids.
Proof.
  revert authenticated. induction keys as [|key keys IH]; intros authenticated Hnd Hall; simpl.
  { eexists. split; [done|constructor]. }
  apply NoDup_cons in Hnd as [Hkey Hnd]. destruct (Hall key ltac:(left)) as [id Hid]. rewrite Hid. simpl.
  destruct (IH (delete key authenticated)) as (ids & -> & Hids); [done| |].
  { intros k Hk. rewrite lookup_delete_ne by (by intros ->). apply Hall. by right. }
  exists (id :: ids). split; [done|]. constructor; [done|]. eapply Forall2_impl; [exact Hids|].
  simpl. intros k x Hx. by apply lookup_delete_Some in Hx as [_ ?].
Qed.
Lemma select_policy_peers_ok policy ids capacity reserve live_event :
  match select_policy_peers policy ids capacity reserve live_event with
  | None => False
  | Some (Err e) => ∃ id, id ∈ ids ∧ policy id = Err e
  | Some (Ok selected) => NoDup selected ∧ nlen selected ≤ capacity ∧ selected ⊆ ids
  end.
Proof.
  unfold select_policy_peers.
  destruct (policy_candidates policy live_event ids [] ∅) as [[candidates authenticated]|e] eqn:Hpc.
  2: { revert Hpc. generalize (@nil MeshPeer), (∅ : gmap string string).
       induction ids as [|id ids IH]; intros c a; [done|]. cbn [policy_candidates].
       destruct (policy id) as [selected|e'] eqn:Hp; simpl.
       - intros Hrest. assert (∃ id, id ∈ ids ∧ policy id = Err e) as (x & ? & ?).
         { destruct selected as [candidate|]; [destruct live_event as [[]|]|]; by eapply IH. }
         exists x. split; [by right|done].
       - intros [= ->]. exists id. split; [left|done]. }
  apply policy_candidates_ok in Hpc as (Hc & Ha & _).
  set (selected := select_mesh_peers candidates None capacity reserve).
  assert (NoDup (mp_id <$> selected)) as Hnd by apply select_mesh_peers_NoDup.
  assert (nlen (mp_id <$> selected) ≤ capacity) as Hlen.
  { unfold nlen. rewrite length_fmap. fold (nlen selected). unfold selected.
    rewrite select_mesh_peers_length. lia. }
  assert (∀ p, p ∈ selected → ∃ id, id ∈ ids ∧ mp_id p = order_key live_event id ∧
    (is_Some live_event → is_Some (authenticated !! mp_id p))) as Hsel.
  { intros p Hp. apply select_mesh_peers_elem in Hp as [Hp _].
    destruct (Hc p Hp) as [Hin|?]; [by apply not_elem_of_nil in Hin|done]. }
  destruct live_event as [live|].
  - destruct (take_identities_Some (mp_id <$> selected) authenticated Hnd) as (out & -> & Hout).
    { intros key (p & -> & Hp)%list_elem_of_fmap. destruct (Hsel p Hp) as (_ & _ & _ & H'). eauto. }
    simpl. assert (Forall2 (λ key id, id ∈ ids ∧ key = order_key (Some live) id) (mp_id <$> selected) out)
      as Hkeys.
    { eapply Forall2_impl; [exact Hout|]. intros key id Hkey.
      destruct (Ha key id Hkey) as [Hin|?]; [by rewrite lookup_empty in Hin|done]. }
    split_and!.
    + clear -Hnd Hkeys. revert Hnd Hkeys. generalize (mp_id <$> selected) as keys0.
      intros keys0 Hnd Hkeys. induction Hkeys as [|key id keys out [Hid ->] Hkeys IH]; [constructor|].
      apply NoDup_cons in Hnd as [Hnin Hnd]. constructor; [|auto]. intros Hin. apply Hnin.
      destruct (list_elem_of_lookup_1 _ _ Hin) as [i Hi].
      destruct (Forall2_lookup_r _ _ _ _ _ Hkeys Hi) as (key & Hkey & _ & ->).
      by eapply list_elem_of_lookup_2.
    + pose proof (Forall2_length _ _ _ Hkeys). unfold nlen in *. lia.
    + intros id Hin. destruct (list_elem_of_lookup_1 _ _ Hin) as [i Hi].
      by destruct (Forall2_lookup_r _ _ _ _ _ Hkeys Hi) as (key & _ & ? & _).
  - split_and!; [done|done|]. intros id (p & -> & Hp)%list_elem_of_fmap.
    destruct (Hsel p Hp) as (x & ? & -> & _). done.
Qed.
End peers.
