(* ===== verification/FipsClient.v ===== *)
(** * The FIPS client: state and shared operations

    [ClientInner] of crates/nostr-pubsub-fips/src/client_inner.rs (with
    recent_events.rs and lib.rs): subscriptions and their deliveries, what peers
    asked for, and the queue of frames for the transport. Every structure has a
    lock of its own in the code; an operation here is one step. *)

From S2P Require Export FipsPeers.

(** [millis] of a duration in nanoseconds, as [u64]. *)
Definition as_millis (nanos : N) : N := nanos / 1000000 `min` u64_max.

Section client.
Context `{!Nostr, J : !WireJson _, F : !FilterFields J, C : !FipsCore _, !HashOrder}.

(** ** The state *)
Record ClientConfig : Type := mkClientConfig {
  cc_role : ClientRole;
  cc_local_npub : string;
  cc_codec : FipsPubsubWireCodec;
  cc_options : FipsPubsubClientOptions;
  cc_peer_transport : option string;
  cc_excluded_peer_transports : gset string;
  cc_event_policy : option PubsubPolicy;
  cc_peer_policy : option PeerPolicy;
  cc_unknown_peer_reserve : N;
}.
Inductive TransportCommand : Type :=
  | CmdSend (peer : PeerIdentity) (frame : string)
  | CmdCooldown (peer : PeerIdentity).
(** The delivery of a subscription is shared with the application: it is kept
    under the subscription's key in [ci_deliveries], and outlives it. *)
Record ActiveSubscription : Type := mkActive {
  as_filters : list Filter;
  as_fresh : bool;
  as_peers : gset string;
}.
Record FipsRemotePublication : Type := mkRemotePublication {
  rp_event_id : EventId;
  rp_provider : string;
}.
(** [pp_reply]: whether the reply channel was not used yet. *)
Record PendingPublication : Type := mkPublication {
  pp_providers : gset string;
  pp_reply : bool;
}.
Inductive ReplayQuery : Type :=
  | ReplaySubscription (id : string) (filters : list Filter) (excluded : list EventId) (limit : N)
  | ReplayEvent (id : EventId).
(** [rr_source] identifies the source, which is compared by address. *)
Record ReplayRequest : Type := mkReplayRequest {
  rr_peer : PeerIdentity;
  rr_source : N;
  rr_query : ReplayQuery;
}.
Inductive Counter : Set :=
  | req_frames_received | close_frames_received | event_frames_received | inv_frames_received
  | want_frames_received | want_frames_sent | subscription_events_received | expired_wants
  | provider_cooldowns | tcp_receive_batches | tcp_datagrams_received | tcp_datagrams_rejected
  | tcp_poll_turns | transport_errors | connected_transport_peers.
#[export] Instance Counter_eq_dec : EqDecision Counter.
Proof. solve_decision. Defined.
Record ClientInner : Type := mkClient {
  ci_admission : bool;
  ci_publications : gmap EventId PendingPublication;
  ci_receipts : list (EventId * res FipsRemotePublication);
  ci_transport : list TransportCommand;
  ci_transport_open : bool;
  ci_replay_source : option N;
  ci_replay_queue : list ReplayRequest;
  ci_counters : Counter → N;
  ci_next_subscription_id : N;
  ci_subscriptions : gmap string ActiveSubscription;
  ci_deliveries : gmap string LocalDelivery;
  ci_peer_subscriptions : PubsubPeerSubscriptionStore;
  ci_recent_events : RecentEvents;
  ci_observed_inventories : ScopedSeenIds;
  ci_observed_full_events : ScopedSeenIds;
  ci_provider_behavior : ProviderBehavior;
  ci_pending_wants : PendingWants;
}.
Implicit Types (cfg : ClientConfig) (s : ClientInner).
Definition set_ci_admission v s : ClientInner :=
  mkClient v (ci_publications s) (ci_receipts s) (ci_transport s) (ci_transport_open s)
    (ci_replay_source s) (ci_replay_queue s) (ci_counters s) (ci_next_subscription_id s)
    (ci_subscriptions s) (ci_deliveries s) (ci_peer_subscriptions s) (ci_recent_events s)
    (ci_observed_inventories s) (ci_observed_full_events s) (ci_provider_behavior s)
    (ci_pending_wants s).
Definition set_ci_publications v s : ClientInner :=
  mkClient (ci_admission s) v (ci_receipts s) (ci_transport s) (ci_transport_open s)
    (ci_replay_source s) (ci_replay_queue s) (ci_counters s) (ci_next_subscription_id s)
    (ci_subscriptions s) (ci_deliveries s) (ci_peer_subscriptions s) (ci_recent_events s)
    (ci_observed_inventories s) (ci_observed_full_events s) (ci_provider_behavior s)
    (ci_pending_wants s).
Definition set_ci_receipts v s : ClientInner :=
  mkClient (ci_admission s) (ci_publications s) v (ci_transport s) (ci_transport_open s)
    (ci_replay_source s) (ci_replay_queue s) (ci_counters s) (ci_next_subscription_id s)
    (ci_subscriptions s) (ci_deliveries s) (ci_peer_subscriptions s) (ci_recent_events s)
    (ci_observed_inventories s) (ci_observed_full_events s) (ci_provider_behavior s)
    (ci_pending_wants s).
Definition set_ci_transport v s : ClientInner :=
  mkClient (ci_admission s) (ci_publications s) (ci_receipts s) v (ci_transport_open s)
    (ci_replay_source s) (ci_replay_queue s) (ci_counters s) (ci_next_subscription_id s)
    (ci_subscriptions s) (ci_deliveries s) (ci_peer_subscriptions s) (ci_recent_events s)
    (ci_observed_inventories s) (ci_observed_full_events s) (ci_provider_behavior s)
    (ci_pending_wants s).
Definition set_ci_transport_open v s : ClientInner :=
  mkClient (ci_admission s) (ci_publications s) (ci_receipts s) (ci_transport s) v
    (ci_replay_source s) (ci_replay_queue s) (ci_counters s) (ci_next_subscription_id s)
    (ci_subscriptions s) (ci_deliveries s) (ci_peer_subscriptions s) (ci_recent_events s)
    (ci_observed_inventories s) (ci_observed_full_events s) (ci_provider_behavior s)
    (ci_pending_wants s).
Definition set_ci_replay_source v s : ClientInner :=
  mkClient (ci_admission s) (ci_publications s) (ci_receipts s) (ci_transport s)
    (ci_transport_open s) v (ci_replay_queue s) (ci_counters s) (ci_next_subscription_id s)
    (ci_subscriptions s) (ci_deliveries s) (ci_peer_subscriptions s) (ci_recent_events s)
    (ci_observed_inventories s) (ci_observed_full_events s) (ci_provider_behavior s)
    (ci_pending_wants s).
Definition set_ci_replay_queue v s : ClientInner :=
  mkClient (ci_admission s) (ci_publications s) (ci_receipts s) (ci_transport s)
    (ci_transport_open s) (ci_replay_source s) v (ci_counters s) (ci_next_subscription_id s)
    (ci_subscriptions s) (ci_deliveries s) (ci_peer_subscriptions s) (ci_recent_events s)
    (ci_observed_inventories s) (ci_observed_full_events s) (ci_provider_behavior s)
    (ci_pending_wants s).
Definition set_ci_counters v s : ClientInner :=
  mkClient (ci_admission s) (ci_publications s) (ci_receipts s) (ci_transport s)
    (ci_transport_open s) (ci_replay_source s) (ci_replay_queue s) v (ci_next_subscription_id s)
    (ci_subscriptions s) (ci_deliveries s) (ci_peer_subscriptions s) (ci_recent_events s)
    (ci_observed_inventories s) (ci_observed_full_events s) (ci_provider_behavior s)
    (ci_pending_wants s).
Definition set_ci_next_subscription_id v s : ClientInner :=
  mkClient (ci_admission s) (ci_publications s) (ci_receipts s) (ci_transport s)
    (ci_transport_open s) (ci_replay_source s) (ci_replay_queue s) (ci_counters s) v
    (ci_subscriptions s) (ci_deliveries s) (ci_peer_subscriptions s) (ci_recent_events s)
    (ci_observed_inventories s) (ci_observed_full_events s) (ci_provider_behavior s)
    (ci_pending_wants s).
Definition set_ci_subscriptions v s : ClientInner :=
  mkClient (ci_admission s) (ci_publications s) (ci_receipts s) (ci_transport s)
    (ci_transport_open s) (ci_replay_source s) (ci_replay_queue s) (ci_counters s)
    (ci_next_subscription_id s) v (ci_deliveries s) (ci_peer_subscriptions s) (ci_recent_events s)
    (ci_observed_inventories s) (ci_observed_full_events s) (ci_provider_behavior s)
    (ci_pending_wants s).
Definition set_ci_deliveries v s : ClientInner :=
  mkClient (ci_admission s) (ci_publications s) (ci_receipts s) (ci_transport s)
    (ci_transport_open s) (ci_replay_source s) (ci_replay_queue s) (ci_counters s)
    (ci_next_subscription_id s) (ci_subscriptions s) v (ci_peer_subscriptions s) (ci_recent_events
    s) (ci_observed_inventories s) (ci_observed_full_events s) (ci_provider_behavior s)
    (ci_pending_wants s).
Definition set_ci_peer_subscriptions v s : ClientInner :=
  mkClient (ci_admission s) (ci_publications s) (ci_receipts s) (ci_transport s)
    (ci_transport_open s) (ci_replay_source s) (ci_replay_queue s) (ci_counters s)
    (ci_next_subscription_id s) (ci_subscriptions s) (ci_deliveries s) v (ci_recent_events s)
    (ci_observed_inventories s) (ci_observed_full_events s) (ci_provider_behavior s)
    (ci_pending_wants s).
Definition set_ci_recent_events v s : ClientInner :=
  mkClient (ci_admission s) (ci_publications s) (ci_receipts s) (ci_transport s)
    (ci_transport_open s) (ci_replay_source s) (ci_replay_queue s) (ci_counters s)
    (ci_next_subscription_id s) (ci_subscriptions s) (ci_deliveries s) (ci_peer_subscriptions s) v
    (ci_observed_inventories s) (ci_observed_full_events s) (ci_provider_behavior s)
    (ci_pending_wants s).
Definition set_ci_observed_inventories v s : ClientInner :=
  mkClient (ci_admission s) (ci_publications s) (ci_receipts s) (ci_transport s)
    (ci_transport_open s) (ci_replay_source s) (ci_replay_queue s) (ci_counters s)
    (ci_next_subscription_id s) (ci_subscriptions s) (ci_deliveries s) (ci_peer_subscriptions s)
    (ci_recent_events s) v (ci_observed_full_events s) (ci_provider_behavior s) (ci_pending_wants
    s).
Definition set_ci_observed_full_events v s : ClientInner :=
  mkClient (ci_admission s) (ci_publications s) (ci_receipts s) (ci_transport s)
    (ci_transport_open s) (ci_replay_source s) (ci_replay_queue s) (ci_counters s)
    (ci_next_subscription_id s) (ci_subscriptions s) (ci_deliveries s) (ci_peer_subscriptions s)
    (ci_recent_events s) (ci_observed_inventories s) v (ci_provider_behavior s) (ci_pending_wants
    s).
Definition set_ci_provider_behavior v s : ClientInner :=
  mkClient (ci_admission s) (ci_publications s) (ci_receipts s) (ci_transport s)
    (ci_transport_open s) (ci_replay_source s) (ci_replay_queue s) (ci_counters s)
    (ci_next_subscription_id s) (ci_subscriptions s) (ci_deliveries s) (ci_peer_subscriptions s)
    (ci_recent_events s) (ci_observed_inventories s) (ci_observed_full_events s) v
    (ci_pending_wants s).
Definition set_ci_pending_wants v s : ClientInner :=
  mkClient (ci_admission s) (ci_publications s) (ci_receipts s) (ci_transport s)
    (ci_transport_open s) (ci_replay_source s) (ci_replay_queue s) (ci_counters s)
    (ci_next_subscription_id s) (ci_subscriptions s) (ci_deliveries s) (ci_peer_subscriptions s)
    (ci_recent_events s) (ci_observed_inventories s) (ci_observed_full_events s)
    (ci_provider_behavior s) v.

Definition client_new cfg : ClientInner := {|
  ci_admission := true;
  ci_publications := ∅;
  ci_receipts := [];
  ci_transport := [];
  ci_transport_open := true;
  ci_replay_source := None;
  ci_replay_queue := [];
  ci_counters := λ _, 0;
  ci_next_subscription_id := 1;
  ci_subscriptions := ∅;
  ci_deliveries := ∅;
  ci_peer_subscriptions := store_new (subscription_limits (cc_options cfg));
  ci_recent_events := recent_new (fo_max_replay_events (cc_options cfg))
    FIPS_NOSTR_PUBSUB_MAX_SEEN_EVENT_IDS;
  ci_observed_inventories := scoped_seen_new FIPS_NOSTR_PUBSUB_MAX_OBSERVED_IDS_PER_SCOPE
    FIPS_NOSTR_PUBSUB_MAX_OBSERVED_IDS;
  ci_observed_full_events := scoped_seen_new FIPS_NOSTR_PUBSUB_MAX_OBSERVED_IDS_PER_SCOPE
    FIPS_NOSTR_PUBSUB_MAX_OBSERVED_IDS;
  ci_provider_behavior := behavior_default;
  ci_pending_wants := pending_from_options (cc_options cfg);
|}.

(** [fetch_add(n, Relaxed)]. *)
Definition count (c : Counter) (n : N) s : ClientInner :=
  set_ci_counters (λ c', if decide (c' = c) then u64_wrap (ci_counters s c + n)
                         else ci_counters s c') s.
(** [store(n, Relaxed)]. *)
Definition store_counter (c : Counter) (n : N) s : ClientInner :=
  set_ci_counters (λ c', if decide (c' = c) then n else ci_counters s c') s.
(** The iteration of a [HashSet]. *)
Definition hash_elements (x : gset string) : list string := (hash_iter (gset_to_gmap tt x)).*1.

Definition admit_client s : res unit :=
  if ci_admission s then Ok tt else Err (Storage "FIPS pubsub client is shut down").

(** ** The transport queue *)
Definition transport_send cfg (command : TransportCommand) : SE ClientInner string unit := λ s,
  if ci_transport_open s then
    if decide (nlen (ci_transport s) < command_capacity (cc_options cfg))
    then (Ok tt, set_ci_transport (ci_transport s ++ [command]) s)
    else (Err "no available capacity"%string, s)
  else (Err "channel closed"%string, s).
Definition not_allowed : PubsubError :=
  invalid_option "outbound frame is not allowed on this FIPS privacy role".
Definition require (allowed : bool) : res unit := if allowed then Ok tt else Err not_allowed.
Definition validate_outbound cfg (peer : PeerIdentity) (frame : string) s : res unit :=
  message ← decode_frame (cc_codec cfg) frame;
  match cc_role cfg, message with
  | Full, _ | _, WireClose _ | (Receiver _ | Discovery _), WireWant _ => Ok tt
  | role, WireReq _ filters => validate_filters role filters
  | Receiver _ as role, WireEvent _ event => require (can_export role event)
  | Receiver _ as role, WireInv _ event_id event_kind _ _ =>
      require (match recent_event (event_id_to_hex event_id) (ci_recent_events s) with
               | Some event =>
                   bool_decide (Nostr.event_kind (as_event event) = event_kind) && can_export role event
               | None => false
               end)
  | Publisher, WireEvent None event =>
      require (match ci_publications s !! event_id (as_event event) with
               | Some pending => bool_decide (identity_npub peer ∈ pp_providers pending)
               | None => false
               end)
  | _, _ => Err not_allowed
  end.
Definition send_frame cfg (peer : PeerIdentity) (frame : string) : SE ClientInner PubsubError unit := λ s,
  match validate_outbound cfg peer frame s with
  | Err e => (Err e, s)
  | Ok _ =>
      let '(r, s) := transport_send cfg (CmdSend peer frame) s in
      (map_err (storage_error "queue TCP/FIPS Nostr pubsub frame") r, s)
  end.
(** [let _ = self.send_frame(..)]. *)
Definition send_frame_ignored cfg (peer : PeerIdentity) (frame : string) s : ClientInner :=
  (send_frame cfg peer frame s).2.

Definition send_close cfg (key : string) (peers : gset string) s : ClientInner :=
  match encode_frame (cc_codec cfg) (wire_close key) with
  | Err _ => s
  | Ok frame =>
      foldl (λ s npub,
        match identity_from_npub npub with
        | Ok peer => (transport_send cfg (CmdSend peer frame) s).2
        | Err _ => s
        end) s (hash_elements peers)
  end.
Definition record_provider_violation cfg (peer : PeerIdentity) (v : ProviderViolation) (now_ms : N) s
    : ClientInner :=
  let '(cooldown, behavior) :=
    behavior_record (identity_npub peer) v now_ms (ci_provider_behavior s) in
  let s := set_ci_provider_behavior behavior s in
  match cooldown with
  | None => s
  | Some _ =>
      match transport_send cfg (CmdCooldown peer) s with
      | (Ok _, s) => count provider_cooldowns 1 s
      | (Err _, s) => s
      end
  end.
Definition peer_is_in_cooldown (peer_npub : string) (now_ms : N) s : bool * ClientInner :=
  let '(cooling, behavior) := is_in_cooldown peer_npub now_ms (ci_provider_behavior s) in
  (cooling, set_ci_provider_behavior behavior s).

(** ** Subscriptions *)
Definition on_delivery {A} (key : string) (f : LocalDelivery → A * LocalDelivery) (absent : A) s
    : A * ClientInner :=
  match ci_deliveries s !! key with
  | Some delivery =>
      let '(a, delivery) := f delivery in
      (a, set_ci_deliveries (<[key := delivery]> (ci_deliveries s)) s)
  | None => (absent, s)
  end.
Definition deliver_local (key : string) (event : VerifiedEvent) (source : EventSource) s
    : bool * ClientInner :=
  on_delivery key (enqueue (mkQueryEvent event source SOURCE_PRIORITY_FIPS_ENDPOINT)) false s.
Definition delivered (key event_key : string) s : bool :=
  match ci_deliveries s !! key with
  | Some delivery => delivery_contains event_key delivery
  | None => false
  end.
Definition is_lagged (key : string) s : bool :=
  bool_decide (ld_status <$> ci_deliveries s !! key = Some Lagged).
Definition interested (active : ActiveSubscription) (event : VerifiedEvent) : bool :=
  bool_decide (from_filters (as_filters active) event = Subscribed).

Definition close_subscription cfg (key : string) s : ClientInner :=
  match ci_subscriptions s !! key with
  | None => s
  | Some active =>
      let s := set_ci_subscriptions (delete key (ci_subscriptions s)) s in
      let s := (on_delivery key (λ d, (tt, delivery_close d)) tt s).2 in
      let s := set_ci_pending_wants (remove_subscription key (ci_pending_wants s)) s in
      let s := set_ci_observed_inventories (clear_subscription key (ci_observed_inventories s)) s in
      send_close cfg key (as_peers active) s
  end.
Definition close_lagged cfg (keys : list string) s : ClientInner :=
  foldl (λ s key, close_subscription cfg key s) s keys.

(** The loop of [deliver_local_event]: whether anything was delivered, and the
    subscriptions that lag. *)
Definition deliver_step (source_npub : string) (event : VerifiedEvent)
    (acc : bool * list string * ClientInner) (e : string * ActiveSubscription)
    : bool * list string * ClientInner :=
  let '(delivered_any, lagged, s) := acc in
  let '(key, active) := e in
  if decide (source_npub ∉ as_peers active ∨ interested active event = false ∨
             delivered key (event_key event) s = true) then acc
  else
    let '(taken, s) := deliver_local key event (EventSources.fips_endpoint source_npub) s in
    (delivered_any || taken, if is_lagged key s then lagged ++ [key] else lagged, s).
Definition deliver_local_event cfg (source_npub : string) (event : VerifiedEvent) s
    : bool * ClientInner :=
  let '(delivered_any, lagged, s) :=
    foldl (deliver_step source_npub event) (false, [], s) (hash_iter (ci_subscriptions s)) in
  (delivered_any, close_lagged cfg lagged s).

Definition subscribed_from (source_npub : string) (event : VerifiedEvent) (active : ActiveSubscription)
    : bool :=
  bool_decide (source_npub ∈ as_peers active) && interested active event.
Definition event_matches_subscription (source_npub : string) (subscription_id : option string)
    (event : VerifiedEvent) s : bool :=
  match subscription_id with
  | Some id => is_some_and (subscribed_from source_npub event) (ci_subscriptions s !! id)
  | None => existsb (subscribed_from source_npub event) (hash_values (ci_subscriptions s))
  end.

Definition remember_event (event : VerifiedEvent) (source : EventSource) (hop_limit : N) s
    : bool * ClientInner :=
  let '(fresh, recent) := recent_insert event source hop_limit (ci_recent_events s) in
  (fresh, set_ci_recent_events recent s).
Definition publish_event (event : VerifiedEvent) (source : EventSource) (hop_limit : N) s
    : bool * ClientInner :=
  let '(fresh, recent) := insert_for_publish event source hop_limit (ci_recent_events s) in
  (fresh, set_ci_recent_events recent s).
Definition replay_step (key : string) (active : ActiveSubscription) s (cached : CachedEvent)
    : ClientInner :=
  if interested active (ce_event cached)
  then (deliver_local key (ce_event cached) (ce_source cached) s).2 else s.
Definition replay_local_events cfg (key : string) s : ClientInner :=
  match ci_subscriptions s !! key with
  | None => s
  | Some active =>
      let s := foldl (replay_step key active) s (re_entries (ci_recent_events s)) in
      if is_lagged key s then close_subscription cfg key s else s
  end.

(** ** Announcing *)
Definition event_payload_bytes (event : VerifiedEvent) : res N :=
  let len := slen (event_as_json (as_event event)) in
  if decide (len ≤ u32_max) then Ok len else Err (Validation "Nostr event payload is too large").

(** The loop that groups matching subscriptions by peer. *)
Fixpoint group_targets (excluded_peer : option string) (l : list (string * PubsubPeerSubscription))
    (targets : list (string * list string)) : list (string * list string) :=
  match l with
  | [] => targets
  | (peer, subscription) :: l =>
      if decide (excluded_peer = Some peer) then group_targets excluded_peer l targets
      else
        group_targets excluded_peer l
          match last targets with
          | Some (last_peer, ids) =>
              if decide (last_peer = peer)
              then removelast targets ++ [(last_peer, ids ++ [subscription_id subscription])]
              else targets ++ [(peer, [subscription_id subscription])]
          | None => targets ++ [(peer, [subscription_id subscription])]
          end
  end.
(** [filter_map] with [by_identity.remove(&id)]. *)
Fixpoint take_targets (selected : list string) (by_identity : gmap string (list string))
    : list (string * list string) :=
  match selected with
  | [] => []
  | id :: selected =>
      match by_identity !! id with
      | Some subscriptions => (id, subscriptions) :: take_targets selected (delete id by_identity)
      | None => take_targets selected by_identity
      end
  end.
Definition targets_by_identity (targets : list (string * list string)) : gmap string (list string) :=
  foldl (λ (m : gmap string (list string)) t, <[t.1 := t.2]> m) ∅ targets.
Definition peer_delivery_targets cfg (event : VerifiedEvent) (excluded_peer : option string) s
    : option (res (list (string * list string))) :=
  let targets :=
    group_targets excluded_peer (matching_peer_subscriptions (ci_peer_subscriptions s) event) [] in
  let id := event_id (as_event event) in
  match cc_peer_policy cfg with
  | None => Some (Ok (bounded_delivery_targets targets id (fo_fanout (cc_options cfg))))
  | Some policy =>
      match select_policy_peers policy targets.*1 (fo_fanout (cc_options cfg))
              (cc_unknown_peer_reserve cfg) (Some (id, cc_local_npub cfg)) with
      | None => None
      | Some (Err e) => Some (Err e)
      | Some (Ok selected) => Some (Ok (take_targets selected (targets_by_identity targets)))
      end
  end.

Definition inventory_frame cfg (subscription_ids : list string) (event : VerifiedEvent) (hop_limit : N)
    : SE ClientInner PubsubError string := λ s,
  if can_export (cc_role cfg) event then
    let s := match cc_role cfg with
             | Receiver _ =>
                 (publish_event event (EventSources.local_index "approved-public-replay") hop_limit s).2
             | _ => s
             end in
    (payload_bytes ← event_payload_bytes event;
     encode_frame (cc_codec cfg)
       (wire_inv subscription_ids (event_id (as_event event)) (Nostr.event_kind (as_event event))
          payload_bytes hop_limit), s)
  else (Err (invalid_option "inventory author is not public on this receiver"), s).
Fixpoint send_inventories cfg (targets : list (string * list string)) (event : VerifiedEvent)
    (hop_limit : N) s : N * ClientInner :=
  match targets with
  | [] => (0, s)
  | (npub, subscription_ids) :: targets =>
      if decide (hop_limit = 0) then (0, s)
      else
        match identity_from_npub npub with
        | Err _ => send_inventories cfg targets event hop_limit s
        | Ok peer =>
            match (inventory_frame cfg subscription_ids event hop_limit ≫= send_frame cfg peer) s with
            | (Ok _, s) =>
                let '(sent, s) := send_inventories cfg targets event hop_limit s in (sent + 1, s)
            | (Err _, s) => send_inventories cfg targets event hop_limit s
            end
        end
  end.
End client.
