(* ===== verification/FipsHandlers.v ===== *)
(** * The FIPS client: handlers

    What the client does with a frame, a publication, a subscription request,
    a retry, a departed peer and its own shutdown:
    crates/nostr-pubsub-fips/src/client_inner.rs, client_received_event.rs,
    client_publication.rs, anonymous_publication.rs, recent_events.rs,
    replay_source.rs, client_lifecycle.rs and client_transport.rs. A handler
    returns [None] if it panics. [now_ms] is the clock as the handler reads it. *)

From S2P Require Export FipsClient.

Section handlers.
Context `{!Nostr, J : !WireJson _, F : !FilterFields J, C : !FipsCore _, !HashOrder}.
Implicit Types (cfg : ClientConfig) (s : ClientInner).

(** ** Admission of events *)
Definition event_decision cfg (event : VerifiedEvent) (source : EventSource) : res PolicyDecision :=
  match cc_event_policy cfg with
  | Some policy => check_event policy event source
  | None => Ok (allow_with_priority SOURCE_PRIORITY_FIPS_ENDPOINT)
  end.
Definition event_is_admitted cfg (event : VerifiedEvent) (source : EventSource) : bool :=
  match event_decision cfg event source with Ok decision => negb (is_drop decision) | Err _ => false end.

(** ** Replay requests *)
Definition queue_replay cfg (peer : PeerIdentity) (query : ReplayQuery) s : bool * ClientInner :=
  if decide (peer_filter_count (ci_peer_subscriptions s) (identity_npub peer) = 0) then (false, s)
  else
    match ci_replay_source s with
    | None => (false, s)
    | Some source =>
        if decide (nlen (ci_replay_queue s) < replay_capacity (cc_options cfg))
        then (true, set_ci_replay_queue (ci_replay_queue s ++ [mkReplayRequest peer source query]) s)
        else (false, s)
    end.
Definition query_limit (filters : list Filter) (maximum : N) : N :=
  if decide (filters = []) then maximum
  else foldl (λ total filter, usize_sat_add total (default maximum (filter_limit filter))) 0 filters
         `min` maximum.

(** ** Requests of peers *)
Definition remember_peer_subscription (peer_id subscription_id : string) (filters : list Filter) s
    : option (res unit * ClientInner) :=
  '(r, store) ← upsert_filters peer_id subscription_id filters (ci_peer_subscriptions s);
  Some (_ ← r; Ok tt, set_ci_peer_subscriptions store s).
(** The loop over the cached events that match. *)
Fixpoint announce_cached cfg (peer : PeerIdentity) (subscription_id : string)
    (cached : list CachedEvent) s : list EventId * ClientInner :=
  match cached with
  | [] => ([], s)
  | c :: cached =>
      match inventory_frame cfg [subscription_id] (ce_event c) (ce_hop_limit c) s with
      | (Err _, s) => announce_cached cfg peer subscription_id cached s
      | (Ok frame, s) =>
          let s := send_frame_ignored cfg peer frame s in
          let '(excluded, s) := announce_cached cfg peer subscription_id cached s in
          (event_id (as_event (ce_event c)) :: excluded, s)
      end
  end.
Definition handle_req cfg (peer : PeerIdentity) (subscription_id : string) (filters : list Filter) s
    : option ClientInner :=
  match remember_peer_subscription (identity_npub peer) subscription_id filters s with
  | None => None
  | Some (Err _, s) => Some s
  | Some (Ok _, s) =>
      let limit := query_limit filters (fo_max_replay_events (cc_options cfg)) in
      let cached := take (N.to_nat limit)
        (filter (λ c, 0 < ce_hop_limit c) (recent_matching filters (ci_recent_events s))) in
      let '(excluded, s) := announce_cached cfg peer subscription_id cached s in
      Some (if decide (nlen excluded < limit)
            then (queue_replay cfg peer (ReplaySubscription subscription_id filters excluded limit) s).2
            else s)
  end.
Definition handle_close (peer_id subscription_id : string) s : option ClientInner :=
  '(_, store) ← store_remove peer_id subscription_id (ci_peer_subscriptions s);
  Some (set_ci_peer_subscriptions store s).

Definition event_for_want (peer_id : string) (id : EventId) s : option (string * VerifiedEvent) :=
  match recent_event (event_id_to_hex id) (ci_recent_events s) with
  | None => None
  | Some event =>
      match matching_subscriptions (ci_peer_subscriptions s) peer_id event with
      | subscription :: _ => Some (subscription_id subscription, event)
      | [] => None
      end
  end.
Definition handle_want cfg (peer : PeerIdentity) (id : EventId) s : ClientInner :=
  match event_for_want (identity_npub peer) id s with
  | None => (queue_replay cfg peer (ReplayEvent id) s).2
  | Some (subscription_id, event) =>
      match encode_frame (cc_codec cfg) (wire_deliver subscription_id event) with
      | Err _ => s
      | Ok frame => send_frame_ignored cfg peer frame s
      end
  end.

(** ** Inventories *)
Record InventoryAdvertisement : Type := mkInventory {
  inv_subscription_ids : list string;
  inv_event_id : EventId;
  inv_event_kind : N;
  inv_payload_bytes : N;
  inv_hop_limit : N;
}.
(** The [filter] that records its observations. *)
Fixpoint observe_each (source_npub event_key : string) (ids : list string) (seen : ScopedSeenIds)
    : list string * ScopedSeenIds :=
  match ids with
  | [] => ([], seen)
  | id :: ids =>
      let '(first, seen) := observe_seen source_npub id event_key seen in
      let '(rest, seen) := observe_each source_npub event_key ids seen in
      (if first then id :: rest else rest, seen)
  end.
Definition accept_inventory cfg (source_npub : string) (inventory : InventoryAdvertisement) (now_ms : N) s
    : res (option string) * ClientInner :=
  if decide (usize_sat_add (fo_max_active_subscriptions (cc_options cfg)) 1
             < nlen (inv_subscription_ids inventory)) then (Ok None, s)
  else
    let event_key := event_id_to_hex (inv_event_id inventory) in
    let already_seen := recent_contains event_key (ci_recent_events s) in
    let candidates := filter (λ id,
      is_some_and (λ active, bool_decide (source_npub ∈ as_peers active)
                             && (negb already_seen || as_fresh active)
                             && negb (delivered id event_key s))
        (ci_subscriptions s !! id) = true) (inv_subscription_ids inventory) in
    let '(valid, observed) :=
      observe_each source_npub event_key candidates (ci_observed_inventories s) in
    let s := set_ci_observed_inventories observed s in
    if decide (valid = []) then (Ok None, s)
    else
      let '(should_request, pending) := pending_insert event_key
        (inventory_request source_npub valid (inv_event_kind inventory)
           (inv_payload_bytes inventory) (inv_hop_limit inventory) now_ms) (ci_pending_wants s) in
      let s := set_ci_pending_wants pending s in
      if should_request : bool
      then (Some <$> encode_frame (cc_codec cfg) (wire_want (inv_event_id inventory)), s)
      else (Ok None, s).

(** A cached body, advertised afresh: deliver it to the fresh subscriptions. *)
Definition fresh_step (source_npub : string) (event : VerifiedEvent)
    (acc : list string * ClientInner) (id : string) : list string * ClientInner :=
  let '(lagged, s) := acc in
  match ci_subscriptions s !! id with
  | None => acc
  | Some active =>
      if as_fresh active && bool_decide (source_npub ∈ as_peers active)
         && negb (delivered id (event_key event) s) && interested active event
      then
        let s := (deliver_local id event (EventSources.fips_endpoint source_npub) s).2 in
        (if is_lagged id s then lagged ++ [id] else lagged, s)
      else acc
  end.
Definition handle_inv cfg (peer : PeerIdentity) (inventory : InventoryAdvertisement) (now_ms : N) s
    : ClientInner :=
  let source_npub := identity_npub peer in
  let s := count inv_frames_received 1 s in
  if decide (usize_sat_add (fo_max_active_subscriptions (cc_options cfg)) 1
             < nlen (inv_subscription_ids inventory)) then s
  else
    match recent_event (event_id_to_hex (inv_event_id inventory)) (ci_recent_events s) with
    | Some event =>
        if bool_decide (Nostr.event_kind (as_event event) ≠ inv_event_kind inventory)
           || match event_payload_bytes event with
              | Ok n => bool_decide (n ≠ inv_payload_bytes inventory)
              | Err _ => true
              end
           || negb (event_is_admitted cfg event (EventSources.fips_endpoint source_npub))
        then s
        else
          let '(lagged, s) :=
            foldl (fresh_step source_npub event) ([], s) (inv_subscription_ids inventory) in
          close_lagged cfg lagged s
    | None =>
        match accept_inventory cfg source_npub inventory now_ms s with
        | (Ok (Some frame), s) =>
            match send_frame cfg peer frame s with
            | (Ok _, s) => count want_frames_sent 1 s
            | (Err _, s) => s
            end
        | (_, s) => s
        end
    end.

(** ** Events *)
Definition complete_want (source_npub subscription_id : string) (event : VerifiedEvent) s
    : res (option N) * ClientInner :=
  match event_payload_bytes event with
  | Err e => (Err e, s)
  | Ok payload_bytes =>
      match ci_subscriptions s !! subscription_id with
      | None => (Ok None, s)
      | Some active =>
          if subscribed_from source_npub event active then
            let '(pending, wants) := take_matching (event_key event) source_npub subscription_id
              (Nostr.event_kind (as_event event)) payload_bytes (ci_pending_wants s) in
            (Ok ((λ p, pi_hop_limit p - 1) <$> pending), set_ci_pending_wants wants s)
          else (Ok None, s)
      end
  end.
(** [complete_want(..).unwrap_or(None).unwrap_or(0)]. *)
Definition answered_hop_limit (r : res (option N)) : N :=
  match r with Ok (Some hop_limit) => hop_limit | _ => 0 end.

(** [let targets = peer_delivery_targets(..).unwrap_or_default(); let _ = send_inventories(..)]. *)
Definition announce cfg (event : VerifiedEvent) (excluded : option string) (hop_limit : N) s
    : option ClientInner :=
  match peer_delivery_targets cfg event excluded s with
  | None => None
  | Some targets =>
      let targets := match targets with Ok targets => targets | Err _ => [] end in
      Some (send_inventories cfg targets event hop_limit s).2
  end.
Definition handle_event cfg (source_npub : string) (subscription_id : option string)
    (event : VerifiedEvent) s : option ClientInner :=
  let '(hop_limit, s) :=
    match subscription_id with
    | Some id =>
        let '(r, s) := complete_want source_npub id event s in
        (answered_hop_limit r, count subscription_events_received 1 s)
    | None => (fo_max_hops (cc_options cfg), s)
    end in
  let '(delivered_any, s) := deliver_local_event cfg source_npub event s in
  if delivered_any : bool then
    let '(fresh, s) := remember_event event (EventSources.fips_endpoint source_npub) hop_limit s in
    if fresh && bool_decide (0 < hop_limit)
    then announce cfg event (Some source_npub) hop_limit s else Some s
  else Some s.

Definition fresh_response_subscription (peer : string) (event : VerifiedEvent) s : option string :=
  pending ← pw_entries (ci_pending_wants s) !! event_key event;
  provider ← requested_provider peer pending;
  payload_bytes ← match event_payload_bytes event with Ok n => Some n | Err _ => None end;
  if decide (pi_event_kind pending ≠ Nostr.event_kind (as_event event) ∨
             pi_payload_bytes pending ≠ payload_bytes) then None
  else find (λ id, is_some_and (λ active, as_fresh active && bool_decide (peer ∈ as_peers active)
                      && negb (delivered id (event_key event) s) && interested active event)
                     (ci_subscriptions s !! id)) (ip_subscription_ids provider).

Definition accept_publication cfg (peer : PeerIdentity) (event : VerifiedEvent) s
    : option ClientInner :=
  let source := EventSources.fips_endpoint (identity_npub peer) in
  let accepted := event_is_admitted cfg event source in
  s ← (if accepted then
         let s := (deliver_local_event cfg (identity_npub peer) event s).2 in
         let hop_limit := fo_max_hops (cc_options cfg) in
         let '(fresh, s) := remember_event event source hop_limit s in
         if fresh : bool then
           match peer_delivery_targets cfg event (Some (identity_npub peer)) s with
           | None => None
           | Some (Ok targets) => Some (send_inventories cfg targets event hop_limit s).2
           | Some (Err _) => Some s
           end
         else Some s
       else Some s);
  match encode_frame (cc_codec cfg)
          (WireOk (event_id (as_event event)) accepted
             (if accepted then "" else "blocked: event policy")) with
  | Ok frame => Some (send_frame_ignored cfg peer frame s)
  | Err _ => Some s
  end.

Definition handle_received_event cfg (peer : PeerIdentity) (subscription_id : option string)
    (event : VerifiedEvent) (now_ms : N) s : option ClientInner :=
  let source_npub := identity_npub peer in
  let s := count event_frames_received 1 s in
  if bool_decide (subscription_id = None) && fo_accept_anonymous_publications (cc_options cfg)
  then accept_publication cfg peer event s
  else
    let is_subscribed := event_matches_subscription source_npub subscription_id event s in
    let fresh_id :=
      if is_subscribed && bool_decide (is_Some subscription_id)
      then fresh_response_subscription source_npub event s else None in
    let response_id := match fresh_id with Some id => Some id | None => subscription_id end in
    let '(observation, observed) := observe_response source_npub subscription_id
      (default ""%string response_id) (event_key event) is_subscribed (ci_observed_full_events s) in
    let s := set_ci_observed_full_events observed s in
    if negb is_subscribed then
      Some (if ob_previously_matched observation then s
            else record_provider_violation cfg peer
                   (OutOfFilterEvent (negb (ob_first observation))) now_ms s)
    else if negb (ob_first observation) then Some s
    else if event_is_admitted cfg event (EventSources.fips_endpoint source_npub)
    then handle_event cfg source_npub response_id event s else Some s.

(** ** Receipts of anonymous publications *)
Definition handle_publication_receipt (peer : string) (id : EventId) (accepted : bool)
    (message : string) s : ClientInner :=
  match ci_publications s !! id with
  | None => s
  | Some operation =>
      if decide (peer ∉ pp_providers operation) then s
      else
        let providers := pp_providers operation ∖ {[peer]} in
        if accepted || bool_decide (providers = ∅) then
          let s :=
            if pp_reply operation then
              set_ci_receipts (ci_receipts s ++
                [(id, if accepted then Ok (mkRemotePublication id peer)
                      else Err (Storage ("provider rejected anonymous publication: " +:+ message)))]) s
            else s in
          set_ci_publications (delete id (ci_publications s)) s
        else set_ci_publications
               (<[id := mkPublication providers (pp_reply operation)]> (ci_publications s)) s
  end.

(** ** Frames *)
Definition handle_frame cfg (peer : PeerIdentity) (frame : string) (now_ms : N) s
    : option ClientInner :=
  match decode_frame (cc_codec cfg) frame with
  | Err _ => Some (record_provider_violation cfg peer MalformedFrame now_ms s)
  | Ok message =>
      match message with
      | WireOk id accepted text =>
          Some (handle_publication_receipt (identity_npub peer) id accepted text s)
      | WireReq id filters => handle_req cfg peer id filters (count req_frames_received 1 s)
      | WireClose id => handle_close (identity_npub peer) id (count close_frames_received 1 s)
      | WireEvent id event => handle_received_event cfg peer id event now_ms s
      | WireInv ids id kind bytes hops =>
          Some (handle_inv cfg peer (mkInventory ids id kind bytes hops) now_ms s)
      | WireWant id => Some (handle_want cfg peer id (count want_frames_received 1 s))
      end
  end.
End handlers.
