(* ===== verification/FipsOps.v ===== *)
(** * The FIPS client: application calls and upkeep

    Subscribing, publishing, retries, replay of stored history, peers that come
    and go, anonymous publications and shutdown:
    crates/nostr-pubsub-fips/src/client_inner.rs, client_publication.rs,
    replay_source.rs, anonymous_publication.rs, client_lifecycle.rs and
    client_transport.rs. *)

From S2P Require Export FipsHandlers.

Section ops.
Context `{!Nostr, J : !WireJson _, F : !FilterFields J, C : !FipsCore _, !HashOrder}.
Implicit Types (cfg : ClientConfig) (s : ClientInner).

(** ** Subscribing *)
Record ConnectedPeer : Type := mkConnected { cp_npub : string; cp_identity : PeerIdentity }.
Definition clamp_filter cfg (filter : Filter) : Filter :=
  let maximum := fo_max_replay_events (cc_options cfg) in
  filter_set_limit (Some (default maximum (filter_limit filter) `min` maximum)) filter.
(** The loop over the connected peers: how many were sent the request, and the
    last error. *)
Fixpoint request_peers cfg (key frame : string) (peers : list ConnectedPeer) (sent : N)
    (last_error : option PubsubError) s : N * option PubsubError * ClientInner :=
  match peers with
  | [] => (sent, last_error, s)
  | peer :: peers =>
      match send_frame cfg (cp_identity peer) frame s with
      | (Ok _, s) => request_peers cfg key frame peers (sent + 1) last_error s
      | (Err error, s) =>
          let s := set_ci_subscriptions (alter (λ active,
            mkActive (as_filters active) (as_fresh active) (as_peers active ∖ {[cp_npub peer]}))
            key (ci_subscriptions s)) s in
          request_peers cfg key frame peers sent (Some error) s
      end
  end.
(** The last handles of a delivery are dropped. *)
Definition drop_delivery (key : string) s : ClientInner :=
  set_ci_deliveries (delete key (ci_deliveries s)) s.
(** [subscribe]; [peers] is what [connected_peers] answers. *)
Definition subscribe cfg (filters : list Filter) (replay_local : bool) (peers : res (list ConnectedPeer))
    : SE ClientInner PubsubError string := λ s,
  let options := cc_options cfg in
  let filters := if decide (filters = []) then [filter_new] else filters in
  match (_ ← admit_client s;
         _ ← (if decide (fo_max_filters_per_subscription options < nlen filters) then
                Err (Validation ("FIPS pubsub filter count " +:+ pretty (nlen filters)
                  +:+ " exceeds limit " +:+ pretty (fo_max_filters_per_subscription options)))
              else Ok tt);
         _ ← validate_filters (cc_role cfg) filters;
         peers) with
  | Err e => (Err e, s)
  | Ok peers =>
      let filters := clamp_filter cfg <$> filters in
      let sequence := ci_next_subscription_id s in
      let key := "fips-" +:+ pretty sequence in
      let s := set_ci_next_subscription_id (u64_wrap (sequence + 1)) s in
      match encode_frame (cc_codec cfg) (wire_req key filters) with
      | Err e => (Err e, s)
      | Ok frame =>
          if decide (usize_sat_add (fo_max_active_subscriptions options) 1
                     ≤ msize (ci_subscriptions s)) then
            (Err (Storage ("application FIPS pubsub subscription limit is "
               +:+ pretty (fo_max_active_subscriptions options))), s)
          else
            let maximum := fo_max_replay_events options in
            let s := set_ci_deliveries
              (<[key := delivery_new maximum maximum]> (ci_deliveries s)) s in
            let s := set_ci_subscriptions
              (<[key := mkActive filters (negb replay_local) (list_to_set (cp_npub <$> peers))]>
                 (ci_subscriptions s)) s in
            let s := if replay_local then replay_local_events cfg key s else s in
            let '(sent, last_error, s) := request_peers cfg key frame peers 0 None s in
            if negb (bool_decide (peers = [])) && bool_decide (sent = 0) then
              (Err (default (no_connected_peers (cc_peer_transport cfg)) last_error),
               drop_delivery key (close_subscription cfg key s))
            else (Ok key, s)
      end
  end.

(** ** Publishing *)
Definition publish_report (sent peer_count : N) (peers : string) : res PublishReport :=
  if decide (sent = 0) then
    Err (Storage ("failed to publish to " +:+ pretty peer_count +:+ " " +:+ peers))
  else Ok (mkPublishReport true SOURCE_PRIORITY_FIPS_ENDPOINT
    (if decide (sent < peer_count)
     then Some ("sent to " +:+ pretty sent +:+ " of " +:+ pretty peer_count +:+ " " +:+ peers)
     else None)).
Definition client_publish cfg (event : VerifiedEvent) (source : EventSource) s
    : option (res PublishReport * ClientInner) :=
  match (_ ← validate_publication (cc_role cfg) event;
         _ ← admit_client s;
         event_decision cfg event source) with
  | Err e => Some (Err e, s)
  | Ok decision =>
      let '(accepted, priority, reason) := report_parts decision in
      if negb accepted then Some (Ok (mkPublishReport accepted priority reason), s)
      else
        match peer_delivery_targets cfg event None s with
        | None => None
        | Some (Err e) => Some (Err e, s)
        | Some (Ok subscribed) =>
            let max_hops := fo_max_hops (cc_options cfg) in
            let '(is_new, s) := publish_event event source max_hops s in
            if negb is_new then
              Some (Ok (mkPublishReport true priority (Some "event was already published"%string)), s)
            else if negb (bool_decide (subscribed = [])) then
              let '(sent, s) := send_inventories cfg subscribed event max_hops s in
              Some (report ← publish_report sent (nlen subscribed) "subscribed FIPS peers";
                    Ok (mkPublishReport (pr_accepted report) priority
                          (match pr_reason report with Some r => Some r | None => reason end)), s)
            else
              Some (Ok (mkPublishReport true priority
                      (Some "cached for live FIPS subscriptions"%string)), s)
        end
  end.

(** ** Retries *)
Definition blame_step cfg (now_ms : N) s (provider : InventoryProvider) : ClientInner :=
  match identity_from_npub (ip_peer_npub provider) with
  | Ok peer => record_provider_violation cfg peer UnansweredInventory now_ms s
  | Err _ => s
  end.
Definition retry_frame cfg (retry : string * InventoryProvider) : option (PeerIdentity * string) :=
  match identity_from_npub (ip_peer_npub retry.2), event_id_from_hex retry.1 with
  | Ok peer, Ok id =>
      match encode_frame (cc_codec cfg) (wire_want id) with
      | Ok frame => Some (peer, frame)
      | Err _ => None
      end
  | _, _ => None
  end.
(** The frames go to the driver, past [validate_outbound]. *)
Definition retry_pending_frames cfg (now_ms : N) s : list (PeerIdentity * string) * ClientInner :=
  let '(due, wants) :=
    retry_due now_ms (as_millis (fo_query_timeout (cc_options cfg))) (ci_pending_wants s) in
  let s := set_ci_pending_wants wants s in
  let s := count expired_wants (rb_expired_event_count due) s in
  let s := foldl (blame_step cfg now_ms) s (rb_expired_providers due) in
  (omap (retry_frame cfg) (rb_retries due), s).

(** ** Stored history *)
Definition created_desc (a b : VerifiedEvent * EventSource) : comparison :=
  cmp_then (cmp_rev (cmp_on (λ e : VerifiedEvent * EventSource, event_created_at (as_event e.1)) N.compare))
    (cmp_on (λ e, event_id (as_event e.1)) event_id_compare) a b.
Definition query_excluded (query : ReplayQuery) : list EventId :=
  match query with ReplaySubscription _ _ excluded _ => excluded | ReplayEvent _ => [] end.
Definition bounded_events (report : list QueryEvent) (filters : list Filter) (query : ReplayQuery)
    (limit : N) : list (VerifiedEvent * EventSource) :=
  let excluded := query_excluded query in
  let events := (λ q, (qe_event q, qe_source q)) <$>
    filter (λ q, event_id (as_event (qe_event q)) ∉ excluded ∧
                 from_filters filters (qe_event q) = Subscribed)
      (take (N.to_nat limit) report) in
  let events := dedup_by_key (λ e, event_id (as_event e.1)) (sort_by created_desc events) in
  take (N.to_nat (limit - nlen excluded)) events.
(** The filters and the limit [serve] asks its source for. *)
Definition serve_limit (query : ReplayQuery) : N :=
  match query with ReplaySubscription _ _ _ limit => limit | ReplayEvent _ => 1 end.
Definition serve_filters (query : ReplayQuery) : list Filter :=
  match query with
  | ReplaySubscription _ filters _ _ => filters
  | ReplayEvent id => [filter_set_limit (Some 1) (filter_id id)]
  end.
(** One turn of the loop; [false] is its [return]. *)
Definition serve_event cfg (request : ReplayRequest) (e : VerifiedEvent * EventSource) s
    : bool * ClientInner :=
  let '(event, source) := e in
  if negb (event_is_admitted cfg event source) then (true, s)
  else if is_err (admit_client s) then (false, s)
  else if decide (ci_replay_source s ≠ Some (rr_source request)) then (false, s)
  else
    let matches :=
      matching_subscriptions (ci_peer_subscriptions s) (identity_npub (rr_peer request)) event in
    let send r := match r with
      | (Ok frame, s) => (true, send_frame_ignored cfg (rr_peer request) frame s)
      | (Err _, s) => (true, s)
      end in
    match rr_query request with
    | ReplaySubscription id _ _ _ =>
        if existsb (λ subscription, bool_decide (subscription_id subscription = id)) matches
        then send (inventory_frame cfg [id] event (fo_max_hops (cc_options cfg)) s)
        else (true, s)
    | ReplayEvent id =>
        match matches with
        | [] => (true, s)
        | subscription :: _ =>
            if decide (event_id (as_event event) ≠ id) then (true, s)
            else send (encode_frame (cc_codec cfg)
                         (wire_deliver (subscription_id subscription) event), s)
        end
    end.
Fixpoint serve_events cfg (request : ReplayRequest) (events : list (VerifiedEvent * EventSource)) s
    : ClientInner :=
  match events with
  | [] => s
  | e :: events =>
      match serve_event cfg request e s with
      | (true, s) => serve_events cfg request events s
      | (false, s) => s
      end
  end.
(** [serve]; [report] is what the source's query answers ([unwrap_or_default]). *)
Definition serve cfg (request : ReplayRequest) (report : list QueryEvent) s
    : ClientInner :=
  let limit := serve_limit (rr_query request) in
  if decide (limit = 0) then s
  else serve_events cfg request
         (bounded_events report (serve_filters (rr_query request)) (rr_query request) limit) s.
Definition set_replay_source (source : option N) s : res unit * ClientInner :=
  match source with
  | Some _ =>
      match admit_client s with
      | Ok _ => (Ok tt, set_ci_replay_source source s)
      | Err e => (Err e, s)
      end
  | None => (Ok tt, set_ci_replay_source source s)
  end.

(** ** Peers *)
Definition reset_peer_epoch (peer_npub : string) (now_ms : N) s : ClientInner :=
  let s := set_ci_observed_inventories (clear_peer peer_npub (ci_observed_inventories s)) s in
  let s := set_ci_observed_full_events (clear_peer peer_npub (ci_observed_full_events s)) s in
  set_ci_pending_wants (remove_pending_peer peer_npub (λ _, now_ms) (ci_pending_wants s)) s.
Definition forget_peer_state (peer_npub : string) (now_ms : N) s : option ClientInner :=
  let s := reset_peer_epoch peer_npub now_ms s in
  '(_, store) ← remove_peer peer_npub (ci_peer_subscriptions s);
  let s := set_ci_peer_subscriptions store s in
  Some (set_ci_subscriptions ((λ active,
    mkActive (as_filters active) (as_fresh active) (as_peers active ∖ {[peer_npub]}))
    <$> ci_subscriptions s) s).
Definition replay_frames_for_peer cfg (peer_npub : string) s : list string * ClientInner :=
  (omap (λ e, match encode_frame (cc_codec cfg) (wire_req e.1 (as_filters e.2)) with
              | Ok frame => Some frame
              | Err _ => None
              end) (hash_iter (ci_subscriptions s)),
   set_ci_subscriptions ((λ active,
     mkActive (as_filters active) (as_fresh active) ({[peer_npub]} ∪ as_peers active))
     <$> ci_subscriptions s) s).

(** ** Anonymous publications *)
Definition is_hex_digit (c : Ascii.ascii) : bool :=
  let n := Ascii.N_of_ascii c in
  bool_decide (48 ≤ n ≤ 57) || bool_decide (65 ≤ n ≤ 70) || bool_decide (97 ≤ n ≤ 102).
Definition tags_named (name : string) (event : VerifiedEvent) : list (list string) :=
  filter (λ tag, head tag = Some name) (event_tags (as_event event)).
Definition validate_envelope (event : VerifiedEvent) : res unit :=
  let kind := Nostr.event_kind (as_event event) in
  let recipient_ok :=
    match tags_named "p" event with
    | [[_; recipient]] => bool_decide (slen recipient = 64) && all_chars is_hex_digit recipient
    | _ => false
    end in
  let v2_ok := match tags_named "v" event with [[_; v]] => bool_decide (v = "2"%string) | _ => false end in
  if negb (is_private kind) || negb recipient_ok || (bool_decide (kind = 1060) && negb v2_ok)
  then Err (invalid_option "anonymous publisher requires one recipient-bound private envelope")
  else Ok tt.
Fixpoint send_all cfg (frame : string) (peers : list ConnectedPeer)
    : SE ClientInner PubsubError unit :=
  match peers with
  | [] => mret tt
  | peer :: peers => _ ← send_frame cfg (cp_identity peer) frame; send_all cfg frame peers
  end.
(** [publish_inner] up to the wait for the receipt; [timeout] in nanoseconds. *)
Definition publish_once cfg (event : VerifiedEvent) (timeout : N) (peers : res (list ConnectedPeer))
    : SE ClientInner PubsubError unit := λ s,
  match (_ ← validate_envelope event;
         _ ← (if decide (timeout = 0) then Err (invalid_option "publication timeout must be positive")
              else Ok tt);
         peers ← peers;
         if decide (peers = []) then
           Err (invalid_option "anonymous publisher has no selected provider")
         else Ok peers) with
  | Err e => (Err e, s)
  | Ok peers =>
      let s := set_ci_publications
        (<[event_id (as_event event) := mkPublication (list_to_set (cp_npub <$> peers)) true]>
           (ci_publications s)) s in
      match encode_frame (cc_codec cfg) (wire_publish event) with
      | Err e => (Err e, s)
      | Ok frame => send_all cfg frame peers s
      end
  end.

(** ** Shutdown *)
Definition close_one cfg s (e : string * ActiveSubscription) : ClientInner :=
  send_close cfg e.1 (as_peers e.2) (on_delivery e.1 (λ d, (tt, delivery_close d)) tt s).2.
Definition close_all cfg s : ClientInner :=
  let s := set_ci_replay_source None (set_ci_admission false s) in
  let active := hash_iter (ci_subscriptions s) in
  let s := set_ci_subscriptions ∅ s in
  let s := foldl (close_one cfg) s active in
  set_ci_pending_wants (pending_clear (ci_pending_wants s)) (set_ci_publications ∅ s).
End ops.
