(* ===== verification/FipsTransport.v ===== *)
(** * The FIPS client: the transport's turns

    crates/nostr-pubsub-fips/src/client_transport.rs: what the client does with
    a report of the TCP driver, how it hands its queued frames over, and how it
    keeps the driver's peers in step with its links. Here the calls that
    the driver (wire_tcp.rs, modelled in WireTcp.v) receives are logged, and
    [Driver] answers them in any way. *)

From S2P Require Export FipsOps.

Section transport.
Context `{!Nostr, J : !WireJson _, F : !FilterFields J, C : !FipsCore _, !HashOrder}.
Implicit Types (cfg : ClientConfig) (s : ClientInner).

Inductive DriverCall : Type :=
  | QueueFrame (peer : PeerIdentity) (frame : string)
  | ForgetPeer (peer : PeerIdentity)
  | ConnectPeer (npub : string)
  | AbortPeer (peer : PeerIdentity)
  | ServiceDiscovered (npub : string)
  | SelectPeers (npubs : list string)
  | FlushQueues (already_written : N).
(** How the driver answers: whether a call succeeds, whether a peer's stream is
    inbound, the peers [select_peers] reports, and the clock as read at the
    [i]-th element of a loop. *)
Record Driver : Type := mkDriver {
  dr_succeeds : DriverCall → bool;
  dr_is_inbound : string → bool;
  dr_selected : list string → list PeerIdentity;
  dr_clock : nat → N;
}.
Record WireTcpReport : Type := mkReport {
  wr_frames : list (PeerIdentity * string);
  wr_newly_connected : list PeerIdentity;
  wr_disconnected : list PeerIdentity;
  wr_connected_peers : N;
  wr_tcp_datagrams : N;
  wr_rejected_tcp_datagrams : N;
  wr_rejected_frames : N;
  wr_written_bytes : N;
}.

(** The transport task's own state, and the log of its calls. *)
Record Turn : Type := mkTurn {
  tu_inner : ClientInner;
  tu_known_links : gmap string PeerLinkEpoch;
  tu_calls : list DriverCall;
}.
Implicit Types (d : Driver) (t : Turn).
Definition set_inner s t : Turn := mkTurn s (tu_known_links t) (tu_calls t).
Definition set_known_links links t : Turn := mkTurn (tu_inner t) links (tu_calls t).
Definition on_inner (f : ClientInner → ClientInner) t : Turn := set_inner (f (tu_inner t)) t.
(** An operation of the client that may panic. *)
Definition try_inner (f : ClientInner → option ClientInner) t : option Turn :=
  s ← f (tu_inner t); Some (set_inner s t).
Definition call d (c : DriverCall) t : bool * Turn :=
  (dr_succeeds d c, mkTurn (tu_inner t) (tu_known_links t) (tu_calls t ++ [c])).
(** [let _ = driver.call(..)]. *)
Definition call_ignored d (c : DriverCall) t : Turn := (call d c t).2.
Definition count_failure (ok : bool) t : Turn :=
  if ok then t else on_inner (count transport_errors 1) t.

(** ** Peers *)
Definition forget_cooled_peer d (peer : PeerIdentity) (now_ms : N) t : option Turn :=
  let npub := identity_npub peer in
  t ← try_inner (forget_peer_state npub now_ms)
        (set_known_links (delete npub (tu_known_links t)) t);
  Some (call_ignored d (ForgetPeer peer) t).
Definition peer_cooling (npub : string) (now_ms : N) t : bool * Turn :=
  let '(cooling, s) := peer_is_in_cooldown npub now_ms (tu_inner t) in (cooling, set_inner s t).
(** [for frame in replay_frames_for_peer(..) { let _ = queue_frame(..) }]. *)
Definition replay_to cfg d (peer : PeerIdentity) t : Turn :=
  let '(frames, s) := replay_frames_for_peer cfg (identity_npub peer) (tu_inner t) in
  foldl (λ t frame, call_ignored d (QueueFrame peer frame) t) (set_inner s t) frames.
Definition connect d (npub : string) t : Turn :=
  let '(ok, t) := call d (ConnectPeer npub) t in count_failure ok t.

(** ** Reports *)
Fixpoint forget_all d (i : nat) (peers : list PeerIdentity) t : option Turn :=
  match peers with
  | [] => Some t
  | peer :: peers =>
      t ← try_inner (forget_peer_state (identity_npub peer) (dr_clock d i)) t;
      forget_all d (S i) peers t
  end.
Fixpoint greet cfg d (i : nat) (disconnected : gset string) (peers : list PeerIdentity)
    (cooled : gset string) t : option (gset string * Turn) :=
  match peers with
  | [] => Some (cooled, t)
  | peer :: peers =>
      let npub := identity_npub peer in
      if decide (npub ∈ disconnected) then greet cfg d (S i) disconnected peers cooled t
      else
        let '(cooling, t) := peer_cooling npub (dr_clock d i) t in
        if cooling : bool then
          t ← try_inner (forget_peer_state npub (dr_clock d i)) t;
          greet cfg d (S i) disconnected peers ({[npub]} ∪ cooled) (call_ignored d (ForgetPeer peer) t)
        else
          let t := on_inner (reset_peer_epoch npub (dr_clock d i)) t in
          greet cfg d (S i) disconnected peers cooled
            (if dr_is_inbound d npub then t else replay_to cfg d peer t)
  end.
Fixpoint take_frames cfg d (i : nat) (disconnected : gset string)
    (frames : list (PeerIdentity * string)) (cooled : gset string) t : option Turn :=
  match frames with
  | [] => Some t
  | (peer, frame) :: frames =>
      let npub := identity_npub peer in
      if decide (npub ∈ disconnected) then take_frames cfg d (S i) disconnected frames cooled t
      else
        let '(cooling, t) :=
          if decide (npub ∈ cooled) then (true, t) else peer_cooling npub (dr_clock d i) t in
        if cooling : bool then
          if decide (npub ∈ cooled) then take_frames cfg d (S i) disconnected frames cooled t
          else
            t ← try_inner (forget_peer_state npub (dr_clock d i)) t;
            take_frames cfg d (S i) disconnected frames ({[npub]} ∪ cooled)
              (call_ignored d (ForgetPeer peer) t)
        else
          t ← try_inner (handle_frame cfg peer frame (dr_clock d i)) t;
          take_frames cfg d (S i) disconnected frames cooled t
  end.
Definition retry_to d t (retry : PeerIdentity * string) : Turn :=
  let '(ok, t) := call d (QueueFrame retry.1 retry.2) t in
  if ok : bool then on_inner (count want_frames_sent 1) t else t.
Definition report_counters (report : WireTcpReport) s : ClientInner :=
  store_counter connected_transport_peers (wr_connected_peers report)
    (count tcp_datagrams_rejected (wr_rejected_tcp_datagrams report)
      (count tcp_datagrams_received (wr_tcp_datagrams report)
        (count transport_errors (wr_rejected_frames report) s))).
Definition process_wire_report cfg d (report : WireTcpReport) t : option Turn :=
  let t := on_inner (report_counters report) t in
  let disconnected : gset string := list_to_set (identity_npub <$> wr_disconnected report) in
  t ← forget_all d 0 (wr_disconnected report) t;
  '(cooled, t) ← greet cfg d 0 disconnected (wr_newly_connected report) ∅ t;
  t ← take_frames cfg d 0 disconnected (wr_frames report) cooled t;
  let '(retries, s) := retry_pending_frames cfg (dr_clock d 0) (tu_inner t) in
  Some (foldl (retry_to d) (set_inner s t) retries).

(** ** Commands *)

(** [commands.try_recv()]. *)
Definition next_command t : option (TransportCommand * Turn) :=
  match ci_transport (tu_inner t) with
  | [] => None
  | command :: rest => Some (command, on_inner (set_ci_transport rest) t)
  end.
Definition run_command d (command : TransportCommand) (now_ms : N) t : option Turn :=
  match command with
  | CmdSend peer frame =>
      let '(cooling, t) := peer_cooling (identity_npub peer) now_ms t in
      if cooling : bool then Some t
      else
        let '(queued, t) := call d (QueueFrame peer frame) t in
        if queued : bool then Some (connect d (identity_npub peer) t)
        else Some (count_failure false t)
  | CmdCooldown peer => forget_cooled_peer d peer now_ms t
  end.
(** The loop over [receive_batch_size] commands, [first] before the queued. *)
Fixpoint run_commands d (n : nat) (first : option TransportCommand) t : option Turn :=
  match n with
  | O => Some t
  | S n =>
      match match first with Some command => Some (command, t) | None => next_command t end with
      | None => Some t
      | Some (command, t) =>
          t ← run_command d command (dr_clock d n) t;
          run_commands d n None t
      end
  end.
Definition finish_ready_turn cfg d (first : option TransportCommand) (already_written : N) t
    : option Turn :=
  t ← run_commands d (N.to_nat (fo_receive_batch_size (cc_options cfg))) first t;
  let '(ok, t) := call d (FlushQueues already_written) t in
  Some (count_failure ok t).

(** ** Services and links *)
Fixpoint retry_due_services d (i : nat) (due : list string) t : option Turn :=
  match due with
  | [] => Some t
  | npub :: due =>
      let '(cooling, t) := peer_cooling npub (dr_clock d i) t in
      match cooling, identity_from_npub npub with
      | true, Ok peer =>
          t ← forget_cooled_peer d peer (dr_clock d i) t;
          retry_due_services d (S i) due t
      | _, _ => retry_due_services d (S i) due (connect d npub t)
      end
  end.
(** The links of peers that are not cooling down, as a list and as a map. *)
Fixpoint warm_links d (i : nat) (peers : list ConnectedPeerLink) t : list ConnectedPeerLink * Turn :=
  match peers with
  | [] => ([], t)
  | peer :: peers =>
      let '(cooling, t) := peer_cooling (cl_npub peer) (dr_clock d i) t in
      let '(rest, t) := warm_links d (S i) peers t in
      (if cooling : bool then rest else peer :: rest, t)
  end.
Definition changed_links (known next : gmap string PeerLinkEpoch) : list PeerIdentity :=
  omap (λ e, match identity_from_npub e.1 with Ok peer => Some peer | Err _ => None end)
    (filter (λ e, match next !! e.1 with
                  | None => true
                  | Some link => requires_reset link e.2
                  end = true) (hash_iter known)).
Fixpoint settle_selected cfg d (i : nat) (next : gmap string PeerLinkEpoch)
    (peers : list PeerIdentity) t : option Turn :=
  match peers with
  | [] => Some t
  | peer :: peers =>
      let npub := identity_npub peer in
      t ← (if decide (is_Some (next !! npub)) then Some (replay_to cfg d peer t)
           else try_inner (forget_peer_state npub (dr_clock d i)) t);
      settle_selected cfg d (S i) next peers t
  end.
Fixpoint settle_changed d (i : nat) (next : gmap string PeerLinkEpoch) (peers : list PeerIdentity) t
    : option Turn :=
  match peers with
  | [] => Some t
  | peer :: peers =>
      let npub := identity_npub peer in
      t ← (if decide (is_Some (next !! npub)) then Some (call_ignored d (AbortPeer peer) t)
           else try_inner (forget_peer_state npub (dr_clock d i)) t);
      settle_changed d (S i) next peers t
  end.
Definition is_local_service (link : PeerLinkEpoch) : bool :=
  match link with LocalService _ => true | _ => false end.
Fixpoint connect_all d (i : nat) (peers : list ConnectedPeerLink) t : Turn :=
  match peers with
  | [] => t
  | peer :: peers =>
      let '(cooling, t) := peer_cooling (cl_npub peer) (dr_clock d i) t in
      if cooling : bool then connect_all d (S i) peers t
      else
        let t :=
          if is_local_service (cl_link_id peer)
             && negb (bool_decide (tu_known_links t !! cl_npub peer = Some (cl_link_id peer)))
          then call_ignored d (ServiceDiscovered (cl_npub peer)) t else t in
        connect_all d (S i) peers (connect d (cl_npub peer) t)
  end.
(** [peers] is what [connected_peer_links] answers. *)
Definition sync_transport_peers cfg d (peers : res (list ConnectedPeerLink)) t : option Turn :=
  match peers with
  | Err _ => Some t
  | Ok peers =>
      let '(warm, t) := warm_links d 0 peers t in
      let next := links_by_identity warm in
      let changed := changed_links (tu_known_links t) next in
      let npubs := (hash_iter next).*1 in
      let t := call_ignored d (SelectPeers npubs) t in
      t ← settle_selected cfg d 0 next (dr_selected d npubs) t;
      t ← settle_changed d 0 next changed t;
      Some (set_known_links next (connect_all d 0 peers t))
  end.

(** ** The loop

    One iteration: what the [select] found, and then the queued commands. A
    report is [None] if the driver failed; [usize::MAX] bytes count as written
    then. *)
Inductive Ready : Type :=
  | ReadyCommand
  | ReadyInput (report : option WireTcpReport)
  | ReadyPeers (peers : res (list ConnectedPeerLink))
  | ReadyServices (due : list string)
  | ReadyPoll (report : option WireTcpReport).
Definition drive cfg d (report : option WireTcpReport) t : option (N * Turn) :=
  match report with
  | Some report => t ← process_wire_report cfg d report t; Some (wr_written_bytes report, t)
  | None => Some (usize_max, on_inner (count transport_errors 1) t)
  end.
Definition transport_turn cfg d (ready : Ready) t : option Turn :=
  match ready with
  | ReadyCommand =>
      match next_command t with
      | None => Some t
      | Some (command, t) => finish_ready_turn cfg d (Some command) 0 t
      end
  | ReadyInput report =>
      let t := if decide (is_Some report) then on_inner (count tcp_receive_batches 1) t else t in
      '(written, t) ← drive cfg d report t;
      finish_ready_turn cfg d None written t
  | ReadyPeers peers =>
      t ← sync_transport_peers cfg d peers t; finish_ready_turn cfg d None 0 t
  | ReadyServices due =>
      t ← retry_due_services d 0 due t; finish_ready_turn cfg d None 0 t
  | ReadyPoll report =>
      '(written, t) ← drive cfg d report (on_inner (count tcp_poll_turns 1) t);
      finish_ready_turn cfg d None written t
  end.
End transport.
