(* ===== verification/RecordStream.v ===== *)
(** * Length-prefixed records on a byte stream

    The record layer of crates/nostr-pubsub-fips/src/stream.rs and wire_tcp.rs:
    a record is a frame behind its length in four big-endian bytes, and a
    decoder keeps the bytes of the stream that do not make a record yet. *)

From S2P Require Export Events.

(** ** Bytes *)
Fixpoint str_take (n : nat) (s : string) : string :=
  match n, s with S n, String c s => String c (str_take n s) | _, _ => "" end.
Fixpoint str_drop (n : nat) (s : string) : string :=
  match n, s with S n, String _ s => str_drop n s | _, _ => s end.
Definition byte_at (n : N) : Ascii.ascii := Ascii.ascii_of_N (n `mod` 256).
(** [u32::to_be_bytes] and [from_be_bytes] of the first four bytes. *)
Definition u32_to_be_bytes (n : N) : string :=
  String (byte_at (n / 16777216)) (String (byte_at (n / 65536))
    (String (byte_at (n / 256)) (String (byte_at n) ""))).
Definition u32_from_be_bytes (s : string) : N :=
  match s with
  | String a (String b (String c (String d _))) =>
      ((Ascii.N_of_ascii a * 256 + Ascii.N_of_ascii b) * 256 + Ascii.N_of_ascii c) * 256
        + Ascii.N_of_ascii d
  | _ => 0
  end.

Definition LENGTH_PREFIX_BYTES : N := 4.

(** The loop both decoders share: the complete records at the front of the
    buffer, at most [turns], and the rest. A length above the bound is an
    error that empties the buffer. *)
Fixpoint take_records (max_bytes : N) (turns : nat) (buffer : string)
    : result N (list string) * string :=
  match turns with
  | O => (Ok [], buffer)
  | S turns =>
      if decide (slen buffer < LENGTH_PREFIX_BYTES) then (Ok [], buffer)
      else
        let declared := u32_from_be_bytes buffer in
        if decide (max_bytes < declared) then (Err declared, ""%string)
        else
          let record_bytes := LENGTH_PREFIX_BYTES + declared in
          if decide (slen buffer < record_bytes) then (Ok [], buffer)
          else
            let record := str_take (N.to_nat declared)
                            (str_drop (N.to_nat LENGTH_PREFIX_BYTES) buffer) in
            let '(records, rest) :=
              take_records max_bytes turns (str_drop (N.to_nat record_bytes) buffer) in
            ((λ records, record :: records) <$> records, rest)
  end.

(** The record of a frame. *)
Definition record_of (frame : string) : string := u32_to_be_bytes (slen frame) +:+ frame.
(** The stream of a list of frames. *)
Fixpoint stream_of (frames : list string) : string :=
  match frames with [] => "" | frame :: frames => record_of frame +:+ stream_of frames end.

(** ** Facts *)
Lemma str_app_assoc (a b c : string) : a +:+ (b +:+ c) = (a +:+ b) +:+ c.
Proof. induction a as [|x a IH]; [done|]. exact (f_equal (String x) IH). Qed.
Lemma str_app_nil_r (a : string) : a +:+ "" = a.
Proof. induction a as [|x a IH]; [done|]. exact (f_equal (String x) IH). Qed.
Lemma str_take_app a b : str_take (String.length a) (a +:+ b) = a.
Proof. induction a as [|c a IH]; [by destruct b|]. exact (f_equal (String c) IH). Qed.
Lemma str_drop_app a b : str_drop (String.length a) (a +:+ b) = b.
Proof. induction a as [|c a IH]; [by destruct b|]. exact IH. Qed.
Lemma str_take_drop n s : str_take n s +:+ str_drop n s = s.
Proof. revert s. induction n as [|n IH]; intros [|c s]; try done.
  exact (f_equal (String c) (IH s)).
Qed.
Lemma str_take_length n s : String.length (str_take n s) = (n `min` String.length s)%nat.
Proof. revert s. induction n as [|n IH]; intros [|c s]; simpl; [done..|]. by rewrite IH. Qed.
(** Two ways to cut a string. *)
Lemma str_app_inj_length a b c d : a +:+ b = c +:+ d → String.length a = String.length c → a = c ∧ b = d.
Proof.
  revert c. induction a as [|x a IH]; intros [|y c] Heq Hlen; try done.
  injection Heq as -> Heq. injection Hlen as Hlen. destruct (IH c Heq Hlen) as [-> ->]. done.
Qed.
Lemma str_app_prefix a b c d :
  a +:+ b = c +:+ d → slen a ≤ slen c → ∃ e, c = a +:+ e ∧ b = e +:+ d.
Proof.
  revert c. induction a as [|x a IH]; intros [|y c] Heq Hlen.
  - eauto.
  - by exists (String y c).
  - unfold slen in Hlen. simpl in Hlen. lia.
  - injection Heq as -> Heq. destruct (IH c Heq) as (e & -> & ->); [unfold slen in *; simpl in *; lia|].
    by exists e.
Qed.

Lemma byte_at_value n : Ascii.N_of_ascii (byte_at n) = n `mod` 256.
Proof. unfold byte_at. apply Ascii.N_ascii_embedding, N.mod_lt. done. Qed.
Lemma u32_be_roundtrip n s : n ≤ u32_max → u32_from_be_bytes (u32_to_be_bytes n +:+ s) = n.
Proof.
  intros Hn. cbn [u32_to_be_bytes u32_from_be_bytes String.append]. unfold u32_max in Hn.
  change (u32_to_be_bytes n +:+ s) with (String (byte_at (n / 16777216)) (String (byte_at (n / 65536))
    (String (byte_at (n / 256)) (String (byte_at n) s)))).
  cbn [u32_from_be_bytes]. rewrite !byte_at_value.
  rewrite (N.mod_small (n / 16777216)) by (apply N.Div0.div_lt_upper_bound; lia).
  pose proof (N.div_mod n 256 ltac:(done)). pose proof (N.div_mod (n / 256) 256 ltac:(done)).
  pose proof (N.div_mod (n / 256 / 256) 256 ltac:(done)).
  rewrite !N.Div0.div_div in *. change (256 * 256) with 65536 in *. change (65536 * 256) with 16777216 in *.
  lia.
Qed.
Lemma record_of_length frame : slen (record_of frame) = LENGTH_PREFIX_BYTES + slen frame.
Proof. unfold record_of. by rewrite slen_app. Qed.
Lemma u32_from_be_bound s : u32_from_be_bytes s ≤ u32_max.
Proof.
  unfold u32_from_be_bytes, u32_max. destruct s as [|a [|b [|c [|d s]]]]; try lia.
  pose proof (Ascii.N_ascii_bounded a). pose proof (Ascii.N_ascii_bounded b).
  pose proof (Ascii.N_ascii_bounded c). pose proof (Ascii.N_ascii_bounded d). lia.
Qed.

(** No complete record, and none too long, at the front of the buffer. *)
Definition incomplete (max_bytes : N) (buffer : string) : Prop :=
  slen buffer < LENGTH_PREFIX_BYTES ∨
  (u32_from_be_bytes buffer ≤ max_bytes ∧
   slen buffer < LENGTH_PREFIX_BYTES + u32_from_be_bytes buffer).

(** There is always room to read more: an incomplete record fits. *)
Lemma incomplete_room max_bytes buffer :
  incomplete max_bytes buffer → slen buffer < max_bytes + LENGTH_PREFIX_BYTES.
Proof. unfold incomplete, LENGTH_PREFIX_BYTES. lia. Qed.

(** The decoder takes the frames of the stream in order, and keeps what it does
    not take. *)
Lemma take_records_stream max_bytes turns frames buffer future :
  max_bytes ≤ u32_max → Forall (λ frame, slen frame ≤ max_bytes) frames →
  buffer +:+ future = stream_of frames →
  ∃ taken later rest, take_records max_bytes turns buffer = (Ok taken, rest) ∧
    frames = taken ++ later ∧ rest +:+ future = stream_of later ∧
    slen rest ≤ slen buffer ∧
    (length taken ≤ turns)%nat ∧ (length taken = turns ∨ incomplete max_bytes rest).
Proof.
  intros Hmax. revert frames buffer. induction turns as [|turns IH]; intros frames buffer Hall Heq.
  { exists [], frames, buffer. simpl. split_and!; auto; lia. }
  cbn [take_records]. case_decide as Hshort.
  { exists [], frames, buffer. simpl. split_and!; auto; [lia..|]. right. by left. }
  destruct frames as [|frame frames].
  { exfalso. apply (f_equal slen) in Heq. rewrite slen_app in Heq.
    unfold LENGTH_PREFIX_BYTES in *. simpl in Heq. change (slen "") with 0 in Heq. lia. }
  apply Forall_cons in Hall as [Hf Hall]. cbn [stream_of] in Heq. unfold record_of in Heq.
  rewrite <-!str_app_assoc in Heq.
  destruct (str_app_prefix (u32_to_be_bytes (slen frame)) (frame +:+ stream_of frames) buffer future)
    as (body & -> & Hbody); [done|unfold LENGTH_PREFIX_BYTES in *; simpl; unfold slen in *; simpl; lia|].
  rewrite u32_be_roundtrip by (unfold u32_max in *; lia).
  rewrite decide_False by lia. rewrite slen_app. change (slen (u32_to_be_bytes _)) with LENGTH_PREFIX_BYTES.
  case_decide as Hpart.
  { exists [], (frame :: frames), (u32_to_be_bytes (slen frame) +:+ body).
    split_and!; [done|done| |by rewrite slen_app|simpl; lia|right; right].
    - cbn [stream_of]. unfold record_of. rewrite <-!str_app_assoc. by rewrite Hbody.
    - rewrite u32_be_roundtrip by (unfold u32_max in *; lia). rewrite slen_app.
      change (slen (u32_to_be_bytes _)) with LENGTH_PREFIX_BYTES. done. }
  destruct (str_app_prefix frame (stream_of frames) body future) as (body' & -> & Hbody'); [done|lia|].
  rewrite N2Nat.inj_add. change (str_drop (N.to_nat LENGTH_PREFIX_BYTES) (u32_to_be_bytes (slen frame) +:+ frame +:+ body'))
    with (frame +:+ body').
  change (str_drop (N.to_nat LENGTH_PREFIX_BYTES + N.to_nat (slen frame)) (u32_to_be_bytes (slen frame) +:+ frame +:+ body'))
    with (str_drop (N.to_nat (slen frame)) (frame +:+ body')).
  unfold slen at 1 2. rewrite Nat2N.id, str_take_app, str_drop_app.
  destruct (IH frames body' Hall ltac:(done)) as (taken & later & rest & -> & -> & Hrest & Hlen & Hle & Hmore).
  exists (frame :: taken), later, rest. simpl. split_and!; [done|done|done| |lia|destruct Hmore; [left; lia|by right]].
  rewrite !slen_app. change (slen (u32_to_be_bytes _)) with LENGTH_PREFIX_BYTES. lia.
Qed.
