(* ===== verification/FipsStream.v ===== *)
(** * The inventory/want stream

    crates/nostr-pubsub-fips/src/stream.rs: [FipsInvWantStream] runs the
    inventory/want mesh over byte streams of peers, with a policy for events
    and one for peers. It owns no sockets: it returns records to send and
    events to deliver. *)

From S2P Require Export Containers Mesh InvWant RecordStream.

Definition FIPS_NOSTR_PUBSUB_INV_WANT_PROTOCOL : string := "nostr.pubsub".
Definition FIPS_NOSTR_PUBSUB_INV_WANT_VERSION : N := 1.

Record FipsInvWantStreamOptions : Type := mkStreamOptions {
  so_mesh : InvWantMeshOptions;
  so_protocol : string;
  so_protocol_version : N;
  so_max_record_bytes : N;
  so_max_input_peers : N;
  so_max_records_per_receive : N;
}.
Definition stream_options_default : FipsInvWantStreamOptions := {|
  so_mesh := default_mesh_options;
  so_protocol := FIPS_NOSTR_PUBSUB_INV_WANT_PROTOCOL;
  so_protocol_version := FIPS_NOSTR_PUBSUB_INV_WANT_VERSION;
  so_max_record_bytes := DEFAULT_INV_WANT_MAX_WIRE_BYTES;
  so_max_input_peers := 64;
  so_max_records_per_receive := 64;
|}.
Definition stream_options_validate (o : FipsInvWantStreamOptions) : res unit :=
  if decide (so_max_record_bytes o = 0) then
    Err (validation "max_record_bytes must be greater than zero")
  else if trim_is_empty (so_protocol o) then Err (validation "protocol must not be empty")
  else if decide (u32_max < so_max_record_bytes o) then
    Err (validation "max_record_bytes exceeds the record prefix")
  else if decide (so_max_input_peers o = 0) then
    Err (validation "max_input_peers must be greater than zero")
  else if decide (so_max_records_per_receive o = 0) then
    Err (validation "max_records_per_receive must be greater than zero")
  else match checked_add usize_max (so_max_record_bytes o) LENGTH_PREFIX_BYTES with
       | Some _ => Ok tt
       | None => Err (validation "record buffer size overflows")
       end.

(** ** The decoder of one peer's input *)
Record RecordDecoder : Set := mkDecoder { rd_max_record_bytes : N; rd_buffer : string }.
Definition decoder_new (max_record_bytes : N) : RecordDecoder := mkDecoder max_record_bytes "".
Definition decoder_push (bytes : string) (max_records : N)
    : SE RecordDecoder PubsubError (list string) := λ d,
  match checked_add usize_max (slen (rd_buffer d)) (slen bytes) with
  | None => (Err (validation "record input length overflows"), d)
  | Some attempted =>
      if decide (rd_max_record_bytes d + LENGTH_PREFIX_BYTES < attempted) then
        (Err (validation ("record input is " +:+ pretty attempted
           +:+ " bytes, maximum buffered input is "
           +:+ pretty (rd_max_record_bytes d + LENGTH_PREFIX_BYTES))),
         mkDecoder (rd_max_record_bytes d) "")
      else
        let '(records, rest) :=
          take_records (rd_max_record_bytes d) (N.to_nat max_records) (rd_buffer d +:+ bytes) in
        (map_err (λ declared, validation ("record declares " +:+ pretty declared
             +:+ " bytes, maximum is " +:+ pretty (rd_max_record_bytes d))) records,
         mkDecoder (rd_max_record_bytes d) rest)
  end.
Definition decoder_remaining_capacity (d : RecordDecoder) : N :=
  usize_sat_add (rd_max_record_bytes d) LENGTH_PREFIX_BYTES - slen (rd_buffer d).
Definition decoder_has_complete_record (d : RecordDecoder) : bool :=
  if decide (slen (rd_buffer d) < LENGTH_PREFIX_BYTES) then false
  else
    let declared := u32_from_be_bytes (rd_buffer d) in
    bool_decide (declared ≤ rd_max_record_bytes d)
    && bool_decide (usize_sat_add LENGTH_PREFIX_BYTES declared ≤ slen (rd_buffer d)).
Definition encode_record (payload : string) (max_record_bytes : N) : res string :=
  if decide (max_record_bytes < slen payload) then
    Err (validation ("record is " +:+ pretty (slen payload) +:+ " bytes, maximum is "
           +:+ pretty max_record_bytes))
  else if decide (u32_max < slen payload) then Err (validation "record is too large")
  else Ok (record_of payload).

(** ** The stream *)
Section stream.
Context `{!Nostr, !HashOrder, !EnvelopeJson, !StrDebug}.

Inductive FipsInvWantStreamAction : Type :=
  | StreamSend (peer_id record : string)
  | StreamDeliver (event : QueryEvent).

Record FipsInvWantStream : Type := mkStream {
  is_mesh : InvWantMesh;
  is_codec : InvWantCodec;
  is_options : FipsInvWantStreamOptions;
  is_event_policy : option PubsubPolicy;
  is_peer_policy : option (string → res (option MeshPeer));
  is_inputs : gmap string RecordDecoder;
}.
Implicit Types s : FipsInvWantStream.
Definition set_is_mesh v s : FipsInvWantStream :=
  mkStream v (is_codec s) (is_options s) (is_event_policy s) (is_peer_policy s) (is_inputs s).
Definition set_is_inputs v s : FipsInvWantStream :=
  mkStream (is_mesh s) (is_codec s) (is_options s) (is_event_policy s) (is_peer_policy s) v.

Definition stream_new (o : FipsInvWantStreamOptions) : res FipsInvWantStream :=
  _ ← stream_options_validate o;
  Ok (mkStream (mesh_new (so_mesh o))
        (codec_new (so_protocol o) (so_protocol_version o) (so_max_record_bytes o))
        o None None ∅).
Definition with_event_policy (policy : PubsubPolicy) s : FipsInvWantStream :=
  mkStream (is_mesh s) (is_codec s) (is_options s) (Some policy) (is_peer_policy s) (is_inputs s).
Definition with_peer_policy (policy : string → res (option MeshPeer)) s : FipsInvWantStream :=
  mkStream (is_mesh s) (is_codec s) (is_options s) (is_event_policy s) (Some policy) (is_inputs s).

(** An operation of the mesh inside. *)
Definition on_mesh {A} (f : SE InvWantMesh PubsubError A) : SE FipsInvWantStream PubsubError A := λ s,
  let '(a, m) := f (is_mesh s) in (a, set_is_mesh m s).

Definition stream_select_peer (peer_id : string) s : res (option MeshPeer) :=
  selected ← match is_peer_policy s with
             | Some policy => policy peer_id
             | None => Ok (Some (MeshPeers.new peer_id)) : res (option MeshPeer)
             end;
  Ok (option_map (λ peer, mkMeshPeer peer_id (quality_score peer)) selected).
Fixpoint select_into (peer_ids : list string) (selected : gmap string MeshPeer) s
    : res (gmap string MeshPeer) :=
  match peer_ids with
  | [] => Ok selected
  | peer_id :: peer_ids =>
      peer ← stream_select_peer peer_id s;
      select_into peer_ids
        (match peer with Some peer => <[peer_id := peer]> selected | None => selected end) s
  end.
Definition stream_select_peers (peer_ids : list string) s : res (list MeshPeer) :=
  selected ← select_into peer_ids ∅ s; Ok (btree_values selected).

Definition ensure_event_record_fits (event : VerifiedEvent) s : res unit :=
  _ ← codec_encode (is_codec s) (Frame (event_id_to_hex (event_id (as_event event))) (as_event event));
  Ok tt.

(** The mesh's actions as records and admitted events. *)
Fixpoint encode_actions (actions : list InvWantAction) (admitted : option (VerifiedEvent * Z)) s
    : res (list FipsInvWantStreamAction) :=
  match actions with
  | [] => Ok []
  | action :: actions =>
      encoded ← match action with
                | Send peer_id message =>
                    payload ← codec_encode (is_codec s) message;
                    record ← encode_record payload (so_max_record_bytes (is_options s));
                    Ok (StreamSend peer_id record)
                | Deliver source_peer _ =>
                    match admitted with
                    | None => Err (Storage "mesh delivered an event outside frame admission")
                    | Some (verified, priority) =>
                        Ok (StreamDeliver (mkQueryEvent verified
                              (EventSources.fips_endpoint source_peer) priority))
                    end
                end;
      rest ← encode_actions actions admitted s;
      Ok (encoded :: rest)
  end.
Definition encoded (actions : list InvWantAction) (admitted : option (VerifiedEvent * Z))
    : SE FipsInvWantStream PubsubError (list FipsInvWantStreamAction) :=
  λ s, (encode_actions actions admitted s, s).

Definition stream_seed (event : VerifiedEvent) (now_ms : N) : SE FipsInvWantStream PubsubError unit :=
  s ← se_get;
  _ ← se_lift (ensure_event_record_fits event s);
  on_mesh (seed_verified event now_ms).
Definition stream_publish (event : VerifiedEvent) (connected_peers : list string) (now_ms : N)
    : SE FipsInvWantStream PubsubError (list FipsInvWantStreamAction) :=
  s ← se_get;
  _ ← se_lift (ensure_event_record_fits event s);
  peers ← se_lift (stream_select_peers connected_peers s);
  actions ← on_mesh (publish_verified event peers now_ms);
  encoded actions None.
(** The mesh's replay may panic: [None]. *)
Definition peer_connected (peer_id : string) (now_ms : N) s
    : option (res (list FipsInvWantStreamAction) * FipsInvWantStream) :=
  match stream_select_peer peer_id s with
  | Err e => Some (Err e, s)
  | Ok None => Some (Ok [], s)
  | Ok (Some _) =>
      let '(actions, m) := replay_cached_to_peer peer_id now_ms (is_mesh s) in
      actions ← actions; Some (encoded actions None (set_is_mesh m s))
  end.
Definition disconnect_peer (peer_id : string) s : FipsInvWantStream :=
  set_is_inputs (delete peer_id (is_inputs s)) s.
Definition stream_maintain (now_ms : N) s : FipsInvWantStream :=
  set_is_mesh (maintain now_ms (is_mesh s)) s.

(** ** Receiving *)
Definition decode_records (peer_id bytes : string) : SE FipsInvWantStream PubsubError (list string) :=
  λ s,
  let push (d : RecordDecoder) :=
    let '(records, d) := decoder_push bytes (so_max_records_per_receive (is_options s)) d in
    (records, set_is_inputs (<[peer_id := d]> (is_inputs s)) s) in
  match is_inputs s !! peer_id with
  | Some d => push d
  | None =>
      if decide (so_max_input_peers (is_options s) ≤ msize (is_inputs s)) then
        (Err (Storage ("FIPS pubsub input peer limit is "
           +:+ pretty (so_max_input_peers (is_options s)))), s)
      else push (decoder_new (so_max_record_bytes (is_options s)))
  end.

(** The policy's answer on a verified event: its priority, or [None] for a drop
    that is not an error. *)
Definition admission (event : VerifiedEvent) (source : EventSource) s : res (option Z) :=
  match is_event_policy s with
  | None => Ok (Some (default_priority (source_kind source)))
  | Some policy =>
      decision ← check_event policy event source;
      Ok (match decision with Allow priority | Throttle priority _ => Some priority | Drop _ => None end)
  end.
Definition receive_message (source_peer : string) (message : InvWantWireMessage)
    (peers : list MeshPeer) (now_ms : N)
    : SE FipsInvWantStream PubsubError (list FipsInvWantStreamAction) :=
  match message with
  | Frame event_id event => λ s,
      match verified_try_from event with
      | Err error => (Err error, set_is_mesh (record_invalid_message source_peer (is_mesh s)) s)
      | Ok verified =>
          let source := EventSources.fips_endpoint source_peer in
          let dismissed := set_is_mesh (dismiss_frame source_peer event_id (is_mesh s)) s in
          match admission verified source s with
          | Err error => (Err error, dismissed)
          | Ok None => (Ok [], dismissed)
          | Ok (Some priority) =>
              (actions ← on_mesh (receive_verified_frame source_peer event_id verified peers now_ms);
               encoded actions (Some (verified, priority))) s
          end
      end
  | message =>
      actions ← on_mesh (receive source_peer message peers now_ms);
      encoded actions None
  end.
Fixpoint receive_records (source_peer : string) (records : list string) (peers : list MeshPeer)
    (now_ms : N) : SE FipsInvWantStream PubsubError (list FipsInvWantStreamAction) :=
  match records with
  | [] => mret []
  | record :: records => λ s,
      match codec_decode (is_codec s) record with
      | Err error => (Err error, set_is_mesh (record_invalid_message source_peer (is_mesh s)) s)
      | Ok message =>
          (actions ← receive_message source_peer message peers now_ms;
           output ← receive_records source_peer records peers now_ms;
           mret (actions ++ output)) s
      end
  end.
Definition receive_bytes (source_peer bytes : string) (connected_peers : list string) (now_ms : N)
    : SE FipsInvWantStream PubsubError (list FipsInvWantStreamAction) := λ s,
  match stream_select_peer source_peer s with
  | Err e => (Err e, s)
  | Ok None => (Ok [], disconnect_peer source_peer s)
  | Ok (Some _) =>
      (records ← decode_records source_peer bytes;
       s ← se_get;
       peers ← se_lift (stream_select_peers connected_peers s);
       receive_records source_peer records peers now_ms) s
  end.

(** ** Gauges *)
Definition buffered_input_bytes (peer_id : string) s : N :=
  match is_inputs s !! peer_id with Some d => slen (rd_buffer d) | None => 0 end.
Definition input_peer_count s : N := msize (is_inputs s).
Definition remaining_input_capacity (peer_id : string) s : N :=
  match is_inputs s !! peer_id with
  | None => so_max_record_bytes (is_options s) + LENGTH_PREFIX_BYTES
  | Some d => decoder_remaining_capacity d
  end.
Definition has_ready_input (peer_id : string) s : bool :=
  is_some_and decoder_has_complete_record (is_inputs s !! peer_id).
End stream.
