(* ===== verification/FipsStreamProps.v ===== *)
(** * The inventory/want stream: theorems

    What the stream of FipsStream.v does with the bytes of its peers, and that it
    refines the mesh. *)

From S2P Require Export FipsStream MeshProps.

(** ** The inventory/want stream: its theorems

    The decoder puts a peer's records together whatever the fragments the
    transport reads, and the stream refines the inventory/want mesh of
    [MeshSpec]: every call is a run of the mesh's operations, and what it
    returns is an in-order selection of the mesh's actions, each send encoded
    as a record and each delivery admitted by the policy. *)

(** ** Reading a byte stream *)

(** The fragments a driver reads, each pushed with a bound on the records of
    one turn. *)
Fixpoint push_all (max_records : N) (chunks : list string)
    : SE RecordDecoder PubsubError (list string) :=
  match chunks with
  | [] => mret []
  | chunk :: chunks =>
      records ← decoder_push chunk max_records;
      more ← push_all max_records chunks;
      mret (records ++ more)
  end.
(** Every fragment is at most what [remaining_capacity] asked for. *)
Fixpoint within_capacity (max_records : N) (chunks : list string) (d : RecordDecoder) : Prop :=
  match chunks with
  | [] => True
  | chunk :: chunks =>
      slen chunk ≤ decoder_remaining_capacity d ∧
      within_capacity max_records chunks (decoder_push chunk max_records d).2
  end.
Definition concat_strings (l : list string) : string := foldr (λ a b, a +:+ b) "" l.

Record decoder_ok (max_bytes : N) (d : RecordDecoder) : Prop := {
  dk_max : rd_max_record_bytes d = max_bytes;
  dk_len : slen (rd_buffer d) ≤ max_bytes + LENGTH_PREFIX_BYTES;
}.

Lemma slen_le_usize max_bytes n :
  max_bytes ≤ u32_max → n ≤ max_bytes + LENGTH_PREFIX_BYTES → n ≤ usize_max.
Proof. unfold LENGTH_PREFIX_BYTES, u32_max, usize_max, u64_max. lia. Qed.
Lemma remaining_capacity_ok max_bytes d :
  max_bytes ≤ u32_max → decoder_ok max_bytes d →
  decoder_remaining_capacity d = max_bytes + LENGTH_PREFIX_BYTES - slen (rd_buffer d).
Proof.
  intros Hmax [Heq _]. unfold decoder_remaining_capacity, usize_sat_add. rewrite Heq.
  rewrite sat_add_exact; [done|]. by apply (slen_le_usize max_bytes).
Qed.
Lemma str_drop_len n s : slen (str_drop n s) ≤ slen s.
Proof. rewrite <-(str_take_drop n s) at 2. rewrite slen_app. lia. Qed.
Lemma take_records_len max_bytes turns buffer :
  slen (take_records max_bytes turns buffer).2 ≤ slen buffer.
Proof.
  revert buffer. induction turns as [|turns IH]; intros buffer; cbn [take_records]; [done|].
  case_decide; [done|]. case_decide; [simpl; apply N.le_0_l|]. case_decide; [done|].
  set (rest := str_drop _ buffer). specialize (IH rest).
  assert (slen rest ≤ slen buffer).
  { unfold rest. generalize (N.to_nat (LENGTH_PREFIX_BYTES + u32_from_be_bytes buffer)).
    intros n. apply str_drop_len. }
  destruct (take_records max_bytes turns rest) as [[?|?] ?]; simpl in *; lia.
Qed.
Lemma decoder_push_ok max_bytes bytes n d :
  decoder_ok max_bytes d → decoder_ok max_bytes (decoder_push bytes n d).2.
Proof.
  intros [Hmax Hlen]. unfold decoder_push. destruct (checked_add _ _ _) as [attempted|] eqn:Ha; [|done].
  unfold checked_add in Ha. case_decide; [|done]. injection Ha as <-.
  case_decide as Hbig; [split; [done|simpl; apply N.le_0_l]|].
  pose proof (take_records_len (rd_max_record_bytes d) (N.to_nat n) (rd_buffer d +:+ bytes)) as Ht.
  destruct (take_records _ _ _) as [records rest]. simpl in *. split; [done|]. simpl.
  rewrite slen_app in Ht. lia.
Qed.
(** With room for it, a push is the shared loop on the longer buffer. *)
Lemma decoder_push_fits max_bytes chunk n d :
  max_bytes ≤ u32_max → decoder_ok max_bytes d →
  slen chunk ≤ decoder_remaining_capacity d →
  ∃ records rest, take_records max_bytes (N.to_nat n) (rd_buffer d +:+ chunk) = (records, rest) ∧
    (decoder_push chunk n d).2 = mkDecoder max_bytes rest ∧
    (∀ taken, records = Ok taken → (decoder_push chunk n d).1 = Ok taken).
Proof.
  intros Hmax Hd. rewrite (remaining_capacity_ok max_bytes) by done. destruct Hd as [<- Hlen].
  intros Hroom. unfold decoder_push, checked_add.
  rewrite decide_True by (eapply slen_le_usize; [done|lia]). rewrite decide_False by lia.
  destruct (take_records _ _ _) as [records rest]. exists records, rest. simpl.
  split_and!; [done..|]. by intros taken ->.
Qed.

Lemma push_all_ok max_records max_bytes frames chunks future d :
  max_bytes ≤ u32_max → Forall (λ frame, slen frame ≤ max_bytes) frames →
  decoder_ok max_bytes d → within_capacity max_records chunks d →
  rd_buffer d +:+ concat_strings chunks +:+ future = stream_of frames →
  ∃ taken later d', push_all max_records chunks d = (Ok taken, d') ∧
    frames = taken ++ later ∧ decoder_ok max_bytes d' ∧
    rd_buffer d' +:+ future = stream_of later.
Proof.
  intros Hmax. revert frames d. induction chunks as [|chunk chunks IH]; intros frames d Hall Hd Hw Heq.
  { exists [], frames, d. done. }
  destruct Hw as [Hroom Hw]. change (concat_strings (chunk :: chunks)) with (chunk +:+ concat_strings chunks) in Heq.
  pose proof (decoder_push_ok max_bytes chunk max_records d Hd) as Hd'.
  destruct (decoder_push_fits max_bytes chunk max_records d) as (records & rest & Ht & Hp2 & Hp1); [done..|].
  rewrite <-!str_app_assoc in Heq. rewrite str_app_assoc in Heq.
  destruct (take_records_stream max_bytes (N.to_nat max_records) frames (rd_buffer d +:+ chunk)
    (concat_strings chunks +:+ future)) as (taken & later & rest' & Ht' & -> & Hrest & _); [done..|].
  rewrite Ht in Ht'. injection Ht' as -> ->. specialize (Hp1 taken eq_refl).
  simpl. unfold mbind, se_bind. destruct (decoder_push chunk max_records d) as [r d1]. simpl in *. subst r d1.
  apply Forall_app in Hall as [_ Hall].
  destruct (IH later (mkDecoder max_bytes rest') Hall Hd' Hw) as (more & later' & d' & Hrun & -> & Hd2 & Hbuf);
    [exact Hrest|].
  rewrite Hrun. exists (taken ++ more), later', d'. split_and!; [done| |done..]. by rewrite app_assoc.
Qed.

(** A buffer that is not ready holds no complete record, or one whose length
    is too long. *)
Lemma not_ready_incomplete max_bytes d :
  max_bytes ≤ u32_max → decoder_ok max_bytes d →
  decoder_has_complete_record d = false →
  incomplete max_bytes (rd_buffer d) ∨ max_bytes < u32_from_be_bytes (rd_buffer d).
Proof.
  intros Hmax [<- _]. unfold decoder_has_complete_record, incomplete. case_decide; [auto|].
  rewrite andb_false_iff, !bool_decide_eq_false. unfold usize_sat_add.
  pose proof (u32_from_be_bound (rd_buffer d)).
  rewrite sat_add_exact by (unfold usize_max, u64_max, u32_max, LENGTH_PREFIX_BYTES in *; lia). lia.
Qed.
(** The next record of a stream is declared with its own length. *)
Lemma stream_prefix max_bytes buffer future frame frames :
  slen frame ≤ max_bytes → max_bytes ≤ u32_max → LENGTH_PREFIX_BYTES ≤ slen buffer →
  buffer +:+ future = stream_of (frame :: frames) → u32_from_be_bytes buffer = slen frame.
Proof.
  intros Hf Hmax Hlen Heq. cbn [stream_of] in Heq. unfold record_of in Heq.
  rewrite <-str_app_assoc in Heq.
  destruct (str_app_prefix (u32_to_be_bytes (slen frame)) (frame +:+ stream_of frames) buffer future)
    as (body & -> & _); [done|exact Hlen|].
  apply u32_be_roundtrip. lia.
Qed.

(** Whatever the fragments a driver reads from a stream of frames, as long
    as each fits the room it asked for, the decoder fails on none, hands out
    the frames in order without losing, repeating or changing one, and keeps
    exactly the unread bytes; a decoder that is not ready holds less than the
    next record and has room for more, so that neither side waits forever. *)
Theorem fragments_reassemble max_records max_bytes frames chunks future :
  max_bytes ≤ u32_max → Forall (λ frame, slen frame ≤ max_bytes) frames →
  within_capacity max_records chunks (decoder_new max_bytes) →
  concat_strings chunks +:+ future = stream_of frames →
  ∃ taken later d, push_all max_records chunks (decoder_new max_bytes) = (Ok taken, d) ∧
    frames = taken ++ later ∧ rd_buffer d +:+ future = stream_of later ∧
    (decoder_has_complete_record d = false →
      0 < decoder_remaining_capacity d ∧
      ∀ frame rest, later = frame :: rest → slen (rd_buffer d) < slen (record_of frame)).
Proof.
  intros Hmax Hall Hw Heq.
  destruct (push_all_ok max_records max_bytes frames chunks future (decoder_new max_bytes))
    as (taken & later & d & Hrun & -> & Hd & Hbuf); [done| | | | |];
    [done|by split; [|apply N.le_0_l]|done..|].
  exists taken, later, d. split_and!; [done..|]. intros Hready.
  apply Forall_app in Hall as [_ Hall]. rewrite (remaining_capacity_ok max_bytes) by done.
  assert (∀ frame rest, later = frame :: rest → LENGTH_PREFIX_BYTES ≤ slen (rd_buffer d) →
    u32_from_be_bytes (rd_buffer d) = slen frame ∧ slen frame ≤ max_bytes) as Hnext.
  { intros frame rest -> Hlen. apply Forall_cons in Hall as [Hf _]. split; [|done].
    by eapply stream_prefix. }
  assert (incomplete max_bytes (rd_buffer d)) as Hinc.
  { destruct (not_ready_incomplete max_bytes d) as [|Hlong]; [done..|].
    destruct (decide (slen (rd_buffer d) < LENGTH_PREFIX_BYTES)) as [|Hlen]; [by left|].
    destruct later as [|frame rest].
    - apply (f_equal slen) in Hbuf. rewrite slen_app in Hbuf. change (slen (stream_of [])) with 0 in Hbuf.
      unfold LENGTH_PREFIX_BYTES in *. lia.
    - destruct (Hnext frame rest eq_refl) as [? ?]; lia. }
  split; [apply incomplete_room in Hinc; lia|]. intros frame rest Hl. rewrite record_of_length.
  destruct Hinc as [?|[_ Hinc]]; [lia|].
  destruct (decide (slen (rd_buffer d) < LENGTH_PREFIX_BYTES)); [lia|].
  destruct (Hnext frame rest Hl) as [He _]; [lia|]. by rewrite <-He.
Qed.

(** ** The inventory/want stream refines the mesh

    [FipsInvWantStream] of [FipsStream] as a transition system, and the
    simulation of its steps by runs of the mesh's operations. *)

Section stream_sim.
Context `{!Nostr, !HashOrder, !EnvelopeJson, !StrDebug}.
Implicit Types (s : FipsInvWantStream) (m : InvWantMesh).

(** ** The stream as a transition system *)
Inductive stream_op : Type :=
  | StSeed (event : VerifiedEvent)
  | StPublish (event : VerifiedEvent) (connected_peers : list string)
  | StConnected (peer_id : string)
  | StDisconnect (peer_id : string)
  | StReceive (source_peer bytes : string) (connected_peers : list string)
  | StMaintain.
Definition stream_op_ok (op : stream_op) : Prop :=
  match op with StSeed v | StPublish v _ => verified (as_event v) | _ => True end.

(** What the caller sees: an error hides the actions. [None] is a panic. *)
Definition outcome {A} (p : res (list A) * FipsInvWantStream) : list A * FipsInvWantStream :=
  (match p.1 with Ok actions => actions | Err _ => [] end, p.2).
Definition stream_step (op : stream_op) (now : N) s
    : option (list FipsInvWantStreamAction * FipsInvWantStream) :=
  match op with
  | StSeed v => Some ([], (stream_seed v now s).2)
  | StPublish v peers => Some (outcome (stream_publish v peers now s))
  | StConnected peer => outcome <$> peer_connected peer now s
  | StDisconnect peer => Some ([], disconnect_peer peer s)
  | StReceive src bytes peers => Some (outcome (receive_bytes src bytes peers now s))
  | StMaintain => Some ([], stream_maintain now s)
  end.

(** A new stream, with or without its policies. *)
Definition configured (event_policy : option PubsubPolicy)
    (peer_policy : option (string → res (option MeshPeer))) s : FipsInvWantStream :=
  let s := match event_policy with Some p => with_event_policy p s | None => s end in
  match peer_policy with Some p => with_peer_policy p s | None => s end.
Inductive stream_reach (o : FipsInvWantStreamOptions) ep pp
    : N → list FipsInvWantStreamAction → FipsInvWantStream → Prop :=
  | stream_reach_new s : stream_new o = Ok s → stream_reach o ep pp 0 [] (configured ep pp s)
  | stream_reach_step clock out s now op out' s' :
      stream_reach o ep pp clock out s → clock ≤ now → now ≤ u64_max → stream_op_ok op →
      stream_step op now s = Some (out', s') → stream_reach o ep pp now (out ++ out') s'.

(** ** Runs of the mesh *)
Inductive mesh_run (now : N) : InvWantMesh → list InvWantAction → InvWantMesh → Prop :=
  | run_nil m : mesh_run now m [] m
  | run_cons op m trace m' :
      op_ok op → mesh_run now (run_op op now m).2 trace m' →
      mesh_run now m ((run_op op now m).1 ++ trace) m'.
Lemma mesh_run_one now op m trace m' :
  op_ok op → run_op op now m = (trace, m') → mesh_run now m trace m'.
Proof.
  intros Hop Heq. rewrite <-(app_nil_r trace).
  replace trace with (run_op op now m).1 by by rewrite Heq.
  apply run_cons; [done|]. rewrite Heq. constructor.
Qed.
Lemma mesh_run_app now m1 m2 m3 t1 t2 :
  mesh_run now m1 t1 m2 → mesh_run now m2 t2 m3 → mesh_run now m1 (t1 ++ t2) m3.
Proof. induction 1; [done|]. intros. rewrite <-app_assoc. apply run_cons; auto. Qed.
Lemma reach_run o clock trace m now t m' :
  reach o clock trace m → clock ≤ now → now ≤ u64_max → mesh_run now m t m' →
  ∃ clock', clock' ≤ now ∧ reach o clock' (trace ++ t) m'.
Proof.
  intros Hr Hle Hmax Hrun. revert clock trace Hr Hle. induction Hrun as [m|op m t m' Hop _ IH];
    intros clock trace Hr Hle.
  - exists clock. by rewrite app_nil_r.
  - rewrite app_assoc. apply (IH now); [by eapply reach_step|done].
Qed.

(** ** Which actions deliver *)
Definition is_deliver (a : InvWantAction) : Prop := match a with Deliver _ _ => True | _ => False end.
Definition delivers (src : string) (event : Event) (a : InvWantAction) : Prop :=
  match a with Deliver p e => p = src ∧ e = event | Send _ _ => True end.
Lemma sends_quiet m peers ex msg :
  Forall (λ a, ¬ is_deliver a) (send_to_selected_peers m peers ex msg).
Proof. apply Forall_forall. intros a Ha. apply send_to_selected_peers_elem in Ha as [peer ->]. exact (λ H, H). Qed.
Lemma quiet_delivers src event actions :
  Forall (λ a, ¬ is_deliver a) actions → Forall (delivers src event) actions.
Proof. intros Hq. eapply Forall_impl; [exact Hq|]. intros [? ?|? ?] H3; [done|by destruct H3]. Qed.
Lemma publish_quiet v peers now m actions :
  (publish_verified v peers now m).1 = Ok actions → Forall (λ a, ¬ is_deliver a) actions.
Proof.
  unfold publish_verified. se_unfold. unfold publish_validated.
  destruct (validate_verified_event _ _) as [[id payload]|]; simpl; [|done].
  destruct (remember_inventory _ _ _) as [[] m']; intros [= <-]; [apply sends_quiet|constructor].
Qed.
Lemma replay_quiet peer now m actions m' :
  replay_cached_to_peer peer now m = (Some actions, m') → Forall (λ a, ¬ is_deliver a) actions.
Proof.
  intros [= Hr _]. apply Forall_forall. intros a Ha.
  destruct (replay_items_quiet _ _ _ _ _ Hr Ha) as (? & ? & ? & ? & ? & ->). exact (λ H, H).
Qed.
Lemma penalize_error_fst {A} src (c : SE InvWantMesh PubsubError A) m :
  (penalize_error src c m).1 = (c m).1.
Proof. unfold penalize_error. by destruct (c m). Qed.
Lemma receive_quiet src msg peers now m actions :
  (match msg with Frame _ _ => False | _ => True end) →
  (receive src msg peers now m).1 = Ok actions → Forall (λ a, ¬ is_deliver a) actions.
Proof.
  unfold receive. se_unfold. rewrite penalize_error_fst. intros Hmsg. destruct msg as [id k b h|id|]; [| |done].
  - unfold receive_inventory. generalize (prune now m). intros m1. intros Hr.
    case_hyp Hr; repeat constructor; auto.
  - unfold receive_want. generalize (prune now m). intros m1. intros Hr.
    case_hyp Hr; repeat constructor; auto.
Qed.
Lemma receive_verified_delivers src id v peers now m actions :
  (receive_verified_frame src id v peers now m).1 = Ok actions →
  Forall (delivers src (as_event v)) actions.
Proof.
  unfold receive_verified_frame. se_unfold. rewrite penalize_error_fst. unfold receive_frame.
  destruct (check_frame _ _ _ _ _) as [[route payload]|]; [|done].
  destruct (ur_fulfilled route); [by intros [= <-]|].
  unfold accept_frame. destruct (remember_delivered _ _ _) as [first m1].
  destruct (remove_pending_event _ _) as [pending m2]. intros [= <-].
  rewrite !Forall_app. split_and!.
  - destruct first; repeat constructor.
  - destruct pending; [|constructor]. apply Forall_fmap, Forall_true. done.
  - case_decide; [|constructor]. apply quiet_delivers, sends_quiet.
Qed.

(** ** The simulation *)

(** An action of the mesh as the stream returns it. *)
Definition renders s (a : InvWantAction) (out : FipsInvWantStreamAction) : Prop :=
  match a, out with
  | Send peer message, StreamSend peer' record =>
      peer' = peer ∧ ∃ payload, codec_encode (is_codec s) message = Ok payload ∧
        slen payload ≤ so_max_record_bytes (is_options s) ∧ record = record_of payload
  | Deliver src event, StreamDeliver q =>
      as_event (qe_event q) = event ∧ qe_source q = EventSources.fips_endpoint src ∧
      admission (qe_event q) (qe_source q) s = Ok (Some (qe_priority q))
  | _, _ => False
  end.
Definition same_config s s' : Prop :=
  is_codec s' = is_codec s ∧ is_options s' = is_options s ∧
  is_event_policy s' = is_event_policy s ∧ is_peer_policy s' = is_peer_policy s.
Record simulates (now : N) s (out : list FipsInvWantStreamAction) s' : Prop := {
  sm_config : same_config s s';
  sm_run : ∃ trace shown, mesh_run now (is_mesh s) trace (is_mesh s') ∧
    shown `sublist_of` trace ∧ Forall2 (renders s) shown out;
}.

Lemma same_config_trans s1 s2 s3 : same_config s1 s2 → same_config s2 s3 → same_config s1 s3.
Proof. unfold same_config. intros (-> & -> & -> & ->) (-> & -> & -> & ->). done. Qed.
Lemma admission_config s s' v src : same_config s s' → admission v src s' = admission v src s.
Proof. unfold admission. by intros (_ & _ & -> & _). Qed.
Lemma renders_config s s' a out : same_config s s' → renders s' a out → renders s a out.
Proof.
  intros Hc. pose proof (admission_config s s') as Had. destruct Hc as (Hco & Hop & Hep & Hpp).
  unfold renders. rewrite Hco, Hop. destruct a, out; try done. rewrite Had by done. done.
Qed.
Lemma simulates_trans now s1 s2 s3 out1 out2 :
  simulates now s1 out1 s2 → simulates now s2 out2 s3 → simulates now s1 (out1 ++ out2) s3.
Proof.
  intros [Hc1 (t1 & v1 & Hr1 & Hs1 & Hv1)] [Hc2 (t2 & v2 & Hr2 & Hs2 & Hv2)].
  split; [by eapply same_config_trans|]. exists (t1 ++ t2), (v1 ++ v2). split_and!.
  - by eapply mesh_run_app.
  - by apply sublist_app.
  - apply Forall2_app; [done|]. eapply Forall2_impl; [done|]. intros a o. by apply renders_config.
Qed.
Lemma simulates_hide now s out s' : simulates now s out s' → simulates now s [] s'.
Proof.
  intros [Hc (t & _ & Hr & _)]. split; [done|]. exists t, []. split_and!; [done|apply sublist_nil_l|constructor].
Qed.
Lemma simulates_op now s m op :
  op_ok op → run_op op now (is_mesh s) = ([], m) → simulates now s [] (set_is_mesh m s).
Proof.
  intros Hop Hr. split; [done|]. exists [], []. split_and!; [by eapply mesh_run_one|done|constructor].
Qed.
Lemma simulates_inputs now s inputs : simulates now s [] (set_is_inputs inputs s).
Proof. split; [done|]. exists [], []. split_and!; [constructor|done|constructor]. Qed.
Lemma simulates_refl now s : simulates now s [] s.
Proof. split; [done|]. exists [], []. split_and!; [constructor|done|constructor]. Qed.

Lemma encode_record_Ok payload max record :
  encode_record payload max = Ok record → slen payload ≤ max ∧ record = record_of payload.
Proof. unfold encode_record. case_decide; [done|]. case_decide; [done|]. intros [= <-]. split; [lia|done]. Qed.
(** The admission that goes with the deliveries of [src]. *)
Definition admits s (src : string) (admitted : option (VerifiedEvent * Z)) (a : InvWantAction) : Prop :=
  match admitted with
  | None => ¬ is_deliver a
  | Some (v, priority) => delivers src (as_event v) a ∧
      admission v (EventSources.fips_endpoint src) s = Ok (Some priority)
  end.
Lemma encode_actions_renders s src admitted actions out :
  Forall (admits s src admitted) actions → encode_actions actions admitted s = Ok out →
  Forall2 (renders s) actions out.
Proof.
  revert out. induction actions as [|a actions IH]; intros out Hall; simpl; [by intros [= <-]|].
  apply Forall_cons in Hall as [Ha Hall]. intros (e & He & (rest & Hrest & [= <-])%result_bind_Ok)%result_bind_Ok.
  constructor; [|by apply IH]. destruct a as [peer msg|p event]; simpl in *.
  - apply result_bind_Ok in He as (payload & Hp & (record & Hrec & [= <-])%result_bind_Ok).
    apply encode_record_Ok in Hrec as [? ->]. split; [done|]. by exists payload.
  - unfold admits in Ha. destruct admitted as [[v priority]|]; [|done]. destruct Ha as [[-> ->] Had].
    injection He as <-. simpl. done.
Qed.
(** One operation of the mesh, its actions encoded. *)
Lemma simulates_encode now s src admitted op actions m :
  op_ok op → run_op op now (is_mesh s) = (actions, m) →
  Forall (admits s src admitted) actions →
  let p := encoded actions admitted (set_is_mesh m s) in
  simulates now s (outcome p).1 (outcome p).2.
Proof.
  intros Hop Hrun Had.
  assert (∀ out shown, shown `sublist_of` actions → Forall2 (renders s) shown out →
    simulates now s out (set_is_mesh m s)) as Hsim.
  { intros out shown Hs Hr. split; [done|]. exists actions, shown. split_and!; [|done..].
    by eapply mesh_run_one. }
  unfold encoded, outcome.
  destruct (encode_actions actions admitted (set_is_mesh m s)) as [out|e] eqn:He; simpl.
  - apply (Hsim out actions); [done|]. by eapply encode_actions_renders in He.
  - apply (Hsim [] []); [apply sublist_nil_l|constructor].
Qed.
Lemma simulates_encoded now s src admitted op (f : SE InvWantMesh PubsubError (list InvWantAction)) :
  op_ok op → run_op op now (is_mesh s) = of_result (f (is_mesh s)) →
  (∀ actions, (f (is_mesh s)).1 = Ok actions → Forall (admits s src admitted) actions) →
  let p := (actions ← on_mesh f; encoded actions admitted) s in
  simulates now s (outcome p).1 (outcome p).2.
Proof.
  intros Hop Hrun Had. unfold on_mesh, mbind, se_bind.
  destruct (f (is_mesh s)) as [[actions|e] m]; simpl in *.
  - by eapply simulates_encode; [..|apply Had].
  - by eapply simulates_op.
Qed.

Lemma stream_seed_sim v now s :
  verified (as_event v) → simulates now s [] (stream_seed v now s).2.
Proof.
  intros Hv. unfold stream_seed, on_mesh. se_unfold.
  destruct (ensure_event_record_fits v s); [|apply simulates_refl].
  destruct (seed_verified v now (is_mesh s)) as [r m] eqn:Hs. simpl.
  apply (simulates_op now s m (OpSeedVerified v)); [done|]. cbn [run_op]. by rewrite Hs.
Qed.
Lemma stream_publish_eq v peers now s :
  stream_publish v peers now s =
    match ensure_event_record_fits v s, stream_select_peers peers s with
    | Ok _, Ok selected => (actions ← on_mesh (publish_verified v selected now); encoded actions None) s
    | Err e, _ | _, Err e => (Err e, s)
    end.
Proof.
  unfold stream_publish, se_get, se_lift. unfold mbind at 1 2 3, se_bind.
  destruct (ensure_event_record_fits v s); [|done]. by destruct (stream_select_peers peers s).
Qed.
Lemma stream_publish_sim v peers now s :
  verified (as_event v) →
  simulates now s (outcome (stream_publish v peers now s)).1 (outcome (stream_publish v peers now s)).2.
Proof.
  intros Hv. rewrite stream_publish_eq.
  destruct (ensure_event_record_fits v s); [|apply simulates_refl].
  destruct (stream_select_peers peers s) as [selected|]; [|apply simulates_refl].
  apply (simulates_encoded now s "" None (OpPublishVerified v selected)); [done|done|].
  intros actions. apply publish_quiet.
Qed.
Lemma peer_connected_sim peer now s r s' :
  peer_connected peer now s = Some (r, s') → simulates now s (outcome (r, s')).1 s'.
Proof.
  unfold peer_connected. destruct (stream_select_peer peer s) as [[selected|]|];
    [|by intros [= <- <-]; apply simulates_refl..].
  destruct (replay_cached_to_peer peer now (is_mesh s)) as [[actions|] m] eqn:Hr; [|done].
  intros [= <- <-]. apply (simulates_encode now s "" None (OpReplayCached peer)); [done| |].
  - cbn [run_op]. by rewrite Hr.
  - by eapply replay_quiet.
Qed.
Lemma decode_records_sim now peer bytes s r s' :
  decode_records peer bytes s = (r, s') → simulates now s [] s'.
Proof.
  unfold decode_records. destruct (is_inputs s !! peer) as [d|].
  - destruct (decoder_push _ _ _). intros [= <- <-]. apply simulates_inputs.
  - case_decide; [intros [= <- <-]; apply simulates_refl|].
    destruct (decoder_push _ _ _). intros [= <- <-]. apply simulates_inputs.
Qed.
Lemma receive_message_sim src msg peers now s :
  simulates now s (outcome (receive_message src msg peers now s)).1
    (outcome (receive_message src msg peers now s)).2.
Proof.
  assert ((match msg with Frame _ _ => False | _ => True end) →
    let p := (actions ← on_mesh (receive src msg peers now); encoded actions None) s in
    simulates now s (outcome p).1 (outcome p).2) as Hother.
  { intros Hmsg. apply (simulates_encoded now s src None (OpReceive src msg peers)); [done|done|].
    intros actions. by apply receive_quiet. }
  destruct msg as [id k b h|id|id event]; [by apply Hother..|]. clear Hother. unfold receive_message.
  destruct (verified_try_from event) as [v|] eqn:Hv; [|by eapply (simulates_op now s _ (OpInvalid src))].
  apply verified_try_from_Ok in Hv as [-> Hv].
  destruct (admission _ _ s) as [[priority|]|] eqn:Had;
    [|by eapply (simulates_op now s _ (OpDismiss src id))..].
  apply (simulates_encoded now s src _ (OpReceiveVerified src id (mkVerifiedEvent event) peers));
    [done|done|]. intros actions Hok. eapply Forall_impl; [by eapply receive_verified_delivers|].
  by split.
Qed.
Lemma receive_records_sim src records peers now s :
  simulates now s (outcome (receive_records src records peers now s)).1
    (outcome (receive_records src records peers now s)).2.
Proof.
  revert s. induction records as [|record records IH]; intros s; cbn [receive_records]; [apply simulates_refl|].
  destruct (codec_decode (is_codec s) record) as [msg|];
    [|by eapply (simulates_op now s _ (OpInvalid src))].
  pose proof (receive_message_sim src msg peers now s) as Hmsg. unfold mbind, se_bind.
  destruct (receive_message src msg peers now s) as [[out|] s1]; simpl in *; [|done].
  specialize (IH s1). destruct (receive_records src records peers now s1) as [[rest|] s2]; simpl in *.
  - by eapply simulates_trans.
  - rewrite <-(app_nil_r []). eapply simulates_trans; [by eapply simulates_hide|done].
Qed.
Lemma receive_bytes_eq src bytes peers now s :
  receive_bytes src bytes peers now s =
    match stream_select_peer src s with
    | Err e => (Err e, s)
    | Ok None => (Ok [], disconnect_peer src s)
    | Ok (Some _) =>
        match decode_records src bytes s with
        | (Err e, s) => (Err e, s)
        | (Ok records, s) =>
            match stream_select_peers peers s with
            | Err e => (Err e, s)
            | Ok selected => receive_records src records selected now s
            end
        end
    end.
Proof.
  unfold receive_bytes, se_get, se_lift. destruct (stream_select_peer src s) as [[?|]|]; [|done..].
  unfold mbind, se_bind. destruct (decode_records src bytes s) as [[records|] s1]; [|done].
  by destruct (stream_select_peers peers s1).
Qed.
Lemma receive_bytes_sim src bytes peers now s :
  simulates now s (outcome (receive_bytes src bytes peers now s)).1
    (outcome (receive_bytes src bytes peers now s)).2.
Proof.
  rewrite receive_bytes_eq. destruct (stream_select_peer src s) as [[selected|]|];
    [|apply simulates_inputs|apply simulates_refl].
  destruct (decode_records src bytes s) as [[records|] s1] eqn:Hd;
    pose proof (decode_records_sim now _ _ _ _ _ Hd) as Hsim; [|done].
  destruct (stream_select_peers peers s1) as [selected'|]; [|done].
  pose proof (receive_records_sim src records selected' now s1) as Hrec.
  exact (simulates_trans now s s1 _ [] _ Hsim Hrec).
Qed.
Lemma stream_step_sim op now s out s' :
  stream_op_ok op → stream_step op now s = Some (out, s') → simulates now s out s'.
Proof.
  intros Hop. destruct op; simpl in *.
  - intros [= <- <-]. by apply stream_seed_sim.
  - pose proof (stream_publish_sim event connected_peers now s Hop) as Hs.
    destruct (outcome _). by intros [= <- <-].
  - destruct (peer_connected peer_id now s) as [[r s1]|] eqn:Hp; [|done]. intros [= <- <-].
    by apply peer_connected_sim in Hp.
  - intros [= <- <-]. apply simulates_inputs.
  - pose proof (receive_bytes_sim source_peer bytes connected_peers now s) as Hs.
    destruct (outcome _). by intros [= <- <-].
  - intros [= <- <-]. by apply (simulates_op now s _ OpMaintain).
Qed.

Lemma configured_fields ep pp s :
  is_mesh (configured ep pp s) = is_mesh s ∧ is_options (configured ep pp s) = is_options s ∧
  is_codec (configured ep pp s) = is_codec s ∧ is_inputs (configured ep pp s) = is_inputs s.
Proof. by destruct ep, pp. Qed.
Lemma stream_new_mesh o s : stream_new o = Ok s → is_mesh s = mesh_new (so_mesh o).
Proof. unfold stream_new. intros ([] & _ & [= <-])%result_bind_Ok. done. Qed.

Lemma stream_reach_mesh o ep pp clock out s :
  stream_reach o ep pp clock out s →
  ∃ clock' trace shown, clock' ≤ clock ∧ reach (so_mesh o) clock' trace (is_mesh s) ∧
    shown `sublist_of` trace ∧ Forall2 (renders s) shown out.
Proof.
  induction 1 as [s Hnew|clock out s now op out' s' _ (clock1 & trace & shown & Hle1 & Hreach & Hsub & Hout)
    Hle Hmax Hop Hstep].
  - exists 0, [], []. destruct (configured_fields ep pp s) as (-> & _).
    rewrite (stream_new_mesh _ _ Hnew). split_and!; [done|apply reach_new|done|constructor].
  - destruct (stream_step_sim _ _ _ _ _ Hop Hstep) as [Hc (t & v & Hrun & Hs & Hv)].
    destruct (reach_run _ _ _ _ now t (is_mesh s') Hreach ltac:(lia) Hmax Hrun) as (clock' & Hle' & Hr').
    exists clock', (trace ++ t), (shown ++ v). split_and!; [done|done|by apply sublist_app|].
    assert (same_config s' s) as Hc'.
    { by destruct Hc as (? & ? & ? & ?). }
    apply Forall2_app; (eapply Forall2_impl; [done|]); intros a out0 Hr; [by eapply renders_config|].
    eapply renders_config; [exact Hc'|done].
Qed.

(** The mesh's replay never panics. *)
Lemma peer_connected_total `{!NostrLaws _} o ep pp clock out s peer now :
  options_typed (normalize_options (so_mesh o)) → stream_reach o ep pp clock out s →
  is_Some (peer_connected peer now s).
Proof.
  intros Ho Hr. apply stream_reach_mesh in Hr as (clock' & trace & _ & _ & Hr & _).
  unfold peer_connected. destruct (stream_select_peer peer s) as [[?|]|]; [|by eexists..].
  destruct (replay_cached_complete _ _ _ _ peer now Ho Hr) as (actions & Hrep & _). rewrite Hrep. simpl. by eexists.
Qed.

End stream_sim.
