(* ===== verification/FipsStreamWitness.v ===== *)
(** * The inventory/want stream: a concrete run

    A node behind a byte stream learns of an event from alice, asks for it and
    delivers her frame, on a concrete envelope format; and the same frame with
    a bad record behind it. *)

From S2P Require Export FipsStreamProps.

Module StreamWitness.
#[local] Existing Instance Toy.toy_nostr.
#[local] Existing Instance Toy.toy_laws.

(** ** An envelope format

    A tag byte, the numbers of an inventory as one byte each, and the identifier;
    the body of a frame is the event of that identifier. *)
Definition chr (n : N) : Ascii.ascii := Ascii.ascii_of_N n.
Definition toy_message (m : InvWantWireMessage) : result string string :=
  match m with
  | Inventory id k b h =>
      if decide (k < 256 ∧ b < 256 ∧ h < 256) then
        Ok (String (chr 73) (String (chr k) (String (chr b) (String (chr h) id))))
      else Err "not a byte"%string
  | Want id => Ok (String (chr 87) id)
  | Frame id event =>
      if decide (id = Toy.toy_hex (Toy.te_id event) ∧ Toy.toy_verify_id event = true ∧ Toy.te_sig event = 1)
      then Ok (String (chr 70) id) else Err "unknown body"%string
  end.
Definition toy_read (s : string) : result string InvWantWireMessage :=
  match s with
  | String tag body =>
      if decide (tag = chr 73) then
        match body with
        | String k (String b (String h id)) =>
            Ok (Inventory id (Ascii.N_of_ascii k) (Ascii.N_of_ascii b) (Ascii.N_of_ascii h))
        | _ => Err "short inventory"%string
        end
      else if decide (tag = chr 87) then Ok (Want body)
      else if decide (tag = chr 70) then
        match list_find (λ i, Toy.toy_hex i = body) [Toy.IdA; Toy.IdB; Toy.IdC; Toy.IdD] with
        | Some (_, i) => Ok (Frame body (Toy.toy_body i))
        | None => Err "unknown event"%string
        end
      else Err "unexpected"%string
  | EmptyString => Err "empty"%string
  end.
Definition protocol : string := FIPS_NOSTR_PUBSUB_INV_WANT_PROTOCOL.
#[export] Instance toy_envelope : EnvelopeJson := {|
  envelope_to_vec e :=
    if decide (en_protocol e = protocol ∧ en_version e = 1) then toy_message (en_message e)
    else Err "unsupported"%string;
  envelope_from_slice s := mkEnvelope protocol 1 <$> toy_read s;
|}.
#[export] Instance toy_envelope_laws : EnvelopeJsonLaws toy_envelope.
Proof.
  split. intros [p v m] bytes. simpl. case_decide as Hpv; [|done]. destruct Hpv as [-> ->].
  destruct m as [id k b h|id|id event]; simpl; [|by intros [= <-]|].
  - case_decide as Hk; [|done]. destruct Hk as (Hk & Hb & Hh). intros [= <-]. simpl.
    unfold chr. by rewrite !Ascii.N_ascii_embedding.
  - case_decide as Hid; [|done]. destruct Hid as (-> & Hv & Hs). intros [= <-].
    unfold Toy.toy_verify_id in Hv. apply andb_true_iff in Hv as [Hv Hc%bool_decide_eq_true].
    apply andb_true_iff in Hv as [Hv Ht%bool_decide_eq_true].
    apply andb_true_iff in Hv as [Hv Hk%bool_decide_eq_true].
    apply andb_true_iff in Hv as [Hpk%bool_decide_eq_true Hca%bool_decide_eq_true].
    destruct event as [i pk ca kd tg ct sg]; simpl in *. subst. by destruct i.
Qed.

(** ** A run *)
Definition id_a : string := Toy.toy_hex Toy.IdA.
Definition event_a : Event := Toy.toy_body Toy.IdA.
Definition alice : string := "alice".
Definition bob : string := "bob".
(** The policy admits every event with priority 5. *)
Definition policy : PubsubPolicy := {|
  check_event _ _ := Ok (Allow 5); check_source _ _ _ := Ok (Allow 5) |}.
Definition options : FipsInvWantStreamOptions := {|
  so_mesh := default_mesh_options; so_protocol := protocol; so_protocol_version := 1;
  so_max_record_bytes := 80; so_max_input_peers := 2; so_max_records_per_receive := 4 |}.
Definition fresh : FipsInvWantStream :=
  mkStream (mesh_new default_mesh_options) (codec_new protocol 1 80) options None None ∅.
Definition s0 : FipsInvWantStream := configured (Some policy) None fresh.
Definition wire (m : InvWantWireMessage) : string :=
  match toy_message m with Ok payload => record_of payload | Err _ => "" end.
Definition announce : string := wire (Inventory id_a 1 7 3).
Definition answer : string := wire (Frame id_a event_a).
Definition step (op : stream_op) (now : N) s : list FipsInvWantStreamAction * FipsInvWantStream :=
  default ([], s) (stream_step op now s).
(** Alice's inventory arrives in two pieces, then her frame. *)
Definition s1 : FipsInvWantStream := (step (StReceive alice (str_take 9 announce) [alice; bob]) 10 s0).2.
Definition s2 : FipsInvWantStream := (step (StReceive alice (str_drop 9 announce) [alice; bob]) 11 s1).2.
Definition out2 : list FipsInvWantStreamAction :=
  (step (StReceive alice (str_drop 9 announce) [alice; bob]) 11 s1).1.
Definition s3 : FipsInvWantStream := (step (StReceive alice answer [alice; bob]) 12 s2).2.
Definition out3 : list FipsInvWantStreamAction := (step (StReceive alice answer [alice; bob]) 12 s2).1.
Lemma stream_asks : out2 = [StreamSend alice (wire (Want id_a))].
Proof. reflexivity. Qed.
Lemma stream_delivers : out3 =
  [StreamDeliver (mkQueryEvent (mkVerifiedEvent event_a) (EventSources.fips_endpoint alice) 5);
   StreamSend bob (wire (Inventory id_a 1 7 2))].
Proof. reflexivity. Qed.

Lemma stream_reach1 : stream_reach options (Some policy) None 10 ([] ++ []) s1.
Proof.
  apply (stream_reach_step _ _ _ 0 [] s0 10 (StReceive alice (str_take 9 announce) [alice; bob])); try done.
  by apply stream_reach_new.
Defined.
Lemma stream_reach2 : stream_reach options (Some policy) None 11 (([] ++ []) ++ out2) s2.
Proof.
  by apply (stream_reach_step _ _ _ 10 _ s1 11 (StReceive alice (str_drop 9 announce) [alice; bob]));
    [apply stream_reach1|..].
Defined.
Lemma stream_reach3 : stream_reach options (Some policy) None 12 ((([] ++ []) ++ out2) ++ out3) s3.
Proof.
  by apply (stream_reach_step _ _ _ 11 _ s2 12 (StReceive alice answer [alice; bob])); [apply stream_reach2|..].
Defined.

(** Two frames and an empty one, cut inside a length and inside a body. *)
Definition frames : list string := ["hello"; ""; "bye"]%string.
Definition chunk (from count : nat) : string := str_take count (str_drop from (stream_of frames)).
Definition chunks : list string := [chunk 0 2; chunk 2 10; chunk 12 2].
Lemma fragments_reassemble_witness :
  push_all 4 chunks (decoder_new 8) = (Ok ["hello"; ""]%string, mkDecoder 8 (str_take 1 (u32_to_be_bytes 3))) ∧
  ∃ taken later d, push_all 4 chunks (decoder_new 8) = (Ok taken, d) ∧
    frames = taken ++ later ∧ rd_buffer d +:+ str_drop 14 (stream_of frames) = stream_of later ∧
    (decoder_has_complete_record d = false →
      0 < decoder_remaining_capacity d ∧
      ∀ frame rest, later = frame :: rest → slen (rd_buffer d) < slen (record_of frame)).
Proof.
  split; [reflexivity|].
  apply (fragments_reassemble 4 8 frames chunks (str_drop 14 (stream_of frames)));
    [done|by repeat constructor|by repeat split; vm_compute|reflexivity].
Defined.

(** A record that is no message, read together with a frame, hides the frame's
    delivery for good: the call fails, but the mesh has taken the frame, and
    when it comes again there is nothing to deliver. *)
Lemma bad_record_loses_delivery :
  let bad := receive_bytes alice (answer +:+ record_of "?") [alice; bob] 12 s2 in
  let again := receive_bytes alice answer [alice; bob] 13 bad.2 in
  is_ok bad.1 = false ∧ again.1 = Ok [] ∧ (fst <$> map_to_list (cached_events (is_mesh bad.2))) = [id_a].
Proof. by split_and!; reflexivity. Qed.
End StreamWitness.
