(* ===== verification/FipsReputation.v ===== *)
(** * Reputation of the peers of a FIPS client

    crates/nostr-pubsub-fips/src/reputation.rs and client_reputation.rs: the
    trust projection and the publication of local ratings, run beside a client.
    The endpoint's signed ratings are an argument. *)

From S2P Require Export FipsOps ReputationProps RatingPublisher.

Record FipsPeerReputationOptions : Type := mkFipsReputationOptions {
  fro_evaluation_interval : N;
  fro_reputation : PeerReputationConfig;
  fro_publication : PeerRatingPublisherConfig;
}.
Definition fips_reputation_options_default : FipsPeerReputationOptions :=
  mkFipsReputationOptions (duration_from_mins 1) reputation_config_default publisher_config_default.

Section fips_reputation.
Context `{!Nostr, K : !KeyText _, !SocialGraphBackend, R : !RatingCrates _ _}.

Record FipsPeerReputation : Type := mkFipsReputation {
  fr_npub : string;
  fr_reputation : PeerReputation;
  fr_policies : SocialGraphPolicy;
  fr_publisher : PeerRatingPublisher;
  fr_evaluation_interval : N;
}.
Definition set_fr_reputation (v : PeerReputation) (r : FipsPeerReputation) : FipsPeerReputation :=
  mkFipsReputation (fr_npub r) v (fr_policies r) (fr_publisher r) (fr_evaluation_interval r).
Definition set_fr_publisher (v : PeerRatingPublisher) (r : FipsPeerReputation) : FipsPeerReputation :=
  mkFipsReputation (fr_npub r) (fr_reputation r) (fr_policies r) v (fr_evaluation_interval r).

(** [new_inner] at an explicit time, in seconds. *)
Definition fips_reputation_new (npub : string) (stored_events : list Event)
    (options : FipsPeerReputationOptions) (now_secs : N) : res FipsPeerReputation :=
  if decide (fro_evaluation_interval options = 0) then
    Err (Validation "FIPS peer reputation evaluation interval must be positive")
  else
    '(reputation, policies) ← reputation_new npub (fro_reputation options);
    let '(replayed, reputation) := replay_at stored_events now_secs reputation in
    _ ← replayed;
    publisher ← from_events_at (rp_root reputation) (rp_scope reputation) (fro_publication options)
                  stored_events (sat_mul u64_max now_secs 1000);
    Ok (mkFipsReputation npub reputation policies publisher (fro_evaluation_interval options)).

(** The policies as they answer now: both read the shared graph. *)
Definition fr_event_policy (r : FipsPeerReputation) : PubsubPolicy :=
  social_policy (fr_policies r) (rp_graph (fr_reputation r)).
Definition fr_peer_policy (r : FipsPeerReputation) : PeerPolicy :=
  social_select_mesh_peer (fr_policies r) (rp_graph (fr_reputation r)).

(** An operation on the reputation inside. *)
Definition on_reputation {A} (f : SE PeerReputation PubsubError A)
    : SE FipsPeerReputation PubsubError A := λ r,
  let '(a, reputation) := f (fr_reputation r) in (a, set_fr_reputation reputation r).
Definition publication_candidates (ratings : result string (list Event)) (now_ms : N)
    (r : FipsPeerReputation) : res (list Event) :=
  events ← map_err (storage_error "snapshot signed FIPS peer ratings") ratings;
  Ok (take (N.to_nat (batch_size (pp_config (fr_publisher r))))
        (filter (λ event, should_publish_event event now_ms (fr_publisher r) = true) events)).
Definition fr_record_published_event (event : Event) (now_ms : N) (r : FipsPeerReputation)
    : bool * FipsPeerReputation :=
  let '(recorded, publisher) := record_published_event event now_ms (fr_publisher r) in
  (recorded, set_fr_publisher publisher r).

(** ** The policy facade *)
Record FipsPubsubPolicy : Type := mkFipsPolicy {
  fp_reputation : FipsPeerReputation;
  fp_next_evaluation_ms : option N;
}.
Definition fips_policy_new (npub : string) (stored_events : list Event)
    (options : FipsPeerReputationOptions) (now_secs : N) : res FipsPubsubPolicy :=
  reputation ← fips_reputation_new npub stored_events options now_secs;
  Ok (mkFipsPolicy reputation None).
Definition on_policy {A} (f : SE FipsPeerReputation PubsubError A)
    : SE FipsPubsubPolicy PubsubError A := λ p,
  let '(a, r) := f (fp_reputation p) in (a, mkFipsPolicy r (fp_next_evaluation_ms p)).
Definition observe_event_at (event : Event) (now_secs : N) : SE FipsPubsubPolicy PubsubError bool :=
  on_policy (on_reputation (ingest_event_at event now_secs)).
(** [maintenance_events], with the endpoint's ratings should it ask for them. *)
Definition maintenance_events (ratings : result string (list Event)) (now_ms : N)
    : SE FipsPubsubPolicy PubsubError (list Event) :=
  _ ← on_policy (on_reputation (reputation_prune (now_ms / 1000)));
  _ ← se_modify (λ p, mkFipsPolicy
        (set_fr_publisher (publisher_prune now_ms (fr_publisher (fp_reputation p))).2
           (fp_reputation p)) (fp_next_evaluation_ms p));
  p ← se_get;
  let interval_ms := duration_ms (fr_evaluation_interval (fp_reputation p)) in
  let schedule := se_modify (λ p,
    mkFipsPolicy (fp_reputation p) (Some (u64_sat_add now_ms interval_ms))) in
  match fp_next_evaluation_ms p with
  | None => _ ← schedule; mret []
  | Some next_evaluation_ms =>
      if decide (now_ms < next_evaluation_ms) then mret []
      else _ ← schedule; se_lift (publication_candidates ratings now_ms (fp_reputation p))
  end.
Definition complete_maintenance_event (event : Event) (published : bool) (now_ms : N)
    : SE FipsPubsubPolicy PubsubError unit :=
  _ ← on_policy (on_reputation (ingest_event_at event (now_ms / 1000)));
  if published then
    se_modify (λ p, mkFipsPolicy (fr_record_published_event event now_ms (fp_reputation p)).2
                      (fp_next_evaluation_ms p))
  else mret tt.
End fips_reputation.

(** ** Beside a client *)
Section managed.
Context `{!Nostr, K : !KeyText _, !SocialGraphBackend, R : !RatingCrates _ _}.
Context `{J : !WireJson _, F : !FilterFields J, C : !FipsCore _, !HashOrder}.
Implicit Types (cfg : ClientConfig) (s : ClientInner) (p : FipsPubsubPolicy).

(** The client's configuration with the policies as they answer now. *)
Definition with_policies p cfg : ClientConfig :=
  mkClientConfig (cc_role cfg) (cc_local_npub cfg) (cc_codec cfg) (cc_options cfg)
    (cc_peer_transport cfg) (cc_excluded_peer_transports cfg)
    (Some (fr_event_policy (fp_reputation p))) (Some (fr_peer_policy (fp_reputation p)))
    (cc_unknown_peer_reserve cfg).

(** One event of the batch of [publish_ratings]; the client's panics are
    [None]. *)
Definition publish_rating cfg (event : Event) (now : N) (state : ClientInner * FipsPubsubPolicy)
    : option (res unit * (ClientInner * FipsPubsubPolicy)) :=
  let '(s, p) := state in
  match verified_try_from event with
  | Err e => Some (Err e, (s, p))
  | Ok verified =>
      '(published, s) ← client_publish (with_policies p cfg) verified
          (EventSources.fips_endpoint (cc_local_npub cfg)) s;
      let accepted := match published with Ok report => pr_accepted report | Err _ => false end in
      let '(completed, p) := complete_maintenance_event event accepted now p in
      Some (_ ← completed;
            _ ← published;
            if accepted then Ok tt
            else Err (Storage "local peer rating was rejected by pubsub policy"), (s, p))
  end.
(** The loop: it goes on after a failure, and returns the last one. *)
Fixpoint publish_ratings_loop cfg (events : list Event) (now : N) (failure : option PubsubError)
    (state : ClientInner * FipsPubsubPolicy)
    : option (res unit * (ClientInner * FipsPubsubPolicy)) :=
  match events with
  | [] => Some (match failure with None => Ok tt | Some e => Err e end, state)
  | event :: events =>
      '(outcome, state) ← publish_rating cfg event now state;
      publish_ratings_loop cfg events now
        (match outcome with Ok _ => failure | Err e => Some e end) state
  end.
Definition publish_ratings cfg (events : list Event) (now : N)
    (state : ClientInner * FipsPubsubPolicy)
    : option (res unit * (ClientInner * FipsPubsubPolicy)) :=
  publish_ratings_loop cfg (take (N.to_nat (fo_max_replay_events (cc_options cfg))) events) now None
    state.
Definition maintain_reputation cfg (ratings : result string (list Event)) (now : N)
    (state : ClientInner * FipsPubsubPolicy)
    : option (res unit * (ClientInner * FipsPubsubPolicy)) :=
  let '(events, p) := maintenance_events ratings now state.2 in
  match events with
  | Err e => Some (Err e, (state.1, p))
  | Ok events => publish_ratings cfg events now (state.1, p)
  end.

(** One turn of [run_reputation], and the counter of its failures. *)
Inductive reputation_turn : Type :=
  | TurnDelivery (event : VerifiedEvent) (now_secs : N)
  | TurnTick (ratings : result string (list Event)) (now_ms : N).
Definition run_reputation_turn cfg (turn : reputation_turn)
    (state : (ClientInner * FipsPubsubPolicy) * N)
    : option ((ClientInner * FipsPubsubPolicy) * N) :=
  let '((s, p), errors) := state in
  '(result, state) ←
    match turn with
    | TurnDelivery event now =>
        let '(observed, p) := observe_event_at (as_event event) now p in
        Some ((_ ← observed; Ok tt) : res unit, (s, p))
    | TurnTick ratings now => maintain_reputation cfg ratings now (s, p)
    end;
  Some (state, if is_err (result : res unit) then u64_wrap (errors + 1) else errors).
End managed.
