(* ===== verification/FipsInv.v ===== *)
(** * The FIPS client: its invariant

    What holds in every state of the client: deliveries hold only admitted
    events their subscription asked for, queued frames are allowed by the
    privacy role, and every structure is well formed and within its bound. The
    operations of FipsClient preserve it. *)

From S2P Require Export FipsTransport.

Section inv.
Context `{!Nostr, J : !WireJson _, F : !FilterFields J, C : !FipsCore _, !HashOrder}.
Context `{!NostrLaws _, !WireJsonLaws J}.
Context (cfg : ClientConfig).
Implicit Types (s : ClientInner) (opened : gmap string (list Filter)) (d : LocalDelivery).

(** An event that passed the signature check and the event policy. *)
Definition admitted (event : VerifiedEvent) : Prop :=
  verified (as_event event) ∧ ∃ source, event_is_admitted cfg event source = true.

(** What each role lets leave the client. *)
Definition message_ok (message : FipsPubsubWireMessage) : Prop :=
  match cc_role cfg, message with
  | Full, _ | _, WireClose _ | (Receiver _ | Discovery _), WireWant _ => True
  | role, WireReq _ filters => validate_filters role filters = Ok tt
  | Receiver _ as role, WireEvent _ event => can_export role event = true
  | Receiver _ as role, WireInv _ id kind _ _ =>
      ∃ event, admitted event ∧ event_id (as_event event) = id ∧
        Nostr.event_kind (as_event event) = kind ∧ can_export role event = true
  | Publisher, WireEvent None event => validate_envelope event = Ok tt
  | _, _ => False
  end.
(** A frame is allowed if what it decodes to is, or if it encodes a request that
    is. *)
Definition is_request (message : FipsPubsubWireMessage) : Prop :=
  match message with WireReq _ _ | WireClose _ | WireWant _ => True | _ => False end.
Definition frame_ok (frame : string) : Prop :=
  ∃ message, message_ok message ∧
    (decode_frame (cc_codec cfg) frame = Ok message ∨
     is_request message ∧ encode_frame (cc_codec cfg) message = Ok frame).
Definition command_ok (command : TransportCommand) : Prop :=
  match command with CmdSend _ frame => frame_ok frame | CmdCooldown _ => True end.

(** [opened]: the filters each subscription was last opened with. *)
Definition wanted opened (key : string) (q : QueryEvent) : Prop :=
  admitted (qe_event q) ∧
  ∃ filters, opened !! key = Some filters ∧ from_filters filters (qe_event q) = Subscribed.
Record active_ok opened (deliveries : gmap string LocalDelivery) (key : string)
    (active : ActiveSubscription) : Prop := {
  ao_opened : opened !! key = Some (as_filters active);
  ao_role : validate_filters (cc_role cfg) (as_filters active) = Ok tt;
  ao_delivery : is_Some (deliveries !! key);
}.
Record delivery_good opened (key : string) d : Prop := {
  dg_ok : ∃ accepted sent received, delivery_ok accepted sent received d;
  dg_capacity : ch_capacity (ld_channel d) = fo_max_replay_events (cc_options cfg);
  dg_maximum : ld_maximum_pending d = fo_max_replay_events (cc_options cfg);
  dg_receiver : ch_receiver (ld_channel d) = true;
  dg_wanted : ∀ q, q ∈ backlog d → wanted opened key q;
}.
Record client_ok opened s : Prop := {
  co_transport : Forall command_ok (ci_transport s);
  co_transport_bound : nlen (ci_transport s) ≤ command_capacity (cc_options cfg);
  co_replay_bound : nlen (ci_replay_queue s) ≤ replay_capacity (cc_options cfg);
  co_recent : Forall (λ c, admitted (ce_event c)) (re_entries (ci_recent_events s));
  co_recent_maximum :
    re_max_payload_events (ci_recent_events s) = fo_max_replay_events (cc_options cfg);
  co_recent_bound : nlen (re_entries (ci_recent_events s)) ≤ fo_max_replay_events (cc_options cfg);
  co_pending : pending_ok (ci_pending_wants s);
  co_pending_limits : same_limits (pending_from_options (cc_options cfg)) (ci_pending_wants s);
  co_store : store_ok (ci_peer_subscriptions s);
  co_store_limits : st_limits (ci_peer_subscriptions s) = subscription_limits (cc_options cfg);
  co_active : ∀ key active, ci_subscriptions s !! key = Some active →
    active_ok opened (ci_deliveries s) key active;
  co_active_bound :
    msize (ci_subscriptions s) ≤ usize_sat_add (fo_max_active_subscriptions (cc_options cfg)) 1;
  co_deliveries : ∀ key d, ci_deliveries s !! key = Some d → delivery_good opened key d;
  co_publications : ∀ id p, ci_publications s !! id = Some p →
    ∃ event, verified (as_event event) ∧ event_id (as_event event) = id ∧
      validate_envelope event = Ok tt;
  co_behavior : ∃ history, behavior_ok history (ci_provider_behavior s);
}.

Lemma client_new_ok : client_ok ∅ (client_new cfg).
Proof.
  split; simpl; try done.
  - unfold nlen. simpl. lia.
  - unfold nlen. simpl. lia.
  - unfold nlen. simpl. lia.
  - apply pending_new_ok.
  - apply store_new_ok.
  - unfold msize. rewrite map_size_empty. lia.
  - exists []. apply behavior_default_ok.
Qed.

(** ** Fields *)

(** Operations on the other fields keep it. *)
Lemma count_ok opened c n s : client_ok opened s → client_ok opened (count c n s).
Proof. intros []. by split. Qed.
Lemma store_counter_ok opened c n s : client_ok opened s → client_ok opened (store_counter c n s).
Proof. intros []. by split. Qed.
Lemma set_admission_ok opened v s : client_ok opened s → client_ok opened (set_ci_admission v s).
Proof. intros []. by split. Qed.
Lemma set_receipts_ok opened v s : client_ok opened s → client_ok opened (set_ci_receipts v s).
Proof. intros []. by split. Qed.
Lemma set_source_ok opened v s : client_ok opened s → client_ok opened (set_ci_replay_source v s).
Proof. intros []. by split. Qed.
Lemma set_next_id_ok opened v s : client_ok opened s → client_ok opened (set_ci_next_subscription_id v s).
Proof. intros []. by split. Qed.
Lemma set_inventories_ok opened v s :
  client_ok opened s → client_ok opened (set_ci_observed_inventories v s).
Proof. intros []. by split. Qed.
Lemma set_full_events_ok opened v s :
  client_ok opened s → client_ok opened (set_ci_observed_full_events v s).
Proof. intros []. by split. Qed.
Lemma same_limits_trans w1 w2 w3 : same_limits w1 w2 → same_limits w2 w3 → same_limits w1 w3.
Proof. intros [] []. split; etrans; eauto. Qed.
Lemma set_pending_ok opened v s :
  client_ok opened s → pending_ok v → same_limits (ci_pending_wants s) v →
  client_ok opened (set_ci_pending_wants v s).
Proof. intros [] ??. split; try done. by eapply same_limits_trans. Qed.
Lemma set_store_ok opened v s :
  client_ok opened s → store_ok v → st_limits v = st_limits (ci_peer_subscriptions s) →
  client_ok opened (set_ci_peer_subscriptions v s).
Proof. intros []. split; try done. simpl. congruence. Qed.
Lemma set_behavior_ok opened v s :
  client_ok opened s → (∃ history, behavior_ok history v) →
  client_ok opened (set_ci_provider_behavior v s).
Proof. intros []. by split. Qed.
Lemma set_publications_ok opened v s :
  client_ok opened s →
  (∀ id p, v !! id = Some p → ∃ event, verified (as_event event) ∧ event_id (as_event event) = id ∧
    validate_envelope event = Ok tt) →
  client_ok opened (set_ci_publications v s).
Proof. intros []. by split. Qed.
Lemma set_replay_queue_ok opened v s :
  client_ok opened s → nlen v ≤ replay_capacity (cc_options cfg) →
  client_ok opened (set_ci_replay_queue v s).
Proof. intros []. by split. Qed.
(** Subscriptions may go, or change their peers. *)
Lemma set_subscriptions_ok opened v s :
  client_ok opened s → msize v ≤ msize (ci_subscriptions s) →
  (∀ key active, v !! key = Some active →
    ∃ active', ci_subscriptions s !! key = Some active' ∧ as_filters active' = as_filters active) →
  client_ok opened (set_ci_subscriptions v s).
Proof.
  intros [] Hsize Hv. split; try done.
  - intros key active (active' & Hactive & Heq)%Hv. apply co_active0 in Hactive as [Ho Hr Hd].
    split; simpl; congruence.
  - simpl. lia.
Qed.

(** ** The transport queue *)
Lemma transport_send_ok opened command s :
  command_ok command → client_ok opened s → client_ok opened (transport_send cfg command s).2.
Proof.
  intros Hc Hs. unfold transport_send. destruct (ci_transport_open s); [|done]. case_decide; [|done].
  destruct Hs. split; simpl; try done.
  - apply Forall_app. split; [done|by constructor].
  - rewrite nlen_app, nlen_cons, nlen_nil. lia.
Qed.
Lemma require_Ok allowed : require allowed = Ok tt → allowed = true.
Proof. by destruct allowed. Qed.
Lemma recent_event_admitted opened id s event :
  client_ok opened s → recent_event (event_id_to_hex id) (ci_recent_events s) = Some event →
  admitted event ∧ event_id (as_event event) = id.
Proof.
  intros Hs. unfold recent_event. rewrite event_id_hex_roundtrip.
  intros (c & Hc & ->)%fmap_Some. apply find_some in Hc as [Hin Hid%bool_decide_eq_true].
  apply list_elem_of_In in Hin. split; [|done].
  by eapply Forall_forall in Hin; [|apply (co_recent _ _ Hs)].
Qed.
(** The envelope the application handed over is the one that leaves. *)
Lemma validate_envelope_same e1 e2 :
  same_body (as_event e1) (as_event e2) → validate_envelope e1 = validate_envelope e2.
Proof. intros (_ & _ & Hk & Ht & _). unfold validate_envelope, tags_named. by rewrite Hk, Ht. Qed.
Lemma validate_outbound_ok opened peer frame s :
  client_ok opened s → validate_outbound cfg peer frame s = Ok tt → frame_ok frame.
Proof.
  intros Hs. unfold validate_outbound. rewrite result_bind_Ok. intros (m & Hm & Hout).
  exists m. split; [|by left]. unfold message_ok. pose proof (decode_frame_inv _ _ _ Hm) as (_ & _ & Hv).
  destruct (cc_role cfg) as [|authors|scope|]; destruct m as [id fs|id|[id|] e|id a t|ids id k b h|id]; try done.
  - by apply require_Ok in Hout.
  - by apply require_Ok in Hout.
  - apply require_Ok in Hout. destruct (recent_event _ _) as [event|] eqn:Hev; [|done].
    apply andb_true_iff in Hout as [Hk%bool_decide_eq_true Hexp].
    destruct (recent_event_admitted _ _ _ _ Hs Hev). eauto.
  - apply require_Ok in Hout. destruct (ci_publications s !! _) as [p|] eqn:Hp; [|done].
    destruct (co_publications _ _ Hs _ _ Hp) as (envelope & Hve & Hid & Hok).
    rewrite <-Hok. apply validate_envelope_same. by apply verified_same_body.
Qed.
Lemma send_frame_ok opened peer frame s :
  client_ok opened s → client_ok opened (send_frame cfg peer frame s).2.
Proof.
  intros Hs. unfold send_frame. destruct (validate_outbound cfg peer frame s) as [[]|e] eqn:Hv; [|done].
  pose proof (transport_send_ok opened (CmdSend peer frame) s) as Hsend.
  destruct (transport_send _ _ _) as [r s']. apply Hsend; [|done]. by eapply validate_outbound_ok.
Qed.
Lemma send_close_ok opened key peers s : client_ok opened s → client_ok opened (send_close cfg key peers s).
Proof.
  intros Hs. unfold send_close. destruct (encode_frame _ _) as [frame|e] eqn:Hf; [|done].
  assert (∀ peer, command_ok (CmdSend peer frame)) as Hcmd.
  { intros peer. exists (wire_close key). split; [|by right]. unfold message_ok. by destruct (cc_role cfg). }
  revert s Hs. induction (hash_elements peers) as [|npub l IH]; intros s Hs; simpl; [done|].
  apply IH. destruct (identity_from_npub npub); [|done]. by apply transport_send_ok.
Qed.
Lemma record_provider_violation_ok opened peer v now s :
  client_ok opened s → client_ok opened (record_provider_violation cfg peer v now s).
Proof.
  intros Hs. unfold record_provider_violation.
  destruct (co_behavior _ _ Hs) as [history Hb].
  pose proof (behavior_record_ok (identity_npub peer) _ v now _ Hb) as Hb'.
  destruct (behavior_record _ _ _ _) as [[until|] b']; simpl in Hb'.
  2: { apply set_behavior_ok; eauto. }
  pose proof (transport_send_ok opened (CmdCooldown peer) (set_ci_provider_behavior b' s)) as Hsend.
  destruct (transport_send _ _ _) as [[]]; [apply count_ok|]; apply Hsend; try done;
    apply set_behavior_ok; eauto.
Qed.
Lemma peer_is_in_cooldown_ok opened npub now s :
  client_ok opened s → client_ok opened (peer_is_in_cooldown npub now s).2.
Proof.
  intros Hs. unfold peer_is_in_cooldown. destruct (co_behavior _ _ Hs) as [history Hb].
  pose proof (is_in_cooldown_ok npub _ now _ Hb) as Hb'.
  destruct (is_in_cooldown _ _ _) as [cooling b']. apply set_behavior_ok; eauto.
Qed.

(** ** Deliveries *)
Lemma set_delivery_ok opened key d s :
  client_ok opened s → is_Some (ci_deliveries s !! key) → delivery_good opened key d →
  client_ok opened (set_ci_deliveries (<[key := d]> (ci_deliveries s)) s).
Proof.
  intros [] Hkey Hd. split; try done; simpl.
  - intros k active [Ho Hr Hdel]%co_active0. split; try done. apply lookup_insert_is_Some'. by right.
  - intros k d' [[<- <-]|[_ ?]]%lookup_insert_Some; auto.
Qed.
Lemma wanted_intro opened key filters event source priority :
  admitted event → opened !! key = Some filters → from_filters filters event = Subscribed →
  wanted opened key (mkQueryEvent event source priority).
Proof. intros ???. split; [done|]. eauto. Qed.
Lemma enqueue_good opened key event d :
  delivery_good opened key d → wanted opened key event → delivery_good opened key (enqueue event d).2.
Proof.
  intros [(a & st & r & Hok) Hcap Hmax Hrecv Hw] He. pose proof (enqueue_ok _ _ _ _ event Hok) as Hq.
  pose proof (enqueue_incl event d) as Hincl.
  destruct (enqueue event d) as [taken d']. destruct Hq as ((st' & Hok') & (Hc & Hm & Hr) & _).
  split; simpl in *; [eauto|congruence..|]. intros q [->|?]%Hincl; auto.
Qed.
Lemma close_good opened key d :
  delivery_good opened key d → delivery_good opened key (delivery_close d).
Proof.
  intros [(a & st & r & Hok) Hcap Hmax Hrecv Hw].
  destruct (delivery_close_bounds d) as (Hc & Hm & Hr).
  split; [|congruence..|by rewrite delivery_close_backlog].
  do 3 eexists. by apply delivery_close_ok.
Qed.
Lemma on_delivery_ok {A} opened key (f : LocalDelivery → A * LocalDelivery) absent s :
  client_ok opened s → (∀ d, delivery_good opened key d → delivery_good opened key (f d).2) →
  client_ok opened (on_delivery key f absent s).2.
Proof.
  intros Hs Hf. unfold on_delivery. destruct (ci_deliveries s !! key) as [d|] eqn:Hd; [|done].
  pose proof (Hf d (co_deliveries _ _ Hs _ _ Hd)) as Hd'. destruct (f d) as [a d'].
  by apply set_delivery_ok.
Qed.
Lemma deliver_local_ok opened key filters event source s :
  client_ok opened s → admitted event → opened !! key = Some filters →
  from_filters filters event = Subscribed →
  client_ok opened (deliver_local key event source s).2.
Proof.
  intros Hs ???. apply on_delivery_ok; [done|]. intros d Hd. apply enqueue_good; [done|].
  by eapply wanted_intro.
Qed.
Lemma deliver_local_subscriptions key event source s :
  ci_subscriptions (deliver_local key event source s).2 = ci_subscriptions s.
Proof.
  unfold deliver_local, on_delivery. destruct (ci_deliveries s !! key); [|done].
  by destruct (enqueue _ _).
Qed.
Lemma interested_true active event :
  interested active event = true → from_filters (as_filters active) event = Subscribed.
Proof. apply bool_decide_eq_true. Qed.

(** ** Subscriptions *)
Lemma set_pending_shape opened v s :
  client_ok opened s → keeps_shape (ci_pending_wants s) v →
  client_ok opened (set_ci_pending_wants v s).
Proof. intros Hs []. by apply set_pending_ok. Qed.
Lemma close_subscription_ok opened key s :
  client_ok opened s → client_ok opened (close_subscription cfg key s).
Proof.
  intros Hs. unfold close_subscription. destruct (ci_subscriptions s !! key) as [active|]; [|done].
  apply send_close_ok, set_inventories_ok, set_pending_shape; [|apply remove_subscription_shape].
  - apply on_delivery_ok; [|intros; by apply close_good].
    apply set_subscriptions_ok; [done|apply msize_delete_le|].
    intros k a [_ ?]%lookup_delete_Some. eauto.
  - unfold on_delivery. by destruct (ci_deliveries _ !! _); apply (co_pending _ _ Hs).
Qed.
Lemma close_lagged_ok opened keys s : client_ok opened s → client_ok opened (close_lagged cfg keys s).
Proof.
  unfold close_lagged. revert s. induction keys as [|key keys IH]; intros s Hs; simpl; [done|].
  by apply IH, close_subscription_ok.
Qed.
Lemma deliver_local_event_ok opened source event s :
  client_ok opened s → admitted event →
  client_ok opened (deliver_local_event cfg source event s).2.
Proof.
  intros Hs He. unfold deliver_local_event.
  assert (∀ l b k s', client_ok opened s' →
    (∀ key active, (key, active) ∈ l → opened !! key = Some (as_filters active)) →
    client_ok opened (foldl (deliver_step source event) (b, k, s') l).2) as Hfold.
  { induction l as [|[key active] l IH]; intros b k s' Hs' Hl; [done|]. cbn [foldl].
    assert (∀ key active, (key, active) ∈ l → opened !! key = Some (as_filters active)) as Hl'
      by (intros; apply Hl; by right).
    destruct (deliver_step source event (b, k, s') (key, active)) as [[b' k'] s''] eqn:Hstep.
    apply IH; [|done]. revert Hstep. unfold deliver_step. case_decide as Hcase; [by intros [= <- <- <-]|].
    pose proof (deliver_local_ok opened key (as_filters active) event
      (EventSources.fips_endpoint source) s' Hs' He (Hl key active ltac:(left))) as Hd.
    destruct (deliver_local _ _ _ _) as [taken s1]. intros [= <- <- <-]. apply Hd.
    apply interested_true. destruct (interested active event); [done|]. destruct Hcase. by auto. }
  specialize (Hfold (hash_iter (ci_subscriptions s)) false [] s Hs).
  destruct (foldl _ _ _) as [[any lagged] s']. apply close_lagged_ok, Hfold.
  intros key active Hin. rewrite hash_iter_perm, elem_of_map_to_list in Hin.
  by apply (co_active _ _ Hs) in Hin as [].
Qed.
Lemma set_recent_ok opened event source hop_limit r s :
  client_ok opened s → admitted event →
  entries_grow event source hop_limit (ci_recent_events s) r →
  client_ok opened (set_ci_recent_events r s).
Proof.
  intros [] He (Hmax & Hgrow & Hlen). split; try done; simpl.
  - rewrite Forall_forall in co_recent0 |- *. intros c [Hc| ->]%Hgrow; [by apply co_recent0|done].
  - by rewrite Hmax.
  - rewrite co_recent_maximum0 in Hlen. auto.
Qed.
Lemma remember_event_ok opened event source hop_limit s :
  client_ok opened s → admitted event →
  client_ok opened (remember_event event source hop_limit s).2.
Proof.
  intros Hs He. unfold remember_event.
  pose proof (recent_insert_grow event source hop_limit (ci_recent_events s)) as Hg.
  destruct (recent_insert _ _ _ _) as [fresh r]. by eapply set_recent_ok.
Qed.
Lemma publish_event_ok opened event source hop_limit s :
  client_ok opened s → admitted event →
  client_ok opened (publish_event event source hop_limit s).2.
Proof.
  intros Hs He. unfold publish_event.
  pose proof (insert_for_publish_grow event source hop_limit (ci_recent_events s)) as Hg.
  destruct (insert_for_publish _ _ _ _) as [fresh r]. by eapply set_recent_ok.
Qed.
Lemma replay_local_events_ok opened key s :
  client_ok opened s → client_ok opened (replay_local_events cfg key s).
Proof.
  intros Hs. unfold replay_local_events. destruct (ci_subscriptions s !! key) as [active|] eqn:Hk; [|done].
  apply (co_active _ _ Hs) in Hk as [Hopened _ _].
  set (s' := foldl _ s _). assert (client_ok opened s') as Hs'.
  2: { destruct (is_lagged key s'); [by apply close_subscription_ok|done]. }
  subst s'. pose proof (co_recent _ _ Hs) as Hl. revert Hl.
  generalize (re_entries (ci_recent_events s)). intros l Hl. revert s Hs.
  induction Hl as [|c l Hc Hl IH]; intros s Hs; [done|]. cbn [foldl]. apply IH.
  unfold replay_step. destruct (interested active (ce_event c)) eqn:Hi; [|done].
  eapply deliver_local_ok; [done..|]. by apply interested_true.
Qed.

(** ** Announcing *)
Lemma inventory_frame_ok opened ids event hop_limit s :
  client_ok opened s → admitted event →
  client_ok opened (inventory_frame cfg ids event hop_limit s).2.
Proof.
  intros Hs He. unfold inventory_frame. destruct (can_export _ _); [|done]. simpl.
  destruct (cc_role cfg); try done. by apply publish_event_ok.
Qed.
Lemma send_inventories_ok opened targets event hop_limit s :
  client_ok opened s → admitted event →
  client_ok opened (send_inventories cfg targets event hop_limit s).2.
Proof.
  revert s. induction targets as [|[npub ids] targets IH]; intros s Hs He; simpl; [done|].
  case_decide; [done|]. destruct (identity_from_npub npub) as [peer|e]; [|by apply IH].
  pose proof (inventory_frame_ok opened ids event hop_limit s Hs He) as Hframe.
  unfold mbind, se_bind. destruct (inventory_frame cfg ids event hop_limit s) as [[frame|e] s1];
    simpl in Hframe; [|by apply IH].
  pose proof (send_frame_ok opened peer frame s1 Hframe) as Hsend.
  destruct (send_frame cfg peer frame s1) as [[u|e] s2]; simpl in Hsend; [|by apply IH].
  specialize (IH s2 Hsend He). by destruct (send_inventories _ _ _ _ _).
Qed.
(** The choice of targets never panics. *)
Lemma peer_delivery_targets_Some event excluded s :
  ∃ targets, peer_delivery_targets cfg event excluded s = Some targets.
Proof.
  unfold peer_delivery_targets. destruct (cc_peer_policy cfg) as [policy|]; [|eauto].
  match goal with |- context [select_policy_peers ?p ?i ?c ?r ?l] =>
    pose proof (select_policy_peers_ok p i c r l) as Hsel;
    destruct (select_policy_peers p i c r l) as [[selected|e]|] end; [eauto..|done].
Qed.
End inv.
