(* ===== verification/FipsSafety.v ===== *)
(** * The FIPS client: every operation keeps the invariant

    The handlers of FipsHandlers, the calls of FipsOps and the turns of
    FipsTransport never panic and preserve [client_ok]. *)

From S2P Require Export FipsInv.

Section safety.
Context `{!Nostr, J : !WireJson _, F : !FilterFields J, C : !FipsCore _, !HashOrder}.
Context `{!NostrLaws _, !WireJsonLaws J, !FilterFieldsLaws F}.
Context (cfg : ClientConfig).
Implicit Types (s : ClientInner) (opened : gmap string (list Filter)) (d : Driver) (t : Turn).
Notation client_ok := (client_ok cfg).
Notation admitted := (admitted cfg).

(** The operation returns, in a state that satisfies the invariant. *)
Definition safe opened (r : option ClientInner) : Prop :=
  match r with Some s => client_ok opened s | None => False end.

Lemma event_is_admitted_ok event source :
  verified (as_event event) → event_is_admitted cfg event source = true → admitted event.
Proof. intros ??. split; [done|]. eauto. Qed.

(** ** Requests of peers *)
Lemma queue_replay_ok opened peer query s :
  client_ok opened s → client_ok opened (queue_replay cfg peer query s).2.
Proof.
  intros Hs. unfold queue_replay. case_decide; [done|].
  destruct (ci_replay_source s); [|done]. case_decide; [|done].
  apply set_replay_queue_ok; [done|]. rewrite nlen_app, nlen_cons, nlen_nil. lia.
Qed.
Lemma announce_cached_ok opened peer id cached s :
  client_ok opened s → Forall (λ c, admitted (ce_event c)) cached →
  client_ok opened (announce_cached cfg peer id cached s).2.
Proof.
  intros Hs Hc. revert s Hs. induction Hc as [|c cached Hc Hcached IH]; intros s Hs; [done|].
  cbn [announce_cached].
  pose proof (inventory_frame_ok cfg opened [id] (ce_event c) (ce_hop_limit c) s Hs Hc) as Hf.
  destruct (inventory_frame _ _ _ _ _) as [[frame|e] s1]; [|by apply IH].
  specialize (IH (send_frame_ignored cfg peer frame s1) (send_frame_ok cfg opened peer frame s1 Hf)).
  by destruct (announce_cached _ _ _ _ _).
Qed.
Lemma handle_req_safe opened peer id filters s :
  client_ok opened s → safe opened (handle_req cfg peer id filters s).
Proof.
  intros Hs. unfold handle_req, remember_peer_subscription, upsert_filters.
  destruct (store_upsert_spec (identity_npub peer) (mkPeerSubscription id filters)
    (ci_peer_subscriptions s) (co_store _ _ _ Hs)) as (r & store & -> & _ & [Hlim Hstore _ _]). simpl.
  pose proof (set_store_ok cfg opened store s Hs Hstore Hlim) as Hs1.
  destruct r as [u|e]; simpl; [|done].
  match goal with |- context [announce_cached cfg peer id ?l ?s1] =>
    pose proof (announce_cached_ok opened peer id l s1 Hs1) as Hann end.
  destruct (announce_cached _ _ _ _ _) as [excluded s2]. simpl.
  assert (client_ok opened s2) as Hs2.
  { apply Hann, Forall_take, Forall_forall. unfold recent_matching.
    intros c (_ & [_ Hc]%list_elem_of_filter)%list_elem_of_filter.
    pose proof (co_recent _ _ _ Hs1) as Hall. rewrite Forall_forall in Hall. by apply Hall. }
  case_decide; [by apply queue_replay_ok|done].
Qed.
Lemma handle_close_safe opened peer id s :
  client_ok opened s → safe opened (handle_close peer id s).
Proof.
  intros Hs. unfold handle_close.
  destruct (store_remove_spec peer id (ci_peer_subscriptions s) (co_store _ _ _ Hs))
    as (r & store & -> & [Hlim Hstore _ _]).
  by apply set_store_ok.
Qed.
Lemma handle_want_ok opened peer id s :
  client_ok opened s → client_ok opened (handle_want cfg peer id s).
Proof.
  intros Hs. unfold handle_want. destruct (event_for_want _ _ _) as [[sub event]|];
    [|by apply queue_replay_ok].
  destruct (encode_frame _ _); [|done]. by apply send_frame_ok.
Qed.

(** ** Inventories *)
Lemma inventory_request_ok max source ids kind bytes hops now :
  ids ≠ [] → entry_ok max (inventory_request source ids kind bytes hops now).
Proof.
  intros Hids. split; simpl; [apply NoDup_singleton|unfold nlen; simpl; lia|unfold MAX_WANT_RETRIES; lia|].
  by intros q ->%list_elem_of_singleton.
Qed.
Lemma accept_inventory_ok opened source inventory now s :
  client_ok opened s → client_ok opened (accept_inventory cfg source inventory now s).2.
Proof.
  intros Hs. unfold accept_inventory. case_decide; [done|].
  destruct (observe_each _ _ _ _) as [valid observed].
  pose proof (set_inventories_ok cfg opened observed s Hs) as Hs1. case_decide as Hvalid; [done|].
  match goal with |- context [pending_insert ?k ?i ?w] =>
    pose proof (pending_insert_shape k i w (co_pending _ _ _ Hs1)
      (inventory_request_ok _ _ _ _ _ _ _ Hvalid)) as Hp;
    destruct (pending_insert k i w) as [should pending] end.
  destruct should; by apply set_pending_shape.
Qed.
Lemma fresh_step_fold opened source event ids lagged s :
  client_ok opened s → admitted event →
  client_ok opened (foldl (fresh_step source event) (lagged, s) ids).2.
Proof.
  revert lagged s. induction ids as [|id ids IH]; intros lagged s Hs He; [done|]. cbn [foldl].
  destruct (fresh_step source event (lagged, s) id) as [lagged' s'] eqn:Hstep. apply IH; [|done].
  revert Hstep. unfold fresh_step. destruct (ci_subscriptions s !! id) as [active|] eqn:Hid;
    [|by intros [= <- <-]].
  destruct (_ && _) eqn:Hcond; intros [= <- <-]; [|done].
  apply andb_true_iff in Hcond as [_ Hi]. apply (co_active _ _ _ Hs) in Hid as [Ho _ _].
  eapply deliver_local_ok; [done..|]. by apply interested_true.
Qed.
Lemma handle_inv_ok opened peer inventory now s :
  client_ok opened s → client_ok opened (handle_inv cfg peer inventory now s).
Proof.
  intros Hs. unfold handle_inv. pose proof (count_ok cfg opened inv_frames_received 1 s Hs) as Hs1.
  case_decide; [done|]. destruct (recent_event _ _) as [event|] eqn:Hev.
  - destruct (_ || _); [done|].
    pose proof (fresh_step_fold opened (identity_npub peer) event (inv_subscription_ids inventory) []
      _ Hs1) as Hfold.
    destruct (foldl _ _ _) as [lagged s2]. apply close_lagged_ok, Hfold.
    by destruct (recent_event_admitted cfg _ _ _ _ Hs1 Hev).
  - pose proof (accept_inventory_ok opened (identity_npub peer) inventory now _ Hs1) as Hacc.
    destruct (accept_inventory _ _ _ _ _) as [[[frame|]|e] s2]; simpl in Hacc; [|done..].
    pose proof (send_frame_ok cfg opened peer frame s2 Hacc) as Hsend.
    destruct (send_frame _ _ _ _) as [[u|e] s3]; [by apply count_ok|done].
Qed.

(** ** Events *)
Lemma complete_want_ok opened source id event s :
  client_ok opened s → client_ok opened (complete_want source id event s).2.
Proof.
  intros Hs. unfold complete_want. destruct (event_payload_bytes event) as [bytes|e]; [|done].
  destruct (ci_subscriptions s !! id); [|done]. destruct (subscribed_from _ _ _); [|done].
  match goal with |- context [take_matching ?a ?b ?c ?d ?e ?w] =>
    pose proof (take_matching_shape a b c d e w (co_pending _ _ _ Hs)) as Hp;
    destruct (take_matching a b c d e w) as [pending wants] end.
  by apply set_pending_shape.
Qed.
Lemma announce_safe opened event excluded hop_limit s :
  client_ok opened s → admitted event → safe opened (announce cfg event excluded hop_limit s).
Proof.
  intros Hs He. unfold announce.
  destruct (peer_delivery_targets_Some cfg event excluded s) as [targets ->].
  by apply send_inventories_ok.
Qed.
Lemma handle_event_safe opened source id event s :
  client_ok opened s → admitted event → safe opened (handle_event cfg source id event s).
Proof.
  intros Hs He. unfold handle_event.
  assert (∃ hops s1, match id with
    | Some id =>
        let '(r, s) := complete_want source id event s in
        (answered_hop_limit r, count subscription_events_received 1 s)
    | None => (fo_max_hops (cc_options cfg), s)
    end = (hops, s1) ∧ client_ok opened s1) as (hops & s1 & -> & Hs1).
  { destruct id as [id|]; [|eauto].
    pose proof (complete_want_ok opened source id event s Hs) as Hc.
    destruct (complete_want _ _ _ _) as [r s1]. eexists _, _. split; [done|]. by apply count_ok. }
  pose proof (deliver_local_event_ok cfg opened source event s1 Hs1 He) as Hd.
  destruct (deliver_local_event _ _ _ _) as [[] s2]; [|done]. simpl in Hd.
  pose proof (remember_event_ok cfg opened event (EventSources.fips_endpoint source) hops s2 Hd He) as Hr.
  destruct (remember_event _ _ _ _) as [fresh s3]. destruct (_ && _); [|done].
  by apply announce_safe.
Qed.
Lemma accept_publication_safe opened peer event s :
  client_ok opened s → verified (as_event event) → safe opened (accept_publication cfg peer event s).
Proof.
  intros Hs Hv. unfold accept_publication.
  set (source := EventSources.fips_endpoint (identity_npub peer)).
  set (accepted := event_is_admitted cfg event source).
  match goal with |- context [mbind _ ?first] => assert (safe opened first) as Hfirst end.
  { subst accepted. destruct (event_is_admitted cfg event source) eqn:Hadm; [|done].
    assert (admitted event) as He by by eapply event_is_admitted_ok.
    pose proof (deliver_local_event_ok cfg opened (identity_npub peer) event s Hs He) as Hd.
    destruct (deliver_local_event _ _ _ _) as [any s1]. simpl in *.
    pose proof (remember_event_ok cfg opened event source (fo_max_hops (cc_options cfg)) s1 Hd He) as Hr.
    destruct (remember_event _ _ _ _) as [[] s2]; [|done].
    destruct (peer_delivery_targets_Some cfg event (Some (identity_npub peer)) s2) as [[targets|e] ->];
      [by apply send_inventories_ok|done]. }
  match goal with |- context [mbind _ ?first] => destruct first as [s1|]; [|done] end. simpl.
  destruct (encode_frame _ _); [by apply send_frame_ok|done].
Qed.
Lemma handle_received_event_safe opened peer id event now s :
  client_ok opened s → verified (as_event event) →
  safe opened (handle_received_event cfg peer id event now s).
Proof.
  intros Hs Hv. unfold handle_received_event.
  pose proof (count_ok cfg opened event_frames_received 1 s Hs) as Hs1.
  destruct (_ && _); [by apply accept_publication_safe|].
  destruct (observe_response _ _ _ _ _ _) as [observation observed].
  pose proof (set_full_events_ok cfg opened observed _ Hs1) as Hs2.
  destruct (negb (event_matches_subscription _ _ _ _)).
  { simpl. destruct (ob_previously_matched observation); [done|]. by apply record_provider_violation_ok. }
  destruct (negb (ob_first observation)); [done|].
  destruct (event_is_admitted _ _ _) eqn:Hadm; [|done].
  apply handle_event_safe; [done|]. by eapply event_is_admitted_ok.
Qed.
Lemma handle_publication_receipt_ok opened peer id accepted message s :
  client_ok opened s → client_ok opened (handle_publication_receipt peer id accepted message s).
Proof.
  intros Hs. unfold handle_publication_receipt. destruct (ci_publications s !! id) as [p|] eqn:Hp; [|done].
  pose proof (co_publications _ _ _ Hs) as Hall. case_decide; [done|]. destruct (_ || _).
  - assert (∀ s1, client_ok opened s1 → ci_publications s1 = ci_publications s →
      client_ok opened (set_ci_publications (delete id (ci_publications s1)) s1)) as Hdel.
    { intros s1 Hs1 Heq. apply set_publications_ok; [done|]. rewrite Heq.
      intros id' p' [_ ?]%lookup_delete_Some. eauto. }
    destruct (pp_reply p); apply Hdel; try done. by apply set_receipts_ok.
  - apply set_publications_ok; [done|]. intros id' p' [[<- <-]|[_ ?]]%lookup_insert_Some; eauto.
Qed.
Lemma handle_frame_safe opened peer frame now s :
  client_ok opened s → safe opened (handle_frame cfg peer frame now s).
Proof.
  intros Hs. unfold handle_frame. destruct (decode_frame (cc_codec cfg) frame) as [m|e] eqn:Hm.
  2: { by apply record_provider_violation_ok. }
  apply decode_frame_inv in Hm as (_ & _ & Hv).
  destruct m as [id fs|id|id e|id a x|ids id k b h|id]; simpl in Hv.
  - by apply handle_req_safe, count_ok.
  - by apply handle_close_safe, count_ok.
  - by apply handle_received_event_safe.
  - by apply handle_publication_receipt_ok.
  - by apply handle_inv_ok.
  - by apply handle_want_ok, count_ok.
Qed.

(** ** Publishing *)
Lemma client_publish_ok opened event source s :
  client_ok opened s → verified (as_event event) →
  ∃ r s', client_publish cfg event source s = Some (r, s') ∧ client_ok opened s'.
Proof.
  intros Hs Hv. unfold client_publish.
  match goal with |- context [match ?r with Ok _ => _ | Err _ => _ end] =>
    destruct r as [decision|e] eqn:Hdec end; [|eauto].
  apply result_bind_Ok in Hdec as (_ & _ & Hdec). apply result_bind_Ok in Hdec as (_ & _ & Hdec).
  destruct (report_parts decision) as [[accepted priority] reason] eqn:Hparts.
  destruct accepted; simpl; [|eauto].
  assert (admitted event) as He.
  { apply (event_is_admitted_ok event source); [done|]. unfold event_is_admitted. rewrite Hdec.
    by destruct decision. }
  destruct (peer_delivery_targets_Some cfg event None s) as [[targets|e] ->]; [|eauto].
  pose proof (publish_event_ok cfg opened event source (fo_max_hops (cc_options cfg)) s Hs He) as Hp.
  destruct (publish_event _ _ _ _) as [[] s1]; simpl; [|eauto].
  destruct (bool_decide (targets = [])); simpl; [eauto|].
  pose proof (send_inventories_ok cfg opened targets event (fo_max_hops (cc_options cfg)) s1 Hp He) as Hsend.
  destruct (send_inventories _ _ _ _ _) as [sent s2]. eauto.
Qed.
Lemma send_all_ok opened frame peers s :
  client_ok opened s → client_ok opened (send_all cfg frame peers s).2.
Proof.
  revert s. induction peers as [|peer peers IH]; intros s Hs; [done|]. cbn [send_all].
  unfold mbind, se_bind. pose proof (send_frame_ok cfg opened (cp_identity peer) frame s Hs) as Hsend.
  destruct (send_frame _ _ _ _) as [[u|e] s1]; [by apply IH|done].
Qed.
Lemma publish_once_ok opened event timeout peers s :
  client_ok opened s → verified (as_event event) →
  client_ok opened (publish_once cfg event timeout peers s).2.
Proof.
  intros Hs Hv. unfold publish_once.
  match goal with |- context [match ?r with Ok _ => _ | Err _ => _ end] =>
    destruct r as [l|e] eqn:Hok end; [|done].
  apply result_bind_Ok in Hok as ([] & Henv & _).
  assert (client_ok opened (set_ci_publications (<[event_id (as_event event) :=
    mkPublication (list_to_set (cp_npub <$> l)) true]> (ci_publications s)) s)) as Hs1.
  { apply set_publications_ok; [done|]. intros id p [[<- <-]|[_ ?]]%lookup_insert_Some; [by eauto|].
    by eapply (co_publications _ _ _ Hs). }
  destruct (encode_frame _ _); [by apply send_all_ok|done].
Qed.

(** ** Retries and stored history *)
Definition is_want (frame : string) : Prop :=
  ∃ id, encode_frame (cc_codec cfg) (wire_want id) = Ok frame.
Lemma retry_pending_frames_ok opened now s :
  client_ok opened s →
  let '(frames, s') := retry_pending_frames cfg now s in
  client_ok opened s' ∧ Forall (λ pf, is_want pf.2) frames.
Proof.
  intros Hs. unfold retry_pending_frames.
  destruct (retry_due_shape now (as_millis (fo_query_timeout (cc_options cfg))) _ (co_pending _ _ _ Hs))
    as [Hshape _].
  destruct (retry_due _ _ _) as [due wants]. split.
  - pose proof (count_ok cfg opened expired_wants (rb_expired_event_count due) _
      (set_pending_shape cfg opened wants s Hs Hshape)) as Hs1. revert Hs1.
    generalize (count expired_wants (rb_expired_event_count due) (set_ci_pending_wants wants s)).
    induction (rb_expired_providers due) as [|p l IH]; intros s1 Hs1; [done|]. cbn [foldl]. apply IH.
    unfold blame_step. destruct (identity_from_npub _); [by apply record_provider_violation_ok|done].
  - apply Forall_forall. intros [peer frame] ([id q] & _ & Hf)%list_elem_of_omap. revert Hf.
    unfold retry_frame. simpl. destruct (identity_from_npub (ip_peer_npub q)), (event_id_from_hex id) as [i|]; try done.
    destruct (encode_frame _ _) eqn:He; [|done]. intros [= <- <-]. by exists i.
Qed.
Lemma serve_event_ok opened request e s :
  client_ok opened s → verified (as_event e.1) → client_ok opened (serve_event cfg request e s).2.
Proof.
  intros Hs Hv. destruct e as [event source]. unfold serve_event.
  destruct (event_is_admitted _ _ _) eqn:Hadm; [|done]. cbn [negb].
  destruct (is_err _); [done|]. case_decide; [done|].
  assert (admitted event) as He by by eapply event_is_admitted_ok.
  destruct (rr_query request) as [id fs excluded limit|id].
  - destruct (existsb _ _); [|done].
    pose proof (inventory_frame_ok cfg opened [id] event (fo_max_hops (cc_options cfg)) s Hs He) as Hf.
    destruct (inventory_frame _ _ _ _ _) as [[frame|err] s1]; [|done]. by apply send_frame_ok.
  - destruct (matching_subscriptions _ _ _); [done|]. case_decide; [done|].
    destruct (encode_frame _ _); [by apply send_frame_ok|done].
Qed.
Lemma serve_events_ok opened request events s :
  client_ok opened s → Forall (λ e, verified (as_event e.1)) events →
  client_ok opened (serve_events cfg request events s).
Proof.
  intros Hs Hev. revert s Hs. induction Hev as [|e events He Hev IH]; intros s Hs; [done|].
  cbn [serve_events]. pose proof (serve_event_ok opened request e s Hs He) as Hs1.
  destruct (serve_event _ _ _ _) as [[] s1]; [by apply IH|done].
Qed.
Lemma bounded_events_incl report filters query limit e :
  e ∈ bounded_events report filters query limit → ∃ q, q ∈ report ∧ qe_event q = e.1.
Proof.
  unfold bounded_events. intros Hin%elem_of_take. destruct Hin as (i & Hin & _).
  apply list_elem_of_lookup_2 in Hin.
  eapply elem_of_sublist in Hin; [|apply dedup_by_key_sublist].
  rewrite sort_by_elem in Hin. apply list_elem_of_fmap in Hin as (q & -> & [_ Hq]%list_elem_of_filter).
  apply elem_of_take in Hq as (j & Hq & _). apply list_elem_of_lookup_2 in Hq. eauto.
Qed.
Lemma serve_ok opened request report s :
  client_ok opened s → (∀ q, q ∈ report → verified (as_event (qe_event q))) →
  client_ok opened (serve cfg request report s).
Proof.
  intros Hs Hr. unfold serve. case_decide; [done|]. apply serve_events_ok; [done|].
  apply Forall_forall. intros e (q & Hq & <-)%bounded_events_incl. by apply Hr.
Qed.

(** ** Peers *)
Lemma reset_peer_epoch_ok opened npub now s :
  client_ok opened s → client_ok opened (reset_peer_epoch npub now s).
Proof.
  intros Hs. unfold reset_peer_epoch.
  apply set_pending_shape; [by apply set_full_events_ok, set_inventories_ok|].
  apply remove_pending_peer_shape, (co_pending _ _ _ Hs).
Qed.
(** Changing only who a subscription is requested from. *)
Lemma set_peers_ok opened (f : ActiveSubscription → ActiveSubscription) s :
  client_ok opened s → (∀ active, as_filters (f active) = as_filters active) →
  client_ok opened (set_ci_subscriptions (f <$> ci_subscriptions s) s).
Proof.
  intros Hs Hf. apply set_subscriptions_ok; [done|by unfold msize; rewrite map_size_fmap|].
  intros key active. rewrite lookup_fmap. intros (a & Ha & ->)%fmap_Some. eauto.
Qed.
Lemma forget_peer_state_safe opened npub now s :
  client_ok opened s → safe opened (forget_peer_state npub now s).
Proof.
  intros Hs. unfold forget_peer_state. pose proof (reset_peer_epoch_ok opened npub now s Hs) as Hs1.
  destruct (remove_peer_spec npub (ci_peer_subscriptions (reset_peer_epoch npub now s))
    (store_ok_almost _ _ (co_store _ _ _ Hs1))) as (r & store & -> & [Hlim Hstore _ _]). simpl.
  pose proof (set_store_ok cfg opened store _ Hs1 Hstore Hlim) as Hs2.
  by apply (set_peers_ok opened _ _ Hs2).
Qed.
Lemma replay_frames_for_peer_ok opened npub s :
  client_ok opened s →
  let '(frames, s') := replay_frames_for_peer cfg npub s in
  client_ok opened s' ∧ Forall (frame_ok cfg) frames.
Proof.
  intros Hs. unfold replay_frames_for_peer. split; [by apply set_peers_ok|].
  apply Forall_forall. intros frame ([key active] & Hin & Hf)%list_elem_of_omap.
  rewrite hash_iter_perm, elem_of_map_to_list in Hin. apply (co_active _ _ _ Hs) in Hin as [_ Hr _].
  simpl in *. destruct (encode_frame _ _) as [frame'|e] eqn:He; [|done]. injection Hf as <-.
  exists (wire_req key (as_filters active)). split; [|by right].
  unfold message_ok. by destruct (cc_role cfg).
Qed.

(** ** Subscribing *)
Lemma request_peers_ok opened key frame peers sent last_error s :
  client_ok opened s →
  client_ok opened (request_peers cfg key frame peers sent last_error s).2.
Proof.
  revert sent last_error s. induction peers as [|peer peers IH]; intros sent last_error s Hs; [done|].
  cbn [request_peers]. pose proof (send_frame_ok cfg opened (cp_identity peer) frame s Hs) as Hsend.
  destruct (send_frame _ _ _ _) as [[u|e] s1]; [by apply IH|]. apply IH. simpl in Hsend.
  apply set_subscriptions_ok; [done| |].
  - unfold msize. rewrite <-!(size_dom (D:=gset string)), dom_alter_L. done.
  - intros k active. destruct (decide (k = key)) as [->|Hne].
    + rewrite lookup_alter_eq. intros (a & Ha & ->)%fmap_Some. eauto.
    + rewrite lookup_alter_ne by done. eauto.
Qed.
Lemma send_close_subscriptions key peers s :
  ci_subscriptions (send_close cfg key peers s) = ci_subscriptions s.
Proof.
  unfold send_close. destruct (encode_frame _ _) as [frame|]; [|done].
  revert s. induction (hash_elements peers) as [|npub l IH]; intros s; [done|]. cbn [foldl]. rewrite IH.
  destruct (identity_from_npub npub); [|done]. unfold transport_send.
  destruct (ci_transport_open s); [|done]. by case_decide.
Qed.
Lemma close_subscription_closed key s :
  ci_subscriptions (close_subscription cfg key s) !! key = None.
Proof.
  unfold close_subscription. destruct (ci_subscriptions s !! key) eqn:Hk; [|done].
  rewrite send_close_subscriptions. simpl. unfold on_delivery.
  destruct (ci_deliveries _ !! _); apply lookup_delete_eq.
Qed.
(** Without its subscription and its delivery, nothing depends on how a key was
    opened. *)
Lemma drop_delivery_ok opened key filters s :
  client_ok (<[key := filters]> opened) s → ci_subscriptions s !! key = None →
  client_ok opened (drop_delivery key s).
Proof.
  intros [] Hnone. split; try done; simpl.
  - intros k active Hk. assert (k ≠ key) as Hne by congruence.
    destruct (co_active k active Hk) as [Ho Hr Hd]. rewrite lookup_insert_ne in Ho by done.
    split; [done|done|]. by rewrite lookup_delete_ne by done.
  - intros k d' [Hne Hd]%lookup_delete_Some. destruct (co_deliveries k d' Hd) as [? ? ? ? Hw].
    split; try done. intros q (He & fs & Hfs & Hm)%Hw. rewrite lookup_insert_ne in Hfs by done.
    split; eauto.
Qed.
Lemma drop_closed_ok opened key s :
  client_ok opened s → client_ok opened (drop_delivery key (close_subscription cfg key s)).
Proof.
  intros Hs. apply (drop_delivery_ok _ _ (default [] (opened !! key)));
    [|apply close_subscription_closed].
  destruct (opened !! key) as [fs|] eqn:Hk.
  { simpl. rewrite insert_id by done. by apply close_subscription_ok. }
  pose proof (close_subscription_ok cfg opened key s Hs) as Hclosed.
  pose proof (close_subscription_closed key s) as Hgone.
  set (s' := close_subscription cfg key s) in *. destruct Hclosed. split; try done.
  - intros k a Ha. destruct (co_active k a Ha) as [Ho ? ?]. split; try done.
    rewrite lookup_insert_ne; [done|congruence].
  - intros k d' Hd. destruct (co_deliveries k d' Hd) as [? ? ? ? Hw]. split; try done.
    intros q (He & fs & Hfs & Hm)%Hw. split; [done|]. exists fs. split; [|done].
    rewrite lookup_insert_ne; [done|congruence].
Qed.
Lemma open_ok opened key filters fresh peers s :
  client_ok opened s → validate_filters (cc_role cfg) filters = Ok tt →
  msize (ci_subscriptions s) < usize_sat_add (fo_max_active_subscriptions (cc_options cfg)) 1 →
  let maximum := fo_max_replay_events (cc_options cfg) in
  client_ok (<[key := filters]> opened)
    (set_ci_subscriptions (<[key := mkActive filters fresh peers]> (ci_subscriptions s))
      (set_ci_deliveries (<[key := delivery_new maximum maximum]> (ci_deliveries s)) s)).
Proof.
  intros [] Hrole Hroom maximum. split; try done; simpl.
  - intros k active [[<- <-]|[Hne Hk]]%lookup_insert_Some.
    + split; simpl; [apply lookup_insert_eq|done|]. by rewrite lookup_insert_eq.
    + destruct (co_active k active Hk) as [Ho Hr Hd].
      split; [by rewrite lookup_insert_ne|done|by rewrite lookup_insert_ne].
  - destruct (ci_subscriptions s !! key) eqn:Hk.
    + rewrite msize_insert_old by eauto. lia.
    + rewrite msize_insert_new by done. lia.
  - intros k d' [[<- <-]|[Hne Hd]]%lookup_insert_Some.
    + split; try done; [do 3 eexists; apply delivery_new_ok|].
      intros q Hq. by apply not_elem_of_nil in Hq.
    + destruct (co_deliveries k d' Hd) as [? ? ? ? Hw]. split; try done.
      intros q (He & fs & Hfs & Hm)%Hw. split; [done|]. exists fs. by rewrite lookup_insert_ne.
Qed.
(** The filters a subscription is kept with. *)
Definition kept_filters (filters : list Filter) : list Filter :=
  clamp_filter cfg <$> (if decide (filters = []) then [filter_new] else filters).
Lemma subscribe_ok opened filters replay_local peers s :
  client_ok opened s →
  match subscribe cfg filters replay_local peers s with
  | (Ok key, s') => client_ok (<[key := kept_filters filters]> opened) s'
  | (Err _, s') => client_ok opened s'
  end.
Proof.
  intros Hs. unfold subscribe, kept_filters. set (asked := if decide (filters = []) then _ else filters).
  match goal with |- context [match ?r with Ok _ => _ | Err _ => _ end] =>
    destruct r as [l|e] eqn:Hok end; [|done].
  apply result_bind_Ok in Hok as ([] & _ & Hok). apply result_bind_Ok in Hok as ([] & _ & Hok).
  apply result_bind_Ok in Hok as ([] & Hrole & _).
  assert (validate_filters (cc_role cfg) (clamp_filter cfg <$> asked) = Ok tt) as Hrole'.
  { rewrite validate_filters_Ok in Hrole |- *. intros f (f0 & -> & Hf0)%list_elem_of_fmap.
    unfold clamp_filter. rewrite validate_filter_limit. by apply Hrole. }
  pose proof (set_next_id_ok cfg opened (u64_wrap (ci_next_subscription_id s + 1)) s Hs) as Hs1.
  set (s1 := set_ci_next_subscription_id _ s) in *.
  destruct (encode_frame _ _) as [frame|e]; [|done]. case_decide as Hroom; [done|].
  apply N.nle_gt in Hroom. set (key := "fips-" +:+ pretty (ci_next_subscription_id s)).
  pose proof (open_ok opened key (clamp_filter cfg <$> asked) (negb replay_local)
    (list_to_set (cp_npub <$> l)) s1 Hs1 Hrole' Hroom) as Hs2. cbv zeta in Hs2.
  match goal with |- context [if replay_local then replay_local_events cfg key ?s2 else _] =>
    set (s3 := if replay_local then replay_local_events cfg key s2 else s2);
    change s2 with s2 in Hs2 end.
  assert (client_ok (<[key := clamp_filter cfg <$> asked]> opened) s3) as Hs3.
  { subst s3. destruct replay_local; [by apply replay_local_events_ok|done]. }
  pose proof (request_peers_ok _ key frame l 0 None s3 Hs3) as Hs4.
  destruct (request_peers _ _ _ _ _ _ _) as [[sent last_error] s4]. simpl in Hs4.
  destruct (_ && _); [|done]. eapply drop_delivery_ok; [|apply close_subscription_closed].
  by apply close_subscription_ok.
Qed.

(** ** Shutdown *)
Lemma close_all_ok opened s : client_ok opened s → client_ok opened (close_all cfg s).
Proof.
  intros Hs. unfold close_all. set (s0 := set_ci_replay_source None _).
  assert (client_ok opened s0) as Hs0 by by apply set_source_ok, set_admission_ok.
  set (s1 := set_ci_subscriptions ∅ s0).
  assert (client_ok opened s1) as Hs1.
  { apply set_subscriptions_ok; [done| |by intros ??; rewrite lookup_empty].
    unfold msize. rewrite map_size_empty. lia. }
  assert (client_ok opened (foldl (close_one cfg) s1 (hash_iter (ci_subscriptions s0)))) as Hs2.
  { revert Hs1. generalize s1. induction (hash_iter (ci_subscriptions s0)) as [|e l IH]; intros s' Hs'; [done|].
    cbn [foldl]. apply IH. apply send_close_ok, on_delivery_ok; [done|]. intros ?. apply close_good. }
  set (s3 := foldl _ _ _) in *.
  apply set_pending_shape; [|by apply pending_clear_shape, (co_pending _ _ _ Hs2)].
  apply set_publications_ok; [done|]. by intros ??; rewrite lookup_empty.
Qed.
End safety.
