(* ===== verification/FipsProps.v ===== *)
(** * The FIPS client: runs and theorems

    Runs of the client in any order of its steps, and what holds in all of them. *)

From S2P Require Export FipsSafety.

(** ** The FIPS client: runs and their theorems

    Everything a client can do, as steps: calls of the application, requests
    served from stored history, and turns of the transport, in any order. *)

Section steps.
Context `{!Nostr, J : !WireJson _, F : !FilterFields J, C : !FipsCore _, !HashOrder}.
Context (cfg : ClientConfig).
Implicit Types (s : ClientInner) (t : Turn).

(** What the application sees of a subscription. *)
Inductive client_note : Type :=
  | Opened (key : string) (filters : list Filter)
  | Received (key : string) (event : QueryEvent).
Inductive client_op : Type :=
  | OpSubscribe (filters : list Filter) (replay_local : bool) (peers : res (list ConnectedPeer))
  | OpReceive (key : string)
  | OpClose (key : string)
  | OpPublish (event : VerifiedEvent) (source : EventSource)
  | OpPublishOnce (event : VerifiedEvent) (timeout : N) (peers : res (list ConnectedPeer))
  | OpServe (report : list QueryEvent)
  | OpSetSource (source : option N)
  | OpTurn (d : Driver) (ready : Ready)
  | OpShutdown.

(** The application receives from a subscription it holds; closing one drops its
    delivery. *)
Definition receive_step (key : string) s : list client_note * ClientInner :=
  let '(r, s) := on_delivery key subscription_try_recv RecvEmpty s in
  (match r with RecvOk event => [Received key event] | _ => [] end, s).
Definition next_request (report : list QueryEvent) s : ClientInner :=
  match ci_replay_queue s with
  | [] => s
  | request :: rest => serve cfg request report (set_ci_replay_queue rest s)
  end.
Definition client_step (op : client_op) t : option (list client_note * Turn) :=
  let s := tu_inner t in
  match op with
  | OpSubscribe filters replay_local peers =>
      match subscribe cfg filters replay_local peers s with
      | (Ok key, s) => Some ([Opened key filters], set_inner s t)
      | (Err _, s) => Some ([], set_inner s t)
      end
  | OpReceive key => let '(notes, s) := receive_step key s in Some (notes, set_inner s t)
  | OpClose key => Some ([], set_inner (drop_delivery key (close_subscription cfg key s)) t)
  | OpPublish event source =>
      '(_, s) ← client_publish cfg event source s; Some ([], set_inner s t)
  | OpPublishOnce event timeout peers =>
      Some ([], set_inner (publish_once cfg event timeout peers s).2 t)
  | OpServe report => Some ([], set_inner (next_request report s) t)
  | OpSetSource source => Some ([], set_inner (set_replay_source source s).2 t)
  | OpTurn d ready => t ← transport_turn cfg d ready t; Some ([], t)
  | OpShutdown => Some ([], set_inner (close_all cfg s) t)
  end.
Fixpoint run_client (ops : list client_op) t : option (list client_note * Turn) :=
  match ops with
  | [] => Some ([], t)
  | op :: ops =>
      '(notes, t) ← client_step op t;
      '(rest, t) ← run_client ops t;
      Some (notes ++ rest, t)
  end.
Definition turn_new : Turn := mkTurn (client_new cfg) ∅ [].

(** The application's events were verified when they were made. *)
Definition op_ok (op : client_op) : Prop :=
  match op with
  | OpPublish event _ | OpPublishOnce event _ _ => verified (as_event event)
  | OpServe report => ∀ q, q ∈ report → verified (as_event (qe_event q))
  | _ => True
  end.
(** The filters a key was last opened with. *)
Definition opened_step (opened : gmap string (list Filter)) (n : client_note)
    : gmap string (list Filter) :=
  match n with Opened key filters => <[key := filters]> opened | Received _ _ => opened end.
Definition opened_by (notes : list client_note) : gmap string (list Filter) :=
  foldl opened_step ∅ notes.
Definition asked_filters (filters : list Filter) : list Filter :=
  if decide (filters = []) then [filter_new] else filters.

(** A frame handed to the driver. The WANT of a retry is not checked against the
    role. *)
Definition call_ok (c : DriverCall) : Prop :=
  match c with
  | QueueFrame _ frame => frame_ok cfg frame ∨ cc_role cfg = Publisher ∧ is_want cfg frame
  | _ => True
  end.
Record turn_ok (opened : gmap string (list Filter)) t : Prop := {
  to_client : client_ok cfg opened (tu_inner t);
  to_calls : Forall call_ok (tu_calls t);
}.
Definition safe_turn (opened : gmap string (list Filter)) (r : option Turn) : Prop :=
  match r with Some t => turn_ok opened t | None => False end.
End steps.

(** ** Turns are safe *)
Section turns.
Context `{!Nostr, J : !WireJson _, F : !FilterFields J, C : !FipsCore _, !HashOrder}.
Context `{!NostrLaws _, !WireJsonLaws J, !FilterFieldsLaws F}.
Context (cfg : ClientConfig) (d : Driver) (opened : gmap string (list Filter)).
Implicit Types (s : ClientInner) (t : Turn).
Notation turn_ok := (turn_ok cfg opened).
Notation safe_turn := (safe_turn cfg opened).
Notation client_ok := (client_ok cfg opened).

Lemma safe_turn_bind (r : option Turn) (f : Turn → option Turn) :
  safe_turn r → (∀ t, turn_ok t → safe_turn (f t)) → safe_turn (r ≫= f).
Proof. destruct r as [t|]; [|done]. simpl. auto. Qed.
Lemma set_inner_ok s t : turn_ok t → client_ok s → turn_ok (set_inner s t).
Proof. intros []. by split. Qed.
Lemma on_inner_ok f t : turn_ok t → (∀ s, client_ok s → client_ok (f s)) → turn_ok (on_inner f t).
Proof. intros Ht Hf. apply set_inner_ok; [done|]. by apply Hf, Ht. Qed.
Lemma try_inner_safe f t :
  turn_ok t → (∀ s, client_ok s → safe cfg opened (f s)) → safe_turn (try_inner f t).
Proof.
  intros Ht Hf. unfold try_inner. specialize (Hf _ (to_client _ _ _ Ht)).
  destruct (f (tu_inner t)) as [s|]; [|done]. by apply set_inner_ok.
Qed.
Lemma set_known_links_ok links t : turn_ok t → turn_ok (set_known_links links t).
Proof. intros []. by split. Qed.
Lemma call_turn_ok c t : turn_ok t → call_ok cfg c → turn_ok (call d c t).2.
Proof. intros [Hc Hcalls] Hok. split; [done|]. apply Forall_app. split; [done|by constructor]. Qed.
Lemma count_failure_ok ok t : turn_ok t → turn_ok (count_failure ok t).
Proof. intros Ht. destruct ok; [done|]. apply on_inner_ok; [done|]. intros. by apply count_ok. Qed.
Lemma connect_ok npub t : turn_ok t → turn_ok (connect d npub t).
Proof. intros Ht. unfold connect. apply count_failure_ok. by apply (call_turn_ok (ConnectPeer npub) t). Qed.
Lemma peer_cooling_ok npub now t : turn_ok t → turn_ok (peer_cooling npub now t).2.
Proof.
  intros Ht. unfold peer_cooling.
  pose proof (peer_is_in_cooldown_ok cfg opened npub now _ (to_client _ _ _ Ht)) as Hc.
  destruct (peer_is_in_cooldown _ _ _) as [cooling s]. by apply set_inner_ok.
Qed.
Lemma forget_state_safe npub now t : turn_ok t → safe_turn (try_inner (forget_peer_state npub now) t).
Proof. intros Ht. apply try_inner_safe; [done|]. intros s. apply forget_peer_state_safe. Qed.
Lemma forget_cooled_peer_safe peer now t : turn_ok t → safe_turn (forget_cooled_peer d peer now t).
Proof.
  intros Ht. apply safe_turn_bind; [by apply forget_state_safe, set_known_links_ok|].
  intros t1 Ht1. by apply (call_turn_ok (ForgetPeer peer)).
Qed.
Lemma replay_to_ok peer t : turn_ok t → turn_ok (replay_to cfg d peer t).
Proof.
  intros Ht. unfold replay_to.
  pose proof (replay_frames_for_peer_ok cfg opened (identity_npub peer) _ (to_client _ _ _ Ht)) as Hr.
  destruct (replay_frames_for_peer _ _ _) as [frames s]. destruct Hr as [Hs Hf].
  assert (turn_ok (set_inner s t)) as Ht1 by by apply set_inner_ok.
  revert Ht1. generalize (set_inner s t). induction Hf as [|frame frames Hframe Hf IH]; intros t1 Ht1; [done|].
  cbn [foldl]. apply IH. apply call_turn_ok; [done|]. by left.
Qed.

(** *** Reports *)
Lemma forget_all_safe i peers t : turn_ok t → safe_turn (forget_all d i peers t).
Proof.
  revert i t. induction peers as [|peer peers IH]; intros i t Ht; [done|].
  apply safe_turn_bind; [by apply forget_state_safe|auto].
Qed.
Lemma greet_safe i disconnected peers cooled t :
  turn_ok t → safe_turn (snd <$> greet cfg d i disconnected peers cooled t).
Proof.
  revert i cooled t. induction peers as [|peer peers IH]; intros i cooled t Ht; [done|].
  cbn [greet]. case_decide; [by apply IH|].
  pose proof (peer_cooling_ok (identity_npub peer) (dr_clock d i) t Ht) as Hc.
  destruct (peer_cooling _ _ _) as [[] t1]; simpl in Hc.
  - pose proof (forget_state_safe (identity_npub peer) (dr_clock d i) t1 Hc) as Hf.
    destruct (try_inner _ _) as [t2|]; [|done]. apply IH. by apply (call_turn_ok (ForgetPeer peer)).
  - apply IH. assert (turn_ok (on_inner (reset_peer_epoch (identity_npub peer) (dr_clock d i)) t1)) as Hr.
    { apply on_inner_ok; [done|]. intros s. apply reset_peer_epoch_ok. }
    destruct (dr_is_inbound d _); [done|by apply replay_to_ok].
Qed.
Lemma take_frames_safe i disconnected frames cooled t :
  turn_ok t → safe_turn (take_frames cfg d i disconnected frames cooled t).
Proof.
  revert i cooled t. induction frames as [|[peer frame] frames IH]; intros i cooled t Ht; [done|].
  cbn [take_frames]. case_decide; [by apply IH|].
  assert (turn_ok (if decide (identity_npub peer ∈ cooled) then (true, t)
    else peer_cooling (identity_npub peer) (dr_clock d i) t).2) as Hc.
  { case_decide; [done|by apply peer_cooling_ok]. }
  destruct (if decide _ then _ else _) as [[] t1]; simpl in Hc.
  - case_decide; [by apply IH|]. apply safe_turn_bind; [by apply forget_state_safe|].
    intros t2 Ht2. apply IH. by apply (call_turn_ok (ForgetPeer peer)).
  - apply safe_turn_bind; [|auto]. apply try_inner_safe; [done|]. intros s. apply handle_frame_safe.
Qed.
Lemma want_call_ok peer frame : is_want cfg frame → call_ok cfg (QueueFrame peer frame).
Proof.
  intros [id Hf]. assert (cc_role cfg = Publisher ∨ message_ok cfg (wire_want id)) as [Hr|Hm].
  { unfold message_ok. destruct (cc_role cfg); simpl; auto. }
  - right. split; [done|by exists id].
  - left. exists (wire_want id). split; [done|by right].
Qed.
Lemma process_wire_report_safe report t :
  turn_ok t → safe_turn (process_wire_report cfg d report t).
Proof.
  intros Ht. unfold process_wire_report. apply safe_turn_bind.
  { apply forget_all_safe, on_inner_ok; [done|]. intros s Hs. by repeat first [apply store_counter_ok|apply count_ok]. }
  intros t1 Ht1. pose proof (greet_safe 0 (list_to_set (identity_npub <$> wr_disconnected report))
    (wr_newly_connected report) ∅ t1 Ht1) as Hg.
  destruct (greet _ _ _ _ _ _ _) as [[cooled t2]|]; [|done]. cbn [mbind option_bind].
  apply safe_turn_bind; [by apply take_frames_safe|]. intros t3 Ht3.
  pose proof (retry_pending_frames_ok cfg opened (dr_clock d 0) _ (to_client _ _ _ Ht3)) as Hr.
  destruct (retry_pending_frames _ _ _) as [retries s]. destruct Hr as [Hs Hf].
  assert (turn_ok (set_inner s t3)) as Ht4 by by apply set_inner_ok.
  revert Ht4. generalize (set_inner s t3). simpl.
  induction Hf as [|[peer frame] retries Hw Hf IH]; intros t4 Ht4; [done|]. cbn [foldl]. apply IH.
  unfold retry_to. pose proof (call_turn_ok _ t4 Ht4 (want_call_ok peer frame Hw)) as Hc.
  destruct (call _ _ _) as [[] t5]; [|done]. apply on_inner_ok; [done|]. intros. by apply count_ok.
Qed.

(** *** Commands and links *)
Lemma next_command_ok t :
  turn_ok t → match next_command t with Some (c, t') => command_ok cfg c ∧ turn_ok t' | None => True end.
Proof.
  intros [Hc Hcalls]. unfold next_command. destruct (ci_transport (tu_inner t)) as [|c rest] eqn:Hq; [done|].
  destruct Hc. rewrite Hq in co_transport, co_transport_bound.
  apply Forall_cons in co_transport as [Hcmd Hrest]. rewrite nlen_cons in co_transport_bound.
  split; [done|]. split; [|done]. split; try done. simpl. lia.
Qed.
Lemma run_command_safe c now t : turn_ok t → command_ok cfg c → safe_turn (run_command d c now t).
Proof.
  intros Ht Hc. destruct c as [peer frame|peer]; [|by apply forget_cooled_peer_safe].
  cbn [run_command]. pose proof (peer_cooling_ok (identity_npub peer) now t Ht) as Hcool.
  destruct (peer_cooling _ _ _) as [[] t1]; [done|]. simpl in Hcool.
  pose proof (call_turn_ok (QueueFrame peer frame) t1 Hcool (or_introl Hc)) as Hcall.
  destruct (call _ _ _) as [[] t2]; [by apply connect_ok|by apply count_failure_ok].
Qed.
Lemma run_commands_safe n first t :
  turn_ok t → match first with Some c => command_ok cfg c | None => True end →
  safe_turn (run_commands d n first t).
Proof.
  revert first t. induction n as [|n IH]; intros first t Ht Hfirst; [done|]. cbn [run_commands].
  pose proof (next_command_ok t Ht) as Hnext. destruct first as [c|].
  - apply safe_turn_bind; [by apply run_command_safe|]. intros. by apply IH.
  - destruct (next_command t) as [[c t1]|]; [|done]. destruct Hnext.
    apply safe_turn_bind; [by apply run_command_safe|]. intros. by apply IH.
Qed.
Lemma finish_ready_turn_safe first written t :
  turn_ok t → match first with Some c => command_ok cfg c | None => True end →
  safe_turn (finish_ready_turn cfg d first written t).
Proof.
  intros Ht Hfirst. apply safe_turn_bind; [by apply run_commands_safe|].
  intros t1 Ht1. by apply count_failure_ok, (call_turn_ok (FlushQueues written)).
Qed.
Lemma retry_due_services_safe i due t : turn_ok t → safe_turn (retry_due_services d i due t).
Proof.
  revert i t. induction due as [|npub due IH]; intros i t Ht; [done|]. cbn [retry_due_services].
  pose proof (peer_cooling_ok npub (dr_clock d i) t Ht) as Hc.
  destruct (peer_cooling _ _ _) as [[] t1]; [|by apply IH, connect_ok].
  destruct (identity_from_npub npub); [|by apply IH, connect_ok].
  apply safe_turn_bind; [by apply forget_cooled_peer_safe|auto].
Qed.
Lemma warm_links_ok i peers t : turn_ok t → turn_ok (warm_links d i peers t).2.
Proof.
  revert i t. induction peers as [|peer peers IH]; intros i t Ht; [done|]. cbn [warm_links].
  pose proof (peer_cooling_ok (cl_npub peer) (dr_clock d i) t Ht) as Hc.
  destruct (peer_cooling _ _ _) as [cooling t1]. specialize (IH (S i) t1 Hc).
  by destruct (warm_links _ _ _ _).
Qed.
Lemma settle_selected_safe i next peers t :
  turn_ok t → safe_turn (settle_selected cfg d i next peers t).
Proof.
  revert i t. induction peers as [|peer peers IH]; intros i t Ht; [done|].
  apply safe_turn_bind; [|auto]. case_decide; [by apply replay_to_ok|by apply forget_state_safe].
Qed.
Lemma settle_changed_safe i next peers t : turn_ok t → safe_turn (settle_changed d i next peers t).
Proof.
  revert i t. induction peers as [|peer peers IH]; intros i t Ht; [done|].
  apply safe_turn_bind; [|auto].
  case_decide; [by apply (call_turn_ok (AbortPeer peer))|by apply forget_state_safe].
Qed.
Lemma connect_all_ok i peers t : turn_ok t → turn_ok (connect_all d i peers t).
Proof.
  revert i t. induction peers as [|peer peers IH]; intros i t Ht; [done|]. cbn [connect_all].
  pose proof (peer_cooling_ok (cl_npub peer) (dr_clock d i) t Ht) as Hc.
  destruct (peer_cooling _ _ _) as [[] t1]; [by apply IH|]. apply IH, connect_ok.
  destruct (_ && _); [|done]. by apply (call_turn_ok (ServiceDiscovered (cl_npub peer))).
Qed.
Lemma sync_transport_peers_safe peers t :
  turn_ok t → safe_turn (sync_transport_peers cfg d peers t).
Proof.
  intros Ht. destruct peers as [peers|e]; [|done]. cbn [sync_transport_peers].
  pose proof (warm_links_ok 0 peers t Ht) as Hw. destruct (warm_links _ _ _ _) as [warm t1].
  apply safe_turn_bind; [by apply settle_selected_safe, (call_turn_ok (SelectPeers _))|].
  intros t2 Ht2. apply safe_turn_bind; [by apply settle_changed_safe|].
  intros t3 Ht3. by apply set_known_links_ok, connect_all_ok.
Qed.
Lemma drive_safe report t : turn_ok t → safe_turn (snd <$> drive cfg d report t).
Proof.
  intros Ht. destruct report as [report|]; cbn [drive].
  - pose proof (process_wire_report_safe report t Ht) as Hp.
    by destruct (process_wire_report _ _ _ _).
  - apply on_inner_ok; [done|]. intros. by apply count_ok.
Qed.
Lemma transport_turn_safe ready t : turn_ok t → safe_turn (transport_turn cfg d ready t).
Proof.
  intros Ht. assert (∀ c, turn_ok (on_inner (count c 1) t)) as Hcount.
  { intros c. apply on_inner_ok; [done|]. intros. by apply count_ok. }
  destruct ready as [|report|peers|due|report]; cbn [transport_turn].
  - pose proof (next_command_ok t Ht) as Hn. destruct (next_command t) as [[c t1]|]; [|done].
    destruct Hn. by apply finish_ready_turn_safe.
  - match goal with |- context [drive cfg d report ?t1] =>
      assert (turn_ok t1) as Ht1 by (case_decide; [apply Hcount|done]);
      pose proof (drive_safe report t1 Ht1) as Hd; destruct (drive cfg d report t1) as [[w t2]|] end;
      [|done]. by apply finish_ready_turn_safe.
  - apply safe_turn_bind; [by apply sync_transport_peers_safe|]. intros. by apply finish_ready_turn_safe.
  - apply safe_turn_bind; [by apply retry_due_services_safe|]. intros. by apply finish_ready_turn_safe.
  - pose proof (drive_safe report _ (Hcount tcp_poll_turns)) as Hd.
    destruct (drive _ _ _ _) as [[w t2]|]; [|done]. by apply finish_ready_turn_safe.
Qed.
End turns.

(** ** The FIPS client: theorems

    What an application and a peer can rely on, over every run of a client. *)

Section props.
Context `{!Nostr, J : !WireJson _, F : !FilterFields J, C : !FipsCore _, !HashOrder}.
Context `{!NostrLaws _, !WireJsonLaws J, !FilterFieldsLaws F}.
Context (cfg : ClientConfig).
Implicit Types (s : ClientInner) (t : Turn).

Lemma from_filters_kept filters event :
  from_filters (kept_filters cfg filters) event = from_filters (asked_filters filters) event.
Proof.
  unfold from_filters, kept_filters, asked_filters, subscription_filters_match.
  set (asked := if decide _ then _ else _).
  assert (existsb (λ f, filter_match f (as_event event)) (clamp_filter cfg <$> asked)
    = existsb (λ f, filter_match f (as_event event)) asked) as Heq.
  2: { rewrite Heq. by destruct asked. }
  induction asked as [|f l IH]; [done|]. csimpl. rewrite IH. f_equal. apply filter_match_set_limit.
Qed.

(** What is known of a note, given the keys opened before it. *)
Definition note_ok (opened : gmap string (list Filter)) (n : client_note) : Prop :=
  match n with
  | Opened _ _ => True
  | Received key q => wanted cfg (kept_filters cfg <$> opened) key q
  end.
Fixpoint notes_ok (opened : gmap string (list Filter)) (notes : list client_note) : Prop :=
  match notes with
  | [] => True
  | n :: notes => note_ok opened n ∧ notes_ok (opened_step opened n) notes
  end.
Notation kept opened := (kept_filters cfg <$> opened).

Lemma notes_ok_app opened notes notes' :
  notes_ok opened (notes ++ notes') ↔
  notes_ok opened notes ∧ notes_ok (foldl opened_step opened notes) notes'.
Proof. revert opened. induction notes as [|n notes IH]; intros opened; simpl; [tauto|]. rewrite IH. tauto. Qed.
Lemma notes_ok_at opened pre key q post :
  notes_ok opened (pre ++ Received key q :: post) →
  wanted cfg (kept (foldl opened_step opened pre)) key q.
Proof. rewrite notes_ok_app. simpl. tauto. Qed.

(** *** Receiving *)
Lemma receive_good opened key d :
  delivery_good cfg opened key d →
  let '(r, d') := subscription_try_recv d in
  delivery_good cfg opened key d' ∧ ∀ q, r = RecvOk q → wanted cfg opened key q.
Proof.
  intros [(a & st & rc & Hok) Hcap Hmax Hrecv Hw]. unfold subscription_try_recv.
  pose proof (refill_ok _ _ _ _ Hok) as ((st1 & Hok1) & (Hc1 & Hm1 & Hr1) & _).
  pose proof (take_ok _ _ _ _ Hok1 ltac:(congruence)) as Htake.
  pose proof (channel_try_recv_incl (refill d)) as Hincl.
  assert (∀ q, (channel_try_recv (refill d)).1 = RecvOk q → q ∈ backlog (refill d)) as Hhead.
  { intros q. unfold channel_try_recv, backlog. destruct (ch_queue _) as [|x l]; simpl.
    - by destruct (ld_sender _).
    - intros [= <-]. left. }
  destruct (channel_try_recv (refill d)) as [r d1]. destruct Htake as (Hok2 & Hc2 & Hm2 & Hr2).
  pose proof (refill_ok _ _ _ _ Hok2) as ((st3 & Hok3) & (Hc3 & Hm3 & Hr3) & _). simpl in *.
  split; [split; [eauto|congruence..|]|].
  - intros q Hq%refill_incl%Hincl%refill_incl. by apply Hw.
  - intros q Hq%Hhead%refill_incl. by apply Hw.
Qed.
Lemma receive_step_ok opened key s :
  client_ok cfg (kept opened) s →
  let '(notes, s') := receive_step key s in
  notes_ok opened notes ∧ foldl opened_step opened notes = opened ∧ client_ok cfg (kept opened) s'.
Proof.
  intros Hs. unfold receive_step, on_delivery.
  destruct (ci_deliveries s !! key) as [d|] eqn:Hd; [|done].
  pose proof (receive_good _ _ _ (co_deliveries _ _ _ Hs _ _ Hd)) as Hr.
  destruct (subscription_try_recv d) as [r d']. destruct Hr as [Hd' Hr].
  assert (client_ok cfg (kept opened) (set_ci_deliveries (<[key := d']> (ci_deliveries s)) s)) as Hs'.
  { by apply set_delivery_ok. }
  destruct r as [q| |]; simpl; auto.
Qed.

(** *** Steps and runs *)
Lemma client_step_ok opened op t :
  turn_ok cfg (kept opened) t → op_ok op →
  ∃ notes t', client_step cfg op t = Some (notes, t') ∧ notes_ok opened notes ∧
    turn_ok cfg (kept (foldl opened_step opened notes)) t'.
Proof.
  intros Ht Hop. pose proof (to_client _ _ _ Ht) as Hs.
  assert (∀ s, client_ok cfg (kept opened) s → ∃ notes t',
    Some ([], set_inner s t) = Some (notes, t') ∧ notes_ok opened notes ∧
    turn_ok cfg (kept (foldl opened_step opened notes)) t') as Hsilent.
  { intros s Hs'. eexists _, _. split_and!; [done..|]. by apply set_inner_ok. }
  destruct op as [filters replay_local peers|key|key|event source|event timeout peers|report|source|d ready|];
    cbn [client_step].
  - pose proof (subscribe_ok cfg (kept opened) filters replay_local peers _ Hs) as Hsub.
    destruct (subscribe _ _ _ _ _) as [[key|e] s']; [|by apply Hsilent].
    eexists _, _. split_and!; [done..|]. simpl. rewrite fmap_insert. destruct Ht. by split.
  - pose proof (receive_step_ok opened key _ Hs) as Hr. destruct (receive_step _ _) as [notes s'].
    destruct Hr as (Hn & Hopened & Hs'). eexists _, _. split_and!; [done..|]. rewrite Hopened.
    by apply set_inner_ok.
  - by apply Hsilent, drop_closed_ok.
  - destruct (client_publish_ok cfg _ event source _ Hs Hop) as (r & s' & -> & Hs'). by apply Hsilent.
  - by apply Hsilent, publish_once_ok.
  - apply Hsilent. unfold next_request. destruct (ci_replay_queue (tu_inner t)) as [|request rest] eqn:Hq; [done|].
    apply serve_ok; [|done]. apply set_replay_queue_ok; [done|].
    pose proof (co_replay_bound _ _ _ Hs) as Hb. rewrite Hq, nlen_cons in Hb. lia.
  - apply Hsilent. destruct source as [source|]; simpl; [|by apply set_source_ok].
    destruct (admit_client _); [by apply set_source_ok|done].
  - pose proof (transport_turn_safe cfg d (kept opened) ready t Ht) as Hturn.
    destruct (transport_turn _ _ _ _) as [t'|]; [|done]. by eexists _, _.
  - by apply Hsilent, close_all_ok.
Qed.
Lemma run_client_ok opened ops t :
  turn_ok cfg (kept opened) t → Forall op_ok ops →
  ∃ notes t', run_client cfg ops t = Some (notes, t') ∧ notes_ok opened notes ∧
    turn_ok cfg (kept (foldl opened_step opened notes)) t'.
Proof.
  intros Ht Hops. revert opened t Ht. induction Hops as [|op ops Hop Hops IH]; intros opened t Ht; simpl.
  { by eexists _, _. }
  destruct (client_step_ok opened op t Ht Hop) as (notes & t1 & -> & Hn & Ht1). simpl.
  destruct (IH _ _ Ht1) as (rest & t2 & -> & Hr & Ht2). simpl.
  eexists _, _. split_and!; [done| |by rewrite foldl_app]. by apply notes_ok_app.
Qed.
Lemma turn_new_ok : turn_ok cfg (kept ∅) (turn_new cfg).
Proof. rewrite fmap_empty. split; [apply client_new_ok|constructor]. Qed.


(** C4. Whatever an application receives it asked for: the event passed the
    signature check and the event policy, and matches the filters its
    subscription was last opened with, however peers behave and subscriptions,
    publications and restarts interleave. *)
Theorem client_delivers_only_wanted ops notes t pre key q post :
  Forall op_ok ops → run_client cfg ops (turn_new cfg) = Some (notes, t) →
  notes = pre ++ Received key q :: post →
  verified (as_event (qe_event q)) ∧
  (∃ source, event_is_admitted cfg (qe_event q) source = true) ∧
  ∃ filters, opened_by pre !! key = Some filters ∧
    from_filters (asked_filters filters) (qe_event q) = Subscribed.
Proof.
  intros Hops Hrun ->. destruct (run_client_ok ∅ ops _ turn_new_ok Hops) as (notes & t' & Hrun' & Hn & _).
  rewrite Hrun in Hrun'. injection Hrun' as <- <-.
  apply notes_ok_at in Hn as ((Hv & Hadm) & kf & Hk & Hm). split_and!; [done|done|].
  rewrite lookup_fmap in Hk. apply fmap_Some in Hk as (filters & Hf & ->).
  exists filters. split; [done|]. by rewrite <-from_filters_kept.
Qed.

(** C5. Privacy: every frame that reaches the driver is allowed by the client's
    role: a receiver shows only public authors' public events and announces
    only events it may show, a discovery client sends requests within its
    scope, and an anonymous publisher sends only valid private envelopes. The
    one exception is the WANT of a retry, which is not checked. *)
Theorem client_frames_allowed ops notes t peer frame :
  Forall op_ok ops → run_client cfg ops (turn_new cfg) = Some (notes, t) →
  QueueFrame peer frame ∈ tu_calls t →
  frame_ok cfg frame ∨ cc_role cfg = Publisher ∧ is_want cfg frame.
Proof.
  intros Hops Hrun Hin. destruct (run_client_ok ∅ ops _ turn_new_ok Hops) as (n & t' & Hrun' & _ & [_ Hc]).
  rewrite Hrun in Hrun'. injection Hrun' as <- <-. rewrite Forall_forall in Hc. exact (Hc _ Hin).
Qed.
End props.
