(* ===== verification/FipsToy.v ===== *)
(** * A concrete FIPS client

    Instances of what the client takes as parameters, on which its theorems are
    evaluated: messages are JSON arrays whose leaves hold filters and events,
    and a peer's identity is its name. *)

From S2P Require Export FipsProps.

Module FipsToy.
#[local] Existing Instance Toy.toy_nostr.
#[local] Existing Instance Toy.toy_laws.
#[local] Existing Instance Toy.toy_event_eq_dec.
#[local] Existing Instance Toy.toy_event_countable.

#[export] Instance toy_filter_eq_dec : EqDecision Toy.toy_filter.
Proof. solve_decision. Defined.
#[export] Program Instance toy_filter_countable : Countable Toy.toy_filter :=
  inj_countable' (λ f, (Toy.tf_kind f, Toy.tf_limit f, Toy.tf_since f, Toy.tf_until f))
    (λ '(k, l, s, u), Toy.ToyFilter k l s u) _.
Next Obligation. by intros []. Qed.

(** ** Messages *)
Definition leaf (s : string) : ToyWire.toy_value := GenLeaf (inl s).
Definition num {A} `{Countable A} (x : A) : ToyWire.toy_value := GenLeaf (inr (Npos (encode x))).
Definition of_num {A} `{Countable A} (v : ToyWire.toy_value) : option A :=
  match v with GenLeaf (inr (Npos p)) => decode p | _ => None end.
Fixpoint of_nums {A} `{Countable A} (l : list ToyWire.toy_value) : option (list A) :=
  match l with
  | [] => Some []
  | v :: l => x ← of_num v; xs ← of_nums l; Some (x :: xs)
  end.
Definition print (v : ToyWire.toy_value) : string := String Toy.bit1 (Toy.bits (encode v)).
Definition client_json (m : ClientMessage) : string :=
  match m with
  | CmReq id filters => print (GenNode 0 ([leaf "REQ"; leaf id] ++ (num (A:=Toy.toy_filter) <$> filters)))
  | CmClose id => print (GenNode 0 [leaf "CLOSE"; leaf id])
  | CmEvent event => print (GenNode 0 [leaf "EVENT"; num (A:=Toy.toy_event) event])
  | CmOther => print (GenNode 0 [])
  end.
Definition client_value (v : ToyWire.toy_value) : result string ClientMessage :=
  match v with
  | GenNode _ (GenLeaf (inl "REQ"%string) :: GenLeaf (inl id) :: filters) =>
      match of_nums (A:=Toy.toy_filter) filters with Some filters => Ok (CmReq id filters) | None => Err "filter"%string end
  | GenNode _ [GenLeaf (inl "CLOSE"%string); GenLeaf (inl id)] => Ok (CmClose id)
  | GenNode _ [GenLeaf (inl "EVENT"%string); event] =>
      match of_num (A:=Toy.toy_event) event with Some event => Ok (CmEvent event) | None => Err "event"%string end
  | _ => Err "message"%string
  end.
Definition relay_json (m : RelayMessage) : string :=
  match m with
  | RmEvent id event => print (GenNode 0 [leaf "EVENT"; leaf id; num (A:=Toy.toy_event) event])
  | RmOk id status text => print (GenNode 0 [leaf "OK"; num id; num status; leaf text])
  | RmOther => print (GenNode 0 [])
  end.
Definition relay_value (v : ToyWire.toy_value) : result string RelayMessage :=
  match v with
  | GenNode _ [GenLeaf (inl "EVENT"%string); GenLeaf (inl id); event] =>
      match of_num (A:=Toy.toy_event) event with Some event => Ok (RmEvent id event) | None => Err "event"%string end
  | GenNode _ [GenLeaf (inl "OK"%string); id; status; GenLeaf (inl text)] =>
      match of_num id, of_num status with
      | Some id, Some status => Ok (RmOk id status text)
      | _, _ => Err "ok"%string
      end
  | _ => Err "message"%string
  end.
#[export] Instance toy_wire : WireJson Toy.toy_nostr := {|
  Value := ToyWire.toy_value;
  json_array l := GenNode 0 l;
  json_str s := GenLeaf (inl s);
  json_u64 n := GenLeaf (inr (n `min` u64_max));
  as_array v := match v with GenNode _ l => Some l | _ => None end;
  as_str v := match v with GenLeaf (inl s) => Some s | _ => None end;
  as_u64 v := match v with GenLeaf (inr n) => Some (n `min` u64_max) | _ => None end;
  value_to_string := print;
  value_from_slice s :=
    match s with
    | String _ s' =>
        match decode (Toy.of_bits s') with Some v => Ok v | None => Err "bad"%string end
    | _ => Err "empty"%string
    end;
  client_as_json := client_json; client_from_value := client_value;
  relay_as_json := relay_json; relay_from_value := relay_value;
  event_id_from_hex := ToyWire.toy_from_hex;
|}.
#[export] Instance toy_wire_laws : WireJsonLaws toy_wire.
Proof.
  split; simpl; try done.
  - intros n Hn. f_equal. lia.
  - intros [[s|n]|] m; [done| |done]. intros [= <-]. lia.
  - intros v. by rewrite Toy.of_bits_bits, decode_encode.
  - by intros [].
Qed.

(** ** Filters and identities *)
Definition advert_filter : Filter := Toy.ToyFilter (Some 37195) None None None.
#[export] Instance toy_fields : FilterFields toy_wire := {|
  filter_authors _ := None;
  filter_kinds f := (λ k, [k]) <$> Toy.tf_kind f;
  filter_to_value _ := Ok (GenNode 0 [] : @Value _ toy_wire);
  value_get _ _ := None;
  public_key_to_hex := pretty;
  public_key_from_hex _ := Err "no key"%string;
  default_peerfinding_filter := advert_filter;
  filter_id _ := Toy.ToyFilter None None None None;
  event_as_json := Toy.te_content;
|}.
#[export] Instance toy_fields_laws : FilterFieldsLaws toy_fields.
Proof. split; done. Qed.
#[export] Instance toy_core : FipsCore Toy.toy_nostr := {|
  PeerIdentity := string;
  identity_from_npub := Ok;
  identity_npub p := p;
  target_hash _ _ := 0;
  order_hash _ _ _ := 0;
|}.
#[export] Instance toy_core_laws : FipsCoreLaws toy_core.
Proof. by split. Qed.

(** ** A client with one peer *)
Definition bob : string := "bob".
Definition client (role : ClientRole) : ClientConfig := {|
  cc_role := role; cc_local_npub := "alice"; cc_codec := mkWireCodec 60000;
  cc_options := default_fips_options; cc_peer_transport := None;
  cc_excluded_peer_transports := ∅; cc_event_policy := None; cc_peer_policy := None;
  cc_unknown_peer_reserve := 1 |}.
(** A driver that accepts everything, at a given time. *)
Definition driver (now : N) : Driver := mkDriver (λ _, true) (λ _, false) (λ _, []) (λ _, now).
Definition report (frames : list (string * string)) : option WireTcpReport :=
  Some (mkReport frames [] [] 1 0 0 0 0).
Definition from_bob (m : FipsPubsubWireMessage) : list (string * string) := [(bob, encode_json m)].
Definition event (i : Toy.toy_id) : VerifiedEvent := mkVerifiedEvent (Toy.toy_body i).
Definition peers : res (list ConnectedPeer) := Ok [mkConnected bob bob].
Definition notes_filter : Filter := Toy.ToyFilter (Some 1) None None None.

(** Alice asks Bob for notes; he announces one, she asks for it, he sends it. *)
Definition exchange : list client_op :=
  [OpSubscribe [notes_filter] true peers;
   OpTurn (driver 1000) ReadyCommand;
   OpTurn (driver 2000) (ReadyInput (report (from_bob (WireInv ["fips-1"%string] Toy.IdA 1 5 3))));
   OpTurn (driver 3000) (ReadyInput (report (from_bob (WireEvent (Some "fips-1"%string) (event Toy.IdA)))));
   OpReceive "fips-1"].
Definition want_frame : string := encode_json (WireWant (Toy.IdA : EventId)).
Definition expected_calls : list DriverCall :=
  [QueueFrame bob (encode_json (WireReq "fips-1" [clamp_filter (client Full) notes_filter]));
   ConnectPeer bob; FlushQueues 0;
   QueueFrame bob want_frame; ConnectPeer bob; FlushQueues 0;
   FlushQueues 0].
Definition received : QueryEvent :=
  mkQueryEvent (event Toy.IdA) (EventSources.fips_endpoint bob) SOURCE_PRIORITY_FIPS_ENDPOINT.

(** A client that only publishes still subscribes to peer adverts when it
    starts; Bob announces one. *)
Definition publisher_ops : list client_op :=
  [OpSubscribe [advert_filter] true peers;
   OpTurn (driver 1000) ReadyCommand;
   OpTurn (driver 2000) (ReadyInput (report (from_bob (WireInv ["fips-1"%string] Toy.IdA 1 5 3))));
   OpTurn (driver 3000) (ReadyPoll (report []))].
End FipsToy.

Module FipsWitness.
#[local] Existing Instance Toy.toy_nostr.
#[local] Existing Instance Toy.toy_laws.
Import FipsToy.
Notation start role := (turn_new (client role)).
Definition exchange_notes : list client_note :=
  [Opened "fips-1" [notes_filter]; Received "fips-1" received].
Lemma exchange_ok : Forall op_ok exchange.
Proof. by repeat constructor. Qed.
Lemma exchange_run :
  (λ r, (r.1, tu_calls r.2)) <$> run_client (client Full) exchange (start Full)
    = Some (exchange_notes, expected_calls).
Proof. reflexivity. Qed.

Lemma client_delivers_only_wanted_witness :
  verified (as_event (qe_event received)) ∧
  (∃ source, event_is_admitted (client Full) (qe_event received) source = true) ∧
  ∃ filters, opened_by [Opened "fips-1" [notes_filter]] !! "fips-1"%string = Some filters ∧
    from_filters (asked_filters filters) (qe_event received) = Subscribed.
Proof.
  pose proof exchange_run as Hrun.
  destruct (run_client (client Full) exchange (start Full)) as [[notes t]|] eqn:Hex; [|discriminate Hrun].
  injection Hrun as Hnotes _.
  exact (client_delivers_only_wanted (client Full) exchange notes t
    [Opened "fips-1" [notes_filter]] "fips-1" received [] exchange_ok Hex Hnotes).
Defined.
Lemma client_frames_allowed_witness :
  frame_ok (client Full) want_frame ∨
  cc_role (client Full) = Publisher ∧ is_want (client Full) want_frame.
Proof.
  pose proof exchange_run as Hrun.
  destruct (run_client (client Full) exchange (start Full)) as [[notes t]|] eqn:Hex; [|discriminate Hrun].
  injection Hrun as _ Hcalls.
  apply (client_frames_allowed (client Full) exchange notes t bob _ exchange_ok Hex).
  rewrite Hcalls. do 3 right. left.
Defined.

(** A retry bypasses the role: an anonymous publisher, whose WANTs
    [validate_outbound] refuses, sends one when the request of an announced
    event is retried. *)
Theorem publisher_retry_unchecked :
  ∃ t frame, (λ r, r.2) <$> run_client (client Publisher) publisher_ops (start Publisher) = Some t ∧
    QueueFrame bob frame ∈ tu_calls t ∧
    decode_frame (cc_codec (client Publisher)) frame = Ok (WireWant Toy.IdA) ∧
    is_err (validate_outbound (client Publisher) bob frame (tu_inner t)) = true.
Proof.
  pose (r := run_client (client Publisher) publisher_ops (start Publisher)).
  assert (tu_calls <$> ((λ r, r.2) <$> r) = Some
    [QueueFrame bob (encode_json (WireReq "fips-1" [clamp_filter (client Publisher) advert_filter]));
     ConnectPeer bob; FlushQueues 0; FlushQueues 0;
     QueueFrame bob want_frame; FlushQueues 0]) as Hcalls by reflexivity.
  assert ((λ t, is_err (validate_outbound (client Publisher) bob want_frame
    (tu_inner t))) <$> ((λ r, r.2) <$> r) = Some true) as Herr by reflexivity.
  fold r. destruct ((λ r, r.2) <$> r) as [t|]; [|done].
  apply (inj Some) in Hcalls, Herr.
  exists t, want_frame. split_and!; [done| |reflexivity|done].
  rewrite Hcalls. do 4 right. left.
Qed.
End FipsWitness.
