(* ===== verification/FipsTcp.v ===== *)
(** * TCP streams over FIPS

    What the two drivers of crates/nostr-pubsub-fips (stream_tcp.rs and
    wire_tcp.rs) share: the interface of the fips_tcp_endpoint crate, the
    connections they track, the choice of one stream per peer, and the queues
    of records waiting to be written. *)

From S2P Require Export RecordStream FipsPeers.

(** ** The endpoint

    [FipsTcpEndpoint] of the fips_tcp_endpoint crate: the TCP stack over the
    authenticated datagrams of fips_core, with its clock. A value of [Tcp] is
    the endpoint together with the network behind it, so that what arrives
    while the program waits is a function of it. A connection's identifier is
    its [get()]; readings of [Instant::now] with nothing awaited in between
    agree. *)
Notation ConnectionId := N (only parsing).
Class FipsTcp {NS : Nostr} (FC : FipsCore NS) : Type := {
  Tcp : Type;
  TcpState : Type;
  tcp_state_eq_dec :: EqDecision TcpState;
  SynSent : TcpState;
  SynReceived : TcpState;
  Established : TcpState;
  CloseWait : TcpState;
  tcp_state : Tcp → ConnectionId → option TcpState;
  tcp_peer : Tcp → ConnectionId → option PeerIdentity;
  tcp_is_read_closed : Tcp → ConnectionId → bool;
  tcp_instant : Tcp → N;
  tcp_next_poll_at : Tcp → N → option N;
  tcp_backlog : Tcp → nat;
  tcp_accept : Tcp → option ConnectionId * Tcp;
  tcp_connect : PeerIdentity → N → Tcp → result string ConnectionId * Tcp;
  tcp_abort : ConnectionId → Tcp → result string unit * Tcp;
  tcp_abort_peer : PeerIdentity → Tcp → result string unit * Tcp;
  tcp_close : ConnectionId → N → Tcp → result string unit * Tcp;
  tcp_read : ConnectionId → N → N → Tcp → result string string * Tcp;
  tcp_write : ConnectionId → string → N → Tcp → result string N * Tcp;
  tcp_poll : N → Tcp → result string unit * Tcp;
  tcp_wait_for_input : Tcp → result string unit * Tcp;
  (** A batch of datagrams through the caller's filter, which may keep state:
      the datagrams consumed and the segments rejected. The second variant
      shows the filter the datagram and the instant it is asked at. *)
  tcp_receive_filtered {S : Type} :
    N → (PeerIdentity → S → bool * S) → S → Tcp → result string (N * N) * S * Tcp;
  tcp_receive_datagrams {S : Type} :
    (PeerIdentity → string → N → S → bool * S) → S → Tcp → result string (N * N) * S * Tcp;
}.
Arguments FipsTcp {_} _.

(** What the drivers rely on: a read returns no more than was asked for, a
    write accepts no more than it was given, accepting shrinks the backlog that
    aborting does not grow, and a connection is a reliable stream, whose
    accepted bytes only a write to it extends. *)
Class FipsTcpLaws {NS : Nostr} {FC : FipsCore NS} (FT : FipsTcp FC) : Type := {
  tcp_sent : Tcp → ConnectionId → string;
  tcp_read_bound id max now t bytes t' : tcp_read id max now t = (Ok bytes, t') → slen bytes ≤ max;
  tcp_write_sent id chunk now t n t' :
    tcp_write id chunk now t = (Ok n, t') → n ≤ slen chunk ∧
    tcp_sent t' id = tcp_sent t id +:+ str_take (N.to_nat n) chunk ∧
    (∀ other, other ≠ id → tcp_sent t' other = tcp_sent t other);
  tcp_write_failed id chunk now t e t' :
    tcp_write id chunk now t = (Err e, t') → ∀ other, tcp_sent t' other = tcp_sent t other;
  tcp_accept_backlog t id t' :
    tcp_accept t = (Some id, t') → (tcp_backlog t' < tcp_backlog t)%nat;
  tcp_abort_backlog id t : (tcp_backlog (tcp_abort id t).2 ≤ tcp_backlog t)%nat;
  tcp_receive_keeps {S} (P : S → Prop) accepts s t :
    (∀ peer bytes now s, P s → P (accepts peer bytes now s).2) → P s →
    P (tcp_receive_datagrams accepts s t).1.2;
}.

(** [storage_error(context, error)]. *)
Definition io_error (context error : string) : PubsubError := Storage (context +:+ ": " +:+ error).
Definition IO_CHUNK_BYTES : N := 16 * 1024.
Definition MAX_READY_INPUT_TURNS : nat := 16.

(** ** Connections *)
Inductive Direction : Set := Inbound | Outbound.
#[export] Instance Direction_eq_dec : EqDecision Direction.
Proof. solve_decision. Defined.
Record TrackedConnection : Set := mkTracked { tc_peer : string; tc_direction : Direction }.

Section connections.
Context `{NS : Nostr, FC : !FipsCore NS, FT : !FipsTcp FC, HO : !HashOrder}.
Implicit Types (t : Tcp) (connections : gmap ConnectionId TrackedConnection).

(** [matches!(state, Some(SynSent | SynReceived | Established | CloseWait))]
    and [matches!(state, Some(Established | CloseWait))]. *)
Definition state_is_live (state : option TcpState) : bool :=
  is_some_and (λ s, bool_decide (s ∈ [SynSent; SynReceived; Established; CloseWait])) state.
Definition state_is_usable (state : option TcpState) : bool :=
  is_some_and (λ s, bool_decide (s ∈ [Established; CloseWait])) state.
Definition has_peer_connection (peer_npub : string) t connections : bool :=
  existsb (λ '(id, connection), bool_decide (tc_peer connection = peer_npub)
             && state_is_live (tcp_state t id)) (hash_iter connections).
(** The distinct peers of the connections. *)
Definition connection_peers connections : gset string :=
  list_to_set (tc_peer <$> hash_values connections).

(** The established streams of every peer, in order of preference: the side
    with the smaller npub prefers the stream it opened. *)
Definition stream_candidates t connections : gmap string (list (ConnectionId * Direction)) :=
  foldl (λ candidates '(id, connection),
      if state_is_usable (tcp_state t id) then
        <[tc_peer connection :=
            default [] (candidates !! tc_peer connection) ++ [(id, tc_direction connection)]]> candidates
      else candidates) ∅ (hash_iter connections).
Definition stream_order (local_npub peer : string) (a b : ConnectionId * Direction) : comparison :=
  let prefer_outbound := bool_decide (String.compare local_npub peer = Lt) in
  let preferred (stream : ConnectionId * Direction) : bool :=
    bool_decide (bool_decide (stream.2 = Outbound) = prefer_outbound) in
  cmp_then (cmp_on (λ stream, negb (preferred stream)) bool_compare) (cmp_on fst N.compare) a b.
(** The stream selected for each peer, and the others. *)
Fixpoint choose_streams (local_npub : string) (peers : list (string * list (ConnectionId * Direction)))
    : gmap string ConnectionId * list ConnectionId :=
  match peers with
  | [] => (∅, [])
  | (peer, streams) :: peers =>
      let '(active, extras) := choose_streams local_npub peers in
      match sort_by (stream_order local_npub peer) streams with
      | (selected, _) :: rest => (<[peer := selected]> active, rest.*1 ++ extras)
      | [] => (active, extras)
      end
  end.
Definition changed_peers (active next_active : gmap string ConnectionId) : list string :=
  filter (λ peer, active !! peer ≠ next_active !! peer)
    (btree_elements (dom active ∪ dom next_active)).
End connections.

(** ** Queues of records *)
Record QueuedRecord : Set := mkQueued { qd_bytes : string; qd_offset : N }.
Record PeerQueue : Set := mkQueue { pq_records : list QueuedRecord; pq_bytes : N }.
Definition queue_default : PeerQueue := mkQueue [] 0.
Definition queue_push_back (record : string) (q : PeerQueue) : PeerQueue :=
  mkQueue (pq_records q ++ [mkQueued record 0]) (usize_sat_add (pq_bytes q) (slen record)).
(** The bytes of a record that no write has accepted. *)
Definition unsent (record : QueuedRecord) : string := str_drop (N.to_nat (qd_offset record)) (qd_bytes record).
Fixpoint pending_bytes (records : list QueuedRecord) : string :=
  match records with [] => "" | record :: records => unsent record +:+ pending_bytes records end.
