(* ===== verification/StreamTcp.v ===== *)
(** * The inventory/want TCP driver

    crates/nostr-pubsub-fips/src/stream_tcp.rs: [FipsInvWantTcpDriver] runs
    [FipsInvWantStream] over TCP streams between authenticated FIPS peers. The
    application drives it by hand: [receive] when there is input, [poll] for
    timers and pending writes. *)

From S2P Require Export FipsTcp FipsStream.

Record FipsInvWantTcpDriverOptions : Type := mkTcpDriverOptions {
  to_service_namespace : string;
  to_service_version : N;
  to_service_port : N;
  to_max_peers : N;
  to_max_queued_records_per_peer : N;
  to_max_queued_bytes_per_peer : N;
  to_max_io_bytes_per_drive : N;
}.
Definition tcp_driver_options_default : FipsInvWantTcpDriverOptions := {|
  to_service_namespace := FIPS_NOSTR_PUBSUB_INV_WANT_PROTOCOL;
  to_service_version := FIPS_NOSTR_PUBSUB_INV_WANT_VERSION;
  to_service_port := FIPS_NOSTR_PUBSUB_SERVICE_PORT;
  to_max_peers := 64;
  to_max_queued_records_per_peer := 2048;
  to_max_queued_bytes_per_peer := 16 * 1024 * 1024;
  to_max_io_bytes_per_drive := 512 * 1024;
|}.
Definition slash : Ascii.ascii := Ascii.ascii_of_N 47.
Fixpoint first_zero (l : list (string * N)) : res unit :=
  match l with
  | [] => Ok tt
  | (name, value) :: l =>
      if decide (value = 0) then Err (validation (name +:+ " must be greater than zero")) else first_zero l
  end.
Definition tcp_driver_options_validate (o : FipsInvWantTcpDriverOptions) : res unit :=
  if decide (trim_end_matches slash (trim (to_service_namespace o)) = ""%string) then
    Err (validation "service namespace must not be empty")
  else if decide (to_service_port o = 0) then Err (validation "service port must not be zero")
  else
    _ ← first_zero
      [("max_peers"%string, to_max_peers o);
       ("max_queued_records_per_peer"%string, to_max_queued_records_per_peer o);
       ("max_queued_bytes_per_peer"%string, to_max_queued_bytes_per_peer o);
       ("max_io_bytes_per_drive"%string, to_max_io_bytes_per_drive o)];
    if decide (to_max_peers o * 2 ≤ usize_max) then Ok tt
    else Err (validation "TCP connection limit overflows").
Definition capability_name (o : FipsInvWantTcpDriverOptions) : string :=
  trim_end_matches slash (trim (to_service_namespace o)) +:+ "/" +:+ pretty (to_service_version o).

Record FipsInvWantTcpQueueSnapshot : Set := mkTcpQueueSnapshot { qs_peers : N; qs_records : N; qs_bytes : N }.

Section driver.
Context `{NS : Nostr, FC : !FipsCore NS, FT : !FipsTcp FC, HO : !HashOrder}.
Context `{!EnvelopeJson, !StrDebug}.

Record FipsInvWantTcpDriveReport : Type := mkDriveReport {
  dp_fips_datagrams : N;
  dp_rejected_tcp_segments : N;
  dp_stream_bytes_read : N;
  dp_stream_bytes_written : N;
  dp_connected_peers : N;
  dp_deliveries : list QueryEvent;
}.
Definition report_default : FipsInvWantTcpDriveReport := mkDriveReport 0 0 0 0 0 [].
Definition report_read (n : N) (r : FipsInvWantTcpDriveReport) : FipsInvWantTcpDriveReport :=
  mkDriveReport (dp_fips_datagrams r) (dp_rejected_tcp_segments r)
    (usize_sat_add (dp_stream_bytes_read r) n) (dp_stream_bytes_written r) (dp_connected_peers r) (dp_deliveries r).
Definition report_written (n : N) (r : FipsInvWantTcpDriveReport) : FipsInvWantTcpDriveReport :=
  mkDriveReport (dp_fips_datagrams r) (dp_rejected_tcp_segments r) (dp_stream_bytes_read r)
    (usize_sat_add (dp_stream_bytes_written r) n) (dp_connected_peers r) (dp_deliveries r).
Definition report_connected (n : N) (r : FipsInvWantTcpDriveReport) : FipsInvWantTcpDriveReport :=
  mkDriveReport (dp_fips_datagrams r) (dp_rejected_tcp_segments r) (dp_stream_bytes_read r)
    (dp_stream_bytes_written r) n (dp_deliveries r).
Definition report_deliver (events : list QueryEvent) (r : FipsInvWantTcpDriveReport) : FipsInvWantTcpDriveReport :=
  mkDriveReport (dp_fips_datagrams r) (dp_rejected_tcp_segments r) (dp_stream_bytes_read r)
    (dp_stream_bytes_written r) (dp_connected_peers r) (dp_deliveries r ++ events).

Record FipsInvWantTcpDriver : Type := mkTcpDriver {
  td_local_npub : string;
  td_tcp : Tcp;
  td_stream : FipsInvWantStream;
  td_options : FipsInvWantTcpDriverOptions;
  td_connections : gmap ConnectionId TrackedConnection;
  td_active : gmap string ConnectionId;
  td_queues : gmap string PeerQueue;
}.
Implicit Types d : FipsInvWantTcpDriver.
Definition set_td_tcp v d : FipsInvWantTcpDriver :=
  mkTcpDriver (td_local_npub d) v (td_stream d) (td_options d) (td_connections d) (td_active d) (td_queues d).
Definition set_td_stream v d : FipsInvWantTcpDriver :=
  mkTcpDriver (td_local_npub d) (td_tcp d) v (td_options d) (td_connections d) (td_active d) (td_queues d).
Definition set_td_connections v d : FipsInvWantTcpDriver :=
  mkTcpDriver (td_local_npub d) (td_tcp d) (td_stream d) (td_options d) v (td_active d) (td_queues d).
Definition set_td_active v d : FipsInvWantTcpDriver :=
  mkTcpDriver (td_local_npub d) (td_tcp d) (td_stream d) (td_options d) (td_connections d) v (td_queues d).
Definition set_td_queues v d : FipsInvWantTcpDriver :=
  mkTcpDriver (td_local_npub d) (td_tcp d) (td_stream d) (td_options d) (td_connections d) (td_active d) v.
Notation Dr := (PSE FipsInvWantTcpDriver PubsubError).

(** A driver whose endpoint is bound. *)
Definition tcp_driver_new (local_npub : string) (tcp : Tcp) (stream : FipsInvWantStream)
    (o : FipsInvWantTcpDriverOptions) : res FipsInvWantTcpDriver :=
  _ ← tcp_driver_options_validate o;
  Ok (mkTcpDriver local_npub tcp stream o ∅ ∅ ∅).

(** A call of the endpoint with its error in context, and a call of the stream. *)
Definition on_tcp {A} (context : string) (f : Tcp → result string A * Tcp) : Dr A := λ d,
  let '(r, t) := f (td_tcp d) in Some (map_err (io_error context) r, set_td_tcp t d).
Definition on_stream {A} (f : SE FipsInvWantStream PubsubError A) : Dr A := λ d,
  let '(r, s) := f (td_stream d) in Some (r, set_td_stream s d).

(** ** Queues *)
Definition queue_full (peer resource : string) : PubsubError :=
  Storage ("TCP/FIPS pubsub queue " +:+ resource +:+ " limit reached for " +:+ peer).
Definition action_sends (actions : list FipsInvWantStreamAction) : list (string * string) :=
  omap (λ a, match a with StreamSend peer record => Some (peer, record) | StreamDeliver _ => None end) actions.
Definition action_deliveries (actions : list FipsInvWantStreamAction) : list QueryEvent :=
  omap (λ a, match a with StreamDeliver event => Some event | StreamSend _ _ => None end) actions.
(** The records and bytes to add for each peer. *)
Definition additions_of (sends : list (string * string)) : gmap string (N * N) :=
  foldl (λ additions '(peer, record),
      let addition := default (0, 0) (additions !! peer) in
      <[peer := (usize_sat_add addition.1 1, usize_sat_add addition.2 (slen record))]> additions)
    ∅ sends.
Fixpoint check_additions (o : FipsInvWantTcpDriverOptions) (queues : gmap string PeerQueue)
    (additions : list (string * (N * N))) : res unit :=
  match additions with
  | [] => Ok tt
  | (peer, (records, bytes)) :: additions =>
      let existing := queues !! peer in
      if decide (to_max_queued_records_per_peer o <
                 usize_sat_add (from_option (λ q, nlen (pq_records q)) 0 existing) records) then
        Err (queue_full peer "record count")
      else if decide (to_max_queued_bytes_per_peer o <
                      usize_sat_add (from_option pq_bytes 0 existing) bytes) then
        Err (queue_full peer "byte count")
      else check_additions o queues additions
  end.
Definition enqueue (queues : gmap string PeerQueue) (send : string * string) : gmap string PeerQueue :=
  <[send.1 := queue_push_back send.2 (default queue_default (queues !! send.1))]> queues.
(** The deliveries, once every record is queued. *)
Definition apply_actions (actions : list FipsInvWantStreamAction) : Dr (list QueryEvent) := λ d,
  let sends := action_sends actions in
  let additions := additions_of sends in
  let new_peers := ssize (dom additions ∖ dom (td_queues d)) in
  if decide (to_max_peers (td_options d) < usize_sat_add (msize (td_queues d)) new_peers) then
    Some (Err (Storage "TCP/FIPS pubsub queue peer limit reached"), d)
  else match check_additions (td_options d) (td_queues d) (btree_to_list additions) with
       | Err e => Some (Err e, d)
       | Ok _ => Some (Ok (action_deliveries actions), set_td_queues (foldl enqueue (td_queues d) sends) d)
       end.
Definition queue_snapshot d : FipsInvWantTcpQueueSnapshot :=
  foldl (λ snapshot queue,
      mkTcpQueueSnapshot (qs_peers snapshot)
        (usize_sat_add (qs_records snapshot) (nlen (pq_records queue)))
        (usize_sat_add (qs_bytes snapshot) (pq_bytes queue)))
    (mkTcpQueueSnapshot (msize (td_queues d)) 0 0) (btree_values (td_queues d)).

(** ** Connections *)
Definition ensure_peer_capacity (peer : string) d : res unit :=
  let peers := connection_peers (td_connections d) in
  if decide (peer ∉ peers ∧ to_max_peers (td_options d) ≤ ssize peers) then
    Err (Storage ("TCP/FIPS pubsub peer limit is " +:+ pretty (to_max_peers (td_options d))))
  else Ok tt.
Definition connect_peer (peer : PeerIdentity) (now_ms : N) : Dr unit :=
  d ← pse_get;
  if has_peer_connection (identity_npub peer) (td_tcp d) (td_connections d) then mret tt
  else
    _ ← pse_lift (ensure_peer_capacity (identity_npub peer) d);
    id ← on_tcp "connect TCP/FIPS pubsub peer" (tcp_connect peer now_ms);
    pse_modify (λ d, set_td_connections
      (<[id := mkTracked (identity_npub peer) Outbound]> (td_connections d)) d).
Definition driver_seed (event : VerifiedEvent) (now_ms : N) : Dr unit :=
  on_stream (stream_seed event now_ms).
Definition driver_publish (event : VerifiedEvent) (now_ms : N) : Dr FipsInvWantTcpQueueSnapshot :=
  d ← pse_get;
  actions ← on_stream (stream_publish event (btree_elements (dom (td_active d))) now_ms);
  _ ← apply_actions actions;
  d ← pse_get;
  mret (queue_snapshot d).
(** [while let Some(id) = self.tcp.accept()], with fuel for the backlog. *)
Fixpoint accept_loop (fuel : nat) : Dr unit :=
  match fuel with
  | O => mret tt
  | S fuel => λ d,
      let '(id, t) := tcp_accept (td_tcp d) in
      let d := set_td_tcp t d in
      match id with
      | None => Some (Ok tt, d)
      | Some id =>
          match tcp_peer (td_tcp d) id with
          | None => Some (Err (Storage "accepted TCP/FIPS stream has no authenticated peer"), d)
          | Some peer =>
              let peer := identity_npub peer in
              if is_err (ensure_peer_capacity peer d) then
                (_ ← on_tcp "reject excess TCP/FIPS peer" (tcp_abort id); accept_loop fuel) d
              else
                let connection := default (mkTracked peer Inbound) (td_connections d !! id) in
                accept_loop fuel (set_td_connections (<[id := connection]> (td_connections d)) d)
          end
      end
  end.
Definition accept_connections : Dr unit :=
  d ← pse_get; accept_loop (S (tcp_backlog (td_tcp d))).

(** Drop the extra streams, and the state of every peer whose stream changed. *)
Definition drop_extra (id : ConnectionId) : Dr unit :=
  _ ← on_tcp "deduplicate TCP/FIPS pubsub stream" (tcp_abort id);
  pse_modify (λ d, set_td_connections (delete id (td_connections d)) d).
Definition on_peer_connected (peer : string) (now_ms : N) : Dr (list FipsInvWantStreamAction) := λ d,
  '(r, s) ← peer_connected peer now_ms (td_stream d); Some (r, set_td_stream s d).
Fixpoint restart_peers (changed : list string) (now_ms : N) (report : FipsInvWantTcpDriveReport)
    : Dr FipsInvWantTcpDriveReport :=
  match changed with
  | [] => mret report
  | peer :: changed =>
      _ ← pse_modify (λ d, set_td_queues (delete peer (td_queues d))
            (set_td_stream (disconnect_peer peer (td_stream d)) d));
      d ← pse_get;
      if decide (is_Some (td_active d !! peer)) then
        actions ← on_peer_connected peer now_ms;
        deliveries ← apply_actions actions;
        restart_peers changed now_ms (report_deliver deliveries report)
      else restart_peers changed now_ms report
  end.
Definition retain_connections (t : Tcp) (connections : gmap ConnectionId TrackedConnection)
    : gmap ConnectionId TrackedConnection :=
  filter (λ c, is_Some (tcp_state t c.1)) connections.
Definition refresh_active (now_ms : N) (report : FipsInvWantTcpDriveReport) : Dr FipsInvWantTcpDriveReport :=
  _ ← pse_modify (λ d, set_td_connections (retain_connections (td_tcp d) (td_connections d)) d);
  d ← pse_get;
  let '(next_active, extras) :=
    choose_streams (td_local_npub d) (btree_to_list (stream_candidates (td_tcp d) (td_connections d))) in
  _ ← pse_iter drop_extra extras;
  let changed := changed_peers (td_active d) next_active in
  _ ← pse_modify (set_td_active next_active);
  restart_peers changed now_ms report.

(** ** Reading *)
Definition driver_receive_bytes (peer bytes : string) (connected : list string) (now_ms : N)
    (report : FipsInvWantTcpDriveReport) : Dr FipsInvWantTcpDriveReport :=
  actions ← on_stream (receive_bytes peer bytes connected now_ms);
  deliveries ← apply_actions actions;
  mret (report_deliver deliveries report).
(** At most [turns] turns on one peer's stream, and the budget left. *)
Fixpoint read_peer (turns : nat) (peer : string) (id : ConnectionId) (connected : list string) (now_ms : N)
    (budget : N) (report : FipsInvWantTcpDriveReport) : Dr (N * FipsInvWantTcpDriveReport) :=
  match turns with
  | O => mret (budget, report)
  | S turns => λ d,
      if has_ready_input peer (td_stream d) then
        (report ← driver_receive_bytes peer "" connected now_ms report;
         read_peer turns peer id connected now_ms budget report) d
      else if decide (budget = 0) then Some (Ok (budget, report), d)
      else
        let read_max := remaining_input_capacity peer (td_stream d) `min` IO_CHUNK_BYTES `min` budget in
        if decide (read_max = 0) then Some (Ok (budget, report), d)
        else
          (bytes ← on_tcp "read TCP/FIPS pubsub stream" (tcp_read id read_max now_ms);
           if decide (bytes = ""%string) then mret (budget, report)
           else
             report ← driver_receive_bytes peer bytes connected now_ms (report_read (slen bytes) report);
             read_peer turns peer id connected now_ms (budget - slen bytes) report) d
  end.
Fixpoint read_streams (streams : list (string * ConnectionId)) (connected : list string) (now_ms : N)
    (budget : N) (report : FipsInvWantTcpDriveReport) : Dr FipsInvWantTcpDriveReport :=
  match streams with
  | [] => mret report
  | (peer, id) :: streams =>
      '(budget, report) ← read_peer MAX_READY_INPUT_TURNS peer id connected now_ms budget report;
      read_streams streams connected now_ms budget report
  end.
Definition read_active (now_ms : N) (report : FipsInvWantTcpDriveReport) : Dr FipsInvWantTcpDriveReport :=
  d ← pse_get;
  read_streams (btree_to_list (td_active d)) (btree_elements (dom (td_active d))) now_ms
    (to_max_io_bytes_per_drive (td_options d)) report.

(** ** Writing *)

(** The bytes offered to one write: the rest of the first record, within the
    budget. *)
Definition next_chunk (budget : N) (record : QueuedRecord) : string :=
  let end_ := usize_sat_add (qd_offset record) (IO_CHUNK_BYTES `min` budget) `min` slen (qd_bytes record) in
  str_take (N.to_nat (end_ - qd_offset record)) (unsent record).
Definition advance_queue (accepted : N) (q : PeerQueue) : PeerQueue :=
  match pq_records q with
  | record :: records =>
      let record := mkQueued (qd_bytes record) (qd_offset record + accepted) in
      mkQueue (if decide (qd_offset record = slen (qd_bytes record)) then records else record :: records)
        (pq_bytes q - accepted)
  | [] => q
  end.
(** The loop over one peer's queue. Every turn accepts a byte or stops, so the
    budget is fuel enough. *)
Fixpoint flush_loop (fuel : nat) (peer : string) (id : ConnectionId) (now_ms : N)
    (budget : N) (report : FipsInvWantTcpDriveReport) : Dr (N * FipsInvWantTcpDriveReport) :=
  match fuel with
  | O => mret (budget, report)
  | S fuel => λ d,
      if decide (budget = 0) then Some (Ok (budget, report), d)
      else match td_queues d !! peer ≫= (λ q, head (pq_records q)) with
      | None => Some (Ok (budget, report), d)
      | Some record =>
          (accepted ← on_tcp "write TCP/FIPS pubsub stream" (tcp_write id (next_chunk budget record) now_ms);
           if decide (accepted = 0) then mret (budget, report)
           else
             _ ← pse_modify (λ d, set_td_queues (alter (advance_queue accepted) peer (td_queues d)) d);
             flush_loop fuel peer id now_ms (budget - accepted) (report_written accepted report)) d
      end
  end.
Definition drop_empty_queue (peer : string) (queues : gmap string PeerQueue) : gmap string PeerQueue :=
  if is_some_and (λ q, bool_decide (pq_records q = [])) (queues !! peer) then delete peer queues else queues.
Fixpoint flush_streams (streams : list (string * ConnectionId)) (now_ms : N)
    (budget : N) (report : FipsInvWantTcpDriveReport) : Dr FipsInvWantTcpDriveReport :=
  match streams with
  | [] => mret report
  | (peer, id) :: streams =>
      '(budget, report) ← flush_loop (N.to_nat budget) peer id now_ms budget report;
      _ ← pse_modify (λ d, set_td_queues (drop_empty_queue peer (td_queues d)) d);
      flush_streams streams now_ms budget report
  end.
Definition driver_flush_queues (now_ms : N) (report : FipsInvWantTcpDriveReport) : Dr FipsInvWantTcpDriveReport :=
  d ← pse_get;
  flush_streams (btree_to_list (td_active d)) now_ms (to_max_io_bytes_per_drive (td_options d)) report.
Definition finish_remote_closes (now_ms : N) : Dr unit :=
  d ← pse_get;
  let closed := filter (λ s, tcp_is_read_closed (td_tcp d) s.2 = true ∧ td_queues d !! s.1 = None)
                  (btree_to_list (td_active d)) in
  pse_iter (λ id, on_tcp "close TCP/FIPS pubsub stream" (tcp_close id now_ms)) closed.*2.

(** ** Driving *)
Definition drive_ready (now_ms : N) (report : FipsInvWantTcpDriveReport) : Dr FipsInvWantTcpDriveReport :=
  _ ← pse_modify (λ d, set_td_stream (stream_maintain now_ms (td_stream d)) d);
  _ ← accept_connections;
  report ← refresh_active now_ms report;
  report ← read_active now_ms report;
  report ← driver_flush_queues now_ms report;
  _ ← finish_remote_closes now_ms;
  report ← refresh_active now_ms report;
  d ← pse_get;
  mret (report_connected (msize (td_active d)) report).
(** The filter asks the stream about the sender of each datagram, and keeps the
    first policy error. *)
Definition admit_datagram (s : FipsInvWantStream) (peer : PeerIdentity)
    (policy_error : option PubsubError) : bool * option PubsubError :=
  match stream_select_peer (identity_npub peer) s with
  | Ok selected => (bool_decide (is_Some selected), policy_error)
  | Err error => (false, Some (default error policy_error))
  end.
Definition driver_receive (now_ms : N) : Dr FipsInvWantTcpDriveReport := λ d,
  let '(received, policy_error, t) := tcp_receive_filtered now_ms (admit_datagram (td_stream d)) None (td_tcp d) in
  let d := set_td_tcp t d in
  match received, policy_error with
  | Err e, _ => Some (Err (io_error "receive TCP/FIPS pubsub batch" e), d)
  | Ok _, Some error => Some (Err error, d)
  | Ok (datagrams, rejected), None =>
      drive_ready now_ms (mkDriveReport datagrams rejected 0 0 0 []) d
  end.
Definition driver_poll (now_ms : N) : Dr FipsInvWantTcpDriveReport :=
  _ ← on_tcp "poll TCP/FIPS pubsub transport" (tcp_poll now_ms);
  drive_ready now_ms report_default.
Definition abort_connection (id : ConnectionId) : Dr unit :=
  d ← pse_get;
  _ ← (if decide (is_Some (tcp_state (td_tcp d) id)) then
         on_tcp "abort TCP/FIPS pubsub peer" (tcp_abort id)
       else mret tt);
  pse_modify (λ d, set_td_connections (delete id (td_connections d)) d).
Definition driver_abort_peer (peer : PeerIdentity) : Dr unit :=
  d ← pse_get;
  let npub := identity_npub peer in
  let ids := filter (λ c, tc_peer c.2 = npub) (hash_iter (td_connections d)) in
  _ ← pse_iter abort_connection ids.*1;
  pse_modify (λ d,
    set_td_stream (disconnect_peer npub (td_stream d))
      (set_td_queues (delete npub (td_queues d)) (set_td_active (delete npub (td_active d)) d))).
Definition connected_peer_count d : N := msize (td_active d).
End driver.
