(* ===== verification/StreamTcpInv.v ===== *)
(** * The inventory/want driver: invariant and runs

    What every operation of StreamTcp.v keeps, and the runs of a driver. *)

From S2P Require Export StreamTcp FipsStreamProps.

(** ** The inventory/want TCP driver: its invariant

    Queue arithmetic, and that every operation of [FipsInvWantTcpDriver] keeps
    the bounds on its queues and connections. *)

(** ** Queues *)
Definition record_ok (r : QueuedRecord) : Prop := qd_offset r ≤ slen (qd_bytes r).
(** A queue's byte count is what is left to write. *)
Record queue_sound (q : PeerQueue) : Prop := {
  qk_bytes : pq_bytes q = slen (pending_bytes (pq_records q));
  qk_records : Forall record_ok (pq_records q);
}.

Lemma pending_bytes_app l k : pending_bytes (l ++ k) = pending_bytes l +:+ pending_bytes k.
Proof. induction l as [|r l IH]; [done|]. simpl. by rewrite IH, str_app_assoc. Qed.
Lemma pending_bytes_new record : pending_bytes [mkQueued record 0] = record.
Proof. simpl. unfold unsent. simpl. by rewrite str_app_nil_r. Qed.
Lemma slen_drop n s : slen (str_drop n s) = slen s - N.of_nat n.
Proof.
  pose proof (f_equal slen (str_take_drop n s)) as H. rewrite slen_app in H.
  unfold slen in H at 1. rewrite str_take_length in H. unfold slen in *. lia.
Qed.
Lemma slen_take n s : slen (str_take n s) = N.of_nat n `min` slen s.
Proof. unfold slen. rewrite str_take_length. lia. Qed.
Lemma str_drop_drop n k s : str_drop n (str_drop k s) = str_drop (k + n) s.
Proof. revert s. induction k as [|k IH]; intros s; [done|]. destruct s; [by destruct n|]. apply IH. Qed.
Lemma str_drop_all s : str_drop (N.to_nat (slen s)) s = "".
Proof.
  unfold slen. rewrite Nat2N.id. rewrite <-(str_app_nil_r s) at 2. apply str_drop_app.
Qed.
Lemma unsent_length r : slen (unsent r) = slen (qd_bytes r) - qd_offset r.
Proof. unfold unsent. rewrite slen_drop. lia. Qed.

(** A write of the next chunk moves its accepted bytes from the queue to the
    stream. *)
Lemma next_chunk_length budget r : slen (next_chunk budget r) ≤ slen (unsent r) `min` budget.
Proof.
  unfold next_chunk. rewrite slen_take. rewrite unsent_length. unfold usize_sat_add, sat_add. lia.
Qed.
Lemma str_take_take n k s : (n ≤ k)%nat → str_take n (str_take k s) = str_take n s.
Proof.
  revert k s. induction n as [|n IH]; intros k s Hle; [by destruct k, s|].
  destruct k as [|k]; [lia|]. destruct s as [|c s]; [done|]. simpl. rewrite IH; [done|lia].
Qed.
Lemma advance_queue_pending accepted budget record records bytes :
  let q := mkQueue (record :: records) bytes in
  queue_sound q → accepted ≤ slen (next_chunk budget record) →
  queue_sound (advance_queue accepted q) ∧
  str_take (N.to_nat accepted) (next_chunk budget record)
    +:+ pending_bytes (pq_records (advance_queue accepted q)) = pending_bytes (record :: records).
Proof.
  intros q [Hb Hr] Hacc. simpl in *. apply Forall_cons in Hr as [Hrec Hr]. unfold record_ok in Hrec.
  pose proof (next_chunk_length budget record) as Hlen.
  assert (str_take (N.to_nat accepted) (next_chunk budget record)
    = str_take (N.to_nat accepted) (unsent record)) as Htake.
  { unfold next_chunk in *. rewrite slen_take in Hacc. apply str_take_take. lia. }
  rewrite Htake. rewrite unsent_length in Hlen.
  set (record' := mkQueued (qd_bytes record) (qd_offset record + accepted)).
  assert (str_take (N.to_nat accepted) (unsent record) +:+ unsent record' = unsent record) as Hsplit.
  { unfold record', unsent. simpl. rewrite N2Nat.inj_add, <-str_drop_drop. apply str_take_drop. }
  assert (slen (str_take (N.to_nat accepted) (unsent record)) = accepted) as Htl.
  { rewrite slen_take, unsent_length. lia. }
  assert (pending_bytes (if decide (qd_offset record + accepted = slen (qd_bytes record)) then records else record' :: records)
    = unsent record' +:+ pending_bytes records) as Hnext.
  { case_decide as Hend; [|done]. unfold unsent, record'. simpl. by rewrite Hend, str_drop_all. }
  unfold advance_queue. simpl. fold record'. split; [split; simpl|].
  - rewrite Hnext, Hb. simpl. rewrite <-Hsplit. rewrite <-str_app_assoc, !slen_app, Htl. lia.
  - assert (record_ok record') by (unfold record_ok, record'; simpl; lia).
    case_decide; [done|by constructor].
  - by rewrite Hnext, str_app_assoc, Hsplit.
Qed.

(** ** Queueing *)
Definition sends_to (peer : string) (sends : list (string * string)) : list string :=
  (filter (λ s, s.1 = peer) sends).*2.
Definition total_bytes (records : list string) : N := slen (concat_strings records).

Lemma sends_to_cons peer send sends :
  sends_to peer (send :: sends) =
    (if decide (send.1 = peer) then send.2 :: sends_to peer sends else sends_to peer sends).
Proof. unfold sends_to. rewrite filter_cons. by case_decide. Qed.
Lemma sat_fold max a b c : sat_add max (sat_add max a b) c = sat_add max a (b + c).
Proof. unfold sat_add. lia. Qed.
(** What the additions of [sends] are, from an accumulated value. *)
Definition add_entry (a : option (N * N)) (records : list string) : option (N * N) :=
  match records with
  | [] => a
  | _ => let a := default (0, 0) a in
         Some (usize_sat_add a.1 (nlen records), usize_sat_add a.2 (total_bytes records))
  end.
Lemma add_entry_cons a record records :
  add_entry (Some (usize_sat_add (default (0, 0) a).1 1,
                   usize_sat_add (default (0, 0) a).2 (slen record))) records
    = add_entry a (record :: records).
Proof.
  unfold add_entry at 2. unfold total_bytes. simpl.
  change (slen (record +:+ concat_strings records)) with (slen (String.append record (concat_strings records))).
  rewrite (slen_app record). destruct records as [|r records]; simpl.
  - change (slen (concat_strings [])) with 0. rewrite N.add_0_r. done.
  - unfold usize_sat_add. rewrite !sat_fold. unfold total_bytes, nlen. simpl length. do 3 f_equal. lia.
Qed.
Lemma additions_lookup sends peer : additions_of sends !! peer = add_entry None (sends_to peer sends).
Proof.
  unfold additions_of. change None with ((∅ : gmap string (N * N)) !! peer).
  generalize (∅ : gmap string (N * N)). induction sends as [|[p r] sends IH]; intros a; [done|].
  simpl. rewrite IH, sends_to_cons. simpl. case_decide as Hp; simpl.
  - subst p. rewrite lookup_insert_eq. apply add_entry_cons.
  - by rewrite lookup_insert_ne.
Qed.
(** The queue after [records] more. *)
Definition extend_queue (q : option PeerQueue) (records : list string) : option PeerQueue :=
  match records with
  | [] => q
  | _ => let q := default queue_default q in
         Some (mkQueue (pq_records q ++ ((λ r, mkQueued r 0) <$> records))
                 (usize_sat_add (pq_bytes q) (total_bytes records)))
  end.
Lemma extend_queue_cons q record records :
  extend_queue (Some (queue_push_back record (default queue_default q))) records
    = extend_queue q (record :: records).
Proof.
  unfold extend_queue at 2. unfold total_bytes. simpl.
  change (slen (record +:+ concat_strings records)) with (slen (String.append record (concat_strings records))).
  rewrite (slen_app record). unfold queue_push_back. destruct records as [|r records]; simpl.
  - change (slen (concat_strings [])) with 0. rewrite N.add_0_r. done.
  - unfold usize_sat_add. rewrite !sat_fold. unfold total_bytes. rewrite <-app_assoc. done.
Qed.
Lemma enqueue_lookup sends queues peer :
  foldl enqueue queues sends !! peer = extend_queue (queues !! peer) (sends_to peer sends).
Proof.
  revert queues. induction sends as [|[p r] sends IH]; intros queues; [done|].
  simpl. rewrite IH, sends_to_cons. unfold enqueue. simpl. case_decide as Hp; simpl.
  - subst p. rewrite lookup_insert_eq. apply extend_queue_cons.
  - by rewrite lookup_insert_ne.
Qed.
Lemma pending_new records : pending_bytes ((λ r, mkQueued r 0) <$> records) = concat_strings records.
Proof. induction records as [|r records IH]; [done|]. exact (f_equal (String.append r) IH). Qed.

(** Limits a queue on this machine can be filled to. *)
Definition queue_limits_typed (o : FipsInvWantTcpDriverOptions) : Prop :=
  to_max_peers o < usize_max ∧ to_max_queued_records_per_peer o < usize_max ∧
  to_max_queued_bytes_per_peer o < usize_max.
Record queue_ok (o : FipsInvWantTcpDriverOptions) (q : PeerQueue) : Prop := {
  qo_sound : queue_sound q;
  qo_records : nlen (pq_records q) ≤ to_max_queued_records_per_peer o;
  qo_bytes : pq_bytes q ≤ to_max_queued_bytes_per_peer o;
}.
Lemma queue_default_ok o : queue_ok o queue_default.
Proof. split; [by split|apply N.le_0_l..]. Qed.
Lemma check_additions_Ok o queues additions u :
  check_additions o queues additions = Ok u →
  Forall (λ '(peer, (records, bytes)),
    usize_sat_add (from_option (λ q, nlen (pq_records q)) 0 (queues !! peer)) records ≤ to_max_queued_records_per_peer o ∧
    usize_sat_add (from_option pq_bytes 0 (queues !! peer)) bytes ≤ to_max_queued_bytes_per_peer o) additions.
Proof.
  induction additions as [|[peer [r b]] additions IH]; [constructor|]. cbn [check_additions].
  case_decide; [done|]. case_decide; [done|]. intros Hok. constructor; [split; lia|by apply IH].
Qed.
(** Within the limits a queue grows by exactly its records. *)
Lemma extend_queue_ok o q records :
  queue_limits_typed o → (∀ q', q = Some q' → queue_ok o q') → records ≠ [] →
  usize_sat_add (from_option (λ q, nlen (pq_records q)) 0 q) (usize_sat_add 0 (nlen records))
    ≤ to_max_queued_records_per_peer o →
  usize_sat_add (from_option pq_bytes 0 q) (usize_sat_add 0 (total_bytes records))
    ≤ to_max_queued_bytes_per_peer o →
  ∃ q', extend_queue q records = Some q' ∧ queue_ok o q' ∧
    pending_bytes (pq_records q') = from_option (λ q, pending_bytes (pq_records q)) "" q +:+ concat_strings records.
Proof.
  intros (_ & Hr & Hb) Hq Hne Hn Hbytes. set (q0 := default queue_default q).
  assert (extend_queue q records = Some (mkQueue (pq_records q0 ++ ((λ r, mkQueued r 0) <$> records))
    (usize_sat_add (pq_bytes q0) (total_bytes records)))) as -> by by destruct records.
  assert (queue_ok o q0) as [[Hs1 Hs2] Hok1 Hok2] by (destruct q; [by apply Hq|apply queue_default_ok]).
  assert (from_option (λ q, nlen (pq_records q)) 0 q = nlen (pq_records q0)
    ∧ from_option pq_bytes 0 q = pq_bytes q0
    ∧ from_option (λ q, pending_bytes (pq_records q)) "" q = pending_bytes (pq_records q0))
    as (Hen & Heb & ->) by by destruct q.
  rewrite Hen in Hn. rewrite Heb in Hbytes. clearbody q0.
  assert (∀ x y m, m < usize_max → usize_sat_add x (usize_sat_add 0 y) ≤ m → x + y ≤ m) as Hex.
  { unfold usize_sat_add, sat_add. lia. }
  apply Hex in Hn; [|done]. apply Hex in Hbytes; [|done].
  eexists. split; [reflexivity|]. split; [split; [split|..]|]; cbn [pq_records pq_bytes].
  - unfold usize_sat_add. rewrite sat_add_exact by lia.
    by rewrite pending_bytes_app, pending_new, slen_app, Hs1.
  - apply Forall_app. split; [done|]. apply Forall_fmap, Forall_true. intros x. apply N.le_0_l.
  - unfold nlen in *. rewrite length_app, length_fmap. lia.
  - unfold usize_sat_add, sat_add. lia.
  - by rewrite pending_bytes_app, pending_new.
Qed.

(** What is waiting for a peer. *)
Definition pending_for (queues : gmap string PeerQueue) (peer : string) : string :=
  from_option (λ q, pending_bytes (pq_records q)) "" (queues !! peer).
Record queues_ok (o : FipsInvWantTcpDriverOptions) (queues : gmap string PeerQueue) : Prop := {
  qs_count : msize queues ≤ to_max_peers o;
  qs_each peer q : queues !! peer = Some q → queue_ok o q;
}.
Lemma queues_ok_delete o queues peer : queues_ok o queues → queues_ok o (delete peer queues).
Proof.
  intros [Hc He]. split.
  - etrans; [|exact Hc]. unfold msize. rewrite map_size_delete. destruct (queues !! peer); simpl; lia.
  - intros p q [_ Hq]%lookup_delete_Some. eauto.
Qed.
Lemma additions_dom sends peer : peer ∈ dom (additions_of sends) ↔ sends_to peer sends ≠ [].
Proof.
  rewrite elem_of_dom, additions_lookup. unfold add_entry.
  destruct (sends_to peer sends); split; done.
Qed.
Lemma enqueue_dom sends queues :
  dom (foldl enqueue queues sends) = dom queues ∪ (dom (additions_of sends) ∖ dom queues).
Proof.
  apply set_eq. intros peer. rewrite elem_of_union, elem_of_difference, additions_dom, !elem_of_dom, enqueue_lookup.
  unfold extend_queue. destruct (sends_to peer sends) as [|r records].
  - split; [auto|]. intros [?|[? ?]]; [done|congruence].
  - split; [|intros _; by eexists]. intros _. destruct (decide (is_Some (queues !! peer))); [by left|right].
    split; [done|]. done.
Qed.
Lemma enqueue_count sends queues :
  msize (foldl enqueue queues sends) = msize queues + ssize (dom (additions_of sends) ∖ dom queues).
Proof.
  unfold msize, ssize. rewrite <-!size_dom, enqueue_dom, size_union by set_solver. lia.
Qed.

Section driver_inv.
Context `{NS : Nostr, FC : !FipsCore NS, FT : !FipsTcp FC, HO : !HashOrder}.
Context `{!EnvelopeJson, !StrDebug}.
Implicit Types d : FipsInvWantTcpDriver.

(** Queueing is all or nothing: with an error nothing is queued or delivered,
    otherwise every record is behind what its peer already waits for. *)
Lemma apply_actions_spec o actions d :
  td_options d = o → queue_limits_typed o → queues_ok o (td_queues d) →
  match apply_actions actions d with
  | Some (Ok deliveries, d') =>
      deliveries = action_deliveries actions ∧
      ∃ queues, d' = set_td_queues queues d ∧ queues_ok o queues ∧
        ∀ peer, pending_for queues peer =
          pending_for (td_queues d) peer +:+ concat_strings (sends_to peer (action_sends actions))
  | Some (Err _, d') => d' = d
  | None => False
  end.
Proof.
  intros Ho Hlim [Hcount Heach]. unfold apply_actions. rewrite Ho.
  set (sends := action_sends actions). set (queues := td_queues d) in *.
  case_decide as Hpeers; [done|].
  destruct (check_additions _ _ _) as [[]|] eqn:Hcheck; [|done].
  apply check_additions_Ok in Hcheck. rewrite Forall_forall in Hcheck. split; [done|].
  assert (∀ peer, extend_queue (queues !! peer) (sends_to peer sends) ≠ None →
      ∃ q', extend_queue (queues !! peer) (sends_to peer sends) = Some q' ∧ queue_ok o q' ∧
        pending_bytes (pq_records q') = pending_for queues peer +:+ concat_strings (sends_to peer sends)) as Hext.
  { intros peer Hsome. destruct (decide (sends_to peer sends = [])) as [Hnil|Hne].
    - rewrite Hnil in *. simpl in *. unfold pending_for. destruct (queues !! peer) as [q|] eqn:Hq; [|done].
      exists q. split_and!; [done|by eapply Heach|]. simpl. by rewrite str_app_nil_r.
    - assert (additions_of sends !! peer
        = Some (usize_sat_add 0 (nlen (sends_to peer sends)), usize_sat_add 0 (total_bytes (sends_to peer sends)))) as Hadd.
      { rewrite additions_lookup. unfold add_entry. by destruct (sends_to peer sends). }
      apply btree_to_list_elem in Hadd. specialize (Hcheck _ Hadd) as [Hn Hb].
      apply extend_queue_ok; [done| |done..]. intros q'. apply Heach. }
  exists (foldl enqueue queues sends). split; [done|]. split; [split|].
  - rewrite enqueue_count. destruct Hlim as (Hmax & _). unfold usize_sat_add, sat_add in Hpeers. lia.
  - intros peer q Hq. rewrite enqueue_lookup in Hq. destruct (Hext peer) as (q' & Hq' & Hok & _); [by rewrite Hq|].
    rewrite Hq' in Hq. by injection Hq as <-.
  - intros peer. unfold pending_for at 1. rewrite enqueue_lookup.
    destruct (extend_queue (queues !! peer) (sends_to peer sends)) as [q|] eqn:He.
    + destruct (Hext peer) as (q' & Hq' & _ & Hp); [by rewrite He|]. rewrite He in Hq'. by injection Hq' as <-.
    + simpl. unfold extend_queue in He. destruct (sends_to peer sends); [|done]. unfold pending_for. by rewrite He.
Qed.
End driver_inv.

(** ** The inventory/want TCP driver: its runs

    Every operation of [FipsInvWantTcpDriver] returns without a panic, keeps
    the driver's bounds, and moves its stream along a run of
    [FipsStreamSim], of which the deliveries it reports are a part. *)

Section peers.
Context `{HO : !HashOrder}.
Implicit Types connections : gmap N TrackedConnection.

Lemma connection_peers_elem peer connections :
  peer ∈ connection_peers connections ↔ ∃ id c, connections !! id = Some c ∧ tc_peer c = peer.
Proof.
  unfold connection_peers. rewrite elem_of_list_to_set, list_elem_of_fmap.
  setoid_rewrite hash_values_elem. naive_solver.
Qed.
Lemma connection_peers_subseteq connections connections' :
  connections' ⊆ connections → ssize (connection_peers connections') ≤ ssize (connection_peers connections).
Proof.
  intros Hs. unfold ssize. enough (size (connection_peers connections') ≤ size (connection_peers connections))%nat by lia.
  apply subseteq_size. intros peer. rewrite !connection_peers_elem. intros (id & c & Hc & <-).
  exists id, c. split; [by eapply lookup_weaken|done].
Qed.
Lemma connection_peers_insert max id c connections :
  tc_peer c ∈ connection_peers connections ∨ ssize (connection_peers connections) < max →
  ssize (connection_peers connections) ≤ max →
  ssize (connection_peers (<[id := c]> connections)) ≤ max.
Proof.
  intros Hroom Hmax. unfold ssize in *.
  assert (connection_peers (<[id := c]> connections) ⊆ {[tc_peer c]} ∪ connection_peers connections) as Hs.
  { intros peer. rewrite elem_of_union, elem_of_singleton, !connection_peers_elem.
    intros (id' & c' & [[-> ->]|[? ?]]%lookup_insert_Some & <-); [by left|right; eauto]. }
  apply subseteq_size in Hs. destruct (decide (tc_peer c ∈ connection_peers connections)).
  - replace ({[tc_peer c]} ∪ connection_peers connections) with (connection_peers connections) in Hs by set_solver.
    lia.
  - destruct Hroom as [?|?]; [done|]. rewrite size_union, size_singleton in Hs by set_solver. lia.
Qed.
End peers.

(** ** The choice of streams *)
Section choice.
Context `{NS : Nostr, FC : !FipsCore NS, FT : !FipsTcp FC, HO : !HashOrder}.
Implicit Types connections : gmap N TrackedConnection.

Lemma stream_candidates_sound t connections peer streams id direction :
  stream_candidates t connections !! peer = Some streams → (id, direction) ∈ streams →
  connections !! id = Some (mkTracked peer direction) ∧ state_is_usable (tcp_state t id) = true.
Proof.
  unfold stream_candidates.
  assert (∀ cs (c0 : gmap string (list (N * Direction))),
    (∀ id c, (id, c) ∈ cs → connections !! id = Some c) →
    (∀ peer streams, c0 !! peer = Some streams → ∀ id direction, (id, direction) ∈ streams →
      connections !! id = Some (mkTracked peer direction) ∧ state_is_usable (tcp_state t id) = true) →
    ∀ peer streams, foldl (λ candidates '(id, connection),
      if state_is_usable (tcp_state t id) then
        <[tc_peer connection :=
            default [] (candidates !! tc_peer connection) ++ [(id, tc_direction connection)]]> candidates
      else candidates) c0 cs !! peer = Some streams → ∀ id direction, (id, direction) ∈ streams →
      connections !! id = Some (mkTracked peer direction) ∧ state_is_usable (tcp_state t id) = true) as Hfold.
  { intros cs. induction cs as [|[i c] cs IH]; intros c0 Hcs Hc0; [exact Hc0|]. simpl. apply IH.
    - intros j c' Hj. apply Hcs. by right.
    - destruct (state_is_usable (tcp_state t i)) eqn:Hu; [|done].
      intros p l [[<- <-]|[_ Hl]]%lookup_insert_Some j dir; [|by eapply Hc0].
      intros [Hin|[= -> ->]%list_elem_of_singleton]%elem_of_app.
      + destruct (c0 !! tc_peer c) as [l|] eqn:Hl; [|set_solver]. by eapply Hc0.
      + split; [|done]. rewrite (Hcs i c) by by left. by destruct c. }
  intros Hl Hin. eapply Hfold; [| |exact Hl|exact Hin].
  - intros j c. rewrite hash_iter_perm, elem_of_map_to_list. done.
  - intros p l. by rewrite lookup_empty.
Qed.
Lemma choose_streams_sound local peers active extras p id :
  choose_streams local peers = (active, extras) → active !! p = Some id →
  ∃ streams direction, (p, streams) ∈ peers ∧ (id, direction) ∈ streams.
Proof.
  revert active extras. induction peers as [|[q streams] peers IH]; intros active extras; simpl.
  { intros [= <- <-]. by rewrite lookup_empty. }
  destruct (choose_streams local peers) as [active' extras'].
  destruct (sort_by (stream_order local q) streams) as [|[selected dir] rest] eqn:Hsort.
  - intros [= <- <-] Hp. destruct (IH _ _ eq_refl Hp) as (l & dir & Hin & Hid). exists l, dir.
    split; [by right|done].
  - intros [= <- <-] [[<- <-]|[_ Hp]]%lookup_insert_Some.
    + exists streams, dir. split; [by left|]. rewrite <-(sort_by_elem (stream_order local q)), Hsort. by left.
    + destruct (IH _ _ eq_refl Hp) as (l & dir' & Hin & Hid). exists l, dir'. split; [by right|done].
Qed.
Lemma choose_streams_inj local t connections active extras p q id :
  choose_streams local (btree_to_list (stream_candidates t connections)) = (active, extras) →
  active !! p = Some id → active !! q = Some id → p = q.
Proof.
  intros Hc Hp Hq.
  destruct (choose_streams_sound _ _ _ _ _ _ Hc Hp) as (l & dir & Hl%btree_to_list_elem & Hin).
  destruct (choose_streams_sound _ _ _ _ _ _ Hc Hq) as (l' & dir' & Hl'%btree_to_list_elem & Hin').
  destruct (stream_candidates_sound _ _ _ _ _ _ Hl Hin) as [H1 _].
  destruct (stream_candidates_sound _ _ _ _ _ _ Hl' Hin') as [H2 _]. congruence.
Qed.
End choice.

Section runs.
Context `{NS : Nostr, !NostrLaws NS, FC : !FipsCore NS, FT : !FipsTcp FC, HO : !HashOrder}.
Context `{EJ : !EnvelopeJson, SD : !StrDebug}.
Implicit Types d : FipsInvWantTcpDriver.
(** The driver's options, and its stream's options and policies. *)
Context (o : FipsInvWantTcpDriverOptions) (so : FipsInvWantStreamOptions).
Context (ep : option PubsubPolicy) (pp : option (string → res (option MeshPeer))).
Context (limits : queue_limits_typed o) (typed : options_typed (normalize_options (so_mesh so))).

Record driver_ok d : Prop := {
  dv_options : td_options d = o;
  dv_queues : queues_ok o (td_queues d);
  dv_connections : ssize (connection_peers (td_connections d)) ≤ to_max_peers o;
  dv_active p q id : td_active d !! p = Some id → td_active d !! q = Some id → p = q;
}.
(** The driver is in bounds at [now], and [delivered] is part, in order, of
    what its stream has handed out. *)
Definition tracked (now : N) (delivered : list QueryEvent) d : Prop :=
  driver_ok d ∧ ∃ clock out, clock ≤ now ∧ stream_reach so ep pp clock out (td_stream d) ∧
    delivered `sublist_of` action_deliveries out.

Context (now : N) (now_u64 : now ≤ u64_max).
Notation T := (tracked now).

Lemma tracked_weaken l k d : k `sublist_of` l → T l d → T k d.
Proof. intros Hs (Hd & clock & out & Hle & Hr & Hl). split; [done|]. exists clock, out.
  split_and!; [done..|by etrans].
Qed.
Lemma tracked_prefix l k d : T (l ++ k) d → T l d.
Proof. apply tracked_weaken, sublist_inserts_r. done. Qed.
(** Steps that leave the options, stream, queues and connections alone. *)
Lemma tracked_tcp t l d : T l d → T l (set_td_tcp t d).
Proof. intros ([] & H). by split. Qed.
Lemma tracked_active a l d :
  (∀ p q id, a !! p = Some id → a !! q = Some id → p = q) → T l d → T l (set_td_active a d).
Proof. intros Ha ([] & H). by split. Qed.
Lemma tracked_queues queues l d : queues_ok o queues → T l d → T l (set_td_queues queues d).
Proof. intros ? ([] & H). by split. Qed.
Lemma tracked_connections connections l d :
  ssize (connection_peers connections) ≤ to_max_peers o → T l d → T l (set_td_connections connections d).
Proof. intros ? ([] & H). by split. Qed.
Lemma action_deliveries_app a b : action_deliveries (a ++ b) = action_deliveries a ++ action_deliveries b.
Proof. unfold action_deliveries. apply omap_app. Qed.
Lemma tracked_step op out s' l d :
  stream_op_ok op → stream_step op now (td_stream d) = Some (out, s') → T l d →
  T (l ++ action_deliveries out) (set_td_stream s' d).
Proof.
  intros Hop Hstep ([? ? ? ?] & clock & out0 & Hle & Hr & Hl). split; [by split|].
  exists now, (out0 ++ out). split_and!; [done|by eapply stream_reach_step|].
  rewrite action_deliveries_app. by apply sublist_app.
Qed.
Lemma tracked_quiet_step op s' l d :
  stream_op_ok op → stream_step op now (td_stream d) = Some ([], s') → T l d → T l (set_td_stream s' d).
Proof. intros Hop Hs Ht. pose proof (tracked_step op [] s' l d Hop Hs Ht) as H. by rewrite app_nil_r in H. Qed.

(** ** The parts *)
Lemma on_tcp_triple {A} context (f : Tcp → result string A * Tcp) l :
  pse_triple (T l) (on_tcp context f) (λ _, T l) (T l).
Proof.
  intros d Hd. unfold on_tcp. destruct (f (td_tcp d)) as [[a|e] t]; by apply tracked_tcp.
Qed.
Lemma on_stream_triple (f : SE FipsInvWantStream PubsubError (list FipsInvWantStreamAction)) op l :
  stream_op_ok op → (∀ s, stream_step op now s = Some (outcome (f s))) →
  pse_triple (T l) (on_stream f) (λ actions, T (l ++ action_deliveries actions)) (T l).
Proof.
  intros Hop Hstep d Hd. unfold on_stream. specialize (Hstep (td_stream d)).
  destruct (f (td_stream d)) as [[actions|e] s]; unfold outcome in Hstep; simpl in Hstep.
  - by eapply tracked_step.
  - by eapply tracked_quiet_step.
Qed.
Lemma apply_actions_triple actions l :
  pse_triple (T (l ++ action_deliveries actions)) (apply_actions actions) (λ deliveries, T (l ++ deliveries)) (T l).
Proof.
  intros d Hd. pose proof Hd as ([Ho Hq _ _] & _).
  pose proof (apply_actions_spec o actions d Ho limits Hq) as Happ.
  destruct (apply_actions actions d) as [[[deliveries|e] d']|]; [| |done].
  - destruct Happ as (-> & queues & -> & Hok & _). by apply tracked_queues.
  - subst d'. by eapply tracked_prefix.
Qed.
Lemma receive_bytes_triple peer bytes connected report l :
  pse_triple (T (l ++ dp_deliveries report)) (driver_receive_bytes peer bytes connected now report)
    (λ report, T (l ++ dp_deliveries report)) (T l).
Proof.
  unfold driver_receive_bytes.
  apply (triple_bind _ _ _ (λ actions, T ((l ++ dp_deliveries report) ++ action_deliveries actions))).
  { eapply triple_err; [by apply (on_stream_triple _ (StReceive peer bytes connected))|].
    intros d. apply tracked_prefix. }
  intros actions. eapply triple_bind.
  { eapply triple_err; [apply apply_actions_triple|]. intros d. apply tracked_prefix. }
  intros deliveries. apply triple_ret. intros d. simpl. by rewrite app_assoc.
Qed.
Lemma read_peer_triple turns peer id connected budget report l :
  pse_triple (T (l ++ dp_deliveries report)) (read_peer turns peer id connected now budget report)
    (λ p, T (l ++ dp_deliveries p.2)) (T l).
Proof.
  revert budget report. induction turns as [|turns IH]; intros budget report; cbn [read_peer];
    [by apply triple_ret|].
  intros d Hd. destruct (has_ready_input peer (td_stream d)).
  { triple_at d Hd. eapply triple_bind; [apply receive_bytes_triple|]. intros report'. apply IH. }
  case_decide; [done|]. case_decide; [done|].
  triple_at d Hd. eapply triple_bind.
  { eapply triple_err; [apply on_tcp_triple|]. intros ?. apply tracked_prefix. }
  intros bytes. case_decide; [by apply triple_ret|].
  eapply triple_bind; [apply (receive_bytes_triple peer bytes connected (report_read (slen bytes) report))|].
  intros report'. apply IH.
Qed.
Lemma read_streams_triple streams connected budget report l :
  pse_triple (T (l ++ dp_deliveries report)) (read_streams streams connected now budget report)
    (λ report, T (l ++ dp_deliveries report)) (T l).
Proof.
  revert budget report. induction streams as [|[peer id] streams IH]; intros budget report;
    cbn [read_streams]; [by apply triple_ret|].
  eapply triple_bind; [apply read_peer_triple|]. intros [budget' report']. apply IH.
Qed.
Lemma read_active_triple report l :
  pse_triple (T (l ++ dp_deliveries report)) (read_active now report)
    (λ report, T (l ++ dp_deliveries report)) (T l).
Proof. apply triple_get. intros d _. apply read_streams_triple. Qed.

Lemma on_peer_connected_triple peer l :
  pse_triple (T l) (on_peer_connected peer now) (λ actions, T (l ++ action_deliveries actions)) (T l).
Proof.
  intros d Hd. unfold on_peer_connected. pose proof Hd as (_ & clock & out & _ & Hreach & _).
  destruct (peer_connected_total so ep pp clock out _ peer now typed Hreach) as ([r s] & Hr).
  rewrite Hr. simpl. assert (stream_step (StConnected peer) now (td_stream d) = Some (outcome (r, s))) as Hstep.
  { simpl. by rewrite Hr. }
  destruct r as [actions|e].
  - by eapply (tracked_step (StConnected peer)).
  - by eapply (tracked_quiet_step (StConnected peer)).
Qed.
Lemma ensure_peer_capacity_room peer d u :
  driver_ok d → ensure_peer_capacity peer d = Ok u →
  peer ∈ connection_peers (td_connections d) ∨ ssize (connection_peers (td_connections d)) < to_max_peers o.
Proof.
  intros [Ho _ _ _]. unfold ensure_peer_capacity. rewrite Ho. case_decide as Hfull; [done|]. intros _.
  destruct (decide (peer ∈ connection_peers (td_connections d))); [by left|right].
  apply N.nle_gt. tauto.
Qed.
Lemma tracked_connect id c l d u :
  ensure_peer_capacity (tc_peer c) d = Ok u → T l d →
  T l (set_td_connections (<[id := c]> (td_connections d)) d).
Proof.
  intros Hroom Hd. apply tracked_connections; [|done]. destruct Hd as [Hok _].
  apply connection_peers_insert; [by eapply ensure_peer_capacity_room|apply Hok].
Qed.
Lemma accept_loop_triple fuel l : pse_triple (T l) (accept_loop fuel) (λ _, T l) (T l).
Proof.
  induction fuel as [|fuel IH]; cbn [accept_loop]; [by apply triple_ret|].
  intros d Hd. destruct (tcp_accept (td_tcp d)) as [id t].
  pose proof (tracked_tcp t l d Hd) as Hd'. destruct id as [id|]; [|done].
  destruct (tcp_peer (td_tcp (set_td_tcp t d)) id) as [peer|]; [|done].
  destruct (ensure_peer_capacity (identity_npub peer) (set_td_tcp t d)) as [[]|e] eqn:Hroom; cbn [is_err negb is_ok].
  - apply IH. destruct (td_connections (set_td_tcp t d) !! id) as [c|] eqn:Hc; simpl.
    + cbn [td_connections set_td_tcp] in Hc. rewrite (insert_id _ _ _ Hc). apply tracked_connections; [|done].
      apply Hd.
    + exact (tracked_connect id (mkTracked (identity_npub peer) Inbound) l _ _ Hroom Hd').
  - triple_at (set_td_tcp t d) Hd'. eapply triple_bind; [apply on_tcp_triple|]. intros []. apply IH.
Qed.
Lemma accept_connections_triple l : pse_triple (T l) accept_connections (λ _, T l) (T l).
Proof. apply triple_get. intros d _. apply accept_loop_triple. Qed.

(** ** Refreshing *)
Lemma tracked_fewer_connections connections l d :
  connections ⊆ td_connections d → T l d → T l (set_td_connections connections d).
Proof.
  intros Hs Hd. apply tracked_connections; [|done]. etrans; [by apply connection_peers_subseteq|].
  apply Hd.
Qed.
Lemma drop_extra_triple id l : pse_triple (T l) (drop_extra id) (λ _, T l) (T l).
Proof.
  eapply triple_bind; [apply on_tcp_triple|]. intros []. apply triple_modify. intros d.
  apply tracked_fewer_connections, delete_subseteq.
Qed.
Lemma tracked_disconnect peer l d :
  T l d → T l (set_td_queues (delete peer (td_queues d)) (set_td_stream (disconnect_peer peer (td_stream d)) d)).
Proof.
  intros Hd. apply tracked_queues; [apply queues_ok_delete, Hd|]. by apply (tracked_quiet_step (StDisconnect peer)).
Qed.
Lemma restart_peers_triple changed report l :
  pse_triple (T (l ++ dp_deliveries report)) (restart_peers changed now report)
    (λ report, T (l ++ dp_deliveries report)) (T l).
Proof.
  revert report. induction changed as [|peer changed IH]; intros report; cbn [restart_peers]; [by apply triple_ret|].
  eapply (triple_bind _ _ _ (λ _, T (l ++ dp_deliveries report))).
  { apply triple_modify. intros d. apply tracked_disconnect. }
  intros []. apply triple_get. intros d _.
  case_decide; [|apply IH].
  eapply triple_bind.
  { eapply triple_err; [apply on_peer_connected_triple|]. intros ?. apply tracked_prefix. }
  intros actions. eapply triple_bind.
  { eapply triple_err; [apply apply_actions_triple|]. intros ?. apply tracked_prefix. }
  intros deliveries. eapply triple_pre; [apply IH|]. intros s. simpl. by rewrite app_assoc.
Qed.
Lemma refresh_active_triple report l :
  pse_triple (T (l ++ dp_deliveries report)) (refresh_active now report)
    (λ report, T (l ++ dp_deliveries report)) (T l).
Proof.
  unfold refresh_active. eapply (triple_bind _ _ _ (λ _, T (l ++ dp_deliveries report))).
  { apply triple_modify. intros d. apply tracked_fewer_connections, map_filter_subseteq. }
  intros []. apply triple_get. intros d _.
  destruct (choose_streams _ _) as [next_active extras] eqn:Hchoose.
  eapply triple_bind.
  { apply (triple_err _ _ _ _ (T (l ++ dp_deliveries report))); [|intros s; apply tracked_prefix].
    apply triple_iter. intros id _. apply drop_extra_triple. }
  intros []. eapply (triple_bind _ _ _ (λ _, T (l ++ dp_deliveries report))).
  { apply triple_modify. intros s. apply tracked_active. intros p q id. exact (choose_streams_inj _ _ _ _ _ p q id Hchoose). }
  intros []. apply restart_peers_triple.
Qed.
End runs.
