(* ===== verification/StreamTcpFlush.v ===== *)
(** * The inventory/want TCP driver: writing

    A flush moves bytes from the queues to the streams and nothing else: for
    every peer what was written and what still waits is, together, what was
    waiting, and the budget of a turn is kept. *)

From S2P Require Export StreamTcpInv.

(** ** Bytes on their way

    What every connection was sent, and what waits for every peer. *)
Record view : Type := mkView { vw_sent : N → string; vw_pending : string → string }.
Implicit Types v : view.
Definition sent_and_pending v (peer : string) (id : N) : string := vw_sent v id +:+ vw_pending v peer.
(** Only the stream [id] and the queue of [peer] change, by moving bytes. *)
Record moves (peer : string) (id : N) v v' : Prop := {
  mv_sent : sent_and_pending v' peer id = sent_and_pending v peer id;
  mv_other_sent other : other ≠ id → vw_sent v' other = vw_sent v other;
  mv_other_pending other : other ≠ peer → vw_pending v' other = vw_pending v other;
}.
#[export] Instance moves_preorder peer id : PreOrder (moves peer id).
Proof.
  split; [done|]. intros v1 v2 v3 [H1 H2 H3] [K1 K2 K3]. split.
  - by rewrite K1.
  - intros other Hne. by rewrite K2, H2.
  - intros other Hne. by rewrite K3, H3.
Qed.
(** Every listed stream trades pending bytes for sent ones, nothing else
    changes. *)
Record conserved (streams : list (string * N)) v v' : Prop := {
  cv_sent peer id : (peer, id) ∈ streams → sent_and_pending v' peer id = sent_and_pending v peer id;
  cv_other_sent id : id ∉ streams.*2 → vw_sent v' id = vw_sent v id;
  cv_other_pending peer : peer ∉ streams.*1 → vw_pending v' peer = vw_pending v peer;
}.
Lemma conserved_nil v : conserved [] v v.
Proof. by split. Qed.
Lemma conserved_refl streams v : conserved streams v v.
Proof. by split. Qed.
Lemma conserved_cons peer id streams v v1 v' :
  peer ∉ streams.*1 → id ∉ streams.*2 → moves peer id v v1 → conserved streams v1 v' →
  conserved ((peer, id) :: streams) v v'.
Proof.
  intros Hp Hid [M1 M2 M3] [C1 C2 C3]. split; simpl.
  - intros p i [[= -> ->]|Hin]%elem_of_cons.
    + rewrite <-M1. unfold sent_and_pending. by rewrite C2, C3.
    + rewrite C1 by done. unfold sent_and_pending.
      assert (p ∈ streams.*1 ∧ i ∈ streams.*2) as [? ?].
      { split; apply list_elem_of_fmap; by exists (p, i). }
      rewrite M2, M3; [done|by intros ->..].
  - intros i. rewrite not_elem_of_cons. intros [Hne Hi]. by rewrite C2, M2.
  - intros p. rewrite not_elem_of_cons. intros [Hne Hi]. by rewrite C3, M3.
Qed.
(** The writes of the endpoint, seen as moves. *)
Section writes.
Context `{NS : Nostr, FC : !FipsCore NS, FT : !FipsTcp FC, FL : !FipsTcpLaws FT}.
Implicit Types t : Tcp.

Lemma moves_write peer id chunk now t n t' pending pending' :
  tcp_write id chunk now t = (Ok n, t') →
  str_take (N.to_nat n) chunk +:+ pending' peer = pending peer →
  (∀ other, other ≠ peer → pending' other = pending other) →
  moves peer id (mkView (tcp_sent t) pending) (mkView (tcp_sent t') pending').
Proof.
  intros Hw Hp Ho. destruct (tcp_write_sent _ _ _ _ _ _ Hw) as (_ & Hsent & Hother).
  split; unfold sent_and_pending; simpl; [|done..]. by rewrite Hsent, <-str_app_assoc, Hp.
Qed.
Lemma moves_accepted_nothing peer id chunk now t t' pending :
  tcp_write id chunk now t = (Ok 0, t') →
  moves peer id (mkView (tcp_sent t) pending) (mkView (tcp_sent t') pending).
Proof. intros Hw. eapply moves_write; [exact Hw| |done]. by destruct chunk. Qed.
Lemma moves_failed_write peer id chunk now t e t' pending :
  tcp_write id chunk now t = (Err e, t') →
  moves peer id (mkView (tcp_sent t) pending) (mkView (tcp_sent t') pending).
Proof.
  intros Hw. pose proof (tcp_write_failed _ _ _ _ _ _ Hw) as Hsent.
  split; unfold sent_and_pending; simpl; [by rewrite Hsent|by intros|done].
Qed.
End writes.

Section flush.
Context `{NS : Nostr, !NostrLaws NS, FC : !FipsCore NS, FT : !FipsTcp FC, FL : !FipsTcpLaws FT, HO : !HashOrder}.
Context `{EJ : !EnvelopeJson, SD : !StrDebug}.
Implicit Types d : FipsInvWantTcpDriver.
Context (o : FipsInvWantTcpDriverOptions) (so : FipsInvWantStreamOptions).
Context (ep : option PubsubPolicy) (pp : option (string → res (option MeshPeer))).
Context (now : N).
Notation T := (tracked o so ep pp now).

Definition driver_view d : view := mkView (tcp_sent (td_tcp d)) (pending_for (td_queues d)).

(** A write of the next chunk, and the step of the queue behind it. *)
Lemma write_moves peer id budget record records bytes d n t :
  td_queues d !! peer = Some (mkQueue (record :: records) bytes) →
  queue_sound (mkQueue (record :: records) bytes) →
  tcp_write id (next_chunk budget record) now (td_tcp d) = (Ok n, t) →
  n ≤ budget ∧
  let d' := set_td_queues (alter (advance_queue n) peer (td_queues d)) (set_td_tcp t d) in
  moves peer id (driver_view d) (driver_view d') ∧
  queue_sound (advance_queue n (mkQueue (record :: records) bytes)).
Proof.
  intros Hq Hs Hw. destruct (tcp_write_sent _ _ _ _ _ _ Hw) as (Hn & _).
  pose proof (next_chunk_length budget record). split; [lia|].
  destruct (advance_queue_pending n budget record records bytes Hs Hn) as [Hs' Hp]. split; [|done].
  eapply moves_write; [exact Hw|..]; unfold pending_for; simpl.
  - by rewrite lookup_alter_eq, Hq.
  - intros other Hne. by rewrite lookup_alter_ne.
Qed.
Lemma advance_queue_ok n record records bytes :
  queue_ok o (mkQueue (record :: records) bytes) →
  queue_sound (advance_queue n (mkQueue (record :: records) bytes)) →
  queue_ok o (advance_queue n (mkQueue (record :: records) bytes)).
Proof.
  intros [_ Hr Hb] Hs. split; [done|..]; simpl in *; [|lia].
  etrans; [|exact Hr]. unfold nlen. case_decide; simpl; lia.
Qed.
Lemma tracked_advance n peer record records bytes t l d :
  td_queues d !! peer = Some (mkQueue (record :: records) bytes) →
  queue_sound (advance_queue n (mkQueue (record :: records) bytes)) → T l d →
  T l (set_td_queues (alter (advance_queue n) peer (td_queues d)) (set_td_tcp t d)).
Proof.
  intros Hq Hs Ht. apply tracked_queues; [|by apply tracked_tcp].
  destruct Ht as ([_ [Hc He] _ _] & _). split.
  - etrans; [|exact Hc]. unfold msize. by rewrite <-(size_dom (D:=gset string)), dom_alter_L, size_dom.
  - intros p q. destruct (decide (p = peer)) as [->|Hne].
    + rewrite lookup_alter_eq, Hq. simpl. intros [= <-]. apply advance_queue_ok; [by eapply He|done].
    + rewrite lookup_alter_ne by done. apply He.
Qed.

(** ** One peer's loop *)
Definition loop_ok peer id budget report l d (p : option (res (N * FipsInvWantTcpDriveReport) * FipsInvWantTcpDriver)) : Prop :=
  match p with
  | Some (r, d') =>
      T l d' ∧ moves peer id (driver_view d) (driver_view d') ∧
      ∀ left report', r = Ok (left, report') → left ≤ budget ∧
        dp_deliveries report' = dp_deliveries report ∧
        dp_stream_bytes_written report' ≤ dp_stream_bytes_written report + (budget - left)
  | None => False
  end.
Lemma loop_ok_stop peer id budget report l d :
  T l d → loop_ok peer id budget report l d (Some (Ok (budget, report), d)).
Proof. intros Ht. split_and!; [done..|]. intros left report' [= <- <-]. split_and!; [done..|lia]. Qed.
Lemma flush_loop_ok fuel peer id budget report l d :
  T l d →
  loop_ok peer id budget report l d (flush_loop fuel peer id now budget report d).
Proof.
  revert budget report d. induction fuel as [|fuel IH]; intros budget report d Ht; cbn [flush_loop];
    [by apply loop_ok_stop|].
  case_decide as Hb; [by apply loop_ok_stop|].
  destruct (td_queues d !! peer) as [[[|record records] bytes]|] eqn:Hq; simpl; [by apply loop_ok_stop| |by apply loop_ok_stop].
  assert (queue_sound (mkQueue (record :: records) bytes)) as Hs.
  { destruct Ht as ([_ [_ He] _ _] & _). by eapply qo_sound, He. }
  unfold mbind, pse_bind, on_tcp.
  destruct (tcp_write id (next_chunk budget record) now (td_tcp d)) as [[n|e] t] eqn:Hw; simpl.
  - case_decide as Hn.
    + subst n. split_and!; [by apply tracked_tcp|by eapply moves_accepted_nothing|].
      intros left report' [= <- <-]. split_and!; [done..|lia].
    + destruct (write_moves peer id budget record records bytes d n t Hq Hs Hw) as (Hle & Hmv & Hs').
      pose proof (tracked_advance n peer record records bytes t _ d Hq Hs' Ht) as Ht'.
      set (d1 := set_td_queues _ _) in *. unfold pse_modify. simpl.
      specialize (IH (budget - n) (report_written n report) d1 Ht').
      unfold loop_ok in *. destruct (flush_loop _ _ _ _ _ _ d1) as [[r d']|]; [|done].
      destruct IH as (Ht2 & Hmv2 & Hr). split_and!; [done|by etrans|]. intros left report' Hok.
      destruct (Hr left report' Hok) as (Hl & Hd & Hwr). split_and!; [lia|done|].
      simpl in Hwr. unfold usize_sat_add, sat_add in Hwr. lia.
  - split_and!; [by apply tracked_tcp|by eapply moves_failed_write|]. by intros left report'.
Qed.

(** ** All streams *)

Lemma drop_empty_moves peer id d :
  moves peer id (driver_view d) (driver_view (set_td_queues (drop_empty_queue peer (td_queues d)) d)).
Proof.
  assert (∀ p, pending_for (drop_empty_queue peer (td_queues d)) p = pending_for (td_queues d) p) as Hsame.
  { intros p. unfold drop_empty_queue. destruct (is_some_and _ _) eqn:He; [|done].
    apply is_some_and_true in He as (q & Hq & Hnil%bool_decide_eq_true).
    unfold pending_for. destruct (decide (p = peer)) as [->|Hne].
    - rewrite lookup_delete_eq, Hq. simpl. by rewrite Hnil.
    - by rewrite lookup_delete_ne. }
  split; unfold sent_and_pending; simpl; [by rewrite Hsame|done|by intros].
Qed.
Lemma drop_empty_tracked peer l d : T l d → T l (set_td_queues (drop_empty_queue peer (td_queues d)) d).
Proof.
  intros Ht. apply tracked_queues; [|done]. unfold drop_empty_queue. destruct Ht as ([_ Hq _ _] & _).
  destruct (is_some_and _ _); [by apply queues_ok_delete|done].
Qed.
Lemma flush_streams_ok streams budget report l d :
  NoDup streams.*1 → NoDup streams.*2 → T l d →
  match flush_streams streams now budget report d with
  | Some (r, d') => T l d' ∧ conserved streams (driver_view d) (driver_view d') ∧
      ∀ report', r = Ok report' → dp_deliveries report' = dp_deliveries report ∧
        dp_stream_bytes_written report' ≤ dp_stream_bytes_written report + budget
  | None => False
  end.
Proof.
  revert budget report d. induction streams as [|[peer id] streams IH]; intros budget report d Hp Hid Ht; simpl.
  { split_and!; [done|apply conserved_nil|]. intros report' [= <-]. split; [done|lia]. }
  apply NoDup_cons in Hp as [Hp1 Hp]. apply NoDup_cons in Hid as [Hid1 Hid].
  pose proof (flush_loop_ok (N.to_nat budget) peer id budget report l d Ht) as Hloop.
  unfold loop_ok in Hloop. unfold mbind, pse_bind, pse_modify.
  destruct (flush_loop _ _ _ _ _ _ d) as [[[[left report1]|e] d1]|]; [| |done].
  - destruct Hloop as (Ht1 & Hm1 & Hr1). destruct (Hr1 _ _ eq_refl) as (Hle & Hd1 & Hw1).
    pose proof (drop_empty_tracked peer _ d1 Ht1) as Ht2. pose proof (drop_empty_moves peer id d1) as Hm2.
    set (d2 := set_td_queues _ d1) in *. specialize (IH left report1 d2 Hp Hid Ht2).
    destruct (flush_streams streams now left report1 d2) as [[r d3]|]; [|done].
    destruct IH as (Ht3 & Hc3 & Hr3). split_and!; [done| |].
    + eapply conserved_cons; [done..|by etrans|done].
    + intros report' Hr. destruct (Hr3 _ Hr) as (-> & ?). split; [done|lia].
  - destruct Hloop as (Ht1 & Hm1 & _). split_and!; [done| |by intros].
    eapply conserved_cons; [done..|apply conserved_refl].
Qed.
Lemma btree_to_list_NoDup_snd {K} `{Countable K} (m : gmap string K) :
  (∀ p q k, m !! p = Some k → m !! q = Some k → p = q) → NoDup (btree_to_list m).*2.
Proof.
  intros Hinj. apply NoDup_fmap_2_strong; [|by apply NoDup_fmap_1 with fst, btree_to_list_NoDup].
  intros [p k] [q k'] Hp%btree_to_list_elem Hq%btree_to_list_elem. simpl. intros <-. f_equal. by eapply Hinj.
Qed.
Lemma flush_queues_ok report l d :
  T l d →
  match driver_flush_queues now report d with
  | Some (r, d') => T l d' ∧ conserved (btree_to_list (td_active d)) (driver_view d) (driver_view d') ∧
      ∀ report', r = Ok report' → dp_deliveries report' = dp_deliveries report ∧
        dp_stream_bytes_written report' ≤ dp_stream_bytes_written report + to_max_io_bytes_per_drive o
  | None => False
  end.
Proof.
  intros Ht. pose proof Ht as ([Ho _ _ Hinj] & _). unfold driver_flush_queues, pse_get, mbind, pse_bind. rewrite Ho.
  apply flush_streams_ok; [apply btree_to_list_NoDup|by apply btree_to_list_NoDup_snd|done].
Qed.
Lemma flush_queues_triple report l :
  pse_triple (T (l ++ dp_deliveries report)) (driver_flush_queues now report)
    (λ report, T (l ++ dp_deliveries report)) (T l).
Proof.
  intros d Ht. pose proof (flush_queues_ok report _ d Ht) as Hf.
  destruct (driver_flush_queues now report d) as [[[report'|e] d']|]; [| |done].
  - destruct Hf as (Ht' & _ & Hr). by destruct (Hr _ eq_refl) as [-> _].
  - by eapply tracked_prefix, Hf.
Qed.
End flush.
