(* ===== verification/StreamTcpProps.v ===== *)
(** * The inventory/want TCP driver: its theorems

    The driver as a transition system over its public operations and whatever
    happens on the network in between; that no operation panics or leaves the
    configured bounds; that the events it delivers come from the mesh through
    the policy; that writing loses nothing; and that both ends of a pair keep
    the same stream. *)

From S2P Require Export StreamTcpFlush.

Section driver_props.
Context `{NS : Nostr, !NostrLaws NS, FC : !FipsCore NS, FT : !FipsTcp FC, FL : !FipsTcpLaws FT, HO : !HashOrder}.
Context `{EJ : !EnvelopeJson, SD : !StrDebug}.
Implicit Types d : FipsInvWantTcpDriver.

(** ** The driver as a transition system *)
Inductive driver_op : Type :=
  | DvConnect (peer : PeerIdentity)
  | DvSeed (event : VerifiedEvent)
  | DvPublish (event : VerifiedEvent)
  | DvReceive
  | DvPoll
  | DvAbort (peer : PeerIdentity).
Definition driver_op_ok (op : driver_op) : Prop :=
  match op with DvSeed v | DvPublish v => verified (as_event v) | _ => True end.
(** What the caller is given to deliver: an error hides the report. *)
Definition delivered_by {A} (deliveries : A → list QueryEvent)
    (p : option (res A * FipsInvWantTcpDriver)) : option (list QueryEvent * FipsInvWantTcpDriver) :=
  '(r, d) ← p; Some (match r with Ok a => deliveries a | Err _ => [] end, d).
Definition driver_step (op : driver_op) (now : N) d : option (list QueryEvent * FipsInvWantTcpDriver) :=
  match op with
  | DvConnect peer => delivered_by (λ _, []) (connect_peer peer now d)
  | DvSeed event => delivered_by (λ _, []) (driver_seed event now d)
  | DvPublish event => delivered_by (λ _, []) (driver_publish event now d)
  | DvReceive => delivered_by dp_deliveries (driver_receive now d)
  | DvPoll => delivered_by dp_deliveries (driver_poll now d)
  | DvAbort peer => delivered_by (λ _, []) (driver_abort_peer peer d)
  end.

Context (o : FipsInvWantTcpDriverOptions) (so : FipsInvWantStreamOptions).
Context (ep : option PubsubPolicy) (pp : option (string → res (option MeshPeer))).

(** From a driver on a new stream, by operations at non-decreasing times, with
    the network moving in between. *)
Inductive driver_reach : N → list QueryEvent → FipsInvWantTcpDriver → Prop :=
  | driver_reach_new local_npub tcp s d :
      stream_new so = Ok s → tcp_driver_new local_npub tcp (configured ep pp s) o = Ok d →
      driver_reach 0 [] d
  | driver_reach_network clock delivered d tcp :
      driver_reach clock delivered d → driver_reach clock delivered (set_td_tcp tcp d)
  | driver_reach_step clock delivered d now op events d' :
      driver_reach clock delivered d → clock ≤ now → now ≤ u64_max → driver_op_ok op →
      driver_step op now d = Some (events, d') → driver_reach now (delivered ++ events) d'.

(** ** Every operation *)
Section at_now.
Context (limits : queue_limits_typed o) (typed : options_typed (normalize_options (so_mesh so))).
Context (now : N) (now_u64 : now ≤ u64_max).
Notation T := (tracked o so ep pp now).

Lemma maintain_triple l :
  pse_triple (E:=PubsubError) (T l) (pse_modify (λ d, set_td_stream (stream_maintain now (td_stream d)) d)) (λ _, T l) (T l).
Proof. apply triple_modify. intros d Hd. by apply (tracked_quiet_step _ _ _ _ _ now_u64 StMaintain). Qed.
Lemma drive_ready_triple report l :
  pse_triple (T (l ++ dp_deliveries report)) (drive_ready now report)
    (λ report, T (l ++ dp_deliveries report)) (T l).
Proof.
  assert (∀ d k, T (l ++ k) d → T l d) as Hpre by (intros ??; apply tracked_prefix).
  eapply triple_bind; [eapply triple_err; [apply maintain_triple|intros ?; apply Hpre]|]. intros [].
  eapply triple_bind; [eapply triple_err; [by apply accept_connections_triple|intros ?; apply Hpre]|]. intros [].
  eapply triple_bind; [by apply refresh_active_triple|]. intros report1. cbn beta.
  eapply triple_bind; [by apply read_active_triple|]. intros report2. cbn beta.
  eapply triple_bind; [apply flush_queues_triple|]. intros report3. cbn beta.
  apply (triple_bind _ _ _ (λ _, T (l ++ dp_deliveries report3))).
  { apply (triple_err _ _ _ _ (T (l ++ dp_deliveries report3))); [|intros ?; apply Hpre]. apply triple_get. intros d _.
    apply triple_iter. intros id _. apply on_tcp_triple. }
  intros []. eapply triple_bind; [by apply refresh_active_triple|]. intros report4. cbn beta.
  apply triple_get. intros d _. by apply triple_ret.
Qed.
Lemma connect_peer_triple peer l : pse_triple (T l) (connect_peer peer now) (λ _, T l) (T l).
Proof.
  intros d Hd. unfold connect_peer, pse_get, pse_lift, on_tcp, pse_modify. unfold mbind, pse_bind.
  destruct (has_peer_connection _ _ _); [done|].
  destruct (ensure_peer_capacity (identity_npub peer) d) as [u|] eqn:Hroom; [|done].
  destruct (tcp_connect peer now (td_tcp d)) as [[id|e] t]; simpl; [|by apply tracked_tcp].
  apply (tracked_tcp o so ep pp now t) in Hd.
  exact (tracked_connect o so ep pp now id (mkTracked (identity_npub peer) Outbound) l (set_td_tcp t d) u Hroom Hd).
Qed.
Lemma seed_triple event l :
  verified (as_event event) → pse_triple (T l) (driver_seed event now) (λ _, T l) (T l).
Proof.
  intros Hv d Hd. unfold driver_seed, on_stream.
  pose proof (tracked_quiet_step o so ep pp now now_u64 (StSeed event) _ l d Hv eq_refl Hd) as Hs.
  by destruct (stream_seed event now (td_stream d)) as [[?|?] s].
Qed.
Lemma publish_triple event l :
  verified (as_event event) → pse_triple (T l) (driver_publish event now) (λ _, T l) (T l).
Proof.
  intros Hv. apply triple_get. intros d _. eapply triple_bind; [by apply (on_stream_triple _ _ _ _ _ now_u64 _ (StPublish event (btree_elements (dom (td_active d)))))|].
  intros actions. cbn beta. apply (triple_bind _ _ _ (λ _, T l)).
  - eapply triple_conseq; [by apply apply_actions_triple|done| |done]. intros deliveries d'. apply tracked_prefix.
  - intros deliveries. apply triple_get. intros d' _. by apply triple_ret.
Qed.
Lemma abort_triple peer l : pse_triple (T l) (driver_abort_peer peer) (λ _, T l) (T l).
Proof.
  apply triple_get. intros d _. apply (triple_bind _ _ _ (λ _, T l)).
  - apply triple_iter. intros id _. apply triple_get. intros d1 _. apply (triple_bind _ _ _ (λ _, T l)).
    + case_decide; [apply on_tcp_triple|by apply triple_ret].
    + intros []. apply triple_modify. intros d2. apply tracked_fewer_connections, delete_subseteq.
  - intros []. apply triple_modify. intros d1 Hd1.
    apply (tracked_quiet_step o so ep pp now now_u64 (StDisconnect (identity_npub peer)) _ l (set_td_queues _ _));
      [done|done|].
    apply tracked_queues; [apply queues_ok_delete, Hd1|]. apply tracked_active; [|done].
    intros p q id [_ Hp]%lookup_delete_Some [_ Hq]%lookup_delete_Some. eapply dv_active; [apply Hd1|exact Hp|exact Hq].
Qed.
Lemma poll_triple l :
  pse_triple (T l) (driver_poll now) (λ report, T (l ++ dp_deliveries report)) (T l).
Proof.
  apply (triple_bind _ _ _ (λ _, T l)); [apply on_tcp_triple|]. intros [].
  eapply triple_pre; [apply (drive_ready_triple report_default)|]. intros d. by rewrite app_nil_r.
Qed.
Lemma receive_triple l :
  pse_triple (T l) (driver_receive now) (λ report, T (l ++ dp_deliveries report)) (T l).
Proof.
  intros d Hd. unfold driver_receive.
  destruct (tcp_receive_filtered _ _ _ _) as [[received policy_error] t].
  apply (tracked_tcp o so ep pp now t) in Hd.
  destruct received as [[datagrams rejected]|e]; [|done]. destruct policy_error as [error|]; [done|].
  apply (drive_ready_triple (mkDriveReport datagrams rejected 0 0 0 [])). simpl. by rewrite app_nil_r.
Qed.

Lemma delivered_by_ok {A} (c : PSE FipsInvWantTcpDriver PubsubError A) deliveries l d :
  pse_triple (T l) c (λ a, T (l ++ deliveries a)) (T l) → T l d →
  ∃ events d', delivered_by deliveries (c d) = Some (events, d') ∧ T (l ++ events) d'.
Proof.
  intros Hc Hd. specialize (Hc d Hd). destruct (c d) as [[[a|e] d']|]; [| |done].
  - by exists (deliveries a), d'.
  - exists [], d'. by rewrite app_nil_r.
Qed.
Lemma driver_step_ok op l d :
  driver_op_ok op → T l d → ∃ events d', driver_step op now d = Some (events, d') ∧ T (l ++ events) d'.
Proof.
  intros Hop Hd. assert (∀ A (c : PSE FipsInvWantTcpDriver PubsubError A),
    pse_triple (T l) c (λ _, T l) (T l) →
    ∃ events d', delivered_by (λ _, []) (c d) = Some (events, d') ∧ T (l ++ events) d') as Hquiet.
  { intros A c Hc. apply delivered_by_ok; [|done]. eapply triple_conseq; [exact Hc|done| |done].
    intros a s. by rewrite app_nil_r. }
  destruct op; simpl in *.
  - apply Hquiet, connect_peer_triple.
  - by apply Hquiet, seed_triple.
  - by apply Hquiet, publish_triple.
  - by apply delivered_by_ok; [apply receive_triple|].
  - by apply delivered_by_ok; [apply poll_triple|].
  - apply Hquiet, abort_triple.
Qed.
End at_now.

Lemma driver_reach_tracked clock delivered d :
  queue_limits_typed o → options_typed (normalize_options (so_mesh so)) →
  driver_reach clock delivered d → tracked o so ep pp clock delivered d.
Proof.
  intros Hl Ht. induction 1 as [npub tcp s d Hs Hd|clock delivered d tcp _ IH|clock delivered d now op events d' _ IH Hle Hmax Hop Hstep].
  - unfold tcp_driver_new in Hd. apply result_bind_Ok in Hd as ([] & _ & [= <-]). split.
    + split; simpl; [done|split; [apply N.le_0_l|by intros ?? ?%lookup_empty_Some]| |by intros ??? ?%lookup_empty_Some].
      unfold connection_peers, ssize. rewrite (hash_values_perm ∅), map_to_list_empty. apply N.le_0_l.
    + exists 0, []. split_and!; [done|by apply stream_reach_new|done].
  - by apply tracked_tcp.
  - assert (tracked o so ep pp now delivered d) as Hd.
    { destruct IH as (Hok & clock0 & out & Hc & H). split; [done|]. exists clock0, out. split; [lia|done]. }
    destruct (driver_step_ok Hl Ht now Hmax op delivered d Hop Hd) as (events' & d1 & Hs & Hd1).
    rewrite Hs in Hstep. by injection Hstep as <- <-.
Qed.
Lemma deliveries_shown s (shown : list InvWantAction) out delivered :
  Forall2 (renders s) shown out → delivered `sublist_of` action_deliveries out →
  ∃ shown', shown' `sublist_of` shown ∧ Forall2 (λ a q, renders s a (StreamDeliver q)) shown' delivered.
Proof.
  intros Hr. revert delivered. induction Hr as [|a e shown out Ha Hr IH]; intros delivered Hs.
  - apply sublist_nil_r in Hs as ->. by exists [].
  - destruct e as [peer record|q]; simpl in Hs.
    + destruct (IH delivered Hs) as (shown' & ? & ?). exists shown'. split; [by constructor|done].
    + apply sublist_cons_r in Hs as [Hs|(delivered' & -> & Hs)].
      * destruct (IH delivered Hs) as (shown' & ? & ?). exists shown'. split; [by constructor|done].
      * destruct (IH delivered' Hs) as (shown' & ? & ?). exists (a :: shown'). split; by constructor.
Qed.

(** ** The theorems *)


(** The driver's memory is bounded: at any time at most [max_peers] peers
    have a queue or a connection, no queue holds more records or bytes than
    configured, its byte count is exactly what is left to write, and no
    connection serves two peers. *)
Theorem driver_queues_bounded clock delivered d :
  queue_limits_typed o → options_typed (normalize_options (so_mesh so)) →
  driver_reach clock delivered d →
  msize (td_queues d) ≤ to_max_peers o ∧ ssize (connection_peers (td_connections d)) ≤ to_max_peers o ∧
  (∀ peer q, td_queues d !! peer = Some q →
    nlen (pq_records q) ≤ to_max_queued_records_per_peer o ∧
    pq_bytes q = slen (pending_bytes (pq_records q)) ∧ pq_bytes q ≤ to_max_queued_bytes_per_peer o) ∧
  (∀ p q id, td_active d !! p = Some id → td_active d !! q = Some id → p = q).
Proof.
  intros Hl Ht Hr. destruct (driver_reach_tracked clock delivered d Hl Ht Hr) as ([_ [Hc He] Hn Ha] & _).
  split_and!; [done..| |done]. intros peer q Hq. destruct (He peer q Hq) as [[Hb _] Hrec Hby]. done.
Qed.

(** Nothing is lost or reordered on the way to a peer: queueing is all or
    nothing, and puts the records of every peer behind what it waits for; and
    a flush, even one that fails half-way, leaves what each stream was sent
    and what still waits for its peer together unchanged, touches nothing
    else, and writes at most the bytes of one turn. *)
Theorem queued_bytes_reach_peer clock delivered d actions now report :
  queue_limits_typed o → options_typed (normalize_options (so_mesh so)) →
  driver_reach clock delivered d → clock ≤ now →
  (∃ r d', apply_actions actions d = Some (r, d') ∧
    match r with
    | Err _ => d' = d
    | Ok deliveries => deliveries = action_deliveries actions ∧ ∀ peer,
        pending_for (td_queues d') peer =
          pending_for (td_queues d) peer +:+ concat_strings (sends_to peer (action_sends actions))
    end) ∧
  (∃ r d', driver_flush_queues now report d = Some (r, d') ∧
    conserved (btree_to_list (td_active d)) (driver_view d) (driver_view d') ∧
    ∀ report', r = Ok report' →
      dp_stream_bytes_written report' ≤ dp_stream_bytes_written report + to_max_io_bytes_per_drive o).
Proof.
  intros Hl Ht Hr Hle. pose proof (driver_reach_tracked clock delivered d Hl Ht Hr) as Hd. split.
  - pose proof Hd as ([Ho Hq _ _] & _). pose proof (apply_actions_spec o actions d Ho Hl Hq) as Happ.
    destruct (apply_actions actions d) as [[[deliveries|e] d']|]; [| |done].
    + destruct Happ as (-> & queues & -> & _ & Hp). by do 2 eexists.
    + by do 2 eexists.
  - assert (tracked o so ep pp now delivered d) as Hd'.
    { destruct Hd as (Hok & clock0 & out & Hc & H). split; [done|]. exists clock0, out. split; [lia|done]. }
    pose proof (flush_queues_ok o so ep pp now report delivered d Hd') as Hf.
    destruct (driver_flush_queues now report d) as [[r d']|]; [|done].
    destruct Hf as (_ & Hc & Hw). exists r, d'. split_and!; [done..|]. intros report' Hok. by apply Hw.
Qed.

(** ** The loops end *)
Lemma flush_loop_fuel f1 f2 peer id now budget report d :
  (N.to_nat budget ≤ f1)%nat → (N.to_nat budget ≤ f2)%nat →
  flush_loop f1 peer id now budget report d = flush_loop f2 peer id now budget report d.
Proof.
  revert f2 budget report d. induction f1 as [|f1 IH]; intros f2 budget report d H1 H2.
  { destruct f2; [done|]. cbn [flush_loop]. by rewrite decide_True by lia. }
  destruct f2 as [|f2]; [cbn [flush_loop]; by rewrite decide_True by lia|]. cbn [flush_loop].
  case_decide as Hb; [done|]. destruct (_ ≫= _) as [record|]; [|done].
  unfold mbind, pse_bind. destruct (on_tcp _ _ d) as [[[accepted|e] d1]|]; [|done..].
  case_decide as Ha; [done|]. unfold pse_modify. apply IH; lia.
Qed.
Lemma accept_loop_fuel f1 f2 d :
  (tcp_backlog (td_tcp d) < f1)%nat → (tcp_backlog (td_tcp d) < f2)%nat →
  accept_loop f1 d = accept_loop f2 d.
Proof.
  revert f2 d. induction f1 as [|f1 IH]; intros [|f2] d H1 H2; try lia. cbn [accept_loop].
  destruct (tcp_accept (td_tcp d)) as [[id|] t] eqn:Ha; [|done]. apply tcp_accept_backlog in Ha.
  destruct (tcp_peer (td_tcp (set_td_tcp t d)) id) as [peer|]; [|done].
  destruct (is_err _); [|apply IH; simpl; lia].
  unfold mbind, pse_bind, on_tcp. simpl. pose proof (tcp_abort_backlog id t) as Hb.
  destruct (tcp_abort id t) as [[[]|e] t']; simpl in *; [|done]. apply IH; simpl; lia.
Qed.
(** The loops over what a peer sends and accepts end: the budget of a turn
    is fuel enough to write a queue, and the endpoint's backlog to accept its
    connections; more fuel changes nothing. *)
Theorem driver_loops_end d peer id now budget report extra :
  flush_loop (N.to_nat budget + extra) peer id now budget report d
    = flush_loop (N.to_nat budget) peer id now budget report d ∧
  accept_loop (S (tcp_backlog (td_tcp d)) + extra) d = accept_connections d.
Proof.
  split; [apply flush_loop_fuel; lia|]. unfold accept_connections, pse_get, mbind, pse_bind.
  apply accept_loop_fuel; lia.
Qed.
End driver_props.

(** ** One stream per pair *)
Section agreement.
Implicit Types (a b : string) (x y : N).

Lemma sort_two local peer x y streams :
  streams ≡ₚ [(x, Outbound); (y, Inbound)] →
  (sort_by (stream_order local peer) streams).*1 =
    if bool_decide (String.compare local peer = Lt) then [x; y] else [y; x].
Proof.
  intros Hp. apply Permutation_sym, Permutation_length_2_inv in Hp.
  unfold stream_order, cmp_then, cmp_on, bool_compare.
  destruct (bool_decide (String.compare local peer = Lt)) eqn:Hlt; destruct Hp as [-> | ->]; reflexivity.
Qed.
(** The two ends of two streams between [a] and [b], one opened by either: at
    [a] they are the connections [x] (its own) and [y], at [b] [x'] and [y']. *)
Lemma choose_one local peer x y streams :
  streams ≡ₚ [(x, Outbound); (y, Inbound)] →
  choose_streams local [(peer, streams)] =
    if bool_decide (String.compare local peer = Lt) then ({[peer := x]}, [y]) else ({[peer := y]}, [x]).
Proof.
  intros Hp. pose proof (sort_two local peer x y streams Hp) as Hs. cbn [choose_streams].
  destruct (sort_by _ streams) as [|[s dir] rest]; [by destruct (bool_decide _)|].
  rewrite fmap_cons in Hs. destruct (bool_decide _); injection Hs as Hx Hs; simpl in Hx; subst s; by rewrite Hs.
Qed.
(** When two peers open a stream to each other at the same time, both keep
    the same one and drop the same other, whatever the order they saw them in:
    the stream opened by the peer with the smaller npub. *)
Theorem simultaneous_open_agrees a b x y x' y' at_a at_b :
  a ≠ b → at_a ≡ₚ [(x, Outbound); (y, Inbound)] → at_b ≡ₚ [(y', Outbound); (x', Inbound)] →
  choose_streams a [(b, at_a)] = ({[b := x]}, [y]) ∧ choose_streams b [(a, at_b)] = ({[a := x']}, [y']) ∨
  choose_streams a [(b, at_a)] = ({[b := y]}, [x]) ∧ choose_streams b [(a, at_b)] = ({[a := y']}, [x']).
Proof.
  intros Hne Ha Hb. rewrite (choose_one a b x y at_a Ha), (choose_one b a y' x' at_b Hb).
  pose proof (String.compare_antisym a b) as Hanti.
  destruct (String.compare a b) eqn:Hab, (String.compare b a) eqn:Hba; simpl in *; try done;
    [|by left|by right].
  by apply String.compare_eq_iff in Hab.
Qed.
End agreement.
