(* ===== verification/ServiceRetry.v ===== *)
(** * The client's driver: dials and inbound leases

    When the driver of WireTcp.v dials a peer again, and which inbound peers it
    keeps. *)

From S2P Require Export Prelude FipsTcp.

(** ** When to dial a service again

    crates/nostr-pubsub-fips/src/wire_tcp/retry.rs: [ServiceRetry], the next
    outbound attempt to a selected peer. An [Instant] is the milliseconds of a
    monotonic clock. *)

Definition SERVICE_RETRY_INTERVAL : N := 3000.
Definition MAX_SERVICE_RETRY_INTERVAL : N := 60000.
Definition STABLE_SERVICE_INTERVAL : N := 30000.

Record ServiceRetry : Set := mkServiceRetry {
  next_attempt_at : option N;
  failures : N;
  retry_scheduled : bool;
  connected_since : option N;
}.
Definition service_retry_default : ServiceRetry := mkServiceRetry None 0 false None.
Implicit Types r : ServiceRetry.

Definition is_waiting (now : N) r : bool :=
  is_some_and (λ due, bool_decide (now < due)) (next_attempt_at r).
Definition started (now : N) r : ServiceRetry :=
  mkServiceRetry (Some (now + SERVICE_RETRY_INTERVAL)) (failures r) false None.
Definition retry_delay (failures : N) : N :=
  (SERVICE_RETRY_INTERVAL * N.shiftl 1 (failures - 1)) `min` MAX_SERVICE_RETRY_INTERVAL.
Definition failed (now : N) r : ServiceRetry :=
  let failures := u32_sat_add (failures r) 1 `min` 6 in
  let due := now + retry_delay failures in
  mkServiceRetry (Some (from_option (λ old, old `max` due) due (next_attempt_at r))) failures true None.
Definition restore_fast_retry (now : N) r : ServiceRetry :=
  mkServiceRetry ((λ due, due `min` (now + SERVICE_RETRY_INTERVAL)) <$> next_attempt_at r) 0
    (retry_scheduled r) (connected_since r).
Definition connected (now : N) r : ServiceRetry :=
  let since := default now (connected_since r) in
  let r := mkServiceRetry (next_attempt_at r) (failures r) (retry_scheduled r) (Some since) in
  let r := if decide (STABLE_SERVICE_INTERVAL ≤ now - since) then restore_fast_retry now r else r in
  mkServiceRetry (next_attempt_at r) (failures r) false (connected_since r).
Definition in_flight r : ServiceRetry :=
  mkServiceRetry (next_attempt_at r) (failures r) false (connected_since r).
Definition next_retry_at r : option N := if retry_scheduled r then next_attempt_at r else None.
Definition service_discovered (now : N) r : ServiceRetry :=
  restore_fast_retry now (mkServiceRetry (next_attempt_at r) (failures r) (retry_scheduled r) None).

(** ** The retry as a state machine *)
Inductive retry_op : Set := RtStarted | RtFailed | RtConnected | RtInFlight | RtDiscovered.
Definition retry_step (op : retry_op) (now : N) r : ServiceRetry :=
  match op with
  | RtStarted => started now r
  | RtFailed => failed now r
  | RtConnected => connected now r
  | RtInFlight => in_flight r
  | RtDiscovered => service_discovered now r
  end.
(** What happens to one peer at non-decreasing times; its driver dials only
    when no attempt is due later. [dials] lists the attempts, latest first. *)
Inductive retry_run : N → list N → ServiceRetry → Prop :=
  | retry_new now : retry_run now [] service_retry_default
  | retry_dial clock dials r now :
      retry_run clock dials r → clock ≤ now → is_waiting now r = false →
      retry_run now (now :: dials) (started now r)
  | retry_other clock dials r now op :
      retry_run clock dials r → clock ≤ now → op ≠ RtStarted →
      retry_run now dials (retry_step op now r).
(** Every attempt is at least three seconds after the one before. *)
Fixpoint spaced (dials : list N) : Prop :=
  match dials with
  | later :: ((earlier :: _) as rest) => earlier + SERVICE_RETRY_INTERVAL ≤ later ∧ spaced rest
  | _ => True
  end.

Lemma retry_delay_bounds n : SERVICE_RETRY_INTERVAL ≤ retry_delay n ≤ MAX_SERVICE_RETRY_INTERVAL.
Proof.
  unfold retry_delay. rewrite N.shiftl_mul_pow2.
  pose proof (N.pow_nonzero 2 (n - 1) ltac:(done)). unfold SERVICE_RETRY_INTERVAL, MAX_SERVICE_RETRY_INTERVAL. lia.
Qed.
(** What every run keeps: the next attempt is at least three seconds after the
    last, and at most a minute away. *)
Record retry_ok (clock : N) (dials : list N) r : Prop := {
  rt_failures : failures r ≤ 6;
  rt_scheduled : retry_scheduled r = true → is_Some (next_attempt_at r);
  rt_last last rest : dials = last :: rest →
    last ≤ clock ∧ ∃ due, next_attempt_at r = Some due ∧ last + SERVICE_RETRY_INTERVAL ≤ due;
  rt_bound due : next_attempt_at r = Some due → due ≤ clock + MAX_SERVICE_RETRY_INTERVAL;
  rt_spaced : spaced dials;
}.
Lemma retry_ok_later clock now dials r : clock ≤ now → retry_ok clock dials r → retry_ok now dials r.
Proof.
  intros Hle [Hf Hs Hl Hb Hd]. split; [done|done| | |done].
  - intros last rest Heq. destruct (Hl last rest Heq) as [? ?]. split; [lia|done].
  - intros due Hdue. specialize (Hb due Hdue). lia.
Qed.
(** A step that leaves the next attempt or moves it within the bounds. *)
Lemma retry_ok_move now dials r r' :
  failures r' ≤ 6 → (retry_scheduled r' = true → is_Some (next_attempt_at r')) →
  (∀ due, next_attempt_at r = Some due → due ≤ now + MAX_SERVICE_RETRY_INTERVAL →
    ∃ due', next_attempt_at r' = Some due' ∧ (due `min` (now + SERVICE_RETRY_INTERVAL) ≤ due')) →
  (∀ due', next_attempt_at r' = Some due' → due' ≤ now + MAX_SERVICE_RETRY_INTERVAL) →
  retry_ok now dials r → retry_ok now dials r'.
Proof.
  intros Hf Hs Hmove Hbound [_ _ Hl Hb Hd]. split; [done|done| |done|done].
  intros last rest Heq. destruct (Hl last rest Heq) as (Hle & due & Hdue & Hge). split; [done|].
  destruct (Hmove due Hdue (Hb due Hdue)) as (due' & Hdue' & Hge'). exists due'. split; [done|lia].
Qed.
Lemma restore_ok now dials r since scheduled :
  (scheduled = true → retry_scheduled r = true) → retry_ok now dials r →
  retry_ok now dials (mkServiceRetry ((λ due, due `min` (now + SERVICE_RETRY_INTERVAL)) <$> next_attempt_at r)
    0 scheduled since).
Proof.
  intros Hs Hr. pose proof Hr as [_ Hsched _ Hb _]. apply (retry_ok_move now dials r); simpl; [lia| | | |done].
  - intros Ht. destruct (Hsched (Hs Ht)) as [due ->]. by eexists.
  - intros due -> _. by eexists.
  - intros due'. destruct (next_attempt_at r) as [due|] eqn:Hdue; [|done]. intros [= <-].
    unfold MAX_SERVICE_RETRY_INTERVAL, SERVICE_RETRY_INTERVAL. lia.
Qed.
Lemma same_attempt_ok now dials r since scheduled :
  (scheduled = true → retry_scheduled r = true) → retry_ok now dials r →
  retry_ok now dials (mkServiceRetry (next_attempt_at r) (failures r) scheduled since).
Proof.
  intros Hs Hr. pose proof Hr as [Hf Hsched _ Hb _]. apply (retry_ok_move now dials r); simpl; [done|auto| |done|done].
  intros due -> _. exists due. split; [done|lia].
Qed.
Lemma service_step_ok op now dials r :
  op ≠ RtStarted → retry_ok now dials r → retry_ok now dials (retry_step op now r).
Proof.
  intros Hop Hr. pose proof Hr as [Hf Hsched _ Hb _]. destruct op; [done| | | |]; simpl.
  - unfold failed. set (n := u32_sat_add (failures r) 1 `min` 6). pose proof (retry_delay_bounds n).
    apply (retry_ok_move now dials r); simpl; [lia|by eexists| | |done].
    + intros due -> _. simpl. eexists. split; [done|lia].
    + intros due'. destruct (next_attempt_at r) as [due|] eqn:Hdue; simpl; intros [= <-]; [specialize (Hb due eq_refl)|]; lia.
  - unfold connected. case_decide; simpl; [by apply restore_ok|by apply same_attempt_ok].
  - apply same_attempt_ok; [|done]. by intros.
  - unfold service_discovered, restore_fast_retry. simpl. apply restore_ok; [|done]. by intros.
Qed.
Lemma retry_run_ok clock dials r : retry_run clock dials r → retry_ok clock dials r.
Proof.
  induction 1 as [now|clock dials r now _ IH Hle Hwait|clock dials r now op _ IH Hle Hop].
  - split; simpl; [lia|done|done|done|done].
  - apply (retry_ok_later clock now) in IH; [|done]. destruct IH as [Hf Hs Hl Hb Hd].
    split; simpl; [done|done| | |].
    + intros last rest [= <- <-]. split; [done|]. by eexists.
    + intros due [= <-]. unfold MAX_SERVICE_RETRY_INTERVAL, SERVICE_RETRY_INTERVAL. lia.
    + destruct dials as [|last dials]; [done|]. split; [|done].
      destruct (Hl last dials eq_refl) as (_ & due & Hdue & Hge). unfold is_waiting in Hwait.
      rewrite Hdue in Hwait. simpl in Hwait. apply bool_decide_eq_false in Hwait. lia.
  - apply service_step_ok; [done|]. by eapply retry_ok_later.
Qed.

(** ** The theorems *)

(** Whatever happens to a peer's service, and however often it is advertised
    again, it is dialled at most once in three seconds, and it never waits more
    than a minute for the next attempt; after a failure the retry is scheduled. *)
Theorem service_dials_paced clock dials r :
  retry_run clock dials r →
  spaced dials ∧
  (∀ due, next_attempt_at r = Some due → due ≤ clock + MAX_SERVICE_RETRY_INTERVAL) ∧
  (∀ now, clock ≤ now → ∃ due, next_retry_at (failed now r) = Some due ∧
    now + SERVICE_RETRY_INTERVAL ≤ due ≤ now + MAX_SERVICE_RETRY_INTERVAL).
Proof.
  intros Hr%retry_run_ok. pose proof Hr as [_ _ _ Hb Hd]. split_and!; [done..|].
  intros now Hle. apply (retry_ok_later clock now) in Hr; [|done].
  pose proof (service_step_ok RtFailed now dials r ltac:(done) Hr) as [_ _ _ Hb' _]. simpl in Hb'.
  unfold next_retry_at, failed. simpl. eexists. split; [reflexivity|]. split; [|by apply Hb'].
  match goal with |- context [retry_delay ?n] => pose proof (retry_delay_bounds n) end.
  destruct (next_attempt_at r); simpl; lia.
Qed.

(** An attempt that fails: dialled, perhaps seen connected for less than the
    stable interval, and lost. *)
Record attempt : Set := mkAttempt { at_started : N; at_connected : list N; at_failed : N }.
Definition attempt_ok (a : attempt) : Prop :=
  at_started a ≤ at_failed a ∧
  match at_connected a with
  | [] => True
  | first :: seen => Forall (λ now, now < first + STABLE_SERVICE_INTERVAL) seen
  end.
Definition run_attempt r (a : attempt) : ServiceRetry :=
  failed (at_failed a) (foldl (λ r now, connected now r) (started (at_started a) r) (at_connected a)).
Lemma connected_short r first now :
  connected_since r = Some first → now < first + STABLE_SERVICE_INTERVAL →
  connected now r = mkServiceRetry (next_attempt_at r) (failures r) false (Some first).
Proof. intros Hc Hlt. unfold connected. rewrite Hc. simpl. by rewrite decide_False by (unfold STABLE_SERVICE_INTERVAL in *; lia). Qed.
Lemma seen_short first seen r :
  connected_since r = Some first → Forall (λ now, now < first + STABLE_SERVICE_INTERVAL) seen →
  let r' := foldl (λ r now, connected now r) r seen in
  next_attempt_at r' = next_attempt_at r ∧ failures r' = failures r.
Proof.
  intros Hc Hall. revert r Hc. induction Hall as [|now seen Hlt _ IH]; intros r Hc; [done|]. cbn [foldl].
  rewrite (connected_short r first now Hc Hlt). exact (IH (mkServiceRetry _ _ _ _) eq_refl).
Qed.
Lemma run_attempt_eq r a :
  attempt_ok a → failures r ≤ 6 →
  let n := u32_sat_add (failures r) 1 `min` 6 in
  failures (run_attempt r a) = n ∧ next_retry_at (run_attempt r a) = Some (at_failed a + retry_delay n).
Proof.
  intros [Hle Hc] Hf n. unfold run_attempt. set (r1 := started (at_started a) r).
  assert (let r' := foldl (λ r now, connected now r) r1 (at_connected a) in
    next_attempt_at r' = next_attempt_at r1 ∧ failures r' = failures r1) as [Hn Hfs].
  { destruct (at_connected a) as [|first seen]; [done|]. cbn [foldl].
    assert (connected first r1 = mkServiceRetry (next_attempt_at r1) (failures r1) false (Some first)) as ->.
    { unfold connected, r1. simpl. rewrite N.sub_diag. done. }
    exact (seen_short first seen (mkServiceRetry _ _ _ _) eq_refl Hc). }
  unfold failed, next_retry_at. cbn [failures retry_scheduled next_attempt_at]. rewrite Hfs, Hn.
  change (failures r1) with (failures r). fold n. split; [done|].
  unfold r1. cbn [started next_attempt_at from_option]. pose proof (retry_delay_bounds n).
  f_equal. lia.
Qed.
(** Repeated failures back off: after [n] failed attempts in a row, the last
    of them lost at some moment, the next one is due 3, 6, 12, 24, 48 and from
    then on 60 seconds later; short connections in between do not help. *)
Theorem failures_back_off attempts a :
  Forall attempt_ok attempts → attempt_ok a →
  let r := foldl run_attempt service_retry_default (attempts ++ [a]) in
  next_retry_at r = Some (at_failed a +
    default MAX_SERVICE_RETRY_INTERVAL ([3000; 6000; 12000; 24000; 48000] !! length attempts)).
Proof.
  intros Hall Ha r. unfold r. rewrite foldl_app. cbn [foldl].
  assert (∀ l r, Forall attempt_ok l → failures r ≤ 6 →
    failures (foldl run_attempt r l) = N.min (failures r + nlen l) 6) as Hcount.
  { intros l. induction l as [|x l IH]; intros r0 Hl Hr; simpl; [unfold nlen; simpl; lia|].
    apply Forall_cons in Hl as [Hx Hl]. destruct (run_attempt_eq r0 x Hx Hr) as [Hf _].
    rewrite IH, Hf; [|done|rewrite Hf; lia]. unfold u32_sat_add, sat_add, u32_max, nlen. simpl length. lia. }
  set (r0 := foldl run_attempt service_retry_default attempts).
  assert (failures r0 = N.min (nlen attempts) 6) as Hf by by apply Hcount.
  destruct (run_attempt_eq r0 a Ha) as [_ ->]; [lia|]. do 2 f_equal. rewrite Hf.
  unfold nlen. destruct (length attempts) as [|[|[|[|[|n]]]]]; [reflexivity..|].
  replace (u32_sat_add _ 1 `min` 6) with 6 by (unfold u32_sat_add, sat_add, u32_max; lia). reflexivity.
Qed.

Module RetryWitness.
Lemma service_dials_paced_witness :
  let r := failed 4000 (started 3600 (service_discovered 2000 (failed 500 (started 0 service_retry_default)))) in
  spaced [3600; 0] ∧
  (∀ due, next_attempt_at r = Some due → due ≤ 4000 + MAX_SERVICE_RETRY_INTERVAL) ∧
  (∀ now, 4000 ≤ now → ∃ due, next_retry_at (failed now r) = Some due ∧
    now + SERVICE_RETRY_INTERVAL ≤ due ≤ now + MAX_SERVICE_RETRY_INTERVAL).
Proof.
  apply (service_dials_paced 4000 [3600; 0]).
  refine (retry_other 3600 _ _ 4000 RtFailed _ _ _); [|done|done].
  refine (retry_dial 2000 _ _ 3600 _ _ _); [|done|].
  - refine (retry_other 500 _ _ 2000 RtDiscovered _ _ _); [|done|done].
    refine (retry_other 0 _ _ 500 RtFailed _ _ _); [|done|done].
    refine (retry_dial 0 _ _ 0 _ _ _); [apply (retry_new 0)|done|done].
  - vm_compute. reflexivity.
Defined.
(** Three short connections. *)
Definition short (now : N) : attempt := mkAttempt now [now + 10; now + 20] (now + 30).
Lemma failures_back_off_witness :
  next_retry_at (foldl run_attempt service_retry_default ([short 0; short 5000] ++ [short 20000])) = Some (20030 + 12000).
Proof. apply (failures_back_off [short 0; short 5000] (short 20000)); by repeat constructor. Defined.
End RetryWitness.

(** ** Leases of inbound clients

    crates/nostr-pubsub-fips/src/wire_tcp/inbound.rs: [InboundPeers], the
    bounded slots for clients that dial in without being selected. *)

Definition IDLE_TIMEOUT : N := 30000.
(** A decoded segment, as the fips_tcp crate reads it. *)
Class TcpSegments : Type := {
  Segment : Type;
  segment_decode : string → result string Segment;
  seg_dst_port : Segment → N;
  seg_flags_are_syn : Segment → bool;
  seg_ack : Segment → option N;
  seg_payload : Segment → string;
  seg_supports_fips_version : Segment → N → bool;
  FIPS_VERSION : N;
}.

Section inbound.
Context `{NS : Nostr, FC : !FipsCore NS, TS : !TcpSegments}.
Notation InboundPeers := (gmap string N) (only parsing).

(** Header-only SYN to the service's port. *)
Definition initial_syn (bytes : string) : bool :=
  if decide (20 ≤ slen bytes ≤ 60) then
    match segment_decode bytes with
    | Ok segment =>
        bool_decide (seg_dst_port segment = FIPS_NOSTR_PUBSUB_SERVICE_PORT) && seg_flags_are_syn segment
        && bool_decide (seg_ack segment = None) && bool_decide (seg_payload segment = ""%string)
        && seg_supports_fips_version segment FIPS_VERSION
    | Err _ => false
    end
  else false.
Definition inbound_admit (peer : PeerIdentity) (bytes : string) (selected : gmap string ServiceRetry)
    (o : WireTcpOptions) (now : N) (inbound : InboundPeers) : bool * InboundPeers :=
  let identity := identity_npub peer in
  if decide (is_Some (selected !! identity)) then (true, inbound)
  else if decide (is_Some (inbound !! identity)) then (true, <[identity := now]> inbound)
  else if decide (wt_inbound_peer_capacity o ≤ msize inbound ∨
                  wt_peer_capacity o ≤ msize inbound + msize selected ∨ initial_syn bytes = false)
  then (false, inbound)
  else (true, <[identity := now]> inbound).
(** The leases of selected and of silent clients end. *)
Definition retire (selected : gset string) (now : N) (inbound : InboundPeers) : list PeerIdentity * InboundPeers :=
  let retired := (filter (λ lease, lease.1 ∈ selected ∨ IDLE_TIMEOUT ≤ now - lease.2) (btree_to_list inbound)).*1 in
  (omap (λ peer, match identity_from_npub peer with Ok peer => Some peer | Err _ => None end) retired,
   foldl (λ inbound peer, delete peer inbound) inbound retired).

Lemma admit_bounded peer bytes selected o now inbound :
  msize inbound ≤ wt_inbound_peer_capacity o →
  msize (inbound_admit peer bytes selected o now inbound).2 ≤ wt_inbound_peer_capacity o.
Proof.
  intros Hle. unfold inbound_admit. case_decide; [done|]. case_decide as Hin; simpl.
  - unfold msize in *. by rewrite map_size_insert_Some.
  - case_decide as Hfull; [done|]. simpl. assert (¬ wt_inbound_peer_capacity o ≤ msize inbound) as Hroom by tauto.
    unfold msize in *. rewrite map_size_insert_None by (by apply eq_None_not_Some). lia.
Qed.
Lemma retire_lookup selected now inbound peer since :
  (retire selected now inbound).2 !! peer = Some since →
  inbound !! peer = Some since ∧ peer ∉ selected ∧ now - since < IDLE_TIMEOUT.
Proof.
  unfold retire. simpl. set (retired := (filter _ _).*1).
  assert (∀ l m, foldl (λ (inbound : gmap string N) peer, delete peer inbound) m l !! peer = Some since →
    m !! peer = Some since ∧ peer ∉ l) as Hdel.
  { intros l. induction l as [|x l IH]; intros m; simpl; [intros H; split; [done|set_solver]|].
    intros [[Hne Hm]%lookup_delete_Some Hl]%IH. split; [done|]. set_solver. }
  intros [Hin Hnot]%Hdel. split; [done|].
  assert (¬ (peer ∈ selected ∨ IDLE_TIMEOUT ≤ now - since)) as Hstay.
  { intros Hout. apply Hnot. apply list_elem_of_fmap. exists (peer, since). split; [done|].
    apply list_elem_of_filter. split; [done|]. by apply btree_to_list_elem. }
  split; [tauto|]. apply N.nle_gt. tauto.
Qed.
Lemma retire_bounded selected now inbound n :
  msize inbound ≤ n → msize (retire selected now inbound).2 ≤ n.
Proof.
  intros Hle. etrans; [|exact Hle]. unfold msize. enough (size (retire selected now inbound).2 ≤ size inbound)%nat by lia.
  apply map_subseteq_size, map_subseteq_spec. intros peer since Hp. by apply retire_lookup in Hp as (-> & _).
Qed.
End inbound.
