(* ===== verification/WireTcp.v ===== *)
(** * The TCP driver of the FIPS client

    crates/nostr-pubsub-fips/src/wire_tcp.rs: [WireTcpDriver] carries the frames
    of the client's peers over TCP streams: selected peers it dials and redials,
    inbound clients it leases a slot, queues it writes and inputs it decodes. *)

From S2P Require Export FipsTransport ServiceRetry.

(** ** Decoding *)
Record WireDecoder : Set := mkWireDecoder { wi_max_frame_bytes : N; wi_buffer : string }.
Definition wire_decoder_new (max_frame_bytes : N) : WireDecoder := mkWireDecoder max_frame_bytes "".
Definition wire_push (bytes : string) : SE WireDecoder PubsubError unit := λ d,
  if decide (wi_max_frame_bytes d + 4 < usize_sat_add (slen (wi_buffer d)) (slen bytes)) then
    (Err (Storage "TCP/FIPS pubsub input exceeds frame bound"), mkWireDecoder (wi_max_frame_bytes d) "")
  else (Ok tt, mkWireDecoder (wi_max_frame_bytes d) (wi_buffer d +:+ bytes)).
Definition wire_take (max_frames : N) : SE WireDecoder PubsubError (list string) := λ d,
  let '(frames, rest) := take_records (wi_max_frame_bytes d) (N.to_nat max_frames) (wi_buffer d) in
  (map_err (λ _, Storage "TCP/FIPS pubsub frame exceeds configured bound") frames,
   mkWireDecoder (wi_max_frame_bytes d) rest).
(** A prefix that is too long is ready too: taking it is an error. *)
Definition wire_has_complete_record (d : WireDecoder) : bool :=
  if decide (slen (wi_buffer d) < 4) then false
  else
    let declared := u32_from_be_bytes (wi_buffer d) in
    bool_decide (wi_max_frame_bytes d < declared) || bool_decide (4 + declared ≤ slen (wi_buffer d)).
Definition wire_remaining_capacity (d : WireDecoder) : N :=
  usize_sat_add (wi_max_frame_bytes d) 4 - slen (wi_buffer d).
Definition wire_encode_record (frame : string) : res string :=
  if decide (u32_max < slen frame) then Err (Storage "pubsub frame is too large") else Ok (record_of frame).
(** [PeerQueue::restart]: a new stream starts at the first byte of a record. *)
Definition queue_restart (q : PeerQueue) : PeerQueue :=
  let records := (λ r, mkQueued (qd_bytes r) 0) <$> pq_records q in
  mkQueue records (foldr (λ r n, slen (qd_bytes r) + n) 0 records).

Section wire.
Context `{NS : Nostr, FC : !FipsCore NS, FT : !FipsTcp FC, TS : !TcpSegments, HO : !HashOrder}.

Record WireTcpDriver : Type := mkWireDriver {
  wd_local_npub : string;
  wd_selected_peers : gmap string ServiceRetry;
  wd_inbound : gmap string N;
  wd_tcp : Tcp;
  wd_options : WireTcpOptions;
  wd_connections : gmap ConnectionId TrackedConnection;
  wd_active : gmap string ConnectionId;
  wd_queues : gmap string PeerQueue;
  wd_inputs : gmap string WireDecoder;
  wd_continue_ready : bool;
}.
Implicit Types d : WireTcpDriver.
Definition wire_driver_new (local_npub : string) (tcp : Tcp) (o : WireTcpOptions) : res WireTcpDriver :=
  if decide (wt_peer_capacity o * 2 ≤ usize_max) then
    Ok (mkWireDriver local_npub ∅ ∅ tcp o ∅ ∅ ∅ ∅ false)
  else Err (Storage "TCP connection limit overflows").
Definition set_wd_selected v d : WireTcpDriver :=
  mkWireDriver (wd_local_npub d) v (wd_inbound d) (wd_tcp d) (wd_options d) (wd_connections d)
    (wd_active d) (wd_queues d) (wd_inputs d) (wd_continue_ready d).
Definition set_wd_inbound v d : WireTcpDriver :=
  mkWireDriver (wd_local_npub d) (wd_selected_peers d) v (wd_tcp d) (wd_options d) (wd_connections d)
    (wd_active d) (wd_queues d) (wd_inputs d) (wd_continue_ready d).
Definition set_wd_tcp v d : WireTcpDriver :=
  mkWireDriver (wd_local_npub d) (wd_selected_peers d) (wd_inbound d) v (wd_options d) (wd_connections d)
    (wd_active d) (wd_queues d) (wd_inputs d) (wd_continue_ready d).
Definition set_wd_connections v d : WireTcpDriver :=
  mkWireDriver (wd_local_npub d) (wd_selected_peers d) (wd_inbound d) (wd_tcp d) (wd_options d) v
    (wd_active d) (wd_queues d) (wd_inputs d) (wd_continue_ready d).
Definition set_wd_active v d : WireTcpDriver :=
  mkWireDriver (wd_local_npub d) (wd_selected_peers d) (wd_inbound d) (wd_tcp d) (wd_options d) (wd_connections d)
    v (wd_queues d) (wd_inputs d) (wd_continue_ready d).
Definition set_wd_queues v d : WireTcpDriver :=
  mkWireDriver (wd_local_npub d) (wd_selected_peers d) (wd_inbound d) (wd_tcp d) (wd_options d) (wd_connections d)
    (wd_active d) v (wd_inputs d) (wd_continue_ready d).
Definition set_wd_inputs v d : WireTcpDriver :=
  mkWireDriver (wd_local_npub d) (wd_selected_peers d) (wd_inbound d) (wd_tcp d) (wd_options d) (wd_connections d)
    (wd_active d) (wd_queues d) v (wd_continue_ready d).
Definition set_wd_continue v d : WireTcpDriver :=
  mkWireDriver (wd_local_npub d) (wd_selected_peers d) (wd_inbound d) (wd_tcp d) (wd_options d) (wd_connections d)
    (wd_active d) (wd_queues d) (wd_inputs d) v.
Notation Wr := (PSE WireTcpDriver PubsubError).

Definition on_wire_tcp {A} (context : string) (f : Tcp → result string A * Tcp) : Wr A := λ d,
  let '(r, t) := f (wd_tcp d) in Some (map_err (io_error context) r, set_wd_tcp t d).
Definition wd_now d : N := tcp_instant (wd_tcp d).
Definition on_retry (peer : string) (f : ServiceRetry → ServiceRetry) d : WireTcpDriver :=
  set_wd_selected (alter f peer (wd_selected_peers d)) d.
Definition note_service_failure (peer : string) d : WireTcpDriver := on_retry peer (failed (wd_now d)) d.
(** [let _ = c.await]. *)
Definition ignored {A} (c : Wr A) : Wr unit := λ d, '(_, d) ← c d; Some (Ok tt, d).

(** ** Peers *)
Definition is_inbound (peer : string) d : bool := bool_decide (is_Some (wd_inbound d !! peer)).
Definition wire_has_peer_connection (peer : string) d : bool :=
  has_peer_connection peer (wd_tcp d) (wd_connections d).
Definition ensure_peer_selected (peer : string) d : res unit :=
  if decide (wd_selected_peers d !! peer = None ∧ is_inbound peer d = false) then
    Err (Storage "TCP/FIPS Nostr pubsub peer is no longer selected")
  else Ok tt.
Definition wire_ensure_peer_capacity (peer : string) d : res unit :=
  _ ← ensure_peer_selected peer d;
  let peers := connection_peers (wd_connections d) in
  if decide (peer ∉ peers ∧ wt_peer_capacity (wd_options d) ≤ ssize peers) then
    Err (Storage ("TCP/FIPS pubsub peer limit is " +:+ pretty (wt_peer_capacity (wd_options d))))
  else Ok tt.
Definition restart_queue (peer : string) d : WireTcpDriver :=
  set_wd_queues (alter queue_restart peer (wd_queues d)) d.
Definition wire_abort_peer (peer : PeerIdentity) : Wr unit := λ d,
  let npub := identity_npub peer in
  let had_connection := bool_decide (npub ∈ connection_peers (wd_connections d)) in
  let '(result, t) := tcp_abort_peer peer (wd_tcp d) in
  let d := set_wd_tcp t d in
  let d := set_wd_connections (filter (λ c, tc_peer c.2 ≠ npub) (wd_connections d)) d in
  let d := set_wd_inputs (delete npub (wd_inputs d)) (set_wd_active (delete npub (wd_active d)) d) in
  let d := if had_connection then note_service_failure npub d else d in
  Some (map_err (io_error "abort TCP/FIPS Nostr pubsub peer") result, restart_queue npub d).
Definition forget_peer (peer : PeerIdentity) : Wr unit :=
  let npub := identity_npub peer in
  _ ← pse_modify (λ d, set_wd_queues (delete npub (wd_queues d))
        (set_wd_inbound (delete npub (wd_inbound d)) (set_wd_selected (delete npub (wd_selected_peers d)) d)));
  wire_abort_peer peer.
Definition ok_identity (npub : string) : option PeerIdentity :=
  match identity_from_npub npub with Ok peer => Some peer | Err _ => None end.
Definition select_peers (peers : gset string) : Wr (list PeerIdentity) :=
  d ← pse_get;
  let '(retired, inbound) := retire peers (wd_now d) (wd_inbound d) in
  _ ← pse_modify (set_wd_inbound inbound);
  _ ← pse_iter (λ peer, if decide (identity_npub peer ∉ peers) then ignored (forget_peer peer) else mret tt) retired;
  d ← pse_get;
  let removed := filter (λ peer, peer ∉ peers) (btree_elements (dom (wd_selected_peers d))) in
  _ ← pse_modify (λ d, set_wd_selected
        (foldl (λ selected peer, <[peer := default service_retry_default (selected !! peer)]> selected)
           (filter (λ p, p.1 ∈ peers) (wd_selected_peers d)) (btree_elements peers)) d);
  _ ← pse_iter (λ peer, match ok_identity peer with
                         | Some peer => ignored (forget_peer peer)
                         | None => mret tt
                         end) removed;
  mret retired.
Definition dial (peer : PeerIdentity) (peer_npub : string) (now_ms : N) : Wr unit := λ d,
  let '(id, t) := tcp_connect peer now_ms (wd_tcp d) in
  let d := set_wd_tcp t d in
  match id with
  | Ok id => Some (Ok tt, set_wd_connections (<[id := mkTracked peer_npub Outbound]> (wd_connections d)) d)
  | Err error => Some (Err (io_error "connect TCP/FIPS Nostr pubsub peer" error), note_service_failure peer_npub d)
  end.
Definition wire_connect_peer (peer_npub : string) (now_ms : N) : Wr unit :=
  d ← pse_get;
  _ ← pse_lift (ensure_peer_selected peer_npub d);
  if wire_has_peer_connection peer_npub d then
    let established := is_some_and (λ id, bool_decide (tcp_state (wd_tcp d) id = Some Established))
                         (wd_active d !! peer_npub) in
    pse_modify (λ d, on_retry peer_npub (if established then connected (wd_now d) else in_flight) d)
  else if is_inbound peer_npub d then
    pse_lift (Err (Storage "Inbound client has no live TCP connection"))
  else match wd_selected_peers d !! peer_npub with
  | None => λ _, None
  | Some retry =>
      if is_waiting (wd_now d) retry then mret tt
      else match wire_ensure_peer_capacity peer_npub d with
      | Err error => λ d, Some (Err error, note_service_failure peer_npub d)
      | Ok _ =>
          match identity_from_npub peer_npub with
          | Err error => λ d,
              Some (Err (io_error "decode TCP/FIPS Nostr pubsub peer" error), note_service_failure peer_npub d)
          | Ok peer =>
              _ ← pse_modify (λ d, on_retry peer_npub (started (wd_now d)) d);
              dial peer peer_npub now_ms
          end
      end
  end.
Definition next_service_retry_at d : option N :=
  foldl (λ m at_, match m with Some m => Some (m `min` at_) | None => Some at_ end) None
    (omap next_retry_at (btree_values (wd_selected_peers d))).
Definition due_service_peers d : list string :=
  (filter (λ p, is_some_and (λ at_, bool_decide (at_ ≤ wd_now d)) (next_retry_at p.2) = true)
     (btree_to_list (wd_selected_peers d))).*1.
Definition wire_service_discovered (peer : string) d : WireTcpDriver :=
  if wire_has_peer_connection peer d then d
  else on_retry peer (service_discovered (wd_now d)) d.

(** ** Queueing *)
Definition queue_frame (peer : PeerIdentity) (frame : string) : SE WireTcpDriver PubsubError unit := λ d,
  let npub := identity_npub peer in
  let o := wd_options d in
  match ensure_peer_selected npub d with
  | Err e => (Err e, d)
  | Ok _ =>
      if decide (wt_frame_capacity o < slen frame) then
        (Err (Storage ("Nostr pubsub frame is " +:+ pretty (slen frame) +:+ " bytes, maximum is "
                +:+ pretty (wt_frame_capacity o))), d)
      else match wire_encode_record frame with
      | Err e => (Err e, d)
      | Ok record =>
          if decide (wd_queues d !! npub = None ∧ wt_peer_capacity o ≤ msize (wd_queues d)) then
            (Err (Storage "TCP/FIPS Nostr pubsub queue peer limit reached"), d)
          else
            let queue := default queue_default (wd_queues d !! npub) in
            let with_queue q := set_wd_queues (<[npub := q]> (wd_queues d)) d in
            if decide (wt_queue_records_per_peer o ≤ nlen (pq_records queue)) then
              (Err (Storage ("TCP/FIPS Nostr pubsub record queue is full for " +:+ npub)), with_queue queue)
            else if decide (wt_queue_bytes_per_peer o < usize_sat_add (pq_bytes queue) (slen record)) then
              (Err (Storage ("TCP/FIPS Nostr pubsub byte queue is full for " +:+ npub)), with_queue queue)
            else (Ok tt, with_queue (queue_push_back record queue))
      end
  end.

(** ** Connections *)
Fixpoint wire_accept_loop (fuel : nat) : Wr unit :=
  match fuel with
  | O => mret tt
  | S fuel => λ d,
      let '(id, t) := tcp_accept (wd_tcp d) in
      let d := set_wd_tcp t d in
      match id with
      | None => Some (Ok tt, d)
      | Some id =>
          match tcp_peer (wd_tcp d) id with
          | None => Some (Err (Storage "accepted TCP/FIPS stream has no authenticated peer"), d)
          | Some peer =>
              let peer := identity_npub peer in
              if is_err (wire_ensure_peer_capacity peer d) then
                (_ ← on_wire_tcp "reject excess TCP/FIPS peer" (tcp_abort id); wire_accept_loop fuel) d
              else
                let connection := default (mkTracked peer Inbound) (wd_connections d !! id) in
                wire_accept_loop fuel (set_wd_connections (<[id := connection]> (wd_connections d)) d)
          end
      end
  end.
Definition wire_accept_connections : Wr unit :=
  d ← pse_get; wire_accept_loop (S (tcp_backlog (wd_tcp d))).
(** Every connection is the established, selected one of its peer. *)
Definition streams_unchanged d : bool :=
  bool_decide (msize (wd_connections d) = msize (wd_active d))
  && forallb (λ '(id, connection),
        bool_decide (tcp_state (wd_tcp d) id = Some Established)
        && bool_decide (wd_active d !! tc_peer connection = Some id)) (hash_iter (wd_connections d)).
(** The retry of each peer of [active] learns of its stream. *)
Definition note_streams (active : list (string * ConnectionId)) d : WireTcpDriver :=
  foldl (λ d '(peer, id),
      on_retry peer (if decide (tcp_state (wd_tcp d) id = Some Established) then connected (wd_now d) else in_flight) d)
    d active.
Definition wire_drop_extra (id : ConnectionId) : Wr unit :=
  _ ← on_wire_tcp "deduplicate TCP/FIPS pubsub stream" (tcp_abort id);
  pse_modify (λ d, set_wd_connections (delete id (wd_connections d)) d).
Definition drop_closed d : WireTcpDriver :=
  let open_ := filter (λ c, is_Some (tcp_state (wd_tcp d) c.1)) (wd_connections d) in
  let closed := connection_peers (filter (λ c, tcp_state (wd_tcp d) c.1 = None) (wd_connections d)) in
  foldl (λ d peer, if wire_has_peer_connection peer d then d else note_service_failure peer d)
    (set_wd_connections open_ d) (btree_elements closed).
Definition wire_refresh_active : Wr (list PeerIdentity) := λ d,
  if streams_unchanged d then
    Some (Ok [], foldl (λ d peer, on_retry peer (connected (wd_now d)) d) d (btree_elements (dom (wd_active d))))
  else
    let d := drop_closed d in
    let '(next_active, extras) :=
      choose_streams (wd_local_npub d) (btree_to_list (stream_candidates (wd_tcp d) (wd_connections d))) in
    (_ ← pse_modify (note_streams (btree_to_list next_active));
     _ ← pse_iter wire_drop_extra extras;
     d ← pse_get;
     let changed := changed_peers (wd_active d) next_active in
     let newly_connected := omap ok_identity (filter (λ peer, is_Some (next_active !! peer)) changed) in
     _ ← pse_modify (λ d, foldl (λ d peer, restart_queue peer (set_wd_inputs (delete peer (wd_inputs d)) d))
           (set_wd_active next_active d) changed);
     mret newly_connected) d.

(** ** Reading *)

(** The turns of one peer's stream: whether its input was rejected, the turns
    and budget left, and the frames so far. *)
Record ReadState : Type := mkRead { rs_left : nat; rs_budget : N; rs_frames : list (PeerIdentity * string) }.
Fixpoint wire_read_peer (turns : nat) (peer : string) (id : ConnectionId) (now_ms : N)
    (budget : N) (frames : list (PeerIdentity * string)) : Wr (bool * ReadState) :=
  match turns with
  | O => mret (false, mkRead 0 budget frames)
  | S next => λ d,
      let stop : Wr (bool * ReadState) := mret (false, mkRead turns budget frames) in
      let o := wd_options d in
      if decide (wt_drive_frames o ≤ nlen frames) then stop d
      else if is_some_and wire_has_complete_record (wd_inputs d !! peer) then
        match wd_inputs d !! peer with
        | None => None
        | Some decoder =>
            let '(decoded, decoder) := wire_take (wt_drive_frames o - nlen frames) decoder in
            let d := set_wd_inputs (<[peer := decoder]> (wd_inputs d)) d in
            match tcp_peer (wd_tcp d) id with
            | None => Some (Err (Storage "active TCP/FIPS stream has no authenticated peer"), d)
            | Some identity =>
                match decoded with
                | Err _ => (_ ← wire_abort_peer identity; mret (true, mkRead turns budget frames)) d
                | Ok decoded =>
                    wire_read_peer next peer id now_ms budget (frames ++ ((λ frame, (identity, frame)) <$> decoded)) d
                end
            end
        end
      else if decide (budget = 0) then stop d
      else
        let decoder := default (wire_decoder_new (wt_frame_capacity o)) (wd_inputs d !! peer) in
        let d := set_wd_inputs (<[peer := decoder]> (wd_inputs d)) d in
        let read_max := wire_remaining_capacity decoder `min` IO_CHUNK_BYTES `min` budget in
        if decide (read_max = 0) then stop d
        else
          (bytes ← on_wire_tcp "read TCP/FIPS pubsub stream" (tcp_read id read_max now_ms);
           if decide (bytes = ""%string) then stop
           else
             _ ← (λ d, let '(r, decoder) := wire_push bytes decoder in
                       Some (r, set_wd_inputs (<[peer := decoder]> (wd_inputs d)) d));
             wire_read_peer next peer id now_ms (budget - slen bytes) frames) d
  end.
Definition more_ready (read : ReadState) (o : WireTcpOptions) : bool :=
  bool_decide (rs_budget read = 0) || bool_decide (rs_left read = O)
  || bool_decide (nlen (rs_frames read) = wt_drive_frames o).
Definition note_more_ready (bad : bool) (read : ReadState) : Wr unit :=
  if bad then mret tt
  else pse_modify (λ d, set_wd_continue (wd_continue_ready d || more_ready read (wd_options d)) d).
Fixpoint wire_read_streams (streams : list (string * ConnectionId)) (now_ms : N)
    (budget : N) (frames : list (PeerIdentity * string)) (rejected : N)
    : Wr (list (PeerIdentity * string) * N) :=
  match streams with
  | [] => mret (frames, rejected)
  | (peer, id) :: streams =>
      '(bad, read) ← wire_read_peer MAX_READY_INPUT_TURNS peer id now_ms budget frames;
      _ ← note_more_ready bad read;
      wire_read_streams streams now_ms (rs_budget read) (rs_frames read) (if bad : bool then rejected + 1 else rejected)
  end.
Definition wire_read_active (now_ms : N) : Wr (list (PeerIdentity * string) * N) :=
  d ← pse_get;
  wire_read_streams (btree_to_list (wd_active d)) now_ms (wt_drive_io_bytes (wd_options d)) [] 0.

(** ** Writing *)

(** A write takes the front of all queued records. *)
Definition wire_chunk (budget : N) (records : list QueuedRecord) : string :=
  str_take (N.to_nat (IO_CHUNK_BYTES `min` budget)) (pending_bytes records).
(** The accepted bytes leave the records; a record not at its end is the last
    that loses any. *)
Fixpoint consume_records (remaining : N) (records : list QueuedRecord) : option (list QueuedRecord) :=
  if decide (remaining = 0) then Some records
  else match records with
  | [] => None
  | record :: records =>
      let consumed := remaining `min` (slen (qd_bytes record) - qd_offset record) in
      let record := mkQueued (qd_bytes record) (qd_offset record + consumed) in
      if decide (qd_offset record = slen (qd_bytes record)) then consume_records (remaining - consumed) records
      else Some (record :: records)
  end.
Definition wire_accepted (peer : string) (accepted : N) : Wr unit := λ d,
  match wd_queues d !! peer with
  | None => None
  | Some q =>
      records ← consume_records accepted (pq_records q);
      Some (Ok tt, set_wd_queues (<[peer := mkQueue records (pq_bytes q - accepted)]> (wd_queues d)) d)
  end.
Fixpoint wire_flush_loop (fuel : nat) (peer : string) (id : ConnectionId) (now_ms : N) (budget : N) : Wr N :=
  match fuel with
  | O => mret budget
  | S fuel => λ d,
      if decide (budget = 0) then Some (Ok budget, d)
      else match wd_queues d !! peer with
      | None | Some (mkQueue [] _) => Some (Ok budget, d)
      | Some q =>
          (accepted ← on_wire_tcp "write TCP/FIPS pubsub stream"
             (tcp_write id (wire_chunk budget (pq_records q)) now_ms);
           if decide (accepted = 0) then mret budget
           else
             _ ← wire_accepted peer accepted;
             wire_flush_loop fuel peer id now_ms (budget - accepted)) d
      end
  end.
Definition wire_drop_empty (peer : string) (queues : gmap string PeerQueue) : gmap string PeerQueue :=
  if is_some_and (λ q, bool_decide (pq_records q = [])) (queues !! peer) then delete peer queues else queues.
Fixpoint wire_flush_streams (streams : list (string * ConnectionId)) (now_ms : N) (budget : N) : Wr N :=
  match streams with
  | [] => mret budget
  | (peer, id) :: streams =>
      budget ← wire_flush_loop (N.to_nat budget) peer id now_ms budget;
      _ ← pse_modify (λ d, set_wd_queues (wire_drop_empty peer (wd_queues d)) d);
      wire_flush_streams streams now_ms budget
  end.
Definition wire_flush_queues (now_ms already_written : N) : Wr N := λ d,
  let initial_budget := wt_drive_io_bytes (wd_options d) - already_written in
  if decide (msize (wd_queues d) = 0) then Some (Ok 0, d)
  else
    (budget ← wire_flush_streams (btree_to_list (wd_active d)) now_ms initial_budget;
     _ ← pse_modify (λ d, set_wd_continue (wd_continue_ready d ||
           (bool_decide (budget = 0)
            && existsb (λ peer, bool_decide (is_Some (wd_queues d !! peer))) (btree_elements (dom (wd_active d))))) d);
     mret (initial_budget - budget)) d.
Definition wire_finish_remote_closes (now_ms : N) : Wr unit :=
  d ← pse_get;
  let closed := filter (λ s, tcp_is_read_closed (wd_tcp d) s.2 = true ∧ wd_queues d !! s.1 = None)
                  (btree_to_list (wd_active d)) in
  pse_iter (λ id, on_wire_tcp "close TCP/FIPS pubsub stream" (tcp_close id now_ms)) closed.*2.

(** ** Driving *)
Definition sort_identities (peers : list PeerIdentity) : list PeerIdentity :=
  dedup_by_key identity_npub (sort_by (cmp_on identity_npub String.compare) peers).
Definition wire_drive_ready (now_ms : N) : Wr WireTcpReport :=
  _ ← pse_modify (set_wd_continue false);
  d ← pse_get;
  let previous_inbound := filter (λ peer, is_inbound peer d = true) (btree_elements (dom (wd_active d))) in
  _ ← wire_accept_connections;
  newly_connected ← wire_refresh_active;
  '(frames, rejected_frames) ← wire_read_active now_ms;
  written_bytes ← wire_flush_queues now_ms 0;
  _ ← wire_finish_remote_closes now_ms;
  more_connected ← wire_refresh_active;
  let newly_connected := sort_identities (newly_connected ++ more_connected) in
  d ← pse_get;
  let disconnected := omap ok_identity (btree_elements (list_to_set
    (filter (λ peer, is_inbound peer d = true ∧ wd_active d !! peer = None)
       (previous_inbound ++ (identity_npub <$> newly_connected))))) in
  _ ← pse_iter (λ peer, ignored (forget_peer peer)) disconnected;
  d ← pse_get;
  mret (mkReport frames newly_connected disconnected (msize (wd_active d)) 0 0 rejected_frames written_bytes).
Definition wire_wait_for_input : Wr unit :=
  on_wire_tcp "wait for TCP/FIPS Nostr pubsub input" tcp_wait_for_input.
Definition wire_receive (now_ms : N) : Wr WireTcpReport := λ d,
  let '(received, inbound, t) := tcp_receive_datagrams
    (λ peer bytes now inbound, inbound_admit peer bytes (wd_selected_peers d) (wd_options d) now inbound)
    (wd_inbound d) (wd_tcp d) in
  let d := set_wd_tcp t (set_wd_inbound inbound d) in
  match received with
  | Err e => Some (Err (io_error "receive TCP/FIPS Nostr pubsub batch" e), d)
  | Ok (datagrams, rejected) =>
      (report ← wire_drive_ready now_ms;
       mret (mkReport (wr_frames report) (wr_newly_connected report) (wr_disconnected report)
               (wr_connected_peers report) datagrams rejected (wr_rejected_frames report)
               (wr_written_bytes report))) d
  end.
Definition wire_poll (now_ms : N) : Wr WireTcpReport :=
  _ ← on_wire_tcp "poll TCP/FIPS Nostr pubsub transport" (tcp_poll now_ms);
  wire_drive_ready now_ms.
Fixpoint forget_each (peers : list PeerIdentity) (errors : N) : Wr N :=
  match peers with
  | [] => mret errors
  | peer :: peers => λ d,
      '(r, d) ← forget_peer peer d; forget_each peers (if is_err r then errors + 1 else errors) d
  end.
Definition shutdown : Wr N :=
  d ← pse_get;
  let npubs := btree_elements (dom (wd_selected_peers d)) ++ btree_elements (dom (wd_inbound d))
               ++ (tc_peer <$> hash_values (wd_connections d)) in
  let peers := foldl (λ peers peer, <[identity_npub peer := peer]> peers)
                 (∅ : gmap string PeerIdentity) (omap ok_identity npubs) in
  forget_each (btree_values peers) 0.
Definition wire_next_poll_at (now_ms : N) d : option N :=
  if wd_continue_ready d then Some now_ms else tcp_next_poll_at (wd_tcp d) now_ms.
End wire.
