(* ===== verification/WireTcpInv.v ===== *)
(** * The client's driver: invariant and runs

    What every operation of WireTcp.v keeps, and the runs of a driver. *)

From S2P Require Export WireTcp StreamTcpFlush.

(** ** The TCP driver of the FIPS client: its invariant

    Bounds on everything [WireTcpDriver] keeps for its peers, which every
    operation preserves without panicking. *)

(** ** Queues *)
Fixpoint full_bytes (records : list QueuedRecord) : N :=
  match records with [] => 0 | r :: records => slen (qd_bytes r) + full_bytes records end.
(** Only the first record can be partly written. *)
Definition tail_unwritten (records : list QueuedRecord) : Prop :=
  Forall (λ r, qd_offset r = 0) (tail records).
Record wire_queue_ok (o : WireTcpOptions) (q : PeerQueue) : Prop := {
  wq_sound : queue_sound q;
  wq_tail : tail_unwritten (pq_records q);
  wq_records : nlen (pq_records q) ≤ wt_queue_records_per_peer o;
  wq_record_len : Forall (λ r, slen (qd_bytes r) ≤ wt_frame_capacity o + 4) (pq_records q);
  wq_bytes : full_bytes (pq_records q) ≤ wt_queue_bytes_per_peer o + wt_frame_capacity o + 4;
}.
Lemma pending_unwritten records :
  Forall (λ r, qd_offset r = 0) records → pending_bytes records = concat_strings (qd_bytes <$> records).
Proof.
  induction 1 as [|r records Hr _ IH]; [done|]. simpl. unfold unsent. rewrite Hr, IH. done.
Qed.
Lemma full_bytes_slen records : full_bytes records = slen (concat_strings (qd_bytes <$> records)).
Proof.
  induction records as [|r records IH]; [done|]. simpl.
  change (slen (qd_bytes r +:+ ?x)) with (slen (String.append (qd_bytes r) x)). rewrite IH. symmetry. apply slen_app.
Qed.
Lemma full_bytes_app l k : full_bytes (l ++ k) = full_bytes l + full_bytes k.
Proof. induction l as [|r l IH]; [done|]. simpl. lia. Qed.
(** What is written of a queue is the front of its first record. *)
Lemma full_bytes_pending records :
  tail_unwritten records → Forall record_ok records →
  full_bytes records = slen (pending_bytes records) + from_option qd_offset 0 (head records).
Proof.
  destruct records as [|r records]; [done|]. intros Ht [Hr _]%Forall_cons. unfold tail_unwritten in Ht. simpl in *.
  rewrite slen_app, unsent_length, full_bytes_slen, pending_unwritten by done. unfold record_ok in Hr. lia.
Qed.

Lemma restart_pending q :
  pending_bytes (pq_records (queue_restart q)) = concat_strings (qd_bytes <$> pq_records q).
Proof.
  unfold queue_restart. cbn [pq_records]. rewrite pending_unwritten; [|by apply Forall_fmap, Forall_true].
  f_equal. rewrite <-list_fmap_compose. by apply list_fmap_ext.
Qed.
Lemma restart_ok o q : wire_queue_ok o q → wire_queue_ok o (queue_restart q).
Proof.
  intros [[Hb Hr] Ht Hn Hl Hf].
  assert (qd_bytes <$> pq_records (queue_restart q) = qd_bytes <$> pq_records q) as Hsame.
  { unfold queue_restart. cbn [pq_records]. rewrite <-list_fmap_compose. by apply list_fmap_ext. }
  assert (full_bytes (pq_records (queue_restart q)) = full_bytes (pq_records q)) as Hfull.
  { by rewrite !full_bytes_slen, Hsame. }
  split; [split| | | |by rewrite Hfull].
  - rewrite restart_pending, <-full_bytes_slen. unfold queue_restart. cbn [pq_bytes].
    generalize (pq_records q). intros l. induction l as [|r l IH]; [done|]. exact (f_equal (N.add (slen (qd_bytes r))) IH).
  - unfold queue_restart. cbn [pq_records]. apply Forall_fmap, Forall_true. intros x. apply N.le_0_l.
  - unfold tail_unwritten, queue_restart. cbn [pq_records]. destruct (pq_records q); [constructor|].
    simpl. apply Forall_fmap, Forall_true. done.
  - unfold queue_restart, nlen. cbn [pq_records]. by rewrite length_fmap.
  - unfold queue_restart. cbn [pq_records]. by apply Forall_fmap.
Qed.

(** Consuming what a write accepted. *)
Lemma consume_spec accepted records :
  Forall record_ok records → tail_unwritten records → accepted ≤ slen (pending_bytes records) →
  ∃ rest, consume_records accepted records = Some rest ∧
    str_take (N.to_nat accepted) (pending_bytes records) +:+ pending_bytes rest = pending_bytes records ∧
    Forall record_ok rest ∧ tail_unwritten rest ∧ (length rest ≤ length records)%nat ∧
    full_bytes rest ≤ full_bytes records ∧ (∀ P, Forall P (qd_bytes <$> records) → Forall P (qd_bytes <$> rest)).
Proof.
  revert accepted. induction records as [|r records IH]; intros accepted Hall Htail Hacc.
  { change (slen (pending_bytes [])) with 0 in Hacc. assert (accepted = 0) as -> by lia. exists [].
    split_and!; try done. }
  cbn [consume_records]. case_decide as Hz.
  { subst accepted. exists (r :: records). by split_and!. }
  pose proof Hall as [Hr Hrest]%Forall_cons. unfold record_ok in Hr. unfold tail_unwritten in Htail. simpl in Htail.
  cbn [pending_bytes] in *. rewrite slen_app, unsent_length in Hacc.
  set (room := slen (qd_bytes r) - qd_offset r) in *. case_decide as Hend; cbn [qd_offset qd_bytes] in Hend.
  - assert (accepted `min` room = room) as Hmin by lia. rewrite Hmin.
    destruct (IH (accepted - room) Hrest) as (rest & -> & Hp & Hok & Ht & Hlen & Hfull & HP);
      [by destruct records; [|apply Forall_cons in Htail as [_ ?]]|lia|].
    exists rest. split_and!; [done| |done|done|simpl; lia|simpl; lia|].
    + rewrite <-Hp at 2. rewrite str_app_assoc. f_equal.
      replace (N.to_nat accepted) with (String.length (unsent r) + N.to_nat (accepted - room))%nat.
      2:{ pose proof (unsent_length r) as Hu. unfold slen in Hu at 1. fold room in Hu. lia. }
      generalize (unsent r) (N.to_nat (accepted - room)). intros u n. clear. induction u as [|c u IH]; [done|].
      exact (f_equal (String c) IH).
    + intros P [_ HPs]%Forall_cons. by apply HP.
  - assert (accepted `min` room = accepted) as Hmin by lia. rewrite Hmin in *.
    eexists. split; [reflexivity|]. split_and!; [| | |done|simpl; lia|].
    + cbn [pending_bytes]. rewrite str_app_assoc. f_equal. unfold unsent at 2. cbn [qd_offset qd_bytes].
      rewrite N2Nat.inj_add, <-str_drop_drop. fold (unsent r).
      assert (str_take (N.to_nat accepted) (unsent r +:+ pending_bytes records) = str_take (N.to_nat accepted) (unsent r)) as ->;
        [|apply str_take_drop].
      assert (N.to_nat accepted ≤ String.length (unsent r))%nat as Hle.
      { pose proof (unsent_length r) as Hu. unfold slen in Hu at 1. fold room in Hu. lia. }
      revert Hle. generalize (unsent r) (N.to_nat accepted). clear. intros u n. revert u.
      induction n as [|n IH]; intros [|c u] Hle; simpl in *; [by destruct (pending_bytes records)|done|lia|].
      exact (f_equal (String c) (IH u ltac:(lia))).
    + constructor; [unfold record_ok; simpl; lia|done].
    + done.
    + intros P. by rewrite !fmap_cons.
Qed.

(** ** The driver *)
Section wire_inv.
Context `{NS : Nostr, FC : !FipsCore NS, FT : !FipsTcp FC, FL : !FipsTcpLaws FT, TS : !TcpSegments, HO : !HashOrder}.
Implicit Types d : WireTcpDriver.
Context (o : WireTcpOptions).

(** The options [FipsOptions] derives from a valid configuration. *)
Record wire_limits : Prop := {
  wl_frame : wt_frame_capacity o ≤ u32_max;
  wl_bytes : wt_queue_bytes_per_peer o < usize_max;
}.
Definition wire_decoder_ok (i : WireDecoder) : Prop :=
  wi_max_frame_bytes i = wt_frame_capacity o ∧ slen (wi_buffer i) ≤ wt_frame_capacity o + 4.
Record wire_ok d : Prop := {
  wk_options : wd_options d = o;
  wk_queue_count : msize (wd_queues d) ≤ wt_peer_capacity o;
  wk_queues peer q : wd_queues d !! peer = Some q → wire_queue_ok o q;
  wk_inputs peer i : wd_inputs d !! peer = Some i → wire_decoder_ok i;
  wk_connections : ssize (connection_peers (wd_connections d)) ≤ wt_peer_capacity o;
  wk_inbound : msize (wd_inbound d) ≤ wt_inbound_peer_capacity o;
  wk_active p q id : wd_active d !! p = Some id → wd_active d !! q = Some id → p = q;
}.
Context (limits : wire_limits).

(** Steps that change one part. *)
Lemma wire_ok_tcp t d : wire_ok d → wire_ok (set_wd_tcp t d).
Proof. intros []. by split. Qed.
Lemma wire_ok_selected v d : wire_ok d → wire_ok (set_wd_selected v d).
Proof. intros []. by split. Qed.
Lemma wire_ok_continue v d : wire_ok d → wire_ok (set_wd_continue v d).
Proof. intros []. by split. Qed.
Lemma wire_ok_inbound v d : msize v ≤ wt_inbound_peer_capacity o → wire_ok d → wire_ok (set_wd_inbound v d).
Proof. intros ? []. by split. Qed.
Lemma wire_ok_active v d :
  (∀ p q id, v !! p = Some id → v !! q = Some id → p = q) → wire_ok d → wire_ok (set_wd_active v d).
Proof. intros ? []. by split. Qed.
Lemma wire_ok_connections v d :
  ssize (connection_peers v) ≤ wt_peer_capacity o → wire_ok d → wire_ok (set_wd_connections v d).
Proof. intros ? []. by split. Qed.
Lemma wire_ok_fewer_connections v d :
  v ⊆ wd_connections d → wire_ok d → wire_ok (set_wd_connections v d).
Proof.
  intros Hs Hd. apply wire_ok_connections; [|done]. etrans; [by apply connection_peers_subseteq|apply Hd].
Qed.
Lemma wire_ok_queues v d :
  msize v ≤ wt_peer_capacity o → (∀ peer q, v !! peer = Some q → wire_queue_ok o q) →
  wire_ok d → wire_ok (set_wd_queues v d).
Proof. intros ? ? []. by split. Qed.
Lemma wire_ok_queue peer q d :
  wire_queue_ok o q → (is_Some (wd_queues d !! peer) ∨ msize (wd_queues d) < wt_peer_capacity o) →
  wire_ok d → wire_ok (set_wd_queues (<[peer := q]> (wd_queues d)) d).
Proof.
  intros Hq Hroom Hd. apply wire_ok_queues; [| |done].
  - destruct Hd as [_ Hc _ _ _ _ _]. unfold msize in *. destruct (wd_queues d !! peer) as [q0|] eqn:Hp.
    + by rewrite map_size_insert_Some.
    + rewrite map_size_insert_None by done. destruct Hroom as [[? [=]]|?]; lia.
  - intros p k [[<- <-]|[_ Hk]]%lookup_insert_Some; [done|]. by eapply wk_queues.
Qed.
Lemma wire_ok_delete_queue peer d : wire_ok d → wire_ok (set_wd_queues (delete peer (wd_queues d)) d).
Proof.
  intros Hd. apply wire_ok_queues; [| |done].
  - etrans; [|apply Hd]. unfold msize. rewrite map_size_delete. destruct (wd_queues d !! peer); simpl; lia.
  - intros p q [_ Hq]%lookup_delete_Some. by eapply wk_queues.
Qed.
Lemma wire_ok_input peer i d : wire_decoder_ok i → wire_ok d → wire_ok (set_wd_inputs (<[peer := i]> (wd_inputs d)) d).
Proof.
  intros Hi []. split; try done. simpl. intros p k [[<- <-]|[_ Hk]]%lookup_insert_Some; eauto.
Qed.
Lemma wire_ok_delete_input peer d : wire_ok d → wire_ok (set_wd_inputs (delete peer (wd_inputs d)) d).
Proof. intros []. split; try done. simpl. intros p k [_ Hk]%lookup_delete_Some. eauto. Qed.
Lemma wire_ok_delete_active peer d : wire_ok d → wire_ok (set_wd_active (delete peer (wd_active d)) d).
Proof.
  intros Hd. apply wire_ok_active; [|done]. intros p q id [_ Hp]%lookup_delete_Some [_ Hq]%lookup_delete_Some.
  by eapply wk_active.
Qed.
Lemma restart_queue_wire_ok peer d : wire_ok d → wire_ok (restart_queue peer d).
Proof.
  intros Hd. unfold restart_queue. apply wire_ok_queues; [| |done].
  - etrans; [|apply Hd]. unfold msize. by rewrite <-(size_dom (D:=gset string)), dom_alter_L, size_dom.
  - intros p q. destruct (decide (p = peer)) as [->|Hne].
    + rewrite lookup_alter_eq. destruct (wd_queues d !! peer) as [q0|] eqn:Hq; [|done]. intros [= <-].
      by eapply restart_ok, wk_queues.
    + rewrite lookup_alter_ne by done. by apply wk_queues.
Qed.
Lemma on_retry_ok peer f d : wire_ok d → wire_ok (on_retry peer f d).
Proof. apply wire_ok_selected. Qed.
Lemma foldl_wire_ok {A} (f : WireTcpDriver → A → WireTcpDriver) l d :
  (∀ x d, wire_ok d → wire_ok (f d x)) → wire_ok d → wire_ok (foldl f d l).
Proof. intros Hf. revert d. induction l as [|x l IH]; intros d Hd; [done|]. apply IH, Hf, Hd. Qed.

(** ** The parts *)
Notation W := wire_ok.
Lemma on_wire_tcp_triple {A} context (f : Tcp → result string A * Tcp) :
  pse_triple W (on_wire_tcp context f) (λ _, W) W.
Proof. intros d Hd. unfold on_wire_tcp. destruct (f (wd_tcp d)) as [[a|e] t]; by apply wire_ok_tcp. Qed.
Lemma ignored_triple {A} (c : PSE WireTcpDriver PubsubError A) :
  pse_triple W c (λ _, W) W → pse_triple W (ignored c) (λ _, W) W.
Proof.
  intros Hc d Hd. specialize (Hc d Hd). unfold ignored. by destruct (c d) as [[[a|e] d']|].
Qed.
Lemma wire_abort_peer_triple peer : pse_triple W (wire_abort_peer peer) (λ _, W) W.
Proof.
  intros d Hd. unfold wire_abort_peer. destruct (tcp_abort_peer peer (wd_tcp d)) as [result t].
  assert (W (restart_queue (identity_npub peer)
    (let d1 := set_wd_inputs (delete (identity_npub peer) (wd_inputs d))
       (set_wd_active (delete (identity_npub peer) (wd_active d))
          (set_wd_connections (filter (λ c, tc_peer c.2 ≠ identity_npub peer) (wd_connections d)) (set_wd_tcp t d))) in
     if bool_decide (identity_npub peer ∈ connection_peers (wd_connections d))
     then note_service_failure (identity_npub peer) d1 else d1))) as Hok.
  { apply restart_queue_wire_ok. cbv zeta.
    set (d1 := set_wd_connections _ (set_wd_tcp t d)).
    assert (W d1) as Hd1.
    { apply wire_ok_fewer_connections; [apply map_filter_subseteq|by apply wire_ok_tcp]. }
    apply (wire_ok_delete_active (identity_npub peer)) in Hd1.
    apply (wire_ok_delete_input (identity_npub peer)) in Hd1.
    case_bool_decide; [by apply on_retry_ok|done]. }
  destruct result; exact Hok.
Qed.
Lemma forget_peer_triple peer : pse_triple W (forget_peer peer) (λ _, W) W.
Proof.
  apply (triple_bind _ _ _ (λ _, W)); [|intros []; apply wire_abort_peer_triple].
  apply triple_modify. intros d Hd.
  set (npub := identity_npub peer). set (d1 := set_wd_selected (delete npub (wd_selected_peers d)) d).
  apply (wire_ok_delete_queue npub (set_wd_inbound (delete npub (wd_inbound d)) d1)).
  apply wire_ok_inbound; [|by apply wire_ok_selected].
  etrans; [|apply Hd]. unfold msize. rewrite map_size_delete. destruct (wd_inbound d !! npub); simpl; lia.
Qed.
Lemma select_peers_triple peers : pse_triple W (select_peers peers) (λ _, W) W.
Proof.
  apply triple_get. intros d Hd. pose proof (retire_bounded peers (wd_now d) (wd_inbound d) _ (wk_inbound d Hd)) as Hr.
  destruct (retire peers (wd_now d) (wd_inbound d)) as [retired inbound]. simpl in Hr.
  apply (triple_bind _ _ _ (λ _, W)); [apply triple_modify; intros d1; by apply wire_ok_inbound|]. intros [].
  apply (triple_bind _ _ _ (λ _, W)).
  { apply triple_iter. intros peer _. case_decide; [apply ignored_triple, forget_peer_triple|by apply triple_ret]. }
  intros []. apply triple_get. intros d1 _.
  apply (triple_bind _ _ _ (λ _, W)); [apply triple_modify; intros d2; apply wire_ok_selected|]. intros [].
  apply (triple_bind _ _ _ (λ _, W)); [|intros []; by apply triple_ret].
  apply triple_iter. intros peer _. destruct (ok_identity peer); [apply ignored_triple, forget_peer_triple|by apply triple_ret].
Qed.
Lemma capacity_room peer d u :
  wire_ok d → wire_ensure_peer_capacity peer d = Ok u →
  peer ∈ connection_peers (wd_connections d) ∨ ssize (connection_peers (wd_connections d)) < wt_peer_capacity o.
Proof.
  intros [Ho _ _ _ _ _ _]. unfold wire_ensure_peer_capacity. rewrite result_bind_Ok. intros (_ & _ & Hc).
  rewrite Ho in Hc. case_decide as Hfull; [done|].
  destruct (decide (peer ∈ connection_peers (wd_connections d))); [by left|right]. apply N.nle_gt. tauto.
Qed.
Lemma wire_ok_connect id c d u :
  wire_ensure_peer_capacity (tc_peer c) d = Ok u → wire_ok d →
  wire_ok (set_wd_connections (<[id := c]> (wd_connections d)) d).
Proof.
  intros Hroom Hd. apply wire_ok_connections; [|done].
  apply connection_peers_insert; [by eapply capacity_room|apply Hd].
Qed.
Lemma connect_triple peer now : pse_triple W (wire_connect_peer peer now) (λ _, W) W.
Proof.
  intros d Hd. unfold wire_connect_peer, pse_get, pse_lift, pse_modify. unfold mbind, pse_bind.
  destruct (ensure_peer_selected peer d) as [u|] eqn:Hsel; [|done].
  destruct (wire_has_peer_connection peer d); [by apply on_retry_ok|].
  destruct (is_inbound peer d) eqn:Hin; [done|].
  destruct (wd_selected_peers d !! peer) as [retry|] eqn:Hs.
  2:{ unfold ensure_peer_selected in Hsel. by rewrite decide_True in Hsel by done. }
  destruct (is_waiting _ retry); [done|].
  destruct (wire_ensure_peer_capacity peer d) as [v|] eqn:Hroom; [|by apply on_retry_ok].
  destruct (identity_from_npub peer) as [identity|]; [|by apply on_retry_ok].
  unfold dial. destruct (tcp_connect identity now _) as [[id|e] t].
  - apply (on_retry_ok peer (started (wd_now d))) in Hd. apply (wire_ok_tcp t) in Hd.
    refine (wire_ok_connect id (mkTracked peer Outbound) _ v _ Hd).
    unfold wire_ensure_peer_capacity, ensure_peer_selected in *. simpl in *.
    replace (alter _ peer (wd_selected_peers d) !! peer) with (Some (started (wd_now d) retry)) by by rewrite lookup_alter_eq, Hs.
    rewrite Hs in Hroom. exact Hroom.
  - apply on_retry_ok, wire_ok_tcp, on_retry_ok, Hd.
Qed.
End wire_inv.

(** ** The TCP driver of the FIPS client: its runs

    Every operation of [WireTcpDriver] returns without a panic and keeps the
    invariant of [WireTcpInv]; a flush moves bytes from the queues to the
    streams and nothing else. *)

Section wire_run.
Context `{NS : Nostr, FC : !FipsCore NS, FT : !FipsTcp FC, FL : !FipsTcpLaws FT, TS : !TcpSegments, HO : !HashOrder}.
Implicit Types d : WireTcpDriver.
Context (o : WireTcpOptions) (limits : wire_limits o).
Notation W := (wire_ok o).

Lemma wire_accept_loop_triple fuel : pse_triple W (wire_accept_loop fuel) (λ _, W) W.
Proof.
  induction fuel as [|fuel IH]; cbn [wire_accept_loop]; [by apply triple_ret|].
  intros d Hd. destruct (tcp_accept (wd_tcp d)) as [id t].
  pose proof (wire_ok_tcp o t d Hd) as Hd'. destruct id as [id|]; [|done].
  destruct (tcp_peer (wd_tcp (set_wd_tcp t d)) id) as [peer|]; [|done].
  destruct (wire_ensure_peer_capacity (identity_npub peer) (set_wd_tcp t d)) as [[]|e] eqn:Hroom;
    cbn [is_err negb is_ok].
  - apply IH. destruct (wd_connections (set_wd_tcp t d) !! id) as [c|] eqn:Hc; simpl.
    + cbn [wd_connections set_wd_tcp] in Hc. rewrite (insert_id _ _ _ Hc). by apply wire_ok_fewer_connections.
    + exact (wire_ok_connect o id (mkTracked (identity_npub peer) Inbound) _ _ Hroom Hd').
  - triple_at (set_wd_tcp t d) Hd'. eapply triple_bind; [apply on_wire_tcp_triple|]. intros []. apply IH.
Qed.
Lemma wire_drop_closed_ok d : W d → W (drop_closed d).
Proof.
  intros Hd. unfold drop_closed. apply foldl_wire_ok; [|apply wire_ok_fewer_connections; [apply map_filter_subseteq|done]].
  intros peer d1 Hd1. destruct (wire_has_peer_connection peer d1); [done|by apply on_retry_ok].
Qed.
Lemma note_streams_ok active d : W d → W (note_streams active d).
Proof. intros Hd. apply foldl_wire_ok; [|done]. intros [peer id] d1 Hd1. by apply on_retry_ok. Qed.
Lemma wire_refresh_triple : pse_triple W wire_refresh_active (λ _, W) W.
Proof.
  intros d Hd. unfold wire_refresh_active. destruct (streams_unchanged d).
  { apply foldl_wire_ok; [|done]. intros peer d1 Hd1. by apply on_retry_ok. }
  apply wire_drop_closed_ok in Hd. set (d0 := drop_closed d) in *. clearbody d0. clear d.
  destruct (choose_streams _ _) as [next_active extras] eqn:Hchoose.
  triple_at d0 Hd. apply (triple_bind _ _ _ (λ _, W)); [apply triple_modify; intros d1; apply note_streams_ok|].
  intros []. apply (triple_bind _ _ _ (λ _, W)).
  { apply triple_iter. intros id _. apply (triple_bind _ _ _ (λ _, W)); [apply on_wire_tcp_triple|].
    intros []. apply triple_modify. intros d1. apply wire_ok_fewer_connections, delete_subseteq. }
  intros []. apply triple_get. intros d1 _. apply (triple_bind _ _ _ (λ _, W)); [|intros []; by apply triple_ret].
  apply triple_modify. intros d2 Hd2. apply foldl_wire_ok.
  - intros peer d3 Hd3. by apply restart_queue_wire_ok, wire_ok_delete_input.
  - apply wire_ok_active; [|done]. intros p q id. exact (choose_streams_inj _ _ _ _ _ p q id Hchoose).
Qed.

(** ** Reading *)
Lemma wire_take_ok n i : wire_decoder_ok o i → wire_decoder_ok o (wire_take n i).2.
Proof.
  intros [Hm Hl]. unfold wire_take. pose proof (take_records_len (wi_max_frame_bytes i) (N.to_nat n) (wi_buffer i)) as Ht.
  destruct (take_records _ _ _) as [frames rest]. simpl in *. split; [done|]. simpl. lia.
Qed.
Lemma wire_push_ok bytes i : wire_decoder_ok o i → wire_decoder_ok o (wire_push bytes i).2.
Proof.
  intros [Hm Hl]. destruct limits as [Hf _]. unfold wire_push, wire_decoder_ok, usize_sat_add, sat_add.
  case_decide as Hbig; cbn [snd wi_buffer wi_max_frame_bytes]; (split; [exact Hm|]); [apply N.le_0_l|].
  rewrite slen_app. rewrite Hm in Hbig. unfold u32_max, usize_max, u64_max in *. lia.
Qed.
Lemma wire_decoder_new_ok : wire_decoder_ok o (wire_decoder_new (wt_frame_capacity o)).
Proof. split; [done|apply N.le_0_l]. Qed.
Lemma wire_read_peer_triple turns peer id now budget frames :
  pse_triple W (wire_read_peer turns peer id now budget frames) (λ _, W) W.
Proof.
  revert budget frames. induction turns as [|turns IH]; intros budget frames; cbn [wire_read_peer]; [by apply triple_ret|].
  intros d Hd. case_decide; [done|].
  destruct (is_some_and wire_has_complete_record (wd_inputs d !! peer)) eqn:Hready.
  - apply is_some_and_true in Hready as (i & Hi & _). rewrite Hi.
    pose proof (wire_take_ok (wt_drive_frames (wd_options d) - nlen frames) i (wk_inputs o d Hd peer i Hi)) as Hi'.
    destruct (wire_take _ i) as [decoded i']. simpl in Hi'.
    pose proof (wire_ok_input o peer i' d Hi' Hd) as Hd'. set (d1 := set_wd_inputs _ d) in *. clearbody d1.
    destruct (tcp_peer (wd_tcp d1) id) as [identity|]; [|done].
    destruct decoded as [decoded|e]; [by apply IH|].
    triple_at d1 Hd'. apply (triple_bind _ _ _ (λ _, W)); [apply wire_abort_peer_triple|]. intros []. by apply triple_ret.
  - case_decide; [done|]. set (i := default _ (wd_inputs d !! peer)).
    assert (wire_decoder_ok o i) as Hi.
    { unfold i. destruct (wd_inputs d !! peer) as [j|] eqn:Hj; simpl; [by eapply wk_inputs|].
      rewrite (wk_options o d Hd). apply wire_decoder_new_ok. }
    pose proof (wire_ok_input o peer i d Hi Hd) as Hd'. set (d1 := set_wd_inputs _ d) in *. clearbody i. clearbody d1.
    case_decide; [done|]. triple_at d1 Hd'.
    apply (triple_bind _ _ _ (λ _, W)); [apply on_wire_tcp_triple|]. intros bytes.
    case_decide; [by apply triple_ret|]. apply (triple_bind _ _ _ (λ _, W)); [|intros []; apply IH].
    intros d2 Hd2. pose proof (wire_push_ok bytes i Hi) as Hp. destruct (wire_push bytes i) as [r i'].
    simpl in Hp. destruct r as [[]|e]; by apply wire_ok_input.
Qed.
Lemma wire_read_streams_triple streams now budget frames rejected :
  pse_triple W (wire_read_streams streams now budget frames rejected) (λ _, W) W.
Proof.
  revert budget frames rejected. induction streams as [|[peer id] streams IH]; intros budget frames rejected;
    cbn [wire_read_streams]; [by apply triple_ret|].
  apply (triple_bind _ _ _ (λ _, W)); [apply wire_read_peer_triple|]. intros [bad read].
  apply (triple_bind _ _ _ (λ _, W)); [|intros []; apply IH].
  destruct bad; [by apply triple_ret|]. apply triple_modify. intros d. apply wire_ok_continue.
Qed.

(** ** Writing *)
Definition wire_view d : view := mkView (tcp_sent (wd_tcp d)) (pending_for (wd_queues d)).

Lemma wire_chunk_length budget records : slen (wire_chunk budget records) ≤ slen (pending_bytes records) `min` budget.
Proof. unfold wire_chunk. rewrite slen_take. lia. Qed.
(** An accepted write: the queue lets go of the bytes, and no [expect] fails. *)
Lemma wire_accepted_moves peer id budget q d now n t :
  wd_queues d !! peer = Some q → W d →
  tcp_write id (wire_chunk budget (pq_records q)) now (wd_tcp d) = (Ok n, t) →
  n ≤ budget ∧ ∃ d', wire_accepted peer n (set_wd_tcp t d) = Some (Ok tt, d') ∧ W d' ∧
    moves peer id (wire_view d) (wire_view d') ∧ wd_active d' = wd_active d.
Proof.
  intros Hq Hd Hw. destruct (tcp_write_sent _ _ _ _ _ _ Hw) as (Hn & _).
  pose proof (wire_chunk_length budget (pq_records q)) as Hlen. split; [lia|].
  pose proof (wk_queues o d Hd peer q Hq) as [[Hb Hr] Ht Hrec Hrl Hf].
  destruct (consume_spec n (pq_records q) Hr Ht) as (rest & Hc & Hp & Hr' & Ht' & Hlen' & Hf' & Hrl'); [lia|].
  unfold wire_accepted. cbn [wd_queues set_wd_tcp]. rewrite Hq, Hc. simpl. eexists. split; [reflexivity|].
  assert (pq_bytes q - n = slen (pending_bytes rest)) as Hbytes.
  { rewrite Hb, <-Hp, slen_app, slen_take. lia. }
  split_and!; [| |done].
  - apply (wire_ok_queue o peer _ (set_wd_tcp t d)); [|left; simpl; by rewrite Hq|by apply wire_ok_tcp].
    split; cbn [pq_records pq_bytes]; [by split|done| | |lia].
    + etrans; [|exact Hrec]. unfold nlen. lia.
    + set (P := λ b : string, slen b ≤ wt_frame_capacity o + 4).
      change (Forall (P ∘ qd_bytes) rest). apply Forall_fmap, Hrl', Forall_fmap. exact Hrl.
  - eapply moves_write; [exact Hw|..]; unfold pending_for; simpl.
    + rewrite lookup_insert_eq, Hq. simpl. etrans; [|exact Hp]. f_equal. unfold wire_chunk. apply str_take_take.
      unfold wire_chunk in Hn. rewrite slen_take in Hn. lia.
    + intros other Hne. by rewrite lookup_insert_ne.
Qed.
Definition wire_loop_ok peer id budget d (p : option (res N * WireTcpDriver)) : Prop :=
  match p with
  | Some (r, d') => W d' ∧ moves peer id (wire_view d) (wire_view d') ∧ wd_active d' = wd_active d ∧
      ∀ left, r = Ok left → left ≤ budget
  | None => False
  end.
Lemma wire_loop_stop peer id budget d : W d → wire_loop_ok peer id budget d (Some (Ok budget, d)).
Proof. intros Hd. split_and!; [done..|]. by intros left [= <-]. Qed.
Lemma wire_flush_loop_ok fuel peer id now budget d :
  W d → wire_loop_ok peer id budget d (wire_flush_loop fuel peer id now budget d).
Proof.
  revert budget d. induction fuel as [|fuel IH]; intros budget d Hd; cbn [wire_flush_loop]; [by apply wire_loop_stop|].
  case_decide; [by apply wire_loop_stop|].
  destruct (wd_queues d !! peer) as [q|] eqn:Hq; [|by apply wire_loop_stop].
  destruct q as [[|record records] bytes]; [by apply wire_loop_stop|].
  unfold mbind at 1, pse_bind, on_wire_tcp.
  destruct (tcp_write id _ now (wd_tcp d)) as [[n|e] t] eqn:Hw; simpl.
  - case_decide as Hn.
    + subst n. split_and!; [by apply wire_ok_tcp|by eapply moves_accepted_nothing|done|by intros left [= <-]].
    + destruct (wire_accepted_moves peer id budget _ d now n t Hq Hd Hw) as (Hle & d1 & Hacc & Hd1 & Hmv & Hact).
      unfold mbind, pse_bind. rewrite Hacc. specialize (IH (budget - n) d1 Hd1). unfold wire_loop_ok in *.
      destruct (wire_flush_loop _ _ _ _ _ d1) as [[r d2]|]; [|done]. destruct IH as (Hd2 & Hmv2 & Hact2 & Hleft).
      split_and!; [done|by etrans|congruence|]. intros left Hr. specialize (Hleft left Hr). lia.
  - split_and!; [by apply wire_ok_tcp|by eapply moves_failed_write|done|done].
Qed.
Lemma wire_drop_empty_moves peer id d :
  moves peer id (wire_view d) (wire_view (set_wd_queues (wire_drop_empty peer (wd_queues d)) d)).
Proof.
  assert (∀ p, pending_for (wire_drop_empty peer (wd_queues d)) p = pending_for (wd_queues d) p) as Hsame.
  { intros p. unfold wire_drop_empty. destruct (is_some_and _ _) eqn:He; [|done].
    apply is_some_and_true in He as (q & Hq & Hnil%bool_decide_eq_true).
    unfold pending_for. destruct (decide (p = peer)) as [->|Hne].
    - rewrite lookup_delete_eq, Hq. simpl. by rewrite Hnil.
    - by rewrite lookup_delete_ne. }
  split; unfold sent_and_pending; simpl; [by rewrite Hsame|done|by intros].
Qed.
Lemma wire_drop_empty_ok peer d : W d → W (set_wd_queues (wire_drop_empty peer (wd_queues d)) d).
Proof.
  intros Hd. unfold wire_drop_empty. destruct (is_some_and _ _); [by apply wire_ok_delete_queue|].
  apply wire_ok_queues; [apply Hd|apply (wk_queues o d Hd)|done].
Qed.
Lemma wire_flush_streams_ok streams now budget d :
  NoDup streams.*1 → NoDup streams.*2 → W d →
  match wire_flush_streams streams now budget d with
  | Some (r, d') => W d' ∧ conserved streams (wire_view d) (wire_view d') ∧ ∀ left, r = Ok left → left ≤ budget
  | None => False
  end.
Proof.
  revert budget d. induction streams as [|[peer id] streams IH]; intros budget d Hp Hid Hd; cbn [wire_flush_streams].
  { split_and!; [done|apply conserved_nil|]. by intros left [= <-]. }
  apply NoDup_cons in Hp as [Hp1 Hp]. apply NoDup_cons in Hid as [Hid1 Hid].
  pose proof (wire_flush_loop_ok (N.to_nat budget) peer id now budget d Hd) as Hloop. unfold wire_loop_ok in Hloop.
  unfold mbind, pse_bind, pse_modify. destruct (wire_flush_loop _ _ _ _ _ d) as [[[left|e] d1]|]; [| |done].
  - destruct Hloop as (Hd1 & Hm1 & _ & Hleft). specialize (Hleft left eq_refl).
    pose proof (wire_drop_empty_moves peer id d1) as Hm2. apply (wire_drop_empty_ok peer) in Hd1.
    set (d2 := set_wd_queues _ d1) in *. specialize (IH left d2 Hp Hid Hd1).
    destruct (wire_flush_streams streams now left d2) as [[r d3]|]; [|done]. destruct IH as (Hd3 & Hc3 & Hr3).
    split_and!; [done| |]; [eapply conserved_cons; [done..|by etrans|done]|].
    intros left' Hr. specialize (Hr3 left' Hr). lia.
  - destruct Hloop as (Hd1 & Hm1 & _). split_and!; [done| |by intros].
    eapply conserved_cons; [done..|apply conserved_refl].
Qed.
Lemma wire_flush_ok now already d :
  W d →
  match wire_flush_queues now already d with
  | Some (r, d') => W d' ∧ conserved (btree_to_list (wd_active d)) (wire_view d) (wire_view d') ∧
      ∀ written, r = Ok written → written ≤ wt_drive_io_bytes o - already
  | None => False
  end.
Proof.
  intros Hd. unfold wire_flush_queues. rewrite (wk_options o d Hd).
  case_decide; [split_and!; [done|apply conserved_refl|by intros written [= <-]; lia]|].
  pose proof (wire_flush_streams_ok (btree_to_list (wd_active d)) now (wt_drive_io_bytes o - already) d
    (btree_to_list_NoDup _) (btree_to_list_NoDup_snd _ (wk_active o d Hd)) Hd) as Hf.
  unfold mbind, pse_bind, pse_modify.
  destruct (wire_flush_streams _ _ _ d) as [[[left|e] d1]|]; [| |done].
  - destruct Hf as (Hd1 & Hc & Hl). split_and!; [by apply wire_ok_continue|by destruct Hc|].
    intros written [= <-]. lia.
  - destruct Hf as (Hd1 & Hc & _). split_and!; [done..|by intros].
Qed.
End wire_run.
