(* ===== verification/WireTcpProps.v ===== *)
(** * The TCP driver of the FIPS client: its theorems

    The driver as a transition system over its public operations and the
    network; its bounds; that the bytes of a queued frame reach its peer in
    order and whole, also over a new stream; and that the frames a peer sent
    come out of its input in order. *)

From S2P Require Export WireTcpInv.

Section wire_props.
Context `{NS : Nostr, FC : !FipsCore NS, FT : !FipsTcp FC, FL : !FipsTcpLaws FT, TS : !TcpSegments, HO : !HashOrder}.
Implicit Types d : WireTcpDriver.
Context (o : WireTcpOptions).
Notation W := (wire_ok o).

(** ** The driver as a transition system *)
Inductive wire_op : Type :=
  | WtSelect (peers : gset string)
  | WtConnect (peer_npub : string)
  | WtDiscovered (peer_npub : string)
  | WtQueue (peer : PeerIdentity) (frame : string)
  | WtWait
  | WtReceive
  | WtPoll
  | WtFlush (already_written : N)
  | WtAbort (peer : PeerIdentity)
  | WtForget (peer : PeerIdentity)
  | WtShutdown.
(** The state after an operation, whatever it answers. *)
Definition after {A} (p : option (res A * WireTcpDriver)) : option WireTcpDriver := snd <$> p.
Definition wire_step (op : wire_op) (now : N) d : option WireTcpDriver :=
  match op with
  | WtSelect peers => after (select_peers peers d)
  | WtConnect npub => after (wire_connect_peer npub now d)
  | WtDiscovered npub => Some (wire_service_discovered npub d)
  | WtQueue peer frame => after (pse_se (queue_frame peer frame) d)
  | WtWait => after (wire_wait_for_input d)
  | WtReceive => after (wire_receive now d)
  | WtPoll => after (wire_poll now d)
  | WtFlush already => after (wire_flush_queues now already d)
  | WtAbort peer => after (wire_abort_peer peer d)
  | WtForget peer => after (forget_peer peer d)
  | WtShutdown => after (shutdown d)
  end.
Inductive wire_reach : WireTcpDriver → Prop :=
  | wire_reach_new local_npub tcp d : wire_driver_new local_npub tcp o = Ok d → wire_reach d
  | wire_reach_network d tcp : wire_reach d → wire_reach (set_wd_tcp tcp d)
  | wire_reach_step d op now d' : wire_reach d → wire_step op now d = Some d' → wire_reach d'.

Section ops.
Context (limits : wire_limits o).

Lemma wire_flush_triple now already : pse_triple W (wire_flush_queues now already) (λ _, W) W.
Proof.
  intros d Hd. pose proof (wire_flush_ok o now already d Hd) as Hf.
  destruct (wire_flush_queues now already d) as [[[?|?] d']|]; [..|done]; apply Hf.
Qed.
Lemma wire_drive_triple now : pse_triple W (wire_drive_ready now) (λ _, W) W.
Proof.
  apply (triple_bind _ _ _ (λ _, W)); [apply triple_modify; intros d; apply wire_ok_continue|]. intros [].
  apply triple_get. intros d0 _. apply (triple_bind _ _ _ (λ _, W)).
  { apply triple_get. intros d _. by apply wire_accept_loop_triple. }
  intros []. apply (triple_bind _ _ _ (λ _, W)); [by apply wire_refresh_triple|]. intros newly.
  apply (triple_bind _ _ _ (λ _, W)).
  { apply triple_get. intros d _. by apply wire_read_streams_triple. }
  intros [frames rejected]. apply (triple_bind _ _ _ (λ _, W)); [apply wire_flush_triple|]. intros written.
  apply (triple_bind _ _ _ (λ _, W)).
  { apply triple_get. intros d _. apply triple_iter. intros id _. apply on_wire_tcp_triple. }
  intros []. apply (triple_bind _ _ _ (λ _, W)); [by apply wire_refresh_triple|]. intros more.
  apply triple_get. intros d1 _. apply (triple_bind _ _ _ (λ _, W)).
  { apply triple_iter. intros peer _. apply ignored_triple, forget_peer_triple. }
  intros []. apply triple_get. intros d2 _. by apply triple_ret.
Qed.
Lemma wire_poll_triple now : pse_triple W (wire_poll now) (λ _, W) W.
Proof. apply (triple_bind _ _ _ (λ _, W)); [apply on_wire_tcp_triple|]. intros []. apply wire_drive_triple. Qed.
Lemma wire_receive_triple now : pse_triple W (wire_receive now) (λ _, W) W.
Proof.
  intros d Hd. unfold wire_receive.
  set (filter_ := λ peer bytes now inbound, inbound_admit peer bytes (wd_selected_peers d) (wd_options d) now inbound).
  pose proof (tcp_receive_keeps (λ inbound, msize inbound ≤ wt_inbound_peer_capacity o) filter_ (wd_inbound d) (wd_tcp d)) as Hk.
  destruct (tcp_receive_datagrams filter_ (wd_inbound d) (wd_tcp d)) as [[received inbound] t]. simpl in Hk.
  assert (W (set_wd_tcp t (set_wd_inbound inbound d))) as Hd'.
  { apply wire_ok_tcp, wire_ok_inbound; [|done]. apply Hk; [|apply Hd]. intros peer bytes at_ inb Hle.
    unfold filter_. rewrite (wk_options o d Hd). by apply admit_bounded. }
  destruct received as [[datagrams rejected]|e]; [|done].
  triple_at (set_wd_tcp t (set_wd_inbound inbound d)) Hd'.
  apply (triple_bind _ _ _ (λ _, W)); [apply wire_drive_triple|]. intros report. by apply triple_ret.
Qed.
Lemma forget_each_triple peers errors : pse_triple W (forget_each peers errors) (λ _, W) W.
Proof.
  revert errors. induction peers as [|peer peers IH]; intros errors; cbn [forget_each]; [by apply triple_ret|].
  intros d Hd. pose proof (forget_peer_triple o peer d Hd) as Hf.
  destruct (forget_peer peer d) as [[r d']|]; [|by destruct Hf]. simpl. apply IH. by destruct r.
Qed.

(** ** Queueing a frame *)
Lemma wire_queue_push record q :
  wire_queue_ok o q → slen record ≤ wt_frame_capacity o + 4 →
  nlen (pq_records q) < wt_queue_records_per_peer o →
  usize_sat_add (pq_bytes q) (slen record) ≤ wt_queue_bytes_per_peer o →
  wire_queue_ok o (queue_push_back record q) ∧
  pending_bytes (pq_records (queue_push_back record q)) = pending_bytes (pq_records q) +:+ record.
Proof.
  intros [[Hb Hr] Ht Hn Hl Hf] Hlen Hroom Hbytes. destruct limits as [_ Hlim].
  assert (pq_bytes q + slen record ≤ wt_queue_bytes_per_peer o) as Hsum.
  { unfold usize_sat_add, sat_add in Hbytes. lia. }
  unfold queue_push_back. cbn [pq_records pq_bytes]. rewrite pending_bytes_app, pending_bytes_new. split; [|done].
  split; cbn [pq_records pq_bytes]; [split; cbn [pq_records pq_bytes]|..].
  - rewrite pending_bytes_app, pending_bytes_new, slen_app, <-Hb. unfold usize_sat_add. rewrite sat_add_exact; [done|lia].
  - apply Forall_app. split; [done|]. apply Forall_singleton. apply N.le_0_l.
  - unfold tail_unwritten in *. destruct (pq_records q); [constructor|]. simpl in *. apply Forall_app. split; [done|].
    by apply Forall_singleton.
  - unfold nlen in *. rewrite length_app. simpl. lia.
  - apply Forall_app. split; [done|]. by apply Forall_singleton.
  - rewrite full_bytes_app. rewrite (full_bytes_pending _ Ht Hr), <-Hb.
    assert (from_option qd_offset 0 (head (pq_records q)) ≤ wt_frame_capacity o + 4) as Hoff.
    { destruct (pq_records q) as [|r records]; [apply N.le_0_l|]. simpl.
      apply Forall_cons in Hr as [Hr _], Hl as [Hl _]. unfold record_ok in Hr. etrans; [exact Hr|exact Hl]. }
    change (full_bytes [mkQueued record 0]) with (slen record + 0). lia.
Qed.
Lemma queue_frame_spec peer frame d :
  W d →
  match queue_frame peer frame d with
  | (r, d') => W d' ∧ (∀ p, pending_for (wd_queues d') p =
      if decide (p = identity_npub peer ∧ is_ok r = true) then pending_for (wd_queues d) p +:+ record_of frame
      else pending_for (wd_queues d) p)
  end.
Proof.
  intros Hd. unfold queue_frame. rewrite (wk_options o d Hd).
  assert (∀ e, W d ∧ (∀ p, pending_for (wd_queues d) p =
    if decide (p = identity_npub peer ∧ is_ok (Err e : res unit) = true) then pending_for (wd_queues d) p +:+ record_of frame
    else pending_for (wd_queues d) p)) as Herr.
  { intros e. split; [done|]. intros p. by rewrite decide_False by naive_solver. }
  destruct (ensure_peer_selected _ d); [|apply Herr]. case_decide as Hcap; [apply Herr|].
  unfold wire_encode_record. case_decide; [apply Herr|]. case_decide as Hpeers; [apply Herr|].
  set (npub := identity_npub peer) in *. set (q := default queue_default (wd_queues d !! npub)).
  assert (wire_queue_ok o q) as Hq.
  { unfold q. destruct (wd_queues d !! npub) as [q0|] eqn:Hq0; simpl; [by eapply wk_queues|].
    split; simpl; [by split|constructor|apply N.le_0_l|constructor|apply N.le_0_l]. }
  assert (is_Some (wd_queues d !! npub) ∨ msize (wd_queues d) < wt_peer_capacity o) as Hroom.
  { destruct (wd_queues d !! npub) eqn:Hq0; [left; by eexists|right]. apply N.nle_gt. intros Hle. by apply Hpeers. }
  assert (∀ e, W (set_wd_queues (<[npub := q]> (wd_queues d)) d) ∧
    (∀ p, pending_for (wd_queues (set_wd_queues (<[npub := q]> (wd_queues d)) d)) p =
    if decide (p = npub ∧ is_ok (Err e : res unit) = true) then pending_for (wd_queues d) p +:+ record_of frame
    else pending_for (wd_queues d) p)) as Hkeep.
  { intros e. split; [by apply wire_ok_queue|]. intros p. rewrite decide_False by naive_solver.
    unfold pending_for. simpl. destruct (decide (p = npub)) as [->|Hne].
    - rewrite lookup_insert_eq. unfold q. by destruct (wd_queues d !! npub).
    - by rewrite lookup_insert_ne. }
  case_decide as Hrec; [apply Hkeep|]. case_decide as Hby; [apply Hkeep|]. clear Hkeep Herr.
  destruct (wire_queue_push (record_of frame) q Hq) as [Hok Hp];
    [rewrite record_of_length; unfold LENGTH_PREFIX_BYTES; lia|lia|lia|].
  split; [by apply wire_ok_queue|]. intros p. unfold pending_for. cbn [wd_queues set_wd_queues].
  destruct (decide (p = npub)) as [->|Hne].
  - rewrite lookup_insert_eq, decide_True by done. cbn [from_option]. rewrite Hp. unfold q. by destruct (wd_queues d !! npub).
  - rewrite lookup_insert_ne by done. rewrite decide_False by naive_solver. done.
Qed.
End ops.

(** ** A new stream *)

(** All of the records queued for a peer, written or not. *)
Definition whole_for (queues : gmap string PeerQueue) (peer : string) : string :=
  from_option (λ q, concat_strings (qd_bytes <$> pq_records q)) "" (queues !! peer).
Definition same_io d d' : Prop :=
  wd_queues d' = wd_queues d ∧ wd_active d' = wd_active d ∧ wd_inputs d' = wd_inputs d.
Lemma foldl_same_io {A} (f : WireTcpDriver → A → WireTcpDriver) l d :
  (∀ d x, same_io d (f d x)) → same_io d (foldl f d l).
Proof.
  intros Hf. revert d. induction l as [|x l IH]; intros d; [done|]. simpl.
  destruct (IH (f d x)) as (H1 & H2 & H3), (Hf d x) as (K1 & K2 & K3). split_and!; congruence.
Qed.
Lemma drop_closed_same d : same_io d (drop_closed d).
Proof.
  unfold drop_closed.
  match goal with |- same_io d (foldl ?f ?d1 ?l) => apply (foldl_same_io f l d1) end.
  intros d1 peer. by destruct (wire_has_peer_connection peer d1).
Qed.
Lemma changed_peers_elem (active next : gmap string N) peer :
  peer ∈ changed_peers active next ↔ active !! peer ≠ next !! peer.
Proof.
  unfold changed_peers. rewrite list_elem_of_filter, btree_elements_elem, elem_of_union, !elem_of_dom. split; [by intros [? _]|].
  intros Hne. split; [done|]. destruct (active !! peer); [left; by eexists|]. destruct (next !! peer); [right; by eexists|done].
Qed.
Definition restart_peer d (peer : string) : WireTcpDriver :=
  restart_queue peer (set_wd_inputs (delete peer (wd_inputs d)) d).
Lemma restart_peer_view peer d p :
  whole_for (wd_queues (restart_peer d peer)) p = whole_for (wd_queues d) p ∧
  pending_for (wd_queues (restart_peer d peer)) p =
    (if decide (p = peer) then whole_for (wd_queues d) p else pending_for (wd_queues d) p) ∧
  wd_inputs (restart_peer d peer) !! p = (if decide (p = peer) then None else wd_inputs d !! p).
Proof.
  unfold restart_peer, restart_queue, whole_for, pending_for. cbn [wd_queues wd_inputs set_wd_queues set_wd_inputs].
  case_decide as Hp.
  - subst p. rewrite lookup_alter_eq, lookup_delete_eq. destruct (wd_queues d !! peer) as [q|]; [|done]. simpl.
    split_and!; [|by rewrite <-restart_pending|done].
    unfold queue_restart. cbn [pq_records]. f_equal. rewrite <-list_fmap_compose. by apply list_fmap_ext.
  - by rewrite lookup_alter_ne, lookup_delete_ne by done.
Qed.
Lemma restart_peers_view peers d p :
  whole_for (wd_queues (foldl restart_peer d peers)) p = whole_for (wd_queues d) p ∧
  pending_for (wd_queues (foldl restart_peer d peers)) p =
    (if decide (p ∈ peers) then whole_for (wd_queues d) p else pending_for (wd_queues d) p) ∧
  wd_inputs (foldl restart_peer d peers) !! p = (if decide (p ∈ peers) then None else wd_inputs d !! p) ∧
  wd_active (foldl restart_peer d peers) = wd_active d.
Proof.
  revert d. induction peers as [|peer peers IH]; intros d.
  { by rewrite !decide_False by set_solver. }
  cbn [foldl]. destruct (IH (restart_peer d peer)) as (-> & -> & -> & ->).
  destruct (restart_peer_view peer d p) as (-> & -> & ->).
  destruct (decide (p = peer)) as [Heq|Hne], (decide (p ∈ peers)) as [Hin|Hin],
    (decide (p ∈ peer :: peers)) as [Hc|Hc]; try done; exfalso; set_solver.
Qed.
Lemma wire_refresh_view d peers d' :
  wire_refresh_active d = Some (Ok peers, d') → ∀ peer,
  if decide (wd_active d' !! peer = wd_active d !! peer) then
    pending_for (wd_queues d') peer = pending_for (wd_queues d) peer ∧ wd_inputs d' !! peer = wd_inputs d !! peer
  else
    pending_for (wd_queues d') peer = whole_for (wd_queues d) peer ∧ wd_inputs d' !! peer = None.
Proof.
  unfold wire_refresh_active. destruct (streams_unchanged d).
  { intros [= _ <-] peer. match goal with |- context [foldl ?f d ?l] => destruct (foldl_same_io f l d) as (-> & -> & ->) end; [done|].
    by rewrite decide_True. }
  destruct (drop_closed_same d) as (Hq & Ha & Hi). set (d0 := drop_closed d) in *. clearbody d0.
  destruct (choose_streams _ _) as [next_active extras].
  assert (same_io d (note_streams (btree_to_list next_active) d0)) as Hsame.
  { unfold note_streams. match goal with |- same_io d (foldl ?f d0 ?l) => destruct (foldl_same_io f l d0) as (Hq' & Ha' & Hi') end.
    - by intros d1 [peer id].
    - split_and!; congruence. }
  unfold mbind at 1, pse_bind, pse_modify. unfold mbind at 1, pse_bind.
  assert (pse_triple (E:=PubsubError) (same_io d) (pse_iter wire_drop_extra extras) (λ _, same_io d) (same_io d)) as Hextra.
  { apply triple_iter. intros id _. apply (triple_bind _ _ _ (λ _, same_io d)).
    - intros d1 Hd1. unfold on_wire_tcp. by destruct (tcp_abort id (wd_tcp d1)) as [[?|?] t].
    - intros []. by apply triple_modify. }
  specialize (Hextra _ Hsame). destruct (pse_iter wire_drop_extra extras _) as [[[[]|e] d1]|]; [|done..].
  unfold pse_get, mbind, pse_bind. intros [= _ <-] peer. destruct Hextra as (Hq1 & Ha1 & Hi1).
  destruct (restart_peers_view (changed_peers (wd_active d1) next_active) (set_wd_active next_active d1) peer)
    as (_ & Hpend & Hin & Hact). unfold restart_peer in Hpend, Hin, Hact. rewrite Hpend, Hin, Hact.
  cbn [wd_active wd_queues wd_inputs set_wd_active]. rewrite Hq1, Ha1, Hi1.
  destruct (decide (next_active !! peer = wd_active d !! peer)) as [Heq|Hne].
  - by rewrite !decide_False by (rewrite changed_peers_elem; congruence).
  - rewrite !decide_True by (rewrite changed_peers_elem; congruence). done.
Qed.

Lemma wire_triple_after {A} (c : PSE WireTcpDriver PubsubError A) d :
  pse_triple W c (λ _, W) W → W d → ∃ d', after (c d) = Some d' ∧ W d'.
Proof.
  intros Hc Hd. specialize (Hc d Hd). unfold after. destruct (c d) as [[[a|e] d']|]; [by eexists..|done].
Qed.
Lemma wire_step_ok op now d : wire_limits o → W d → ∃ d', wire_step op now d = Some d' ∧ W d'.
Proof.
  intros Hl Hd. destruct op; simpl.
  - apply wire_triple_after; [apply select_peers_triple|done].
  - apply wire_triple_after; [apply connect_triple|done].
  - eexists. split; [done|]. unfold wire_service_discovered.
    destruct (wire_has_peer_connection peer_npub d); [done|by apply on_retry_ok].
  - pose proof (queue_frame_spec Hl peer frame d Hd) as Hq. unfold after, pse_se.
    destruct (queue_frame peer frame d) as [r d']. exists d'. split; [done|apply Hq].
  - apply wire_triple_after; [apply on_wire_tcp_triple|done].
  - apply wire_triple_after; [by apply wire_receive_triple|done].
  - apply wire_triple_after; [by apply wire_poll_triple|done].
  - apply wire_triple_after; [apply wire_flush_triple|done].
  - apply wire_triple_after; [apply wire_abort_peer_triple|done].
  - apply wire_triple_after; [apply forget_peer_triple|done].
  - apply wire_triple_after; [|done]. apply triple_get. intros d1 _. apply forget_each_triple.
Qed.
Lemma wire_reach_ok d : wire_limits o → wire_reach d → W d.
Proof.
  intros Hl. induction 1 as [npub tcp d Hd|d tcp _ IH|d op now d' _ IH Hs].
  - unfold wire_driver_new in Hd. case_decide; [|done]. injection Hd as <-.
    assert (connection_peers (∅ : gmap N TrackedConnection) = ∅) as Hnone.
    { unfold connection_peers. by rewrite (hash_values_perm ∅), map_to_list_empty. }
    split; simpl; rewrite ?Hnone; try done; try apply N.le_0_l; intros p; by rewrite lookup_empty.
  - by apply wire_ok_tcp.
  - destruct (wire_step_ok op now d Hl IH) as (d1 & Hd1 & Hok). rewrite Hd1 in Hs. by injection Hs as <-.
Qed.

(** ** The theorems *)

(** C9. What the client's driver keeps is bounded, whatever its peers and the
    network do: no operation panics; at most the configured number of peers
    have a queue, a connection or an inbound lease; a queue holds at most the
    configured records, exactly as many bytes as its count says, and at most one
    record more than the configured bytes; and no input outgrows one record. *)
Theorem wire_driver_bounded d :
  wire_limits o → wire_reach d →
  (∀ op now, is_Some (wire_step op now d)) ∧
  msize (wd_queues d) ≤ wt_peer_capacity o ∧ msize (wd_inbound d) ≤ wt_inbound_peer_capacity o ∧
  ssize (connection_peers (wd_connections d)) ≤ wt_peer_capacity o ∧
  (∀ peer q, wd_queues d !! peer = Some q →
    nlen (pq_records q) ≤ wt_queue_records_per_peer o ∧ pq_bytes q = slen (pending_bytes (pq_records q)) ∧
    full_bytes (pq_records q) ≤ wt_queue_bytes_per_peer o + (wt_frame_capacity o + 4)) ∧
  (∀ peer i, wd_inputs d !! peer = Some i → slen (wi_buffer i) ≤ wt_frame_capacity o + 4).
Proof.
  intros Hl Hr. pose proof (wire_reach_ok d Hl Hr) as Hd. split.
  { intros op now. destruct (wire_step_ok op now d Hl Hd) as (d' & -> & _). by eexists. }
  destruct Hd as [_ Hc Hq Hi Hn Hin _]. split_and!; [done..| |].
  - intros peer q Hp. destruct (Hq peer q Hp) as [[Hb _] _ Hrec _ Hf]. split_and!; [done..|lia].
  - intros peer i Hp. by destruct (Hi peer i Hp).
Qed.

(** C10. A frame on its way to a peer is neither lost, cut nor reordered: queued, its
    record stands behind everything that waits for the peer, and a frame that is
    refused changes nothing that waits; a flush moves bytes from the queues
    to the streams and nothing else; and when a peer's stream is replaced, every
    queued record waits to be sent whole over the new one, while a half-read
    input is dropped and everybody else is left alone. *)
Theorem wire_frames_reach_peer d :
  wire_limits o → wire_reach d →
  (∀ peer frame, let '(r, d') := queue_frame peer frame d in ∀ p, pending_for (wd_queues d') p =
    if decide (p = identity_npub peer ∧ is_ok r = true) then pending_for (wd_queues d) p +:+ record_of frame
    else pending_for (wd_queues d) p) ∧
  (∀ now already, ∃ r d', wire_flush_queues now already d = Some (r, d') ∧
    conserved (btree_to_list (wd_active d)) (wire_view d) (wire_view d') ∧
    ∀ written, r = Ok written → written ≤ wt_drive_io_bytes o - already) ∧
  (∀ peers d' peer, wire_refresh_active d = Some (Ok peers, d') →
    if decide (wd_active d' !! peer = wd_active d !! peer) then
      pending_for (wd_queues d') peer = pending_for (wd_queues d) peer ∧ wd_inputs d' !! peer = wd_inputs d !! peer
    else
      pending_for (wd_queues d') peer = whole_for (wd_queues d) peer ∧ wd_inputs d' !! peer = None).
Proof.
  intros Hl Hr. pose proof (wire_reach_ok d Hl Hr) as Hd. split_and!.
  - intros peer frame. pose proof (queue_frame_spec Hl peer frame d Hd) as Hq.
    destruct (queue_frame peer frame d) as [r d']. apply Hq.
  - intros now already. pose proof (wire_flush_ok o now already d Hd) as Hf.
    destruct (wire_flush_queues now already d) as [[r d']|]; [|done]. destruct Hf as (_ & Hc & Hw).
    by exists r, d'.
  - intros peers d' peer Href. by eapply wire_refresh_view.
Qed.
End wire_props.

(** ** Input *)
Inductive input_op : Set := InPush (bytes : string) | InTake (max_frames : N).
Fixpoint run_input (ops : list input_op) : SE WireDecoder PubsubError (list string) :=
  match ops with
  | [] => mret []
  | InPush bytes :: ops => _ ← wire_push bytes; run_input ops
  | InTake max_frames :: ops => frames ← wire_take max_frames; more ← run_input ops; mret (frames ++ more)
  end.
Definition pushed (ops : list input_op) : string :=
  concat_strings (omap (λ op, match op with InPush bytes => Some bytes | InTake _ => None end) ops).
(** Every read is at most what [remaining_capacity] asked for. *)
Fixpoint reads_fit (ops : list input_op) (d : WireDecoder) : Prop :=
  match ops with
  | [] => True
  | InPush bytes :: ops => slen bytes ≤ wire_remaining_capacity d ∧ reads_fit ops (wire_push bytes d).2
  | InTake max_frames :: ops => reads_fit ops (wire_take max_frames d).2
  end.
Section input.
Context (max : N) (max_u32 : max ≤ u32_max).
Definition input_ok (d : WireDecoder) : Prop :=
  wi_max_frame_bytes d = max ∧ slen (wi_buffer d) ≤ max + LENGTH_PREFIX_BYTES.
Lemma wire_room d : input_ok d → wire_remaining_capacity d = max + LENGTH_PREFIX_BYTES - slen (wi_buffer d).
Proof.
  intros [Hm _]. unfold wire_remaining_capacity, usize_sat_add. rewrite Hm, sat_add_exact; [done|].
  by apply (slen_le_usize max).
Qed.
Lemma run_input_ok ops frames future d :
  Forall (λ frame, slen frame ≤ max) frames → input_ok d → reads_fit ops d →
  wi_buffer d +:+ pushed ops +:+ future = stream_of frames →
  ∃ taken later d', run_input ops d = (Ok taken, d') ∧ frames = taken ++ later ∧ input_ok d' ∧
    wi_buffer d' +:+ future = stream_of later.
Proof.
  revert frames d. induction ops as [|op ops IH]; intros frames d Hall Hd Hfit Heq.
  { by exists [], frames, d. }
  destruct op as [bytes|n]; cbn [run_input reads_fit] in *.
  - destruct Hfit as [Hroom Hfit]. rewrite (wire_room d Hd) in Hroom. destruct Hd as [Hm Hl].
    assert (wire_push bytes d = (Ok tt, mkWireDecoder max (wi_buffer d +:+ bytes))) as Hpush.
    { unfold wire_push. rewrite Hm. change 4 with LENGTH_PREFIX_BYTES.
      assert (usize_sat_add (slen (wi_buffer d)) (slen bytes) = slen (wi_buffer d) + slen bytes) as ->.
      { apply sat_add_exact, (slen_le_usize max); [done|lia]. }
      by rewrite decide_False by lia. }
    unfold mbind, se_bind. rewrite Hpush in *. apply IH; [done| |done|].
    + split; [done|]. cbn [wi_buffer]. rewrite slen_app. lia.
    + cbn [wi_buffer]. change (pushed (InPush bytes :: ops)) with (bytes +:+ pushed ops) in Heq.
      rewrite <-!str_app_assoc in *. exact Heq.
  - destruct Hd as [Hm Hl].
    destruct (take_records_stream max (N.to_nat n) frames (wi_buffer d) (pushed ops +:+ future))
      as (taken & later & rest & Ht & -> & Hrest & Hlen & _); [done..|].
    assert (wire_take n d = (Ok taken, mkWireDecoder max rest)) as Htake by (unfold wire_take; by rewrite Hm, Ht).
    unfold mbind at 1, se_bind. rewrite Htake in *. apply Forall_app in Hall as [_ Hall].
    destruct (IH later (mkWireDecoder max rest) Hall) as (more & later' & d' & Hrun & -> & Hok & Hbuf);
      [split; [done|simpl; lia]|exact Hfit|exact Hrest|].
    unfold mbind, se_bind. rewrite Hrun. exists (taken ++ more), later', d'. split_and!; [done|by rewrite app_assoc|done..].
Qed.

(** The frames a peer sends come out of its input in order and whole: for
    any interleaving of reads that fit and of takes, over a stream of frames
    within the bound, nothing fails, the frames taken are a prefix of those
    sent, and the unread bytes are kept; and an input that is not ready has
    room for more and holds less than the next record, so that every frame
    that has arrived is taken in the end. *)
Theorem wire_input_in_order ops frames future :
  Forall (λ frame, slen frame ≤ max) frames → reads_fit ops (wire_decoder_new max) →
  pushed ops +:+ future = stream_of frames →
  ∃ taken later d, run_input ops (wire_decoder_new max) = (Ok taken, d) ∧ frames = taken ++ later ∧
    wi_buffer d +:+ future = stream_of later ∧
    (wire_has_complete_record d = false →
      0 < wire_remaining_capacity d ∧
      ∀ frame rest, later = frame :: rest → slen (wi_buffer d) < slen (record_of frame)).
Proof.
  intros Hall Hfit Heq.
  destruct (run_input_ok ops frames future (wire_decoder_new max) Hall ltac:(by split; [|apply N.le_0_l]) Hfit Heq)
    as (taken & later & d & Hrun & -> & Hd & Hbuf).
  exists taken, later, d. split_and!; [done..|]. intros Hready. rewrite (wire_room d Hd). destruct Hd as [Hm Hl].
  assert (incomplete max (wi_buffer d)) as Hinc.
  { unfold incomplete. unfold wire_has_complete_record in Hready. change 4 with LENGTH_PREFIX_BYTES in Hready.
    case_decide; [by left|right]. rewrite Hm in Hready. apply orb_false_iff in Hready as [H1 H2].
    apply bool_decide_eq_false in H1, H2. lia. }
  split; [apply incomplete_room in Hinc; lia|]. intros frame rest ->.
  apply Forall_app in Hall as [_ [Hf _]%Forall_cons]. rewrite record_of_length.
  destruct (decide (slen (wi_buffer d) < LENGTH_PREFIX_BYTES)) as [|Hlen]; [lia|].
  pose proof (stream_prefix max (wi_buffer d) future frame rest Hf max_u32 ltac:(lia) Hbuf) as Hp.
  destruct Hinc as [?|[_ ?]]; lia.
Qed.
End input.
