(* ===== verification/TcpWitness.v ===== *)
(** * TCP: a concrete endpoint and runs of both drivers

    An endpoint on which the drivers of StreamTcp.v and WireTcp.v are evaluated. *)

From S2P Require Export FipsTcp FipsToy StreamTcpProps FipsStreamWitness WireTcpProps.

(** ** A concrete TCP endpoint, for evaluation

    An endpoint whose connections are established at once, whose input is given
    by hand and whose writes accept at most a window of bytes at a time. *)

Module ToyTcp.
#[export] Existing Instance Toy.toy_nostr.
#[export] Existing Instance FipsToy.toy_core.
Record toy_conn : Set := ToyConn { cn_peer : string; cn_input : string; cn_window : N; cn_closed : bool }.
Record toy_tcp : Type := ToyTcp {
  tt_conns : gmap N toy_conn;
  tt_sent : gmap N string;
  tt_backlog : list N;
  tt_next : N;
  tt_instant : N;
}.
Inductive toy_state : Set := ToySynSent | ToySynReceived | ToyEstablished | ToyCloseWait.
#[export] Instance toy_state_eq_dec : EqDecision toy_state.
Proof. solve_decision. Defined.
Definition toy_accept (t : toy_tcp) : option N * toy_tcp :=
  match tt_backlog t with
  | [] => (None, t)
  | id :: backlog => (Some id, ToyTcp (tt_conns t) (tt_sent t) backlog (tt_next t) (tt_instant t))
  end.
Definition set_conns (conns : gmap N toy_conn) (t : toy_tcp) : toy_tcp :=
  ToyTcp conns (tt_sent t) (tt_backlog t) (tt_next t) (tt_instant t).
Definition toy_read (id max : N) (t : toy_tcp) : result string string * toy_tcp :=
  match tt_conns t !! id with
  | None => (Err "no connection"%string, t)
  | Some c =>
      (Ok (str_take (N.to_nat max) (cn_input c)),
       set_conns (<[id := ToyConn (cn_peer c) (str_drop (N.to_nat max) (cn_input c)) (cn_window c) (cn_closed c)]> (tt_conns t)) t)
  end.
Definition sent_on (t : toy_tcp) (id : N) : string := default "" (tt_sent t !! id).
Definition toy_write (id : N) (chunk : string) (t : toy_tcp) : result string N * toy_tcp :=
  match tt_conns t !! id with
  | None => (Err "no connection"%string, t)
  | Some c =>
      let n := slen chunk `min` cn_window c in
      (Ok n, ToyTcp (tt_conns t) (<[id := sent_on t id +:+ str_take (N.to_nat n) chunk]> (tt_sent t))
               (tt_backlog t) (tt_next t) (tt_instant t))
  end.
#[export] Instance toy_fips_tcp : FipsTcp FipsToy.toy_core := {|
  Tcp := toy_tcp;
  TcpState := toy_state;
  SynSent := ToySynSent; SynReceived := ToySynReceived; Established := ToyEstablished; CloseWait := ToyCloseWait;
  tcp_state t id := (λ _, ToyEstablished) <$> tt_conns t !! id;
  tcp_peer t id := cn_peer <$> tt_conns t !! id;
  tcp_is_read_closed t id := from_option cn_closed false (tt_conns t !! id);
  tcp_instant := tt_instant;
  tcp_next_poll_at _ _ := None;
  tcp_backlog t := length (tt_backlog t);
  tcp_accept := toy_accept;
  tcp_connect peer _ t :=
    (Ok (tt_next t), ToyTcp (<[tt_next t := ToyConn peer "" 16 false]> (tt_conns t)) (tt_sent t) (tt_backlog t)
                       (tt_next t + 1) (tt_instant t));
  tcp_abort id t := (Ok tt, set_conns (delete id (tt_conns t)) t);
  tcp_abort_peer peer t := (Ok tt, set_conns (filter (λ c, cn_peer c.2 ≠ peer) (tt_conns t)) t);
  tcp_close id _ t := (Ok tt, set_conns (delete id (tt_conns t)) t);
  tcp_read id max _ t := toy_read id max t;
  tcp_write id chunk _ t := toy_write id chunk t;
  tcp_poll _ t := (Ok tt, t);
  tcp_wait_for_input t := (Ok tt, t);
  tcp_receive_filtered _ _ _ s t := (Ok (0, 0), s, t);
  tcp_receive_datagrams _ _ s t := (Ok (0, 0), s, t);
|}.
#[export] Instance toy_tcp_laws : FipsTcpLaws toy_fips_tcp.
Proof.
  refine {| tcp_sent := sent_on |}; simpl.
  - intros id max _ t bytes t'. unfold toy_read. destruct (tt_conns t !! id); [|done]. intros [= <- <-].
    unfold slen. rewrite str_take_length. lia.
  - intros id chunk _ t n t'. unfold toy_write. destruct (tt_conns t !! id); [|done]. intros [= <- <-].
    split_and!; [lia| |].
    + unfold sent_on at 1. simpl. by rewrite lookup_insert_eq.
    + intros other Hne. unfold sent_on. simpl. by rewrite lookup_insert_ne.
  - intros id chunk _ t e t'. unfold toy_write. by destruct (tt_conns t !! id); intros [= <- <-].
  - intros t id t'. unfold toy_accept. destruct (tt_backlog t) eqn:Hb; [done|]. intros [= <- <-]. simpl. lia.
  - done.
  - done.
Defined.
(** Connections of the given peers with the bytes one write accepts, numbered
    from 1, all of them waiting to be accepted. *)
Fixpoint toy_network (id : N) (peers : list (string * N)) : gmap N toy_conn :=
  match peers with
  | [] => ∅
  | (peer, window) :: peers => <[id := ToyConn peer "" window false]> (toy_network (id + 1) peers)
  end.
Definition toy_endpoint (peers : list (string * N)) : toy_tcp :=
  ToyTcp (toy_network 1 peers) ∅ (N.of_nat <$> seq 1 (length peers)) 100 0.
(** The network brings bytes for one connection. *)
Definition arrive (id : N) (bytes : string) (t : toy_tcp) : toy_tcp :=
  set_conns (alter (λ c, ToyConn (cn_peer c) (cn_input c +:+ bytes) (cn_window c) (cn_closed c)) id (tt_conns t)) t.
End ToyTcp.

(** ** The inventory/want TCP driver: concrete runs

    A driver with two peers asks for an announced event and delivers it; and
    the same driver when the queue of a third party is full. *)

Module DriverWitness.
Import ToyTcp StreamWitness.
#[local] Existing Instance Toy.toy_laws.

Definition options (records : N) : FipsInvWantTcpDriverOptions := {|
  to_service_namespace := "nostr.pubsub/"; to_service_version := 1; to_service_port := 7368;
  to_max_peers := 2; to_max_queued_records_per_peer := records; to_max_queued_bytes_per_peer := 1000;
  to_max_io_bytes_per_drive := 200 |}.
(** Bob reads nothing. *)
Definition network : toy_tcp := toy_endpoint [(alice, 16); (bob, 0)].
Definition d0 (records : N) : FipsInvWantTcpDriver :=
  mkTcpDriver "carol" network s0 (options records) ∅ ∅ ∅.
Notation reachable records := (driver_reach (options records) StreamWitness.options (Some policy) None).
(** Bytes from alice, then a poll. *)
Definition hear (bytes : string) d : FipsInvWantTcpDriver := set_td_tcp (arrive 1 bytes (td_tcp d)) d.
Definition polled (now : N) d : list QueryEvent * FipsInvWantTcpDriver := default ([], d) (driver_step DvPoll now d).

Lemma poll_reaches records clock delivered d now bytes :
  reachable records clock delivered d → clock ≤ now → now ≤ u64_max →
  from_option (λ _, true) false (driver_step DvPoll now (hear bytes d)) = true →
  reachable records now (delivered ++ (polled now (hear bytes d)).1) (polled now (hear bytes d)).2.
Proof.
  intros Hr Hle Hmax Hs. destruct (driver_step DvPoll now (hear bytes d)) as [[events d']|] eqn:Hstep; [|done].
  apply (driver_reach_step _ _ _ _ clock _ (hear bytes d) now DvPoll);
    [by apply driver_reach_network|done..|]. unfold polled. by rewrite Hstep.
Qed.
Lemma start_reachable records : 0 < records → reachable records 0 [] (d0 records).
Proof.
  intros Hr. apply (driver_reach_new (FT:=toy_fips_tcp) _ _ _ _ "carol" network fresh); [done|]. unfold tcp_driver_new.
  cbn -[tcp_driver_options_validate].
  assert (tcp_driver_options_validate (options records) = Ok tt) as ->; [|done].
  unfold tcp_driver_options_validate. rewrite decide_False by done. rewrite decide_False by done.
  cbn [options to_max_peers to_max_queued_records_per_peer to_max_queued_bytes_per_peer to_max_io_bytes_per_drive first_zero].
  by rewrite (decide_False (P:=records = 0)) by lia.
Qed.

Definition d1 records := (polled 10 (hear announce (d0 records))).2.
Definition d2 records := (polled 11 (hear answer (d1 records))).2.
Definition events2 records := (polled 11 (hear answer (d1 records))).1.
Lemma driver_asks : tcp_sent (td_tcp (d1 4)) 1 = wire (Want id_a).
Proof. reflexivity. Qed.
Lemma driver_delivers : events2 4 =
  [mkQueryEvent (mkVerifiedEvent event_a) (EventSources.fips_endpoint alice) 5].
Proof. reflexivity. Qed.

Definition delivered1 : list QueryEvent := [] ++ (polled 10 (hear announce (d0 4))).1.
Lemma reachable1 : reachable 4 10 delivered1 (d1 4).
Proof. apply (poll_reaches 4 0 [] (d0 4) 10 announce (start_reachable 4 eq_refl)); [done|done|vm_compute; reflexivity]. Defined.
Lemma reachable2 : reachable 4 11 (delivered1 ++ events2 4) (d2 4).
Proof. apply (poll_reaches 4 10 delivered1 (d1 4) 11 answer reachable1); [done|done|vm_compute; reflexivity]. Defined.
Lemma limits_typed records : records < usize_max → queue_limits_typed (options records).
Proof. intros Hr. repeat split. exact Hr. Defined.

(** Bob's inventory is waiting: he reads nothing. *)
Lemma driver_queues_bounded_witness :
  pending_for (td_queues (d2 4)) bob = wire (Inventory id_a 1 7 2) ∧
  msize (td_queues (d2 4)) ≤ 2 ∧ ssize (connection_peers (td_connections (d2 4))) ≤ 2 ∧
  (∀ peer q, td_queues (d2 4) !! peer = Some q →
    nlen (pq_records q) ≤ 4 ∧ pq_bytes q = slen (pending_bytes (pq_records q)) ∧ pq_bytes q ≤ 1000) ∧
  (∀ p q id, td_active (d2 4) !! p = Some id → td_active (d2 4) !! q = Some id → p = q).
Proof.
  split; [reflexivity|].
  exact (driver_queues_bounded (options 4) StreamWitness.options (Some policy) None 11 _ (d2 4)
    (limits_typed 4 eq_refl) MeshWitness.demo_typed reachable2).
Defined.
(** One more record for bob, then a flush in which his peer reads nothing. *)
Definition more : list FipsInvWantStreamAction := [StreamSend bob (wire (Want id_a))].
Lemma queued_bytes_reach_peer_witness :
  (∃ r d', apply_actions more (d2 4) = Some (r, d') ∧
    match r with
    | Err _ => d' = d2 4
    | Ok deliveries => deliveries = action_deliveries more ∧ ∀ peer,
        pending_for (td_queues d') peer =
          pending_for (td_queues (d2 4)) peer +:+ concat_strings (sends_to peer (action_sends more))
    end) ∧
  (∃ r d', driver_flush_queues 11 report_default (d2 4) = Some (r, d') ∧
    conserved (btree_to_list (td_active (d2 4))) (driver_view (d2 4)) (driver_view d') ∧
    ∀ report', r = Ok report' → dp_stream_bytes_written report' ≤ 0 + 200).
Proof.
  exact (queued_bytes_reach_peer (options 4) StreamWitness.options (Some policy) None 11 _ (d2 4) more 11 report_default
    (limits_typed 4 eq_refl) MeshWitness.demo_typed reachable2 (N.le_refl 11)).
Defined.
Lemma driver_loops_end_witness :
  flush_loop (N.to_nat 100 + 5) alice 1 11 100 report_default (d1 4)
    = flush_loop (N.to_nat 100) alice 1 11 100 report_default (d1 4) ∧
  accept_loop (1 + 3) (d1 4) = accept_connections (d1 4).
Proof.
  split; [exact (proj1 (driver_loops_end (d1 4) alice 1 11 100 report_default 5))
         |exact (proj2 (driver_loops_end (d1 4) alice 1 11 100 report_default 3))].
Defined.
Lemma simultaneous_open_agrees_witness :
  choose_streams "a" [("b"%string, [(2, Inbound); (1, Outbound)])] = ({["b" := 1]}, [2]) ∧
    choose_streams "b" [("a"%string, [(8, Inbound); (9, Outbound)])] = ({["a" := 8]}, [9]) ∨
  choose_streams "a" [("b"%string, [(2, Inbound); (1, Outbound)])] = ({["b" := 2]}, [1]) ∧
    choose_streams "b" [("a"%string, [(8, Inbound); (9, Outbound)])] = ({["a" := 9]}, [8]).
Proof.
  apply (simultaneous_open_agrees "a" "b" 1 2 8 9); [done|apply perm_swap|apply perm_swap].
Defined.

(** ** A full queue

    With room for one record, the inventory of the first event fills bob's
    queue. When alice then sends a second event, the poll fails: the driver
    has told its mesh to deliver the event and has thrown it away, so it is not
    delivered when it comes again either. *)
Definition id_b : string := Toy.toy_hex Toy.IdB.
Definition announce_b : string := wire (Inventory id_b 1 6 3).
Definition answer_b : string := wire (Frame id_b (Toy.toy_body Toy.IdB)).
Definition d3 : FipsInvWantTcpDriver := (polled 12 (hear announce_b (d2 1))).2.
Lemma full_queue_loses_delivery :
  let failed := driver_poll 13 (hear answer_b d3) in
  let d4 := default d3 (snd <$> failed) in
  length (events2 1) = 1%nat ∧ from_option (λ p, is_ok p.1) true failed = false ∧
  length (polled 14 (hear answer_b d4)).1 = 0%nat ∧
  length (polled 15 (hear (announce_b +:+ answer_b) d4)).1 = 0%nat ∧
  (fst <$> map_to_list (cached_events (is_mesh (td_stream d4)))) = [id_a; id_b].
Proof. split_and!; vm_compute; reflexivity. Qed.
End DriverWitness.

(** ** The TCP driver of the FIPS client: concrete runs

    A driver that queues a frame for a selected peer, writes part of it, and
    starts over when the peer comes back on a new stream. *)

Module WireWitness.
Import ToyTcp.
#[local] Instance toy_segments : TcpSegments := {|
  Segment := string; segment_decode := Ok; seg_dst_port _ := 7368; seg_flags_are_syn _ := true;
  seg_ack _ := None; seg_payload _ := ""; seg_supports_fips_version _ _ := true; FIPS_VERSION := 1 |}.
Definition alice : string := "alice".
(** Six bytes a turn. *)
Definition options : WireTcpOptions := mkWireTcpOptions 32 2 1 4 200 6 4.
Lemma limits : wire_limits options.
Proof. by split. Defined.
Definition d0 : WireTcpDriver := mkWireDriver "carol" ∅ ∅ (toy_endpoint [(alice, 16)]) options ∅ ∅ ∅ ∅ false.
Lemma reach0 : wire_reach options d0.
Proof. by apply (wire_reach_new (FT:=toy_fips_tcp) options "carol" (toy_endpoint [(alice, 16)])). Defined.
Definition run (op : wire_op) (now : N) d : WireTcpDriver := default d (wire_step op now d).
Lemma run_reaches op now d :
  from_option (λ _, true) false (wire_step op now d) = true → wire_reach options d →
  wire_reach options (run op now d).
Proof.
  intros Hs Hr. unfold run. destruct (wire_step op now d) as [d'|] eqn:Hstep; [|done].
  exact (wire_reach_step options d op now d' Hr Hstep).
Qed.
Definition d1 : WireTcpDriver := run (WtQueue alice "hello") 1 (run (WtSelect {[alice]}) 0 d0).
Definition d2 : WireTcpDriver := run WtPoll 2 d1.
Lemma partly_written :
  tcp_sent (wd_tcp d2) 1 +:+ pending_for (wd_queues d2) alice = record_of "hello" ∧
  slen (tcp_sent (wd_tcp d2) 1) = 6.
Proof. split; vm_compute; reflexivity. Qed.
(** The network replaces alice's stream. *)
Definition replaced : toy_tcp := ToyTcp {[2 := ToyConn alice "" 16 false]} ∅ [2] 100 1.
Definition d3 : WireTcpDriver := run WtPoll 3 (set_wd_tcp replaced d2).
Lemma starts_over :
  tcp_sent (wd_tcp d3) 2 +:+ pending_for (wd_queues d3) alice = record_of "hello" ∧
  slen (tcp_sent (wd_tcp d3) 2) = 6.
Proof. split; vm_compute; reflexivity. Qed.
Lemma wire_reach1 : wire_reach options d1.
Proof. apply run_reaches; [vm_compute; reflexivity|]. apply run_reaches; [vm_compute; reflexivity|exact reach0]. Defined.
Lemma wire_reach2 : wire_reach options d2.
Proof. apply run_reaches; [vm_compute; reflexivity|exact wire_reach1]. Defined.

Lemma wire_driver_bounded_witness :
  (∀ op now, is_Some (wire_step op now d2)) ∧
  msize (wd_queues d2) ≤ 2 ∧ msize (wd_inbound d2) ≤ 1 ∧ ssize (connection_peers (wd_connections d2)) ≤ 2 ∧
  (∀ peer q, wd_queues d2 !! peer = Some q →
    nlen (pq_records q) ≤ 4 ∧ pq_bytes q = slen (pending_bytes (pq_records q)) ∧
    full_bytes (pq_records q) ≤ 200 + (32 + 4)) ∧
  (∀ peer i, wd_inputs d2 !! peer = Some i → slen (wi_buffer i) ≤ 32 + 4).
Proof. exact (wire_driver_bounded options d2 limits wire_reach2). Defined.
Lemma wire_frames_reach_peer_witness :
  (∀ peer frame, let '(r, d') := queue_frame peer frame d2 in ∀ p, pending_for (wd_queues d') p =
    if decide (p = identity_npub peer ∧ is_ok r = true) then pending_for (wd_queues d2) p +:+ record_of frame
    else pending_for (wd_queues d2) p) ∧
  (∀ now already, ∃ r d', wire_flush_queues now already d2 = Some (r, d') ∧
    conserved (btree_to_list (wd_active d2)) (wire_view d2) (wire_view d') ∧
    ∀ written, r = Ok written → written ≤ 6 - already) ∧
  (∀ peers d' peer, wire_refresh_active d2 = Some (Ok peers, d') →
    if decide (wd_active d' !! peer = wd_active d2 !! peer) then
      pending_for (wd_queues d') peer = pending_for (wd_queues d2) peer ∧ wd_inputs d' !! peer = wd_inputs d2 !! peer
    else
      pending_for (wd_queues d') peer = whole_for (wd_queues d2) peer ∧ wd_inputs d' !! peer = None).
Proof. exact (wire_frames_reach_peer options d2 limits wire_reach2). Defined.

Definition frames : list string := ["hello"; "bye"; "again"]%string.
Definition ops : list input_op :=
  [InPush (str_take 11 (stream_of frames)); InTake 4; InPush (str_take 8 (str_drop 11 (stream_of frames))); InTake 1].
Lemma wire_input_in_order_witness :
  (run_input ops (wire_decoder_new 32)).1 = Ok ["hello"; "bye"]%string ∧
  ∃ taken later d, run_input ops (wire_decoder_new 32) = (Ok taken, d) ∧ frames = taken ++ later ∧
    wi_buffer d +:+ str_drop 19 (stream_of frames) = stream_of later ∧
    (wire_has_complete_record d = false →
      0 < wire_remaining_capacity d ∧
      ∀ frame rest, later = frame :: rest → slen (wi_buffer d) < slen (record_of frame)).
Proof.
  split; [reflexivity|].
  apply (wire_input_in_order 32 ltac:(done) ops frames (str_drop 19 (stream_of frames)));
    [by repeat constructor|by repeat split; vm_compute|reflexivity].
Defined.
End WireWitness.
