(* ===== verification/SimBasics.v ===== *)
(** * The simulator: virtual time and metrics

    crates/nostr-pubsub-sim/src/clock.rs: [VirtualScheduler], the queue of
    discrete events. crates/nostr-pubsub-sim/src/metrics.rs: summaries of
    integer samples and traffic ledgers, all in integers. *)

From S2P Require Export Containers.

(** ** The iteration order of a BTreeMap with integer keys *)
Definition n_to_list {V} (m : gmap N V) : list (N * V) := sort_by (cmp_on fst N.compare) (map_to_list m).
Definition before {V} (x y : N * V) : Prop := x.1 < y.1.

Lemma sorted_filter {A} (R : relation A) (P : A → Prop) `{!∀ x, Decision (P x)} l :
  StronglySorted R l → StronglySorted R (filter P l).
Proof.
  induction 1 as [|x l _ IH Hx]; [constructor|]. rewrite filter_cons. case_decide; [|done].
  constructor; [done|]. apply Forall_forall. rewrite Forall_forall in Hx.
  intros y [_ ?]%list_elem_of_filter. auto.
Qed.
Section n_to_list.
Context {V : Type}.
Implicit Types (m : gmap N V) (l : list (N * V)).
Lemma n_to_list_elem m k v : (k, v) ∈ n_to_list m ↔ m !! k = Some v.
Proof. unfold n_to_list. by rewrite sort_by_elem, elem_of_map_to_list. Qed.
Lemma n_to_list_sorted m : StronglySorted before (n_to_list m).
Proof.
  pose proof (sort_by_sorted (cmp_on fst N.compare) (map_to_list m)) as Hs.
  assert (NoDup (n_to_list m).*1) as Hnd.
  { unfold n_to_list. rewrite sort_by_perm. apply NoDup_fst_map_to_list. }
  unfold n_to_list in *. induction Hs as [|x l Hs IH Hx]; [constructor|].
  rewrite fmap_cons in Hnd. apply NoDup_cons in Hnd as [Hni Hnd]. constructor; [by apply IH|].
  apply Forall_forall. intros y Hy. rewrite Forall_forall in Hx. specialize (Hx y Hy).
  assert (x.1 ≠ y.1) by (intros E; apply Hni; rewrite E; by apply list_elem_of_fmap_2).
  unfold cmp_le, cmp_on in Hx. unfold before. destruct (N.compare_spec x.1 y.1); [done|done|by destruct Hx].
Qed.
(** A strictly sorted list with the map's bindings is its list. *)
Lemma n_to_list_unique m l :
  StronglySorted before l → (∀ k v, (k, v) ∈ l ↔ m !! k = Some v) → n_to_list m = l.
Proof.
  intros Hs Hl. assert (NoDup l) as Hnd.
  { induction Hs as [|x l Hs IH Hx]; [constructor|]. clear Hl.
    assert (NoDup l) by (clear IH; induction Hs as [|y l' ? ? Hy]; [constructor|]; constructor;
      [intros Hin; rewrite Forall_forall in Hy; specialize (Hy _ Hin); unfold before in Hy; lia|
       apply IHHs; by apply Forall_cons in Hx as [_ ?]]).
    constructor; [|done]. intros Hin. rewrite Forall_forall in Hx. specialize (Hx _ Hin). unfold before in Hx. lia. }
  apply (StronglySorted_unique_strong before).
  - intros x y ? ? Hxy Hyx. unfold before in *. lia.
  - apply n_to_list_sorted.
  - done.
  - unfold n_to_list. rewrite sort_by_perm. apply NoDup_Permutation; [apply NoDup_map_to_list|done|].
    intros [k v]. by rewrite elem_of_map_to_list, Hl.
Qed.
(** Two maps that differ at one key only. *)
Lemma n_to_list_alter m m' t :
  (∀ k, k ≠ t → m' !! k = m !! k) →
  n_to_list m' = filter (λ p, p.1 < t) (n_to_list m) ++
    from_option (λ v, [(t, v)]) [] (m' !! t) ++ filter (λ p, t < p.1) (n_to_list m).
Proof.
  intros Hm. apply n_to_list_unique.
  - apply StronglySorted_app_2; [| |apply StronglySorted_app_2].
    + intros [k v] [k' v'] [Hk _]%list_elem_of_filter [Hk'|[Hk' _]%list_elem_of_filter]%elem_of_app;
        unfold before; cbn [fst] in *; [|lia].
      destruct (m' !! t); simpl in Hk'; [|by apply elem_of_nil in Hk'].
      apply list_elem_of_singleton in Hk' as [= -> _]. done.
    + apply sorted_filter, n_to_list_sorted.
    + intros [k v] [k' v'] Hk [Hk' _]%list_elem_of_filter. unfold before. cbn [fst] in *.
      destruct (m' !! t); simpl in Hk; [|by apply elem_of_nil in Hk].
      apply list_elem_of_singleton in Hk as [= -> _]. done.
    + destruct (m' !! t); simpl; repeat constructor.
    + apply sorted_filter, n_to_list_sorted.
  - intros k v. rewrite !elem_of_app, !list_elem_of_filter, n_to_list_elem. cbn [fst].
    destruct (decide (k = t)) as [->|Hne].
    + split.
      * intros [[? _]|[Hin|[? _]]]; [lia| |lia]. destruct (m' !! t); simpl in Hin; [|by apply elem_of_nil in Hin].
        by apply list_elem_of_singleton in Hin as [= ->].
      * intros ->. right. left. simpl. by apply list_elem_of_singleton.
    + rewrite (Hm k Hne). split.
      * intros [[_ ?]|[Hin|[_ ?]]]; [done| |done]. destruct (m' !! t); simpl in Hin; [|by apply elem_of_nil in Hin].
        by apply list_elem_of_singleton in Hin as [= -> _].
      * intros Hk. destruct (decide (k < t)); [by left|]. right; right. split; [lia|done].
Qed.
End n_to_list.

(** ** The scheduler *)
Record VirtualScheduler (T : Type) : Type := mkScheduler {
  vs_now_ms : N;
  vs_events : gmap N (list T);
  vs_pending : N;
  vs_peak_pending : N;
}.
Arguments mkScheduler {T} _ _ _ _.
Arguments vs_now_ms {T} _.
Arguments vs_events {T} _.
Arguments vs_pending {T} _.
Arguments vs_peak_pending {T} _.

Section scheduler.
Context {T : Type}.
Implicit Types s : VirtualScheduler T.
Definition scheduler_new (now_ms : N) : VirtualScheduler T := mkScheduler now_ms ∅ 0 0.
Definition schedule_at (at_ms : N) (event : T) s : N * VirtualScheduler T :=
  let effective_at_ms := N.max at_ms (vs_now_ms s) in
  let pending := usize_sat_add (vs_pending s) 1 in
  (effective_at_ms,
   mkScheduler (vs_now_ms s)
     (<[effective_at_ms := default [] (vs_events s !! effective_at_ms) ++ [event]]> (vs_events s))
     pending (N.max (vs_peak_pending s) pending)).
Definition schedule_after (delay_ms : N) (event : T) s : N * VirtualScheduler T :=
  schedule_at (u64_sat_add (vs_now_ms s) delay_ms) event s.
(** An answer, or a panic: an empty bucket, or a count below zero. *)
Definition pop_next s : option (option T * VirtualScheduler T) :=
  match n_to_list (vs_events s) with
  | [] => Some (None, s)
  | (at_ms, []) :: _ => None
  | (at_ms, event :: bucket) :: _ =>
      if decide (vs_pending s = 0) then None
      else
        let events := match bucket with
                      | [] => delete at_ms (vs_events s)
                      | _ => <[at_ms := bucket]> (vs_events s)
                      end in
        Some (Some event, mkScheduler at_ms events (vs_pending s - 1) (vs_peak_pending s))
  end.
Definition scheduler_is_empty s : bool := bool_decide (vs_pending s = 0).

(** *** Calls, and what they answer *)
Inductive SchedulerOp : Type := OpAt (at_ms : N) (event : T) | OpAfter (delay_ms : N) (event : T) | OpPop.
Inductive SchedulerAnswer : Type := Scheduled (at_ms : N) | Popped (event : option T).
Definition scheduler_step (op : SchedulerOp) s : option (SchedulerAnswer * VirtualScheduler T) :=
  match op with
  | OpAt at_ms event => let '(t, s) := schedule_at at_ms event s in Some (Scheduled t, s)
  | OpAfter delay_ms event => let '(t, s) := schedule_after delay_ms event s in Some (Scheduled t, s)
  | OpPop => '(event, s) ← pop_next s; Some (Popped event, s)
  end.
Fixpoint scheduler_run (ops : list SchedulerOp) s : option (list SchedulerAnswer * VirtualScheduler T) :=
  match ops with
  | [] => Some ([], s)
  | op :: ops =>
      '(answer, s) ← scheduler_step op s;
      '(answers, s) ← scheduler_run ops s;
      Some (answer :: answers, s)
  end.

(** *** The specification: one list in the order of time and then arrival *)
Record Agenda : Type := mkAgenda { ag_now : N; ag_queue : list (N * T) }.
Definition agenda_add (at_ms : N) (event : T) (a : Agenda) : N * Agenda :=
  let t := N.max at_ms (ag_now a) in
  (t, mkAgenda (ag_now a) (filter (λ x, x.1 ≤ t) (ag_queue a) ++ (t, event) :: filter (λ x, t < x.1) (ag_queue a))).
Definition agenda_step (op : SchedulerOp) (a : Agenda) : SchedulerAnswer * Agenda :=
  match op with
  | OpAt at_ms event => let '(t, a) := agenda_add at_ms event a in (Scheduled t, a)
  | OpAfter delay_ms event =>
      let '(t, a) := agenda_add (u64_sat_add (ag_now a) delay_ms) event a in (Scheduled t, a)
  | OpPop =>
      match ag_queue a with
      | [] => (Popped None, a)
      | (t, event) :: queue => (Popped (Some event), mkAgenda t queue)
      end
  end.
Fixpoint agenda_run (ops : list SchedulerOp) (a : Agenda) : list SchedulerAnswer * Agenda :=
  match ops with
  | [] => ([], a)
  | op :: ops =>
      let '(answer, a) := agenda_step op a in
      let '(answers, a) := agenda_run ops a in (answer :: answers, a)
  end.

(** *** Refinement *)
Definition expand (l : list (N * list T)) : list (N * T) := mjoin ((λ p : N * list T, pair p.1 <$> p.2) <$> l).
Definition agenda_of s : Agenda := mkAgenda (vs_now_ms s) (expand (n_to_list (vs_events s))).
Record scheduler_ok s : Prop := {
  so_buckets t bucket : vs_events s !! t = Some bucket → bucket ≠ [] ∧ vs_now_ms s ≤ t;
  so_pending : vs_pending s = nlen (ag_queue (agenda_of s));
  so_peak : vs_pending s ≤ vs_peak_pending s;
}.
Lemma expand_cons t bucket l : expand ((t, bucket) :: l) = (pair t <$> bucket) ++ expand l.
Proof. done. Qed.
Lemma expand_app l1 l2 : expand (l1 ++ l2) = expand l1 ++ expand l2.
Proof.
  induction l1 as [|[t bucket] l1 IH]; [done|]. cbn [app]. by rewrite !expand_cons, IH, app_assoc.
Qed.
Lemma filter_pair (P : N → Prop) `{!∀ t, Decision (P t)} t (bucket : list T) :
  filter (λ x : N * T, P x.1) (pair t <$> bucket) = if decide (P t) then pair t <$> bucket else [].
Proof.
  induction bucket as [|x bucket IH]; [by case_decide|]. rewrite fmap_cons, filter_cons, IH. cbn [fst].
  by case_decide.
Qed.
Lemma filter_expand (P : N → Prop) `{!∀ t, Decision (P t)} l :
  filter (λ x : N * T, P x.1) (expand l) = expand (filter (λ p : N * list T, P p.1) l).
Proof.
  induction l as [|[t bucket] l IH]; [done|]. rewrite expand_cons, filter_app, IH, filter_pair, filter_cons.
  cbn [fst]. case_decide; [by rewrite expand_cons|done].
Qed.
Lemma expand_le t l :
  filter (λ x : N * T, x.1 ≤ t) (expand l) = expand (filter (λ p : N * list T, p.1 ≤ t) l).
Proof. apply (@filter_expand (λ x, x ≤ t) (λ x, N.le_dec x t)). Qed.
Lemma expand_gt t l :
  filter (λ x : N * T, t < x.1) (expand l) = expand (filter (λ p : N * list T, t < p.1) l).
Proof. apply (@filter_expand (λ x, t < x) (λ x, N.lt_dec t x)). Qed.
Lemma schedule_refines at_ms event s :
  scheduler_ok s → vs_pending s < usize_max →
  let '(t, s') := schedule_at at_ms event s in
  agenda_add at_ms event (agenda_of s) = (t, agenda_of s') ∧ scheduler_ok s' ∧
  vs_pending s' = vs_pending s + 1.
Proof.
  intros [Hb Hp Hpeak] Hlt. unfold schedule_at, agenda_add. cbn [agenda_of ag_now ag_queue] in *.
  set (t := N.max at_ms (vs_now_ms s)). set (bucket := default [] (vs_events s !! t)).
  assert (usize_sat_add (vs_pending s) 1 = vs_pending s + 1) as -> by (unfold usize_sat_add, sat_add; lia).
  assert (expand (n_to_list (<[t := bucket ++ [event]]> (vs_events s))) =
    filter (λ x : N * T, x.1 ≤ t) (expand (n_to_list (vs_events s))) ++
    (t, event) :: filter (λ x : N * T, t < x.1) (expand (n_to_list (vs_events s)))) as Hq.
  { rewrite (n_to_list_alter (vs_events s) _ t) by (intros; by apply lookup_insert_ne).
    rewrite lookup_insert_eq. cbn [from_option].
    rewrite expand_le, expand_gt, !expand_app, expand_cons.
    assert (filter (λ p : N * list T, p.1 ≤ t) (n_to_list (vs_events s)) =
      filter (λ p, p.1 < t) (n_to_list (vs_events s)) ++
      from_option (λ v, [(t, v)]) [] (vs_events s !! t)) as ->.
    { rewrite (n_to_list_alter (vs_events s) (vs_events s) t) at 1 by done. rewrite !filter_app.
      rewrite (filter_none (λ p : N * list T, p.1 ≤ t)
        (filter (λ p, t < p.1) (n_to_list (vs_events s)))) by (intros p [? _]%list_elem_of_filter; cbn beta in *; lia).
      rewrite app_nil_r. f_equal.
      - apply filter_all. intros p [? _]%list_elem_of_filter. lia.
      - destruct (vs_events s !! t); [|done]. cbn [from_option]. rewrite filter_cons_True by (simpl; lia). done. }
    rewrite expand_app. rewrite fmap_app, <-!app_assoc. f_equal.
    unfold bucket. destruct (vs_events s !! t); simpl; [|done]. rewrite expand_cons. by rewrite app_nil_r. }
  split_and!; [unfold agenda_of; cbn; by rewrite Hq| |done].
  split; cbn [vs_events vs_now_ms vs_pending vs_peak_pending agenda_of ag_queue].
  - intros t' bucket' [[<- <-]|[_ ?]]%lookup_insert_Some; [|by apply Hb]. split; [by destruct bucket|lia].
  - rewrite Hq. rewrite Hp. unfold nlen. rewrite length_app. simpl.
    assert (∀ l : list (N * T), length l =
      (length (filter (λ x : N * T, (x.1 ≤ t)%N) l) + length (filter (λ x : N * T, (t < x.1)%N) l))%nat) as Hsplit.
    { induction l as [|x l IH]; [done|]. rewrite !filter_cons. simpl. rewrite IH.
      repeat case_decide; simpl; lia. }
    rewrite (Hsplit (expand _)) at 1. lia.
  - lia.
Qed.
Lemma pop_refines s :
  scheduler_ok s →
  ∃ event s', pop_next s = Some (event, s') ∧
    agenda_step OpPop (agenda_of s) = (Popped event, agenda_of s') ∧ scheduler_ok s' ∧
    vs_pending s' ≤ vs_pending s ∧ vs_now_ms s ≤ vs_now_ms s'.
Proof.
  intros Hok. pose proof Hok as [Hb Hp Hpeak]. unfold pop_next. cbn [agenda_step agenda_of ag_queue ag_now] in *.
  pose proof (n_to_list_sorted (vs_events s)) as Hs.
  destruct (n_to_list (vs_events s)) as [|[t bucket] rest] eqn:El.
  { exists None, s. split_and!; [done| |done|done|done]. unfold agenda_of. by rewrite El. }
  assert (vs_events s !! t = Some bucket) as Ht by (apply n_to_list_elem; rewrite El; left).
  destruct (Hb t bucket Ht) as [Hne Hnow]. destruct bucket as [|event bucket]; [done|].
  rewrite expand_cons in Hp |- *. rewrite decide_False by (rewrite Hp; unfold nlen; simpl; lia).
  set (events := match bucket with [] => _ | _ => _ end).
  assert (∀ k, k ≠ t → events !! k = vs_events s !! k) as Hk.
  { intros k Hkt. unfold events. destruct bucket; [by apply lookup_delete_ne|by apply lookup_insert_ne]. }
  assert (∀ p, p ∈ rest → t < p.1) as Hrest.
  { apply StronglySorted_inv in Hs as [_ Hs]. intros p Hin. rewrite Forall_forall in Hs. by apply (Hs p). }
  assert (expand (n_to_list events) = (pair t <$> bucket) ++ expand rest) as Hq.
  { rewrite (n_to_list_alter (vs_events s) events t Hk), El, !filter_cons. cbn [fst].
    rewrite !decide_False by lia. rewrite (filter_none (λ p : N * list T, p.1 < t)) by (intros p Hin; apply Hrest in Hin; cbn beta in *; lia).
    rewrite (filter_all (λ p, t < p.1)) by done.
    unfold events. destruct bucket; [by rewrite lookup_delete_eq|by rewrite lookup_insert_eq]. }
  eexists _, _. split; [done|]. split; [unfold agenda_of; cbn; by rewrite Hq|].
  split; [|cbn [vs_pending vs_now_ms]; lia].
  split; cbn [vs_events vs_now_ms vs_pending vs_peak_pending agenda_of ag_queue].
  - intros t' b' Hb'. destruct (decide (t' = t)) as [->|Hne'].
    + split; [|lia]. unfold events in Hb'. destruct bucket as [|x bucket].
      * by rewrite lookup_delete_eq in Hb'.
      * rewrite lookup_insert_eq in Hb'. by injection Hb' as <-.
    + rewrite (Hk t' Hne') in Hb'. split; [by apply (Hb t')|].
      apply N.lt_le_incl, (Hrest (t', b')).
      assert ((t', b') ∈ (t, event :: bucket) :: rest) as [?|?]%elem_of_cons; [|by simplify_eq|done].
      rewrite <-El. by apply n_to_list_elem.
  - rewrite Hq, Hp, fmap_cons. unfold nlen. cbn [app length]. lia.
  - lia.
Qed.
Lemma scheduler_run_refines ops s :
  scheduler_ok s → vs_pending s + nlen ops < usize_max →
  ∃ answers s', scheduler_run ops s = Some (answers, s') ∧
    agenda_run ops (agenda_of s) = (answers, agenda_of s') ∧ scheduler_ok s' ∧ vs_now_ms s ≤ vs_now_ms s'.
Proof.
  revert s. induction ops as [|op ops IH]; intros s Hok Hlt; [by exists [], s|].
  rewrite nlen_cons in Hlt. cbn [scheduler_run agenda_run].
  assert (∃ answer s', scheduler_step op s = Some (answer, s') ∧
    agenda_step op (agenda_of s) = (answer, agenda_of s') ∧ scheduler_ok s' ∧
    vs_pending s' ≤ vs_pending s + 1 ∧ vs_now_ms s ≤ vs_now_ms s') as (answer & s1 & -> & -> & Hok1 & Hp1 & Hn1).
  { destruct op as [at_ms event|delay_ms event|]; cbn [scheduler_step agenda_step].
    - pose proof (schedule_refines at_ms event s Hok ltac:(lia)) as Hs.
      destruct (schedule_at at_ms event s) as [t s'] eqn:E. destruct Hs as (-> & ? & ?).
      exists (Scheduled t), s'. split_and!; [done..|lia|]. by injection E as _ <-.
    - unfold schedule_after. pose proof (schedule_refines (u64_sat_add (vs_now_ms s) delay_ms) event s Hok ltac:(lia)) as Hs.
      change (ag_now (agenda_of s)) with (vs_now_ms s).
      destruct (schedule_at _ event s) as [t s'] eqn:E. destruct Hs as (-> & ? & ?).
      exists (Scheduled t), s'. split_and!; [done..|lia|]. by injection E as _ <-.
    - destruct (pop_refines s Hok) as (event & s' & -> & Ha & ? & ? & ?).
      exists (Popped event), s'. cbn [agenda_step] in Ha. split_and!; [done..|lia|done]. }
  cbn. destruct (IH s1 Hok1 ltac:(lia)) as (answers & s2 & -> & -> & Hok2 & Hn2).
  eexists _, _. split_and!; [done..|]. lia.
Qed.
End scheduler.

(** C40. The scheduler refines an agenda ordered by time and then arrival: in
    any run of fewer calls than a [usize] counts, it never panics, answers
    every call as the agenda does, counts what is queued, and virtual time
    never moves backwards nor past a queued event. *)
Theorem scheduler_refines_agenda {T} (now_ms : N) (ops : list (SchedulerOp (T:=T))) :
  nlen ops < usize_max →
  ∃ answers s, scheduler_run ops (scheduler_new now_ms) = Some (answers, s) ∧
    agenda_run ops (mkAgenda now_ms []) = (answers, agenda_of s) ∧
    now_ms ≤ vs_now_ms s ∧ vs_pending s = nlen (ag_queue (agenda_of s)) ∧ vs_pending s ≤ vs_peak_pending s ∧
    Forall (λ x, vs_now_ms s ≤ x.1) (ag_queue (agenda_of s)).
Proof.
  intros Hlt. assert (n_to_list (∅ : gmap N (list T)) = []) as He.
  { unfold n_to_list. by rewrite map_to_list_empty. }
  destruct (scheduler_run_refines ops (scheduler_new now_ms)) as (answers & s & Hrun & Hag & Hok & Hnow).
  - split; cbn [scheduler_new vs_events vs_pending vs_peak_pending agenda_of ag_queue]; [|by rewrite He|done].
    intros t bucket. by rewrite lookup_empty.
  - cbn [scheduler_new vs_pending]. lia.
  - exists answers, s. unfold agenda_of at 1 in Hag. cbn [scheduler_new vs_events vs_now_ms] in Hag.
    rewrite He in Hag. destruct Hok as [Hb Hp Hpeak]. split_and!; [done..|]. apply Forall_forall.
    intros x Hx. cbn [agenda_of ag_queue] in Hx. unfold expand in Hx.
    apply list_elem_of_join in Hx as (l & Hx & Hl). apply list_elem_of_fmap in Hl as ([t bucket] & -> & Hin).
    apply list_elem_of_fmap in Hx as (e & -> & _). apply n_to_list_elem in Hin. by apply (Hb t bucket).
Qed.

(** ** Metrics *)
Definition u128_max : N := 340282366920938463463374607431768211455.
Notation u128_sat_add := (sat_add u128_max).
Notation u128_sat_mul := (sat_mul u128_max).
Definition BASIS_POINTS_SCALE : N := 10000.
Definition saturating_u64 (value : N) : N := N.min value u64_max.
Definition basis_points_wide (numerator denominator : N) : N :=
  if decide (denominator = 0) then 0
  else N.min (u128_sat_mul numerator BASIS_POINTS_SCALE / denominator) u32_max.
Definition basis_points (numerator denominator : N) : N := basis_points_wide numerator denominator.
(** [sort_unstable] of integers. *)
Definition sorted_samples (samples : list N) : list N := sort_by N.compare samples.
(** [sorted[index]]: a panic when there is none. *)
Definition nearest_rank (sorted : list N) (percentile : N) : option N :=
  let rank := u128_sat_add (u128_sat_mul (nlen sorted) percentile) 99 / 100 in
  sorted !! N.to_nat (N.min (N.min (rank - 1) usize_max) (nlen sorted - 1)).
Record DistributionSummary : Set := mkDistribution {
  ds_count : N; ds_total : N; ds_mean : N; ds_p50 : N; ds_p95 : N; ds_p99 : N; ds_max : N;
}.
Definition distribution_default : DistributionSummary := mkDistribution 0 0 0 0 0 0 0.
Definition summarize_distribution (samples : list N) : option DistributionSummary :=
  match samples with
  | [] => Some distribution_default
  | _ =>
      let wide_total := foldl (λ total sample, u128_sat_add total sample) 0 samples in
      let sorted := sorted_samples samples in
      p50 ← nearest_rank sorted 50;
      p95 ← nearest_rank sorted 95;
      p99 ← nearest_rank sorted 99;
      Some (mkDistribution (nlen samples) (saturating_u64 wide_total)
              (saturating_u64 (wide_total / nlen samples)) p50 p95 p99 (default 0 (last sorted)))
  end.
Record LatencySummary : Set := mkLatency { ls_sample_count : N; ls_p50 : N; ls_p95 : N; ls_p99 : N; ls_max : N }.
Definition summarize_latencies (samples : list N) : option LatencySummary :=
  summary ← summarize_distribution samples;
  Some (mkLatency (ds_count summary) (ds_p50 summary) (ds_p95 summary) (ds_p99 summary) (ds_max summary)).

(** The loop over [sorted.into_iter().enumerate()]. *)
Fixpoint gini_from (sorted : list N) (index prefix pairwise_difference : N) : N * N :=
  match sorted with
  | [] => (prefix, pairwise_difference)
  | value :: sorted =>
      gini_from sorted (index + 1) (u128_sat_add prefix value)
        (u128_sat_add pairwise_difference (u128_sat_mul value index - prefix))
  end.
Definition gini_basis_points (values : list N) : N :=
  match values with
  | [] => 0
  | _ =>
      let '(prefix, pairwise_difference) := gini_from (sorted_samples values) 0 0 0 in
      if decide (prefix = 0) then 0
      else N.min (basis_points_wide pairwise_difference (u128_sat_mul (nlen values) prefix)) BASIS_POINTS_SCALE
  end.

(** *** Traffic *)
Record TrafficCounter : Set := mkTraffic { tf_messages : N; tf_bytes : N }.
Definition traffic_default : TrafficCounter := mkTraffic 0 0.
Definition traffic_add (a b : TrafficCounter) : TrafficCounter :=
  mkTraffic (u64_sat_add (tf_messages a) (tf_messages b)) (u64_sat_add (tf_bytes a) (tf_bytes b)).
Definition traffic_record (messages bytes : N) (a : TrafficCounter) : TrafficCounter :=
  mkTraffic (u64_sat_add (tf_messages a) messages) (u64_sat_add (tf_bytes a) bytes).
Inductive TrafficDirection : Set := DirSent | DirReceived.
Inductive TrafficProvenance : Set := ProvLegitimate | ProvAdversarial.
Inductive TrafficScope : Set := ScopeSent | ScopeReceived | ScopeCombined.
Record NodeTrafficLedger : Set := mkLedger {
  nl_sent_legitimate : TrafficCounter;
  nl_sent_adversarial : TrafficCounter;
  nl_received_legitimate : TrafficCounter;
  nl_received_adversarial : TrafficCounter;
}.
Definition ledger_add (a b : NodeTrafficLedger) : NodeTrafficLedger :=
  mkLedger (traffic_add (nl_sent_legitimate a) (nl_sent_legitimate b))
    (traffic_add (nl_sent_adversarial a) (nl_sent_adversarial b))
    (traffic_add (nl_received_legitimate a) (nl_received_legitimate b))
    (traffic_add (nl_received_adversarial a) (nl_received_adversarial b)).
Definition ledger_counter (direction : TrafficDirection) (provenance : TrafficProvenance) (l : NodeTrafficLedger)
    : TrafficCounter :=
  match direction, provenance with
  | DirSent, ProvLegitimate => nl_sent_legitimate l
  | DirSent, ProvAdversarial => nl_sent_adversarial l
  | DirReceived, ProvLegitimate => nl_received_legitimate l
  | DirReceived, ProvAdversarial => nl_received_adversarial l
  end.
Definition ledger_record (direction : TrafficDirection) (provenance : TrafficProvenance) (messages bytes : N)
    (l : NodeTrafficLedger) : NodeTrafficLedger :=
  let counted := traffic_record messages bytes in
  match direction, provenance with
  | DirSent, ProvLegitimate =>
      mkLedger (counted (nl_sent_legitimate l)) (nl_sent_adversarial l) (nl_received_legitimate l)
        (nl_received_adversarial l)
  | DirSent, ProvAdversarial =>
      mkLedger (nl_sent_legitimate l) (counted (nl_sent_adversarial l)) (nl_received_legitimate l)
        (nl_received_adversarial l)
  | DirReceived, ProvLegitimate =>
      mkLedger (nl_sent_legitimate l) (nl_sent_adversarial l) (counted (nl_received_legitimate l))
        (nl_received_adversarial l)
  | DirReceived, ProvAdversarial =>
      mkLedger (nl_sent_legitimate l) (nl_sent_adversarial l) (nl_received_legitimate l)
        (counted (nl_received_adversarial l))
  end.
Definition record_message (direction : TrafficDirection) (provenance : TrafficProvenance) (bytes : N)
    (l : NodeTrafficLedger) : NodeTrafficLedger := ledger_record direction provenance 1 bytes l.
Definition ledger_scoped (scope : TrafficScope) (provenance : TrafficProvenance) (l : NodeTrafficLedger)
    : TrafficCounter :=
  match scope with
  | ScopeSent => ledger_counter DirSent provenance l
  | ScopeReceived => ledger_counter DirReceived provenance l
  | ScopeCombined => traffic_add (ledger_counter DirSent provenance l) (ledger_counter DirReceived provenance l)
  end.
Definition ledger_legitimate (scope : TrafficScope) (l : NodeTrafficLedger) : TrafficCounter :=
  ledger_scoped scope ProvLegitimate l.
Definition ledger_adversarial (scope : TrafficScope) (l : NodeTrafficLedger) : TrafficCounter :=
  ledger_scoped scope ProvAdversarial l.
Definition ledger_total (scope : TrafficScope) (l : NodeTrafficLedger) : TrafficCounter :=
  traffic_add (ledger_legitimate scope l) (ledger_adversarial scope l).
Record LoadSummary : Set := mkLoad {
  ld_scope : TrafficScope;
  ld_node_count : N;
  ld_legitimate : TrafficCounter;
  ld_adversarial : TrafficCounter;
  ld_total : TrafficCounter;
  ld_max_load : TrafficCounter;
  ld_mean_load : TrafficCounter;
  ld_legitimate_message_share_basis_points : N;
  ld_legitimate_byte_share_basis_points : N;
  ld_message_gini_basis_points : N;
  ld_byte_gini_basis_points : N;
}.
(** [checked_div(..).unwrap_or_default()]. *)
Definition checked_div_or_zero (a b : N) : N := if decide (b = 0) then 0 else a / b.
(** The loop's accumulators: wide totals, loads and maxima. *)
Definition wide_sum (f : NodeTrafficLedger → N) (nodes : list NodeTrafficLedger) : N :=
  foldl (λ total node, u128_sat_add total (f node)) 0 nodes.
Definition summarize_load (nodes : list NodeTrafficLedger) (scope : TrafficScope) : LoadSummary :=
  let load node := traffic_add (ledger_legitimate scope node) (ledger_adversarial scope node) in
  let legitimate_messages := wide_sum (λ n, tf_messages (ledger_legitimate scope n)) nodes in
  let legitimate_bytes := wide_sum (λ n, tf_bytes (ledger_legitimate scope n)) nodes in
  let adversarial_messages := wide_sum (λ n, tf_messages (ledger_adversarial scope n)) nodes in
  let adversarial_bytes := wide_sum (λ n, tf_bytes (ledger_adversarial scope n)) nodes in
  let message_loads := (λ n, tf_messages (load n)) <$> nodes in
  let byte_loads := (λ n, tf_bytes (load n)) <$> nodes in
  let total_messages := u128_sat_add legitimate_messages adversarial_messages in
  let total_bytes := u128_sat_add legitimate_bytes adversarial_bytes in
  mkLoad scope (nlen nodes)
    (mkTraffic (saturating_u64 legitimate_messages) (saturating_u64 legitimate_bytes))
    (mkTraffic (saturating_u64 adversarial_messages) (saturating_u64 adversarial_bytes))
    (mkTraffic (saturating_u64 total_messages) (saturating_u64 total_bytes))
    (mkTraffic (foldl N.max 0 message_loads) (foldl N.max 0 byte_loads))
    (mkTraffic (saturating_u64 (checked_div_or_zero total_messages (nlen nodes)))
       (saturating_u64 (checked_div_or_zero total_bytes (nlen nodes))))
    (basis_points_wide legitimate_messages total_messages)
    (basis_points_wide legitimate_bytes total_bytes)
    (gini_basis_points message_loads) (gini_basis_points byte_loads).

(** ** What the metrics say *)
Section sorted_samples.
Implicit Types l samples : list N.
Notation total l := (sum_by id l).

Lemma sorted_samples_perm samples : sorted_samples samples ≡ₚ samples.
Proof. apply sort_by_perm. Qed.
Lemma sorted_samples_sorted samples : StronglySorted N.le (sorted_samples samples).
Proof. apply (sort_by_sorted N.compare). Qed.
Lemma sorted_lookup_le l i j a b :
  StronglySorted N.le l → (i ≤ j)%nat → l !! i = Some a → l !! j = Some b → a ≤ b.
Proof.
  intros Hs Hij Hi Hj. destruct (decide (i = j)) as [->|]; [by simplify_eq|].
  apply (StronglySorted_take_drop N.le (S i) l a b Hs).
  - apply elem_of_take. exists i. split; [done|lia].
  - apply (list_elem_of_lookup_2 _ (j - S i)). rewrite lookup_drop. by replace (S i + (j - S i))%nat with j by lia.
Qed.

(** *** Gaps: the sum of the differences of all pairs *)
Definition gap_to (x y : N) : N := N.max x y - N.min x y.
Fixpoint pair_gaps l : N :=
  match l with [] => 0 | x :: l => sum_by (gap_to x) l + pair_gaps l end.
#[export] Instance pair_gaps_perm : Proper ((≡ₚ) ==> (=)) pair_gaps.
Proof.
  intros l l' Hp. induction Hp as [|x l l' Hp IH|x y l|l1 l2 l3 _ IH1 _ IH2]; simpl; [done| | |congruence].
  - by rewrite IH, Hp.
  - unfold gap_to. lia.
Qed.
Lemma gaps_below x l : (∀ y, y ∈ l → y ≤ x) → sum_by (gap_to x) l = x * nlen l - total l ∧ total l ≤ x * nlen l.
Proof.
  induction l as [|y l IH]; intros Hl; [unfold nlen; simpl; lia|]. rewrite nlen_cons. simpl.
  assert (y ≤ x) by (apply Hl; left). destruct IH as [-> ?]; [intros z Hz; apply Hl; by right|].
  unfold gap_to. rewrite N.mul_add_distr_l, N.mul_1_r, N.max_l, N.min_r by done. unfold id in *. lia.
Qed.
Lemma pair_gaps_snoc l x :
  (∀ y, y ∈ l → y ≤ x) → pair_gaps (l ++ [x]) = pair_gaps l + (x * nlen l - total l).
Proof.
  intros Hl. rewrite (Permutation_app_comm l [x]). simpl. rewrite (proj1 (gaps_below x l Hl)). lia.
Qed.
Lemma pair_gaps_le l : pair_gaps l ≤ nlen l * total l.
Proof.
  assert (∀ x l, sum_by (gap_to x) l ≤ x * nlen l + total l) as Hx.
  { clear l. intros x l. induction l as [|y l IH]; [unfold nlen; simpl; lia|].
    rewrite nlen_cons. simpl.
    assert (gap_to x y ≤ x + y) by (unfold gap_to; lia). rewrite N.mul_add_distr_l, N.mul_1_r. unfold id in *. lia. }
  induction l as [|x l IH]; [unfold nlen; simpl; lia|]. rewrite nlen_cons. simpl.
  specialize (Hx x l). change (id x) with x. rewrite N.mul_add_distr_r, !N.mul_add_distr_l. lia.
Qed.
Lemma gini_from_spec bound l done :
  nlen (done ++ l) * total (done ++ l) ≤ bound → bound ≤ u128_max → StronglySorted N.le (done ++ l) →
  gini_from l (nlen done) (total done) (pair_gaps done) = (total (done ++ l), pair_gaps (done ++ l)).
Proof.
  intros Hb Hmax. revert done Hb. induction l as [|value l IH]; intros done Hb Hs; cbn [gini_from].
  { by rewrite app_nil_r. }
  assert (∀ y, y ∈ done → y ≤ value) as Hle.
  { intros y Hy. apply (StronglySorted_app_1_elem_of N.le done (value :: l)); [done|done|left]. }
  destruct (gaps_below value done Hle) as [_ Htot].
  assert (done ++ value :: l = (done ++ [value]) ++ l) as Happ by (by rewrite <-app_assoc).
  pose proof (pair_gaps_le (done ++ [value])) as Hpg. rewrite pair_gaps_snoc in Hpg by done.
  assert (nlen done + 1 + nlen l = nlen (done ++ value :: l)) as Hn by (rewrite nlen_app, nlen_cons; lia).
  assert (total done + value + total l = total (done ++ value :: l)) as Ht
    by (rewrite sum_by_app; simpl; change (id value) with value; lia).
  rewrite nlen_app, sum_by_app in Hpg. change (nlen [value]) with 1 in Hpg. simpl in Hpg. change (id value) with value in Hpg.
  assert (nlen done * total done + value * nlen done + total done + value ≤ bound) as Hbd.
  { rewrite <-Hn, <-Ht in Hb. rewrite !N.mul_add_distr_r, !N.mul_add_distr_l in Hb. lia. }
  rewrite N.mul_add_distr_r, !N.mul_add_distr_l in Hpg.
  pose proof (N.le_0_l (nlen done * total done)). pose proof (N.le_0_l (value * nlen done)).
  assert (u128_sat_mul value (nlen done) = value * nlen done) as -> by (unfold sat_mul; lia).
  assert (u128_sat_add (total done) value = total (done ++ [value])) as ->
    by (rewrite sum_by_app; simpl; change (id value) with value; unfold sat_add; lia).
  assert (u128_sat_add (pair_gaps done) (value * nlen done - total done) = pair_gaps (done ++ [value])) as ->
    by (rewrite pair_gaps_snoc by done; unfold sat_add; lia).
  replace (nlen done + 1) with (nlen (done ++ [value])) by (rewrite nlen_app; done).
  rewrite Happ in Hb, Hs |- *. by apply IH.
Qed.

Lemma gini_from_start l :
  nlen l * total l ≤ u128_max → StronglySorted N.le l → gini_from l 0 0 0 = (total l, pair_gaps l).
Proof. intros Hb Hs. by apply (gini_from_spec u128_max l []). Qed.

(** *** Percentiles *)
Definition count_le (p : N) samples : N := nlen (filter (λ x, x ≤ p) samples).
Definition count_lt (p : N) samples : N := nlen (filter (λ x, x < p) samples).
(** [p] is a sample, enough samples are at most [p] and too few are less. *)
Definition percentile_of samples (percentile p : N) : Prop :=
  p ∈ samples ∧ percentile * nlen samples ≤ 100 * count_le p samples ∧
  100 * count_lt p samples < percentile * nlen samples.
#[export] Instance count_le_perm p : Proper ((≡ₚ) ==> (=)) (count_le p).
Proof. intros l l' Hp. unfold count_le, nlen. by rewrite Hp. Qed.
#[export] Instance count_lt_perm p : Proper ((≡ₚ) ==> (=)) (count_lt p).
Proof. intros l l' Hp. unfold count_lt, nlen. by rewrite Hp. Qed.
Lemma rank_bounds n p rank m :
  n * p + 99 = 100 * rank + m → m < 100 → 1 ≤ n → 0 < p ≤ 100 →
  1 ≤ rank ≤ n ∧ p * n ≤ 100 * rank ∧ 100 * (rank - 1) < p * n.
Proof.
  intros Heq Hm Hn Hp. assert (n * p ≤ n * 100) by nia. assert (n ≤ n * p) by nia.
  assert (1 ≤ rank ≤ n) by lia. split_and!; lia.
Qed.
Lemma nearest_rank_index l percentile :
  nlen l ≤ usize_max → l ≠ [] → 0 < percentile ≤ 100 →
  let rank := (nlen l * percentile + 99) / 100 in
  nearest_rank l percentile = l !! N.to_nat (rank - 1) ∧ 1 ≤ rank ≤ nlen l ∧
  percentile * nlen l ≤ 100 * rank ∧ 100 * (rank - 1) < percentile * nlen l.
Proof.
  intros Hn Hne Hp. assert (1 ≤ nlen l) as H1 by (destruct l; [done|rewrite nlen_cons; lia]).
  destruct (rank_bounds (nlen l) percentile ((nlen l * percentile + 99) / 100)
    ((nlen l * percentile + 99) `mod` 100)) as (Hrank & Hle & Hlt);
    [apply N.Div0.div_mod|apply N.mod_lt; lia|done..|].
  cbv zeta. split; [|tauto]. unfold nearest_rank.
  assert (u128_sat_add (u128_sat_mul (nlen l) percentile) 99 = nlen l * percentile + 99) as ->.
  { assert (nlen l * percentile ≤ usize_max * 100) by nia.
    unfold sat_add, sat_mul, u128_max, usize_max, u64_max in *. lia. }
  f_equal. revert Hrank. generalize ((nlen l * percentile + 99) / 100). intros rank Hrank.
  unfold usize_max, u64_max in *. lia.
Qed.
Lemma count_le_sorted l i p : StronglySorted N.le l → l !! i = Some p → N.of_nat i < count_le p l.
Proof.
  intros Hs Hi. unfold count_le. rewrite <-(take_drop (S i) l), filter_app, nlen_app.
  rewrite filter_all.
  - unfold nlen at 1. rewrite length_take. apply lookup_lt_Some in Hi. lia.
  - intros x (j & Hj & Hlt)%elem_of_take. apply (sorted_lookup_le l j i); [done|lia|done|done].
Qed.
Lemma count_lt_sorted l i p : StronglySorted N.le l → l !! i = Some p → count_lt p l ≤ N.of_nat i.
Proof.
  intros Hs Hi. unfold count_lt. rewrite <-(take_drop i l), filter_app, nlen_app.
  assert (filter (λ x, x < p) (drop i l) = []) as ->.
  { apply filter_none. intros x [j Hj]%list_elem_of_lookup_1. rewrite lookup_drop in Hj.
    pose proof (sorted_lookup_le l i (i + j) p x Hs ltac:(lia) Hi Hj). lia. }
  unfold nlen. pose proof (length_filter (λ x, x < p) (take i l)). rewrite length_take in *. simpl. lia.
Qed.
Lemma nearest_rank_spec samples percentile :
  nlen samples ≤ usize_max → samples ≠ [] → 0 < percentile ≤ 100 →
  ∃ p, nearest_rank (sorted_samples samples) percentile = Some p ∧ percentile_of samples percentile p.
Proof.
  intros Hn Hne Hp. pose proof (sorted_samples_perm samples) as Hperm.
  assert (nlen (sorted_samples samples) = nlen samples) as Hlen by (unfold nlen; by rewrite Hperm).
  destruct (nearest_rank_index (sorted_samples samples) percentile) as (-> & Hrank & Hle & Hlt).
  { by rewrite Hlen. }
  { intros E. rewrite E in Hperm. by apply Permutation_nil_l in Hperm. }
  { done. }
  set (rank := (nlen (sorted_samples samples) * percentile + 99) / 100) in *.
  destruct (lookup_lt_is_Some_2 (sorted_samples samples) (N.to_nat (rank - 1))) as [p Hlook].
  { unfold nlen in Hrank. lia. }
  exists p. split; [done|]. rewrite Hlen in *. split_and!.
  - rewrite <-Hperm. by eapply list_elem_of_lookup_2.
  - rewrite <-(count_le_perm p _ _ Hperm). pose proof (count_le_sorted _ _ _ (sorted_samples_sorted samples) Hlook). lia.
  - rewrite <-(count_lt_perm p _ _ Hperm). pose proof (count_lt_sorted _ _ _ (sorted_samples_sorted samples) Hlook). lia.
Qed.
Lemma percentile_mono samples a b p q :
  a ≤ b → percentile_of samples a p → percentile_of samples b q → p ≤ q.
Proof.
  intros Hab (_ & Hp & Hp') (_ & Hq & Hq'). destruct (decide (p ≤ q)) as [|Hlt]; [done|].
  assert (count_le q samples ≤ count_lt p samples) as Hc.
  { unfold count_le, count_lt. clear -Hlt. induction samples as [|x samples IH]; [done|].
    rewrite !filter_cons. repeat case_decide; rewrite ?nlen_cons; lia. }
  nia.
Qed.
End sorted_samples.

(** The Gini concentration of loads is, whenever 128 bits hold ten thousand
    times the number of loads times their sum, the exact one rounded down: the
    sum of the differences of all pairs over that number and that sum, in basis
    points; it is at most ten thousand and zero when nothing is loaded. *)
Theorem gini_exact (values : list N) :
  BASIS_POINTS_SCALE * (nlen values * sum_by id values) ≤ u128_max →
  gini_basis_points values =
    (if decide (sum_by id values = 0) then 0
     else BASIS_POINTS_SCALE * pair_gaps values / (nlen values * sum_by id values)) ∧
  gini_basis_points values ≤ BASIS_POINTS_SCALE.
Proof.
  intros Hb. unfold BASIS_POINTS_SCALE in *. pose proof (sorted_samples_perm values) as Hp.
  assert (nlen (sorted_samples values) = nlen values) as Hn by (unfold nlen; by rewrite Hp).
  pose proof (sum_by_perm id _ _ Hp) as Ht. pose proof (pair_gaps_perm _ _ Hp) as Hg.
  pose proof (pair_gaps_le values) as Hle.
  destruct values as [|v values]; [by split|]. unfold gini_basis_points.
  rewrite gini_from_start; [|rewrite Hn, Ht; lia|apply sorted_samples_sorted].
  rewrite Ht, Hg. clear Hp Hn Ht Hg. revert Hb Hle.
  generalize (nlen (v :: values)), (sum_by id (v :: values)), (pair_gaps (v :: values)). intros n t g Hb Hle.
  case_decide as Et; [by split|]. unfold basis_points_wide, BASIS_POINTS_SCALE.
  assert (u128_sat_mul n t = n * t) as -> by (unfold sat_mul; lia).
  assert (u128_sat_mul g 10000 = 10000 * g) as -> by (unfold sat_mul; lia).
  destruct (decide (n * t = 0)) as [E|Hne].
  { rewrite E in Hle |- *. assert (g = 0) as -> by lia. by split. }
  assert (10000 * g / (n * t) ≤ 10000) as Hdiv by (apply N.Div0.div_le_upper_bound; lia).
  revert Hdiv. generalize (10000 * g / (n * t)). intros q Hq. unfold u32_max. lia.
Qed.

(** The summary of a non-empty distribution of 64-bit samples exists and is
    exact: its total is the sum, capped, its mean is the truncated one, its
    maximum is the greatest sample, and each percentile is the least sample
    that no fewer than that share of the samples is at most; percentiles do
    not decrease. *)
Theorem distribution_exact (samples : list N) :
  samples ≠ [] → nlen samples ≤ usize_max → Forall (λ x, x ≤ u64_max) samples →
  ∃ summary, summarize_distribution samples = Some summary ∧
    ds_count summary = nlen samples ∧ ds_total summary = N.min (sum_by id samples) u64_max ∧
    ds_mean summary = sum_by id samples / nlen samples ∧
    percentile_of samples 50 (ds_p50 summary) ∧ percentile_of samples 95 (ds_p95 summary) ∧
    percentile_of samples 99 (ds_p99 summary) ∧
    ds_p50 summary ≤ ds_p95 summary ∧ ds_p95 summary ≤ ds_p99 summary ∧ ds_p99 summary ≤ ds_max summary ∧
    ds_max summary ∈ samples ∧ Forall (λ x, x ≤ ds_max summary) samples.
Proof.
  intros Hne Hn Hu. unfold summarize_distribution.
  destruct (nearest_rank_spec samples 50 Hn Hne ltac:(lia)) as (p50 & -> & H50).
  destruct (nearest_rank_spec samples 95 Hn Hne ltac:(lia)) as (p95 & -> & H95).
  destruct (nearest_rank_spec samples 99 Hn Hne ltac:(lia)) as (p99 & -> & H99).
  pose proof (sum_by_bound id samples u64_max (proj1 (Forall_forall _ _) Hu)) as Hsum.
  assert (foldl (λ total sample, u128_sat_add total sample) 0 samples = sum_by id samples) as ->.
  { rewrite (fold_sat_add id) by done.
    assert (nlen samples * u64_max ≤ usize_max * u64_max) by (by apply N.mul_le_mono_r).
    unfold u128_max, usize_max, u64_max in *. lia. }
  pose proof (sorted_samples_perm samples) as Hp. pose proof (sorted_samples_sorted samples) as Hs.
  assert (∃ m, last (sorted_samples samples) = Some m ∧ m ∈ samples ∧ Forall (λ x, x ≤ m) samples)
    as (m & Hm & Hin & Hmax).
  { destruct (sorted_samples samples) as [|m l _] eqn:E using rev_ind.
    { by apply Permutation_nil_l in Hp. }
    exists m. rewrite last_snoc. split_and!; [done|rewrite <-Hp; set_solver|]. apply Forall_forall.
    intros x Hx. rewrite <-Hp in Hx. apply elem_of_app in Hx as [Hx|Hx%list_elem_of_singleton]; [|by subst].
    apply (StronglySorted_app_1_elem_of N.le l [m]); [done|done|left]. }
  destruct samples as [|x samples]; [done|]. cbn [mbind option_bind]. eexists. split; [done|].
  cbn [ds_count ds_total ds_mean ds_p50 ds_p95 ds_p99 ds_max]. rewrite Hm. cbn [default from_option id].
  split_and!; [done|done| |done|done|done|..].
  - unfold saturating_u64. apply N.min_l, N.Div0.div_le_upper_bound. lia.
  - by eapply (percentile_mono (x :: samples) 50 95).
  - by eapply (percentile_mono (x :: samples) 95 99).
  - rewrite Forall_forall in Hmax. by apply Hmax, H99.
  - done.
  - done.
Qed.

Module SimWitness.
Lemma scheduler_refines_agenda_witness :
  scheduler_run [OpAt 5 1; OpAfter 3 2; OpPop; OpAt 1 3; OpPop; OpPop; OpPop] (scheduler_new 0) =
    Some ([Scheduled 5; Scheduled 3; Popped (Some 2); Scheduled 3; Popped (Some 3); Popped (Some 1); Popped None],
          mkScheduler 5 ∅ 0 2).
Proof.
  destruct (scheduler_refines_agenda 0 [OpAt 5 1; OpAfter 3 2; OpPop; OpAt 1 3; OpPop; OpPop; OpPop])
    as (answers & s & Hrun & _); [reflexivity|]. rewrite Hrun. rewrite <-Hrun. vm_compute. reflexivity.
Defined.
Lemma gini_exact_witness : gini_basis_points [0; 1; 3] = 5000.
Proof.
  destruct (gini_exact [0; 1; 3]) as [-> _]; [vm_compute; discriminate|]. reflexivity.
Defined.
Lemma distribution_exact_witness : ∃ summary, summarize_distribution [20; 10] = Some summary ∧ ds_p50 summary ≤ ds_max summary.
Proof.
  destruct (distribution_exact [20; 10]) as (summary & Hs & _ & _ & _ & _ & _ & _ & H1 & H2 & H3 & _).
  - discriminate.
  - vm_compute; discriminate.
  - repeat constructor; vm_compute; discriminate.
  - exists summary. split; [exact Hs|lia].
Defined.
End SimWitness.
