(* ===== verification/Topology.v ===== *)
(** * The simulator: topologies

    crates/nostr-pubsub-sim/src/topology.rs: the deterministic construction of
    the bounded graphs over which the simulator runs the mesh. A node is its
    index ([nat]); an index outside a vector panics. *)

From S2P Require Export Containers.

(** ** Configuration and results *)
Inductive TopologyStrategy : Set := PeerMesh | HybridSupernodes.
Inductive SupernodeDiscoveryStrategy : Set :=
  DiscBootstrap | DiscInterestAffinity | DiscExploration | DiscMixed.
#[export] Instance SupernodeDiscoveryStrategy_eq_dec : EqDecision SupernodeDiscoveryStrategy.
Proof. solve_decision. Defined.
Inductive NodeRole : Set := RolePeer | RoleSupernode | RoleAttacker.
#[export] Instance NodeRole_eq_dec : EqDecision NodeRole.
Proof. solve_decision. Defined.

Record PeerMeshConfig : Set := mkPeerMeshConfig {
  pm_same_cohort_shortcuts_per_node : N;
  pm_cross_cohort_links_per_node : N;
  pm_attacker_links_per_honest_node : N;
  pm_max_peer_degree : N;
  pm_max_attacker_degree : N;
}.
Definition peer_mesh_default : PeerMeshConfig := mkPeerMeshConfig 2 1 2 16 64.
Record HybridSupernodeConfig : Set := mkHybridConfig {
  hy_discovery : SupernodeDiscoveryStrategy;
  hy_honest_supernode_count : N;
  hy_adversarial_discovery_candidate_count : N;
  hy_candidate_links_per_peer : N;
  hy_exploration_links_per_peer : N;
  hy_max_peer_degree : N;
  hy_max_supernode_degree : N;
  hy_max_attacker_degree : N;
}.
Definition hybrid_default : HybridSupernodeConfig := mkHybridConfig DiscMixed 8 4 3 1 16 128 64.
Record TopologyConfig : Set := mkTopologyConfig {
  tc_node_count : N;
  tc_attacker_count : N;
  tc_cohort_ids : list N;
  tc_seed : N;
  tc_strategy : TopologyStrategy;
  tc_peer_mesh : PeerMeshConfig;
  tc_hybrid : HybridSupernodeConfig;
}.
Definition topology_config_new (node_count attacker_count : N) (cohort_ids : list N) (seed : N)
    (strategy : TopologyStrategy) : TopologyConfig :=
  mkTopologyConfig node_count attacker_count cohort_ids seed strategy peer_mesh_default hybrid_default.

Record DiscoverySelectionCounts : Set := mkDiscoveryCounts {
  dc_bootstrap_links : N;
  dc_interest_affinity_links : N;
  dc_exploration_links : N;
  dc_selected_high_capacity_links : N;
  dc_selected_adversarial_candidate_links : N;
  dc_candidate_peer_count : N;
  dc_peers_selecting_high_capacity : N;
}.
Definition discovery_counts_default : DiscoverySelectionCounts := mkDiscoveryCounts 0 0 0 0 0 0 0.
Definition discovery_total_links (d : DiscoverySelectionCounts) : N :=
  usize_sat_add (usize_sat_add (dc_bootstrap_links d) (dc_interest_affinity_links d))
    (dc_exploration_links d).
Definition selection_coverage_basis_points (d : DiscoverySelectionCounts) : N :=
  if decide (dc_candidate_peer_count d = 0) then 0
  else
    let covered := sat_mul usize_max (dc_peers_selecting_high_capacity d) 10000 in
    N.min (covered / dc_candidate_peer_count d) u32_max.

Record TopologyResult : Set := mkTopologyResult {
  tr_neighbors : list (list nat);
  tr_outbound_discovery_neighbors : list (list nat);
  tr_roles : list NodeRole;
  tr_cohort_ids : list N;
  tr_honest_supernodes : list nat;
  tr_adversarial_discovery_candidates : list nat;
  tr_discovery_selections : DiscoverySelectionCounts;
}.
Definition edge_count (r : TopologyResult) : N := sum_by nlen (tr_neighbors r) / 2.

Inductive TopologyError : Set := InvalidConfig (message : string) | InsufficientCapacity (message : string).
Definition topology_error_display (e : TopologyError) : string :=
  match e with
  | InvalidConfig message => "invalid topology configuration: " +:+ message
  | InsufficientCapacity message => "insufficient topology capacity: " +:+ message
  end.

(** ** The generator *)
Definition rng_new (seed : N) : N := N.lxor seed 0xA0761D6478BD642F.
(** The finaliser of splitmix64, on 64 bits. *)
Definition mix_finish (value : N) : N :=
  let value := u64_wrap (N.lxor value (N.shiftr value 30) * 0xBF58476D1CE4E5B9) in
  let value := u64_wrap (N.lxor value (N.shiftr value 27) * 0x94D049BB133111EB) in
  N.lxor value (N.shiftr value 31).
Definition next_u64 (state : N) : N * N :=
  let state := u64_wrap (state + 0x9E3779B97F4A7C15) in (mix_finish state, state).
(** [values.swap(i, j)]; [shuffle] only swaps inside the slice. *)
Definition swap {A} (i j : nat) (values : list A) : list A :=
  match values !! i, values !! j with
  | Some x, Some y => <[i:=y]> (<[j:=x]> values)
  | _, _ => values
  end.
Fixpoint shuffle_down {A} (index : nat) (values : list A) (state : N) : list A * N :=
  match index with
  | O => (values, state)
  | S below =>
      let '(value, state) := next_u64 state in
      shuffle_down below (swap index (N.to_nat (value `mod` N.of_nat (index + 1))) values) state
  end.
(** The loop over [(1..values.len()).rev()]. *)
Definition shuffle {A} (values : list A) (state : N) : list A * N :=
  shuffle_down (length values - 1) values state.

(** ** Bounded graphs *)
Record DegreeCaps : Set := mkCaps { cap_peer : N; cap_supernode : N; cap_attacker : N }.
Record BoundedGraph : Set := mkGraph {
  bg_neighbors : list (gset nat);
  bg_outbound : list (gset nat);
  bg_inbound : list N;
  bg_roles : list NodeRole;
  bg_caps : DegreeCaps;
}.
Definition graph_new (roles : list NodeRole) (caps : DegreeCaps) : BoundedGraph :=
  mkGraph (replicate (length roles) ∅) (replicate (length roles) ∅) (replicate (length roles) 0) roles caps.
Definition role_cap (caps : DegreeCaps) (role : NodeRole) : N :=
  match role with
  | RolePeer => cap_peer caps | RoleSupernode => cap_supernode caps | RoleAttacker => cap_attacker caps
  end.
Definition graph_cap (g : BoundedGraph) (node : nat) : option N :=
  role_cap (bg_caps g) <$> bg_roles g !! node.
Definition can_add (g : BoundedGraph) (left right : nat) : option bool :=
  if decide (left = right) then Some false
  else
    neighbors ← bg_neighbors g !! left;
    if decide (right ∈ neighbors) then Some false
    else
      cap ← graph_cap g left;
      if decide (ssize neighbors < cap) then
        neighbors ← bg_neighbors g !! right;
        cap ← graph_cap g right;
        Some (bool_decide (ssize neighbors < cap))
      else Some false.
Definition insert_neighbor (node other : nat) (neighbors : list (gset nat)) : option (list (gset nat)) :=
  s ← neighbors !! node; Some (<[node := {[other]} ∪ s]> neighbors).
Definition graph_add (g : BoundedGraph) (left right : nat) : option (bool * BoundedGraph) :=
  allowed ← can_add g left right;
  if (allowed : bool) then
    neighbors ← insert_neighbor left right (bg_neighbors g);
    neighbors ← insert_neighbor right left neighbors;
    Some (true, mkGraph neighbors (bg_outbound g) (bg_inbound g) (bg_roles g) (bg_caps g))
  else Some (false, g).
Definition graph_add_discovered (g : BoundedGraph) (source candidate : nat) : option (bool * BoundedGraph) :=
  inbound_limit ← graph_cap g candidate;
  inbound ← bg_inbound g !! candidate;
  if decide (inbound_limit ≤ inbound) then Some (false, g)
  else
    '(added, g) ← graph_add g source candidate;
    if (added : bool) then
      outbound ← insert_neighbor source candidate (bg_outbound g);
      Some (true, mkGraph (bg_neighbors g) outbound (<[candidate := inbound + 1]> (bg_inbound g))
                    (bg_roles g) (bg_caps g))
    else Some (false, g).
(** The vectors of the sorted sets. *)
Definition sorted_nodes (s : gset nat) : list nat := sort_by (cmp_on N.of_nat N.compare) (elements s).

(** ** Building *)
(** The graph being built, the generator's state and the counters. *)
Record Build : Set := mkBuild {
  bu_graph : BoundedGraph;
  bu_rng : N;
  bu_discovery : DiscoverySelectionCounts;
}.
Notation Bu := (PSE Build TopologyError).
Definition add (left right : nat) : Bu bool := λ b,
  '(added, g) ← graph_add (bu_graph b) left right;
  Some (Ok (added : bool), mkBuild g (bu_rng b) (bu_discovery b)).
Definition add_discovered (source candidate : nat) : Bu bool := λ b,
  '(added, g) ← graph_add_discovered (bu_graph b) source candidate;
  Some (Ok (added : bool), mkBuild g (bu_rng b) (bu_discovery b)).
Definition shuffled {A} (values : list A) : Bu (list A) := λ b,
  let '(values, rng) := shuffle values (bu_rng b) in
  Some (Ok values, mkBuild (bu_graph b) rng (bu_discovery b)).
Definition fail {A} (e : TopologyError) : Bu A := pse_lift (Err e).

Definition add_required (left right : nat) (context : string) : Bu unit :=
  added ← add left right;
  if (added : bool) then mret tt
  else fail (InsufficientCapacity ("unable to add required " +:+ context +:+ " edge "
         +:+ pretty (N.of_nat left) +:+ "<->" +:+ pretty (N.of_nat right))).
Fixpoint add_optional_from (node : nat) (candidates : list nat) (target added : N) : Bu unit :=
  match candidates with
  | [] => mret tt
  | candidate :: candidates =>
      ok ← add node candidate;
      if (ok : bool) then
        if decide (added + 1 = target) then mret tt
        else add_optional_from node candidates target (added + 1)
      else add_optional_from node candidates target added
  end.
Definition add_optional_links (node : nat) (candidates : list nat) (target : N) : Bu unit :=
  add_optional_from node candidates target 0.
Fixpoint connect_to_any (node : nat) (others : list nat) : Bu bool :=
  match others with
  | [] => mret false
  | other :: others => added ← add node other; if (added : bool) then mret true else connect_to_any node others
  end.
Fixpoint connect_first_available (nodes others : list nat) : Bu bool :=
  match nodes with
  | [] => mret false
  | node :: nodes =>
      connected ← connect_to_any node others;
      if (connected : bool) then mret true else connect_first_available nodes others
  end.

(** *** Nodes *)
Definition base_roles (node_count attacker_count : N) : list NodeRole :=
  (λ node, if decide (N.of_nat node < attacker_count) then RoleAttacker else RolePeer)
    <$> seq 0 (N.to_nat node_count).
Definition attacker_nodes (config : TopologyConfig) : list nat := seq 0 (N.to_nat (tc_attacker_count config)).
Definition honest_nodes (config : TopologyConfig) : list nat :=
  seq (N.to_nat (tc_attacker_count config)) (N.to_nat (tc_node_count config) - N.to_nat (tc_attacker_count config)).
Definition cohort_of (config : TopologyConfig) (node : nat) : option N := tc_cohort_ids config !! node.
Definition push_cohort (config : TopologyConfig) (cohorts : option (gmap N (list nat))) (node : nat)
    : option (gmap N (list nat)) :=
  cohorts ← cohorts;
  cohort ← cohort_of config node;
  Some (<[cohort := default [] (cohorts !! cohort) ++ [node]]> cohorts).
(** The cohorts' nodes, by cohort. *)
Definition honest_cohorts (config : TopologyConfig) : option (list (list nat)) :=
  cohorts ← foldl (push_cohort config) (Some ∅) (honest_nodes config);
  Some ((sort_by (cmp_on fst N.compare) (map_to_list cohorts)).*2).

Definition validate_common (c : TopologyConfig) : result TopologyError unit :=
  if decide (tc_node_count c = 0) then Err (InvalidConfig "node_count must be non-zero")
  else if decide (tc_node_count c ≤ tc_attacker_count c) then
    Err (InvalidConfig "attacker_count must leave at least one honest node")
  else if decide (nlen (tc_cohort_ids c) ≠ tc_node_count c) then
    Err (InvalidConfig ("cohort_ids has " +:+ pretty (nlen (tc_cohort_ids c)) +:+ " entries for "
           +:+ pretty (tc_node_count c) +:+ " nodes"))
  else Ok tt.

(** *** The peer mesh *)
Definition validate_peer_mesh (c : TopologyConfig) (cohort_count : N) : result TopologyError unit :=
  let peer := tc_peer_mesh c in
  let minimum := if decide (1 < cohort_count) then 4 else 2 in
  if decide (pm_max_peer_degree peer < minimum) then
    Err (InvalidConfig ("PeerMesh max_peer_degree must be at least " +:+ pretty minimum))
  else if decide (0 < tc_attacker_count c ∧ 0 < pm_attacker_links_per_honest_node peer ∧
                  pm_max_attacker_degree peer = 0) then
    Err (InvalidConfig "PeerMesh attacker exposure requires max_attacker_degree > 0")
  else Ok tt.
Definition connect_ring (nodes : list nat) : Bu unit :=
  match nodes with
  | [] | [_] => mret tt
  | [a; b] => add_required a b "two-node cohort ring"
  | _ =>
      pse_iter (λ '(index, node),
          next ← panic_unless (nodes !! ((index + 1) mod length nodes)%nat);
          add_required node next "cohort ring")
        (imap pair nodes)
  end.
(** [for nodes in cohorts.values_mut()]: the shuffled cohorts. *)
Fixpoint connect_rings (cohorts : list (list nat)) : Bu (list (list nat)) :=
  match cohorts with
  | [] => mret []
  | nodes :: cohorts =>
      nodes ← shuffled nodes;
      _ ← connect_ring nodes;
      cohorts ← connect_rings cohorts;
      mret (nodes :: cohorts)
  end.
(** The loop over [groups.windows(2)]. *)
Fixpoint connect_cohort_backbone (groups : list (list nat)) : Bu unit :=
  match groups with
  | lefts :: ((rights :: _) as rest) =>
      lefts ← shuffled lefts;
      rights ← shuffled rights;
      connected ← connect_first_available lefts rights;
      if (connected : bool) then connect_cohort_backbone rest
      else fail (InsufficientCapacity "unable to connect honest cohort backbone")
  | _ => mret tt
  end.
Definition add_same_cohort_shortcuts (cohorts : list (list nat)) (shortcuts_per_node : N) : Bu unit :=
  if decide (shortcuts_per_node = 0) then mret tt
  else pse_iter (λ nodes, pse_iter (λ node,
           candidates ← shuffled nodes;
           add_optional_links node candidates shortcuts_per_node) nodes) cohorts.
Definition add_cross_cohort_links (config : TopologyConfig) (links_per_node : N) : Bu unit :=
  if decide (links_per_node = 0) then mret tt
  else
    let honest := honest_nodes config in
    pse_iter (λ node,
        cohort ← panic_unless (cohort_of config node);
        candidates ← panic_unless (mapM (λ candidate,
          other ← cohort_of config candidate; Some (candidate, other)) honest);
        candidates ← shuffled (filter (λ c, c.2 ≠ cohort) candidates).*1;
        add_optional_links node candidates links_per_node) honest.
Definition add_attacker_exposure (config : TopologyConfig) (links_per_node : N) : Bu unit :=
  if decide (links_per_node = 0 ∨ tc_attacker_count config = 0) then mret tt
  else pse_iter (λ node,
           candidates ← shuffled (attacker_nodes config);
           add_optional_links node candidates links_per_node) (honest_nodes config).
Definition topology_of (config : TopologyConfig) (supernodes adversarial : list nat) (b : Build) : TopologyResult :=
  mkTopologyResult (sorted_nodes <$> bg_neighbors (bu_graph b)) (sorted_nodes <$> bg_outbound (bu_graph b))
    (bg_roles (bu_graph b)) (tc_cohort_ids config) supernodes adversarial (bu_discovery b).
Definition peer_mesh_links (config : TopologyConfig) (cohorts : list (list nat)) : Bu unit :=
  let peer := tc_peer_mesh config in
  cohorts ← connect_rings cohorts;
  _ ← connect_cohort_backbone cohorts;
  _ ← add_same_cohort_shortcuts cohorts (pm_same_cohort_shortcuts_per_node peer);
  _ ← add_cross_cohort_links config (pm_cross_cohort_links_per_node peer);
  add_attacker_exposure config (pm_attacker_links_per_honest_node peer).
Definition peer_mesh_start (config : TopologyConfig) : Build :=
  let peer := tc_peer_mesh config in
  mkBuild (graph_new (base_roles (tc_node_count config) (tc_attacker_count config))
             (mkCaps (pm_max_peer_degree peer) (pm_max_peer_degree peer) (pm_max_attacker_degree peer)))
    (rng_new (tc_seed config)) discovery_counts_default.
(** An answer, or a panic. *)
Definition build_peer_mesh (config : TopologyConfig) : option (result TopologyError TopologyResult) :=
  cohorts ← honest_cohorts config;
  match validate_peer_mesh config (nlen cohorts) with
  | Err e => Some (Err e)
  | Ok _ =>
      '(r, b) ← peer_mesh_links config cohorts (peer_mesh_start config);
      Some ((λ _, topology_of config [] [] b) <$> r)
  end.

(** *** Hybrid supernodes *)
Definition validate_hybrid (c : TopologyConfig)
    (generic_candidate_count adversarial_candidate_count normal_peer_count : N) : result TopologyError unit :=
  let hybrid := tc_hybrid c in
  let candidate_count := generic_candidate_count - 1 in
  if decide (normal_peer_count = 0) then Ok tt
  else if decide (hy_candidate_links_per_peer hybrid = 0) then
    Err (InvalidConfig "HybridSupernodes candidate_links_per_peer must be non-zero")
  else if decide (hy_max_peer_degree hybrid < hy_candidate_links_per_peer hybrid) then
    Err (InvalidConfig "HybridSupernodes max_peer_degree is below candidate_links_per_peer")
  else if decide (candidate_count < hy_candidate_links_per_peer hybrid) then
    Err (InvalidConfig ("HybridSupernodes needs at least " +:+ pretty (hy_candidate_links_per_peer hybrid)
           +:+ " candidates but has " +:+ pretty candidate_count))
  else if decide (hy_discovery hybrid = DiscMixed ∧
                  (hy_candidate_links_per_peer hybrid < 2 ∨ hy_exploration_links_per_peer hybrid = 0)) then
    Err (InvalidConfig "mixed discovery requires a bootstrap link and at least one exploration link")
  else if decide (0 < tc_attacker_count c ∧ 0 < adversarial_candidate_count ∧
                  hy_max_attacker_degree hybrid = 0) then
    Err (InvalidConfig "adversarial discovery candidates require max_attacker_degree > 0")
  else Ok tt.
(** The hidden supernodes and adversarial candidates, the candidates and the
    peers that choose among them, and the generator for discovery. *)
Record GroundTruth : Set := mkGroundTruth {
  gt_honest_supernodes : list nat;
  gt_adversarial_candidates : list nat;
  gt_generic_candidates : list nat;
  gt_normal_peers : list nat;
  gt_rng : N;
}.
Definition hybrid_ground_truth (c : TopologyConfig) : GroundTruth :=
  let hybrid := tc_hybrid c in
  let '(honest, _) := shuffle (honest_nodes c) (rng_new (N.lxor (tc_seed c) 0x485942524944524F)) in
  let supernodes := take (N.to_nat (N.min (hy_honest_supernode_count hybrid) (nlen honest))) honest in
  let normal := filter (λ node, node ∉ supernodes) honest in
  let '(attackers, rng) := shuffle (attacker_nodes c) (rng_new (N.lxor (tc_seed c) 0x444953434F564552)) in
  let adversarial := take (N.to_nat (N.min (hy_adversarial_discovery_candidate_count hybrid)
                                      (tc_attacker_count c))) attackers in
  mkGroundTruth supernodes adversarial (honest_nodes c ++ adversarial) normal rng.
Fixpoint connect_supernode_mesh (supernodes : list nat) : Bu unit :=
  match supernodes with
  | [] => mret tt
  | node :: rest =>
      _ ← pse_iter (λ other,
            added ← add node other;
            if (added : bool) then mret tt
            else fail (InsufficientCapacity "unable to connect honest supernode mesh")) rest;
      connect_supernode_mesh rest
  end.
Inductive DiscoverySource : Set := SrcBootstrap | SrcInterestAffinity | SrcExploration.
Definition record_discovery (source : DiscoverySource) (candidate_role : NodeRole) (adversarial : bool)
    (d : DiscoverySelectionCounts) : DiscoverySelectionCounts :=
  let one (b : bool) : N := if b then 1 else 0 in
  mkDiscoveryCounts
    (dc_bootstrap_links d + one (match source with SrcBootstrap => true | _ => false end))
    (dc_interest_affinity_links d + one (match source with SrcInterestAffinity => true | _ => false end))
    (dc_exploration_links d + one (match source with SrcExploration => true | _ => false end))
    (dc_selected_high_capacity_links d + one (bool_decide (candidate_role = RoleSupernode)))
    (dc_selected_adversarial_candidate_links d + one adversarial)
    (dc_candidate_peer_count d) (dc_peers_selecting_high_capacity d).
Definition note_discovery (source : DiscoverySource) (candidate_role : NodeRole) (adversarial : bool) : Bu unit :=
  pse_modify (λ b, mkBuild (bu_graph b) (bu_rng b)
                     (record_discovery source candidate_role adversarial (bu_discovery b))).
Fixpoint add_discovery_from (peer : nat) (candidates : list nat) (target : N) (source : DiscoverySource)
    (adversarial : list nat) (added : N) : Bu unit :=
  match candidates with
  | [] => fail (InsufficientCapacity ("node " +:+ pretty (N.of_nat peer) +:+ " selected only "
            +:+ pretty added +:+ " of " +:+ pretty target +:+ " requested candidates"))
  | candidate :: candidates =>
      ok ← add_discovered peer candidate;
      if (ok : bool) then
        b ← pse_get;
        role ← panic_unless (bg_roles (bu_graph b) !! candidate);
        _ ← note_discovery source role (bool_decide (candidate ∈ adversarial));
        if decide (added + 1 = target) then mret tt
        else add_discovery_from peer candidates target source adversarial (added + 1)
      else add_discovery_from peer candidates target source adversarial added
  end.
Definition add_discovery_links (peer : nat) (candidates : list nat) (target : N) (source : DiscoverySource)
    (adversarial : list nat) : Bu unit :=
  if decide (target = 0) then mret tt
  else add_discovery_from peer candidates target source adversarial 0.
Definition generic_candidates_for_peer (values : list nat) (peer : nat) : Bu (list nat) :=
  values ← shuffled values; mret (filter (λ candidate, candidate ≠ peer) values).
Definition interest_affinity_candidates (config : TopologyConfig) (peer : nat) (candidates : list nat)
    : Bu (list nat) :=
  candidates ← generic_candidates_for_peer candidates peer;
  cohort ← panic_unless (cohort_of config peer);
  keyed ← panic_unless (mapM (λ candidate,
    other ← cohort_of config candidate; Some (candidate, bool_decide (other ≠ cohort))) candidates);
  mret (sort_by (cmp_on snd bool_compare) keyed).*1.
Definition connect_mixed_bootstraps (normal generic adversarial : list nat) : Bu unit :=
  pse_iter (λ peer,
      candidates ← generic_candidates_for_peer generic peer;
      add_discovery_links peer candidates 1 SrcBootstrap adversarial) normal.
Definition connect_discovered_candidates (config : TopologyConfig) (peer : nat)
    (generic adversarial : list nat) : Bu unit :=
  let hybrid := tc_hybrid config in
  let target := hy_candidate_links_per_peer hybrid in
  match hy_discovery hybrid with
  | DiscBootstrap =>
      candidates ← generic_candidates_for_peer generic peer;
      add_discovery_links peer candidates target SrcBootstrap adversarial
  | DiscInterestAffinity =>
      candidates ← interest_affinity_candidates config peer generic;
      add_discovery_links peer candidates target SrcInterestAffinity adversarial
  | DiscExploration =>
      candidates ← generic_candidates_for_peer generic peer;
      add_discovery_links peer candidates target SrcExploration adversarial
  | DiscMixed =>
      let exploration_target := N.min (hy_exploration_links_per_peer hybrid) (target - 1) in
      candidates ← generic_candidates_for_peer generic peer;
      _ ← add_discovery_links peer candidates exploration_target SrcExploration adversarial;
      let social_target := target - (1 + exploration_target) in
      if decide (0 < social_target) then
        candidates ← interest_affinity_candidates config peer generic;
        add_discovery_links peer candidates social_target SrcInterestAffinity adversarial
      else mret tt
  end.
Definition hybrid_links (config : TopologyConfig) (truth : GroundTruth) : Bu unit :=
  let normal := gt_normal_peers truth in
  let generic := gt_generic_candidates truth in
  let adversarial := gt_adversarial_candidates truth in
  _ ← connect_supernode_mesh (gt_honest_supernodes truth);
  _ ← (if decide (hy_discovery (tc_hybrid config) = DiscMixed)
       then connect_mixed_bootstraps normal generic adversarial else mret tt);
  pse_iter (λ peer, connect_discovered_candidates config peer generic adversarial) normal.
Definition hybrid_roles (config : TopologyConfig) (supernodes : list nat) : list NodeRole :=
  foldl (λ roles node, <[node := RoleSupernode]> roles)
    (base_roles (tc_node_count config) (tc_attacker_count config)) supernodes.
Definition hybrid_start (config : TopologyConfig) (truth : GroundTruth) : Build :=
  let hybrid := tc_hybrid config in
  mkBuild (graph_new (hybrid_roles config (gt_honest_supernodes truth))
             (mkCaps (hy_max_peer_degree hybrid) (hy_max_supernode_degree hybrid) (hy_max_attacker_degree hybrid)))
    (gt_rng truth) discovery_counts_default.
(** How many peers have a supernode among their neighbors. *)
Definition peers_with_supernode (g : BoundedGraph) (supernodes normal : list nat) : option N :=
  covered ← mapM (λ peer,
    neighbors ← bg_neighbors g !! peer;
    Some (existsb (λ s, bool_decide (s ∈ (neighbors : gset nat))) supernodes)) normal;
  Some (nlen (filter (λ c, c = true) covered)).
Definition build_hybrid_supernodes (config : TopologyConfig) : option (result TopologyError TopologyResult) :=
  let truth := hybrid_ground_truth config in
  let normal := gt_normal_peers truth in
  match validate_hybrid config (nlen (gt_generic_candidates truth))
          (nlen (gt_adversarial_candidates truth)) (nlen normal) with
  | Err e => Some (Err e)
  | Ok _ =>
      '(r, b) ← hybrid_links config truth (hybrid_start config truth);
      match r with
      | Err e => Some (Err e)
      | Ok _ =>
          selecting ← peers_with_supernode (bu_graph b) (gt_honest_supernodes truth) normal;
          let d := bu_discovery b in
          let d := mkDiscoveryCounts (dc_bootstrap_links d) (dc_interest_affinity_links d)
                     (dc_exploration_links d) (dc_selected_high_capacity_links d)
                     (dc_selected_adversarial_candidate_links d) (nlen normal) selecting in
          Some (Ok (topology_of config (gt_honest_supernodes truth) (gt_adversarial_candidates truth)
                      (mkBuild (bu_graph b) (bu_rng b) d)))
      end
  end.

Definition build_topology (config : TopologyConfig) : option (result TopologyError TopologyResult) :=
  match validate_common config with
  | Err e => Some (Err e)
  | Ok _ =>
      match tc_strategy config with
      | PeerMesh => build_peer_mesh config
      | HybridSupernodes => build_hybrid_supernodes config
      end
  end.
