(* ===== verification/Incentives.v ===== *)
(** * The simulator: incentives

    crates/nostr-pubsub-sim/src/incentives.rs with its modules streaming.rs,
    accepted_batch.rs and exposure.rs, and incentive_gates.rs: what it would
    cost to pay for the verified deliveries of a run under five strategies.
    The integer fields of the report are named by [Counter], and kept as a
    function of the name. [sum] overflows as a panic, as with overflow checks. *)

From S2P Require Export SimBasics Topology.

(** ** Configuration *)
Inductive IncentiveStrategy : Set :=
  DirectVerifiedCashu | OfflinePeerCredit | FixedPrepaidCashu | IncrementalSpilman | AcceptedMintBatch.
#[export] Instance IncentiveStrategy_eq_dec : EqDecision IncentiveStrategy.
Proof. solve_decision. Defined.
Inductive MintDiscoveryScope : Set := ConnectedPeers | PublicScope.
#[export] Instance MintDiscoveryScope_eq_dec : EqDecision MintDiscoveryScope.
Proof. solve_decision. Defined.
Inductive IncentiveUseCase : Set := VerifiedOneShot | UntrustedStreaming.
#[export] Instance IncentiveUseCase_eq_dec : EqDecision IncentiveUseCase.
Proof. solve_decision. Defined.
Definition all_strategies : list IncentiveStrategy :=
  [DirectVerifiedCashu; OfflinePeerCredit; FixedPrepaidCashu; IncrementalSpilman; AcceptedMintBatch].
Definition strategy_as_str (s : IncentiveStrategy) : string :=
  match s with
  | DirectVerifiedCashu => "modeled-direct-verified-cashu"
  | OfflinePeerCredit => "modeled-offline-peer-credit"
  | FixedPrepaidCashu => "modeled-fixed-prepaid-cashu"
  | IncrementalSpilman => "modeled-incremental-spilman"
  | AcceptedMintBatch => "modeled-accepted-mint-cashu-batch"
  end.
Definition strategy_domain (s : IncentiveStrategy) : N :=
  match s with
  | DirectVerifiedCashu => 1 | OfflinePeerCredit => 2 | FixedPrepaidCashu => 3
  | IncrementalSpilman => 4 | AcceptedMintBatch => 5
  end.
Record IncentiveConfig : Set := mkIncentiveConfig {
  ic_use_case : IncentiveUseCase;
  ic_bytes_per_sat : N;
  ic_mint_count : N;
  ic_gateway_mint : option N;
  ic_offline_credit_cap_sat : N;
  ic_batch_interval_ms : N;
  ic_cashu_min_settlement_sat : N;
  ic_fixed_prepay_sat : N;
  ic_spilman_prefund_sat : N;
  ic_spilman_update_sat : N;
  ic_spilman_channel_lifetime_ms : N;
  ic_spilman_open_fee_sat : N;
  ic_spilman_close_fee_sat : N;
  ic_spilman_refund_failure_basis_points : N;
  ic_same_mint_fee_sat : N;
  ic_cross_mint_fee_sat : N;
  ic_payment_message_bytes : N;
  ic_mint_advertisement_bytes : N;
  ic_mint_discovery_scope : MintDiscoveryScope;
  ic_outage_basis_points : N;
  ic_payment_defaulter_basis_points : N;
  ic_provider_failure_basis_points : N;
  ic_max_payment_retries : N;
  ic_payment_retry_ms : N;
  ic_settlement_deadline_ms : N;
  ic_fake_claims_per_attacker : N;
  ic_fake_claim_value_sat : N;
  ic_seed : N;
}.
Definition incentive_config_default : IncentiveConfig :=
  mkIncentiveConfig VerifiedOneShot 512 4 (Some 0) 32 1000 1 4096 4096 16 60000 1 1 0 0 2 96 96 ConnectedPeers
    800 500 500 3 50 20000 2 16 0x5041594d454e5453.
Inductive IncentiveError : Set := IncentiveInvalidConfig (message : string) | InvalidReport (message : string).

(** ** Samples *)
Definition rotate_left (value k : N) : N := N.lor (u64_wrap (N.shiftl value k)) (N.shiftr value (64 - k)).
Definition mix64 (value : N) : N := mix_finish (u64_wrap (value + 0x9e3779b97f4a7c15)).
Definition usize_u64 (value : nat) : N := N.of_nat value.

(** ** Deliveries *)
Record VerifiedDeliveryRecord : Set := mkDelivery {
  vd_event_id : string;
  vd_provider : nat;
  vd_receiver : nat;
  vd_payload_bytes : N;
  vd_accepted_at_ms : N;
  vd_final_interested_delivery : bool;
}.
(** A payer and its provider. *)
Notation Pair := (nat * nat)%type.
Notation payer p := (fst p).
Notation provider p := (snd p).
Definition node_compare (a b : nat) : comparison := N.compare (N.of_nat a) (N.of_nat b).
Definition pair_compare : Pair → Pair → comparison := cmp_then (cmp_on fst node_compare) (cmp_on snd node_compare).
Record Obligation : Set := mkObligation { ob_pair : Pair; ob_amount_sat : N; ob_accepted_at_ms : N }.
Record PricedWorkload : Set := mkWorkload {
  pw_obligations : list Obligation;
  pw_useful_bytes : N;
  pw_useful_value_sat : N;
  pw_pricing_dust_bytes : N;
}.
(** [sum()] of [u64]s, which panics when it overflows. *)
Definition checked_sum (l : list N) : option N :=
  let total := sum_by id l in if decide (total ≤ u64_max) then Some total else None.

Fixpoint validate_each (records : list VerifiedDeliveryRecord) (node_count : N) (accepted : gset (string * nat))
    : result IncentiveError unit :=
  match records with
  | [] => Ok tt
  | r :: records =>
      if decide (node_count ≤ N.of_nat (vd_provider r) ∨ node_count ≤ N.of_nat (vd_receiver r)) then
        Err (InvalidReport "delivery record node is out of range")
      else if decide (vd_provider r = vd_receiver r ∨ vd_payload_bytes r = 0) then
        Err (InvalidReport "delivery record has no remote useful service")
      else if decide ((vd_event_id r, vd_receiver r) ∈ accepted) then
        Err (InvalidReport "duplicate first-acceptance delivery record")
      else validate_each records node_count ({[(vd_event_id r, vd_receiver r)]} ∪ accepted)
  end.
Definition validate_records (records : list VerifiedDeliveryRecord) (node_count : N) : result IncentiveError unit :=
  validate_each records node_count ∅.
(** The report of a simulation, as far as it is read. *)
Record SimulationReport : Set := mkSimReport {
  sr_node_count : N;
  sr_node_roles : list NodeRole;
  sr_verified_delivery_records : list VerifiedDeliveryRecord;
}.
Definition validate_inputs (report : SimulationReport) (c : IncentiveConfig) : result IncentiveError unit :=
  if decide (ic_bytes_per_sat c = 0) then Err (IncentiveInvalidConfig "bytes_per_sat must be nonzero")
  else if decide (ic_mint_count c = 0) then Err (IncentiveInvalidConfig "mint_count must be nonzero")
  else if is_some_and (λ mint, bool_decide (ic_mint_count c ≤ mint)) (ic_gateway_mint c) then
    Err (IncentiveInvalidConfig "gateway mint is out of range")
  else if decide (ic_batch_interval_ms c = 0 ∨ ic_fixed_prepay_sat c = 0 ∨ ic_spilman_prefund_sat c = 0 ∨
                  ic_spilman_update_sat c = 0 ∨ ic_spilman_channel_lifetime_ms c = 0 ∨
                  ic_cashu_min_settlement_sat c = 0 ∨ ic_payment_message_bytes c = 0 ∨
                  ic_mint_advertisement_bytes c = 0) then
    Err (IncentiveInvalidConfig "batch, Spilman, and payment message sizes must be nonzero")
  else if decide (10000 < ic_outage_basis_points c ∨ 10000 < ic_payment_defaulter_basis_points c ∨
                  10000 < ic_provider_failure_basis_points c ∨ 10000 < ic_spilman_refund_failure_basis_points c) then
    Err (IncentiveInvalidConfig "outage, default, provider-failure, or refund-failure basis points exceed 100%")
  else if decide (nlen (sr_node_roles report) ≠ sr_node_count report) then
    Err (InvalidReport "node role table length does not match node count")
  else validate_records (sr_verified_delivery_records report) (sr_node_count report).

(** *** Pricing *)
Definition delivery_compare : VerifiedDeliveryRecord → VerifiedDeliveryRecord → comparison :=
  cmp_then (cmp_on vd_accepted_at_ms N.compare)
    (cmp_then (cmp_on vd_event_id String.compare)
      (cmp_then (cmp_on vd_receiver node_compare) (cmp_on vd_provider node_compare))).
(** What the loop carries: remainders, obligations, bytes, value. *)
Record Pricing : Type := mkPricing {
  pr_remainders : gmap Pair N;
  pr_obligations : list Obligation;
  pr_useful_bytes : N;
  pr_useful_value_sat : N;
}.
Definition price_one (bytes_per_sat : N) (p : Pricing) (r : VerifiedDeliveryRecord) : Pricing :=
  let pair := (vd_receiver r, vd_provider r) in
  let useful_bytes := u64_sat_add (pr_useful_bytes p) (vd_payload_bytes r) in
  let bytes := u64_sat_add (default 0 (pr_remainders p !! pair)) (vd_payload_bytes r) in
  let amount_sat := bytes / bytes_per_sat in
  let remainders := <[pair := bytes `mod` bytes_per_sat]> (pr_remainders p) in
  if decide (amount_sat = 0) then mkPricing remainders (pr_obligations p) useful_bytes (pr_useful_value_sat p)
  else mkPricing remainders (pr_obligations p ++ [mkObligation pair amount_sat (vd_accepted_at_ms r)]) useful_bytes
         (u64_sat_add (pr_useful_value_sat p) amount_sat).
Definition price_loop (records : list VerifiedDeliveryRecord) (bytes_per_sat : N) : Pricing :=
  foldl (price_one bytes_per_sat) (mkPricing ∅ [] 0 0) (sort_by delivery_compare records).
Definition price_records (records : list VerifiedDeliveryRecord) (bytes_per_sat : N) : option PricedWorkload :=
  let p := price_loop records bytes_per_sat in
  dust ← checked_sum (map_to_list (pr_remainders p)).*2;
  Some (mkWorkload (pr_obligations p) (pr_useful_bytes p) (pr_useful_value_sat p) dust).

(** *** Batches and streams *)
Record Batch : Set := mkBatch { ba_pair : Pair; ba_amount_sat : N; ba_due_ms : N }.
Definition batch_one (interval_ms : N) (grouped : gmap (N * Pair) N) (o : Obligation) : gmap (N * Pair) N :=
  let window := ob_accepted_at_ms o / interval_ms in
  let due_ms := sat_mul u64_max (u64_sat_add window 1) interval_ms in
  let key := (due_ms, ob_pair o) in
  <[key := u64_sat_add (default 0 (grouped !! key)) (ob_amount_sat o)]> grouped.
Definition batches (obligations : list Obligation) (interval_ms : N) : list Batch :=
  (λ b : (N * Pair) * N, mkBatch b.1.2 b.2 b.1.1) <$>
    sort_by (cmp_on fst (cmp_then (cmp_on fst N.compare) (cmp_on snd pair_compare)))
      (map_to_list (foldl (batch_one interval_ms) ∅ obligations)).
Record PairStream : Set := mkPairStream {
  ps_pair : Pair; ps_amount_sat : N; ps_first_at_ms : N; ps_last_at_ms : N;
}.
Definition stream_one (grouped : gmap Pair PairStream) (o : Obligation) : gmap Pair PairStream :=
  let stream := default (mkPairStream (ob_pair o) 0 (ob_accepted_at_ms o) (ob_accepted_at_ms o))
                  (grouped !! ob_pair o) in
  <[ob_pair o := mkPairStream (ps_pair stream) (u64_sat_add (ps_amount_sat stream) (ob_amount_sat o))
                   (N.min (ps_first_at_ms stream) (ob_accepted_at_ms o))
                   (N.max (ps_last_at_ms stream) (ob_accepted_at_ms o))]> grouped.
Definition pair_streams (obligations : list Obligation) : list PairStream :=
  (sort_by (cmp_on fst pair_compare) (map_to_list (foldl stream_one ∅ obligations))).*2.

(** ** The report *)
Inductive Counter : Set :=
  | useful_bytes | useful_value_sat | pricing_dust_bytes | priced_obligations
  | adversarial_payer_count | adversarial_payer_value_sat
  | honest_earned_sat | honest_settled_by_deadline_sat | honest_earned_settled_by_deadline_basis_points
  | authorization_denied_sat | pending_settlement_sat
  | buyer_prepaid_exposure_sat | fixed_prepay_paid_sat | fixed_prepay_used_sat | fixed_prepay_unused_credit_sat
  | buyer_counterparty_loss_sat | provider_unpaid_exposure_sat | provider_default_loss_sat
  | unpaid_exposure_sat | default_exposure_sat | max_pair_unpaid_exposure_sat
  | peer_credit_accepted_sat | peer_credit_outstanding_sat | max_pair_peer_credit_sat
  | same_mint_settlements | cross_mint_settlements | reciprocal_service_settled_sat | modeled_fees_sat
  | locked_capital_sat_ms | peak_locked_capital_sat
  | channel_capacity_sat | channel_signed_balance_sat | channel_unused_capacity_sat | channel_refunded_sat
  | channel_open_fees_sat | channel_close_fees_sat | refund_failures | refund_loss_sat
  | mint_advertisement_messages | mint_advertisement_bytes
  | settlement_attempts | payment_retries | payment_messages | payment_bytes
  | payment_byte_overhead_basis_points | fake_claims_attempted | fake_claimed_value_sat.
#[export] Instance Counter_eq_dec : EqDecision Counter.
Proof. solve_decision. Defined.
Definition Counters : Type := Counter → N.
Definition set_counter (c : Counter) (value : N) (m : Counters) : Counters :=
  λ c', if decide (c' = c) then value else m c'.
Record IncentiveReport : Type := mkIncentiveReport {
  ir_strategy : IncentiveStrategy;
  ir_strategy_name : string;
  ir_use_case : IncentiveUseCase;
  ir_figures_are_modeled : bool;
  ir_counters : Counters;
  ir_mint_accepting_nodes : list N;
  ir_state_entries : DistributionSummary;
  ir_payment_messages : DistributionSummary;
  ir_payment_endpoint_bytes : DistributionSummary;
}.

(** ** Plans *)
(** The mutable part of a plan; its strategy, roles and configuration do not
    change. *)
Record Plan : Type := mkPlan {
  pl_counters : Counters;
  pl_state_entries : list N;
  pl_endpoint_messages : list N;
  pl_endpoint_bytes : list N;
  pl_unpaid_by_pair : gmap Pair N;
  pl_mint_discovery_pairs : gset Pair;
  pl_sequence : N;
}.
(** A plan's methods have no errors; an index outside a vector panics. *)
Notation Pl := (PSE Plan Empty_set).
Definition ATTEMPT_MESSAGES : N := 2.

Definition get_counter (c : Counter) : Pl N := λ p, Some (Ok (pl_counters p c), p).
Definition put_counter (c : Counter) (value : N) : Pl unit :=
  pse_modify (λ p, mkPlan (set_counter c value (pl_counters p)) (pl_state_entries p) (pl_endpoint_messages p)
    (pl_endpoint_bytes p) (pl_unpaid_by_pair p) (pl_mint_discovery_pairs p) (pl_sequence p)).
(** [field = field.saturating_add(n)] and [field = field.max(n)]. *)
Definition bump (c : Counter) (n : N) : Pl unit := old ← get_counter c; put_counter c (u64_sat_add old n).
Definition raise (c : Counter) (n : N) : Pl unit := old ← get_counter c; put_counter c (N.max old n).
Definition add_at (i : nat) (n : N) (v : list N) : option (list N) :=
  x ← v !! i; Some (<[i := u64_sat_add x n]> v).
(** A loop with a local variable. *)
Fixpoint pl_fold {A X} (f : A → X → Pl A) (a : A) (l : list X) : Pl A :=
  match l with [] => mret a | x :: l => a ← f a x; pl_fold f a l end.

(** Service in both directions between two nodes, by the end of its window. *)
Notation Window := (N * Pair)%type.

Section plan.
Context (strategy : IncentiveStrategy) (roles : list NodeRole) (config : IncentiveConfig).

Definition home_mint (node : nat) : N := mix64 (N.lxor (ic_seed config) (usize_u64 node)) `mod` ic_mint_count config.
Inductive MintRoute : Set := RouteSame | RouteCross.
Definition mint_route (pair : Pair) : MintRoute :=
  let payer_home := home_mint (payer pair) in
  let provider_home := home_mint (provider pair) in
  if decide (payer_home = provider_home ∨ ic_gateway_mint config = Some payer_home) then RouteSame else RouteCross.
Definition accept_node (accepting : option (list N)) (node : nat) : option (list N) :=
  accepting ← accepting;
  let home := home_mint node in
  accepting ← add_at (N.to_nat home) 1 accepting;
  match ic_gateway_mint config with
  | Some gateway => if decide (gateway = home) then Some accepting else add_at (N.to_nat gateway) 1 accepting
  | None => Some accepting
  end.
Definition mint_accepting_nodes (node_count : nat) : option (list N) :=
  foldl accept_node (Some (replicate (N.to_nat (ic_mint_count config)) 0)) (seq 0 node_count).
Definition payer_will_default (p : nat) : option bool :=
  role ← roles !! p;
  if decide (role = RoleAttacker) then Some true
  else Some (bool_decide
    (mix64 (N.lxor (N.lxor (ic_seed config) (rotate_left (usize_u64 p) 29)) 0x44454641554c5453) `mod` 10000
     < ic_payment_defaulter_basis_points config)).
Definition provider_is_honest (pair : Pair) : option bool :=
  role ← roles !! provider pair; Some (bool_decide (role ≠ RoleAttacker)).
Definition provider_will_fail (pair : Pair) : option bool :=
  if decide (ic_use_case config = UntrustedStreaming) then
    role ← roles !! provider pair;
    if decide (role = RoleAttacker) then Some true
    else Some (bool_decide
      (mix64 (N.lxor (N.lxor (N.lxor (ic_seed config) (rotate_left (usize_u64 (provider pair)) 23))
                (rotate_left (usize_u64 (payer pair)) 41)) 0x53454c4c45524641) `mod` 10000
       < ic_provider_failure_basis_points config))
  else Some false.
Definition refund_will_fail (pair : Pair) : bool :=
  bool_decide
    (mix64 (N.lxor (N.lxor (N.lxor (ic_seed config) (rotate_left (usize_u64 (provider pair)) 13))
              (rotate_left (usize_u64 (payer pair)) 37)) 0x524546554e444641) `mod` 10000
     < ic_spilman_refund_failure_basis_points config).
Definition payment_is_out (pair : Pair) (at_ms phase sequence retry : N) : bool :=
  bool_decide
    (mix64 (foldl N.lxor (ic_seed config)
       [rotate_left (strategy_domain strategy) 7; rotate_left (usize_u64 (payer pair)) 17;
        rotate_left (usize_u64 (provider pair)) 31; rotate_left at_ms 43; rotate_left phase 53; sequence;
        rotate_left retry 11]) `mod` 10000
     < ic_outage_basis_points config).

(** *** Traffic and state at the endpoints *)
Definition record_state (pair : Pair) : Pl unit := λ p,
  entries ← add_at (payer pair) 1 (pl_state_entries p);
  entries ← add_at (provider pair) 1 entries;
  Some (Ok tt, mkPlan (pl_counters p) entries (pl_endpoint_messages p) (pl_endpoint_bytes p)
                 (pl_unpaid_by_pair p) (pl_mint_discovery_pairs p) (pl_sequence p)).
Definition endpoint_traffic (pair : Pair) (messages bytes : N) : Pl unit := λ p,
  sent ← add_at (payer pair) messages (pl_endpoint_messages p);
  sent ← add_at (provider pair) messages sent;
  size ← add_at (payer pair) bytes (pl_endpoint_bytes p);
  size ← add_at (provider pair) bytes size;
  Some (Ok tt, mkPlan (pl_counters p) (pl_state_entries p) sent size
                 (pl_unpaid_by_pair p) (pl_mint_discovery_pairs p) (pl_sequence p)).
Definition record_endpoint_traffic (pair : Pair) (messages bytes : N) : Pl unit :=
  _ ← bump payment_messages messages;
  _ ← bump payment_bytes bytes;
  endpoint_traffic pair messages bytes.
Definition record_messages (pair : Pair) (messages : N) : Pl unit :=
  record_endpoint_traffic pair messages (sat_mul u64_max messages (ic_payment_message_bytes config)).
(** [mint_discovery_pairs.insert]: whether the pair is new. *)
Definition insert_discovery (pair : Pair) : Pl bool := λ p,
  Some (Ok (negb (bool_decide (pair ∈ pl_mint_discovery_pairs p))),
        mkPlan (pl_counters p) (pl_state_entries p) (pl_endpoint_messages p) (pl_endpoint_bytes p)
          (pl_unpaid_by_pair p) ({[pair]} ∪ pl_mint_discovery_pairs p) (pl_sequence p)).
Definition record_mint_discovery_pair (pair : Pair) : Pl unit :=
  fresh ← insert_discovery pair;
  if negb fresh then mret tt
  else
    let messages := if decide (ic_mint_discovery_scope config = PublicScope) then 1 else 0 in
    _ ← bump mint_advertisement_messages messages;
    _ ← bump mint_advertisement_bytes (ic_mint_advertisement_bytes config);
    record_endpoint_traffic pair messages (ic_mint_advertisement_bytes config).
Definition record_public_mint_discovery : Pl unit :=
  if decide (ic_mint_discovery_scope config = PublicScope) then
    pse_iter (λ provider_, pse_iter (λ payer_,
        if decide (payer_ = provider_) then mret tt else record_mint_discovery_pair (payer_, provider_))
      (seq 0 (length roles))) (seq 0 (length roles))
  else mret tt.

(** *** Money *)
Definition earn (pair : Pair) (amount_sat : N) : Pl unit :=
  honest ← panic_unless (provider_is_honest pair);
  if (honest : bool) then bump honest_earned_sat amount_sat else mret tt.
Definition deny (amount_sat : N) : Pl unit := bump authorization_denied_sat amount_sat.
Definition mark_settled (pair : Pair) (amount_sat : N) : Pl unit :=
  honest ← panic_unless (provider_is_honest pair);
  if (honest : bool) then bump honest_settled_by_deadline_sat amount_sat else mret tt.
Definition reject_unfunded (pair : Pair) (amount_sat : N) : Pl unit :=
  _ ← record_messages pair 1; deny amount_sat.
Definition record_provider_exposure (amount_sat : N) (lost : bool) : Pl unit :=
  _ ← raise provider_unpaid_exposure_sat amount_sat;
  if lost then bump provider_default_loss_sat amount_sat else mret tt.
Definition add_unpaid (pair : Pair) (amount_sat : N) : Pl N := λ p,
  let outstanding_sat := u64_sat_add (default 0 (pl_unpaid_by_pair p !! pair)) amount_sat in
  Some (Ok outstanding_sat,
        mkPlan (pl_counters p) (pl_state_entries p) (pl_endpoint_messages p) (pl_endpoint_bytes p)
          (<[pair := outstanding_sat]> (pl_unpaid_by_pair p)) (pl_mint_discovery_pairs p) (pl_sequence p)).
Definition record_unpaid (pair : Pair) (amount_sat : N) : Pl N :=
  defaults ← panic_unless (payer_will_default (payer pair));
  outstanding_sat ← add_unpaid pair amount_sat;
  _ ← bump unpaid_exposure_sat amount_sat;
  _ ← raise max_pair_unpaid_exposure_sat outstanding_sat;
  _ ← (if (defaults : bool) then bump default_exposure_sat amount_sat else mret tt);
  mret outstanding_sat.
Definition record_defaulted_settlement (pair : Pair) (amount_sat : N) : Pl unit :=
  _ ← record_mint_discovery_pair pair;
  _ ← record_messages pair 1;
  outstanding_sat ← record_unpaid pair amount_sat;
  _ ← record_provider_exposure outstanding_sat false;
  bump provider_default_loss_sat amount_sat.
Definition record_route_settlement (pair : Pair) : Pl unit :=
  match mint_route pair with
  | RouteSame => _ ← bump same_mint_settlements 1; bump modeled_fees_sat (ic_same_mint_fee_sat config)
  | RouteCross => _ ← bump cross_mint_settlements 1; bump modeled_fees_sat (ic_cross_mint_fee_sat config)
  end.
Definition settle_with_route (pair : Pair) (amount_sat : N) : Pl unit :=
  _ ← record_route_settlement pair; mark_settled pair amount_sat.
Definition next_sequence : Pl N := λ p,
  Some (Ok (pl_sequence p),
        mkPlan (pl_counters p) (pl_state_entries p) (pl_endpoint_messages p) (pl_endpoint_bytes p)
          (pl_unpaid_by_pair p) (pl_mint_discovery_pairs p) (u64_sat_add (pl_sequence p) 1)).
Fixpoint try_attempts (retries : list N) (pair : Pair) (due_ms phase sequence : N) : Pl bool :=
  match retries with
  | [] => mret false
  | retry :: retries =>
      let at_ms := u64_sat_add due_ms (sat_mul u64_max retry (ic_payment_retry_ms config)) in
      if decide (ic_settlement_deadline_ms config < at_ms) then mret false
      else
        _ ← bump settlement_attempts 1;
        _ ← (if decide (0 < retry) then bump payment_retries 1 else mret tt);
        _ ← record_messages pair ATTEMPT_MESSAGES;
        if payment_is_out pair at_ms phase sequence retry
        then try_attempts retries pair due_ms phase sequence else mret true
  end.
Definition try_settlement (pair : Pair) (due_ms phase : N) : Pl bool :=
  _ ← record_mint_discovery_pair pair;
  sequence ← next_sequence;
  try_attempts (N.of_nat <$> seq 0 (S (N.to_nat (ic_max_payment_retries config)))) pair due_ms phase sequence.

(** *** Prepayment and channels *)
Definition record_fixed_prepay (prepaid_sat used_sat : N) (lost : bool) : Pl unit :=
  _ ← panic_unless (if decide (used_sat ≤ prepaid_sat) then Some tt else None);
  _ ← raise buyer_prepaid_exposure_sat prepaid_sat;
  _ ← bump fixed_prepay_paid_sat prepaid_sat;
  if lost then bump buyer_counterparty_loss_sat prepaid_sat
  else
    _ ← bump fixed_prepay_used_sat used_sat;
    bump fixed_prepay_unused_credit_sat (prepaid_sat - used_sat).
Definition record_channel_open (capacity_sat signed_balance_sat lifetime_ms : N) : Pl unit :=
  _ ← panic_unless (if decide (signed_balance_sat ≤ capacity_sat) then Some tt else None);
  _ ← raise peak_locked_capital_sat capacity_sat;
  _ ← bump channel_capacity_sat capacity_sat;
  _ ← bump channel_signed_balance_sat signed_balance_sat;
  _ ← bump channel_unused_capacity_sat (capacity_sat - signed_balance_sat);
  _ ← bump locked_capital_sat_ms (sat_mul u64_max capacity_sat lifetime_ms);
  bump channel_open_fees_sat (ic_spilman_open_fee_sat config).
Definition record_channel_close : Pl unit := bump channel_close_fees_sat (ic_spilman_close_fee_sat config).
Definition record_channel_refund (amount_sat : N) : Pl unit := bump channel_refunded_sat amount_sat.
Definition record_refund_failure (unused_capacity_sat : N) : Pl unit :=
  if decide (unused_capacity_sat = 0) then mret tt
  else _ ← bump refund_failures 1; bump refund_loss_sat unused_capacity_sat.

(** *** Starting and finishing *)
Definition honest_position : option nat := fst <$> list_find (λ role, role ≠ RoleAttacker) roles.
Definition add_fake_claim_pressure : Pl unit :=
  match honest_position with
  | None => mret tt
  | Some honest_target =>
      pse_iter (λ '(attacker, role),
          if decide (role = RoleAttacker) then
            let claims := ic_fake_claims_per_attacker config in
            _ ← bump fake_claims_attempted claims;
            _ ← bump fake_claimed_value_sat (sat_mul u64_max claims (ic_fake_claim_value_sat config));
            record_messages (honest_target, attacker) claims
          else mret tt) (imap pair roles)
  end.
Definition summarize_honest (values : list N) : option DistributionSummary :=
  summarize_distribution (filter (λ vr : N * NodeRole, vr.2 ≠ RoleAttacker) (zip values roles)).*1.
Definition finish_counters : Pl unit :=
  _ ← add_fake_claim_pressure;
  settled ← get_counter honest_settled_by_deadline_sat;
  earned ← get_counter honest_earned_sat;
  _ ← put_counter honest_earned_settled_by_deadline_basis_points (basis_points settled earned);
  bytes ← get_counter payment_bytes;
  useful ← get_counter useful_bytes;
  put_counter payment_byte_overhead_basis_points (basis_points bytes useful).
Definition finish (accepting : list N) : Pl IncentiveReport :=
  _ ← finish_counters;
  p ← pse_get;
  state ← panic_unless (summarize_honest (pl_state_entries p));
  messages ← panic_unless (summarize_honest (pl_endpoint_messages p));
  bytes ← panic_unless (summarize_honest (pl_endpoint_bytes p));
  mret (mkIncentiveReport strategy (strategy_as_str strategy) (ic_use_case config) true (pl_counters p) accepting
          state messages bytes).
(** The payers that will default, and what they owe. *)
Definition adversarial_value (workload : PricedWorkload) : option (N * N) :=
  flagged ← mapM (λ o, defaults ← payer_will_default (payer (ob_pair o)); Some (o, (defaults : bool)))
    (pw_obligations workload);
  let adversarial := fst <$> filter (λ f : Obligation * bool, f.2 = true) flagged in
  value ← checked_sum (ob_amount_sat <$> adversarial);
  Some (ssize (list_to_set ((λ o, payer (ob_pair o)) <$> adversarial) : gset nat), value).
Definition initial_counters (workload : PricedWorkload) (payers value : N) : Counters :=
  foldl (λ m cv, set_counter cv.1 cv.2 m) (λ _, 0)
    [(useful_bytes, pw_useful_bytes workload); (useful_value_sat, pw_useful_value_sat workload);
     (pricing_dust_bytes, pw_pricing_dust_bytes workload);
     (priced_obligations, nlen (pw_obligations workload));
     (adversarial_payer_count, payers); (adversarial_payer_value_sat, value)].
Definition plan_start (workload : PricedWorkload) (payers value : N) : Plan :=
  let zeros := replicate (length roles) 0 in
  mkPlan (initial_counters workload payers value) zeros zeros zeros ∅ ∅ 0.
(** [Plan::new], the work of a strategy, and [finish]. *)
Definition planned (workload : PricedWorkload) (work : Pl unit) : option IncentiveReport :=
  '(payers, value) ← adversarial_value workload;
  accepting ← mint_accepting_nodes (length roles);
  '(r, _) ← (_ ← record_public_mint_discovery; _ ← work; finish accepting) (plan_start workload payers value);
  match r with Ok report => Some report | Err e => match (e : Empty_set) with end end.

(** ** The strategies *)
Definition direct_one (o : Obligation) : Pl unit :=
  let pair := ob_pair o in
  _ ← record_state pair;
  _ ← earn pair (ob_amount_sat o);
  _ ← record_provider_exposure (ob_amount_sat o) false;
  defaults ← panic_unless (payer_will_default (payer pair));
  if (defaults : bool) then record_defaulted_settlement pair (ob_amount_sat o)
  else
    paid ← try_settlement pair (ob_accepted_at_ms o) 1;
    if (paid : bool) then settle_with_route pair (ob_amount_sat o)
    else
      _ ← bump pending_settlement_sat (ob_amount_sat o);
      outstanding_sat ← record_unpaid pair (ob_amount_sat o);
      record_provider_exposure outstanding_sat false.
Definition plan_direct (workload : PricedWorkload) : option IncentiveReport :=
  planned workload (pse_iter direct_one (pw_obligations workload)).

Definition window_of (b : Batch) : Window :=
  (ba_due_ms b, (Nat.min (payer (ba_pair b)) (provider (ba_pair b)), Nat.max (payer (ba_pair b)) (provider (ba_pair b)))).
Definition net_one (reciprocal : gmap Window (N * N)) (b : Batch) : Pl (gmap Window (N * N)) :=
  _ ← record_state (ba_pair b);
  let key := window_of b in
  let totals := default (0, 0) (reciprocal !! key) in
  let totals := if decide (payer (ba_pair b) = payer key.2)
                then (u64_sat_add totals.1 (ba_amount_sat b), totals.2)
                else (totals.1, u64_sat_add totals.2 (ba_amount_sat b)) in
  mret (<[key := totals]> reciprocal).
Definition windows (reciprocal : gmap Window (N * N)) : list (Window * (N * N)) :=
  sort_by (cmp_on fst (cmp_then (cmp_on fst N.compare) (cmp_on snd pair_compare))) (map_to_list reciprocal).
(** Both directions up to the smaller amount, and what remains of one. *)
Definition settle_offset (low high : nat) (offset : N) : Pl unit :=
  if decide (0 < offset) then
    _ ← earn (low, high) offset;
    _ ← earn (high, low) offset;
    _ ← mark_settled (low, high) offset;
    _ ← mark_settled (high, low) offset;
    bump reciprocal_service_settled_sat (sat_mul u64_max offset 2)
  else mret tt.
Definition net_of (low high : nat) (totals : N * N) : Pair * N :=
  if decide (totals.2 ≤ totals.1) then ((low, high), totals.1 - totals.2) else ((high, low), totals.2 - totals.1).

Definition credit_window (outstanding : gmap Pair N) (w : Window * (N * N)) : Pl (gmap Pair N) :=
  let '((due_ms, (low, high)), totals) := w in
  _ ← settle_offset low high (N.min totals.1 totals.2);
  let net := net_of low high totals in
  let pair := net.1 in
  let amount_sat := net.2 in
  if decide (amount_sat = 0) then mret outstanding
  else
    let debt := default 0 (outstanding !! pair) in
    let admitted := N.min amount_sat (ic_offline_credit_cap_sat config - debt) in
    let debt_now := u64_sat_add debt admitted in
    let outstanding := <[pair := debt_now]> outstanding in
    _ ← record_provider_exposure debt_now false;
    _ ← earn pair admitted;
    _ ← deny (amount_sat - admitted);
    defaults ← panic_unless (payer_will_default (payer pair));
    if (defaults : bool) then _ ← record_messages pair 1; mret outstanding
    else if decide (0 < debt_now) then
      paid ← try_settlement pair due_ms 2;
      if (paid : bool) then
        _ ← settle_with_route pair (default 0 (outstanding !! pair)); mret (delete pair outstanding)
      else mret outstanding
    else mret outstanding.
Definition pair_bindings (m : gmap Pair N) : list (Pair * N) := sort_by (cmp_on fst pair_compare) (map_to_list m).
Definition credit_left (d : Pair * N) : Pl unit :=
  defaults ← panic_unless (payer_will_default (payer d.1));
  _ ← record_provider_exposure d.2 defaults;
  _ ← record_unpaid d.1 d.2;
  mret tt.
Definition plan_peer_credit (workload : PricedWorkload) : option IncentiveReport :=
  planned workload
    (reciprocal ← pl_fold net_one ∅ (batches (pw_obligations workload) (ic_batch_interval_ms config));
     outstanding ← pl_fold credit_window ∅ (windows reciprocal);
     pse_iter credit_left (pair_bindings outstanding)).

Definition prepay_one (stream : PairStream) : Pl unit :=
  let pair := ps_pair stream in
  _ ← record_state pair;
  defaults ← panic_unless (payer_will_default (payer pair));
  if (defaults : bool) then reject_unfunded pair (ps_amount_sat stream)
  else
    paid ← try_settlement pair (ps_first_at_ms stream) 6;
    if negb paid then deny (ps_amount_sat stream)
    else
      let admitted := N.min (ps_amount_sat stream) (ic_fixed_prepay_sat config) in
      provider_fails ← panic_unless (provider_will_fail pair);
      _ ← record_fixed_prepay (ic_fixed_prepay_sat config) admitted provider_fails;
      _ ← deny (ps_amount_sat stream - admitted);
      _ ← record_route_settlement pair;
      if (provider_fails : bool) then mret tt
      else _ ← earn pair admitted; mark_settled pair admitted.
Definition plan_fixed_prepay (workload : PricedWorkload) : option IncentiveReport :=
  planned workload (pse_iter prepay_one (pair_streams (pw_obligations workload))).

(** A payer that funds a channel and withholds every signature. *)
Definition channel_defaulted (stream : PairStream) (capacity_sat : N) : Pl unit :=
  let pair := ps_pair stream in
  let unpaid_grace_sat := N.min (N.min (ps_amount_sat stream) (ic_spilman_update_sat config)) capacity_sat in
  _ ← earn pair unpaid_grace_sat;
  _ ← record_provider_exposure unpaid_grace_sat true;
  _ ← record_unpaid pair unpaid_grace_sat;
  _ ← deny (ps_amount_sat stream - unpaid_grace_sat);
  _ ← record_route_settlement pair;
  _ ← record_channel_open capacity_sat 0 (ic_spilman_channel_lifetime_ms config);
  _ ← record_messages pair 1;
  _ ← record_channel_close;
  if refund_will_fail pair then record_refund_failure capacity_sat else record_channel_refund capacity_sat.
Definition div_ceil (a b : N) : N := (a + b - 1) / b.
Definition channel_used (stream : PairStream) (capacity_sat : N) : Pl unit :=
  let pair := ps_pair stream in
  let signed_balance_sat := N.min (ps_amount_sat stream) capacity_sat in
  let unused_capacity_sat := capacity_sat - signed_balance_sat in
  _ ← deny (ps_amount_sat stream - signed_balance_sat);
  _ ← earn pair signed_balance_sat;
  _ ← mark_settled pair signed_balance_sat;
  _ ← record_route_settlement pair;
  provider_fails ← panic_unless (provider_will_fail pair);
  let observed_lifetime_ms := N.max (ps_last_at_ms stream - ps_first_at_ms stream) 1 in
  closed ← (if (provider_fails : bool) then _ ← record_messages pair 1; mret false
            else try_settlement pair (ps_last_at_ms stream) 4);
  let recovery_needed := provider_fails || negb closed in
  let lock_lifetime_ms := if recovery_needed then ic_spilman_channel_lifetime_ms config
                          else N.min observed_lifetime_ms (ic_spilman_channel_lifetime_ms config) in
  _ ← record_channel_open capacity_sat signed_balance_sat lock_lifetime_ms;
  _ ← record_provider_exposure (N.min signed_balance_sat (ic_spilman_update_sat config)) false;
  _ ← record_messages pair (div_ceil signed_balance_sat (ic_spilman_update_sat config));
  _ ← record_channel_close;
  if recovery_needed && refund_will_fail pair then record_refund_failure unused_capacity_sat
  else record_channel_refund unused_capacity_sat.
Definition spilman_one (stream : PairStream) : Pl unit :=
  let pair := ps_pair stream in
  _ ← record_state pair;
  opened ← try_settlement pair (ps_first_at_ms stream) 3;
  if negb opened then deny (ps_amount_sat stream)
  else
    let capacity_sat := ic_spilman_prefund_sat config in
    defaults ← panic_unless (payer_will_default (payer pair));
    if (defaults : bool) then channel_defaulted stream capacity_sat else channel_used stream capacity_sat.
Definition plan_spilman (workload : PricedWorkload) : option IncentiveReport :=
  planned workload (pse_iter spilman_one (pair_streams (pw_obligations workload))).

Definition accept_peer_credit (pair : Pair) (amount_sat : N) (peer_credit : gmap Pair N) : Pl (gmap Pair N) :=
  let balance := default 0 (peer_credit !! pair) in
  let admitted_sat := N.min amount_sat (ic_offline_credit_cap_sat config - balance) in
  let balance := u64_sat_add balance admitted_sat in
  _ ← bump peer_credit_accepted_sat admitted_sat;
  _ ← raise max_pair_peer_credit_sat balance;
  _ ← record_provider_exposure balance false;
  _ ← earn pair admitted_sat;
  defaults ← panic_unless (payer_will_default (payer pair));
  _ ← (if negb defaults then mark_settled pair admitted_sat else mret tt);
  _ ← deny (amount_sat - admitted_sat);
  mret (<[pair := balance]> peer_credit).
(** Credit in the other direction, extinguished up to the amount. *)
Definition settle_reverse (pair : Pair) (reciprocal_sat : N) : Pl unit :=
  let reverse := (provider pair, payer pair) in
  if decide (0 < reciprocal_sat) then
    _ ← earn pair reciprocal_sat;
    _ ← mark_settled pair reciprocal_sat;
    defaults ← panic_unless (payer_will_default (payer reverse));
    _ ← (if (defaults : bool) then mark_settled reverse reciprocal_sat else mret tt);
    bump reciprocal_service_settled_sat (sat_mul u64_max reciprocal_sat 2)
  else mret tt.
Definition settle_remaining (pair : Pair) (amount_sat due_ms : N) (peer_credit : gmap Pair N) : Pl (gmap Pair N) :=
  if decide (amount_sat = 0) then mret peer_credit
  else
    let combined_sat := u64_sat_add (default 0 (peer_credit !! pair)) amount_sat in
    let requires_cashu := bool_decide (ic_cashu_min_settlement_sat config ≤ combined_sat ∨
                                       ic_offline_credit_cap_sat config ≤ combined_sat) in
    defaults ← panic_unless (payer_will_default (payer pair));
    paid ← (if requires_cashu && negb defaults then try_settlement pair due_ms 5 else mret false);
    if (paid : bool) then
      _ ← record_route_settlement pair;
      _ ← earn pair amount_sat;
      _ ← mark_settled pair amount_sat;
      mret (delete pair peer_credit)
    else
      _ ← (if requires_cashu && defaults then
             _ ← record_mint_discovery_pair pair;
             _ ← bump settlement_attempts 1;
             record_messages pair 1
           else mret tt);
      accept_peer_credit pair amount_sat peer_credit.
Definition settle_net (pair : Pair) (amount_sat due_ms : N) (peer_credit : gmap Pair N) : Pl (gmap Pair N) :=
  if decide (amount_sat = 0) then mret peer_credit
  else
    let reverse := (provider pair, payer pair) in
    let reverse_sat := default 0 (peer_credit !! reverse) in
    let peer_credit := delete reverse peer_credit in
    let reciprocal_sat := N.min amount_sat reverse_sat in
    _ ← settle_reverse pair reciprocal_sat;
    let reverse_remaining_sat := reverse_sat - reciprocal_sat in
    let peer_credit := if decide (0 < reverse_remaining_sat)
                       then <[reverse := reverse_remaining_sat]> peer_credit else peer_credit in
    settle_remaining pair (amount_sat - reciprocal_sat) due_ms peer_credit.
Definition batch_window (peer_credit : gmap Pair N) (w : Window * (N * N)) : Pl (gmap Pair N) :=
  let '((due_ms, (low, high)), totals) := w in
  _ ← settle_offset low high (N.min totals.1 totals.2);
  let net := net_of low high totals in
  settle_net net.1 net.2 due_ms peer_credit.
Definition batch_left (d : Pair * N) : Pl unit :=
  _ ← bump peer_credit_outstanding_sat d.2;
  outstanding_sat ← record_unpaid d.1 d.2;
  defaults ← panic_unless (payer_will_default (payer d.1));
  record_provider_exposure outstanding_sat defaults.
Definition plan_accepted_mint_batch (workload : PricedWorkload) : option IncentiveReport :=
  planned workload
    (reciprocal ← pl_fold net_one ∅ (batches (pw_obligations workload) (ic_batch_interval_ms config));
     peer_credit ← pl_fold batch_window ∅ (windows reciprocal);
     pse_iter batch_left (pair_bindings peer_credit)).
End plan.

(** An answer, or a panic. *)
Definition plan_incentive_strategy (report : SimulationReport) (config : IncentiveConfig)
    (strategy : IncentiveStrategy) : option (result IncentiveError IncentiveReport) :=
  match validate_inputs report config with
  | Err e => Some (Err e)
  | Ok _ =>
      workload ← price_records (sr_verified_delivery_records report) (ic_bytes_per_sat config);
      let roles := sr_node_roles report in
      planned ← match strategy with
                | DirectVerifiedCashu => plan_direct strategy roles config workload
                | OfflinePeerCredit => plan_peer_credit strategy roles config workload
                | FixedPrepaidCashu => plan_fixed_prepay strategy roles config workload
                | IncrementalSpilman => plan_spilman strategy roles config workload
                | AcceptedMintBatch => plan_accepted_mint_batch strategy roles config workload
                end;
      Some (Ok planned)
  end.
(** [collect]: the first error ends the iteration. *)
Definition compare_one (report : SimulationReport) (config : IncentiveConfig) (strategy : IncentiveStrategy)
    (rest : option (result IncentiveError (list IncentiveReport)))
    : option (result IncentiveError (list IncentiveReport)) :=
  match plan_incentive_strategy report config strategy with
  | None => None
  | Some (Err e) => Some (Err e)
  | Some (Ok planned) =>
      match rest with
      | Some (Ok reports) => Some (Ok (planned :: reports))
      | _ => rest
      end
  end.
Definition compare_incentive_strategies (report : SimulationReport) (config : IncentiveConfig)
    : option (result IncentiveError (list IncentiveReport)) :=
  foldr (compare_one report config) (Some (Ok [])) all_strategies.

(** ** What a report says *)
Section reports.
Implicit Types r : IncentiveReport.
Definition field (c : Counter) r : N := ir_counters r c.
Definition prepaid_value_is_conserved r : bool :=
  bool_decide (field fixed_prepay_paid_sat r =
    u64_sat_add (u64_sat_add (field fixed_prepay_used_sat r) (field fixed_prepay_unused_credit_sat r))
      (field buyer_counterparty_loss_sat r)).
Definition channel_value_is_conserved r : bool :=
  bool_decide (field channel_capacity_sat r =
    u64_sat_add (field channel_signed_balance_sat r) (field channel_unused_capacity_sat r)) &&
  bool_decide (field channel_unused_capacity_sat r =
    u64_sat_add (field channel_refunded_sat r) (field refund_loss_sat r)).

Definition MAX_RECOMMENDED_PAYMENT_OVERHEAD_BASIS_POINTS : N := 500.
Definition MIN_RECOMMENDED_SETTLEMENT_BASIS_POINTS : N := 9500.
Definition meets_settlement_goal r : bool :=
  bool_decide (MIN_RECOMMENDED_SETTLEMENT_BASIS_POINTS ≤ field honest_earned_settled_by_deadline_basis_points r).
Definition meets_payment_overhead_goal r : bool :=
  bool_decide (field payment_byte_overhead_basis_points r ≤ MAX_RECOMMENDED_PAYMENT_OVERHEAD_BASIS_POINTS).
Definition meets_strategy_selection_gate r : bool := meets_settlement_goal r && meets_payment_overhead_goal r.

Definition is_one_shot_strategy (s : IncentiveStrategy) : bool :=
  match s with DirectVerifiedCashu | OfflinePeerCredit | AcceptedMintBatch => true | _ => false end.
Definition counterparty_loss r : N :=
  u64_sat_add (u64_sat_add (field buyer_counterparty_loss_sat r) (field provider_default_loss_sat r))
    (field refund_loss_sat r).
Definition total_fees r : N :=
  u64_sat_add (u64_sat_add (field modeled_fees_sat r) (field channel_open_fees_sat r))
    (field channel_close_fees_sat r).
(** Tuples compare from the left. *)
Definition by_fields (fs : list (IncentiveReport → N)) : IncentiveReport → IncentiveReport → comparison :=
  foldr (λ f rest, cmp_then (cmp_on f N.compare) rest) (λ _ _, Eq) fs.
Definition one_shot_score : IncentiveReport → IncentiveReport → comparison :=
  by_fields [field authorization_denied_sat; field unpaid_exposure_sat; field payment_bytes; counterparty_loss].
Definition streaming_score : IncentiveReport → IncentiveReport → comparison :=
  by_fields [λ r, N.max (field buyer_prepaid_exposure_sat r) (field provider_unpaid_exposure_sat r);
             counterparty_loss; field locked_capital_sat_ms; total_fees; field payment_bytes].
Definition fallback_score : IncentiveReport → IncentiveReport → comparison :=
  cmp_then (cmp_on (λ r, negb (meets_settlement_goal r)) bool_compare)
    (cmp_then (cmp_on (λ r, negb (meets_payment_overhead_goal r)) bool_compare) one_shot_score).
(** [Iterator::min_by_key]: the first of the least. *)
Definition min_by {A} (cmp : A → A → comparison) (l : list A) : option A := head (sort_by cmp l).
Definition recommend_incentive_strategy (reports : list IncentiveReport) (use_case : IncentiveUseCase)
    : option IncentiveReport :=
  match use_case with
  | VerifiedOneShot =>
      let one_shot := filter (λ r, ir_use_case r = use_case ∧ is_one_shot_strategy (ir_strategy r) = true) reports in
      match min_by one_shot_score (filter (λ r, meets_strategy_selection_gate r = true) one_shot) with
      | Some r => Some r
      | None => min_by fallback_score one_shot
      end
  | UntrustedStreaming =>
      min_by streaming_score (filter (λ r, ir_use_case r = use_case ∧ meets_settlement_goal r = true) reports)
  end.
End reports.
