(* ===== verification/IncentivesBooks.v ===== *)
(** * The simulator: the books of an incentive plan

    Pricing loses no byte, and the operations of Incentives.v and the
    strategies built from them keep a plan's books: [sound] is the invariant,
    [kept] what each step preserves. *)

From S2P Require Export Incentives.

(** ** Sums over the bindings of a map *)
Section ksum.
Context `{Countable K} {V : Type} (f : K → V → N).
Implicit Types m : gmap K V.
Definition ksum m : N := sum_by (λ kv, f kv.1 kv.2) (map_to_list m).
Lemma ksum_empty : ksum ∅ = 0.
Proof. unfold ksum. by rewrite map_to_list_empty. Qed.
Lemma ksum_insert_new m k v : m !! k = None → ksum (<[k:=v]> m) = f k v + ksum m.
Proof. intros. unfold ksum. by rewrite map_to_list_insert. Qed.
Lemma ksum_delete m k : ksum m = from_option (f k) 0 (m !! k) + ksum (delete k m).
Proof.
  destruct (m !! k) as [v|] eqn:E; simpl; [|by rewrite delete_id].
  rewrite <-(ksum_insert_new (delete k m) k v) by apply lookup_delete_eq. by rewrite insert_delete_id.
Qed.
Lemma ksum_insert m k v : ksum (<[k:=v]> m) + from_option (f k) 0 (m !! k) = f k v + ksum m.
Proof.
  rewrite (ksum_delete m k), <-insert_delete_eq, ksum_insert_new by apply lookup_delete_eq. lia.
Qed.
Lemma ksum_lookup m k : from_option (f k) 0 (m !! k) ≤ ksum m.
Proof. rewrite (ksum_delete m k). lia. Qed.
End ksum.
Definition vsum `{Countable K} (m : gmap K N) : N := ksum (λ _ v, v) m.
Lemma vsum_insert `{Countable K} (m : gmap K N) k v : vsum (<[k:=v]> m) + default 0 (m !! k) = v + vsum m.
Proof. pose proof (ksum_insert (λ _ v, v) m k v) as Hi. unfold vsum. by destruct (m !! k). Qed.
Lemma vsum_lookup `{Countable K} (m : gmap K N) k : default 0 (m !! k) ≤ vsum m.
Proof. pose proof (ksum_lookup (λ _ v, v) m k) as Hl. unfold vsum. by destruct (m !! k). Qed.

Lemma sum_by_fmap {A B} (f : B → N) (g : A → B) l : sum_by f (g <$> l) = sum_by (λ x, f (g x)) l.
Proof. induction l as [|x l IH]; [done|]. simpl. by f_equal. Qed.
Lemma checked_sum_ok l : sum_by id l ≤ u64_max → checked_sum l = Some (sum_by id l).
Proof. intros. unfold checked_sum. by case_decide. Qed.

(** ** Pricing *)
Definition pair_of (r : VerifiedDeliveryRecord) : Pair := (vd_receiver r, vd_provider r).
Definition pair_bytes (pair : Pair) (records : list VerifiedDeliveryRecord) : N :=
  sum_by (λ r, if decide (pair_of r = pair) then vd_payload_bytes r else 0) records.
Definition pair_value (pair : Pair) (obligations : list Obligation) : N :=
  sum_by (λ o, if decide (ob_pair o = pair) then ob_amount_sat o else 0) obligations.
Section pricing.
Context (bytes_per_sat : N) (Hrate : 0 < bytes_per_sat).
Record priced (done : list VerifiedDeliveryRecord) (p : Pricing) : Prop := {
  pd_bytes : pr_useful_bytes p = sum_by vd_payload_bytes done;
  pd_value : pr_useful_value_sat p = sum_by ob_amount_sat (pr_obligations p);
  pd_total : pr_useful_value_sat p * bytes_per_sat + vsum (pr_remainders p) = sum_by vd_payload_bytes done;
  pd_pair pair : pair_value pair (pr_obligations p) * bytes_per_sat + default 0 (pr_remainders p !! pair) =
    pair_bytes pair done;
  pd_less pair : default 0 (pr_remainders p !! pair) < bytes_per_sat;
}.
Lemma price_one_ok done p r :
  sum_by vd_payload_bytes done + vd_payload_bytes r ≤ u64_max → priced done p →
  priced (done ++ [r]) (price_one bytes_per_sat p r).
Proof.
  intros Hb [Hbytes Hval Htot Hpair Hless]. unfold price_one. fold (pair_of r).
  set (rest := default 0 (pr_remainders p !! pair_of r)).
  assert (rest ≤ vsum (pr_remainders p)) as Hrest.
  { apply vsum_lookup. }
  assert (u64_sat_add (pr_useful_bytes p) (vd_payload_bytes r) = sum_by vd_payload_bytes done + vd_payload_bytes r) as ->
    by (rewrite Hbytes; unfold u64_sat_add, sat_add; lia).
  assert (u64_sat_add rest (vd_payload_bytes r) = rest + vd_payload_bytes r) as ->
    by (unfold u64_sat_add, sat_add; lia).
  set (bytes := rest + vd_payload_bytes r).
  assert (bytes = bytes_per_sat * (bytes / bytes_per_sat) + bytes `mod` bytes_per_sat) as Hdiv by apply N.Div0.div_mod.
  assert (bytes `mod` bytes_per_sat < bytes_per_sat) as Hmod by (apply N.mod_lt; lia).
  set (amount := bytes / bytes_per_sat) in *. set (left := bytes `mod` bytes_per_sat) in *.
  assert (sum_by vd_payload_bytes (done ++ [r]) = sum_by vd_payload_bytes done + vd_payload_bytes r) as Hsum
    by (rewrite sum_by_app; simpl; lia).
  assert (vsum (<[pair_of r := left]> (pr_remainders p)) + rest = left + vsum (pr_remainders p)) as Hvs.
  { apply vsum_insert. }
  assert (∀ pair, pair_bytes pair (done ++ [r]) =
    pair_bytes pair done + (if decide (pair_of r = pair) then vd_payload_bytes r else 0)) as Hpb
    by (intros pair; unfold pair_bytes; rewrite sum_by_app; simpl; lia).
  assert (∀ pair, default 0 (<[pair_of r := left]> (pr_remainders p) !! pair) < bytes_per_sat) as Hless'.
  { intros pair. destruct (decide (pair_of r = pair)) as [<-|];
      [by rewrite lookup_insert_eq|by rewrite lookup_insert_ne]. }
  case_decide as Ea.
  - split; cbn [pr_useful_bytes pr_useful_value_sat pr_obligations pr_remainders]; [lia|lia| | |done].
    + rewrite Hsum. rewrite Ea in Hdiv. lia.
    + intros pair. rewrite Hpb, <-Hpair. case_decide as Ep.
      * subst pair. rewrite lookup_insert_eq. simpl. fold rest. rewrite Ea in Hdiv. lia.
      * rewrite lookup_insert_ne by done. lia.
  - assert (u64_sat_add (pr_useful_value_sat p) amount = pr_useful_value_sat p + amount) as ->.
    { unfold u64_sat_add, sat_add. apply N.min_l. transitivity (sum_by vd_payload_bytes (done ++ [r])); [|lia].
      assert (pr_useful_value_sat p ≤ pr_useful_value_sat p * bytes_per_sat) by nia.
      assert (amount ≤ bytes_per_sat * amount) by nia. lia. }
    split; cbn [pr_useful_bytes pr_useful_value_sat pr_obligations pr_remainders]; [lia| | | |done].
    + rewrite sum_by_app. simpl. lia.
    + rewrite Hsum. rewrite N.mul_add_distr_r. lia.
    + intros pair. rewrite Hpb, <-Hpair. unfold pair_value at 1. rewrite sum_by_app. fold (pair_value pair (pr_obligations p)).
      cbn [sum_by foldr ob_pair ob_amount_sat]. case_decide as Ep.
      * subst pair. rewrite lookup_insert_eq. cbn [default from_option id]. fold rest. rewrite !N.mul_add_distr_r. lia.
      * rewrite lookup_insert_ne by done. rewrite !N.mul_add_distr_r. lia.
Qed.
Lemma price_loop_ok records :
  sum_by vd_payload_bytes records ≤ u64_max → priced (sort_by delivery_compare records) (price_loop records bytes_per_sat).
Proof.
  intros Hb. unfold price_loop. rewrite <-(sort_by_perm delivery_compare records) in Hb. revert Hb.
  generalize (sort_by delivery_compare records). intros l.
  induction l as [|r l IH] using rev_ind; intros Hb.
  - split; cbn; [done|done| |done|]; [by unfold vsum; rewrite ksum_empty|]. intros pair. by rewrite lookup_empty.
  - rewrite foldl_app. simpl. rewrite sum_by_app in Hb. simpl in Hb. apply price_one_ok; [lia|]. apply IH. lia.
Qed.
End pricing.

(** ** The books of a plan *)
(** The counters that carry value. *)
Definition money (c : Counter) : bool :=
  match c with
  | honest_earned_sat | honest_settled_by_deadline_sat | authorization_denied_sat
  | buyer_prepaid_exposure_sat | fixed_prepay_paid_sat | fixed_prepay_used_sat | fixed_prepay_unused_credit_sat
  | buyer_counterparty_loss_sat | provider_unpaid_exposure_sat | max_pair_peer_credit_sat
  | channel_capacity_sat | channel_signed_balance_sat | channel_unused_capacity_sat | channel_refunded_sat
  | refund_loss_sat => true
  | _ => false
  end.
Lemma set_same c v m : set_counter c v m c = v.
Proof. unfold set_counter. by rewrite decide_True. Qed.
Lemma set_other c c' v m : c' ≠ c → set_counter c v m c' = m c'.
Proof. intros. unfold set_counter. by rewrite decide_False. Qed.
(** Evaluate the counters of a goal. *)
Ltac counters :=
  repeat match goal with
  | |- context [set_counter ?c ?v ?m ?c] => rewrite (set_same c v m)
  | |- context [set_counter ?c ?v ?m ?c'] => rewrite (set_other c c' v m) by discriminate
  end.

Section books.
Context (strategy : IncentiveStrategy) (roles : list NodeRole) (config : IncentiveConfig).
Notation size_ := (length roles).
Definition pair_in (pair : Pair) : Prop := (payer pair < size_)%nat ∧ (provider pair < size_)%nat.
Record plan_wf (p : Plan) : Prop := {
  pw_entries : length (pl_state_entries p) = size_;
  pw_messages : length (pl_endpoint_messages p) = size_;
  pw_bytes : length (pl_endpoint_bytes p) = size_;
}.
(** The plan's value counters are [m]'s, and it remembers [u] unpaid. *)
Definition books (m : Counters) (u : gmap Pair N) (p : Plan) : Prop :=
  plan_wf p ∧ (∀ c, money c = true → pl_counters p c = m c) ∧ pl_unpaid_by_pair p = u.
Notation trip P c Q := (pse_triple (E:=Empty_set) P c Q (λ _, True)).
(** Work that leaves the books as they are, and does not panic. *)
Definition quiet {A} (c : Pl A) : Prop := ∀ m u, trip (books m u) c (λ _, books m u).

Lemma quiet_ret {A} (a : A) : quiet (mret a).
Proof. intros m u. by apply triple_ret. Qed.
Lemma quiet_bind {A B} (c : Pl A) (f : A → Pl B) : quiet c → (∀ a, quiet (f a)) → quiet (c ≫= f).
Proof. intros Hc Hf m u. eapply triple_bind; [apply Hc|]. intros a. apply Hf. Qed.
Lemma quiet_iter {A} (f : A → Pl unit) l : (∀ x, x ∈ l → quiet (f x)) → quiet (pse_iter f l).
Proof. intros Hf m u. apply triple_iter. intros x Hx. by apply Hf. Qed.
Lemma quiet_put c v : money c = false → quiet (put_counter c v).
Proof.
  intros Hc m u. apply triple_modify. intros p ([? ? ?] & Hm & Hu). split_and!; [by split| |done].
  intros c' Hc'. cbn. rewrite set_other; [by apply Hm|congruence].
Qed.
Lemma quiet_bump c n : money c = false → quiet (bump c n).
Proof. intros Hc. apply (quiet_bind (get_counter c)); [by intros m u p|]. intros old. by apply quiet_put. Qed.
Lemma quiet_raise c n : money c = false → quiet (raise c n).
Proof. intros Hc. apply (quiet_bind (get_counter c)); [by intros m u p|]. intros old. by apply quiet_put. Qed.
Lemma bump_books c n m u :
  money c = true → trip (books m u) (bump c n) (λ _, books (set_counter c (u64_sat_add (m c) n) m) u).
Proof.
  intros Hc p ([? ? ?] & Hm & Hu). unfold bump, raise, get_counter, put_counter, pse_modify, mbind, pse_bind.
  rewrite (Hm c Hc). split_and!; [by split| |done].
  intros c' Hc'. cbn. unfold set_counter. case_decide; [done|by apply Hm].
Qed.
Lemma raise_books c n m u :
  money c = true → trip (books m u) (raise c n) (λ _, books (set_counter c (N.max (m c) n) m) u).
Proof.
  intros Hc p ([? ? ?] & Hm & Hu). unfold bump, raise, get_counter, put_counter, pse_modify, mbind, pse_bind.
  rewrite (Hm c Hc). split_and!; [by split| |done].
  intros c' Hc'. cbn. unfold set_counter. case_decide; [done|by apply Hm].
Qed.
Lemma bind_panic {A B} (o : option A) (a : A) (f : A → Pl B) P Q R :
  o = Some a → pse_triple P (f a) Q R → pse_triple P (panic_unless o ≫= f) Q R.
Proof. intros -> Hf s Hs. apply (Hf s Hs). Qed.

Lemma triple_pure {A} (φ : Prop) (P : Plan → Prop) (c : Pl A) Q :
  (φ → trip P c Q) → trip (λ p, φ ∧ P p) c Q.
Proof. intros Hc p [Hφ Hp]. by apply (Hc Hφ). Qed.

Lemma add_at_ok i n (v : list N) : (i < length v)%nat → ∃ v', add_at i n v = Some v' ∧ length v' = length v.
Proof.
  intros Hi. unfold add_at. apply lookup_lt_is_Some in Hi as [x ->]. simpl. eexists. split; [done|].
  by rewrite length_insert.
Qed.
Lemma quiet_state pair : pair_in pair → quiet (record_state pair).
Proof.
  intros [Hp Hv] m u p ([He Hm Hb] & Hmon & Hu). unfold record_state.
  destruct (add_at_ok (payer pair) 1 (pl_state_entries p)) as (v & -> & Hlen); [by rewrite He|]. simpl.
  destruct (add_at_ok (provider pair) 1 v) as (v' & -> & Hlen'); [by rewrite Hlen, He|]. simpl.
  split_and!; [split; cbn; congruence|done|done].
Qed.
Lemma quiet_endpoint pair a b : pair_in pair → quiet (endpoint_traffic pair a b).
Proof.
  intros [Hp Hv] m u p ([He Hm Hb] & Hmon & Hu). unfold endpoint_traffic.
  destruct (add_at_ok (payer pair) a (pl_endpoint_messages p)) as (v & -> & Hl); [by rewrite Hm|]. simpl.
  destruct (add_at_ok (provider pair) a v) as (v' & -> & Hl'); [by rewrite Hl, Hm|]. simpl.
  destruct (add_at_ok (payer pair) b (pl_endpoint_bytes p)) as (w & -> & Hw); [by rewrite Hb|]. simpl.
  destruct (add_at_ok (provider pair) b w) as (w' & -> & Hw'); [by rewrite Hw, Hb|]. simpl.
  split_and!; [split; cbn; congruence|done|done].
Qed.
Lemma quiet_traffic pair a b : pair_in pair → quiet (record_endpoint_traffic pair a b).
Proof.
  intros Hp. apply quiet_bind; [by apply quiet_bump|]. intros _. apply quiet_bind; [by apply quiet_bump|]. intros _.
  by apply quiet_endpoint.
Qed.
Lemma quiet_messages pair n : pair_in pair → quiet (record_messages config pair n).
Proof. intros Hp. by apply quiet_traffic. Qed.
Lemma quiet_discovery pair : pair_in pair → quiet (record_mint_discovery_pair config pair).
Proof.
  intros Hp. apply (quiet_bind (insert_discovery pair)).
  { intros m u p ([? ? ?] & ? & ?). by split_and!. }
  intros []; [|apply quiet_ret]. simpl.
  apply quiet_bind; [by apply quiet_bump|]. intros _. apply quiet_bind; [by apply quiet_bump|]. intros _.
  by apply quiet_traffic.
Qed.
Lemma quiet_attempts retries pair due phase sequence :
  pair_in pair → quiet (try_attempts strategy config retries pair due phase sequence).
Proof.
  intros Hp. induction retries as [|retry retries IH]; cbn [try_attempts]; [apply quiet_ret|].
  case_decide; [apply quiet_ret|]. apply quiet_bind; [by apply quiet_bump|]. intros _.
  apply quiet_bind; [case_decide; [by apply quiet_bump|apply quiet_ret]|]. intros _.
  apply quiet_bind; [by apply quiet_messages|]. intros _. destruct (payment_is_out _ _ _ _ _ _ _); [done|apply quiet_ret].
Qed.
Lemma quiet_settlement pair due phase : pair_in pair → quiet (try_settlement strategy config pair due phase).
Proof.
  intros Hp. apply quiet_bind; [by apply quiet_discovery|]. intros _. apply (quiet_bind next_sequence).
  { intros m u p ([? ? ?] & ? & ?). by split_and!. }
  intros sequence. by apply quiet_attempts.
Qed.
Lemma quiet_route pair : quiet (record_route_settlement config pair).
Proof.
  unfold record_route_settlement. destruct (mint_route config pair);
    (apply quiet_bind; [by apply quiet_bump|]; intros _; by apply quiet_bump).
Qed.
Lemma quiet_public : quiet (record_public_mint_discovery roles config).
Proof.
  unfold record_public_mint_discovery. case_decide; [|apply quiet_ret].
  apply quiet_iter. intros i Hi%elem_of_seq. apply quiet_iter. intros j Hj%elem_of_seq.
  case_decide; [apply quiet_ret|]. apply quiet_discovery. split; simpl; lia.
Qed.
Lemma default_known i : (i < size_)%nat → ∃ d, payer_will_default roles config i = Some d.
Proof.
  intros Hi. unfold payer_will_default. apply lookup_lt_is_Some in Hi as [r ->]. simpl.
  case_decide; eauto.
Qed.
Lemma honest_known i j : (j < size_)%nat → ∃ h, provider_is_honest roles (i, j) = Some h.
Proof. intros Hj. unfold provider_is_honest. apply lookup_lt_is_Some in Hj as [r Hr]. simpl. rewrite Hr. simpl. eauto. Qed.
Lemma failure_known pair : pair_in pair → ∃ f, provider_will_fail roles config pair = Some f.
Proof.
  intros [_ Hj]. unfold provider_will_fail. case_decide; [|eauto].
  apply lookup_lt_is_Some in Hj as [r ->]. simpl. case_decide; eauto.
Qed.
Lemma quiet_fakes : quiet (add_fake_claim_pressure roles config).
Proof.
  unfold add_fake_claim_pressure, honest_position.
  destruct (list_find _ roles) as [[target role]|] eqn:Ef; [|apply quiet_ret].
  apply list_find_Some in Ef as (Ht & _ & _). apply lookup_lt_Some in Ht. simpl.
  apply quiet_iter. intros [attacker r] Hin. apply elem_of_lookup_imap in Hin as (i & x & [= -> ->] & Hx).
  apply lookup_lt_Some in Hx. case_decide; [|apply quiet_ret].
  apply quiet_bind; [by apply quiet_bump|]. intros _. apply quiet_bind; [by apply quiet_bump|]. intros _.
  by apply quiet_messages.
Qed.

(** *** Effects *)
Definition plus (c : Counter) (b : bool) (n : N) (m : Counters) : Counters :=
  if b then set_counter c (u64_sat_add (m c) n) m else m.
Lemma earn_books pair h n m u :
  provider_is_honest roles pair = Some h → trip (books m u) (earn roles pair n) (λ _, books (plus honest_earned_sat h n m) u).
Proof. intros Hh. eapply bind_panic; [exact Hh|]. destruct h; [by apply bump_books|by apply triple_ret]. Qed.
Lemma settled_books pair h n m u :
  provider_is_honest roles pair = Some h →
  trip (books m u) (mark_settled roles pair n) (λ _, books (plus honest_settled_by_deadline_sat h n m) u).
Proof. intros Hh. eapply bind_panic; [exact Hh|]. destruct h; [by apply bump_books|by apply triple_ret]. Qed.
Lemma exposure_books n lost m u :
  trip (books m u) (record_provider_exposure n lost)
    (λ _, books (set_counter provider_unpaid_exposure_sat (N.max (m provider_unpaid_exposure_sat) n) m) u).
Proof.
  eapply triple_bind; [by apply raise_books|]. intros [].
  destruct lost; [by apply quiet_bump|by apply triple_ret].
Qed.
Lemma unpaid_books pair n m u :
  pair_in pair → trip (books m u) (record_unpaid roles config pair n)
    (λ out p, out = u64_sat_add (default 0 (u !! pair)) n ∧ books m (<[pair := out]> u) p).
Proof.
  intros [Hp _]. destruct (default_known _ Hp) as [d Hd]. eapply bind_panic; [exact Hd|].
  eapply triple_bind with (Q' := λ out p, out = u64_sat_add (default 0 (u !! pair)) n ∧ books m (<[pair := out]> u) p).
  { intros p ([? ? ?] & Hm & <-). cbn. by split_and!. }
  intros out. apply triple_pure. intros ->.
  eapply triple_bind; [by apply quiet_bump|]. intros []. eapply triple_bind; [by apply quiet_raise|]. intros [].
  eapply triple_bind; [destruct d; [by apply quiet_bump|apply quiet_ret]|]. intros []. by apply triple_ret.
Qed.

(** *** What the books keep *)
(** What a buyer risks by paying first, a provider by serving first, and how
    much credit a pair may owe. *)
Definition buyer_limit : N := match strategy with FixedPrepaidCashu => ic_fixed_prepay_sat config | _ => 0 end.
Definition provider_limit : option N :=
  match strategy with
  | DirectVerifiedCashu => None
  | OfflinePeerCredit | AcceptedMintBatch => Some (ic_offline_credit_cap_sat config)
  | FixedPrepaidCashu => Some 0
  | IncrementalSpilman => Some (ic_spilman_update_sat config)
  end.
Definition credit_limit : N := match strategy with AcceptedMintBatch => ic_offline_credit_cap_sat config | _ => 0 end.
Definition within (x : N) (limit : option N) : Prop := match limit with Some l => x ≤ l | None => True end.
(** After serving [spent], with [extra] earned by honest providers and not
    settled yet. *)
Record sound (spent extra : N) (m : Counters) : Prop := {
  so_earned_max : m honest_earned_sat ≤ u64_max;
  so_settled_max : m honest_settled_by_deadline_sat ≤ u64_max;
  so_settled : N.min (m honest_settled_by_deadline_sat + extra) u64_max ≤ m honest_earned_sat;
  so_spent : m honest_earned_sat + m authorization_denied_sat ≤ spent;
  so_prepaid : m fixed_prepay_paid_sat = u64_max ∨
    m fixed_prepay_paid_sat = m fixed_prepay_used_sat + m fixed_prepay_unused_credit_sat + m buyer_counterparty_loss_sat ∧
    m fixed_prepay_paid_sat ≤ u64_max;
  so_channel : m channel_capacity_sat = u64_max ∨
    m channel_capacity_sat = m channel_signed_balance_sat + m channel_unused_capacity_sat ∧
    m channel_unused_capacity_sat = m channel_refunded_sat + m refund_loss_sat ∧ m channel_capacity_sat ≤ u64_max;
  so_buyer : m buyer_prepaid_exposure_sat ≤ buyer_limit;
  so_provider : within (m provider_unpaid_exposure_sat) provider_limit;
  so_credit : m max_pair_peer_credit_sat ≤ credit_limit;
}.
Definition kept_with (u : gmap Pair N) (spent extra : N) (p : Plan) : Prop := ∃ m, books m u p ∧ sound spent extra m.
Definition kept (spent extra : N) (p : Plan) : Prop := ∃ u, kept_with u spent extra p.
Lemma kept_books {A} spent extra (c : Pl A) Q :
  (∀ m u, sound spent extra m → trip (books m u) c Q) → trip (kept spent extra) c Q.
Proof. intros Hc p (u & m & Hb & Hs). by apply (Hc m u Hs). Qed.
Lemma books_kept {A} (P : Plan → Prop) (c : Pl A) m u spent extra :
  trip P c (λ _, books m u) → sound spent extra m → trip P c (λ _, kept spent extra).
Proof. intros Hc Hs. eapply triple_conseq; [exact Hc|done| |done]. intros a p Hb. by exists u, m. Qed.
End books.

(** Chain the effects of work on the books. *)
Ltac quietly t := eapply triple_bind; [apply t; first [assumption|done]|]; intros ?.
Ltac book t := eapply triple_bind; [apply t; first [eassumption|reflexivity|done]|]; intros [].
Ltac settle_sound :=
  unfold plus; repeat match goal with |- context [if ?h then set_counter _ _ _ else _] => is_var h; destruct h end;
  split; counters; unfold u64_sat_add, sat_add in *; try done; cbn [within provider_limit buyer_limit credit_limit] in *;
  try done; lia.

Section strategies.
Context (roles : list NodeRole) (config : IncentiveConfig).
Notation trip P c Q := (pse_triple (E:=Empty_set) P c Q (λ _, True)).
Notation pair_in := (pair_in roles).

(** *** Direct payment *)
Section direct.
Notation books := (books roles).
Notation kept := (kept DirectVerifiedCashu roles config).
Lemma direct_one_kept o spent :
  pair_in (ob_pair o) →
  trip (kept spent 0) (direct_one DirectVerifiedCashu roles config o) (λ _, kept (spent + ob_amount_sat o) 0).
Proof.
  intros Hp. apply kept_books. intros m u Hs. unfold direct_one.
  destruct (ob_pair o) as [i j] eqn:Ep. destruct (honest_known roles i j (proj2 Hp)) as [h Hh].
  destruct (default_known roles config i (proj1 Hp)) as [d Hd].
  quietly (quiet_state roles). book (earn_books roles). book (exposure_books roles).
  eapply bind_panic; [exact Hd|]. destruct d.
  - unfold record_defaulted_settlement. quietly (quiet_discovery roles). quietly (quiet_messages roles).
    eapply triple_bind; [by apply unpaid_books|]. intros out. apply triple_pure. intros _. book (exposure_books roles).
    eapply books_kept; [by apply quiet_bump|]. destruct Hs. settle_sound.
  - eapply triple_bind; [by apply quiet_settlement|]. intros [].
    + unfold settle_with_route. quietly (quiet_route roles). eapply books_kept; [by apply settled_books|].
      destruct Hs. settle_sound.
    + quietly (quiet_bump roles).
      eapply triple_bind; [by apply unpaid_books|]. intros out. apply triple_pure. intros _.
      eapply books_kept; [by apply exposure_books|]. destruct Hs. settle_sound.
Qed.
End direct.

(** *** Fixed prepayment *)
Definition bumped (c : Counter) (n : N) (m : Counters) : Counters := set_counter c (u64_sat_add (m c) n) m.
Definition raised (c : Counter) (n : N) (m : Counters) : Counters := set_counter c (N.max (m c) n) m.
Definition prepaid (prepaid_sat used_sat : N) (lost : bool) (m : Counters) : Counters :=
  let m := bumped fixed_prepay_paid_sat prepaid_sat (raised buyer_prepaid_exposure_sat prepaid_sat m) in
  if lost then bumped buyer_counterparty_loss_sat prepaid_sat m
  else bumped fixed_prepay_unused_credit_sat (prepaid_sat - used_sat) (bumped fixed_prepay_used_sat used_sat m).
Lemma prepaid_books prepaid_sat used_sat lost m u :
  used_sat ≤ prepaid_sat →
  trip (books roles m u) (record_fixed_prepay prepaid_sat used_sat lost)
    (λ _, books roles (prepaid prepaid_sat used_sat lost m) u).
Proof.
  intros Hle. eapply bind_panic; [by rewrite decide_True|]. book (raise_books roles). book (bump_books roles).
  destruct lost; [by apply bump_books|]. book (bump_books roles). by apply bump_books.
Qed.
Lemma prepay_one_kept stream spent :
  pair_in (ps_pair stream) →
  trip (kept FixedPrepaidCashu roles config spent 0) (prepay_one FixedPrepaidCashu roles config stream)
    (λ _, kept FixedPrepaidCashu roles config (spent + ps_amount_sat stream) 0).
Proof.
  intros Hp. apply kept_books. intros m u Hs. unfold prepay_one.
  destruct (ps_pair stream) as [i j] eqn:Ep. destruct (honest_known roles i j (proj2 Hp)) as [h Hh].
  destruct (default_known roles config i (proj1 Hp)) as [d Hd].
  destruct (failure_known roles config (i, j) Hp) as [f Hf].
  quietly (quiet_state roles). eapply bind_panic; [exact Hd|]. destruct d.
  { unfold reject_unfunded. quietly (quiet_messages roles). eapply books_kept; [by apply bump_books|].
    destruct Hs. settle_sound. }
  eapply triple_bind; [by apply quiet_settlement|]. intros []; cycle 1.
  { eapply books_kept; [by apply bump_books|]. destruct Hs. settle_sound. }
  cbn [negb]. eapply bind_panic; [exact Hf|].
  eapply triple_bind; [apply prepaid_books; lia|]. intros []. book (bump_books roles). quietly (quiet_route roles).
  destruct f.
  - eapply books_kept; [by apply triple_ret|]. destruct Hs. unfold prepaid, bumped, raised. settle_sound.
  - book (earn_books roles). eapply books_kept; [by apply settled_books|]. destruct Hs.
    unfold prepaid, bumped, raised. settle_sound.
Qed.

(** *** Channels *)
Definition opened (capacity_sat signed_sat : N) (m : Counters) : Counters :=
  bumped channel_unused_capacity_sat (capacity_sat - signed_sat)
    (bumped channel_signed_balance_sat signed_sat (bumped channel_capacity_sat capacity_sat m)).
Lemma opened_books capacity_sat signed_sat lifetime_ms m u :
  signed_sat ≤ capacity_sat →
  trip (books roles m u) (record_channel_open config capacity_sat signed_sat lifetime_ms)
    (λ _, books roles (opened capacity_sat signed_sat m) u).
Proof.
  intros Hle. eapply bind_panic; [by rewrite decide_True|]. quietly (quiet_raise roles).
  book (bump_books roles). book (bump_books roles). book (bump_books roles).
  quietly (quiet_bump roles). by apply quiet_bump.
Qed.
Lemma refund_books (lost : bool) unused m u :
  trip (books roles m u) (if lost then record_refund_failure unused else record_channel_refund unused)
    (λ _, books roles (if lost then if decide (unused = 0) then m else bumped refund_loss_sat unused m
                       else bumped channel_refunded_sat unused m) u).
Proof.
  destruct lost; [|by apply bump_books]. unfold record_refund_failure. case_decide; [by apply triple_ret|].
  quietly (quiet_bump roles). by apply bump_books.
Qed.
Lemma channel_defaulted_kept stream spent m u h d :
  pair_in (ps_pair stream) → provider_is_honest roles (ps_pair stream) = Some h →
  payer_will_default roles config (payer (ps_pair stream)) = Some d →
  sound IncrementalSpilman config spent 0 m →
  trip (books roles m u) (channel_defaulted roles config stream (ic_spilman_prefund_sat config))
    (λ _, kept IncrementalSpilman roles config (spent + ps_amount_sat stream) 0).
Proof.
  intros Hp Hh Hd Hs. unfold channel_defaulted. book (earn_books roles). book (exposure_books roles).
  eapply triple_bind; [by apply unpaid_books|]. intros out. apply triple_pure. intros _.
  book (bump_books roles). quietly (quiet_route roles).
  eapply triple_bind; [apply opened_books; lia|]. intros [].
  quietly (quiet_messages roles). quietly (quiet_bump roles).
  eapply books_kept; [apply refund_books|].
  destruct Hs. unfold opened, bumped.
  destruct (refund_will_fail config (ps_pair stream)); [case_decide|]; settle_sound.
Qed.
Lemma channel_used_kept stream spent m u h f :
  pair_in (ps_pair stream) → provider_is_honest roles (ps_pair stream) = Some h →
  provider_will_fail roles config (ps_pair stream) = Some f →
  sound IncrementalSpilman config spent 0 m →
  trip (books roles m u) (channel_used IncrementalSpilman roles config stream (ic_spilman_prefund_sat config))
    (λ _, kept IncrementalSpilman roles config (spent + ps_amount_sat stream) 0).
Proof.
  intros Hp Hh Hf Hs. unfold channel_used. book (bump_books roles). book (earn_books roles). book (settled_books roles).
  quietly (quiet_route roles). eapply bind_panic; [exact Hf|].
  eapply triple_bind with (Q' := λ _, books roles _ u).
  { destruct f; [quietly (quiet_messages roles); by apply triple_ret|by apply quiet_settlement]. }
  intros closed. eapply triple_bind; [apply opened_books; lia|]. intros []. book (exposure_books roles).
  quietly (quiet_messages roles). quietly (quiet_bump roles).
  eapply books_kept; [apply refund_books|].
  destruct Hs. unfold opened, bumped.
  destruct ((f || negb closed) && refund_will_fail config (ps_pair stream)); [case_decide|]; settle_sound.
Qed.
Lemma spilman_one_kept stream spent :
  pair_in (ps_pair stream) →
  trip (kept IncrementalSpilman roles config spent 0) (spilman_one IncrementalSpilman roles config stream)
    (λ _, kept IncrementalSpilman roles config (spent + ps_amount_sat stream) 0).
Proof.
  intros Hp. apply kept_books. intros m u Hs. unfold spilman_one.
  assert (∃ h, provider_is_honest roles (ps_pair stream) = Some h) as [h Hh].
  { destruct (ps_pair stream) as [i j]. apply honest_known, Hp. }
  destruct (default_known roles config _ (proj1 Hp)) as [d Hd].
  destruct (failure_known roles config _ Hp) as [f Hf].
  quietly (quiet_state roles). eapply triple_bind; [by apply quiet_settlement|]. intros []; cycle 1.
  { eapply books_kept; [by apply bump_books|]. destruct Hs. settle_sound. }
  cbn [negb]. eapply bind_panic; [exact Hd|].
  destruct d; [by eapply channel_defaulted_kept|by eapply channel_used_kept].
Qed.
End strategies.

(** ** One effect at a time *)
Section effects.
Context (strategy : IncentiveStrategy) (roles : list NodeRole) (config : IncentiveConfig).
Notation trip P c Q := (pse_triple (E:=Empty_set) P c Q (λ _, True)).
Notation pair_in := (pair_in roles).
Notation kept_with := (kept_with strategy roles config).
Notation sound := (sound strategy config).
Implicit Types u : gmap Pair N.

Lemma kept_effect {A} u u' spent extra spent' extra' (c : Pl A) (Q : A → Prop) :
  (∀ m, sound spent extra m → ∃ m', sound spent' extra' m' ∧
    trip (books roles m u) c (λ a p, Q a ∧ books roles m' u' p)) →
  trip (kept_with u spent extra) c (λ a p, Q a ∧ kept_with u' spent' extra' p).
Proof.
  intros Hc p (m & Hb & Hs). destruct (Hc m Hs) as (m' & Hs' & Ht). specialize (Ht p Hb).
  destruct (c p) as [[[a|e] p']|]; [|done..]. destruct Ht as [HQ Hb']. split; [done|]. by exists m'.
Qed.
Lemma kept_quiet {A} u spent extra (c : Pl A) :
  quiet roles c → trip (kept_with u spent extra) c (λ _, kept_with u spent extra).
Proof.
  intros Hq p (m & Hb & Hs). specialize (Hq m u p Hb). destruct (c p) as [[[a|e] p']|]; [|done..]. by exists m.
Qed.
Lemma kept_to {A} u u' spent extra spent' extra' (c : Pl A) :
  (∀ m, sound spent extra m → ∃ m', sound spent' extra' m' ∧ trip (books roles m u) c (λ _, books roles m' u')) →
  trip (kept_with u spent extra) c (λ _, kept_with u' spent' extra').
Proof.
  intros Hc p (m & Hb & Hs). destruct (Hc m Hs) as (m' & Hs' & Ht). specialize (Ht p Hb).
  destruct (c p) as [[[a|e] p']|]; [|done..]. by exists m'.
Qed.
Lemma kept_weaken u spent extra spent' extra' p :
  spent ≤ spent' → extra' ≤ extra → kept_with u spent extra p → kept_with u spent' extra' p.
Proof.
  intros Hs He (m & Hb & Hok). exists m. split; [done|]. destruct Hok. split; try done; lia.
Qed.
Lemma earn_kept u spent extra pair h n :
  provider_is_honest roles pair = Some h →
  trip (kept_with u spent extra) (earn roles pair n) (λ _, kept_with u (spent + n) (extra + if h then n else 0)).
Proof.
  intros Hh. apply kept_to. intros m Hs. eexists. split; [|by apply earn_books].
  destruct Hs, h; split; unfold plus; counters; unfold u64_sat_add, sat_add; try done; lia.
Qed.
Lemma settle_kept u spent extra pair h n :
  provider_is_honest roles pair = Some h →
  trip (kept_with u spent (extra + if h then n else 0)) (mark_settled roles pair n) (λ _, kept_with u spent extra).
Proof.
  intros Hh. apply kept_to. intros m Hs. eexists. split; [|by apply settled_books].
  destruct Hs, h; split; unfold plus; counters; unfold u64_sat_add, sat_add; try done; lia.
Qed.
Lemma deny_kept u spent extra n :
  trip (kept_with u spent extra) (deny n) (λ _, kept_with u (spent + n) extra).
Proof.
  apply kept_to. intros m Hs. eexists. split; [|by apply bump_books].
  destruct Hs; split; counters; unfold u64_sat_add, sat_add; try done; lia.
Qed.
Lemma exposure_kept u spent extra n lost :
  within n (provider_limit strategy config) →
  trip (kept_with u spent extra) (record_provider_exposure n lost) (λ _, kept_with u spent extra).
Proof.
  intros Hn. apply kept_to. intros m Hs. eexists. split; [|by apply exposure_books].
  destruct Hs; split; counters; try done. unfold within in *. destruct (provider_limit _ _); [lia|done].
Qed.
Lemma credit_kept u spent extra n :
  n ≤ credit_limit strategy config →
  trip (kept_with u spent extra) (raise max_pair_peer_credit_sat n) (λ _, kept_with u spent extra).
Proof.
  intros Hn. apply kept_to. intros m Hs. eexists. split; [|by apply raise_books].
  destruct Hs; split; counters; try done. lia.
Qed.
Lemma unpaid_kept u spent extra pair n :
  pair_in pair →
  trip (kept_with u spent extra) (record_unpaid roles config pair n)
    (λ out p, out = u64_sat_add (default 0 (u !! pair)) n ∧ kept_with (<[pair := out]> u) spent extra p).
Proof.
  intros Hp p (m & Hb & Hs). pose proof (unpaid_books roles config pair n m u Hp p Hb) as Ht.
  destruct (record_unpaid roles config pair n p) as [[[out|e] p']|]; [|done..].
  destruct Ht as [? ?]. split; [done|]. by exists m.
Qed.
Lemma settle_offset_kept u spent extra low high offset :
  pair_in (low, high) →
  trip (kept_with u spent extra) (settle_offset roles low high offset) (λ _, kept_with u (spent + 2 * offset) extra).
Proof.
  intros [Hl Hh]. destruct (honest_known roles low high Hh) as [h Hhl], (honest_known roles high low Hl) as [h' Hhh].
  unfold settle_offset. case_decide.
  - eapply triple_bind; [by apply earn_kept|]. intros []. eapply triple_bind; [by apply earn_kept|]. intros [].
    eapply triple_bind with (Q' := λ _, kept_with u (spent + 2 * offset) (extra + if h' then offset else 0)).
    { eapply triple_pre; [by apply settle_kept|]. intros p. apply kept_weaken; [lia|]. destruct h, h'; lia. }
    intros []. eapply triple_bind; [by apply settle_kept|]. intros []. by apply kept_quiet, quiet_bump.
  - apply triple_ret. intros p. apply kept_weaken; lia.
Qed.
Lemma triple_fold {A X} (f : A → X → Pl A) (I : list X → A → Plan → Prop) l a :
  (∀ done a x, x ∈ l → trip (I done a) (f a x) (λ a', I (done ++ [x]) a')) →
  trip (I [] a) (pl_fold f a l) (λ a', I l a').
Proof.
  intros Hf. enough (∀ done a, trip (I done a) (pl_fold f a l) (λ a', I (done ++ l) a')) as H by apply (H []).
  clear a. induction l as [|x l IH]; intros done a; cbn [pl_fold].
  { apply triple_ret. by rewrite app_nil_r. }
  eapply triple_bind; [apply Hf; left|]. intros a'. cbn beta.
  replace (done ++ x :: l) with ((done ++ [x]) ++ l) by (by rewrite <-app_assoc).
  apply IH. intros; apply Hf; by right.
Qed.
End effects.

Section credit.
Context (roles : list NodeRole) (config : IncentiveConfig).
Notation trip P c Q := (pse_triple (E:=Empty_set) P c Q (λ _, True)).
Notation pair_in := (pair_in roles).
Notation cap := (ic_offline_credit_cap_sat config).
Implicit Types (u : gmap Pair N) (credit : gmap Pair N).

(** Every balance is of a pair of nodes, and within the cap. *)
Definition credit_ok credit : Prop := ∀ pair d, credit !! pair = Some d → pair_in pair ∧ d ≤ cap.
Lemma credit_ok_default credit pair : credit_ok credit → default 0 (credit !! pair) ≤ cap.
Proof. intros Hc. destruct (credit !! pair) eqn:E; simpl; [by eapply Hc|lia]. Qed.
Lemma credit_ok_insert credit pair d : credit_ok credit → pair_in pair → d ≤ cap → credit_ok (<[pair := d]> credit).
Proof. intros Hc ? ? pair' d' [[<- <-]|[_ ?]]%lookup_insert_Some; [done|by apply Hc]. Qed.
Lemma credit_ok_delete credit pair : credit_ok credit → credit_ok (delete pair credit).
Proof. intros Hc pair' d' [_ ?]%lookup_delete_Some. by apply Hc. Qed.
Lemma net_of_spec low high totals :
  pair_in (low, high) →
  pair_in (net_of low high totals).1 ∧
  2 * N.min totals.1 totals.2 + (net_of low high totals).2 = totals.1 + totals.2.
Proof. intros [? ?]. unfold net_of. case_decide; simpl; (split; [done|lia]). Qed.
Definition window_in (w : Window * (N * N)) : Prop := pair_in w.1.2.
Notation amounts := (sum_by (λ w : Window * (N * N), w.2.1 + w.2.2)).

(** *** Credit that a payment settles *)
Section peer_credit.
Notation kept_with := (kept_with OfflinePeerCredit roles config).
Definition honest_owed (pair : Pair) (d : N) : N :=
  match provider_is_honest roles pair with Some true => d | _ => 0 end.
Notation owed := (ksum honest_owed).
Lemma credit_window_kept u spent credit w :
  window_in w → credit_ok credit →
  trip (kept_with u spent (owed credit)) (credit_window OfflinePeerCredit roles config credit w)
    (λ credit' p, credit_ok credit' ∧ kept_with u (spent + (w.2.1 + w.2.2)) (owed credit') p).
Proof.
  destruct w as [[due [low high]] totals]. unfold window_in. cbn [fst snd]. intros Hw Hc. unfold credit_window.
  destruct (net_of_spec low high totals Hw) as [Hp Hsum]. set (pair := (net_of low high totals).1) in *.
  set (amount := (net_of low high totals).2) in *.
  eapply triple_bind; [by apply settle_offset_kept|]. intros []. cbn zeta. case_decide as Ea.
  { apply triple_ret. intros p Hk. split; [done|]. revert Hk. apply kept_weaken; lia. }
  assert (∃ h, provider_is_honest roles pair = Some h) as [h Hh].
  { destruct pair as [i j]. apply honest_known, Hp. }
  destruct (default_known roles config _ (proj1 Hp)) as [d Hd].
  pose proof (credit_ok_default credit pair Hc) as Hdebt.
  set (debt := default 0 (credit !! pair)) in *. set (admitted := N.min amount (cap - debt)).
  set (debt_now := u64_sat_add debt admitted). set (credit' := <[pair := debt_now]> credit).
  assert (debt_now ≤ debt + admitted) as Hnow by (unfold debt_now, u64_sat_add, sat_add; lia).
  assert (credit_ok credit') as Hc' by (apply credit_ok_insert; [done|done|unfold admitted in *; lia]).
  assert (owed credit' ≤ owed credit + if h then admitted else 0) as Howed.
  { pose proof (ksum_insert honest_owed credit pair debt_now) as Hi. fold credit' in Hi.
    unfold honest_owed at 2 3 in Hi. rewrite Hh in Hi. unfold debt in *.
    destruct h, (credit !! pair); simpl in *; lia. }
  eapply triple_bind; [apply exposure_kept; simpl; unfold admitted in *; lia|]. intros [].
  eapply triple_bind; [by apply earn_kept|]. intros []. eapply triple_bind; [apply deny_kept|]. intros [].
  eapply bind_panic; [exact Hd|].
  assert (∀ p, kept_with u (spent + 2 * N.min totals.1 totals.2 + admitted + (amount - admitted))
    (owed credit + (if h then admitted else 0)) p → kept_with u (spent + (totals.1 + totals.2)) (owed credit') p) as Hw'.
  { intros p. apply kept_weaken; [unfold admitted in *; lia|done]. }
  destruct d.
  { eapply triple_bind; [by apply kept_quiet, quiet_messages|]. intros []. apply triple_ret. auto. }
  case_decide; [|apply triple_ret; auto].
  eapply triple_bind; [by apply kept_quiet, quiet_settlement|]. intros []; [|apply triple_ret; auto].
  eapply triple_bind with (Q' := λ _, kept_with u (spent + (totals.1 + totals.2)) (owed (delete pair credit'))).
  { unfold settle_with_route. eapply triple_bind; [apply kept_quiet, quiet_route|]. intros [].
    eapply triple_pre; [by apply settle_kept|]. intros p Hk. apply Hw' in Hk. revert Hk. apply kept_weaken; [done|].
    rewrite (ksum_delete honest_owed credit' pair). unfold credit'. rewrite lookup_insert_eq. simpl.
    unfold honest_owed at 2. rewrite Hh. destruct h; lia. }
  intros []. apply triple_ret. intros p Hk. split; [by apply credit_ok_delete|done].
Qed.
Lemma credit_left_kept u spent pair d :
  pair_in pair → d ≤ cap →
  trip (kept_with u spent 0) (credit_left roles config (pair, d)) (λ _, kept OfflinePeerCredit roles config spent 0).
Proof.
  intros Hp Hd. unfold credit_left. destruct (default_known roles config _ (proj1 Hp)) as [b Hb].
  eapply bind_panic; [exact Hb|]. eapply triple_bind; [by apply exposure_kept|]. intros [].
  eapply triple_bind; [by apply unpaid_kept|]. intros out. apply triple_ret. intros p [_ Hk]. by eexists.
Qed.
End peer_credit.

(** *** Credit settled as it is accepted *)
Section batch.
Notation kept_with := (kept_with AcceptedMintBatch roles config).
(** What defaulting payers owe honest providers. *)
Definition default_owed (pair : Pair) (d : N) : N :=
  match payer_will_default roles config (payer pair), provider_is_honest roles pair with
  | Some true, Some true => d
  | _, _ => 0
  end.
Notation owed := (ksum default_owed).
Lemma default_owed_le pair d d' : d ≤ d' → default_owed pair d ≤ default_owed pair d'.
Proof. unfold default_owed. intros. by repeat case_match. Qed.
Lemma owed_delete credit pair : owed credit = default_owed pair (default 0 (credit !! pair)) + owed (delete pair credit).
Proof.
  rewrite (ksum_delete default_owed credit pair). destruct (credit !! pair); simpl; [done|].
  unfold default_owed. by repeat case_match.
Qed.
Lemma owed_insert credit pair d :
  owed (<[pair := d]> credit) + default_owed pair (default 0 (credit !! pair)) = default_owed pair d + owed credit.
Proof.
  pose proof (ksum_insert default_owed credit pair d) as Hi. destruct (credit !! pair); simpl in *; [done|].
  rewrite <-Hi. f_equal. unfold default_owed. by repeat case_match.
Qed.
Lemma accept_credit_kept u spent credit pair amount :
  pair_in pair → credit_ok credit →
  trip (kept_with u spent (owed credit)) (accept_peer_credit roles config pair amount credit)
    (λ credit' p, credit_ok credit' ∧ kept_with u (spent + amount) (owed credit') p).
Proof.
  intros Hp Hc. unfold accept_peer_credit.
  assert (∃ h, provider_is_honest roles pair = Some h) as [h Hh].
  { destruct pair as [i j]. apply honest_known, Hp. }
  destruct (default_known roles config _ (proj1 Hp)) as [d Hd].
  pose proof (credit_ok_default credit pair Hc) as Hbal. pose proof (owed_insert credit pair) as Hi.
  set (old := default 0 (credit !! pair)) in *. set (admitted := N.min amount (cap - old)).
  set (balance := u64_sat_add old admitted).
  assert (balance ≤ old + admitted) as Hnow by (unfold balance, u64_sat_add, sat_add; lia).
  assert (balance ≤ cap) as Hcap by (unfold admitted in *; lia).
  assert (owed (<[pair := balance]> credit) ≤ owed credit + if h && d then admitted else 0) as Howed.
  { specialize (Hi balance). unfold default_owed in Hi at 2 3. rewrite Hd, Hh in Hi. destruct d, h; simpl in *; lia. }
  eapply triple_bind; [by apply kept_quiet, quiet_bump|]. intros [].
  eapply triple_bind; [apply credit_kept; exact Hcap|]. intros [].
  eapply triple_bind; [apply exposure_kept; exact Hcap|]. intros [].
  eapply triple_bind; [by apply earn_kept|]. intros []. eapply bind_panic; [exact Hd|].
  eapply triple_bind with (Q' := λ _, kept_with u (spent + admitted) (owed (<[pair := balance]> credit))).
  { destruct d; cbn [negb].
    - apply triple_ret. intros p. apply kept_weaken; [done|]. by rewrite andb_true_r in Howed.
    - eapply triple_pre; [by apply settle_kept|]. intros p. apply kept_weaken; [done|].
      rewrite andb_false_r in Howed. lia. }
  intros []. eapply triple_bind; [apply deny_kept|]. intros []. apply triple_ret. intros p Hk.
  split; [by apply credit_ok_insert|]. revert Hk. apply kept_weaken; [unfold admitted in *; lia|done].
Qed.
Lemma settle_reverse_kept u spent extra pair reciprocal d h h' :
  provider_is_honest roles pair = Some h → provider_is_honest roles (provider pair, payer pair) = Some h' →
  payer_will_default roles config (provider pair) = Some d →
  trip (kept_with u spent (extra + if h' && d then reciprocal else 0)) (settle_reverse roles config pair reciprocal)
    (λ _, kept_with u (spent + reciprocal) extra).
Proof.
  intros Hh Hh' Hd. unfold settle_reverse. case_decide as Er.
  - eapply triple_bind; [by apply earn_kept|]. intros [].
    eapply triple_bind; [by apply settle_kept|]. intros []. eapply bind_panic; [exact Hd|].
    eapply triple_bind with (Q' := λ _, kept_with u (spent + reciprocal) extra).
    { destruct d.
      - rewrite andb_true_r. by apply settle_kept.
      - apply triple_ret. intros p. apply kept_weaken; [done|]. lia. }
    intros []. by apply kept_quiet, quiet_bump.
  - apply triple_ret. intros p. apply kept_weaken; [lia|]. destruct (h' && d); lia.
Qed.
Lemma settle_remaining_kept u spent credit pair amount due :
  pair_in pair → credit_ok credit →
  trip (kept_with u spent (owed credit)) (settle_remaining AcceptedMintBatch roles config pair amount due credit)
    (λ credit' p, credit_ok credit' ∧ kept_with u (spent + amount) (owed credit') p).
Proof.
  intros Hp Hc. unfold settle_remaining. case_decide as Ea.
  { apply triple_ret. intros p Hk. split; [done|]. revert Hk. apply kept_weaken; lia. }
  assert (∃ h, provider_is_honest roles pair = Some h) as [h Hh].
  { destruct pair as [i j]. apply honest_known, Hp. }
  destruct (default_known roles config _ (proj1 Hp)) as [d Hd]. cbn zeta. eapply bind_panic; [exact Hd|].
  set (requires := bool_decide _). destruct (requires && negb d) eqn:Epay.
  - eapply triple_bind; [by apply kept_quiet, quiet_settlement|]. intros [].
    + eapply triple_bind; [apply kept_quiet, quiet_route|]. intros [].
      eapply triple_bind; [by apply earn_kept|]. intros [].
      eapply triple_bind; [by apply settle_kept|]. intros []. apply triple_ret. intros p Hk.
      split; [by apply credit_ok_delete|]. revert Hk. apply kept_weaken; [done|]. rewrite (owed_delete credit pair). lia.
    + apply andb_true_iff in Epay as [_ Ed]. apply negb_true_iff in Ed as ->. rewrite andb_false_r.
      apply (triple_bind _ _ _ (λ _, kept_with u spent (owed credit))); [by apply triple_ret|]. intros [].
      by apply accept_credit_kept.
  - apply (triple_bind _ _ _ (λ paid p, paid = false ∧ kept_with u spent (owed credit) p)); [by apply triple_ret|].
    intros paid. apply triple_pure. intros ->.
    apply (triple_bind _ _ _ (λ _, kept_with u spent (owed credit))); [|intros []; by apply accept_credit_kept].
    destruct (requires && d); [|by apply triple_ret]. apply kept_quiet.
    apply quiet_bind; [by apply quiet_discovery|]. intros _. apply quiet_bind; [by apply quiet_bump|]. intros _.
    by apply quiet_messages.
Qed.
Lemma settle_net_kept u spent credit pair amount due :
  pair_in pair → credit_ok credit →
  trip (kept_with u spent (owed credit)) (settle_net AcceptedMintBatch roles config pair amount due credit)
    (λ credit' p, credit_ok credit' ∧ kept_with u (spent + amount) (owed credit') p).
Proof.
  intros Hp Hc. unfold settle_net. case_decide as Ea.
  { apply triple_ret. intros p Hk. split; [done|]. revert Hk. apply kept_weaken; lia. }
  destruct pair as [i j]. cbn [fst snd]. destruct Hp as [Hi Hj]. cbn [fst snd] in Hi, Hj.
  destruct (honest_known roles i j Hj) as [h Hh], (honest_known roles j i Hi) as [h' Hh'].
  destruct (default_known roles config j Hj) as [d Hd]. cbn zeta.
  pose proof (credit_ok_default credit (j, i) Hc) as Hcap. pose proof (owed_delete credit (j, i)) as Hdel.
  set (reverse_sat := default 0 (credit !! (j, i))) in *. set (reciprocal := N.min amount reverse_sat).
  set (credit' := if decide (0 < reverse_sat - reciprocal) then _ else _).
  assert (credit_ok credit') as Hc'.
  { unfold credit'. case_decide; [|by apply credit_ok_delete].
    apply credit_ok_insert; [by apply credit_ok_delete|done|]. lia. }
  assert (owed credit' + (if h' && d then reciprocal else 0) ≤ owed credit) as Howed.
  { assert (owed credit' ≤ default_owed (j, i) (reverse_sat - reciprocal) + owed (delete (j, i) credit)) as Hle.
    { unfold credit'. case_decide; [|lia].
      pose proof (owed_insert (delete (j, i) credit) (j, i) (reverse_sat - reciprocal)). lia. }
    assert (∀ x, default_owed (j, i) x = if h' && d then x else 0) as Hw.
    { intros x. unfold default_owed. cbn [fst snd]. rewrite Hd, Hh'. by destruct d, h'. }
    rewrite !Hw in Hdel, Hle. destruct (h' && d); unfold reciprocal in *; lia. }
  eapply triple_bind with (Q' := λ _, kept_with u (spent + reciprocal) (owed credit')).
  { eapply triple_pre; [by eapply (settle_reverse_kept _ _ _ (i, j))|]. intros p. by apply kept_weaken. }
  intros []. eapply triple_conseq; [by apply settle_remaining_kept|done| |done].
  intros credit2 p [? Hk]. split; [done|]. revert Hk. apply kept_weaken; [unfold reciprocal; lia|done].
Qed.
Lemma batch_window_kept u spent credit w :
  window_in w → credit_ok credit →
  trip (kept_with u spent (owed credit)) (batch_window AcceptedMintBatch roles config credit w)
    (λ credit' p, credit_ok credit' ∧ kept_with u (spent + (w.2.1 + w.2.2)) (owed credit') p).
Proof.
  destruct w as [[due [low high]] totals]. unfold window_in. cbn [fst snd]. intros Hw Hc. unfold batch_window.
  destruct (net_of_spec low high totals Hw) as [Hp Hsum].
  eapply triple_bind; [by apply settle_offset_kept|]. intros [].
  eapply triple_conseq; [by apply settle_net_kept|done| |done].
  intros credit2 p [? Hk]. split; [done|]. revert Hk. apply kept_weaken; [lia|done].
Qed.
(** What is left is recorded once for each pair. *)
Lemma batch_left_kept u spent (l : list (Pair * N)) :
  NoDup l.*1 → (∀ x, x ∈ l → pair_in x.1 ∧ x.2 ≤ cap ∧ u !! x.1 = None) →
  trip (kept_with u spent 0) (pse_iter (batch_left roles config) l) (λ _, kept AcceptedMintBatch roles config spent 0).
Proof.
  revert u. induction l as [|[pair d] l IH]; intros u Hnd Hl; cbn [pse_iter].
  { apply triple_ret. intros p Hk. by exists u. }
  apply NoDup_cons in Hnd as [Hni Hnd]. destruct (Hl (pair, d) ltac:(left)) as (Hp & Hd & Hu). cbn [fst snd] in *.
  destruct (default_known roles config _ (proj1 Hp)) as [b Hb].
  eapply triple_bind with (Q' := λ _ p, ∃ out, kept_with (<[pair := out]> u) spent 0 p).
  { unfold batch_left. eapply triple_bind; [by apply kept_quiet, quiet_bump|]. intros [].
    eapply triple_bind; [by apply unpaid_kept|]. intros out. apply triple_pure. intros Hout. cbn [fst snd] in *.
    eapply bind_panic; [exact Hb|]. eapply triple_conseq; [apply exposure_kept|done| |done].
    - simpl. rewrite Hout, Hu. unfold u64_sat_add, sat_add. simpl. lia.
    - intros [] p Hk. by exists out. }
  intros [] p [out Hk]. refine (IH (<[pair := out]> u) Hnd _ p Hk).
  intros x Hx. destruct (Hl x ltac:(by right)) as (? & ? & Hxu). split_and!; [done|done|].
  rewrite lookup_insert_ne; [done|]. intros ->. apply Hni. by apply list_elem_of_fmap_2.
Qed.
End batch.
End credit.

(** ** Whole plans *)
Section grouping.
Context (roles : list NodeRole) (config : IncentiveConfig).
Notation pair_in := (pair_in roles).
Notation value := (sum_by ob_amount_sat).
Implicit Types obligations : list Obligation.

Lemma batches_spec obligations :
  Forall (λ o, pair_in (ob_pair o)) obligations →
  sum_by ba_amount_sat (batches obligations (ic_batch_interval_ms config)) ≤ value obligations ∧
  Forall (λ b, pair_in (ba_pair b)) (batches obligations (ic_batch_interval_ms config)).
Proof.
  intros Hin. unfold batches.
  assert (∀ l, Forall (λ o, pair_in (ob_pair o)) l →
    vsum (foldl (batch_one (ic_batch_interval_ms config)) ∅ l) ≤ value l ∧
    ∀ k v, foldl (batch_one (ic_batch_interval_ms config)) ∅ l !! k = Some v → pair_in k.2) as Hfold.
  { intros l. induction l as [|o l IH] using rev_ind; intros Hl; [split; [done|intros k v; cbn [foldl]; by rewrite lookup_empty]|].
    apply Forall_app in Hl as [Hl Ho]. apply Forall_cons in Ho as [Ho _]. destruct (IH Hl) as [Hv Hk]. rewrite foldl_app, sum_by_app.
    cbn [foldl sum_by foldr]. set (m := foldl _ ∅ l) in *. unfold batch_one. set (key := (_, ob_pair o)).
    split.
    - pose proof (vsum_insert m key (u64_sat_add (default 0 (m !! key)) (ob_amount_sat o))).
      unfold u64_sat_add, sat_add in *. lia.
    - intros k v [[<- _]|[_ Hkv]]%lookup_insert_Some; [exact Ho|by eapply Hk]. }
  destruct (Hfold obligations Hin) as [Hv Hk]. set (m := foldl _ ∅ obligations) in *. split.
  - rewrite sum_by_fmap, sort_by_perm. exact Hv.
  - apply Forall_fmap, Forall_forall. intros [[due pair] amount]. rewrite sort_by_elem, elem_of_map_to_list.
    apply (Hk (due, pair)).
Qed.
Lemma streams_spec obligations :
  Forall (λ o, pair_in (ob_pair o)) obligations →
  sum_by ps_amount_sat (pair_streams obligations) ≤ value obligations ∧
  Forall (λ s, pair_in (ps_pair s)) (pair_streams obligations).
Proof.
  intros Hin. unfold pair_streams.
  assert (∀ l, Forall (λ o, pair_in (ob_pair o)) l →
    ksum (λ _, ps_amount_sat) (foldl stream_one ∅ l) ≤ value l ∧
    ∀ k s, foldl stream_one ∅ l !! k = Some s → ps_pair s = k ∧ pair_in k) as Hfold.
  { intros l. induction l as [|o l IH] using rev_ind; intros Hl; [split; [done|intros k v; cbn [foldl]; by rewrite lookup_empty]|].
    apply Forall_app in Hl as [Hl Ho]. apply Forall_cons in Ho as [Ho _]. destruct (IH Hl) as [Hv Hk]. rewrite foldl_app, sum_by_app.
    cbn [foldl sum_by foldr]. set (m := foldl _ ∅ l) in *. unfold stream_one. set (stream := default _ _).
    assert (ps_pair stream = ob_pair o ∧ ps_amount_sat stream = from_option ps_amount_sat 0 (m !! ob_pair o)) as [Hp Ha].
    { unfold stream. destruct (m !! ob_pair o) eqn:E; simpl; [|done]. split; [|done]. by apply (Hk _ _ E). }
    split.
    - match goal with |- ksum ?f (<[_ := ?s]> _) ≤ _ => pose proof (ksum_insert f m (ob_pair o) s) as Hi end.
      cbn [ps_amount_sat] in Hi. rewrite Ha in Hi |- *. unfold u64_sat_add, sat_add in *. lia.
    - intros k s [[<- <-]|[_ Hks]]%lookup_insert_Some; [by split; [|exact Ho]|by apply Hk]. }
  destruct (Hfold obligations Hin) as [Hv Hk]. set (m := foldl _ ∅ obligations) in *. split.
  - rewrite sum_by_fmap, sort_by_perm. exact Hv.
  - apply Forall_fmap, Forall_forall. intros [k s]. rewrite sort_by_elem, elem_of_map_to_list. intros E.
    destruct (Hk k s E) as [<- ?]. done.
Qed.

Notation trip P c Q := (pse_triple (E:=Empty_set) P c Q (λ _, True)).
Notation amounts := (sum_by (λ w : Window * (N * N), w.2.1 + w.2.2)).
Lemma net_kept (strategy : IncentiveStrategy) bs :
  Forall (λ b, pair_in (ba_pair b)) bs →
  trip (kept_with strategy roles config ∅ 0 0) (pl_fold net_one ∅ bs)
    (λ reciprocal p, kept_with strategy roles config ∅ 0 0 p ∧
       amounts (windows reciprocal) ≤ sum_by ba_amount_sat bs ∧ Forall (window_in roles) (windows reciprocal)).
Proof.
  intros Hin.
  set (I := λ (done : list Batch) (m : gmap Window (N * N)) p, kept_with strategy roles config ∅ 0 0 p ∧
    ksum (λ _ t, t.1 + t.2) m ≤ sum_by ba_amount_sat done ∧ ∀ k t, m !! k = Some t → pair_in k.2).
  eapply triple_conseq; [apply (triple_fold net_one I)|..]; [|intros p Hk| |done].
  - intros done m b Hb. rewrite Forall_forall in Hin. specialize (Hin b Hb). unfold net_one.
    eapply triple_bind with (Q' := λ _, I done m).
    { intros p (Hk & Hs & Hm). pose proof (kept_quiet strategy roles config ∅ 0 0 _ (quiet_state roles _ Hin) p Hk) as Hq.
      destruct (record_state (ba_pair b) p) as [[[a|e] p']|]; [|done..]. by split_and!. }
    intros []. apply triple_ret. intros p (Hk & Hs & Hm). unfold I. split; [done|]. rewrite sum_by_app.
    cbn [sum_by foldr]. set (totals := if decide _ then _ else _). split.
    + pose proof (ksum_insert (λ _ (t : N * N), t.1 + t.2) m (window_of b) totals) as Hi.
      assert (totals.1 + totals.2 ≤ from_option (λ t : N * N, t.1 + t.2) 0 (m !! window_of b) + ba_amount_sat b) as Ht.
      { unfold totals. destruct (m !! window_of b) as [[]|]; simpl; case_decide; simpl;
          unfold u64_sat_add, sat_add; lia. }
      cbn beta in Hi. lia.
    + intros k t [[<- _]|[_ Hkt]]%lookup_insert_Some; [|by eapply Hm]. unfold window_of. cbn [fst snd].
      destruct Hin as [? ?]. split; cbn [fst snd]; lia.
  - split; [done|]. split; [done|]. intros k t. by rewrite lookup_empty.
  - intros m p (Hk & Hs & Hm). split; [done|]. unfold windows. split.
    + rewrite sort_by_perm. exact Hs.
    + apply Forall_forall. intros [k t]. rewrite sort_by_elem, elem_of_map_to_list. apply Hm.
Qed.
Lemma bindings_spec credit :
  credit_ok roles config credit →
  NoDup (pair_bindings credit).*1 ∧
  (∀ x, x ∈ pair_bindings credit → pair_in x.1 ∧ x.2 ≤ ic_offline_credit_cap_sat config).
Proof.
  intros Hc. unfold pair_bindings. split; [rewrite sort_by_perm; apply NoDup_fst_map_to_list|].
  intros [pair d]. rewrite sort_by_elem, elem_of_map_to_list. apply Hc.
Qed.
Lemma iter_spent {A} strategy (f : A → Pl unit) (g : A → N) l spent :
  (∀ x spent, x ∈ l → trip (kept strategy roles config spent 0) (f x) (λ _, kept strategy roles config (spent + g x) 0)) →
  trip (kept strategy roles config spent 0) (pse_iter f l) (λ _, kept strategy roles config (spent + sum_by g l) 0).
Proof.
  revert spent. induction l as [|x l IH]; intros spent Hf; cbn [pse_iter sum_by foldr].
  { apply triple_ret. by rewrite N.add_0_r. }
  eapply triple_bind; [apply Hf; left|]. intros []. cbn beta. rewrite N.add_assoc. apply IH. intros; apply Hf; by right.
Qed.
Lemma kept_more strategy spent spent' p :
  spent ≤ spent' → kept strategy roles config spent 0 p → kept strategy roles config spent' 0 p.
Proof. intros Hle [u Hk]. exists u. revert Hk. by apply kept_weaken. Qed.

(** What [plan_*] do between [Plan::new] and [finish]. *)
Definition strategy_work (strategy : IncentiveStrategy) (workload : PricedWorkload) : Pl unit :=
  let obligations := pw_obligations workload in
  match strategy with
  | DirectVerifiedCashu => pse_iter (direct_one strategy roles config) obligations
  | OfflinePeerCredit =>
      reciprocal ← pl_fold net_one ∅ (batches obligations (ic_batch_interval_ms config));
      outstanding ← pl_fold (credit_window strategy roles config) ∅ (windows reciprocal);
      pse_iter (credit_left roles config) (pair_bindings outstanding)
  | FixedPrepaidCashu => pse_iter (prepay_one strategy roles config) (pair_streams obligations)
  | IncrementalSpilman => pse_iter (spilman_one strategy roles config) (pair_streams obligations)
  | AcceptedMintBatch =>
      reciprocal ← pl_fold net_one ∅ (batches obligations (ic_batch_interval_ms config));
      peer_credit ← pl_fold (batch_window strategy roles config) ∅ (windows reciprocal);
      pse_iter (batch_left roles config) (pair_bindings peer_credit)
  end.
Lemma windows_kept (strategy : IncentiveStrategy) (owed : Pair → N → N)
    (f : gmap Pair N → Window * (N * N) → Pl (gmap Pair N)) ws :
  (∀ spent credit w, window_in roles w → credit_ok roles config credit →
    trip (kept_with strategy roles config ∅ spent (ksum owed credit)) (f credit w)
      (λ credit' p, credit_ok roles config credit' ∧
         kept_with strategy roles config ∅ (spent + (w.2.1 + w.2.2)) (ksum owed credit') p)) →
  Forall (window_in roles) ws →
  trip (kept_with strategy roles config ∅ 0 0) (pl_fold f ∅ ws)
    (λ credit p, credit_ok roles config credit ∧ kept_with strategy roles config ∅ (amounts ws) 0 p).
Proof.
  intros Hf Hin. rewrite Forall_forall in Hin.
  set (I := λ (done : list (Window * (N * N))) credit p, credit_ok roles config credit ∧
    kept_with strategy roles config ∅ (amounts done) (ksum owed credit) p).
  eapply triple_conseq; [apply (triple_fold f I)|..]; [|intros p Hk| |done].
  - intros done credit w Hw. unfold I at 1. apply triple_pure. intros Hc.
    eapply triple_conseq; [by apply Hf; [apply Hin|]|done| |done].
    intros credit' p [? Hk]. split; [done|]. revert Hk. apply kept_weaken; [|done]. rewrite sum_by_app. simpl. lia.
  - split; [intros pair d; by rewrite lookup_empty|]. by rewrite ksum_empty.
  - intros credit p [? Hk]. split; [done|]. revert Hk. apply kept_weaken; lia.
Qed.
Lemma work_kept strategy workload :
  Forall (λ o, pair_in (ob_pair o)) (pw_obligations workload) →
  trip (kept_with strategy roles config ∅ 0 0) (strategy_work strategy workload)
    (λ _, kept strategy roles config (value (pw_obligations workload)) 0).
Proof.
  intros Hin. destruct (streams_spec _ Hin) as [Hsv Hsin]. destruct (batches_spec _ Hin) as [Hbv Hbin].
  assert (∀ p, kept_with strategy roles config ∅ 0 0 p → kept strategy roles config 0 0 p) as Hstart by (intros; by eexists).
  rewrite Forall_forall in Hin. rewrite Forall_forall in Hsin. destruct strategy; cbn [strategy_work].
  - eapply triple_pre; [|exact Hstart]. apply (iter_spent DirectVerifiedCashu _ ob_amount_sat). intros; by apply direct_one_kept, Hin.
  - eapply triple_bind; [by apply net_kept|]. intros reciprocal p (Hk & Hs & Hw).
    refine ((_ : trip _ _ _) p Hk). eapply triple_bind.
    { apply (windows_kept _ (honest_owed roles)); [|done]. intros; by apply credit_window_kept. }
    intros credit. apply triple_pure. intros Hc. destruct (bindings_spec credit Hc) as [_ Hb].
    eapply triple_pre with (P' := kept OfflinePeerCredit roles config (value (pw_obligations workload)) 0).
    + apply triple_iter. intros [pair d] Hx. destruct (Hb _ Hx). intros q (u & Hq). by apply (credit_left_kept _ _ u).
    + intros q Hq. exists ∅. revert Hq. apply kept_weaken; [lia|done].
  - eapply triple_pre; [|exact Hstart].
    eapply triple_conseq; [apply (iter_spent FixedPrepaidCashu _ ps_amount_sat); intros; by apply prepay_one_kept, Hsin|done| |done].
    intros [] p. by apply kept_more.
  - eapply triple_pre; [|exact Hstart].
    eapply triple_conseq; [apply (iter_spent IncrementalSpilman _ ps_amount_sat); intros; by apply spilman_one_kept, Hsin|done| |done].
    intros [] p. by apply kept_more.
  - eapply triple_bind; [by apply net_kept|]. intros reciprocal p (Hk & Hs & Hw).
    refine ((_ : trip _ _ _) p Hk). eapply triple_bind.
    { apply (windows_kept _ (default_owed roles config)); [|done]. intros; by apply batch_window_kept. }
    intros credit. apply triple_pure. intros Hc. destruct (bindings_spec credit Hc) as [Hnd Hb].
    eapply triple_conseq; [apply (batch_left_kept _ _ ∅); [done|]|intros q Hq; exact Hq| |done].
    + intros x Hx. destruct (Hb x Hx). split_and!; [done|done|]. apply lookup_empty.
    + intros [] q. apply kept_more. lia.
Qed.
End grouping.
