(* ===== verification/IncentivesProps.v ===== *)
(** * The simulator: incentives, theorems

    What a report of Incentives.v can be trusted to say: pricing loses no byte,
    comparing the strategies never panics and its books balance, exposure stays
    within what the configuration allows, and a recommendation is the best of
    the reports it chooses from. *)

From S2P Require Export IncentivesBooks.


(** ** Reports *)
Section reports.
Context (roles : list NodeRole) (config : IncentiveConfig).
Notation trip P c Q := (pse_triple (E:=Empty_set) P c Q (λ _, True)).
Lemma sound_ext strategy spent extra m m' :
  (∀ c, money c = true → m' c = m c) → sound strategy config spent extra m → sound strategy config spent extra m'.
Proof. intros Hm Hs. destruct Hs. split; rewrite !Hm by reflexivity; done. Qed.
Lemma summarize_known l : nlen l ≤ usize_max → ∃ s, summarize_distribution l = Some s.
Proof.
  intros Hn. destruct l as [|x l]; [by eexists|]. unfold summarize_distribution.
  destruct (nearest_rank_spec (x :: l) 50 Hn ltac:(done) ltac:(lia)) as (p50 & -> & _).
  destruct (nearest_rank_spec (x :: l) 95 Hn ltac:(done) ltac:(lia)) as (p95 & -> & _).
  destruct (nearest_rank_spec (x :: l) 99 Hn ltac:(done) ltac:(lia)) as (p99 & -> & _). by eexists.
Qed.
Lemma honest_summary_known values : nlen roles ≤ usize_max → ∃ s, summarize_honest roles values = Some s.
Proof.
  intros Hn. apply summarize_known. unfold nlen in *. rewrite length_fmap.
  pose proof (length_filter (λ vr : N * NodeRole, vr.2 ≠ RoleAttacker) (zip values roles)).
  rewrite length_zip_with in *. lia.
Qed.
Lemma finish_kept strategy accepting spent :
  nlen roles ≤ usize_max →
  trip (kept strategy roles config spent 0) (finish strategy roles config accepting)
    (λ r _, ir_strategy r = strategy ∧ sound strategy config spent 0 (ir_counters r) ∧
       field honest_earned_settled_by_deadline_basis_points r =
         basis_points (field honest_settled_by_deadline_sat r) (field honest_earned_sat r)).
Proof.
  intros Hn. apply kept_books. intros m u Hs. unfold finish.
  eapply triple_bind with (Q' := λ _ p, books roles m u p ∧
    pl_counters p honest_earned_settled_by_deadline_basis_points =
      basis_points (m honest_settled_by_deadline_sat) (m honest_earned_sat)).
  { unfold finish_counters. eapply triple_bind; [apply quiet_fakes|]. intros [] p ([? ? ?] & Hm & Hu).
    unfold mbind, pse_bind, get_counter, put_counter, pse_modify. rewrite !Hm by reflexivity. split.
    - split_and!; [by split| |done]. intros c Hc. cbn.
      rewrite !set_other by (intros ->; discriminate). by apply Hm.
    - cbn. rewrite set_other by discriminate. apply set_same. }
  intros []. apply triple_get. intros p ((_ & Hm & _) & Hbp).
  destruct (honest_summary_known (pl_state_entries p) Hn) as [s1 H1].
  destruct (honest_summary_known (pl_endpoint_messages p) Hn) as [s2 H2].
  destruct (honest_summary_known (pl_endpoint_bytes p) Hn) as [s3 H3].
  eapply bind_panic; [exact H1|]. eapply bind_panic; [exact H2|]. eapply bind_panic; [exact H3|].
  apply triple_ret. intros _ _. cbn [ir_strategy ir_counters]. split_and!; [done| |].
  - by eapply sound_ext.
  - unfold field. cbn [ir_counters]. rewrite Hbp. by rewrite !Hm.
Qed.
Lemma accepting_known n :
  ic_mint_count config ≠ 0 → is_some_and (λ mint, bool_decide (ic_mint_count config ≤ mint)) (ic_gateway_mint config) = false →
  ∃ accepting, mint_accepting_nodes config n = Some accepting.
Proof.
  intros Hmint Hgate. unfold mint_accepting_nodes.
  enough (∀ nodes acc, length acc = N.to_nat (ic_mint_count config) →
    ∃ acc', foldl (accept_node config) (Some acc) nodes = Some acc') as H by (apply H, length_replicate).
  induction nodes as [|node nodes IH]; intros acc Hlen; cbn [foldl]; [by eexists|].
  assert (home_mint config node < ic_mint_count config) as Hhome by (apply N.mod_lt; done).
  unfold accept_node at 2. simpl.
  destruct (add_at_ok (N.to_nat (home_mint config node)) 1 acc) as (acc1 & -> & H1); [lia|]. simpl.
  destruct (ic_gateway_mint config) as [gateway|] eqn:Eg; [|apply IH; lia].
  case_decide; [apply IH; lia|]. simpl in Hgate. apply bool_decide_eq_false in Hgate.
  destruct (add_at_ok (N.to_nat gateway) 1 acc1) as (acc2 & -> & H2); [lia|]. apply IH. lia.
Qed.
Lemma keyed_obligations l :
  Forall (λ o, pair_in roles (ob_pair o)) l →
  ∃ flagged, mapM (λ o, defaults ← payer_will_default roles config (payer (ob_pair o)); Some (o, (defaults : bool))) l =
    Some flagged ∧ flagged.*1 = l.
Proof.
  induction 1 as [|o l [Ho _] _ (flagged & Hf & Hl)]; [by exists []|]. simpl.
  destruct (default_known roles config _ Ho) as [d ->]. simpl. rewrite Hf. simpl. eexists. split; [done|]. by f_equal/=.
Qed.
Lemma adversarial_known workload :
  Forall (λ o, pair_in roles (ob_pair o)) (pw_obligations workload) →
  sum_by ob_amount_sat (pw_obligations workload) ≤ u64_max →
  ∃ pv, adversarial_value roles config workload = Some pv.
Proof.
  intros Hin Hmax. unfold adversarial_value.
  destruct (keyed_obligations (pw_obligations workload) Hin) as (flagged & -> & Hf). simpl.
  rewrite checked_sum_ok; [by eexists|]. rewrite sum_by_fmap, sum_by_fmap.
  transitivity (sum_by ob_amount_sat (pw_obligations workload)); [|done]. rewrite <-Hf, sum_by_fmap.
  clear. induction flagged as [|[o b] flagged IH]; [done|]. rewrite filter_cons. case_decide; simpl; unfold id in *; lia.
Qed.
Lemma start_kept strategy workload payers value :
  kept_with strategy roles config ∅ 0 0 (plan_start roles workload payers value).
Proof.
  exists (λ _, 0). split.
  - split_and!; [split; apply length_replicate| |done]. intros c Hc.
    destruct c; try discriminate Hc; reflexivity.
  - split; [done|done|apply N.min_le_iff; by left|apply N.le_0_l|by right|by right|apply N.le_0_l| |apply N.le_0_l].
    destruct strategy; [exact I|apply N.le_0_l..].
Qed.
Lemma planned_spec strategy workload :
  Forall (λ o, pair_in roles (ob_pair o)) (pw_obligations workload) →
  sum_by ob_amount_sat (pw_obligations workload) ≤ u64_max → nlen roles ≤ usize_max → ic_mint_count config ≠ 0 →
  is_some_and (λ mint, bool_decide (ic_mint_count config ≤ mint)) (ic_gateway_mint config) = false →
  ∃ r, planned strategy roles config workload (strategy_work roles config strategy workload) = Some r ∧
    ir_strategy r = strategy ∧
    sound strategy config (sum_by ob_amount_sat (pw_obligations workload)) 0 (ir_counters r) ∧
    field honest_earned_settled_by_deadline_basis_points r =
      basis_points (field honest_settled_by_deadline_sat r) (field honest_earned_sat r).
Proof.
  intros Hin Hmax Hn Hmint Hgate. unfold planned.
  destruct (adversarial_known workload Hin Hmax) as [[payers value] ->]. simpl.
  destruct (accepting_known (length roles) Hmint Hgate) as [accepting ->]. simpl.
  assert (trip (kept_with strategy roles config ∅ 0 0)
    (_ ← record_public_mint_discovery roles config; _ ← strategy_work roles config strategy workload;
     finish strategy roles config accepting)
    (λ r _, ir_strategy r = strategy ∧
       sound strategy config (sum_by ob_amount_sat (pw_obligations workload)) 0 (ir_counters r) ∧
       field honest_earned_settled_by_deadline_basis_points r =
         basis_points (field honest_settled_by_deadline_sat r) (field honest_earned_sat r))) as Hrun.
  { eapply triple_bind; [apply kept_quiet, quiet_public|]. intros [].
    eapply triple_bind; [by apply work_kept|]. intros []. by apply finish_kept. }
  specialize (Hrun _ (start_kept strategy workload payers value)).
  revert Hrun. match goal with |- context [match ?c with _ => _ end] => destruct c as [[[r|[]] p]|] end; [|done].
  intros Hrun.
  by exists r.
Qed.
End reports.

(** ** What is proved *)
Notation value_of l := (sum_by ob_amount_sat l).
Notation volume l := (sum_by vd_payload_bytes l).
Lemma price_one_pairs (P : Pair → Prop) rate p r :
  P (pair_of r) → Forall (λ o, P (ob_pair o)) (pr_obligations p) →
  Forall (λ o, P (ob_pair o)) (pr_obligations (price_one rate p r)).
Proof.
  intros Hr Hp. unfold price_one. case_decide; cbn [pr_obligations]; [done|].
  apply Forall_app. split; [done|]. by apply Forall_singleton.
Qed.
Lemma price_loop_pairs (P : Pair → Prop) records rate :
  Forall (λ r, P (pair_of r)) records → Forall (λ o, P (ob_pair o)) (pr_obligations (price_loop records rate)).
Proof.
  intros Hin. rewrite <-(sort_by_perm delivery_compare records) in Hin. unfold price_loop. revert Hin.
  generalize (sort_by delivery_compare records). intros l.
  induction l as [|r l IH] using rev_ind; intros Hin; [constructor|]. apply Forall_app in Hin as [Hl Hr].
  rewrite foldl_app. cbn [foldl]. apply price_one_pairs; [exact (proj1 (Forall_singleton _ _) Hr)|exact (IH Hl)].
Qed.
Lemma validate_records_pairs records n accepted :
  validate_each records n accepted = Ok tt →
  Forall (λ r, N.of_nat (vd_provider r) < n ∧ N.of_nat (vd_receiver r) < n ∧ vd_provider r ≠ vd_receiver r ∧
    vd_payload_bytes r ≠ 0) records ∧
  NoDup ((λ r, (vd_event_id r, vd_receiver r)) <$> records) ∧
  Forall (λ r, (vd_event_id r, vd_receiver r) ∉ accepted) records.
Proof.
  revert accepted. induction records as [|r records IH]; intros accepted; cbn [validate_each].
  { intros _. split_and!; constructor. }
  case_decide as H1; [done|]. case_decide as H2; [done|]. case_decide as H3; [done|].
  intros (Ha & Hb & Hc)%IH. split_and!.
  - constructor; [|done]. lia.
  - cbn. constructor; [|done]. intros (r' & Hr' & Hin)%list_elem_of_fmap. rewrite Forall_forall in Hc.
    apply (Hc r' Hin). rewrite <-Hr'. set_solver.
  - constructor; [done|]. eapply Forall_impl; [exact Hc|]. cbn. set_solver.
Qed.
Lemma validate_inputs_ok report config :
  validate_inputs report config = Ok tt →
  0 < ic_bytes_per_sat config ∧ ic_mint_count config ≠ 0 ∧
  is_some_and (λ mint, bool_decide (ic_mint_count config ≤ mint)) (ic_gateway_mint config) = false ∧
  Forall (λ r, pair_in (sr_node_roles report) (pair_of r)) (sr_verified_delivery_records report).
Proof.
  unfold validate_inputs. case_decide as Hrate; [done|]. case_decide as Hmint; [done|].
  destruct (is_some_and _ _) eqn:Hgate; [done|]. case_decide; [done|]. case_decide; [done|].
  case_decide as Hlen; [done|]. intros [Hin _]%validate_records_pairs.
  split_and!; [lia|done|done|]. eapply Forall_impl; [exact Hin|]. intros r (? & ? & _). unfold nlen in Hlen.
  split; cbn; lia.
Qed.

Lemma priced_value rate done p : 0 < rate → priced rate done p → pr_useful_value_sat p ≤ volume done / rate.
Proof.
  intros Hr [_ _ Ht _ _]. apply N.div_le_lower_bound; lia.
Qed.
Lemma price_records_ok records rate :
  0 < rate → volume records ≤ u64_max →
  ∃ w, price_records records rate = Some w ∧
    priced rate (sort_by delivery_compare records) (price_loop records rate) ∧
    pw_obligations w = pr_obligations (price_loop records rate) ∧
    pw_useful_bytes w = pr_useful_bytes (price_loop records rate) ∧
    pw_useful_value_sat w = pr_useful_value_sat (price_loop records rate) ∧
    pw_pricing_dust_bytes w = vsum (pr_remainders (price_loop records rate)).
Proof.
  intros Hr Hmax. pose proof (price_loop_ok rate Hr records Hmax) as Hp. pose proof Hp as [_ _ Ht _ _].
  rewrite sort_by_perm in Ht. unfold price_records.
  assert (sum_by id (map_to_list (pr_remainders (price_loop records rate))).*2 =
    vsum (pr_remainders (price_loop records rate))) as Hs by (rewrite sum_by_fmap; reflexivity).
  rewrite checked_sum_ok by (rewrite Hs; lia). simpl. eexists. split_and!; done.
Qed.
(** C39. Pricing a run whose useful bytes fit a [u64] loses nothing: no sum
    overflows, every useful byte is either paid for in whole sats or counted as
    dust, and each payer owes each provider exactly the whole sats of the bytes
    it accepted from it, whatever the order of its deliveries. *)
Theorem pricing_exact (records : list VerifiedDeliveryRecord) (bytes_per_sat : N) :
  0 < bytes_per_sat → volume records ≤ u64_max →
  ∃ workload, price_records records bytes_per_sat = Some workload ∧
    pw_useful_bytes workload = volume records ∧
    pw_useful_value_sat workload = value_of (pw_obligations workload) ∧
    pw_useful_value_sat workload * bytes_per_sat + pw_pricing_dust_bytes workload = volume records ∧
    ∀ pair, pair_value pair (pw_obligations workload) = pair_bytes pair records / bytes_per_sat.
Proof.
  intros Hr Hmax. destruct (price_records_ok records bytes_per_sat Hr Hmax) as (w & Hw & [Hb Hv Ht Hp Hl] & E1 & E2 & E3 & E4).
  exists w. rewrite E1, E2, E3, E4. rewrite sort_by_perm in Hb, Ht. split_and!; [done..|]. intros pair.
  specialize (Hp pair). specialize (Hl pair). unfold pair_bytes in Hp. rewrite sort_by_perm in Hp.
  fold (pair_bytes pair records) in Hp. eapply N.div_unique; [exact Hl|]. lia.
Qed.

(** A report, and what its books say. *)
Definition report_ok (config : IncentiveConfig) (records : list VerifiedDeliveryRecord) (strategy : IncentiveStrategy)
    (r : IncentiveReport) : Prop :=
  ir_strategy r = strategy ∧ sound strategy config (volume records / ic_bytes_per_sat config) 0 (ir_counters r) ∧
  field honest_earned_settled_by_deadline_basis_points r =
    basis_points (field honest_settled_by_deadline_sat r) (field honest_earned_sat r).
Lemma plan_ok report config strategy :
  validate_inputs report config = Ok tt → volume (sr_verified_delivery_records report) ≤ u64_max →
  nlen (sr_node_roles report) ≤ usize_max →
  ∃ r, plan_incentive_strategy report config strategy = Some (Ok r) ∧
    report_ok config (sr_verified_delivery_records report) strategy r.
Proof.
  intros Hv Hmax Hn. unfold plan_incentive_strategy. rewrite Hv.
  destruct (validate_inputs_ok _ _ Hv) as (Hr & Hmint & Hgate & Hin).
  destruct (price_records_ok _ _ Hr Hmax) as (w & -> & Hp & E1 & _ & E3 & _). cbn [mbind option_bind].
  pose proof (priced_value _ _ _ Hr Hp) as Hle. pose proof (pd_value _ _ _ Hp) as Hval.
  rewrite <-E1, <-E3 in Hval. rewrite sort_by_perm, <-E3, Hval in Hle.
  assert (value_of (pw_obligations w) ≤ u64_max) as Hmax'.
  { etransitivity; [exact Hle|]. etransitivity; [|exact Hmax]. apply N.Div0.div_le_upper_bound. nia. }
  assert (Forall (λ o, pair_in (sr_node_roles report) (ob_pair o)) (pw_obligations w)) as Hob.
  { rewrite E1. by apply price_loop_pairs. }
  destruct (planned_spec (sr_node_roles report) config strategy w Hob Hmax' Hn Hmint Hgate) as (r & Hrun & Hs & Hso & Hbp).
  exists r. split.
  - destruct strategy; cbn [strategy_work] in Hrun; unfold plan_direct, plan_peer_credit, plan_fixed_prepay, plan_spilman, plan_accepted_mint_batch;
      rewrite Hrun; reflexivity.
  - split_and!; [done| |done]. destruct Hso. split; try done. lia.
Qed.
Lemma basis_points_at_most n d : n ≤ d → d ≤ u64_max → basis_points n d ≤ 10000.
Proof.
  intros Hle Hmax. unfold basis_points, basis_points_wide, BASIS_POINTS_SCALE. case_decide; [lia|].
  etransitivity; [apply N.le_min_l|]. apply N.Div0.div_le_upper_bound.
  etransitivity; [apply N.le_min_l|]. nia.
Qed.
Lemma compare_reports report config (P : IncentiveStrategy → IncentiveReport → Prop) :
  (∀ s, ∃ r, plan_incentive_strategy report config s = Some (Ok r) ∧ P s r) →
  ∃ reports, compare_incentive_strategies report config = Some (Ok reports) ∧ Forall2 P all_strategies reports.
Proof.
  intros Hs. unfold compare_incentive_strategies. generalize all_strategies. intros l.
  induction l as [|s l (reports & Hl & Hf)]; cbn [foldr]; [by exists []; split|].
  destruct (Hs s) as (r & Hr & HP). rewrite Hl. unfold compare_one. rewrite Hr. eexists. split; [done|]. by constructor.
Qed.

(** What a plan exposes its parties to is what its strategy allows: a
    buyer prepays at most the fixed prepayment and only under that strategy; a
    provider serves unpaid at most the credit cap when credit is given, one
    channel update on channels, and nothing when service is prepaid; and no pair
    owes more peer credit than the cap. *)
Theorem exposure_bounded (report : SimulationReport) (config : IncentiveConfig) (strategy : IncentiveStrategy) :
  validate_inputs report config = Ok tt → volume (sr_verified_delivery_records report) ≤ u64_max →
  nlen (sr_node_roles report) ≤ usize_max →
  ∃ r, plan_incentive_strategy report config strategy = Some (Ok r) ∧
    field buyer_prepaid_exposure_sat r ≤
      match strategy with FixedPrepaidCashu => ic_fixed_prepay_sat config | _ => 0 end ∧
    match strategy with
    | DirectVerifiedCashu => True
    | OfflinePeerCredit | AcceptedMintBatch => field provider_unpaid_exposure_sat r ≤ ic_offline_credit_cap_sat config
    | FixedPrepaidCashu => field provider_unpaid_exposure_sat r = 0
    | IncrementalSpilman => field provider_unpaid_exposure_sat r ≤ ic_spilman_update_sat config
    end ∧
    field max_pair_peer_credit_sat r ≤
      match strategy with AcceptedMintBatch => ic_offline_credit_cap_sat config | _ => 0 end.
Proof.
  intros Hv Hmax Hn. destruct (plan_ok report config strategy Hv Hmax Hn) as (r & Hr & _ & Hs & _).
  exists r. destruct Hs as [_ _ _ _ _ _ Hb Hp Hc]. split_and!; [done|by destruct strategy| |by destruct strategy].
  destruct strategy; cbn in Hp; unfold field; try done. by apply N.le_0_r.
Qed.

(** *** Recommendations *)
#[export] Instance by_fields_order fs : CmpOrder (by_fields fs).
Proof. induction fs as [|f fs IH]; [split; done|]. cbn. by apply cmp_then_order; [apply cmp_on_order, N_compare_order|]. Qed.
#[export] Instance fallback_order : CmpOrder fallback_score.
Proof.
  unfold fallback_score, one_shot_score.
  repeat (apply cmp_then_order; [apply cmp_on_order, bool_compare_order|]). apply by_fields_order.
Qed.
Lemma min_by_spec {A} (cmp : A → A → comparison) `{!CmpOrder cmp} l :
  match min_by cmp l with
  | Some x => x ∈ l ∧ ∀ y, y ∈ l → cmp_le cmp x y
  | None => l = []
  end.
Proof.
  unfold min_by. pose proof (sort_by_sorted cmp l) as Hs. pose proof (sort_by_perm cmp l) as Hp.
  destruct (sort_by cmp l) as [|x rest]; cbn [head]; [by apply Permutation_nil_l in Hp|].
  split; [rewrite <-Hp; left|]. intros y Hy. rewrite <-Hp in Hy. apply elem_of_cons in Hy as [->|Hy].
  - unfold cmp_le. by rewrite (cmp_refl cmp).
  - apply StronglySorted_inv in Hs as [_ Hs]. rewrite Forall_forall in Hs. by apply Hs.
Qed.
(** The reports a recommendation for a use case chooses from. *)
Definition eligible (use_case : IncentiveUseCase) (r : IncentiveReport) : Prop :=
  ir_use_case r = use_case ∧
  match use_case with
  | VerifiedOneShot => is_one_shot_strategy (ir_strategy r) = true
  | UntrustedStreaming => meets_settlement_goal r = true
  end.
(** The recommended strategy is the best of those it may choose from: for
    one-shot deliveries, when some eligible report meets both goals, one that
    does and that no other such report beats in denied service, unpaid exposure,
    traffic and losses, and otherwise the best fallback; for streaming, one that
    meets the settlement goal with least exposure; and none only when no report
    is eligible. *)
Theorem recommendation_optimal (reports : list IncentiveReport) (use_case : IncentiveUseCase) :
  match recommend_incentive_strategy reports use_case with
  | Some r => r ∈ reports ∧ eligible use_case r ∧ ∀ r', r' ∈ reports → eligible use_case r' →
      match use_case with
      | VerifiedOneShot =>
          if meets_strategy_selection_gate r
          then meets_strategy_selection_gate r' = true → cmp_le one_shot_score r r'
          else meets_strategy_selection_gate r' = false ∧ cmp_le fallback_score r r'
      | UntrustedStreaming => cmp_le streaming_score r r'
      end
  | None => ∀ r, r ∈ reports → ¬ eligible use_case r
  end.
Proof.
  unfold recommend_incentive_strategy, eligible. destruct use_case.
  - set (one_shot := filter _ reports).
    assert (∀ r, r ∈ one_shot ↔ (ir_use_case r = VerifiedOneShot ∧ is_one_shot_strategy (ir_strategy r) = true) ∧ r ∈ reports)
      as Hone by (intros r; unfold one_shot; rewrite list_elem_of_filter; tauto).
    pose proof (min_by_spec one_shot_score (filter (λ r, meets_strategy_selection_gate r = true) one_shot)) as Hg.
    destruct (min_by one_shot_score _) as [r|].
    + destruct Hg as [[Hgate [[? ?] ?]%Hone]%list_elem_of_filter Hmin]. split_and!; [done..|].
      intros r' Hr' He. rewrite Hgate. intros Hg'. apply Hmin. apply list_elem_of_filter. split; [done|]. by apply Hone.
    + assert (∀ r, r ∈ one_shot → meets_strategy_selection_gate r = false) as Hnone.
      { intros r Hr. apply not_true_is_false. intros Hgate.
        assert (r ∈ filter (λ r, meets_strategy_selection_gate r = true) one_shot) as Hin by (by apply list_elem_of_filter).
        rewrite Hg in Hin. by apply elem_of_nil in Hin. }
      pose proof (min_by_spec fallback_score one_shot) as Hf. destruct (min_by fallback_score one_shot) as [r|].
      * destruct Hf as [Hr Hmin]. rewrite (Hnone r Hr). apply Hone in Hr as [[? ?] ?]. split_and!; [done..|].
        intros r' Hr' He. assert (r' ∈ one_shot) by (apply Hone; by split). auto.
      * intros r Hr He. assert (r ∈ one_shot) as Hin by (apply Hone; by split). rewrite Hf in Hin. by apply elem_of_nil in Hin.
  - pose proof (min_by_spec streaming_score
      (filter (λ r, ir_use_case r = UntrustedStreaming ∧ meets_settlement_goal r = true) reports)) as Hm.
    destruct (min_by streaming_score _) as [r|].
    + destruct Hm as [[? ?]%list_elem_of_filter Hmin]. split_and!; [done..|tauto|tauto|].
      intros r' Hr' He. apply Hmin. by apply list_elem_of_filter.
    + intros r Hr He.
      assert (r ∈ filter (λ r, ir_use_case r = UntrustedStreaming ∧ meets_settlement_goal r = true) reports) as Hin
        by (by apply list_elem_of_filter).
      rewrite Hm in Hin. by apply elem_of_nil in Hin.
Qed.

Module IncentiveWitness.
(** Two honest nodes and an attacker, and three deliveries. *)
Definition deliveries : list VerifiedDeliveryRecord :=
  [mkDelivery "a" 0 1 2000 10 true; mkDelivery "b" 1 0 700 20 true; mkDelivery "c" 2 0 1500 1200 true].
Definition report : SimulationReport :=
  mkSimReport 3 [RolePeer; RolePeer; RoleAttacker] deliveries.
Lemma pricing_exact_witness :
  ∃ workload, price_records deliveries 512 = Some workload ∧ pw_pricing_dust_bytes workload = 1128 ∧
    pair_value (1%nat, 0%nat) (pw_obligations workload) = 3.
Proof.
  destruct (pricing_exact deliveries 512) as (w & Hw & _ & Hv & Ht & Hp); [reflexivity|vm_compute; discriminate|].
  exists w. split; [exact Hw|]. vm_compute in Hw. injection Hw as <-. split; vm_compute; reflexivity.
Defined.
Lemma exposure_bounded_witness :
  ∃ r, plan_incentive_strategy report incentive_config_default IncrementalSpilman = Some (Ok r) ∧
    field provider_unpaid_exposure_sat r ≤ 16.
Proof.
  destruct (exposure_bounded report incentive_config_default IncrementalSpilman) as (r & Hr & _ & Hp & _);
    [vm_compute; reflexivity|vm_compute; discriminate|vm_compute; discriminate|].
  exists r. split; [exact Hr|exact Hp].
Defined.
End IncentiveWitness.
