(* ===== verification/TopologyProps.v ===== *)
(** * The simulator: topologies, theorems

    Every topology that Topology.v builds is a simple graph within its degree
    bounds; the honest nodes of a peer mesh are connected without attackers;
    and discovery gives every peer exactly the links it asked for. *)

From stdpp Require Import fin_sets.
From S2P Require Export Topology.

(** ** Shuffling *)
Lemma swap_perm {A} i j (l : list A) : swap i j l ≡ₚ l.
Proof.
  unfold swap. destruct (l !! i) as [x|] eqn:Hi; [|done]. destruct (l !! j) as [y|] eqn:Hj; [|done].
  by apply Permutation_insert_swap.
Qed.
Lemma shuffle_perm {A} (l : list A) state : (shuffle l state).1 ≡ₚ l.
Proof.
  unfold shuffle. generalize (length l - 1)%nat as index. intros index. revert l state.
  induction index as [|index IH]; intros l state; simpl; [done|].
  destruct (next_u64 state) as [value state']. by rewrite IH, swap_perm.
Qed.

(** ** Graphs *)
Definition edge (g : BoundedGraph) (i j : nat) : Prop := ∃ s, bg_neighbors g !! i = Some s ∧ j ∈ s.
Definition nbound (caps : DegreeCaps) (roles : list NodeRole) (i : nat) : N :=
  from_option (role_cap caps) 0 (roles !! i).
(** A simple graph on the nodes of [roles], within their degrees. *)
Record graph_ok (roles : list NodeRole) (caps : DegreeCaps) (g : BoundedGraph) : Prop := {
  gk_roles : bg_roles g = roles;
  gk_caps : bg_caps g = caps;
  gk_neighbors : length (bg_neighbors g) = length roles;
  gk_outbound_length : length (bg_outbound g) = length roles;
  gk_inbound : length (bg_inbound g) = length roles;
  gk_irreflexive i : ¬ edge g i i;
  gk_symmetric i j : edge g i j → edge g j i;
  gk_degree i s : bg_neighbors g !! i = Some s → ssize s ≤ nbound caps roles i;
  gk_outbound i o j : bg_outbound g !! i = Some o → j ∈ o → edge g i j;
}.

Section graphs.
Context (roles : list NodeRole) (caps : DegreeCaps).
Notation ok := (graph_ok roles caps).
Notation size_ := (length roles).

Lemma edge_range g i j : ok g → edge g i j → (i < size_)%nat ∧ (j < size_)%nat.
Proof.
  intros Hok Hij. assert (edge g j i) as (s' & Hj & _) by (by apply (gk_symmetric _ _ _ Hok)).
  destruct Hij as (s & Hi & _). rewrite <-(gk_neighbors _ _ _ Hok).
  split; eapply lookup_lt_Some; done.
Qed.
Lemma neighbors_in g i : ok g → (i < size_)%nat → is_Some (bg_neighbors g !! i).
Proof. intros Hok Hi. apply lookup_lt_is_Some. by rewrite (gk_neighbors _ _ _ Hok). Qed.
Lemma cap_in g i : ok g → (i < size_)%nat → graph_cap g i = Some (nbound caps roles i).
Proof.
  intros Hok Hi. unfold graph_cap, nbound. rewrite (gk_roles _ _ _ Hok), (gk_caps _ _ _ Hok).
  apply lookup_lt_is_Some in Hi as [r ->]. done.
Qed.
Lemma can_add_spec g i j :
  ok g → (i < size_)%nat → (j < size_)%nat → ∃ allowed, can_add g i j = Some allowed ∧
  (allowed = true → i ≠ j ∧ ¬ edge g i j ∧ ∃ si sj, bg_neighbors g !! i = Some si ∧
    bg_neighbors g !! j = Some sj ∧ ssize si < nbound caps roles i ∧ ssize sj < nbound caps roles j).
Proof.
  intros Hok Hi Hj. unfold can_add.
  destruct (neighbors_in g i Hok Hi) as [si Hsi], (neighbors_in g j Hok Hj) as [sj Hsj].
  rewrite Hsi, Hsj, !cap_in by done. simpl. repeat case_decide; eexists; (split; [done|]); try done.
  rewrite bool_decide_eq_true. intros Hlt. split_and!; [done| |by exists si, sj].
  intros (s & Hs & Hin). simplify_eq.
Qed.
(** Adding an edge. *)
Lemma graph_add_spec g i j :
  ok g → (i < size_)%nat → (j < size_)%nat → ∃ added g', graph_add g i j = Some (added, g') ∧ ok g' ∧
  bg_outbound g' = bg_outbound g ∧ bg_inbound g' = bg_inbound g ∧
  (if (added : bool) then ¬ edge g i j ∧ i ≠ j ∧ ∀ a b, edge g' a b ↔ edge g a b ∨ a = i ∧ b = j ∨ a = j ∧ b = i
   else g' = g).
Proof.
  intros Hok Hi Hj. unfold graph_add. destruct (can_add_spec g i j Hok Hi Hj) as ([] & -> & Hadd); cycle 1.
  { exists false, g. done. }
  destruct (Hadd eq_refl) as (Hne & Hno & si & sj & Hsi & Hsj & Hdi & Hdj). simpl.
  unfold insert_neighbor. rewrite Hsi. simpl.
  rewrite list_lookup_insert_ne, Hsj by done. simpl.
  set (g' := mkGraph _ _ _ _ _). exists true, g'.
  assert (∀ a s, bg_neighbors g' !! a = Some s ↔
    (a = i ∧ s = {[j]} ∪ si) ∨ (a = j ∧ s = {[i]} ∪ sj) ∨ (a ≠ i ∧ a ≠ j ∧ bg_neighbors g !! a = Some s)) as Hl.
  { intros a s. simpl. assert (i < length (bg_neighbors g))%nat by (by eapply lookup_lt_Some).
    assert (j < length (bg_neighbors g))%nat by (by eapply lookup_lt_Some).
    destruct (decide (a = j)) as [->|]; [rewrite list_lookup_insert_eq by (by rewrite length_insert); naive_solver|].
    rewrite list_lookup_insert_ne by done.
    destruct (decide (a = i)) as [->|]; [rewrite list_lookup_insert_eq by done; naive_solver|].
    rewrite list_lookup_insert_ne by done. naive_solver. }
  assert (∀ a b, edge g' a b ↔ edge g a b ∨ a = i ∧ b = j ∨ a = j ∧ b = i) as He.
  { intros a b. unfold edge. setoid_rewrite Hl. split.
    - intros (s & [(-> & ->)|[(-> & ->)|(? & ? & ?)]] & Hin); [..|left; by exists s].
      + apply elem_of_union in Hin as [->%elem_of_singleton|?]; [tauto|left; by exists si].
      + apply elem_of_union in Hin as [->%elem_of_singleton|?]; [tauto|left; by exists sj].
    - intros [(s & Hs & Hin)|[[-> ->]|[-> ->]]].
      + destruct (decide (a = i)) as [->|]; [exists ({[j]} ∪ si); simplify_eq; set_solver|].
        destruct (decide (a = j)) as [->|]; [exists ({[i]} ∪ sj); simplify_eq; set_solver|]. exists s. tauto.
      + exists ({[j]} ∪ si). split; [tauto|set_solver].
      + exists ({[i]} ∪ sj). split; [tauto|set_solver]. }
  split_and!; [done| |done|done|done|done|done].
  destruct Hok as [Hr Hc Hn Ho Hb Hirr Hsym Hdeg Hout].
  split; [done|done|simpl; by rewrite !length_insert|done|done|..].
  - intros a. rewrite He. naive_solver.
  - intros a b. rewrite !He. naive_solver.
  - assert (∀ (x : nat) (s : gset nat), ssize ({[x]} ∪ s) ≤ ssize s + 1) as Hsz.
    { intros x s. unfold ssize. pose proof (size_union_alt {[x]} s) as ->.
      pose proof (subseteq_size (s ∖ {[x]}) s ltac:(set_solver)). rewrite size_singleton. lia. }
    intros a s [(-> & ->)|[(-> & ->)|(? & ? & Hs)]]%Hl.
    + specialize (Hsz j si). lia.
    + specialize (Hsz i sj). lia.
    + by apply Hdeg.
  - intros a o b Ha Hin. apply He. left. by apply (Hout a o).
Qed.
End graphs.

(** ** What building establishes

    Links are only ever added, so a fact about them, once established, lasts:
    [est c Q] says that [c] does not panic, keeps the graph simple and bounded
    with every lasting fact that held before, and adds [Q]. *)
Definition grown (g g' : BoundedGraph) : Prop := ∀ i j, edge g i j → edge g' i j.
Definition lasting (P : BoundedGraph → Prop) : Prop := ∀ g g', grown g g' → P g → P g'.
Section building.
Context (roles : list NodeRole) (caps : DegreeCaps).
Notation ok := (graph_ok roles caps).
Notation size_ := (length roles).

Definition inv (P : BoundedGraph → Prop) (b : Build) : Prop := ok (bu_graph b) ∧ P (bu_graph b).
Definition est {A} (c : PSE Build TopologyError A) (Q : A → BoundedGraph → Prop) : Prop :=
  ∀ P, lasting P → pse_triple (inv P) c (λ a, inv (λ g, P g ∧ Q a g)) (λ _, True).

Lemma lasting_and P Q : lasting P → lasting Q → lasting (λ g, P g ∧ Q g).
Proof. intros HP HQ g g' Hg [? ?]. split; [by apply (HP g)|by apply (HQ g)]. Qed.
Lemma lasting_pure (P : Prop) : lasting (λ _, P).
Proof. by intros g g' _. Qed.
Lemma lasting_edge i j : lasting (λ g, edge g i j).
Proof. intros g g' Hg. apply Hg. Qed.
Lemma lasting_forall {A} (P : A → BoundedGraph → Prop) :
  (∀ a, lasting (P a)) → lasting (λ g, ∀ a, P a g).
Proof. intros HP g g' Hg H a. by apply (HP a g). Qed.
Lemma lasting_impl (P : Prop) Q : lasting Q → lasting (λ g, P → Q g).
Proof. intros HQ g g' Hg H HP. apply (HQ g); auto. Qed.
Lemma lasting_exists {A} (P : A → BoundedGraph → Prop) :
  (∀ a, lasting (P a)) → lasting (λ g, ∃ a, P a g).
Proof. intros HP g g' Hg [a H]. exists a. by apply (HP a g). Qed.

Lemma est_weaken {A} (c : PSE Build TopologyError A) Q Q' :
  est c Q → (∀ a g, ok g → Q a g → Q' a g) → est c Q'.
Proof.
  intros Hc HQ P HP. eapply triple_conseq; [by apply Hc|done| |done].
  intros a s (? & ? & ?). split; [done|]. split; [done|by apply HQ].
Qed.
Lemma est_ret {A} (a : A) (Q : A → BoundedGraph → Prop) : (∀ g, Q a g) → est (mret a) Q.
Proof. intros HQ P _. apply triple_ret. intros s [? ?]. split; [done|]. split; auto. Qed.
Lemma est_fail {A} e Q : est (fail (A:=A) e) Q.
Proof. intros P _ s Hs. exact I. Qed.
Lemma est_bind {A B} (c : PSE Build TopologyError A) (f : A → PSE Build TopologyError B) Q Q' :
  est c Q → (∀ a, lasting (Q a)) → (∀ a g, Q a g → est (f a) (λ b g, Q a g → Q' b g)) →
  est (c ≫= f) Q'.
Proof.
  intros Hc Hlast Hf P HP. eapply triple_bind; [by apply Hc|]. intros a s [Hok [HPs HQs]].
  pose proof (Hf a _ HQs (λ g, P g ∧ Q a g) (lasting_and _ _ HP (Hlast a)) s) as H.
  specialize (H (conj Hok (conj HPs HQs))).
  destruct (f a s) as [[[b|e] s']|]; [|done..]. destruct H as (? & [? ?] & ?).
  split; [done|]. split; auto.
Qed.
(** When the first part only yields a value. *)
Lemma est_then {A B} (c : PSE Build TopologyError A) (f : A → PSE Build TopologyError B) (V : A → Prop) Q :
  est c (λ a _, V a) → (∀ a, V a → est (f a) Q) → est (c ≫= f) Q.
Proof.
  intros Hc Hf. apply (est_bind _ _ (λ a _, V a)); [done|intros; apply lasting_pure|].
  intros a g HV. eapply est_weaken; [by apply Hf|auto].
Qed.
Lemma est_iter {A} (f : A → PSE Build TopologyError unit) l (Q : A → BoundedGraph → Prop) :
  (∀ x, lasting (Q x)) → (∀ x, x ∈ l → est (f x) (λ _, Q x)) →
  est (pse_iter f l) (λ _ g, ∀ x, x ∈ l → Q x g).
Proof.
  intros Hlast. induction l as [|x l IH]; intros Hf; simpl.
  { apply est_ret. by intros g y ?%elem_of_nil. }
  apply (est_bind _ _ (λ _, Q x)); [apply Hf; left|done|]. intros _ _ _.
  eapply est_weaken; [apply IH; intros y Hy; apply Hf; by right|].
  intros [] g _ Hall Hx y [->|Hy]%elem_of_cons; auto.
Qed.
Lemma est_iter_pure {A} (f : A → PSE Build TopologyError unit) l :
  (∀ x, x ∈ l → est (f x) (λ _ _, True)) → est (pse_iter f l) (λ _ _, True).
Proof.
  intros Hf. eapply est_weaken; [apply (est_iter _ _ (λ _ _, True))|done]; [|done].
  intros; apply lasting_pure.
Qed.
Lemma est_panic {A} (o : option A) (V : A → Prop) : (∃ a, o = Some a ∧ V a) → est (panic_unless o) (λ a _, V a).
Proof. intros (a & -> & HV) P _ s [? ?]. split; [done|]. split; auto. Qed.
Lemma est_shuffled {A} (l : list A) : est (shuffled l) (λ l' _, l' ≡ₚ l).
Proof.
  intros P _ s [? ?]. unfold shuffled. pose proof (shuffle_perm l (bu_rng s)).
  destruct (shuffle l (bu_rng s)). by split_and!.
Qed.
Lemma est_add i j :
  (i < size_)%nat → (j < size_)%nat → est (add i j) (λ added g, added = true → edge g i j).
Proof.
  intros Hi Hj P HP s [Hok HPs]. unfold add.
  destruct (graph_add_spec roles caps (bu_graph s) i j Hok Hi Hj) as (added & g' & -> & Hok' & _ & _ & Hadd).
  cbn. split; [done|]. destruct added.
  - destruct Hadd as (_ & _ & He). split; [|intros _; apply He; tauto].
    apply (HP (bu_graph s)); [|done]. intros a b ?. apply He. tauto.
  - subst. done.
Qed.
Lemma lasting_added i j (added : bool) : lasting (λ g, added = true → edge g i j).
Proof. apply lasting_impl, lasting_edge. Qed.
Lemma est_add_pure i j : (i < size_)%nat → (j < size_)%nat → est (add i j) (λ _ _, True).
Proof. intros. eapply est_weaken; [by apply est_add|done]. Qed.
Lemma est_add_required i j context :
  (i < size_)%nat → (j < size_)%nat → est (add_required i j context) (λ _ g, edge g i j).
Proof.
  intros Hi Hj. eapply est_bind; [by apply est_add|intros; apply lasting_added|].
  intros [] g _; [apply est_ret; auto|apply est_fail].
Qed.

Definition in_range (l : list nat) : Prop := Forall (λ i, (i < size_)%nat) l.
Lemma in_range_perm l l' : l ≡ₚ l' → in_range l' → in_range l.
Proof. unfold in_range. by intros ->. Qed.

Lemma est_optional node candidates target :
  (node < size_)%nat → in_range candidates → est (add_optional_links node candidates target) (λ _ _, True).
Proof.
  intros Hn. unfold add_optional_links. generalize 0 as added.
  induction candidates as [|candidate candidates IH]; intros added Hr; simpl; [by apply est_ret|].
  apply Forall_cons in Hr as [Hc Hr].
  apply (est_then _ _ (λ _, True)); [by apply est_add_pure|]. intros [] _; [case_decide|]; auto using est_ret.
Qed.
Lemma est_to_any node others :
  (node < size_)%nat → in_range others →
  est (connect_to_any node others) (λ ok g, ok = true → ∃ b, b ∈ others ∧ edge g node b).
Proof.
  intros Hn. induction others as [|other others IH]; intros Hr; simpl; [by apply est_ret|].
  apply Forall_cons in Hr as [Ho Hr].
  eapply est_bind; [by apply est_add|intros; apply lasting_added|]. intros [] g _.
  - apply est_ret. intros g' He _. exists other. rewrite elem_of_cons. auto.
  - eapply est_weaken; [by apply IH|]. intros ok g' _ H _ Hok. destruct (H Hok) as (b & ? & ?).
    exists b. rewrite elem_of_cons. auto.
Qed.
Lemma est_first_available nodes others :
  in_range nodes → in_range others →
  est (connect_first_available nodes others)
    (λ ok g, ok = true → ∃ a b, a ∈ nodes ∧ b ∈ others ∧ edge g a b).
Proof.
  intros Hn Ho. induction nodes as [|node nodes IH]; simpl; [by apply est_ret|].
  apply Forall_cons in Hn as [Hnode Hn].
  eapply est_bind; [by apply est_to_any|intros; apply lasting_impl, lasting_exists; intros b g g' Hg [? ?]; auto|].
  intros [] g _.
  - apply est_ret. intros g' H _. destruct (H eq_refl) as (b & ? & ?). exists node, b.
    rewrite elem_of_cons. auto.
  - eapply est_weaken; [by apply IH|]. intros ok g' _ H _ Hok. destruct (H Hok) as (a & b & ? & ? & ?).
    exists a, b. rewrite elem_of_cons. auto.
Qed.

(** *** Rings and the backbone *)
Definition ring (nodes : list nat) (g : BoundedGraph) : Prop := ∀ i a b,
  nodes !! i = Some a → nodes !! ((i + 1) mod length nodes)%nat = Some b → length nodes ≠ 1%nat → edge g a b.
Definition joined (lefts rights : list nat) (g : BoundedGraph) : Prop :=
  ∃ a b, a ∈ lefts ∧ b ∈ rights ∧ edge g a b.
Fixpoint backbone (groups : list (list nat)) (g : BoundedGraph) : Prop :=
  match groups with
  | lefts :: ((rights :: _) as rest) => joined lefts rights g ∧ backbone rest g
  | _ => True
  end.
Lemma lasting_ring nodes : lasting (ring nodes).
Proof. intros g g' Hg H i a b ? ? ?. by apply Hg, (H i). Qed.
Lemma lasting_joined lefts rights : lasting (joined lefts rights).
Proof. intros g g' Hg (a & b & ? & ? & ?). exists a, b. auto. Qed.
Lemma lasting_rings cohorts : lasting (λ g, Forall (λ nodes, ring nodes g) cohorts).
Proof. intros g g' Hg H. eapply Forall_impl; [exact H|]. intros nodes. by apply lasting_ring. Qed.

Lemma est_ring nodes : in_range nodes → est (connect_ring nodes) (λ _, ring nodes).
Proof.
  intros Hr. assert (∀ i a, nodes !! i = Some a → (a < size_)%nat) as Hin.
  { intros i a Ha. by apply (proj1 (Forall_lookup _ _) Hr i). }
  destruct nodes as [|a [|b [|c rest]]].
  - apply est_ret. intros g i a. by rewrite lookup_nil.
  - apply est_ret. intros g i x y _ _ []. done.
  - eapply est_weaken; [apply est_add_required; [by apply (Hin 0%nat)|by apply (Hin 1%nat)]|].
    intros [] g Hok Hab [|[|?]] x y Hx Hy _; [by simplify_eq/=| |done].
    simplify_eq/=. by apply (gk_symmetric _ _ _ Hok).
  - cbn [connect_ring]. set (nodes := a :: b :: c :: rest) in *.
    assert (length nodes ≠ 0%nat) as Hlen by done. clearbody nodes. eapply est_weaken.
    + apply (est_iter _ _ (λ p g, ∀ y, nodes !! ((p.1 + 1) mod length nodes)%nat = Some y → edge g p.2 y)).
      { intros p. apply lasting_forall. intros y. apply lasting_impl, lasting_edge. }
      intros [i x] (i' & x' & [= -> ->] & Hx)%elem_of_lookup_imap.
      assert (is_Some (nodes !! ((i' + 1) mod length nodes)%nat)) as [y Hy].
      { by apply lookup_lt_is_Some, Nat.mod_upper_bound. }
      apply (est_then _ _ (λ y', y' = y)); [apply est_panic; eauto|]. intros _ ->.
      eapply est_weaken; [apply est_add_required; eauto|]. intros [] g _ He y'. cbn [fst snd]. rewrite Hy. by intros [= <-].
    + intros [] g _ H i x y Hx Hy _. apply (H (i, x)); [|done]. apply elem_of_lookup_imap. by exists i, x.
Qed.
Lemma est_rings cohorts :
  Forall in_range cohorts →
  est (connect_rings cohorts)
    (λ cohorts' g, Forall2 (≡ₚ) cohorts' cohorts ∧ Forall (λ nodes, ring nodes g) cohorts').
Proof.
  induction cohorts as [|nodes cohorts IH]; intros Hr; simpl.
  { apply est_ret. intros g. split; constructor. }
  apply Forall_cons in Hr as [Hn Hr].
  apply (est_then _ _ (λ nodes', nodes' ≡ₚ nodes)); [apply est_shuffled|]. intros nodes' Hp.
  eapply (est_bind _ _ (λ _, ring nodes')).
  { apply est_ring. by eapply in_range_perm. }
  { intros _. apply lasting_ring. }
  intros [] g0 _. eapply (est_bind _ _ (λ cohorts' g, Forall2 (≡ₚ) cohorts' cohorts ∧ _)).
  { by apply IH. }
  { intros cohorts'. apply lasting_and; [apply lasting_pure|apply lasting_rings]. }
  intros cohorts' _ _. apply est_ret. intros g [? ?] ?. split; by constructor.
Qed.
Lemma lasting_backbone groups : lasting (backbone groups).
Proof.
  intros g g' Hg. induction groups as [|lefts [|rights rest] IH]; [done..|].
  intros [? ?]. split; [by apply (lasting_joined _ _ g)|by apply IH].
Qed.
Lemma est_backbone groups :
  Forall in_range groups → est (connect_cohort_backbone groups) (λ _, backbone groups).
Proof.
  induction groups as [|lefts [|rights rest] IH]; intros Hr; [by apply est_ret..|].
  apply Forall_cons in Hr as [Hl Hr].
  assert (in_range rights) as Hright by (by apply Forall_cons in Hr as [? _]).
  unfold connect_cohort_backbone; fold connect_cohort_backbone.
  apply (est_then _ _ (λ l', l' ≡ₚ lefts)); [apply est_shuffled|]. intros lefts' Hpl.
  apply (est_then _ _ (λ l', l' ≡ₚ rights)); [apply est_shuffled|]. intros rights' Hpr.
  apply (est_bind _ _ (λ ok g, ok = true → joined lefts rights g)).
  - eapply est_weaken; [apply est_first_available; eapply in_range_perm; eauto|].
    intros ok g _ H Hok. destruct (H Hok) as (a & b & Ha & Hb & ?). rewrite Hpl in Ha. rewrite Hpr in Hb.
    by exists a, b.
  - intros ok. apply lasting_impl, lasting_joined.
  - intros [] g _; [|apply est_fail]. eapply est_weaken; [by apply IH|]. intros [] g' _ H Hj. split; auto.
Qed.
End building.

(** *** Connected nodes *)
Definition linked (nodes : list nat) (g : BoundedGraph) (i j : nat) : Prop :=
  edge g i j ∧ i ∈ nodes ∧ j ∈ nodes.
(** Any two of the nodes are joined by a path that stays among them. *)
Definition all_linked (nodes : list nat) (g : BoundedGraph) : Prop :=
  ∀ i j, i ∈ nodes → j ∈ nodes → rtc (linked nodes g) i j.
Lemma rtc_back {A} (R : relation A) : (∀ x y, R x y → R y x) → ∀ x y, rtc R x y → rtc R y x.
Proof. intros Hsym x y H. induction H as [|x y z Hxy _ IH]; [done|]. eapply rtc_r; eauto. Qed.
Lemma linked_mono nodes nodes' g i j : nodes ⊆ nodes' → rtc (linked nodes g) i j → rtc (linked nodes' g) i j.
Proof.
  intros Hsub. apply rtc_subrel. intros a b (? & ? & ?). split_and!; [done|by apply Hsub..].
Qed.
Lemma all_linked_perm nodes nodes' g : nodes ≡ₚ nodes' → all_linked nodes g → all_linked nodes' g.
Proof.
  intros Hp Hc i j Hi Hj. apply (linked_mono nodes); [by intros x; rewrite Hp|].
  apply Hc; by rewrite Hp.
Qed.
Lemma ring_linked nodes g :
  (∀ i j, edge g i j → edge g j i) → ring nodes g → all_linked nodes g.
Proof.
  intros Hsym Hring. assert (∀ x y, linked nodes g x y → linked nodes g y x) as Hls.
  { intros x y (? & ? & ?). split_and!; auto. }
  assert (∀ k a b, nodes !! 0%nat = Some a → nodes !! k = Some b → rtc (linked nodes g) a b) as Hfirst.
  { induction k as [|k IH]; intros a b Ha Hb; [by simplify_eq|].
    pose proof (lookup_lt_Some _ _ _ Hb) as Hlt.
    destruct (lookup_lt_is_Some_2 nodes k ltac:(lia)) as [c Hc].
    eapply rtc_r; [by apply IH|]. split_and!; [|by eapply list_elem_of_lookup_2..].
    apply (Hring k); [done| |lia]. by rewrite Nat.mod_small, Nat.add_1_r by lia. }
  intros i j [k Hi]%list_elem_of_lookup_1 [l Hj]%list_elem_of_lookup_1.
  destruct (lookup_lt_is_Some_2 nodes 0 ltac:(apply lookup_lt_Some in Hi; lia)) as [a Ha].
  etrans; [apply rtc_back; [done|by eapply Hfirst]|by eapply Hfirst].
Qed.
Lemma backbone_linked groups g :
  (∀ i j, edge g i j → edge g j i) → Forall (λ nodes, all_linked nodes g) groups → backbone groups g →
  all_linked (mjoin groups) g.
Proof.
  intros Hsym. induction groups as [|lefts [|rights rest] IH]; intros Hc Hb.
  - intros i j Hi. by apply elem_of_nil in Hi.
  - apply Forall_cons in Hc as [Hl _]. simpl. by rewrite app_nil_r.
  - apply Forall_cons in Hc as [Hl Hr]. destruct Hb as [(x & y & Hx & Hy & Hxy) Hb].
    specialize (IH Hr Hb). simpl. set (others := rights ++ mjoin rest) in *.
    assert (y ∈ others) as Hy' by (apply elem_of_app; auto).
    assert (∀ i j, linked (lefts ++ others) g i j → linked (lefts ++ others) g j i) as Hls.
    { intros i j (? & ? & ?). split_and!; auto. }
    assert (∀ i, i ∈ lefts ++ others → rtc (linked (lefts ++ others) g) i x) as Hto.
    { intros i [Hi|Hi]%elem_of_app.
      - apply (linked_mono lefts); [intros z; rewrite elem_of_app; auto|by apply Hl].
      - eapply rtc_r; [apply (linked_mono others _ _ i y); [intros z; rewrite elem_of_app; auto|by apply IH]|].
        split_and!; [by apply Hsym|rewrite elem_of_app; auto..]. }
    intros i j Hi Hj. etrans; [by apply Hto|]. apply rtc_back; auto.
Qed.

(** *** Cohorts *)
Lemma join_each {A} (ls ls' : list (list A)) : Forall2 (≡ₚ) ls ls' → mjoin ls ≡ₚ mjoin ls'.
Proof. induction 1 as [|l l' ls ls' Hl _ IH]; simpl; [done|by rewrite Hl, IH]. Qed.
Lemma join_push (cohorts : gmap N (list nat)) cohort node :
  mjoin (map_to_list (<[cohort := default [] (cohorts !! cohort) ++ [node]]> cohorts)).*2 ≡ₚ
  node :: mjoin (map_to_list cohorts).*2.
Proof.
  destruct (cohorts !! cohort) as [nodes|] eqn:E; simpl.
  - rewrite <-(insert_delete_id cohorts cohort nodes E) at 2. rewrite <-insert_delete_eq.
    rewrite !map_to_list_insert by apply lookup_delete_eq. simpl. rewrite <-app_assoc. simpl.
    by rewrite Permutation_middle.
  - by rewrite map_to_list_insert by done.
Qed.
Lemma honest_in (config : TopologyConfig) i :
  tc_attacker_count config < tc_node_count config → i ∈ honest_nodes config →
  (i < N.to_nat (tc_node_count config))%nat ∧ (N.to_nat (tc_attacker_count config) ≤ i)%nat.
Proof. intros H. unfold honest_nodes. rewrite elem_of_seq. lia. Qed.
Lemma attacker_in (config : TopologyConfig) i :
  tc_attacker_count config < tc_node_count config → i ∈ attacker_nodes config →
  (i < N.to_nat (tc_node_count config))%nat ∧ (i < N.to_nat (tc_attacker_count config))%nat.
Proof. intros H. unfold attacker_nodes. rewrite elem_of_seq. lia. Qed.
Lemma honest_cohorts_spec config :
  Forall (λ node, is_Some (cohort_of config node)) (honest_nodes config) →
  ∃ cohorts, honest_cohorts config = Some cohorts ∧ mjoin cohorts ≡ₚ honest_nodes config.
Proof.
  intros Hc. unfold honest_cohorts.
  assert (∀ nodes cohorts, Forall (λ node, is_Some (cohort_of config node)) nodes →
    ∃ cohorts', foldl (push_cohort config) (Some cohorts) nodes = Some cohorts' ∧
      mjoin (map_to_list cohorts').*2 ≡ₚ nodes ++ mjoin (map_to_list cohorts).*2) as Hfold.
  { induction nodes as [|node nodes IH]; intros cohorts Hn; simpl; [by exists cohorts|].
    apply Forall_cons in Hn as [[cohort Hcohort] Hn]. simpl. rewrite Hcohort. simpl.
    destruct (IH (<[cohort := default [] (cohorts !! cohort) ++ [node]]> cohorts) Hn) as (cohorts' & -> & Hp).
    exists cohorts'. split; [done|]. rewrite Hp, join_push. by rewrite Permutation_middle. }
  destruct (Hfold (honest_nodes config) ∅ Hc) as (cohorts & -> & Hp). eexists. split; [done|].
  rewrite sort_by_perm, Hp. by rewrite map_to_list_empty, app_nil_r.
Qed.

(** *** The links of a peer mesh *)
Section peer_mesh.
Context (config : TopologyConfig) (roles : list NodeRole) (caps : DegreeCaps).
Hypothesis Hroles : length roles = N.to_nat (tc_node_count config).
Hypothesis Hids : length (tc_cohort_ids config) = N.to_nat (tc_node_count config).
Hypothesis Hcount : tc_attacker_count config < tc_node_count config.
Notation est := (est roles caps).
Notation in_range := (in_range roles).

Lemma cohort_known i : (i < N.to_nat (tc_node_count config))%nat → is_Some (cohort_of config i).
Proof. intros Hi. apply lookup_lt_is_Some. by rewrite Hids. Qed.
Lemma honest_cohort_known : Forall (λ node, is_Some (cohort_of config node)) (honest_nodes config).
Proof. apply Forall_forall. intros i Hi. by apply cohort_known, honest_in. Qed.
Lemma honest_in_range : in_range (honest_nodes config).
Proof. apply Forall_forall. intros i Hi. rewrite Hroles. by apply honest_in. Qed.
Lemma attacker_range : in_range (attacker_nodes config).
Proof. apply Forall_forall. intros i Hi. rewrite Hroles. by apply attacker_in. Qed.
Lemma in_range_sub l l' : (∀ i, i ∈ l → i ∈ l') → in_range l' → in_range l.
Proof. unfold in_range. rewrite !Forall_forall. auto. Qed.
Lemma range_lt l i : in_range l → i ∈ l → (i < length roles)%nat.
Proof. unfold in_range. rewrite Forall_forall. auto. Qed.
Lemma range_join cohorts : in_range (mjoin cohorts) → Forall in_range cohorts.
Proof.
  intros H. apply Forall_forall. intros nodes Hn. eapply in_range_sub; [|exact H].
  intros i Hi. apply list_elem_of_join. eauto.
Qed.

Lemma est_shuffled_optional node l target :
  (node < length roles)%nat → in_range l →
  est (candidates ← shuffled l; add_optional_links node candidates target) (λ _ _, True).
Proof.
  intros Hn Hl. apply (est_then _ _ _ _ (λ l', l' ≡ₚ l)); [apply est_shuffled|]. intros l' Hp.
  apply est_optional; [done|]. by eapply in_range_perm.
Qed.
Lemma est_shortcuts cohorts n :
  Forall in_range cohorts → est (add_same_cohort_shortcuts cohorts n) (λ _ _, True).
Proof.
  intros Hr. unfold add_same_cohort_shortcuts. case_decide; [by apply est_ret|].
  apply est_iter_pure. intros nodes Hn. apply est_iter_pure. intros node Hnode.
  pose proof (proj1 (Forall_forall _ _) Hr _ Hn) as Hnodes.
  apply est_shuffled_optional; [by eapply range_lt|done].
Qed.
Lemma est_cross n : est (add_cross_cohort_links config n) (λ _ _, True).
Proof.
  unfold add_cross_cohort_links. case_decide; [by apply est_ret|]. apply est_iter_pure. intros node Hnode.
  pose proof (proj1 (Forall_forall _ _) honest_cohort_known) as Hk.
  destruct (Hk node Hnode) as [cohort Hc].
  apply (est_then _ _ _ _ (λ c, c = cohort)); [apply est_panic; eauto|]. intros _ ->.
  apply (est_then _ _ _ _ (λ l, ∀ c, c ∈ l → c.1 ∈ honest_nodes config)).
  { apply est_panic. edestruct (mapM_is_Some_2 (λ candidate, other ← cohort_of config candidate;
      Some (candidate, other)) (honest_nodes config)) as [l Hl].
    { apply Forall_forall. intros i Hi. destruct (Hk i Hi) as [x Hx]. exists (i, x). cbn beta. by rewrite Hx. }
    exists l. split; [done|]. intros c Hin. apply mapM_Some_1 in Hl.
    apply list_elem_of_lookup_1 in Hin as [k Hin].
    destruct (Forall2_lookup_r _ _ _ _ _ Hl Hin) as (i & Hi & Hx).
    destruct (cohort_of config i); simplify_eq/=. by eapply list_elem_of_lookup_2. }
  intros l Hl. apply est_shuffled_optional.
  - apply (range_lt (honest_nodes config)); [apply honest_in_range|done].
  - eapply in_range_sub; [|apply honest_in_range]. intros i (c & -> & [_ Hc']%list_elem_of_filter)%list_elem_of_fmap. auto.
Qed.
Lemma est_exposure n : est (add_attacker_exposure config n) (λ _ _, True).
Proof.
  unfold add_attacker_exposure. case_decide; [by apply est_ret|]. apply est_iter_pure. intros node Hnode.
  apply est_shuffled_optional; [|apply attacker_range].
  apply (range_lt (honest_nodes config)); [apply honest_in_range|done].
Qed.
Lemma est_peer_mesh cohorts :
  mjoin cohorts ≡ₚ honest_nodes config →
  est (peer_mesh_links config cohorts)
    (λ _ g, ∃ groups, mjoin groups ≡ₚ honest_nodes config ∧ Forall (λ nodes, ring nodes g) groups ∧ backbone groups g).
Proof.
  intros Hp. assert (Forall in_range cohorts) as Hr.
  { apply range_join. eapply in_range_perm; [exact Hp|apply honest_in_range]. }
  unfold peer_mesh_links.
  eapply (est_bind _ _ _ _ (λ cohorts' g, Forall2 (≡ₚ) cohorts' cohorts ∧ _)); [by apply est_rings| |].
  { intros cohorts'. apply lasting_and; [apply lasting_pure|apply lasting_rings]. }
  intros groups g [Hperm _]. assert (mjoin groups ≡ₚ honest_nodes config) as Hg by (by rewrite (join_each _ _ Hperm)).
  assert (Forall in_range groups) as Hgr.
  { apply range_join. eapply in_range_perm; [exact Hg|apply honest_in_range]. }
  apply (est_bind _ _ _ _ (λ _, backbone groups)); [by apply est_backbone|intros; apply lasting_backbone|].
  intros [] _ _. apply (est_then _ _ _ _ (λ _, True)); [by apply est_shortcuts|]. intros [] _.
  apply (est_then _ _ _ _ (λ _, True)); [apply est_cross|]. intros [] _.
  eapply est_weaken; [apply est_exposure|]. intros [] g' _ _ Hb [_ Hrings]. eauto.
Qed.
End peer_mesh.

