(* ===== verification/TopologyHybrid.v ===== *)
(** * The simulator: hybrid topologies and the builder's theorems

    Discovery in a hybrid topology keeps exact accounts: every normal peer ends
    with the number of links it asked for, and the counters agree. With the
    peer mesh of TopologyProps.v this gives the theorems about
    [build_topology]. *)

From stdpp Require Import fin_sets.
From S2P Require Export TopologyProps.

(** ** What discovery establishes *)
Definition discovery_sum (d : DiscoverySelectionCounts) : N :=
  dc_bootstrap_links d + dc_interest_affinity_links d + dc_exploration_links d.
Definition gain (f : nat → N) (peer : nat) (n : N) (i : nat) : N :=
  if decide (i = peer) then f i + n else f i.
Definition gains (f : nat → N) (peers : list nat) (n : N) (i : nat) : N :=
  if decide (i ∈ peers) then f i + n else f i.

Lemma triple_and {S E A} (P1 P2 : S → Prop) (c : PSE S E A) (Q1 Q2 : A → S → Prop) R1 R2 :
  pse_triple P1 c Q1 R1 → pse_triple P2 c Q2 R2 →
  pse_triple (λ s, P1 s ∧ P2 s) c (λ a s, Q1 a s ∧ Q2 a s) (λ _, True).
Proof.
  intros H1 H2 s [Hs1 Hs2]. specialize (H1 s Hs1). specialize (H2 s Hs2).
  by destruct (c s) as [[[a|e] s']|].
Qed.

Lemma triple_assoc {S E A B C} (P : S → Prop) (c : PSE S E A) (f : A → PSE S E B) (g : B → PSE S E C) Q R :
  pse_triple P (b ← (a ← c; f a); g b) Q R → pse_triple P (a ← c; b ← f a; g b) Q R.
Proof.
  intros H s Hs. specialize (H s Hs). revert H. unfold mbind, pse_bind.
  by destruct (c s) as [[[a|e] s']|].
Qed.

Section discovery.
Context (roles : list NodeRole) (caps : DegreeCaps) (P : BoundedGraph → Prop).
Hypothesis HP : lasting P.
Notation ok := (graph_ok roles caps).
Notation size_ := (length roles).
Notation in_range := (in_range roles).

(** [f i] links discovered by node [i], [total] of them counted. *)
Definition accounts (f : nat → N) (total : N) (b : Build) : Prop :=
  ok (bu_graph b) ∧ P (bu_graph b) ∧
  (∀ i o, bg_outbound (bu_graph b) !! i = Some o → ssize o = f i) ∧ discovery_sum (bu_discovery b) = total.
Notation trip f t c V f' t' :=
  (pse_triple (E:=TopologyError) (accounts f t) c (λ a b, V a ∧ accounts f' t' b) (λ _, True)).

Lemma accounts_ext f f' t t' b : (∀ i, f i = f' i) → t = t' → accounts f t b → accounts f' t' b.
Proof. intros Hf -> (? & ? & Ho & ?). split_and!; [done..| |done]. intros i o Hi. by rewrite <-Hf, (Ho i). Qed.
Lemma trip_bind {A B} f t f1 t1 f2 t2 (c : PSE Build TopologyError A) (k : A → PSE Build TopologyError B) V1 V2 :
  trip f t c V1 f1 t1 → (∀ a, V1 a → trip f1 t1 (k a) V2 f2 t2) → trip f t (c ≫= k) V2 f2 t2.
Proof. intros Hc Hk. eapply triple_bind; [exact Hc|]. intros a s [HV Hs]. by apply (Hk a HV s). Qed.
Lemma trip_ret {A} f t (a : A) V : V a → trip f t (mret a) V f t.
Proof. intros HV. by apply triple_ret. Qed.
Lemma trip_panic {A} f t (o : option A) (V : A → Prop) :
  (∃ a, o = Some a ∧ V a) → trip f t (panic_unless o) V f t.
Proof. intros (a & -> & HV) s Hs. by split. Qed.
Lemma trip_shuffled {A} f t (l : list A) : trip f t (shuffled l) (λ l', l' ≡ₚ l) f t.
Proof.
  intros s Hs. unfold shuffled. pose proof (shuffle_perm l (bu_rng s)). destruct (shuffle l (bu_rng s)). by split.
Qed.

Lemma roles_known g i : ok g → (i < size_)%nat → ∃ role, bg_roles g !! i = Some role ∧ True.
Proof. intros Hok Hi. rewrite (gk_roles _ _ _ Hok). apply lookup_lt_is_Some in Hi as [r ->]. eauto. Qed.
Lemma mapM_keyed {A B K} (h : A → option B) (key : B → K) l :
  Forall (λ x, is_Some (h x)) l → ∃ keyed, mapM (λ x, y ← h x; Some (x, key y)) l = Some keyed ∧ keyed.*1 = l.
Proof.
  induction 1 as [|x l [y Hy] _ (keyed & Hk & Hl)]; [by exists []|]. simpl. rewrite Hy. simpl. rewrite Hk. simpl.
  eexists. split; [done|]. by f_equal/=.
Qed.
Lemma grown_refl g : grown g g.
Proof. by intros i j. Qed.
Lemma graph_add_discovered_spec g source candidate :
  ok g → (source < size_)%nat → (candidate < size_)%nat →
  ∃ added g' o, graph_add_discovered g source candidate = Some (added, g') ∧ ok g' ∧ grown g g' ∧
    bg_outbound g !! source = Some o ∧
    (if (added : bool) then candidate ∉ o ∧ bg_outbound g' = <[source := {[candidate]} ∪ o]> (bg_outbound g)
     else g' = g).
Proof.
  intros Hok Hs Hc. unfold graph_add_discovered. rewrite (cap_in roles caps) by done. simpl.
  destruct (lookup_lt_is_Some_2 (bg_inbound g) candidate) as [inbound Hin]; [by rewrite (gk_inbound _ _ _ Hok)|].
  destruct (lookup_lt_is_Some_2 (bg_outbound g) source) as [o Ho]; [by rewrite (gk_outbound_length _ _ _ Hok)|].
  rewrite Hin. simpl. case_decide; [exists false, g, o; auto using grown_refl|].
  destruct (graph_add_spec roles caps g source candidate Hok Hs Hc) as (added & g' & -> & Hok' & Hout & Hinb & Hadd).
  simpl. destruct added; [|subst; exists false, g, o; auto using grown_refl].
  destruct Hadd as (Hno & Hne & He). unfold insert_neighbor. rewrite Hout, Ho. simpl.
  eexists true, _, o. split; [done|]. assert (candidate ∉ (o : gset nat)) as Hfresh.
  { intros H'. by apply Hno, (gk_outbound _ _ _ Hok source o). }
  split_and!; [|intros a b ?; apply He; tauto|done|done|done].
  destruct Hok' as [Hr Hc' Hn' Hol Hil Hirr Hsym Hdeg Hout'].
  split; simpl; [done|done|done|rewrite length_insert; apply (gk_outbound_length _ _ _ Hok)|by rewrite length_insert|done|done|done|].
  intros i s j Hi Hj. apply list_lookup_insert_Some in Hi as [(<- & <- & _)|(_ & Hi)].
  - apply elem_of_union in Hj as [->%elem_of_singleton|Hj]; [apply He; tauto|].
    apply He. left. by apply (gk_outbound _ _ _ Hok source o).
  - apply (Hout' i s); [by rewrite Hout|done].
Qed.
Lemma trip_add_discovered f t source candidate :
  (source < size_)%nat → (candidate < size_)%nat →
  pse_triple (accounts f t) (add_discovered source candidate)
    (λ added, accounts (if (added : bool) then gain f source 1 else f) t) (λ _, True).
Proof.
  intros Hs Hc b (Hok & HPb & Hf & Ht). unfold add_discovered.
  destruct (graph_add_discovered_spec _ _ _ Hok Hs Hc) as (added & g' & o & -> & Hok' & Hg & Ho & Hadd).
  cbn. destruct added; [|by subst]. destruct Hadd as (Hfresh & Hout).
  split_and!; [done|by apply (HP (bu_graph b))| |done]. cbn. rewrite Hout. unfold gain.
  intros i s [(<- & <- & _)|(Hne & Hi)]%list_lookup_insert_Some.
  - rewrite decide_True by done. rewrite <-(Hf _ _ Ho). unfold ssize.
    rewrite size_union by set_solver. rewrite size_singleton. lia.
  - rewrite decide_False by congruence. by apply Hf.
Qed.
Lemma trip_note f t source role adversarial :
  pse_triple (accounts f t) (note_discovery source role adversarial) (λ _, accounts f (t + 1)) (λ _, True).
Proof.
  apply triple_modify. intros b (? & ? & ? & Ht). split_and!; [done..|]. rewrite <-Ht.
  unfold discovery_sum. destruct source; cbn; lia.
Qed.
Lemma trip_discovery_from peer candidates target source adversarial added f t :
  (peer < size_)%nat → in_range candidates → added < target →
  pse_triple (accounts f t) (add_discovery_from peer candidates target source adversarial added)
    (λ _, accounts (gain f peer (target - added)) (t + (target - added))) (λ _, True).
Proof.
  intros Hp. revert added f t. induction candidates as [|candidate candidates IH]; intros added f t Hr Hlt.
  { by intros s _. }
  apply Forall_cons in Hr as [Hc Hr]. simpl.
  eapply triple_bind; [by apply trip_add_discovered|]. intros [].
  2: { by apply IH. }
  apply triple_get. intros b0 (Hok & _).
  eapply triple_bind with (Q' := λ _, accounts (gain f peer 1) t).
  { intros s Hs. unfold panic_unless. destruct (roles_known _ candidate Hok Hc) as (role & -> & _). exact Hs. }
  intros role. eapply triple_bind; [apply trip_note|]. intros [].
  case_decide.
  - apply triple_ret. intros b. apply accounts_ext; [|lia]. intros i. unfold gain. case_decide; lia.
  - eapply triple_conseq; [apply (IH (added + 1)); [done|lia]|done| |done].
    intros [] b. apply accounts_ext; [|lia]. intros i. unfold gain. case_decide; lia.
Qed.
Lemma trip_discovery peer candidates target source adversarial f t :
  (peer < size_)%nat → in_range candidates →
  pse_triple (accounts f t) (add_discovery_links peer candidates target source adversarial)
    (λ _, accounts (gain f peer target) (t + target)) (λ _, True).
Proof.
  intros Hp Hr. unfold add_discovery_links. case_decide as E.
  - apply triple_ret. intros b. apply accounts_ext; [|lia]. intros i. unfold gain. case_decide; lia.
  - eapply triple_conseq; [apply trip_discovery_from; [done..|lia]|done| |done].
    intros [] b. apply accounts_ext; [|lia]. intros i. unfold gain. case_decide; lia.
Qed.

(** Candidate lists only hold candidates. *)
Definition among (l l' : list nat) : Prop := ∀ i, i ∈ l → i ∈ l'.
Lemma trip_candidates values peer f t :
  trip f t (generic_candidates_for_peer values peer) (λ l, among l values) f t.
Proof.
  unfold generic_candidates_for_peer. eapply trip_bind; [apply trip_shuffled|]. intros l Hl.
  apply trip_ret. intros i [_ Hi]%list_elem_of_filter. by rewrite <-Hl.
Qed.
Lemma trip_affinity config peer values f t :
  (∀ i, (i < size_)%nat → is_Some (cohort_of config i)) → (peer < size_)%nat → in_range values →
  trip f t (interest_affinity_candidates config peer values) (λ l, among l values) f t.
Proof.
  intros Hc Hp Hv. unfold interest_affinity_candidates. eapply trip_bind; [apply trip_candidates|].
  intros l Hl. eapply trip_bind; [apply (trip_panic _ _ _ (λ _, True)); destruct (Hc peer Hp); eauto|].
  intros cohort _. eapply trip_bind.
  { apply (trip_panic _ _ _ (λ keyed, keyed.*1 = l)). apply mapM_keyed. apply Forall_forall. intros i Hi.
    apply Hc. by eapply range_lt, Hl. }
  intros keyed Hk. apply trip_ret. intros i Hi. apply Hl. rewrite <-Hk. by rewrite sort_by_perm in Hi.
Qed.
Definition discovered_after (hybrid : HybridSupernodeConfig) : N :=
  match hy_discovery hybrid with
  | DiscMixed => hy_candidate_links_per_peer hybrid - 1
  | _ => hy_candidate_links_per_peer hybrid
  end.
Lemma trip_generic peer generic target source adversarial f t :
  (peer < size_)%nat → in_range generic →
  pse_triple (accounts f t)
    (candidates ← generic_candidates_for_peer generic peer;
     add_discovery_links peer candidates target source adversarial)
    (λ _, accounts (gain f peer target) (t + target)) (λ _, True).
Proof.
  intros Hp Hg. eapply triple_bind; [apply trip_candidates|]. intros l.
  intros s [Hl Hs]. apply (trip_discovery peer l target source adversarial f t Hp); [|done].
  by eapply in_range_sub.
Qed.
Lemma trip_social config peer generic target adversarial f t :
  (∀ i, (i < size_)%nat → is_Some (cohort_of config i)) → (peer < size_)%nat → in_range generic →
  pse_triple (accounts f t)
    (candidates ← interest_affinity_candidates config peer generic;
     add_discovery_links peer candidates target SrcInterestAffinity adversarial)
    (λ _, accounts (gain f peer target) (t + target)) (λ _, True).
Proof.
  intros Hc Hp Hg. eapply triple_bind; [by apply trip_affinity|]. intros l.
  intros s [Hl Hs]. apply (trip_discovery peer l target _ adversarial f t Hp); [|done].
  by eapply in_range_sub.
Qed.
Lemma trip_connect config peer generic adversarial f t :
  (∀ i, (i < size_)%nat → is_Some (cohort_of config i)) → (peer < size_)%nat → in_range generic →
  let n := discovered_after (tc_hybrid config) in
  pse_triple (accounts f t) (connect_discovered_candidates config peer generic adversarial)
    (λ _, accounts (gain f peer n) (t + n)) (λ _, True).
Proof.
  intros Hc Hp Hg n. unfold connect_discovered_candidates. subst n. unfold discovered_after.
  destruct (hy_discovery (tc_hybrid config)) eqn:E; [by apply trip_generic|by apply trip_social|by apply trip_generic|].
  - set (target := hy_candidate_links_per_peer _).
    set (e := N.min _ _). assert (e ≤ target - 1) as He by (subst e; lia).
    apply triple_assoc. eapply triple_bind; [by apply (trip_generic peer generic e)|]. intros [].
    case_decide.
    + eapply triple_conseq; [by apply trip_social|done| |done].
      intros [] b. apply accounts_ext; [|lia]. intros i. unfold gain. case_decide; lia.
    + apply triple_ret. intros b. apply accounts_ext; [|lia]. intros i. unfold gain. case_decide; lia.
Qed.
Lemma trip_each (c : nat → PSE Build TopologyError unit) peers n f t :
  NoDup peers →
  (∀ peer f t, peer ∈ peers → pse_triple (accounts f t) (c peer) (λ _, accounts (gain f peer n) (t + n)) (λ _, True)) →
  pse_triple (accounts f t) (pse_iter c peers) (λ _, accounts (gains f peers n) (t + nlen peers * n)) (λ _, True).
Proof.
  intros Hnd. revert f t. induction Hnd as [|peer peers Hni Hnd IH]; intros f t Hc; simpl.
  - apply triple_ret. intros b. apply accounts_ext; [|unfold nlen; simpl; lia].
    intros i. unfold gains. by rewrite decide_False by apply not_elem_of_nil.
  - eapply triple_bind; [apply Hc; left|]. intros [].
    eapply triple_conseq; [apply IH; intros; apply Hc; by right|done| |done].
    intros [] b. apply accounts_ext; [|unfold nlen; simpl; lia].
    intros i. unfold gains, gain. destruct (decide (i = peer)) as [->|Hne].
    + rewrite (decide_False (P := peer ∈ peers)) by done.
      by rewrite (decide_True (P := peer ∈ peer :: peers)) by left.
    + apply decide_ext. rewrite elem_of_cons. naive_solver.
Qed.
End discovery.

(** *** The supernodes' mesh *)
Fixpoint pairwise (nodes : list nat) (g : BoundedGraph) : Prop :=
  match nodes with [] => True | node :: rest => (∀ other, other ∈ rest → edge g node other) ∧ pairwise rest g end.
Lemma lasting_pairwise nodes : lasting (pairwise nodes).
Proof.
  intros g g' Hg. induction nodes as [|node rest IH]; [done|]. intros [H ?]. split; [|by apply IH].
  intros other Ho. by apply Hg, H.
Qed.
Lemma pairwise_elem nodes g a b :
  (∀ i j, edge g i j → edge g j i) → pairwise nodes g → a ∈ nodes → b ∈ nodes → a ≠ b → edge g a b.
Proof.
  intros Hsym. induction nodes as [|node rest IH]; [by intros _ ?%elem_of_nil|].
  intros [H Hr] [->|Ha]%elem_of_cons [->|Hb]%elem_of_cons Hne; [done|by apply H|by apply Hsym, H|by apply IH].
Qed.
Section supernodes.
Context (roles : list NodeRole) (caps : DegreeCaps) (outbound : list (gset nat)) (d : DiscoverySelectionCounts).
Definition undiscovered (b : Build) : Prop :=
  graph_ok roles caps (bu_graph b) ∧ bg_outbound (bu_graph b) = outbound ∧ bu_discovery b = d.
Lemma est_mesh nodes :
  in_range roles nodes → est roles caps (connect_supernode_mesh nodes) (λ _, pairwise nodes).
Proof.
  induction nodes as [|node rest IH]; intros Hr; [by apply est_ret|].
  apply Forall_cons in Hr as [Hn Hr]. simpl.
  apply (est_bind _ _ _ _ (λ _ g, ∀ other, other ∈ rest → edge g node other)).
  - apply (est_iter _ _ _ _ (λ other g, edge g node other)); [intros; apply lasting_edge|].
    intros other Ho. eapply est_bind; [apply est_add; [done|by eapply range_lt]|intros; apply lasting_added|].
    intros [] g _; [apply est_ret; auto|apply est_fail].
  - intros []. apply lasting_forall. intros other. apply lasting_impl, lasting_edge.
  - intros [] g _. eapply est_weaken; [by apply IH|]. intros [] g' _ ? ?. by split.
Qed.
Lemma undiscovered_mesh nodes :
  in_range roles nodes → pse_triple undiscovered (connect_supernode_mesh nodes) (λ _, undiscovered) (λ _, True).
Proof.
  induction nodes as [|node rest IH]; intros Hr; [by apply triple_ret|].
  apply Forall_cons in Hr as [Hn Hr]. simpl. apply (triple_bind _ _ _ (λ _, undiscovered)); [|intros []; by apply IH].
  apply triple_iter. intros other Ho. apply (triple_bind _ _ _ (λ _, undiscovered)).
  - intros b (Hok & Hout & Hd). unfold add.
    destruct (graph_add_spec roles caps (bu_graph b) node other Hok Hn ltac:(by eapply range_lt))
      as (added & g' & -> & Hok' & Hout' & _). cbn. by rewrite <-Hout' in Hout.
  - intros []; [by apply triple_ret|by intros b _].
Qed.
End supernodes.

Section hybrid.
Context (config : TopologyConfig) (roles : list NodeRole) (caps : DegreeCaps).
Hypothesis Hroles : length roles = N.to_nat (tc_node_count config).
Hypothesis Hids : length (tc_cohort_ids config) = N.to_nat (tc_node_count config).
Context (truth : GroundTruth).
Hypothesis Hsuper : in_range roles (gt_honest_supernodes truth).
Hypothesis Hgeneric : in_range roles (gt_generic_candidates truth).
Hypothesis Hnormal : in_range roles (gt_normal_peers truth).
Hypothesis Hdistinct : NoDup (gt_normal_peers truth).
Hypothesis Htarget : gt_normal_peers truth ≠ [] → hy_candidate_links_per_peer (tc_hybrid config) ≠ 0.

Lemma hybrid_links_spec :
  pse_triple (undiscovered roles caps (replicate (length roles) ∅) discovery_counts_default)
    (hybrid_links config truth)
    (λ _, accounts roles caps (pairwise (gt_honest_supernodes truth))
            (gains (λ _, 0) (gt_normal_peers truth) (hy_candidate_links_per_peer (tc_hybrid config)))
            (nlen (gt_normal_peers truth) * hy_candidate_links_per_peer (tc_hybrid config)))
    (λ _, True).
Proof.
  set (P := pairwise _). set (target := hy_candidate_links_per_peer _). set (peers := gt_normal_peers truth).
  assert (∀ i, (i < length roles)%nat → is_Some (cohort_of config i)) as Hc.
  { intros i Hi. apply (cohort_known _ Hids). lia. }
  eapply triple_bind with (Q' := λ _, accounts roles caps P (λ _, 0) 0).
  { eapply triple_conseq.
    - apply (triple_and _ _ _ _ _ _ _ (undiscovered_mesh roles caps (replicate (length roles) ∅) discovery_counts_default _ Hsuper)
               (est_mesh roles caps _ Hsuper (λ _, True) (lasting_pure True))).
    - intros s Hs. split; [exact Hs|]. by split; [apply Hs|].
    - intros [] b [(Hok & Hout & Hd) (_ & _ & HP)]. split_and!; [done..| |by rewrite Hd].
      intros i o. rewrite Hout. intros [-> _]%lookup_replicate_1. done.
    - done. }
  intros [].
  eapply triple_bind with (Q' := λ _, accounts roles caps P
    (gains (λ _, 0) peers (target - discovered_after (tc_hybrid config)))
    (nlen peers * (target - discovered_after (tc_hybrid config)))).
  { case_decide as Em.
    - eapply triple_conseq; [|done| |done].
      + unfold connect_mixed_bootstraps. apply (trip_each _ _ _ _ _ 1 (λ _, 0) 0 Hdistinct). intros peer f t Hp.
        eapply triple_conseq; [apply (trip_generic roles caps P (lasting_pairwise _))|done|done|done]; [|done].
        by eapply range_lt.
      + intros [] b. apply accounts_ext.
        * intros i. unfold gains. fold peers. case_decide as Hi; [|done]. unfold discovered_after. rewrite Em.
          fold target. assert (target ≠ 0); [|lia]. apply Htarget. fold peers. intros E. rewrite E in Hi. by apply elem_of_nil in Hi.
        * unfold discovered_after. rewrite Em. fold target peers. destruct (decide (peers = [])) as [->|Hne]; [done|].
          specialize (Htarget Hne). fold target in Htarget. nia.
    - apply triple_ret. intros b. unfold discovered_after. fold target.
      destruct (hy_discovery (tc_hybrid config)); [..|done]; apply accounts_ext; try lia;
        intros i; unfold gains; case_decide; lia. }
  intros []. eapply triple_conseq; [|done| |done].
  - apply (trip_each _ _ _ _ _ (discovered_after (tc_hybrid config)) _ _ Hdistinct). intros peer f t Hp.
    apply (trip_connect roles caps P (lasting_pairwise _)); [done| |done]. by eapply range_lt.
  - assert (discovered_after (tc_hybrid config) ≤ target) as Hle
      by (unfold discovered_after, target; destruct (hy_discovery _); lia).
    intros [] b. apply accounts_ext; [|fold peers; nia].
    intros i. unfold gains. fold peers. case_decide; lia.
Qed.
End hybrid.

(** ** The topologies that are built *)
Definition adjacent (r : TopologyResult) (i j : nat) : Prop := ∃ ns, tr_neighbors r !! i = Some ns ∧ j ∈ ns.
Definition config_caps (config : TopologyConfig) : DegreeCaps :=
  let peer := tc_peer_mesh config in
  let hybrid := tc_hybrid config in
  match tc_strategy config with
  | PeerMesh => mkCaps (pm_max_peer_degree peer) (pm_max_peer_degree peer) (pm_max_attacker_degree peer)
  | HybridSupernodes =>
      mkCaps (hy_max_peer_degree hybrid) (hy_max_supernode_degree hybrid) (hy_max_attacker_degree hybrid)
  end.
(** A simple graph on the configured nodes, within their degrees. *)
Record topology_ok (config : TopologyConfig) (r : TopologyResult) : Prop := {
  to_neighbors : nlen (tr_neighbors r) = tc_node_count config;
  to_outbound : nlen (tr_outbound_discovery_neighbors r) = tc_node_count config;
  to_roles : nlen (tr_roles r) = tc_node_count config;
  to_attackers i : tr_roles r !! i = Some RoleAttacker ↔ N.of_nat i < tc_attacker_count config;
  to_irreflexive i : ¬ adjacent r i i;
  to_symmetric i j : adjacent r i j → adjacent r j i;
  to_distinct i ns : tr_neighbors r !! i = Some ns → NoDup ns;
  to_degree i ns role : tr_neighbors r !! i = Some ns → tr_roles r !! i = Some role →
    nlen ns ≤ role_cap (config_caps config) role;
  to_discovered i os j : tr_outbound_discovery_neighbors r !! i = Some os → j ∈ os → adjacent r i j;
}.

Lemma sorted_nodes_perm s : sorted_nodes s ≡ₚ elements s.
Proof. apply sort_by_perm. Qed.
Lemma adjacent_edge config supernodes adversarial b i j :
  adjacent (topology_of config supernodes adversarial b) i j ↔ edge (bu_graph b) i j.
Proof.
  unfold adjacent, edge. simpl. split.
  - intros (ns & Hns & Hj). apply list_lookup_fmap_Some in Hns as (s & -> & Hs).
    rewrite sorted_nodes_perm, elem_of_elements in Hj. eauto.
  - intros (s & Hs & Hj). exists (sorted_nodes s). rewrite list_lookup_fmap, Hs. split; [done|].
    by rewrite sorted_nodes_perm, elem_of_elements.
Qed.
Lemma topology_of_ok config roles supernodes adversarial b :
  graph_ok roles (config_caps config) (bu_graph b) → nlen roles = tc_node_count config →
  (∀ i, roles !! i = Some RoleAttacker ↔ N.of_nat i < tc_attacker_count config) →
  topology_ok config (topology_of config supernodes adversarial b).
Proof.
  intros Hok Hlen Hatt. pose proof Hok as [Hr Hc Hn Ho Hi Hirr Hsym Hdeg Hout]. unfold nlen in Hlen.
  split; simpl.
  - unfold nlen. by rewrite length_fmap, Hn.
  - unfold nlen. by rewrite length_fmap, Ho.
  - by rewrite Hr.
  - by rewrite Hr.
  - intros i. by rewrite adjacent_edge.
  - intros i j. rewrite !adjacent_edge. apply Hsym.
  - intros i ns Hns. apply list_lookup_fmap_Some in Hns as (s & -> & Hs).
    rewrite sorted_nodes_perm. apply NoDup_elements.
  - intros i ns role Hns Hrole. apply list_lookup_fmap_Some in Hns as (s & -> & Hs).
    specialize (Hdeg i s Hs). unfold nbound in Hdeg. rewrite Hr in Hrole. rewrite Hrole in Hdeg.
    unfold nlen. by rewrite sorted_nodes_perm.
  - intros i os j Hos Hj. apply list_lookup_fmap_Some in Hos as (s & -> & Hs).
    rewrite sorted_nodes_perm, elem_of_elements in Hj. apply adjacent_edge. by apply (Hout i s).
Qed.
Lemma graph_new_ok roles caps : graph_ok roles caps (graph_new roles caps).
Proof.
  assert (∀ i j, ¬ edge (graph_new roles caps) i j) as Hno.
  { intros i j (s & Hs & Hj). simpl in Hs. apply lookup_replicate_1 in Hs as [-> _]. set_solver. }
  split; simpl; try by rewrite ?length_replicate.
  - intros i j Hij. by apply Hno in Hij.
  - intros i s [-> _]%lookup_replicate_1. unfold ssize. rewrite size_empty. lia.
  - intros i o j [-> _]%lookup_replicate_1. set_solver.
Qed.
Lemma base_roles_lookup n attackers i :
  base_roles n attackers !! i =
  if decide (i < N.to_nat n)%nat
  then Some (if decide (N.of_nat i < attackers) then RoleAttacker else RolePeer) else None.
Proof.
  unfold base_roles. rewrite list_lookup_fmap. case_decide.
  - by rewrite lookup_seq_lt by done.
  - by rewrite lookup_seq_ge by lia.
Qed.
Lemma base_roles_attackers n attackers i :
  attackers ≤ n → base_roles n attackers !! i = Some RoleAttacker ↔ N.of_nat i < attackers.
Proof. intros Hle. rewrite base_roles_lookup. repeat case_decide; split; intros; try done; lia. Qed.
Lemma supernode_roles_lookup (roles : list NodeRole) supernodes i :
  foldl (λ roles node, <[node := RoleSupernode]> roles) roles supernodes !! i =
  if decide (i ∈ supernodes) then (λ _, RoleSupernode) <$> roles !! i else roles !! i.
Proof.
  revert roles. induction supernodes as [|node rest IH]; intros roles; cbn [foldl].
  { by rewrite decide_False by apply not_elem_of_nil. }
  rewrite IH. destruct (decide (i = node)) as [->|Hne].
  - rewrite (decide_True (P := node ∈ node :: rest)) by left.
    destruct (roles !! node) as [r|] eqn:E.
    + rewrite list_lookup_insert_eq by (by eapply lookup_lt_Some). by case_decide.
    + rewrite list_insert_ge by (by apply lookup_ge_None). rewrite E. by case_decide.
  - rewrite list_lookup_insert_ne by done. rewrite (decide_ext (i ∈ rest) (i ∈ node :: rest)); [done|].
    rewrite elem_of_cons. naive_solver.
Qed.

Lemma supernode_roles_length (roles : list NodeRole) supernodes :
  length (foldl (λ roles node, <[node := RoleSupernode]> roles) roles supernodes) = length roles.
Proof.
  revert roles. induction supernodes as [|node rest IH]; intros roles; simpl; [done|].
  by rewrite IH, length_insert.
Qed.
Lemma take_in {A} (x : A) n l : x ∈ take n l → x ∈ l.
Proof. intros (k & Hk & _)%elem_of_take. by eapply list_elem_of_lookup_2. Qed.

(** *** The ground truth of a hybrid topology *)
Lemma ground_truth_spec config :
  let truth := hybrid_ground_truth config in
  (∀ i, i ∈ gt_honest_supernodes truth → i ∈ honest_nodes config) ∧
  NoDup (gt_honest_supernodes truth) ∧
  nlen (gt_honest_supernodes truth) =
    N.min (hy_honest_supernode_count (tc_hybrid config)) (nlen (honest_nodes config)) ∧
  (∀ i, i ∈ gt_generic_candidates truth → i ∈ honest_nodes config ∨ i ∈ attacker_nodes config) ∧
  NoDup (gt_normal_peers truth) ∧
  (∀ i, i ∈ gt_normal_peers truth ↔ i ∈ honest_nodes config ∧ i ∉ gt_honest_supernodes truth).
Proof.
  unfold hybrid_ground_truth.
  pose proof (shuffle_perm (honest_nodes config) (rng_new (N.lxor (tc_seed config) 0x485942524944524F))) as Hh.
  pose proof (shuffle_perm (attacker_nodes config) (rng_new (N.lxor (tc_seed config) 0x444953434F564552))) as Ha.
  destruct (shuffle (honest_nodes config) _) as [honest x]. destruct (shuffle (attacker_nodes config) _) as [attackers y].
  cbn [fst] in Hh, Ha. cbn. assert (NoDup honest) as Hnd by (rewrite Hh; apply NoDup_seq).
  split_and!.
  - intros i Hi. rewrite <-Hh. by eapply take_in.
  - rewrite <-(take_drop (N.to_nat (N.min (hy_honest_supernode_count (tc_hybrid config)) (nlen honest))) honest) in Hnd.
    by apply NoDup_app in Hnd as [? _].
  - unfold nlen. rewrite length_take, <-Hh. lia.
  - intros i [Hi|Hi]%elem_of_app; [by left|right]. rewrite <-Ha. by eapply take_in.
  - by apply NoDup_filter.
  - intros i. rewrite list_elem_of_filter. assert (i ∈ honest ↔ i ∈ honest_nodes config) as -> by (by rewrite Hh).
    tauto.
Qed.
Lemma coverage_bounded d :
  dc_peers_selecting_high_capacity d ≤ dc_candidate_peer_count d → selection_coverage_basis_points d ≤ 10000.
Proof.
  intros Hle. unfold selection_coverage_basis_points. case_decide as E; [lia|].
  etrans; [apply N.le_min_l|]. apply N.Div0.div_le_upper_bound. unfold sat_mul. nia.
Qed.

(** *** What the two builders return *)
Section built.
Context (config : TopologyConfig).
Hypothesis Hcommon : validate_common config = Ok tt.

Lemma common_ids : length (tc_cohort_ids config) = N.to_nat (tc_node_count config).
Proof. revert Hcommon. unfold validate_common, nlen. repeat case_decide; try done. intros _. lia. Qed.
Lemma common_attackers : tc_attacker_count config < tc_node_count config.
Proof. revert Hcommon. unfold validate_common. repeat case_decide; try done. intros _. lia. Qed.

Lemma build_peer_mesh_spec :
  tc_strategy config = PeerMesh →
  ∃ answer, build_peer_mesh config = Some answer ∧
  match answer with
  | Ok r => topology_ok config r ∧ ∃ b, r = topology_of config [] [] b ∧
      (∀ i j, edge (bu_graph b) i j → edge (bu_graph b) j i) ∧ all_linked (honest_nodes config) (bu_graph b)
  | Err _ => True
  end.
Proof.
  intros Hs. pose proof common_attackers as Hatt. unfold build_peer_mesh.
  destruct (honest_cohorts_spec config (honest_cohort_known config common_ids Hatt)) as (cohorts & -> & Hp).
  simpl. destruct (validate_peer_mesh _ _) as [[]|e]; [|by eexists].
  set (roles := base_roles (tc_node_count config) (tc_attacker_count config)).
  assert (length roles = N.to_nat (tc_node_count config)) as Hroles
    by (unfold roles, base_roles; by rewrite length_fmap, length_seq).
  assert (inv roles (config_caps config) (λ _, True) (peer_mesh_start config)) as Hstart.
  { split; [|done]. unfold config_caps. rewrite Hs. apply graph_new_ok. }
  pose proof (est_peer_mesh config roles (config_caps config) Hroles common_ids Hatt cohorts Hp
                (λ _, True) (lasting_pure True) _ Hstart) as Hrun.
  destruct (peer_mesh_links config cohorts (peer_mesh_start config)) as [[[[]|e] b]|]; [|by eexists|done].
  destruct Hrun as (Hok & _ & groups & Hg & Hrings & Hback). simpl. eexists. split; [done|]. split.
  - apply (topology_of_ok _ roles); [done|unfold nlen; lia|]. intros i. apply base_roles_attackers. lia.
  - exists b. assert (∀ i j, edge (bu_graph b) i j → edge (bu_graph b) j i) as Hsym by apply (gk_symmetric _ _ _ Hok).
    split_and!; [done..|]. apply (all_linked_perm _ _ _ Hg), backbone_linked; [done| |done].
    eapply Forall_impl; [exact Hrings|]. intros nodes. by apply ring_linked.
Qed.
Definition normal_peer (i : nat) : Prop :=
  i ∈ honest_nodes config ∧ i ∉ gt_honest_supernodes (hybrid_ground_truth config).
#[export] Instance normal_peer_dec i : Decision (normal_peer i).
Proof. unfold normal_peer. apply _. Defined.

Lemma hybrid_target generic adversarial normal :
  validate_hybrid config generic adversarial normal = Ok tt → normal ≠ 0 →
  hy_candidate_links_per_peer (tc_hybrid config) ≠ 0.
Proof. unfold validate_hybrid. repeat case_decide; done. Qed.
Lemma peers_with_supernode_spec roles caps g supernodes normal :
  graph_ok roles caps g → in_range roles normal →
  ∃ n, peers_with_supernode g supernodes normal = Some n ∧ n ≤ nlen normal.
Proof.
  intros Hok Hr. unfold peers_with_supernode.
  edestruct (mapM_is_Some_2 (λ peer, neighbors ← bg_neighbors g !! peer;
    Some (existsb (λ s, bool_decide (s ∈ (neighbors : gset nat))) supernodes)) normal) as [l Hl].
  { apply Forall_forall. intros i Hi. destruct (neighbors_in _ _ g i Hok) as [s Hsome]; [by eapply range_lt|].
    eexists. cbn beta. by rewrite Hsome. }
  rewrite Hl. eexists. split; [done|]. apply length_mapM in Hl. unfold nlen. rewrite Hl.
  pose proof (length_filter (λ c, c = true) l). lia.
Qed.
Lemma build_hybrid_spec :
  tc_strategy config = HybridSupernodes →
  let truth := hybrid_ground_truth config in
  let target := hy_candidate_links_per_peer (tc_hybrid config) in
  let peers := nlen (gt_normal_peers truth) in
  ∃ answer, build_hybrid_supernodes config = Some answer ∧
  match answer with
  | Ok r => topology_ok config r ∧ tr_honest_supernodes r = gt_honest_supernodes truth ∧
      (∀ a b, a ∈ tr_honest_supernodes r → b ∈ tr_honest_supernodes r → a ≠ b → adjacent r a b) ∧
      (∀ i os, tr_outbound_discovery_neighbors r !! i = Some os → nlen os = if decide (normal_peer i) then target else 0) ∧
      discovery_sum (tr_discovery_selections r) = peers * target ∧
      dc_candidate_peer_count (tr_discovery_selections r) = peers ∧
      dc_peers_selecting_high_capacity (tr_discovery_selections r) ≤ peers
  | Err _ => True
  end.
Proof.
  intros Hs truth target peers. pose proof common_attackers as Hatt. unfold build_hybrid_supernodes.
  destruct (ground_truth_spec config) as (Hsup & Hsnd & _ & Hgen & Hnnd & Hnorm). fold truth in Hsup, Hsnd, Hgen, Hnnd, Hnorm |- *.
  destruct (validate_hybrid _ _ _ _) as [[]|e] eqn:Hv; [|by eexists].
  set (roles := hybrid_roles config (gt_honest_supernodes truth)).
  assert (∀ i, roles !! i = if decide (i ∈ gt_honest_supernodes truth)
    then (λ _, RoleSupernode) <$> base_roles (tc_node_count config) (tc_attacker_count config) !! i
    else base_roles (tc_node_count config) (tc_attacker_count config) !! i) as Hlook.
  { intros i. apply supernode_roles_lookup. }
  assert (length roles = N.to_nat (tc_node_count config)) as Hroles.
  { unfold roles, hybrid_roles. rewrite supernode_roles_length. unfold base_roles. by rewrite length_fmap, length_seq. }
  assert (∀ l, (∀ i, i ∈ l → i ∈ honest_nodes config ∨ i ∈ attacker_nodes config) → in_range roles l) as Hrange.
  { intros l Hl. apply Forall_forall. intros i Hi. rewrite Hroles.
    destruct (Hl i Hi) as [?|?]; [by apply honest_in|by apply attacker_in]. }
  pose proof (hybrid_links_spec config roles (config_caps config) Hroles common_ids truth
    (Hrange _ (λ i Hi, or_introl (Hsup i Hi))) (Hrange _ Hgen)
    (Hrange _ (λ i Hi, or_introl (proj1 (proj1 (Hnorm i) Hi)))) Hnnd) as Hlinks.
  ospecialize (Hlinks _).
  { intros Hne. eapply hybrid_target; [exact Hv|]. destruct (gt_normal_peers truth); [done|]. unfold nlen. simpl. lia. }
  ospecialize (Hlinks (hybrid_start config truth) _).
  { split_and!; [|done..]. unfold config_caps. rewrite Hs. apply graph_new_ok. }
  destruct (hybrid_links config truth (hybrid_start config truth)) as [[[[]|e] b]|]; [|by eexists|done].
  destruct Hlinks as (Hok & Hpair & Hout & Hsum). simpl.
  destruct (peers_with_supernode_spec roles _ _ (gt_honest_supernodes truth) (gt_normal_peers truth) Hok
    (Hrange _ (λ i Hi, or_introl (proj1 (proj1 (Hnorm i) Hi))))) as (n & -> & Hn).
  simpl. eexists. split; [done|]. split_and!; [|done| | |done|done|done].
  - apply (topology_of_ok _ roles); [done|unfold nlen; lia|]. intros i. rewrite Hlook.
    rewrite <-base_roles_attackers by (by apply N.lt_le_incl). case_decide as Hi; [|done].
    apply Hsup, honest_in in Hi as [? ?]; [|done]. rewrite base_roles_lookup.
    repeat case_decide; simpl; split; intros; try done; lia.
  - simpl. intros a c Ha Hc Hne. apply adjacent_edge. simpl.
    by apply (pairwise_elem (gt_honest_supernodes truth)); [apply (gk_symmetric _ _ _ Hok)|..].
  - simpl. intros i os Hos. apply list_lookup_fmap_Some in Hos as (s & -> & Hset).
    unfold nlen. rewrite sorted_nodes_perm. etrans; [apply (Hout i s Hset)|]. unfold gains.
    apply decide_ext. unfold normal_peer. apply Hnorm.
Qed.
End built.

(** ** Theorems *)

(** C21. [build_topology] always answers (no index is out of range and every
    loop ends), and a topology it returns has one entry per node for the
    neighbors, discoveries and roles, marks exactly the configured attackers,
    is a simple undirected graph whose every degree is within its node's role
    cap, and discovers only along its edges. *)
Theorem topology_well_formed (config : TopologyConfig) :
  ∃ answer, build_topology config = Some answer ∧
  match answer with Ok r => topology_ok config r | Err _ => True end.
Proof.
  unfold build_topology. destruct (validate_common config) as [[]|e] eqn:Hv; [|by eexists].
  destruct (tc_strategy config) eqn:Hs.
  - destruct (build_peer_mesh_spec config Hv Hs) as (answer & -> & Ha).
    exists answer. split; [done|]. destruct answer; [apply Ha|done].
  - destruct (build_hybrid_spec config Hv Hs) as (answer & -> & Ha).
    exists answer. split; [done|]. destruct answer; [apply Ha|done].
Qed.

(** C22. In a peer mesh that was built, any two honest nodes are joined by a
    path of honest nodes: no attacker is needed to carry an event from one to
    the other, whatever the cohorts, the seed and the degree caps. *)
Theorem peer_mesh_connected (config : TopologyConfig) (r : TopologyResult) (i j : nat) :
  tc_strategy config = PeerMesh → build_topology config = Some (Ok r) →
  i ∈ honest_nodes config → j ∈ honest_nodes config →
  rtc (λ a b, adjacent r a b ∧ a ∈ honest_nodes config ∧ b ∈ honest_nodes config) i j.
Proof.
  intros Hs. unfold build_topology. destruct (validate_common config) as [[]|e] eqn:Hv; [|done].
  rewrite Hs. destruct (build_peer_mesh_spec config Hv Hs) as (answer & -> & Ha).
  intros [= ->] Hi Hj. destruct Ha as (_ & b & -> & _ & Hc).
  eapply rtc_subrel; [|by apply (Hc i j)]. intros x y (He & Hx & Hy). by rewrite adjacent_edge.
Qed.

(** C23. In a hybrid topology that was built, the supernodes are honest and
    joined pairwise, every other honest node discovered exactly
    [candidate_links_per_peer] candidates and no other node discovered any,
    and the counters of the three discovery sources add up to the links
    discovered, whatever the discovery strategy. *)
Theorem hybrid_discovery_exact (config : TopologyConfig) (r : TopologyResult) :
  tc_strategy config = HybridSupernodes → build_topology config = Some (Ok r) →
  let supernodes := tr_honest_supernodes r in
  let target := hy_candidate_links_per_peer (tc_hybrid config) in
  (∀ a, a ∈ supernodes → a ∈ honest_nodes config) ∧
  nlen supernodes = N.min (hy_honest_supernode_count (tc_hybrid config)) (nlen (honest_nodes config)) ∧
  (∀ a b, a ∈ supernodes → b ∈ supernodes → a ≠ b → adjacent r a b) ∧
  (∀ i os, tr_outbound_discovery_neighbors r !! i = Some os →
     nlen os = if decide (i ∈ honest_nodes config ∧ i ∉ supernodes) then target else 0) ∧
  discovery_sum (tr_discovery_selections r) = dc_candidate_peer_count (tr_discovery_selections r) * target ∧
  selection_coverage_basis_points (tr_discovery_selections r) ≤ 10000.
Proof.
  intros Hs. unfold build_topology. destruct (validate_common config) as [[]|e] eqn:Hv; [|done].
  rewrite Hs. destruct (build_hybrid_spec config Hv Hs) as (answer & -> & Ha).
  intros [= ->]. destruct Ha as (_ & Hsup & Hpair & Hout & Hsum & Hcount & Hsel).
  destruct (ground_truth_spec config) as (Hh & _ & Hlen & _).
  cbv zeta. split_and!; [by rewrite Hsup|by rewrite Hsup|done| |by rewrite Hcount|].
  - intros i os Hos. rewrite (Hout i os Hos). apply decide_ext. by rewrite Hsup.
  - apply coverage_bounded. by rewrite Hcount.
Qed.

Module TopologyWitness.
Definition config (strategy : TopologyStrategy) : TopologyConfig :=
  mkTopologyConfig 9 2 [0; 1; 0; 1; 0; 1; 0; 1; 1] 7 strategy (mkPeerMeshConfig 1 1 1 6 8)
    (mkHybridConfig DiscMixed 2 1 3 1 8 8 8).
Definition built (strategy : TopologyStrategy) : TopologyResult :=
  match build_topology (config strategy) with
  | Some (Ok r) => r
  | _ => mkTopologyResult [] [] [] [] [] [] discovery_counts_default
  end.
Lemma peer_mesh_connected_witness :
  rtc (λ a b, adjacent (built PeerMesh) a b ∧ a ∈ honest_nodes (config PeerMesh) ∧ b ∈ honest_nodes (config PeerMesh))
    2%nat 7%nat.
Proof.
  apply (peer_mesh_connected (config PeerMesh) (built PeerMesh) 2 7).
  - reflexivity.
  - vm_compute. reflexivity.
  - by apply (bool_decide_unpack _).
  - by apply (bool_decide_unpack _).
Defined.
Lemma hybrid_discovery_exact_witness :
  discovery_sum (tr_discovery_selections (built HybridSupernodes)) = 15 ∧
  selection_coverage_basis_points (tr_discovery_selections (built HybridSupernodes)) ≤ 10000.
Proof.
  destruct (hybrid_discovery_exact (config HybridSupernodes) (built HybridSupernodes))
    as (_ & _ & _ & _ & Hsum & Hcov).
  - reflexivity.
  - vm_compute. reflexivity.
  - split; [|exact Hcov]. rewrite Hsum. vm_compute. reflexivity.
Defined.
End TopologyWitness.
